(* ===== verification/_CoqProject ===== *)
-Q . S2P
Prelude.v
GoStrings.v
GoStringFacts.v
GoPath.v
GoSort.v
GoNum.v
GoBase64.v
GoTime.v
StandInJSON.v
QueryParser.v
QueryParserFacts.v
ResultCache.v
Versions.v
SelfUpdate.v
Graph.v
GraphFacts.v
GraphStore.v
GraphStoreFacts.v
IndexTables.v
GraphValidate.v
GraphValidateFacts.v
GraphPublish.v
GraphPublishFacts.v
GraphStaging.v
GraphActivation.v
GraphPublishExample.v
IndexJobs.v
IndexPublish.v
IndexJobsFacts.v
IndexJobsSteps.v
IndexJobsRuns.v
IndexJobsSystem.v
IndexJobsFences.v
IndexJobsCancel.v
IndexJobsPublication.v
IndexJobsLive.v
IndexJobsProps.v
IndexJobsExample.v
GraphImpact.v
GraphImpactFacts.v
GraphSearchFacts.v
GraphCoverageFacts.v
GraphImpactExample.v
SnapshotCache.v
SnapshotCacheFacts.v
SnapshotCacheUse.v
Ids.v
QItem.v
QSession.v
QSessionFacts.v
QCursor.v
QPrimitives.v
QLogic.v
QPipeline.v
QPipelineFacts.v
QStagesFacts.v
QPages.v
QExample.v
Transaction.v
TransactionFacts.v
UpdateListener.v
UpdateListenerFacts.v
StartLock.v
StartLockFacts.v
Truncator.v
TruncatorFacts.v
