(* ===== verification/Prelude.v ===== *)
(** mi-lsp: a verification development

    mi-lsp answers questions about a workspace of source code: a command line
    and a daemon (src/internal/cli, src/internal/daemon) serve a query language
    (src/internal/query) over an index and a graph of the code
    (src/internal/model, src/internal/store, src/internal/service), and keep
    themselves up to date (src/internal/selfupdate).  This library models the
    parts that decide something by themselves, translated function by function
    from the Go sources, and proves what makes them correct.

    ** Files

    - Prelude: Go strings as lists of bytes with their literals, the [result] and
      [eff] (state and error) monads with a small weakest-precondition calculus,
      64-bit integers, tactics and generic lemmas.
    - GoStrings, GoStringFacts, GoPath, GoSort, GoNum, GoBase64: the parts of Go's strings,
      unicode/utf8, path, sort, strconv, encoding/hex, encoding/base64, encoding/binary and
      net/url that the sources call, with their laws.  StandInJSON is a writer and reader
      that stands in for encoding/json in the examples.
    - QueryParser, QueryParserFacts: query/parser.go and query/recipes.go, from
      splitting and tokenizing to [Parse], [ExpandRecipe] and [quoteArg].
    - QItem, QSession, QCursor, QPrimitives, QPipeline: how an accepted text runs
      (model/qitem.go, service/primitives_*.go and the confidentiality of service/visibility.go):
      items and their rows; what a session has been given, with its marks ([SessionState]);
      the signed cursors of pages; the stages; and [ExecuteQ], from the options of a request
      to the page that fits.  QSessionFacts, QLogic (what a stage returns whatever it is
      answered, and what it returns in a workspace that does not change), QStagesFacts,
      QPipelineFacts and QPages hold their theorems, QExample a small workspace on which they
      and the shortcomings of the code are evaluated.
    - ResultCache: daemon/result_cache.go (an LRU cache with expiry) and
      daemon/memory_policy.go.
    - Versions: selfupdate/version.go and the version tests of the daemon.
    - SelfUpdate: the run of the updater (state.go, policy.go, source.go,
      engine.go, schedule.go of src/internal/selfupdate).
    - Transaction, TransactionFacts: selfupdate/transaction.go, the extraction of
      the archive and the replacement of the executable, over an explicit file
      system.
    - UpdateListener, UpdateListenerFacts: daemon/update_listener.go, the listener
      that an update pauses, as a machine of goroutines.
    - StartLock, StartLockFacts: daemon/start_lock.go, the lock of the process that
      starts a daemon, as a machine of processes over one file.
    - Truncator, TruncatorFacts: output/truncator.go, the limits of an answer and of
      its text.
    - Graph, GraphFacts: model/graph.go, the identities, records, validation,
      content hash and sealing of a generation of the code graph.
    - GraphStore, GraphStoreFacts: the reads of store/graph_query.go and
      store/graph_impact.go, with the freshness of model/graph_analysis.go.
    - GoTime: Go's times in UTC with the RFC 3339 text.
    - GraphValidate, GraphValidateFacts: the reads of store/graph.go that check a stored
      generation against its content hash, and the walk over its predecessors.
    - GraphPublish, GraphPublishFacts: the writes of store/graph.go and
      store/graph_recovery.go and the graph part of store/index_publish.go, as
      transactions.  GraphStaging shows that what is staged is what validation hashed;
      GraphActivation closes the operations into a machine and holds the theorems;
      GraphPublishExample publishes a small repository and shows corner cases.
    - IndexTables, IndexJobs, IndexPublish: store/index_jobs.go and store/index_publish.go,
      the jobs that build an index: their rows, the operations on them, and the
      publications.  IndexJobsFacts and IndexJobsSteps say what one transaction does;
      IndexJobsRuns, that every access of every operation is an advance of the data base,
      alone or among others; IndexJobsSystem closes the operations into a system of
      processes next to the life cycle that it refines; IndexJobsFences, IndexJobsCancel,
      IndexJobsPublication and IndexJobsLive hold what lost fences, cancellations,
      publications, creations and dead workers need; IndexJobsProps has the theorems, and
      IndexJobsExample runs them.
    - GraphImpact: model/graph_impact.go and service/graph_impact.go, the search for
      what a change touches.  GraphImpactFacts (requests, seeds and pages),
      GraphSearchFacts (what is reported is justified, errors), GraphCoverageFacts
      (what must be reported is) hold its theorems, GraphImpactExample a graph on which
      they and the shortcomings of the search are evaluated.
    - SnapshotCache: the cache of worktree graph snapshots of service/graph_query.go
      ([acquireWorktreeGraphSnapshot] to [closeWorktreeGraphSnapshots]), as a machine of the
      goroutines that wait for, build, use and close snapshots.  SnapshotCacheFacts holds
      eviction and the accounting that every step keeps, SnapshotCacheUse the theorems and
      an execution.
    - Ids: model/ids.go, the printed identities of symbols, ranges and documents.

    ** How the code is modelled

    A Go function that returns an error is a [result]; the messages that callers
    or users see are kept.  A method that updates its receiver takes the old
    state and returns the new one.  A function that does I/O runs in [eff] over
    the state it can change; what the outside world answers (the clock, the
    network, whether a system call fails) is an oracle, an argument over which
    the theorems quantify.  Loops over slices are folds.  Integers that can
    overflow are wrapped to 64 bits.  SHA-256, Unicode normalization, the Unicode
    tables outside ASCII, the URL parser, JSON and the archive readers are
    parameters with the documented laws that are used; concrete instances of all
    of them evaluate the examples.

    Concurrent code is a step relation.  A goroutine of the listener is a program
    counter; one step is one region under the mutex, or one event of the
    environment, and the theorems hold in every reachable state.  The snapshot cache is modelled in the same
    way; its invariant says of every counter of the program which goroutines it counts.
    The start lock is a
    file that processes create, read and remove in any order and may leave behind
    when they die; the guard around it is an exclusive lock of the system.

    The data base is read in one transaction, which sees one state of the tables, so a
    snapshot holds rows and a statement is a selection of them: filter, order, limit.
    [Connection] says which calls fail.  A logic of triples over such reads
    ([triple] in GraphStoreFacts) gives what a read returns and how it may fail.

    A write is a transaction ([Tx] in GraphPublish) over the committed data base and a
    working copy: a statement may fail, may be refused because the result would violate
    the constraints of the schema (checked as the boolean [constraints]), and takes
    effect when the transaction commits.  One transaction writes at a time, as
    BEGIN IMMEDIATE ensures, so that a run of the program is a sequence of them.

    An operation on index jobs makes several accesses to the data base, and other processes
    get between them.  It is a resumption ([Db] in IndexJobs): finished, or an access (a
    statement or a transaction, which is one step) and what comes after it.  [execute] runs
    an operation to its end while the others do between two accesses what they like
    ([Others]; the theorems let them do whatever the same program can do, [rely], or
    nothing, [alone]).  A [system] is a data base with any number of operations in
    progress; a step starts one, lets one make its next access, or kills one.  The rows of
    the catalog and of the documents that a publication writes are a parameter, which may
    do anything to tables other than those of the jobs and of the graph ([catalog_body]).

    A stage of a query ([Q] in QPrimitives) counts the questions that it asks, and what it is
    answered is a function of their number ([World], [Workspaces]): the clock, the end of the
    context, the services of the workspace, files, git and the catalog.  Nothing is assumed
    of the answers, except in the theorems that are about a workspace that does not change
    ([steady_world]).  The jobs of the workers of a stage end in any order ([Schedule]).  The
    sessions are a map, because every method holds the mutex throughout.

    Fuel.  The parser's recursion through recipes has the depth of recipe nesting, and
    two levels are proved enough for every input ([parse_depth_sufficient]).  The
    polling loops of the start lock have as many rounds as their timeout holds, the
    scanners of the truncator as many steps as there are bytes, the search as many as
    there are depths to go, which is what the counter of its loop allows; batches and
    interleaving have the length of their lists; the walk over predecessors has room for
    the 1024 generations that the code allows.

    ** What the theorems show

    - The query language: quoting is inverted by the tokenizer, recipes cannot
      inject stages, accepted pipelines respect every bound, parsing terminates.
    - Running a query: every answer is complete or has a public code and says so twice; the
      stages of an accepted text mean what they say; the concurrent stage gives what a
      sequential one gives; the page is the longest that fits, or the longest cut of its first
      item, or a refusal because neither does; in a workspace that does not change the pages
      of a query are its items, once and in order, unless one stops at an item that is too
      large for it; cursors are read back as they were signed and nothing unsigned is
      accepted; a mark of an attended session denotes what had been read when it was taken,
      until its counter is 64 past it; and of the items with a revision only what was
      delivered is withheld.
    - The cache refines an abstract LRU list, and entries stay for as long as they
      should.
    - The updater replaces the executable only under its lock, for a strictly
      newer release above the floor whose archive has the listed hash; what it
      records is well formed and true; the replacement never loses the original,
      at whatever call it fails or dies (on Windows it may leave only the backup).
    - A pause of the listener that succeeds leaves the daemon drained, pauses end, and
      no goroutine sleeps past its signal.
    - At most one process holds the start lock, a lock whose owner died is taken over,
      waiting ends within its timeout and the time of its own calls, and what is read from
      the file has the type it claims.
    - Limits keep a first part, say what they drop, keep the continuation whole where it
      fits and the text valid UTF-8, and crash on one shape of text only.
    - Version comparison is Semantic Versioning precedence on a grammar of versions, and
      an error outside it.
    - Graph generations: sealing makes a bundle valid, valid bundles are
      well-formed graphs, digests identify their content.
    - Reads: a snapshot that says it is current is, batches read what single reads do,
      shown paths are relative.
    - Publication: from an empty data base and whatever calls fail, at most one generation
      is active, the pointer names it and published rows stay what their identifier was
      computed from; both activations refine one specification, though one
      asks for the expected pointer only when it is given one; what was staged can be
      activated; failures change nothing; clean-up and recovery do what they promise.
    - Index jobs: whatever processes run and wherever they stop, a workspace has at most one
      active job, jobs follow their life cycle, a fence that was lost stays powerless, a
      publication is all or nothing, a cancellation that returns has settled, creation
      gives the next fencing token or names the job in the way, and reading the job of a
      dead worker frees its workspace.
    - Snapshots of worktrees: a snapshot in use is open and stays in the cache, every data
      base that was opened is in one place and is closed once, one build at a time runs for a
      key, who waits for a build that succeeds gets the snapshot, and at most four snapshots
      stay unless each one is in use.
    - Impact: accepted requests are in normal form with the smallest seeds, every
      item is justified by a walk over edges of the graph, an answer that is not
      truncated is complete where the graph fits the limit and all relations may be
      followed, pages partition what was found, and failures have public codes.
    - Identities are read back as printed exactly when they are stable, and resolve to
      their symbol.

    ** Not modelled

    The command line, the language servers and their workers, the extractors, the
    catalog tables of the SQL store, the wiki and document graphs, the other service handlers
    and the telemetry are I/O and rendering around external programs and data bases,
    or are left for later.  Of the modelled parts: the statistics
    of a snapshot, the creation of the graph tables, the payload of an impact request, the
    migrations of the job tables (the columns exist; adding them may fail), retries on a
    locked data base, the files of the workspace lock, the services and the resolution of
    workspaces behind a query, and the restart of the daemon by an update. *)
From Stdlib Require Export ZArith Ascii String Lia.
From stdpp Require Export base tactics option list list_numbers strings gmap sorting.

(** ** Go strings

    A Go string is an immutable sequence of bytes; it is modelled as a list of
    8-bit characters.  Literals are written in the scope [go_scope]. *)
Abbreviation gostring := (list ascii).

Inductive literal := LNil | LCons (c : ascii) (l : literal).
Fixpoint literal_of_bytes (l : list Byte.byte) : literal :=
  match l with [] => LNil | b :: l => LCons (ascii_of_byte b) (literal_of_bytes l) end.
Fixpoint bytes_of_literal (l : literal) : list Byte.byte :=
  match l with LNil => [] | LCons c l => byte_of_ascii c :: bytes_of_literal l end.
Definition go_literal : Type := gostring.
Declare Scope go_scope.
Delimit Scope go_scope with go.
Set Warnings "-numbers".
String Notation go_literal literal_of_bytes bytes_of_literal
  (via literal mapping [ [nil] => LNil, [cons] => LCons ]) : go_scope.

(** The numeric value of a byte. *)
Definition bz (c : ascii) : Z := Z.of_N (N_of_ascii c).
Definition zb (z : Z) : ascii := ascii_of_N (Z.to_N z).

(** Byte constants that have no convenient literal. *)
Definition QUOTE : ascii := "034"%char.
Definition APOS : ascii := "039"%char.
Definition BSLASH : ascii := "\"%char.
Definition LF : ascii := "010"%char.
Definition CR : ascii := "013"%char.
Definition TAB : ascii := "009"%char.
Definition SP : ascii := " "%char.

(** ** Results

    A Go function returning [(T, error)] is modelled by [result E T]; [E] is
    the part of the error that callers can observe. *)
Inductive result (E A : Type) : Type :=
| Ok (a : A)
| Err (e : E).
Arguments Ok {E A} a.
Arguments Err {E A} e.

#[export] Instance result_ret {E} : MRet (result E) := fun _ a => Ok a.
#[export] Instance result_bind {E} : MBind (result E) :=
  fun _ _ f m => match m with Ok a => f a | Err e => Err e end.

Definition is_ok {E A} (r : result E A) : bool := match r with Ok _ => true | Err _ => false end.
Definition of_option {E A} (e : E) (o : option A) : result E A :=
  match o with Some a => Ok a | None => Err e end.
Definition map_err {E F A} (f : E -> F) (r : result E A) : result F A :=
  match r with Ok a => Ok a | Err e => Err (f e) end.

(** Monadic traversal with the first error winning, the shape of every
    [for ... { if err != nil { return err } }] loop. *)
Fixpoint mmap {E A B} (f : A -> result E B) (l : list A) : result E (list B) :=
  match l with
  | [] => Ok []
  | a :: l => b ← f a; bs ← mmap f l; Ok (b :: bs)
  end.
Fixpoint miter {E A} (f : A -> result E unit) (l : list A) : result E unit :=
  match l with
  | [] => Ok tt
  | a :: l => _ ← f a; miter f l
  end.
Fixpoint mfold {E A S} (f : S -> A -> result E S) (s : S) (l : list A) : result E S :=
  match l with
  | [] => Ok s
  | a :: l => s' ← f s a; mfold f s' l
  end.
(** [guard b e]: [if !b { return e }]. *)
Definition ensure {E} (b : bool) (e : E) : result E unit := if b then Ok tt else Err e.

(** Stateful functions that can fail keep the state they reached, as a Go method
    that returns an error half way does. *)
Definition eff (S E A : Type) : Type := S -> result E A * S.
#[export] Instance eff_ret {S E} : MRet (eff S E) := fun _ a s => (Ok a, s).
#[export] Instance eff_bind {S E} : MBind (eff S E) := fun _ _ f m s =>
  match m s with (Ok a, s') => f a s' | (Err e, s') => (Err e, s') end.
Definition throw {S E A} (e : E) : eff S E A := fun s => (Err e, s).
Definition lift {S E A} (r : result E A) : eff S E A := fun s => (r, s).
Definition gets {S E A} (f : S -> A) : eff S E A := fun s => (Ok (f s), s).
Definition modify {S E} (f : S -> S) : eff S E unit := fun s => (Ok tt, f s).

(** ** Machine integers: Go's [int] and [int64] are 64 bits wide. *)
Definition MIN_INT64 : Z := (-2 ^ 63)%Z.
Definition MAX_INT64 : Z := (2 ^ 63 - 1)%Z.
Definition in_int64 (z : Z) : bool := ((MIN_INT64 <=? z) && (z <=? MAX_INT64))%Z.
(** Two's-complement wrap-around of a 64-bit signed result. *)
Definition wrap64 (z : Z) : Z := ((z + 2 ^ 63) mod 2 ^ 64 - 2 ^ 63)%Z.

Lemma wrap64_small z : in_int64 z = true -> wrap64 z = z.
Proof.
  unfold in_int64, wrap64, MIN_INT64, MAX_INT64. intros H.
  apply andb_true_iff in H as [H1%Z.leb_le H2%Z.leb_le].
  rewrite Z.mod_small; lia.
Qed.

Lemma wrap64_range z : in_int64 (wrap64 z) = true.
Proof.
  unfold in_int64, wrap64, MIN_INT64, MAX_INT64.
  pose proof (Z.mod_pos_bound (z + 2 ^ 63) (2 ^ 64)) as H.
  apply andb_true_iff; split; apply Z.leb_le; lia.
Qed.

(** ** Tactics *)

(** Split boolean tests in hypotheses into propositions. *)
Ltac bool_to_prop :=
  repeat match goal with
  | H : _ && _ = true |- _ => apply andb_true_iff in H as [? ?]
  | H : _ || _ = false |- _ => apply orb_false_iff in H as [? ?]
  | H : negb _ = true |- _ => apply negb_true_iff in H
  | H : negb _ = false |- _ => apply negb_false_iff in H
  | H : (_ =? _)%Z = true |- _ => apply Z.eqb_eq in H
  | H : (_ =? _)%Z = false |- _ => apply Z.eqb_neq in H
  | H : (_ <=? _)%Z = true |- _ => apply Z.leb_le in H
  | H : (_ <=? _)%Z = false |- _ => apply Z.leb_gt in H
  | H : (_ <? _)%Z = true |- _ => apply Z.ltb_lt in H
  | H : (_ <? _)%Z = false |- _ => apply Z.ltb_ge in H
  | H : (_ =? _)%nat = true |- _ => apply Nat.eqb_eq in H
  | H : (_ =? _)%nat = false |- _ => apply Nat.eqb_neq in H
  | H : (_ <=? _)%nat = true |- _ => apply Nat.leb_le in H
  | H : (_ <=? _)%nat = false |- _ => apply Nat.leb_gt in H
  | H : (_ <? _)%nat = true |- _ => apply Nat.ltb_lt in H
  | H : (_ <? _)%nat = false |- _ => apply Nat.ltb_ge in H
  | H : bool_decide _ = true |- _ => apply bool_decide_eq_true_1 in H
  | H : bool_decide _ = false |- _ => apply bool_decide_eq_false_1 in H
  end.

(** [lia] with division and modulo by constants. *)
Ltac dlia := Z.to_euclidean_division_equations; lia.

(** Decide the integer comparisons of the goal that [lia] settles. *)
Ltac decide_cmp :=
  repeat match goal with
  | |- context [(?a <=? ?b)%Z] =>
      first [rewrite (proj2 (Z.leb_le a b)) by lia | rewrite (proj2 (Z.leb_gt a b)) by lia]
  | |- context [(?a <? ?b)%Z] =>
      first [rewrite (proj2 (Z.ltb_lt a b)) by lia | rewrite (proj2 (Z.ltb_ge a b)) by lia]
  | |- context [(?a =? ?b)%Z] =>
      first [rewrite (proj2 (Z.eqb_eq a b)) by lia | rewrite (proj2 (Z.eqb_neq a b)) by lia]
  end; cbn [andb orb negb].

(** Run through a function body that is a cascade of early returns: case on
    each test met in hypothesis [H], dropping the returns that [H] excludes. *)
Ltac early_returns H :=
  repeat (match type of H with
          | context [match ?x with _ => _ end] => destruct x eqn:?; try discriminate H
          end; cbn [mbind result_bind] in H).

(** Invert [m ≫= f = Ok b]. *)
Lemma bind_ok {E A B} (m : result E A) (f : A -> result E B) b :
  m ≫= f = Ok b <-> exists a, m = Ok a /\ f a = Ok b.
Proof. destruct m; cbn; split; [eauto | by intros (? & [= <-] & ?) | done | by intros (? & ? & ?)]. Qed.

Lemma bind_not_err {E A B} (m : result E A) (f : A -> result E B) e :
  m <> Err e -> (forall a, f a <> Err e) -> m ≫= f <> Err e.
Proof. destruct m; cbn; [eauto | congruence]. Qed.

Ltac invert_bind H :=
  let a := fresh "a" in let Ha := fresh "H" in
  apply bind_ok in H as (a & Ha & H).

Tactic Notation "bind_inv" hyp(H) "as" ident(x) ident(Hx) :=
  apply bind_ok in H as (x & Hx & H).

Lemma ensure_ok {E} b (e : E) u : ensure b e = Ok u <-> b = true.
Proof. unfold ensure. destruct b, u; naive_solver. Qed.

(** ** Generic lemmas on traversals *)
Section traversal.
Context {E A B S : Type}.

Lemma mmap_ok_iff (f : A -> result E B) l l' :
  mmap f l = Ok l' <-> Forall2 (fun a b => f a = Ok b) l l'.
Proof.
  split.
  - revert l'; induction l as [|a l IH]; cbn; intros l' H.
    + injection H as <-. constructor.
    + invert_bind H. invert_bind H. injection H as <-. eauto.
  - induction 1 as [|a b l l' Hab _ IH]; cbn; [done|].
    rewrite Hab; cbn; rewrite IH; done.
Qed.

Lemma mmap_length (f : A -> result E B) l l' : mmap f l = Ok l' -> length l' = length l.
Proof. intros H%mmap_ok_iff. symmetry. by eapply Forall2_length. Qed.

Lemma miter_ok_iff (f : A -> result E unit) l :
  miter f l = Ok tt <-> Forall (fun a => f a = Ok tt) l.
Proof.
  induction l as [|a l IH]; cbn; [done|].
  rewrite Forall_cons, <- IH.
  destruct (f a) as [[]|]; cbn; naive_solver.
Qed.

Lemma mfold_app (f : S -> A -> result E S) s l1 l2 :
  mfold f s (l1 ++ l2) = (s' ← mfold f s l1; mfold f s' l2).
Proof.
  revert s; induction l1 as [|a l1 IH]; intros s; cbn; [done|].
  destruct (f s a); cbn; [apply IH | done].
Qed.

(** An invariant of the loop body is an invariant of the loop. *)
Lemma mfold_invariant (P : S -> Prop) (f : S -> A -> result E S) l s s' :
  (forall s a s', P s -> f s a = Ok s' -> P s') ->
  P s -> mfold f s l = Ok s' -> P s'.
Proof.
  intros Hstep; revert s; induction l as [|a l IH]; cbn; intros s HP H.
  - by injection H as <-.
  - invert_bind H. eauto.
Qed.
End traversal.

(** ** Weakest preconditions of effectful functions

    [wp m Q s]: run from [s], [m] ends in a result and a state satisfying [Q]. *)
Definition wp {S E A} (m : eff S E A) (Q : result E A -> S -> Prop) (s : S) : Prop :=
  Q (fst (m s)) (snd (m s)).
Section wp.
Context {S E A B : Type}.
Implicit Types (m : eff S E A) (s : S).

Lemma wp_bind m (f : A -> eff S E B) Q s :
  wp m (fun r s => match r with Ok a => wp (f a) Q s | Err e => Q (Err e) s end) s ->
  wp (m ≫= f) Q s.
Proof. unfold wp, mbind, eff_bind. by destruct (m s) as [[a|e] s']. Qed.
Lemma wp_ret (a : A) (Q : result E A -> S -> Prop) s : Q (Ok a) s -> wp (mret a) Q s.
Proof. done. Qed.
Lemma wp_throw (e : E) (Q : result E A -> S -> Prop) s : Q (Err e) s -> wp (throw e) Q s.
Proof. done. Qed.
Lemma wp_gets (f : S -> A) (Q : result E A -> S -> Prop) s : Q (Ok (f s)) s -> wp (gets f) Q s.
Proof. done. Qed.
Lemma wp_modify f (Q : result E unit -> S -> Prop) s : Q (Ok tt) (f s) -> wp (modify f) Q s.
Proof. done. Qed.
Lemma wp_mono m (P Q : result E A -> S -> Prop) s :
  wp m P s -> (forall r s, P r s -> Q r s) -> wp m Q s.
Proof. unfold wp. eauto. Qed.
Lemma wp_elim m Q s r s' : wp m Q s -> m s = (r, s') -> Q r s'.
Proof. unfold wp. intros H Hm. by rewrite Hm in H. Qed.
End wp.
(** Apply the rule of the outermost construct. *)
Ltac wp_step :=
  lazymatch goal with
  | |- wp (_ ≫= _) _ _ => apply wp_bind
  | |- wp (mret _) _ _ => apply wp_ret
  | |- wp (throw _) _ _ => apply wp_throw
  | |- wp (gets _) _ _ => apply wp_gets
  | |- wp (modify _) _ _ => apply wp_modify
  | |- wp (if ?b then _ else _) _ _ => let E := fresh "Hif" in destruct b eqn:E
  end.

(** ** Generic lemmas on lists *)
Lemma drop_app_S {A} (a : list A) c b : drop (S (length a)) (a ++ c :: b) = b.
Proof. change (c :: b) with ([c] ++ b). rewrite app_assoc. apply drop_app_length'. rewrite length_app. cbn. lia. Qed.
Lemma filter_all {A} (P : A -> Prop) `{!forall x, Decision (P x)} (l : list A) :
  (forall x, x ∈ l -> P x) -> filter P l = l.
Proof.
  induction l as [|x l IH]; intros Hl; [done|]. rewrite filter_cons, decide_True by (apply Hl; left).
  f_equal. apply IH. intros y Hy. apply Hl. by right.
Qed.
Lemma filter_map_comp {A B} (f : A -> B) (P : B -> Prop) `{!forall x, Decision (P x)} (l : list A) :
  f <$> filter (fun x => P (f x)) l = filter P (f <$> l).
Proof.
  induction l as [|x l IH]; [done|]. cbn [fmap list_fmap]. rewrite !filter_cons.
  case_decide; cbn [fmap list_fmap]; by rewrite IH.
Qed.

(** Counting: the sum of a weight over a list, after an update at an index. *)
Lemma sum_list_insert {A} (f : A -> nat) (l : list A) i x y :
  l !! i = Some x ->
  (sum_list_with f (<[i := y]> l) + f x = sum_list_with f l + f y)%nat.
Proof.
  revert i; induction l as [|z l IH]; intros [|i] Hi; simpl in *; [done..| |].
  - injection Hi as ->. lia.
  - specialize (IH i Hi). lia.
Qed.
Lemma sum_list_pos {A} (f : A -> nat) (l : list A) :
  (0 < sum_list_with f l)%nat -> exists i x, l !! i = Some x /\ (0 < f x)%nat.
Proof.
  induction l as [|z l IH]; cbn; [lia|]. intros H.
  destruct (decide (0 < f z)%nat); [by exists 0%nat, z|].
  destruct IH as (i & x & ? & ?); [lia|]. by exists (S i), x.
Qed.
Lemma sum_list_elem {A} (f : A -> nat) (l : list A) i x :
  l !! i = Some x -> (f x <= sum_list_with f l)%nat.
Proof.
  revert i; induction l as [|z l IH]; intros [|i] Hi; simpl in *; [done..| |].
  - injection Hi as ->. lia.
  - specialize (IH i Hi). lia.
Qed.

(** ** Runs of a step relation *)
Lemma rtc_invariant {A} (R : relation A) (P : A -> Prop) x y :
  (forall a b, P a -> R a b -> P b) -> rtc R x y -> P x -> P y.
Proof. intros HR. induction 1; eauto. Qed.

(** ** Three-way comparisons

    A comparison that decides a strict total order: what [sort.Slice] and the
    precedence functions of the program rely on. *)
Class TotalCmp {A} (cmp : A -> A -> comparison) : Prop := {
  cmp_eq x y : cmp x y = Eq <-> x = y;
  cmp_opp x y : cmp y x = CompOpp (cmp x y);
  cmp_trans x y z : cmp x y = Lt -> cmp y z = Lt -> cmp x z = Lt;
}.
(** Lexicographic comparison of pairs and of lists. *)
Definition cmp_pair {A B} (ca : A -> A -> comparison) (cb : B -> B -> comparison)
    (x y : A * B) : comparison :=
  match ca x.1 y.1 with Eq => cb x.2 y.2 | o => o end.
Fixpoint cmp_list {A} (c : A -> A -> comparison) (x y : list A) : comparison :=
  match x, y with
  | [], [] => Eq
  | [], _ :: _ => Lt
  | _ :: _, [] => Gt
  | a :: x, b :: y => match c a b with Eq => cmp_list c x y | o => o end
  end.

#[export] Instance Z_compare_total : TotalCmp Z.compare.
Proof.
  constructor; intros.
  - apply Z.compare_eq_iff.
  - apply Z.compare_antisym.
  - rewrite Z.compare_lt_iff in *. lia.
Qed.
Section comparisons.
Context {A B} {ca : A -> A -> comparison} {cb : B -> B -> comparison}.
Context `{!TotalCmp ca, !TotalCmp cb}.

Lemma cmp_refl x : ca x x = Eq.
Proof. by apply cmp_eq. Qed.

#[export] Instance cmp_pair_total : TotalCmp (cmp_pair ca cb).
Proof.
  constructor; unfold cmp_pair.
  - intros [a b] [a' b']; cbn. destruct (ca a a') eqn:E.
    + apply cmp_eq in E as ->. rewrite cmp_eq. naive_solver.
    + split; [done|]. intros [= -> ->]. by rewrite cmp_refl in E.
    + split; [done|]. intros [= -> ->]. by rewrite cmp_refl in E.
  - intros [a b] [a' b']; cbn. rewrite (cmp_opp a a'). destruct (ca a a') eqn:E; cbn; [|done..].
    apply cmp_opp.
  - intros [a b] [a' b'] [a'' b'']; cbn.
    destruct (ca a a') eqn:E; [|destruct (ca a' a'') eqn:E'|done].
    + apply cmp_eq in E as <-. destruct (ca a a''); [apply cmp_trans | done | done].
    + apply cmp_eq in E' as <-. by rewrite E.
    + by rewrite (cmp_trans _ _ _ E E').
    + done.
Qed.
#[export] Instance cmp_list_total : TotalCmp (cmp_list ca).
Proof.
  constructor.
  - intros x; induction x as [|a x IH]; intros [|b y]; cbn; try done.
    destruct (ca a b) eqn:E.
    + apply cmp_eq in E as ->. rewrite IH. naive_solver.
    + split; [done|]. intros [= -> ->]. by rewrite cmp_refl in E.
    + split; [done|]. intros [= -> ->]. by rewrite cmp_refl in E.
  - intros x; induction x as [|a x IH]; intros [|b y]; cbn; try done.
    rewrite (cmp_opp a b). destruct (ca a b); cbn; [apply IH | done..].
  - intros x; induction x as [|a x IH]; intros [|b y] [|c z]; cbn; try done.
    destruct (ca a b) eqn:E; [|destruct (ca b c) eqn:E'|done].
    + apply cmp_eq in E as <-. destruct (ca a c); [apply IH | done | done].
    + apply cmp_eq in E' as <-. by rewrite E.
    + by rewrite (cmp_trans _ _ _ E E').
    + done.
Qed.
End comparisons.

(** ** Hints shared by all components *)
Create HintDb mi_lsp.
#[export] Hint Resolve wrap64_range wrap64_small : mi_lsp.
