(* ===== verification/GoStrings.v ===== *)
(** The fragment of Go's [strings], [unicode/utf8] and [unicode] packages that
    the modelled code calls, on byte lists.  Offsets are [nat]; a Go result of
    [-1] is [None]. *)
From S2P Require Import Prelude.

(** ** Prefixes, suffixes, searching *)
Fixpoint hasPrefix (s p : gostring) {struct p} : bool :=
  match p, s with
  | [], _ => true
  | c :: p, d :: s => Ascii.eqb c d && hasPrefix s p
  | _ :: _, [] => false
  end.
Definition hasSuffix (s p : gostring) : bool := hasPrefix (rev s) (rev p).
Definition trimPrefix (s p : gostring) : gostring :=
  if hasPrefix s p then drop (length p) s else s.
Definition trimSuffix (s p : gostring) : gostring :=
  if hasSuffix s p then take (length s - length p) s else s.

Fixpoint indexByte (s : gostring) (c : ascii) : option nat :=
  match s with
  | [] => None
  | d :: s => if Ascii.eqb d c then Some 0 else S <$> indexByte s c
  end.
Fixpoint lastIndexByte (s : gostring) (c : ascii) : option nat :=
  match s with
  | [] => None
  | d :: s =>
      match lastIndexByte s c with
      | Some i => Some (S i)
      | None => if Ascii.eqb d c then Some 0 else None
      end
  end.
Fixpoint index (s sub : gostring) : option nat :=
  if hasPrefix s sub then Some 0
  else match s with [] => None | _ :: s => S <$> index s sub end.
Definition contains (s sub : gostring) : bool :=
  match index s sub with Some _ => true | None => false end.
(** [strings.ContainsRune]/[ContainsAny] on an ASCII character set. *)
Definition memByte (c : ascii) (set : gostring) : bool :=
  match indexByte set c with Some _ => true | None => false end.
Definition containsAny (s set : gostring) : bool := existsb (fun c => memByte c set) s.

Definition byte_in_range (lo hi c : ascii) : bool :=
  ((bz lo <=? bz c) && (bz c <=? bz hi))%Z.
Definition isDigitByte (c : ascii) : bool := byte_in_range "0" "9" c.
Definition isLowerByte (c : ascii) : bool := byte_in_range "a" "z" c.
Definition isUpperByte (c : ascii) : bool := byte_in_range "A" "Z" c.

(** ** Splitting and joining *)

(** [strings.Split(s, string(c))] for a one-byte separator. *)
Fixpoint splitByte (s : gostring) (c : ascii) : list gostring :=
  match s with
  | [] => [[]]
  | d :: s =>
      if Ascii.eqb d c then [] :: splitByte s c
      else match splitByte s c with
           | [] => [[d]]
           | p :: ps => (d :: p) :: ps
           end
  end.
(** [strings.SplitN(s, string(c), n)] with [n >= 1]. *)
Fixpoint splitByteN (s : gostring) (c : ascii) (n : nat) : list gostring :=
  match n with
  | 0 | 1 => [s]
  | S n =>
      match indexByte s c with
      | None => [s]
      | Some i => take i s :: splitByteN (drop (S i) s) c n
      end
  end.
Fixpoint join (parts : list gostring) (sep : gostring) : gostring :=
  match parts with
  | [] => []
  | [p] => p
  | p :: ps => p ++ sep ++ join ps sep
  end.
(** [strings.ReplaceAll(s, old, new)] for a non-empty [old]; [skip] counts the
    bytes of the last match that remain to be consumed. *)
Fixpoint replaceAll_skip (skip : nat) (s old new : gostring) : gostring :=
  match s with
  | [] => []
  | c :: t =>
      match skip with
      | S k => replaceAll_skip k t old new
      | 0 => if hasPrefix s old then new ++ replaceAll_skip (length old - 1) t old new
             else c :: replaceAll_skip 0 t old new
      end
  end.
Definition replaceAll (s old new : gostring) : gostring := replaceAll_skip 0 s old new.
Definition replaceByte (s : gostring) (a b : ascii) : gostring :=
  map (fun c => if Ascii.eqb c a then b else c) s.
(** [strings.TrimLeft]/[TrimRight]/[Trim] with an ASCII cutset. *)
Fixpoint trimLeftSet (s set : gostring) : gostring :=
  match s with
  | c :: t => if memByte c set then trimLeftSet t set else s
  | [] => []
  end.
Definition trimRightSet (s set : gostring) : gostring := rev (trimLeftSet (rev s) set).
Definition trimSet (s set : gostring) : gostring := trimRightSet (trimLeftSet s set) set.

(** [strings.Compare]: bytewise lexicographic order. *)
Fixpoint compareString (a b : gostring) : comparison :=
  match a, b with
  | [], [] => Eq
  | [], _ :: _ => Lt
  | _ :: _, [] => Gt
  | x :: a, y :: b =>
      match (bz x ?= bz y)%Z with Eq => compareString a b | o => o end
  end.
Definition cmpZ (c : comparison) : Z := match c with Lt => -1 | Eq => 0 | Gt => 1 end.
Definition lessString (a b : gostring) : bool :=
  match compareString a b with Lt => true | _ => false end.

(** ** UTF-8 *)
Definition RuneError : Z := 65533.
Definition RuneSelf : Z := 128.

Definition cont (b : ascii) : option Z :=
  let z := bz b in if ((128 <=? z) && (z <=? 191))%Z then Some (z - 128)%Z else None.
Definition runeStart (b : ascii) : bool := negb ((128 <=? bz b) && (bz b <=? 191))%Z.

(** [utf8.DecodeRuneInString]: the rune at the head of the string and its
    width; an invalid encoding is [RuneError] with width 1. *)
Definition decode2 (z0 : Z) (b1 : ascii) : option (Z * nat) :=
  if ((194 <=? z0) && (z0 <=? 223))%Z
  then c1 ← cont b1; Some (((z0 - 192) * 64 + c1)%Z, 2) else None.
Definition decode3 (z0 : Z) (b1 b2 : ascii) : option (Z * nat) :=
  if ((224 <=? z0) && (z0 <=? 239))%Z
  then c1 ← cont b1; c2 ← cont b2;
       let r := ((z0 - 224) * 4096 + c1 * 64 + c2)%Z in
       if ((2048 <=? r) && negb ((55296 <=? r) && (r <=? 57343)))%Z
       then Some (r, 3) else None
  else None.
Definition decode4 (z0 : Z) (b1 b2 b3 : ascii) : option (Z * nat) :=
  if ((240 <=? z0) && (z0 <=? 244))%Z
  then c1 ← cont b1; c2 ← cont b2; c3 ← cont b3;
       let r := ((z0 - 240) * 262144 + c1 * 4096 + c2 * 64 + c3)%Z in
       if ((65536 <=? r) && (r <=? 1114111))%Z then Some (r, 4) else None
  else None.
Definition decodeRune (s : gostring) : Z * nat :=
  match s with
  | [] => (RuneError, 0)
  | b0 :: t =>
      let z0 := bz b0 in
      if (z0 <? RuneSelf)%Z then (z0, 1)
      else
        let try2 := match t with b1 :: _ => decode2 z0 b1 | _ => None end in
        let try3 := match t with b1 :: b2 :: _ => decode3 z0 b1 b2 | _ => None end in
        let try4 := match t with b1 :: b2 :: b3 :: _ => decode4 z0 b1 b2 b3 | _ => None end in
        match try2, try3, try4 with
        | Some r, _, _ | None, Some r, _ | None, None, Some r => r
        | None, None, None => (RuneError, 1)
        end
  end.

(** [utf8.AppendRune]/[strings.Builder.WriteRune]. *)
Definition encodeRune (r : Z) : gostring :=
  if ((0 <=? r) && (r <? 128))%Z then [zb r]
  else if ((128 <=? r) && (r <? 2048))%Z then [zb (192 + r / 64); zb (128 + r mod 64)]
  else if ((r <? 0) || (1114111 <? r) || ((55296 <=? r) && (r <=? 57343)))%Z
  then [zb 239; zb 191; zb 189]
  else if (r <? 65536)%Z
  then [zb (224 + r / 4096); zb (128 + r / 64 mod 64); zb (128 + r mod 64)]
  else [zb (240 + r / 262144); zb (128 + r / 4096 mod 64); zb (128 + r / 64 mod 64);
        zb (128 + r mod 64)].

(** [for i, r := range s]: the runes of a string with their byte offsets. *)
Fixpoint runes_from (skip off : nat) (s : gostring) : list (nat * Z) :=
  match s with
  | [] => []
  | _ :: t =>
      match skip with
      | S k => runes_from k (S off) t
      | 0 => let '(r, w) := decodeRune s in (off, r) :: runes_from (w - 1) (S off) t
      end
  end.
Definition runes (s : gostring) : list (nat * Z) := runes_from 0 0 s.
Definition encodeRunes (rs : list Z) : gostring := concat (map encodeRune rs).
Definition runeCount (s : gostring) : nat := length (runes s).
(** [utf8.ValidString]. *)
Fixpoint valid_from (skip : nat) (s : gostring) : bool :=
  match s with
  | [] => match skip with 0 => true | S _ => false end
  | _ :: t =>
      match skip with
      | S k => valid_from k t
      | 0 => let '(r, w) := decodeRune s in
             negb ((r =? RuneError)%Z && (w =? 1)) && valid_from (w - 1) t
      end
  end.
Definition validString (s : gostring) : bool := valid_from 0 s.

(** ** Unicode classes *)

(** [unicode.IsSpace]. *)
Definition isSpaceRune (r : Z) : bool :=
  (((9 <=? r) && (r <=? 13)) || (r =? 32) || (r =? 133) || (r =? 160) || (r =? 5760) ||
   ((8192 <=? r) && (r <=? 8202)) || (r =? 8232) || (r =? 8233) || (r =? 8239) ||
   (r =? 8287) || (r =? 12288))%Z.
(** [unicode.IsControl]: category Cc, all of it in Latin-1. *)
Definition isControlRune (r : Z) : bool :=
  ((0 <=? r) && ((r <? 32) || ((127 <=? r) && (r <? 160))))%Z.

(** The Unicode tables of the Go release for runes outside ASCII are data, not
    code; everything is proved for any such tables. *)
Class UnicodeTables := {
  table_lower : Z -> Z;
  table_upper : Z -> Z;
  table_letter : Z -> bool;
  table_digit : Z -> bool;
  table_print : Z -> bool;
}.
Definition latin_tables : UnicodeTables :=
  {| table_lower r := r; table_upper r := r; table_letter _ := false;
     table_digit _ := false; table_print _ := true |}.

Definition lowerByte (c : ascii) : ascii := if isUpperByte c then zb (bz c + 32) else c.
Definition upperByte (c : ascii) : ascii := if isLowerByte c then zb (bz c - 32) else c.
Definition isASCII (s : gostring) : bool := forallb (fun c => bz c <? RuneSelf)%Z s.

Section unicode.
Context `{UnicodeTables}.

Definition lowerRune (r : Z) : Z :=
  if (r <? RuneSelf)%Z then (if ((65 <=? r) && (r <=? 90))%Z then r + 32 else r)%Z
  else table_lower r.
Definition isLetterRune (r : Z) : bool :=
  if (r <? RuneSelf)%Z
  then (((65 <=? r) && (r <=? 90)) || ((97 <=? r) && (r <=? 122)))%Z
  else table_letter r.
Definition isDigitRune (r : Z) : bool :=
  if (r <? RuneSelf)%Z then ((48 <=? r) && (r <=? 57))%Z else table_digit r.

(** [strings.ToLower]. *)
Definition toLower (s : gostring) : gostring :=
  if isASCII s then map lowerByte s
  else encodeRunes (map (fun '(_, r) => lowerRune r) (runes s)).
End unicode.

(** ** [strings.TrimSpace] *)
Fixpoint trimLeftSpace_fuel (fuel : nat) (s : gostring) : gostring :=
  match fuel, s with
  | S f, _ :: _ =>
      let '(r, w) := decodeRune s in
      if isSpaceRune r then trimLeftSpace_fuel f (drop w s) else s
  | _, _ => s
  end.
Definition trimLeftSpace (s : gostring) : gostring := trimLeftSpace_fuel (length s) s.

(** [utf8.DecodeLastRuneInString] on the reversed string. *)
Definition decodeLastRune (rs : gostring) : Z * nat :=
  match rs with
  | [] => (RuneError, 0)
  | b :: t =>
      if (bz b <? RuneSelf)%Z then (bz b, 1)
      else
        let k := match t with
                 | b1 :: t1 =>
                     if runeStart b1 then 2
                     else match t1 with
                          | b2 :: t2 =>
                              if runeStart b2 then 3
                              else match t2 with
                                   | b3 :: _ => if runeStart b3 then 4 else 0
                                   | [] => 0
                                   end
                          | [] => 0
                          end
                 | [] => 0
                 end in
        let '(r, w) := decodeRune (rev (take k rs)) in
        if (w =? k) && (0 <? k) then (r, k) else (RuneError, 1)
  end.
Fixpoint trimRightSpace_fuel (fuel : nat) (rs : gostring) : gostring :=
  match fuel, rs with
  | S f, _ :: _ =>
      let '(r, w) := decodeLastRune rs in
      if isSpaceRune r then trimRightSpace_fuel f (drop w rs) else rs
  | _, _ => rs
  end.
Definition trimRightSpace (s : gostring) : gostring :=
  rev (trimRightSpace_fuel (length s) (rev s)).
Definition trimSpace (s : gostring) : gostring := trimRightSpace (trimLeftSpace s).

(** ** [strings.Fields] and [bufio.ScanLines] *)

(** [cur] holds the bytes of the field being read, in reverse. *)
Definition flush_field (cur : gostring) : list gostring :=
  match cur with [] => [] | _ => [rev cur] end.
Fixpoint fields_from (skip : nat) (keep : bool) (cur s : gostring) : list gostring :=
  match s with
  | [] => flush_field cur
  | c :: t =>
      match skip with
      | S k => fields_from k keep (if keep then c :: cur else cur) t
      | 0 =>
          let '(r, w) := decodeRune s in
          if isSpaceRune r then flush_field cur ++ fields_from (w - 1) false [] t
          else fields_from (w - 1) true (c :: cur) t
      end
  end.
Definition fields (s : gostring) : list gostring := fields_from 0 true [] s.

Definition dropCR (l : gostring) : gostring :=
  match rev l with c :: r => if Ascii.eqb c CR then rev r else l | [] => l end.
(** The lines of a text; an empty last line is not one. *)
Definition scanLines (s : gostring) : list gostring :=
  let ls := splitByte s LF in
  map dropCR (match last ls with Some [] => removelast ls | _ => ls end).
(** [io.LimitReader]. *)
Fixpoint takeZ (n : Z) (s : gostring) : gostring :=
  match s with c :: t => if (n <=? 0)%Z then [] else c :: takeZ (n - 1) t | [] => [] end.

(** String equality and membership as [bool]. *)
Definition streq (a b : gostring) : bool := bool_decide (a = b).
Definition oneOf (a : gostring) (l : list gostring) : bool := bool_decide (a ∈ l).
