(* ===== verification/GoStringFacts.v ===== *)
(** Lemmas on the Go string model: bytes, searching, splitting and joining,
    UTF-8 decoding and the [range] loop. *)
From S2P Require Import Prelude GoStrings.

(** ** Bytes *)
Lemma bz_range c : (0 <= bz c < 256)%Z.
Proof. unfold bz. pose proof (N_ascii_bounded c). lia. Qed.
Lemma zb_bz c : zb (bz c) = c.
Proof. unfold zb, bz. rewrite N2Z.id. apply ascii_N_embedding. Qed.
Lemma bz_zb z : (0 <= z < 256)%Z -> bz (zb z) = z.
Proof. intros. unfold zb, bz. rewrite N_ascii_embedding; lia. Qed.
Lemma bz_inj a b : bz a = bz b -> a = b.
Proof. intros H. by rewrite <- (zb_bz a), <- (zb_bz b), H. Qed.
#[export] Hint Resolve bz_range : mi_lsp.
Lemma ascii_eqb_bz a b : Ascii.eqb a b = (bz a =? bz b)%Z.
Proof.
  destruct (Ascii.eqb_spec a b) as [->|Hn]; [by rewrite Z.eqb_refl|].
  symmetry. apply Z.eqb_neq. intros H. by apply Hn, bz_inj.
Qed.

(** A predicate on bytes that holds on all 256 of them, by computation. *)
Lemma all_bytes (P : ascii -> bool) :
  forallb P (map ascii_of_nat (seq 0 256)) = true -> forall c, P c = true.
Proof.
  intros H c. rewrite forallb_forall in H. apply H.
  apply in_map_iff. exists (nat_of_ascii c). split; [apply ascii_nat_embedding|].
  apply in_seq. pose proof (nat_ascii_bounded c). lia.
Qed.

(** ** Prefixes and suffixes *)
Lemma hasPrefix_iff s p : hasPrefix s p = true <-> exists t, s = p ++ t.
Proof.
  revert s; induction p as [|c p IH]; intros s; cbn.
  - split; [by exists s | done].
  - destruct s as [|d s]; cbn.
    + split; [done | by intros [t [=]]].
    + rewrite andb_true_iff, IH, Ascii.eqb_eq. split.
      * intros [-> [t ->]]. by exists t.
      * intros [t [= -> ->]]. eauto.
Qed.
Lemma hasPrefix_app p t : hasPrefix (p ++ t) p = true.
Proof. apply hasPrefix_iff. eauto. Qed.
Lemma trimPrefix_app p t : trimPrefix (p ++ t) p = t.
Proof. unfold trimPrefix. by rewrite hasPrefix_app, drop_app_length. Qed.
Lemma hasSuffix_iff s p : hasSuffix s p = true <-> exists t, s = t ++ p.
Proof.
  unfold hasSuffix. rewrite hasPrefix_iff. split; intros [t H].
  - exists (rev t). rewrite <- (rev_involutive s), H, rev_app_distr. by rewrite rev_involutive.
  - exists (rev t). by rewrite H, rev_app_distr.
Qed.

(** ** Searching for a byte *)
Lemma indexByte_Some s c i :
  indexByte s c = Some i -> s = take i s ++ c :: drop (S i) s /\ c ∉ take i s.
Proof.
  revert i; induction s as [|d s IH]; intros i; cbn; [done|].
  destruct (Ascii.eqb_spec d c) as [->|Hne].
  - intros [= <-]. cbn. rewrite drop_0. split; [done | apply not_elem_of_nil].
  - destruct (indexByte s c) as [j|]; cbn; [|done]. intros [= <-].
    destruct (IH j eq_refl) as [H1 H2]. cbn. split; [by f_equal|].
    rewrite not_elem_of_cons. by split; [congruence|].
Qed.
Lemma indexByte_None s c : indexByte s c = None <-> c ∉ s.
Proof.
  induction s as [|d s IH]; cbn.
  - split; [intros _; apply not_elem_of_nil | done].
  - rewrite not_elem_of_cons, <- IH.
    destruct (Ascii.eqb_spec d c) as [->|Hne].
    + split; [done | by intros [? _]].
    + destruct (indexByte s c); cbn; [|by split].
      split; [done | by intros [_ ?]].
Qed.
Lemma indexByte_app s t c : c ∉ s -> indexByte (s ++ c :: t) c = Some (length s).
Proof.
  induction s as [|d s IH]; cbn; intros H.
  - by rewrite Ascii.eqb_refl.
  - apply not_elem_of_cons in H as [H1 H2].
    destruct (Ascii.eqb_spec d c); [congruence|]. by rewrite IH.
Qed.
Lemma indexByte_lt s c i : indexByte s c = Some i -> i < length s.
Proof.
  revert i; induction s as [|d s IH]; intros i; cbn; [done|].
  destruct (Ascii.eqb d c); [intros [= <-]; lia|].
  destruct (indexByte s c) as [j|]; cbn; [|done].
  intros [= <-]. specialize (IH j eq_refl). lia.
Qed.
Lemma lastIndexByte_None s c : lastIndexByte s c = None <-> c ∉ s.
Proof.
  induction s as [|d s IH]; cbn.
  - split; [intros _; apply not_elem_of_nil | done].
  - rewrite not_elem_of_cons, <- IH.
    destruct (lastIndexByte s c); [split; [done | by intros [_ ?]]|].
    destruct (Ascii.eqb_spec d c) as [->|Hne]; split; naive_solver.
Qed.
Lemma lastIndexByte_app s t c : c ∉ t -> lastIndexByte (s ++ c :: t) c = Some (length s).
Proof.
  intros Ht%lastIndexByte_None. induction s as [|d s IH]; cbn.
  - by rewrite Ht, Ascii.eqb_refl.
  - by rewrite IH.
Qed.
Lemma lastIndexByte_lt s c i : lastIndexByte s c = Some i -> i < length s.
Proof.
  revert i; induction s as [|d s IH]; intros i; cbn; [done|].
  destruct (lastIndexByte s c) as [j|].
  - intros [= <-]. specialize (IH j eq_refl). lia.
  - destruct (Ascii.eqb d c); [intros [= <-]; lia | done].
Qed.
Lemma memByte_iff c set : memByte c set = true <-> c ∈ set.
Proof.
  unfold memByte. destruct (indexByte set c) eqn:E.
  - apply indexByte_Some in E as [-> _]. split; [|done]. intros _. set_solver.
  - apply indexByte_None in E. by split.
Qed.

(** ** Splitting and joining *)
Lemma splitByte_nonempty s c : splitByte s c <> [].
Proof.
  destruct s as [|d s]; cbn; [done|].
  destruct (Ascii.eqb d c); [done|]. by destruct (splitByte s c).
Qed.
Lemma join_cons p ps sep : ps <> [] -> join (p :: ps) sep = p ++ sep ++ join ps sep.
Proof. by destruct ps. Qed.
Lemma join_splitByte s c : join (splitByte s c) [c] = s.
Proof.
  induction s as [|d s IH]; cbn; [done|].
  pose proof (splitByte_nonempty s c) as Hne.
  destruct (Ascii.eqb_spec d c) as [->|_].
  - rewrite join_cons by done. by rewrite IH.
  - destruct (splitByte s c) as [|p ps]; [done|].
    destruct ps; cbn in *; by rewrite <- IH.
Qed.
Lemma splitByte_inj s t c : splitByte s c = splitByte t c -> s = t.
Proof. intros H. by rewrite <- (join_splitByte s c), <- (join_splitByte t c), H. Qed.
Lemma splitByte_pieces s c : Forall (fun p => c ∉ p) (splitByte s c).
Proof.
  induction s as [|d s IH]; cbn.
  - repeat constructor. apply not_elem_of_nil.
  - destruct (Ascii.eqb_spec d c) as [->|Hne].
    + constructor; [apply not_elem_of_nil | done].
    + destruct IH as [|p ps Hp Hps]; repeat constructor; try done.
      * apply not_elem_of_cons. split; [congruence | apply not_elem_of_nil].
      * apply not_elem_of_cons. by split; [congruence|].
Qed.
Lemma splitByte_free s c : c ∉ s -> splitByte s c = [s].
Proof.
  induction s as [|d s IH]; cbn; [done|]. intros [H1 H2]%not_elem_of_cons.
  destruct (Ascii.eqb_spec d c); [congruence|]. by rewrite IH.
Qed.
Lemma splitByte_app s t c : c ∉ s -> splitByte (s ++ c :: t) c = s :: splitByte t c.
Proof.
  induction s as [|d s IH]; cbn; intros H.
  - by rewrite Ascii.eqb_refl.
  - apply not_elem_of_cons in H as [H1 H2].
    destruct (Ascii.eqb_spec d c); [congruence|]. by rewrite IH.
Qed.
Lemma splitByte_join ps c :
  ps <> [] -> Forall (fun p => c ∉ p) ps -> splitByte (join ps [c]) c = ps.
Proof.
  induction ps as [|p ps IH]; [done|]. intros _ [Hp Hps]%Forall_cons.
  destruct ps as [|q ps]; cbn -[join]; [by apply splitByte_free|].
  rewrite join_cons by done. cbn -[join]. rewrite splitByte_app by done.
  by rewrite IH.
Qed.
Lemma join_eq_nil ps c : join ps [c] = [] -> ps = [] \/ ps = [[]].
Proof. destruct ps as [|p [|q ps]]; cbn; intros H; [auto | subst; auto | by destruct p]. Qed.

(** ** UTF-8 *)
Section utf8.
Lemma cont_Some b z : cont b = Some z -> bz b = (128 + z)%Z /\ (0 <= z < 64)%Z.
Proof. unfold cont. case_match; [|done]. intros [= <-]. bool_to_prop. lia. Qed.

Lemma zb_eq b z : bz b = z -> zb z = b.
Proof. intros <-. apply zb_bz. Qed.

Local Ltac destruct_conts H :=
  repeat match type of H with
         | context [cont ?b] =>
             destruct (cont b) as [?c|] eqn:?Hc; cbn in H; [|discriminate H]
         end;
  repeat match goal with Hc : cont _ = Some _ |- _ => apply cont_Some in Hc as [? ?] end.

Lemma decode2_spec b0 b1 r w :
  decode2 (bz b0) b1 = Some (r, w) -> w = 2 /\ encodeRune r = [b0; b1] /\ (128 <= r)%Z.
Proof.
  unfold decode2. intros H. case_match; [|done]. destruct_conts H.
  injection H as <- <-. bool_to_prop. split; [done|]. split; [|lia].
  unfold encodeRune.
  decide_cmp. f_equal; [|f_equal]; apply zb_eq; dlia.
Qed.

Lemma decode3_spec b0 b1 b2 r w :
  decode3 (bz b0) b1 b2 = Some (r, w) -> w = 3 /\ encodeRune r = [b0; b1; b2] /\ (128 <= r)%Z.
Proof.
  unfold decode3. intros H. case_match; [|done]. destruct_conts H.
  case_match eqn:Hr; [|done]. injection H as <- <-. bool_to_prop.
  split; [done|]. split; [|lia]. unfold encodeRune.
  match goal with H : _ && _ = false |- _ => rewrite H end. decide_cmp.
  f_equal; [|f_equal; [|f_equal]]; apply zb_eq; dlia.
Qed.

Lemma decode4_spec b0 b1 b2 b3 r w :
  decode4 (bz b0) b1 b2 b3 = Some (r, w) ->
  w = 4 /\ encodeRune r = [b0; b1; b2; b3] /\ (128 <= r)%Z.
Proof.
  unfold decode4. intros H. case_match; [|done]. destruct_conts H.
  case_match eqn:Hr; [|done]. injection H as <- <-. bool_to_prop.
  split; [done|]. split; [|lia]. unfold encodeRune.
  decide_cmp.
  repeat (f_equal; [apply zb_eq; dlia|]). f_equal. apply zb_eq. dlia.
Qed.

(** Decoding a rune at the head of a string: either the head byte is not the
    start of a valid encoding, or the encoding of the rune is the head of the
    string, and what follows it does not matter. *)
Lemma decodeRune_spec b t :
  decodeRune (b :: t) = (RuneError, 1) \/
  (exists r, decodeRune (b :: t) = (r, 1) /\ encodeRune r = [b] /\ r = bz b /\ (r < 128)%Z) \/
  exists r p u, b :: t = p ++ u /\ encodeRune r = p /\ (128 <= r)%Z /\ 2 <= length p /\
    forall u', decodeRune (p ++ u') = (r, length p).
Proof.
  pose proof (bz_range b). unfold decodeRune at 1 2.
  destruct (bz b <? RuneSelf)%Z eqn:Hb; unfold RuneSelf in *; bool_to_prop.
  { right. left. exists (bz b). repeat split; [|lia].
    unfold encodeRune. decide_cmp. by rewrite zb_bz. }
  assert (Hlt : (bz b <? 128)%Z = false) by lia.
  destruct t as [|b1 t]; [by left|].
  destruct (decode2 (bz b) b1) as [[r w]|] eqn:E2.
  { right. right. exists r, [b; b1], t.
    destruct (decode2_spec _ _ _ _ E2) as (-> & He & Hr). rewrite He. repeat split; try done.
    intros u'. cbn [app length]. unfold decodeRune, RuneSelf. by rewrite Hlt, E2. }
  destruct t as [|b2 t]; [by left|].
  destruct (decode3 (bz b) b1 b2) as [[r w]|] eqn:E3.
  { right. right. exists r, [b; b1; b2], t.
    destruct (decode3_spec _ _ _ _ _ E3) as (-> & He & Hr). rewrite He.
    repeat split; try done; [cbn; lia|].
    intros u'. cbn [app length]. unfold decodeRune, RuneSelf. by rewrite Hlt, E2, E3. }
  destruct t as [|b3 t]; [by left|].
  destruct (decode4 (bz b) b1 b2 b3) as [[r w]|] eqn:E4; [|by left].
  right. right. exists r, [b; b1; b2; b3], t.
  destruct (decode4_spec _ _ _ _ _ _ E4) as (-> & He & Hr). rewrite He.
  repeat split; try done; [cbn; lia|].
  intros u'. cbn [app length]. unfold decodeRune, RuneSelf. by rewrite Hlt, E2, E3, E4.
Qed.
End utf8.

Lemma decodeRune_ascii b t : (bz b < 128)%Z -> decodeRune (b :: t) = (bz b, 1).
Proof. intros H. unfold decodeRune, RuneSelf. by decide_cmp. Qed.
Lemma encodeRune_ascii b : (bz b < 128)%Z -> encodeRune (bz b) = [b].
Proof. intros H. pose proof (bz_range b). unfold encodeRune. decide_cmp. by rewrite zb_bz. Qed.

(** A multi-byte encoding: decoding reads it whatever follows. *)
Definition is_multibyte (p : gostring) (r : Z) : Prop :=
  encodeRune r = p /\ (128 <= r)%Z /\ 2 <= length p /\
  forall u, decodeRune (p ++ u) = (r, length p).

(** The structure of a valid string: the sequence of encodings of its runes. *)
Inductive utf8 : gostring -> list Z -> Prop :=
| utf8_nil : utf8 [] []
| utf8_ascii c s rs : (bz c < 128)%Z -> utf8 s rs -> utf8 (c :: s) (bz c :: rs)
| utf8_multi p r s rs : is_multibyte p r -> utf8 s rs -> utf8 (p ++ s) (r :: rs).

Lemma valid_from_skip p s : valid_from (length p) (p ++ s) = valid_from 0 s.
Proof. induction p; cbn; [by destruct s | done]. Qed.
Lemma runes_from_skip p off s :
  runes_from (length p) off (p ++ s) = runes_from 0 (off + length p) s.
Proof.
  revert off; induction p as [|c p IH]; intros off; cbn.
  - by rewrite Nat.add_0_r.
  - rewrite IH. f_equal. lia.
Qed.
Lemma runes_from_ascii off c t :
  (bz c < 128)%Z -> runes_from 0 off (c :: t) = (off, bz c) :: runes_from 0 (S off) t.
Proof. intros H. cbn -[decodeRune]. by rewrite decodeRune_ascii. Qed.
Lemma runes_from_multi off p r t :
  is_multibyte p r -> runes_from 0 off (p ++ t) = (off, r) :: runes_from 0 (off + length p) t.
Proof.
  intros (_ & _ & Hlen & Hdec). specialize (Hdec t).
  destruct p as [|c p]; [cbn in Hlen; lia|]. cbn -[decodeRune].
  cbn -[decodeRune] in Hdec. rewrite Hdec. f_equal.
  replace (S (length p) - 1) with (length p) by lia.
  rewrite runes_from_skip. f_equal. lia.
Qed.

Lemma valid_utf8_len n s : length s <= n -> validString s = true -> exists rs, utf8 s rs.
Proof.
  revert s; induction n as [|n IH]; intros s Hn Hv.
  { destruct s; [|cbn in Hn; lia]. eexists; constructor. }
  destruct s as [|b t]; [eexists; constructor|].
  cbn in Hn. unfold validString in Hv.
  destruct (decodeRune_spec b t) as [E | [(r & E & He & -> & Hr) | (r & p & u & Eq & Hm)]].
  - cbn -[decodeRune] in Hv. by rewrite E in Hv.
  - cbn -[decodeRune] in Hv. rewrite E in Hv. apply andb_true_iff in Hv as [_ Hv].
    destruct (IH t) as [rs ?]; [lia | done |]. eexists. by constructor.
  - destruct Hm as (He & Hr & Hlen & Hdec).
    rewrite Eq in *. destruct p as [|c p]; [cbn in Hlen; lia|]. injection Eq as -> ->.
    specialize (Hdec u) as Hd. cbn -[decodeRune] in Hv, Hd. rewrite Hd in Hv.
    apply andb_true_iff in Hv as [_ Hv].
    replace (S (length p) - 1) with (length p) in Hv by lia.
    rewrite valid_from_skip in Hv.
    destruct (IH u) as [rs ?]; [rewrite length_app in Hn; lia | done |].
    eexists. change (c :: p ++ u) with ((c :: p) ++ u). constructor; [|done]. by repeat split.
Qed.
(** [validString] accepts exactly the well-formed encodings. *)
Lemma valid_utf8 s : validString s = true -> exists rs, utf8 s rs.
Proof. by apply (valid_utf8_len (length s)). Qed.

Lemma utf8_app s rs t us : utf8 s rs -> utf8 t us -> utf8 (s ++ t) (rs ++ us).
Proof.
  induction 1; intros Ht; cbn; [done| |].
  - constructor; auto.
  - rewrite <- app_assoc. constructor; auto.
Qed.
Lemma utf8_encode s rs : utf8 s rs -> encodeRunes rs = s.
Proof.
  unfold encodeRunes.
  induction 1 as [|c s rs Hc _ IH|p r s rs Hm _ IH]; cbn; [done| |].
  - by rewrite encodeRune_ascii, IH.
  - destruct Hm as (-> & _). by rewrite IH.
Qed.
(** The loop [for i, r := range s ++ t] over a valid [s] reads [s] and then [t]. *)
Lemma runes_from_app s rs off t :
  utf8 s rs -> runes_from 0 off (s ++ t) = runes_from 0 off s ++ runes_from 0 (off + length s) t.
Proof.
  intros H. revert off; induction H as [|c s rs Hc _ IH|p r s rs Hm _ IH]; intros off.
  - cbn. by rewrite Nat.add_0_r.
  - change ((c :: s) ++ t) with (c :: (s ++ t)). rewrite !runes_from_ascii by done.
    cbn [app length]. rewrite IH. by rewrite Nat.add_succ_comm.
  - rewrite <- app_assoc, !(runes_from_multi _ p r) by done. rewrite IH. cbn [app].
    by rewrite length_app, Nat.add_assoc.
Qed.
Lemma runes_utf8 s rs off : utf8 s rs -> map snd (runes_from 0 off s) = rs.
Proof.
  intros H. revert off; induction H as [|c s rs Hc _ IH|p r s rs Hm _ IH]; intros off; cbn -[runes_from].
  - done.
  - rewrite runes_from_ascii by done. cbn -[runes_from]. by rewrite IH.
  - rewrite (runes_from_multi _ p r) by done. cbn -[runes_from]. by rewrite IH.
Qed.
Lemma isASCII_utf8 s : isASCII s = true -> utf8 s (map bz s).
Proof.
  induction s as [|c s IH]; cbn; [constructor|]. unfold RuneSelf.
  intros [Hc%Z.ltb_lt Hs]%andb_true_iff. constructor; auto.
Qed.

(** ** [strings.TrimSpace] *)
Definition starts_solid (s : gostring) : bool :=
  match s with c :: _ => ((bz c <? 128) && negb (isSpaceRune (bz c)))%Z | [] => true end.
Definition ends_solid (s : gostring) : bool := starts_solid (rev s).

Lemma solid_head s c t : s = c :: t -> starts_solid s = true -> (bz c < 128)%Z /\ isSpaceRune (bz c) = false.
Proof. intros ->. unfold starts_solid. intros. by bool_to_prop. Qed.
Lemma trimLeftSpace_solid s : starts_solid s = true -> trimLeftSpace s = s.
Proof.
  intros Hs. destruct s as [|c s]; [done|].
  destruct (solid_head _ _ _ eq_refl Hs) as [Hc Hn].
  unfold trimLeftSpace. cbn -[decodeRune]. rewrite decodeRune_ascii by lia. by rewrite Hn.
Qed.
Lemma decodeLastRune_ascii c r : (bz c < 128)%Z -> decodeLastRune (c :: r) = (bz c, 1).
Proof. intros. unfold decodeLastRune, RuneSelf. by decide_cmp. Qed.
Lemma trimRight_spaces f sp rs :
  Forall (fun c => c = SP) sp -> starts_solid rs = true -> length sp <= f ->
  trimRightSpace_fuel f (sp ++ rs) = rs.
Proof.
  intros Hsp Hrs. revert f. induction Hsp as [|c sp -> _ IH]; intros f Hf; cbn in Hf.
  - destruct rs as [|c rs]; [by destruct f|]. destruct (solid_head _ _ _ eq_refl Hrs) as [Hc Hn].
    destruct f; [done|]. cbn -[decodeLastRune]. rewrite decodeLastRune_ascii by lia. by rewrite Hn.
  - destruct f as [|f]; [lia|]. cbn -[decodeLastRune]. rewrite decodeLastRune_ascii by done.
    cbn. apply IH. lia.
Qed.
(** Trailing spaces after text that starts and ends with a visible ASCII
    character are what [TrimSpace] removes. *)
Lemma trimSpace_trailing s sp :
  s <> [] -> starts_solid s = true -> ends_solid s = true -> Forall (fun c => c = SP) sp ->
  trimSpace (s ++ sp) = s.
Proof.
  intros Hne Hs He Hsp. unfold trimSpace. rewrite trimLeftSpace_solid.
  - unfold trimRightSpace. rewrite rev_app_distr, trimRight_spaces.
    + apply rev_involutive.
    + by apply Forall_rev.
    + done.
    + rewrite length_rev, length_app. lia.
  - by destruct s.
Qed.
Lemma trimSpace_solid s : starts_solid s = true -> ends_solid s = true -> trimSpace s = s.
Proof.
  intros Hs He. destruct s as [|c s]; [done|]. rewrite <- (app_nil_r (c :: s)) at 1.
  by apply trimSpace_trailing.
Qed.

Definition solid (c : ascii) : bool := ((bz c <? 128) && negb (isSpaceRune (bz c)))%Z.
Lemma trimSpace_all_solid s : Forall (fun c => solid c = true) s -> trimSpace s = s.
Proof.
  intros Hs. apply trimSpace_solid.
  - destruct Hs; [done|]. by unfold starts_solid.
  - unfold ends_solid. apply Forall_rev in Hs. destruct Hs; [done|]. by unfold starts_solid.
Qed.

(** ** Decoding arbitrary bytes

    Decoding looks no further than the first ASCII byte, so a loop over the
    runes of a string may be cut before any ASCII byte. *)
Fixpoint nonascii_prefix (s : gostring) : gostring :=
  match s with
  | c :: s => if (bz c <? 128)%Z then [] else c :: nonascii_prefix s
  | [] => []
  end.

Lemma cont_ascii c : (bz c < 128)%Z -> cont c = None.
Proof. intros H. unfold cont. by decide_cmp. Qed.
Lemma decode2_ascii z c : (bz c < 128)%Z -> decode2 z c = None.
Proof. intros H. unfold decode2. rewrite cont_ascii by done. by case_match. Qed.
Lemma decode3_ascii z b c :
  (bz b < 128)%Z \/ (bz c < 128)%Z -> decode3 z b c = None.
Proof.
  intros H. unfold decode3. case_match; [|done].
  destruct H; [by rewrite (cont_ascii b) by done|]. rewrite (cont_ascii c) by done. by destruct (cont b).
Qed.
Lemma decode4_ascii z b c d :
  (bz b < 128)%Z \/ (bz c < 128)%Z \/ (bz d < 128)%Z -> decode4 z b c d = None.
Proof.
  intros H. unfold decode4. case_match; [|done].
  destruct H as [?|[?|?]]; [by rewrite (cont_ascii b) by done| |].
  - rewrite (cont_ascii c) by done. by destruct (cont b).
  - rewrite (cont_ascii d) by done. destruct (cont b), (cont c); done.
Qed.

Lemma decodeRune_nap b t : decodeRune (b :: t) = decodeRune (b :: nonascii_prefix t).
Proof.
  unfold decodeRune. destruct (bz b <? RuneSelf)%Z; [done|].
  destruct t as [|b1 t]; [done|]. cbn [nonascii_prefix].
  destruct (bz b1 <? 128)%Z eqn:H1; bool_to_prop.
  { rewrite decode2_ascii by done.
    destruct t as [|b2 t]; [done|]. rewrite decode3_ascii by auto.
    destruct t as [|b3 t]; [done|]. by rewrite decode4_ascii by auto. }
  destruct t as [|b2 t]; [done|]. cbn [nonascii_prefix].
  destruct (bz b2 <? 128)%Z eqn:H2; bool_to_prop.
  { rewrite decode3_ascii by auto.
    destruct t as [|b3 t]; [done|]. by rewrite decode4_ascii by auto. }
  destruct t as [|b3 t]; [done|]. cbn [nonascii_prefix].
  destruct (bz b3 <? 128)%Z eqn:H3; bool_to_prop; [|done].
  by rewrite decode4_ascii by auto.
Qed.

Definition nonascii (c : ascii) : Prop := (128 <= bz c)%Z.
Lemma nonascii_prefix_app p s : Forall nonascii p -> nonascii_prefix (p ++ s) = p ++ nonascii_prefix s.
Proof.
  unfold nonascii. induction 1 as [|c p Hc _ IH]; cbn [nonascii_prefix app]; [done|].
  decide_cmp. by rewrite IH.
Qed.
Lemma encodeRune_nonascii r : (128 <= r)%Z -> Forall nonascii (encodeRune r).
Proof.
  intros Hr. unfold encodeRune, nonascii. decide_cmp.
  repeat case_match; bool_to_prop; repeat constructor; (rewrite bz_zb; dlia).
Qed.

(** The head of a non-empty string, as the [range] loop reads it: an ASCII
    byte, or a block of non-ASCII bytes read as one rune (possibly
    [RuneError]) whatever ASCII text follows. *)
Lemma decodeRune_block b t :
  (128 <= bz b)%Z ->
  exists r p u, b :: t = p ++ u /\ p <> [] /\ Forall nonascii p /\ (128 <= r)%Z /\
    forall u', nonascii_prefix u' = nonascii_prefix u -> decodeRune (p ++ u') = (r, length p).
Proof.
  intros Hb. destruct (decodeRune_spec b t) as [E | [(r & E & He & -> & Hr) | (r & p & u & Eq & He & Hr & Hlen & Hd)]].
  - exists RuneError, [b], t. split; [done|]. split; [done|]. split; [by repeat constructor|].
    split; [done|].
    intros u' Hu. cbn [app length]. by rewrite decodeRune_nap, Hu, <- decodeRune_nap.
  - lia.
  - exists r, p, u. split; [done|].
    split; [by intros ->; cbn in Hlen; lia|].
    split; [rewrite <- He; by apply encodeRune_nonascii|]. split; [done|].
    intros u' _. apply Hd.
Qed.

Lemma runes_from_block off p r u :
  p <> [] -> decodeRune (p ++ u) = (r, length p) ->
  runes_from 0 off (p ++ u) = (off, r) :: runes_from 0 (off + length p) u.
Proof.
  intros Hp Hd. destruct p as [|c p]; [done|]. cbn -[decodeRune]. cbn -[decodeRune] in Hd.
  rewrite Hd. f_equal. replace (S (length p) - 1) with (length p) by lia.
  rewrite runes_from_skip. f_equal. lia.
Qed.

(** Induction on a string as the [range] loop reads it. *)
Lemma bytes_ind (P : gostring -> Prop) :
  P [] ->
  (forall c s, (bz c < 128)%Z -> P s -> P (c :: s)) ->
  (forall p s r, p <> [] -> Forall nonascii p -> (128 <= r)%Z ->
     (forall u, nonascii_prefix u = nonascii_prefix s -> decodeRune (p ++ u) = (r, length p)) ->
     P s -> P (p ++ s)) ->
  forall s, P s.
Proof.
  intros Hnil Hasc Hblk s. remember (length s) as n eqn:Hn.
  assert (length s <= n) as Hle by lia. clear Hn. revert s Hle.
  induction n as [|n IH]; intros s Hle; (destruct s as [|b t]; [done|]); cbn in Hle; [lia|].
  destruct (decide (bz b < 128)%Z) as [Hb|Hb].
  - apply Hasc; [done|]. apply IH. lia.
  - destruct (decodeRune_block b t) as (r & p & u & E & Hp & Hna & Hr & Hd); [lia|].
    rewrite E. apply (Hblk p u r); try done. apply IH.
    apply (f_equal length) in E. rewrite length_app in E. cbn in E.
    destruct p; [done|]. cbn in E. lia.
Qed.

(** The loop over [s ++ c :: t] with [c] in ASCII reads [s], then [c :: t]. *)
Lemma runes_from_app_ascii s off c t :
  (bz c < 128)%Z ->
  runes_from 0 off (s ++ c :: t) = runes_from 0 off s ++ runes_from 0 (off + length s) (c :: t).
Proof.
  intros Hc. revert off. induction s as [|d s Hd IH|p s r Hp Hna Hr Hdec IH] using bytes_ind; intros off.
  - cbn [app length]. by rewrite Nat.add_0_r.
  - cbn [app length]. rewrite !(runes_from_ascii _ d) by done. rewrite IH. cbn [app].
    by rewrite Nat.add_succ_comm.
  - rewrite <- app_assoc. rewrite (runes_from_block off p r (s ++ c :: t)), (runes_from_block off p r s).
    + rewrite IH. cbn [app]. by rewrite length_app, Nat.add_assoc.
    + done.
    + by apply Hdec.
    + done.
    + apply Hdec. clear -Hc. induction s as [|d s IHs]; cbn [app nonascii_prefix].
      * by decide_cmp.
      * by rewrite IHs.
Qed.
(** The runes of a string are its characters with errors replaced. *)
Lemma runes_valid s : validString s = true -> encodeRunes (map snd (runes s)) = s.
Proof.
  intros [rs H]%valid_utf8. unfold runes. rewrite (runes_utf8 _ _ _ H). by apply utf8_encode.
Qed.

(** ** [strings.ReplaceAll] of a marker that occurs once *)
Lemma replaceAll_none c m s new : c ∉ s -> replaceAll s (c :: m) new = s.
Proof.
  unfold replaceAll. induction s as [|d s IH]; cbn [replaceAll_skip]; [done|].
  intros [Hd Hs]%not_elem_of_cons. cbn [hasPrefix].
  destruct (Ascii.eqb_spec c d); [congruence|]. cbn [andb]. by rewrite IH.
Qed.
Lemma replaceAll_skip_drop old new p s :
  replaceAll_skip (length p) (p ++ s) old new = replaceAll_skip 0 s old new.
Proof. induction p as [|c p IH]; cbn; [done | apply IH]. Qed.
Lemma replaceAll_once c m pre post new :
  c ∉ pre -> c ∉ post -> replaceAll (pre ++ (c :: m) ++ post) (c :: m) new = pre ++ new ++ post.
Proof.
  unfold replaceAll. intros Hpre Hpost. induction pre as [|d pre IH].
  - cbn [app]. cbn [replaceAll_skip].
    change (c :: m ++ post) with ((c :: m) ++ post). rewrite hasPrefix_app. f_equal.
    cbn [length]. rewrite Nat.sub_succ, Nat.sub_0_r, replaceAll_skip_drop.
    by apply replaceAll_none.
  - apply not_elem_of_cons in Hpre as [Hd Hpre]. specialize (IH Hpre).
    cbn [app] in IH |- *. cbn [replaceAll_skip hasPrefix].
    destruct (Ascii.eqb_spec c d); [congruence|]. cbn [andb]. by rewrite IH.
Qed.

(** ** Trimming keeps a substring *)
Lemma trimLeftSpace_drop s :
  trimLeftSpace s = drop (length s - length (trimLeftSpace s)) s.
Proof.
  assert (forall f s, exists k, trimLeftSpace_fuel f s = drop k s) as Hk.
  { induction f as [|f IH]; intros [|b t]; try (by exists 0).
    cbn -[decodeRune]. destruct (decodeRune (b :: t)) as [r w].
    destruct (isSpaceRune r); [|by exists 0].
    destruct (IH (drop w (b :: t))) as [k ->]. exists (w + k). by rewrite drop_drop. }
  unfold trimLeftSpace. destruct (Hk (length s) s) as [k ->].
  rewrite length_drop. destruct (decide (k <= length s)).
  - f_equal. lia.
  - rewrite !drop_ge by lia. done.
Qed.
Lemma trimRightSpace_take s : exists k, trimRightSpace s = take k s.
Proof.
  assert (forall f s, exists k, trimRightSpace_fuel f s = drop k s) as Hk.
  { induction f as [|f IH]; intros [|b t]; try (by exists 0).
    cbn -[decodeLastRune]. destruct (decodeLastRune (b :: t)) as [r w].
    destruct (isSpaceRune r); [|by exists 0].
    destruct (IH (drop w (b :: t))) as [k ->]. exists (w + k). by rewrite drop_drop. }
  unfold trimRightSpace. destruct (Hk (length s) (rev s)) as [k ->].
  exists (length s - k). by rewrite skipn_rev, rev_involutive.
Qed.
Lemma take_length_take {A} (l : list A) n : take (length (take n l)) l = take n l.
Proof.
  rewrite length_take. destruct (decide (n <= length l)).
  - by rewrite Nat.min_l.
  - rewrite Nat.min_r by lia. by rewrite !take_ge by lia.
Qed.

(** ** Trimming valid strings *)
Lemma utf8_valid s rs : utf8 s rs -> validString s = true.
Proof.
  unfold validString. induction 1 as [|c s rs Hc _ IH|p r s rs Hm _ IH]; [done| |].
  - cbn -[decodeRune]. rewrite decodeRune_ascii by done. cbn [Nat.eqb Nat.sub].
    unfold RuneError. destruct (Z.eqb_spec (bz c) 65533); [lia | done].
  - destruct Hm as (_ & _ & Hlen & Hdec). specialize (Hdec s).
    destruct p as [|c p]; [cbn in Hlen; lia|]. cbn -[decodeRune]. cbn -[decodeRune] in Hdec. rewrite Hdec.
    cbn [length] in Hlen. destruct (length p) as [|n] eqn:E; [lia|]. cbn [Nat.eqb Nat.sub]. rewrite andb_false_r.
    by rewrite <- E, valid_from_skip.
Qed.
(** A string that is one encoding: what [decodeRune] and [decodeLastRune] read. *)
Definition one_rune (p : gostring) (r : Z) : Prop :=
  (exists c, p = [c] /\ r = bz c /\ (bz c < 128)%Z) \/ is_multibyte p r.

Lemma one_rune_utf8 p r : one_rune p r -> utf8 p [r].
Proof.
  intros [(c & -> & -> & ?)|Hm]; [by repeat constructor|].
  rewrite <- (app_nil_r p). constructor; [done|constructor].
Qed.
Lemma one_rune_length p r : one_rune p r -> 1 <= length p.
Proof. intros [(c & -> & _)|(_ & _ & ? & _)]; cbn; lia. Qed.
Lemma decodeRune_one p r u : one_rune p r -> decodeRune (p ++ u) = (r, length p).
Proof. intros [(c & -> & -> & ?)|(_ & _ & _ & H)]; [by apply decodeRune_ascii | apply H]. Qed.

Lemma runeStart_cont x : (0 <= x < 64)%Z -> runeStart (zb (128 + x)) = false.
Proof. intros. unfold runeStart. rewrite bz_zb by lia. by decide_cmp. Qed.
Lemma runeStart_lead x : (192 <= x < 256)%Z -> runeStart (zb x) = true.
Proof. intros. unfold runeStart. rewrite bz_zb by lia. by decide_cmp. Qed.
Lemma cont_high x : (0 <= x < 64)%Z -> (bz (zb (128 + x)) <? RuneSelf)%Z = false.
Proof. intros. rewrite bz_zb by lia. unfold RuneSelf. by decide_cmp. Qed.

(** The bytes of a multi-byte encoding: a lead byte and continuation bytes. *)
Lemma multibyte_bytes p r :
  is_multibyte p r ->
  exists lead conts, p = lead :: conts /\ runeStart lead = true /\ 1 <= length conts <= 3 /\
    Forall (fun b => runeStart b = false /\ (bz b <? RuneSelf)%Z = false) conts.
Proof.
  intros (He & Hr & Hlen & _). unfold encodeRune in He.
  assert (Hcont : forall x, runeStart (zb (128 + x mod 64)) = false /\
            (bz (zb (128 + x mod 64)) <? RuneSelf)%Z = false).
  { intros x. split; [apply runeStart_cont | apply cont_high]; dlia. }
  repeat case_match; bool_to_prop; subst p; try lia.
  all: do 2 eexists; split; [reflexivity|]; split; [apply runeStart_lead; dlia|]; split; [cbn; lia|].
  all: repeat (apply Forall_cons; split; [first [apply Hcont | by split]|]); constructor.
Qed.
Lemma decodeLastRune_one p r t : one_rune p r -> decodeLastRune (rev (t ++ p)) = (r, length p).
Proof.
  intros Hp. rewrite rev_app_distr. destruct Hp as [(c & -> & -> & ?)|Hm]; [by apply decodeLastRune_ascii|].
  destruct (multibyte_bytes p r Hm) as (lead & conts & -> & Hlead & Hlen & Hc).
  destruct Hm as (_ & _ & _ & Hdec). specialize (Hdec []). rewrite app_nil_r in Hdec.
  assert (Hgoal : forall k, k = length (lead :: conts) ->
    (let '(r0, w) := decodeRune (rev (take k (rev (lead :: conts) ++ rev t))) in
     if (w =? k) && (0 <? k) then (r0, k) else (RuneError, 1)) = (r, length (lead :: conts))).
  { intros k ->. rewrite <- length_rev, take_app_length, rev_involutive, Hdec, length_rev.
    by rewrite Nat.eqb_refl. }
  destruct conts as [|b1 [|b2 [|b3 [|]]]]; cbn [length] in Hlen; try lia.
  all: rewrite !Forall_cons in Hc; decompose [and] Hc; unfold decodeLastRune; cbn [rev app];
    repeat match goal with Hb : (bz ?b <? RuneSelf)%Z = false |- context [(bz ?b <? RuneSelf)%Z] => rewrite Hb end;
    repeat match goal with Hb : runeStart ?b = _ |- context [runeStart ?b] => rewrite Hb end.
  all: by apply (Hgoal _ eq_refl).
Qed.

(** Reading a valid string from either end. *)
Lemma utf8_cons_inv s rs :
  utf8 s rs -> s = [] /\ rs = [] \/ exists p r t us, s = p ++ t /\ rs = r :: us /\ one_rune p r /\ utf8 t us.
Proof.
  destruct 1 as [|c s rs Hc Hs|p r s rs Hm Hs]; [by left|right..].
  - exists [c], (bz c), s, rs. repeat split; try done. left. eauto.
  - exists p, r, s, rs. repeat split; try done. by right.
Qed.
Lemma utf8_snoc_inv s rs :
  utf8 s rs -> s = [] /\ rs = [] \/ exists t us p r, s = t ++ p /\ rs = us ++ [r] /\ one_rune p r /\ utf8 t us.
Proof.
  remember (length rs) as n eqn:Hn. revert s rs Hn. induction n as [|n IH]; intros s rs Hn Hs;
    destruct (utf8_cons_inv s rs Hs) as [?|(p & r & t & us & -> & -> & Hp & Ht)]; auto; cbn in Hn; [lia|].
  injection Hn as Hn. destruct (IH t us Hn Ht) as [[-> ->]|(t' & us' & q & r' & -> & -> & Hq & Ht')]; right.
  - exists [], [], p, r. rewrite app_nil_r. by repeat split; try done; constructor.
  - exists (p ++ t'), (r :: us'), q, r'. rewrite app_assoc. repeat split; try done.
    apply (utf8_app p [r]); [by apply one_rune_utf8 | done].
Qed.

Lemma trimLeft_utf8 f s rs :
  utf8 s rs -> length s <= f ->
  exists pre us, rs = pre ++ us /\ utf8 (trimLeftSpace_fuel f s) us /\
    match us with r :: _ => isSpaceRune r = false | [] => True end.
Proof.
  revert f s; induction rs as [|r rs IH]; intros f s Hs Hf;
    destruct (utf8_cons_inv s _ Hs) as [[-> E]|(p & r' & t & us & -> & E & Hp & Ht)]; try discriminate E.
  - exists [], []. split; [done|]. split; [destruct f; constructor | done].
  - injection E as <- <-. pose proof (one_rune_length p r Hp). rewrite length_app in Hf.
    destruct f as [|f]; [lia|]. cbn [trimLeftSpace_fuel].
    destruct (p ++ t) as [|c q] eqn:E; [destruct p; [cbn in *; lia | done]|]. rewrite <- E.
    rewrite (decodeRune_one p r) by done. destruct (isSpaceRune r) eqn:Hspace.
    + rewrite drop_app_length. destruct (IH f t Ht) as (pre & us & -> & Hus & Hhd); [lia|].
      exists (r :: pre), us. done.
    + exists [], (r :: rs). split; [done|]. split; [by rewrite E | done].
Qed.
Lemma trimRight_utf8 f s rs :
  utf8 s rs -> length s <= f ->
  exists us post, rs = us ++ post /\ utf8 (rev (trimRightSpace_fuel f (rev s))) us /\
    match last us with Some r => isSpaceRune r = false | None => True end.
Proof.
  revert f s; induction rs as [|r rs IH] using rev_ind; intros f s Hs Hf;
    destruct (utf8_snoc_inv s _ Hs) as [[-> E]|(t & us & p & r' & -> & E & Hp & Ht)].
  - exists [], []. split; [done|]. split; [destruct f; constructor | done].
  - by destruct us.
  - by destruct rs.
  - apply app_inj_tail in E as [<- <-]. pose proof (one_rune_length p r Hp). rewrite length_app in Hf.
    destruct f as [|f]; [lia|]. cbn [trimRightSpace_fuel].
    destruct (rev (t ++ p)) as [|c q] eqn:E.
    { apply (f_equal length) in E. rewrite length_rev, length_app in E. cbn in E. lia. }
    rewrite <- E. rewrite (decodeLastRune_one p r) by done. destruct (isSpaceRune r) eqn:Hspace.
    + rewrite rev_app_distr. rewrite <- (length_rev p), drop_app_length.
      destruct (IH f t Ht) as (us & post & -> & Hus & Hhd); [lia|].
      exists us, (post ++ [r]). by rewrite app_assoc.
    + exists (rs ++ [r]), []. rewrite app_nil_r, rev_involutive, last_snoc. done.
Qed.

(** Trimming a valid string drops runes at both ends. *)
Lemma trimSpace_utf8 s rs :
  utf8 s rs ->
  exists pre us post, rs = pre ++ us ++ post /\ utf8 (trimSpace s) us /\
    match us with r :: _ => isSpaceRune r = false | [] => True end /\
    match last us with Some r => isSpaceRune r = false | None => True end.
Proof.
  intros Hs. destruct (trimLeft_utf8 (length s) s rs Hs) as (pre & us & -> & Hus & Hhd); [done|].
  destruct (trimRight_utf8 (length (trimLeftSpace s)) _ us Hus) as (vs & post & -> & Hvs & Hlast); [done|].
  exists pre, vs, post. split; [done|]. split; [exact Hvs|]. split; [|done].
  by destruct vs.
Qed.
Lemma trimSpace_fixed s us :
  utf8 s us -> match us with r :: _ => isSpaceRune r = false | [] => True end ->
  match last us with Some r => isSpaceRune r = false | None => True end -> trimSpace s = s.
Proof.
  intros Hs Hhd Hlast. unfold trimSpace.
  assert (trimLeftSpace s = s) as ->.
  { destruct (utf8_cons_inv s us Hs) as [[-> ->]|(p & r & t & vs & -> & -> & Hp & _)]; [done|].
    pose proof (one_rune_length p r Hp). unfold trimLeftSpace.
    destruct (p ++ t) as [|c q] eqn:E; [done|]. cbn [length trimLeftSpace_fuel]. rewrite <- E, (decodeRune_one p r) by done.
    by rewrite Hhd. }
  destruct (utf8_snoc_inv s us Hs) as [[-> ->]|(t & vs & p & r & -> & -> & Hp & _)]; [done|].
  rewrite last_snoc in Hlast. pose proof (one_rune_length p r Hp). unfold trimRightSpace.
  rewrite length_app. destruct (length t + length p) as [|f] eqn:E; [lia|].
  cbn [trimRightSpace_fuel]. destruct (rev (t ++ p)) as [|c q] eqn:E'.
  { apply (f_equal length) in E'. rewrite length_rev, length_app in E'. cbn in E'. lia. }
  rewrite <- E', (decodeLastRune_one p r) by done. by rewrite Hlast, rev_involutive.
Qed.
(** [TrimSpace] is idempotent and preserves validity, for valid strings. *)
Lemma trimSpace_idempotent s : validString s = true -> trimSpace (trimSpace s) = trimSpace s.
Proof.
  intros [rs Hs]%valid_utf8. destruct (trimSpace_utf8 s rs Hs) as (_ & us & _ & _ & Hus & Hhd & Hlast).
  by apply (trimSpace_fixed _ us).
Qed.
Lemma trimSpace_valid s : validString s = true -> validString (trimSpace s) = true.
Proof.
  intros [rs Hs]%valid_utf8. destruct (trimSpace_utf8 s rs Hs) as (_ & us & _ & _ & Hus & _).
  by eapply utf8_valid.
Qed.
(** No rune appears by trimming. *)
Lemma trimSpace_runes (P : Z -> bool) s :
  validString s = true -> forallb P (map snd (runes s)) = true -> forallb P (map snd (runes (trimSpace s))) = true.
Proof.
  intros [rs Hs]%valid_utf8. destruct (trimSpace_utf8 s rs Hs) as (pre & us & post & -> & Hus & _).
  unfold runes. rewrite (runes_utf8 _ _ _ Hs), (runes_utf8 _ _ _ Hus), !forallb_app. intros. bool_to_prop. done.
Qed.

(** ** Equality tests *)
Lemma streq_true a b : streq a b = true <-> a = b.
Proof. apply bool_decide_eq_true. Qed.
Lemma streq_false a b : streq a b = false <-> a <> b.
Proof. apply bool_decide_eq_false. Qed.
Lemma streq_refl a : streq a a = true.
Proof. by apply streq_true. Qed.
Ltac streqs :=
  repeat match goal with
  | H : streq _ _ = true |- _ => apply streq_true in H
  | H : streq _ _ = false |- _ => apply streq_false in H
  end.
(** Split the conjunction of guards that an accepted [if] has passed. *)
Ltac passed H := repeat (apply orb_false_iff in H as [H ?]); bool_to_prop; streqs.

(** ** Bytes of substrings *)
Lemma contains_byte_false s c : contains s [c] = false -> c ∉ s.
Proof.
  unfold contains. induction s as [|d s IH]; intros E Hin; [by apply elem_of_nil in Hin|].
  change (index (d :: s) [c]) with (if hasPrefix (d :: s) [c] then Some 0 else S <$> index s [c]) in E.
  destruct (hasPrefix (d :: s) [c]) eqn:Hp; [done|]. apply elem_of_cons in Hin as [->|Hin].
  - assert (hasPrefix (d :: s) [d] = true); [|congruence]. apply hasPrefix_iff. by exists s.
  - apply IH; [|done]. by destruct (index s [c]).
Qed.
Lemma join_piece (ps : list gostring) sep p c : p ∈ ps -> c ∈ p -> c ∈ join ps sep.
Proof.
  intros Hp Hc. induction ps as [|q ps IH]; [by apply elem_of_nil in Hp|].
  destruct ps as [|r ps].
  - apply list_elem_of_singleton in Hp as ->. done.
  - rewrite join_cons by done. apply elem_of_cons in Hp as [->|Hp]; rewrite !elem_of_app; auto.
Qed.
Lemma join_notin lines sep c : Forall (fun l => c ∉ l) lines -> c ∉ sep -> c ∉ join lines sep.
Proof.
  intros Hl Hs. induction Hl as [|l lines Hl _ IH]; [apply not_elem_of_nil|]. destruct lines as [|l' lines]; [done|].
  rewrite join_cons by done. by rewrite !not_elem_of_app.
Qed.
Lemma trimSuffix_prefix s p : exists t, s = trimSuffix s p ++ t.
Proof.
  unfold trimSuffix. destruct (hasSuffix s p); [|by exists []; rewrite app_nil_r].
  exists (drop (length s - length p) s). by rewrite take_drop.
Qed.
Lemma trimSuffix_cases s p : s = trimSuffix s p \/ s = trimSuffix s p ++ p.
Proof.
  unfold trimSuffix. destruct (hasSuffix s p) eqn:Hs; [right|by left].
  apply hasSuffix_iff in Hs as [t ->]. by rewrite length_app, Nat.add_sub, take_app_length.
Qed.

(** ** Cutting valid strings

    Next to an ASCII byte, and where a rune starts, no encoding is split. *)
Definition cut_at (s : gostring) (k : nat) : Prop :=
  length s <= k \/ (exists c, s !! k = Some c /\ runeStart c = true) \/
  (exists j c, k = S j /\ s !! j = Some c /\ (bz c < 128)%Z).
Lemma utf8_split s rs k :
  utf8 s rs -> cut_at s k -> (exists rs', utf8 (take k s) rs') /\ (exists rs', utf8 (drop k s) rs').
Proof.
  intros Hs. revert k. induction Hs as [|c s rs Hc Hs IH|p r s rs Hm Hs IH]; intros k Hk.
  - rewrite take_nil, drop_nil. split; eexists; constructor.
  - destruct k as [|k]; [split; eexists; [constructor|]; by constructor|]. cbn [take drop].
    assert (Hcut : cut_at s k \/ k = 0).
    { destruct Hk as [Hk|[Hk|(j & d & [= ->] & Hd & ?)]]; [left; left; cbn in Hk; lia|left; by right; left|].
      destruct j as [|j]; [by right|left; right; right; eauto]. }
    destruct Hcut as [[[rs1 H1] H2]%IH| ->]; [split; [eexists; by constructor|done]|].
    rewrite take_0, drop_0. split; eexists; [constructor; [done|constructor]|done].
  - destruct (multibyte_bytes p r Hm) as (lead & conts & -> & _ & _ & Hconts).
    destruct (decide (k = 0)) as [->|Hk0].
    { rewrite take_0, drop_0. split; eexists; [constructor|]; by constructor. }
    destruct (decide (k < length (lead :: conts))) as [Hlt|Hge].
    { exfalso. rewrite Forall_lookup in Hconts.
      destruct Hk as [Hk|[(d & Hd & Hst)|(j & d & -> & Hd & Has)]].
      - rewrite length_app in Hk. lia.
      - rewrite lookup_app_l in Hd by done. destruct k as [|k]; [done|]. apply Hconts in Hd as [? _]. congruence.
      - rewrite lookup_app_l in Hd by lia. destruct j as [|j].
        + cbn in Hd. injection Hd as <-. destruct Hm as (_ & Hr & _ & Hdec). specialize (Hdec []).
          cbn -[decodeRune] in Hdec. rewrite decodeRune_ascii in Hdec by done. injection Hdec as E _. lia.
        + cbn in Hd. apply Hconts in Hd as [_ Hd]. unfold RuneSelf in Hd. bool_to_prop. lia. }
    rewrite take_app_ge, drop_app_ge by lia.
    assert (Hcut : cut_at s (k - length (lead :: conts)) \/ k = length (lead :: conts)).
    { destruct Hk as [Hk|[(d & Hd & Hst)|(j & d & -> & Hd & Has)]].
      - left; left. rewrite length_app in Hk. lia.
      - left; right; left. exists d. by rewrite lookup_app_r in Hd by lia.
      - destruct (decide (S j = length (lead :: conts))) as [|]; [by right|left; right; right].
        exists (j - length (lead :: conts)), d. rewrite lookup_app_r in Hd by lia. split; [lia|done]. }
    destruct Hcut as [[[rs1 H1] [rs2 H2]]%IH| ->].
    + split; eexists; [by constructor|done].
    + rewrite Nat.sub_diag, take_0, drop_0, app_nil_r. split; eexists; [|done].
      rewrite <- (app_nil_r (lead :: conts)). constructor; [done|constructor].
Qed.
