(* ===== verification/GoPath.v ===== *)
(** Go's path and path/filepath on slash-separated names: [Clean], [Base], [Ext], [Join],
    [Rel] and [Match], and [strings.EqualFold] against an ASCII word. *)
From S2P Require Import Prelude GoStrings GoStringFacts.

Local Open Scope go_scope.

(** * [Clean] and [Base] *)
Definition clean_segment (rooted : bool) (out : list gostring) (seg : gostring) : list gostring :=
  if streq seg [] || streq seg "." then out
  else if streq seg ".." then
    match out with
    | x :: out' => if streq x ".." then ".." :: out else out'
    | [] => if rooted then [] else [".."%go]
    end
  else seg :: out.
(** The kept segments, last one first. *)
Definition clean_segments (rooted : bool) (segs : list gostring) : list gostring :=
  fold_left (clean_segment rooted) segs [].
Definition pathClean (s : gostring) : gostring :=
  let rooted := hasPrefix s "/" in
  let body := join (rev (clean_segments rooted (splitByte s "/"))) "/" in
  if rooted then "/" ++ body else if streq body [] then "." else body.
Definition pathBase (s : gostring) : gostring :=
  if streq s [] then "."
  else let t := trimRightSet s "/" in
       if streq t [] then "/"
       else match lastIndexByte t "/" with Some i => drop (S i) t | None => t end.

(** * [Ext], [IsAbs], [Join] and [Rel] *)
(** What follows the last dot of the last element, with the dot. *)
Definition pathExt (s : gostring) : gostring :=
  match lastIndexByte s "." with
  | Some i => let e := drop i s in if memByte "/" e then [] else e
  | None => []
  end.
Definition isAbs (s : gostring) : bool := hasPrefix s "/".
Definition pathJoin (parts : list gostring) : gostring :=
  let parts := filter (fun p => p <> []) parts in
  match parts with [] => [] | _ => pathClean (join parts "/") end.
(** The elements of a cleaned name. *)
Definition elements (clean : gostring) : list gostring :=
  if oneOf clean ["."; "/"] then [] else splitByte (trimPrefix clean "/") "/".
Fixpoint diverge (base targ : list gostring) : list gostring * list gostring :=
  match base, targ with
  | b :: base', t :: targ' => if streq b t then diverge base' targ' else (base, targ)
  | _, _ => (base, targ)
  end.
(** [None]: one of them is absolute and the other is not, or [base] goes up from an
    unknown directory. *)
Definition pathRel (basepath targpath : gostring) : option gostring :=
  let base := pathClean basepath in
  let targ := pathClean targpath in
  if streq base targ then Some ("." : gostring)
  else if negb (Bool.eqb (isAbs base) (isAbs targ)) then None
  else
    let '(b, t) := diverge (elements base) (elements targ) in
    match b with
    | x :: _ => if streq x ".." then None else Some (join (map (fun _ => ".." : gostring) b ++ t) "/")
    | [] => Some (join t "/")
    end.

(** * [Match]

    [None] is a malformed pattern, [Some None] no match, and [Some (Some rest)] what is left
    of the name. *)
Definition getEsc (chunk : gostring) : option (Z * gostring) :=
  let esc chunk :=
    let '(r, n) := decodeRune chunk in
    if (r =? RuneError)%Z && (n =? 1)%nat then None
    else match drop n chunk with [] => None | rest => Some (r, rest) end in
  match chunk with
  | [] => None
  | c :: rest =>
      if memByte c "-]" then None
      else if Ascii.eqb c BSLASH then match rest with [] => None | _ => esc rest end
      else esc chunk
  end.
Fixpoint class_ranges (fuel : nat) (chunk : gostring) (r : Z) (first found : bool) : option (bool * gostring) :=
  match fuel with
  | 0 => None
  | S fuel =>
      if negb first && hasPrefix chunk "]" then Some (found, drop 1 chunk)
      else
        '(lo, chunk) ← getEsc chunk;
        '(hi, chunk) ← (if hasPrefix chunk "-" then getEsc (drop 1 chunk) else Some (lo, chunk));
        class_ranges fuel chunk r false (found || ((lo <=? r)%Z && (r <=? hi)%Z))
  end.
(** [s] is [None] after the match has failed: the rest of the chunk is only checked. *)
Fixpoint matchChunk (fuel : nat) (chunk : gostring) (s : option gostring) : option (option gostring) :=
  match fuel, chunk with
  | _, [] => Some s
  | 0, _ => None
  | S fuel, c :: rest =>
      let s := match s with Some [] => None | _ => s end in
      if Ascii.eqb c "[" then
        let '(r, s) := match s with
                       | Some t => let '(r, n) := decodeRune t in (r, Some (drop n t))
                       | None => (0%Z, None)
                       end in
        let negated := hasPrefix rest "^" in
        let rest := if negated then drop 1 rest else rest in
        '(found, rest) ← class_ranges (S (length rest)) rest r true false;
        matchChunk fuel rest (if Bool.eqb found negated then None else s)
      else if Ascii.eqb c "?" then
        matchChunk fuel rest
          (t ← s; if hasPrefix t "/" then None else Some (drop (snd (decodeRune t)) t))
      else
        let literal rest := match rest with
          | [] => None
          | c :: rest => matchChunk fuel rest (t ← s; if hasPrefix t [c] then Some (drop 1 t) else None)
          end in
        if Ascii.eqb c BSLASH then literal rest else literal chunk
  end.
Fixpoint scan_to (i : nat) (inrange : bool) (p : gostring) : nat :=
  match p with
  | [] => i
  | c :: p' =>
      if Ascii.eqb c BSLASH then match p' with [] => S i | _ :: p'' => scan_to (S (S i)) inrange p'' end
      else if Ascii.eqb c "[" then scan_to (S i) true p'
      else if Ascii.eqb c "]" then scan_to (S i) false p'
      else if Ascii.eqb c "*" && negb inrange then i
      else scan_to (S i) inrange p'
  end.
Definition scanChunk (pattern : gostring) : bool * gostring * gostring :=
  let star := hasPrefix pattern "*" in
  let pattern := trimLeftSet pattern "*" in
  let i := scan_to 0 false pattern in
  (star, take i pattern, drop i pattern).
Section match_.
Context (chunk rest : gostring).
Definition match_here (name : gostring) : option (option gostring) := matchChunk (length chunk) chunk (Some name).
(** Whether this match may stand: the last chunk has to use up the name. *)
Definition stands (t : gostring) : bool := (length t =? 0)%nat || negb (length rest =? 0)%nat.
(** The star skips up to the next slash. *)
Fixpoint match_later (name : gostring) : option (option gostring) :=
  match name with
  | [] => Some None
  | c :: name =>
      if Ascii.eqb c "/" then Some None
      else
        m ← match_here name;
        match m with
        | Some t => if stands t then Some (Some t) else match_later name
        | None => match_later name
        end
  end.
End match_.
Fixpoint match_fuel (fuel : nat) (pattern name : gostring) : option bool :=
  match fuel, pattern with
  | _, [] => Some (length name =? 0)%nat
  | 0, _ => None
  | S fuel, _ =>
      let '(star, chunk, rest) := scanChunk pattern in
      if star && streq chunk [] then Some (negb (memByte "/" name))
      else
        m ← match_here chunk name;
        m ← (match m with
             | Some t => if stands rest t then Some m else if star then match_later chunk rest name else Some None
             | None => if star then match_later chunk rest name else Some None
             end);
        match m with Some t => match_fuel fuel rest t | None => Some false end
  end.
(** [filepath.Match]: [None] is [ErrBadPattern]. *)
Definition pathMatch (pattern name : gostring) : option bool := match_fuel (length pattern) pattern name.

Example match_star : pathMatch "internal/*.go" "internal/app.go" = Some true.
Proof. vm_compute. reflexivity. Qed.
Example match_no_slash : pathMatch "*.go" "internal/app.go" = Some false.
Proof. vm_compute. reflexivity. Qed.
Example match_class : pathMatch "[^a-c]?x\*" "dex*" = Some true.
Proof. vm_compute. reflexivity. Qed.
Example match_bad : pathMatch "a[" "a" = None.
Proof. vm_compute. reflexivity. Qed.
Example rel_down : pathRel "/w" "/w/a/b.go" = Some ("a/b.go" : gostring).
Proof. vm_compute. reflexivity. Qed.
Example rel_up : pathRel "/w/x" "/w/a" = Some ("../a" : gostring).
Proof. vm_compute. reflexivity. Qed.

(** * [strings.EqualFold] with a word of lower-case ASCII letters

    The long s and the Kelvin sign are the only other runes that fold to ASCII. *)
Definition foldRune (r : Z) : Z :=
  if ((65 <=? r) && (r <=? 90))%Z then (r + 32)%Z
  else if (r =? 383)%Z then 115%Z else if (r =? 8490)%Z then 107%Z else r.
Definition equalFoldWord (s word : gostring) : bool :=
  bool_decide (map (fun r => foldRune r.2) (runes s) = map bz word).
