(* ===== verification/GoSort.v ===== *)
(** Go's sort package and the byte-wise order of strings: [sort.Strings],
    [sort.Ints] and [sort.Slice] as a sort by a key, and the removal of repeated
    values that the sources write with a map. *)
From S2P Require Import Prelude GoStrings GoStringFacts.

(** ** The order of strings *)
Definition cmp_byte (a b : ascii) : comparison := (bz a ?= bz b)%Z.
#[export] Instance cmp_byte_total : TotalCmp cmp_byte.
Proof.
  unfold cmp_byte. constructor; intros.
  - rewrite cmp_eq. split; [apply bz_inj | by intros ->].
  - apply cmp_opp.
  - by eapply cmp_trans.
Qed.
Lemma compareString_cmp a b : compareString a b = cmp_list cmp_byte a b.
Proof.
  revert b; induction a as [|x a IH]; intros [|y b]; cbn [compareString cmp_list]; try done.
  unfold cmp_byte at 1. destruct (bz x ?= bz y)%Z; auto.
Qed.
#[export] Instance compareString_total : TotalCmp compareString.
Proof.
  constructor; intros; rewrite ?compareString_cmp in *.
  - apply cmp_eq.
  - apply cmp_opp.
  - by eapply cmp_trans.
Qed.

(** ** Sorting by a key

    [sort.SliceStable] with the test [cmp (key a) (key b) = Lt]; stdpp's merge sort
    is stable too.  [sort.Slice] and the order of SQL are not, but are used on keys
    that tell all elements apart. *)
Section by_key.
Context {A K : Type} (cmp : K -> K -> comparison) (key : A -> K).

Definition before (x y : A) : Prop := cmp (key x) (key y) <> Gt.
#[export] Instance before_dec : RelDecision before.
Proof. unfold before. intros x y. destruct (cmp (key x) (key y)); [left|left|right]; congruence. Defined.
Definition sortOn (l : list A) : list A := merge_sort before l.

Context `{!TotalCmp cmp}.
#[export] Instance before_total : Total before.
Proof.
  unfold before. intros x y. rewrite (cmp_opp (key x) (key y)).
  destruct (cmp (key x) (key y)); cbn; auto; by left.
Qed.
#[export] Instance before_trans : Transitive before.
Proof.
  unfold before. intros x y z Hxy Hyz.
  destruct (cmp (key x) (key y)) eqn:E1; [|destruct (cmp (key y) (key z)) eqn:E2|]; try congruence.
  - by apply cmp_eq in E1 as ->.
  - apply cmp_eq in E2 as <-. congruence.
  - rewrite (cmp_trans _ _ _ E1 E2). congruence.
Qed.
Lemma before_antisymm x y : before x y -> before y x -> key x = key y.
Proof.
  unfold before. rewrite (cmp_opp (key x) (key y)). intros H1 H2. apply (cmp_eq (cmp := cmp)).
  destruct (cmp (key x) (key y)); cbn in *; congruence.
Qed.

Lemma sortOn_perm l : sortOn l ≡ₚ l.
Proof. apply merge_sort_Permutation. Qed.
Lemma elem_of_sortOn x l : x ∈ sortOn l <-> x ∈ l.
Proof. by rewrite sortOn_perm. Qed.
Lemma sortOn_sorted l : StronglySorted before (sortOn l).
Proof. apply StronglySorted_merge_sort; apply _. Qed.
Lemma length_sortOn l : length (sortOn l) = length l.
Proof. by rewrite sortOn_perm. Qed.

(** Sorting a sorted list whose elements have different keys changes nothing, and
    two sortings of the same elements agree. *)
Lemma sorted_by_key_unique l1 l2 :
  (forall x y, x ∈ l1 -> y ∈ l1 -> key x = key y -> x = y) ->
  StronglySorted before l1 -> StronglySorted before l2 -> l1 ≡ₚ l2 -> l1 = l2.
Proof.
  intros Hinj H1 H2 Hp. eapply StronglySorted_unique_strong; [|exact H1|exact H2|exact Hp].
  intros x y Hx Hy Hxy Hyx. apply Hinj; [done|by rewrite Hp|by apply before_antisymm].
Qed.
Lemma sortOn_fixed l :
  (forall x y, x ∈ l -> y ∈ l -> key x = key y -> x = y) -> StronglySorted before l -> sortOn l = l.
Proof.
  intros Hinj Hs. symmetry. apply sorted_by_key_unique; [done|done|apply sortOn_sorted|by rewrite sortOn_perm].
Qed.
Lemma sortOn_Permutation l1 l2 :
  (forall x y, x ∈ l1 -> y ∈ l1 -> key x = key y -> x = y) -> l1 ≡ₚ l2 -> sortOn l1 = sortOn l2.
Proof.
  intros Hinj Hp. apply sorted_by_key_unique; [|apply sortOn_sorted..|by rewrite !sortOn_perm].
  intros x y. rewrite !elem_of_sortOn. apply Hinj.
Qed.
End by_key.

Definition sortStrings : list gostring -> list gostring := sortOn compareString id.
Definition sortInts : list Z -> list Z := sortOn Z.compare id.

(** ** Maps

    The order in which Go visits a map is any. *)
Class MapOrder := {
  visit {A : Type} : gmap gostring A -> list gostring;
  visit_keys {A : Type} (m : gmap gostring A) : visit m ≡ₚ (map_to_list m).*1 }.

(** ** Removal of repeated values, keeping first occurrences *)
Fixpoint dedup_from `{EqDecision A} (seen l : list A) : list A :=
  match l with
  | [] => []
  | x :: l => if bool_decide (x ∈ seen) then dedup_from seen l else x :: dedup_from (x :: seen) l
  end.
Definition dedup `{EqDecision A} (l : list A) : list A := dedup_from [] l.

Section dedup.
Context {A : Type} `{EqDecision A}.
Lemma elem_of_dedup_from (x : A) seen l : x ∈ dedup_from seen l <-> x ∈ l /\ x ∉ seen.
Proof.
  revert seen; induction l as [|y l IH]; intros seen; cbn [dedup_from]; [set_solver|].
  case_bool_decide; rewrite ?elem_of_cons, IH; [set_solver|].
  destruct (decide (x = y)) as [->|]; set_solver.
Qed.
Lemma elem_of_dedup (x : A) l : x ∈ dedup l <-> x ∈ l.
Proof. unfold dedup. rewrite elem_of_dedup_from. set_solver. Qed.
Lemma NoDup_dedup_from (seen l : list A) : NoDup (dedup_from seen l).
Proof.
  revert seen; induction l as [|y l IH]; intros seen; cbn [dedup_from]; [constructor|].
  case_bool_decide; [done|]. constructor; [rewrite elem_of_dedup_from; set_solver | done].
Qed.
Lemma NoDup_dedup (l : list A) : NoDup (dedup l).
Proof. apply NoDup_dedup_from. Qed.
Lemma dedup_from_fixed (seen l : list A) :
  NoDup l -> (forall x, x ∈ l -> x ∉ seen) -> dedup_from seen l = l.
Proof.
  revert seen; induction l as [|y l IH]; intros seen; cbn [dedup_from]; [done|].
  intros [Hy Hl]%NoDup_cons Hs. rewrite bool_decide_false by (apply Hs; left).
  f_equal. apply IH; [done|]. set_solver.
Qed.
Lemma dedup_fixed (l : list A) : NoDup l -> dedup l = l.
Proof. intros Hl. apply dedup_from_fixed; [done|set_solver]. Qed.
End dedup.

Lemma sortStrings_ext l1 l2 : l1 ≡ₚ l2 -> sortStrings l1 = sortStrings l2.
Proof. apply sortOn_Permutation; [apply _|done]. Qed.
Lemma sortStrings_fixed l : StronglySorted (before compareString id) l -> sortStrings l = l.
Proof. apply sortOn_fixed; [apply _|done]. Qed.
