(* ===== verification/GoNum.v ===== *)
(** The fragment of Go's [strconv], [encoding/hex] and [encoding/binary]
    packages that the modelled code calls, with the round trips between
    printing and parsing. *)
From S2P Require Import Prelude GoStrings GoStringFacts.

(** ** Decimal integers *)
Definition digitByte (z : Z) : ascii := zb (48 + z).

Fixpoint digits_fuel (fuel : nat) (n : Z) : gostring :=
  match fuel with
  | 0 => []
  | S f => if (n <? 10)%Z then [digitByte n]
           else digits_fuel f (n / 10)%Z ++ [digitByte (n mod 10)]
  end.
(** Decimal digits of a natural number; [log2 n + 2] digits always suffice. *)
Definition digits (n : Z) : gostring := digits_fuel (S (S (Z.to_nat (Z.log2 n)))) n.
(** [strconv.Itoa]. *)
Definition itoa (z : Z) : gostring := if (z <? 0)%Z then "-"%char :: digits (- z) else digits z.

Definition digit_step (acc : Z) (c : ascii) : Z := (acc * 10 + (bz c - 48))%Z.
Definition decimal (s : gostring) : Z := fold_left digit_step s 0%Z.
(** The unsigned part shared by [ParseInt] and [ParseUint] in base 10. *)
Definition parseDigits (s : gostring) : option Z :=
  match s with
  | [] => None
  | _ => if forallb isDigitByte s then Some (decimal s) else None
  end.
(** [strconv.Atoi]/[strconv.ParseInt(s, 10, 64)]; [None] is a non-nil error. *)
Definition atoi (s : gostring) : option Z :=
  let '(neg, body) :=
    match s with
    | c :: t => if Ascii.eqb c "-" then (true, t)
                else if Ascii.eqb c "+" then (false, t) else (false, s)
    | [] => (false, [])
    end in
  n ← parseDigits body;
  let z := if neg : bool then (- n)%Z else n in
  if in_int64 z then Some z else None.
(** [strconv.ParseUint(s, 10, bits)]. *)
Definition parseUint (s : gostring) (bits : Z) : option Z :=
  n ← parseDigits s; if (n <? 2 ^ bits)%Z then Some n else None.

(** ** Hexadecimal *)
Definition hexDigit (z : Z) : ascii := if (z <? 10)%Z then zb (48 + z) else zb (87 + z).
Definition hexDigitUpper (z : Z) : ascii := if (z <? 10)%Z then zb (48 + z) else zb (55 + z).
Definition unhex (c : ascii) : option Z :=
  if isDigitByte c then Some (bz c - 48)%Z
  else if byte_in_range "a" "f" c then Some (bz c - 87)%Z
  else if byte_in_range "A" "F" c then Some (bz c - 55)%Z else None.
(** [hex.EncodeToString]. *)
Definition hexEncode (b : list ascii) : gostring :=
  flat_map (fun c => [hexDigit (bz c / 16); hexDigit (bz c mod 16)]) b.
(** [hex.DecodeString]. *)
Fixpoint hexDecode (s : gostring) : option (list ascii) :=
  match s with
  | [] => Some []
  | [_] => None
  | a :: b :: s =>
      x ← unhex a; y ← unhex b; t ← hexDecode s; Some (zb (x * 16 + y) :: t)
  end.

(** ** Hashing

    [crypto/sha256] is a parameter: what the code relies on is the length of the
    result and that collisions are not found in practice. *)
Abbreviation digest := (list ascii).
Class SHA256 := {
  sha256 : list ascii -> digest;
  sha256_length m : length (sha256 m) = 32;
}.
Definition collision (h : list ascii -> digest) : Prop := exists x y, x <> y /\ h x = h y.

(** ** [strconv.Quote], the [%q] verb *)
Fixpoint hexFixed (n : nat) (z : Z) : gostring :=
  match n with 0 => [] | S n => hexFixed n (z / 16) ++ [hexDigit (z mod 16)] end.
Section quote.
Context `{UnicodeTables}.
Definition isPrintRune (r : Z) : bool :=
  if (r <? RuneSelf)%Z then ((32 <=? r) && (r <? 127))%Z else table_print r.
Definition escapeRune (r : Z) : gostring :=
  if ((r =? 34) || (r =? 92))%Z then [BSLASH; zb r]
  else if isPrintRune r then encodeRune r
  else if (r =? 7)%Z then [BSLASH; "a"%char] else if (r =? 8)%Z then [BSLASH; "b"%char]
  else if (r =? 12)%Z then [BSLASH; "f"%char] else if (r =? 10)%Z then [BSLASH; "n"%char]
  else if (r =? 13)%Z then [BSLASH; "r"%char] else if (r =? 9)%Z then [BSLASH; "t"%char]
  else if (r =? 11)%Z then [BSLASH; "v"%char]
  else if (r <? RuneSelf)%Z then BSLASH :: "x"%char :: hexFixed 2 r
  else if (r <? 65536)%Z then BSLASH :: "u"%char :: hexFixed 4 r
  else BSLASH :: "U"%char :: hexFixed 8 r.
Fixpoint quote_from (skip : nat) (s : gostring) : gostring :=
  match s with
  | [] => []
  | b :: t =>
      match skip with
      | S k => quote_from k t
      | 0 => let '(r, w) := decodeRune s in
             (if ((r =? RuneError)%Z && (w =? 1)) then BSLASH :: "x"%char :: hexFixed 2 (bz b)
              else escapeRune r) ++ quote_from (w - 1) t
      end
  end.
Definition goQuote (s : gostring) : gostring := QUOTE :: quote_from 0 s ++ [QUOTE].
(** [url.PathUnescape] with the text of its error. *)
Fixpoint pathUnescape (s : gostring) : result gostring gostring :=
  match s with
  | [] => Ok []
  | c :: t =>
      if Ascii.eqb c "%" then
        let bad := Err (("invalid URL escape " : gostring)%go ++ goQuote (take 3 s)) in
        match t with
        | a :: b :: t =>
            match unhex a, unhex b with
            | Some x, Some y => r ← pathUnescape t; Ok (zb (x * 16 + y) :: r)
            | _, _ => bad
            end
        | _ => bad
        end
      else r ← pathUnescape t; Ok (c :: r)
  end.
End quote.

(** ** Big-endian integers ([binary.BigEndian.PutUintN]) *)
Fixpoint be_bytes (n : nat) (z : Z) : list ascii :=
  match n with
  | 0 => []
  | S n => be_bytes n (z / 256) ++ [zb (z mod 256)]
  end.
Definition be_value (b : list ascii) : Z := fold_left (fun acc c => acc * 256 + bz c)%Z b 0%Z.

(** ** Facts *)
Lemma digitByte_digit z : (0 <= z < 10)%Z -> isDigitByte (digitByte z) = true.
Proof. intros. unfold isDigitByte, byte_in_range, digitByte. rewrite bz_zb by lia. change (bz "0") with 48%Z; change (bz "9") with 57%Z. by decide_cmp. Qed.
Lemma digit_step_digit acc z : (0 <= z < 10)%Z -> digit_step acc (digitByte z) = (acc * 10 + z)%Z.
Proof. intros. unfold digit_step, digitByte. rewrite bz_zb; lia. Qed.

Lemma decimal_snoc s c : decimal (s ++ [c]) = digit_step (decimal s) c.
Proof. unfold decimal. by rewrite fold_left_app. Qed.

Lemma digits_fuel_spec f n :
  (0 <= n < 10 ^ Z.of_nat f)%Z ->
  (f = 0 \/ digits_fuel f n <> []) /\
  forallb isDigitByte (digits_fuel f n) = true /\ (f <> 0 -> decimal (digits_fuel f n) = n).
Proof.
  revert n; induction f as [|f IH]; intros n Hn; cbn [digits_fuel].
  { split; [by left | done]. }
  destruct (n <? 10)%Z eqn:Hlt; bool_to_prop.
  - split; [by right|]. cbn. rewrite digitByte_digit by lia. split; [done|].
    intros _. unfold decimal; cbn. rewrite digit_step_digit; lia.
  - rewrite Nat2Z.inj_succ, Z.pow_succ_r in Hn by lia.
    destruct (IH (n / 10)%Z) as (Hne & Hd & Hv); [dlia|].
    split; [right; by destruct (digits_fuel f (n / 10))|].
    split.
    + rewrite forallb_app, Hd. cbn. rewrite digitByte_digit by dlia. done.
    + intros _. rewrite decimal_snoc, digit_step_digit by dlia.
      rewrite Hv; [dlia|]. intros ->. cbn in Hn. lia.
Qed.

Lemma digits_spec n :
  (0 <= n)%Z ->
  digits n <> [] /\ forallb isDigitByte (digits n) = true /\ decimal (digits n) = n.
Proof.
  intros Hn. unfold digits. set (f := S (S (Z.to_nat (Z.log2 n)))).
  destruct (digits_fuel_spec f n) as ([?|?] & ? & Hv); [|done|].
  - split; [done|].
    destruct (decide (n = 0)%Z) as [->|]; [apply Z.pow_pos_nonneg; lia|].
    pose proof (Z.log2_spec n ltac:(lia)) as [_ H].
    eapply Z.lt_le_trans; [exact H|].
    transitivity (10 ^ Z.succ (Z.log2 n))%Z.
    + apply Z.pow_le_mono_l. pose proof (Z.log2_nonneg n). lia.
    + apply Z.pow_le_mono_r; [lia|]. pose proof (Z.log2_nonneg n). unfold f. lia.
  - split; [done|]. split; [done|]. by apply Hv.
Qed.

Lemma decimal_cons c s :
  decimal (c :: s) = ((bz c - 48) * 10 ^ Z.of_nat (length s) + decimal s)%Z.
Proof.
  revert c. induction s as [|d s IH] using rev_ind; intros c.
  - unfold decimal, digit_step; cbn. lia.
  - rewrite app_comm_cons, !decimal_snoc, IH, length_app. unfold digit_step. cbn [length].
    rewrite Nat2Z.inj_add, Z.pow_add_r by lia. cbn. lia.
Qed.
Lemma digit_bounds c : isDigitByte c = true -> (48 <= bz c <= 57)%Z.
Proof.
  unfold isDigitByte, byte_in_range. change (bz "0") with 48%Z; change (bz "9") with 57%Z.
  intros. by bool_to_prop.
Qed.
Lemma decimal_bounds s :
  forallb isDigitByte s = true -> (0 <= decimal s < 10 ^ Z.of_nat (length s))%Z.
Proof.
  induction s as [|c s IH]; [by cbn|]. intros [Hc%digit_bounds Hs]%andb_true_iff.
  specialize (IH Hs). rewrite decimal_cons. cbn [length]. rewrite Nat2Z.inj_succ, Z.pow_succ_r by lia. nia.
Qed.
Lemma parseUint_bounds s bits z : parseUint s bits = Some z -> (0 <= z < 2 ^ bits)%Z.
Proof.
  unfold parseUint. intros (n & Hn & E)%bind_Some. case_match eqn:Hlt; [|done]. bool_to_prop.
  injection E as <-. split; [|done]. unfold parseDigits in Hn. destruct s as [|c s]; [done|].
  destruct (forallb _ _) eqn:Hd; [|done]. injection Hn as <-. by apply decimal_bounds.
Qed.
Lemma parseDigits_digits n : (0 <= n)%Z -> parseDigits (digits n) = Some n.
Proof.
  intros Hn. destruct (digits_spec n Hn) as (Hne & Hd & Hv). unfold parseDigits.
  destruct (digits n) as [|c s] eqn:E; [done|]. by rewrite Hd, Hv.
Qed.
Lemma digits_head n : (0 <= n)%Z -> exists c s, digits n = c :: s /\ isDigitByte c = true.
Proof.
  intros Hn. destruct (digits_spec n Hn) as (Hne & Hd & _).
  destruct (digits n) as [|c s]; [done|]. cbn in Hd. apply andb_true_iff in Hd as [? _]. eauto.
Qed.
Lemma isDigitByte_not_sign c :
  isDigitByte c = true -> Ascii.eqb c "-" = false /\ Ascii.eqb c "+" = false.
Proof.
  unfold isDigitByte, byte_in_range. rewrite !ascii_eqb_bz.
  change (bz "0") with 48%Z; change (bz "9") with 57%Z.
  change (bz "-") with 45%Z; change (bz "+") with 43%Z. intros. bool_to_prop.
  split; apply Z.eqb_neq; lia.
Qed.

(** Printing an [int] and parsing it back is the identity. *)
Lemma atoi_itoa z : in_int64 z = true -> atoi (itoa z) = Some z.
Proof.
  intros Hz. unfold itoa, atoi. destruct (z <? 0)%Z eqn:Hs; bool_to_prop.
  - rewrite Ascii.eqb_refl. rewrite parseDigits_digits by lia. cbn. rewrite Z.opp_involutive. by rewrite Hz.
  - destruct (digits_head z) as (c & s & E & Hc); [lia|]. rewrite E.
    destruct (isDigitByte_not_sign c Hc) as [-> ->]. rewrite <- E.
    rewrite parseDigits_digits by lia. cbn. by rewrite Hz.
Qed.
Lemma atoi_in_range s z : atoi s = Some z -> in_int64 z = true.
Proof.
  unfold atoi. intros H.
  destruct (match s with [] => _ | _ :: _ => _ end) as [neg body].
  destruct (parseDigits body) as [n|]; cbn in H; [|done].
  destruct (in_int64 (if neg then (- n)%Z else n)) eqn:Hz; [|done]. by injection H as <-.
Qed.
Lemma forallb_notin (P : ascii -> bool) s c :
  P c = false -> forallb P s = true -> c ∉ s.
Proof.
  intros Hc Hs Hin. apply list_elem_of_In in Hin.
  rewrite forallb_forall in Hs. by rewrite (Hs _ Hin) in Hc.
Qed.
Lemma digits_notin n c : (0 <= n)%Z -> isDigitByte c = false -> c ∉ digits n.
Proof. intros Hn Hc. eapply forallb_notin; [done|]. by apply digits_spec. Qed.
Lemma itoa_nonneg z : (0 <= z)%Z -> itoa z = digits z.
Proof. intros. unfold itoa. by decide_cmp. Qed.
Lemma itoa_nonempty z : itoa z <> [].
Proof.
  unfold itoa. destruct (z <? 0)%Z eqn:E; [done|]. bool_to_prop. by apply digits_spec.
Qed.

Ltac hex_consts :=
  change (bz "0") with 48%Z; change (bz "9") with 57%Z; change (bz "a") with 97%Z;
  change (bz "f") with 102%Z; change (bz "A") with 65%Z; change (bz "F") with 70%Z.
Lemma bz_hexDigit z : (0 <= z < 16)%Z -> bz (hexDigit z) = if (z <? 10)%Z then (48 + z)%Z else (87 + z)%Z.
Proof. intros. unfold hexDigit. case_match; bool_to_prop; apply bz_zb; lia. Qed.
Lemma unhex_hexDigit z : (0 <= z < 16)%Z -> unhex (hexDigit z) = Some z.
Proof.
  intros. unfold unhex, isDigitByte, byte_in_range. rewrite bz_hexDigit by done. hex_consts.
  destruct (z <? 10)%Z eqn:?; bool_to_prop; decide_cmp; f_equal; lia.
Qed.
Lemma bz_hexDigitUpper z : (0 <= z < 16)%Z -> bz (hexDigitUpper z) = if (z <? 10)%Z then (48 + z)%Z else (55 + z)%Z.
Proof. intros. unfold hexDigitUpper. case_match; bool_to_prop; apply bz_zb; lia. Qed.
Lemma unhex_hexDigitUpper z : (0 <= z < 16)%Z -> unhex (hexDigitUpper z) = Some z.
Proof.
  intros. unfold unhex, isDigitByte, byte_in_range. rewrite bz_hexDigitUpper by done. hex_consts.
  destruct (z <? 10)%Z eqn:?; bool_to_prop; decide_cmp; f_equal; lia.
Qed.
Lemma hexDecode_hexEncode b : hexDecode (hexEncode b) = Some b.
Proof.
  induction b as [|c b IH]; [done|].
  pose proof (bz_range c).
  change (hexEncode (c :: b)) with (hexDigit (bz c / 16) :: hexDigit (bz c mod 16) :: hexEncode b).
  cbn [hexDecode].
  rewrite !unhex_hexDigit by dlia. cbn [mbind option_bind]. rewrite IH. cbn [mbind option_bind].
  do 2 f_equal. rewrite <- (zb_bz c) at 3. f_equal. dlia.
Qed.
Lemma hexEncode_inj a b : hexEncode a = hexEncode b -> a = b.
Proof. intros H. pose proof (hexDecode_hexEncode a) as Ha. rewrite H, hexDecode_hexEncode in Ha. congruence. Qed.
Lemma length_hexEncode b : length (hexEncode b) = 2 * length b.
Proof.
  induction b as [|c b IH]; [done|].
  change (length (hexEncode (c :: b))) with (S (S (length (hexEncode b)))). cbn [length]. lia.
Qed.
(** Lower-case hexadecimal text is the text of its bytes. *)
Lemma hexDecode_length s b : hexDecode s = Some b -> length s = 2 * length b.
Proof.
  revert b. induction s as [s IH] using (induction_ltof1 _ (@length ascii)). unfold ltof in IH.
  intros b. destruct s as [|c [|d s]]; cbn [hexDecode]; [by intros [= <-]|done|].
  intros E. apply bind_Some in E as (x & _ & E). apply bind_Some in E as (y & _ & E).
  apply bind_Some in E as (t & Ht & [= <-]). apply IH in Ht; [cbn [length]; lia | cbn; lia].
Qed.
Lemma lower_unhex c z : lowerByte c = c -> unhex c = Some z -> c = hexDigit z /\ (0 <= z < 16)%Z.
Proof.
  unfold lowerByte, isUpperByte, unhex, isDigitByte, byte_in_range, hexDigit.
  change (bz "0") with 48%Z; change (bz "9") with 57%Z; change (bz "a") with 97%Z; change (bz "f") with 102%Z;
  change (bz "A") with 65%Z; change (bz "F") with 70%Z; change (bz "Z") with 90%Z.
  pose proof (bz_range c). intros Hlow E.
  repeat case_match; try done; injection E as <-; bool_to_prop; try lia.
  - split; [|lia]. rewrite <- (zb_bz c) at 1. f_equal. lia.
  - split; [|lia]. rewrite <- (zb_bz c) at 1. f_equal. lia.
  - apply (f_equal bz) in Hlow. rewrite bz_zb in Hlow by lia. lia.
Qed.
Lemma hexEncode_hexDecode s b : map lowerByte s = s -> hexDecode s = Some b -> hexEncode b = s.
Proof.
  revert b. induction s as [s IH] using (induction_ltof1 _ (@length ascii)). unfold ltof in IH.
  intros b Hlow. destruct s as [|c [|d s]]; cbn [hexDecode]; [by intros [= <-]|done|].
  cbn [map] in Hlow. injection Hlow as Hc Hd Hs.
  intros E. apply bind_Some in E as (x & Hx & E). apply bind_Some in E as (y & Hy & E).
  apply bind_Some in E as (t & Ht & [= <-]).
  apply lower_unhex in Hx as [-> Hx]; [|done]. apply lower_unhex in Hy as [-> Hy]; [|done].
  change (hexEncode (zb (x * 16 + y) :: t)) with
    (hexDigit (bz (zb (x * 16 + y)) / 16) :: hexDigit (bz (zb (x * 16 + y)) mod 16) :: hexEncode t).
  rewrite bz_zb by lia. rewrite (IH s) by (done || cbn; lia).
  f_equal; [|f_equal]; f_equal; dlia.
Qed.
Lemma hexDigit_ascii z : (0 <= z < 16)%Z -> (bz (hexDigit z) < 128)%Z /\ lowerByte (hexDigit z) = hexDigit z.
Proof.
  intros. unfold lowerByte, isUpperByte, byte_in_range. change (bz "A") with 65%Z; change (bz "Z") with 90%Z.
  rewrite bz_hexDigit by done. case_match; bool_to_prop; decide_cmp; split; (done || lia).
Qed.
Lemma hexEncode_solid b : Forall (fun c => solid c = true) (hexEncode b).
Proof.
  apply Forall_flat_map. apply Forall_forall. intros c _. pose proof (bz_range c).
  assert (Hd : forall z, (0 <= z < 16)%Z -> solid (hexDigit z) = true).
  { intros z Hz. unfold solid, isSpaceRune. rewrite bz_hexDigit by done. destruct (z <? 10)%Z eqn:?; bool_to_prop; decide_cmp; done. }
  repeat constructor; apply Hd; dlia.
Qed.
Lemma hexEncode_lower `{UnicodeTables} b : toLower (hexEncode b) = hexEncode b.
Proof.
  assert (Hall : Forall (fun c => (bz c < 128)%Z /\ lowerByte c = c) (hexEncode b)).
  { induction b as [|c b IH]; [constructor|]. pose proof (bz_range c).
    change (hexEncode (c :: b)) with (hexDigit (bz c / 16) :: hexDigit (bz c mod 16) :: hexEncode b).
    repeat (constructor; [apply hexDigit_ascii; dlia|]). done. }
  apply Forall_and in Hall as [Ha Hl]. unfold toLower.
  assert (isASCII (hexEncode b) = true) as ->.
  { apply forallb_forall. intros c Hc%list_elem_of_In. rewrite Forall_forall in Ha. apply Z.ltb_lt. auto. }
  rewrite <- (map_id (hexEncode b)) at 2. apply map_ext_in. intros c Hc%list_elem_of_In.
  rewrite Forall_forall in Hl. auto.
Qed.

Lemma unhex_ascii c z : unhex c = Some z -> (bz c < 128)%Z.
Proof.
  unfold unhex, isDigitByte, byte_in_range. change (bz "9") with 57%Z; change (bz "f") with 102%Z; change (bz "F") with 70%Z.
  intros E. repeat case_match; try done; bool_to_prop; lia.
Qed.
Lemma hexDecode_ascii s b : hexDecode s = Some b -> isASCII s = true.
Proof.
  revert b. induction s as [s IH] using (induction_ltof1 _ (@length ascii)). unfold ltof in IH.
  intros b. destruct s as [|c [|d s]]; cbn [hexDecode]; [done|done|].
  intros E. apply bind_Some in E as (x & Hx & E). apply bind_Some in E as (y & Hy & E).
  apply bind_Some in E as (t & Ht & _). apply unhex_ascii, Z.ltb_lt in Hx. apply unhex_ascii, Z.ltb_lt in Hy.
  apply IH in Ht; [|cbn; lia]. unfold isASCII in *. cbn [forallb]. unfold RuneSelf. by rewrite Hx, Hy.
Qed.
Lemma hexEncode_lower_hex `{UnicodeTables} s b :
  toLower s = s -> hexDecode s = Some b -> hexEncode b = s.
Proof.
  intros Hlow Hb. apply hexEncode_hexDecode; [|done]. revert Hlow. unfold toLower.
  by rewrite (hexDecode_ascii s b Hb).
Qed.
Lemma length_be_bytes n z : length (be_bytes n z) = n.
Proof. revert z; induction n as [|n IH]; intros z; cbn; [done|]. rewrite length_app, IH. cbn. lia. Qed.
Lemma be_value_snoc b c : be_value (b ++ [c]) = (be_value b * 256 + bz c)%Z.
Proof. unfold be_value. by rewrite fold_left_app. Qed.
Lemma be_value_bytes n z : be_value (be_bytes n z) = (z mod 256 ^ Z.of_nat n)%Z.
Proof.
  revert z; induction n as [|n IH]; intros z.
  - cbn. by rewrite Z.mod_1_r.
  - cbn [be_bytes]. rewrite be_value_snoc, IH, bz_zb by dlia.
    rewrite Nat2Z.inj_succ, Z.pow_succ_r by lia.
    pose proof (Z.pow_pos_nonneg 256 (Z.of_nat n) ltac:(lia) ltac:(lia)).
    rewrite (Z.rem_mul_r z 256) by lia. lia.
Qed.
(** Fixed-width big-endian encoding is injective on values that fit. *)
Lemma be_bytes_inj n x y :
  (0 <= x < 256 ^ Z.of_nat n)%Z -> (0 <= y < 256 ^ Z.of_nat n)%Z ->
  be_bytes n x = be_bytes n y -> x = y.
Proof.
  intros Hx Hy H. apply (f_equal be_value) in H.
  by rewrite !be_value_bytes, !Z.mod_small in H.
Qed.

(** A stand-in hash that is cheap to evaluate: a queue of eight bytes, each byte of the
    message mixed with the one it replaces and with the one before it. *)
Definition xorByte (a b : ascii) : ascii :=
  match a, b with
  | Ascii a0 a1 a2 a3 a4 a5 a6 a7, Ascii b0 b1 b2 b3 b4 b5 b6 b7 =>
      Ascii (xorb a0 b0) (xorb a1 b1) (xorb a2 b2) (xorb a3 b3) (xorb a4 b4) (xorb a5 b5) (xorb a6 b6) (xorb a7 b7)
  end.
Definition rotateByte (a : ascii) : ascii :=
  match a with Ascii a0 a1 a2 a3 a4 a5 a6 a7 => Ascii a7 a0 a1 a2 a3 a4 a5 a6 end.
Definition mix (q : list ascii * ascii) (c : ascii) : list ascii * ascii :=
  match q.1 with
  | [] => q
  | h :: rest => let b := rotateByte (xorByte (xorByte h c) q.2) in (rest ++ [b], b)
  end.
Lemma mix_length q c : length (mix q c).1 = length q.1.
Proof. destruct q as [[|h q] b]; [done|]. cbn. rewrite length_app. cbn. lia. Qed.
Definition queue0 : gostring := "queuehsh"%go.
Definition queue (m : list ascii) : list ascii := (foldl mix (queue0, "0"%char) m).1.
Lemma queue_length m : length (queue m) = 8.
Proof.
  unfold queue. generalize ("0"%char). generalize (eq_refl : length queue0 = 8).
  generalize queue0. induction m as [|c m IH]; intros q Hq b; [done|]. cbn [foldl].
  pose proof (mix_length (q, b) c) as Hm. destruct (mix (q, b) c) as [q' b']. apply IH. cbn in Hm. lia.
Qed.
Definition mixHash : SHA256 := {|
  sha256 m := let q := queue m in q ++ q ++ q ++ q;
  sha256_length m := ltac:(cbn; rewrite !length_app, queue_length; done) |}.
