(* ===== verification/GoBase64.v ===== *)
(** [base64.RawURLEncoding] of Go's encoding/base64: no padding, [-] and [_] as the
    last two digits; decoding skips line ends and ignores unused bits. *)
From S2P Require Import Prelude GoStrings GoStringFacts.

Local Open Scope go_scope.
Local Open Scope Z_scope.

Definition b64_alphabet : gostring :=
  "ABCDEFGHIJKLMNOPQRSTUVWXYZabcdefghijklmnopqrstuvwxyz0123456789-_".
Definition b64_digit (v : Z) : ascii := nth (Z.to_nat v) b64_alphabet "A"%char.
Definition b64_value (c : ascii) : option Z := Z.of_nat <$> indexByte b64_alphabet c.

Fixpoint b64_split (l : list Z) : list Z :=
  match l with
  | a :: b :: c :: l =>
      a / 4 :: (a mod 4) * 16 + b / 16 :: (b mod 16) * 4 + c / 64 :: c mod 64 :: b64_split l
  | [a; b] => [a / 4; (a mod 4) * 16 + b / 16; (b mod 16) * 4]
  | [a] => [a / 4; (a mod 4) * 16]
  | [] => []
  end.
Fixpoint b64_merge (l : list Z) : option (list Z) :=
  match l with
  | w :: x :: y :: z :: l =>
      r ← b64_merge l; Some (w * 4 + x / 16 :: (x mod 16) * 16 + y / 4 :: (y mod 4) * 64 + z :: r)
  | [w; x; y] => Some [w * 4 + x / 16; (x mod 16) * 16 + y / 4]
  | [w; x] => Some [w * 4 + x / 16]
  | [_] => None
  | [] => Some []
  end.
Definition b64_encode (s : gostring) : gostring := map b64_digit (b64_split (map bz s)).
Fixpoint b64_values (s : gostring) : option (list Z) :=
  match s with
  | [] => Some []
  | c :: s =>
      if memByte c [LF; CR] then b64_values s
      else v ← b64_value c; l ← b64_values s; Some (v :: l)
  end.
Definition b64_decode (s : gostring) : option gostring :=
  l ← b64_values s; r ← b64_merge l; Some (map zb r).

(** * The round trip *)
Definition digit_ok (n : nat) : bool :=
  let c := b64_digit (Z.of_nat n) in
  negb (memByte c [LF; CR]) && bool_decide (b64_value c = Some (Z.of_nat n)).
Lemma digits_ok : forallb digit_ok (seq 0 64) = true.
Proof. by vm_compute. Qed.
Lemma b64_digit_value v : 0 <= v < 64 ->
  memByte (b64_digit v) [LF; CR] = false /\ b64_value (b64_digit v) = Some v.
Proof.
  intros Hv. pose proof (proj1 (forallb_forall _ _) digits_ok (Z.to_nat v)) as H.
  rewrite in_seq in H. unfold digit_ok in H. rewrite Z2Nat.id in H by lia.
  specialize (H ltac:(lia)). by bool_to_prop.
Qed.

Lemma b64_values_digits l : Forall (fun v => 0 <= v < 64) l -> b64_values (map b64_digit l) = Some l.
Proof.
  induction 1 as [|v l Hv _ IH]; [done|]. cbn [map b64_values].
  destruct (b64_digit_value v Hv) as [-> ->]. cbn [mbind option_bind]. by rewrite IH.
Qed.

Lemma three_ind {A} (P : list A -> Prop) :
  P [] -> (forall a, P [a]) -> (forall a b, P [a; b]) ->
  (forall a b c l, P l -> P (a :: b :: c :: l)) -> forall l, P l.
Proof.
  intros H0 H1 H2 H3. fix IH 1. intros [|a [|b [|c l]]]; [done..|]. apply H3, IH.
Qed.
Lemma b64_split_bounds l :
  Forall (fun v => 0 <= v < 256) l -> Forall (fun v => 0 <= v < 64) (b64_split l).
Proof.
  induction l as [| |a b|a b c l IH] using three_ind; cbn [b64_split]; intros Hl;
    repeat (apply Forall_cons in Hl as [? Hl]); repeat constructor; try dlia; auto.
Qed.
Lemma b64_merge_split l : Forall (fun v => 0 <= v < 256) l -> b64_merge (b64_split l) = Some l.
Proof.
  induction l as [| |a b|a b c l IH] using three_ind; cbn [b64_split b64_merge]; intros Hl;
    repeat (apply Forall_cons in Hl as [? Hl]); [done| | |rewrite (IH Hl); cbn [mbind option_bind]];
    do 2 f_equal; [dlia| dlia | f_equal; dlia | dlia | f_equal; [dlia | f_equal; dlia]].
Qed.
Lemma b64_roundtrip s : b64_decode (b64_encode s) = Some s.
Proof.
  assert (Hb : Forall (fun v => 0 <= v < 256) (map bz s)).
  { apply Forall_map, Forall_forall. intros c _. apply bz_range. }
  unfold b64_decode, b64_encode. rewrite b64_values_digits by by apply b64_split_bounds.
  cbn [mbind option_bind]. rewrite b64_merge_split by done. cbn [mbind option_bind]. f_equal.
  rewrite map_map. rewrite (map_ext _ id); [apply map_id|]. intros c. apply zb_bz.
Qed.

Lemma b64_digit_solid v : solid (b64_digit v) = true.
Proof.
  assert (Hall : forallb solid b64_alphabet = true) by by vm_compute.
  unfold b64_digit. destruct (nth_in_or_default (Z.to_nat v) b64_alphabet "A"%char) as [Hin| ->]; [|by vm_compute].
  by apply (proj1 (forallb_forall _ _) Hall).
Qed.
Lemma b64_encode_solid s : Forall (fun c => solid c = true) (b64_encode s).
Proof. apply Forall_map, Forall_forall. intros v _. apply b64_digit_solid. Qed.
Lemma b64_encode_nil s : b64_encode s = [] -> s = [].
Proof. intros H. pose proof (b64_roundtrip s) as Hs. rewrite H in Hs. cbn in Hs. by injection Hs. Qed.
