(* ===== verification/GoTime.v ===== *)
(** Go's [time.Time] in UTC and the two texts the store writes: RFC 3339 with
    nanoseconds, and encoding/json on lists of strings.

    A time is the number of nanoseconds since January 1 of the year 1, so that 0 is
    the zero time. *)
From S2P Require Import Prelude GoStrings GoNum.

Local Open Scope go_scope.

(** * Calendar *)
Record Date := mkDate { d_year : Z; d_month : Z; d_day : Z }.
(** Days since January 1 of the year 1, by eras of 400 years that begin in March. *)
Definition civil (days : Z) : Date :=
  let z := (days + 306)%Z in
  let era := (z / 146097)%Z in
  let doe := (z mod 146097)%Z in
  let yoe := ((doe - doe / 1460 + doe / 36524 - doe / 146096) / 365)%Z in
  let doy := (doe - (365 * yoe + yoe / 4 - yoe / 100))%Z in
  let mp := ((5 * doy + 2) / 153)%Z in
  let month := (if mp <? 10 then mp + 3 else mp - 9)%Z in
  mkDate (yoe + era * 400 + (if month <=? 2 then 1 else 0))%Z month (doy - (153 * mp + 2) / 5 + 1)%Z.

(** [n] digits. *)
Fixpoint padded (n : nat) (z : Z) : gostring :=
  match n with O => [] | S n => padded n (z / 10)%Z ++ [digitByte (z mod 10)] end.
Fixpoint trimZeros (s : gostring) : gostring :=
  match s with
  | [] => []
  | c :: s => match trimZeros s with
              | [] => if Ascii.eqb c "0" then [] else [c]
              | s => c :: s
              end
  end.
(** The layout [time.RFC3339Nano]: trailing zeros of the fraction are left out. *)
Definition formatRFC3339Nano (t : Z) : gostring :=
  let s := (t / 1000000000)%Z in
  let d := civil (s / 86400) in
  let sod := (s mod 86400)%Z in
  let fraction := trimZeros (padded 9 (t mod 1000000000)) in
  padded 4 (d_year d) ++ "-" ++ padded 2 (d_month d) ++ "-" ++ padded 2 (d_day d) ++ "T"
  ++ padded 2 (sod / 3600) ++ ":" ++ padded 2 (sod / 60 mod 60) ++ ":" ++ padded 2 (sod mod 60)
  ++ (match fraction with [] => [] | _ => "." ++ fraction end) ++ "Z".

Example a_leap_day : formatRFC3339Nano 63844761600500000000 = "2024-02-29T00:00:00.5Z".
Proof. vm_compute. reflexivity. Qed.
Example the_zero_time : formatRFC3339Nano 0 = "0001-01-01T00:00:00Z".
Proof. vm_compute. reflexivity. Qed.

(** * Lists of strings in JSON

    [json.Marshal] escapes quotes, backslashes, control characters, the characters
    that HTML treats specially and the two line separators of Unicode; the strings are
    valid UTF-8. *)
Definition jsonEscape (r : Z) : gostring :=
  if (r =? 34)%Z then [BSLASH; QUOTE]
  else if (r =? 92)%Z then [BSLASH; BSLASH]
  else if (r =? 8)%Z then BSLASH :: "b"
  else if (r =? 12)%Z then BSLASH :: "f"
  else if (r =? 10)%Z then BSLASH :: "n"
  else if (r =? 13)%Z then BSLASH :: "r"
  else if (r =? 9)%Z then BSLASH :: "t"
  else if (r <? 32)%Z || (r =? 60)%Z || (r =? 62)%Z || (r =? 38)%Z || (r =? 8232)%Z || (r =? 8233)%Z
  then BSLASH :: "u" ++ hexFixed 4 r
  else encodeRune r.
Definition jsonString (s : gostring) : gostring :=
  QUOTE :: mjoin (map (fun r => jsonEscape r.2) (runes s)) ++ [QUOTE].
Fixpoint join_comma (l : list gostring) : gostring :=
  match l with [] => [] | [s] => s | s :: l => s ++ "," ++ join_comma l end.
Definition jsonStrings (l : list gostring) : gostring := "[" ++ join_comma (map jsonString l) ++ "]".

Example a_json_list : jsonStrings ["a<b"; [QUOTE]] = "[" ++ [QUOTE] ++ "a\u003cb" ++ [QUOTE; ","%char; QUOTE; BSLASH; QUOTE; QUOTE] ++ "]".
Proof. vm_compute. reflexivity. Qed.
