(* ===== verification/StandInJSON.v ===== *)
(** A stand-in for encoding/json that is read back, for the examples: a string is written
    with an [x] before every byte and a dot at its end, a list with an [s] before every
    string and an [e] at its end, a number in binary. *)
From S2P Require Import Prelude GoStrings.

Local Open Scope go_scope.

Fixpoint write_str (s : gostring) : gostring :=
  match s with [] => ["."%char] | c :: s => "x"%char :: c :: write_str s end.
Definition write_list (l : list gostring) : gostring :=
  foldr (fun s r => "s"%char :: write_str s ++ r) ["e"%char] l.
Fixpoint read_str (s : gostring) : option (gostring * gostring) :=
  match s with
  | x :: s =>
      if Ascii.eqb x "." then Some ([], s)
      else match s with c :: s => r ← read_str s; Some (c :: r.1, r.2) | [] => None end
  | [] => None
  end.
Fixpoint read_list (fuel : nat) (s : gostring) : option (list gostring * gostring) :=
  match fuel, s with
  | S fuel, x :: s =>
      if Ascii.eqb x "e" then Some ([], s)
      else a ← read_str s; l ← read_list fuel a.2; Some (a.1 :: l.1, l.2)
  | _, _ => None
  end.
Lemma read_write_str s r : read_str (write_str s ++ r) = Some (s, r).
Proof. induction s as [|c s IH]; [done|]. cbn. by rewrite IH. Qed.
Lemma length_write_list l : length l < length (write_list l).
Proof. induction l as [|s l IH]; cbn; [lia|]. rewrite length_app. unfold write_list in IH. lia. Qed.
Lemma read_write_list fuel l r : length l < fuel -> read_list fuel (write_list l ++ r) = Some (l, r).
Proof.
  revert fuel; induction l as [|s l IH]; intros [|fuel] Hf; cbn in *; try lia; [done|].
  rewrite <- app_assoc, read_write_str. cbn. fold (write_list l). by rewrite IH by lia.
Qed.

Fixpoint bits (p : positive) : gostring :=
  match p with xH => ["1"%char] | xO p => "0"%char :: bits p | xI p => "1"%char :: bits p end.
Fixpoint unbits (s : gostring) : option positive :=
  match s with
  | [] => None
  | [c] => if Ascii.eqb c "1" then Some xH else None
  | c :: s => p ← unbits s; Some (if Ascii.eqb c "1" then xI p else xO p)
  end.
Lemma bits_cons p : exists c s, bits p = c :: s.
Proof. destruct p; cbn; eauto. Qed.
Lemma unbits_bits p : unbits (bits p) = Some p.
Proof.
  induction p as [p IH|p IH|]; cbn [bits unbits]; [| |done]; destruct (bits_cons p) as (c & s & Hb); rewrite Hb in *;
    cbn [mbind option_bind]; by rewrite IH.
Qed.
Definition write_int (z : Z) : gostring := bits (encode z).
Definition read_int (s : gostring) : option Z := p ← unbits s; decode p.
Lemma read_write_int z : read_int (write_int z) = Some z.
Proof. unfold read_int, write_int. rewrite unbits_bits. cbn [mbind option_bind]. apply decode_encode. Qed.

