(* ===== verification/QueryParser.v ===== *)
(** The parser of the query language q-v1 ([internal/query/parser.go]) and its
    recipes ([internal/query/recipes.go]): splitting a line into stages and
    tokens, validating every stage, and expanding [@recipe] stages by parsing
    the recipe's own pipeline with the argument quoted into it. *)
From S2P Require Import Prelude GoStrings GoStringFacts GoNum.
Local Open Scope go_scope.

Definition MaxStages : nat := 8.

Record Stage := mkStage {
  Verb : gostring;
  Args : list gostring;
  Options : gmap gostring gostring;
  Flags : gmap gostring bool;
}.
Record Pipeline := mkPipeline {
  Stages : list Stage;
  Budget : Z;
  MaxBytes : Z;
  Workspace : gostring;
  Page : gostring;
  Fresh : bool;
  Count : bool;
  Fields : list gostring;
}.
Record pipelinePart := mkPart { part_text : gostring; part_start : nat }.
Record pipelineToken := mkToken { tok_text : gostring; tok_start : nat }.
(** A positioned syntax error; [offset] is a byte offset into the input. *)
Record parseIssue := mkIssue { offset : nat; expected : gostring; cause : gostring }.

(** What [Parse] can return besides a pipeline: an error message, or, in the
    model only, the recipe recursion bound. *)
Inductive parse_failure := GoError (msg : gostring) | RecursionLimit.

Definition canonicalParseExample : gostring :=
  "sym " ++ QUOTE :: "App.Execute" ++ QUOTE :: " exact | edges callers depth=2 | read ±3".

Section query.
Context `{UnicodeTables}.

(** ** Splitting a line into parts *)
Record split_state := mkSplit {
  sp_out : list pipelinePart; sp_start : nat; sp_quote : Z; sp_quoteStart : nat;
  sp_escaped : bool }.

Definition appendPart (out : list pipelinePart) (raw : gostring) (rawStart : nat) :
  list pipelinePart :=
  let trimmed := trimSpace raw in
  let left := length raw - length (trimLeftSpace raw) in
  out ++ [mkPart trimmed (rawStart + left)].

Definition split_step (s : gostring) (st : split_state) (ir : nat * Z) : split_state :=
  let '(i, r) := ir in
  let '(mkSplit out start quote qs escaped) := st in
  if escaped then mkSplit out start quote qs false
  else if ((r =? 92) && negb (quote =? 0))%Z then mkSplit out start quote qs true
  else if negb (quote =? 0)%Z then
    mkSplit out start (if (r =? quote)%Z then 0%Z else quote) qs false
  else if ((r =? 39) || (r =? 34))%Z then mkSplit out start r i false
  else if (r =? 124)%Z then
    mkSplit (appendPart out (take (i - start) (drop start s)) start) (i + 1) quote qs false
  else st.

Definition splitPipeline (s : gostring) : result parseIssue (list pipelinePart) :=
  let st := fold_left (split_step s) (runes s) (mkSplit [] 0 0 0 false) in
  if negb (sp_quote st =? 0)%Z
  then Err (mkIssue (sp_quoteStart st) "comillas cerradas" "comillas sin cerrar")
  else Ok (appendPart (sp_out st) (drop (sp_start st) s) (sp_start st)).

(** ** Splitting a part into tokens *)
Record token_state := mkTok {
  tk_out : list pipelineToken; tk_buf : gostring; tk_quote : Z; tk_quoteStart : nat;
  tk_escaped : bool; tk_active : bool; tk_start : nat }.

Definition flush (st : token_state) : token_state :=
  if tk_active st
  then mkTok (tk_out st ++ [mkToken (tk_buf st) (tk_start st)]) [] (tk_quote st)
             (tk_quoteStart st) (tk_escaped st) false (tk_start st)
  else st.

Definition token_step (base : nat) (st : token_state) (ir : nat * Z) : token_state :=
  let '(i, r) := ir in
  let '(mkTok out b quote qs escaped active start) := st in
  if escaped then mkTok out (b ++ encodeRune r) quote qs false true start
  else if negb (quote =? 0)%Z then
    if (r =? quote)%Z then mkTok out b 0 qs false true start
    else if ((r =? 92) && (quote =? 34))%Z then mkTok out b quote qs true true start
    else mkTok out (b ++ encodeRune r) quote qs false true start
  else if ((r =? 39) || (r =? 34))%Z then
    mkTok out b r (base + i) false true (if active then start else base + i)
  else if isSpaceRune r then flush st
  else mkTok out (b ++ encodeRune r) quote qs false true (if active then start else base + i).

Definition tokenize (s : gostring) (base : nat) : result parseIssue (list pipelineToken) :=
  let st := fold_left (token_step base) (runes s) (mkTok [] [] 0 0 false false 0) in
  if negb (tk_quote st =? 0)%Z
  then Err (mkIssue (tk_quoteStart st) "comillas cerradas" "comillas sin cerrar")
  else Ok (tk_out (flush st)).

(** ** Fields, ranges *)
Definition inList (s : gostring) (l : list gostring) : bool := bool_decide (s ∈ l).
Definition whereFieldAllowed (field : gostring) : bool :=
  inList field ["path"; "name"; "kind"; "origin"; "lang"; "layer"].
Definition fieldAllowed (field : gostring) : bool :=
  inList field ["id"; "rev"; "kind"; "name"; "file"; "path"; "line"; "end_line"; "origin";
    "lang"; "parent"; "signature"; "title"; "layer"; "score"; "text"; "edge"; "in"; "stale";
    "missing"; "seen"].
Definition splitCSV (value : gostring) : list gostring :=
  filter (fun part => part <> []) (map trimSpace (splitByte value ",")).

Definition parseRange (value : gostring) : gostring * Z * Z * bool :=
  match lastIndexByte value ":", lastIndexByte value "-" with
  | Some (S _ as colon), Some dash =>
      if dash <=? colon then ([], 0, 0, false)%Z
      else
        let a := atoi (take (dash - (colon + 1)) (drop (colon + 1) value)) in
        let b := atoi (drop (dash + 1) value) in
        (take colon value, default 0%Z a, default 0%Z b,
         match a, b with
         | Some a, Some b => ((0 <? a) && (a <=? b))%Z
         | _, _ => false
         end)
  | _, _ => ([], 0, 0, false)%Z
  end.

(** ** Validation of one stage; the error is its message *)
Definition validVerbs : list gostring :=
  ["sym"; "text"; "docs"; "id"; "diff"; "changed"; "edges"; "where"; "limit"; "uniq"; "sort";
   "read"; "fields"; "count"; "describe"].
Definition opt (s : Stage) (k : gostring) : gostring := default [] (Options s !! k).
Definition arg0 (s : Stage) : gostring := default [] (head (Args s)).

(** The first operator of [!~ != = ~] found at a positive offset decides. *)
Fixpoint where_field (expr : gostring) (ops : list gostring) : option gostring :=
  match ops with
  | [] => None
  | op :: ops =>
      match index expr op with
      | Some (S _ as at_) => Some (trimSpace (take at_ expr))
      | _ => where_field expr ops
      end
  end.
Definition readArgAllowed (arg : gostring) : bool :=
  bool_decide (arg = "full") || hasPrefix arg "ctx=" || hasPrefix arg "±" ||
  snd (parseRange arg).

Definition validateWhere (s : Stage) : result gostring unit :=
  match where_field (join (Args s) " ") ["!~"; "!="; "="; "~"] with
  | Some field =>
      ensure (whereFieldAllowed field) ("campo de where no válido: " ++ field)
  | None => Err "where requiere campo, operador y valor"
  end.

Definition validateArgVerb (s : Stage) : result gostring unit :=
  let isv v := bool_decide (Verb s = v) in
  _ ← ensure (1 <=? length (Args s)) (Verb s ++ " requiere argumento");
  _ ← ensure (negb ((isv "sym" || isv "text" || isv "fields") && negb (length (Args s) =? 1)))
        (Verb s ++ " recibe un argumento");
  _ ← ensure (negb (isv "sort" &&
          ((2 <? length (Args s)) ||
           (length (Args s) =? 2) && negb (inList (default [] (Args s !! 1)) ["asc"; "desc"]))))
        "sort acepta campo y asc|desc";
  _ ← ensure (negb (isv "sort" && negb (fieldAllowed (arg0 s)))) "campo de sort no válido";
  _ ← (if isv "fields"
       then miter (fun f => ensure (fieldAllowed f) ("campo de fields no válido: " ++ f))
              (splitCSV (arg0 s))
       else Ok tt);
  if isv "where" then validateWhere s else Ok tt.

Definition validateEdges (s : Stage) : result gostring unit :=
  _ ← ensure (1 <=? length (Args s)) "edges requiere refs|callers|callees|impl";
  _ ← ensure (inList (arg0 s) ["refs"; "callers"; "callees"; "impl"])
        "edges requiere refs|callers|callees|impl";
  if bool_decide (opt s "depth" = []) then Ok tt
  else match atoi (opt s "depth") with
       | Some n => ensure ((1 <=? n) && (n <=? 3))%Z "depth debe estar entre 1 y 3"
       | None => Err "depth debe estar entre 1 y 3"
       end.

Definition validateLimit (s : Stage) : result gostring unit :=
  _ ← ensure (length (Args s) =? 1) "limit requiere un entero";
  match atoi (arg0 s) with
  | Some n => ensure (0 <=? n)%Z "limit requiere entero no negativo"
  | None => Err "limit requiere entero no negativo"
  end.

Definition validateChanged (s : Stage) : result gostring unit :=
  _ ← ensure (negb (bool_decide (opt s "since" = []) && (length (Args s) =? 0)))
        "changed requiere since=<mark>";
  if bool_decide (opt s "since" = []) then Ok tt
  else match atoi (opt s "since") with Some _ => Ok tt | None => Err "since inválido" end.

Definition validateRead (s : Stage) : result gostring unit :=
  _ ← miter (fun arg => ensure (readArgAllowed arg) "read espera ±N, ctx=N, full o file:a-b")
        (Args s);
  if bool_decide (opt s "ctx" = []) then Ok tt
  else match atoi (opt s "ctx") with
       | Some n => ensure (0 <=? n)%Z "ctx debe ser entero no negativo"
       | None => Err "ctx debe ser entero no negativo"
       end.

Definition validateStage (s : Stage) : result gostring unit :=
  let isv v := bool_decide (Verb s = v) in
  if hasPrefix (Verb s) "@" then Ok tt
  else
    _ ← ensure (inList (Verb s) validVerbs) ("verbo desconocido " ++ goQuote (Verb s));
    if isv "sym" || isv "text" || isv "where" || isv "sort" || isv "fields" then validateArgVerb s
    else if isv "id" then
      ensure (1 <=? length (Args s)) "id requiere al menos un identificador"
    else if isv "edges" then validateEdges s
    else if isv "limit" then validateLimit s
    else if isv "docs" then ensure (length (Args s) <=? 1) "docs recibe una query"
    else if isv "changed" then validateChanged s
    else if isv "read" then validateRead s
    else if isv "uniq" || isv "count" then
      ensure (length (Args s) =? 0) (Verb s ++ " no recibe argumentos")
    else if isv "diff" then ensure (length (Args s) =? 0) "diff recibe ref=..."
    else if isv "describe" then
      ensure (length (Args s) <=? 1) "describe recibe como máximo un selector"
    else Ok tt.

(** ** Errors *)
Definition or_default (s d : gostring) : gostring := if bool_decide (s = []) then d else s.
Definition formatParseIssue (input : gostring) (issue : parseIssue) : gostring :=
  let expected := or_default (expected issue) "una pipeline q-v1 válida" in
  let offset := Nat.min (offset issue) (length input) in
  let position := runeCount (take offset input) + 1 in
  "q: posición " ++ itoa (Z.of_nat position) ++ ": " ++ cause issue ++ "; se esperaba " ++
  expected ++ ". Ejemplo canónico: " ++ canonicalParseExample.

Definition expectedStageInput (verb : gostring) : gostring :=
  let isv v := bool_decide (verb = v) in
  if isv "sym" then "sym " ++ QUOTE :: "<símbolo o glob>" ++ [QUOTE]
  else if isv "text" then "text " ++ QUOTE :: "<patrón>" ++ [QUOTE]
  else if isv "where" then "where <campo><op><valor>"
  else if isv "sort" then "sort <campo> [asc|desc]"
  else if isv "fields" then "fields <campo,campo>"
  else if isv "id" then "id <identificador>"
  else if isv "edges" then "edges refs|callers|callees|impl"
  else if isv "limit" then "limit N"
  else "un argumento válido para " ++ verb.

Definition expectedForStageError (verb err : gostring) : gostring :=
  let message := toLower err in
  let has m := contains message m in
  if has "verbo desconocido" then
    "un verbo q-v1: sym, text, docs, id, diff, changed, edges, where, limit, uniq, sort, read, fields, count o describe"
  else if has "edges requiere" then "edges refs|callers|callees|impl"
  else if has "read espera" then "read ±N, read ctx=N, read full o read file:a-b"
  else if has "limit requiere" then "limit N, con N entero no negativo"
  else if has "sort" then "sort <campo> [asc|desc]"
  else if has "where" then "where <campo><op><valor>, con op =, !=, ~ o !~"
  else if has "campo" then "un campo permitido para " ++ verb
  else if has "requiere argumento" || has "requiere al menos" then expectedStageInput verb
  else if has "recibe" || has "no recibe" then
    "la cantidad de argumentos documentada para " ++ verb
  else if has "depth" then "depth=1, depth=2 o depth=3"
  else if has "since" then "changed since=<mark>, con mark entero"
  else "los argumentos documentados para " ++ verb.

(** ** One stage: the loop over its tokens *)
Definition setBudget (p : Pipeline) z := mkPipeline (Stages p) z (MaxBytes p) (Workspace p) (Page p) (Fresh p) (Count p) (Fields p).
Definition setMaxBytes (p : Pipeline) z := mkPipeline (Stages p) (Budget p) z (Workspace p) (Page p) (Fresh p) (Count p) (Fields p).
Definition setWorkspace (p : Pipeline) w := mkPipeline (Stages p) (Budget p) (MaxBytes p) w (Page p) (Fresh p) (Count p) (Fields p).
Definition setPage (p : Pipeline) g := mkPipeline (Stages p) (Budget p) (MaxBytes p) (Workspace p) g (Fresh p) (Count p) (Fields p).
Definition setFresh (p : Pipeline) b := mkPipeline (Stages p) (Budget p) (MaxBytes p) (Workspace p) (Page p) b (Count p) (Fields p).
Definition setFields (p : Pipeline) f := mkPipeline (Stages p) (Budget p) (MaxBytes p) (Workspace p) (Page p) (Fresh p) (Count p) f.
Definition setStages (p : Pipeline) ss := mkPipeline ss (Budget p) (MaxBytes p) (Workspace p) (Page p) (Fresh p) (Count p) (Fields p).

Record stage_acc := mkAcc { ac_pipeline : Pipeline; ac_stage : Stage; ac_args : list pipelineToken }.

Definition option_issue (key : gostring) (start : nat) : parseIssue :=
  mkIssue start
    (if bool_decide (key = "budget") then "budget=N, con N entre 1 y 12000"
     else if bool_decide (key = "max_bytes") then "max_bytes=N, con N de al menos 1024"
     else key ++ "=<valor válido>")
    ("q: opción " ++ key ++ " inválida").

Definition set_option (acc : stage_acc) (token : pipelineToken) (key value : gostring) :
  result parseIssue stage_acc :=
  let '(mkAcc p st args) := acc in
  let isk v := bool_decide (key = v) in
  if isk "budget" then
    n ← of_option (option_issue key (tok_start token)) (atoi value);
    Ok (mkAcc (setBudget p n) st args)
  else if isk "max_bytes" then
    n ← of_option (option_issue key (tok_start token)) (atoi value);
    Ok (mkAcc (setMaxBytes p n) st args)
  else if isk "ws" || isk "workspace" then Ok (mkAcc (setWorkspace p value) st args)
  else if isk "page" then Ok (mkAcc (setPage p value) st args)
  else if isk "fields" then Ok (mkAcc (setFields p (splitCSV value)) st args)
  else if isk "fresh" then
    Ok (mkAcc (setFresh p (bool_decide (value = "true") || bool_decide (value = "1"))) st args)
  else Ok (mkAcc p (mkStage (Verb st) (Args st) (<[key := value]> (Options st)) (Flags st)) args).

Definition parse_token (acc : stage_acc) (token : pipelineToken) : result parseIssue stage_acc :=
  let '(mkAcc p st args) := acc in
  match indexByte (tok_text token) "=" with
  | Some (S _ as eq) =>
      let key := toLower (take eq (tok_text token)) in
      let key := if bool_decide (key = "max-bytes") then "max_bytes" else key in
      set_option acc token key (drop (eq + 1) (tok_text token))
  | _ =>
      if inList (tok_text token) ["exact"; "regex"; "full"; "fresh"]
      then Ok (mkAcc (if bool_decide (tok_text token = "fresh") then setFresh p true else p)
                 (mkStage (Verb st) (Args st) (Options st) (<[tok_text token := true]> (Flags st)))
                 args)
      else Ok (mkAcc p (mkStage (Verb st) (Args st ++ [tok_text token]) (Options st) (Flags st))
                 (args ++ [token]))
  end.

(** Aliases of [edges] relations and of the [ctx] option. *)
Definition normalize_edges (s : Stage) : Stage :=
  match Args s with
  | a :: rest =>
      if bool_decide (Verb s = "edges") then
        let a' := if bool_decide (a = "ref") then "refs"
                  else if bool_decide (a = "caller") then "callers"
                  else if bool_decide (a = "callee") then "callees" else a in
        mkStage (Verb s) (a' :: rest) (Options s) (Flags s)
      else s
  | [] => s
  end.
Definition normalize_read (s : Stage) : Stage :=
  if bool_decide (Verb s = "read") && negb (bool_decide (opt s "context" = [])) &&
     bool_decide (opt s "ctx" = [])
  then mkStage (Verb s) (Args s) (<["ctx" := opt s "context"]> (Options s)) (Flags s)
  else s.

Definition stage_issue (part : pipelinePart) (index : nat) (tokens args : list pipelineToken)
    (st : Stage) (err : gostring) : parseIssue :=
  let fin := part_start part + length (part_text part) in
  let offset := match last args with Some t => tok_start t | None => fin end in
  let offset :=
    if contains err "verbo desconocido"
    then match head tokens with Some t => tok_start t | None => offset end
    else if contains err "requiere" && (length args =? 0) then fin else offset in
  let offset :=
    if contains err "edges requiere" then
      match head args with Some t => tok_start t | None => offset end
    else offset in
  mkIssue offset (expectedForStageError (Verb st) err)
    ("q: etapa " ++ itoa (Z.of_nat (index + 1)) ++ ": " ++ err).

(** The body of [for index, part := range parts]. *)
Definition parse_part (p : Pipeline) (ip : nat * pipelinePart) : result parseIssue Pipeline :=
  let '(index, part) := ip in
  tokens ← map_err (fun i => mkIssue (offset i) "comillas cerradas" (cause i))
             (tokenize (part_text part) (part_start part));
  match tokens with
  | [] => Err (mkIssue (part_start part) "una etapa no vacía"
                 ("q: etapa " ++ itoa (Z.of_nat (index + 1)) ++ " vacía"))
  | verb :: rest =>
      acc ← mfold parse_token (mkAcc p (mkStage (toLower (tok_text verb)) [] ∅ ∅) []) rest;
      let st := normalize_read (normalize_edges (ac_stage acc)) in
      _ ← map_err (stage_issue part index tokens (ac_args acc) st) (validateStage st);
      Ok (setStages (ac_pipeline acc) (Stages (ac_pipeline acc) ++ [st]))
  end.

Definition check_bounds (input : gostring) (p : Pipeline) : result parseIssue unit :=
  let fin := length input in
  _ ← ensure ((1 <=? Budget p) && (Budget p <=? 12000))%Z
        (mkIssue fin "budget=N, con N entre 1 y 12000" "q: budget debe estar entre 1 y 12000");
  _ ← ensure (1024 <=? MaxBytes p)%Z
        (mkIssue fin "max_bytes=N, con N de al menos 1024" "q: max_bytes mínimo 1024");
  miter (fun field => ensure (fieldAllowed field)
    (mkIssue fin "un campo permitido: id, rev, kind, name, file, line, text, title"
       ("q: campo desconocido " ++ goQuote field))) (Fields p).

(** Everything [Parse] does before recipes are expanded. *)
Definition parse_stages (input : gostring) : result parseIssue Pipeline :=
  parts ← splitPipeline input;
  _ ← ensure (negb (length parts =? 0))
        (mkIssue 0 "una pipeline de 1 a 8 etapas" "pipeline vacía");
  _ ← match parts !! MaxStages with
      | Some part => Err (mkIssue (part_start part) "un máximo de 8 etapas"
                            "q: se admiten de 1 a 8 etapas")
      | None => Ok tt
      end;
  p ← mfold parse_part (mkPipeline [] 2000 262144 [] [] false false []) (imap pair parts);
  _ ← check_bounds input p;
  Ok p.

(** ** Recipes *)
Record Recipe := mkRecipe { Name : gostring; Version : gostring; Description : gostring;
                            RecipePipeline : gostring }.
Definition ContractVersion : gostring := "q-v1".
Definition recipe_rows : list (gostring * gostring * gostring) := [
  ("who-calls", "Definición y callers directos", "sym $1 exact | edges callers depth=1 | read ctx=2");
  ("trace", "Definición, callers y callees", "sym $1 exact | read | edges callers depth=2 | edges callees depth=1");
  ("find-def", "Buscar y leer una definición", "sym $1 exact | read");
  ("explain", "Documentación y símbolos relacionados", "docs $1 | limit 3 | read");
  ("impact", "Cambio, callers y documentación", "diff ref=$1 | edges callers depth=2 | docs");
  ("explain-change", "Alias de impacto del cambio", "diff ref=$1 | edges callers depth=2 | docs");
  ("nav-intent", "Ruta de intención documental", "docs $1 | limit 5");
  ("nav-route", "Ruta documental", "docs $1 | limit 1");
  ("nav-pack", "Paquete documental", "docs $1 | limit 5 | read");
  ("nav-wiki", "Búsqueda wiki", "docs $1");
  ("nav-search", "Búsqueda textual", "text $1");
  ("nav-find", "Búsqueda de símbolos", "sym $1");
  ("nav-refs", "Referencias", "sym $1 exact | edges refs");
  ("nav-related", "Vecindario", "sym $1 exact | edges callers");
  ("nav-flow-slice", "Flujo de símbolo", "sym $1 exact | edges callers");
  ("nav-change-pack", "Impacto de cambio", "diff ref=$1");
  ("nav-affected", "Superficies afectadas", "diff ref=$1 | edges callers");
  ("nav-multi-read", "Lectura de IDs", "id $1 | read");
  ("nav-overview", "Resumen de símbolos", "sym $1")].
Definition recipe_table : list (gostring * Recipe) :=
  map (fun '(n, d, p) => (n, mkRecipe n ContractVersion d p)) recipe_rows.
Definition recipes : gmap gostring Recipe := list_to_map recipe_table.

Definition quoteArg (s : gostring) : gostring :=
  QUOTE :: flat_map (fun c => if Ascii.eqb c BSLASH then [BSLASH; BSLASH]
                              else if Ascii.eqb c QUOTE then [BSLASH; QUOTE] else [c]) s
  ++ [QUOTE].

Definition Describe (name : gostring) : gostring :=
  let name := match name with c :: t => if Ascii.eqb c "@" then t else name | [] => [] end in
  match recipes !! name with
  | Some r => "@" ++ Name r ++ " (" ++ Version r ++ "): " ++ Description r ++ LF ::
              "Pipeline: " ++ RecipePipeline r
  | None => "q-v1: sym, text, docs, id, diff, changed; edges, where, limit, uniq, sort; read, fields, count. Pipeline: stage | stage (máximo 8)."
  end.

(** The recipe text that [ExpandRecipe] hands to the parser. *)
Definition recipe_source (name : gostring) (args : list gostring) : result gostring gostring :=
  let name := trimPrefix name "@" in
  recipe ← of_option ("q: receta desconocida @" ++ name) (recipes !! name);
  let args := if (length args =? 0) &&
                 inList name ["impact"; "explain-change"; "nav-change-pack"; "nav-affected"]
              then ["HEAD"] else args in
  match args with
  | [] => Err ("q: @" ++ name ++ " requiere un argumento")
  | [arg] =>
      Ok (if contains (RecipePipeline recipe) "$1"
          then replaceAll (RecipePipeline recipe) "$1" (quoteArg arg)
          else RecipePipeline recipe)
  | _ => Err ("q: @" ++ name ++ " recibe exactamente un argumento")
  end.

(** [Parse], [ParseWithoutRecipes], [ExpandRecipe] and [expandRecipes] call
    each other; [depth] bounds the nesting of recipes. *)
Section expand.
Variable Parse : gostring -> result parse_failure Pipeline.

Definition ParseWithoutRecipes (s : gostring) : result parse_failure Pipeline := Parse s.
Definition ExpandRecipe (name : gostring) (args : list gostring) :
  result parse_failure (list Stage) :=
  src ← map_err GoError (recipe_source name args);
  parsed ← ParseWithoutRecipes src;
  Ok (Stages parsed).
Definition expand_stage (stage : Stage) : result parse_failure (list Stage) :=
  if hasPrefix (Verb stage) "@" then ExpandRecipe (Verb stage) (Args stage) else Ok [stage].
Definition expandRecipes (p : Pipeline) : result parse_failure Pipeline :=
  outs ← mmap expand_stage (Stages p);
  let out := concat outs in
  _ ← ensure (length out <=? MaxStages)
        (GoError "q: receta supera el máximo de 8 etapas");
  Ok (setStages p out).
End expand.

Definition expand_failure (input : gostring) (e : parse_failure) : parse_failure :=
  match e with
  | GoError msg => GoError (formatParseIssue input
      (mkIssue (length input) "una receta q-v1 existente con su argumento documentado" msg))
  | RecursionLimit => RecursionLimit
  end.
Fixpoint Parse_depth (depth : nat) (input : gostring) : result parse_failure Pipeline :=
  match depth with
  | 0 => Err RecursionLimit
  | S depth =>
      p ← map_err (fun i => GoError (formatParseIssue input i)) (parse_stages input);
      map_err (expand_failure input) (expandRecipes (Parse_depth depth) p)
  end.
(** Recipes contain no recipes, so two levels are enough
    ([parse_depth_sufficient]). *)
Definition Parse : gostring -> result parse_failure Pipeline := Parse_depth 2.
End query.
