(* ===== verification/QueryParserFacts.v ===== *)
(** Properties of the q-v1 parser: quoting survives tokenization, recipe
    arguments cannot change the shape of the recipe, two levels of recipe
    nesting suffice, and every accepted pipeline is within its limits. *)
From S2P Require Import Prelude GoStrings GoStringFacts GoNum QueryParser.
Local Open Scope go_scope.

(** ** Quoting *)
Definition escapeByte (c : ascii) : gostring :=
  if Ascii.eqb c BSLASH then [BSLASH; BSLASH]
  else if Ascii.eqb c QUOTE then [BSLASH; QUOTE] else [c].
Definition escapeArg (s : gostring) : gostring := flat_map escapeByte s.

Lemma quoteArg_eq s : quoteArg s = QUOTE :: escapeArg s ++ [QUOTE].
Proof. done. Qed.
Lemma escapeArg_nonascii p s : Forall nonascii p -> escapeArg (p ++ s) = p ++ escapeArg s.
Proof.
  induction 1 as [|c p Hc _ IH]; [done|]. cbn [app]. unfold escapeArg in *. cbn [flat_map].
  rewrite IH. unfold escapeByte. rewrite !ascii_eqb_bz. unfold nonascii in Hc.
  change (bz BSLASH) with 92%Z; change (bz QUOTE) with 34%Z. by decide_cmp.
Qed.
Lemma escapeArg_nap s : nonascii_prefix (escapeArg s) = nonascii_prefix s.
Proof.
  induction s as [|c s IH]; [done|].
  destruct (decide (bz c < 128)%Z) as [Hc|Hc].
  - cbn [nonascii_prefix]. decide_cmp. unfold escapeArg; cbn [flat_map].
    unfold escapeByte at 1. repeat case_match; cbn [app nonascii_prefix]; [done|done|by decide_cmp].
  - change (c :: s) with ([c] ++ s). rewrite escapeArg_nonascii by (repeat constructor; unfold nonascii; lia).
    cbn [app nonascii_prefix]. decide_cmp. by rewrite IH.
Qed.

(** The loop over an escaped argument, one source character at a time. *)
Lemma runes_escaped_ascii off c s :
  (bz c < 128)%Z ->
  runes_from 0 off (escapeArg (c :: s)) =
    (if Ascii.eqb c BSLASH then [(off, 92%Z); (S off, 92%Z)]
     else if Ascii.eqb c QUOTE then [(off, 92%Z); (S off, 34%Z)] else [(off, bz c)]) ++
    runes_from 0 (off + length (escapeByte c)) (escapeArg s).
Proof.
  intros Hc. unfold escapeArg; cbn [flat_map]. fold (escapeArg s). unfold escapeByte.
  repeat case_match; cbn [app length];
    rewrite !runes_from_ascii by (done || (vm_compute; done));
    repeat (f_equal; try lia).
Qed.
Lemma runes_escaped_block off p s r :
  p <> [] -> Forall nonascii p ->
  (forall u, nonascii_prefix u = nonascii_prefix s -> decodeRune (p ++ u) = (r, length p)) ->
  runes_from 0 off (escapeArg (p ++ s)) = (off, r) :: runes_from 0 (off + length p) (escapeArg s).
Proof.
  intros Hp Hna Hd. rewrite escapeArg_nonascii by done.
  apply runes_from_block; [done|]. apply Hd, escapeArg_nap.
Qed.

Section facts.
Context `{UnicodeTables}.

(** Inside double quotes the splitter passes over an escaped argument. *)
Lemma split_escaped S a off out start qs :
  fold_left (split_step S) (runes_from 0 off (escapeArg a)) (mkSplit out start 34 qs false) =
  mkSplit out start 34 qs false.
Proof.
  revert off. induction a as [|c s Hc IH|p s r Hp Hna Hr Hd IH] using bytes_ind; intros off; [done| |].
  - rewrite runes_escaped_ascii by done.
    destruct (Ascii.eqb_spec c BSLASH); [apply IH|].
    destruct (Ascii.eqb_spec c QUOTE); [apply IH|].
    cbn -[escapeArg escapeByte bz runes_from].
    rewrite (proj2 (Z.eqb_neq (bz c) 92)), (proj2 (Z.eqb_neq (bz c) 34)).
    + apply IH.
    + intros E. by apply n0, bz_inj.
    + intros E. by apply n, bz_inj.
  - rewrite (runes_escaped_block _ _ _ r) by done.
    cbn -[escapeArg runes_from]. decide_cmp. apply IH.
Qed.

(** Inside double quotes the tokenizer undoes the escaping; bytes that are
    not valid UTF-8 come out as U+FFFD. *)
Lemma token_escaped base a off out b qs start :
  fold_left (token_step base) (runes_from 0 off (escapeArg a)) (mkTok out b 34 qs false true start) =
  mkTok out (b ++ encodeRunes (map snd (runes_from 0 0 a))) 34 qs false true start.
Proof.
  enough (forall off', fold_left (token_step base) (runes_from 0 off (escapeArg a))
      (mkTok out b 34 qs false true start) =
    mkTok out (b ++ encodeRunes (map snd (runes_from 0 off' a))) 34 qs false true start) by done.
  revert off b. induction a as [|c s Hc IH|p s r Hp Hna Hr Hd IH] using bytes_ind; intros off b off'.
  - cbn. by rewrite app_nil_r.
  - rewrite runes_escaped_ascii, runes_from_ascii by done.
    cbn [map snd]. unfold encodeRunes; cbn [map concat]. fold (encodeRunes (map snd (runes_from 0 (S off') s))).
    rewrite encodeRune_ascii by done.
    destruct (Ascii.eqb_spec c BSLASH) as [->|Hb]; [|destruct (Ascii.eqb_spec c QUOTE) as [->|Hq]].
    + cbn [app]. change (fold_left (token_step base) ?l ?s) with (fold_left (token_step base) l s).
      cbn -[escapeArg escapeByte runes_from]. rewrite (IH _ _ (S off')). by rewrite <- app_assoc.
    + cbn -[escapeArg escapeByte runes_from]. rewrite (IH _ _ (S off')). by rewrite <- app_assoc.
    + cbn -[escapeArg escapeByte bz runes_from encodeRune].
      rewrite (proj2 (Z.eqb_neq (bz c) 34)), (proj2 (Z.eqb_neq (bz c) 92)).
      * cbn [andb]. rewrite (IH _ _ (S off')), encodeRune_ascii by done. by rewrite <- app_assoc.
      * intros E. by apply Hb, bz_inj.
      * intros E. by apply Hq, bz_inj.
  - rewrite (runes_escaped_block _ _ _ r), (runes_from_block _ p r s) by (done || by apply Hd).
    cbn -[escapeArg runes_from encodeRune encodeRunes]. decide_cmp.
    rewrite (IH _ _ (off' + length p)). unfold encodeRunes; cbn [map concat].
    by rewrite <- app_assoc.
Qed.

Lemma token_open base out b qs active start i :
  token_step base (mkTok out b 0 qs false active start) (i, 34%Z) =
  mkTok out b 34 (base + i) false true (if active then start else base + i).
Proof. done. Qed.
Lemma token_close base out b qs start i :
  token_step base (mkTok out b 34 qs false true start) (i, 34%Z) =
  mkTok out b 0 qs false true start.
Proof. done. Qed.

(** A whole quoted argument, from its opening to its closing quote. *)
Lemma token_quoted base off a out b qs active start t :
  exists qs', fold_left (token_step base) (runes_from 0 off (quoteArg a ++ t)) (mkTok out b 0 qs false active start) =
  fold_left (token_step base) (runes_from 0 (off + length (quoteArg a)) t)
    (mkTok out (b ++ encodeRunes (map snd (runes a))) 0 qs' false true
       (if active then start else base + off)).
Proof.
  exists (base + off). rewrite quoteArg_eq, <- app_comm_cons, <- app_assoc.
  rewrite runes_from_ascii by done. cbn [fold_left]. change (bz QUOTE) with 34%Z.
  rewrite token_open. cbn [app]. rewrite runes_from_app_ascii by done.
  rewrite fold_left_app, token_escaped, runes_from_ascii by done.
  cbn [fold_left]. change (bz QUOTE) with 34%Z. rewrite token_close.
  repeat (f_equal; try done). cbn [length]. rewrite length_app. cbn [length]. lia.
Qed.

Lemma tokenize_quoteArg_gen a base :
  tokenize (quoteArg a) base = Ok [mkToken (encodeRunes (map snd (runes a))) base].
Proof.
  unfold tokenize, runes. rewrite <- (app_nil_r (quoteArg a)).
  destruct (token_quoted base 0 a [] [] 0 false 0 []) as [qs ->].
  cbn. by rewrite Nat.add_0_r.
Qed.
(** ** Splitting *)

(** Text over which the splitter leaves its top-level state unchanged. *)
Definition closed (seg : gostring) : Prop :=
  forall S off out start qs t, exists qs',
    fold_left (split_step S) (runes_from 0 off (seg ++ t)) (mkSplit out start 0 qs false) =
    fold_left (split_step S) (runes_from 0 (off + length seg) t) (mkSplit out start 0 qs' false).

(** ASCII characters other than quotes and the pipe. *)
Definition inert (c : ascii) : bool :=
  ((bz c <? 128) && negb (bz c =? 34) && negb (bz c =? 39) && negb (bz c =? 124))%Z.

Lemma closed_nil : closed [].
Proof. intros S off out start qs t. exists qs. cbn [app length]. by rewrite Nat.add_0_r. Qed.
Lemma closed_app s1 s2 : closed s1 -> closed s2 -> closed (s1 ++ s2).
Proof.
  intros H1 H2 S off out start qs t. rewrite <- app_assoc.
  destruct (H1 S off out start qs (s2 ++ t)) as [qs1 ->].
  destruct (H2 S (off + length s1) out start qs1 t) as [qs2 ->].
  exists qs2. by rewrite length_app, Nat.add_assoc.
Qed.
Lemma closed_inert s : forallb inert s = true -> closed s.
Proof.
  induction s as [|c s IH]; [intros _; apply closed_nil|]. cbn [forallb].
  intros [Hc Hs]%andb_true_iff. change (c :: s) with ([c] ++ s).
  apply closed_app; [|auto]. intros S off out start qs t. exists qs.
  unfold inert in Hc. bool_to_prop. cbn [app]. rewrite runes_from_ascii by done.
  cbn [fold_left length]. unfold split_step at 2. decide_cmp. cbn [orb andb].
  rewrite andb_false_r. f_equal. f_equal. lia.
Qed.
Lemma closed_quoteArg a : closed (quoteArg a).
Proof.
  intros S off out start qs t. exists off. rewrite quoteArg_eq, <- app_comm_cons, <- app_assoc.
  rewrite runes_from_ascii by done. cbn [fold_left]. change (bz QUOTE) with 34%Z.
  change (split_step S (mkSplit out start 0 qs false) (off, 34%Z)) with (mkSplit out start 34 off false).
  cbn [app]. rewrite runes_from_app_ascii by done.
  rewrite fold_left_app, split_escaped, runes_from_ascii by done.
  cbn [fold_left]. change (bz QUOTE) with 34%Z.
  change (split_step S (mkSplit out start 34 off false) ?x) with (mkSplit out start 0 off false).
  repeat (f_equal; try done). cbn [length]. rewrite length_app. cbn [length]. lia.
Qed.

(** The parts of a line made of closed segments separated by pipes. *)
Fixpoint parts_of (off : nat) (segs : list gostring) : list pipelinePart :=
  match segs with
  | [] => []
  | seg :: segs =>
      mkPart (trimSpace seg) (off + (length seg - length (trimLeftSpace seg))) ::
      parts_of (off + length seg + 1) segs
  end.

Lemma split_closed segs S pre out qs :
  segs <> [] -> Forall closed segs -> S = pre ++ join segs "|" ->
  let st := fold_left (split_step S) (runes_from 0 (length pre) (join segs "|"))
              (mkSplit out (length pre) 0 qs false) in
  sp_quote st = 0%Z /\
  appendPart (sp_out st) (drop (sp_start st) S) (sp_start st) = out ++ parts_of (length pre) segs.
Proof.
  intros Hne Hc. revert pre out qs Hne.
  induction Hc as [|seg segs Hseg Hsegs IH]; intros pre out qs Hne HS; [done|].
  destruct segs as [|seg' segs].
  - cbn [join] in *. specialize (Hseg S (length pre) out (length pre) qs []) as [qs' E].
    rewrite app_nil_r in E. rewrite E. cbn [runes_from fold_left sp_quote sp_out sp_start].
    split; [done|]. subst S. by rewrite drop_app_length.
  - rewrite join_cons in * by done. cbn zeta.
    destruct (Hseg S (length pre) out (length pre) qs ("|" ++ join (seg' :: segs) "|")) as [qs' ->].
    change ("|" ++ join (seg' :: segs) "|") with ("|"%char :: join (seg' :: segs) "|") in *.
    rewrite runes_from_ascii by done. cbn [fold_left].
    set (out' := out ++ [mkPart (trimSpace seg) (length pre + (length seg - length (trimLeftSpace seg)))]).
    assert (Hstep : split_step S (mkSplit out (length pre) 0 qs' false)
        (length pre + length seg, bz "|") = mkSplit out' (length pre + length seg + 1) 0 qs' false).
    { subst S. unfold split_step. change (bz "|") with 124%Z. cbn -[take drop].
      unfold appendPart, out'. rewrite drop_app_length.
      replace (length pre + length seg - length pre) with (length seg) by lia.
      by rewrite take_app_length. }
    rewrite Hstep.
    specialize (IH (pre ++ seg ++ "|") out' qs' ltac:(done)).
    replace (length (pre ++ seg ++ "|")) with (length pre + length seg + 1) in IH
      by (rewrite !length_app; cbn; lia).
    replace (Datatypes.S (length pre + length seg)) with (length pre + length seg + 1) by lia.
    destruct IH as [IH1 IH2].
    { subst S. by rewrite <- !app_assoc. }
    split; [exact IH1|]. rewrite IH2. unfold out'. by rewrite <- app_assoc.
Qed.

Lemma splitPipeline_closed segs :
  segs <> [] -> Forall closed segs -> splitPipeline (join segs "|") = Ok (parts_of 0 segs).
Proof.
  intros Hne Hc. unfold splitPipeline, runes.
  destruct (split_closed segs (join segs "|") [] [] 0 Hne Hc eq_refl) as [Hq Hp].
  cbn [length] in Hq, Hp. rewrite Hq. cbn [Z.eqb negb]. by rewrite Hp.
Qed.

(** ** The first token of a part *)
Definition wordChar (c : ascii) : bool := inert c && negb (isSpaceRune (bz c)).
Lemma token_word base w off out b qs start t :
  forallb wordChar w = true ->
  fold_left (token_step base) (runes_from 0 off (w ++ t)) (mkTok out b 0 qs false true start) =
  fold_left (token_step base) (runes_from 0 (off + length w) t)
    (mkTok out (b ++ w) 0 qs false true start).
Proof.
  revert off b. induction w as [|c w IH]; intros off b; cbn [forallb app length].
  - intros _. by rewrite Nat.add_0_r, app_nil_r.
  - intros [Hc Hw]%andb_true_iff. unfold wordChar, inert in Hc. bool_to_prop.
    rewrite runes_from_ascii by done. cbn [fold_left]. unfold token_step at 2.
    change (0 =? 0)%Z with true. cbn [negb]. decide_cmp.
    match goal with H : isSpaceRune _ = false |- _ => rewrite H end.
    rewrite IH by done. rewrite encodeRune_ascii by done. rewrite <- app_assoc.
    by rewrite Nat.add_succ_comm.
Qed.
Lemma token_step_grows base st ir :
  exists l, tk_out (token_step base st ir) = tk_out st ++ l.
Proof.
  destruct st as [out b q qs e act start], ir as [i r]. unfold token_step, flush.
  cbn [tk_active tk_out tk_buf tk_quote tk_quoteStart tk_escaped tk_start].
  repeat case_match; cbn [tk_out]; eauto using app_nil_r; by exists [].
Qed.
Lemma token_fold_grows base irs st :
  exists l, tk_out (flush (fold_left (token_step base) irs st)) = tk_out st ++ l.
Proof.
  revert st; induction irs as [|ir irs IH]; intros st; cbn [fold_left].
  - unfold flush. case_match; cbn [tk_out]; [eauto | exists []; by rewrite app_nil_r].
  - destruct (IH (token_step base st ir)) as [l ->].
    destruct (token_step_grows base st ir) as [l' ->]. rewrite <- app_assoc. eauto.
Qed.
(** A part that starts with a plain word has that word as its first token. *)
Lemma tokenize_head c w t base tokens :
  forallb wordChar (c :: w) = true -> t = [] \/ head t = Some SP ->
  tokenize (c :: w ++ t) base = Ok tokens -> head tokens = Some (mkToken (c :: w) base).
Proof.
  intros Hw Ht. cbn [forallb] in Hw. apply andb_true_iff in Hw as [Hc Hw].
  unfold wordChar, inert in Hc. bool_to_prop. unfold tokenize, runes.
  rewrite runes_from_ascii by done. cbn [fold_left].
  assert (token_step base (mkTok [] [] 0 0 false false 0) (0, bz c) =
          mkTok [] [c] 0 0 false true (base + 0)) as ->.
  { unfold token_step. change (0 =? 0)%Z with true. cbn [negb]. decide_cmp.
    match goal with H : isSpaceRune _ = false |- _ => rewrite H end.
    by rewrite encodeRune_ascii. }
  rewrite token_word by done. cbn [app]. rewrite Nat.add_0_r.
  case_match; [done|]. intros [= <-].
  destruct t as [|d t]; [done|]. destruct Ht as [Ht|[= ->]]; [done|].
  rewrite runes_from_ascii by done. cbn [fold_left].
  change (token_step base ?st (?i, bz SP)) with (flush st).
  match goal with |- context [fold_left (token_step base) ?irs ?st] =>
    destruct (token_fold_grows base irs st) as [l ->] end.
  done.
Qed.

(** ** What the stages of a parsed line are *)
Lemma parse_token_stage acc tok acc' :
  parse_token acc tok = Ok acc' ->
  Verb (ac_stage acc') = Verb (ac_stage acc) /\
  Stages (ac_pipeline acc') = Stages (ac_pipeline acc).
Proof.
  destruct acc as [p st args]. unfold parse_token, set_option. intros E.
  destruct (indexByte _ _) as [[|k]|]; [| |];
    repeat match type of E with
           | context [if ?b then _ else _] => destruct b
           | context [atoi ?x] => destruct (atoi x); cbn in E
           end;
    try discriminate E; injection E as <-; done.
Qed.

(** A part that is accepted contributes one validated stage, named by its
    first token. *)
Definition stage_of (ip : nat * pipelinePart) (st : Stage) : Prop :=
  (exists tok toks, tokenize (part_text ip.2) (part_start ip.2) = Ok (tok :: toks) /\
                    Verb st = toLower (tok_text tok)) /\
  validateStage st = Ok tt.

Lemma normalize_verb st : Verb (normalize_read (normalize_edges st)) = Verb st.
Proof. unfold normalize_read, normalize_edges. repeat case_match; done. Qed.

Lemma parse_part_stage p ip p' :
  parse_part p ip = Ok p' -> exists st, Stages p' = Stages p ++ [st] /\ stage_of ip st.
Proof.
  destruct ip as [i part]. unfold parse_part, stage_of. cbn [snd]. intros E.
  destruct (tokenize _ _) as [[|verb rest]|] eqn:Etok; cbn in E; try done.
  bind_inv E as acc Hacc. bind_inv E as u Hu. injection E as <-.
  apply (mfold_invariant (fun acc => Verb (ac_stage acc) = toLower (tok_text verb) /\
      Stages (ac_pipeline acc) = Stages p)) in Hacc as [Hv Hs].
  - cbn [Stages setStages]. rewrite Hs. eexists. split; [done|]. split.
    + exists verb, rest. by rewrite normalize_verb.
    + destruct (validateStage _) as [[]|]; done.
  - intros s x s' [<- <-] ?%parse_token_stage. done.
  - done.
Qed.

Lemma parse_parts_stages l p p' :
  mfold parse_part p l = Ok p' ->
  exists sts, Stages p' = Stages p ++ sts /\ Forall2 stage_of l sts.
Proof.
  revert p; induction l as [|ip l IH]; intros p E; cbn [mfold] in E.
  - injection E as <-. exists []. by rewrite app_nil_r.
  - bind_inv E as p1 Hp1. apply parse_part_stage in Hp1 as (st & Hs & Hst).
    apply IH in E as (sts & Hs' & Hsts). exists (st :: sts).
    rewrite Hs', Hs, <- app_assoc. eauto.
Qed.

Lemma parse_stages_spec input p :
  parse_stages input = Ok p ->
  exists parts, splitPipeline input = Ok parts /\ 1 <= length parts <= MaxStages /\
    Forall2 stage_of (imap pair parts) (Stages p) /\ check_bounds input p = Ok tt.
Proof.
  unfold parse_stages. intros E. bind_inv E as parts Hparts. bind_inv E as u1 Hne.
  bind_inv E as u2 Hmax. bind_inv E as q Hq. bind_inv E as u3 Hb.
  injection E as <-. apply ensure_ok in Hne. bool_to_prop.
  destruct (parts !! MaxStages) eqn:Hlen; [done|]. apply lookup_ge_None in Hlen.
  apply parse_parts_stages in Hq as (sts & Hs & Hsts). cbn in Hs. subst sts.
  destruct u3. exists parts. repeat split; try done. lia.
Qed.

(** ** Recipes *)
Definition firstWord (s : gostring) : gostring :=
  match indexByte s SP with Some i => take i s | None => s end.
Definition wordOk (w : gostring) : bool :=
  forallb (fun c => wordChar c && negb (Ascii.eqb c "@") && isLowerByte c) w &&
  negb (bool_decide (w = [])).
(** The verbs of a recipe, read off its text. *)
Definition recipe_verbs (r : Recipe) : list gostring :=
  map (fun seg => firstWord (trimSpace seg)) (splitByte (RecipePipeline r) "|").

(** What holds of every row of the recipe table, checked by computation: the
    argument marker occurs once, in the first segment and after a space;
    everything else is inert text. *)
Definition seg_ok (seg : gostring) : bool :=
  forallb inert seg && negb (memByte "$" seg) && wordOk (firstWord (trimSpace seg)).
Definition row_ok (text : gostring) : bool :=
  match splitByte text "|" with
  | first :: rest =>
      match index first "$1" with
      | Some i =>
          let pre := take i first in let post := drop (i + 2) first in
          let post1 := trimRightSet post " " in
          bool_decide (first = pre ++ "$1" ++ post) &&
          forallb inert pre && negb (memByte "$" pre) && memByte SP pre &&
          bool_decide (firstWord (trimSpace first) = firstWord pre) &&
          wordOk (firstWord pre) && starts_solid pre &&
          forallb inert post && negb (memByte "$" post) && ends_solid post1 &&
          forallb (fun c => Ascii.eqb c SP) (drop (length post1) post) &&
          bool_decide (post1 ++ drop (length post1) post = post) &&
          forallb seg_ok rest
      | None => false
      end
  | [] => false
  end.
Lemma recipe_rows_ok : forallb (fun '(_, r) => row_ok (RecipePipeline r)) recipe_table = true.
Proof. vm_compute. reflexivity. Qed.

Lemma recipe_row_ok name r : recipes !! name = Some r -> row_ok (RecipePipeline r) = true.
Proof.
  intros E%elem_of_list_to_map_2. apply list_elem_of_In in E.
  pose proof recipe_rows_ok as Hok. rewrite forallb_forall in Hok. by apply (Hok _ E).
Qed.

Lemma join_head seg segs :
  exists tail, (forall x, join ((x ++ seg) :: segs) "|" = x ++ seg ++ tail) /\
    forall c, c <> "|"%char -> Forall (fun s => c ∉ s) segs -> c ∉ tail.
Proof.
  destruct segs as [|s' segs].
  - exists []. cbn. split; [intros; by rewrite app_nil_r|]. intros. apply not_elem_of_nil.
  - exists ("|" ++ join (s' :: segs) "|"). split.
    + intros x. rewrite join_cons by done. by rewrite <- app_assoc.
    + intros c Hc Hs. apply not_elem_of_app. split; [by rewrite list_elem_of_singleton|].
      clear -Hc Hs. revert Hs. generalize (s' :: segs). intros l.
      induction l as [|x [|y l] IH]; intros Hs.
      * apply not_elem_of_nil.
      * by apply Forall_cons in Hs as [? _].
      * rewrite join_cons by done. apply Forall_cons in Hs as [? ?].
        rewrite !not_elem_of_app, list_elem_of_singleton. auto.
Qed.

(** Substituting a quoted argument keeps the segments of the recipe apart and
    leaves the first word of each of them alone. *)
Lemma recipe_substituted text a :
  row_ok text = true ->
  contains text "$1" = true -> 
  exists segs, replaceAll text "$1" (quoteArg a) = join segs "|" /\ segs <> [] /\
    Forall closed segs /\
    Forall2 (fun seg w => exists t, trimSpace seg = w ++ t /\ (t = [] \/ head t = Some SP) /\
               wordOk w = true)
      segs (map (fun seg => firstWord (trimSpace seg)) (splitByte text "|")).
Proof.
  unfold row_ok. intros Hrow _.
  pose proof (join_splitByte text "|") as Htext.
  destruct (splitByte text "|") as [|first rest]; [done|].
  destruct (index first "$1") as [i|]; [|done].
  set (pre := take i first) in *. set (post := drop (i + 2) first) in *.
  set (post1 := trimRightSet post " ") in *. set (sp := drop (length post1) post) in *.
  bool_to_prop.
  match goal with H : first = _ |- _ => rename H into Hfirst end.
  match goal with H : post1 ++ sp = post |- _ => rename H into Hpost end.
  match goal with H : memByte SP pre = true |- _ => rename H into Hsp end.
  match goal with H : forallb seg_ok rest = true |- _ => rename H into Hrest end.
  match goal with H : firstWord (trimSpace first) = _ |- _ => rename H into Hfw end.
  assert (Hrest' : Forall (fun s => forallb inert s = true /\ "$"%char ∉ s /\
      wordOk (firstWord (trimSpace s)) = true) rest).
  { apply Forall_forall. intros s Hs%list_elem_of_In. rewrite forallb_forall in Hrest.
    specialize (Hrest _ Hs). unfold seg_ok in Hrest. bool_to_prop. repeat split; try done.
    intros Hin%memByte_iff. congruence. }
  exists ((pre ++ quoteArg a ++ post) :: rest). split; [|split; [done|split]].
  - destruct (join_head post rest) as (tail & Hj & Htail).
    rewrite app_assoc, Hj, <- app_assoc.
    rewrite <- Htext, Hfirst, app_assoc, Hj, <- app_assoc.
    apply (replaceAll_once "$" "1" pre (post ++ tail)).
    + intros ?%memByte_iff. congruence.
    + rewrite not_elem_of_app. split; [intros ?%memByte_iff; congruence|].
      apply Htail; [done|]. eapply Forall_impl; [exact Hrest'|]. naive_solver.
  - constructor.
    + apply closed_app; [by apply closed_inert|]. apply closed_app; [apply closed_quoteArg|].
      by apply closed_inert.
    + eapply Forall_impl; [exact Hrest'|]. cbn. intros s (? & _ & _). by apply closed_inert.
  - cbn [map]. constructor.
    + rewrite Hfw. apply memByte_iff in Hsp.
      destruct (indexByte pre SP) as [k|] eqn:Hk; [|by apply indexByte_None in Hk].
      pose proof (indexByte_Some _ _ _ Hk) as [Hpre _].
      exists (SP :: drop (Datatypes.S k) pre ++ quoteArg a ++ post1).
      unfold firstWord in *. rewrite Hk in *. split; [|split; [by right|done]].
      rewrite <- Hpost. rewrite !app_assoc, trimSpace_trailing.
      * rewrite <- !app_assoc. by rewrite Hpre at 1; rewrite <- !app_assoc.
      * destruct pre; [|done]. by apply elem_of_nil in Hsp.
      * destruct pre; [by apply elem_of_nil in Hsp|done].
      * unfold ends_solid. rewrite !rev_app_distr. rewrite quoteArg_eq. cbn [rev].
        rewrite rev_app_distr.
        destruct (rev post1) as [|c l] eqn:E; [done|].
        match goal with H : ends_solid post1 = true |- _ => unfold ends_solid in H; by rewrite E in H end.
      * apply Forall_forall. intros c Hc%list_elem_of_In.
        match goal with H : forallb _ sp = true |- _ => rewrite forallb_forall in H; specialize (H _ Hc) end.
        by apply Ascii.eqb_eq.
    + clear -Hrest'. induction Hrest' as [|s rest (_ & _ & Hw) _ IH]; constructor; [|done].
      unfold firstWord in *. destruct (indexByte (trimSpace s) SP) as [k|] eqn:Hk.
      * pose proof (indexByte_Some _ _ _ Hk) as [E _].
        exists (SP :: drop (Datatypes.S k) (trimSpace s)). auto.
      * exists []. rewrite app_nil_r. auto.
Qed.

Lemma wordOk_lower w : wordOk w = true -> toLower w = w.
Proof.
  unfold wordOk. intros Hw. bool_to_prop.
  match goal with H : forallb _ w = true |- _ => rename H into Hall end.
  rewrite forallb_forall in Hall.
  assert (Hc : forall c, In c w -> (97 <= bz c <= 122)%Z).
  { intros c Hin. specialize (Hall _ Hin). cbn beta in Hall. bool_to_prop.
    match goal with H : isLowerByte c = true |- _ => unfold isLowerByte, byte_in_range in H end.
    bool_to_prop. change (bz "a") with 97%Z in *. change (bz "z") with 122%Z in *. lia. }
  unfold toLower. assert (isASCII w = true) as ->.
  { unfold isASCII. apply forallb_forall. intros c Hin%Hc. unfold RuneSelf. decide_cmp. done. }
  rewrite <- (map_id w) at 2. apply map_ext_in. intros c Hin%Hc.
  unfold lowerByte, isUpperByte, byte_in_range.
  change (bz "A") with 65%Z; change (bz "Z") with 90%Z. by decide_cmp.
Qed.
Lemma wordOk_not_at w : wordOk w = true -> hasPrefix w "@" = false.
Proof.
  unfold wordOk. destruct w as [|c w]; [done|]. intros Hw. bool_to_prop.
  match goal with H : forallb _ _ = true |- _ => cbn [forallb] in H end. bool_to_prop.
  cbn [hasPrefix]. rewrite ascii_eqb_bz, Z.eqb_sym, <- ascii_eqb_bz.
  match goal with H : Ascii.eqb c "@" = false |- _ => by rewrite H end.
Qed.

Lemma parts_text segs off : map part_text (parts_of off segs) = map trimSpace segs.
Proof. revert off; induction segs as [|s segs IH]; intros off; cbn; [done | by rewrite IH]. Qed.

Lemma recipe_contains name r : recipes !! name = Some r -> contains (RecipePipeline r) "$1" = true.
Proof.
  intros E%elem_of_list_to_map_2. apply list_elem_of_In in E.
  assert (Hok : forallb (fun '(_, r) => contains (RecipePipeline r) "$1") recipe_table = true)
    by (vm_compute; reflexivity).
  rewrite forallb_forall in Hok. by apply (Hok _ E).
Qed.

Definition part_stage (part : pipelinePart) (st : Stage) : Prop := stage_of (0, part) st.
Lemma stage_of_parts parts sts :
  Forall2 stage_of (imap pair parts) sts -> Forall2 part_stage parts sts.
Proof.
  rewrite !Forall2_lookup. intros Hall i. specialize (Hall i).
  rewrite list_lookup_imap in Hall. destruct (parts !! i); inversion Hall; by constructor.
Qed.

Lemma stage_verb part st w t :
  part_stage part st -> part_text part = w ++ t -> t = [] \/ head t = Some SP ->
  wordOk w = true -> Verb st = w.
Proof.
  intros ((tok & toks & Htok & ->) & _) Htext Ht Hw. cbn [snd] in Htok. rewrite Htext in Htok.
  assert (head (tok :: toks) = Some (mkToken w (part_start part))) as [= ->].
  { unfold wordOk in Hw. destruct w as [|c w]; [by rewrite andb_false_r in Hw|].
    eapply tokenize_head; [|done|exact Htok].
    apply andb_true_iff in Hw as [Hw _]. rewrite forallb_forall in Hw |- *.
    intros x Hx. specialize (Hw x Hx). cbn beta in Hw. by bool_to_prop. }
  cbn [tok_text]. by apply wordOk_lower.
Qed.

(** Whatever the argument, the stages parsed from a recipe are exactly the
    stages its text names. *)
Lemma recipe_source_verbs name args src :
  recipe_source name args = Ok src ->
  exists r, recipes !! trimPrefix name "@" = Some r /\
    forall p, parse_stages src = Ok p ->
      map Verb (Stages p) = recipe_verbs r /\ Forall (fun v => hasPrefix v "@" = false) (recipe_verbs r).
Proof.
  unfold recipe_source. intros E. bind_inv E as r Hr.
  destruct (recipes !! trimPrefix name "@") as [r'|] eqn:Hrec; [|done].
  injection Hr as ->. exists r. split; [done|].
  rewrite (recipe_contains _ _ Hrec) in E.
  generalize dependent (if (length args =? 0) && inList (trimPrefix name "@")
    ["impact"; "explain-change"; "nav-change-pack"; "nav-affected"] then ["HEAD"] else args).
  intros [|a [|? ?]]; try done. intros [= <-] p Hp.
  destruct (recipe_substituted (RecipePipeline r) a) as (segs & Hsrc & Hne & Hclosed & Hwords).
  { by eapply recipe_row_ok. } { by eapply recipe_contains. }
  rewrite Hsrc in Hp. fold (recipe_verbs r) in Hwords.
  apply parse_stages_spec in Hp as (parts & Hparts & _ & Hst & _).
  rewrite splitPipeline_closed in Hparts by done. injection Hparts as <-.
  apply stage_of_parts in Hst. clear -Hst Hwords.
  revert Hst Hwords. generalize 0 (recipe_verbs r) (Stages p). intros off ws sts.
  revert off ws sts. induction segs as [|s segs IH]; intros off ws sts Hst Hw;
    cbn [parts_of] in Hst; inversion Hst as [|part st ps sts' Hs Hss]; subst;
    inversion Hw as [|? w ? ws' (t & Ht & Hsp & Hok) Hws]; subst; [by split|].
  destruct (IH _ _ _ Hss Hws) as [<- Hall]. split.
  - cbn [map]. f_equal. eapply stage_verb; [exact Hs|exact Ht|done|done].
  - constructor; [by apply wordOk_not_at | done].
Qed.

(** ** Expansion *)
Lemma expandRecipes_plain P p :
  Forall (fun st => hasPrefix (Verb st) "@" = false) (Stages p) -> length (Stages p) <= MaxStages ->
  expandRecipes P p = Ok p.
Proof.
  intros Hplain Hlen. unfold expandRecipes.
  assert (mmap (expand_stage P) (Stages p) = Ok (map (fun st => [st]) (Stages p))) as ->.
  { clear Hlen. induction Hplain as [|st sts Hst _ IH]; cbn [mmap map]; [done|].
    assert (expand_stage P st = Ok [st]) as -> by (unfold expand_stage; by rewrite Hst).
    cbn. by rewrite IH. }
  assert (concat (map (fun st => [st]) (Stages p)) = Stages p) as Hc.
  { clear. induction (Stages p) as [|st sts IH]; cbn; [done | by rewrite IH]. }
  cbn [mbind result_bind]. rewrite Hc. unfold ensure. rewrite (proj2 (Nat.leb_le _ _) Hlen).
  cbn. by destruct p.
Qed.

Lemma Parse_depth_S d input :
  Parse_depth (S d) input =
    (p ← map_err (fun i => GoError (formatParseIssue input i)) (parse_stages input);
     map_err (expand_failure input) (expandRecipes (Parse_depth d) p)).
Proof. done. Qed.

(** Below a recipe there is nothing left to expand. *)
Lemma Parse_recipe_source d name args src :
  recipe_source name args = Ok src ->
  Parse_depth (S d) src = map_err (fun i => GoError (formatParseIssue src i)) (parse_stages src).
Proof.
  intros (r & _ & Hsrc)%recipe_source_verbs. cbn [Parse_depth].
  destruct (parse_stages src) as [p|i] eqn:Hp; [|done]. cbn [map_err mbind result_bind].
  destruct (Hsrc p eq_refl) as [Hv Hat].
  rewrite expandRecipes_plain; [done| |].
  - rewrite <- Hv in Hat. by apply Forall_map in Hat.
  - apply parse_stages_spec in Hp as (parts & _ & Hlen & Hst & _).
    apply Forall2_length in Hst. rewrite length_imap in Hst. lia.
Qed.
Lemma ExpandRecipe_depth d name args :
  ExpandRecipe (Parse_depth (S d)) name args = ExpandRecipe (Parse_depth 1) name args.
Proof.
  unfold ExpandRecipe, ParseWithoutRecipes. destruct (recipe_source name args) eqn:E; [|done].
  cbn [map_err mbind result_bind]. by rewrite !(Parse_recipe_source _ _ _ _ E).
Qed.
Lemma ExpandRecipe_limit d name args : ExpandRecipe (Parse_depth (S d)) name args <> Err RecursionLimit.
Proof.
  unfold ExpandRecipe, ParseWithoutRecipes. destruct (recipe_source name args) eqn:E; [|done].
  cbn [map_err mbind result_bind]. rewrite (Parse_recipe_source _ _ _ _ E).
  by destruct (parse_stages _).
Qed.
Lemma expandRecipes_depth d p :
  expandRecipes (Parse_depth (S d)) p = expandRecipes (Parse_depth 1) p /\
  expandRecipes (Parse_depth (S d)) p <> Err RecursionLimit.
Proof.
  unfold expandRecipes.
  assert (mmap (expand_stage (Parse_depth (S d))) (Stages p) =
          mmap (expand_stage (Parse_depth 1)) (Stages p) /\
          mmap (expand_stage (Parse_depth (S d))) (Stages p) <> Err RecursionLimit) as [-> Hne].
  { induction (Stages p) as [|st sts [IH Hne]]; cbn [mmap]; [done|].
    assert (expand_stage (Parse_depth (S d)) st = expand_stage (Parse_depth 1) st /\
            expand_stage (Parse_depth 1) st <> Err RecursionLimit) as [-> Hst].
    { unfold expand_stage. destruct (hasPrefix _ _); [|done].
      rewrite ExpandRecipe_depth. split; [done|]. apply ExpandRecipe_limit. }
    rewrite IH in *. split; [done|].
    apply bind_not_err; [done|]. intros out. by apply bind_not_err. }
  split; [done|]. apply bind_not_err; [done|]. intros outs.
  apply bind_not_err; [|done]. unfold ensure. by case_match.
Qed.

(** ** Well-formed pipelines *)

(** What the executor may rely on. *)
Record wf_pipeline (p : Pipeline) : Prop := {
  wf_stages : 1 <= length (Stages p) <= MaxStages;
  wf_valid : Forall (fun st => validateStage st = Ok tt) (Stages p);
  wf_expanded : Forall (fun st => hasPrefix (Verb st) "@" = false) (Stages p);
  wf_budget : (1 <= Budget p <= 12000)%Z;
  wf_bytes : (1024 <= MaxBytes p)%Z;
  wf_fields : Forall (fun f => fieldAllowed f = true) (Fields p);
}.

Lemma check_bounds_ok input p :
  check_bounds input p = Ok tt ->
  (1 <= Budget p <= 12000)%Z /\ (1024 <= MaxBytes p)%Z /\
  Forall (fun f => fieldAllowed f = true) (Fields p).
Proof.
  unfold check_bounds. intros E. bind_inv E as u1 H1. bind_inv E as u2 H2.
  apply ensure_ok in H1. apply ensure_ok in H2. bool_to_prop.
  apply miter_ok_iff in E. repeat split; try lia.
  eapply Forall_impl; [exact E|]. cbn beta. intros f Hf. by apply ensure_ok in Hf.
Qed.

Lemma expand_stage_wf st out :
  validateStage st = Ok tt -> expand_stage (Parse_depth 1) st = Ok out ->
  1 <= length out /\ Forall (fun st => validateStage st = Ok tt /\ hasPrefix (Verb st) "@" = false) out.
Proof.
  intros Hv. unfold expand_stage. destruct (hasPrefix (Verb st) "@") eqn:Hat.
  - unfold ExpandRecipe, ParseWithoutRecipes. intros E. bind_inv E as src Hsrc.
    destruct (recipe_source _ _) as [src'|] eqn:Hr; [|done]. injection Hsrc as ->.
    rewrite (Parse_recipe_source 0 _ _ _ Hr) in E.
    apply recipe_source_verbs in Hr as (r & _ & Hr).
    destruct (parse_stages src) as [p|] eqn:Hp; [|done]. cbn in E. injection E as <-.
    destruct (Hr p eq_refl) as [Hverbs Hnoat]. rewrite <- Hverbs in Hnoat. apply Forall_map in Hnoat.
    apply parse_stages_spec in Hp as (parts & _ & Hlen & Hst & _).
    apply stage_of_parts in Hst. split; [apply Forall2_length in Hst; lia|].
    apply Forall_and. split; [|done]. clear -Hst. induction Hst as [|? ? ? ? [_ ?]]; constructor; done.
  - intros [= <-]. cbn. split; [lia|]. by repeat constructor.
Qed.

Lemma expandRecipes_wf p p' :
  Forall (fun st => validateStage st = Ok tt) (Stages p) -> 1 <= length (Stages p) ->
  expandRecipes (Parse_depth 1) p = Ok p' ->
  1 <= length (Stages p') <= MaxStages /\
  Forall (fun st => validateStage st = Ok tt /\ hasPrefix (Verb st) "@" = false) (Stages p') /\
  Budget p' = Budget p /\ MaxBytes p' = MaxBytes p /\ Fields p' = Fields p.
Proof.
  intros Hv Hlen E. unfold expandRecipes in E. bind_inv E as outs Houts. bind_inv E as u Hu.
  injection E as <-. apply ensure_ok in Hu. bool_to_prop. cbn [Stages setStages Budget MaxBytes Fields].
  apply mmap_ok_iff in Houts.
  assert (Hall : Forall (fun out => 1 <= length out /\
      Forall (fun st => validateStage st = Ok tt /\ hasPrefix (Verb st) "@" = false) out) outs).
  { clear -Houts Hv. induction Houts as [|st out sts outs Hst _ IH]; [done|].
    apply Forall_cons in Hv as [? ?]. constructor; [by eapply expand_stage_wf | auto]. }
  split; [split; [|done]|].
  - destruct outs as [|out outs]; [apply Forall2_length in Houts; cbn in Houts; lia|].
    apply Forall_cons in Hall as [[? _] _]. cbn. rewrite length_app. lia.
  - split; [|done]. apply Forall_concat. eapply Forall_impl; [exact Hall|]. naive_solver.
Qed.
(** ** Positions *)
Definition located (s : gostring) (part : pipelinePart) : Prop :=
  part_text part = take (length (part_text part)) (drop (part_start part) s).

Lemma appendPart_located s out n start :
  Forall (located s) out -> Forall (located s) (appendPart out (take n (drop start s)) start).
Proof.
  intros Hout. unfold appendPart. apply Forall_app. split; [done|].
  apply Forall_singleton. unfold located. cbn [part_text part_start].
  set (raw := take n (drop start s)). set (k := length raw - length (trimLeftSpace raw)).
  assert (trimLeftSpace raw = take (n - k) (drop (start + k) s)) as Hleft.
  { unfold k. rewrite trimLeftSpace_drop at 1. fold k. unfold raw at 1.
    by rewrite skipn_firstn_comm, drop_drop. }
  unfold trimSpace. destruct (trimRightSpace_take (trimLeftSpace raw)) as [m ->].
  rewrite Hleft, take_take. symmetry. apply take_length_take.
Qed.

Lemma split_fold_located s irs st :
  Forall (located s) (sp_out st) -> Forall (located s) (sp_out (fold_left (split_step s) irs st)).
Proof.
  revert st; induction irs as [|[i r] irs IH]; intros st Hst; [done|].
  cbn [fold_left]. apply IH. destruct st as [out start q qs e]. unfold split_step.
  repeat case_match; try done. by apply appendPart_located.
Qed.

(** A stage that needs an argument and has none is rejected. *)
Lemma validateStage_no_args st :
  Args st = [] -> Verb st ∈ ["sym"; "text"; "where"; "sort"; "fields"; "id"; "edges"] ->
  validateStage st <> Ok tt.
Proof.
  destruct st as [v args opts flags]. cbn [Args Verb]. intros -> Hv.
  repeat (apply elem_of_cons in Hv as [->|Hv]; [vm_compute; discriminate|]).
  by apply elem_of_nil in Hv.
Qed.
End facts.

(** * Properties *)
Section properties.
Context `{UnicodeTables}.

(** Quoting an argument and tokenizing it gives back exactly that
    argument, as a single token at the position of the opening quote, for
    every valid UTF-8 argument. *)
Theorem tokenize_quoteArg (s : gostring) (base : nat) :
  validString s = true -> tokenize (quoteArg s) base = Ok [mkToken s base].
Proof. intros Hs. by rewrite tokenize_quoteArg_gen, runes_valid. Qed.

(** C3: an argument cannot inject stages: whenever a recipe expands, at any
    nesting depth and with any argument bytes, its stages carry exactly the
    verbs written in the recipe, in order. *)
Theorem recipe_verbs_fixed (d : nat) (name : gostring) (args : list gostring) (stages : list Stage) :
  ExpandRecipe (Parse_depth (S d)) name args = Ok stages ->
  exists r, recipes !! trimPrefix name "@" = Some r /\ map Verb stages = recipe_verbs r.
Proof.
  rewrite ExpandRecipe_depth. unfold ExpandRecipe, ParseWithoutRecipes. intros E.
  bind_inv E as src Hsrc. destruct (recipe_source name args) as [src'|] eqn:Hr; [|done].
  injection Hsrc as ->. rewrite (Parse_recipe_source 0 _ _ _ Hr) in E.
  apply recipe_source_verbs in Hr as (r & Hrec & Hr). exists r. split; [done|].
  destruct (parse_stages src) as [p|]; [|done]. cbn in E. injection E as <-. by apply Hr.
Qed.

(** [Parse] terminates: two levels of recipe nesting are enough for every
    input, more levels change nothing, and the bound is never the answer. *)
Theorem parse_depth_sufficient (n : nat) (input : gostring) :
  Parse_depth (2 + n) input = Parse input /\ Parse input <> Err RecursionLimit.
Proof.
  unfold Parse. change (2 + n) with (Datatypes.S (Datatypes.S n)). rewrite !Parse_depth_S.
  destruct (parse_stages input) as [p|i]; [|done]. cbn [map_err mbind result_bind].
  destruct (expandRecipes_depth n p) as [-> _].
  destruct (expandRecipes_depth 0 p) as [_ Hne]. split; [done|].
  destruct (expandRecipes (Parse_depth 1) p) as [|[]]; done.
Qed.

(** An accepted pipeline has between one and eight stages, all valid and
    none of them a recipe, a budget in 1..12000, a byte limit of at least
    1024 and only known output fields. *)
Theorem parse_well_formed (input : gostring) (p : Pipeline) :
  Parse input = Ok p -> wf_pipeline p.
Proof.
  unfold Parse. rewrite Parse_depth_S. intros E. bind_inv E as q Hq.
  destruct (parse_stages input) as [q'|] eqn:Hs; [|done]. injection Hq as ->.
  destruct (expandRecipes _ q) as [p'|] eqn:He; [|done]. injection E as ->.
  apply parse_stages_spec in Hs as (parts & _ & Hlen & Hst & (Hb & Hm & Hf)%check_bounds_ok).
  apply stage_of_parts in Hst.
  apply expandRecipes_wf in He as (Hlen' & Hall & Eb & Em & Ef).
  - apply Forall_and in Hall as [? ?]. rewrite <- Eb, <- Em, <- Ef in *. by constructor.
  - clear -Hst. induction Hst as [|? ? ? ? [_ ?]]; constructor; done.
  - apply Forall2_length in Hst. lia.
Qed.

(** Every part that [splitPipeline] returns is the substring of the input
    at the offset recorded with it, so the positions in syntax errors point
    at the text they are about. *)
Theorem splitPipeline_located (s : gostring) (parts : list pipelinePart) :
  splitPipeline s = Ok parts -> Forall (located s) parts.
Proof.
  unfold splitPipeline. case_match; [done|]. intros [= <-].
  rewrite <- (take_ge (drop _ s) (length s)) by (rewrite length_drop; lia).
  apply appendPart_located, split_fold_located. constructor.
Qed.

(** A token with an [=] after its first character is never an argument,
    quoted or not: a stage that needs an argument and is given only such a
    token is rejected, as in [where kind=function] and [text "a=b"]. *)
Theorem assignment_never_argument (p : Pipeline) (i k : nat) (part : pipelinePart)
    (verb tok : pipelineToken) :
  tokenize (part_text part) (part_start part) = Ok [verb; tok] ->
  toLower (tok_text verb) ∈ ["sym"; "text"; "where"; "sort"; "fields"; "id"; "edges"] ->
  indexByte (tok_text tok) "=" = Some (S k) ->
  is_ok (parse_part p (i, part)) = false.
Proof.
  intros Htok Hverb Heq. unfold parse_part. rewrite Htok. cbn [map_err mbind result_bind].
  assert (Hacc : forall acc, mfold parse_token
      (mkAcc p (mkStage (toLower (tok_text verb)) [] ∅ ∅) []) [tok] = Ok acc ->
      Verb (ac_stage acc) = toLower (tok_text verb) /\ Args (ac_stage acc) = []).
  { intros acc. cbn [mfold parse_token]. rewrite Heq. unfold set_option.
    intros E. bind_inv E as acc' Hacc. injection E as <-.
    repeat match type of Hacc with
           | context [if ?b then _ else _] => destruct b
           | context [atoi ?x] => destruct (atoi x); cbn in Hacc
           end;
      try discriminate Hacc; injection Hacc as <-; done. }
  destruct (mfold _ _ _) as [acc|]; [|done]. cbn [mbind result_bind].
  destruct (Hacc acc eq_refl) as [Hv Ha].
  assert (validateStage (normalize_read (normalize_edges (ac_stage acc))) <> Ok tt) as Hbad.
  { apply validateStage_no_args; [|by rewrite normalize_verb, Hv].
    unfold normalize_read, normalize_edges. rewrite Ha. by repeat case_match. }
  destruct (validateStage _) as [[]|]; done.
Qed.
End properties.

(** * Witnesses *)
#[local] Existing Instance latin_tables.

Lemma tokenize_quoteArg_witness :
  validString ("a|b" ++ [QUOTE; BSLASH] ++ "±") = true /\
  tokenize (quoteArg ("a|b" ++ [QUOTE; BSLASH] ++ "±")) 7 =
    Ok [mkToken ("a|b" ++ [QUOTE; BSLASH] ++ "±") 7].
Proof. split; [reflexivity|]. apply tokenize_quoteArg. reflexivity. Defined.

Lemma recipe_verbs_fixed_witness :
  exists stages, ExpandRecipe (Parse_depth 1) "@trace" ["x | @impact"] = Ok stages /\
  exists r, recipes !! trimPrefix "@trace" "@" = Some r /\ map Verb stages = recipe_verbs r.
Proof.
  eexists. split; [vm_compute; reflexivity|].
  apply (recipe_verbs_fixed 0 "@trace" ["x | @impact"]). vm_compute. reflexivity.
Defined.

Lemma parse_well_formed_witness :
  exists p, Parse "sym App | edges callers depth=2 | read budget=9" = Ok p /\ wf_pipeline p.
Proof.
  eexists. split; [vm_compute; reflexivity|].
  apply (parse_well_formed "sym App | edges callers depth=2 | read budget=9").
  vm_compute. reflexivity.
Defined.

Lemma splitPipeline_located_witness :
  exists parts, splitPipeline " sym a |  read" = Ok parts /\ Forall (located " sym a |  read") parts.
Proof.
  eexists. split; [vm_compute; reflexivity|]. apply splitPipeline_located.
  vm_compute. reflexivity.
Defined.

Lemma assignment_never_argument_witness :
  is_ok (parse_part (mkPipeline [] 2000 262144 [] [] false false []) (1, mkPart "where kind=function" 8)) = false.
Proof.
  apply (assignment_never_argument _ 1 3 (mkPart "where kind=function" 8)
           (mkToken "where" 8) (mkToken "kind=function" 14)).
  - vm_compute. reflexivity.
  - vm_compute. repeat constructor.
  - reflexivity.
Defined.
