(* ===== verification/ResultCache.v ===== *)
(** The daemon's result cache (internal/daemon/result_cache.go), an LRU cache
    with expiry, and the byte limits of internal/daemon/memory_policy.go.

    The mutex makes every method atomic, so a run is a sequence of [cache_op]s;
    the clock reading and the environment of each call are its arguments. *)
From S2P Require Import Prelude GoStrings GoStringFacts GoNum.

Local Open Scope go_scope.

(** * Definitions *)
Definition resultCacheTTL : Z := (10 * 60 * 10 ^ 9)%Z.
Definition resultCacheMaxSize : nat := 256.

Record resultCacheEntry := mkEntry { envelope : list ascii; expiresAt : Z }.
Record resultCache := mkCache {
  entries : gmap gostring resultCacheEntry;
  lru : list gostring;
  hits : Z;
  misses : Z;
}.
Definition newResultCache : resultCache := mkCache ∅ [] 0 0.

Definition isCacheableOp (op : gostring) : bool :=
  bool_decide (op ∈ ["nav.ask"; "nav.search"; "nav.pack"; "nav.governance"; "nav.route";
    "nav.prepare"; "nav.graph.rank"; "nav.graph.stats"; "nav.graph.status"; "nav.neighbors";
    "nav.callers"; "nav.callees"; "nav.path"; "nav.explain"; "nav.flow-slice"]).

(** The bytes that are hashed, and the key built from them. *)
Definition NUL : ascii := "000"%char.
Definition resultCachePreimage (workspaceRoot generation op argsJSON : gostring) : gostring :=
  workspaceRoot ++ [NUL] ++ generation ++ [NUL] ++ op ++ [NUL] ++ argsJSON.
Definition resultCacheKey (sha256 : list ascii -> list ascii)
    (workspaceRoot generation op argsJSON : gostring) : gostring :=
  hexEncode (sha256 (resultCachePreimage workspaceRoot generation op argsJSON)).

(** [for i, k := range rc.lru { if k == key { ...; break } }]. *)
Fixpoint removeFirst (key : gostring) (l : list gostring) : list gostring :=
  match l with
  | [] => []
  | k :: l => if decide (k = key) then l else k :: removeFirst key l
  end.

Definition get (now : Z) (key : gostring) (rc : resultCache) : resultCache * option (list ascii) :=
  match entries rc !! key with
  | None => (mkCache (entries rc) (lru rc) (hits rc) (wrap64 (misses rc + 1)), None)
  | Some entry =>
      if (expiresAt entry <? now)%Z then
        (mkCache (delete key (entries rc)) (removeFirst key (lru rc)) (hits rc)
           (wrap64 (misses rc + 1)), None)
      else
        (mkCache (entries rc) (removeFirst key (lru rc) ++ [key]) (wrap64 (hits rc + 1))
           (misses rc), Some (envelope entry))
  end.

(** [disabled]: [MI_LSP_DAEMON_RESULT_CACHE] is ["0"]. *)
Definition set (disabled : bool) (now : Z) (key : gostring) (env : list ascii) (ttl : Z)
    (rc : resultCache) : resultCache :=
  if disabled then rc else
  let entry := mkEntry env (now + ttl)%Z in
  match entries rc !! key with
  | Some _ =>
      mkCache (<[key := entry]> (entries rc)) (removeFirst key (lru rc) ++ [key])
        (hits rc) (misses rc)
  | None =>
      let '(es, order) :=
        if resultCacheMaxSize <=? length (lru rc) then
          match lru rc with
          | victim :: rest => (delete victim (entries rc), rest)
          | [] => (entries rc, [])
          end
        else (entries rc, lru rc) in
      mkCache (<[key := entry]> es) (order ++ [key]) (hits rc) (misses rc)
  end.

Definition stats (rc : resultCache) : Z * Z * Z :=
  (hits rc, misses rc, Z.of_nat (size (entries rc))).

(** One call by any goroutine. *)
Inductive cache_op :=
| OpGet (now : Z) (key : gostring)
| OpSet (disabled : bool) (now : Z) (key : gostring) (env : list ascii) (ttl : Z).
Definition op_key (o : cache_op) : gostring :=
  match o with OpGet _ k => k | OpSet _ _ k _ _ => k end.
Definition run_op (rc : resultCache) (o : cache_op) : resultCache :=
  match o with
  | OpGet now k => fst (get now k rc)
  | OpSet disabled now k env ttl => set disabled now k env ttl rc
  end.
Definition run_ops (rc : resultCache) (os : list cache_op) : resultCache := fold_left run_op os rc.

(** ** The abstract cache

    The specification: an association list from the least to the most recently
    used key that keeps its newest [resultCacheMaxSize] elements. *)
Abbreviation acache := (list (gostring * resultCacheEntry)).
Definition without (key : gostring) (a : acache) : acache :=
  filter (fun ke => ke.1 <> key) a.
Definition lookup_key (key : gostring) (a : acache) : option resultCacheEntry :=
  list_to_map (M := gmap gostring resultCacheEntry) a !! key.
Definition spec_get (now : Z) (key : gostring) (a : acache) : acache * option (list ascii) :=
  match lookup_key key a with
  | None => (a, None)
  | Some entry =>
      if (expiresAt entry <? now)%Z then (without key a, None)
      else (without key a ++ [(key, entry)], Some (envelope entry))
  end.
Definition newest (n : nat) (a : acache) : acache := drop (length a - n) a.
Definition spec_set (now : Z) (key : gostring) (env : list ascii) (ttl : Z) (a : acache) : acache :=
  newest resultCacheMaxSize (without key a ++ [(key, mkEntry env (now + ttl))]).

(** The implementation represents the abstract cache. *)
Record represents (rc : resultCache) (a : acache) : Prop := {
  rep_entries : entries rc = list_to_map a;
  rep_lru : lru rc = a.*1;
  rep_nodup : NoDup a.*1;
  rep_size : length a <= resultCacheMaxSize;
}.

Definition spec_op (a : acache) (o : cache_op) : acache :=
  match o with
  | OpGet now k => fst (spec_get now k a)
  | OpSet disabled now k env ttl => if disabled then a else spec_set now k env ttl a
  end.

(** [o] neither replaces the entry of [key] nor looks it up after [deadline]. *)
Definition keeps (key : gostring) (deadline : Z) (o : cache_op) : Prop :=
  match o with
  | OpGet now k => k = key -> (now <= deadline)%Z
  | OpSet disabled _ k _ _ => k = key -> disabled = true
  end.
Definition other_keys (key : gostring) (os : list cache_op) : gset gostring :=
  list_to_set (map op_key os) ∖ {[key]}.

(** ** Memory limits *)
Section memory.
Context `{UnicodeTables}.

Definition parseByteLimit (raw : gostring) (fallback : Z) : Z :=
  let raw := trimSpace (toLower raw) in
  match raw with
  | [] => fallback
  | _ =>
      let '(raw, mult) :=
        if hasSuffix raw "mib" || hasSuffix raw "mb" || hasSuffix raw "m"
        then (trimSuffix (trimRightSet raw "mib") "m", (2 ^ 20)%Z)
        else if hasSuffix raw "kib" || hasSuffix raw "kb" || hasSuffix raw "k"
        then (trimSuffix (trimRightSet raw "kib") "k", (2 ^ 10)%Z)
        else (raw, 1%Z) in
      match atoi (trimSpace raw) with
      | Some value => if (value <=? 0)%Z then fallback else wrap64 (value * mult)
      | None => fallback
      end
  end.

(** The limit handed to the runtime and the collector percentage, when set. *)
Definition ApplyDaemonMemoryPolicy (gomemlimit gogc : gostring) : Z * option Z :=
  let limit := parseByteLimit gomemlimit (96 * 2 ^ 20) in
  let percent :=
    match trimSpace gogc with
    | [] => None
    | raw => match atoi raw with
             | Some p => if (0 <? p)%Z then Some p else None
             | None => None
             end
    end in
  (limit, percent).
End memory.

(** * Lemmas *)
Lemma removeFirst_filter key l :
  NoDup l -> removeFirst key l = filter (fun k => k <> key) l.
Proof.
  induction 1 as [|k l Hk _ IH]; [done|]. cbn [removeFirst]. rewrite filter_cons.
  destruct (decide (k = key)) as [->|]; case_decide; try done; [|by rewrite IH].
  symmetry. apply filter_all. intros x Hx ->. done.
Qed.

Lemma without_fst key a : (without key a).*1 = filter (fun k => k <> key) a.*1.
Proof. exact (filter_map_comp fst (fun k : gostring => k <> key) a). Qed.

Lemma without_NoDup key a : NoDup a.*1 -> NoDup (without key a).*1.
Proof. rewrite without_fst. apply NoDup_filter. Qed.

Lemma without_app key a b : without key (a ++ b) = without key a ++ without key b.
Proof. apply filter_app. Qed.

Lemma without_absent key (a : acache) : key ∉ a.*1 -> without key a = a.
Proof.
  intros Hk. apply filter_all. intros [k e] Hin [= ->].
  apply Hk. apply list_elem_of_fmap. by exists (key, e).
Qed.

Lemma without_notin key (a : acache) : key ∉ (without key a).*1.
Proof. rewrite without_fst, list_elem_of_filter. naive_solver. Qed.

Lemma without_lookup key (a : acache) k :
  lookup_key k (without key a) = if decide (k = key) then None else lookup_key k a.
Proof.
  unfold lookup_key, without. induction a as [|[k' e] a IH]; [by case_decide|].
  rewrite filter_cons, list_to_map_cons. cbn [fst].
  destruct (decide (k' = key)) as [->|Hk'].
  - rewrite decide_False by tauto. rewrite IH. case_decide; [done|]. by rewrite lookup_insert_ne.
  - rewrite decide_True by done. rewrite list_to_map_cons. destruct (decide (k' = k)) as [->|Hne].
    + rewrite !lookup_insert_eq. by rewrite decide_False.
    + by rewrite !lookup_insert_ne, IH.
Qed.

Lemma lookup_key_delete key (a : acache) :
  delete key (list_to_map (M := gmap _ _) a) = list_to_map (without key a).
Proof.
  apply map_eq. intros k. pose proof (without_lookup key a k) as Hl. unfold lookup_key in Hl.
  rewrite Hl. destruct (decide (k = key)) as [->|]; [apply lookup_delete_eq | by rewrite lookup_delete_ne].
Qed.

(** Moving an element to the back of the list is inserting its new value. *)
Lemma list_to_map_touch key e (a : acache) :
  list_to_map (M := gmap _ _) (without key a ++ [(key, e)]) = <[key := e]> (list_to_map a).
Proof.
  rewrite list_to_map_snoc by apply without_notin.
  rewrite <- lookup_key_delete. apply insert_delete_eq.
Qed.
Lemma length_without key a : key ∈ a.*1 -> length (without key a) < length a.
Proof.
  intros ([k e] & -> & Hin)%list_elem_of_fmap. apply length_filter_lt with (k, e); naive_solver.
Qed.
Lemma length_without_le key a : length (without key a) <= length a.
Proof. apply length_filter. Qed.

Lemma lookup_key_Some key a : is_Some (lookup_key key a) <-> key ∈ a.*1.
Proof.
  unfold lookup_key. rewrite <- not_eq_None_Some, <- not_elem_of_list_to_map.
  split; [apply dec_stable | tauto].
Qed.

Lemma touch_represents key e (a : acache) :
  NoDup a.*1 -> key ∈ a.*1 \/ length a < resultCacheMaxSize -> length a <= resultCacheMaxSize ->
  NoDup (without key a ++ [(key, e)]).*1 /\ length (without key a ++ [(key, e)]) <= resultCacheMaxSize.
Proof.
  intros Hnd Hin Hlen. rewrite fmap_app, length_app. split.
  - apply NoDup_app. split_and!; [by apply without_NoDup | | apply NoDup_singleton].
    cbn. intros k Hk. rewrite list_elem_of_singleton. intros ->. by apply without_notin in Hk.
  - cbn [length]. destruct Hin as [Hin|?].
    + pose proof (length_without key a Hin). lia.
    + pose proof (length_without_le key a). lia.
Qed.

Lemma trim_touched (a : acache) n : length a <= n -> newest n a = a.
Proof. intros. unfold newest. by replace (length a - n) with 0 by lia. Qed.

Lemma represents_empty : represents newResultCache [].
Proof. constructor; try done. constructor. cbn. lia. Qed.

Lemma get_represents now key rc a :
  represents rc a ->
  represents (fst (get now key rc)) (fst (spec_get now key a)) /\
  snd (get now key rc) = snd (spec_get now key a).
Proof.
  intros [He Hl Hnd Hsz]. unfold get, spec_get.
  change (lookup_key key a) with (list_to_map (M := gmap gostring resultCacheEntry) a !! key).
  rewrite He. destruct (list_to_map a !! key) as [e|] eqn:Hk; [|by split].
  assert (key ∈ a.*1) as Hin by (apply lookup_key_Some; by exists e).
  case_match; cbn [fst snd]; (split; [|done]).
  - constructor; cbn [entries lru].
    + by apply lookup_key_delete.
    + by rewrite Hl, removeFirst_filter, without_fst.
    + by apply without_NoDup.
    + pose proof (length_without_le key a). lia.
  - destruct (touch_represents key e a) as [? ?]; [done | by left | done |].
    constructor; cbn [entries lru]; try done.
    + rewrite list_to_map_touch, insert_id; done.
    + rewrite Hl, removeFirst_filter, fmap_app, without_fst by done. done.
Qed.

Lemma newest_evict (victim : gostring * resultCacheEntry) rest x :
  length (victim :: rest) = resultCacheMaxSize ->
  newest resultCacheMaxSize ((victim :: rest) ++ [x]) = rest ++ [x].
Proof.
  intros Hlen. unfold newest. rewrite length_app, Hlen. cbn [length].
  replace (resultCacheMaxSize + 1 - resultCacheMaxSize) with 1 by lia. done.
Qed.

Lemma set_represents now key env ttl rc a :
  represents rc a -> represents (set false now key env ttl rc) (spec_set now key env ttl a).
Proof.
  intros [He Hl Hnd Hsz]. unfold set, spec_set. set (e := mkEntry env (now + ttl)).
  rewrite He. destruct (list_to_map a !! key) as [e0|] eqn:Hk.
  - assert (key ∈ a.*1) as Hin by (apply lookup_key_Some; by exists e0).
    destruct (touch_represents key e a) as [? ?]; [done | by left | done |].
    rewrite trim_touched by done. constructor; cbn [entries lru]; try done.
    + by rewrite list_to_map_touch.
    + rewrite Hl, removeFirst_filter, fmap_app, without_fst by done. done.
  - assert (key ∉ a.*1) as Hnin by (by apply not_elem_of_list_to_map).
    rewrite without_absent by done. rewrite Hl, length_fmap.
    destruct (resultCacheMaxSize <=? length a) eqn:Hfull; bool_to_prop.
    + destruct a as [|[vk ve] rest]; [unfold resultCacheMaxSize in Hfull; cbn in Hfull; lia|].
      cbn [fmap list_fmap fst] in *. apply NoDup_cons in Hnd as [Hv Hnd].
      apply not_elem_of_cons in Hnin as [Hne Hnin].
      rewrite newest_evict by lia. constructor; cbn [entries lru].
      * rewrite list_to_map_snoc by done. rewrite list_to_map_cons. f_equal.
        apply delete_insert_id. by apply not_elem_of_list_to_map.
      * by rewrite fmap_app.
      * rewrite fmap_app. apply NoDup_app. split_and!; [done | | apply NoDup_singleton].
        intros k Hkin. cbn. rewrite list_elem_of_singleton. by intros ->.
      * rewrite length_app. cbn in *. lia.
    + destruct (touch_represents key e a) as [Hnd' Hsz']; [done | by right | lia |].
      rewrite without_absent in Hnd', Hsz' by done. rewrite trim_touched by done.
      constructor; cbn [entries lru]; try done.
      * by rewrite list_to_map_snoc.
      * by rewrite fmap_app.
Qed.

Lemma op_represents rc a o : represents rc a -> represents (run_op rc o) (spec_op a o).
Proof.
  intros H. destruct o as [now k|[] now k env ttl]; cbn [run_op spec_op].
  - by apply get_represents.
  - done.
  - by apply set_represents.
Qed.
Lemma ops_represents os rc a :
  represents rc a -> represents (run_ops rc os) (fold_left spec_op os a).
Proof.
  revert rc a; induction os as [|o os IH]; intros rc a H; [done|].
  cbn. by apply IH, op_represents.
Qed.

(** ** Retention: only [ks] have been used since [key] was last written *)
Section retention.
Context (key : gostring) (entry : resultCacheEntry) (ks : gset gostring).
Context (Hfew : size ks < resultCacheMaxSize).

Definition retained (a : acache) : Prop :=
  NoDup a.*1 /\ exists pre post, a = pre ++ (key, entry) :: post /\ Forall (fun k => k ∈ ks) post.*1.

Lemma retained_lookup a : retained a -> lookup_key key a = Some entry.
Proof.
  intros (Hnd & pre & post & -> & _). unfold lookup_key.
  apply elem_of_list_to_map_1; [done|]. apply elem_of_app. right. left.
Qed.
Lemma without_retained k a : k <> key -> retained a -> retained (without k a).
Proof.
  intros Hk (Hnd & pre & post & -> & Hpost). split; [by apply without_NoDup|].
  exists (without k pre), (without k post). split.
  - rewrite without_app. f_equal. unfold without at 1. by rewrite filter_cons_True by naive_solver.
  - rewrite without_fst. apply Forall_forall. intros x [_ Hx]%list_elem_of_filter.
    rewrite Forall_forall in Hpost. auto.
Qed.
Lemma push_retained k e a :
  k ∈ ks -> retained a -> k ∉ a.*1 -> retained (a ++ [(k, e)]).
Proof.
  intros Hk (Hnd & pre & post & -> & Hpost) Hnin. split.
  - rewrite fmap_app. apply NoDup_app. split_and!; [done | | apply NoDup_singleton].
    intros x Hx. cbn. rewrite list_elem_of_singleton. by intros ->.
  - exists pre, (post ++ [(k, e)]). rewrite <- app_assoc. split; [done|].
    rewrite fmap_app. apply Forall_app. split; [done|]. by apply Forall_singleton.
Qed.
Lemma newest_retained a : retained a -> retained (newest resultCacheMaxSize a).
Proof.
  intros (Hnd & pre & post & -> & Hpost). unfold newest.
  set (n := length (pre ++ (key, entry) :: post) - resultCacheMaxSize).
  assert (n <= length pre) as Hn.
  { assert (length post <= size ks).
    { rewrite fmap_app, fmap_cons in Hnd. apply NoDup_app in Hnd as (_ & _ & [_ Hnd]%NoDup_cons).
      trans (size (list_to_set post.*1 : gset gostring)).
      - rewrite size_list_to_set by done. by rewrite length_fmap.
      - apply subseteq_size. intros x Hx%elem_of_list_to_set. rewrite Forall_forall in Hpost. auto. }
    unfold n. rewrite length_app. cbn [length]. lia. }
  split; [rewrite fmap_drop; by eapply sublist_NoDup, sublist_drop|].
  exists (drop n pre), post. by rewrite drop_app_le.
Qed.

Lemma spec_op_retained a o :
  retained a -> op_key o = key \/ op_key o ∈ ks -> keeps key (expiresAt entry) o -> retained (spec_op a o).
Proof.
  intros Ha Hin Hkeep. destruct o as [now k|[] now k env ttl]; cbn [spec_op op_key keeps] in *; try done.
  - unfold spec_get. destruct (decide (k = key)) as [->|Hne].
    + rewrite retained_lookup by done. specialize (Hkeep eq_refl). decide_cmp. cbn [fst].
      destruct Ha as (Hnd & pre & post & -> & Hpost). split.
      * rewrite fmap_app. apply NoDup_app. split_and!; [by apply without_NoDup | | apply NoDup_singleton].
        intros x Hx. cbn. rewrite list_elem_of_singleton. intros ->. by apply without_notin in Hx.
      * by exists (without key (pre ++ (key, entry) :: post)), [].
    + destruct Hin as [?|Hin]; [done|]. repeat case_match; cbn [fst]; [..|done].
      * by apply without_retained.
      * apply push_retained; [done | by apply without_retained | apply without_notin].
  - destruct (decide (k = key)) as [->|Hne]; [by specialize (Hkeep eq_refl)|].
    destruct Hin as [?|Hin]; [done|]. unfold spec_set.
    apply newest_retained, push_retained; [done | by apply without_retained | apply without_notin].
Qed.
Lemma spec_ops_retained os a :
  retained a -> Forall (fun o => op_key o = key \/ op_key o ∈ ks) os ->
  Forall (keeps key (expiresAt entry)) os -> retained (fold_left spec_op os a).
Proof.
  revert a; induction os as [|o os IH]; intros a Ha; [done|].
  rewrite !Forall_cons. intros [? ?] [? ?]. cbn. apply IH; [by apply spec_op_retained | done..].
Qed.
End retention.

Lemma spec_set_retained now key env ttl a ks :
  NoDup a.*1 -> length a <= resultCacheMaxSize ->
  retained key (mkEntry env (now + ttl)) ks (spec_set now key env ttl a).
Proof.
  intros Hnd Hlen. unfold spec_set, newest. set (x := (key, mkEntry env (now + ttl))).
  assert (length (without key a ++ [x]) - resultCacheMaxSize <= length (without key a)) as Hn.
  { rewrite length_app. cbn [length]. unfold resultCacheMaxSize. lia. }
  split.
  - rewrite fmap_drop. eapply sublist_NoDup; [|apply sublist_drop].
    rewrite fmap_app. apply NoDup_app. split_and!; [by apply without_NoDup | | apply NoDup_singleton].
    intros k Hk. cbn. rewrite list_elem_of_singleton. intros ->. by apply without_notin in Hk.
  - exists (drop (length (without key a ++ [x]) - resultCacheMaxSize) (without key a)), [].
    by rewrite drop_app_le.
Qed.

(** ** Byte limits *)
Definition byteUnits : list (gostring * Z) :=
  [("mib", (2 ^ 20)%Z); ("mb", (2 ^ 20)%Z); ("m", (2 ^ 20)%Z);
   ("kib", (2 ^ 10)%Z); ("kb", (2 ^ 10)%Z); ("k", (2 ^ 10)%Z); ([], 1%Z)].

Lemma digits_rev n : (0 <= n)%Z -> exists c t, rev (digits n) = c :: t /\ isDigitByte c = true.
Proof.
  intros Hn. destruct (digits_spec n Hn) as (Hne & Hd & _).
  destruct (rev (digits n)) as [|c t] eqn:E.
  - by rewrite <- (rev_involutive (digits n)), E in Hne.
  - exists c, t. split; [done|]. rewrite forallb_forall in Hd. apply Hd.
    rewrite in_rev, E. by left.
Qed.
Lemma digit_notin_letters c :
  isDigitByte c = true ->
  Ascii.eqb c "m" = false /\ Ascii.eqb c "i" = false /\ Ascii.eqb c "b" = false /\ Ascii.eqb c "k" = false.
Proof.
  unfold isDigitByte, byte_in_range. rewrite !ascii_eqb_bz.
  change (bz "0") with 48%Z; change (bz "9") with 57%Z. change (bz "m") with 109%Z.
  change (bz "i") with 105%Z; change (bz "b") with 98%Z; change (bz "k") with 107%Z.
  intros. bool_to_prop. repeat split; apply Z.eqb_neq; lia.
Qed.
Lemma digit_solid c : isDigitByte c = true -> ((bz c <? 128) && negb (isSpaceRune (bz c)))%Z = true /\ lowerByte c = c.
Proof.
  unfold isDigitByte, byte_in_range, isSpaceRune, lowerByte, isUpperByte, byte_in_range.
  change (bz "0") with 48%Z; change (bz "9") with 57%Z.
  change (bz "A") with 65%Z; change (bz "Z") with 90%Z.
  intros. bool_to_prop. by decide_cmp.
Qed.
Lemma digits_solid n : (0 <= n)%Z -> starts_solid (digits n) = true /\ ends_solid (digits n) = true.
Proof.
  intros Hn. destruct (digits_head n Hn) as (c & t & E & Hc), (digits_rev n Hn) as (d & u & E' & Hd).
  unfold ends_solid, starts_solid. rewrite E, <- E, E'. split; by apply digit_solid.
Qed.
Lemma trimLeftSet_stop c t set : memByte c set = false -> trimLeftSet (c :: t) set = c :: t.
Proof. cbn [trimLeftSet]. by intros ->. Qed.

Lemma trimRightSet_app s u set d r :
  rev s = d :: r -> memByte d set = false -> forallb (fun c => memByte c set) u = true ->
  trimRightSet (s ++ u) set = s.
Proof.
  intros Hs Hd Hu. unfold trimRightSet. rewrite rev_app_distr, Hs.
  assert (Hrev : forallb (fun c => memByte c set) (rev u) = true).
  { apply forallb_forall. intros c Hc%in_rev. rewrite forallb_forall in Hu. auto. }
  assert (trimLeftSet (rev u ++ d :: r) set = d :: r) as ->.
  { induction (rev u) as [|c v IH]; cbn [app]; [by apply trimLeftSet_stop|].
    cbn in Hrev. apply andb_true_iff in Hrev as [Hc ?]. cbn [trimLeftSet]. rewrite Hc. auto. }
  by rewrite <- Hs, rev_involutive.
Qed.
Lemma trimSuffix_no s p d r c q : rev s = d :: r -> rev p = c :: q -> Ascii.eqb d c = false -> trimSuffix s p = s.
Proof.
  intros Hs Hp Hdc. unfold trimSuffix, hasSuffix. rewrite Hs, Hp. cbn [hasPrefix].
  replace (Ascii.eqb c d) with false by (symmetry; by rewrite Ascii.eqb_sym). done.
Qed.

Section memory_facts.
Context `{UnicodeTables}.

Lemma lower_digits n u :
  (0 <= n)%Z -> isASCII u = true -> map lowerByte u = u -> toLower (digits n ++ u) = digits n ++ u.
Proof.
  intros Hn Ha Hu. destruct (digits_spec n Hn) as (_ & Hd & _). unfold toLower.
  assert (isASCII (digits n ++ u) = true) as ->.
  { unfold isASCII in *. rewrite forallb_app, Ha, andb_true_r.
    apply forallb_forall. intros c Hc. rewrite forallb_forall in Hd.
    by destruct (digit_solid c (Hd c Hc)) as [[? _]%andb_true_iff _]. }
  rewrite map_app, Hu. f_equal. rewrite <- (map_id (digits n)) at 2. apply map_ext_in.
  intros c Hc. rewrite forallb_forall in Hd. by apply digit_solid, Hd.
Qed.

Lemma parseByteLimit_unit n u mult fallback :
  (0 < n <= MAX_INT64)%Z -> (u, mult) ∈ byteUnits ->
  parseByteLimit (digits n ++ u) fallback = wrap64 (n * mult).
Proof.
  intros Hn Hu. destruct (digits_solid n) as [Hs He]; [lia|].
  destruct (digits_head n) as (c & t & E & Hc), (digits_rev n) as (d & r & E' & Hd); [lia..|].
  destruct (digit_notin_letters d Hd) as (Hm & Hi & Hb & Hk).
  assert (atoi (trimSpace (digits n)) = Some n) as Hatoi.
  { rewrite trimSpace_solid by done. rewrite <- itoa_nonneg by lia.
    apply atoi_itoa. unfold in_int64, MIN_INT64, MAX_INT64 in *. decide_cmp. done. }
  assert (Hback : digits n = rev (d :: r)) by (by rewrite <- E', rev_involutive).
  unfold parseByteLimit. rewrite lower_digits; [|lia|..].
  2,3: repeat (apply elem_of_cons in Hu as [[= -> _]|Hu]; [reflexivity|]); by apply elem_of_nil in Hu.
  rewrite trimSpace_solid; cycle 1.
  { rewrite E in *. done. }
  { unfold ends_solid in *. rewrite rev_app_distr, E'.
    repeat (apply elem_of_cons in Hu as [[= -> _]|Hu]; [try done|]); [|by apply elem_of_nil in Hu].
    cbn [rev app]. by rewrite <- E'. }
  assert (Hcase : forall (x y : Z), match digits n ++ u with [] => x | _ => y end = y) by (by rewrite E).
  rewrite Hcase. clear Hcase.
  assert (memByte d "mib" = false /\ memByte d "kib" = false) as [Hmib Hkib].
  { unfold memByte. cbn [indexByte]. rewrite !(Ascii.eqb_sym _ d). by rewrite ?Hm, ?Hi, ?Hb, ?Hk. }
  assert (Hsuf : forall p, hasSuffix (digits n ++ u) p = hasPrefix (rev u ++ d :: r) (rev p))
    by (intros p; unfold hasSuffix; by rewrite rev_app_distr, E').
  rewrite !Hsuf. clear Hsuf.
  repeat (apply elem_of_cons in Hu as [[= -> ->]|Hu];
    [cbn [rev app hasPrefix Ascii.eqb Bool.eqb andb orb]; rewrite ?Hm, ?Hi, ?Hb, ?Hk;
     cbn [andb orb]; rewrite ?(trimRightSet_app _ _ _ _ _ E' Hmib), ?(trimRightSet_app _ _ _ _ _ E' Hkib),
     ?app_nil_r by reflexivity; rewrite ?(trimSuffix_no _ _ d r "m" []), ?(trimSuffix_no _ _ d r "k" []) by done;
     rewrite Hatoi; by decide_cmp|]).
  apply list_elem_of_singleton in Hu as [= -> ->]. cbn [rev app hasPrefix].
  rewrite !(Ascii.eqb_sym _ d), Hm, Hb. cbn [andb orb]. rewrite Hk. cbn [andb orb].
  rewrite app_nil_r, Hatoi. by decide_cmp.
Qed.
End memory_facts.

(** ** Keys *)
Lemma nul_split (a b x y : gostring) :
  NUL ∉ a -> NUL ∉ b -> a ++ [NUL] ++ x = b ++ [NUL] ++ y -> a = b /\ x = y.
Proof.
  revert b; induction a as [|c a IH]; intros [|d b] Ha Hb; cbn; intros Heq; try discriminate; injection Heq as Heq.
  - done.
  - subst. exfalso. apply Hb. left.
  - subst. exfalso. apply Ha. left.
  - subst. apply not_elem_of_cons in Ha as [_ Ha]; apply not_elem_of_cons in Hb as [_ Hb].
    destruct (IH b Ha Hb) as [-> ->]; done.
Qed.

(** * Properties *)

(** C38: the cache implements the abstract LRU: after any sequence of calls it
    represents the abstract cache after the same calls (so keys are unique, the
    recency list and the map agree and there are never more than 256 entries),
    and every lookup answers what the abstract cache answers. *)
Theorem cache_refines_lru (os : list cache_op) (now : Z) (key : gostring) :
  represents (run_ops newResultCache os) (fold_left spec_op os []) /\
  snd (get now key (run_ops newResultCache os)) = snd (spec_get now key (fold_left spec_op os [])).
Proof.
  assert (H : represents (run_ops newResultCache os) (fold_left spec_op os []))
    by apply ops_represents, represents_empty.
  split; [done|]. by apply get_represents.
Qed.

(** A written entry is retained: as long as it is not overwritten or looked
    up late, and fewer than 256 other keys are used, it is still found at any
    time up to its expiry, whatever the calls in between and before. *)
Theorem cache_retention (before after : list cache_op) (t0 ttl now : Z) (key : gostring)
    (env : list ascii) :
  size (other_keys key after) < resultCacheMaxSize ->
  Forall (keeps key (t0 + ttl)) after -> (now <= t0 + ttl)%Z ->
  snd (get now key (run_ops (set false t0 key env ttl (run_ops newResultCache before)) after)) = Some env.
Proof.
  intros Hfew Hkeep Hnow. set (a0 := fold_left spec_op before []).
  assert (H0 : represents (run_ops newResultCache before) a0)
    by apply ops_represents, represents_empty.
  assert (H1 := ops_represents after _ _ (set_represents t0 key env ttl _ _ H0)).
  destruct (get_represents now key _ _ H1) as [_ ->].
  assert (Hret : retained key (mkEntry env (t0 + ttl)) (other_keys key after)
                   (fold_left spec_op after (spec_set t0 key env ttl a0))).
  { apply spec_ops_retained; [done | | | done].
    - apply spec_set_retained; apply H0.
    - apply Forall_forall. intros o Ho. unfold other_keys.
      destruct (decide (op_key o = key)) as [|Hne]; [by left|right].
      apply elem_of_difference. split; [|by rewrite elem_of_singleton].
      apply elem_of_list_to_set. by apply list_elem_of_fmap_2. }
  unfold spec_get. rewrite (retained_lookup _ _ _ _ Hret). cbn [expiresAt]. by decide_cmp.
Qed.

(** Two requests share a cache key only when they are for the same
    workspace, generation, operation and arguments, or the hash collides. *)
Theorem result_cache_key_injective (sha256 : list ascii -> list ascii)
    (w1 g1 o1 a1 w2 g2 o2 a2 : gostring) :
  Forall (fun s => NUL ∉ s) [w1; g1; o1; w2; g2; o2] ->
  resultCacheKey sha256 w1 g1 o1 a1 = resultCacheKey sha256 w2 g2 o2 a2 ->
  (w1, g1, o1, a1) = (w2, g2, o2, a2) \/
  exists x y, x <> y /\ sha256 x = sha256 y.
Proof.
  intros HF Hk%hexEncode_inj. rewrite !Forall_cons in HF.
  destruct HF as (Hw1 & Hg1 & Ho1 & Hw2 & Hg2 & Ho2 & _).
  destruct (decide (resultCachePreimage w1 g1 o1 a1 = resultCachePreimage w2 g2 o2 a2)) as [E|];
    [left | by right; eauto].
  unfold resultCachePreimage in E.
  apply nul_split in E as [-> E]; [|done..]. apply nul_split in E as [-> E]; [|done..].
  by apply nul_split in E as [-> ->].
Qed.

(** A limit written as a decimal number with a unit is that number of
    bytes in 64-bit arithmetic; the multiplication is not checked, so a limit
    of 2^63 bytes or more wraps around. *)
Theorem byte_limit_value `{UnicodeTables} (n : Z) (u : gostring) (mult fallback : Z) :
  (0 < n <= MAX_INT64)%Z -> (u, mult) ∈ byteUnits ->
  parseByteLimit (itoa n ++ u) fallback = wrap64 (n * mult).
Proof. intros Hn Hu. rewrite itoa_nonneg by lia. by apply parseByteLimit_unit. Qed.

(** * Witnesses *)
Lemma cache_retention_witness :
  let after := [OpSet false 1 "b" "2" 5; OpGet 3 "a"; OpGet 4 "b"; OpSet true 4 "a" "9" 5] in
  size (other_keys "a" after) < resultCacheMaxSize /\
  snd (get 9 "a" (run_ops (set false 0 "a" "1" 10 (run_ops newResultCache [])) after)) = Some ("1" : gostring).
Proof.
  split; [vm_compute; lia|]. apply cache_retention.
  - vm_compute. lia.
  - repeat constructor; cbn; intros; try lia; discriminate.
  - lia.
Defined.

Lemma result_cache_key_injective_witness :
  resultCacheKey (fun m => m) "/w" "1" "nav.ask" "{}" = resultCacheKey (fun m => m) "/w" "1" "nav.ask" "{}" /\
  (("/w", "1", "nav.ask", "{}") = (("/w", "1", "nav.ask", "{}") : gostring * gostring * gostring * gostring) \/
   exists x y : list ascii, x <> y /\ x = y).
Proof.
  split; [reflexivity|].
  apply (result_cache_key_injective (fun m => m) "/w" "1" "nav.ask" "{}" "/w" "1" "nav.ask" "{}").
  - rewrite !Forall_cons. repeat split; try (apply (bool_decide_unpack _); vm_compute; exact I); constructor.
  - reflexivity.
Defined.

Lemma byte_limit_value_witness :
  @parseByteLimit latin_tables (itoa 8796093022208 ++ "mib") 5 = MIN_INT64 /\
  @parseByteLimit latin_tables (itoa 96 ++ "mib") 5 = 100663296%Z.
Proof.
  split; rewrite (@byte_limit_value latin_tables _ "mib" (2 ^ 20)%Z);
    try reflexivity; try (vm_compute; split; congruence); repeat constructor.
Defined.
