(* ===== verification/Versions.v ===== *)
(** Version comparison: internal/selfupdate/version.go, and the restart
    policies of internal/daemon/update_controller.go and update.go that compare
    versions on their own.

    [compareVersions] is related to an abstract precedence key, the one of the
    Semantic Versioning specification. *)
From S2P Require Import Prelude GoStrings GoStringFacts GoSort GoNum.

Local Open Scope go_scope.

(** * Definitions *)

(** ** The pattern [semverPattern] *)
Fixpoint span (P : ascii -> bool) (s : gostring) : gostring * gostring :=
  match s with
  | c :: t => if P c then let '(a, r) := span P t in (c :: a, r) else ([], s)
  | [] => ([], [])
  end.
Definition isIdentByte (c : ascii) : bool :=
  isDigitByte c || isUpperByte c || isLowerByte c || Ascii.eqb c "-".
(** [0|[1-9][0-9]*] on a run of digits. *)
Definition canonical (d : gostring) : bool :=
  match d with [] => false | [_] => true | c :: _ => negb (Ascii.eqb c "0") end.
Definition version_number (s : gostring) : option (gostring * gostring) :=
  let '(d, r) := span isDigitByte s in if canonical d then Some (d, r) else None.
Definition expect (c : ascii) (s : gostring) : option gostring :=
  match s with d :: s => if Ascii.eqb d c then Some s else None | [] => None end.
(** [[0-9A-Za-z-]+(\.[0-9A-Za-z-]+)*]. *)
Definition identifiers (s : gostring) : bool :=
  forallb (fun p => match p with [] => false | _ => forallb isIdentByte p end) (splitByte s ".").
Definition prerelease (s : gostring) : option (gostring * gostring) :=
  match s with
  | c :: t =>
      if Ascii.eqb c "-" then
        let '(p, r) := span (fun c => isIdentByte c || Ascii.eqb c ".") t in
        if identifiers p then Some (p, r) else None
      else Some ([], s)
  | [] => Some ([], s)
  end.
Definition buildMetadata (s : gostring) : bool :=
  match s with [] => true | c :: t => Ascii.eqb c "+" && identifiers t end.

(** The submatches 1, 2, 3 and 5. *)
Record semver := mkSemver { sv_major : gostring; sv_minor : gostring; sv_patch : gostring; sv_pre : gostring }.
Definition FindStringSubmatch (s : gostring) : option semver :=
  '(major, s) ← version_number (trimPrefix s "v"); s ← expect "." s;
  '(minor, s) ← version_number s; s ← expect "." s;
  '(patch, s) ← version_number s;
  '(pre, s) ← prerelease s;
  if buildMetadata s then Some (mkSemver major minor patch pre) else None.

Definition numeric (s : gostring) : bool :=
  match s with [] => false | _ => forallb isDigitByte s end.
Definition compareNumber (a b : gostring) : Z :=
  if length a <? length b then (-1)%Z
  else if length b <? length a then 1%Z else cmpZ (compareString a b).

Definition leadingZero (p : gostring) : bool :=
  numeric p && (1 <? length p) && match p with c :: _ => Ascii.eqb c "0" | [] => false end.
Definition validPre (pre : gostring) : bool :=
  match pre with [] => true | _ => negb (existsb leadingZero (splitByte pre ".")) end.
(** The loop over the common positions, then the comparison of the lengths. *)
Fixpoint compareIdentifiers (p q : list gostring) : Z :=
  match p, q with
  | a :: p, b :: q =>
      if decide (a = b) then compareIdentifiers p q
      else if numeric a && numeric b then compareNumber a b
      else if numeric a then (-1)%Z
      else if numeric b then 1%Z
      else cmpZ (compareString a b)
  | _, _ => if length p <? length q then (-1)%Z else 1%Z
  end.
Definition comparePre (x y : gostring) : Z :=
  if decide (x = y) then 0%Z
  else match x, y with
       | [], _ => 1%Z
       | _, [] => (-1)%Z
       | _, _ => compareIdentifiers (splitByte x ".") (splitByte y ".")
       end.
Definition first_nonzero (ns : list Z) (d : Z) : Z :=
  foldr (fun n r => if (n =? 0)%Z then r else n) d ns.
Definition compareVersions (a b : gostring) : result unit Z :=
  match FindStringSubmatch a, FindStringSubmatch b with
  | Some x, Some y =>
      if validPre (sv_pre x) && validPre (sv_pre y) then
        Ok (first_nonzero [compareNumber (sv_major x) (sv_major y);
                           compareNumber (sv_minor x) (sv_minor y);
                           compareNumber (sv_patch x) (sv_patch y)]
              (comparePre (sv_pre x) (sv_pre y)))
      else Err tt
  | _, _ => Err tt
  end.

(** ** The daemon's own version tests *)
Definition version_core (v : gostring) : gostring := default [] (head (splitByteN v "+" 2)).
(** [strconv.Atoi] on the three parts, all accepted by [ok]. *)
Definition atoi3 (v : gostring) : option (Z * Z * Z) :=
  match splitByte v "." with
  | [a; b; c] => x ← atoi a; y ← atoi b; z ← atoi c; Some (x, y, z)
  | _ => None
  end.
Definition updateVersionParts (v : gostring) : option (Z * Z * Z) :=
  let v := version_core (trimPrefix v "v") in
  if contains v "-" then None
  else '(x, y, z) ← atoi3 v;
       if ((x <? 0) || (y <? 0) || (z <? 0))%Z then None else Some (x, y, z).
Definition newer (n o : Z * Z * Z) : bool :=
  let '(a, b, c) := n in let '(x, y, z) := o in
  if negb (a =? x)%Z then (x <? a)%Z
  else if negb (b =? y)%Z then (y <? b)%Z
  else if negb (c =? z)%Z then (z <? c)%Z else false.
(** The status fields read by the test are [LastResult], [Installed] and [Latest]. *)
Definition updateCandidateVerified (runningVersion lastResult installed latest disk : gostring) : bool :=
  if negb (bool_decide (lastResult = "updated")) || bool_decide (installed = [])
     || negb (bool_decide (installed = latest)) || negb (bool_decide (installed = disk))
  then false
  else match updateVersionParts disk with
       | None => false
       | Some n =>
           match updateVersionParts runningVersion with
           | None => false
           | Some o =>
               if (n.1.1 =? 0)%Z && (n.1.2 <? 16)%Z then false else newer n o
           end
       end.
Definition updateReleaseCompatible (version : gostring) : bool :=
  let v := version_core (trimPrefix (trimSpace version) "v") in
  if contains v "-" then false
  else match atoi3 v with
       | Some (major, minor, _) => ((0 <? major) || (16 <=? minor))%Z
       | None => false
       end.

(** ** The specification: precedence keys *)
Inductive identifier := Num (z : Z) | Alpha (s : gostring).
Definition cmp_identifier (a b : identifier) : comparison :=
  match a, b with
  | Num x, Num y => (x ?= y)%Z
  | Num _, Alpha _ => Lt
  | Alpha _, Num _ => Gt
  | Alpha s, Alpha t => cmp_list cmp_byte s t
  end.
(** A release follows all its pre-releases. *)
Definition cmp_pre (a b : option (list identifier)) : comparison :=
  match a, b with
  | None, None => Eq
  | None, Some _ => Gt
  | Some _, None => Lt
  | Some x, Some y => cmp_list cmp_identifier x y
  end.
Definition precedence := (Z * (Z * (Z * option (list identifier))))%type.
Definition cmp_precedence : precedence -> precedence -> comparison :=
  cmp_pair Z.compare (cmp_pair Z.compare (cmp_pair Z.compare cmp_pre)).
Definition to_identifier (p : gostring) : identifier :=
  if numeric p then Num (decimal p) else Alpha p.
Definition to_pre (pre : gostring) : option (list identifier) :=
  match pre with [] => None | _ => Some (map to_identifier (splitByte pre ".")) end.
(** The grammar of the Semantic Versioning specification, with an optional v before it.  It is
    stated on the text and does not mention the pattern. *)
Definition digit (c : ascii) : Prop := (48 <= bz c <= 57)%Z.
Definition identifier_char (c : ascii) : Prop :=
  digit c \/ (65 <= bz c <= 90)%Z \/ (97 <= bz c <= 122)%Z \/ c = "-"%char.
(** A number without a leading zero. *)
Definition plain_number (d : gostring) : Prop := d <> [] /\ Forall digit d /\ (head d = Some "0"%char -> d = "0").
Definition identifier_text (p : gostring) : Prop := p <> [] /\ Forall identifier_char p.
Definition pre_identifier (p : gostring) : Prop := identifier_text p /\ (Forall digit p -> plain_number p).
(** Identifiers of digits count as numbers, the others as text. *)
Definition denotes (p : gostring) (i : identifier) : Prop :=
  Forall digit p /\ i = Num (decimal p) \/ ~ Forall digit p /\ i = Alpha p.
Definition dotted (before : ascii) (ps : list gostring) : gostring :=
  match ps with [] => [] | _ => before :: join ps "." end.
Inductive valid_version : gostring -> precedence -> Prop :=
| valid_text (v major minor patch : gostring) (pre build : list gostring) (ids : list identifier) :
    (v = [] \/ v = "v") -> plain_number major -> plain_number minor -> plain_number patch ->
    Forall pre_identifier pre -> Forall identifier_text build -> Forall2 denotes pre ids ->
    valid_version
      (v ++ major ++ "." ++ minor ++ "." ++ patch ++ dotted "-" pre ++ dotted "+" build)
      (decimal major, (decimal minor, (decimal patch, match pre with [] => None | _ => Some ids end))).

(** The precedence key of a version string as the code reads it. *)
Definition version_key (s : gostring) : option precedence :=
  x ← FindStringSubmatch s;
  if validPre (sv_pre x)
  then Some (decimal (sv_major x), (decimal (sv_minor x), (decimal (sv_patch x), to_pre (sv_pre x))))
  else None.

(** * Lemmas *)
#[export] Instance cmp_identifier_total : TotalCmp cmp_identifier.
Proof.
  constructor.
  - intros [x|s] [y|t]; cbn [cmp_identifier]; rewrite ?cmp_eq; naive_solver.
  - intros [x|s] [y|t]; cbn [cmp_identifier]; try done; apply cmp_opp.
  - intros [x|s] [y|t] [z|u]; cbn [cmp_identifier]; try done; apply cmp_trans.
Qed.
#[export] Instance cmp_pre_total : TotalCmp cmp_pre.
Proof.
  constructor.
  - intros [x|] [y|]; cbn [cmp_pre]; rewrite ?cmp_eq; naive_solver.
  - intros [x|] [y|]; cbn [cmp_pre]; try done; apply cmp_opp.
  - intros [x|] [y|] [z|]; cbn [cmp_pre]; try done; apply cmp_trans.
Qed.
#[export] Instance cmp_precedence_total : TotalCmp cmp_precedence.
Proof. apply _. Qed.

(** ** Numerals without leading zeros *)
Definition numeral (d : gostring) : Prop := canonical d = true /\ forallb isDigitByte d = true.

Lemma numeral_lower d :
  numeral d -> 1 < length d -> (10 ^ Z.of_nat (length d - 1) <= decimal d)%Z.
Proof.
  intros [Hc Hd] Hlen. destruct d as [|c [|c' d]]; cbn [length] in Hlen; [lia..|].
  cbn [canonical] in Hc. apply andb_true_iff in Hd as [Hb%digit_bounds Hd].
  rewrite ascii_eqb_bz in Hc. change (bz "0") with 48%Z in Hc. apply negb_true_iff, Z.eqb_neq in Hc.
  rewrite decimal_cons. pose proof (decimal_bounds (c' :: d) Hd).
  cbn [length]. rewrite Nat.sub_succ, Nat.sub_0_r. cbn [length] in *.
  assert (0 < 10 ^ Z.of_nat (S (length d)))%Z by (apply Z.pow_pos_nonneg; lia). nia.
Qed.
Lemma compareString_decimal a b :
  forallb isDigitByte a = true -> forallb isDigitByte b = true -> length a = length b ->
  compareString a b = (decimal a ?= decimal b)%Z.
Proof.
  revert b; induction a as [|x a IH]; intros [|y b] Ha Hb Hlen; try done.
  apply andb_true_iff in Ha as [Hx%digit_bounds Ha]. apply andb_true_iff in Hb as [Hy%digit_bounds Hb].
  injection Hlen as Hlen. rewrite !decimal_cons. cbn [compareString].
  pose proof (decimal_bounds _ Ha). pose proof (decimal_bounds _ Hb). rewrite Hlen in *.
  assert (0 < 10 ^ Z.of_nat (length b))%Z by (apply Z.pow_pos_nonneg; lia).
  destruct (Z.compare_spec (bz x) (bz y)) as [E|E|E]; symmetry.
  - rewrite E, IH by done. destruct (Z.compare_spec (decimal a) (decimal b));
      [apply Z.compare_eq_iff | apply Z.compare_lt_iff | apply Z.compare_gt_iff]; lia.
  - apply Z.compare_lt_iff. nia.
  - apply Z.compare_gt_iff. nia.
Qed.
Lemma numeral_shorter a b : numeral a -> numeral b -> length a < length b -> (decimal a < decimal b)%Z.
Proof.
  intros Ha Hb Hlen. pose proof (decimal_bounds _ (proj2 Ha)).
  assert (1 <= length a) by (destruct Ha as [Hc _], a; cbn in *; [done | lia]).
  pose proof (numeral_lower b Hb ltac:(lia)).
  assert (10 ^ Z.of_nat (length a) <= 10 ^ Z.of_nat (length b - 1))%Z by (apply Z.pow_le_mono_r; lia). lia.
Qed.
Lemma compareNumber_decimal a b :
  numeral a -> numeral b -> compareNumber a b = cmpZ (decimal a ?= decimal b)%Z.
Proof.
  intros Ha Hb. unfold compareNumber.
  destruct (length a <? length b) eqn:E1; [|destruct (length b <? length a) eqn:E2]; bool_to_prop.
  - pose proof (numeral_shorter a b Ha Hb E1). by rewrite (proj2 (Z.compare_lt_iff _ _)) by lia.
  - pose proof (numeral_shorter b a Hb Ha E2). by rewrite (proj2 (Z.compare_gt_iff _ _)) by lia.
  - rewrite compareString_decimal; [done | apply Ha | apply Hb | lia].
Qed.
Lemma numeral_inj a b : numeral a -> numeral b -> decimal a = decimal b -> a = b.
Proof.
  intros Ha Hb E. pose proof (compareNumber_decimal a b Ha Hb) as H. rewrite E, Z.compare_refl in H.
  unfold compareNumber in H. repeat case_match; cbn in H; try lia.
  apply (cmp_eq (cmp := cmp_list cmp_byte)). rewrite <- compareString_cmp.
  by destruct (compareString a b).
Qed.

(** ** Identifiers *)
Definition wf_identifier (p : gostring) : Prop := p <> [] /\ leadingZero p = false.
Lemma wf_numeral p : wf_identifier p -> numeric p = true -> numeral p.
Proof.
  intros [Hne Hz] Hn. split; [|destruct p; done]. unfold leadingZero in Hz. rewrite Hn in Hz.
  destruct p as [|c [|d p]]; [done..|]. cbn in Hz |- *. by rewrite Hz.
Qed.
Lemma to_identifier_inj p q :
  wf_identifier p -> wf_identifier q -> to_identifier p = to_identifier q -> p = q.
Proof.
  intros Hp Hq. unfold to_identifier. destruct (numeric p) eqn:Np, (numeric q) eqn:Nq; try done.
  - intros [= E]. apply numeral_inj; eauto using wf_numeral.
  - by intros [= E].
Qed.
Lemma compareIdentifiers_cmp p q :
  Forall wf_identifier p -> Forall wf_identifier q -> p <> q ->
  compareIdentifiers p q = cmpZ (cmp_list cmp_identifier (map to_identifier p) (map to_identifier q)).
Proof.
  intros Hp; revert q. induction Hp as [|a p Ha Hp IH]; intros q Hq Hne.
  - destruct Hq; done.
  - destruct Hq as [|b q Hb Hq]; [done|]. cbn [compareIdentifiers map cmp_list].
    case_decide as Hab.
    + subst b. rewrite cmp_refl. apply IH; congruence.
    + assert (cmp_identifier (to_identifier a) (to_identifier b) <> Eq) as Hneq.
      { rewrite cmp_eq. intros E. by apply Hab, to_identifier_inj. }
      assert ((if numeric a && numeric b then compareNumber a b
               else if numeric a then (-1)%Z else if numeric b then 1%Z
               else cmpZ (compareString a b)) =
              cmpZ (cmp_identifier (to_identifier a) (to_identifier b))) as ->.
      { unfold to_identifier. destruct (numeric a) eqn:Na, (numeric b) eqn:Nb; cbn [andb cmp_identifier]; try done.
        - apply compareNumber_decimal; eauto using wf_numeral.
        - by rewrite compareString_cmp. }
      by destruct (cmp_identifier _ _).
Qed.

(** ** What the pattern matches *)
Lemma span_spec P s a r : span P s = (a, r) -> s = a ++ r /\ forallb P a = true.
Proof.
  revert a; induction s as [|c s IH]; intros a; cbn [span]; [by intros [= <- <-]|].
  destruct (P c) eqn:Hc; [|by intros [= <- <-]].
  destruct (span P s) as [b q]. intros [= <- <-]. destruct (IH b eq_refl) as [-> Hb].
  split; [done|]. change (P c && forallb P b = true). by rewrite Hc, Hb.
Qed.
Lemma version_number_spec s d r : version_number s = Some (d, r) -> s = d ++ r /\ numeral d.
Proof.
  unfold version_number. destruct (span isDigitByte s) as [d' r'] eqn:E.
  destruct (canonical d') eqn:Hc; [|done]. intros [= <- <-].
  apply span_spec in E as [-> Hd]. by repeat split.
Qed.
Lemma expect_spec c s r : expect c s = Some r -> s = c :: r.
Proof. destruct s as [|d s]; cbn; [done|]. destruct (Ascii.eqb_spec d c) as [->|]; naive_solver. Qed.

(** The text of the pre-release and the build metadata. *)
Definition pre_text (pre : gostring) : gostring := match pre with [] => [] | _ => "-"%char :: pre end.
Definition wf_pre (pre : gostring) : Prop :=
  pre = [] \/ identifiers pre = true /\ forallb (fun c => isIdentByte c || Ascii.eqb c ".") pre = true.
Definition build_text (b : gostring) : Prop := b = [] \/ exists t, b = "+"%char :: t.

Lemma prerelease_spec s p r : prerelease s = Some (p, r) -> s = pre_text p ++ r /\ wf_pre p.
Proof.
  unfold prerelease, wf_pre. destruct s as [|c s]; [intros [= <- <-]; by auto|].
  destruct (Ascii.eqb_spec c "-") as [->|]; [|intros [= <- <-]; by auto].
  destruct (span _ s) as [p' r'] eqn:E. destruct (identifiers p') eqn:Hp; [|done].
  intros [= <- <-]. apply span_spec in E as [-> Hc]. split; [|by right].
  destruct p'; [done|]. done.
Qed.
Lemma buildMetadata_spec s : buildMetadata s = true -> build_text s.
Proof.
  destruct s as [|c s]; [by left|]. intros [Hc _]%andb_true_iff. right. exists s.
  by apply Ascii.eqb_eq in Hc as ->.
Qed.

Record matches (s : gostring) (x : semver) (build : gostring) : Prop := {
  mt_text : trimPrefix s "v" =
    sv_major x ++ "."%char :: sv_minor x ++ "."%char :: sv_patch x ++ pre_text (sv_pre x) ++ build;
  mt_major : numeral (sv_major x);
  mt_minor : numeral (sv_minor x);
  mt_patch : numeral (sv_patch x);
  mt_pre : wf_pre (sv_pre x);
  mt_build : build_text build;
}.
Lemma FindStringSubmatch_build s x :
  FindStringSubmatch s = Some x -> exists build, matches s x build /\ buildMetadata build = true.
Proof.
  unfold FindStringSubmatch. intros E.
  apply bind_Some in E as ([major s1] & [E1 Hmaj]%version_number_spec & E).
  apply bind_Some in E as (s2 & ->%expect_spec & E).
  apply bind_Some in E as ([minor s3] & [-> Hmin]%version_number_spec & E).
  apply bind_Some in E as (s4 & ->%expect_spec & E).
  apply bind_Some in E as ([patch s5] & [-> Hpat]%version_number_spec & E).
  apply bind_Some in E as ([pre s6] & [-> Hpre]%prerelease_spec & E).
  destruct (buildMetadata s6) eqn:Hb; [|done]. injection E as <-.
  exists s6. split; [|done]. constructor; cbn [sv_major sv_minor sv_patch sv_pre]; try done.
  by apply buildMetadata_spec.
Qed.
Lemma FindStringSubmatch_matches s x :
  FindStringSubmatch s = Some x -> exists build, matches s x build.
Proof. intros (build & Hm & _)%FindStringSubmatch_build. by exists build. Qed.

Lemma pre_identifiers pre :
  pre <> [] -> wf_pre pre -> validPre pre = true -> Forall wf_identifier (splitByte pre ".").
Proof.
  intros Hne [->|[Hi _]] Hv; [done|]. unfold identifiers in Hi. unfold validPre in Hv.
  destruct pre as [|c pre]; [done|]. apply negb_true_iff in Hv.
  apply Forall_forall. intros p Hp%list_elem_of_In. split.
  - rewrite forallb_forall in Hi. specialize (Hi p Hp). by destruct p.
  - destruct (leadingZero p) eqn:Hz; [|done]. rewrite <- Hv.
    symmetry. apply existsb_exists. eauto.
Qed.
Lemma comparePre_cmp x y :
  wf_pre x -> wf_pre y -> validPre x = true -> validPre y = true ->
  comparePre x y = cmpZ (cmp_pre (to_pre x) (to_pre y)).
Proof.
  intros Hx Hy Vx Vy. unfold comparePre. case_decide as Hxy.
  - subst y. by rewrite cmp_refl.
  - destruct x as [|a x]; [by destruct y|]. destruct y as [|b y]; [done|]. unfold to_pre. cbn [cmp_pre].
    apply compareIdentifiers_cmp; [by apply pre_identifiers..|].
    intros E. by apply splitByte_inj in E.
Qed.
(** ** The daemon's parser agrees on releases *)
Lemma atoi_numeral d n : numeral d -> atoi d = Some n -> n = decimal d.
Proof.
  intros [Hc Hd]. unfold atoi. destruct d as [|c d]; [done|].
  apply andb_true_iff in Hd as Hd'. destruct Hd' as [Hc' _].
  destruct (isDigitByte_not_sign c Hc') as [-> ->]. unfold parseDigits. rewrite Hd. cbn.
  case_match; naive_solver.
Qed.
Lemma numeral_notin d c : numeral d -> isDigitByte c = false -> c ∉ d.
Proof. intros [_ Hd] Hc. by eapply forallb_notin. Qed.

Lemma version_core_cut s b : "+"%char ∉ s -> build_text b -> version_core (s ++ b) = s.
Proof.
  intros Hs Hb. unfold version_core. cbn [splitByteN]. destruct Hb as [->|[t ->]].
  - rewrite app_nil_r. by rewrite (proj2 (indexByte_None _ _) Hs).
  - rewrite indexByte_app by done. cbn. by rewrite take_app_length.
Qed.
Lemma contains_byte s c : contains s [c] = false -> c ∉ s.
Proof.
  unfold contains. induction s as [|d s IH]; cbn [index hasPrefix]; [intros _; apply not_elem_of_nil|].
  destruct (Ascii.eqb_spec c d) as [->|Hne].
  - by destruct s.
  - cbn [andb]. rewrite not_elem_of_cons. intros H. split; [done|]. apply IH. by destruct (index s [c]).
Qed.

Lemma pre_text_notin pre c :
  wf_pre pre -> c <> "-"%char -> isIdentByte c = false -> c <> "."%char -> c ∉ pre_text pre.
Proof.
  intros [->|[_ Hp]] Hd Hc Hdot; [apply not_elem_of_nil|].
  destruct pre as [|x pre]; [apply not_elem_of_nil|]. unfold pre_text. apply not_elem_of_cons. split; [done|].
  eapply forallb_notin; [|exact Hp]. cbn. rewrite Hc. by apply Ascii.eqb_neq.
Qed.

Lemma release_parts s x build n :
  matches s x build -> updateVersionParts s = Some n ->
  sv_pre x = [] /\ n = (decimal (sv_major x), decimal (sv_minor x), decimal (sv_patch x)).
Proof.
  intros [Ht Hmaj Hmin Hpat Hpre Hb]. unfold updateVersionParts. rewrite Ht.
  set (core := sv_major x ++ "."%char :: sv_minor x ++ "."%char :: sv_patch x ++ pre_text (sv_pre x)).
  replace (sv_major x ++ "."%char :: sv_minor x ++ "."%char :: sv_patch x ++ pre_text (sv_pre x) ++ build)
    with (core ++ build) by (unfold core; by rewrite <- !app_assoc, <- !app_comm_cons, <- !app_assoc, <- !app_comm_cons, <- !app_assoc).
  rewrite version_core_cut; [|unfold core | done].
  2:{ rewrite !elem_of_app, !elem_of_cons, !elem_of_app, !elem_of_cons, !elem_of_app.
      pose proof (numeral_notin _ "+" Hmaj eq_refl). pose proof (numeral_notin _ "+" Hmin eq_refl).
      pose proof (numeral_notin _ "+" Hpat eq_refl).
      pose proof (pre_text_notin _ "+" Hpre ltac:(done) eq_refl ltac:(done)). naive_solver. }
  destruct (contains core "-") eqn:Hdash; [done|]. apply contains_byte in Hdash.
  assert (sv_pre x = []) as Epre.
  { destruct (sv_pre x) as [|c pre] eqn:E; [done|]. exfalso. apply Hdash. unfold core, pre_text.
    rewrite !elem_of_app, !elem_of_cons, !elem_of_app, !elem_of_cons, !elem_of_app.
    rewrite elem_of_cons. tauto. }
  unfold atoi3, core. rewrite Epre. cbn [pre_text]. rewrite app_nil_r.
  rewrite !splitByte_app, splitByte_free by (by apply numeral_notin).
  intros E. apply bind_Some in E as ([[a b] c] & E & E').
  apply bind_Some in E as (a' & Ha & E). apply bind_Some in E as (b' & Hb' & E).
  apply bind_Some in E as (c' & Hc & [= -> -> ->]). case_match; [done|]. injection E' as <-.
  by rewrite (atoi_numeral _ _ Hmaj Ha), (atoi_numeral _ _ Hmin Hb'), (atoi_numeral _ _ Hpat Hc).
Qed.

Lemma release_key s k n :
  version_key s = Some k -> updateVersionParts s = Some n ->
  k = (n.1.1, (n.1.2, (n.2, None))) /\ (0 <= n.1.1 /\ 0 <= n.1.2 /\ 0 <= n.2)%Z.
Proof.
  unfold version_key. intros E Hn. apply bind_Some in E as (x & Hx & E).
  apply FindStringSubmatch_matches in Hx as [build Hm].
  destruct (release_parts _ _ _ _ Hm Hn) as [Hpre ->]. rewrite Hpre in E. injection E as <-.
  split; [done|]. cbn [fst snd]. destruct Hm as [_ [_ H1] [_ H2] [_ H3] _ _].
  pose proof (decimal_bounds _ H1). pose proof (decimal_bounds _ H2). pose proof (decimal_bounds _ H3). lia.
Qed.

Lemma newer_precedence n o :
  newer n o = true ->
  cmp_precedence (n.1.1, (n.1.2, (n.2, None))) (o.1.1, (o.1.2, (o.2, None))) = Gt.
Proof.
  destruct n as [[a b] c], o as [[x y] z]. unfold newer, cmp_precedence, cmp_pair. cbn [fst snd].
  destruct (Z.compare_spec a x), (Z.compare_spec b y), (Z.compare_spec c z); decide_cmp; done.
Qed.

(** The comparison on strings is the comparison of keys. *)
Lemma compareVersions_key a b :
  compareVersions a b =
  match version_key a, version_key b with
  | Some x, Some y => Ok (cmpZ (cmp_precedence x y))
  | _, _ => Err tt
  end.
Proof.
  unfold compareVersions, version_key.
  destruct (FindStringSubmatch a) as [x|] eqn:Ea; [|done].
  destruct (FindStringSubmatch b) as [y|] eqn:Eb; cbn [mbind option_bind]; [|by case_match].
  destruct (validPre (sv_pre x)) eqn:Vx, (validPre (sv_pre y)) eqn:Vy; cbn [andb]; try done.
  apply FindStringSubmatch_matches in Ea as (u & [_ A1 A2 A3 A4 _]).
  apply FindStringSubmatch_matches in Eb as (v & [_ B1 B2 B3 B4 _]).
  f_equal. unfold first_nonzero. cbn [foldr].
  rewrite !compareNumber_decimal, comparePre_cmp by done. unfold cmp_precedence, cmp_pair. cbn [fst snd].
  repeat match goal with |- context [(?x ?= ?y)%Z] => destruct (x ?= y)%Z end; reflexivity.
Qed.

(** ** The pattern is the grammar *)
Lemma digit_iff c : isDigitByte c = true <-> digit c.
Proof. unfold isDigitByte, byte_in_range, digit. rewrite andb_true_iff, !Z.leb_le. done. Qed.
Lemma digits_iff d : forallb isDigitByte d = true <-> Forall digit d.
Proof. rewrite forallb_forall, Forall_forall. setoid_rewrite list_elem_of_In. setoid_rewrite digit_iff. done. Qed.
Lemma identifier_char_iff c : isIdentByte c = true <-> identifier_char c.
Proof.
  unfold isIdentByte, identifier_char, isUpperByte, isLowerByte, byte_in_range.
  rewrite !orb_true_iff, digit_iff, !andb_true_iff, !Z.leb_le, Ascii.eqb_eq.
  change (bz "A") with 65%Z; change (bz "Z") with 90%Z; change (bz "a") with 97%Z; change (bz "z") with 122%Z. tauto.
Qed.
Lemma numeral_iff d : numeral d <-> plain_number d.
Proof.
  unfold numeral, plain_number. rewrite digits_iff. destruct d as [|c d]; [by intuition|]. cbn [canonical head].
  destruct d as [|c' d].
  - split; intros Hd; split_and!; try done; try apply Hd. by intros [= ->].
  - rewrite negb_true_iff, Ascii.eqb_neq. split.
    + intros [Hc Hd]. split_and!; [done|done|]. by intros [= ->].
    + intros (_ & Hd & Hz). split; [|done]. intros ->. by specialize (Hz eq_refl).
Qed.
Lemma numeric_iff p : p <> [] -> numeric p = true <-> Forall digit p.
Proof. intros Hp. destruct p; [done|]. apply digits_iff. Qed.
Lemma denotes_identifier p i : p <> [] -> denotes p i <-> i = to_identifier p.
Proof.
  intros Hp. unfold denotes, to_identifier. pose proof (numeric_iff p Hp). destruct (numeric p); intuition congruence.
Qed.
Lemma wf_identifier_iff p : p <> [] -> leadingZero p = false <-> (Forall digit p -> plain_number p).
Proof.
  intros Hp. unfold leadingZero. pose proof (numeric_iff p Hp) as Hn. destruct (numeric p); cbn [andb].
  - assert (Hd : Forall digit p) by by apply Hn. unfold plain_number.
    destruct p as [|c [|c' p]]; [done|by cbn; intuition (subst; congruence)|]. cbn [length head].
    change (1 <? S (S (length p))) with true. cbn [andb]. rewrite Ascii.eqb_neq. split.
    + intros Hc _. split_and!; [done|done|]. by intros [= ->].
    + intros Hz ->. destruct (Hz Hd) as (_ & _ & Hz'). by specialize (Hz' eq_refl).
  - split; [|done]. intros _ Hd. by apply Hn in Hd.
Qed.
Lemma no_dot p : Forall identifier_char p -> "."%char ∉ p.
Proof.
  intros Hp Hin. rewrite Forall_forall in Hp. specialize (Hp _ Hin). apply identifier_char_iff in Hp. done.
Qed.
Lemma identifier_text_iff p : match p with [] => false | _ => forallb isIdentByte p end = true <-> identifier_text p.
Proof.
  unfold identifier_text. destruct p as [|c p]; [by split; [|intros []]|].
  rewrite forallb_forall, Forall_forall. setoid_rewrite list_elem_of_In. setoid_rewrite identifier_char_iff.
  split; [by intros Hp|by intros []].
Qed.
Lemma identifiers_split t : identifiers t = true <-> Forall identifier_text (splitByte t ".").
Proof.
  unfold identifiers. rewrite forallb_forall, Forall_forall. setoid_rewrite list_elem_of_In.
  split; intros Hp p Hin; specialize (Hp p Hin); by apply identifier_text_iff.
Qed.
Lemma splitByte_identifiers ps : ps <> [] -> Forall identifier_text ps -> splitByte (join ps ".") "." = ps.
Proof. intros Hn Hp. apply splitByte_join; [done|]. eapply Forall_impl; [exact Hp|]. intros p [_ ?]. by apply no_dot. Qed.

(** What the pattern accepts is in the grammar. *)
Lemma trimPrefix_v s : exists v, (v = [] \/ v = "v") /\ s = v ++ trimPrefix s "v".
Proof.
  unfold trimPrefix. destruct (hasPrefix s "v") eqn:E; [|by exists []; auto].
  apply hasPrefix_iff in E as [t ->]. exists "v". auto.
Qed.
Lemma pattern_sound s k : version_key s = Some k -> valid_version s k.
Proof.
  unfold version_key. intros (x & (build & [Ht H1 H2 H3 H4 _] & Hb)%FindStringSubmatch_build & Hk)%bind_Some.
  destruct (validPre (sv_pre x)) eqn:Hv; [|done]. injection Hk as <-.
  destruct (trimPrefix_v s) as (v & Hv' & ->). rewrite Ht. clear Ht.
  assert (Hpre : exists pre ids, pre_text (sv_pre x) = dotted "-" pre /\ Forall pre_identifier pre /\ Forall2 denotes pre ids
            /\ to_pre (sv_pre x) = match pre with [] => None | _ => Some ids end).
  { destruct (sv_pre x) as [|c p] eqn:Ep; [by exists [], []|]. set (q := c :: p) in *.
    exists (splitByte q "."), (map to_identifier (splitByte q ".")).
    pose proof (splitByte_nonempty q ".") as Hne.
    assert (Hid : Forall identifier_text (splitByte q ".")) by (apply identifiers_split; by destruct H4 as [?|[? _]]).
    split_and!.
    - unfold dotted. destruct (splitByte q ".") eqn:Es; [done|]. rewrite <- Es. change "." with ["."%char]. by rewrite join_splitByte.
    - pose proof (pre_identifiers q ltac:(done) H4 Hv) as Hw. rewrite Forall_forall in Hw, Hid |- *.
      intros p' Hp'. destruct (Hw p' Hp'). split; [by apply Hid|]. by apply wf_identifier_iff.
    - clear -Hid. induction Hid as [|p' ps [Hp _] _ IH]; constructor; [by apply denotes_identifier|done].
    - change (to_pre q) with (Some (map to_identifier (splitByte q "."))). by destruct (splitByte q "."). }
  assert (Hbuild : exists bs, build = dotted "+" bs /\ Forall identifier_text bs).
  { destruct build as [|c t]; [by exists []|]. cbn in Hb. apply andb_true_iff in Hb as [->%Ascii.eqb_eq Hb].
    exists (splitByte t "."). split; [|by apply identifiers_split]. unfold dotted.
    pose proof (splitByte_nonempty t ".") as Hne. destruct (splitByte t ".") eqn:Es; [done|]. rewrite <- Es.
    change "." with ["."%char]. by rewrite join_splitByte. }
  destruct Hpre as (pre & ids & -> & Hp & Hi & ->), Hbuild as (bs & -> & Hbs).
  apply (valid_text v _ _ _ pre bs ids); try done; by apply numeral_iff.
Qed.

(** And the other way round. *)
Lemma span_app P a r : forallb P a = true -> match r with c :: _ => P c = false | [] => True end -> span P (a ++ r) = (a, r).
Proof.
  induction a as [|c a IH]; intros Ha Hr.
  - destruct r as [|c r]; [done|]. cbn. by rewrite Hr.
  - cbn in Ha. apply andb_true_iff in Ha as [Hc Ha]. cbn. by rewrite Hc, IH.
Qed.
Lemma version_number_app d r :
  plain_number d -> match r with c :: _ => isDigitByte c = false | [] => True end -> version_number (d ++ r) = Some (d, r).
Proof. intros Hd Hr. apply numeral_iff in Hd as [Hc Hd]. unfold version_number. by rewrite span_app, Hc. Qed.
Lemma dotted_chars ps : Forall identifier_text ps ->
  forallb (fun c => isIdentByte c || Ascii.eqb c ".") (join ps ".") = true.
Proof.
  intros Hp. induction Hp as [|p ps [_ Hc] Hps IH]; [done|].
  assert (Hp : forallb (fun c => isIdentByte c || Ascii.eqb c ".") p = true).
  { apply forallb_forall. intros c Hin%list_elem_of_In. rewrite Forall_forall in Hc.
    by rewrite (proj2 (identifier_char_iff c) (Hc c Hin)). }
  destruct ps as [|q ps]; [done|]. rewrite join_cons, !forallb_app, Hp, IH by done. done.
Qed.
Lemma join_nonempty ps : ps <> [] -> Forall identifier_text ps -> join ps "." <> [].
Proof.
  intros Hn Hp. destruct Hp as [|p ps [Hne _] _]; [done|]. destruct ps; [done|]. rewrite join_cons by done. by destruct p.
Qed.
Lemma prerelease_dotted pre bs : Forall identifier_text pre -> Forall identifier_text bs ->
  prerelease (dotted "-" pre ++ dotted "+" bs) = Some (match pre with [] => [] | _ => join pre "." end, dotted "+" bs).
Proof.
  intros Hp Hb. destruct pre as [|p pre]; cbn [dotted app].
  - by destruct bs.
  - set (q := p :: pre) in *. unfold prerelease. change (Ascii.eqb "-" "-") with true. cbn iota.
    rewrite span_app by (by apply dotted_chars || by destruct bs).
    assert (identifiers (join q ".") = true) as ->; [|done]. apply identifiers_split. by rewrite splitByte_identifiers.
Qed.
Lemma buildMetadata_dotted bs : Forall identifier_text bs -> buildMetadata (dotted "+" bs) = true.
Proof.
  intros Hb. destruct bs as [|b bs]; [done|]. cbn [dotted buildMetadata]. change (Ascii.eqb "+" "+") with true. cbn [andb].
  apply identifiers_split. by rewrite splitByte_identifiers.
Qed.
Lemma validPre_join pre : Forall pre_identifier pre -> validPre (match pre with [] => [] | _ => join pre "." end) = true.
Proof.
  intros Hp. destruct pre as [|p pre]; [done|]. set (q := p :: pre) in *.
  assert (Hid : Forall identifier_text q) by (eapply Forall_impl; [exact Hp|]; by intros ? [? _]).
  unfold validPre. pose proof (join_nonempty q ltac:(done) Hid). destruct (join q ".") eqn:E; [done|]. rewrite <- E.
  rewrite splitByte_identifiers by done. apply negb_true_iff, not_true_iff_false. intros (p' & Hin%list_elem_of_In & Hz)%existsb_exists.
  rewrite Forall_forall in Hp. destruct (Hp p' Hin) as [[Hne _] Hd]. apply wf_identifier_iff in Hd; [|done]. congruence.
Qed.
Lemma pattern_complete s k : valid_version s k -> version_key s = Some k.
Proof.
  destruct 1 as [v major minor patch pre bs ids Hv H1 H2 H3 Hp Hb Hd].
  assert (Hid : Forall identifier_text pre) by (eapply Forall_impl; [exact Hp|]; by intros ? [? _]).
  assert (Ht : trimPrefix (v ++ major ++ "." ++ minor ++ "." ++ patch ++ dotted "-" pre ++ dotted "+" bs) "v"
             = major ++ "." ++ minor ++ "." ++ patch ++ dotted "-" pre ++ dotted "+" bs).
  { destruct Hv as [->| ->]; [|done]. destruct H1 as (Hne & Hdig & _). destruct major as [|c major]; [done|].
    apply Forall_cons in Hdig as [Hc _]. cbn [app]. unfold trimPrefix. cbn [hasPrefix].
    destruct (Ascii.eqb_spec "v" c) as [<-|]; [|done]. by destruct Hc. }
  unfold version_key, FindStringSubmatch. rewrite Ht.
  rewrite version_number_app by done. cbn [mbind option_bind expect app]. change (Ascii.eqb "." ".") with true. cbn [mbind option_bind].
  rewrite version_number_app by done. cbn [mbind option_bind expect app]. change (Ascii.eqb "." ".") with true. cbn [mbind option_bind].
  rewrite version_number_app by (done || by destruct pre, bs). cbn [mbind option_bind].
  rewrite prerelease_dotted by done. cbn [mbind option_bind]. rewrite buildMetadata_dotted by done.
  cbn [mbind option_bind sv_pre sv_major sv_minor sv_patch].
  rewrite validPre_join by done. do 4 f_equal. destruct pre as [|p pre]; [done|]. set (q := p :: pre) in *.
  unfold to_pre. pose proof (join_nonempty q ltac:(done) Hid). destruct (join q ".") eqn:E; [done|]. rewrite <- E.
  rewrite splitByte_identifiers by done. f_equal. clear -Hd Hid. revert Hd. generalize q, ids, Hid. clear.
  intros q ids Hid Hd. induction Hd as [|p i ps js Hp _ IH]; [done|]. apply Forall_cons in Hid as [[Hne _] Hid].
  apply denotes_identifier in Hp as ->; [|done]. cbn. by rewrite IH.
Qed.
Lemma version_key_valid s k : version_key s = Some k <-> valid_version s k.
Proof. split; [apply pattern_sound|apply pattern_complete]. Qed.

(** * Properties *)

(** C40: [compareVersions] is Semantic Versioning precedence.  On two texts of its grammar (a v
    before them is allowed) it gives the order of what they denote: the three numbers, then
    the pre-release identifiers, numbers as numbers and before text; when one of them is not
    of the grammar, and only then, it is an error. *)
Theorem compare_versions_precedence (a b : gostring) :
  (forall x y, valid_version a x -> valid_version b y -> compareVersions a b = Ok (cmpZ (cmp_precedence x y))) /\
  (compareVersions a b = Err tt <-> (forall x, ~ valid_version a x) \/ (forall y, ~ valid_version b y)).
Proof.
  rewrite compareVersions_key. setoid_rewrite <- version_key_valid. split.
  - by intros x y -> ->.
  - destruct (version_key a) as [x|], (version_key b) as [y|]; (split; [intros E|intros [E|E]]); try done; try naive_solver.
Qed.

(** [compareVersions] is a total preorder on valid versions: swapping the
    arguments negates the result and "not older" is transitive, strictly when
    one of the steps is strict. *)
Theorem version_order (a b c : gostring) (n m : Z) :
  compareVersions a b = Ok n -> compareVersions b c = Ok m -> (0 <= n)%Z -> (0 <= m)%Z ->
  compareVersions b a = Ok (- n)%Z /\
  exists k, compareVersions a c = Ok k /\ (0 <= k)%Z /\ (k = 0 <-> n = 0 /\ m = 0)%Z.
Proof.
  rewrite !compareVersions_key.
  destruct (version_key a) as [x|], (version_key b) as [y|], (version_key c) as [z|]; try done.
  intros [= <-] [= <-] Hn Hm. rewrite (cmp_opp x y). split; [by destruct (cmp_precedence x y)|].
  eexists. split; [done|].
  destruct (cmp_precedence x y) eqn:E1, (cmp_precedence y z) eqn:E2; cbn in Hn, Hm; try lia.
  - apply cmp_eq in E1 as ->, E2 as ->. by rewrite cmp_refl.
  - apply cmp_eq in E1 as ->. rewrite E2. cbn. lia.
  - apply cmp_eq in E2 as <-. rewrite E1. cbn. lia.
  - assert (cmp_precedence x z = Gt) as ->; [|cbn; lia].
    rewrite (cmp_opp z x), (cmp_trans z y x); [done | |]; rewrite cmp_opp; by rewrite ?E1, ?E2.
Qed.

(** The daemon restarts only into a strictly newer release: a verified
    candidate follows the running version in the updater's own order and is not
    older than the 0.16.0 floor. *)
Theorem candidate_is_newer (running lastResult installed latest disk : gostring) :
  is_ok (compareVersions disk running) = true ->
  updateCandidateVerified running lastResult installed latest disk = true ->
  compareVersions disk running = Ok 1%Z /\
  exists n, compareVersions disk "0.16.0" = Ok n /\ (0 <= n)%Z.
Proof.
  rewrite !compareVersions_key.
  destruct (version_key disk) as [kd|] eqn:Ed; [|done].
  destruct (version_key running) as [kr|] eqn:Er; [|done]. intros _.
  unfold updateCandidateVerified. case_match; [done|].
  destruct (updateVersionParts disk) as [n|] eqn:En; [|done].
  destruct (updateVersionParts running) as [o|] eqn:Eo; [|done].
  destruct (_ && _) eqn:Hfloor; [done|]. intros Hnew.
  destruct (release_key _ _ _ Ed En) as [-> Hpos], (release_key _ _ _ Er Eo) as [-> _].
  rewrite (newer_precedence _ _ Hnew). split; [done|].
  replace (version_key "0.16.0") with (Some (0, (16, (0, None)))%Z : option precedence) by reflexivity.
  eexists. split; [reflexivity|]. unfold cmp_precedence, cmp_pair. cbn [fst snd cmp_pre].
  apply andb_false_iff in Hfloor.
  destruct (Z.compare_spec n.1.1 0), (Z.compare_spec n.1.2 16), (Z.compare_spec n.2 0); cbn; try lia;
    destruct Hfloor; bool_to_prop; lia.
Qed.

(** * Witnesses *)
Lemma version_order_witness :
  compareVersions "1.0.0-rc.1" "v1.0.0-beta.11" = Ok 1%Z /\
  exists k, compareVersions "1.0.0-rc.1" "1.0.0-beta.2+x" = Ok k /\ (0 <= k)%Z /\
    (k = 0 <-> (1 = 0 /\ 1 = 0))%Z.
Proof.
  split; [reflexivity|].
  exact (proj2 (version_order "1.0.0-rc.1" "v1.0.0-beta.11" "1.0.0-beta.2+x" 1 1
    eq_refl eq_refl ltac:(lia) ltac:(lia))).
Defined.
Lemma candidate_is_newer_witness :
  compareVersions "0.17.0" "v0.16.9" = Ok 1%Z /\
  exists n, compareVersions "0.17.0" "0.16.0" = Ok n /\ (0 <= n)%Z.
Proof. apply (candidate_is_newer "v0.16.9" "updated" "0.17.0" "0.17.0" "0.17.0"); reflexivity. Defined.
Lemma compare_versions_precedence_witness :
  compareVersions "1.0.0-rc.11" "v1.0.0-rc.2+x" = Ok (cmpZ (cmp_precedence (1, (0, (0, Some [Alpha "rc"; Num 11])))%Z (1, (0, (0, Some [Alpha "rc"; Num 2])))%Z)).
Proof.
  apply (proj1 (compare_versions_precedence "1.0.0-rc.11" "v1.0.0-rc.2+x")); apply pattern_sound; vm_compute; reflexivity.
Defined.
