(* ===== verification/SelfUpdate.v ===== *)
(** The self-updater: internal/selfupdate/state.go, policy.go, engine.go and
    schedule.go, with the URL policy of source.go.

    [Apply] is an effectful function over the persistent files it owns (the
    installation's status and the shared metadata cache) and the status it
    fills in; the answers of the outside world in one run (disk, network,
    transaction) are an [oracle], and what the run asks of it is a trace. *)
From S2P Require Import Prelude GoStrings GoStringFacts GoNum Versions.

Local Open Scope go_scope.

(** * Definitions *)

(** ** Data *)
Record Asset := mkAsset { a_name : gostring; a_url : gostring; a_size : Z }.
Record Release := mkRelease { r_version : gostring; r_assets : list Asset }.
(** Times are nanoseconds since Go's zero time. *)
Record Status := mkStatus {
  Schema : gostring; Tool : gostring; Installed : gostring; Latest : gostring;
  LastCheck : option Z; LastResult : gostring; Code : option gostring;
  Previous : option gostring; Channel : gostring; Auto : bool;
}.
Definition zeroStatus : Status := mkStatus [] [] [] [] None [] None None [] false.
Record updateCache := mkCache { uc_lastCheck : Z; uc_release : Release; uc_error : gostring }.

Definition setLatest (v : gostring) (s : Status) : Status :=
  mkStatus (Schema s) (Tool s) (Installed s) v (LastCheck s) (LastResult s) (Code s) (Previous s) (Channel s) (Auto s).
Definition setInstalled (v : gostring) (s : Status) : Status :=
  mkStatus (Schema s) (Tool s) v (Latest s) (LastCheck s) (LastResult s) (Code s) (Previous s) (Channel s) (Auto s).
Definition setLastCheck (t : option Z) (s : Status) : Status :=
  mkStatus (Schema s) (Tool s) (Installed s) (Latest s) t (LastResult s) (Code s) (Previous s) (Channel s) (Auto s).
Definition setResult (r : gostring) (code previous : option gostring) (s : Status) : Status :=
  mkStatus (Schema s) (Tool s) (Installed s) (Latest s) (LastCheck s) r code previous (Channel s) (Auto s).
Definition setPolicy (channel : gostring) (auto : bool) (s : Status) : Status :=
  mkStatus (Schema s) (Tool s) (Installed s) (Latest s) (LastCheck s) (LastResult s) (Code s) (Previous s) channel auto.

(** ** state.go *)
Definition allowedCodes : list gostring :=
  ["UPDATE_NETWORK_UNAVAILABLE"; "UPDATE_NO_RELEASE"; "UPDATE_CHECKSUM_MISMATCH";
   "UPDATE_DOWNGRADE_REFUSED"; "UPDATE_BELOW_FLOOR"; "UPDATE_LOCKED"; "UPDATE_IN_USE_DEFERRED";
   "UPDATE_READBACK_FAILED_ROLLED_BACK"; "UPDATE_QUARANTINED"; "UPDATE_PERMISSION_DENIED"].
Definition validStatus (s : Status) : bool :=
  if negb (streq (Schema s) "update-status/v1") || negb (streq (Tool s) "mi-lsp")
     || streq (Installed s) [] || (negb (streq (Channel s) "latest") && negb (streq (Channel s) "pinned"))
  then false
  else if oneOf (LastResult s) ["failed"; "deferred"] then
    match Code s with
    | Some c => oneOf c allowedCodes && match Previous s with None => true | Some _ => false end
    | None => false
    end
  else if streq (LastResult s) "updated" then
    match Code s, Previous s with
    | None, Some p => negb (streq p []) && negb (streq (Latest s) []) && streq (Installed s) (Latest s)
    | _, _ => false
    end
  else if oneOf (LastResult s) ["up_to_date"; "disabled"; "pinned"] then
    match Code s, Previous s with None, None => true | _, _ => false end
  else false.

Definition statusKeys : list gostring :=
  ["schema"; "tool"; "installed"; "latest"; "last_check"; "last_result"; "code"; "previous";
   "channel"; "auto"].

(** What the status file round-trips: strings that are valid UTF-8 and times
    in the years that RFC 3339 covers. *)
Definition jsonTime (t : Z) : bool := ((0 <=? t) && (t <? 3652059 * 86400 * 10 ^ 9))%Z.
Definition jsonStatus (s : Status) : bool :=
  validString (Schema s) && validString (Tool s) && validString (Installed s) && validString (Latest s)
  && validString (LastResult s) && validString (Channel s)
  && validString (default [] (Code s)) && validString (default [] (Previous s))
  && jsonTime (default 0%Z (LastCheck s)).

(** The decoding and encoding of the status by [encoding/json]: an object is a
    map from keys to raw values of type [R]. *)
Class StatusCodec (R : Type) := {
  encodeStatus : Status -> gmap gostring R;
  decodeStatus : gmap gostring R -> option Status;
  encode_keys s k : is_Some (encodeStatus s !! k) <-> k ∈ statusKeys;
  decode_encode s : jsonStatus s = true -> decodeStatus (encodeStatus s) = Some s;
}.

(** The files under [.mi-lsp/update]; [None] is a file that cannot be read or
    decoded. *)
Record world (R : Type) := mkWorld {
  w_state : option (gmap gostring R);
  w_cache : option updateCache;
}.
Arguments mkWorld {R}.
Arguments w_state {R}.
Arguments w_cache {R}.

Definition ReadCached {R} `{StatusCodec R} (w : world R) : result gostring Status :=
  match w_state w with
  | None => Err "state unavailable"
  | Some raw =>
      if negb (forallb (fun k => bool_decide (is_Some (raw !! k))) statusKeys) then Err "invalid state"
      else if negb (size raw =? 10) then Err "invalid state"
      else match decodeStatus raw with
           | Some s => if validStatus s then Ok s else Err "invalid state"
           | None => Err "invalid state"
           end
  end.

(** ** policy.go *)
Inductive pinFile :=
| PinAbsent
| PinUnreadable
| PinContent (size : Z) (decoded : option (gostring * bool)).
Record environment := mkEnv {
  env_autoUpdate : gostring; env_channel : gostring; env_updateChild : gostring; env_pin : pinFile }.
Definition updatePolicy (e : environment) : result gostring (gostring * bool * gostring) :=
  let auto := negb (streq (env_autoUpdate e) "0") in
  if streq (env_channel e) "pinned" then Ok ("pinned", auto, "pinned")
  else
    let unpinned := if auto then Ok ("latest", auto, []) else Ok ("latest", auto, "disabled") in
    match env_pin e with
    | PinContent size decoded =>
        match decoded with
        | Some (schema, pinned) =>
            if (4096 <? size)%Z || negb (streq schema "mi-lsp-update-pin/v1") then Err "invalid pin marker"
            else if pinned then Ok ("pinned", auto, "pinned") else unpinned
        | None => Err "invalid pin marker"
        end
    | PinUnreadable => Err "cannot read policy"
    | PinAbsent => unpinned
    end.

(** ** source.go: which URLs are followed *)
Definition maxMetadata : Z := (2 * 2 ^ 20)%Z.
Definition maxAsset : Z := (512 * 2 ^ 20)%Z.
(** The parts of a parsed [net/url.URL] that are inspected. *)
Record URL := mkURL {
  u_scheme : gostring; u_hasUser : bool; u_host : gostring; u_hostname : gostring;
  u_path : gostring; u_escapedPath : gostring; u_rawQuery : gostring; u_fragment : gostring }.
Class UrlParser := url_parse : gostring -> option URL.

Definition allowedURL `{UrlParser} (raw : gostring) (initial : bool) : bool :=
  match url_parse raw with
  | None => false
  | Some u =>
      if negb (streq (u_scheme u) "https") || u_hasUser u || negb (streq (u_host u) (u_hostname u))
         || negb (streq (u_fragment u) []) then false
      else if streq (u_hostname u) "api.github.com" then
        streq (u_path u) "/repos/fgpaz/mi-lsp/releases/latest" && streq (u_rawQuery u) []
      else if streq (u_hostname u) "github.com" then
        hasPrefix (u_escapedPath u) "/fgpaz/mi-lsp/releases/download/"
        && negb (contains (u_path u) "..") && streq (u_rawQuery u) []
      else if oneOf (u_hostname u) ["release-assets.githubusercontent.com"; "objects.githubusercontent.com"]
      then negb initial
      else false
  end.
Definition releasePrefix : gostring := "https://github.com/fgpaz/mi-lsp/releases/download/".

(** ** engine.go: assets and checksums *)
Definition validReleaseAsset `{UrlParser} (a : Asset) (name : gostring) (limit : Z) : bool :=
  if negb (streq (a_name a) name) || (a_size a <? 0)%Z || (limit <? a_size a)%Z
     || negb (allowedURL (a_url a) true) then false
  else if negb (hasPrefix (a_url a) releasePrefix) then false
  else match splitByte (trimPrefix (a_url a) releasePrefix) "/" with
       | [tag; file] => negb (streq tag []) && streq file name
       | _ => false
       end.

Fixpoint findAsset_from (found : option Asset) (l : list Asset) (name : gostring) : option Asset :=
  match l with
  | [] => found
  | a :: l =>
      if streq (a_name a) name then
        match found with Some _ => None | None => findAsset_from (Some a) l name end
      else findAsset_from found l name
  end.
Definition findAsset (l : list Asset) (name : gostring) : option Asset := findAsset_from None l name.

(** [GOOS] and [GOARCH] of the running binary. *)
Record platform := mkPlatform { goos : gostring; goarch : gostring }.
Definition releaseAssetName (p : platform) (version : gostring) : gostring :=
  let osname := if streq (goos p) "windows" then "win" else goos p in
  let arch := if streq (goarch p) "amd64" then "x64" else goarch p in
  let ext := if streq (goos p) "windows" then ".zip" else ".tar.gz" in
  "mi-lsp_" ++ version ++ "_" ++ osname ++ "-" ++ arch ++ ext.
Definition checksName (version : gostring) : gostring := "mi-lsp_" ++ version ++ "_checksums.txt".

(** One line of the checksum file; [found] is empty until a line matches. *)
Definition checksum_line (name found line : gostring) : result gostring gostring :=
  match fields line with
  | [hash; file] =>
      if negb (streq (trimPrefix file "*") name) then Ok found
      else if negb (streq found []) || negb (length hash =? 64) then Err "invalid checksum"
      else match hexDecode hash with
           | Some _ => Ok (map lowerByte hash)
           | None => Err "invalid checksum"
           end
  | _ => Ok found
  end.
(** [bufio.Scanner] fails on a line that does not fit its 64 KiB buffer. *)
Definition maxScanToken : nat := 64 * 1024.
Definition scan_error (content : gostring) : bool :=
  existsb (fun l => maxScanToken <=? length l) (splitByte content LF).
Definition checksumFor (content name : gostring) : result gostring gostring :=
  let content := takeZ (2 * 2 ^ 20) content in
  if scan_error content then Err "missing checksum"
  else found ← mfold (checksum_line name) [] (scanLines content);
       if streq found [] then Err "missing checksum" else Ok found.

(** ** engine.go: the update run *)
Record TransactionResult := mkTx {
  tx_installed : gostring; tx_previous : gostring; tx_code : gostring; tx_changed : bool }.
(** A download: it can fail, or its file not open, or reading it break off. *)
Inductive download :=
| DownloadFailed
| Unreadable
| ReadFailed
| Downloaded (content : gostring).
Inductive lockOutcome := LockAcquired | LockBusy | LockFailed.

(** The answers the outside world gives in one run.  A failed readback is
    [None]; [o_latest] fails with [true] when there is no release. *)
Record oracle := mkOracle {
  o_readback : option gostring;
  o_env : environment;
  o_lock : lockOutcome;
  o_readbackLocked : option gostring;
  o_envLocked : environment;
  o_now : Z;
  o_cacheWritten : bool * bool;
  o_latest : result bool Release;
  o_stageDir : bool;
  o_checks : download;
  o_archive : download;
  o_transaction : TransactionResult * bool;
  o_readbackAfter : option gostring;
  o_statusWritten : bool;
}.

(** What a run asks of the outside world. *)
Inductive event :=
| EvLatest
| EvDownload (a : Asset)
| EvTransaction (archiveSHA256 target : gostring).

Section engine.
Context {R : Type} `{StatusCodec R} `{UrlParser}.
Context (sha256 : list ascii -> list ascii) (plat : platform).
Context (MinimumVersion : gostring).

(** The mutable state of a run: [*s], the files and the trace. *)
Record run := mkRun { status : Status; files : world R; trace : list event }.
Definition M := eff run gostring.
Definition put_status (f : Status -> Status) : M unit :=
  modify (fun r => mkRun (f (status r)) (files r) (trace r)).
Definition emit (e : event) : M unit :=
  modify (fun r => mkRun (status r) (files r) (trace r ++ [e])).
Definition status_of : M Status := gets status.

Definition saveStatus (o : oracle) : M unit :=
  s ← status_of;
  if negb (validStatus s) then throw "invalid status"
  else if negb (o_statusWritten o) then throw "cannot persist status"
  else modify (fun r => mkRun (status r) (mkWorld (Some (encodeStatus s)) (w_cache (files r))) (trace r)).
Definition saveCache (written : bool) (c : updateCache) : M unit :=
  if written then modify (fun r => mkRun (status r) (mkWorld (w_state (files r)) (Some c)) (trace r))
  else throw "cannot persist update cache".

Definition failureResult (code : gostring) : gostring :=
  if streq code "UPDATE_LOCKED" || streq code "UPDATE_IN_USE_DEFERRED" then "deferred" else "failed".
Definition finishFailure (o : oracle) (code : gostring) : M unit :=
  if negb (oneOf code allowedCodes) then throw "unknown update failure"
  else _ ← put_status (setResult (failureResult code) (Some code) None); saveStatus o.
(** [nilStatus]: keep the installation's own result under the current policy. *)
Definition keepPrior (prior : Status) : M unit :=
  put_status (fun dst => setPolicy (Channel dst) (Auto dst) prior).

Definition day : Z := (24 * 3600 * 10 ^ 9)%Z.
(** [time.Time.Sub] saturates. *)
Definition timeSub (a b : Z) : Z := Z.max MIN_INT64 (Z.min MAX_INT64 (a - b)).
Definition freshCache (now : Z) (c : option updateCache) : option updateCache :=
  match c with
  | Some cache =>
      if negb (uc_lastCheck cache =? 0)%Z && (timeSub now (uc_lastCheck cache) <? day)%Z
      then Some cache else None
  | None => None
  end.
Definition sameCheck (prior : Status) (cache : updateCache) : bool :=
  match LastCheck prior with Some t => (t =? uc_lastCheck cache)%Z | None => false end.

(** Choosing the release: [None] when the run has ended with [finishFailure]
    or with the previous result. *)
Definition from_cache (o : oracle) (prior : Status) (cache : updateCache) : M (option Release) :=
  _ ← put_status (setLastCheck (Some (uc_lastCheck cache)));
  s ← status_of;
  if negb (streq (uc_error cache) []) then
    if negb (oneOf (uc_error cache) ["UPDATE_NETWORK_UNAVAILABLE"; "UPDATE_NO_RELEASE"])
    then throw "invalid cache error"
    else if sameCheck prior cache && streq (Installed prior) (Installed s)
            && streq (LastResult prior) "failed" && bool_decide (Code prior = Some (uc_error cache))
    then _ ← keepPrior prior; mret None
    else _ ← finishFailure o (uc_error cache); mret None
  else
    let release := uc_release cache in
    if negb (streq (LastResult prior) "deferred") && sameCheck prior cache
       && streq (Latest prior) (r_version release) && streq (Installed prior) (Installed s)
    then if is_ok (compareVersions (r_version release) (r_version release))
         then _ ← keepPrior prior; mret None
         else throw "invalid cached release"
    else mret (Some release).
Definition from_network (o : oracle) (now : Z) : M (option Release) :=
  let cache := mkCache now (mkRelease [] []) "UPDATE_NETWORK_UNAVAILABLE" in
  _ ← saveCache (fst (o_cacheWritten o)) cache;
  _ ← emit EvLatest;
  match o_latest o with
  | Err noRelease =>
      let code := if noRelease : bool then "UPDATE_NO_RELEASE" else "UPDATE_NETWORK_UNAVAILABLE" in
      _ ← saveCache (snd (o_cacheWritten o)) (mkCache now (mkRelease [] []) code);
      _ ← put_status (setLastCheck (Some now));
      _ ← finishFailure o code; mret None
  | Ok release =>
      _ ← saveCache (snd (o_cacheWritten o)) (mkCache now release []);
      _ ← put_status (setLastCheck (Some now));
      mret (Some release)
  end.

(** From the download of the checksums to the verified archive: its hash. *)
Definition fetch (o : oracle) (checks archive : Asset) (archiveName : gostring) : M (option gostring) :=
  if negb (o_stageDir o) then _ ← finishFailure o "UPDATE_PERMISSION_DENIED"; mret None else
  _ ← emit (EvDownload checks);
  match o_checks o with
  | DownloadFailed => _ ← finishFailure o "UPDATE_NETWORK_UNAVAILABLE"; mret None
  | Unreadable | ReadFailed => _ ← finishFailure o "UPDATE_CHECKSUM_MISMATCH"; mret None
  | Downloaded content =>
      match checksumFor content archiveName with
      | Err _ => _ ← finishFailure o "UPDATE_CHECKSUM_MISMATCH"; mret None
      | Ok hash =>
          _ ← emit (EvDownload archive);
          match o_archive o with
          | DownloadFailed => _ ← finishFailure o "UPDATE_NETWORK_UNAVAILABLE"; mret None
          | Unreadable => throw "archive unavailable"
          | ReadFailed => _ ← finishFailure o "UPDATE_CHECKSUM_MISMATCH"; mret None
          | Downloaded bytes =>
              if (maxAsset <? Z.of_nat (length bytes))%Z || negb (streq (hexEncode (sha256 bytes)) hash)
              then _ ← finishFailure o "UPDATE_CHECKSUM_MISMATCH"; mret None
              else mret (Some hash)
          end
      end
  end.

Definition install (o : oracle) (release : Release) (hash : gostring) : M unit :=
  s ← status_of;
  let previous := Installed s in
  _ ← emit (EvTransaction hash (r_version release));
  let '(result, txErr) := o_transaction o in
  match o_readbackAfter o with
  | None | Some [] => throw "installed version unavailable"
  | Some actual =>
      _ ← put_status (setInstalled actual);
      if (txErr : bool) || negb (streq (tx_code result) []) then
        if negb (oneOf (tx_code result) allowedCodes) then throw "transaction failed"
        else finishFailure o (tx_code result)
      else if negb (tx_changed result) || negb (streq actual (r_version release))
      then throw "transaction readback mismatch"
      else if streq (tx_previous result) [] || negb (streq (tx_previous result) previous)
      then throw "previous version unavailable"
      else _ ← put_status (fun s => setResult "updated" (Code s) (Some (tx_previous result)) s);
           saveStatus o
  end.

Definition upgrade (o : oracle) (release : Release) : M unit :=
  _ ← put_status (setLatest (r_version release));
  s ← status_of;
  match compareVersions (r_version release) (Installed s) with
  | Err _ => finishFailure o "UPDATE_NO_RELEASE"
  | Ok cmp =>
      if (cmp <? 0)%Z then finishFailure o "UPDATE_DOWNGRADE_REFUSED"
      else if (cmp =? 0)%Z
      then _ ← put_status (fun s => setResult "up_to_date" (Code s) (Previous s) s); saveStatus o
      else
        match compareVersions (r_version release) MinimumVersion with
        | Err _ => finishFailure o "UPDATE_NO_RELEASE"
        | Ok floor =>
            if (floor <? 0)%Z then finishFailure o "UPDATE_BELOW_FLOOR"
            else
              let archiveName := releaseAssetName plat (r_version release) in
              let checks := checksName (r_version release) in
              match findAsset (r_assets release) archiveName, findAsset (r_assets release) checks with
              | Some archive, Some checksAsset =>
                  if negb (validReleaseAsset archive archiveName maxAsset)
                     || negb (validReleaseAsset checksAsset checks maxMetadata)
                  then throw "invalid release asset"
                  else hash ← fetch o checksAsset archive archiveName;
                       match hash with
                       | Some hash => install o release hash
                       | None => mret tt
                       end
              | _, _ => finishFailure o "UPDATE_NO_RELEASE"
              end
        end
  end.

Definition applyLocked (o : oracle) (automatic : bool) (reason : gostring) : M unit :=
  w ← gets files;
  let prior := match ReadCached w with Ok p => p | Err _ => zeroStatus end in
  if negb (streq reason []) then
    _ ← put_status (fun s =>
          setLastCheck (LastCheck prior) (setLatest (Latest prior) (setResult reason (Code s) (Previous s) s)));
    saveStatus o
  else
    let now := o_now o in
    release ← (if automatic : bool then
                 match freshCache now (w_cache w) with
                 | Some cache => from_cache o prior cache
                 | None => from_network o now
                 end
               else from_network o now);
    match release with
    | Some release => upgrade o release
    | None => mret tt
    end.

Definition newStatus (installed channel : gostring) (auto : bool) : Status :=
  mkStatus "update-status/v1" "mi-lsp" installed [] None [] None None channel auto.

(** The result, and the files and the trace of the run. *)
Definition Apply (o : oracle) (automatic : bool) (w : world R) : result gostring Status * world R * list event :=
  match o_readback o with
  | None | Some [] => (Err "installed version unavailable", w, [])
  | Some installed =>
      match updatePolicy (o_env o) with
      | Err e => (Err e, w, [])
      | Ok (channel, auto, _) =>
          match o_lock o with
          | LockBusy =>
              (Ok (setResult "deferred" (Some "UPDATE_LOCKED") None (newStatus installed channel auto)), w, [])
          | LockFailed => (Err "update failed", w, [])
          | LockAcquired =>
              match o_readbackLocked o with
              | None | Some [] => (Err "update failed", w, [])
              | Some actual =>
                  match updatePolicy (o_envLocked o) with
                  | Err _ => (Err "update failed", w, [])
                  | Ok (channel, auto, reason) =>
                      let '(r, st) := applyLocked o automatic reason
                                        (mkRun (newStatus actual channel auto) w []) in
                      (match r with Ok _ => Ok (status st) | Err _ => Err "update failed" end,
                       files st, trace st)
                  end
              end
          end
      end
  end.

Definition CheckStatus (readback : option gostring) (e : environment) (w : world R) : result gostring Status :=
  s ← ReadCached w;
  match readback with
  | None | Some [] => Err "installed version unavailable"
  | Some v =>
      if streq (LastResult s) "updated" && negb (streq v (Latest s))
      then Err "installed version contradicts cached update"
      else '(channel, auto, _) ← updatePolicy e;
           Ok (setPolicy channel auto (setInstalled v s))
  end.

(** ** schedule.go *)

(** Nothing to do: this installation has consumed the fresh metadata. *)
Definition consumed (w : world R) (cache : updateCache) : bool :=
  match ReadCached w with
  | Ok prior =>
      if negb (streq (LastResult prior) "deferred") && sameCheck prior cache then
        if negb (streq (uc_error cache) [])
        then streq (LastResult prior) "failed" && bool_decide (Code prior = Some (uc_error cache))
        else streq (Latest prior) (r_version (uc_release cache))
             && is_ok (compareVersions (r_version (uc_release cache)) (r_version (uc_release cache)))
      else false
  | Err _ => false
  end.
(** [Ok true]: the detached child is started ([started] tells if that works). *)
Definition MaybeStartAutomatic (executable : gostring) (daemonAvailable : bool) (e : environment)
    (now : Z) (started : bool) (w : world R) : result gostring bool :=
  if daemonAvailable || streq (env_updateChild e) "1" then Ok false
  else
    '(_, _, reason) ← updatePolicy e;
    if negb (streq reason []) then Ok false
    else
      if match freshCache now (w_cache w) with Some cache => consumed w cache | None => false end
      then Ok false
      else if streq executable [] then Err "invalid executable"
      else if started then Ok true else Err "cannot start updater".
End engine.

(** * Lemmas *)

Section engine_facts.
Context {R : Type} `{!StatusCodec R} `{!UrlParser}.
Context (sha256 : list ascii -> list ascii) (plat : platform) (MinimumVersion : gostring).
Implicit Types (o : oracle) (r : run (R := R)).

(** What every step preserves of the run. *)
Definition with_state r : run (R := R) :=
  mkRun (status r) (mkWorld (Some (encodeStatus (status r))) (w_cache (files r))) (trace r).

Lemma wp_put f Q r : Q (Ok tt) (mkRun (f (status r)) (files r) (trace r)) -> wp (put_status f) Q r.
Proof. done. Qed.
Lemma wp_emit e Q r : Q (Ok tt) (mkRun (status r) (files r) (trace r ++ [e])) -> wp (emit e) Q r.
Proof. done. Qed.
Lemma wp_saveStatus o Q r :
  (validStatus (status r) = false -> Q (Err "invalid status") r) ->
  Q (Err "cannot persist status") r ->
  (validStatus (status r) = true -> Q (Ok tt) (with_state r)) -> wp (saveStatus o) Q r.
Proof.
  intros. unfold saveStatus, status_of. wp_step. wp_step. wp_step; [apply negb_true_iff in Hif; wp_step; auto|].
  apply negb_false_iff in Hif. wp_step; wp_step; auto.
Qed.
Lemma wp_saveCache b c Q r :
  Q (Err "cannot persist update cache") r ->
  Q (Ok tt) (mkRun (status r) (mkWorld (w_state (files r)) (Some c)) (trace r)) -> wp (saveCache b c) Q r.
Proof. intros. unfold saveCache. wp_step; wp_step; auto. Qed.
Lemma wp_finishFailure o code Q r :
  let r' := mkRun (setResult (failureResult code) (Some code) None (status r)) (files r) (trace r) in
  (oneOf code allowedCodes = false -> Q (Err "unknown update failure") r) ->
  (oneOf code allowedCodes = true -> validStatus (status r') = false -> Q (Err "invalid status") r') ->
  (oneOf code allowedCodes = true -> Q (Err "cannot persist status") r') ->
  (oneOf code allowedCodes = true -> validStatus (status r') = true -> Q (Ok tt) (with_state r')) ->
  wp (finishFailure o code) Q r.
Proof.
  intros r' H1 H2 H3 H4. unfold finishFailure.
  wp_step; [apply negb_true_iff in Hif; wp_step; auto | apply negb_false_iff in Hif].
  wp_step. apply wp_put. apply wp_saveStatus; auto.
Qed.

(** *** Statuses under construction *)
Record base (s : Status) : Prop := {
  base_schema : Schema s = "update-status/v1";
  base_tool : Tool s = "mi-lsp";
  base_installed : Installed s <> [];
  base_channel : Channel s ∈ (["latest"; "pinned"] : list gostring);
  base_code : Code s = None;
  base_previous : Previous s = None;
}.
Definition benign (e : gostring) : Prop := e <> "invalid status" /\ e <> "unknown update failure".

Lemma header_valid s :
  Schema s = "update-status/v1" -> Tool s = "mi-lsp" -> Installed s <> [] ->
  Channel s ∈ (["latest"; "pinned"] : list gostring) ->
  negb (streq (Schema s) "update-status/v1") || negb (streq (Tool s) "mi-lsp")
   || streq (Installed s) [] || (negb (streq (Channel s) "latest") && negb (streq (Channel s) "pinned")) = false.
Proof.
  intros -> -> Hi Hc. rewrite (proj2 (streq_false _ _) Hi).
  apply elem_of_cons in Hc as [->|Hc]; [done|]. by apply list_elem_of_singleton in Hc as ->.
Qed.
Lemma failure_valid s code :
  base s -> oneOf code allowedCodes = true ->
  validStatus (setResult (failureResult code) (Some code) None s) = true.
Proof.
  intros [? ? ? ? _ _] Hcode. unfold validStatus. rewrite header_valid by done.
  cbn [setResult LastResult Code Previous].
  assert (oneOf (failureResult code) ["failed"; "deferred"] = true) as ->
    by (unfold failureResult; by case_match).
  by rewrite Hcode.
Qed.
Lemma plain_valid s res :
  base s -> oneOf res ["up_to_date"; "disabled"; "pinned"] = true ->
  validStatus (setResult res (Code s) (Previous s) s) = true.
Proof.
  intros [? ? ? ? Hc Hp] Hres. unfold validStatus. rewrite header_valid by done.
  cbn [setResult LastResult Code Previous]. rewrite Hc, Hp, Hres.
  apply bool_decide_eq_true in Hres.
  repeat (apply elem_of_cons in Hres as [->|Hres]; [reflexivity|]). by apply elem_of_nil in Hres.
Qed.
Lemma updated_valid s prev :
  base s -> prev <> [] -> Latest s = Installed s ->
  validStatus (setResult "updated" (Code s) (Some prev) s) = true.
Proof.
  intros [? ? ? ? Hc _] Hprev Hl. unfold validStatus. rewrite header_valid by done.
  cbn [setResult LastResult Code Previous Latest Installed]. rewrite Hc, Hl.
  rewrite (proj2 (streq_false _ _) Hprev), (proj2 (streq_false (Installed s) [])) by done.
  change (streq (Installed s) (Installed s) = true). by apply streq_true.
Qed.

(** *** One upgrade *)
Section upgrade.
Context (o : oracle) (version : gostring) (r : run (R := R)).

(** [h] is the listed and actual hash of the downloaded archive. *)
Definition verified (h : gostring) : Prop :=
  exists checks bytes, o_checks o = Downloaded checks /\
    checksumFor checks (releaseAssetName plat version) = Ok h /\
    o_archive o = Downloaded bytes /\ hexEncode (sha256 bytes) = h /\
    (Z.of_nat (length bytes) <= maxAsset)%Z.
Definition installable (installed h : gostring) : Prop :=
  compareVersions version installed = Ok 1%Z /\
  (exists n, compareVersions version MinimumVersion = Ok n /\ (0 <= n)%Z) /\ verified h.

(** [r1] is reached from [r] before any transaction. *)
Record related (r1 : run (R := R)) : Prop := {
  rel_files : files r1 = files r;
  rel_check : LastCheck (status r1) = LastCheck (status r);
  rel_installed : Installed (status r1) = Installed (status r);
  rel_latest : Latest (status r1) = version;
  rel_base : base (status r1);
  rel_trace : exists ds, trace r1 = trace r ++ map EvDownload ds;
}.
Record upgraded (res : result gostring unit) (r' : run (R := R)) : Prop := {
  up_cache : w_cache (files r') = w_cache (files r);
  up_check : LastCheck (status r') = LastCheck (status r);
  up_trace : forall h t, EvTransaction h t ∈ trace r' ->
    EvTransaction h t ∈ trace r \/ t = version /\ installable (Installed (status r)) h;
  up_latest : EvLatest ∈ trace r' -> EvLatest ∈ trace r;
  up_finished :
    match res with
    | Ok _ => validStatus (status r') = true /\ Latest (status r') = version /\
              w_state (files r') = Some (encodeStatus (status r'))
    | Err e => benign e
    end;
  up_updated : res = Ok tt -> LastResult (status r') = "updated" ->
    o_readbackAfter o = Some (Installed (status r')) /\ Installed (status r') = version /\
    Previous (status r') = Some (Installed (status r)) /\
    compareVersions version (Installed (status r)) = Ok 1%Z;
}.

Lemma related_trace r1 :
  related r1 ->
  (forall h t, EvTransaction h t ∈ trace r1 -> EvTransaction h t ∈ trace r) /\
  (EvLatest ∈ trace r1 -> EvLatest ∈ trace r).
Proof.
  intros [_ _ _ _ _ [ds E]]. rewrite E. split; [intros h t|];
    intros [?|(d & ? & _)%list_elem_of_fmap]%elem_of_app; done.
Qed.
Lemma related_emit r1 d :
  related r1 -> related (mkRun (status r1) (files r1) (trace r1 ++ [EvDownload d])).
Proof.
  intros [? ? ? ? ? [ds E]]. constructor; cbn [status files trace]; try done.
  exists (ds ++ [d]). by rewrite E, map_app, app_assoc.
Qed.
Lemma upgraded_err r1 e : related r1 -> benign e -> upgraded (Err e) r1.
Proof.
  intros Hr He. destruct (related_trace r1 Hr) as [H1 H2]. destruct Hr as [Hf ? ? ? ? _].
  constructor; try done; [by rewrite Hf | auto].
Qed.
(** Ending an upgrade, with or without a transaction behind it. *)
Lemma upgraded_save r1 :
  w_cache (files r1) = w_cache (files r) -> LastCheck (status r1) = LastCheck (status r) ->
  (forall h t, EvTransaction h t ∈ trace r1 ->
    EvTransaction h t ∈ trace r \/ t = version /\ installable (Installed (status r)) h) ->
  (EvLatest ∈ trace r1 -> EvLatest ∈ trace r) ->
  validStatus (status r1) = true -> Latest (status r1) = version ->
  (LastResult (status r1) = "updated" ->
    o_readbackAfter o = Some (Installed (status r1)) /\ Installed (status r1) = version /\
    Previous (status r1) = Some (Installed (status r)) /\
    compareVersions version (Installed (status r)) = Ok 1%Z) ->
  wp (saveStatus o) upgraded r1.
Proof.
  intros Hc Hck Ht Hl Hv Hlat Hup. apply wp_saveStatus.
  - by rewrite Hv.
  - constructor; done.
  - intros _. constructor; cbn [with_state status files trace w_cache w_state]; auto.
Qed.

Lemma upgraded_failure code r1 :
  related r1 -> oneOf code allowedCodes = true -> wp (finishFailure o code) upgraded r1.
Proof.
  intros Hr Hcode. unfold finishFailure. rewrite Hcode. cbn [negb]. wp_step. apply wp_put.
  destruct (related_trace r1 Hr) as [H1 H2]. destruct Hr as [Hf Hck Hi Hlat Hb _].
  apply upgraded_save; cbn [status files trace]; try done; auto.
  - by rewrite Hf.
  - by apply failure_valid.
  - cbn. unfold failureResult. by case_match.
Qed.

Lemma wp_fetch checks archive r1 :
  related r1 ->
  wp (fetch sha256 o checks archive (releaseAssetName plat version))
    (fun res r' =>
       match res with
       | Ok (Some h) => related r' /\ status r' = status r1 /\ verified h
       | Ok None => upgraded (Ok tt) r'
       | Err e => upgraded (Err e) r'
       end) r1.
Proof.
  intros Hr. unfold fetch.
  assert (Hfail : forall code r2, related r2 -> oneOf code allowedCodes = true ->
    wp (_ ← finishFailure o code; mret None)
      (fun res r' => match res with
       | Ok (Some h) => related r' /\ status r' = status r1 /\ verified h
       | Ok None => upgraded (Ok tt) r'
       | Err e => upgraded (Err e) r' end) r2).
  { intros code r2 Hr2 Hcode. wp_step. eapply wp_mono; [by apply (upgraded_failure code)|].
    intros [[]|e] r' Hup; [by wp_step | done]. }
  wp_step; [by apply Hfail|]. wp_step. apply wp_emit.
  pose proof (related_emit r1 checks Hr) as Hr2.
  destruct (o_checks o) as [| | |content] eqn:Hc; [by apply Hfail..|].
  destruct (checksumFor content _) as [hash|] eqn:Hsum; [|by apply Hfail].
  wp_step. apply wp_emit. pose proof (related_emit _ archive Hr2) as Hr3. cbn [status files trace] in *.
  destruct (o_archive o) as [| | |bytes] eqn:Ha; [by apply Hfail| |by apply Hfail|].
  - wp_step. by apply upgraded_err.
  - wp_step; [by apply Hfail|]. wp_step. split; [done|]. split; [done|].
    apply orb_false_iff in Hif0 as [? Hh]. bool_to_prop. apply streq_true in Hh.
    by exists content, bytes.
Qed.

Lemma wp_install release h r1 :
  related r1 -> r_version release = version -> installable (Installed (status r)) h ->
  wp (install o release h) upgraded r1.
Proof.
  intros Hr Hv Hinst. destruct (related_trace r1 Hr) as [H1 H2]. unfold install, status_of.
  wp_step. wp_step. wp_step. apply wp_emit. rewrite Hv.
  destruct Hr as [Hf Hck Hi Hlat Hb _].
  assert (Ht : forall g t, EvTransaction g t ∈ trace r1 ++ [EvTransaction h version] ->
    EvTransaction g t ∈ trace r \/ t = version /\ installable (Installed (status r)) g).
  { intros g t [?|[= -> ->]%list_elem_of_singleton]%elem_of_app; auto. }
  assert (Hl : EvLatest ∈ trace r1 ++ [EvTransaction h version] -> EvLatest ∈ trace r).
  { intros [?|?%list_elem_of_singleton]%elem_of_app; [auto | done]. }
  assert (Herr : forall e s1, LastCheck s1 = LastCheck (status r) -> benign e ->
    upgraded (Err e) (mkRun s1 (files r1) (trace r1 ++ [EvTransaction h version]))).
  { intros e s1 Hs1 He. constructor; cbn [status files trace]; try done. by rewrite Hf. }
  destruct (o_transaction o) as [result txErr].
  destruct (o_readbackAfter o) as [[|c actual]|] eqn:Hread; [by wp_step; apply Herr| |by wp_step; apply Herr].
  wp_step. apply wp_put. cbn [status files trace].
  assert (Hb2 : base (setInstalled (c :: actual) (status r1))) by (by destruct Hb).
  wp_step; [wp_step; [wp_step; by apply Herr|]|wp_step; [wp_step; by apply Herr|wp_step; [wp_step; by apply Herr|]]].
  - apply negb_false_iff in Hif0. unfold finishFailure. rewrite Hif0. cbn [negb]. wp_step. apply wp_put.
    apply upgraded_save; cbn [status files trace]; try done; auto.
    + by rewrite Hf.
    + by apply failure_valid.
    + cbn. unfold failureResult. by case_match.
  - apply orb_false_iff in Hif0 as [_ Hact%negb_false_iff]. apply streq_true in Hact.
    apply orb_false_iff in Hif1 as [Hne%streq_false Hprev%negb_false_iff]. apply streq_true in Hprev.
    wp_step. apply wp_put. apply upgraded_save; cbn [status files trace]; try done; auto.
    + by rewrite Hf.
    + apply updated_valid; try done. cbn. congruence.
    + cbn. intros _. rewrite Hread, Hprev, Hi. split; [done|]. split; [congruence|].
      split; [done|]. apply Hinst.
Qed.
End upgrade.

Lemma compareVersions_range a b n : compareVersions a b = Ok n -> (n = -1 \/ n = 0 \/ n = 1)%Z.
Proof.
  rewrite compareVersions_key. destruct (version_key a), (version_key b); try done.
  intros [= <-]. destruct (cmp_precedence _ _); cbn; lia.
Qed.

Lemma wp_upgrade o release r :
  base (status r) ->
  wp (upgrade sha256 plat MinimumVersion o release) (upgraded o (r_version release) r) r.
Proof.
  intros Hb. unfold upgrade, status_of. wp_step. apply wp_put. wp_step. wp_step. cbn [status].
  set (r1 := mkRun _ _ _).
  assert (Hr : related (r_version release) r r1).
  { constructor; cbn [r1 status files trace]; try done; [by destruct Hb|]. exists []. by rewrite app_nil_r. }
  change (Installed (setLatest (r_version release) (status r))) with (Installed (status r)).
  destruct (compareVersions _ (Installed _)) as [cmp|] eqn:Hcmp; [|by apply upgraded_failure].
  wp_step; [by apply upgraded_failure|]. wp_step.
  - wp_step. apply wp_put. destruct (related_trace _ _ _ Hr) as [H1 H2].
    apply upgraded_save; cbn [status files trace]; try done; auto.
    by apply plain_valid; [apply Hr|].
  - destruct (compareVersions _ MinimumVersion) as [floor|] eqn:Hfloor; [|by apply upgraded_failure].
    wp_step; [by apply upgraded_failure|].
    destruct (findAsset _ (releaseAssetName _ _)) as [archive|]; [|by apply upgraded_failure].
    destruct (findAsset _ (checksName _)) as [checks|]; [|by apply upgraded_failure].
    wp_step; [wp_step; by apply upgraded_err|].
    wp_step. eapply wp_mono; [by apply (wp_fetch o (r_version release) r)|].
    intros [[h|]|e] r2 Hpost; [|by wp_step|done].
    destruct Hpost as (Hr2 & _ & Hver). apply wp_install; try done.
    split; [|split; [|done]].
    + bool_to_prop. destruct (compareVersions_range _ _ _ Hcmp) as [|[|]]; subst; try lia. done.
    + exists floor. bool_to_prop. split; [done|lia].
Qed.

(** *** One run *)
Section apply.
Context (o : oracle) (w : world R) (s0 : Status) (Hb0 : base s0).
Let r0 : run (R := R) := mkRun s0 w [].
Let prior : Status := match ReadCached w with Ok p => p | Err _ => zeroStatus end.

Record applied (automatic : bool) (reason : gostring) (res : result gostring unit)
    (r' : run (R := R)) : Prop := {
  ap_trace : forall h t, EvTransaction h t ∈ trace r' ->
    reason = [] /\ installable o t (Installed s0) h;
  ap_latest : EvLatest ∈ trace r' -> automatic = false \/ freshCache (o_now o) (w_cache w) = None;
  ap_finished :
    match res with
    | Ok _ => validStatus (status r') = true /\
              (w_state (files r') = w_state w \/ w_state (files r') = Some (encodeStatus (status r')))
    | Err e => benign e
    end;
  ap_updated : res = Ok tt -> LastResult (status r') = "updated" ->
    forall h t, EvTransaction h t ∈ trace r' ->
    o_readbackAfter o = Some (Installed (status r')) /\ Installed (status r') = t /\
    Previous (status r') = Some (Installed s0);
  ap_consumed : res = Ok tt -> EvLatest ∈ trace r' ->
    w_state (files r') = Some (encodeStatus (status r')) /\ LastCheck (status r') = Some (o_now o) /\
    exists cache, w_cache (files r') = Some cache /\ uc_lastCheck cache = o_now o /\
      (uc_error cache <> [] /\ LastResult (status r') = "failed" /\ Code (status r') = Some (uc_error cache) \/
       uc_error cache = [] /\ Latest (status r') = r_version (uc_release cache) /\
       o_latest o = Ok (uc_release cache));
}.

(** A run that ends before any transaction. *)
Lemma applied_quiet automatic reason res r' :
  trace r' = [] ->
  match res with
  | Ok _ => validStatus (status r') = true /\
            (w_state (files r') = w_state w \/ w_state (files r') = Some (encodeStatus (status r')))
  | Err e => benign e
  end -> applied automatic reason res r'.
Proof.
  intros Ht Hres. constructor; try rewrite Ht; try done;
    intros; by match goal with H : _ ∈ [] |- _ => apply elem_of_nil in H end.
Qed.
Lemma base_setLastCheck t s : base s -> base (setLastCheck t s).
Proof. by destruct 1. Qed.

Lemma quiet_failure automatic reason code r1 :
  trace r1 = [] -> base (status r1) -> oneOf code allowedCodes = true ->
  wp (finishFailure o code) (applied automatic reason) r1.
Proof.
  intros Ht Hb Hcode. pose proof (failure_valid _ _ Hb Hcode) as Hv.
  apply wp_finishFailure; rewrite ?Hcode; cbn [status]; rewrite ?Hv; try done; intros.
  - by apply applied_quiet.
  - apply applied_quiet; [done|]. cbn [with_state status files w_state]. auto.
Qed.
Lemma prior_kept s :
  base s -> LastCheck prior <> None -> validStatus (setPolicy (Channel s) (Auto s) prior) = true.
Proof.
  intros Hb. unfold prior. destruct (ReadCached w) as [p|] eqn:Hread; [|done]. intros _.
  assert (Hv : validStatus p = true).
  { unfold ReadCached in Hread. repeat case_match; try done. by injection Hread as <-. }
  unfold validStatus in Hv |- *.
  destruct (_ || _) eqn:Hh in Hv; [done|]. apply orb_false_iff in Hh as [[[Hs Ht]%orb_false_iff Hi]%orb_false_iff _].
  rewrite header_valid.
  - exact Hv.
  - apply negb_false_iff, streq_true in Hs. done.
  - apply negb_false_iff, streq_true in Ht. done.
  - by apply streq_false in Hi.
  - apply Hb.
Qed.

Lemma wp_from_cache automatic reason cache r1 :
  r1 = r0 ->
  wp (from_cache o prior cache)
    (fun res r' => match res with
       | Ok (Some _) => trace r' = [] /\ files r' = w /\ base (status r') /\ Installed (status r') = Installed s0
       | Ok None => applied automatic reason (Ok tt) r'
       | Err e => applied automatic reason (Err e) r' end) r1.
Proof.
  intros ->. unfold from_cache, status_of. wp_step. apply wp_put. wp_step. wp_step.
  cbn [status files trace r0]. pose proof (base_setLastCheck (Some (uc_lastCheck cache)) _ Hb0) as Hb.
  assert (Hkeep : sameCheck prior cache = true ->
    wp (_ ← keepPrior prior; mret (M := M) (@None Release)) (fun res r' => match res with
       | Ok (Some _) => trace r' = [] /\ files r' = w /\ base (status r') /\ Installed (status r') = Installed s0
       | Ok None => applied automatic reason (Ok tt) r'
       | Err e => applied automatic reason (Err e) r' end) (mkRun (setLastCheck (Some (uc_lastCheck cache)) s0) w [])).
  { intros Hsame. wp_step. apply wp_put. wp_step. apply applied_quiet; [done|].
    cbn [status files]. split; [|by left]. apply (prior_kept _ Hb).
    unfold sameCheck in Hsame. by destruct (LastCheck prior). }
  wp_step; [wp_step; [|wp_step]|wp_step; [wp_step|]].
  - wp_step. by apply applied_quiet.
  - apply Hkeep. by bool_to_prop.
  - wp_step. eapply wp_mono; [apply (quiet_failure automatic reason)|]; try done.
    + apply negb_false_iff, bool_decide_eq_true in Hif0.
      repeat (apply elem_of_cons in Hif0 as [->|Hif0]; [reflexivity|]). by apply elem_of_nil in Hif0.
    + intros [[]|e] r' Hr'; [by wp_step | done].
  - apply Hkeep. by bool_to_prop.
  - wp_step. by apply applied_quiet.
  - by wp_step.
Qed.

Lemma applied_error automatic reason e r' :
  benign e -> Forall (fun ev => ev = EvLatest) (trace r') ->
  automatic = false \/ freshCache (o_now o) (w_cache w) = None -> applied automatic reason (Err e) r'.
Proof.
  intros He Ht Hfresh. rewrite Forall_forall in Ht.
  constructor; try done. by intros h t Hin%Ht.
Qed.

Lemma wp_from_network automatic reason r1 :
  r1 = r0 -> automatic = false \/ freshCache (o_now o) (w_cache w) = None ->
  wp (from_network o (o_now o))
    (fun res r' => match res with
       | Ok (Some release) => o_latest o = Ok release /\ trace r' = [EvLatest] /\
           files r' = mkWorld (w_state w) (Some (mkCache (o_now o) release [])) /\
           base (status r') /\ Installed (status r') = Installed s0 /\ LastCheck (status r') = Some (o_now o)
       | Ok None => applied automatic reason (Ok tt) r'
       | Err e => applied automatic reason (Err e) r' end) r1.
Proof.
  intros -> Hfresh. unfold from_network. wp_step. apply wp_saveCache.
  { apply applied_error; done. }
  wp_step. apply wp_emit. cbn [status files trace r0 w_state w_cache app].
  destruct (o_latest o) as [release|noRelease] eqn:Hlatest.
  - wp_step. apply wp_saveCache; [apply applied_error; [done| |done]; by repeat constructor|].
    wp_step. apply wp_put. wp_step. cbn [status files trace w_state].
    pose proof (base_setLastCheck (Some (o_now o)) _ Hb0). done.
  - set (code := if noRelease then _ else _).
    assert (Hcode : oneOf code allowedCodes = true /\ failureResult code = "failed" /\ code <> [])
      by (by destruct noRelease). destruct Hcode as (Hcode & Hfr & Hne).
    wp_step. apply wp_saveCache; [apply applied_error; [done| |done]; by repeat constructor|].
    wp_step. apply wp_put. wp_step. cbn [status files trace w_state w_cache].
    pose proof (failure_valid _ _ (base_setLastCheck (Some (o_now o)) _ Hb0) Hcode) as Hv.
    apply wp_finishFailure; rewrite ?Hcode; cbn [status]; rewrite ?Hv; try done; intros.
    + apply applied_error; [done| |done]. by repeat constructor.
    + wp_step. constructor; cbn [with_state status files trace w_state w_cache setResult setLastCheck].
      * by intros h t ?%list_elem_of_singleton.
      * done.
      * auto.
      * cbn. by rewrite Hfr.
      * intros _ _. split; [done|]. split; [done|]. eexists. split; [done|]. split; [done|].
        left. cbn. by rewrite Hfr.
Qed.

(** [upgrade], started on a release from the cache or from the network. *)
Lemma wp_start_upgrade automatic rel r1 :
  base (status r1) -> Installed (status r1) = Installed s0 ->
  trace r1 = [] /\ files r1 = w \/
  (automatic = false \/ freshCache (o_now o) (w_cache w) = None) /\ o_latest o = Ok rel /\
    trace r1 = [EvLatest] /\ files r1 = mkWorld (w_state w) (Some (mkCache (o_now o) rel [])) /\
    LastCheck (status r1) = Some (o_now o) ->
  wp (upgrade sha256 plat MinimumVersion o rel) (applied automatic []) r1.
Proof.
  intros Hb Hi Hcase. eapply wp_mono; [by apply wp_upgrade|].
  intros res r' [Hc Hck Ht Hl Hfin Hup].
  assert (Hnone : forall h t, EvTransaction h t ∉ trace r1).
  { intros h t. destruct Hcase as [[-> _]|(_ & _ & -> & _)]; [apply not_elem_of_nil|].
    by rewrite list_elem_of_singleton. }
  constructor.
  - intros h t [?|[-> ?]]%Ht; [by edestruct Hnone|]. by rewrite <- Hi.
  - intros Hin%Hl. destruct Hcase as [[E _]|[? _]]; [|done]. rewrite E in Hin. by apply elem_of_nil in Hin.
  - destruct res; naive_solver.
  - intros Hok Hupd h t [?|[-> ?]]%Ht; [by edestruct Hnone|].
    destruct (Hup Hok Hupd) as (? & ? & ? & _). by rewrite <- Hi.
  - intros -> Hin%Hl. destruct Hcase as [[E _]|(_ & Hlat & _ & Hf & Hlc)].
    { rewrite E in Hin. by apply elem_of_nil in Hin. }
    destruct Hfin as (_ & Hver & Hst). rewrite Hck, Hc, Hf, Hlc. split; [done|]. split; [done|].
    eexists. split; [done|]. split; [done|]. right. cbn [uc_error uc_release]. done.
Qed.
Lemma wp_network_upgrade automatic r1 :
  r1 = r0 -> automatic = false \/ freshCache (o_now o) (w_cache w) = None ->
  wp (release ← from_network o (o_now o);
      match release with Some release => upgrade sha256 plat MinimumVersion o release | None => mret tt end)
    (applied automatic []) r1.
Proof.
  intros Hr1 Hfresh. wp_step. eapply wp_mono; [by apply (wp_from_network automatic [])|].
  intros [[rel|]|e] r2 Hpost; [|by wp_step|done].
  destruct Hpost as (? & ? & ? & ? & ? & ?). apply wp_start_upgrade; auto 10.
Qed.

Lemma wp_applyLocked automatic reason :
  oneOf reason ["pinned"; "disabled"; []] = true ->
  wp (applyLocked sha256 plat MinimumVersion o automatic reason) (applied automatic reason) r0.
Proof.
  intros Hreason. unfold applyLocked. wp_step. wp_step. change (files r0) with w. fold prior.
  wp_step.
  - wp_step. apply wp_put. cbn [status files trace r0].
    assert (Hv : validStatus (setLastCheck (LastCheck prior) (setLatest (Latest prior)
                   (setResult reason (Code s0) (Previous s0) s0))) = true).
    { set (s1 := setLastCheck (LastCheck prior) (setLatest (Latest prior) s0)).
      assert (base s1) as Hb1 by (by destruct Hb0).
      apply (plain_valid s1 reason Hb1). apply bool_decide_eq_true in Hreason.
      apply negb_true_iff, streq_false in Hif.
      repeat (apply elem_of_cons in Hreason as [->|Hreason]; [reflexivity|]).
      apply list_elem_of_singleton in Hreason. done. }
    apply wp_saveStatus; cbn [status]; rewrite ?Hv; try done.
    + by apply applied_quiet.
    + intros _. apply applied_quiet; [done|]. cbn [with_state status files w_state]. auto.
  - apply negb_false_iff, streq_true in Hif as ->.
    destruct automatic; [|by apply wp_network_upgrade; [|left]].
    destruct (freshCache _ _) as [cache|] eqn:Hfresh; [|apply wp_network_upgrade; [done | by right]].
    wp_step. eapply wp_mono; [by apply (wp_from_cache true [])|].
    intros [[rel|]|e] r1 Hpost; [|by wp_step|done].
    destruct Hpost as (? & ? & ? & ?). apply wp_start_upgrade; auto.
Qed.
End apply.
End engine_facts.

(** ** Policies *)
Lemma updatePolicy_spec e ch auto reason :
  updatePolicy e = Ok (ch, auto, reason) ->
  ch ∈ (["latest"; "pinned"] : list gostring) /\ oneOf reason ["pinned"; "disabled"; []] = true.
Proof.
  unfold updatePolicy. intros E. repeat case_match; try done; injection E as <- _ <-;
    (split; [|reflexivity]); rewrite !elem_of_cons; auto.
Qed.
Lemma newStatus_base v ch auto :
  v <> [] -> ch ∈ (["latest"; "pinned"] : list gostring) -> base (newStatus v ch auto).
Proof. by constructor. Qed.

Section apply_facts.
Context {R : Type} `{!StatusCodec R} `{!UrlParser}.
Context (sha256 : list ascii -> list ascii) (plat : platform) (MinimumVersion : gostring).
Implicit Types (o : oracle) (w : world R).

(** How [Apply] can end. *)
Inductive apply_end o automatic w : result gostring Status -> world R -> list event -> Prop :=
| end_early e : apply_end o automatic w (Err e) w []
| end_busy installed ch auto reason :
    installed <> [] -> o_readback o = Some installed -> updatePolicy (o_env o) = Ok (ch, auto, reason) ->
    apply_end o automatic w
      (Ok (setResult "deferred" (Some "UPDATE_LOCKED") None (newStatus installed ch auto))) w []
| end_locked actual ch auto reason res r' :
    actual <> [] -> o_lock o = LockAcquired -> o_readbackLocked o = Some actual ->
    updatePolicy (o_envLocked o) = Ok (ch, auto, reason) ->
    base (newStatus actual ch auto) ->
    applied sha256 plat MinimumVersion o w (newStatus actual ch auto) automatic reason res r' ->
    apply_end o automatic w (match res with Ok _ => Ok (status r') | Err _ => Err "update failed" end)
      (files r') (trace r').

Lemma Apply_end o automatic w res w' t :
  Apply sha256 plat MinimumVersion o automatic w = (res, w', t) -> apply_end o automatic w res w' t.
Proof.
  unfold Apply.
  destruct (o_readback o) as [[|c installed]|] eqn:Hread; [by intros [= <- <- <-]; constructor| |by intros [= <- <- <-]; constructor].
  destruct (updatePolicy (o_env o)) as [[[ch auto] reason]|] eqn:Hpol; [|by intros [= <- <- <-]; constructor].
  destruct (o_lock o) eqn:Hlock; [|by intros [= <- <- <-]; econstructor|by intros [= <- <- <-]; constructor].
  destruct (o_readbackLocked o) as [[|d actual]|] eqn:Hread'; [by intros [= <- <- <-]; constructor| |by intros [= <- <- <-]; constructor].
  destruct (updatePolicy (o_envLocked o)) as [[[ch' auto'] reason']|] eqn:Hpol'; [|by intros [= <- <- <-]; constructor].
  destruct (updatePolicy_spec _ _ _ _ Hpol') as [Hch Hreason].
  assert (Hb : base (newStatus (d :: actual) ch' auto')) by by apply newStatus_base.
  pose proof (wp_applyLocked sha256 plat MinimumVersion o w _ Hb automatic reason' Hreason) as Hwp.
  destruct (applyLocked _ _ _ _ _ _ _) as [res0 r'] eqn:Hrun.
  apply (wp_elim _ _ _ _ _ Hwp) in Hrun. intros [= <- <- <-]. by apply (end_locked o automatic w (d :: actual) ch' auto' reason').
Qed.
End apply_facts.

(** ** Checksum files *)
Definition names_file (name line : gostring) : bool :=
  match fields line with [_; file] => streq (trimPrefix file "*") name | _ => false end.
(** The entry of [line]: its 64 hexadecimal digits, in lower case. *)
Definition entry (line h : gostring) : Prop :=
  exists hash file, fields line = [hash; file] /\ length hash = 64 /\
    is_Some (hexDecode hash) /\ h = map lowerByte hash.

Lemma checksum_line_skip name found line :
  names_file name line = false -> checksum_line name found line = Ok found.
Proof.
  unfold names_file, checksum_line. intros E. repeat case_match; try done; by rewrite E in *.
Qed.
Lemma checksum_line_take name found line h :
  names_file name line = true -> checksum_line name found line = Ok h -> found = [] /\ entry line h.
Proof.
  unfold names_file, checksum_line, entry. intros Hn E.
  destruct (fields line) as [|hash [|file [|]]]; try done. rewrite Hn in E. cbn [negb] in E.
  destruct (_ || _) eqn:Hif; [done|]. bool_to_prop. apply streq_true in H.
  destruct (hexDecode hash) eqn:Hhex; [|done]. injection E as <-. split; [done|]. eauto 10.
Qed.
Lemma entry_nonempty line h : entry line h -> h <> [].
Proof. intros (hash & file & _ & Hlen & _ & ->) E. by destruct hash. Qed.

Lemma checksum_fold name ls found :
  mfold (checksum_line name) [] ls = Ok found ->
  filter (fun l => names_file name l = true) ls = [] /\ found = [] \/
  exists line, filter (fun l => names_file name l = true) ls = [line] /\ entry line found.
Proof.
  revert found; induction ls as [|line ls IH] using rev_ind; intros found.
  { intros [= <-]. by left. }
  rewrite mfold_app. intros E. bind_inv E as f Hf. cbn [mfold] in E. bind_inv E as h Hh. injection E as <-.
  rewrite filter_app, filter_cons, filter_nil.
  destruct (names_file name line) eqn:Hn.
  - rewrite decide_True by done. apply checksum_line_take in Hh as [-> Hent]; [|done].
    destruct (IH _ Hf) as [[-> _]|(l & _ & He)]; [right; by exists line | by apply entry_nonempty in He].
  - rewrite decide_False, app_nil_r by done. rewrite checksum_line_skip in Hh by done. injection Hh as <-. auto.
Qed.
Lemma fresh_nonzero now c cache : freshCache now c = Some cache -> c = Some cache /\ uc_lastCheck cache <> 0%Z.
Proof.
  unfold freshCache. destruct c as [c|]; [|done]. case_match; [|done]. intros [= <-]. by bool_to_prop.
Qed.

Section read_back.
Context {R : Type} `{!StatusCodec R}.

Lemma statusKeys_size s : size (encodeStatus s) = 10.
Proof.
  rewrite <- size_dom. replace (dom (encodeStatus s)) with (list_to_set statusKeys : gset gostring).
  - by vm_compute.
  - apply set_eq. intros k. rewrite elem_of_list_to_set, elem_of_dom. by rewrite encode_keys.
Qed.
(** A status that was saved is read back. *)
Lemma ReadCached_saved s (w : world R) :
  validStatus s = true -> jsonStatus s = true -> w_state w = Some (encodeStatus s) -> ReadCached w = Ok s.
Proof.
  intros Hv Hj Hw. unfold ReadCached. rewrite Hw.
  assert (forallb (fun k => bool_decide (is_Some (encodeStatus s !! k))) statusKeys = true) as ->.
  { apply forallb_forall. intros k Hk%list_elem_of_In. apply bool_decide_eq_true. by apply encode_keys. }
  rewrite statusKeys_size. cbn [negb Nat.eqb]. by rewrite decode_encode, Hv.
Qed.
End read_back.

(** * Properties *)
Section properties.
Context {R : Type} `{!StatusCodec R} `{!UrlParser}.
Context (sha256 : list ascii -> list ascii) (plat : platform) (MinimumVersion : gostring).

(** C4: the executable is replaced only when it should be: a run reaches the
    transaction only under the lock, with no pin and automatic updates on,
    for a release strictly newer than the installed version and not below the
    minimum, with an archive whose SHA-256 is the one listed for it. *)
Theorem update_transaction_guarded (o : oracle) (automatic : bool) (w w' : world R)
    (res : result gostring Status) (t : list event) (h target : gostring) :
  Apply sha256 plat MinimumVersion o automatic w = (res, w', t) ->
  EvTransaction h target ∈ t ->
  o_lock o = LockAcquired /\
  (exists ch auto, updatePolicy (o_envLocked o) = Ok (ch, auto, [])) /\
  exists installed, o_readbackLocked o = Some installed /\
    installable sha256 plat MinimumVersion o target installed h.
Proof.
  intros Hend%Apply_end Hin. destruct Hend as [e| |actual ch auto reason res r' _ Hlock Hread Hpol _ Happ];
    [by apply elem_of_nil in Hin..|].
  destruct (ap_trace _ _ _ _ _ _ _ _ _ _ Happ _ _ Hin) as [-> Hinst]. eauto 10.
Qed.

(** Whatever the outcome, a reported status is well formed, and the status
    file is left as it was or holds exactly the reported status. *)
Theorem update_status_valid (o : oracle) (automatic : bool) (w w' : world R) (s : Status) (t : list event) :
  Apply sha256 plat MinimumVersion o automatic w = (Ok s, w', t) ->
  validStatus s = true /\ (w_state w' = w_state w \/ w_state w' = Some (encodeStatus s)).
Proof.
  intros Hend%Apply_end. inversion Hend as [|installed ch auto reason Hne _ Hpol|actual ch auto reason res r' _ _ _ _ _ Happ]; subst.
  - split; [|by left]. apply (failure_valid (newStatus installed ch auto) "UPDATE_LOCKED"); [|done].
    apply newStatus_base; [done|]. by apply updatePolicy_spec in Hpol as [? _].
  - pose proof (ap_finished _ _ _ _ _ _ _ _ _ _ Happ) as Hfin. destruct res; [|done].
    match goal with H : Ok _ = Ok _ |- _ => injection H as <- end. done.
Qed.

(** A run never fails on a status or a failure code it made up itself: the
    errors "invalid status" and "unknown update failure" are unreachable. *)
Theorem update_no_internal_error (o : oracle) (automatic : bool) (w : world R) (e : environment)
    (installed ch reason : gostring) (auto : bool) :
  installed <> [] -> updatePolicy e = Ok (ch, auto, reason) ->
  fst (applyLocked sha256 plat MinimumVersion o automatic reason (mkRun (newStatus installed ch auto) w []))
    ∉ [Err "invalid status"; Err "unknown update failure"].
Proof.
  intros Hne Hpol. destruct (updatePolicy_spec _ _ _ _ Hpol) as [Hch Hreason].
  pose proof (newStatus_base installed ch auto Hne Hch) as Hb.
  pose proof (wp_applyLocked sha256 plat MinimumVersion o w _ Hb automatic reason Hreason) as Hwp.
  unfold wp in Hwp. apply ap_finished in Hwp. destruct (fst _) as [|err].
  - by rewrite !elem_of_cons, elem_of_nil; intros [|[|]].
  - destruct Hwp as [? ?]. rewrite !elem_of_cons, elem_of_nil. intros [|[|]]; congruence.
Qed.

(** A run that installs something and reports "updated" reports the truth:
    the version read back from disk is the target of its transaction, strictly
    newer than the version it replaced, which is recorded as the previous one. *)
Theorem updated_is_newer (o : oracle) (automatic : bool) (w w' : world R) (s : Status)
    (t : list event) (h target : gostring) :
  Apply sha256 plat MinimumVersion o automatic w = (Ok s, w', t) ->
  EvTransaction h target ∈ t -> LastResult s = "updated" ->
  exists previous, o_readbackLocked o = Some previous /\ Previous s = Some previous /\
    o_readbackAfter o = Some (Installed s) /\ Installed s = target /\
    compareVersions (Installed s) previous = Ok 1%Z.
Proof.
  intros Hend%Apply_end Hin Hupd.
  inversion Hend as [|installed ch auto reason Hne _ Hpol|actual ch auto reason res r' _ _ Hread _ _ Happ]; subst;
    [by apply elem_of_nil in Hin|].
  destruct res as [[]|]; [|done]. match goal with H : Ok _ = Ok _ |- _ => injection H as <- end.
  destruct (ap_updated _ _ _ _ _ _ _ _ _ _ Happ eq_refl Hupd _ _ Hin) as (? & <- & ?).
  destruct (ap_trace _ _ _ _ _ _ _ _ _ _ Happ _ _ Hin) as [_ [? _]]. eauto 10.
Qed.

(** The network is not polled more than once a day: an automatic run over
    metadata younger than a day never asks for the latest release. *)
Theorem update_network_throttled (o : oracle) (w w' : world R) (cache : updateCache)
    (res : result gostring Status) (t : list event) :
  freshCache (o_now o) (w_cache w) = Some cache ->
  Apply sha256 plat MinimumVersion o true w = (res, w', t) -> EvLatest ∉ t.
Proof.
  intros Hfresh Hend%Apply_end Hin.
  destruct Hend as [e| |actual ch auto reason res r' _ _ _ _ _ Happ]; [by apply elem_of_nil in Hin..|].
  apply (ap_latest _ _ _ _ _ _ _ _ _ _ Happ) in Hin as [|]; [done|congruence].
Qed.

(** The schedule and the engine agree: after a run that polled the network
    and was not deferred, no command starts another automatic run while the
    metadata is younger than a day. *)
Theorem update_schedule_settles (o : oracle) (automatic : bool) (w w' : world R) (s : Status)
    (t : list event) (executable : gostring) (daemonAvailable : bool) (e : environment) (now : Z)
    (started : bool) :
  Apply sha256 plat MinimumVersion o automatic w = (Ok s, w', t) -> EvLatest ∈ t ->
  LastResult s <> "deferred" -> jsonStatus s = true ->
  (forall release, o_latest o = Ok release ->
     is_ok (compareVersions (r_version release) (r_version release)) = true) ->
  o_now o <> 0%Z -> (timeSub now (o_now o) < day)%Z ->
  MaybeStartAutomatic executable daemonAvailable e now started w' <> Ok true.
Proof.
  intros Hend%Apply_end Hin Hnd Hjson Hver Hnow Hday.
  inversion Hend as [|installed ch auto reason Hne _ Hpol|actual ch auto reason res r' _ _ _ _ _ Happ]; subst;
    [by apply elem_of_nil in Hin|].
  destruct res as [[]|]; [|done]. match goal with H : Ok _ = Ok _ |- _ => injection H as <- end.
  destruct (ap_finished _ _ _ _ _ _ _ _ _ _ Happ) as [Hv _].
  destruct (ap_consumed _ _ _ _ _ _ _ _ _ _ Happ eq_refl Hin) as (Hst & Hck & cache & Hc & Huc & Hcase).
  assert (Hcons : consumed (files r') cache = true).
  { unfold consumed. rewrite (ReadCached_saved _ _ Hv Hjson Hst).
    rewrite (proj2 (streq_false _ _) Hnd). unfold sameCheck. rewrite Hck, Huc, Z.eqb_refl. cbn [negb andb].
    destruct Hcase as [(Hne & Hfail & Hcode)|(He & Hlat & Hrel)].
    - rewrite (proj2 (streq_false _ _) Hne), Hfail, Hcode. cbn [negb].
      by rewrite (proj2 (streq_true _ _) eq_refl), bool_decide_eq_true_2.
    - rewrite He, Hlat, (Hver _ Hrel). cbn [negb]. by rewrite !(proj2 (streq_true _ _) eq_refl). }
  unfold MaybeStartAutomatic. case_match; [done|].
  destruct (updatePolicy e) as [[[? ?] r]|]; [|done]. cbn [mbind result_bind]. case_match; [done|].
  assert (freshCache now (w_cache (files r')) = Some cache) as ->; [|by rewrite Hcons].
  unfold freshCache. rewrite Hc, Huc. decide_cmp.
  destruct (Z.eqb_spec (o_now o) 0); done.
Qed.
End properties.

(** A checksum is accepted only when exactly one line of the (first 2 MiB of
    the) file names the asset; the result is that line's 64 hexadecimal digits. *)
Theorem checksum_unambiguous (content name h : gostring) :
  checksumFor content name = Ok h ->
  length h = 64 /\
  exists line, filter (fun l => names_file name l = true) (scanLines (takeZ (2 * 2 ^ 20) content)) = [line] /\
    entry line h.
Proof.
  unfold checksumFor. case_match; [done|]. intros E. bind_inv E as found Hf.
  destruct (streq found []) eqn:Hne; [done|]. injection E as ->. apply streq_false in Hne.
  destruct (checksum_fold _ _ _ Hf) as [[_ ?]|(line & Hl & He)]; [done|].
  split; [|by eauto]. destruct He as (hash & file & _ & Hlen & _ & ->). by rewrite length_map.
Qed.

(** * Witnesses *)
Module Example_run.
(** A codec in which every key holds the whole status. *)
Definition encode (s : Status) : gmap gostring Status :=
  list_to_map (map (fun k => (k, s)) statusKeys).
Lemma encode_spec s k : is_Some (encode s !! k) <-> k ∈ statusKeys.
Proof.
  unfold encode. rewrite <- not_eq_None_Some, <- not_elem_of_list_to_map.
  change (map (fun k => (k, s)) statusKeys).*1 with statusKeys.
  split; [apply dec_stable | tauto].
Qed.
#[local] Instance codec : StatusCodec Status.
Proof.
  refine {| encodeStatus := encode; decodeStatus m := m !! "schema"; encode_keys := encode_spec |}.
  intros s _. reflexivity.
Defined.
(** A parser that knows the URLs of one release. *)
#[local] Instance urls : UrlParser := fun raw =>
  if hasPrefix raw "https://github.com" then
    Some (mkURL "https" false "github.com" "github.com" (trimPrefix raw "https://github.com")
            (trimPrefix raw "https://github.com") [] [])
  else None.
Definition sha (m : list ascii) : list ascii := repeat "a"%char 32.
Definition linux : platform := mkPlatform "linux" "amd64".
Definition asset (name : gostring) : Asset := mkAsset name (releasePrefix ++ "v0.17.0/" ++ name) 9.
Definition release : Release :=
  mkRelease "0.17.0" [asset "mi-lsp_0.17.0_linux-x64.tar.gz"; asset "mi-lsp_0.17.0_checksums.txt"].
Definition env : environment := mkEnv [] [] [] PinAbsent.
Definition hash : gostring := hexEncode (sha []).
Definition world : oracle :=
  mkOracle (Some "0.16.0") env LockAcquired (Some "0.16.0") env 1000 (true, true) (Ok release) true
    (Downloaded (hash ++ "  mi-lsp_0.17.0_linux-x64.tar.gz" ++ [LF])) (Downloaded "image")
    (mkTx "0.17.0" "0.16.0" [] true, false) (Some "0.17.0") true.
Definition disk : SelfUpdate.world Status := mkWorld None None.
Definition outcome := Apply sha linux "0.16.0" world true disk.
Definition result_files : SelfUpdate.world Status := snd (fst outcome).
Definition status : Status :=
  mkStatus "update-status/v1" "mi-lsp" "0.17.0" "0.17.0" (Some 1000%Z) "updated" None (Some "0.16.0")
    "latest" true.
Definition events : list event :=
  [EvLatest; EvDownload (asset "mi-lsp_0.17.0_checksums.txt");
   EvDownload (asset "mi-lsp_0.17.0_linux-x64.tar.gz"); EvTransaction hash "0.17.0"].
End Example_run.
Import Example_run.
#[local] Existing Instance codec.
#[local] Existing Instance urls.

Lemma update_transaction_guarded_witness :
  Apply sha linux "0.16.0" world true disk = (Ok status, result_files, events) /\
  exists installed, Some installed = Some ("0.16.0" : gostring) /\ installable sha linux "0.16.0" world "0.17.0" installed hash.
Proof.
  assert (E : Apply sha linux "0.16.0" world true disk = (Ok status, result_files, events)) by (vm_compute; reflexivity).
  split; [exact E|]. exists "0.16.0". split; [reflexivity|].
  destruct (update_transaction_guarded sha linux "0.16.0" world true disk result_files (Ok status) events hash "0.17.0" E)
    as (_ & _ & v & Hv & Hinst).
  - unfold events. do 3 (apply elem_of_cons; right). apply list_elem_of_singleton. reflexivity.
  - injection Hv as <-. exact Hinst.
Defined.
Lemma update_status_valid_witness :
  validStatus status = true /\ (w_state result_files = w_state disk \/ w_state result_files = Some (encodeStatus status)).
Proof. apply (update_status_valid sha linux "0.16.0" world true disk result_files status events). vm_compute. reflexivity. Defined.
Lemma update_no_internal_error_witness :
  fst (applyLocked sha linux "0.16.0" world true "pinned" (mkRun (newStatus "0.16.0" "pinned" true) disk []))
    ∉ [Err "invalid status"; Err "unknown update failure"].
Proof.
  apply (update_no_internal_error sha linux "0.16.0" world true disk (mkEnv [] "pinned" [] PinAbsent)
    "0.16.0" "pinned" "pinned" true); [discriminate | reflexivity].
Defined.
Lemma updated_is_newer_witness :
  exists previous, o_readbackLocked world = Some previous /\ Previous status = Some previous /\
    o_readbackAfter world = Some (Installed status) /\ Installed status = "0.17.0" /\
    compareVersions (Installed status) previous = Ok 1%Z.
Proof.
  apply (updated_is_newer sha linux "0.16.0" world true disk result_files status events hash "0.17.0").
  - vm_compute. reflexivity.
  - unfold events. do 3 (apply elem_of_cons; right). apply list_elem_of_singleton. reflexivity.
  - reflexivity.
Defined.
Lemma update_network_throttled_witness :
  EvLatest ∉ snd (Apply sha linux "0.16.0" world true result_files).
Proof.
  destruct (Apply sha linux "0.16.0" world true result_files) as [[res w'] t] eqn:E.
  apply (update_network_throttled sha linux "0.16.0" world result_files w' (mkCache 1000 release []) res t).
  - vm_compute. reflexivity.
  - exact E.
Defined.
Lemma update_schedule_settles_witness :
  MaybeStartAutomatic "/usr/bin/mi-lsp" false env 2000 true result_files <> Ok true.
Proof.
  apply (update_schedule_settles sha linux "0.16.0" world true disk result_files status events).
  - vm_compute. reflexivity.
  - unfold events. apply elem_of_cons. left. reflexivity.
  - discriminate.
  - vm_compute. reflexivity.
  - intros rel. change (o_latest world) with (Ok (E := bool) release). intros [= <-]. vm_compute. reflexivity.
  - discriminate.
  - vm_compute. reflexivity.
Defined.
Lemma checksum_unambiguous_witness :
  exists line, filter (fun l => names_file "a.zip" l = true)
    (scanLines (takeZ (2 * 2 ^ 20) (hash ++ " *a.zip" ++ [CR; LF] ++ hash ++ " b.zip"))) = [line] /\ entry line hash.
Proof.
  apply (checksum_unambiguous (hash ++ " *a.zip" ++ [CR; LF] ++ hash ++ " b.zip") "a.zip" hash).
  vm_compute. reflexivity.
Defined.
