(* ===== verification/Graph.v ===== *)
(** The graph model of internal/model/graph.go: normalized identities, node
    keys and their binary encoding, graph records and their validation, the
    content hasher and the sealing of a generation.

    SHA-256, Unicode NFC (golang.org/x/text) and the URL parser are parameters;
    a digest is the list of its 32 bytes. *)
From S2P Require Import Prelude GoStrings GoStringFacts GoNum.

Local Open Scope go_scope.

(** * Definitions *)

(** ** Errors *)
Inductive graph_error :=
| GraphError (code field message : gostring)
| ErrNodeKeyInvalid
| ErrGraphGenerationInvalid
| ErrGraphEdgeInvalid
| ErrGraphEvidenceInvalid
| ErrGraphUnresolved
| ErrGraphRepositoryInvalid
| ErrGraphPathInvalid
| ErrDigest (message : gostring).
(** [GraphError.Unwrap]: the sentinel that [errors.Is] finds. *)
Definition Unwrap (e : graph_error) : graph_error :=
  match e with
  | GraphError code _ _ =>
      if hasPrefix code "GPH_IDENTITY_REPOSITORY" then ErrGraphRepositoryInvalid
      else if hasPrefix code "GPH_IDENTITY_PATH" then ErrGraphPathInvalid
      else if hasPrefix code "GPH_EDGE_" then ErrGraphEdgeInvalid
      else if hasPrefix code "GPH_EVIDENCE_" then ErrGraphEvidenceInvalid
      else if hasPrefix code "GPH_UNRESOLVED_" then ErrGraphUnresolved
      else if hasPrefix code "GPH_GENERATION_" then ErrGraphGenerationInvalid
      else ErrNodeKeyInvalid
  | e => e
  end.
Abbreviation checked := (result graph_error).

(** ** Parameters *)
Definition hasControl (s : gostring) : bool := existsb (fun '(_, r) => isControlRune r) (runes s).
(** [norm.NFC.String] and what its documentation promises: it is idempotent, it
    maps valid UTF-8 to valid UTF-8 and it does not make control characters or
    surrounding white space appear. *)
Class NFC := {
  nfc : gostring -> gostring;
  nfc_idempotent s : nfc (nfc s) = nfc s;
  nfc_valid s : validString s = true -> validString (nfc s) = true;
  nfc_control s : validString s = true -> hasControl s = false -> hasControl (nfc s) = false;
  nfc_trimmed s : validString s = true -> trimSpace (nfc (trimSpace s)) = nfc (trimSpace s);
}.
(** The parts of a parsed [net/url.URL] that are inspected. *)
Record URL := mkURL {
  u_scheme : gostring; u_hasUser : bool; u_host : gostring; u_hostname : gostring;
  u_escapedPath : gostring; u_rawQuery : gostring; u_fragment : gostring }.
Class UrlParser := url_parse : gostring -> option URL.

Definition NUL : ascii := "000"%char.

(** ** Digests *)
Definition zeroDigest : digest := repeat NUL 32.
Definition digest_String (d : digest) : gostring := hexEncode d.
Definition ParseGraphDigest `{UnicodeTables} (s : gostring) : checked digest :=
  if negb (length s =? 64) || negb (streq (toLower s) s)
  then Err (ErrDigest "digest must be lowercase 64-character hex")
  else match hexDecode s with
       | Some b => if length b =? 32 then Ok b else Err (ErrDigest "invalid digest hex")
       | None => Err (ErrDigest "invalid digest hex")
       end.

(** ** Normalized text *)
Section normalize.
Context `{UnicodeTables} `{NFC}.

Definition normalizeText (v : gostring) : checked gostring :=
  if negb (validString v) then Err (GraphError "GPH_IDENTITY_FIELD_MISSING" [] "invalid UTF-8")
  else if hasControl v
  then Err (GraphError "GPH_IDENTITY_FIELD_MISSING" [] "control character is forbidden")
  else Ok (nfc (trimSpace v)).
Definition required (v field : gostring) : checked gostring :=
  v ← normalizeText v;
  if streq v [] then Err (GraphError "GPH_IDENTITY_FIELD_MISSING" field "field is required") else Ok v.

Definition enumByte (c : ascii) : bool :=
  isLowerByte c || isDigitByte c || memByte c "._+-".
Definition enum (v field : gostring) : checked gostring :=
  v ← required v field;
  let v := toLower v in
  match v with
  | c :: _ =>
      if negb (isLowerByte c)
      then Err (GraphError "GPH_IDENTITY_ENUM_INVALID" field
                  "identifier must start with lowercase ASCII letter")
      else if negb (forallb enumByte v)
      then Err (GraphError "GPH_IDENTITY_ENUM_INVALID" field
                  "identifier must use lowercase ASCII registered-name characters")
      else Ok v
  | [] => Err ErrNodeKeyInvalid (* an index panic; [toLower] of a non-empty string is not empty *)
  end.

(** [len(v) > 1 && v[1] == ':']. *)
Definition driveLetter (v : gostring) : bool :=
  match v with _ :: c :: _ => Ascii.eqb c ":" | _ => false end.
Definition badSegment (p : gostring) : bool := streq p [] || streq p "..".
Definition slashPath (v field : gostring) : checked gostring :=
  v ← required v field;
  if contains v [BSLASH] || hasPrefix v "/" || hasPrefix v "//" || driveLetter v
  then Err (GraphError "GPH_IDENTITY_PATH_INVALID" field "path must be relative slash form")
  else
    let parts := splitByte v "/" in
    if existsb badSegment parts
    then Err (GraphError "GPH_IDENTITY_PATH_INVALID" field "invalid path segment")
    else match filter (fun p => p <> ".") parts with
         | [] => Err (GraphError "GPH_IDENTITY_PATH_INVALID" field "empty path")
         | out => Ok (join out "/")
         end.

(** The closed vocabularies of schema v1. *)
Definition registeredGraphValues (field : gostring) : list gostring :=
  if streq field "backend_type" then
    ["roslyn"; "go"; "tsserver"; "pyright"; "docgraph"; "kotlin-language-server"]
  else if streq field "symbol_kind" then
    ["workspace"; "repository"; "project"; "package"; "file"; "namespace"; "type"; "method";
     "function"; "field"; "property"; "event"; "route"; "test"; "document"]
  else if streq field "relation" then
    ["contains"; "imports"; "references"; "calls"; "implements"; "extends"; "tests";
     "route_to_handler"; "publishes"; "consumes"; "reads"; "writes"; "fulfills"; "verifies";
     "affects"; "supports"; "materializes"; "supersedes"; "experiences"; "stages"; "maps";
     "grounds_in"; "code"; "doc_mentions"; "doc_wikilink"; "doc_embed"; "doc_markdown_link";
     "doc_id"; "doc_hierarchy"; "doc_related"; "doc_depends"; "doc_supports";
     "doc_contradicts"; "doc_supersedes"]
  else [].
Definition registered (v field : gostring) : checked gostring :=
  v ← enum v field;
  if oneOf v (registeredGraphValues field) then Ok v
  else Err (GraphError "GPH_IDENTITY_REGISTERED_INVALID" field "value is not registered for schema v1").
End normalize.

(** ** Repository identity *)
Section repository.
Context `{UnicodeTables} `{NFC} `{UrlParser}.

Definition repoErr (message : gostring) : graph_error :=
  GraphError "GPH_IDENTITY_REPOSITORY_MISSING" "repository_identity" message.
(** Adding the scheme of a schemeless identity; [None]: an invalid SSH one. *)
Definition repository_url (v : gostring) : option gostring :=
  let v := if negb (contains v "://") && negb (hasPrefix (toLower v) "git@") && negb (contains v ":")
              && contains v "/" then "https://" ++ v else v in
  if hasPrefix (toLower v) "git@" || (negb (contains v "://") && contains v ":") then
    match splitByteN v ":" 2 with
    | [host; rest] => if streq host [] then None else Some ("ssh://" ++ host ++ "/" ++ rest)
    | _ => None
    end
  else Some v.
Definition NormalizeRepositoryIdentity (v : gostring) : checked gostring :=
  v ← normalizeText v;
  if streq v [] then Err (repoErr "repository identity is required")
  else if memByte NUL v || hasPrefix v "/" || hasPrefix v "~" || driveLetter v || containsAny v [CR; LF; TAB]
  then Err (repoErr "local/control identity forbidden")
  else
    match repository_url v with
    | None => Err (repoErr "invalid SSH identity")
    | Some v =>
        match url_parse v with
        | None => Err (repoErr "repository must be HTTPS or SSH origin")
        | Some u =>
            let scheme := toLower (u_scheme u) in
            let host := toLower (u_hostname u) in
            let path := trimSuffix (trimSuffix (u_escapedPath u) "/") ".git" in
            if streq (u_scheme u) [] || streq (u_host u) []
            then Err (repoErr "repository must be HTTPS or SSH origin")
            else if negb (streq (u_rawQuery u) []) || negb (streq (u_fragment u) [])
            then Err (repoErr "query/fragment forbidden")
            else if negb (streq scheme "https") && negb (streq scheme "ssh")
            then Err (repoErr "unsupported repository scheme")
            else if u_hasUser u && streq scheme "https"
            then Err (repoErr "HTTPS credentials forbidden")
            else if streq host [] || contains host ".." || containsAny host ["/"%char; BSLASH]
            then Err (repoErr "invalid host")
            else if streq path [] || streq path "/" || contains path ".."
            then Err (repoErr "invalid or folder-only repository path")
            else if existsb (fun p => oneOf p [[]; "."; ".."]) (splitByte (trimPrefix path "/") "/")
            then Err (repoErr "invalid repository path")
            else Ok (host ++ path)
        end
    end.
End repository.

(** ** Node keys *)
Record NodeKeyFields := mkNodeKeyFields {
  RepositoryIdentity : gostring; BackendType : gostring; Language : gostring;
  ProjectOrModule : gostring; OwnerPath : gostring; SymbolKind : gostring;
  SemanticIdentity : gostring }.
#[export] Instance NodeKeyFields_eq_dec : EqDecision NodeKeyFields.
Proof. solve_decision. Defined.

Section nodeKeys.
Context `{UnicodeTables} `{NFC} `{UrlParser} `{SHA256}.

Definition NewNodeKey (f : NodeKeyFields) : checked NodeKeyFields :=
  repository ← NormalizeRepositoryIdentity (RepositoryIdentity f);
  backend ← registered (BackendType f) "backend_type";
  language ← enum (Language f) "language";
  project ← slashPath (ProjectOrModule f) "project_or_module";
  owner ← slashPath (OwnerPath f) "owner_path";
  kind ← registered (SymbolKind f) "symbol_kind";
  semantic ← required (SemanticIdentity f) "semantic_identity";
  Ok (mkNodeKeyFields repository backend language project owner kind semantic).
Definition CanonicalTuple (k : NodeKeyFields) : list gostring :=
  [RepositoryIdentity k; BackendType k; Language k; ProjectOrModule k; OwnerPath k; SymbolKind k;
   SemanticIdentity k].
Definition ValidateNodeKey (k : NodeKeyFields) : checked unit := _ ← NewNodeKey k; Ok tt.
End nodeKeys.

(** ** Binary fields

    [binaryWriter.field] and [GraphContentHasher.f]: a tag byte, the length as
    an unsigned 32-bit integer, the bytes. *)
Definition field (tag : Z) (b : list ascii) : list ascii :=
  zb tag :: be_bytes 4 (Z.of_nat (length b)) ++ b.
Definition text (tag : Z) (s : gostring) : list ascii := field tag s.
Definition digest_field (tag : Z) (d : digest) : list ascii := field tag d.
Definition integer (tag : Z) (n : Z) : list ascii := field tag (be_bytes 8 n).
(** The tuple, with tags from 1. *)
Definition tuple_bytes (vs : list gostring) : list ascii :=
  concat (imap (fun i s => text (Z.of_nat (S i)) s) vs).

Section keys.
Context `{UnicodeTables} `{NFC} `{UrlParser} `{SHA256}.

Definition Serialize (k : NodeKeyFields) : checked (list ascii) :=
  n ← NewNodeKey k;
  Ok ("MILSP-NK" ++ [zb 1] ++ be_bytes 2 7 ++ tuple_bytes (CanonicalTuple n)).
Definition Hash (k : NodeKeyFields) : checked digest := b ← Serialize k; Ok (sha256 b).

Definition NodeRID (d : digest) : gostring := "milsp:gph-node:v1:" ++ digest_String d.
Definition EdgeRID (d : digest) : gostring := "milsp:gph-edge:v1:" ++ digest_String d.
Definition EvidenceRID (d : digest) : gostring := "milsp:gph-evidence:v1:" ++ digest_String d.
Definition UnresolvedRID (d : digest) : gostring := "milsp:gph-unresolved:v1:" ++ digest_String d.

Definition EdgeKey_bytes (from to : digest) (relation scope : gostring) : list ascii :=
  "MILSP-EK/v1" ++ digest_field 1 from ++ text 2 relation ++ digest_field 3 to ++ text 4 scope.
Definition EdgeKey (from to : digest) (relation scope : gostring) : digest :=
  sha256 (EdgeKey_bytes from to relation scope).
Definition EvidenceKey (subject evidence : digest) (ordinal : Z) : digest :=
  sha256 ("MILSP-EVIDENCE/v1" ++ digest_field 1 subject ++ digest_field 2 evidence ++ integer 3 ordinal).
Definition EvidenceDigest (source observed : digest) (sourceURI claimKind backend extractor : gostring)
    (startLine startColumn endLine endColumn : Z) : digest :=
  sha256 ("MILSP-EVIDENCE-DIGEST/v1" ++ digest_field 1 source ++ digest_field 2 observed
          ++ text 3 sourceURI ++ text 4 claimKind ++ text 5 backend ++ text 6 extractor
          ++ integer 7 startLine ++ integer 8 startColumn ++ integer 9 endLine ++ integer 10 endColumn).
End keys.

(** ** Records *)
Definition maxUnresolvedCandidates : nat := 64.
Definition maxCandidateBytes : Z := 4096.

Record GraphGeneration := mkGeneration {
  g_GenerationID : digest; g_SchemaVersion : Z; g_WorkspaceIdentity : gostring;
  g_RepositoryIdentity : gostring; g_SourceFingerprint : digest; g_ConfigFingerprint : digest;
  g_BackendManifestDigest : digest; g_ContentDigest : digest; g_Status : gostring;
  g_ErrorCode : gostring; g_NodeCount : Z; g_EdgeCount : Z; g_EvidenceCount : Z;
  g_UnresolvedCount : Z; g_PreviousGenerationID : option digest; g_CreatedAt : Z; g_PublishedAt : Z }.
Record GraphNodeRecord := mkNode {
  n_GenerationID : digest; n_NodeID : Z; n_NodeKey : digest; n_Identity : NodeKeyFields;
  n_IdentitySchema : gostring; n_DisplayName : gostring; n_SourceDigest : digest;
  n_ClaimStatus : gostring; n_CrossRID : gostring; n_SortKey : gostring }.
Record GraphEdgeRecord := mkEdge {
  e_GenerationID : digest; e_EdgeID : Z; e_EdgeKey : digest; e_FromNodeID : Z; e_ToNodeID : Z;
  e_Relation : gostring; e_ClaimScope : gostring; e_ClaimStatus : gostring; e_OwnerPath : gostring;
  e_SourceBackend : gostring; e_CrossRID : gostring }.
Record GraphEvidence := mkEvidence {
  v_GenerationID : digest; v_EvidenceID : Z; v_EvidenceKey : digest; v_EvidenceDigest : digest;
  v_SubjectKind : gostring; v_NodeID : option Z; v_EdgeID : option Z; v_SourceURI : gostring;
  v_StartLine : option Z; v_StartColumn : option Z; v_EndLine : option Z; v_EndColumn : option Z;
  v_Backend : gostring; v_ExtractorVersion : gostring; v_SourceDigest : digest;
  v_ClaimKind : gostring; v_ObservedClaimDigest : digest; v_ClaimStatus : gostring;
  v_CrossRID : gostring }.
Record GraphUnresolved := mkUnresolved {
  u_GenerationID : digest; u_UnresolvedID : Z; u_UnresolvedKey : digest; u_OwnerPath : gostring;
  u_SubjectKind : gostring; u_SelectorDigest : digest; u_ReasonCode : gostring;
  u_Candidates : list gostring; u_Backend : gostring; u_SourceDigest : option digest;
  u_CrossRID : gostring; u_RecoveryHintCode : gostring; u_SourceDocument : gostring;
  u_SourceBlock : gostring; u_TargetKind : gostring; u_TargetValue : gostring }.
Record GraphBundle := mkBundle {
  Generation : GraphGeneration; Nodes : list GraphNodeRecord; Edges : list GraphEdgeRecord;
  Evidence : list GraphEvidence; Unresolved : list GraphUnresolved }.

Definition validStatus (s : gostring) : bool := oneOf s ["staged"; "active"; "retired"; "invalid"].
Definition validClaim (s : gostring) : bool := oneOf s ["exact"; "extracted"; "inferred"].
(** [(a == nil) == (b == nil)]. *)
Definition sameNil {A B} (a : option A) (b : option B) : bool :=
  match a, b with None, None | Some _, Some _ => true | _, _ => false end.
Definition lenZ {A} (l : list A) : Z := Z.of_nat (length l).

Section validation.
Context `{UnicodeTables} `{NFC} `{UrlParser} `{SHA256}.

(** ** Record validation *)
Definition ValidateGraphNodeRecord (n : GraphNodeRecord) : checked unit :=
  if (n_NodeID n <? 0)%Z || negb (streq (n_IdentitySchema n) "milsp-node-key/v1")
     || negb (validClaim (n_ClaimStatus n)) then Err ErrNodeKeyInvalid
  else
    identity ← NewNodeKey (n_Identity n);
    match Hash identity with
    | Ok key => if negb (streq key (n_NodeKey n)) || negb (streq (n_CrossRID n) (NodeRID key))
                then Err ErrNodeKeyInvalid else Ok tt
    | Err _ => Err ErrNodeKeyInvalid
    end.

Definition ValidateGraphEdgeRecord (e : GraphEdgeRecord) (from to : digest) : checked unit :=
  if (e_EdgeID e <? 0)%Z || streq (e_ClaimScope e) [] || negb (validClaim (e_ClaimStatus e))
  then Err ErrGraphEdgeInvalid
  else if negb (is_ok (registered (e_Relation e) "relation")) then Err ErrGraphEdgeInvalid
  else if negb (is_ok (registered (e_SourceBackend e) "backend_type")) then Err ErrGraphEdgeInvalid
  else
    _ ← slashPath (e_OwnerPath e) "owner_path";
    let key := EdgeKey from to (e_Relation e) (e_ClaimScope e) in
    if negb (streq (e_EdgeKey e) key) || negb (streq (e_CrossRID e) (EdgeRID key))
    then Err ErrGraphEdgeInvalid else Ok tt.

(** The four positions are all absent, or all present, non-negative and in order. *)
Definition positions (e : GraphEvidence) : list (option Z) :=
  [v_StartLine e; v_StartColumn e; v_EndLine e; v_EndColumn e].
Definition positions_ok (e : GraphEvidence) : bool :=
  forallb (fun v => match v with Some z => (0 <=? z)%Z | None => true end) (positions e)
  && match v_StartLine e, v_StartColumn e, v_EndLine e, v_EndColumn e with
     | None, None, None, None => true
     | Some sl, Some sc, Some el, Some ec => negb ((el <? sl) || ((sl =? el) && (ec <? sc)))%Z
     | _, _, _, _ => false
     end.
Definition evidence_digest (e : GraphEvidence) : digest :=
  let '(sl, sc, el, ec) :=
    match v_StartLine e with
    | Some sl => (sl, default 0 (v_StartColumn e), default 0 (v_EndLine e), default 0 (v_EndColumn e))
    | None => (0, 0, 0, 0)
    end%Z in
  EvidenceDigest (v_SourceDigest e) (v_ObservedClaimDigest e) (v_SourceURI e) (v_ClaimKind e)
    (v_Backend e) (v_ExtractorVersion e) sl sc el ec.
Definition ValidateGraphEvidence (e : GraphEvidence) (subject : digest) : checked unit :=
  if (v_EvidenceID e <? 0)%Z || sameNil (v_NodeID e) (v_EdgeID e)
     || negb (oneOf (v_SubjectKind e) ["node"; "edge"]) || streq (v_SourceURI e) []
     || streq (v_ExtractorVersion e) [] || streq (v_ClaimKind e) [] || negb (validClaim (v_ClaimStatus e))
  then Err ErrGraphEvidenceInvalid
  else if negb (is_ok (registered (v_Backend e) "backend_type")) then Err ErrGraphEvidenceInvalid
  else if negb (is_ok (slashPath (v_SourceURI e) "source_uri")) then Err ErrGraphEvidenceInvalid
  else if negb (positions_ok e) then Err ErrGraphEvidenceInvalid
  else
    let d := evidence_digest e in
    if negb (streq (v_EvidenceDigest e) d) || negb (streq (v_EvidenceKey e) (EvidenceKey subject d (v_EvidenceID e)))
       || negb (streq (v_CrossRID e) (EvidenceRID (v_EvidenceKey e)))
    then Err ErrGraphEvidenceInvalid else Ok tt.

Definition optional_digest (tag : Z) (d : option digest) : list ascii :=
  match d with Some d => digest_field tag d | None => [] end.
Definition GraphUnresolvedKey (u : GraphUnresolved) : digest :=
  sha256 ("MILSP-UNRESOLVED/v1" ++ text 1 (u_OwnerPath u) ++ text 2 (u_SubjectKind u)
    ++ digest_field 3 (u_SelectorDigest u) ++ text 4 (u_ReasonCode u)
    ++ concat (map (text 5) (u_Candidates u)) ++ text 6 (u_Backend u)
    ++ optional_digest 7 (u_SourceDigest u) ++ text 8 (u_RecoveryHintCode u)).

Definition normalizeContext (v name : gostring) : checked gostring :=
  n ← normalizeText v;
  if negb (streq v []) && streq n [] then Err (GraphError "GPH_IDENTITY_FIELD_MISSING" name "field is required")
  else Ok n.
(** The method updates its argument; the model returns the updated record. *)
Definition NormalizeGraphUnresolvedContext (u : GraphUnresolved) : checked GraphUnresolved :=
  doc ← normalizeContext (u_SourceDocument u) "source_document";
  block ← normalizeContext (u_SourceBlock u) "source_block";
  kind ← normalizeContext (u_TargetKind u) "target_kind";
  value ← normalizeContext (u_TargetValue u) "target_value";
  Ok (mkUnresolved (u_GenerationID u) (u_UnresolvedID u) (u_UnresolvedKey u) (u_OwnerPath u)
        (u_SubjectKind u) (u_SelectorDigest u) (u_ReasonCode u) (u_Candidates u) (u_Backend u)
        (u_SourceDigest u) (u_CrossRID u) (u_RecoveryHintCode u) doc block kind value).
Definition optionalRequired (v name : gostring) : bool := streq v [] || is_ok (required v name).
Definition validateGraphUnresolvedContext (u : GraphUnresolved) : bool :=
  match NormalizeGraphUnresolvedContext u with
  | Err _ => false
  | Ok u =>
      (streq (u_SourceDocument u) [] || is_ok (slashPath (u_SourceDocument u) "source_document"))
      && optionalRequired (u_SourceBlock u) "source_block"
      && optionalRequired (u_TargetKind u) "target_kind"
      && optionalRequired (u_TargetValue u) "target_value"
      && (lenZ (u_SourceDocument u) + lenZ (u_SourceBlock u) + lenZ (u_TargetKind u)
          + lenZ (u_TargetValue u) <=? maxCandidateBytes)%Z
  end.
(** The candidates are present text, and their running total stays in bounds. *)
Fixpoint candidates_ok (total : Z) (cs : list gostring) : bool :=
  match cs with
  | [] => true
  | c :: cs =>
      is_ok (required c "candidate") && (total + lenZ c <=? maxCandidateBytes)%Z
      && candidates_ok (total + lenZ c) cs
  end.
Definition ValidateGraphUnresolved (u : GraphUnresolved) : checked unit :=
  if (u_UnresolvedID u <? 0)%Z || streq (u_OwnerPath u) [] || streq (u_SubjectKind u) []
     || streq (u_ReasonCode u) [] || streq (u_Backend u) []
     || (maxUnresolvedCandidates <? length (u_Candidates u))
  then Err ErrGraphUnresolved
  else if negb (is_ok (slashPath (u_OwnerPath u) "owner_path")) then Err ErrGraphUnresolved
  else if negb (validateGraphUnresolvedContext u) then Err ErrGraphUnresolved
  else if negb (candidates_ok 0 (u_Candidates u)) then Err ErrGraphUnresolved
  else
    let key := GraphUnresolvedKey u in
    if negb (streq (u_UnresolvedKey u) key) || negb (streq (u_CrossRID u) (UnresolvedRID key))
    then Err ErrGraphUnresolved else Ok tt.

Definition validateWorkspaceIdentity (v : gostring) : checked unit :=
  v ← required v "workspace_identity";
  if hasPrefix v "/" || hasPrefix v "~" || hasPrefix v [BSLASH; BSLASH] || driveLetter v
  then Err (GraphError "GPH_GENERATION_WORKSPACE_INVALID" "workspace_identity"
              "workspace metadata must not be an absolute path")
  else Ok tt.
End validation.

(** ** The content hasher

    A state machine: the hashed bytes, the declared and the written number of
    records of each of the four sections, and the current section.  A failed
    call ends the use of the hasher, as it does in every caller: the state it
    leaves behind (some sections opened) is not kept. *)
Record GraphContentHasher := mkHasher {
  h_bytes : list ascii; h_counts : list Z; h_written : list Z; h_phase : nat }.
Definition content_error (kind message : gostring) : graph_error :=
  GraphError "GPH_GENERATION_INVALID" kind message.
Definition section_names : list gostring :=
  ["MILSP-GRAPH-NODES/v2"; "MILSP-GRAPH-EDGES/v2"; "MILSP-GRAPH-EVIDENCE/v2"; "MILSP-GRAPH-UNRESOLVED/v2"].
Definition nth_count (l : list Z) (i : nat) : Z := nth i l 0%Z.
Definition write (b : list ascii) (h : GraphContentHasher) : GraphContentHasher :=
  mkHasher (h_bytes h ++ b) (h_counts h) (h_written h) (h_phase h).
Definition section (p : nat) (h : GraphContentHasher) : GraphContentHasher :=
  write (text 240 (nth p section_names []) ++ integer 241 (nth_count (h_counts h) p)) h.
Definition NewGraphContentHasher (nodes edges evidence unresolved : Z) : checked GraphContentHasher :=
  if existsb (fun n => n <? 0)%Z [nodes; edges; evidence; unresolved]
  then Err (content_error "content_counts" "content record counts must be non-negative")
  else Ok (section 0 (mkHasher "MILSP-GRAPH-CONTENT/v2" [nodes; edges; evidence; unresolved] [0; 0; 0; 0]%Z 0)).
(** [advance]: [k] sections remain to be opened. *)
Fixpoint advance_by (k : nat) (h : GraphContentHasher) : checked GraphContentHasher :=
  match k with
  | 0 => Ok h
  | S k =>
      if negb (nth_count (h_written h) (h_phase h) =? nth_count (h_counts h) (h_phase h))%Z
      then Err (content_error "content_counts" "graph content section is incomplete")
      else
        let p := S (h_phase h) in
        advance_by k (section p (mkHasher (h_bytes h) (h_counts h) (h_written h) p))
  end.
Definition advance (to : nat) (h : GraphContentHasher) : checked GraphContentHasher :=
  if (to <? h_phase h) || (3 <? to)
  then Err (content_error "content_order" "graph content section is out of order")
  else advance_by (to - h_phase h) h.
Definition begin (p : nat) (h : GraphContentHasher) : checked GraphContentHasher :=
  h ← advance p h;
  if (nth_count (h_counts h) p <=? nth_count (h_written h) p)%Z
  then Err (content_error "content_counts" "graph content has too many records")
  else Ok (mkHasher (h_bytes h ++ field 242 []) (h_counts h)
             (<[p := (nth_count (h_written h) p + 1)%Z]> (h_written h)) (h_phase h)).

Definition node_fields (n : GraphNodeRecord) : list ascii :=
  integer 1 (n_NodeID n) ++ digest_field 2 (n_NodeKey n) ++ text 3 (n_IdentitySchema n)
  ++ text 4 (RepositoryIdentity (n_Identity n)) ++ text 5 (BackendType (n_Identity n))
  ++ text 6 (Language (n_Identity n)) ++ text 7 (ProjectOrModule (n_Identity n))
  ++ text 8 (OwnerPath (n_Identity n)) ++ text 9 (SymbolKind (n_Identity n))
  ++ text 10 (SemanticIdentity (n_Identity n)) ++ text 11 (n_DisplayName n)
  ++ digest_field 12 (n_SourceDigest n) ++ text 13 (n_ClaimStatus n) ++ text 14 (n_CrossRID n)
  ++ text 15 (n_SortKey n).
Definition edge_fields (e : GraphEdgeRecord) : list ascii :=
  integer 1 (e_EdgeID e) ++ digest_field 2 (e_EdgeKey e) ++ integer 3 (e_FromNodeID e)
  ++ integer 4 (e_ToNodeID e) ++ text 5 (e_Relation e) ++ text 6 (e_ClaimScope e)
  ++ text 7 (e_ClaimStatus e) ++ text 8 (e_OwnerPath e) ++ text 9 (e_SourceBackend e)
  ++ text 10 (e_CrossRID e).
Definition optional_integer (tag : Z) (n : option Z) : list ascii :=
  match n with Some n => integer tag n | None => [] end.
Definition evidence_fields (e : GraphEvidence) : list ascii :=
  integer 1 (v_EvidenceID e) ++ digest_field 2 (v_EvidenceKey e) ++ digest_field 3 (v_EvidenceDigest e)
  ++ text 4 (v_SubjectKind e) ++ optional_integer 5 (v_NodeID e) ++ optional_integer 6 (v_EdgeID e)
  ++ text 7 (v_SourceURI e) ++ text 8 (v_Backend e) ++ text 9 (v_ExtractorVersion e)
  ++ digest_field 10 (v_SourceDigest e) ++ text 11 (v_ClaimKind e)
  ++ digest_field 12 (v_ObservedClaimDigest e) ++ text 13 (v_ClaimStatus e) ++ text 14 (v_CrossRID e).
Definition unresolved_fields (provenance : bool) (u : GraphUnresolved) : list ascii :=
  integer 1 (u_UnresolvedID u) ++ digest_field 2 (u_UnresolvedKey u) ++ text 3 (u_OwnerPath u)
  ++ text 4 (u_SubjectKind u) ++ digest_field 5 (u_SelectorDigest u) ++ text 6 (u_ReasonCode u)
  ++ concat (map (text 7) (u_Candidates u)) ++ text 8 (u_Backend u)
  ++ optional_digest 9 (u_SourceDigest u) ++ text 10 (u_CrossRID u) ++ text 11 (u_RecoveryHintCode u)
  ++ (if provenance
      then text 12 (u_SourceDocument u) ++ text 13 (u_SourceBlock u) ++ text 14 (u_TargetKind u)
           ++ text 15 (u_TargetValue u)
      else []).

Section hasher.
Context `{UnicodeTables} `{NFC} `{UrlParser} `{SHA256}.

Definition AddNode (n : GraphNodeRecord) (h : GraphContentHasher) : checked GraphContentHasher :=
  h ← begin 0 h; Ok (write (node_fields n) h).
Definition AddEdge (e : GraphEdgeRecord) (h : GraphContentHasher) : checked GraphContentHasher :=
  h ← begin 1 h; Ok (write (edge_fields e) h).
Definition AddEvidence (e : GraphEvidence) (h : GraphContentHasher) : checked GraphContentHasher :=
  h ← begin 2 h; Ok (write (evidence_fields e) h).
Definition addUnresolved (provenance : bool) (u : GraphUnresolved) (h : GraphContentHasher) :
    checked GraphContentHasher :=
  u ← (if provenance then NormalizeGraphUnresolvedContext u else Ok u);
  h ← begin 3 h; Ok (write (unresolved_fields provenance u) h).
Definition AddUnresolved := addUnresolved true.
Definition AddUnresolvedLegacy := addUnresolved false.
Definition Sum (h : GraphContentHasher) : checked digest :=
  h ← advance 3 h;
  if negb (nth_count (h_written h) 3 =? nth_count (h_counts h) 3)%Z
  then Err (content_error "content_counts" "graph content section is incomplete")
  else Ok (sha256 (h_bytes h)).

(** ** Bundles *)

(** The loop state of the node pass: the node keys seen so far. *)
Definition check_node (gen : digest) (seen : gmap digest NodeKeyFields) (i : nat) (n : GraphNodeRecord) :
    checked (gmap digest NodeKeyFields) :=
  if negb (n_NodeID n =? Z.of_nat i)%Z || negb (streq (n_GenerationID n) gen)
     || negb (streq (n_IdentitySchema n) "milsp-node-key/v1") || negb (validClaim (n_ClaimStatus n))
  then Err ErrGraphGenerationInvalid
  else
    _ ← ValidateGraphNodeRecord n;
    nk ← NewNodeKey (n_Identity n);
    d ← Hash nk;
    match seen !! d with
    | Some old =>
        if decide (old = nk)
        then Err (GraphError "GPH_IDENTITY_DUPLICATE" "node_key" "duplicate node key in generation")
        else Err (GraphError "GPH_IDENTITY_COLLISION" "node_key" "same node key has different canonical tuple")
    | None => if streq (n_CrossRID n) (NodeRID d) then Ok (<[d := nk]> seen) else Err ErrNodeKeyInvalid
    end.
Fixpoint check_nodes (gen : digest) (seen : gmap digest NodeKeyFields) (i : nat) (ns : list GraphNodeRecord) :
    checked unit :=
  match ns with
  | [] => Ok tt
  | n :: ns => seen ← check_node gen seen i n; check_nodes gen seen (S i) ns
  end.

(** [nodes[id]] in the map filled by the node pass, where identifiers are positions. *)
Definition lookupZ {A} (l : list A) (i : Z) : option A := if (i <? 0)%Z then None else l !! Z.to_nat i.

Definition check_edge (gen : digest) (nodes : list GraphNodeRecord) (seen : gset digest) (i : nat)
    (e : GraphEdgeRecord) : checked (gset digest) :=
  match lookupZ nodes (e_FromNodeID e), lookupZ nodes (e_ToNodeID e) with
  | Some from, Some to =>
      if negb (e_EdgeID e =? Z.of_nat i)%Z || negb (streq (e_GenerationID e) gen) || streq (e_Relation e) []
         || streq (e_SourceBackend e) [] || negb (validClaim (e_ClaimStatus e))
      then Err ErrGraphEdgeInvalid
      else
        let d := EdgeKey (n_NodeKey from) (n_NodeKey to) (e_Relation e) (e_ClaimScope e) in
        if negb (is_ok (ValidateGraphEdgeRecord e (n_NodeKey from) (n_NodeKey to))) || bool_decide (d ∈ seen)
        then Err ErrGraphEdgeInvalid
        else Ok ({[d]} ∪ seen)
  | _, _ => Err ErrGraphEdgeInvalid
  end.
Fixpoint check_edges (gen : digest) (nodes : list GraphNodeRecord) (seen : gset digest) (i : nat)
    (es : list GraphEdgeRecord) : checked unit :=
  match es with
  | [] => Ok tt
  | e :: es => seen ← check_edge gen nodes seen i e; check_edges gen nodes seen (S i) es
  end.

(** [covered] is the set of edges that have evidence. *)
Definition check_evidence (gen : digest) (nodes : list GraphNodeRecord) (edges : list GraphEdgeRecord)
    (covered : gset Z) (i : nat) (e : GraphEvidence) : checked (gset Z) :=
  if negb (v_EvidenceID e =? Z.of_nat i)%Z || negb (streq (v_GenerationID e) gen) || streq (v_Backend e) []
     || streq (v_ExtractorVersion e) [] || streq (v_SourceURI e) [] || hasPrefix (v_SourceURI e) "/"
     || contains (v_SourceURI e) ".." || negb (validClaim (v_ClaimStatus e))
  then Err ErrGraphEvidenceInvalid
  else
    '(subject, kind, covered) ←
      match v_NodeID e, v_EdgeID e with
      | Some id, None =>
          match lookupZ nodes id with
          | Some n => Ok (n_NodeKey n, "node" : gostring, covered)
          | None => Err ErrGraphEvidenceInvalid
          end
      | None, Some id =>
          match lookupZ edges id with
          | Some ed => Ok (e_EdgeKey ed, "edge" : gostring, {[id]} ∪ covered)
          | None => Err ErrGraphEvidenceInvalid
          end
      | _, _ => Err ErrGraphEvidenceInvalid
      end;
    if negb (streq (v_SubjectKind e) kind) then Err ErrGraphEvidenceInvalid
    else _ ← ValidateGraphEvidence e subject; Ok covered.
Fixpoint check_evidences (gen : digest) (nodes : list GraphNodeRecord) (edges : list GraphEdgeRecord)
    (covered : gset Z) (i : nat) (vs : list GraphEvidence) : checked (gset Z) :=
  match vs with
  | [] => Ok covered
  | v :: vs => covered ← check_evidence gen nodes edges covered i v;
               check_evidences gen nodes edges covered (S i) vs
  end.

(** The pass over the unresolved claims normalizes them in place. *)
Definition check_unresolved (gen : digest) (i : nat) (u : GraphUnresolved) : checked GraphUnresolved :=
  match NormalizeGraphUnresolvedContext u with
  | Err _ => Err ErrGraphUnresolved
  | Ok u =>
      if negb (u_UnresolvedID u =? Z.of_nat i)%Z || negb (streq (u_GenerationID u) gen)
         || negb (is_ok (ValidateGraphUnresolved u)) then Err ErrGraphUnresolved
      else
        _ ← slashPath (u_OwnerPath u) "owner_path";
        _ ← miter (fun c => _ ← required c "candidate"; Ok tt) (u_Candidates u);
        if negb (candidates_ok 0 (u_Candidates u)) then Err ErrGraphUnresolved
        else
          let d := GraphUnresolvedKey u in
          if negb (streq d (u_UnresolvedKey u)) || negb (streq (u_CrossRID u) (UnresolvedRID d))
          then Err ErrGraphUnresolved else Ok u
  end.
Fixpoint check_unresolveds (gen : digest) (i : nat) (us : list GraphUnresolved) : checked (list GraphUnresolved) :=
  match us with
  | [] => Ok []
  | u :: us => u ← check_unresolved gen i u; us ← check_unresolveds gen (S i) us; Ok (u :: us)
  end.

(** The checks of [validate] before and after the test for a sealed generation. *)
Definition validate_metadata (b : GraphBundle) : checked unit :=
  let g := Generation b in
  if (g_SchemaVersion g <? 1)%Z || streq (g_RepositoryIdentity g) [] || negb (validStatus (g_Status g))
     || negb (g_NodeCount g =? lenZ (Nodes b))%Z || negb (g_EdgeCount g =? lenZ (Edges b))%Z
     || negb (g_EvidenceCount g =? lenZ (Evidence b))%Z
     || negb (g_UnresolvedCount g =? lenZ (Unresolved b))%Z
  then Err (GraphError "GPH_GENERATION_INVALID" "generation" "invalid generation metadata or collection counts")
  else
    _ ← validateWorkspaceIdentity (g_WorkspaceIdentity g);
    normalRepo ← NormalizeRepositoryIdentity (g_RepositoryIdentity g);
    if negb (streq (g_WorkspaceIdentity g) normalRepo)
    then Err (GraphError "GPH_GENERATION_WORKSPACE_INVALID" "workspace_identity"
                "workspace identity must equal normalized repository identity")
    else Ok tt.
(** The bundle is returned because its unresolved claims have been normalized. *)
Definition validate_records (b : GraphBundle) : checked GraphBundle :=
  let gen := g_GenerationID (Generation b) in
  _ ← check_nodes gen ∅ 0 (Nodes b);
  _ ← check_edges gen (Nodes b) ∅ 0 (Edges b);
  covered ← check_evidences gen (Nodes b) (Edges b) ∅ 0 (Evidence b);
  if negb (forallb (fun e => bool_decide (e_EdgeID e ∈ covered)) (Edges b)) then Err ErrGraphEvidenceInvalid
  else
    us ← check_unresolveds gen 0 (Unresolved b);
    Ok (mkBundle (Generation b) (Nodes b) (Edges b) (Evidence b) us).
(** [validate(false)]. *)
Definition validate_unsealed (b : GraphBundle) : checked GraphBundle :=
  _ ← validate_metadata b; validate_records b.

(** [sort.Slice] by identifier.  The records of a validated bundle have
    distinct identifiers, so the choice of algorithm does not show. *)
Fixpoint insertBy {A} (key : A -> Z) (x : A) (l : list A) : list A :=
  match l with
  | [] => [x]
  | y :: l' => if (key y <? key x)%Z then y :: insertBy key x l' else x :: l
  end.
Definition sortBy {A} (key : A -> Z) (l : list A) : list A := foldr (insertBy key) [] l.

(** The digest, and the bundle as [validate] left it. *)
Definition ContentDigest (b : GraphBundle) : checked (digest * GraphBundle) :=
  b ← validate_unsealed b;
  h ← NewGraphContentHasher (lenZ (Nodes b)) (lenZ (Edges b)) (lenZ (Evidence b)) (lenZ (Unresolved b));
  h ← mfold (fun h n => AddNode n h) h (sortBy n_NodeID (Nodes b));
  h ← mfold (fun h e => AddEdge e h) h (sortBy e_EdgeID (Edges b));
  h ← mfold (fun h e => AddEvidence e h) h (sortBy v_EvidenceID (Evidence b));
  h ← mfold (fun h u => AddUnresolved u h) h (sortBy u_UnresolvedID (Unresolved b));
  d ← Sum h;
  Ok (d, b).

Definition generationBytes (schema : Z) (repo : gostring) (source config backend content : digest) :
    checked (list ascii) :=
  canonical ← NormalizeRepositoryIdentity repo;
  if (schema <? 1)%Z then Err (content_error "schema_version" "schema version is required")
  else Ok ("MILSP-GENERATION/v2" ++ integer 1 schema ++ text 2 canonical ++ digest_field 3 source
           ++ digest_field 4 config ++ digest_field 5 backend ++ digest_field 6 content).
Definition DeriveGenerationID (schema : Z) (repo : gostring) (source config backend content : digest) : digest :=
  match generationBytes schema repo source config backend content with
  | Ok raw => sha256 raw
  | Err _ => zeroDigest
  end.
Definition generation_id (g : GraphGeneration) (content : digest) : digest :=
  DeriveGenerationID (g_SchemaVersion g) (g_WorkspaceIdentity g) (g_SourceFingerprint g)
    (g_ConfigFingerprint g) (g_BackendManifestDigest g) content.

(** [validate(true)]. *)
Definition Validate (b : GraphBundle) : checked GraphBundle :=
  let g := Generation b in
  _ ← validate_metadata b;
  if streq (g_GenerationID g) zeroDigest || streq (g_ContentDigest g) zeroDigest
  then Err ErrGraphGenerationInvalid
  else
    b ← validate_records b;
    match ContentDigest b with
    | Err _ => Err ErrGraphGenerationInvalid
    | Ok (cd, b) =>
        if negb (streq cd (g_ContentDigest g)) then Err ErrGraphGenerationInvalid
        else if negb (streq (generation_id g cd) (g_GenerationID g)) then Err ErrGraphGenerationInvalid
        else Ok b
    end.

(** [SealIDs]. *)
Definition with_ids (content gen : digest) (g : GraphGeneration) : GraphGeneration :=
  mkGeneration gen (g_SchemaVersion g) (g_WorkspaceIdentity g) (g_RepositoryIdentity g)
    (g_SourceFingerprint g) (g_ConfigFingerprint g) (g_BackendManifestDigest g) content (g_Status g)
    (g_ErrorCode g) (g_NodeCount g) (g_EdgeCount g) (g_EvidenceCount g) (g_UnresolvedCount g)
    (g_PreviousGenerationID g) (g_CreatedAt g) (g_PublishedAt g).
Definition node_in (gen : digest) (n : GraphNodeRecord) : GraphNodeRecord :=
  mkNode gen (n_NodeID n) (n_NodeKey n) (n_Identity n) (n_IdentitySchema n) (n_DisplayName n)
    (n_SourceDigest n) (n_ClaimStatus n) (n_CrossRID n) (n_SortKey n).
Definition edge_in (gen : digest) (e : GraphEdgeRecord) : GraphEdgeRecord :=
  mkEdge gen (e_EdgeID e) (e_EdgeKey e) (e_FromNodeID e) (e_ToNodeID e) (e_Relation e) (e_ClaimScope e)
    (e_ClaimStatus e) (e_OwnerPath e) (e_SourceBackend e) (e_CrossRID e).
Definition evidence_in (gen : digest) (v : GraphEvidence) : GraphEvidence :=
  mkEvidence gen (v_EvidenceID v) (v_EvidenceKey v) (v_EvidenceDigest v) (v_SubjectKind v) (v_NodeID v)
    (v_EdgeID v) (v_SourceURI v) (v_StartLine v) (v_StartColumn v) (v_EndLine v) (v_EndColumn v)
    (v_Backend v) (v_ExtractorVersion v) (v_SourceDigest v) (v_ClaimKind v) (v_ObservedClaimDigest v)
    (v_ClaimStatus v) (v_CrossRID v).
Definition unresolved_in (gen : digest) (u : GraphUnresolved) : GraphUnresolved :=
  mkUnresolved gen (u_UnresolvedID u) (u_UnresolvedKey u) (u_OwnerPath u) (u_SubjectKind u)
    (u_SelectorDigest u) (u_ReasonCode u) (u_Candidates u) (u_Backend u) (u_SourceDigest u)
    (u_CrossRID u) (u_RecoveryHintCode u) (u_SourceDocument u) (u_SourceBlock u) (u_TargetKind u)
    (u_TargetValue u).
Definition bundle_in (content gen : digest) (b : GraphBundle) : GraphBundle :=
  mkBundle (with_ids content gen (Generation b)) (map (node_in gen) (Nodes b)) (map (edge_in gen) (Edges b))
    (map (evidence_in gen) (Evidence b)) (map (unresolved_in gen) (Unresolved b)).
Definition SealIDs (b : GraphBundle) : checked GraphBundle :=
  '(cd, b) ← ContentDigest b;
  Ok (bundle_in cd (generation_id (Generation b) cd) b).
End hasher.
