(* ===== verification/GraphFacts.v ===== *)
(** The theorems on the graph model: canonical digests and paths, injectivity of
    the binary framing, well-formedness of validated bundles, the protocol of
    the content hasher, and sealing. *)
From S2P Require Import Prelude GoStrings GoStringFacts GoNum Graph.

Local Open Scope go_scope.

(** * Definitions *)

(** ** Framing *)
Abbreviation frame := (Z * list ascii)%type.
Definition tlv (fs : list frame) : list ascii := concat (map (fun '(t, b) => field t b) fs).
(** The tag is a byte and the length fits its 32 bits. *)
Definition fits (f : frame) : Prop := (0 <= f.1 < 256)%Z /\ (Z.of_nat (length f.2) < 2 ^ 32)%Z.

Definition key_frames (k : NodeKeyFields) : list frame :=
  imap (fun i s => (Z.of_nat (S i), s)) (CanonicalTuple k).

(** The fields of a content record, as written between its marker and the next. *)
Definition int_bytes (n : Z) : list ascii := be_bytes 8 n.
Definition optional_frame {A} (tag : Z) (f : A -> list ascii) (v : option A) : list frame :=
  match v with Some v => [(tag, f v)] | None => [] end.
Definition node_frames (n : GraphNodeRecord) : list frame :=
  let k := n_Identity n in
  [(1, int_bytes (n_NodeID n)); (2, n_NodeKey n); (3, n_IdentitySchema n); (4, RepositoryIdentity k);
   (5, BackendType k); (6, Language k); (7, ProjectOrModule k); (8, OwnerPath k); (9, SymbolKind k);
   (10, SemanticIdentity k); (11, n_DisplayName n); (12, n_SourceDigest n); (13, n_ClaimStatus n);
   (14, n_CrossRID n); (15, n_SortKey n)]%Z.
Definition edge_frames (e : GraphEdgeRecord) : list frame :=
  [(1, int_bytes (e_EdgeID e)); (2, e_EdgeKey e); (3, int_bytes (e_FromNodeID e));
   (4, int_bytes (e_ToNodeID e)); (5, e_Relation e); (6, e_ClaimScope e); (7, e_ClaimStatus e);
   (8, e_OwnerPath e); (9, e_SourceBackend e); (10, e_CrossRID e)]%Z.
Definition evidence_frames (v : GraphEvidence) : list frame :=
  ([(1, int_bytes (v_EvidenceID v)); (2, v_EvidenceKey v); (3, v_EvidenceDigest v); (4, v_SubjectKind v)]
   ++ optional_frame 5 int_bytes (v_NodeID v) ++ optional_frame 6 int_bytes (v_EdgeID v)
   ++ [(7, v_SourceURI v); (8, v_Backend v); (9, v_ExtractorVersion v); (10, v_SourceDigest v);
       (11, v_ClaimKind v); (12, v_ObservedClaimDigest v); (13, v_ClaimStatus v); (14, v_CrossRID v)])%Z.
Definition unresolved_frames (u : GraphUnresolved) : list frame :=
  ([(1, int_bytes (u_UnresolvedID u)); (2, u_UnresolvedKey u); (3, u_OwnerPath u); (4, u_SubjectKind u);
    (5, u_SelectorDigest u); (6, u_ReasonCode u)] ++ map (fun c => (7, c)) (u_Candidates u)
   ++ [(8, u_Backend u)] ++ optional_frame 9 id (u_SourceDigest u)
   ++ [(10, u_CrossRID u); (11, u_RecoveryHintCode u); (12, u_SourceDocument u); (13, u_SourceBlock u);
       (14, u_TargetKind u); (15, u_TargetValue u)])%Z.
(** A block is a record behind its marker, or a section header. *)
Definition block (fs : list frame) : list frame := (242, [])%Z :: fs.
Definition header (p : nat) (count : Z) : list frame :=
  [(240, nth p section_names []); (241, int_bytes count)]%Z.
Definition content_blocks (b : GraphBundle) : list (list frame) :=
  [header 0 (lenZ (Nodes b))] ++ map (fun n => block (node_frames n)) (Nodes b)
  ++ [header 1 (lenZ (Edges b))] ++ map (fun e => block (edge_frames e)) (Edges b)
  ++ [header 2 (lenZ (Evidence b))] ++ map (fun v => block (evidence_frames v)) (Evidence b)
  ++ [header 3 (lenZ (Unresolved b))] ++ map (fun u => block (unresolved_frames u)) (Unresolved b).
Definition content_bytes (b : GraphBundle) : list ascii :=
  "MILSP-GRAPH-CONTENT/v2" ++ tlv (concat (content_blocks b)).

(** What the digest covers: everything but the generation of the records and
    the positions of evidence, which its own digest covers. *)
Definition evidence_view (v : GraphEvidence) : GraphEvidence :=
  mkEvidence [] (v_EvidenceID v) (v_EvidenceKey v) (v_EvidenceDigest v) (v_SubjectKind v) (v_NodeID v)
    (v_EdgeID v) (v_SourceURI v) None None None None (v_Backend v) (v_ExtractorVersion v)
    (v_SourceDigest v) (v_ClaimKind v) (v_ObservedClaimDigest v) (v_ClaimStatus v) (v_CrossRID v).
Definition content_view (b : GraphBundle) :=
  (map (node_in []) (Nodes b), map (edge_in []) (Edges b), map evidence_view (Evidence b),
   map (unresolved_in []) (Unresolved b)).
(** Field lengths fit 32 bits, and record numbers 64 bits. *)
Definition sized (b : GraphBundle) : Prop :=
  Forall fits (concat (content_blocks b)) /\
  Forall (fun n => in_int64 (n_NodeID n) = true) (Nodes b) /\
  Forall (fun e => in_int64 (e_EdgeID e) = true /\ in_int64 (e_FromNodeID e) = true /\
                   in_int64 (e_ToNodeID e) = true) (Edges b) /\
  Forall (fun v => in_int64 (v_EvidenceID v) = true /\ in_int64 (default 0%Z (v_NodeID v)) = true /\
                   in_int64 (default 0%Z (v_EdgeID v)) = true) (Evidence b) /\
  Forall (fun u => in_int64 (u_UnresolvedID u) = true) (Unresolved b).

(** * Lemmas *)
Lemma app_inj_length {A} (a b x y : list A) : length a = length b -> a ++ x = b ++ y -> a = b /\ x = y.
Proof. intros Hl E. apply app_inj_1 in E; auto. Qed.
Lemma zb_inj x y : (0 <= x < 256)%Z -> (0 <= y < 256)%Z -> zb x = zb y -> x = y.
Proof. intros Hx Hy E. rewrite <- (bz_zb x), <- (bz_zb y) by lia. by rewrite E. Qed.

Lemma field_inj f g x y :
  fits f -> fits g -> field f.1 f.2 ++ x = field g.1 g.2 ++ y -> f = g /\ x = y.
Proof.
  destruct f as [t b], g as [u c]. unfold fits. cbn [fst snd]. intros [Ht Hb] [Hu Hc] E.
  change (([zb t] ++ be_bytes 4 (Z.of_nat (length b)) ++ b) ++ x =
          ([zb u] ++ be_bytes 4 (Z.of_nat (length c)) ++ c) ++ y) in E.
  rewrite <- !app_assoc in E. apply app_inj_length in E as [Etag E]; [|done].
  injection Etag as Etag%zb_inj; [subst u|done..]. apply app_inj_length in E as [Elen E]; [|by rewrite !length_be_bytes].
  apply be_bytes_inj in Elen; [|change (256 ^ Z.of_nat 4)%Z with (2 ^ 32)%Z; lia..].
  apply app_inj_length in E as [-> ->]; [done | lia].
Qed.
(** A sequence of fields can be read back. *)
Lemma tlv_inj fs gs : Forall fits fs -> Forall fits gs -> tlv fs = tlv gs -> fs = gs.
Proof.
  intros Hf; revert gs; induction Hf as [|[t b] fs Hfit Hf IH]; intros gs Hg E; destruct Hg as [|[u c] gs Hg Hgs];
    [done|..]; cbn in E; try (unfold field in E; discriminate E).
  apply (field_inj (t, b) (u, c)) in E as [-> E]; [|done..]. by rewrite (IH gs).
Qed.
Lemma tlv_app fs gs : tlv (fs ++ gs) = tlv fs ++ tlv gs.
Proof. unfold tlv. by rewrite map_app, concat_app. Qed.

(** ** Normalized text *)
Section text_facts.
Context `{UnicodeTables} `{NFC}.

Lemma hasControl_forallb s : hasControl s = false <-> forallb (fun r => negb (isControlRune r)) (map snd (runes s)) = true.
Proof.
  unfold hasControl. induction (runes s) as [|[o r] l IH]; [done|]. cbn [existsb map snd forallb].
  rewrite orb_false_iff, andb_true_iff, negb_true_iff. tauto.
Qed.
Lemma normalizeText_ok v t :
  normalizeText v = Ok t -> validString t = true /\ hasControl t = false /\ nfc (trimSpace t) = t.
Proof.
  unfold normalizeText. intros E. destruct (validString v) eqn:Hv; [|done].
  destruct (hasControl v) eqn:Hc; [done|]. cbn [negb] in E. injection E as <-.
  assert (hasControl (trimSpace v) = false).
  { apply hasControl_forallb. apply trimSpace_runes; [done|]. by apply hasControl_forallb. }
  split_and!.
  - by apply nfc_valid, trimSpace_valid.
  - apply nfc_control; [by apply trimSpace_valid | done].
  - rewrite nfc_trimmed by done. apply nfc_idempotent.
Qed.
(** Normalizing is idempotent. *)
Lemma normalizeText_idempotent v t : normalizeText v = Ok t -> normalizeText t = Ok t.
Proof. intros (Hv & Hc & Hn)%normalizeText_ok. unfold normalizeText. by rewrite Hv, Hc, Hn. Qed.

Lemma slashPath_parts v f p :
  slashPath v f = Ok p ->
  exists t segs, normalizeText v = Ok t /\ segs <> [] /\ p = join segs "/" /\
    Forall (fun s => s <> [] /\ s <> "." /\ s <> ".." /\ "/"%char ∉ s) segs /\
    segs ⊆ splitByte t "/" /\ contains t [BSLASH] = false.
Proof.
  unfold slashPath, required. intros E. bind_inv E as t Ht. bind_inv Ht as t' Ht'.
  destruct (streq t' []); [done|]. injection Ht as ->.
  destruct (_ || _) eqn:Hguard; [done|]. destruct (existsb badSegment _) eqn:Hbad; [done|].
  destruct (filter _ _) as [|s segs] eqn:Hf; [done|]. injection E as <-.
  exists t, (s :: segs). split_and!; try done.
  - rewrite <- Hf. apply Forall_forall. intros x [Hx Hin]%list_elem_of_filter.
    pose proof (splitByte_pieces t "/") as Hp. rewrite Forall_forall in Hp.
    assert (badSegment x = false) as [? ?]%orb_false_iff.
    { destruct (badSegment x) eqn:Hb; [|done]. rewrite <- Hbad. symmetry. apply existsb_exists.
      exists x. by rewrite <- list_elem_of_In. }
    streqs. auto.
  - rewrite <- Hf. intros x [_ Hin]%list_elem_of_filter. done.
  - by passed Hguard.
Qed.
End text_facts.

(** ** Records and their fields *)
Lemma tlv_cons t b fs : tlv ((t, b) :: fs) = field t b ++ tlv fs.
Proof. done. Qed.
Lemma tlv_nil : tlv [] = [].
Proof. done. Qed.
Lemma concat_text_tlv t cs : concat (map (text t) cs) = tlv (map (fun c => (t, c)) cs).
Proof. unfold tlv. rewrite map_map. done. Qed.
Lemma node_fields_tlv n : node_fields n = tlv (node_frames n).
Proof. unfold node_fields, node_frames. cbv zeta. by rewrite !tlv_cons, tlv_nil, app_nil_r. Qed.
Lemma edge_fields_tlv e : edge_fields e = tlv (edge_frames e).
Proof. unfold edge_fields, edge_frames. by rewrite !tlv_cons, tlv_nil, app_nil_r. Qed.
Lemma optional_integer_tlv t n : optional_integer t n = tlv (optional_frame t int_bytes n).
Proof. destruct n; cbn [optional_frame]; [by rewrite tlv_cons, tlv_nil, app_nil_r | done]. Qed.
Lemma optional_digest_tlv t d : optional_digest t d = tlv (optional_frame t id d).
Proof. destruct d; cbn [optional_frame]; [by rewrite tlv_cons, tlv_nil, app_nil_r | done]. Qed.
Lemma evidence_fields_tlv v : evidence_fields v = tlv (evidence_frames v).
Proof.
  unfold evidence_fields, evidence_frames.
  by rewrite !tlv_app, !tlv_cons, !optional_integer_tlv, tlv_nil, !app_nil_r, <- !app_assoc.
Qed.
Lemma unresolved_fields_tlv u : unresolved_fields true u = tlv (unresolved_frames u).
Proof.
  unfold unresolved_fields, unresolved_frames.
  by rewrite !tlv_app, !tlv_cons, optional_digest_tlv, concat_text_tlv, !tlv_nil, !app_nil_r, <- !app_assoc.
Qed.

Lemma int_bytes_inj x y : in_int64 x = true -> in_int64 y = true -> int_bytes x = int_bytes y -> x = y.
Proof.
  unfold in_int64, MIN_INT64, MAX_INT64, int_bytes. intros Hx Hy E. bool_to_prop.
  apply (f_equal be_value) in E. rewrite !be_value_bytes in E.
  change (256 ^ Z.of_nat 8)%Z with (2 ^ 64)%Z in E.
  rewrite (Z.mod_eq x), (Z.mod_eq y) in E by lia.
  pose proof (Z.mod_pos_bound x (2 ^ 64)). pose proof (Z.mod_pos_bound y (2 ^ 64)).
  rewrite (Z.mod_eq x), (Z.mod_eq y) in * by lia. nia.
Qed.

Lemma frame_cons_inj (t : Z) (x y : list ascii) (xs ys : list frame) :
  (t, x) :: xs = (t, y) :: ys -> x = y /\ xs = ys.
Proof. intros E. split; [exact (f_equal (fun l => default [] (snd <$> head l)) E) | exact (f_equal tail E)]. Qed.
(** Compare the leading frames of two records one by one. *)
Ltac frames_inj E :=
  repeat (let Ef := fresh "Ef" in apply frame_cons_inj in E as [Ef E];
          first [apply int_bytes_inj in Ef; [|done..] | idtac]); subst.

Lemma node_frames_inj n m :
  in_int64 (n_NodeID n) = true -> in_int64 (n_NodeID m) = true ->
  node_frames n = node_frames m -> node_in [] n = node_in [] m.
Proof.
  destruct n as [? ? ? [] ? ? ? ? ? ?], m as [? ? ? [] ? ? ? ? ? ?]. unfold node_frames, node_in.
  cbn -[int_bytes]. intros Hn Hm E. by frames_inj E.
Qed.
Lemma edge_frames_inj e f :
  in_int64 (e_EdgeID e) = true /\ in_int64 (e_FromNodeID e) = true /\ in_int64 (e_ToNodeID e) = true ->
  in_int64 (e_EdgeID f) = true /\ in_int64 (e_FromNodeID f) = true /\ in_int64 (e_ToNodeID f) = true ->
  edge_frames e = edge_frames f -> edge_in [] e = edge_in [] f.
Proof.
  destruct e, f. unfold edge_frames, edge_in. cbn -[int_bytes]. intros (? & ? & ?) (? & ? & ?) E.
  by frames_inj E.
Qed.
Lemma optional_int_inj t x y (xs ys : list frame) :
  in_int64 (default 0%Z x) = true -> in_int64 (default 0%Z y) = true ->
  (match xs with (u, _) :: _ => u <> t | [] => True end) ->
  (match ys with (u, _) :: _ => u <> t | [] => True end) ->
  optional_frame t int_bytes x ++ xs = optional_frame t int_bytes y ++ ys -> x = y /\ xs = ys.
Proof.
  intros Hx Hy Hxs Hys. destruct x as [x|], y as [y|]; cbn [optional_frame app].
  - intros E. by frames_inj E.
  - intros <-. by destruct Hys.
  - intros ->. by destruct Hxs.
  - done.
Qed.
Lemma optional_digest_inj t x y (xs ys : list frame) :
  (match xs with (u, _) :: _ => u <> t | [] => True end) ->
  (match ys with (u, _) :: _ => u <> t | [] => True end) ->
  optional_frame t (@id digest) x ++ xs = optional_frame t (@id digest) y ++ ys -> x = y /\ xs = ys.
Proof.
  intros Hxs Hys. destruct x as [x|], y as [y|]; cbn [optional_frame app].
  - intros E. by injection E as -> ->.
  - intros <-. by destruct Hys.
  - intros ->. by destruct Hxs.
  - done.
Qed.
Lemma candidates_inj (t : Z) cs ds (xs ys : list frame) :
  (match xs with (u, _) :: _ => u <> t | [] => True end) ->
  (match ys with (u, _) :: _ => u <> t | [] => True end) ->
  map (fun c => (t, c)) cs ++ xs = map (fun c => (t, c)) ds ++ ys -> cs = ds /\ xs = ys.
Proof.
  intros Hxs Hys. revert ds; induction cs as [|c cs IH]; intros [|d ds]; cbn [map app].
  - done.
  - intros ->. by destruct Hxs.
  - intros <-. by destruct Hys.
  - intros E. injection E as -> E. by destruct (IH ds E) as [-> ->].
Qed.
Lemma evidence_frames_inj v w :
  in_int64 (v_EvidenceID v) = true /\ in_int64 (default 0%Z (v_NodeID v)) = true /\
  in_int64 (default 0%Z (v_EdgeID v)) = true ->
  in_int64 (v_EvidenceID w) = true /\ in_int64 (default 0%Z (v_NodeID w)) = true /\
  in_int64 (default 0%Z (v_EdgeID w)) = true ->
  evidence_frames v = evidence_frames w -> evidence_view v = evidence_view w.
Proof.
  destruct v, w. unfold evidence_frames, evidence_view. cbn -[int_bytes optional_frame].
  intros (? & ? & ?) (? & ? & ?) E. frames_inj E.
  apply optional_int_inj in E as [-> E]; [|done|done|by destruct v_EdgeID|by destruct v_EdgeID0].
  apply optional_int_inj in E as [-> E]; [|done..]. by frames_inj E.
Qed.
Lemma unresolved_frames_inj u w :
  in_int64 (u_UnresolvedID u) = true -> in_int64 (u_UnresolvedID w) = true ->
  unresolved_frames u = unresolved_frames w -> unresolved_in [] u = unresolved_in [] w.
Proof.
  destruct u, w. unfold unresolved_frames, unresolved_in. cbn -[int_bytes optional_frame map].
  intros ? ? E. frames_inj E.
  apply candidates_inj in E as [-> E]; [|done..]. frames_inj E.
  apply optional_digest_inj in E as [-> E]; [|done..]. by frames_inj E.
Qed.

(** ** Reading blocks back *)
Definition is_marker (f : frame) : bool := (f.1 =? 240)%Z || (f.1 =? 242)%Z.
Definition wf_block (bl : list frame) : Prop :=
  exists m fs, bl = m :: fs /\ is_marker m = true /\ forallb (fun f => negb (is_marker f)) fs = true.

Lemma unmarked_inj fs gs (xs ys : list frame) :
  forallb (fun f => negb (is_marker f)) fs = true -> forallb (fun f => negb (is_marker f)) gs = true ->
  match xs with m :: _ => is_marker m = true | [] => True end ->
  match ys with m :: _ => is_marker m = true | [] => True end ->
  fs ++ xs = gs ++ ys -> fs = gs /\ xs = ys.
Proof.
  revert gs; induction fs as [|f fs IH]; intros [|g gs] Hf Hg Hxs Hys; cbn [app]; intros E.
  - done.
  - subst xs. cbn in Hg. by rewrite Hxs in Hg.
  - subst ys. cbn in Hf. by rewrite Hys in Hf.
  - injection E as -> E. cbn [forallb] in Hf, Hg. apply andb_true_iff in Hf as [_ Hf], Hg as [_ Hg].
    by destruct (IH gs) as [-> ->].
Qed.
Lemma concat_blocks_head l :
  Forall wf_block l -> match concat l with m :: _ => is_marker m = true | [] => True end.
Proof. intros [|? ? (m & fs & -> & Hm & _) _]; [done|]. by cbn. Qed.
Lemma blocks_inj l l' : Forall wf_block l -> Forall wf_block l' -> concat l = concat l' -> l = l'.
Proof.
  intros Hl; revert l'. induction Hl as [|bl l (m & fs & -> & Hm & Hfs) Hl IH]; intros l' Hl' E;
    destruct Hl' as [|bl' l' (m' & fs' & -> & Hm' & Hfs') Hl']; try done.
  cbn [concat app] in E. injection E as -> E.
  apply unmarked_inj in E as [-> E]; [|done|done|by apply concat_blocks_head..].
  by rewrite (IH l').
Qed.

(** Record blocks run up to the next section header. *)
Definition is_record (bl : list frame) : bool := match bl with m :: _ => (m.1 =? 242)%Z | [] => false end.
Lemma section_inj rs rs' H H' (xs ys : list (list frame)) :
  forallb is_record rs = true -> forallb is_record rs' = true -> is_record H = false -> is_record H' = false ->
  rs ++ H :: xs = rs' ++ H' :: ys -> rs = rs' /\ xs = ys.
Proof.
  revert rs'; induction rs as [|r rs IH]; intros [|r' rs'] Hr Hr' HH HH'; cbn [app forallb] in *; intros E.
  - by injection E as _ ->.
  - injection E as -> _. by rewrite HH in Hr'.
  - injection E as <- _. by rewrite HH' in Hr.
  - injection E as -> E. apply andb_true_iff in Hr as [_ Hr], Hr' as [_ Hr'].
    by destruct (IH rs') as [-> ->].
Qed.
Lemma records_ok {A} (f : A -> list frame) l : forallb is_record (map (fun x => block (f x)) l) = true.
Proof. apply forallb_forall. intros bl (x & <- & _)%in_map_iff. done. Qed.
Lemma map_block_inj {A} (f : A -> list frame) l l' :
  map (fun x => block (f x)) l = map (fun x => block (f x)) l' -> map f l = map f l'.
Proof. intros E. apply (f_equal (map (@tail frame))) in E. by rewrite !map_map in E. Qed.

Lemma unmarked_app fs gs :
  forallb (fun f => negb (is_marker f)) (fs ++ gs) =
  forallb (fun f => negb (is_marker f)) fs && forallb (fun f => negb (is_marker f)) gs.
Proof. apply forallb_app. Qed.
Lemma content_blocks_wf b : Forall wf_block (content_blocks b).
Proof.
  assert (Hrec : forall A (f : A -> list frame) l,
            (forall x, forallb (fun f => negb (is_marker f)) (f x) = true) ->
            Forall wf_block (map (fun x => block (f x)) l)).
  { intros A f l Hf. apply Forall_map, Forall_forall. intros x _. by eexists _, _. }
  assert (Hhead : forall p c, wf_block (header p c)) by (intros; by eexists _, _).
  unfold content_blocks. rewrite !Forall_app, !Forall_singleton.
  split_and!; auto; apply Hrec; intros x; try done.
  - unfold evidence_frames. rewrite !unmarked_app. by destruct (v_NodeID x), (v_EdgeID x).
  - unfold unresolved_frames. rewrite !unmarked_app.
    assert (forallb (fun f => negb (is_marker f)) (map (fun c => (7%Z, c)) (u_Candidates x)) = true) as ->
      by (by induction (u_Candidates x)).
    by destruct (u_SourceDigest x).
Qed.
Lemma map_pointwise_inj {A B C} (P : A -> Prop) (f : A -> B) (g : A -> C) l l' :
  (forall x y, P x -> P y -> f x = f y -> g x = g y) -> Forall P l -> Forall P l' ->
  map f l = map f l' -> map g l = map g l'.
Proof.
  intros Hfg Hl; revert l'. induction Hl as [|x l Hx _ IH]; intros l' Hl' E; destruct Hl' as [|y l' Hy Hl']; try done.
  cbn [map] in *. injection E as Ex E. f_equal; auto.
Qed.

(** The hashed bytes determine the covered content. *)
Lemma content_bytes_inj b b' :
  sized b -> sized b' -> content_bytes b = content_bytes b' -> content_view b = content_view b'.
Proof.
  intros (Hfit & Hn & He & Hv & Hu) (Hfit' & Hn' & He' & Hv' & Hu') E. unfold content_bytes in E.
  apply app_inj_length in E as [_ E]; [|done]. apply tlv_inj in E; [|done..].
  apply blocks_inj in E; [|apply content_blocks_wf..]. unfold content_blocks in E.
  apply (section_inj [] []) in E as [_ E]; [|done..].
  apply section_inj in E as [E1 E]; [|apply records_ok..|done|done].
  apply section_inj in E as [E2 E]; [|apply records_ok..|done|done].
  apply section_inj in E as [E3 E4]; [|apply records_ok..|done|done].
  apply map_block_inj in E1, E2, E3, E4. unfold content_view.
  f_equal; [f_equal; [f_equal|]|].
  - eapply (map_pointwise_inj _ node_frames); [|exact Hn|exact Hn'|exact E1]. apply node_frames_inj.
  - eapply (map_pointwise_inj _ edge_frames); [|exact He|exact He'|exact E2]. apply edge_frames_inj.
  - eapply (map_pointwise_inj _ evidence_frames); [|exact Hv|exact Hv'|exact E3]. apply evidence_frames_inj.
  - eapply (map_pointwise_inj _ unresolved_frames); [|exact Hu|exact Hu'|exact E4]. apply unresolved_frames_inj.
Qed.

(** ** Runs of the content hasher *)

(** Adding a record: [AddNode] and the others for the section [p]. *)
Definition add (p : nat) (b : list ascii) (h : GraphContentHasher) : checked GraphContentHasher :=
  h ← begin p h; Ok (write b h).

Section hasher_runs.
Context (counts : list Z).
Implicit Types (ls : list (list (list ascii))) (cur l : list (list ascii)) (b : list ascii).

Definition section_bytes (p : nat) (recs : list (list ascii)) : list ascii :=
  text 240 (nth p section_names []) ++ integer 241 (nth_count counts p)
  ++ concat (map (fun b => field 242 [] ++ b) recs).
(** The state after the complete sections [ls] and the records [cur] of the next. *)
Definition at_section (ls : list (list (list ascii))) (cur : list (list ascii)) : GraphContentHasher :=
  mkHasher ("MILSP-GRAPH-CONTENT/v2" ++ concat (imap section_bytes (ls ++ [cur]))) counts
    (map lenZ (ls ++ [cur]) ++ repeat 0%Z (3 - length ls)) (length ls).
Definition complete (p : nat) (l : list (list ascii)) : Prop := lenZ l = nth_count counts p.

Lemma nth_written ls cur (r : list Z) : nth_count (map lenZ (ls ++ [cur]) ++ r) (length ls) = lenZ cur.
Proof.
  unfold nth_count. rewrite app_nth1 by (rewrite length_map, length_app; cbn; lia).
  rewrite map_app, app_nth2, length_map by (rewrite length_map; lia). by rewrite Nat.sub_diag.
Qed.
Lemma imap_snoc {A B} (f : nat -> A -> B) (xs : list A) x : imap f (xs ++ [x]) = imap f xs ++ [f (length xs) x].
Proof. by rewrite imap_app; cbn; rewrite Nat.add_0_r. Qed.
Lemma set_written ls cur b (r : list Z) :
  <[length ls := (lenZ cur + 1)%Z]> (map lenZ (ls ++ [cur]) ++ r) = map lenZ (ls ++ [cur ++ [b]]) ++ r.
Proof.
  rewrite insert_app_l by (rewrite length_map, length_app; cbn; lia). f_equal.
  rewrite !map_app, insert_app_r_alt by (rewrite length_map; lia).
  rewrite length_map, Nat.sub_diag. cbn. unfold lenZ. rewrite length_app. cbn. do 2 f_equal. lia.
Qed.

Lemma section_bytes_snoc p cur b : section_bytes p (cur ++ [b]) = section_bytes p cur ++ field 242 [] ++ b.
Proof. unfold section_bytes. rewrite map_app, concat_app. cbn [map concat]. by rewrite app_nil_r, <- !app_assoc. Qed.
Lemma section_bytes_nil p : section_bytes p [] = text 240 (nth p section_names []) ++ integer 241 (nth_count counts p).
Proof. unfold section_bytes. cbn [map concat]. by rewrite app_nil_r. Qed.

Lemma advance_here ls cur : length ls <= 3 -> advance (length ls) (at_section ls cur) = Ok (at_section ls cur).
Proof.
  intros Hl. unfold advance, at_section. cbn [h_phase]. rewrite Nat.ltb_irrefl, Nat.sub_diag.
  by rewrite (proj2 (Nat.ltb_ge 3 (length ls))) by lia.
Qed.
Lemma add_here ls cur b :
  length ls <= 3 -> (lenZ cur < nth_count counts (length ls))%Z ->
  add (length ls) b (at_section ls cur) = Ok (at_section ls (cur ++ [b])).
Proof.
  intros Hl Hc. unfold add, begin. rewrite advance_here by done. cbn [mbind result_bind].
  unfold at_section. cbn [h_counts h_written h_bytes h_phase]. rewrite nth_written.
  rewrite (proj2 (Z.leb_gt _ _)) by lia. cbn [mbind result_bind]. unfold write.
  cbn [h_counts h_written h_bytes h_phase]. rewrite (set_written _ _ b). do 2 f_equal.
  rewrite !imap_snoc, !concat_app. cbn [concat]. rewrite !app_nil_r.
  by rewrite section_bytes_snoc, <- !app_assoc.
Qed.
Lemma add_full ls cur b :
  length ls <= 3 -> (nth_count counts (length ls) <= lenZ cur)%Z -> is_ok (add (length ls) b (at_section ls cur)) = false.
Proof.
  intros Hl Hc. unfold add, begin. rewrite advance_here by done. cbn [mbind result_bind].
  unfold at_section. cbn [h_counts h_written h_bytes h_phase]. rewrite nth_written.
  by rewrite (proj2 (Z.leb_le _ _)) by lia.
Qed.
(** Opening the next section. *)
Lemma advance_next k ls cur :
  length ls < 3 ->
  advance_by (S k) (at_section ls cur) =
  if (lenZ cur =? nth_count counts (length ls))%Z then advance_by k (at_section (ls ++ [cur]) [])
  else Err (content_error "content_counts" "graph content section is incomplete").
Proof.
  intros Hl. cbn [advance_by]. change (h_phase (at_section ls cur)) with (length ls).
  change (nth_count (h_written (at_section ls cur)) (length ls))
    with (nth_count (map lenZ (ls ++ [cur]) ++ repeat 0%Z (3 - length ls)) (length ls)).
  change (h_counts (at_section ls cur)) with counts. rewrite nth_written. destruct (Z.eqb_spec (lenZ cur) (nth_count counts (length ls))); [|done].
  cbn [negb]. f_equal. unfold section, write, at_section. cbn [h_bytes h_counts h_written h_phase].
  rewrite !length_app. cbn [length]. rewrite Nat.add_1_r. f_equal.
  - rewrite (imap_snoc section_bytes (ls ++ [cur]) []), concat_app. cbn [concat].
    rewrite !app_nil_r, length_app. cbn [length]. rewrite Nat.add_1_r.
    by rewrite section_bytes_nil, <- !app_assoc.
  - rewrite (map_app _ (ls ++ [cur])), <- app_assoc. cbn [map app]. f_equal.
    destruct (3 - length ls) as [|m] eqn:E; [lia|]. replace (3 - S (length ls)) with m by lia. done.
Qed.
Lemma advance_by_app j k h : advance_by (j + k) h = (h ← advance_by j h; advance_by k h).
Proof.
  revert h; induction j as [|j IH]; intros h; [done|]. cbn [Nat.add advance_by].
  case_match; [done|]. apply IH.
Qed.
Lemma advance_phase p h h' : advance p h = Ok h' -> h_phase h <= p <= 3.
Proof. unfold advance. case_match; [done|]. bool_to_prop. lia. Qed.
Lemma advance_succ p ls l h :
  advance p h = Ok (at_section ls l) -> length ls = p -> p < 3 -> complete p l ->
  advance (S p) h = Ok (at_section (ls ++ [l]) []).
Proof.
  intros Ha Hls Hp Hc. pose proof (advance_phase _ _ _ Ha) as Hph. unfold advance in *.
  rewrite (proj2 (Nat.ltb_ge p (h_phase h))), (proj2 (Nat.ltb_ge 3 p)) in Ha by lia.
  rewrite (proj2 (Nat.ltb_ge (S p) (h_phase h))), (proj2 (Nat.ltb_ge 3 (S p))) by lia. cbn [orb] in *.
  replace (S p - h_phase h) with ((p - h_phase h) + 1) by lia.
  rewrite advance_by_app, Ha. cbn [mbind result_bind]. rewrite advance_next by lia.
  unfold complete in Hc. by rewrite Hls, Hc, Z.eqb_refl.
Qed.

(** Adding all the records of a section. *)
Lemma fold_here ls cur l :
  length ls <= 3 -> (lenZ cur + lenZ l <= nth_count counts (length ls))%Z ->
  mfold (fun h b => add (length ls) b h) (at_section ls cur) l = Ok (at_section ls (cur ++ l)).
Proof.
  revert cur; induction l as [|b l IH]; intros cur Hls Hc; cbn [mfold]; [by rewrite app_nil_r|].
  unfold lenZ in *. cbn [length] in Hc. rewrite add_here by (unfold lenZ; lia). cbn [mbind result_bind].
  rewrite IH; [by rewrite <- app_assoc | done | rewrite length_app; cbn; lia].
Qed.
Lemma fold_section p ls l h :
  advance p h = Ok (at_section ls []) -> length ls = p -> p <= 3 -> complete p l ->
  exists h', mfold (fun h b => add p b h) h l = Ok h' /\ advance p h' = Ok (at_section ls l).
Proof.
  intros Ha Hls Hp Hc. destruct l as [|b l]; [by exists h|].
  cbn [mfold]. assert (add p b h = add p b (at_section ls [])) as ->.
  { unfold add, begin. rewrite Ha. cbn [mbind result_bind]. by rewrite <- Hls, advance_here by lia. }
  exists (at_section ls (b :: l)). subst p. unfold complete, lenZ in Hc. cbn [length] in Hc.
  rewrite add_here by (unfold lenZ; cbn; lia). cbn [mbind result_bind app]. split; [|by apply advance_here].
  apply (fold_here ls [b] l); [done|]. unfold lenZ. cbn [length]. lia.
Qed.
End hasher_runs.

(** A whole run, section by section. *)
Lemma mfold_map {E A B S} (f : S -> B -> result E S) (g : A -> B) s l :
  mfold f s (map g l) = mfold (fun s x => f s (g x)) s l.
Proof. revert s; induction l as [|x l IH]; intros s; cbn [map mfold]; [done|]. destruct (f s (g x)); cbn; auto. Qed.

Definition run_sections (l0 l1 l2 l3 : list (list ascii)) : checked GraphContentHasher :=
  h ← NewGraphContentHasher (lenZ l0) (lenZ l1) (lenZ l2) (lenZ l3);
  h ← mfold (fun h b => add 0 b h) h l0;
  h ← mfold (fun h b => add 1 b h) h l1;
  h ← mfold (fun h b => add 2 b h) h l2;
  mfold (fun h b => add 3 b h) h l3.
Definition sections_bytes (l0 l1 l2 l3 : list (list ascii)) : list ascii :=
  "MILSP-GRAPH-CONTENT/v2" ++
  concat (imap (section_bytes [lenZ l0; lenZ l1; lenZ l2; lenZ l3]) [l0; l1; l2; l3]).
Lemma run_sections_ok `{SHA256} l0 l1 l2 l3 :
  exists h, run_sections l0 l1 l2 l3 = Ok h /\ Sum h = Ok (sha256 (sections_bytes l0 l1 l2 l3)).
Proof.
  set (counts := [lenZ l0; lenZ l1; lenZ l2; lenZ l3]).
  assert (Hnew : NewGraphContentHasher (lenZ l0) (lenZ l1) (lenZ l2) (lenZ l3) = Ok (at_section counts [] [])).
  { unfold NewGraphContentHasher. cbn [existsb]. unfold lenZ at 1 2 3 4. decide_cmp.
    unfold section, write, at_section. cbn [h_bytes h_counts h_written h_phase app imap concat].
    by rewrite section_bytes_nil, app_nil_r. }
  unfold run_sections. rewrite Hnew. cbn [mbind result_bind].
  destruct (fold_section counts 0 [] l0 (at_section counts [] [])) as (h0 & -> & H0); try done; [lia|].
  apply (advance_succ counts 0 [] l0) in H0; [|done|lia|done]. cbn [mbind result_bind].
  destruct (fold_section counts 1 [l0] l1 h0) as (h1 & -> & H1); try done; [lia|].
  apply (advance_succ counts 1 [l0] l1) in H1; [|done|lia|done]. cbn [mbind result_bind].
  destruct (fold_section counts 2 [l0; l1] l2 h1) as (h2 & -> & H2); try done; [lia|].
  apply (advance_succ counts 2 [l0; l1] l2) in H2; [|done|lia|done]. cbn [mbind result_bind].
  destruct (fold_section counts 3 [l0; l1; l2] l3 h2) as (h3 & -> & H3); try done.
  exists h3. split; [done|]. unfold Sum. rewrite H3. cbn [mbind result_bind].
  change (nth_count (h_written (at_section counts [l0; l1; l2] l3)) 3) with (lenZ l3).
  change (nth_count (h_counts (at_section counts [l0; l1; l2] l3)) 3) with (lenZ l3).
  by rewrite Z.eqb_refl.
Qed.
Lemma block_bytes (fs : list frame) : tlv (block fs) = field 242 [] ++ tlv fs.
Proof. apply tlv_cons. Qed.
Lemma tlv_blocks {A} (f : A -> list frame) l :
  tlv (concat (map (fun x => block (f x)) l)) = concat (map (fun b => field 242 [] ++ b) (map (fun x => tlv (f x)) l)).
Proof.
  induction l as [|x l IH]; [done|]. cbn [map concat]. by rewrite tlv_app, block_bytes, IH.
Qed.
Lemma tlv_header p c : tlv (header p c) = text 240 (nth p section_names []) ++ integer 241 c.
Proof. unfold header. by rewrite !tlv_cons, tlv_nil, app_nil_r. Qed.
Lemma content_bytes_sections b :
  content_bytes b =
  sections_bytes (map node_fields (Nodes b)) (map edge_fields (Edges b)) (map evidence_fields (Evidence b))
    (map (unresolved_fields true) (Unresolved b)).
Proof.
  unfold content_bytes, sections_bytes. f_equal. unfold content_blocks.
  rewrite !concat_app, !tlv_app, !tlv_blocks. cbn [imap concat].
  rewrite (map_ext _ _ node_fields_tlv), (map_ext _ _ edge_fields_tlv), (map_ext _ _ evidence_fields_tlv),
    (map_ext _ _ unresolved_fields_tlv).
  unfold section_bytes, lenZ. rewrite !length_map. cbn [concat]. rewrite !app_nil_r, !tlv_header.
  by rewrite <- !app_assoc.
Qed.

(** ** Numbered records are already sorted *)
Fixpoint numbered {A} (key : A -> Z) (i : nat) (l : list A) : Prop :=
  match l with [] => True | x :: l => key x = Z.of_nat i /\ numbered key (S i) l end.
Lemma sortBy_numbered {A} (key : A -> Z) i l : numbered key i l -> sortBy key l = l.
Proof.
  revert i; induction l as [|x l IH]; intros i; [done|]. intros [Hx Hl]. cbn [sortBy foldr].
  fold (sortBy key l). rewrite (IH (S i)) by done. destruct l as [|y l]; [done|]. destruct Hl as [Hy _].
  cbn [insertBy]. by decide_cmp.
Qed.
Lemma numbered_map {A B} (f : A -> B) (key : B -> Z) (key' : A -> Z) i l :
  (forall x, key (f x) = key' x) -> numbered key' i l -> numbered key i (map f l).
Proof. intros Hk. revert i; induction l as [|x l IH]; intros i; [done|]. cbn. rewrite Hk. intros [? ?]. auto. Qed.
Lemma numbered_lookup {A} (key : A -> Z) i l k x : numbered key i l -> l !! k = Some x -> key x = Z.of_nat (i + k).
Proof.
  revert i k; induction l as [|y l IH]; intros i k; [done|]. intros [Hy Hl]. destruct k as [|k]; cbn.
  - intros [= <-]. rewrite Hy. f_equal. lia.
  - intros Hx. rewrite (IH (S i) k); [f_equal; lia | done | done].
Qed.

(** ** What validation establishes *)
Section validated.
Context `{UnicodeTables} `{NFC} `{UrlParser} `{SHA256}.

Record node_valid (gen : digest) (i : nat) (n : GraphNodeRecord) : Prop := {
  nv_id : n_NodeID n = Z.of_nat i;
  nv_gen : n_GenerationID n = gen;
  nv_record : ValidateGraphNodeRecord n = Ok tt;
  nv_key : exists nk, NewNodeKey (n_Identity n) = Ok nk /\ Hash nk = Ok (n_NodeKey n);
}.
Lemma ValidateGraphNodeRecord_key n :
  ValidateGraphNodeRecord n = Ok tt ->
  exists nk, NewNodeKey (n_Identity n) = Ok nk /\ Hash nk = Ok (n_NodeKey n).
Proof.
  unfold ValidateGraphNodeRecord. case_match; [done|]. intros E. bind_inv E as nk Hnk.
  exists nk. split; [done|]. destruct (Hash nk) as [key|]; [|done].
  destruct (negb (streq _ _) || negb (streq _ _)) eqn:Hg; [done|]. apply orb_false_iff in Hg as [Hk%negb_false_iff%streq_true _]. by rewrite Hk.
Qed.
Lemma check_node_ok gen seen i n seen' :
  check_node gen seen i n = Ok seen' ->
  node_valid gen i n /\ seen !! n_NodeKey n = None /\ exists nk, seen' = <[n_NodeKey n := nk]> seen.
Proof.
  unfold check_node. destruct (_ || _) eqn:Hg; [done|]. intros E.
  bind_inv E as u Hrec. destruct u. bind_inv E as nk Hnk. bind_inv E as d Hd.
  destruct (ValidateGraphNodeRecord_key n Hrec) as (nk' & Hnk' & Hd').
  rewrite Hnk in Hnk'. injection Hnk' as <-. rewrite Hd in Hd'. injection Hd' as ->.
  destruct (seen !! n_NodeKey n) as [old|] eqn:Hseen; [by destruct (decide (old = nk))|].
  case_match; [|done]. injection E as <-. passed Hg.
  split; [|split; [done | by exists nk]]. constructor; eauto.
Qed.
Lemma check_nodes_ok gen ns : forall seen i,
  check_nodes gen seen i ns = Ok tt ->
  numbered n_NodeID i ns /\ NoDup (map n_NodeKey ns) /\ Forall (fun n => seen !! n_NodeKey n = None) ns /\
  Forall (fun n => exists k, node_valid gen k n) ns.
Proof.
  induction ns as [|n ns IH]; intros seen i; cbn [check_nodes numbered map].
  { intros _. repeat split; constructor. }
  intros E. bind_inv E as seen' Hs. destruct (check_node_ok _ _ _ _ _ Hs) as (Hv & Hnew & nk & ->).
  destruct (IH _ _ E) as (Hnum & Hnd & Hfresh & Hall). rewrite Forall_forall in Hfresh. split_and!.
  - apply Hv.
  - done.
  - apply NoDup_cons. split; [|done]. intros (m & Hm & Hin)%list_elem_of_fmap.
    specialize (Hfresh m Hin). rewrite <- Hm, lookup_insert_eq in Hfresh. done.
  - constructor; [done|]. apply Forall_forall. intros m Hin. specialize (Hfresh m Hin).
    apply lookup_insert_None in Hfresh as [? _]. done.
  - constructor; [by exists i | done].
Qed.

Record edge_valid (gen : digest) (nodes : list GraphNodeRecord) (i : nat) (e : GraphEdgeRecord) : Prop := {
  ev_id : e_EdgeID e = Z.of_nat i;
  ev_gen : e_GenerationID e = gen;
  ev_ends : exists from to, lookupZ nodes (e_FromNodeID e) = Some from /\ lookupZ nodes (e_ToNodeID e) = Some to /\
    e_EdgeKey e = EdgeKey (n_NodeKey from) (n_NodeKey to) (e_Relation e) (e_ClaimScope e) /\
    ValidateGraphEdgeRecord e (n_NodeKey from) (n_NodeKey to) = Ok tt;
}.
Lemma ValidateGraphEdgeRecord_key e from to :
  ValidateGraphEdgeRecord e from to = Ok tt -> e_EdgeKey e = EdgeKey from to (e_Relation e) (e_ClaimScope e).
Proof.
  unfold ValidateGraphEdgeRecord. repeat (case_match; [done|]). intros E. bind_inv E as p Hp.
  destruct (negb (streq _ _) || negb (streq _ _)) eqn:Hg; [done|].
  by apply orb_false_iff in Hg as [Hk%negb_false_iff%streq_true _].
Qed.
Lemma check_edge_ok gen nodes seen i e seen' :
  check_edge gen nodes seen i e = Ok seen' ->
  edge_valid gen nodes i e /\ e_EdgeKey e ∉ seen /\ seen' = {[e_EdgeKey e]} ∪ seen.
Proof.
  unfold check_edge. destruct (lookupZ nodes _) as [from|] eqn:Hfrom; [|done].
  destruct (lookupZ nodes (e_ToNodeID e)) as [to|] eqn:Hto; [|done].
  destruct (_ || _) eqn:Hg; [done|]. destruct (negb (is_ok _) || _) eqn:Hv; [done|]. intros [= <-].
  apply orb_false_iff in Hv as [Hv Hseen]. apply negb_false_iff in Hv. bool_to_prop.
  destruct (ValidateGraphEdgeRecord e (n_NodeKey from) (n_NodeKey to)) as [[]|] eqn:Hrec; [|done].
  pose proof (ValidateGraphEdgeRecord_key _ _ _ Hrec) as Hkey. rewrite <- Hkey in *. passed Hg.
  split; [|done]. constructor; eauto 10.
Qed.
Lemma check_edges_ok gen nodes es : forall seen i,
  check_edges gen nodes seen i es = Ok tt ->
  numbered e_EdgeID i es /\ NoDup (map e_EdgeKey es) /\ Forall (fun e => e_EdgeKey e ∉ seen) es /\
  Forall (fun e => exists k, edge_valid gen nodes k e) es.
Proof.
  induction es as [|e es IH]; intros seen i; cbn [check_edges numbered map].
  { intros _. repeat split; constructor. }
  intros E. bind_inv E as seen' Hs. destruct (check_edge_ok _ _ _ _ _ _ Hs) as (Hv & Hnew & ->).
  destruct (IH _ _ E) as (Hnum & Hnd & Hfresh & Hall). rewrite Forall_forall in Hfresh. split_and!.
  - apply Hv.
  - done.
  - apply NoDup_cons. split; [|done]. intros (m & Hm & Hin)%list_elem_of_fmap.
    apply (Hfresh m Hin). rewrite <- Hm. set_solver.
  - constructor; [done|]. apply Forall_forall. intros m Hin. specialize (Hfresh m Hin). set_solver.
  - constructor; [by exists i | done].
Qed.

(** Evidence is about exactly one existing node or edge. *)
Definition evidence_valid (gen : digest) (nodes : list GraphNodeRecord) (edges : list GraphEdgeRecord)
    (v : GraphEvidence) : Prop :=
  v_GenerationID v = gen /\
  ((exists id n, v_NodeID v = Some id /\ v_EdgeID v = None /\ lookupZ nodes id = Some n /\
      v_SubjectKind v = "node" /\ ValidateGraphEvidence v (n_NodeKey n) = Ok tt) \/
   (exists id e, v_NodeID v = None /\ v_EdgeID v = Some id /\ lookupZ edges id = Some e /\
      v_SubjectKind v = "edge" /\ ValidateGraphEvidence v (e_EdgeKey e) = Ok tt)).
Lemma check_evidence_ok gen nodes edges cov i v cov' :
  check_evidence gen nodes edges cov i v = Ok cov' ->
  v_EvidenceID v = Z.of_nat i /\ evidence_valid gen nodes edges v /\
  (forall id, id ∈ cov' <-> id ∈ cov \/ v_EdgeID v = Some id).
Proof.
  unfold check_evidence, evidence_valid. destruct (_ || _) eqn:Hg; [done|]. passed Hg. intros E.
  bind_inv E as x Hx. destruct x as [[subject kind] cov1].
  destruct (streq (v_SubjectKind v) kind) eqn:Hk; [|done]. cbn [negb] in E. streqs.
  bind_inv E as u Hu. destruct u. injection E as <-.
  destruct (v_NodeID v) as [id|] eqn:Hn, (v_EdgeID v) as [id'|] eqn:He; try done.
  - destruct (lookupZ nodes id) eqn:Hl; [|done]. injection Hx as <- <- <-.
    split; [done|]. split; [|naive_solver]. split; [done|]. left. eauto 10.
  - destruct (lookupZ edges id') eqn:Hl; [|done]. injection Hx as <- <- <-.
    split; [done|]. split; [|set_solver]. split; [done|]. right. eauto 10.
Qed.
Lemma check_evidences_ok gen nodes edges vs : forall cov i cov',
  check_evidences gen nodes edges cov i vs = Ok cov' ->
  numbered v_EvidenceID i vs /\ Forall (evidence_valid gen nodes edges) vs /\
  (forall id, id ∈ cov' -> id ∈ cov \/ exists v, v ∈ vs /\ v_EdgeID v = Some id).
Proof.
  induction vs as [|v vs IH]; intros cov i cov'; cbn [check_evidences numbered].
  { intros [= <-]. repeat split; [constructor | by left]. }
  intros E. bind_inv E as cov1 Hs. destruct (check_evidence_ok _ _ _ _ _ _ _ Hs) as (Hid & Hv & Hcov).
  destruct (IH _ _ _ E) as (Hnum & Hall & Hcov'). split; [done|]. split; [by constructor|].
  intros id [Hin|(w & Hw & ?)]%Hcov'; [apply Hcov in Hin as [?|?]; [by left|]|]; right.
  - exists v. split; [left | done].
  - exists w. split; [by right | done].
Qed.

(** Unresolved claims come out normalized, and stay so. *)
Definition unresolved_valid (gen : digest) (u : GraphUnresolved) : Prop :=
  u_GenerationID u = gen /\ ValidateGraphUnresolved u = Ok tt /\ NormalizeGraphUnresolvedContext u = Ok u.
Lemma normalizeContext_idempotent v name t : normalizeContext v name = Ok t -> normalizeContext t name = Ok t.
Proof.
  unfold normalizeContext. intros E. bind_inv E as n Hn. case_match; [done|]. injection E as ->.
  rewrite (normalizeText_idempotent _ _ Hn). cbn [mbind result_bind]. by destruct (streq t []).
Qed.
Lemma NormalizeContext_idempotent u w :
  NormalizeGraphUnresolvedContext u = Ok w -> NormalizeGraphUnresolvedContext w = Ok w.
Proof.
  unfold NormalizeGraphUnresolvedContext. intros E.
  bind_inv E as doc Hdoc. bind_inv E as block Hblock. bind_inv E as kind Hkind. bind_inv E as value Hvalue.
  injection E as <-. cbn [u_SourceDocument u_SourceBlock u_TargetKind u_TargetValue].
  rewrite (normalizeContext_idempotent _ _ _ Hdoc), (normalizeContext_idempotent _ _ _ Hblock),
    (normalizeContext_idempotent _ _ _ Hkind), (normalizeContext_idempotent _ _ _ Hvalue). done.
Qed.
Lemma check_unresolved_ok gen i u w :
  check_unresolved gen i u = Ok w ->
  u_UnresolvedID w = Z.of_nat i /\ unresolved_valid gen w /\ check_unresolved gen i w = Ok w.
Proof.
  intros Hcheck. pose proof Hcheck as E. unfold check_unresolved in E |- *.
  destruct (NormalizeGraphUnresolvedContext u) as [n|] eqn:Hn; [|done].
  assert (n = w) as ->.
  { destruct (_ || _); [done|]. bind_inv E as p1 Hp1. bind_inv E as p2 Hp2.
    destruct (negb (candidates_ok _ _)); [done|]. destruct (_ || _); [done|]. by injection E. }
  apply NormalizeContext_idempotent in Hn. rewrite Hn.
  destruct (_ || _) eqn:Hg; [done|]. passed Hg.
  split; [done|]. split; [|exact E]. split; [done|]. split; [|done].
  by destruct (ValidateGraphUnresolved w) as [[]|].
Qed.
Lemma check_unresolveds_ok gen us : forall i ws,
  check_unresolveds gen i us = Ok ws ->
  numbered u_UnresolvedID i ws /\ Forall (unresolved_valid gen) ws /\ check_unresolveds gen i ws = Ok ws /\
  length ws = length us.
Proof.
  induction us as [|u us IH]; intros i ws; cbn [check_unresolveds].
  { intros [= <-]. repeat split; constructor. }
  intros E. bind_inv E as w Hw. bind_inv E as ws' Hws. injection E as <-.
  destruct (check_unresolved_ok _ _ _ _ Hw) as (Hid & Hv & Hfix). destruct (IH _ _ Hws) as (Hnum & Hall & Hfix' & Hlen).
  cbn [numbered check_unresolveds length]. rewrite Hfix. cbn [mbind result_bind]. rewrite Hfix', Hlen.
  split_and!; try done. by constructor.
Qed.

Record wf_bundle (b : GraphBundle) : Prop := {
  wf_nodes : numbered n_NodeID 0 (Nodes b) /\ NoDup (map n_NodeKey (Nodes b)) /\
    Forall (fun n => exists k, node_valid (g_GenerationID (Generation b)) k n) (Nodes b);
  wf_edges : numbered e_EdgeID 0 (Edges b) /\ NoDup (map e_EdgeKey (Edges b)) /\
    Forall (fun e => exists k, edge_valid (g_GenerationID (Generation b)) (Nodes b) k e) (Edges b);
  wf_evidence : numbered v_EvidenceID 0 (Evidence b) /\
    Forall (evidence_valid (g_GenerationID (Generation b)) (Nodes b) (Edges b)) (Evidence b);
  wf_covered : Forall (fun e => exists v, v ∈ Evidence b /\ v_EdgeID v = Some (e_EdgeID e)) (Edges b);
  wf_unresolved : numbered u_UnresolvedID 0 (Unresolved b) /\
    Forall (unresolved_valid (g_GenerationID (Generation b))) (Unresolved b);
}.
Lemma validate_records_ok b b' :
  validate_records b = Ok b' ->
  wf_bundle b' /\ Generation b' = Generation b /\ Nodes b' = Nodes b /\ Edges b' = Edges b /\
  Evidence b' = Evidence b /\ length (Unresolved b') = length (Unresolved b).
Proof.
  unfold validate_records. intros E. bind_inv E as u1 Hn. destruct u1. bind_inv E as u2 He. destruct u2.
  bind_inv E as cov Hv. destruct (negb _) eqn:Hcov; [done|]. bind_inv E as us Hu. injection E as <-.
  apply negb_false_iff in Hcov. cbn [Generation Nodes Edges Evidence Unresolved].
  apply check_nodes_ok in Hn as (Hn1 & Hn2 & _ & Hn3). apply check_edges_ok in He as (He1 & He2 & _ & He3).
  apply check_evidences_ok in Hv as (Hv1 & Hv2 & Hv3). apply check_unresolveds_ok in Hu as (Hu1 & Hu2 & _ & Hu3).
  split; [|done]. constructor; cbn [Generation Nodes Edges Evidence Unresolved]; try done.
  apply Forall_forall. intros e Hin%list_elem_of_In. rewrite forallb_forall in Hcov.
  specialize (Hcov e Hin). apply bool_decide_eq_true in Hcov. destruct (Hv3 _ Hcov) as [Hempty|Hw]; [set_solver|done].
Qed.

(** ** The content digest *)
Lemma mfold_add {A} (f : GraphContentHasher -> A -> checked GraphContentHasher) p (g : A -> list ascii) l h :
  (forall x h, x ∈ l -> f h x = add p (g x) h) -> mfold f h l = mfold (fun h b => add p b h) h (map g l).
Proof.
  revert h; induction l as [|x l IH]; intros h Hf; [done|]. cbn [map mfold]. rewrite Hf by left.
  destruct (add p (g x) h); [|done]. cbn [mbind result_bind]. apply IH. intros y k Hy. apply Hf. by right.
Qed.
(** Hashing the records of a well-formed bundle, in order, gives the hash of its bytes. *)
Lemma content_runs b : wf_bundle b -> exists h0 h1 h2 h3 h4,
  NewGraphContentHasher (lenZ (Nodes b)) (lenZ (Edges b)) (lenZ (Evidence b)) (lenZ (Unresolved b)) = Ok h0 /\
  mfold (fun h n => AddNode n h) h0 (Nodes b) = Ok h1 /\ mfold (fun h e => AddEdge e h) h1 (Edges b) = Ok h2 /\
  mfold (fun h v => AddEvidence v h) h2 (Evidence b) = Ok h3 /\
  mfold (fun h u => AddUnresolved u h) h3 (Unresolved b) = Ok h4 /\ Sum h4 = Ok (sha256 (content_bytes b)).
Proof.
  intros [_ _ _ _ [_ Hnorm]].
  destruct (run_sections_ok (map node_fields (Nodes b)) (map edge_fields (Edges b))
    (map evidence_fields (Evidence b)) (map (unresolved_fields true) (Unresolved b))) as (h & Hrun & Hsum).
  rewrite content_bytes_sections. unfold run_sections, lenZ in Hrun. rewrite !length_map in Hrun. unfold lenZ.
  bind_inv Hrun as h0 E0. bind_inv Hrun as h1 E1. bind_inv Hrun as h2 E2. bind_inv Hrun as h3 E3.
  exists h0, h1, h2, h3, h. split_and!; [done|..|done].
  - by rewrite (mfold_add (fun h n => AddNode n h) 0 node_fields).
  - by rewrite (mfold_add (fun h e => AddEdge e h) 1 edge_fields).
  - by rewrite (mfold_add (fun h v => AddEvidence v h) 2 evidence_fields).
  - rewrite (mfold_add (fun h u => AddUnresolved u h) 3 (unresolved_fields true)); [done|].
    intros w k Hw. rewrite Forall_forall in Hnorm. destruct (Hnorm w Hw) as (_ & _ & Hfix).
    unfold AddUnresolved, addUnresolved. by rewrite Hfix.
Qed.
Lemma ContentDigest_bytes b b' :
  validate_unsealed b = Ok b' -> ContentDigest b = Ok (sha256 (content_bytes b'), b').
Proof.
  intros Hval. unfold ContentDigest. rewrite Hval. cbn [mbind result_bind].
  unfold validate_unsealed in Hval. bind_inv Hval as u Hm. apply validate_records_ok in Hval as [Hwf _].
  destruct (content_runs _ Hwf) as (h0 & h1 & h2 & h3 & h4 & E0 & E1 & E2 & E3 & E4 & E5).
  destruct Hwf as [[Hn _] [He _] [Hv _] _ [Hu _]].
  rewrite (sortBy_numbered _ _ _ Hn), (sortBy_numbered _ _ _ He), (sortBy_numbered _ _ _ Hv), (sortBy_numbered _ _ _ Hu).
  rewrite E0. cbn [mbind result_bind]. rewrite E1. cbn [mbind result_bind]. rewrite E2. cbn [mbind result_bind].
  rewrite E3. cbn [mbind result_bind]. rewrite E4. cbn [mbind result_bind]. by rewrite E5.
Qed.

(** ** Moving a validated bundle to another generation *)
Section moved.
Context (gen gen' : digest).

Lemma check_nodes_in ns : forall seen i,
  check_nodes gen seen i ns = Ok tt -> check_nodes gen' seen i (map (node_in gen') ns) = Ok tt.
Proof.
  induction ns as [|n ns IH]; intros seen i; [done|]. cbn [check_nodes map]. intros E. bind_inv E as seen' Hs.
  assert (check_node gen' seen i (node_in gen' n) = Ok seen') as ->; [|by apply IH].
  destruct (check_node_ok _ _ _ _ _ Hs) as ([_ Hg _ _] & _ & _).
  unfold check_node in *. rewrite Hg, streq_refl in Hs.
  change (n_GenerationID (node_in gen' n)) with gen'. rewrite streq_refl. exact Hs.
Qed.
Lemma lookupZ_map {A B} (f : A -> B) l id : lookupZ (map f l) id = f <$> lookupZ l id.
Proof. unfold lookupZ. case_match; [done|]. apply list_lookup_fmap. Qed.
Lemma check_edges_in nodes es : forall seen i,
  check_edges gen nodes seen i es = Ok tt ->
  check_edges gen' (map (node_in gen') nodes) seen i (map (edge_in gen') es) = Ok tt.
Proof.
  induction es as [|e es IH]; intros seen i; [done|]. cbn [check_edges map]. intros E. bind_inv E as seen' Hs.
  assert (check_edge gen' (map (node_in gen') nodes) seen i (edge_in gen' e) = Ok seen') as ->; [|by apply IH].
  destruct (check_edge_ok _ _ _ _ _ _ Hs) as ([_ Hg _] & _ & _).
  unfold check_edge in *. rewrite Hg, streq_refl in Hs. rewrite !lookupZ_map.
  change (e_GenerationID (edge_in gen' e)) with gen'. rewrite streq_refl.
  change (e_FromNodeID (edge_in gen' e)) with (e_FromNodeID e).
  change (e_ToNodeID (edge_in gen' e)) with (e_ToNodeID e).
  destruct (lookupZ nodes (e_FromNodeID e)), (lookupZ nodes (e_ToNodeID e)); done.
Qed.
Lemma check_evidences_in nodes edges vs : forall cov i cov',
  check_evidences gen nodes edges cov i vs = Ok cov' ->
  check_evidences gen' (map (node_in gen') nodes) (map (edge_in gen') edges) cov i (map (evidence_in gen') vs) = Ok cov'.
Proof.
  induction vs as [|v vs IH]; intros cov i cov'; [done|]. cbn [check_evidences map]. intros E. bind_inv E as cov1 Hs.
  assert (check_evidence gen' (map (node_in gen') nodes) (map (edge_in gen') edges) cov i (evidence_in gen' v) = Ok cov1)
    as ->; [|by apply IH].
  destruct (check_evidence_ok _ _ _ _ _ _ _ Hs) as (_ & [Hg _] & _).
  unfold check_evidence in *. rewrite Hg, streq_refl in Hs.
  change (v_GenerationID (evidence_in gen' v)) with gen'. rewrite streq_refl.
  change (v_NodeID (evidence_in gen' v)) with (v_NodeID v). change (v_EdgeID (evidence_in gen' v)) with (v_EdgeID v).
  destruct (v_NodeID v), (v_EdgeID v); try done; rewrite lookupZ_map; by destruct (lookupZ _ _).
Qed.
Lemma ValidateGraphUnresolved_in u :
  ValidateGraphUnresolved (unresolved_in gen' u) = ValidateGraphUnresolved u.
Proof.
  unfold ValidateGraphUnresolved.
  assert (validateGraphUnresolvedContext (unresolved_in gen' u) = validateGraphUnresolvedContext u) as ->; [|done].
  unfold validateGraphUnresolvedContext, NormalizeGraphUnresolvedContext.
  change (u_SourceDocument (unresolved_in gen' u)) with (u_SourceDocument u).
  change (u_SourceBlock (unresolved_in gen' u)) with (u_SourceBlock u).
  change (u_TargetKind (unresolved_in gen' u)) with (u_TargetKind u).
  change (u_TargetValue (unresolved_in gen' u)) with (u_TargetValue u).
  by repeat (destruct (normalizeContext _ _); cbn [mbind result_bind]; [|done]).
Qed.
Lemma check_unresolveds_in us : forall i,
  check_unresolveds gen i us = Ok us -> Forall (unresolved_valid gen) us ->
  check_unresolveds gen' i (map (unresolved_in gen') us) = Ok (map (unresolved_in gen') us).
Proof.
  induction us as [|u us IH]; intros i E Hall; [done|]. cbn [check_unresolveds map] in *.
  apply Forall_cons in Hall as [(Hg & _ & Hfix) Hall]. bind_inv E as w Hw. bind_inv E as ws Hws.
  injection E as -> ->. rewrite (IH _ Hws Hall).
  assert (check_unresolved gen' i (unresolved_in gen' u) = Ok (unresolved_in gen' u)) as ->; [|done].
  unfold check_unresolved in Hw |- *. rewrite Hfix, Hg, streq_refl in Hw.
  assert (NormalizeGraphUnresolvedContext (unresolved_in gen' u) = Ok (unresolved_in gen' u)) as ->.
  { unfold NormalizeGraphUnresolvedContext in Hfix |- *.
    change (u_SourceDocument (unresolved_in gen' u)) with (u_SourceDocument u).
    change (u_SourceBlock (unresolved_in gen' u)) with (u_SourceBlock u).
    change (u_TargetKind (unresolved_in gen' u)) with (u_TargetKind u).
    change (u_TargetValue (unresolved_in gen' u)) with (u_TargetValue u).
    bind_inv Hfix as doc Hdoc. bind_inv Hfix as block Hblock. bind_inv Hfix as kind Hkind.
    bind_inv Hfix as value Hvalue. injection Hfix as Hfix. rewrite Hdoc, Hblock, Hkind, Hvalue.
    cbn [mbind result_bind]. rewrite <- Hfix. done. }
  change (u_GenerationID (unresolved_in gen' u)) with gen'. rewrite streq_refl.
  destruct (_ || _) eqn:Hg1; [done|].
  change (u_UnresolvedID (unresolved_in gen' u)) with (u_UnresolvedID u).
  rewrite ValidateGraphUnresolved_in, Hg1.
  change (u_OwnerPath (unresolved_in gen' u)) with (u_OwnerPath u).
  change (u_Candidates (unresolved_in gen' u)) with (u_Candidates u).
  bind_inv Hw as p1 Hp1. bind_inv Hw as p2 Hp2. rewrite Hp1, Hp2. cbn [mbind result_bind].
  destruct (negb (candidates_ok _ _)); [done|].
  change (GraphUnresolvedKey (unresolved_in gen' u)) with (GraphUnresolvedKey u).
  change (u_UnresolvedKey (unresolved_in gen' u)) with (u_UnresolvedKey u).
  change (u_CrossRID (unresolved_in gen' u)) with (u_CrossRID u).
  by destruct (negb (streq _ _) || negb (streq _ _)).
Qed.
End moved.
End validated.

(** ** What a run of the hasher accepts *)
Section protocol.
Context (counts : list Z).
Implicit Types (ls : list (list (list ascii))) (cur l : list (list ascii)) (b : list ascii).

Definition flatten ls : list (nat * list ascii) := concat (imap (fun p l => map (pair p) l) ls).
Definition completed ls : Prop := forall p l, ls !! p = Some l -> complete counts p l.

Lemma flatten_snoc ls cur : flatten (ls ++ [cur]) = flatten ls ++ map (pair (length ls)) cur.
Proof. unfold flatten. rewrite imap_snoc, concat_app. cbn [concat]. by rewrite app_nil_r. Qed.
Lemma completed_snoc ls cur : completed ls -> complete counts (length ls) cur -> completed (ls ++ [cur]).
Proof.
  intros Hls Hcur p l [Hp|[Hp Hl]]%lookup_app_Some; [by apply Hls|].
  apply list_lookup_singleton_Some in Hl as [Hp' <-]. by replace p with (length ls) by lia.
Qed.
Lemma advance_by_sound k ls cur h :
  length ls + k <= 3 -> completed ls -> advance_by k (at_section counts ls cur) = Ok h ->
  exists ls' cur', h = at_section counts ls' cur' /\ length ls' = length ls + k /\ completed ls' /\
    flatten (ls' ++ [cur']) = flatten (ls ++ [cur]) /\ (k <> 0 -> cur' = []) /\ (k = 0 -> cur' = cur).
Proof.
  revert ls cur; induction k as [|k IH]; intros ls cur Hl Hc E.
  - injection E as <-. exists ls, cur. rewrite Nat.add_0_r. done.
  - rewrite advance_next in E by lia. destruct (Z.eqb_spec (lenZ cur) (nth_count counts (length ls))) as [Hcur|]; [|done].
    destruct (IH (ls ++ [cur]) []) as (ls' & cur' & -> & Hlen & Hc' & Hflat & Hne & Heq); try done.
    { rewrite length_app. cbn. lia. }
    { by apply completed_snoc. }
    exists ls', cur'. split_and!; try done.
    + rewrite Hlen, length_app. cbn. lia.
    + rewrite Hflat, flatten_snoc. cbn. by rewrite app_nil_r.
    + intros _. destruct (decide (k = 0)); auto.
Qed.
Lemma run_sound ops h :
  mfold (fun h '(p, b) => add p b h) (at_section counts [] []) ops = Ok h ->
  Forall (fun n => 0 <= n)%Z counts ->
  exists ls cur, h = at_section counts ls cur /\ length ls <= 3 /\ completed ls /\
    (lenZ cur <= nth_count counts (length ls))%Z /\ ops = flatten (ls ++ [cur]).
Proof.
  intros E Hpos. revert h E. induction ops as [|[p b] ops IH] using rev_ind; intros h E.
  - injection E as <-. exists [], []. split_and!; try done; [cbn; lia|].
    unfold nth_count. destruct Hpos; [done|]. cbn. done.
  - rewrite mfold_app in E. bind_inv E as h1 Hh1. cbn [mfold] in E. bind_inv E as h2 Hh2. injection E as <-.
    destruct (IH _ Hh1) as (ls & cur & -> & Hls & Hc & Hcur & ->).
    pose proof Hh2 as Hadd. unfold add, begin in Hh2. bind_inv Hh2 as hb Hb. bind_inv Hb as ha Ha. clear Hh2 Hb.
    pose proof (advance_phase _ _ _ Ha) as Hph. change (h_phase (at_section counts ls cur)) with (length ls) in Hph.
    pose proof Ha as Ha'. unfold advance in Ha'. case_match; [done|].
    change (h_phase (at_section counts ls cur)) with (length ls) in Ha'.
    destruct (advance_by_sound (p - length ls) ls cur ha) as (ls' & cur' & -> & Hlen & Hc' & Hflat & Hne & Heq);
      [lia|done|done|].
    assert (Hp : length ls' = p) by lia.
    assert (Hadd' : add p b (at_section counts ls cur) = add p b (at_section counts ls' cur')).
    { unfold add, begin. rewrite Ha. cbn [mbind result_bind]. by rewrite <- Hp, advance_here by lia. }
    rewrite Hadd', <- Hp in Hadd.
    destruct (Z.lt_ge_cases (lenZ cur') (nth_count counts (length ls'))) as [Hlt|Hge].
    + rewrite add_here in Hadd by (done || lia). injection Hadd as <-.
      exists ls', (cur' ++ [b]). split_and!; try done; [lia| |].
      * unfold lenZ in *. rewrite length_app. cbn. lia.
      * by rewrite <- Hflat, !flatten_snoc, map_app, app_assoc, Hp.
    + pose proof (add_full counts ls' cur' b ltac:(lia) Hge) as Hfull. by rewrite Hadd in Hfull.
Qed.
End protocol.

(** Calls of the hasher's methods. *)
Inductive content_op :=
| OpNode (n : GraphNodeRecord)
| OpEdge (e : GraphEdgeRecord)
| OpEvidence (v : GraphEvidence)
| OpUnresolved (u : GraphUnresolved).
Definition op_section (o : content_op) : nat :=
  match o with OpNode _ => 0 | OpEdge _ => 1 | OpEvidence _ => 2 | OpUnresolved _ => 3 end.

Section calls.
Context `{UnicodeTables} `{NFC} `{UrlParser} `{SHA256}.

Definition call (h : GraphContentHasher) (o : content_op) : checked GraphContentHasher :=
  match o with
  | OpNode n => AddNode n h
  | OpEdge e => AddEdge e h
  | OpEvidence v => AddEvidence v h
  | OpUnresolved u => AddUnresolved u h
  end.
Definition call_ok (o : content_op) : bool :=
  match o with OpUnresolved u => is_ok (NormalizeGraphUnresolvedContext u) | _ => true end.
Definition call_bytes (o : content_op) : list ascii :=
  match o with
  | OpNode n => node_fields n
  | OpEdge e => edge_fields e
  | OpEvidence v => evidence_fields v
  | OpUnresolved u =>
      match NormalizeGraphUnresolvedContext u with Ok w => unresolved_fields true w | Err _ => [] end
  end.
Definition content_run (nodes edges evidence unresolved : Z) (os : list content_op) : checked digest :=
  h ← NewGraphContentHasher nodes edges evidence unresolved; h ← mfold call h os; Sum h.

Lemma call_add h o : call_ok o = true -> call h o = add (op_section o) (call_bytes o) h.
Proof.
  destruct o as [| | |u]; try done. cbn [call call_ok call_bytes]. unfold AddUnresolved, addUnresolved.
  by destruct (NormalizeGraphUnresolvedContext u).
Qed.
Lemma call_fails h o : call_ok o = false -> is_ok (call h o) = false.
Proof.
  destruct o as [| | |u]; try done. cbn [call call_ok]. unfold AddUnresolved, addUnresolved.
  by destruct (NormalizeGraphUnresolvedContext u).
Qed.
Lemma calls_ok os : forall h h', mfold call h os = Ok h' -> Forall (fun o => call_ok o = true) os.
Proof.
  induction os as [|o os IH]; intros h h'; [constructor|]. cbn [mfold]. intros E. bind_inv E as h1 Hh1.
  constructor; [|by eapply IH]. destruct (call_ok o) eqn:Ho; [done|].
  apply (call_fails h) in Ho. by rewrite Hh1 in Ho.
Qed.
Lemma calls_add os h :
  Forall (fun o => call_ok o = true) os ->
  mfold call h os = mfold (fun h '(p, b) => add p b h) h (map (fun o => (op_section o, call_bytes o)) os).
Proof.
  intros Hos; revert h; induction Hos as [|o os Ho _ IH]; intros h; [done|]. cbn [mfold map].
  rewrite call_add by done. destruct (add _ _ h); [apply IH | done].
Qed.
Lemma fold_same_section p h l :
  mfold (fun h '(q, b) => add q b h) h (map (pair p) l) = mfold (fun h b => add p b h) h l.
Proof. apply mfold_map. Qed.
Lemma sections_of ops n m (xs : list nat) p :
  map (@fst nat (list ascii)) ops = repeat p n ++ xs -> length (repeat p n) = m ->
  exists l ops', ops = map (pair p) l ++ ops' /\ length l = m /\ map fst ops' = xs.
Proof.
  rewrite repeat_length. intros E <-. revert ops E. induction n as [|n IH]; intros ops E.
  - by exists [], ops.
  - destruct ops as [|[q b] ops]; [done|]. cbn in E. injection E as -> E.
    destruct (IH ops E) as (l & ops' & -> & <- & Hx). by exists (b :: l), ops'.
Qed.
Lemma sections_flatten (l0 l1 l2 l3 : list (list ascii)) :
  map (@fst nat (list ascii)) (flatten [l0; l1; l2; l3]) =
  repeat 0 (length l0) ++ repeat 1 (length l1) ++ repeat 2 (length l2) ++ repeat 3 (length l3).
Proof.
  assert (Hmap : forall p (l : list (list ascii)), map (@fst nat (list ascii)) (map (pair p) l) = repeat p (length l)).
  { intros p l. induction l as [|b l IH]; [done|]. cbn [map length repeat fst]. by rewrite IH. }
  change (flatten [l0; l1; l2; l3]) with (map (pair 0) l0 ++ map (pair 1) l1 ++ map (pair 2) l2 ++ map (pair 3) l3 ++ []).
  by rewrite !map_app, !Hmap, !app_nil_r.
Qed.
Lemma NewGraphContentHasher_ok a b c d h :
  NewGraphContentHasher a b c d = Ok h <->
  Forall (fun n => 0 <= n)%Z [a; b; c; d] /\ h = at_section [a; b; c; d] [] [].
Proof.
  unfold NewGraphContentHasher. rewrite !Forall_cons, Forall_nil. cbn [existsb].
  assert (Hst : section 0 (mkHasher "MILSP-GRAPH-CONTENT/v2" [a; b; c; d] [0; 0; 0; 0]%Z 0) = at_section [a; b; c; d] [] []).
  { unfold section, write, at_section. cbn [h_bytes h_counts h_written h_phase app imap concat].
    by rewrite section_bytes_nil, app_nil_r. }
  rewrite Hst. destruct (_ || _) eqn:Hneg.
  - split; [done|]. intros [(? & ? & ? & ? & _) _]. repeat (apply orb_true_iff in Hneg as [Hneg|Hneg]);
      try done; apply Z.ltb_lt in Hneg; lia.
  - repeat (apply orb_false_iff in Hneg as [? Hneg]). bool_to_prop. split; [intros [= <-]; split_and!; done || lia | by intros [_ ->]].
Qed.
Lemma content_run_sound a b c d os :
  is_ok (content_run a b c d os) = true ->
  Forall (fun n => 0 <= n)%Z [a; b; c; d] /\ Forall (fun o => call_ok o = true) os /\
  map op_section os = repeat 0 (Z.to_nat a) ++ repeat 1 (Z.to_nat b) ++ repeat 2 (Z.to_nat c) ++ repeat 3 (Z.to_nat d).
Proof.
  unfold content_run. destruct (NewGraphContentHasher a b c d) as [h0|] eqn:Hnew; [|done].
  apply NewGraphContentHasher_ok in Hnew as [Hpos ->]. cbn [mbind result_bind].
  destruct (mfold call _ os) as [h|] eqn:Hrun; [|done]. cbn [mbind result_bind]. intros Hsum.
  pose proof (calls_ok _ _ _ Hrun) as Hok. rewrite calls_add in Hrun by done.
  apply run_sound in Hrun as (ls & cur & -> & Hls & Hc & Hcur & Hops); [|done].
  unfold Sum in Hsum. destruct (advance 3 _) as [h|] eqn:Ha; [|done]. cbn [mbind result_bind] in Hsum.
  destruct (Z.eqb _ _) eqn:Hlast in Hsum; [|done]. apply Z.eqb_eq in Hlast. clear Hsum.
  unfold advance in Ha. case_match; [done|]. change (h_phase (at_section _ ls cur)) with (length ls) in Ha.
  destruct (advance_by_sound [a; b; c; d] (3 - length ls) ls cur h) as (ls' & cur' & -> & Hlen & Hc' & Hflat & _);
    [lia|done|done|].
  split; [done|]. split; [done|].
  assert (Hfst : map op_section os = map fst (flatten (ls' ++ [cur']))).
  { rewrite Hflat, <- Hops, map_map. done. }
  destruct ls' as [|l0 [|l1 [|l2 [|]]]]; cbn [length] in Hlen; try lia.
  pose proof (Hc' 0 l0 eq_refl) as E0. pose proof (Hc' 1 l1 eq_refl) as E1. pose proof (Hc' 2 l2 eq_refl) as E2.
  change (nth_count (h_written (at_section [a; b; c; d] [l0; l1; l2] cur')) 3) with (lenZ cur') in Hlast.
  unfold complete, nth_count, lenZ in *. cbn in E0, E1, E2, Hlast.
  rewrite Hfst. cbn [app]. rewrite sections_flatten. rewrite <- E0, <- E1, <- E2, <- Hlast. by rewrite !Nat2Z.id.
Qed.
Lemma content_run_complete a b c d os :
  Forall (fun n => 0 <= n)%Z [a; b; c; d] -> Forall (fun o => call_ok o = true) os ->
  map op_section os = repeat 0 (Z.to_nat a) ++ repeat 1 (Z.to_nat b) ++ repeat 2 (Z.to_nat c) ++ repeat 3 (Z.to_nat d) ->
  is_ok (content_run a b c d os) = true.
Proof.
  intros Hpos Hok Hs. set (ops := map (fun o => (op_section o, call_bytes o)) os).
  assert (Hfst : map fst ops = map op_section os) by (unfold ops; by rewrite map_map).
  rewrite <- Hfst in Hs.
  destruct (sections_of _ _ _ _ _ Hs eq_refl) as (l0 & o1 & E0 & L0 & Hs1).
  destruct (sections_of _ _ _ _ _ Hs1 eq_refl) as (l1 & o2 & E1 & L1 & Hs2).
  destruct (sections_of _ _ _ _ _ Hs2 eq_refl) as (l2 & o3 & E2 & L2 & Hs3).
  rewrite <- (app_nil_r (repeat 3 _)) in Hs3.
  destruct (sections_of _ _ _ _ _ Hs3 eq_refl) as (l3 & o4 & E3 & L3 & Hs4).
  apply map_eq_nil in Hs4 as ->. rewrite repeat_length in L0, L1, L2, L3.
  rewrite !Forall_cons in Hpos. destruct Hpos as (? & ? & ? & ? & _).
  destruct (run_sections_ok l0 l1 l2 l3) as (h & Hrun & Hsum).
  unfold run_sections, lenZ in Hrun. rewrite L0, L1, L2, L3, !Z2Nat.id in Hrun by done.
  unfold content_run. destruct (NewGraphContentHasher a b c d) as [h0|]; [|done]. cbn [mbind result_bind] in Hrun |- *.
  rewrite calls_add by done. fold ops. rewrite E0, E1, E2, E3, app_nil_r, !mfold_app, !fold_same_section.
  destruct (mfold _ h0 l0) as [h1|]; [|done]. cbn [mbind result_bind] in Hrun |- *. rewrite mfold_app, fold_same_section.
  destruct (mfold _ h1 l1) as [h2|]; [|done]. cbn [mbind result_bind] in Hrun |- *. rewrite mfold_app, fold_same_section.
  destruct (mfold _ h2 l2) as [h3|]; [|done]. cbn [mbind result_bind] in Hrun |- *. rewrite fold_same_section.
  rewrite Hrun. cbn [mbind result_bind]. by rewrite Hsum.
Qed.
End calls.

Lemma forallb_map' {A B} (f : A -> B) p l : forallb p (map f l) = forallb (fun x => p (f x)) l.
Proof. induction l as [|x l IH]; [done|]. cbn. by rewrite IH. Qed.

(** * Properties *)
Section properties.
Context `{UnicodeTables} `{NFC} `{UrlParser} `{SHA256}.

(** C1: sealing makes a bundle valid: when [SealIDs] succeeds, [Validate]
    accepts its result unchanged, unless an identifier came out as the all-zero
    digest, which stands for "unsealed". *)
Theorem seal_validates (b b' : GraphBundle) :
  SealIDs b = Ok b' ->
  g_GenerationID (Generation b') <> zeroDigest -> g_ContentDigest (Generation b') <> zeroDigest ->
  Validate b' = Ok b'.
Proof.
  unfold SealIDs. intros E Hgen Hcd. bind_inv E as x Hx. destruct x as [cd c]. injection E as <-.
  pose proof Hx as Hval. unfold ContentDigest in Hval. bind_inv Hval as c' Hc'. clear Hval.
  rewrite (ContentDigest_bytes _ _ Hc') in Hx. injection Hx as Hcd' ->.
  unfold validate_unsealed in Hc'. bind_inv Hc' as u Hmeta. destruct u. pose proof Hc' as Hrec.
  destruct (validate_records_ok _ _ Hrec) as (Hwf & Hg & Hn & He & Hv & Hu).
  set (gen := generation_id (Generation c) cd) in *. set (s := bundle_in cd gen c) in *.
  assert (Hmeta' : validate_metadata s = Ok tt).
  { unfold validate_metadata, lenZ in Hmeta |- *. unfold s. cbn [Nodes Edges Evidence Unresolved Generation bundle_in].
    rewrite !length_map, Hn, He, Hv, Hu, Hg. exact Hmeta. }
  assert (Hrec' : validate_records s = Ok s).
  { unfold validate_records in Hrec. bind_inv Hrec as u1 Hk1. destruct u1. bind_inv Hrec as u2 Hk2. destruct u2.
    bind_inv Hrec as cov Hk3. destruct (negb _) eqn:Hcov; [done|]. bind_inv Hrec as us Hk4. injection Hrec as <-.
    pose proof (check_unresolveds_ok _ _ _ _ Hk4) as (_ & Hnorm & Hfix & _).
    unfold validate_records, s. cbn [Nodes Edges Evidence Unresolved Generation bundle_in with_ids g_GenerationID].
    rewrite (check_nodes_in _ gen _ _ _ Hk1), (check_edges_in _ gen _ _ _ _ Hk2), (check_evidences_in _ gen _ _ _ _ _ _ Hk3).
    cbn [mbind result_bind]. rewrite (check_unresolveds_in _ gen _ _ Hfix Hnorm).
    assert (forallb (fun e => bool_decide (e_EdgeID e ∈ cov)) (map (edge_in gen) (Edges b)) = true) as ->; [|done].
    rewrite forallb_map'. apply negb_false_iff in Hcov. exact Hcov. }
  assert (Hbytes : content_bytes s = content_bytes c).
  { unfold content_bytes, content_blocks, s, lenZ. cbn [Nodes Edges Evidence Unresolved bundle_in].
    by rewrite !map_map, !length_map. }
  unfold Validate. rewrite Hmeta'. cbn [mbind result_bind].
  rewrite (proj2 (streq_false _ _) Hgen), (proj2 (streq_false _ _) Hcd), Hrec'. cbn [orb mbind result_bind].
  rewrite (ContentDigest_bytes s s), Hbytes, Hcd' by (unfold validate_unsealed; by rewrite Hmeta').
  change (g_ContentDigest (Generation s)) with cd. rewrite streq_refl.
  change (generation_id (Generation s) cd) with gen. change (g_GenerationID (Generation s)) with gen.
  by rewrite streq_refl.
Qed.

Lemma Validate_ok b b' : Validate b = Ok b' ->
  validate_metadata b = Ok tt /\ wf_bundle b' /\ Generation b' = Generation b /\ Nodes b' = Nodes b /\ Edges b' = Edges b /\
  Evidence b' = Evidence b /\ length (Unresolved b') = length (Unresolved b) /\
  g_ContentDigest (Generation b') = sha256 (content_bytes b') /\
  g_GenerationID (Generation b') = generation_id (Generation b') (g_ContentDigest (Generation b')).
Proof.
  unfold Validate. intros E. bind_inv E as u Hmeta. destruct u. destruct (_ || _); [done|]. bind_inv E as c Hc.
  destruct (ContentDigest c) as [[cd c']|] eqn:Hcd; [|done].
  destruct (streq cd _) eqn:Hs; [|done]. destruct (streq (generation_id _ _) _) eqn:Hg; [|done].
  cbn [negb] in E. injection E as <-. streqs.
  pose proof Hcd as Hval. unfold ContentDigest in Hval. bind_inv Hval as c2 Hc2. clear Hval.
  rewrite (ContentDigest_bytes _ _ Hc2) in Hcd. injection Hcd as <- <-.
  unfold validate_unsealed in Hc2. bind_inv Hc2 as u2 Hu2. clear Hu2.
  apply validate_records_ok in Hc2 as (Hwf & Hgen & Hn & He & Hv & Hu).
  apply validate_records_ok in Hc as (_ & Hgen' & Hn' & He' & Hv' & Hu'). rewrite Hgen, Hgen', Hn, Hn', He, He', Hv, Hv', Hu, Hu'.
  split_and!; try done. by rewrite <- Hs, Hg.
Qed.

(** C2: a validated bundle is a well-formed graph: records are numbered in
    order, node and edge keys are unique, edges join existing nodes and carry
    the key of their endpoints, every edge has evidence, every piece of evidence
    is about one existing record, and the identifiers are those of its content. *)
Theorem validated_bundle_wf (b b' : GraphBundle) :
  Validate b = Ok b' ->
  wf_bundle b' /\ g_ContentDigest (Generation b') = sha256 (content_bytes b') /\
  g_GenerationID (Generation b') = generation_id (Generation b') (g_ContentDigest (Generation b')).
Proof. intros (_ & ? & _ & _ & _ & _ & _ & ? & ?)%Validate_ok. done. Qed.

(** The content digest identifies the content: two bundles with the same
    digest have the same nodes, edges, evidence and unresolved claims (up to the
    generation they are filed under and the positions that the evidence digests
    cover), or SHA-256 has a collision. *)
Theorem content_digest_injective (b1 b2 c1 c2 : GraphBundle) (d : digest) :
  ContentDigest b1 = Ok (d, c1) -> ContentDigest b2 = Ok (d, c2) -> sized c1 -> sized c2 ->
  content_view c1 = content_view c2 \/ collision sha256.
Proof.
  intros E1 E2 S1 S2.
  assert (Hd : forall b c, ContentDigest b = Ok (d, c) -> d = sha256 (content_bytes c)).
  { intros b c E. pose proof E as Hval. unfold ContentDigest in Hval. bind_inv Hval as c' Hc'. clear Hval.
    rewrite (ContentDigest_bytes _ _ Hc') in E. by injection E as <- ->. }
  destruct (decide (content_bytes c1 = content_bytes c2)) as [Heq|Hne].
  - left. by apply content_bytes_inj.
  - right. exists (content_bytes c1), (content_bytes c2). split; [done|].
    by rewrite <- (Hd _ _ E1), <- (Hd _ _ E2).
Qed.

(** A node key identifies a node: two identities with the same key normalize
    to the same seven fields, or SHA-256 has a collision. *)
Theorem node_key_injective (k1 k2 n1 n2 : NodeKeyFields) (d : digest) :
  NewNodeKey k1 = Ok n1 -> NewNodeKey k2 = Ok n2 -> Hash k1 = Ok d -> Hash k2 = Ok d ->
  Forall fits (key_frames n1) -> Forall fits (key_frames n2) ->
  n1 = n2 \/ collision sha256.
Proof.
  unfold Hash, Serialize. intros E1 E2. rewrite E1, E2. cbn [mbind result_bind]. intros [= H1'] [= H2'] F1 F2.
  assert (Htuple : forall n, tuple_bytes (CanonicalTuple n) = tlv (key_frames n)) by done.
  set (x := ("MILSP-NK" ++ [zb 1] ++ be_bytes 2 7 : list ascii)).
  destruct (decide (tuple_bytes (CanonicalTuple n1) = tuple_bytes (CanonicalTuple n2))) as [Heq|Hne].
  - left. rewrite !Htuple in Heq. apply tlv_inj in Heq; [|done..].
    destruct n1, n2. unfold key_frames in Heq. cbn in Heq. by injection Heq as -> -> -> -> -> -> ->.
  - right. exists (x ++ tuple_bytes (CanonicalTuple n1)), (x ++ tuple_bytes (CanonicalTuple n2)).
    split; [intros E; by apply app_inv_head in E|]. by rewrite <- H2' in H1'.
Qed.

(** The content hasher is a protocol: a run gives a digest exactly when the
    declared counts are not negative, the contexts of the unresolved claims are
    well formed, and the records come section by section in the declared
    numbers. *)
Theorem content_protocol (nodes edges evidence unresolved : Z) (os : list content_op) :
  is_ok (content_run nodes edges evidence unresolved os) = true <->
  Forall (fun n => 0 <= n)%Z [nodes; edges; evidence; unresolved] /\ Forall (fun o => call_ok o = true) os /\
  map op_section os = repeat 0 (Z.to_nat nodes) ++ repeat 1 (Z.to_nat edges) ++ repeat 2 (Z.to_nat evidence)
                      ++ repeat 3 (Z.to_nat unresolved).
Proof.
  split.
  - apply content_run_sound.
  - intros (Hpos & Hok & Hs). by apply content_run_complete.
Qed.

(** A segment that cannot leave the directory it is resolved in. *)
Definition safe_segment (s : gostring) : Prop := s <> [] /\ s <> "." /\ s <> ".." /\ BSLASH ∉ s.

(** A path accepted by [slashPath] stays inside the repository: it is a
    non-empty sequence of segments, none of them empty, "." or "..", without a
    backslash, and each of them is a segment of the normalized input. *)
Theorem slash_path_safe (v f p t : gostring) :
  slashPath v f = Ok p -> normalizeText v = Ok t ->
  Forall safe_segment (splitByte p "/") /\ splitByte p "/" ⊆ splitByte t "/".
Proof.
  intros (t' & segs & Ht & Hne & -> & Hsegs & Hsub & Hb)%slashPath_parts. rewrite Ht. intros [= ->].
  rewrite splitByte_join by (done || by eapply Forall_impl; [exact Hsegs|]; naive_solver).
  split; [|done]. apply Forall_forall. intros s Hs.
  pose proof (proj1 (Forall_forall _ _) Hsegs s Hs) as (? & ? & ? & _). unfold safe_segment. split_and!; try done.
  apply contains_byte_false in Hb. intros Hin. apply Hb. rewrite <- (join_splitByte t "/").
  apply join_piece with s; [by apply Hsub | done].
Qed.

Lemma ParseGraphDigest_String d : length d = 32 -> ParseGraphDigest (digest_String d) = Ok d.
Proof.
  intros Hlen. unfold ParseGraphDigest, digest_String.
  rewrite length_hexEncode, Hlen, hexEncode_lower, streq_refl, hexDecode_hexEncode.
  cbn [negb orb]. by rewrite Hlen.
Qed.
Lemma ParseGraphDigest_length s d : ParseGraphDigest s = Ok d -> length d = 32.
Proof.
  unfold ParseGraphDigest. destruct (_ || _); [done|]. destruct (hexDecode s); [|done].
  destruct (_ =? 32) eqn:E; [|done]. intros [= <-]. by apply Nat.eqb_eq in E.
Qed.

(** A digest is read back from its text, and the text of a parsed digest is
    the input: the two forms are in bijection. *)
Theorem digest_text_roundtrip (d : digest) (s : gostring) :
  length d = 32 -> ParseGraphDigest (digest_String d) = Ok d /\ (ParseGraphDigest s = Ok d <-> digest_String d = s).
Proof.
  intros Hlen. pose proof (ParseGraphDigest_String d Hlen) as Hd. split; [done|]. split; [|by intros <-]. unfold ParseGraphDigest, digest_String.
  destruct (_ || _) eqn:Hguard; [done|]. destruct (hexDecode s) as [b|] eqn:Hb; [|done].
  destruct (length b =? 32); [|done]. intros [= <-]. apply orb_false_iff in Hguard as [_ Hlow].
  apply negb_false_iff, streq_true in Hlow. by apply hexEncode_lower_hex.
Qed.
End properties.

(** ** A concrete graph

    The witnesses evaluate the definitions with a polynomial hash in place of
    SHA-256, text that is already in normal form, and origins without user,
    query or fragment. *)
Module Example_graph.
#[local] Existing Instance latin_tables.
#[local] Existing Instance mixHash.
#[local] Instance toy_nfc : NFC :=
  {| nfc s := s; nfc_idempotent s := eq_refl; nfc_valid s V := V; nfc_control s V C := C;
     nfc_trimmed := trimSpace_idempotent |}.
#[local] Instance toy_url : UrlParser := fun v =>
  match splitByteN v ":" 2 with
  | [scheme; rest] =>
      let rest := trimPrefix rest "//" in
      match indexByte rest "/" with
      | Some i => Some (mkURL scheme false (take i rest) (take i rest) (drop i rest) [] [])
      | None => None
      end
  | _ => None
  end.

Definition repo : gostring := "https://example.org/o/r.git".
Definition identity (kind name : gostring) : NodeKeyFields :=
  mkNodeKeyFields "example.org/o/r" "go" "go" "internal/a" "internal/a/a.go" kind name.

Definition node (i : Z) (k : NodeKeyFields) : GraphNodeRecord :=
  let d := match Hash k with Ok d => d | Err _ => zeroDigest end in
  mkNode zeroDigest i d k "milsp-node-key/v1" "n" zeroDigest "exact" (NodeRID d) "n".
Definition main : GraphNodeRecord := node 0 (identity "function" "Main").
Definition helper : GraphNodeRecord := node 1 (identity "function" "Helper").
Definition edge : GraphEdgeRecord :=
  let d := EdgeKey (n_NodeKey main) (n_NodeKey helper) "calls" "direct" in
  mkEdge zeroDigest 0 d 0 1 "calls" "direct" "exact" "internal/a/a.go" "go" (EdgeRID d).
Definition evidence : GraphEvidence :=
  let d := EvidenceDigest zeroDigest zeroDigest "internal/a/a.go" "call" "go" "1" 3 1 3 9 in
  let k := EvidenceKey (e_EdgeKey edge) d 0 in
  mkEvidence zeroDigest 0 k d "edge" None (Some 0%Z) "internal/a/a.go" (Some 3%Z) (Some 1%Z) (Some 3%Z) (Some 9%Z)
    "go" "1" zeroDigest "call" zeroDigest "exact" (EvidenceRID k).
Definition unresolved : GraphUnresolved :=
  let u k := mkUnresolved zeroDigest 0 k "internal/a/a.go" "call" zeroDigest "ambiguous" ["x"; "y"] "go" None
               (UnresolvedRID k) "none" "docs/a.md" [] [] " target " in
  u (GraphUnresolvedKey (u zeroDigest)).
Definition bundle : GraphBundle :=
  mkBundle (mkGeneration zeroDigest 1 "example.org/o/r" repo zeroDigest zeroDigest zeroDigest zeroDigest
              "staged" [] 2 1 1 1 None 0 0)
    [main; helper] [edge] [evidence] [unresolved].
Definition sealed : GraphBundle := match SealIDs bundle with Ok b => b | Err _ => bundle end.
(** The bundle whose content is digested: its unresolved claim is normalized. *)
Definition c_bundle : GraphBundle := match ContentDigest bundle with Ok (_, b) => b | Err _ => bundle end.

(** The drive test runs before the "." segments are removed, so a drive-absolute
    path is accepted when a "./" precedes it. *)
Example slash_path_drive_escape :
  is_ok (slashPath "C:/x" "owner_path") = false /\ slashPath "./C:/x" "owner_path" = Ok ("C:/x" : gostring).
Proof. split; reflexivity. Qed.
Example sealed_is_bundle : SealIDs bundle = Ok sealed /\ ContentDigest sealed = Ok (g_ContentDigest (Generation sealed), sealed).
Proof. split; vm_compute; reflexivity. Qed.

#[local] Instance fits_dec f : Decision (fits f).
Proof. unfold fits. apply _. Defined.
#[local] Instance sized_dec b : Decision (sized b).
Proof. unfold sized. apply _. Defined.
Lemma c_bundle_digest : ContentDigest bundle = Ok (g_ContentDigest (Generation sealed), c_bundle).
Proof. vm_compute. reflexivity. Qed.
Lemma c_bundle_sized : sized c_bundle.
Proof. apply (bool_decide_unpack _). vm_compute. exact I. Qed.
Lemma sealed_sized : sized sealed.
Proof. apply (bool_decide_unpack _). vm_compute. exact I. Qed.

Lemma seal_validates_witness : SealIDs bundle = Ok sealed /\ Validate sealed = Ok sealed.
Proof.
  split; [exact (proj1 sealed_is_bundle)|].
  refine (seal_validates bundle sealed (proj1 sealed_is_bundle) _ _); vm_compute; discriminate.
Defined.
Lemma validated_bundle_wf_witness :
  wf_bundle sealed /\ g_ContentDigest (Generation sealed) = sha256 (content_bytes sealed) /\
  g_GenerationID (Generation sealed) = generation_id (Generation sealed) (g_ContentDigest (Generation sealed)).
Proof. exact (validated_bundle_wf sealed sealed (proj2 seal_validates_witness)). Defined.
Lemma content_digest_injective_witness :
  content_view c_bundle = content_view sealed \/ collision sha256.
Proof.
  exact (content_digest_injective bundle sealed c_bundle sealed _ c_bundle_digest (proj2 sealed_is_bundle)
           c_bundle_sized sealed_sized).
Defined.
Lemma node_key_injective_witness :
  let k := mkNodeKeyFields "HTTPS://Example.ORG/o/r.git" "Go" "go" "internal/./a" "internal/a/a.go" "function" " Main " in
  k <> identity "function" "Main" /\
  (n_Identity main = n_Identity main \/ collision sha256).
Proof.
  intros k. split; [done|].
  apply (node_key_injective k (identity "function" "Main") (n_Identity main) (n_Identity main) (n_NodeKey main));
    [vm_compute; reflexivity..|apply (bool_decide_unpack _); vm_compute; exact I|apply (bool_decide_unpack _); vm_compute; exact I].
Defined.
Lemma slash_path_safe_witness :
  slashPath " internal/./a " "owner_path" = Ok ("internal/a" : gostring) /\
  Forall safe_segment (splitByte "internal/a" "/") /\
  splitByte "internal/a" "/" ⊆ splitByte "internal/./a" "/".
Proof.
  split; [vm_compute; reflexivity|].
  refine (slash_path_safe " internal/./a " "owner_path" "internal/a" "internal/./a" _ _); vm_compute; reflexivity.
Defined.
Lemma digest_text_roundtrip_witness :
  length (n_NodeKey main) = 32 /\ ParseGraphDigest (digest_String (n_NodeKey main)) = Ok (n_NodeKey main).
Proof. split; [vm_compute; reflexivity|]. 
  refine (proj1 (digest_text_roundtrip (n_NodeKey main) [] _)). vm_compute. reflexivity.
Defined.

End Example_graph.
