(* ===== verification/GraphStore.v ===== *)
(** The reads of the graph store: internal/store/graph_query.go and
    graph_impact.go, with model.ClassifyGraphFreshness of model/graph_analysis.go.

    A read transaction of SQLite sees one state of the tables, so a snapshot holds
    rows; a SELECT of the sources is the selection of those rows, and any call to the
    data base can fail, as the [Connection] says. *)
From S2P Require Import Prelude GoStrings GoStringFacts GoSort GoNum Graph.

Local Open Scope go_scope.

(** * The data base *)

(** The errors that callers tell apart: [*model.GraphQueryError], the sentinels of
    the store, what the data base driver returns, and the end of the context. *)
Inductive query_error :=
| GraphQueryError (code field message hint : gostring)
| ErrGenerationInvalid
| ErrGraphQueryGenerationMissing
| ErrGraphQueryGenerationStatus
| ErrGraphQuerySelectorAmbiguous
| ErrDriver
| ErrContext.
Definition query_err (code message : gostring) : query_error := GraphQueryError code [] message [].
Definition field_err (code field message : gostring) : query_error := GraphQueryError code field message [].

(** [graph_generations] with the rows of the other tables that carry the
    identifier of the generation, and [workspace_meta].  [t_legacy]: the columns that
    locate an unresolved target are missing. *)
Record tables := mkTables {
  t_meta : list (gostring * option gostring);
  t_generations : list GraphBundle;
  t_legacy : bool }.

(** The state is the number of calls made; [sql_fails n]: call [n] fails. *)
Class Connection := sql_fails : nat -> bool.
Definition Q : Type -> Type := eff nat query_error.
Definition query `{Connection} {A} (rows : list A) : Q (list A) := fun n =>
  (if sql_fails n then Err ErrDriver else Ok rows, S n).
Definition queryRow `{Connection} {A} (rows : list A) : Q (option A) :=
  rows ← query rows; mret (head rows).

(** [SELECT ... WHERE cond ORDER BY key LIMIT limit]. *)
Definition matching {A} (cond : A -> bool) (table : list A) : list A :=
  filter (fun x => cond x = true) table.
Definition select {A K} (cmp : K -> K -> comparison) (key : A -> K) (cond : A -> bool) (limit : Z)
    (table : list A) : list A :=
  take (Z.to_nat limit) (sortOn cmp key (matching cond table)).
Definition by_text : list gostring -> list gostring -> comparison := cmp_list compareString.

(** * Opening a snapshot *)
Record GraphQuerySnapshot := mkSnapshot {
  s_rows : GraphBundle; s_activeGeneration : digest; s_runtimeState : gostring;
  s_legacy : bool }.
Definition s_generation (s : GraphQuerySnapshot) : GraphGeneration := Generation (s_rows s).

Definition graphCatalogStaleError : query_error :=
  GraphQueryError "GPH_QUERY_GRAPH_INVALID" []
    "graph catalog is stale; graph queries are unavailable until the index is refreshed"
    "safe recovery (no automatic rebuild): run 'mi-lsp index --workspace <alias> --docs-only' for the documentation graph or 'mi-lsp index --workspace <alias>' for the full graph; textual wiki search remains available".
Definition GraphRuntimeFresh : gostring := "fresh".

Section store.
Context `{Connection} `{UnicodeTables}.

Definition meta_row (t : tables) (key : gostring) : Q (option (option gostring)) :=
  row ← queryRow (matching (fun r => streq r.1 key) (t_meta t)); mret (snd <$> row).
(** A NULL cannot be scanned into a string. *)
Definition GraphRuntimeStateOf (t : tables) : Q gostring :=
  row ← meta_row t "graph_runtime_state";
  match row with
  | None => mret GraphRuntimeFresh
  | Some (Some state) => mret state
  | Some None => throw ErrDriver
  end.
Definition workspaceMetaValueConn (t : tables) (key : gostring) : Q (gostring * bool) :=
  row ← meta_row t key;
  mret (match row with
        | None => ([], false)
        | Some None => ([], true)
        | Some (Some value) => (value, true)
        end).
Definition activeGraphGenerationConn (t : tables) : Q (option digest) :=
  row ← meta_row t "active_graph_generation_id";
  match row with
  | None | Some None => mret None
  | Some (Some b) =>
      if length b =? 0 then mret None
      else if negb (length b =? 32) then throw ErrDriver else mret (Some b)
  end.
(** The row of the generation; the code reads the workspace identity back as the
    repository identity. *)
Definition read_back (g : GraphGeneration) : GraphGeneration :=
  mkGeneration (g_GenerationID g) (g_SchemaVersion g) (g_WorkspaceIdentity g) (g_WorkspaceIdentity g)
    (g_SourceFingerprint g) (g_ConfigFingerprint g) (g_BackendManifestDigest g) (g_ContentDigest g)
    (g_Status g) (g_ErrorCode g) (g_NodeCount g) (g_EdgeCount g) (g_EvidenceCount g)
    (g_UnresolvedCount g) (g_PreviousGenerationID g) (g_CreatedAt g) (g_PublishedAt g).
Definition loadGeneration (t : tables) (id : digest) : Q (option GraphBundle) :=
  row ← queryRow (matching (fun b => streq (g_GenerationID (Generation b)) id) (t_generations t));
  mret (option_map (fun b => mkBundle (read_back (Generation b)) (Nodes b) (Edges b) (Evidence b) (Unresolved b)) row).

(** A generation that cannot be read is reported like one that may not be read. *)
Definition open_generation (t : tables) (state : gostring) (id : digest) : Q GraphQuerySnapshot := fun n =>
  match loadGeneration t id n with
  | (Err _, n) => (Err ErrGraphQueryGenerationStatus, n)
  | (Ok None, n) => (Err ErrGraphQueryGenerationMissing, n)
  | (Ok (Some b), n) =>
      let status := g_Status (Generation b) in
      if negb (streq status "active") && negb (streq status "retired")
      then (Err ErrGraphQueryGenerationStatus, n)
      else
        (active ← activeGraphGenerationConn t;
         mret (mkSnapshot b (default id active) state (t_legacy t))) n
  end.
Definition requested_generation (t : tables) (generation : gostring) : Q digest :=
  if streq (trimSpace generation) [] then
    active ← activeGraphGenerationConn t;
    match active with Some id => mret id | None => throw ErrGraphQueryGenerationMissing end
  else
    match ParseGraphDigest (trimSpace generation) with
    | Ok id => mret id
    | Err _ => throw ErrGraphQueryGenerationMissing
    end.
Definition BeginGraphQuerySnapshot (t : tables) (generation : gostring) : Q GraphQuerySnapshot :=
  _ ← query (A:=unit) [];
  state ← GraphRuntimeStateOf t;
  if negb (streq state GraphRuntimeFresh) then throw graphCatalogStaleError
  else
    graphCatalog ← workspaceMetaValueConn t "graph_catalog_generation_id";
    activeCatalog ← workspaceMetaValueConn t "active_catalog_generation_id";
    if graphCatalog.2 && activeCatalog.2 && negb (streq graphCatalog.1 activeCatalog.1)
    then throw graphCatalogStaleError
    else id ← requested_generation t generation; open_generation t state id.

(** ** How current a snapshot is *)
Record GraphFreshness := mkFreshness {
  f_State : gostring; f_GenerationID : gostring; f_ObservedGeneration : gostring; f_ReasonCode : gostring }.
Definition ClassifyGraphFreshness (runtimeState activeGeneration requestedGeneration : gostring)
    (generationValid : bool) : GraphFreshness :=
  let activeGeneration := trimSpace activeGeneration in
  let requestedGeneration := trimSpace requestedGeneration in
  let result state reason := mkFreshness state activeGeneration requestedGeneration reason in
  let runtime := toLower (trimSpace runtimeState) in
  if negb generationValid then result "invalid" "generation_validation_failed"
  else if streq activeGeneration [] then result "unknown" "active_generation_missing"
  else if streq runtime "stale" then result "stale" "runtime_marked_stale"
  else if negb (oneOf runtime ["fresh"; "current"; []]) then result "unknown" "runtime_state_unknown"
  else if negb (streq requestedGeneration []) && negb (streq requestedGeneration activeGeneration)
  then result "lagging" "generation_mismatch"
  else result "current" "generation_matches_active".
Definition AllowsExactClaims (f : GraphFreshness) : bool := streq (f_State f) "current".
Definition SnapshotFreshness (s : GraphQuerySnapshot) (requested : gostring) : GraphFreshness :=
  let own := digest_String (g_GenerationID (s_generation s)) in
  let active := digest_String (s_activeGeneration s) in
  let active := if streq active [] then own else active in
  let requested := if streq (trimSpace requested) [] then own else requested in
  let freshness := ClassifyGraphFreshness (s_runtimeState s) active requested true in
  if streq (g_Status (s_generation s)) "retired" && streq (f_State freshness) "current"
  then mkFreshness "lagging" (f_GenerationID freshness) (f_ObservedGeneration freshness) "generation_retired"
  else freshness.
End store.

(** * Reads of one snapshot *)
Section reads.
Context `{Connection} `{UnicodeTables} (s : GraphQuerySnapshot).

Definition uniqueSortedNonNegative (values : list Z) : list Z :=
  sortInts (dedup (matching (fun v => 0 <=? v)%Z values)).

Definition Node (id : Z) : Q GraphNodeRecord :=
  if (id <? 0)%Z then throw ErrGenerationInvalid
  else
    row ← queryRow (matching (fun n => n_NodeID n =? id)%Z (Nodes (s_rows s)));
    match row with Some n => mret n | None => throw ErrGraphQueryGenerationMissing end.

(** The parameters of one statement are limited: 500 identifiers at a time. *)
Fixpoint chunks {A} (fuel : nat) (l : list A) : list (list A) :=
  match fuel, l with
  | O, _ | _, [] => []
  | S fuel, _ => take 500 l :: chunks fuel (drop 500 l)
  end.
Fixpoint chunked {A R} (f : R -> list A -> Q R) (r : R) (l : list (list A)) : Q R :=
  match l with
  | [] => mret r
  | c :: l => r ← f r c; chunked f r l
  end.
Definition NodesByIDs (ids : list Z) : Q (gmap Z GraphNodeRecord) :=
  let canonical := uniqueSortedNonNegative ids in
  chunked (fun result chunk =>
    rows ← query (sortOn Z.compare n_NodeID
      (matching (fun n => bool_decide (n_NodeID n ∈ chunk)) (Nodes (s_rows s))));
    mret (foldl (fun m n => <[n_NodeID n := n]> m) result rows))
    ∅ (chunks (length canonical) canonical).

Definition has_edge (edge : Z) (v : GraphEvidence) : bool :=
  match v_EdgeID v with Some e => (e =? edge)%Z | None => false end.
Definition has_node (node : Z) (v : GraphEvidence) : bool :=
  match v_NodeID v with Some n => (n =? node)%Z | None => false end.
Definition evidence_rows (cond : GraphEvidence -> bool) (max : Z) : list gostring :=
  map (fun v => digest_String (v_EvidenceKey v))
    (select compareString v_EvidenceKey cond max (Evidence (s_rows s))).
Definition EvidenceRefs (nodeID edgeID : option Z) (max : Z) : Q (list gostring) :=
  if (max <? 1)%Z then mret []
  else
    match edgeID, nodeID with
    | Some e, _ => query (evidence_rows (has_edge e) max)
    | None, Some n => query (evidence_rows (has_node n) max)
    | None, None => mret []
    end.
(** [ROW_NUMBER() OVER (PARTITION BY edge_id ORDER BY evidence_key) <= maxEach],
    ordered by edge: the first rows of every edge in turn. *)
Definition EvidenceRefsByEdges (edgeIDs : list Z) (maxEach : Z) : Q (gmap Z (list gostring)) :=
  if (maxEach <? 1)%Z then mret ∅
  else
    let maxEach := Z.min maxEach 32 in
    let canonical := uniqueSortedNonNegative edgeIDs in
    chunked (fun result chunk =>
      rows ← query (e ← chunk; map (pair e) (evidence_rows (has_edge e) maxEach));
      mret (foldl (fun m r => <[r.1 := default [] (m !! r.1) ++ [r.2]]> m) result rows))
      ∅ (chunks (length canonical) canonical).

(** ** Selectors *)
Definition is_document (n : GraphNodeRecord) : bool := streq (SymbolKind (n_Identity n)) "document".
Definition selector_queries (selector : gostring) : list (gostring * list GraphNodeRecord) :=
  let sel key cond limit := select by_text key cond limit (Nodes (s_rows s)) in
  let by_key n := [n_NodeKey n] in
  let by_owner n := [OwnerPath (n_Identity n); n_NodeKey n] in
  (if (length selector =? 64) && streq (toLower selector) selector
   then match ParseGraphDigest selector with
        | Ok key => [("node_key", sel by_key (fun n => streq (n_NodeKey n) key) 2%Z)]
        | Err _ => []
        end
   else []) ++
  [("doc_path", sel by_key (fun n => is_document n && streq (OwnerPath (n_Identity n)) selector) 51%Z);
   ("doc_id", sel by_key (fun n => is_document n && streq (SemanticIdentity (n_Identity n)) selector) 51%Z);
   ("cross_rid", sel by_key (fun n => streq (n_CrossRID n) selector) 51%Z);
   ("semantic_identity", sel by_key (fun n => streq (SemanticIdentity (n_Identity n)) selector) 51%Z);
   ("scoped_name", sel by_owner (fun n => streq (n_SortKey n) selector) 51%Z);
   ("display_name", sel by_owner (fun n => streq (n_DisplayName n) selector) 51%Z)].
Fixpoint first_rows (queries : list (gostring * list GraphNodeRecord))
    : Q (list GraphNodeRecord * gostring) :=
  match queries with
  | [] => mret ([], [])
  | (kind, rows) :: queries =>
      rows ← query rows;
      match rows with [] => first_rows queries | _ => mret (take 51 rows, kind) end
  end.
Definition selector_required : query_error := query_err "GPH_QUERY_SELECTOR_INVALID" "selector is required".
Definition ResolveGraphSelector (selector : gostring) : Q (list GraphNodeRecord * gostring) :=
  let selector := trimSpace selector in
  if streq selector [] then throw selector_required else first_rows (selector_queries selector).
Definition ResolveGraphEdgeSelector (selector : gostring) : Q (list GraphEdgeRecord) :=
  let selector := trimSpace selector in
  if streq selector [] then throw selector_required
  else query (select compareString e_EdgeKey (fun e => streq (e_CrossRID e) selector) 2 (Edges (s_rows s))).

(** ** Edges around a set of nodes *)
Definition edge_order (e : GraphEdgeRecord) : list gostring := [e_Relation e; e_ClaimStatus e; e_EdgeKey e].
(** The column that the direction selects. *)
Definition near_end (direction : gostring) (e : GraphEdgeRecord) : Z :=
  if streq direction "in" then e_ToNodeID e else e_FromNodeID e.
Definition direction_ok (direction : gostring) : bool := oneOf direction ["in"; "out"].

Fixpoint edges_of_nodes (direction : gostring) (relations : list gostring) (maxRows : Z)
    (result : list GraphEdgeRecord) (nodes : list Z) : Q (list GraphEdgeRecord) :=
  match nodes with
  | [] => mret result
  | node :: nodes =>
      if (maxRows <=? lenZ result)%Z then mret result
      else
        rows ← query (select by_text edge_order
          (fun e => (near_end direction e =? node)%Z
                    && (bool_decide (relations = []) || oneOf (e_Relation e) relations))
          (maxRows - lenZ result) (Edges (s_rows s)));
        edges_of_nodes direction relations maxRows (result ++ rows) nodes
  end.
Definition EdgesFromFrontier (frontier : list Z) (direction : gostring) (relations : list gostring)
    (maxRows : Z) : Q (list GraphEdgeRecord) :=
  if negb (direction_ok direction)
  then throw (field_err "GPH_QUERY_BUDGET_INVALID" "direction" "direction must be in or out")
  else if (maxRows <? 1)%Z || bool_decide (frontier = []) then mret []
  else if existsb (fun n => n <? 0)%Z frontier then throw ErrGenerationInvalid
  else edges_of_nodes direction relations maxRows [] (take (Z.to_nat maxRows) (sortInts (dedup frontier))).

(** The closure [next]: the first edge not yet taken, and the edges after it. *)
Fixpoint next_edge (seen : list Z) (edges : list GraphEdgeRecord)
    : option GraphEdgeRecord * list GraphEdgeRecord :=
  match edges with
  | [] => (None, [])
  | e :: edges => if bool_decide (e_EdgeID e ∈ seen) then next_edge seen edges else (Some e, edges)
  end.
Definition take_edge (o : option GraphEdgeRecord) (seen : list Z) (result : list GraphEdgeRecord)
    : list Z * list GraphEdgeRecord :=
  match o with Some e => (e_EdgeID e :: seen, result ++ [e]) | None => (seen, result) end.
Fixpoint interleave (fuel : nat) (maxRows : Z) (seen : list Z) (result out in_ : list GraphEdgeRecord)
    : list GraphEdgeRecord :=
  match fuel with
  | O => result
  | S fuel =>
      if negb ((lenZ result <? maxRows)%Z && (negb (bool_decide (out = [])) || negb (bool_decide (in_ = []))))
      then result
      else
        let '(e, out) := next_edge seen out in
        let '(seen, result) := take_edge e seen result in
        if (maxRows <=? lenZ result)%Z then result
        else
          let '(e, in_) := next_edge seen in_ in
          let '(seen, result) := take_edge e seen result in
          interleave fuel maxRows seen result out in_
  end.
Definition interleaveGraphEdges (out in_ : list GraphEdgeRecord) (maxRows : Z) : list GraphEdgeRecord :=
  if (maxRows <? 1)%Z then [] else interleave (S (length out + length in_)) maxRows [] [] out in_.
Definition EdgesAround (frontier : list Z) (direction : gostring) (relations : list gostring) (maxRows : Z)
    : Q (list GraphEdgeRecord) :=
  if streq direction "both" then
    if (maxRows <? 1)%Z then mret []
    else
      out ← EdgesFromFrontier frontier "out" relations maxRows;
      in_ ← EdgesFromFrontier frontier "in" relations maxRows;
      mret (interleaveGraphEdges out in_ maxRows)
  else EdgesFromFrontier frontier direction relations maxRows.

(** ** Impact *)
Definition ImpactEdgesFromFrontier (frontier : list Z) (direction : gostring)
    (relations statuses : list gostring) (maxRows : Z) : Q (list GraphEdgeRecord) :=
  if negb (direction_ok direction)
  then throw (field_err "GPH_IMPACT_RELATION_UNSUPPORTED" "direction" "impact direction must be in or out")
  else if (maxRows <? 1)%Z || bool_decide (frontier = []) then mret []
  else
    let ids := take (Z.to_nat maxRows) (uniqueSortedNonNegative frontier) in
    query (select by_text edge_order
      (fun e => bool_decide (near_end direction e ∈ ids)
                && (bool_decide (relations = []) || oneOf (e_Relation e) (map (fun r => toLower (trimSpace r)) relations))
                && (bool_decide (statuses = []) || oneOf (e_ClaimStatus e) statuses))
      maxRows (Edges (s_rows s))).

Record GraphImpactOmission := mkImpactOmission {
  io_Path : gostring; io_Reason : gostring; io_Code : gostring; io_Candidates : list gostring }.
Record GraphImpactSeedResolution := mkSeeds {
  sd_Nodes : list GraphNodeRecord; sd_Omissions : list GraphImpactOmission }.
Definition normalizeImpactPath (path : gostring) : gostring :=
  trimPrefix (trimSpace (replaceByte path BSLASH "/")) "./".
Definition boundedStrings (values : list gostring) (max : nat) : list gostring := take max values.
Definition node_seed_order (n : GraphNodeRecord) : list gostring :=
  [SymbolKind (n_Identity n); n_SortKey n; n_NodeKey n].
(** [Scan] leaves the reason and the hint of the last row. *)
Definition unresolved_omission (path : gostring) (rows : list GraphUnresolved) : GraphImpactOmission :=
  let reason := default [] (u_ReasonCode <$> last rows) in
  let hint := default [] (u_RecoveryHintCode <$> last rows) in
  mkImpactOmission path
    (if streq reason [] then "owner path has no resolvable graph node" else reason)
    (if streq hint [] then "GPH_IMPACT_SEED_UNRESOLVED" else hint)
    (boundedStrings (mjoin (map u_Candidates rows)) 16).
Definition seed_budget (path : gostring) : GraphImpactOmission :=
  mkImpactOmission path "seed budget exceeded" "GPH_IMPACT_BUDGET_EXCEEDED" [].
Definition resolve_path (max : Z) (r : GraphImpactSeedResolution) (path : gostring)
    : Q GraphImpactSeedResolution :=
  let room := (max - lenZ (sd_Nodes r))%Z in
  if (max <=? lenZ (sd_Nodes r))%Z then mret (mkSeeds (sd_Nodes r) (sd_Omissions r ++ [seed_budget path]))
  else
    nodes ← query (select by_text node_seed_order (fun n => streq (OwnerPath (n_Identity n)) path)
      (room + 1) (Nodes (s_rows s)));
    if bool_decide (nodes = []) then
      rows ← query (select Z.compare u_UnresolvedID (fun u => streq (u_OwnerPath u) path) 4
        (Unresolved (s_rows s)));
      mret (mkSeeds (sd_Nodes r) (sd_Omissions r ++ [unresolved_omission path rows]))
    else if (room <? lenZ nodes)%Z
    then mret (mkSeeds (sd_Nodes r ++ take (Z.to_nat room) nodes) (sd_Omissions r ++ [seed_budget path]))
    else mret (mkSeeds (sd_Nodes r ++ nodes) (sd_Omissions r)).
Fixpoint resolve_paths (max : Z) (r : GraphImpactSeedResolution) (paths : list gostring)
    : Q GraphImpactSeedResolution :=
  match paths with
  | [] => mret r
  | p :: paths => r ← resolve_path max r p; resolve_paths max r paths
  end.
Definition ResolveImpactSeeds (paths : list gostring) (max : Z) : Q GraphImpactSeedResolution :=
  if (max <? 1)%Z then mret (mkSeeds [] [])
  else
    let canonical := sortStrings (dedup (matching (fun p => negb (streq p [])) (map normalizeImpactPath paths))) in
    resolve_paths max (mkSeeds [] []) canonical.

(** ** Omissions *)
Definition sanitizeGraphOmissionText (value : gostring) : gostring :=
  let value := trimSpace value in
  let value := if 4096 <? length value then take 4096 value else value in
  if existsb (fun '(_, r) => (r <? 32) || (r =? 127))%Z (runes value) then [] else value.
Definition sanitizeGraphOmissionPath (value : gostring) : gostring :=
  let value := replaceByte (sanitizeGraphOmissionText value) BSLASH "/" in
  if streq value [] || hasPrefix value "/" || hasPrefix value "//"
     || match value with _ :: c :: _ => Ascii.eqb c ":" | _ => false end
  then []
  else if existsb (fun part => streq part "..") (splitByte value "/") then [] else value.
Record EnvelopeOmission := mkEnvelopeOmission {
  eo_Input : gostring; eo_Reason : gostring; eo_ErrorCode : gostring; eo_OwnerPath : gostring;
  eo_SourceDocument : gostring; eo_SourceBlock : gostring; eo_TargetKind : gostring;
  eo_TargetValue : gostring }.
Definition scanGraphUnresolvedOmission (legacy : bool) (u : GraphUnresolved) : EnvelopeOmission :=
  let located (v : gostring) : gostring := if legacy then [] else v in
  mkEnvelopeOmission (sanitizeGraphOmissionText (u_CrossRID u)) (sanitizeGraphOmissionText (u_ReasonCode u))
    (sanitizeGraphOmissionText (u_RecoveryHintCode u)) (sanitizeGraphOmissionPath (u_OwnerPath u))
    (sanitizeGraphOmissionPath (located (u_SourceDocument u)))
    (sanitizeGraphOmissionText (located (u_SourceBlock u)))
    (sanitizeGraphOmissionText (located (u_TargetKind u)))
    (sanitizeGraphOmissionText (located (u_TargetValue u))).
(** On an old table the first statement is refused and a second one is made. *)
Definition UnresolvedOmissions (max : Z) : Q (list EnvelopeOmission) :=
  if (max <? 1)%Z then mret []
  else
    let max := Z.min max 50 in
    let rows := select Z.compare u_UnresolvedID (fun _ => true) max (Unresolved (s_rows s)) in
    _ ← (if s_legacy s then query (A:=unit) [] else mret []);
    rows ← query rows;
    mret (map (scanGraphUnresolvedOmission (s_legacy s)) rows).
Definition UnresolvedCount : Q Z := rows ← query (Unresolved (s_rows s)); mret (lenZ rows).
End reads.

Definition SanitizeGraphQueryError (e : query_error) : query_error :=
  match e with
  | GraphQueryError code field message hint => GraphQueryError code field message hint
  | ErrGraphQueryGenerationMissing | ErrGraphQueryGenerationStatus =>
      query_err "GPH_QUERY_GENERATION_NOT_FOUND" "requested graph generation is not available"
  | ErrGraphQuerySelectorAmbiguous =>
      query_err "GPH_QUERY_SELECTOR_AMBIGUOUS" "selector matched multiple graph nodes"
  | ErrGenerationInvalid => query_err "GPH_QUERY_GRAPH_INVALID" "graph generation is invalid"
  | ErrDriver | ErrContext => query_err "GPH_QUERY_BACKEND_UNAVAILABLE" "graph backend is unavailable"
  end.
