(* ===== verification/GraphStoreFacts.v ===== *)
(** Properties of the graph store: a small logic for reads that can fail, and what
    the reads of a snapshot return. *)
From S2P Require Import Prelude GoStrings GoStringFacts GoSort GoNum Graph GraphFacts GraphStore.

Local Open Scope go_scope.

(** * Reads that can fail

    [triple m P E]: from any number of calls made before, [m] ends in a value with [P]
    or in an error with [E]. *)
Section triples.
Context `{Connection}.

Definition triple {A} (m : Q A) (P : A -> Prop) (E : query_error -> Prop) : Prop :=
  forall n, match fst (m n) with Ok a => P a | Err e => E e end.
(** The result does not depend on the calls made before. *)
Definition steady {A} (m : Q A) : Prop := forall n n', fst (m n) = fst (m n').
Definition reliable : Prop := forall n, sql_fails n = false.
(** The errors [E] allow for failing calls, or there are none. *)
Definition tolerates (E : query_error -> Prop) : Prop := forall n, sql_fails n = true -> E ErrDriver.

Lemma reliable_tolerates E : reliable -> tolerates E.
Proof. intros Hr n Hn. by rewrite Hr in Hn. Qed.
Lemma tolerates_all (E : query_error -> Prop) : E ErrDriver -> tolerates E.
Proof. by intros ? ? ?. Qed.

Section rules.
Context {A B : Type} (P R : A -> Prop) (E : query_error -> Prop).
Lemma triple_mono (m : Q A) (E' : query_error -> Prop) :
  triple m P E -> (forall a, P a -> R a) -> (forall e, E e -> E' e) -> triple m R E'.
Proof. intros Hm HP HE n. specialize (Hm n). destruct (fst (m n)); auto. Qed.
Lemma triple_bind (m : Q A) (f : A -> Q B) (P' : B -> Prop) :
  triple m R E -> (forall a, R a -> triple (f a) P' E) -> triple (m ≫= f) P' E.
Proof.
  intros Hm Hf n. specialize (Hm n). unfold mbind, eff_bind. destruct (m n) as [[a|e] n']; cbn in *; [|done].
  apply (Hf a Hm n').
Qed.
Lemma triple_ret a : P a -> triple (mret a) P E.
Proof. by intros ? ?. Qed.
Lemma triple_throw e : E e -> triple (throw (A:=A) e) P E.
Proof. by intros ? ?. Qed.
Lemma triple_lift r : match r with Ok a => P a | Err e => E e end -> triple (lift (A:=A) r) P E.
Proof. by intros ? ?. Qed.
Lemma triple_run (m : Q A) n a n' : triple m P E -> m n = (Ok a, n') -> P a.
Proof. intros Hm Hr. specialize (Hm n). by rewrite Hr in Hm. Qed.
Lemma triple_query (rows : list A) : tolerates E -> triple (query rows) (fun r => r = rows) E.
Proof. intros HE n. unfold query. destruct (sql_fails n) eqn:Hn; cbn; [by eapply HE|done]. Qed.
Lemma triple_queryRow (rows : list A) : tolerates E -> triple (queryRow rows) (fun r => r = head rows) E.
Proof.
  intros HE n. unfold queryRow, query, mbind, eff_bind. destruct (sql_fails n) eqn:Hn; cbn; [by eapply HE|done].
Qed.

(** ** Steadiness *)
Lemma steady_ret (a : A) : steady (mret a : Q A).
Proof. done. Qed.
Lemma steady_throw e : steady (throw e : Q A).
Proof. done. Qed.
Lemma steady_lift r : steady (lift r : Q A).
Proof. done. Qed.
Lemma steady_query (rows : list A) : reliable -> steady (query rows).
Proof. intros Hr n n'. unfold query. by rewrite !Hr. Qed.
Lemma steady_bind (m : Q A) (f : A -> Q B) : steady m -> (forall a, steady (f a)) -> steady (m ≫= f).
Proof.
  intros Hm Hf n n'. specialize (Hm n n'). unfold mbind, eff_bind.
  destruct (m n) as [[a|e] k], (m n') as [[a'|e'] k']; cbn in *; try congruence.
  injection Hm as ->. apply Hf.
Qed.
End rules.
End triples.

(** Prove that a composed read is steady. *)
Create HintDb steady discriminated.
#[export] Hint Resolve steady_ret steady_throw steady_lift steady_query : steady.
Ltac steady :=
  repeat match goal with
  | |- forall _, _ => intros ?
  | |- steady (_ ≫= _) => apply steady_bind; [|intros ?]
  | |- steady (if ?b then _ else _) => destruct b
  | |- steady (match ?x with _ => _ end) => destruct x
  | |- steady _ => solve [eauto with steady]
  end.
(** Case on the tests at the head of a read. *)
Ltac triple_branches :=
  repeat match goal with |- triple (match ?x with _ => _ end) _ _ => destruct x end.

Section steady_reads.
Context `{Connection} `{UnicodeTables} (s : GraphQuerySnapshot) (Hr : reliable).

Lemma steady_queryRow {A} (rows : list A) : steady (queryRow rows).
Proof. unfold queryRow. steady. Qed.
Lemma steady_Node id : steady (Node s id).
Proof. pose proof @steady_queryRow. unfold Node. steady. Qed.
Lemma steady_EvidenceRefs a b max : steady (EvidenceRefs s a b max).
Proof. unfold EvidenceRefs. steady. Qed.
Lemma steady_ImpactEdges frontier d rels sts max : steady (ImpactEdgesFromFrontier s frontier d rels sts max).
Proof. unfold ImpactEdgesFromFrontier. steady. Qed.
Lemma steady_resolve_path max r p : steady (resolve_path s max r p).
Proof. unfold resolve_path. steady. Qed.
Lemma steady_resolve_paths max r ps : steady (resolve_paths s max r ps).
Proof. pose proof steady_resolve_path. revert r; induction ps; intros r; cbn [resolve_paths]; steady. Qed.
Lemma steady_ResolveImpactSeeds ps max : steady (ResolveImpactSeeds s ps max).
Proof. pose proof steady_resolve_paths. unfold ResolveImpactSeeds. steady. Qed.

Lemma steady_meta_row t key : steady (meta_row t key).
Proof. pose proof @steady_queryRow. unfold meta_row. steady. Qed.
Lemma steady_active t : steady (activeGraphGenerationConn t).
Proof. pose proof steady_meta_row. unfold activeGraphGenerationConn. steady. Qed.
Lemma steady_loadGeneration t id : steady (loadGeneration t id).
Proof. pose proof @steady_queryRow. unfold loadGeneration. steady. Qed.
Lemma steady_open t state id : steady (open_generation t state id).
Proof.
  intros n n'. unfold open_generation. pose proof (steady_loadGeneration t id n n') as Hl.
  destruct (loadGeneration t id n) as [[[b|]|] k], (loadGeneration t id n') as [[[b'|]|] k']; cbn in Hl; simplify_eq; try done.
  destruct (_ && _); [done|].
  assert (Hs : steady (active ← activeGraphGenerationConn t;
    mret (mkSnapshot b' (default id active) state (t_legacy t)) : Q _)) by (pose proof steady_active; steady).
  apply Hs.
Qed.
Lemma steady_begin t gen : steady (BeginGraphQuerySnapshot t gen).
Proof.
  pose proof steady_meta_row. pose proof steady_active. pose proof steady_open.
  unfold BeginGraphQuerySnapshot, GraphRuntimeStateOf, workspaceMetaValueConn, requested_generation. steady.
Qed.
End steady_reads.

(** ** The value of a steady read *)
Section values.
Context `{Connection} `{UnicodeTables} (Hr : reliable).

Definition value {A} (m : Q A) : result query_error A := fst (m 0).
Lemma steady_value {A} (m : Q A) n : steady m -> fst (m n) = value m.
Proof. intros Hm. apply Hm. Qed.
Lemma value_bind {A B} (m : Q A) (f : A -> Q B) :
  (forall a, steady (f a)) -> value (m ≫= f) = (a ← value m; value (f a)).
Proof.
  intros Hf. unfold value, mbind at 1, eff_bind. destruct (m 0) as [[a|e] n]; cbn; [apply Hf|done].
Qed.
Lemma value_query {A} (rows : list A) : value (query rows) = Ok rows.
Proof. unfold value, query. by rewrite Hr. Qed.
Lemma value_queryRow {A} (rows : list A) : value (queryRow rows) = Ok (head rows).
Proof. unfold value, queryRow, query, mbind, eff_bind. by rewrite Hr. Qed.

Lemma head_matching {A} (P : A -> bool) l x : head (matching P l) = Some x -> P x = true /\ x ∈ l.
Proof. intros Hx%head_Some_elem_of. by apply list_elem_of_filter in Hx. Qed.
Lemma value_active_length t id : value (activeGraphGenerationConn t) = Ok (Some id) -> length id = 32.
Proof.
  unfold activeGraphGenerationConn. rewrite value_bind by steady. intros Hv. bind_inv Hv as row Hrow.
  destruct row as [[b|]|]; [|done..]. destruct (length b =? 0); [done|].
  destruct (length b =? 32) eqn:E; cbn in Hv; [|done]. injection Hv as <-. by apply Nat.eqb_eq.
Qed.
Lemma value_requested_length t gen id : value (requested_generation t gen) = Ok id -> length id = 32.
Proof.
  unfold requested_generation. destruct (streq _ _).
  - rewrite value_bind by steady. intros Hv. bind_inv Hv as active Ha. destruct active; cbn in Hv; [|done].
    injection Hv as <-. by eapply value_active_length.
  - destruct (ParseGraphDigest _) eqn:E; cbn; [|done]. intros [= <-]. by eapply ParseGraphDigest_length.
Qed.
Lemma value_requested_own t id : length id = 32 -> value (requested_generation t (digest_String id)) = Ok id.
Proof.
  intros Hl. unfold requested_generation. rewrite trimSpace_all_solid by apply hexEncode_solid.
  rewrite ParseGraphDigest_String by done. destruct (streq (digest_String id) []) eqn:E; [|done].
  apply streq_true in E. apply (f_equal length) in E. unfold digest_String in E. by rewrite length_hexEncode, Hl in E.
Qed.
(** What an opened snapshot holds. *)
Lemma value_open t state id s :
  value (open_generation t state id) = Ok s ->
  g_GenerationID (s_generation s) = id /\ s_runtimeState s = state /\
  oneOf (g_Status (s_generation s)) ["active"; "retired"] = true /\
  (exists active, value (activeGraphGenerationConn t) = Ok active /\ s_activeGeneration s = default id active).
Proof.
  unfold value at 1, open_generation. destruct (loadGeneration t id 0) as [[[b|]|] k] eqn:El; [|done..].
  destruct (negb _ && _) eqn:Est; [done|]. intros Hv.
  assert (Hb : g_GenerationID (Generation b) = id).
  { assert (Hl : value (loadGeneration t id) = Ok (Some b)) by (unfold value; by rewrite El).
    unfold loadGeneration in Hl. rewrite value_bind, value_queryRow in Hl by steady. cbn [mbind result_bind] in Hl.
    destruct (head _) as [b'|] eqn:Eh; [|done]. cbn in Hl. injection Hl as <-.
    apply head_matching in Eh as [Hid%streq_true _]. done. }
  assert (Hs : steady (active ← activeGraphGenerationConn t;
    mret (mkSnapshot b (default id active) state (t_legacy t)) : Q _)).
  { pose proof (steady_active Hr). steady. }
  rewrite (steady_value _ _ Hs) in Hv. rewrite value_bind in Hv by steady.
  bind_inv Hv as active Ha. cbn in Hv. injection Hv as <-. unfold s_generation. cbn. split_and!; [done|done| |by exists active].
  apply andb_false_iff in Est. rewrite !negb_false_iff, !streq_true in Est. unfold oneOf. apply bool_decide_eq_true_2.
  set_solver.
Qed.
Lemma requested_steady t gen : steady (requested_generation t gen).
Proof. pose proof (steady_active Hr). unfold requested_generation. steady. Qed.
Lemma tail_again t gen state s :
  let tail gen := id ← requested_generation t gen; open_generation t state id in
  value (tail gen) = Ok s -> value (tail (digest_String (g_GenerationID (s_generation s)))) = Ok s.
Proof.
  pose proof (steady_open Hr). cbn beta zeta. rewrite !value_bind by steady. intros Hv. bind_inv Hv as id Hid.
  destruct (value_open _ _ _ _ Hv) as (Hgen & _). rewrite Hgen.
  rewrite value_requested_own by by eapply value_requested_length. done.
Qed.
(** Asking for the generation of a snapshot opens the same snapshot. *)
Lemma begin_again t gen s :
  value (BeginGraphQuerySnapshot t gen) = Ok s ->
  value (BeginGraphQuerySnapshot t (digest_String (g_GenerationID (s_generation s)))) = Ok s.
Proof.
  pose proof (steady_meta_row Hr). pose proof (steady_active Hr). pose proof (steady_open Hr). pose proof requested_steady.
  assert (Hst : steady (GraphRuntimeStateOf t)) by (unfold GraphRuntimeStateOf; steady).
  assert (Hmeta : forall key, steady (workspaceMetaValueConn t key)) by (intros; unfold workspaceMetaValueConn; steady).
  unfold BeginGraphQuerySnapshot.
  rewrite !(value_bind (query (A:=unit) [])), !value_query by steady. cbn [mbind result_bind].
  rewrite !(value_bind (GraphRuntimeStateOf t)) by steady. destruct (value (GraphRuntimeStateOf t)) as [state|]; [|done].
  cbn [mbind result_bind]. destruct (negb _); [done|].
  rewrite !(value_bind (workspaceMetaValueConn t "graph_catalog_generation_id")) by steady.
  destruct (value (workspaceMetaValueConn t "graph_catalog_generation_id")) as [c1|]; [|done]. cbn [mbind result_bind].
  rewrite !(value_bind (workspaceMetaValueConn t "active_catalog_generation_id")) by steady.
  destruct (value (workspaceMetaValueConn t "active_catalog_generation_id")) as [c2|]; [|done]. cbn [mbind result_bind].
  destruct (_ && _); [done|]. apply tail_again.
Qed.
End values.

(** * What a snapshot claims *)
Section claims.
Context `{Connection} `{UnicodeTables}.

(** The pointer to the active generation, as the data base holds it. *)
Definition stored_active (t : tables) : option digest :=
  match head (matching (fun r => streq r.1 "active_graph_generation_id") (t_meta t)) with
  | Some (_, Some (c :: b)) => Some (c :: b)
  | _ => None
  end.
Lemma triple_active t (P : option digest -> Prop) : P (stored_active t) ->
  triple (activeGraphGenerationConn t) P (fun _ => True).
Proof.
  intros HP. unfold activeGraphGenerationConn, meta_row. eapply (triple_bind (fun r => r = snd <$> head _)).
  { eapply triple_bind; [by apply triple_queryRow|]. intros row ->. by apply triple_ret. }
  intros row ->. unfold stored_active in HP. destruct (head _) as [[k [[|c b]|]]|]; cbn [fmap option_fmap option_map snd].
  - by apply triple_ret.
  - destruct (length (c :: b) =? 0) eqn:E; [done|]. destruct (negb _); [by apply triple_throw|by apply triple_ret].
  - by apply triple_ret.
  - by apply triple_ret.
Qed.
Lemma open_active t state id : 
  triple (open_generation t state id) (fun s => g_GenerationID (s_generation s) = id /\
    oneOf (g_Status (s_generation s)) ["active"; "retired"] = true /\
    s_activeGeneration s = default id (stored_active t)) (fun _ => True).
Proof.
  intros n. unfold open_generation. pose proof (triple_queryRow (fun _ => True)
    (matching (fun b => streq (g_GenerationID (Generation b)) id) (t_generations t)) ltac:(done) n) as Hq.
  unfold loadGeneration, mbind, eff_bind. destruct (queryRow _ n) as [[row|] k]; cbn in *; [|done]. subst row.
  destruct (head _) as [b|] eqn:Eh; cbn; [|done]. destruct (negb _ && _) eqn:Est; [done|].
  apply head_matching in Eh as [Hid%streq_true _].
  apply (triple_bind (fun a => a = stored_active t) (fun _ => True)
    (activeGraphGenerationConn t) (fun active => mret (mkSnapshot _ (default id active) state (t_legacy t)))).
  - by apply triple_active.
  - intros a ->. apply triple_ret. unfold s_generation. cbn. split_and!; [done| |done].
    apply andb_false_iff in Est. rewrite !negb_false_iff, !streq_true in Est. unfold oneOf. apply bool_decide_eq_true_2.
    set_solver.
Qed.
Lemma begin_triple t gen (P : GraphQuerySnapshot -> Prop) :
  (forall state id, length id = 32 -> triple (open_generation t state id) P (fun _ => True)) ->
  triple (BeginGraphQuerySnapshot t gen) P (fun _ => True).
Proof.
  assert (Hany : forall A (m : Q A), triple m (fun _ => True) (fun _ => True)) by (intros A m n; by destruct (fst (m n))).
  intros Hopen. unfold BeginGraphQuerySnapshot. eapply triple_bind; [apply Hany|]. intros _ _.
  eapply triple_bind; [apply Hany|]. intros state _. destruct (negb _); [by apply triple_throw|].
  eapply triple_bind; [apply Hany|]. intros c1 _. eapply triple_bind; [apply Hany|]. intros c2 _.
  destruct (_ && _); [by apply triple_throw|]. eapply (triple_bind (fun id => length id = 32)); [|intros id Hid; by apply Hopen].
  unfold requested_generation. destruct (streq _ _).
  - eapply (triple_bind (fun a => forall id, a = Some id -> length id = 32)).
    + unfold activeGraphGenerationConn. eapply triple_bind; [apply Hany|]. intros [[b|]|] _; [|by apply triple_ret..].
      destruct (length b =? 0); [by apply triple_ret|]. destruct (length b =? 32) eqn:E; cbn [negb]; [|by apply triple_throw].
      apply triple_ret. intros id [= <-]. by apply Nat.eqb_eq.
    + intros [id|] Ha; [apply triple_ret; auto|by apply triple_throw].
  - destruct (ParseGraphDigest _) eqn:E; [|by apply triple_throw]. apply triple_ret. by eapply ParseGraphDigest_length.
Qed.

Lemma classify_current state active requested :
  AllowsExactClaims (ClassifyGraphFreshness state active requested true) = true ->
  trimSpace requested = [] \/ trimSpace requested = trimSpace active.
Proof.
  assert (Hno : forall v : gostring, v <> "current" -> streq v "current" = true -> False) by by intros v Hv ?%streq_true.
  unfold ClassifyGraphFreshness, AllowsExactClaims. cbn [negb].
  destruct (streq (trimSpace active) []); [by intros []%Hno|]. destruct (streq (toLower _) "stale"); [by intros []%Hno|].
  destruct (negb (oneOf _ _)); [by intros []%Hno|].
  destruct (negb (streq (trimSpace requested) []) && _) eqn:E; [by intros []%Hno|]. intros _.
  apply andb_false_iff in E. rewrite !negb_false_iff, !streq_true in E. done.
Qed.
Lemma hexEncode_nil b : hexEncode b = [] -> b = [].
Proof. destruct b; [done|]. intros Hn%(f_equal length). rewrite length_hexEncode in Hn. cbn in Hn. lia. Qed.

(** A snapshot that is said to be current for its own generation is: the generation is
    in the state active, and the data base points to it or has no pointer. *)
Theorem current_is_active t gen n s n' :
  BeginGraphQuerySnapshot t gen n = (Ok s, n') ->
  AllowsExactClaims (SnapshotFreshness s (digest_String (g_GenerationID (s_generation s)))) = true ->
  g_Status (s_generation s) = "active" /\
  (stored_active t = None \/ stored_active t = Some (g_GenerationID (s_generation s))).
Proof.
  intros Hrun Hcur.
  assert (Hs : length (g_GenerationID (s_generation s)) = 32 /\ oneOf (g_Status (s_generation s)) ["active"; "retired"] = true /\
    s_activeGeneration s = default (g_GenerationID (s_generation s)) (stored_active t)).
  { pattern s. eapply (fun P m => triple_run P (fun _ => True) m n s n'); [|exact Hrun]. apply begin_triple. intros state id Hid.
    eapply triple_mono; [apply open_active| |done]. intros s' (-> & ? & ?). done. }
  destruct Hs as (Hlen & Hstatus & Hact). unfold SnapshotFreshness in Hcur. rewrite Hact in Hcur.
  set (id := g_GenerationID (s_generation s)) in *. set (active := default id (stored_active t)) in *.
  assert (Hne : streq (digest_String id) [] = false).
  { apply streq_false. intros Hn%hexEncode_nil. by rewrite Hn in Hlen. }
  assert (Hane : streq (digest_String active) [] = false).
  { apply streq_false. intros Hn%hexEncode_nil. unfold active, stored_active in Hn.
    repeat case_match; cbn in Hn; simplify_eq; by rewrite Hn in Hlen. }
  assert (Htrim : forall b, trimSpace (digest_String b) = digest_String b) by (intros; apply trimSpace_all_solid, hexEncode_solid).
  rewrite Htrim, Hne, Hane in Hcur. destruct (streq (g_Status (s_generation s)) "retired") eqn:Eret.
  { destruct (streq (f_State _) "current") eqn:Ec; cbn [andb] in Hcur; unfold AllowsExactClaims in Hcur.
    - by apply streq_true in Hcur.
    - by rewrite Ec in Hcur. }
  cbn [andb] in Hcur. apply classify_current in Hcur. rewrite !Htrim in Hcur. split.
  - unfold oneOf in Hstatus. bool_to_prop. apply streq_false in Eret. set_solver.
  - destruct Hcur as [Hnil|Heq]; [by rewrite Hnil in Hne|]. apply hexEncode_inj in Heq.
    unfold active in Heq. destruct (stored_active t); cbn in Heq; [right; by f_equal|by left].
Qed.
End claims.

(** * Reading in batches *)
Section batches.
Context `{Connection} `{UnicodeTables} (s : GraphQuerySnapshot).

Lemma chunks_concat {A} fuel (l : list A) : length l <= fuel -> mjoin (chunks fuel l) = l.
Proof.
  revert l; induction fuel as [|fuel IH]; intros [|x l] Hl; cbn [length] in Hl; [done|lia|done|].
  cbn [chunks]. change (mjoin (?a :: ?b)) with (a ++ mjoin b). rewrite IH by (rewrite length_drop; cbn; lia).
  apply take_drop.
Qed.
(** What the loop over the chunks does to the result map. *)
Lemma chunked_spec {A R} (f : R -> list A -> Q R) (I : list A -> R -> Prop) :
  (forall r done_ c, I done_ r -> triple (f r c) (I (done_ ++ c)) (fun _ => True)) ->
  forall l done_ r, I done_ r -> triple (chunked f r l) (I (done_ ++ mjoin l)) (fun _ => True).
Proof.
  intros Hf l. induction l as [|c l IH]; intros done_ r Hr; cbn [chunked].
  - apply triple_ret. cbn. by rewrite app_nil_r.
  - eapply triple_bind; [by apply Hf|]. intros r' Hr'. change (mjoin (c :: l)) with (c ++ mjoin l). rewrite app_assoc. by apply IH.
Qed.
Lemma elem_of_unique ids id : id ∈ uniqueSortedNonNegative ids <-> id ∈ ids /\ (0 <= id)%Z.
Proof.
  unfold uniqueSortedNonNegative, sortInts, matching. rewrite elem_of_sortOn, elem_of_dedup, list_elem_of_filter by apply _.
  rewrite Z.leb_le. tauto.
Qed.
Lemma NoDup_unique ids : NoDup (uniqueSortedNonNegative ids).
Proof. unfold uniqueSortedNonNegative, sortInts. rewrite sortOn_perm. apply NoDup_dedup. Qed.

Definition refs_at (m : gmap Z (list gostring)) (e : Z) : list gostring := default [] (m !! e).
Lemma add_rows (rows : list (Z * gostring)) (m : gmap Z (list gostring)) e :
  refs_at (foldl (fun m r => <[r.1 := default [] (m !! r.1) ++ [r.2]]> m) m rows) e
  = refs_at m e ++ map snd (matching (fun r => r.1 =? e)%Z rows).
Proof.
  revert m; induction rows as [|[k v] rows IH]; intros m; cbn [foldl fst snd]; [by rewrite app_nil_r|].
  rewrite IH. unfold matching. rewrite filter_cons. cbn [fst]. unfold refs_at. destruct (decide (k = e)) as [->|Hne].
  - rewrite lookup_insert_eq, Z.eqb_refl. cbn [default from_option]. rewrite decide_True by done. cbn [map snd].
    unfold id. by rewrite <- app_assoc.
  - rewrite lookup_insert_ne by done. rewrite (proj2 (Z.eqb_neq k e)) by done. by rewrite decide_False by done.
Qed.
Lemma matching_pairs e (f : Z -> list gostring) c : NoDup c ->
  map snd (matching (fun r => r.1 =? e)%Z (k ← c; map (pair k) (f k))) = if bool_decide (e ∈ c) then f e else [].
Proof.
  assert (Hone : forall k l, map snd (matching (fun r : Z * gostring => r.1 =? e)%Z (map (pair k) l)) = if (k =? e)%Z then l else []).
  { intros k l. induction l as [|v l IH]; [by destruct (k =? e)%Z|]. cbn [map]. unfold matching in *. rewrite filter_cons.
    cbn [fst]. destruct (k =? e)%Z; [rewrite decide_True by done; cbn [map snd]; by rewrite IH|by rewrite decide_False by done]. }
  induction 1 as [|k c Hk Hc IH]; [done|]. rewrite bind_cons. unfold matching in *. rewrite filter_app, map_app, Hone, IH.
  destruct (Z.eqb_spec k e) as [->|Hne].
  - rewrite (bool_decide_false (e ∈ c)), (bool_decide_true (e ∈ e :: c)) by (done || left). by rewrite app_nil_r.
  - cbn [app]. destruct (decide (e ∈ c)) as [Hin|Hnin].
    + by rewrite !bool_decide_true by (done || by right).
    + rewrite !bool_decide_false by (done || by intros [->|?]%elem_of_cons). done.
Qed.

Lemma evidence_batches ids maxEach :
  triple (EvidenceRefsByEdges s ids maxEach)
    (fun m => forall e, refs_at m e =
      if bool_decide (e ∈ ids /\ (0 <= e)%Z /\ (1 <= maxEach)%Z) then evidence_rows s (has_edge e) (Z.min maxEach 32) else [])
    (fun _ => True).
Proof.
  unfold EvidenceRefsByEdges. destruct (maxEach <? 1)%Z eqn:Em; bool_to_prop.
  { apply triple_ret. intros e. rewrite bool_decide_false by lia. unfold refs_at. by rewrite lookup_empty. }
  set (canonical := uniqueSortedNonNegative ids).
  set (I := fun (done_ : list Z) (m : gmap Z (list gostring)) => NoDup done_ -> forall e, refs_at m e =
    if bool_decide (e ∈ done_) then evidence_rows s (has_edge e) (Z.min maxEach 32) else []).
  eapply triple_mono; [apply (chunked_spec _ I) with (done_ := [])| |done].
  - intros r done_ c Hr. eapply triple_bind; [by apply triple_query|]. intros rows ->. apply triple_ret.
    intros Hnd e. apply NoDup_app in Hnd as (Hd & Hdc & Hc). rewrite add_rows, matching_pairs, (Hr Hd e) by done.
    destruct (decide (e ∈ done_)) as [Hin|Hnin].
    + rewrite (bool_decide_true (e ∈ done_)), (bool_decide_false (e ∈ c)), (bool_decide_true (e ∈ done_ ++ c))
        by (done || set_solver). by rewrite app_nil_r.
    + rewrite (bool_decide_false (e ∈ done_)) by done. cbn [app]. destruct (decide (e ∈ c)).
      * by rewrite !bool_decide_true by (done || set_solver).
      * by rewrite !bool_decide_false by (done || set_solver).
  - intros _ e. rewrite bool_decide_false by set_solver. unfold refs_at. by rewrite lookup_empty.
  - intros m Hm e. cbn [app] in Hm. rewrite chunks_concat in Hm by lia. rewrite (Hm (NoDup_unique ids) e).
    unfold canonical. destruct (decide (e ∈ uniqueSortedNonNegative ids)) as [Hin|Hnin].
    + rewrite !bool_decide_true; [done| |done]. apply elem_of_unique in Hin. split_and!; [apply Hin..|lia].
    + rewrite !bool_decide_false; [done| |done]. intros (? & ? & _). by apply Hnin, elem_of_unique.
Qed.

(** Reading the evidence of many edges in statements of 500 identifiers gives for
    each edge what reading it alone gives, whatever the order and repetitions of the
    identifiers, and nothing for other edges. *)
Theorem batched_evidence ids maxEach n m n' e k refs k' :
  EvidenceRefsByEdges s ids maxEach n = (Ok m, n') ->
  EvidenceRefs s None (Some e) (Z.min maxEach 32) k = (Ok refs, k') ->
  refs_at m e = if bool_decide (e ∈ ids /\ (0 <= e)%Z) then refs else [].
Proof.
  intros Hm Hrefs. rewrite (triple_run _ _ _ _ _ _ (evidence_batches ids maxEach) Hm e).
  assert (Hr : refs = if (maxEach <? 1)%Z then [] else evidence_rows s (has_edge e) (Z.min maxEach 32)).
  { unfold EvidenceRefs in Hrefs. destruct (Z.min maxEach 32 <? 1)%Z eqn:E1, (maxEach <? 1)%Z eqn:E2; bool_to_prop; try lia.
    - cbn in Hrefs. by injection Hrefs.
    - unfold query in Hrefs. by destruct (sql_fails k); injection Hrefs. }
  destruct (maxEach <? 1)%Z eqn:E; bool_to_prop.
  - rewrite bool_decide_false by lia. subst refs. by destruct (bool_decide _).
  - subst refs. destruct (decide (e ∈ ids /\ (0 <= e)%Z)) as [Hin|Hnin].
    + rewrite !bool_decide_true; [done|done|]. split_and!; [apply Hin..|lia].
    + rewrite !bool_decide_false; [done|done|]. intros (? & ? & _). by apply Hnin.
Qed.
End batches.

(** * What an omission may show *)
Lemma runes_ascii s c : c ∈ s -> (bz c < 128)%Z -> exists off, (off, bz c) ∈ runes s.
Proof.
  intros (a & b & ->)%list_elem_of_split Hc. unfold runes. rewrite runes_from_app_ascii by done.
  exists (0 + length a). rewrite runes_from_ascii by done. rewrite elem_of_app. right. left.
Qed.
Lemma sanitized_text value c : c ∈ sanitizeGraphOmissionText value -> (32 <= bz c)%Z /\ bz c <> 127%Z.
Proof.
  unfold sanitizeGraphOmissionText. set (v := if _ <? _ then _ else _).
  destruct (existsb _ (runes v)) eqn:E; intros Hc; [by apply elem_of_nil in Hc|].
  destruct (decide (bz c < 128)%Z) as [Hlt|]; [|lia]. destruct (runes_ascii v c Hc Hlt) as [off Hin].
  assert (((bz c <? 32) || (bz c =? 127))%Z = false) as Hok.
  { apply not_true_iff_false. intros Ht. rewrite <- not_true_iff_false in E. apply E, existsb_exists.
    exists (off, bz c). split; [by apply list_elem_of_In|done]. }
  bool_to_prop. lia.
Qed.
Lemma sanitized_text_length value : length (sanitizeGraphOmissionText value) <= Z.to_nat 4096.
Proof.
  unfold sanitizeGraphOmissionText. replace 4096 with (Z.to_nat 4096) by done. generalize (Z.to_nat 4096). intros m.
  destruct (existsb _ _); [cbn; lia|]. destruct (m <? length (trimSpace value)) eqn:E; bool_to_prop; [|done].
  rewrite length_take. lia.
Qed.

(** The path that an omission shows is empty or a relative one: no leading slash, no
    drive letter, no backslash, no ".." segment, no control character, at most 4096 bytes. *)
Theorem sanitized_path_safe value :
  let p := sanitizeGraphOmissionPath value in
  hasPrefix p "/" = false /\ (forall a b t, p = a :: b :: t -> b <> ":"%char) /\ BSLASH ∉ p /\
  ([".";"."]%char : gostring) ∉ splitByte p "/" /\ Forall (fun c => (32 <= bz c)%Z /\ bz c <> 127%Z) p /\
  length p <= Z.to_nat 4096.
Proof.
  cbv zeta. unfold sanitizeGraphOmissionPath. set (v := replaceByte _ BSLASH "/").
  assert (Hnil : let p := [] : gostring in hasPrefix p "/" = false /\ (forall a b t, p = a :: b :: t -> b <> ":"%char) /\
    BSLASH ∉ p /\ ([".";"."]%char : gostring) ∉ splitByte p "/" /\ Forall (fun c => (32 <= bz c)%Z /\ bz c <> 127%Z) p /\
    length p <= Z.to_nat 4096).
  { cbv zeta. split_and!; [done|done|set_solver|set_solver|constructor|cbn; lia]. }
  destruct (streq v [] || _ || _ || _) eqn:E1; [exact Hnil|].
  destruct (existsb _ (splitByte v "/")) eqn:E2; [exact Hnil|]. clear Hnil.
  apply orb_false_iff in E1 as [[[_ Hslash]%orb_false_iff _]%orb_false_iff Hdrive]. split_and!; [done| | | | |].
  - intros a b t Hv. rewrite Hv in Hdrive. intros ->. done.
  - unfold v, replaceByte. intros (c & Hc & _)%list_elem_of_fmap. destruct (Ascii.eqb_spec c BSLASH); [done|congruence].
  - intros Hin. rewrite <- not_true_iff_false in E2. apply E2, existsb_exists. eexists. split; [by apply list_elem_of_In|done].
  - apply Forall_forall. unfold v, replaceByte. intros c (c' & -> & Hc')%list_elem_of_fmap.
    destruct (Ascii.eqb c' BSLASH); [done|by eapply sanitized_text].
  - unfold v, replaceByte. rewrite length_map. apply sanitized_text_length.
Qed.
