(* ===== verification/IndexTables.v ===== *)
(** The rows of the index jobs (internal/store/index_jobs.go): jobs, the ownership of a
    workspace and the generations that jobs build, with the functions on them that touch
    no data base. *)
From S2P Require Import Prelude GoStrings GoStringFacts GoNum.

Local Open Scope go_scope.

(** * Constants *)
Definition IndexModeFull : gostring := "full".
Definition IndexModeDocs : gostring := "docs".
Definition IndexModeCatalog : gostring := "catalog".
Definition IndexJobQueued : gostring := "queued".
Definition IndexJobRunning : gostring := "running".
Definition IndexJobPublishing : gostring := "publishing".
Definition IndexJobCancelRequested : gostring := "cancel_requested".
Definition IndexJobCanceled : gostring := "canceled".
Definition IndexJobSucceeded : gostring := "succeeded".
Definition IndexJobFailed : gostring := "failed".

(** * Rows *)
Record IndexJob := mkIndexJob {
  j_JobID : gostring; j_GenerationID : gostring; j_WorkspaceName : gostring; j_WorkspaceRoot : gostring;
  j_Mode : gostring; j_EntrypointSelector : gostring; j_GoOffline : bool; j_NoEmbeddings : bool;
  j_EmbeddingsOutcome : gostring; j_Clean : bool;
  j_Status : gostring; j_Phase : gostring; j_CurrentStage : gostring; j_CurrentPath : gostring;
  j_FilesTotal : Z; j_PID : Z; j_RequestedCancel : bool; j_Error : gostring;
  j_Files : Z; j_Symbols : Z; j_Docs : Z;
  j_CreatedAt : gostring; j_StartedAt : gostring; j_FinishedAt : gostring; j_UpdatedAt : gostring;
  j_OwnerToken : gostring; j_FencingToken : Z }.
(** A row of [index_jobs] is what [scanIndexJob] makes of it, without an owner, and a flag
    that is not read back.  NULL texts are read as empty ones. *)
Record index_job_row := mkJobRow { r_job : IndexJob; r_publication_started : bool }.
Record IndexJobProgress := mkProgress {
  p_CurrentStage : gostring; p_CurrentPath : gostring; p_Files : Z; p_Symbols : Z; p_Docs : Z; p_FilesTotal : Z }.
Record indexJobOwnership := mkOwnership {
  o_workspaceRoot : gostring; o_jobID : gostring; o_ownerToken : gostring; o_fencingToken : Z; o_pid : Z;
  o_acquiredAt : gostring; o_releasedAt : option gostring }.
Record index_generation := mkIndexGeneration {
  ig_GenerationID : gostring; ig_JobID : gostring; ig_WorkspaceName : gostring; ig_WorkspaceRoot : gostring;
  ig_Mode : gostring; ig_Status : gostring; ig_Files : Z; ig_Symbols : Z; ig_Docs : Z;
  ig_CreatedAt : gostring; ig_PublishedAt : option gostring; ig_Error : option gostring }.
Record IndexJobFence := mkFence { f_OwnerToken : gostring; f_FencingToken : Z }.
(** In the order of their row numbers. *)
Record index_tables := mkIndexTables {
  i_jobs : list index_job_row;
  i_ownership : list indexJobOwnership;
  i_generations : list index_generation }.
Definition no_jobs : index_tables := mkIndexTables [] [] [].
Definition job_id (r : index_job_row) : gostring := j_JobID (r_job r).
Definition job_status (r : index_job_row) : gostring := j_Status (r_job r).
Definition job_root (r : index_job_row) : gostring := j_WorkspaceRoot (r_job r).

(** * Errors *)
Inductive index_job_error :=
| ErrStaleIndexJobOwner
| ErrInvalidIndexJobTransition
| ActiveIndexJobError (j : IndexJob)
| IndexJobPolicyMismatchError (j : IndexJob) (requestedGoOffline requestedNoEmbeddings : bool)
| InvalidIndexMode (mode : gostring)
| InvalidOwnershipSchema (version : gostring)
| UnsupportedOwnershipSchema (version : Z)
| UnknownGenerationMode (mode : gostring)
| GenerationIDRequired.

(** * Functions without a data base *)
Definition NormalizeIndexMode `{UnicodeTables} (mode : gostring) : result index_job_error gostring :=
  let m := toLower (trimSpace mode) in
  if oneOf m [[]; IndexModeFull] then Ok IndexModeFull
  else if oneOf m ["doc"; "docs-only"; IndexModeDocs] then Ok IndexModeDocs
  else if oneOf m ["symbols"; "code"; IndexModeCatalog] then Ok IndexModeCatalog
  else Err (InvalidIndexMode mode).
Definition indexJobEmbeddingsOutcome (mode : gostring) (noEmbeddings : bool) : gostring :=
  if streq mode IndexModeCatalog then "not_applicable" else if noEmbeddings then "skipped_by_operation" else [].
Definition isIndexJobActive (status : gostring) : bool :=
  oneOf status [IndexJobQueued; IndexJobRunning; IndexJobPublishing; IndexJobCancelRequested].
Definition set_owner (token : gostring) (fencing : Z) (j : IndexJob) : IndexJob :=
  mkIndexJob (j_JobID j) (j_GenerationID j) (j_WorkspaceName j) (j_WorkspaceRoot j) (j_Mode j)
    (j_EntrypointSelector j) (j_GoOffline j) (j_NoEmbeddings j) (j_EmbeddingsOutcome j) (j_Clean j)
    (j_Status j) (j_Phase j) (j_CurrentStage j) (j_CurrentPath j) (j_FilesTotal j) (j_PID j) (j_RequestedCancel j)
    (j_Error j) (j_Files j) (j_Symbols j) (j_Docs j) (j_CreatedAt j) (j_StartedAt j) (j_FinishedAt j) (j_UpdatedAt j)
    token fencing.
(** What callers without a right to publish see. *)
Definition ControlPlaneIndexJob : IndexJob -> IndexJob := set_owner [] 0.
Definition fence_of (j : IndexJob) : IndexJobFence := mkFence (j_OwnerToken j) (j_FencingToken j).
Definition resolveIndexJobFence (f : IndexJobFence) : result index_job_error IndexJobFence :=
  if streq (f_OwnerToken f) [] || (f_FencingToken f <=? 0)%Z then Err ErrStaleIndexJobOwner else Ok f.

(** The columns that an UPDATE sets. *)
Definition set_columns (status phase stage path : gostring) (total pid : Z) (cancel : bool) (error : gostring)
    (files symbols docs : Z) (started finished updated : gostring) (j : IndexJob) : IndexJob :=
  mkIndexJob (j_JobID j) (j_GenerationID j) (j_WorkspaceName j) (j_WorkspaceRoot j) (j_Mode j)
    (j_EntrypointSelector j) (j_GoOffline j) (j_NoEmbeddings j) (j_EmbeddingsOutcome j) (j_Clean j)
    status phase stage path total pid cancel error files symbols docs (j_CreatedAt j) started finished updated
    (j_OwnerToken j) (j_FencingToken j).
(** The statuses, phases and stages move together. *)
Definition set_state (status phase path : gostring) (cancel : bool) (error finished updated : gostring) (j : IndexJob) :
    IndexJob :=
  set_columns status phase phase path (j_FilesTotal j) (j_PID j) cancel error (j_Files j) (j_Symbols j) (j_Docs j)
    (j_StartedAt j) finished updated j.

(** * The primary keys *)
Definition index_keys (t : index_tables) : bool :=
  bool_decide (NoDup (map job_id (i_jobs t))) && bool_decide (NoDup (map o_workspaceRoot (i_ownership t)))
  && bool_decide (NoDup (map ig_GenerationID (i_generations t))).
