(* ===== verification/GraphValidate.v ===== *)
(** Checking a stored generation: the validating reads of internal/store/graph.go.

    [streamGraph] reads the rows of a generation in order, checks each of them and feeds
    the content hasher; [validateGraphGenerationWithMode] compares the digest with the
    header; the walk over predecessors checks a whole history. *)
From S2P Require Import Prelude GoStrings GoStringFacts GoSort GoNum Graph GraphStore IndexTables.

Local Open Scope go_scope.

(** * Errors and reads *)

(** What callers tell apart with [errors.Is]: the errors of reads and of records, the
    sentinels of the store, and what the driver returns. *)
Inductive store_error :=
| ErrQuery (e : query_error)
| ErrRecord (e : graph_error)
| ErrNoRows
| ErrGraphGenerationCorrupt
| ErrGraphPointerConflict
| ErrGraphCrashRecoveryRequired
| ErrGraphMigrationTransition
| ErrGraphCompatibilityConflict
| ErrConstraint
| ErrAffected
| ErrIndexJob (e : index_job_error).
Definition generation_invalid : store_error := ErrRecord ErrGraphGenerationInvalid.

(** Reads with these errors; the state is the number of calls, as in [Q]. *)
Definition R : Type -> Type := eff nat store_error.
Definition from_Q {A} (m : Q A) : R A := fun n => let '(r, n) := m n in (map_err ErrQuery r, n).
Definition checks {A} (m : checked A) : R A := lift (map_err ErrRecord m).
(** [if x, err := ...; err == nil]: the error is a value. *)
Definition attempt {A} (m : R A) : R (result store_error A) := fun n => let '(r, n) := m n in (Ok r, n).
(** An error of the call is reported as another one. *)
Definition or_else {A} (e : store_error) (m : R A) : R A := fun n =>
  match m n with (Err _, n) => (Err e, n) | r => r end.
Definition assert (b : bool) (e : store_error) : R unit := if b then mret tt else throw e.

Inductive graphContentValidationMode := graphContentValidationCurrent | graphContentValidationLegacy.

Section validate.
Context `{UnicodeTables} `{NFC} `{UrlParser} `{SHA256} `{Connection}.

(** * Streaming the rows *)
Definition stream_node (id : digest) (st : gmap Z digest * GraphContentHasher) (n : GraphNodeRecord) :
    checked (gmap Z digest * GraphContentHasher) :=
  let n := node_in id n in
  _ ← ValidateGraphNodeRecord n;
  h ← AddNode n st.2;
  Ok (<[n_NodeID n := n_NodeKey n]> st.1, h).
Definition stream_edge (id : digest) (nodeKeys : gmap Z digest) (st : gmap Z digest * GraphContentHasher)
    (e : GraphEdgeRecord) : checked (gmap Z digest * GraphContentHasher) :=
  let e := edge_in id e in
  match nodeKeys !! e_FromNodeID e, nodeKeys !! e_ToNodeID e with
  | Some from, Some to =>
      if negb (is_ok (ValidateGraphEdgeRecord e from to)) then Err ErrGraphEdgeInvalid
      else
        h ← AddEdge e st.2;
        Ok (<[e_EdgeID e := EdgeKey from to (e_Relation e) (e_ClaimScope e)]> st.1, h)
  | _, _ => Err ErrGraphEdgeInvalid
  end.
(** The digest of an evidence is not stored: it is computed again. *)
Definition read_evidence (id : digest) (v : GraphEvidence) : GraphEvidence :=
  let d := EvidenceDigest (v_SourceDigest v) (v_ObservedClaimDigest v) (v_SourceURI v) (v_ClaimKind v)
             (v_Backend v) (v_ExtractorVersion v) (default 0%Z (v_StartLine v)) (default 0%Z (v_StartColumn v))
             (default 0%Z (v_EndLine v)) (default 0%Z (v_EndColumn v)) in
  mkEvidence id (v_EvidenceID v) (v_EvidenceKey v) d (v_SubjectKind v) (v_NodeID v) (v_EdgeID v)
    (v_SourceURI v) (v_StartLine v) (v_StartColumn v) (v_EndLine v) (v_EndColumn v) (v_Backend v)
    (v_ExtractorVersion v) (v_SourceDigest v) (v_ClaimKind v) (v_ObservedClaimDigest v) (v_ClaimStatus v)
    (v_CrossRID v).
Definition evidence_subject (nodeKeys edgeKeys : gmap Z digest) (v : GraphEvidence) : checked digest :=
  match v_NodeID v, v_EdgeID v with
  | Some n, None =>
      match nodeKeys !! n with
      | Some k => if streq (v_SubjectKind v) "node" then Ok k else Err ErrGraphEvidenceInvalid
      | None => Err ErrGraphEvidenceInvalid
      end
  | None, Some e =>
      match edgeKeys !! e with
      | Some k => if streq (v_SubjectKind v) "edge" then Ok k else Err ErrGraphEvidenceInvalid
      | None => Err ErrGraphEvidenceInvalid
      end
  | _, _ => Err ErrGraphEvidenceInvalid
  end.
Definition stream_evidence (id : digest) (nodeKeys edgeKeys : gmap Z digest) (h : GraphContentHasher)
    (v : GraphEvidence) : checked GraphContentHasher :=
  subject ← evidence_subject nodeKeys edgeKeys v;
  let v := read_evidence id v in
  _ ← ValidateGraphEvidence v subject;
  AddEvidence v h.
Definition stream_unresolved (mode : graphContentValidationMode) (id : digest) (h : GraphContentHasher)
    (u : GraphUnresolved) : checked GraphContentHasher :=
  u ← NormalizeGraphUnresolvedContext (unresolved_in id u);
  _ ← ValidateGraphUnresolved u;
  match mode with
  | graphContentValidationLegacy => AddUnresolvedLegacy u h
  | graphContentValidationCurrent => AddUnresolved u h
  end.
(** [b] holds the header that was loaded and the rows of the generation. *)
Definition streamGraphWithMode (b : GraphBundle) (mode : graphContentValidationMode) : R digest :=
  let g := Generation b in
  let id := g_GenerationID g in
  h ← checks (NewGraphContentHasher (g_NodeCount g) (g_EdgeCount g) (g_EvidenceCount g) (g_UnresolvedCount g));
  nodes ← from_Q (query (sortOn Z.compare n_NodeID (Nodes b)));
  st ← checks (mfold (stream_node id) (∅, h) nodes);
  let nodeKeys := st.1 in
  edges ← from_Q (query (sortOn Z.compare e_EdgeID (Edges b)));
  st ← checks (mfold (stream_edge id nodeKeys) (∅, st.2) edges);
  evidence ← from_Q (query (sortOn Z.compare v_EvidenceID (Evidence b)));
  h ← checks (mfold (stream_evidence id nodeKeys st.1) st.2 evidence);
  unresolved ← from_Q (query (sortOn Z.compare u_UnresolvedID (Unresolved b)));
  h ← checks (mfold (stream_unresolved mode id) h unresolved);
  checks (Sum h).
Definition streamGraph (b : GraphBundle) : R digest := streamGraphWithMode b graphContentValidationCurrent.

(** * One generation *)
Definition load (t : tables) (id : digest) : R GraphBundle :=
  row ← from_Q (loadGeneration t id);
  match row with Some b => mret b | None => throw ErrNoRows end.
Definition fingerprints_present (g : GraphGeneration) : bool :=
  negb (streq (g_SourceFingerprint g) zeroDigest || streq (g_ConfigFingerprint g) zeroDigest
        || streq (g_BackendManifestDigest g) zeroDigest).
Definition count {A} (rows : list A) : R Z := rows ← from_Q (query rows); mret (lenZ rows).
(** The four counting statements, compared with the header. *)
Definition counts_match (b : GraphBundle) : R unit :=
  n ← count (Nodes b); e ← count (Edges b); v ← count (Evidence b); u ← count (Unresolved b);
  let g := Generation b in
  assert ((n =? g_NodeCount g) && (e =? g_EdgeCount g) && (v =? g_EvidenceCount g) && (u =? g_UnresolvedCount g))%Z
    generation_invalid.
Definition unsupported_edges (b : GraphBundle) : list GraphEdgeRecord :=
  matching (fun e => negb (existsb (has_edge (e_EdgeID e)) (Evidence b))) (Edges b).
Definition validateGraphGenerationWithMode (t : tables) (id : digest) (mode : graphContentValidationMode) :
    R GraphBundle :=
  b ← load t id;
  let g := Generation b in
  _ ← assert (fingerprints_present g) ErrGraphGenerationCorrupt;
  d ← or_else ErrGraphGenerationCorrupt (streamGraphWithMode b mode);
  _ ← assert (streq d (g_ContentDigest g)) ErrGraphGenerationCorrupt;
  _ ← assert (streq (generation_id g d) (g_GenerationID g)) ErrGraphGenerationCorrupt;
  _ ← counts_match b;
  missing ← count (unsupported_edges b);
  _ ← assert (missing =? 0)%Z ErrGraphGenerationCorrupt;
  mret b.
Definition validateGraphGenerationConn (t : tables) (id : digest) : R GraphBundle :=
  validateGraphGenerationWithMode t id graphContentValidationCurrent.
(** The check that a query makes instead: the rows are not hashed again. *)
Definition validateActiveGraphGenerationHeader (t : tables) (id : digest) : R GraphBundle :=
  b ← load t id;
  let g := Generation b in
  _ ← assert (fingerprints_present g) ErrGraphGenerationCorrupt;
  _ ← assert (streq (generation_id g (g_ContentDigest g)) (g_GenerationID g)) ErrGraphGenerationCorrupt;
  _ ← counts_match b;
  mret b.

(** * The predecessors *)
Definition canonical_identity (v : gostring) : bool :=
  match NormalizeRepositoryIdentity v with Ok n => streq n v | Err _ => false end.
Definition validateGraphGenerationAncestryRecord (t : tables) (id : digest) (workspace : gostring)
    (g : GraphGeneration) : R unit :=
  _ ← assert (streq (g_WorkspaceIdentity g) workspace) ErrGraphGenerationCorrupt;
  _ ← assert ((g_SchemaVersion g =? 1)%Z && streq (g_RepositoryIdentity g) (g_WorkspaceIdentity g)) ErrGraphGenerationCorrupt;
  _ ← assert (canonical_identity (g_WorkspaceIdentity g)) ErrGraphGenerationCorrupt;
  current ← attempt (validateGraphGenerationWithMode t id graphContentValidationCurrent);
  match current with
  | Ok _ => mret tt
  | Err _ =>
      _ ← or_else ErrGraphGenerationCorrupt (validateGraphGenerationWithMode t id graphContentValidationLegacy);
      mret tt
  end.
Definition graphGenerationAncestryMaxDepth : nat := Z.to_nat 1024.
Definition published (g : GraphGeneration) : bool := oneOf (g_Status g) ["active"; "retired"].
(** [room] generations may still be visited; [first] says that [current] is the target,
    whose predecessor [replacement] stands for if it is given. *)
Fixpoint walk (t : tables) (workspace : gostring) (replacement : option (option digest)) (room : nat)
    (first : bool) (seen : list digest) (current : digest) : R unit :=
  match room with
  | O => throw ErrGraphGenerationCorrupt
  | S room =>
      _ ← assert (negb (bool_decide (current ∈ seen))) ErrGraphGenerationCorrupt;
      b ← or_else ErrGraphGenerationCorrupt (load t current);
      let g := Generation b in
      _ ← assert (streq (g_WorkspaceIdentity g) workspace) ErrGraphGenerationCorrupt;
      _ ← (if first then mret tt
           else
             _ ← assert (published g) ErrGraphGenerationCorrupt;
             validateGraphGenerationAncestryRecord t current workspace g);
      let previous := match first, replacement with true, Some p => p | _, _ => g_PreviousGenerationID g end in
      match previous with
      | None => mret tt
      | Some p =>
          _ ← assert (negb (streq p zeroDigest)) ErrGraphGenerationCorrupt;
          walk t workspace replacement room false (current :: seen) p
      end
  end.
Definition walkGraphGenerationAncestry (t : tables) (id : digest) (workspace : gostring)
    (replacement : option (option digest)) : R unit :=
  walk t workspace replacement graphGenerationAncestryMaxDepth true [] id.
Definition validateGraphGenerationAncestry (t : tables) (id : digest) (workspace : gostring)
    (replacement : option (option digest)) : R unit :=
  _ ← assert (canonical_identity workspace) ErrGraphGenerationCorrupt;
  _ ← walkGraphGenerationAncestry t id workspace None;
  match replacement with
  | None => mret tt
  | Some _ => walkGraphGenerationAncestry t id workspace replacement
  end.

(** * The active generation before it is replaced *)
Inductive graphPriorValidation := graphPriorCurrentValid | graphPriorLegacyValidForReplacement.
Definition replaceable (g : GraphGeneration) : bool :=
  streq (g_Status g) "active" && (g_SchemaVersion g =? 1)%Z
  && streq (g_RepositoryIdentity g) (g_WorkspaceIdentity g) && canonical_identity (g_WorkspaceIdentity g).
Definition valid_prior (r : result store_error GraphBundle) : bool :=
  match r with Ok b => replaceable (Generation b) | Err _ => false end.
Definition validateActiveGraphPriorForReplacement (t : tables) (activePointer : digest)
    (expectedPrior : option digest) (activeRows : Z) : R graphPriorValidation :=
  _ ← assert ((length activePointer =? 32) && (activeRows =? 1)%Z) ErrGraphPointerConflict;
  _ ← assert (match expectedPrior with Some p => streq activePointer p | None => true end) ErrGraphPointerConflict;
  current ← attempt (validateGraphGenerationConn t activePointer);
  if valid_prior current then mret graphPriorCurrentValid
  else
    _ ← assert (bool_decide (is_Some expectedPrior)) ErrGraphPointerConflict;
    legacy ← attempt (validateGraphGenerationWithMode t activePointer graphContentValidationLegacy);
    if valid_prior legacy then mret graphPriorLegacyValidForReplacement else throw ErrGraphPointerConflict.
End validate.
