(* ===== verification/GraphValidateFacts.v ===== *)
(** What the validating reads establish: a generation that passes is [sound], a sound one
    passes, and the walk over predecessors finds a finite history. *)
From S2P Require Import Prelude GoStrings GoStringFacts GoSort GoNum Graph GraphFacts GraphStore GraphStoreFacts IndexTables GraphValidate.

Local Open Scope go_scope.

(** * Reads with results *)
Section reads.
Context `{Connection}.

Lemma from_Q_ok {A} (m : Q A) n a n' : from_Q m n = (Ok a, n') -> m n = (Ok a, n').
Proof. unfold from_Q. destruct (m n) as [[x|e] k]; [|done]. intros [= -> ->]. done. Qed.
Lemma query_ok {A} (rows : list A) n a n' : query rows n = (Ok a, n') -> a = rows.
Proof. unfold query. destruct (sql_fails n); [done|]. by intros [= -> _]. Qed.
Lemma read_query_ok {A} (rows : list A) n a n' : from_Q (query rows) n = (Ok a, n') -> a = rows.
Proof. intros Hq%from_Q_ok. by eapply query_ok. Qed.
Lemma bind_run {S E A B} (m : eff S E A) (f : A -> eff S E B) s b s' :
  (m ≫= f) s = (Ok b, s') -> exists a t, m s = (Ok a, t) /\ f a t = (Ok b, s').
Proof. unfold mbind, eff_bind. destruct (m s) as [[a|e] t]; [|done]. eauto. Qed.
Lemma ret_run {S E A} (a : A) (s : S) b s' : (mret a : eff S E A) s = (Ok b, s') -> b = a /\ s' = s.
Proof. by intros [= -> ->]. Qed.
Lemma assert_run b e n u n' : assert b e n = (Ok u, n') -> b = true /\ n' = n.
Proof. destruct b; [|done]. by intros [= _ ->]. Qed.
Lemma checks_run {A} (m : checked A) n a n' : checks m n = (Ok a, n') -> m = Ok a /\ n' = n.
Proof. unfold checks, lift. destruct m; cbn; [|done]. by intros [= -> ->]. Qed.
Lemma or_else_run {A} e (m : R A) n a n' : or_else e m n = (Ok a, n') -> m n = (Ok a, n').
Proof. unfold or_else. by destruct (m n) as [[x|e'] k]. Qed.
Lemma count_run {A} (rows : list A) n a n' : count rows n = (Ok a, n') -> a = lenZ rows.
Proof. intros (r & k & Hr & Hk)%bind_run. apply read_query_ok in Hr as ->. by apply ret_run in Hk as [-> _]. Qed.
Lemma attempt_run {A} (m : R A) n a n' : attempt m n = (Ok a, n') -> m n = (a, n').
Proof. unfold attempt. destruct (m n). by intros [= -> ->]. Qed.
End reads.

(** Take a successful run apart. *)
Ltac run_inv H :=
  lazymatch type of H with
  | (_ ≫= _) _ = (Ok _, _) =>
      let a := fresh "a" in let t := fresh "t" in let Ha := fresh "Hrun" in
      apply bind_run in H as (a & t & Ha & H); run_inv Ha; run_inv H
  | mret _ _ = (Ok _, _) => apply ret_run in H as [? ?]; subst
  | throw _ _ = (Ok _, _) => discriminate H
  | assert _ _ _ = (Ok _, _) => let n := fresh in apply assert_run in H as [H n]; subst
  | checks _ _ = (Ok _, _) => let n := fresh in apply checks_run in H as [H n]; subst
  | or_else _ _ _ = (Ok _, _) => apply or_else_run in H
  | count _ _ = (Ok _, _) => apply count_run in H; subst
  | from_Q (query _) _ = (Ok _, _) => apply read_query_ok in H; subst
  | _ => idtac
  end.
(** Replace computations by the results that are known. *)
Ltac computed :=
  repeat match goal with
  | Hm : ?m = Ok _ |- context [?m ≫= _] => rewrite Hm; cbn [mbind result_bind]
  end.

(** * What validation computes *)
Definition find_gen (id : digest) (gs : list GraphBundle) : option GraphBundle :=
  head (matching (fun b => streq (g_GenerationID (Generation b)) id) gs).
Definition read_bundle (b : GraphBundle) : GraphBundle :=
  mkBundle (read_back (Generation b)) (Nodes b) (Edges b) (Evidence b) (Unresolved b).

Section validate.
Context `{UnicodeTables} `{NFC} `{UrlParser} `{SHA256}.

(** The digest of the rows, without the calls to the data base. *)
Definition stream (b : GraphBundle) (mode : graphContentValidationMode) : checked digest :=
  let g := Generation b in
  let id := g_GenerationID g in
  h ← NewGraphContentHasher (g_NodeCount g) (g_EdgeCount g) (g_EvidenceCount g) (g_UnresolvedCount g);
  st ← mfold (stream_node id) (∅, h) (sortOn Z.compare n_NodeID (Nodes b));
  st' ← mfold (stream_edge id st.1) (∅, st.2) (sortOn Z.compare e_EdgeID (Edges b));
  h ← mfold (stream_evidence id st.1 st'.1) st'.2 (sortOn Z.compare v_EvidenceID (Evidence b));
  h ← mfold (stream_unresolved mode id) h (sortOn Z.compare u_UnresolvedID (Unresolved b));
  Sum h.
Definition counted (b : GraphBundle) : bool :=
  let g := Generation b in
  ((lenZ (Nodes b) =? g_NodeCount g) && (lenZ (Edges b) =? g_EdgeCount g)
   && (lenZ (Evidence b) =? g_EvidenceCount g) && (lenZ (Unresolved b) =? g_UnresolvedCount g))%Z.
(** A generation whose rows are what its identifier says. *)
Record sound (mode : graphContentValidationMode) (b : GraphBundle) : Prop := {
  sd_fingerprints : fingerprints_present (Generation b) = true;
  sd_content : stream b mode = Ok (g_ContentDigest (Generation b));
  sd_id : generation_id (Generation b) (g_ContentDigest (Generation b)) = g_GenerationID (Generation b);
  sd_counts : counted b = true;
  sd_evidence : unsupported_edges b = [] }.

Section connected.
Context `{Connection}.

Lemma stream_run b mode n d n' : streamGraphWithMode b mode n = (Ok d, n') -> stream b mode = Ok d.
Proof.
  unfold streamGraphWithMode, stream. intros Hs. run_inv Hs.
  by computed.
Qed.
Lemma load_run t id n b n' : load t id n = (Ok b, n') ->
  exists row, find_gen id (t_generations t) = Some row /\ b = read_bundle row.
Proof.
  unfold load. intros (o & k & Hl & Hk)%bind_run. apply from_Q_ok in Hl. unfold loadGeneration in Hl.
  apply bind_run in Hl as (row & m & Hq & Hm). unfold queryRow in Hq. apply bind_run in Hq as (rows & j & Hq & Hj).
  apply query_ok in Hq as ->. apply ret_run in Hj as [-> ->]. apply ret_run in Hm as [-> ->].
  unfold find_gen. destruct (head _) as [row|]; [|done]. apply ret_run in Hk as [-> ->]. by exists row.
Qed.
Lemma counts_run b n u n' : counts_match b n = (Ok u, n') -> counted b = true.
Proof. unfold counts_match. intros Hc. by run_inv Hc. Qed.
Lemma validate_run t id mode n b n' : validateGraphGenerationWithMode t id mode n = (Ok b, n') ->
  exists row, find_gen id (t_generations t) = Some row /\ b = read_bundle row /\ sound mode row.
Proof.
  unfold validateGraphGenerationWithMode. intros Hv. apply bind_run in Hv as (b' & k & Hl & Hv).
  apply load_run in Hl as (row & Hrow & ->). run_inv Hv. exists row. split_and!; [done|done|].
  apply counts_run in Hrun3. apply stream_run in Hrun0. apply streq_true in Hrun1 as ->. apply streq_true in Hrun2.
  constructor; try done. apply Z.eqb_eq in Hrun4. unfold lenZ in Hrun4.
  change (unsupported_edges row) with (unsupported_edges (read_bundle row)).
  destruct (unsupported_edges _); [done|cbn in Hrun4; lia].
Qed.

(** Without failing calls, the converse. *)
Section reliable.
Hypothesis Hr : reliable.
Lemma query_value {A} (rows : list A) n : fst (from_Q (query rows) n) = Ok rows.
Proof. unfold from_Q, query. by rewrite Hr. Qed.
Lemma bind_value {S E A B} (m : eff S E A) (f : A -> eff S E B) s a : fst (m s) = Ok a ->
  fst ((m ≫= f) s) = fst (f a (snd (m s))).
Proof. unfold mbind, eff_bind. destruct (m s) as [[a'|] k]; cbn; [|done]. by intros [= ->]. Qed.
Lemma checks_value {A} (m : checked A) a n : m = Ok a -> fst (checks m n) = Ok a.
Proof. by intros ->. Qed.
Lemma count_value {A} (rows : list A) n : fst (count rows n) = Ok (lenZ rows).
Proof. unfold count. by rewrite (bind_value _ _ _ _ (query_value rows n)). Qed.
Lemma load_value t id row n : find_gen id (t_generations t) = Some row -> fst (load t id n) = Ok (read_bundle row).
Proof.
  intros Hf. unfold load. erewrite bind_value; [|unfold from_Q, loadGeneration, queryRow, query, mbind, eff_bind;
    rewrite Hr; cbn; unfold find_gen in Hf; rewrite Hf; reflexivity]. done.
Qed.
Lemma stream_value b mode d n : stream b mode = Ok d -> fst (streamGraphWithMode b mode n) = Ok d.
Proof.
  unfold stream. intros Hs. bind_inv Hs as h E1. bind_inv Hs as st E2. bind_inv Hs as st' E3. bind_inv Hs as h' E4.
  bind_inv Hs as h'' E5. unfold streamGraphWithMode.
  rewrite (bind_value _ _ _ _ (checks_value _ _ _ E1)), (bind_value _ _ _ _ (query_value _ _)),
    (bind_value _ _ _ _ (checks_value _ _ _ E2)), (bind_value _ _ _ _ (query_value _ _)),
    (bind_value _ _ _ _ (checks_value _ _ _ E3)), (bind_value _ _ _ _ (query_value _ _)),
    (bind_value _ _ _ _ (checks_value _ _ _ E4)), (bind_value _ _ _ _ (query_value _ _)),
    (bind_value _ _ _ _ (checks_value _ _ _ E5)). by apply checks_value.
Qed.
Lemma assert_value b e n : b = true -> fst (assert b e n) = Ok tt.
Proof. by intros ->. Qed.
Lemma or_else_value {A} e (m : R A) a n : fst (m n) = Ok a -> fst (or_else e m n) = Ok a.
Proof. unfold or_else. destruct (m n) as [[x|e'] k]; [done|done]. Qed.
Lemma counts_value b n : counted b = true -> fst (counts_match b n) = Ok tt.
Proof.
  intros Hc. unfold counts_match. rewrite !(bind_value _ _ _ _ (count_value _ _)). by apply assert_value.
Qed.
Lemma validate_value t id mode row n :
  find_gen id (t_generations t) = Some row -> sound mode row ->
  fst (validateGraphGenerationWithMode t id mode n) = Ok (read_bundle row).
Proof.
  intros Hf [Hfp Hst Hid Hc Hu]. unfold validateGraphGenerationWithMode.
  rewrite (bind_value _ _ _ _ (load_value _ _ _ _ Hf)). cbv beta zeta.
  rewrite (bind_value _ _ _ _ (assert_value _ _ _ Hfp)).
  rewrite (bind_value _ _ _ _ (or_else_value _ _ _ _ (stream_value (read_bundle row) mode _ _ Hst))).
  rewrite (bind_value _ _ _ _ (assert_value _ _ _ (streq_refl _))).
  rewrite (bind_value _ _ _ _ (assert_value _ _ _ (proj2 (streq_true _ _) Hid))).
  rewrite (bind_value _ _ _ _ (counts_value (read_bundle row) _ Hc)), (bind_value _ _ _ _ (count_value _ _)).
  change (unsupported_edges (read_bundle row)) with (unsupported_edges row). by rewrite Hu.
Qed.
End reliable.
End connected.

(** ** The rows of a validated bundle are sound *)
Lemma numbered_sorted {A} (key : A -> Z) i l : numbered key i l -> sortOn Z.compare key l = l.
Proof.
  intros Hn. apply sortOn_fixed; [apply _| |].
  - intros x y [j Hj]%list_elem_of_lookup [k Hk]%list_elem_of_lookup Heq.
    rewrite (numbered_lookup _ _ _ _ _ Hn Hj), (numbered_lookup _ _ _ _ _ Hn Hk) in Heq.
    assert (j = k) as -> by lia. congruence.
  - revert i Hn; induction l as [|x l IH]; intros i; [constructor|]. intros [Hx Hl]. constructor; [by apply (IH (S i))|].
    apply Forall_forall. intros y [k Hk]%list_elem_of_lookup. unfold before.
    rewrite (numbered_lookup _ _ _ _ _ Hl Hk), Hx. apply Z.compare_le_iff. lia.
Qed.
(** The map that the loop over numbered records fills. *)
Definition keyed {A} (key : A -> Z) (val : A -> digest) : gmap Z digest -> list A -> gmap Z digest :=
  foldl (fun m x => <[key x := val x]> m).
Lemma keyed_lookup {A} (key : A -> Z) (val : A -> digest) l : forall i m k, numbered key i l ->
  keyed key val m l !! k
  = match (if (k <? Z.of_nat i)%Z then None else l !! Z.to_nat (k - Z.of_nat i)) with
    | Some x => Some (val x) | None => m !! k end.
Proof.
  induction l as [|x l IH]; intros i m k; cbn [numbered keyed foldl].
  { intros _. by destruct (_ <? _)%Z. }
  intros [Hx Hl]. change (foldl _ ?a l) with (keyed key val a l). rewrite (IH _ _ _ Hl), Hx.
  destruct (decide (k = Z.of_nat i)) as [->|Hne].
  - decide_cmp. rewrite Z.sub_diag. cbn. by rewrite lookup_insert_eq.
  - rewrite lookup_insert_ne by done. destruct (k <? Z.of_nat i)%Z eqn:E; bool_to_prop; decide_cmp; [done|].
    replace (Z.to_nat (k - Z.of_nat i)) with (S (Z.to_nat (k - Z.of_nat (S i)))) by lia. done.
Qed.
Lemma keyed_lookupZ {A} (key : A -> Z) (val : A -> digest) l k : numbered key 0 l ->
  keyed key val ∅ l !! k = val <$> lookupZ l k.
Proof.
  intros Hn. rewrite (keyed_lookup _ _ _ _ _ _ Hn). unfold lookupZ. rewrite Z.sub_0_r, lookup_empty.
  change (Z.of_nat 0) with 0%Z. destruct (k <? 0)%Z; [done|]. by destruct (l !! _).
Qed.

Section rows.
Context (id : digest).
Lemma node_in_fixed n : n_GenerationID n = id -> node_in id n = n.
Proof. destruct n. cbn. by intros ->. Qed.
Lemma edge_in_fixed e : e_GenerationID e = id -> edge_in id e = e.
Proof. destruct e. cbn. by intros ->. Qed.
Lemma evidence_in_fixed v : v_GenerationID v = id -> evidence_in id v = v.
Proof. destruct v. cbn. by intros ->. Qed.
Lemma unresolved_in_fixed u : u_GenerationID u = id -> unresolved_in id u = u.
Proof. destruct u. cbn. by intros ->. Qed.

Lemma stream_nodes ns : forall m h h',
  Forall (fun n => exists k, node_valid id k n) ns -> mfold (fun h n => AddNode n h) h ns = Ok h' ->
  mfold (stream_node id) (m, h) ns = Ok (keyed n_NodeID n_NodeKey m ns, h').
Proof.
  induction ns as [|n ns IH]; intros m h h'; [by intros _ [= <-]|].
  intros [(k & [_ Hg Hv _]) Hall]%Forall_cons Hf. cbn [mfold] in Hf |- *. bind_inv Hf as h1 Hh.
  assert (stream_node id (m, h) n = Ok (<[n_NodeID n := n_NodeKey n]> m, h1)) as ->; [|by apply IH].
  unfold stream_node. rewrite node_in_fixed by done. cbn [snd fst]. by computed.
Qed.
Lemma stream_edges nodes es : forall m h h',
  numbered n_NodeID 0 nodes -> Forall (fun e => exists k, edge_valid id nodes k e) es ->
  mfold (fun h e => AddEdge e h) h es = Ok h' ->
  mfold (stream_edge id (keyed n_NodeID n_NodeKey ∅ nodes)) (m, h) es = Ok (keyed e_EdgeID e_EdgeKey m es, h').
Proof.
  induction es as [|e es IH]; intros m h h' Hn; [by intros _ [= <-]|].
  intros [(k & [_ Hg (from & to & Hf & Ht & Hkey & Hv)]) Hall]%Forall_cons Hfold. cbn [mfold] in Hfold |- *.
  bind_inv Hfold as h1 Hh.
  assert (stream_edge id (keyed n_NodeID n_NodeKey ∅ nodes) (m, h) e = Ok (<[e_EdgeID e := e_EdgeKey e]> m, h1)) as ->;
    [|by apply IH].
  unfold stream_edge. rewrite edge_in_fixed by done. cbv zeta. rewrite !keyed_lookupZ, Hf, Ht by done.
  cbn [fmap option_fmap option_map]. rewrite Hv. cbn [is_ok negb snd fst]. computed. by rewrite <- Hkey.
Qed.
(** The recomputed digest of a validated evidence is the one it carries. *)
Lemma read_evidence_fixed v subject : v_GenerationID v = id -> ValidateGraphEvidence v subject = Ok tt ->
  read_evidence id v = v.
Proof.
  intros Hg Hv. unfold ValidateGraphEvidence in Hv. destruct (_ || _); [done|].
  destruct (negb (is_ok (registered _ _))); [done|]. destruct (negb (is_ok (slashPath _ _))); [done|].
  destruct (positions_ok v) eqn:Hp; [|done]. cbn [negb] in Hv. destruct (negb (streq (v_EvidenceDigest v) _) || _ || _) eqn:Hd; [done|].
  apply orb_false_iff in Hd as [[Hd%negb_false_iff%streq_true _]%orb_false_iff _].
  unfold read_evidence. cbv zeta. destruct v. cbn in *. rewrite Hd, Hg. f_equal. unfold evidence_digest. cbn.
  unfold positions_ok in Hp. cbn in Hp. destruct v_StartLine; [done|].
  destruct v_StartColumn, v_EndLine, v_EndColumn; cbn in Hp; rewrite ?andb_false_r in Hp; done.
Qed.
Lemma stream_evidences nodes edges vs : forall h h',
  numbered n_NodeID 0 nodes -> numbered e_EdgeID 0 edges -> Forall (evidence_valid id nodes edges) vs ->
  mfold (fun h v => AddEvidence v h) h vs = Ok h' ->
  mfold (stream_evidence id (keyed n_NodeID n_NodeKey ∅ nodes) (keyed e_EdgeID e_EdgeKey ∅ edges)) h vs = Ok h'.
Proof.
  induction vs as [|v vs IH]; intros h h' Hn He; [done|].
  intros [[Hg Hv] Hall]%Forall_cons Hfold. cbn [mfold] in Hfold |- *. bind_inv Hfold as h1 Hh.
  assert (stream_evidence id (keyed n_NodeID n_NodeKey ∅ nodes) (keyed e_EdgeID e_EdgeKey ∅ edges) h v = Ok h1) as ->;
    [|by apply IH].
  unfold stream_evidence, evidence_subject.
  destruct Hv as [(i & n & -> & -> & Hl & Hk & Hval)|(i & e & -> & -> & Hl & Hk & Hval)];
    rewrite keyed_lookupZ, Hl by done; cbn [fmap option_fmap option_map]; rewrite Hk, streq_refl;
    cbn [mbind result_bind]; rewrite (read_evidence_fixed v _ Hg Hval); cbv zeta; by computed.
Qed.
Lemma stream_unresolveds us : forall h h',
  Forall (unresolved_valid id) us -> mfold (fun h u => AddUnresolved u h) h us = Ok h' ->
  mfold (stream_unresolved graphContentValidationCurrent id) h us = Ok h'.
Proof.
  induction us as [|u us IH]; intros h h'; [done|].
  intros [(Hg & Hv & Hn) Hall]%Forall_cons Hfold. cbn [mfold] in Hfold |- *. bind_inv Hfold as h1 Hh.
  assert (stream_unresolved graphContentValidationCurrent id h u = Ok h1) as ->; [|by apply IH].
  unfold stream_unresolved. rewrite unresolved_in_fixed by done. by computed.
Qed.
End rows.

Lemma content_stream b : wf_bundle b -> counted b = true ->
  stream b graphContentValidationCurrent = Ok (sha256 (content_bytes b)).
Proof.
  intros Hwf Hc. destruct (content_runs _ Hwf) as (h0 & h1 & h2 & h3 & h4 & E0 & E1 & E2 & E3 & E4 & E5).
  destruct Hwf as [[Hn [_ Hnv]] [He [_ Hev]] [Hv Hvv] _ [Hu Huv]].
  unfold counted in Hc. cbv zeta in Hc. bool_to_prop. unfold stream. cbv zeta.
  repeat match goal with E : lenZ _ = _ |- _ => rewrite <- E; clear E end. rewrite E0. cbn [mbind result_bind].
  rewrite (numbered_sorted _ _ _ Hn), (stream_nodes _ _ _ _ _ Hnv E1). cbn [mbind result_bind fst snd].
  rewrite (numbered_sorted _ _ _ He), (stream_edges _ _ _ _ _ _ Hn Hev E2). cbn [mbind result_bind fst snd].
  rewrite (numbered_sorted _ _ _ Hv), (stream_evidences _ _ _ _ _ _ Hn He Hvv E3). cbn [mbind result_bind].
  rewrite (numbered_sorted _ _ _ Hu), (stream_unresolveds _ _ _ _ Huv E4). exact E5.
Qed.
(** A well-formed bundle with its own digests, under any status, is sound. *)
Lemma wf_sound b : wf_bundle b -> counted b = true -> fingerprints_present (Generation b) = true ->
  g_ContentDigest (Generation b) = sha256 (content_bytes b) ->
  g_GenerationID (Generation b) = generation_id (Generation b) (g_ContentDigest (Generation b)) ->
  sound graphContentValidationCurrent b.
Proof.
  intros Hwf Hc Hf Hd Hid. constructor; [done| | |done|].
  - rewrite Hd. by apply content_stream.
  - done.
  - destruct Hwf as [_ _ _ Hcov _]. rewrite Forall_forall in Hcov. unfold unsupported_edges.
    destruct (matching _ _) as [|e l] eqn:Hm; [done|]. assert (He : e ∈ e :: l) by left. rewrite <- Hm in He.
    apply (list_elem_of_filter (fun e => _ = true)) in He as [Hno Hin]. destruct (Hcov e Hin) as (v & Hv & Hve).
    apply negb_true_iff in Hno. assert (existsb (has_edge (e_EdgeID e)) (Evidence b) = true); [|congruence]. apply existsb_exists. exists v.
    split; [by apply list_elem_of_In|]. unfold has_edge. by rewrite Hve, Z.eqb_refl.
Qed.

(** ** Histories *)

(** A generation that may be somebody's predecessor. *)
Record historic (workspace : gostring) (b : GraphBundle) : Prop := {
  hi_published : published (Generation b) = true;
  hi_workspace : g_WorkspaceIdentity (Generation b) = workspace;
  hi_schema : g_SchemaVersion (Generation b) = 1%Z;
  hi_sound : sound graphContentValidationCurrent b \/ sound graphContentValidationLegacy b }.
(** [ids] lists a generation, its predecessor, and so on to the first one. *)
Fixpoint history (t : tables) (workspace : gostring) (ids : list digest) : Prop :=
  match ids with
  | [] => False
  | id :: rest =>
      exists b, find_gen id (t_generations t) = Some b /\ historic workspace b /\
        match g_PreviousGenerationID (Generation b) with
        | None => rest = []
        | Some p => p <> zeroDigest /\ head rest = Some p /\ history t workspace rest
        end
  end.
(** The predecessors of a generation. *)
Definition predecessors (t : tables) (workspace : gostring) (previous : option digest) (ids : list digest) : Prop :=
  match previous with
  | None => ids = []
  | Some p => p <> zeroDigest /\ head ids = Some p /\ history t workspace ids
  end.

Section walks.
Context `{Connection} (t : tables) (workspace : gostring).
Implicit Types replacement : option (option digest).

Lemma record_run id g n u n' : validateGraphGenerationAncestryRecord t id workspace g n = (Ok u, n') ->
  g_WorkspaceIdentity g = workspace /\ g_SchemaVersion g = 1%Z /\
  exists row, find_gen id (t_generations t) = Some row /\
    (sound graphContentValidationCurrent row \/ sound graphContentValidationLegacy row).
Proof.
  unfold validateGraphGenerationAncestryRecord. intros Hr.
  apply bind_run in Hr as (u1 & n1 & E1 & Hr). apply assert_run in E1 as [Hws%streq_true ->].
  apply bind_run in Hr as (u2 & n2 & E2 & Hr). apply assert_run in E2 as [[Hsc%Z.eqb_eq _]%andb_true_iff ->].
  apply bind_run in Hr as (u3 & n3 & E3 & Hr). apply assert_run in E3 as [_ ->].
  apply bind_run in Hr as (r & n4 & E4 & Hr). apply attempt_run in E4. split; [done|]. split; [done|].
  destruct r as [b|e].
  - apply validate_run in E4 as (row & Hf & _ & Hs). eauto.
  - apply bind_run in Hr as (b & n5 & E5 & Hr). apply or_else_run in E5.
    apply validate_run in E5 as (row & Hf & _ & Hs). eauto.
Qed.
(** A walk that succeeds has found a history without repetition that fits its room. *)
Lemma walk_run replacement room : forall seen id n u n',
  walk t workspace replacement room false seen id n = (Ok u, n') ->
  exists rest, history t workspace (id :: rest) /\ NoDup (id :: rest) /\ length (id :: rest) <= room /\
    forall x, x ∈ id :: rest -> x ∉ seen.
Proof.
  induction room as [|room IH]; intros seen id n u n' Hw; [done|]. cbn [walk] in Hw.
  apply bind_run in Hw as (u1 & n1 & E1 & Hw). apply assert_run in E1 as [Hseen%negb_true_iff ->]. bool_to_prop.
  apply bind_run in Hw as (b & n2 & E2 & Hw). apply or_else_run, load_run in E2 as (row & Hrow & ->). cbv zeta in Hw.
  apply bind_run in Hw as (u3 & n3 & E3 & Hw). apply assert_run in E3 as [_ ->].
  apply bind_run in Hw as (u4 & n4 & E4 & Hw). apply bind_run in E4 as (u5 & n5 & E5 & E4).
  apply assert_run in E5 as [Hpub ->]. apply record_run in E4 as (Hws & Hsc & row' & Hrow' & Hs).
  rewrite Hrow in Hrow'. injection Hrow' as <-.
  assert (Hh : historic workspace row) by done.
  cbn [read_bundle Generation read_back g_PreviousGenerationID] in Hw.
  destruct (g_PreviousGenerationID (Generation row)) as [p|] eqn:Hp.
  - apply bind_run in Hw as (u6 & n6 & E6 & Hw). apply assert_run in E6 as [Hz%negb_true_iff%streq_false ->].
    apply IH in Hw as (rest & Hhist & Hnd & Hlen & Hfresh). exists (p :: rest). split_and!.
    + exists row. rewrite Hp. done.
    + constructor; [|done]. intros Hin. apply (Hfresh id Hin). left.
    + cbn [length] in *. lia.
    + intros x [->|Hx]%elem_of_cons; [done|]. specialize (Hfresh x Hx). set_solver.
  - exists []. split_and!; [|apply NoDup_singleton|cbn; lia|set_solver]. exists row. by rewrite Hp.
Qed.
Lemma walk_first replacement id n u n' :
  walk t workspace replacement graphGenerationAncestryMaxDepth true [] id n = (Ok u, n') ->
  exists row ids, find_gen id (t_generations t) = Some row /\
    predecessors t workspace (match replacement with Some p => p | None => g_PreviousGenerationID (Generation row) end) ids /\
    NoDup (id :: ids) /\ length (id :: ids) <= graphGenerationAncestryMaxDepth.
Proof.
  unfold graphGenerationAncestryMaxDepth. destruct (Z.to_nat 1024) as [|room] eqn:Hroom; [done|]. cbn [walk]. intros Hw.
  apply bind_run in Hw as (u1 & n1 & E1 & Hw). apply assert_run in E1 as [_ ->].
  apply bind_run in Hw as (b & n2 & E2 & Hw). apply or_else_run, load_run in E2 as (row & Hrow & ->). cbv zeta in Hw.
  apply bind_run in Hw as (u3 & n3 & E3 & Hw). apply assert_run in E3 as [_ ->].
  apply bind_run in Hw as (u4 & n4 & E4 & Hw). apply ret_run in E4 as [_ ->].
  change (g_PreviousGenerationID (Generation (read_bundle row))) with (g_PreviousGenerationID (Generation row)) in Hw.
  exists row. destruct (match replacement with Some p => p | None => _ end) as [p|].
  - apply bind_run in Hw as (u6 & n6 & E6 & Hw). apply assert_run in E6 as [Hz%negb_true_iff%streq_false ->].
    apply walk_run in Hw as (rest & Hhist & Hnd & Hlen & Hfresh). exists (p :: rest). split_and!; [done|done| |cbn [length] in *; lia].
    constructor; [|done]. intros Hin. apply (Hfresh id Hin). left.
  - exists []. split_and!; [done|done|apply NoDup_singleton|cbn; lia].
Qed.
Lemma ancestry_run replacement id n u n' : validateGraphGenerationAncestry t id workspace replacement n = (Ok u, n') ->
  exists row ids, find_gen id (t_generations t) = Some row /\
    predecessors t workspace (match replacement with Some p => p | None => g_PreviousGenerationID (Generation row) end) ids /\
    NoDup (id :: ids) /\ length (id :: ids) <= graphGenerationAncestryMaxDepth.
Proof.
  unfold validateGraphGenerationAncestry. intros Hr.
  apply bind_run in Hr as (u1 & n1 & E1 & Hr). apply assert_run in E1 as [_ ->].
  apply bind_run in Hr as (u2 & n2 & E2 & Hr). unfold walkGraphGenerationAncestry in *.
  destruct replacement as [p|]; [by apply (walk_first (Some p)) in Hr|by apply (walk_first None) in E2].
Qed.

(** On a reliable connection, a history that fits is walked. *)
Section reliable_walks.
Hypothesis Hr : reliable.
Hypothesis Hcanonical : canonical_identity workspace = true.
Lemma attempt_value {A} (m : R A) n : fst (attempt m n) = Ok (fst (m n)).
Proof. unfold attempt. by destruct (m n). Qed.
Lemma ret_value {S E A} (a : A) (s : S) : fst ((mret a : eff S E A) s) = Ok a.
Proof. done. Qed.
Lemma bind_unit {B} (m : R unit) (f : unit -> R B) n : fst (m n) = Ok tt -> fst ((m ≫= f) n) = fst (f tt (snd (m n))).
Proof. apply bind_value. Qed.
Lemma record_value id row n : find_gen id (t_generations t) = Some row -> historic workspace row ->
  fst (validateGraphGenerationAncestryRecord t id workspace (read_back (Generation row)) n) = Ok tt.
Proof.
  intros Hrow [_ Hws Hsc Hs]. unfold validateGraphGenerationAncestryRecord.
  cbn [read_back g_WorkspaceIdentity g_SchemaVersion g_RepositoryIdentity].
  rewrite (bind_value _ _ _ _ (assert_value _ _ _ (proj2 (streq_true _ _) Hws))).
  rewrite Hsc, streq_refl, Hws. rewrite (bind_value _ _ _ _ (assert_value _ _ _ eq_refl)).
  rewrite (bind_value _ _ _ _ (assert_value _ _ _ Hcanonical)). rewrite (bind_value _ _ _ _ (attempt_value _ _)).
  destruct (fst (validateGraphGenerationWithMode _ _ _ _)) as [b|e] eqn:Hv; [done|].
  destruct Hs as [Hs|Hs].
  - by rewrite (validate_value Hr _ _ _ _ _ Hrow Hs) in Hv.
  - by rewrite (bind_value _ _ _ _ (or_else_value _ _ _ _ (validate_value Hr _ _ _ _ _ Hrow Hs))).
Qed.
Lemma walk_value replacement ids : forall room seen n, history t workspace ids -> NoDup ids -> length ids <= room ->
  (forall x, x ∈ ids -> x ∉ seen) ->
  fst (walk t workspace replacement room false seen (default [] (head ids)) n) = Ok tt.
Proof.
  induction ids as [|id ids IH]; intros room seen n Hh Hnd Hlen Hfresh; [done|].
  destruct room as [|room]; [cbn in Hlen; lia|]. cbn [walk head default]. change (Datatypes.id id) with id.
  destruct Hh as (row & Hrow & Hi & Hp). apply NoDup_cons in Hnd as [Hid Hnd].
  rewrite bind_unit by (apply assert_value; rewrite bool_decide_false; [done|apply Hfresh; left]).
  rewrite (bind_value _ _ _ _ (or_else_value _ _ _ _ (load_value Hr _ _ _ _ Hrow))). cbv zeta.
  rewrite bind_unit by (apply assert_value, streq_true, Hi).
  rewrite bind_unit.
  2:{ rewrite bind_unit by (apply assert_value, Hi). by apply record_value. }
  change (g_PreviousGenerationID (Generation (read_bundle row))) with (g_PreviousGenerationID (Generation row)).
  destruct (g_PreviousGenerationID (Generation row)) as [p|]; [|done].
  destruct Hp as (Hz & Hhead & Hh). rewrite bind_unit by (apply assert_value, negb_true_iff, streq_false; done).
  replace p with (default [] (head ids)) by (by rewrite Hhead). apply IH; [done|done|cbn in Hlen; lia|].
  intros x Hx. rewrite not_elem_of_cons. split; [by intros ->|]. apply Hfresh. by right.
Qed.
Lemma walk_first_value replacement id row ids n : find_gen id (t_generations t) = Some row ->
  g_WorkspaceIdentity (Generation row) = workspace ->
  predecessors t workspace (match replacement with Some p => p | None => g_PreviousGenerationID (Generation row) end) ids ->
  NoDup (id :: ids) -> length (id :: ids) <= graphGenerationAncestryMaxDepth ->
  fst (walk t workspace replacement graphGenerationAncestryMaxDepth true [] id n) = Ok tt.
Proof.
  unfold graphGenerationAncestryMaxDepth. intros Hrow Hws Hpre Hnd Hlen.
  destruct (Z.to_nat 1024) as [|room]; [cbn in Hlen; lia|]. cbn [walk]. apply NoDup_cons in Hnd as [Hid Hnd].
  rewrite bind_unit by (by apply assert_value).
  rewrite (bind_value _ _ _ _ (or_else_value _ _ _ _ (load_value Hr _ _ _ _ Hrow))). cbv zeta.
  rewrite bind_unit by (by apply assert_value, streq_true).
  rewrite bind_unit by apply ret_value.
  change (g_PreviousGenerationID (Generation (read_bundle row))) with (g_PreviousGenerationID (Generation row)).
  destruct (match replacement with Some p => p | None => _ end) as [p|]; [|done]. destruct Hpre as (Hz & Hhead & Hh).
  rewrite bind_unit by (apply assert_value, negb_true_iff, streq_false; done).
  replace p with (default [] (head ids)) by (by rewrite Hhead). apply walk_value; [done|done|cbn in Hlen; lia|].
  intros x Hx. rewrite not_elem_of_cons. split; [by intros ->|set_solver].
Qed.
End reliable_walks.
End walks.
End validate.
