(* ===== verification/GraphPublish.v ===== *)
(** Writing generations: the transactions of internal/store/graph.go,
    graph_recovery.go and the graph part of index_publish.go.

    A generation is staged with its rows, activated in place of the one the pointer
    names, retired, rolled back to, cleaned up, or repaired after a crash.  Every
    operation runs in a transaction that no other writer shares ([BEGIN IMMEDIATE]):
    it works on a copy of the data base that replaces it when the transaction commits. *)
From S2P Require Import Prelude GoStrings GoStringFacts GoSort GoNum GoTime Graph GraphStore IndexTables GraphValidate.

Local Open Scope go_scope.

(** * The data base *)
Record GraphMigration := mkMigration {
  m_MigrationID : gostring; m_FromVersion : Z; m_ToVersion : Z; m_Status : gostring;
  m_PreflightDigest : digest; m_BackupDigest : digest; m_PriorActiveGenerationID : option digest;
  m_StartedAt : Z; m_CompletedAt : option Z; m_ErrorCode : option gostring }.
Record database := mkDB { d_tables : tables; d_migrations : list GraphMigration; d_index : index_tables }.
Definition generations (d : database) : list GraphBundle := t_generations (d_tables d).
Definition meta (d : database) : list (gostring * option gostring) := t_meta (d_tables d).
Definition with_generations (gs : list GraphBundle) (d : database) : database :=
  mkDB (mkTables (t_meta (d_tables d)) gs (t_legacy (d_tables d))) (d_migrations d) (d_index d).
Definition with_meta (m : list (gostring * option gostring)) (d : database) : database :=
  mkDB (mkTables m (t_generations (d_tables d)) (t_legacy (d_tables d))) (d_migrations d) (d_index d).
Definition with_migrations (ms : list GraphMigration) (d : database) : database := mkDB (d_tables d) ms (d_index d).
Definition with_index (t : index_tables) (d : database) : database := mkDB (d_tables d) (d_migrations d) t.

Definition id_of (b : GraphBundle) : digest := g_GenerationID (Generation b).
Definition status_of (b : GraphBundle) : gostring := g_Status (Generation b).
Definition has_id (id : digest) (b : GraphBundle) : bool := streq (id_of b) id.
Definition has_status (status : gostring) (b : GraphBundle) : bool := streq (status_of b) status.

(** ** The constraints that the schema declares *)
Definition is_digest (d : digest) : bool := length d =? 32.
Definition optional {A} (f : A -> bool) (o : option A) : bool := match o with Some a => f a | None => true end.
Definition unique {A K} `{EqDecision K} (key : A -> K) (l : list A) : bool := bool_decide (NoDup (map key l)).
Definition natural (z : Z) : bool := (0 <=? z)%Z.
Definition generation_checks (gs : list GraphBundle) (g : GraphGeneration) : bool :=
  forallb is_digest [g_GenerationID g; g_SourceFingerprint g; g_ConfigFingerprint g; g_BackendManifestDigest g;
                     g_ContentDigest g]
  && (g_SchemaVersion g =? 1)%Z && validStatus (g_Status g)
  && forallb natural [g_NodeCount g; g_EdgeCount g; g_EvidenceCount g; g_UnresolvedCount g]
  && optional (fun p => is_digest p && existsb (has_id p) gs) (g_PreviousGenerationID g).
Definition node_checks (ns : list GraphNodeRecord) : bool :=
  unique n_NodeID ns && unique n_NodeKey ns
  && forallb (fun n => natural (n_NodeID n) && is_digest (n_NodeKey n) && is_digest (n_SourceDigest n)) ns.
Definition names_node (ns : list GraphNodeRecord) (id : Z) : bool := existsb (fun n => n_NodeID n =? id)%Z ns.
Definition names_edge (es : list GraphEdgeRecord) (id : Z) : bool := existsb (fun e => e_EdgeID e =? id)%Z es.
Definition edge_checks (ns : list GraphNodeRecord) (es : list GraphEdgeRecord) : bool :=
  unique e_EdgeID es && unique e_EdgeKey es
  && forallb (fun e => natural (e_EdgeID e) && is_digest (e_EdgeKey e) && names_node ns (e_FromNodeID e)
                       && names_node ns (e_ToNodeID e)) es.
Definition evidence_checks (ns : list GraphNodeRecord) (es : list GraphEdgeRecord) (vs : list GraphEvidence) : bool :=
  unique v_EvidenceID vs && unique v_EvidenceKey vs
  && forallb (fun v =>
       natural (v_EvidenceID v) && forallb is_digest [v_EvidenceKey v; v_SourceDigest v; v_ObservedClaimDigest v]
       && forallb (optional natural) (positions v)
       && match v_NodeID v, v_EdgeID v with
          | Some n, None => streq (v_SubjectKind v) "node" && names_node ns n
          | None, Some e => streq (v_SubjectKind v) "edge" && names_edge es e
          | _, _ => false
          end) vs.
Definition unresolved_checks (us : list GraphUnresolved) : bool :=
  unique u_UnresolvedID us && unique u_UnresolvedKey us
  && forallb (fun u => natural (u_UnresolvedID u) && is_digest (u_UnresolvedKey u) && is_digest (u_SelectorDigest u)
                       && optional is_digest (u_SourceDigest u)) us.
Definition bundle_checks (gs : list GraphBundle) (b : GraphBundle) : bool :=
  generation_checks gs (Generation b) && node_checks (Nodes b) && edge_checks (Nodes b) (Edges b)
  && evidence_checks (Nodes b) (Edges b) (Evidence b) && unresolved_checks (Unresolved b).
Definition migration_checks (gs : list GraphBundle) (m : GraphMigration) : bool :=
  oneOf (m_Status m) ["prepared"; "applying"; "validated"; "committed"; "rolled_back"; "failed"]
  && is_digest (m_PreflightDigest m) && is_digest (m_BackupDigest m)
  && optional (fun p => is_digest p && existsb (has_id p) gs) (m_PriorActiveGenerationID m).
(** [idx_graph_generations_one_active]: one active generation per workspace. *)
Definition constraints (d : database) : bool :=
  unique id_of (generations d)
  && unique (fun b => g_WorkspaceIdentity (Generation b)) (matching (has_status "active") (generations d))
  && forallb (bundle_checks (generations d)) (generations d)
  && unique m_MigrationID (d_migrations d) && forallb (migration_checks (generations d)) (d_migrations d)
  && unique fst (meta d) && index_keys (d_index d).

(** * Transactions

    The calls made, the data base as committed, and the copy the transaction works on. *)
Record txn := mkTxn { x_calls : nat; x_committed : database; x_work : database }.
Definition Tx : Type -> Type := eff txn store_error.

Section transactions.
Context `{Connection}.

(** A read sees what the transaction has written. *)
Definition reads {A} (m : tables -> R A) : Tx A := fun x =>
  let '(r, n) := m (d_tables (x_work x)) (x_calls x) in (r, mkTxn n (x_committed x) (x_work x)).
Definition reads_db {A} (rows : database -> list A) : Tx (list A) := fun x =>
  let '(r, n) := from_Q (query (rows (x_work x))) (x_calls x) in (r, mkTxn n (x_committed x) (x_work x)).
(** A statement that writes; [f] gives the new rows and the number of those affected.
    A statement that would violate a constraint changes nothing. *)
Definition exec (f : database -> database * Z) : Tx Z := fun x =>
  if sql_fails (x_calls x) then (Err (ErrQuery ErrDriver), mkTxn (S (x_calls x)) (x_committed x) (x_work x))
  else
    let '(d, n) := f (x_work x) in
    if constraints d then (Ok n, mkTxn (S (x_calls x)) (x_committed x) d)
    else (Err ErrConstraint, mkTxn (S (x_calls x)) (x_committed x) (x_work x)).
Definition commit : Tx unit := fun x =>
  if sql_fails (x_calls x) then (Err (ErrQuery ErrDriver), mkTxn (S (x_calls x)) (x_committed x) (x_work x))
  else (Ok tt, mkTxn (S (x_calls x)) (x_work x) (x_work x)).
Definition expect (b : bool) (e : store_error) : Tx unit := if b then mret tt else throw e.
(** The rows affected must be one. *)
Definition exec_one (e : store_error) (f : database -> database * Z) : Tx unit :=
  n ← exec f; expect (n =? 1)%Z e.

(** An operation on the data base; the state is the number of calls and the data base. *)
Definition Op : Type := eff (nat * database) store_error unit.
(** [BEGIN IMMEDIATE], the body, and a deferred rollback of what was not committed. *)
Definition immediate {A} (body : Tx A) : eff (nat * database) store_error A := fun '(n, d) =>
  if sql_fails n then (Err (ErrQuery ErrDriver), (S n, d))
  else let '(r, x) := body (mkTxn (S n) d d) in (r, (x_calls x, x_committed x)).

(** ** Statements *)
Definition graphActiveMeta : gostring := "active_graph_generation_id".
Definition graphPreviousMeta : gostring := "previous_graph_generation_id".
Definition GraphCatalogGenerationMeta : gostring := "graph_catalog_generation_id".
Definition GraphRuntimeStateMeta : gostring := "graph_runtime_state".
Definition GraphRuntimeStale : gostring := "stale".

Definition set_value (keys : list gostring) (v : option gostring) (m : list (gostring * option gostring)) :
    list (gostring * option gostring) :=
  map (fun r => if oneOf r.1 keys then (r.1, v) else r) m.
Definition has_key (key : gostring) (m : list (gostring * option gostring)) : bool := existsb (fun r => streq r.1 key) m.
(** [INSERT ... ON CONFLICT(key) DO UPDATE SET value=excluded.value]. *)
Definition upsert (key : gostring) (v : option gostring) (d : database) : database * Z :=
  (with_meta (if has_key key (meta d) then set_value [key] v (meta d) else meta d ++ [(key, v)]) d, 1%Z).
(** [UPDATE workspace_meta SET value=? WHERE key IN (...)]. *)
Definition update_meta (keys : list gostring) (v : option gostring) (d : database) : database * Z :=
  (with_meta (set_value keys v (meta d)) d, lenZ (matching (fun r => oneOf r.1 keys) (meta d))).
Definition delete_meta (key : gostring) (d : database) : database * Z :=
  (with_meta (matching (fun r => negb (streq r.1 key)) (meta d)) d, lenZ (matching (fun r => streq r.1 key) (meta d))).
(** [UPDATE graph_generations SET ... WHERE cond]. *)
Definition update_generations (cond : GraphBundle -> bool) (f : GraphBundle -> GraphBundle) (d : database) :
    database * Z :=
  (with_generations (map (fun b => if cond b then f b else b) (generations d)) d,
   lenZ (matching cond (generations d))).
Definition delete_generations (cond : GraphBundle -> bool) (d : database) : database * Z :=
  (with_generations (matching (fun b => negb (cond b)) (generations d)) d, lenZ (matching cond (generations d))).
Definition on_header (f : GraphGeneration -> GraphGeneration) (b : GraphBundle) : GraphBundle :=
  mkBundle (f (Generation b)) (Nodes b) (Edges b) (Evidence b) (Unresolved b).
Definition set_publication (status error : gostring) (previous : option digest) (publishedAt : Z)
    (g : GraphGeneration) : GraphGeneration :=
  mkGeneration (g_GenerationID g) (g_SchemaVersion g) (g_WorkspaceIdentity g) (g_RepositoryIdentity g)
    (g_SourceFingerprint g) (g_ConfigFingerprint g) (g_BackendManifestDigest g) (g_ContentDigest g)
    status error (g_NodeCount g) (g_EdgeCount g) (g_EvidenceCount g) (g_UnresolvedCount g)
    previous (g_CreatedAt g) publishedAt.
Definition set_status (status : gostring) : GraphBundle -> GraphBundle :=
  on_header (fun g => set_publication status (g_ErrorCode g) (g_PreviousGenerationID g) (g_PublishedAt g) g).
Definition set_active (publishedAt : Z) : GraphBundle -> GraphBundle :=
  on_header (fun g => set_publication "active" (g_ErrorCode g) (g_PreviousGenerationID g) publishedAt g).
Definition set_active_after (previous : option digest) (publishedAt : Z) : GraphBundle -> GraphBundle :=
  on_header (fun g => set_publication "active" (g_ErrorCode g) previous publishedAt g).
Definition set_invalid (error : gostring) : GraphBundle -> GraphBundle :=
  on_header (fun g => set_publication "invalid" error (g_PreviousGenerationID g) (g_PublishedAt g) g).

(** [SELECT value FROM workspace_meta WHERE key=?] into bytes: no row and NULL are both empty. *)
Definition meta_bytes (key : gostring) : Tx gostring :=
  reads (fun t => row ← from_Q (meta_row t key); mret (default [] (mjoin row))).
Definition active_rows : Tx Z := rows ← reads_db (fun d => matching (has_status "active") (generations d)); mret (lenZ rows).
Definition pointer (old : gostring) : option digest := if bool_decide (old = []) then None else Some old.
End transactions.

Section operations.
Context `{UnicodeTables} `{NFC} `{UrlParser} `{SHA256} `{Connection}.

(** * Staging *)
Definition timesEqual (a b : Z) : bool := (a =? b)%Z.
Definition generationMetadataEqual (a b : GraphGeneration) : bool :=
  bool_decide (g_PreviousGenerationID a = g_PreviousGenerationID b)
  && streq (g_GenerationID a) (g_GenerationID b) && (g_SchemaVersion a =? g_SchemaVersion b)%Z
  && streq (g_WorkspaceIdentity a) (g_WorkspaceIdentity b)
  && streq (g_SourceFingerprint a) (g_SourceFingerprint b) && streq (g_ConfigFingerprint a) (g_ConfigFingerprint b)
  && streq (g_BackendManifestDigest a) (g_BackendManifestDigest b) && streq (g_ContentDigest a) (g_ContentDigest b)
  && streq (g_Status a) (g_Status b) && streq (g_ErrorCode a) (g_ErrorCode b)
  && (g_NodeCount a =? g_NodeCount b)%Z && (g_EdgeCount a =? g_EdgeCount b)%Z
  && (g_EvidenceCount a =? g_EvidenceCount b)%Z && (g_UnresolvedCount a =? g_UnresolvedCount b)%Z
  && timesEqual (g_CreatedAt a) (g_CreatedAt b).
Definition graphGenerationImmutableMetadataEqual (a b : GraphGeneration) : bool :=
  streq (g_GenerationID a) (g_GenerationID b) && (g_SchemaVersion a =? g_SchemaVersion b)%Z
  && streq (g_WorkspaceIdentity a) (g_WorkspaceIdentity b)
  && streq (g_SourceFingerprint a) (g_SourceFingerprint b) && streq (g_ConfigFingerprint a) (g_ConfigFingerprint b)
  && streq (g_BackendManifestDigest a) (g_BackendManifestDigest b) && streq (g_ContentDigest a) (g_ContentDigest b)
  && streq (g_ErrorCode a) (g_ErrorCode b)
  && (g_NodeCount a =? g_NodeCount b)%Z && (g_EdgeCount a =? g_EdgeCount b)%Z
  && (g_EvidenceCount a =? g_EvidenceCount b)%Z && (g_UnresolvedCount a =? g_UnresolvedCount b)%Z.

(** The header row of a staged generation; the publication time and the error are NULL. *)
Definition staged_header (g : GraphGeneration) : GraphGeneration :=
  set_publication "staged" [] (g_PreviousGenerationID g) 0 g.
Definition insert_generation (g : GraphGeneration) (d : database) : database * Z :=
  (with_generations (generations d ++ [mkBundle (staged_header g) [] [] [] []]) d, 1%Z).
Definition add_rows_to (id : digest) (f : GraphBundle -> GraphBundle) (d : database) : database * Z :=
  (with_generations (map (fun b => if has_id id b then f b else b) (generations d)) d, 1%Z).
Definition insert_node (id : digest) (n : GraphNodeRecord) : database -> database * Z :=
  add_rows_to id (fun b => mkBundle (Generation b) (Nodes b ++ [node_in id n]) (Edges b) (Evidence b) (Unresolved b)).
Definition insert_edge (id : digest) (e : GraphEdgeRecord) : database -> database * Z :=
  add_rows_to id (fun b => mkBundle (Generation b) (Nodes b) (Edges b ++ [edge_in id e]) (Evidence b) (Unresolved b)).
Definition insert_evidence (id : digest) (v : GraphEvidence) : database -> database * Z :=
  add_rows_to id (fun b => mkBundle (Generation b) (Nodes b) (Edges b) (Evidence b ++ [evidence_in id v]) (Unresolved b)).
(** [nullableGraphText]: a blank text is NULL, which is read as the empty text. *)
Definition nullableGraphText (value : gostring) : gostring := trimSpace value.
Definition unresolved_row (id : digest) (u : GraphUnresolved) : GraphUnresolved :=
  mkUnresolved id (u_UnresolvedID u) (u_UnresolvedKey u) (u_OwnerPath u) (u_SubjectKind u) (u_SelectorDigest u)
    (u_ReasonCode u) (u_Candidates u) (u_Backend u) (u_SourceDigest u) (u_CrossRID u) (u_RecoveryHintCode u)
    (nullableGraphText (u_SourceDocument u)) (nullableGraphText (u_SourceBlock u))
    (nullableGraphText (u_TargetKind u)) (nullableGraphText (u_TargetValue u)).
Definition insert_unresolved (id : digest) (u : GraphUnresolved) : database -> database * Z :=
  add_rows_to id (fun b => mkBundle (Generation b) (Nodes b) (Edges b) (Evidence b) (Unresolved b ++ [unresolved_row id u])).
Fixpoint exec_all {A} (f : A -> database -> database * Z) (l : list A) : Tx unit :=
  match l with
  | [] => mret tt
  | a :: l => _ ← exec (f a); exec_all f l
  end.
(** [json.Marshal] of the candidates must fit. *)
Definition jsonBounded (v : list gostring) : bool := length (jsonStrings v) <=? Z.to_nat 4096.
Fixpoint insert_all_unresolved (id : digest) (us : list GraphUnresolved) : Tx unit :=
  match us with
  | [] => mret tt
  | u :: us =>
      _ ← expect (jsonBounded (u_Candidates u)) (ErrRecord ErrGraphUnresolved);
      _ ← exec (insert_unresolved id u);
      insert_all_unresolved id us
  end.
(** The generation is there already. *)
Definition restage (g : GraphGeneration) : Tx unit :=
  found ← reads (fun t => attempt (load t (g_GenerationID g)));
  match found with
  | Err _ => throw ErrGraphGenerationCorrupt
  | Ok b =>
      let existing := Generation b in
      if oneOf (g_Status existing) ["active"; "retired"] then
        _ ← expect (graphGenerationImmutableMetadataEqual existing g) ErrGraphGenerationCorrupt;
        _ ← reads (fun t => or_else ErrGraphGenerationCorrupt (validateGraphGenerationConn t (g_GenerationID g)));
        mret tt
      else
        _ ← expect (generationMetadataEqual existing g) ErrGraphGenerationCorrupt;
        _ ← reads (fun t => or_else ErrGraphGenerationCorrupt (streamGraph b));
        mret tt
  end.
Definition stage_rows (b : GraphBundle) : Tx unit :=
  let id := id_of b in
  _ ← exec_all (insert_node id) (Nodes b);
  _ ← exec_all (insert_edge id) (Edges b);
  _ ← exec_all (insert_evidence id) (Evidence b);
  insert_all_unresolved id (Unresolved b).
Definition insert_bundle (b : GraphBundle) : Tx unit := fun x =>
  match exec (insert_generation (Generation b)) x with
  | (Ok _, x) => stage_rows b x
  | (Err ErrConstraint, x) => restage (Generation b) x
  | (Err e, x) => (Err e, x)
  end.
Definition stageGraphGenerationConn (b : GraphBundle) : Tx unit :=
  _ ← expect (has_status "staged" b) generation_invalid;
  b ← lift (map_err ErrRecord (Validate b));
  insert_bundle b.
Definition StageGraphGeneration (b : GraphBundle) : Op :=
  immediate (_ ← stageGraphGenerationConn b; commit).

(** * Activation *)
Definition validated (id : digest) : Tx GraphBundle := reads (fun t => validateGraphGenerationConn t id).
Definition ancestry (id : digest) (workspace : gostring) (replacement : option (option digest)) : Tx unit :=
  reads (fun t => validateGraphGenerationAncestry t id workspace replacement).
Definition pointer_consistent (old : gostring) (activeRows : Z) : bool :=
  negb ((bool_decide (old = []) && negb (activeRows =? 0)%Z) || (negb (bool_decide (old = [])) && negb (activeRows =? 1)%Z)).
(** The generation that will be replaced, and its history, are checked. *)
Definition check_prior (old : gostring) (expectedPrior : option digest) (activeRows : Z) (workspace : gostring) :
    Tx unit :=
  if bool_decide (old = []) then mret tt
  else
    _ ← reads (fun t => validateActiveGraphPriorForReplacement t old expectedPrior activeRows);
    ancestry old workspace None.
(** The writes that make [id] the active generation. *)
Definition publish_writes (id : digest) (staged : bool) (old : gostring) (publishedAt : Z) : Tx unit :=
  _ ← (if bool_decide (old = []) then mret tt
       else exec_one ErrGraphPointerConflict
              (update_generations (fun b => has_id old b && has_status "active" b) (set_status "retired")));
  _ ← exec_one ErrGraphPointerConflict
        (if staged
         then update_generations (fun b => has_id id b && has_status "staged" b) (set_active_after (pointer old) publishedAt)
         else update_generations (fun b => has_id id b && has_status "retired" b) (set_active publishedAt));
  _ ← exec (upsert graphPreviousMeta (pointer old));
  _ ← exec (upsert graphActiveMeta (Some id));
  mret tt.
(** From the checks of the status on, both variants agree. *)
Definition replace_active (g : GraphGeneration) (id : digest) (old : gostring) (publishedAt : Z) : Tx unit :=
  let staged := streq (g_Status g) "staged" in
  _ ← expect (staged || streq (g_Status g) "retired") generation_invalid;
  _ ← ancestry id (g_WorkspaceIdentity g) (if staged then Some (pointer old) else None);
  publish_writes id staged old publishedAt.
Definition same_pointer (expected : option digest) (old : gostring) : bool :=
  match expected with None => bool_decide (old = []) | Some p => streq p old && negb (bool_decide (old = [])) end.
Definition ActivateGraphGenerationAt (id : digest) (expectedPrior : option digest) (publishedAt : Z) : Op :=
  if (publishedAt =? 0)%Z then throw generation_invalid
  else immediate (
    b ← validated id;
    let g := Generation b in
    old ← meta_bytes graphActiveMeta;
    _ ← expect (same_pointer expectedPrior old) ErrGraphPointerConflict;
    activeRows ← active_rows;
    _ ← expect (pointer_consistent old activeRows) ErrGraphPointerConflict;
    _ ← check_prior old expectedPrior activeRows (g_WorkspaceIdentity g);
    if streq (g_Status g) "active" then
      _ ← expect (streq old id) ErrGraphPointerConflict;
      _ ← ancestry id (g_WorkspaceIdentity g) None;
      commit
    else
      _ ← replace_active g id old publishedAt;
      commit).

(** The variant inside the transaction of an index publication. *)
Definition dangling (old : gostring) (activeRows : Z) (expectedPrior : option digest) : bool :=
  bool_decide (old = []) && (activeRows =? 1)%Z && bool_decide (expectedPrior = None).
Definition resolve_old (old : gostring) (activeRows : Z) (expectedPrior : option digest) : Tx gostring :=
  if dangling old activeRows expectedPrior then
    rows ← reads_db (fun d => take 2 (matching (has_status "active") (generations d)));
    match rows with b :: _ => mret (id_of b) | [] => throw ErrNoRows end
  else mret old.
Definition activateGraphGenerationTx (id : digest) (expectedPrior : option digest) (publishedAt : Z) : Tx unit :=
  _ ← expect (negb (publishedAt =? 0)%Z) generation_invalid;
  b ← validated id;
  let g := Generation b in
  old ← meta_bytes graphActiveMeta;
  activeRows ← active_rows;
  if streq (g_Status g) "active" && negb (bool_decide (old = [])) && streq old id then
    _ ← reads (fun t => validateActiveGraphPriorForReplacement t old expectedPrior activeRows);
    ancestry id (g_WorkspaceIdentity g) None
  else
    old ← resolve_old old activeRows expectedPrior;
    _ ← expect (match expectedPrior with
                | Some p => streq p old
                | None => negb (bool_decide (old = []) && negb (activeRows =? 0)%Z)
                end) ErrGraphPointerConflict;
    _ ← expect (pointer_consistent old activeRows) ErrGraphPointerConflict;
    _ ← check_prior old expectedPrior activeRows (g_WorkspaceIdentity g);
    replace_active g id old publishedAt.

(** * The state that queries ask for *)
Definition setGraphRuntimeStateTx (state catalogGeneration : gostring) : Tx unit :=
  _ ← expect (oneOf state [GraphRuntimeFresh; GraphRuntimeStale]) generation_invalid;
  _ ← exec (upsert GraphRuntimeStateMeta (Some state));
  _ ← exec (if streq catalogGeneration [] then delete_meta GraphCatalogGenerationMeta
            else upsert GraphCatalogGenerationMeta (Some catalogGeneration));
  mret tt.
Definition SetGraphRuntimeState (state catalogGeneration : gostring) : Op :=
  if negb (oneOf state [GraphRuntimeFresh; GraphRuntimeStale]) then throw generation_invalid
  else immediate (_ ← setGraphRuntimeStateTx state catalogGeneration; commit).

(** * Rollback *)
Definition RollbackGraphGenerationAt (id : digest) (expectedCurrent : option digest) (publishedAt : Z) : Op :=
  if (publishedAt =? 0)%Z then throw generation_invalid
  else immediate (
    b ← validated id;
    let target := Generation b in
    _ ← expect (published target) generation_invalid;
    active ← meta_bytes graphActiveMeta;
    if negb (match expectedCurrent with Some c => same_pointer (Some c) active | None => false end) then
      (* the same rollback, asked for again *)
      match expectedCurrent with
      | Some current =>
          if streq (g_Status target) "active" && streq active id then
            previous ← reads (fun t => attempt (from_Q (meta_row t graphPreviousMeta)));
            match previous with
            | Ok (Some v) => if streq (default [] v) current then commit else throw ErrGraphPointerConflict
            | _ => throw ErrGraphPointerConflict
            end
          else throw ErrGraphPointerConflict
      | None => throw ErrGraphPointerConflict
      end
    else
      _ ← expect (is_digest active) ErrGraphPointerConflict;
      current ← reads (fun t => or_else ErrGraphPointerConflict (validateGraphGenerationConn t active));
      _ ← expect (has_status "active" current) ErrGraphPointerConflict;
      previous ← meta_bytes graphPreviousMeta;
      _ ← expect (negb (streq (g_Status target) "active")) ErrGraphPointerConflict;
      _ ← expect (negb (bool_decide (previous = [])) && streq previous id) ErrGraphPointerConflict;
      _ ← exec_one ErrGraphPointerConflict
            (update_generations (fun b => has_id active b && has_status "active" b) (set_status "retired"));
      _ ← exec_one ErrGraphPointerConflict
            (update_generations (fun b => has_id id b && has_status "retired" b) (set_active_after None publishedAt));
      _ ← exec_one ErrGraphPointerConflict (update_meta [graphActiveMeta] (Some id));
      _ ← exec_one ErrGraphPointerConflict (upsert graphPreviousMeta (Some active));
      n ← (fun x => match active_rows x with (Err _, x) => (Err ErrGraphPointerConflict, x) | r => r end : result store_error Z * txn);
      _ ← expect (n =? 1)%Z ErrGraphPointerConflict;
      commit).

(** * Compatibility *)
Definition compatibilityMeta : gostring := "graph_compatibility_state".
Definition legacy : gostring := "legacy-preserved-no-dual-write".
Definition dual : gostring := "dual-read-write".
Definition authoritative : gostring := "graph-authoritative".
Definition validGraphCompatibilityState (state : gostring) : bool := oneOf state [legacy; dual; authoritative].
Definition allowed_states (expected : gostring) : list gostring :=
  if streq expected legacy then [dual] else if streq expected dual then [authoritative; legacy] else [].
Definition value_is (key value : gostring) (d : database) : bool :=
  existsb (fun r => streq r.1 key && bool_decide (r.2 = Some value)) (meta d).
Definition compatibility_update (expected next : gostring) (d : database) : database * Z :=
  if value_is compatibilityMeta expected d then update_meta [compatibilityMeta] (Some next) d else (d, 0%Z).
(** Going back to the legacy mode retires the active generation and clears the pointers. *)
Definition retire_for_legacy : Tx unit :=
  active ← meta_bytes graphActiveMeta;
  activeRows ← active_rows;
  _ ← expect (pointer_consistent active activeRows) ErrGraphCompatibilityConflict;
  _ ← (if bool_decide (active = []) then mret tt
       else
         _ ← expect (is_digest active) ErrGraphCompatibilityConflict;
         exec_one ErrGraphCompatibilityConflict (update_generations (has_status "active") (set_status "retired")));
  _ ← exec (update_meta [graphActiveMeta; graphPreviousMeta] None);
  mret tt.
Definition TransitionGraphCompatibilityState (expected next : gostring) : Op :=
  if negb (validGraphCompatibilityState expected && validGraphCompatibilityState next)
     || negb (oneOf next (allowed_states expected))
  then throw ErrGraphMigrationTransition
  else immediate (
    row ← reads (fun t => from_Q (meta_row t compatibilityMeta));
    current ← match row with
              | None => throw ErrNoRows
              | Some None => throw (ErrQuery ErrDriver)
              | Some (Some v) => mret v
              end;
    _ ← expect (streq current expected) ErrGraphCompatibilityConflict;
    _ ← exec_one ErrGraphCompatibilityConflict (compatibility_update expected next);
    _ ← (if streq next legacy then retire_for_legacy else mret tt);
    commit).

(** * Cleaning up *)
Definition pending_migration (m : GraphMigration) : bool := oneOf (m_Status m) ["prepared"; "applying"; "validated"].
Definition in_workspace (w : gostring) (b : GraphBundle) : bool := streq (g_WorkspaceIdentity (Generation b)) w.
(** [created_at < ?]: SQL compares the texts of the times. *)
Definition older (cutoff : Z) (b : GraphBundle) : bool :=
  lessString (formatRFC3339Nano (g_CreatedAt (Generation b))) (formatRFC3339Nano cutoff).
Definition removable (w : gostring) (cutoff : Z) (b : GraphBundle) : bool :=
  in_workspace w b && oneOf (status_of b) ["invalid"; "retired"] && older cutoff b.
Definition points_to (id : digest) (o : option digest) : bool :=
  match o with Some p => streq p id | None => false end.
Definition remove_one (w : gostring) (cutoff : Z) (keep : list gostring) (id : digest) : Tx unit :=
  if oneOf id keep then mret tt
  else
    refs ← reads_db (fun d => matching (fun b => points_to id (g_PreviousGenerationID (Generation b))) (generations d));
    if negb (bool_decide (refs = [])) then mret tt
    else
      refs ← reads_db (fun d => matching (fun m => points_to id (m_PriorActiveGenerationID m)) (d_migrations d));
      if negb (bool_decide (refs = [])) then mret tt
      else
        _ ← exec (delete_generations (fun b => has_id id b && removable w cutoff b));
        mret tt.
Fixpoint remove_all (w : gostring) (cutoff : Z) (keep : list gostring) (ids : list digest) : Tx unit :=
  match ids with
  | [] => mret tt
  | id :: ids => _ ← remove_one w cutoff keep id; remove_all w cutoff keep ids
  end.
Definition pointer_text (v : gostring) : Tx unit :=
  expect (bool_decide (v = []) || is_digest v) ErrGraphGenerationCorrupt.
Definition CleanupGraphGenerations (w : gostring) (cutoff : Z) : Op :=
  if streq (trimSpace w) [] || (cutoff =? 0)%Z then throw generation_invalid
  else immediate (
    pending ← reads_db (fun d => matching pending_migration (d_migrations d));
    staged ← reads_db (fun d => matching (fun b => in_workspace w b && has_status "staged" b) (generations d));
    _ ← expect (bool_decide (pending = []) && bool_decide (staged = [])) ErrGraphCrashRecoveryRequired;
    active ← meta_bytes graphActiveMeta;
    previous ← meta_bytes graphPreviousMeta;
    _ ← pointer_text active;
    _ ← pointer_text previous;
    candidates ← reads_db (fun d => matching (removable w cutoff) (generations d));
    _ ← remove_all w cutoff [active; previous] (map id_of candidates);
    commit).

(** * Migrations *)
Definition allowed_migration (expected : gostring) : list gostring :=
  if streq expected "prepared" then ["applying"; "rolled_back"; "failed"]
  else if streq expected "applying" then ["validated"; "rolled_back"; "failed"]
  else if streq expected "validated" then ["committed"; "rolled_back"; "failed"] else [].
Definition terminal (status : gostring) : bool := oneOf status ["committed"; "rolled_back"; "failed"].
Definition set_migration (status errorCode : gostring) (completedAt : option Z) (m : GraphMigration) : GraphMigration :=
  mkMigration (m_MigrationID m) (m_FromVersion m) (m_ToVersion m) status (m_PreflightDigest m) (m_BackupDigest m)
    (m_PriorActiveGenerationID m) (m_StartedAt m) completedAt (Some errorCode).
Definition update_migration (id expected next errorCode : gostring) (completedAt : option Z) (d : database) :
    database * Z :=
  let cond m := streq (m_MigrationID m) id && streq (m_Status m) expected in
  (with_migrations (map (fun m => if cond m then set_migration next errorCode completedAt m else m) (d_migrations d)) d,
   lenZ (matching cond (d_migrations d))).
Definition TransitionGraphMigration (id expected next errorCode : gostring) (now : Z) : Op :=
  if streq id [] || (now =? 0)%Z || negb (oneOf next (allowed_migration expected))
     || (streq next "failed" && streq errorCode [])
  then throw ErrGraphMigrationTransition
  else immediate (
    _ ← exec_one ErrGraphMigrationTransition
          (update_migration id expected next errorCode (if terminal next then Some now else None));
    commit).

(** * Recovery after a crash *)
Definition graphRecoveryError : gostring := "GPH_CRASH_RECOVERY_REQUIRED".
(** A migration past its preparation can be rolled back when its prior generation is intact. *)
Definition prior_intact (m : GraphMigration) : Tx bool :=
  if negb (is_digest (m_PreflightDigest m) && is_digest (m_BackupDigest m)) then mret false
  else match m_PriorActiveGenerationID m with
       | None => mret true
       | Some p =>
           r ← reads (fun t => attempt (validateGraphGenerationConn t p));
           mret (match r with Ok b => has_status "retired" b | Err _ => false end)
       end.
Definition recover_migration (now : Z) (m : GraphMigration) : Tx unit :=
  ok ← (if streq (m_Status m) "prepared" then mret true else prior_intact m);
  let outcome : gostring * gostring :=
    if (ok : bool) then ("rolled_back" : gostring, "GPH_CRASH_RECOVERY_ROLLBACK" : gostring)
    else ("failed" : gostring, graphRecoveryError) in
  exec_one ErrAffected (update_migration (m_MigrationID m) (m_Status m) outcome.1 outcome.2 (Some now)).
Fixpoint recover_migrations (now : Z) (ms : list GraphMigration) : Tx unit :=
  match ms with
  | [] => mret tt
  | m :: ms => _ ← recover_migration now m; recover_migrations now ms
  end.
(** The rows of a staged generation are deleted, table by table, and its header is marked. *)
Definition drop_evidence (b : GraphBundle) : GraphBundle := mkBundle (Generation b) (Nodes b) (Edges b) [] (Unresolved b).
Definition drop_edges (b : GraphBundle) : GraphBundle :=
  mkBundle (Generation b) (Nodes b) [] (matching (fun v => bool_decide (v_EdgeID v = None)) (Evidence b)) (Unresolved b).
Definition drop_nodes (b : GraphBundle) : GraphBundle :=
  mkBundle (Generation b) [] [] (matching (fun v => bool_decide (v_NodeID v = None)) (Evidence b)) (Unresolved b).
Definition drop_unresolved (b : GraphBundle) : GraphBundle := mkBundle (Generation b) (Nodes b) (Edges b) (Evidence b) [].
Definition abandon (w : gostring) (id : digest) : Tx unit :=
  _ ← exec (update_generations (has_id id) drop_evidence);
  _ ← exec (update_generations (has_id id) drop_edges);
  _ ← exec (update_generations (has_id id) drop_nodes);
  _ ← exec (update_generations (has_id id) drop_unresolved);
  exec_one ErrAffected
    (update_generations (fun b => has_id id b && in_workspace w b && has_status "staged" b) (set_invalid graphRecoveryError)).
Fixpoint abandon_all (w : gostring) (ids : list digest) : Tx unit :=
  match ids with
  | [] => mret tt
  | id :: ids => _ ← abandon w id; abandon_all w ids
  end.
(** Whether the pointer names a valid active generation; if it names another one, that is
    marked invalid. *)
Definition check_active (active : gostring) : Tx bool :=
  if negb (is_digest active) then mret false
  else
    r ← reads (fun t => attempt (validateGraphGenerationConn t active));
    if match r with Ok b => has_status "active" b | Err _ => false end then mret true
    else
      _ ← exec_one ErrAffected
            (update_generations (fun b => has_id active b && oneOf (status_of b) ["active"; "retired"; "staged"])
               (set_invalid graphRecoveryError));
      mret false.
(** Whether the previous generation could be made active again. *)
Definition restore_previous (previous : gostring) (now : Z) : Tx bool :=
  if negb (is_digest previous) then mret false
  else
    r ← reads (fun t => attempt (validateGraphGenerationConn t previous));
    if match r with Ok b => has_status "retired" b | Err _ => false end then
      _ ← exec_one ErrAffected
            (update_generations (fun b => has_id previous b && has_status "retired" b)
               (on_header (fun g => set_publication "active" [] (g_PreviousGenerationID g) now g)));
      mret true
    else mret false.
Definition RecoverGraphState (w : gostring) (now : Z) : Op :=
  if streq w [] then throw ErrAffected
  else immediate (
    migrations ← reads_db (fun d => matching pending_migration (d_migrations d));
    _ ← recover_migrations now migrations;
    staged ← reads_db (fun d => matching (fun b => in_workspace w b && has_status "staged" b) (generations d));
    _ ← abandon_all w (map id_of staged);
    active ← meta_bytes graphActiveMeta;
    previous ← meta_bytes graphPreviousMeta;
    sound ← check_active active;
    if (sound : bool) then commit
    else
      restored ← restore_previous previous now;
      if negb restored then (_ ← commit; throw ErrGraphCrashRecoveryRequired)
      else
        _ ← exec_one ErrGraphCrashRecoveryRequired (update_meta [graphActiveMeta] (Some previous));
        _ ← exec_one ErrGraphCrashRecoveryRequired (update_meta [graphPreviousMeta] None);
        commit).
End operations.
