(* ===== verification/GraphPublishFacts.v ===== *)
(** Properties of the transactions that publish generations: a transaction that fails
    leaves the data base as it was, every reachable data base has at most one active
    generation, which the pointer names, and what each operation does when it succeeds. *)
From S2P Require Import Prelude GoStrings GoStringFacts GoSort GoNum GoTime Graph GraphFacts GraphStore GraphStoreFacts IndexTables GraphValidate GraphValidateFacts GraphPublish.

Local Open Scope go_scope.

(** * Atomicity *)

(** A computation that commits nothing. *)
Definition quiet {A} (m : Tx A) : Prop := forall x, x_committed (snd (m x)) = x_committed x.
(** A computation that ends by committing its work, or fails and has committed nothing. *)
Definition transactional {A} (m : Tx A) : Prop := forall x,
  match m x with
  | (Ok _, y) => x_committed y = x_work y
  | (Err _, y) => x_committed y = x_committed x
  end.

Section rules.
Context `{Connection}.

Lemma quiet_ret {A} (a : A) : quiet (mret a).
Proof. done. Qed.
Lemma quiet_throw {A} e : quiet (throw (A:=A) e).
Proof. done. Qed.
Lemma quiet_lift {A} r : quiet (lift (A:=A) r).
Proof. done. Qed.
Lemma quiet_expect b e : quiet (expect b e).
Proof. by destruct b. Qed.
Lemma quiet_reads {A} (m : tables -> R A) : quiet (reads m).
Proof. intros x. unfold reads. by destruct (m _ _). Qed.
Lemma quiet_reads_db {A} (rows : database -> list A) : quiet (reads_db rows).
Proof. intros x. unfold reads_db. by destruct (from_Q _ _). Qed.
Lemma quiet_exec f : quiet (exec f).
Proof. intros x. unfold exec. destruct (sql_fails _); [done|]. destruct (f _). by destruct (constraints _). Qed.
Lemma quiet_bind {A B} (m : Tx A) (f : A -> Tx B) : quiet m -> (forall a, quiet (f a)) -> quiet (m ≫= f).
Proof.
  intros Hm Hf x. specialize (Hm x). unfold mbind, eff_bind. destruct (m x) as [[a|e] y]; cbn in *; [|done].
  by rewrite Hf.
Qed.
Lemma transactional_commit : transactional commit.
Proof. intros x. unfold commit. by destruct (sql_fails _). Qed.
Lemma transactional_throw {A} e : transactional (throw (A:=A) e).
Proof. done. Qed.
Lemma transactional_bind {A B} (m : Tx A) (f : A -> Tx B) :
  quiet m -> (forall a, transactional (f a)) -> transactional (m ≫= f).
Proof.
  intros Hm Hf x. specialize (Hm x). unfold mbind, eff_bind. destruct (m x) as [[a|e] y]; cbn in *; [|done].
  specialize (Hf a y). destruct (f a y) as [[b|e] z]; congruence.
Qed.
End rules.

Create HintDb quiet discriminated.
#[export] Hint Resolve quiet_ret quiet_throw quiet_lift quiet_expect quiet_reads quiet_reads_db quiet_exec : quiet.
Ltac quiet :=
  repeat match goal with
  | |- forall _, _ => intros ?
  | |- quiet (_ ≫= _) => apply quiet_bind; [|intros ?]
  | |- quiet (if ?b then _ else _) => destruct b
  | |- quiet (match ?x with _ => _ end) => destruct x
  | |- quiet (let _ := _ in _) => cbv zeta
  | |- quiet _ => solve [eauto with quiet]
  end.
Ltac transactional :=
  repeat match goal with
  | |- forall _, _ => intros ?
  | |- transactional commit => apply transactional_commit
  | |- transactional (throw _) => apply transactional_throw
  | |- transactional (_ ≫= _) => apply transactional_bind; [quiet|intros ?]
  | |- transactional (let _ := _ in _) => cbv zeta
  | |- transactional (if ?b then _ else _) => destruct b
  | |- transactional (match ?x with _ => _ end) => destruct x
  | |- transactional _ => solve [eauto with quiet]
  end.

Section quiet_parts.
Context `{Connection} `{UnicodeTables} `{NFC} `{UrlParser} `{SHA256}.

Lemma quiet_exec_one e f : quiet (exec_one e f).
Proof. unfold exec_one. quiet. Qed.
Lemma quiet_meta_bytes key : quiet (meta_bytes key).
Proof. unfold meta_bytes. quiet. Qed.
Lemma quiet_active_rows : quiet active_rows.
Proof. unfold active_rows. quiet. Qed.
Hint Resolve quiet_exec_one quiet_meta_bytes quiet_active_rows : quiet.
Lemma quiet_exec_all {A} (f : A -> database -> database * Z) l : quiet (exec_all f l).
Proof. induction l; cbn [exec_all]; quiet. Qed.
Lemma quiet_insert_all_unresolved id us : quiet (insert_all_unresolved id us).
Proof. induction us; cbn [insert_all_unresolved]; quiet. Qed.
Hint Resolve @quiet_exec_all quiet_insert_all_unresolved : quiet.
Lemma quiet_stage_rows b : quiet (stage_rows b).
Proof. unfold stage_rows. quiet. Qed.
Lemma quiet_restage g : quiet (restage g).
Proof. unfold restage. quiet. Qed.
Hint Resolve quiet_stage_rows quiet_restage : quiet.
Lemma quiet_insert_bundle b : quiet (insert_bundle b).
Proof.
  intros x. unfold insert_bundle. pose proof (quiet_exec (insert_generation (Generation b)) x) as Hx.
  destruct (exec _ x) as [[n|[]] y]; cbn in Hx |- *; rewrite <- ?Hx; try done;
    [apply quiet_stage_rows | apply quiet_restage].
Qed.
Hint Resolve quiet_insert_bundle : quiet.
Lemma quiet_stage b : quiet (stageGraphGenerationConn b).
Proof. unfold stageGraphGenerationConn. quiet. Qed.
Lemma quiet_ancestry id w o : quiet (ancestry id w o).
Proof. unfold ancestry. quiet. Qed.
Lemma quiet_validated id : quiet (validated id).
Proof. unfold validated. quiet. Qed.
Hint Resolve quiet_stage quiet_ancestry quiet_validated : quiet.
Lemma quiet_check_prior old e n w : quiet (check_prior old e n w).
Proof. unfold check_prior. quiet. Qed.
Lemma quiet_publish_writes id s old at_ : quiet (publish_writes id s old at_).
Proof. unfold publish_writes. quiet. Qed.
Hint Resolve quiet_check_prior quiet_publish_writes : quiet.
Lemma quiet_replace_active g id old at_ : quiet (replace_active g id old at_).
Proof. unfold replace_active. quiet. Qed.
Lemma quiet_resolve_old old n e : quiet (resolve_old old n e).
Proof. unfold resolve_old. quiet. Qed.
Hint Resolve quiet_replace_active quiet_resolve_old : quiet.
Lemma quiet_activateTx id e at_ : quiet (activateGraphGenerationTx id e at_).
Proof. unfold activateGraphGenerationTx. quiet. Qed.
Lemma quiet_setRuntime s c : quiet (setGraphRuntimeStateTx s c).
Proof. unfold setGraphRuntimeStateTx. quiet. Qed.
Lemma quiet_retire_for_legacy : quiet retire_for_legacy.
Proof. unfold retire_for_legacy. quiet. Qed.
Lemma quiet_remove_one w c k id : quiet (remove_one w c k id).
Proof. unfold remove_one. quiet. Qed.
Hint Resolve quiet_activateTx quiet_setRuntime quiet_retire_for_legacy quiet_remove_one : quiet.
Lemma quiet_remove_all w c k ids : quiet (remove_all w c k ids).
Proof. induction ids; cbn [remove_all]; quiet. Qed.
Lemma quiet_pointer_text v : quiet (pointer_text v).
Proof. unfold pointer_text. quiet. Qed.
Lemma quiet_prior_intact m : quiet (prior_intact m).
Proof. unfold prior_intact. quiet. Qed.
Hint Resolve quiet_remove_all quiet_pointer_text quiet_prior_intact : quiet.
Lemma quiet_recover_migrations now ms : quiet (recover_migrations now ms).
Proof. induction ms; cbn [recover_migrations]; unfold recover_migration; quiet. Qed.
Lemma quiet_abandon_all w ids : quiet (abandon_all w ids).
Proof. induction ids; cbn [abandon_all]; unfold abandon; quiet. Qed.
Lemma quiet_check_active a : quiet (check_active a).
Proof. unfold check_active. quiet. Qed.
Lemma quiet_restore_previous p now : quiet (restore_previous p now).
Proof. unfold restore_previous. quiet. Qed.
End quiet_parts.
#[export] Hint Resolve quiet_exec_one quiet_meta_bytes quiet_active_rows quiet_stage quiet_ancestry quiet_validated
  quiet_check_prior quiet_replace_active quiet_activateTx quiet_setRuntime quiet_retire_for_legacy quiet_remove_all
  quiet_pointer_text quiet_recover_migrations quiet_abandon_all quiet_check_active quiet_restore_previous : quiet.

(** * Successful runs

    [gives m w a w']: started on the working copy [w], [m] can return [a] and leave [w']. *)
Definition gives {A} (m : Tx A) (w : database) (a : A) (w' : database) : Prop :=
  exists x y, x_work x = w /\ m x = (Ok a, y) /\ x_work y = w'.

Section gives.
Context `{Connection}.

Lemma gives_bind {A B} (m : Tx A) (f : A -> Tx B) w b w' :
  gives (m ≫= f) w b w' -> exists a v, gives m w a v /\ gives (f a) v b w'.
Proof.
  intros (x & y & <- & (a & z & Hm & Hf)%bind_run & <-). exists a, (x_work z).
  split; [by exists x, z | by exists z, y].
Qed.
Lemma gives_ret {A} (a : A) w b w' : gives (mret a) w b w' -> b = a /\ w' = w.
Proof. by intros (x & y & <- & [= <- <-] & <-). Qed.
Lemma gives_throw {A} e w (b : A) w' : gives (throw e) w b w' -> False.
Proof. by intros (x & y & _ & [=] & _). Qed.
Lemma gives_lift {A} r w (b : A) w' : gives (lift r) w b w' -> r = Ok b /\ w' = w.
Proof. by intros (x & y & <- & [= -> <-] & <-). Qed.
Lemma gives_expect b e w u w' : gives (expect b e) w u w' -> b = true /\ w' = w.
Proof. by destruct b; intros (x & y & <- & [=] & <-); subst. Qed.
Lemma gives_reads {A} (m : tables -> R A) w a w' :
  gives (reads m) w a w' -> w' = w /\ exists n k, m (d_tables w) n = (Ok a, k).
Proof.
  intros (x & y & <- & Hm & <-). unfold reads in Hm. destruct (m _ _) as [r k] eqn:E. injection Hm as -> <-. eauto.
Qed.
Lemma gives_reads_db {A} (rows : database -> list A) w a w' : gives (reads_db rows) w a w' -> a = rows w /\ w' = w.
Proof.
  intros (x & y & <- & Hm & <-). unfold reads_db in Hm. destruct (from_Q _ _) as [r k] eqn:E. injection Hm as -> <-.
  split; [|done]. by eapply read_query_ok.
Qed.
Lemma gives_exec f w n w' : gives (exec f) w n w' -> f w = (w', n) /\ constraints w' = true.
Proof.
  intros (x & y & <- & Hm & <-). unfold exec in Hm. destruct (sql_fails _); [done|].
  destruct (f _) as [d k] eqn:E. destruct (constraints d) eqn:Hc; [|done]. by injection Hm as <- <-.
Qed.
Lemma gives_exec_one e f w u w' : gives (exec_one e f) w u w' -> f w = (w', 1%Z) /\ constraints w' = true.
Proof.
  intros (n & v & [Hf Hc]%gives_exec & [Hn ->]%gives_expect)%gives_bind. apply Z.eqb_eq in Hn as ->. done.
Qed.
Lemma gives_commit w u w' : gives commit w u w' -> w' = w.
Proof. intros (x & y & <- & Hm & <-). unfold commit in Hm. destruct (sql_fails _); [done|]. by injection Hm as _ <-. Qed.
(** A transaction commits what its body leaves. *)
Lemma immediate_ok {A} (body : Tx A) n d a k d' : transactional body ->
  immediate body (n, d) = (Ok a, (k, d')) -> gives body d a d'.
Proof.
  intros Ht. unfold immediate. destruct (sql_fails n); [done|]. specialize (Ht (mkTxn (S n) d d)).
  destruct (body _) as [[b|e] y] eqn:E; [|done]. intros [= <- _ <-]. exists (mkTxn (S n) d d), y. by rewrite Ht.
Qed.
Lemma immediate_err {A} (body : Tx A) n d e k d' : transactional body ->
  immediate body (n, d) = (Err e, (k, d')) -> d' = d.
Proof.
  intros Ht. unfold immediate. destruct (sql_fails n); [by intros [= _ _ <-]|]. specialize (Ht (mkTxn (S n) d d)).
  destruct (body _) as [[b|e'] y] eqn:E; [done|]. by intros [= _ _ <-].
Qed.
End gives.

(** Take a successful run apart. *)
Ltac tx_inv H :=
  lazymatch type of H with
  | gives (_ ≫= _) _ _ _ =>
      let a := fresh "a" in let v := fresh "w" in let Ha := fresh "Hg" in
      apply gives_bind in H as (a & v & Ha & H); tx_inv Ha; cbv beta zeta in H; tx_inv H
  | gives (mret _) _ _ _ => apply gives_ret in H as [? ?]; subst
  | gives (throw _) _ _ _ => destruct (gives_throw _ _ _ _ H)
  | gives (lift _) _ _ _ => let E := fresh in apply gives_lift in H as [H E]; subst
  | gives (expect _ _) _ _ _ => let E := fresh in apply gives_expect in H as [H E]; subst
  | gives (reads _) _ _ _ => let E := fresh in apply gives_reads in H as [E H]; subst
  | gives (reads_db _) _ _ _ => apply gives_reads_db in H as [? ?]; subst
  | gives (exec_one _ _) _ _ _ => let E := fresh "Hcon" in apply gives_exec_one in H as [H E]
  | gives (exec _) _ _ _ => let E := fresh "Hcon" in apply gives_exec in H as [H E]
  | gives commit _ _ _ => apply gives_commit in H; subst
  | _ => idtac
  end.

(** * The invariant *)

(** The value of a key, as it is scanned into bytes. *)
Definition meta_of (key : gostring) (d : database) : gostring :=
  default [] (mjoin (snd <$> head (matching (fun r => streq r.1 key) (meta d)))).
Definition row_of (id : digest) (d : database) : option GraphBundle := find_gen id (generations d).

Section meta_facts.
Context `{Connection}.
Lemma gives_meta_bytes key w a w' : gives (meta_bytes key) w a w' -> a = meta_of key w /\ w' = w.
Proof.
  unfold meta_bytes. intros Hg. tx_inv Hg. destruct Hg as (n & k & Hm). split; [|done].
  apply bind_run in Hm as (row & j & Hq & Hr). apply ret_run in Hr as [-> _]. apply from_Q_ok in Hq.
  unfold meta_row, queryRow in Hq. apply bind_run in Hq as (r & i & Hq & Hr). apply ret_run in Hr as [-> _].
  apply bind_run in Hq as (rows & j' & Hq & Hr). apply query_ok in Hq as ->. by apply ret_run in Hr as [-> _].
Qed.
Lemma gives_active_rows w a w' :
  gives active_rows w a w' -> a = lenZ (matching (has_status "active") (generations w)) /\ w' = w.
Proof. unfold active_rows. intros Hg. by tx_inv Hg. Qed.

(** A lookup after a write to the rows of [workspace_meta]. *)
Lemma head_set_value keys v key m :
  head (matching (fun r : gostring * option gostring => streq r.1 key) (set_value keys v m))
  = (fun r => if oneOf r.1 keys then (r.1, v) else r) <$> head (matching (fun r => streq r.1 key) m).
Proof.
  induction m as [|r m IH]; [done|]. unfold matching, set_value in *. cbn [map]. rewrite !filter_cons.
  assert ((if oneOf r.1 keys then (r.1, v) else r).1 = r.1) as -> by by destruct (oneOf _ _).
  case_decide; [done|apply IH].
Qed.
Lemma head_matching_Some {A} (p : A -> bool) l x : head (matching p l) = Some x -> p x = true /\ x ∈ l.
Proof.
  intros Hh. apply (list_elem_of_filter (fun x => p x = true)).
  fold (matching p l). destruct (matching p l); [done|]. injection Hh as ->. left.
Qed.
Lemma has_key_head key (m : list (gostring * option gostring)) :
  has_key key m = bool_decide (is_Some (head (matching (fun r => streq r.1 key) m))).
Proof.
  induction m as [|r m IH]; [done|]. unfold matching, has_key in *. cbn [existsb]. rewrite filter_cons, IH.
  destruct (streq r.1 key) eqn:E; case_decide; try done.
Qed.
Lemma meta_of_set keys v key d : oneOf key keys = true ->
  meta_of key (with_meta (set_value keys v (meta d)) d) = if has_key key (meta d) then default [] v else [].
Proof.
  intros Hk. rewrite has_key_head. unfold meta_of, meta at 1. cbn [with_meta d_tables t_meta]. rewrite head_set_value.
  destruct (head _) as [r|] eqn:Hh; [|done]. apply head_matching_Some in Hh as [Hr%streq_true _].
  cbn [fmap option_fmap option_map]. by rewrite Hr, Hk.
Qed.
Lemma meta_of_other keys v key d : oneOf key keys = false ->
  meta_of key (with_meta (set_value keys v (meta d)) d) = meta_of key d.
Proof.
  intros Hk. unfold meta_of, meta at 1. cbn [with_meta d_tables t_meta]. rewrite head_set_value.
  destruct (head _) as [r|] eqn:Hh; [|done]. apply head_matching_Some in Hh as [Hh%streq_true _].
  cbn [fmap option_fmap option_map]. by rewrite Hh, Hk.
Qed.
Lemma head_matching_app {A} (p : A -> bool) l l' :
  head (matching p (l ++ l')) = match head (matching p l) with Some x => Some x | None => head (matching p l') end.
Proof. unfold matching. rewrite filter_app. by destruct (filter _ l). Qed.
Lemma oneOf_single a b : oneOf a [b] = streq a b.
Proof. unfold oneOf. destruct (streq a b) eqn:E; case_bool_decide as Hin; try done; [apply streq_true in E|apply streq_false in E]; set_solver. Qed.
(** Keys that are written differ from keys that are read, or are the same. *)
Lemma meta_of_upsert key v key' d :
  meta_of key' (fst (upsert key v d)) = if streq key' key then default [] v else meta_of key' d.
Proof.
  unfold upsert. cbn [fst]. rewrite <- oneOf_single. destruct (has_key key (meta d)) eqn:Hk.
  - destruct (oneOf key' [key]) eqn:E; [|by apply meta_of_other].
    rewrite meta_of_set by done. rewrite oneOf_single in E. apply streq_true in E as ->. by rewrite Hk.
  - rewrite has_key_head in Hk. unfold meta_of, meta at 1. cbn [with_meta d_tables t_meta].
    rewrite head_matching_app. rewrite oneOf_single. unfold matching at 2. rewrite filter_cons. cbn [fst].
    destruct (streq key' key) eqn:E.
    + apply streq_true in E as ->. rewrite decide_True by apply streq_refl.
      apply bool_decide_eq_false in Hk. destruct (head _); [by destruct Hk; eexists | done].
    + assert (streq key key' = false) as E' by (apply streq_false; apply streq_false in E; congruence).
      rewrite decide_False by congruence. unfold meta_of. by destruct (head (matching (fun r => streq r.1 key') (meta d))).
Qed.
Lemma matching_some {A} (p : A -> bool) l x : x ∈ matching p l <-> p x = true /\ x ∈ l.
Proof. apply (list_elem_of_filter (fun x => p x = true)). Qed.
Lemma matching_one {A} (p : A -> bool) l : lenZ (matching p l) = 1%Z -> exists x, x ∈ l /\ p x = true.
Proof.
  intros Hl. destruct (matching p l) as [|x l'] eqn:E; [done|]. assert (Hx : x ∈ x :: l') by left.
  rewrite <- E in Hx. apply matching_some in Hx as [? ?]. by exists x.
Qed.
(** An update that reports one row has found its key. *)
Lemma update_one key v d w : update_meta [key] v d = (w, 1%Z) ->
  w = with_meta (set_value [key] v (meta d)) d /\ meta_of key w = default [] v.
Proof.
  unfold update_meta. intros [= <- Hn]. split; [done|]. rewrite meta_of_set by (by rewrite oneOf_single, streq_refl).
  rewrite has_key_head. case_bool_decide as Hs; [done|]. destruct Hs. unfold lenZ in Hn.
  assert (matching (fun r => oneOf r.1 [key]) (meta d) = matching (fun r => streq r.1 key) (meta d)) as Hm.
  { unfold matching. apply list_filter_iff. intros r. by rewrite oneOf_single. }
  rewrite Hm in Hn. destruct (matching _ _); [done|]. by eexists.
Qed.
End meta_facts.

Section invariant.
Context `{UnicodeTables} `{NFC} `{UrlParser} `{SHA256}.

Definition is_active (b : GraphBundle) : Prop := has_status "active" b = true.
Definition is_published (b : GraphBundle) : Prop := published (Generation b) = true.
(** Every active generation is the one that the pointer names. *)
Definition pointed (d : database) : Prop :=
  forall b, b ∈ generations d -> is_active b -> id_of b = meta_of graphActiveMeta d.
(** The rows of a published generation are those that its identifier was made from. *)
Definition intact (d : database) : Prop :=
  forall b, b ∈ generations d -> is_published b -> sound graphContentValidationCurrent b.
Record invariant (d : database) : Prop := {
  inv_constraints : constraints d = true;
  inv_pointed : pointed d;
  inv_intact : intact d }.

Lemma active_published b : is_active b -> is_published b.
Proof.
  unfold is_active, is_published, has_status, status_of, published. intros ->%streq_true. done.
Qed.
Lemma sound_header mode s e p t b :
  sound mode b -> sound mode (on_header (fun g => set_publication s e p t g) b).
Proof. destruct 1; constructor; assumption. Qed.
Lemma status_set s e p t b : status_of (on_header (fun g => set_publication s e p t g) b) = s.
Proof. done. Qed.
Lemma id_set f b : g_GenerationID (f (Generation b)) = id_of b -> id_of (on_header f b) = id_of b.
Proof. done. Qed.

(** What the declared constraints say of identifiers. *)
Lemma constraints_ids d : constraints d = true ->
  NoDup (map id_of (generations d)) /\ (forall b, b ∈ generations d -> length (id_of b) = 32).
Proof.
  unfold constraints, unique. intros Hc. bool_to_prop. split; [done|]. intros b Hb%list_elem_of_In.
  match goal with E : forallb (bundle_checks _) _ = true |- _ => rewrite forallb_forall in E; specialize (E b Hb) end.
  unfold bundle_checks, generation_checks, is_digest in *. bool_to_prop. cbn [forallb] in *. by bool_to_prop.
Qed.
Lemma same_id d b b' : constraints d = true -> b ∈ generations d -> b' ∈ generations d -> id_of b = id_of b' -> b = b'.
Proof.
  intros [Hnd _]%constraints_ids Hb Hb' Heq.
  apply list_elem_of_lookup in Hb as [i Hi]. apply list_elem_of_lookup in Hb' as [j Hj].
  assert (i = j) as ->; [|congruence].
  eapply (NoDup_lookup (map id_of (generations d))); [done|..];
    change (map id_of (generations d)) with (id_of <$> generations d); rewrite list_lookup_fmap.
  - rewrite Hi. done.
  - by rewrite Hj, Heq.
Qed.
Lemma row_of_elem id d b : row_of id d = Some b -> b ∈ generations d /\ id_of b = id.
Proof. intros [Hs%streq_true Hin]%head_matching_Some. done. Qed.
Lemma row_of_unique d b : constraints d = true -> b ∈ generations d -> row_of (id_of b) d = Some b.
Proof.
  intros Hc Hb. unfold row_of, find_gen. destruct (head _) as [b'|] eqn:Hh.
  - f_equal. apply row_of_elem in Hh as [Hin Hid]. by eapply same_id.
  - exfalso. assert (Hin : b ∈ matching (fun b' => streq (g_GenerationID (Generation b')) (id_of b)) (generations d)).
    { apply matching_some. split; [apply streq_refl|done]. }
    destruct (matching _ _); [set_solver|done].
Qed.

(** ** Changes that publish nothing *)
Record modest (w w' : database) : Prop := {
  mo_constraints : constraints w = true -> constraints w' = true;
  mo_pointer : meta_of graphActiveMeta w' = meta_of graphActiveMeta w;
  mo_rows : forall b, b ∈ generations w' -> is_published b -> b ∈ generations w }.
Lemma modest_refl w : modest w w.
Proof. by constructor. Qed.
Lemma modest_trans w1 w2 w3 : modest w1 w2 -> modest w2 w3 -> modest w1 w3.
Proof. intros [C1 P1 R1] [C2 P2 R2]. constructor; [eauto|congruence|eauto]. Qed.
Lemma modest_invariant w w' : modest w w' -> invariant w -> invariant w'.
Proof.
  intros [Hcon Hp Hr] [Hc Hpt Hin]. constructor; [auto| |].
  - intros b Hb Ha. rewrite Hp. apply Hpt; [|done]. by apply Hr; [|apply active_published].
  - intros b Hb Ha. apply Hin; eauto.
Qed.

Context `{Connection}.
Implicit Types w : database.
Lemma modest_meta m w w' : constraints w' = true -> with_meta m w = w' ->
  meta_of graphActiveMeta w' = meta_of graphActiveMeta w -> modest w w'.
Proof. intros Hc <- Hm. by constructor. Qed.
Lemma modest_upsert key v w n w' : gives (exec (upsert key v)) w n w' -> streq graphActiveMeta key = false -> modest w w'.
Proof.
  intros [Hf Hc]%gives_exec Hk. pose proof (meta_of_upsert key v graphActiveMeta w) as Hm.
  rewrite Hf, Hk in Hm. injection Hf as Hw Hn. by eapply modest_meta.
Qed.
Lemma modest_delete_meta key w n w' : gives (exec (delete_meta key)) w n w' -> streq graphActiveMeta key = false -> modest w w'.
Proof.
  intros [Hf Hc]%gives_exec Hk. injection Hf as Hw Hn. eapply modest_meta; [done..|].
  subst w'. unfold meta_of, meta at 1. cbn [with_meta d_tables t_meta]. do 3 f_equal. f_equal. unfold matching.
  rewrite list_filter_filter. apply list_filter_iff. intros r. split; [by intros [? ?]|]. intros Hr. split; [done|].
  apply streq_true in Hr as ->. by rewrite Hk.
Qed.
(** An update whose results are not published. *)
Lemma modest_update cond f w w' n : update_generations cond f w = (w', n) -> constraints w' = true ->
  (forall b, b ∈ generations w -> cond b = true -> ~ is_published (f b)) -> modest w w'.
Proof.
  intros [= <- <-] Hc Hf. constructor; [done..|]. intros b (b' & -> & Hb')%list_elem_of_fmap Hp.
  destruct (cond b') eqn:Hcond; [|done]. by destruct (Hf b' Hb' Hcond).
Qed.
Lemma modest_delete cond w w' n : delete_generations cond w = (w', n) -> constraints w' = true -> modest w w'.
Proof. intros [= <- <-] Hc. constructor; [done..|]. by intros b [_ ?]%matching_some _. Qed.
Lemma modest_migrations ms w w' : constraints w' = true -> with_migrations ms w = w' -> modest w w'.
Proof. intros Hc <-. by constructor. Qed.

(** ** Staging *)
Definition unpublished (id : digest) (w : database) : Prop :=
  forall b, b ∈ generations w -> has_id id b = true -> ~ is_published b.
(** [m] keeps what is published, and the generation [id] is not. *)
Definition stages {A} (id : digest) (m : Tx A) : Prop :=
  forall w a w', gives m w a w' -> unpublished id w -> modest w w' /\ unpublished id w'.
Lemma stages_ret {A} id (a : A) : stages id (mret a).
Proof. intros w b w' [_ ->]%gives_ret. split; [apply modest_refl|done]. Qed.
Lemma stages_bind {A B} id (m : Tx A) (f : A -> Tx B) :
  stages id m -> (forall a, stages id (f a)) -> stages id (m ≫= f).
Proof.
  intros Hm Hf w b w' (a & v & Hg & Hk)%gives_bind Hu.
  destruct (Hm _ _ _ Hg Hu) as [M1 U1]. destruct (Hf _ _ _ _ Hk U1) as [M2 U2].
  split; [by eapply modest_trans|done].
Qed.
Lemma stages_expect id b e : stages id (expect b e).
Proof. intros w u w' [_ ->]%gives_expect. split; [apply modest_refl|done]. Qed.
Lemma stages_update id f stmt : (forall b, Generation (f b) = Generation b) ->
  (forall w, fst (stmt w) = with_generations (map (fun b => if has_id id b then f b else b) (generations w)) w) ->
  stages id (exec stmt).
Proof.
  intros Hgen Hstmt w n w' [Hf Hc]%gives_exec Hst. pose proof (Hstmt w) as Hw. rewrite Hf in Hw. cbn [fst] in Hw. subst w'. split.
  - constructor; [done..|]. intros b (b' & -> & Hb')%list_elem_of_fmap Hp. destruct (has_id id b') eqn:Hid; [|done].
    destruct (Hst b' Hb' Hid). unfold is_published in *. by rewrite <- Hgen.
  - intros b (b' & -> & Hb')%list_elem_of_fmap Hid Hp. destruct (has_id id b') eqn:Hid'; [|congruence].
    destruct (Hst b' Hb' Hid'). unfold is_published in *. by rewrite <- Hgen.
Qed.
Lemma stages_add id f : (forall b, Generation (f b) = Generation b) -> stages id (exec (add_rows_to id f)).
Proof. intros Hgen. by eapply stages_update. Qed.
Lemma stages_exec_all {A} id (f : A -> GraphBundle -> GraphBundle) l :
  (forall a b, Generation (f a b) = Generation b) -> stages id (exec_all (fun a => add_rows_to id (f a)) l).
Proof.
  intros Hf. induction l as [|a l IH]; cbn [exec_all]; [apply stages_ret|].
  apply stages_bind; [by apply stages_add|done].
Qed.
Lemma stages_rows b : stages (id_of b) (stage_rows b).
Proof.
  unfold stage_rows.
  apply stages_bind; [by apply stages_exec_all|intros _]. apply stages_bind; [by apply stages_exec_all|intros _].
  apply stages_bind; [by apply stages_exec_all|intros _].
  induction (Unresolved b) as [|u us IH]; cbn [insert_all_unresolved]; [apply stages_ret|].
  apply stages_bind; [apply stages_expect|intros _]. apply stages_bind; [by apply stages_add|done].
Qed.
Lemma insert_header g w n w' : gives (exec (insert_generation g)) w n w' ->
  modest w w' /\ unpublished (g_GenerationID g) w'.
Proof.
  intros [Hf Hc]%gives_exec. injection Hf as <- <-.
  assert (Hin : mkBundle (staged_header g) [] [] [] [] ∈ generations w ++ [mkBundle (staged_header g) [] [] [] []]) by set_solver.
  split.
  - constructor; [done..|]. intros b [?|Hb]%elem_of_app Hp; [done|]. apply list_elem_of_singleton in Hb as ->. done.
  - intros b Hb Hid%streq_true. rewrite (same_id _ _ _ Hc Hb Hin Hid). done.
Qed.
Lemma restage_keeps g w u w' : gives (restage g) w u w' -> w' = w.
Proof.
  unfold restage. intros Hg. apply gives_bind in Hg as (r & v & Hr & Hg). apply gives_reads in Hr as [-> _].
  destruct r as [b|e]; [|by apply gives_throw in Hg]. cbv zeta in Hg. destruct (oneOf _ _); tx_inv Hg; done.
Qed.
Lemma stage_modest b w u w' : gives (stageGraphGenerationConn b) w u w' -> modest w w'.
Proof.
  unfold stageGraphGenerationConn. intros Hg. apply gives_bind in Hg as (a & v & Ha & Hg). tx_inv Ha.
  apply gives_bind in Hg as (b' & v & Hb & Hg). apply gives_lift in Hb as [_ ->].
  destruct Hg as (x & y & <- & Hi & <-). unfold insert_bundle in Hi.
  destruct (exec _ x) as [[n|e] z] eqn:Ex.
  - assert (Hh : gives (exec (insert_generation (Generation b'))) (x_work x) n (x_work z)) by (by exists x, z).
    apply insert_header in Hh as [Hm Hu].
    assert (Hs : gives (stage_rows b') (x_work z) u (x_work y)) by (by exists z, y).
    destruct (stages_rows _ _ _ _ Hs Hu) as [Hm' _]. exact (modest_trans _ _ _ Hm Hm').
  - assert (Hz : x_work z = x_work x).
    { unfold exec in Ex. destruct (sql_fails _); [by injection Ex as _ <-|]. destruct (insert_generation _ _).
      destruct (constraints _); [done|]. by injection Ex as _ <-. }
    destruct e; try done. assert (Hs : gives (restage (Generation b')) (x_work z) u (x_work y)) by (by exists z, y).
    apply restage_keeps in Hs as ->. rewrite Hz. apply modest_refl.
Qed.

(** ** Activation *)

(** The data base after [publish_writes]. *)
Definition retire_old (old : gostring) (b : GraphBundle) : GraphBundle :=
  if negb (bool_decide (old = [])) && has_id old b && has_status "active" b then set_status "retired" b else b.
Definition promote (id : digest) (staged : bool) (old : gostring) (publishedAt : Z) (b : GraphBundle) : GraphBundle :=
  if has_id id b && has_status (if staged then "staged" else "retired") b
  then (if staged then set_active_after (pointer old) publishedAt b else set_active publishedAt b) else b.
Definition publish (id : digest) (staged : bool) (old : gostring) (publishedAt : Z) (w : database) : database :=
  fst (upsert graphActiveMeta (Some id) (fst (upsert graphPreviousMeta (pointer old)
    (with_generations (map (promote id staged old publishedAt) (map (retire_old old) (generations w))) w)))).
(** One row is retired if there is an old generation, and one is promoted. *)
Lemma publish_run id staged old at_ w u w' : gives (publish_writes id staged old at_) w u w' ->
  w' = publish id staged old at_ w /\ constraints w' = true /\
  (exists b, b ∈ map (retire_old old) (generations w) /\ has_id id b = true /\
     has_status (if staged then "staged" else "retired") b = true) /\
  (old = [] \/ exists b, b ∈ generations w /\ has_id old b = true /\ has_status "active" b = true).
Proof.
  unfold publish_writes, publish. intros Hg. apply gives_bind in Hg as (u1 & w1 & Hold & Hg).
  assert (Hprev : old = [] \/ exists b, b ∈ generations w /\ has_id old b = true /\ has_status "active" b = true).
  { destruct (bool_decide_reflect (old = [])); [by left|]. right. apply gives_exec_one in Hold as [[= _ Hn] _].
    apply matching_one in Hn as (b & Hb & [? ?]%andb_true_iff). by exists b. }
  assert (Hw1 : w1 = with_generations (map (retire_old old) (generations w)) w).
  { unfold retire_old. destruct (bool_decide (old = [])).
    - apply gives_ret in Hold as [_ ->]. rewrite map_id. by destruct w as [[] ?].
    - apply gives_exec_one in Hold as [[= <- _] _]. done. }
  clear Hold. tx_inv Hg.
  assert (Hw0 : w0 = with_generations (map (promote id staged old at_) (map (retire_old old) (generations w))) w /\
    exists b, b ∈ map (retire_old old) (generations w) /\ has_id id b = true /\
      has_status (if staged then "staged" else "retired") b = true).
  { destruct staged; injection Hg0 as <- Hn; (split; [done|]); cbn [generations] in Hn.
    all: destruct (matching _ _) as [|b l] eqn:Hm in Hn; [done|].
    all: assert (Hb : b ∈ b :: l) by left; rewrite <- Hm in Hb; apply matching_some in Hb as [Hb Hin].
    all: apply andb_true_iff in Hb as [? ?]; by exists b. }
  destruct Hw0 as [-> Hex]. rewrite Hg1. cbn [fst]. rewrite Hg2. done.
Qed.
Lemma publish_rows id staged old at_ w :
  generations (publish id staged old at_ w) = map (promote id staged old at_) (map (retire_old old) (generations w)).
Proof. unfold publish, upsert. done. Qed.
Lemma publish_meta id staged old at_ w key :
  meta_of key (publish id staged old at_ w)
  = if streq key graphActiveMeta then id else if streq key graphPreviousMeta then old else meta_of key w.
Proof.
  unfold publish. rewrite !meta_of_upsert. destruct (streq key graphActiveMeta); [done|].
  destruct (streq key graphPreviousMeta); [|done]. unfold pointer. by case_bool_decide; subst.
Qed.
(** After the old generation has been retired, none is active. *)
Lemma retire_inactive w b : invariant w -> b ∈ generations w ->
  ~ is_active (retire_old (meta_of graphActiveMeta w) b).
Proof.
  intros [Hc Hp _] Hb Ha. unfold retire_old in Ha. destruct (_ && _) eqn:E; [done|]. specialize (Hp b Hb Ha).
  unfold has_id in E. rewrite Hp, streq_refl in E. unfold is_active in Ha. rewrite Ha in E.
  destruct (bool_decide_reflect (meta_of graphActiveMeta w = [])) as [Hnil|]; [|done].
  destruct (constraints_ids _ Hc) as [_ Hlen]. specialize (Hlen b Hb). by rewrite Hp, Hnil in Hlen.
Qed.
Lemma retire_sound w old b : invariant w -> b ∈ generations w -> is_published (retire_old old b) ->
  sound graphContentValidationCurrent (retire_old old b).
Proof.
  intros [_ _ Hi] Hb Hpub. unfold retire_old in *. destruct (_ && _) eqn:E; [|by apply Hi].
  apply sound_header, Hi, active_published; [done|]. by apply andb_true_iff in E as [_ ?].
Qed.
Lemma retire_id old b : id_of (retire_old old b) = id_of b.
Proof. unfold retire_old. by destruct (_ && _). Qed.
Lemma retire_keeps_sound mode old b : sound mode b -> sound mode (retire_old old b).
Proof. intros Hs. unfold retire_old. destruct (_ && _); [by apply sound_header|done]. Qed.
(** Retiring what the pointer names and promoting one sound generation keeps the invariant. *)
Lemma swap_invariant w w' id f :
  invariant w -> constraints w' = true -> meta_of graphActiveMeta w' = id ->
  generations w' = map f (map (retire_old (meta_of graphActiveMeta w)) (generations w)) ->
  (forall b, f b = b \/ (id_of b = id /\ exists s e p t, f b = on_header (fun g => set_publication s e p t g) b)) ->
  (forall b, b ∈ generations w -> id_of b = id -> sound graphContentValidationCurrent b) -> invariant w'.
Proof.
  intros Hi Hc' Hm Hrows Hf Hs.
  assert (Hrow : forall b, b ∈ generations w' -> exists b0, b0 ∈ generations w /\
    b = f (retire_old (meta_of graphActiveMeta w) b0)).
  { intros b. rewrite Hrows. intros (b1 & -> & (b0 & -> & Hb0)%list_elem_of_fmap)%list_elem_of_fmap. eauto. }
  constructor; [done| |].
  - intros b (b0 & Hb0 & ->)%Hrow Ha. rewrite Hm.
    destruct (Hf (retire_old (meta_of graphActiveMeta w) b0)) as [Heq|(Hid & s & e & p & t & Heq)]; rewrite Heq in *.
    + by destruct (retire_inactive w b0).
    + done.
  - intros b (b0 & Hb0 & ->)%Hrow Hpub.
    destruct (Hf (retire_old (meta_of graphActiveMeta w) b0)) as [Heq|(Hid & s & e & p & t & Heq)]; rewrite Heq in *.
    + by apply (retire_sound w).
    + rewrite retire_id in Hid. apply sound_header, retire_keeps_sound; auto.
Qed.
Lemma publish_invariant id staged old at_ w u w' :
  gives (publish_writes id staged old at_) w u w' -> invariant w -> meta_of graphActiveMeta w = old ->
  (forall b, b ∈ generations w -> id_of b = id -> sound graphContentValidationCurrent b) -> invariant w'.
Proof.
  intros Hg Hi <- Hs. apply publish_run in Hg as (-> & Hc' & _ & _).
  apply (swap_invariant w _ id (promote id staged (meta_of graphActiveMeta w) at_)); [done|done| | | |done].
  - by rewrite publish_meta, streq_refl.
  - apply publish_rows.
  - intros b. unfold promote. destruct (_ && _) eqn:E; [|by left]. apply andb_true_iff in E as [E%streq_true _].
    right. split; [done|]. destruct staged; eexists _, _, _, _; reflexivity.
Qed.
Lemma gives_validated id w b w' : gives (validated id) w b w' ->
  w' = w /\ exists row, row_of id w = Some row /\ b = read_bundle row /\ sound graphContentValidationCurrent row.
Proof. unfold validated. intros Hg. tx_inv Hg. destruct Hg as (n & k & Hv%validate_run). done. Qed.
Lemma validated_sound id w row b : constraints w = true -> row_of id w = Some row ->
  sound graphContentValidationCurrent row -> b ∈ generations w -> id_of b = id -> sound graphContentValidationCurrent b.
Proof. intros Hc Hr Hs Hb Hid. apply row_of_elem in Hr as [Hin Hid']. by rewrite (same_id w b row) by congruence. Qed.
Lemma gives_ancestry id v o w u w' : gives (ancestry id v o) w u w' -> w' = w.
Proof. unfold ancestry. intros Hg. by tx_inv Hg. Qed.
Lemma gives_check_prior old e n v w u w' : gives (check_prior old e n v) w u w' -> w' = w.
Proof.
  unfold check_prior. intros Hg. destruct (bool_decide _); [by tx_inv Hg|]. tx_inv Hg. by apply gives_ancestry in Hg.
Qed.
Lemma replace_active_run g id old at_ w u w' : gives (replace_active g id old at_) w u w' ->
  gives (publish_writes id (streq (g_Status g) "staged") old at_) w u w' /\
  streq (g_Status g) "staged" || streq (g_Status g) "retired" = true.
Proof.
  unfold replace_active. intros Hg. apply gives_bind in Hg as (a & v & Ha & Hg). tx_inv Ha.
  apply gives_bind in Hg as (a' & v & Ha' & Hg). apply gives_ancestry in Ha' as ->. done.
Qed.
(** A validated generation is made active in place of the one that the pointer names, or
    it is active already. *)
Lemma activate_run id prior at_ n d k d' :
  ActivateGraphGenerationAt id prior at_ (n, d) = (Ok tt, (k, d')) ->
  exists row, row_of id d = Some row /\ sound graphContentValidationCurrent row /\
    same_pointer prior (meta_of graphActiveMeta d) = true /\
    pointer_consistent (meta_of graphActiveMeta d) (lenZ (matching (has_status "active") (generations d))) = true /\
    ((is_active row /\ meta_of graphActiveMeta d = id /\ d' = d) \/
     (has_status "staged" row || has_status "retired" row = true /\
      gives (publish_writes id (has_status "staged" row) (meta_of graphActiveMeta d) at_) d tt d')).
Proof.
  unfold ActivateGraphGenerationAt. destruct (at_ =? 0)%Z; [done|]. intros Hg%immediate_ok.
  2:{ transactional. }
  apply gives_bind in Hg as (b & v & Hb & Hg). apply gives_validated in Hb as (-> & row & Hrow & -> & Hs).
  exists row. do 2 (split; [done|]).
  apply gives_bind in Hg as (old & v & Hold & Hg). apply gives_meta_bytes in Hold as [-> ->].
  apply gives_bind in Hg as (u & v & Hu & Hg). tx_inv Hu. split; [done|].
  apply gives_bind in Hg as (rows & v & Hr & Hg). apply gives_active_rows in Hr as [-> ->].
  apply gives_bind in Hg as (u' & v & Hu' & Hg). tx_inv Hu'. split; [done|].
  apply gives_bind in Hg as (u'' & v & Hp & Hg). apply gives_check_prior in Hp as ->.
  change (g_Status (Generation (read_bundle row))) with (status_of row) in Hg.
  destruct (streq (status_of row) "active") eqn:Ha.
  - apply gives_bind in Hg as (u1 & v & Hu1 & Hg). tx_inv Hu1. apply gives_bind in Hg as (u2 & v & Hu2 & Hg).
    apply gives_ancestry in Hu2 as ->. tx_inv Hg. left. apply streq_true in Hu1. done.
  - apply gives_bind in Hg as (u1 & v & Hu1 & Hg). apply replace_active_run in Hu1 as [Hp Hst]. tx_inv Hg.
    right. split; [done|]. by destruct u1.
Qed.
Lemma activate_invariant id prior at_ n d k d' :
  ActivateGraphGenerationAt id prior at_ (n, d) = (Ok tt, (k, d')) -> invariant d -> invariant d'.
Proof.
  intros (row & Hrow & Hs & _ & _ & [(_ & _ & ->)|[_ Hg]])%activate_run Hi; [done|].
  eapply publish_invariant; [done..|]. intros b. by eapply validated_sound; [apply Hi|..].
Qed.
Lemma dangling_never d prior : invariant d ->
  dangling (meta_of graphActiveMeta d) (lenZ (matching (has_status "active") (generations d))) prior = false.
Proof.
  intros [Hc Hp _]. unfold dangling. destruct (bool_decide_reflect (meta_of graphActiveMeta d = [])) as [Hnil|]; [|done].
  destruct (matching _ _) as [|b l] eqn:Hm; [done|]. assert (Hb : b ∈ b :: l) by left. rewrite <- Hm in Hb.
  apply matching_some in Hb as [Ha Hb]. specialize (Hp b Hb Ha).
  destruct (constraints_ids _ Hc) as [_ Hlen]. specialize (Hlen b Hb). by rewrite Hp, Hnil in Hlen.
Qed.
Lemma activateTx_invariant id prior at_ w u w' :
  gives (activateGraphGenerationTx id prior at_) w u w' -> invariant w -> invariant w'.
Proof.
  unfold activateGraphGenerationTx. intros Hg Hi. apply gives_bind in Hg as (u0 & v & Hu0 & Hg). tx_inv Hu0.
  apply gives_bind in Hg as (b & v & Hb & Hg). apply gives_validated in Hb as (-> & row & Hrow & -> & Hs).
  cbv zeta in Hg. apply gives_bind in Hg as (old & v & Hold & Hg). apply gives_meta_bytes in Hold as [-> ->].
  apply gives_bind in Hg as (rows & v & Hr & Hg). apply gives_active_rows in Hr as [-> ->].
  destruct (_ && streq _ id) eqn:Hsame.
  - apply gives_bind in Hg as (r & v & Hr & Hg). apply gives_reads in Hr as [-> _]. by apply gives_ancestry in Hg as ->.
  - unfold resolve_old in Hg. rewrite dangling_never in Hg by done.
    apply gives_bind in Hg as (old & v & Hold & Hg). apply gives_ret in Hold as [-> ->].
    apply gives_bind in Hg as (u1 & v & Hu1 & Hg). tx_inv Hu1.
    apply gives_bind in Hg as (u2 & v & Hu2 & Hg). tx_inv Hu2.
    apply gives_bind in Hg as (u3 & v & Hp & Hg). apply gives_check_prior in Hp as ->.
    apply replace_active_run in Hg as [Hg _]. eapply publish_invariant; [done..|].
    intros b. by eapply validated_sound; [apply Hi|..].
Qed.

(** ** The other operations *)
Lemma runtime_modest st c w u w' : gives (setGraphRuntimeStateTx st c) w u w' -> modest w w'.
Proof.
  unfold setGraphRuntimeStateTx. intros Hg. apply gives_bind in Hg as (a & v & Ha & Hg). tx_inv Ha.
  apply gives_bind in Hg as (n & v & Hn & Hg). apply modest_upsert in Hn; [|done].
  apply gives_bind in Hg as (n' & v' & Hn' & Hg). apply gives_ret in Hg as [_ ->].
  eapply modest_trans; [done|]. destruct (streq c []); [by eapply modest_delete_meta|by eapply modest_upsert].
Qed.
Lemma migration_modest id e x err c w w' n :
  update_migration id e x err c w = (w', n) -> constraints w' = true -> modest w w'.
Proof. intros [= <- <-] Hc. by eapply modest_migrations. Qed.
Lemma remove_modest ws cutoff keep ids : forall w u w', gives (remove_all ws cutoff keep ids) w u w' -> modest w w'.
Proof.
  induction ids as [|id ids IH]; intros w u w' Hg; cbn [remove_all] in Hg.
  { apply gives_ret in Hg as [_ ->]. apply modest_refl. }
  apply gives_bind in Hg as (a & v & Ha & Hg). eapply modest_trans; [|by eapply IH]. clear IH Hg.
  unfold remove_one in Ha. destruct (oneOf _ _); [tx_inv Ha; apply modest_refl|].
  apply gives_bind in Ha as (r & v' & Hr & Ha). tx_inv Hr. destruct (negb _); [tx_inv Ha; apply modest_refl|].
  apply gives_bind in Ha as (r & v' & Hr & Ha). tx_inv Hr. destruct (negb _); [tx_inv Ha; apply modest_refl|].
  tx_inv Ha. by eapply modest_delete.
Qed.
Lemma cleanup_modest ws cutoff n d k d' : CleanupGraphGenerations ws cutoff (n, d) = (Ok tt, (k, d')) -> modest d d'.
Proof.
  unfold CleanupGraphGenerations. destruct (_ || _); [done|]. intros Hg%immediate_ok; [|transactional].
  apply gives_bind in Hg as (p & v & Hp & Hg). tx_inv Hp. apply gives_bind in Hg as (st & v & Hst & Hg). tx_inv Hst.
  apply gives_bind in Hg as (u & v & Hu & Hg). tx_inv Hu.
  apply gives_bind in Hg as (a & v & Ha & Hg). apply gives_meta_bytes in Ha as [-> ->].
  apply gives_bind in Hg as (a & v & Ha & Hg). apply gives_meta_bytes in Ha as [-> ->].
  unfold pointer_text in Hg.
  apply gives_bind in Hg as (u1 & v & Hu1 & Hg). tx_inv Hu1. apply gives_bind in Hg as (u2 & v & Hu2 & Hg). tx_inv Hu2.
  apply gives_bind in Hg as (c & v & Hcs & Hg). tx_inv Hcs. apply gives_bind in Hg as (u3 & v & Hr & Hg). tx_inv Hg.
  by eapply remove_modest.
Qed.
Lemma stage_run_modest b n d k d' : StageGraphGeneration b (n, d) = (Ok tt, (k, d')) -> modest d d'.
Proof.
  unfold StageGraphGeneration. intros Hg%immediate_ok; [|transactional].
  apply gives_bind in Hg as (u & v & Hs & Hg). tx_inv Hg. by eapply stage_modest.
Qed.
Lemma set_state_modest st c n d k d' : SetGraphRuntimeState st c (n, d) = (Ok tt, (k, d')) -> modest d d'.
Proof.
  unfold SetGraphRuntimeState. destruct (negb _); [done|]. intros Hg%immediate_ok; [|transactional].
  apply gives_bind in Hg as (u & v & Hs & Hg). tx_inv Hg. by eapply runtime_modest.
Qed.
Lemma transition_migration_modest id e x err now n d k d' :
  TransitionGraphMigration id e x err now (n, d) = (Ok tt, (k, d')) -> modest d d'.
Proof.
  unfold TransitionGraphMigration. destruct (_ || _); [done|]. intros Hg%immediate_ok; [|transactional].
  tx_inv Hg. by eapply migration_modest.
Qed.

(** A rollback makes the previous generation active again. *)
Definition reinstate (id : digest) (at_ : Z) (b : GraphBundle) : GraphBundle :=
  if has_id id b && has_status "retired" b then set_active_after None at_ b else b.
Definition rolled_back (id : digest) (at_ : Z) (d d' : database) : Prop :=
  let active := meta_of graphActiveMeta d in
  generations d' = map (reinstate id at_) (map (retire_old active) (generations d)) /\
  meta_of graphActiveMeta d' = id /\ meta_of graphPreviousMeta d' = active /\ constraints d' = true.
Lemma retire_update old w : is_digest old = true ->
  fst (update_generations (fun b => has_id old b && has_status "active" b) (set_status "retired") w)
  = with_generations (map (retire_old old) (generations w)) w.
Proof. intros Hd. unfold retire_old. destruct (bool_decide_reflect (old = [])) as [->|]; [done|]. done. Qed.
Lemma quiet_count : quiet (fun x => match active_rows x with
  (Err _, x) => (Err ErrGraphPointerConflict, x) | r => r end : result store_error Z * txn).
Proof. intros x. pose proof (quiet_active_rows x) as Hx. by destruct (active_rows x) as [[]]. Qed.
Lemma rollback_run id current at_ n d k d' :
  RollbackGraphGenerationAt id current at_ (n, d) = (Ok tt, (k, d')) ->
  exists row, row_of id d = Some row /\ sound graphContentValidationCurrent row /\ is_published row /\
    ((is_active row /\ meta_of graphActiveMeta d = id /\ d' = d) \/
     (current = Some (meta_of graphActiveMeta d) /\ meta_of graphPreviousMeta d = id /\
      has_status "active" row = false /\ rolled_back id at_ d d')).
Proof.
  unfold RollbackGraphGenerationAt. destruct (at_ =? 0)%Z; [done|]. intros Hg%immediate_ok.
  2:{ transactional. apply quiet_count. }
  apply gives_bind in Hg as (b & v & Hb & Hg). apply gives_validated in Hb as (-> & row & Hrow & -> & Hs).
  exists row. do 2 (split; [done|]). cbv zeta in Hg.
  apply gives_bind in Hg as (u & v & Hu & Hg). tx_inv Hu. split; [done|].
  apply gives_bind in Hg as (active & v & Ha & Hg). apply gives_meta_bytes in Ha as [-> ->].
  destruct (negb _) eqn:Hcur.
  - destruct current as [c|]; [|by apply gives_throw in Hg]. destruct (_ && streq _ id) eqn:Hsame; [|by apply gives_throw in Hg].
    apply gives_bind in Hg as (r & v & Hr & Hg). apply gives_reads in Hr as [-> _]. left.
    apply andb_true_iff in Hsame as [Hact Hid%streq_true].
    destruct r as [[pv|]|]; try by apply gives_throw in Hg.
    destruct (streq _ c); [|by apply gives_throw in Hg]. tx_inv Hg. done.
  - right. apply negb_false_iff in Hcur. destruct current as [c|]; [|done]. cbn [same_pointer] in Hcur.
    apply andb_true_iff in Hcur as [->%streq_true _].
    apply gives_bind in Hg as (u1 & v & Hu1 & Hg). tx_inv Hu1.
    apply gives_bind in Hg as (cur & v & Hc & Hg). apply gives_reads in Hc as [-> _].
    apply gives_bind in Hg as (u2 & v & Hu2 & Hg). tx_inv Hu2.
    apply gives_bind in Hg as (pv & v & Hpv & Hg). apply gives_meta_bytes in Hpv as [-> ->].
    apply gives_bind in Hg as (u3 & v & Hu3 & Hg). tx_inv Hu3. apply negb_true_iff in Hu3.
    apply gives_bind in Hg as (u4 & v & Hu4 & Hg). tx_inv Hu4. apply andb_true_iff in Hu4 as [_ Hpid%streq_true].
    split; [done|]. split; [done|]. split; [done|].
    apply gives_bind in Hg as (u5 & w1 & Hw1 & Hg). apply gives_exec_one in Hw1 as [Hw1 _].
    pose proof (retire_update _ d Hu1) as Hret. rewrite Hw1 in Hret. cbn [fst] in Hret. subst w1.
    apply gives_bind in Hg as (u6 & w2 & Hw2 & Hg). apply gives_exec_one in Hw2 as [[= <- _] _].
    apply gives_bind in Hg as (u7 & w3 & Hw3 & Hg). apply gives_exec_one in Hw3 as [Hw3 _].
    apply update_one in Hw3 as [Hw3 Hm3].
    apply gives_bind in Hg as (u8 & w4 & Hw4 & Hg). apply gives_exec_one in Hw4 as [Hw4 Hc4].
    apply gives_bind in Hg as (cnt & w5 & Hcnt & Hg).
    assert (w5 = w4) as ->.
    { destruct Hcnt as (x & y & <- & Hx & <-). destruct (active_rows x) as [[r|e] z] eqn:E; [|done].
      injection Hx as <- <-. destruct (gives_active_rows (x_work x) r (x_work z)) as [_ ?]; [by exists x, z|done]. }
    apply gives_bind in Hg as (u9 & v & Hu9 & Hg). tx_inv Hu9. tx_inv Hg. clear Hcnt.
    pose proof (meta_of_upsert graphPreviousMeta (Some (meta_of graphActiveMeta d))) as Hm4.
    unfold rolled_back. cbv zeta. split_and!.
    + by injection Hw4 as <-.
    + apply (f_equal fst) in Hw4. cbn [fst] in Hw4. rewrite <- Hw4. rewrite Hm4. exact Hm3.
    + apply (f_equal fst) in Hw4. cbn [fst] in Hw4. rewrite <- Hw4. by rewrite Hm4, streq_refl.
    + done.
Qed.
Lemma rollback_invariant id current at_ n d k d' :
  RollbackGraphGenerationAt id current at_ (n, d) = (Ok tt, (k, d')) -> invariant d -> invariant d'.
Proof.
  intros (row & Hrow & Hs & _ & [(_ & _ & ->)|(_ & _ & _ & Hr & Hm & _ & Hc)])%rollback_run Hi; [done|].
  apply (swap_invariant d _ id (reinstate id at_)); [done..| |].
  - intros b. unfold reinstate. destruct (_ && _) eqn:E; [|by left]. apply andb_true_iff in E as [E%streq_true _].
    right. split; [done|]. by eexists _, _, _, _.
  - intros b. by eapply validated_sound; [apply Hi|..].
Qed.

(** Going back to the legacy mode leaves no active generation. *)
Definition inactive (d : database) : Prop := forall b, b ∈ generations d -> ~ is_active b.
Lemma inactive_invariant w w' : invariant w -> constraints w' = true -> inactive w' ->
  (forall b, b ∈ generations w' -> is_published b -> exists b0, b0 ∈ generations w /\ is_published b0 /\
     (sound graphContentValidationCurrent b0 -> sound graphContentValidationCurrent b)) -> invariant w'.
Proof.
  intros [_ _ Hi] Hc Hn Hf. constructor; [done| |].
  - intros b Hb Ha. by destruct (Hn b Hb).
  - intros b Hb Hp. destruct (Hf b Hb Hp) as (b0 & Hb0 & Hp0 & Hs). auto.
Qed.
Lemma legacy_run w u w' : gives retire_for_legacy w u w' -> invariant w -> invariant w' /\ inactive w'.
Proof.
  unfold retire_for_legacy. intros Hg Hi. apply gives_bind in Hg as (active & v & Ha & Hg).
  apply gives_meta_bytes in Ha as [-> ->]. apply gives_bind in Hg as (rows & v & Hr & Hg).
  apply gives_active_rows in Hr as [-> ->]. apply gives_bind in Hg as (u1 & v & Hu1 & Hg). tx_inv Hu1.
  apply gives_bind in Hg as (u2 & w1 & Hw1 & Hg).
  assert (Hrows : generations w1 = map (fun b => if has_status "active" b then set_status "retired" b else b) (generations w)).
  { destruct (bool_decide_reflect (meta_of graphActiveMeta w = [])) as [Hnil|].
    - apply gives_ret in Hw1 as [_ ->]. etrans; [symmetry; apply map_id|apply map_ext_in]. intros b Hb%list_elem_of_In.
      destruct (has_status "active" b) eqn:Hact; [|done]. pose proof (inv_pointed _ Hi b Hb Hact) as Hid.
      destruct (constraints_ids _ (inv_constraints _ Hi)) as [_ Hlen]. specialize (Hlen b Hb). by rewrite Hid, Hnil in Hlen.
    - apply gives_bind in Hw1 as (u3 & v & Hu3 & Hw1). tx_inv Hu3. apply gives_exec_one in Hw1 as [[= <- _] _]. done. }
  apply gives_bind in Hg as (n & w2 & Hw2 & Hg). apply gives_exec in Hw2 as [Hw2 Hc].
  apply gives_ret in Hg as [_ ->]. injection Hw2 as <- _.
  assert (Hn : inactive (with_meta (set_value [graphActiveMeta; graphPreviousMeta] None (meta w1)) w1)).
  { intros b. change (generations (with_meta _ w1)) with (generations w1). rewrite Hrows.
    intros (b0 & -> & Hb0)%list_elem_of_fmap Hact. destruct (has_status "active" b0) eqn:E; [done|unfold is_active in Hact; congruence]. }
  split; [|done]. eapply inactive_invariant; [done..|]. intros b. change (generations (with_meta _ w1)) with (generations w1).
  rewrite Hrows. intros (b0 & -> & Hb0)%list_elem_of_fmap Hp. exists b0. destruct (has_status "active" b0) eqn:E; [|done].
  split_and!; [done|by apply active_published|]. intros Hs. by apply sound_header.
Qed.
Lemma compatibility_invariant e x n d k d' :
  TransitionGraphCompatibilityState e x (n, d) = (Ok tt, (k, d')) -> invariant d -> invariant d'.
Proof.
  unfold TransitionGraphCompatibilityState. destruct (_ || _); [done|]. intros Hg%immediate_ok.
  2:{ transactional. }
  intros Hi. apply gives_bind in Hg as (row & v & Hr & Hg). apply gives_reads in Hr as [-> _].
  apply gives_bind in Hg as (cur & v & Hc & Hg).
  assert (v = d) as ->. { destruct row as [[t|]|]; [by apply gives_ret in Hc as [_ ->]|by apply gives_throw in Hc..]. }
  apply gives_bind in Hg as (u1 & v & Hu1 & Hg). tx_inv Hu1.
  apply gives_bind in Hg as (u2 & w1 & Hw1 & Hg). apply gives_exec_one in Hw1 as [Hw1 Hc1].
  assert (Hi1 : invariant w1).
  { eapply modest_invariant; [|done]. unfold compatibility_update in Hw1. destruct (value_is _ _ _); [|done].
    apply update_one in Hw1 as [Hw1 _]. eapply modest_meta; [done|by symmetry|]. rewrite Hw1. by apply meta_of_other. }
  apply gives_bind in Hg as (u3 & w2 & Hw2 & Hg). tx_inv Hg.
  destruct (streq x legacy); [by apply legacy_run in Hw2 as [? _]|]. by apply gives_ret in Hw2 as [_ ->].
Qed.

(** ** Recovery *)

(** What [m], started on [w], leaves in the data base: an error and nothing, or [P]. *)
Definition leaves {A} (m : Tx A) w (P : result store_error A -> database -> Prop) : Prop := forall x r y,
  x_work x = w -> m x = (r, y) -> (is_ok r = false /\ x_committed y = x_committed x) \/ P r (x_committed y).
Lemma leaves_bind {A B} (m : Tx A) (f : A -> Tx B) w P :
  quiet m -> (forall a v, gives m w a v -> leaves (f a) v P) -> leaves (m ≫= f) w P.
Proof.
  intros Hq Hf x r y Hx Hr. unfold mbind, eff_bind in Hr. pose proof (Hq x) as Hc. destruct (m x) as [[a|e] z] eqn:E.
  - destruct (Hf a (x_work z) ltac:(by exists x, z) z r y eq_refl Hr) as [[? Hz]|?]; [|by right].
    left. split; [done|]. by rewrite Hz.
  - injection Hr as <- <-. left. done.
Qed.
Lemma leaves_commit w (P : result store_error unit -> database -> Prop) : P (Ok tt) w -> leaves commit w P.
Proof.
  intros Hp x r y <- Hr. unfold commit in Hr. destruct (sql_fails _); injection Hr as <- <-; [by left|by right].
Qed.
Lemma leaves_commit_throw w e (P : result store_error unit -> database -> Prop) :
  P (Err e) w -> leaves (_ ← commit; throw e) w P.
Proof.
  intros Hp x r y <- Hr. unfold mbind, eff_bind, commit in Hr. destruct (sql_fails _); injection Hr as <- <-; [by left|by right].
Qed.
Lemma immediate_leaves (body : Tx unit) n d r k d' P : leaves body d P -> immediate body (n, d) = (r, (k, d')) ->
  (is_ok r = false /\ d' = d) \/ P r d'.
Proof.
  intros Hl. unfold immediate. destruct (sql_fails n); [intros [= <- _ <-]; by left|].
  destruct (body _) as [r' y] eqn:E. intros [= <- _ <-]. by destruct (Hl (mkTxn (S n) d d) r' y eq_refl E); [left|right].
Qed.

Lemma gives_prior_intact m w ok w' : gives (prior_intact m) w ok w' -> w' = w.
Proof.
  unfold prior_intact. intros Hg. destruct (negb _); [by tx_inv Hg|]. destruct (m_PriorActiveGenerationID m); by tx_inv Hg.
Qed.
Definition settled (w : database) : Prop := Forall (fun m => pending_migration m = false) (d_migrations w).
Lemma recover_migrations_run now ms : forall w u w', gives (recover_migrations now ms) w u w' ->
  (forall m, m ∈ d_migrations w -> pending_migration m = true -> m ∈ ms) ->
  Forall (fun m => pending_migration m = true) ms ->
  modest w w' /\ d_tables w' = d_tables w /\ settled w'.
Proof.
  induction ms as [|m ms IH]; intros w u w' Hg Hin Hall; cbn [recover_migrations] in Hg.
  { apply gives_ret in Hg as [_ ->]. split_and!; [apply modest_refl|done|]. apply Forall_forall. intros m Hm.
    destruct (pending_migration m) eqn:E; [|done]. by apply Hin, not_elem_of_nil in E. }
  apply gives_bind in Hg as (u1 & w1 & Hm & Hg). apply Forall_cons in Hall as [Hpm Hall].
  unfold recover_migration in Hm. apply gives_bind in Hm as (ok & v & Hok & Hm).
  assert (v = w) as ->. { destruct (streq _ _); [by apply gives_ret in Hok as [_ ->]|by apply gives_prior_intact in Hok]. }
  cbv zeta in Hm. apply gives_exec_one in Hm as [Hm Hc].
  set (out := if ok then _ else _) in Hm. assert (Hout : terminal out.1 = true) by (subst out; by destruct ok).
  pose proof (migration_modest _ _ _ _ _ _ _ _ Hm Hc) as Hmod. injection Hm as <- _.
  destruct (IH _ _ _ Hg) as (Hmod' & Htab & Hset); [|done|].
  - intros r (r0 & -> & Hr0)%list_elem_of_fmap Hp. destruct (_ && _) eqn:E.
    + exfalso. unfold pending_migration in Hp. cbn [set_migration m_Status] in Hp. subst out. by destruct ok.
    + specialize (Hin r0 Hr0 Hp). apply elem_of_cons in Hin as [->|]; [|done]. by rewrite !streq_refl in E.
  - split_and!; [by eapply modest_trans|by rewrite Htab|done].
Qed.

Definition staged_among (ws : gostring) (ids : list digest) (w : database) : Prop :=
  forall b, b ∈ generations w -> in_workspace ws b && has_status "staged" b = true -> id_of b ∈ ids.
Lemma unpublished_modest id w w' : modest w w' -> unpublished id w -> unpublished id w'.
Proof. intros [_ _ Hr] Hu b Hb Hid Hp. by apply (Hu b); [apply Hr|..]. Qed.
Lemma abandon_run ws id ids w u w' : gives (abandon ws id) w u w' -> unpublished id w -> staged_among ws (id :: ids) w ->
  modest w w' /\ d_migrations w' = d_migrations w /\ staged_among ws ids w'.
Proof.
  unfold abandon. intros Hg Hu Hst.
  assert (Hdrop : forall f w n w', (forall b, Generation (f b) = Generation b) ->
    gives (exec (update_generations (has_id id) f)) w n w' -> unpublished id w -> staged_among ws (id :: ids) w ->
    modest w w' /\ unpublished id w' /\ d_migrations w' = d_migrations w /\ staged_among ws (id :: ids) w').
  { intros f v n v' Hf Hg' Huv Hsv. destruct (stages_update id f (update_generations (has_id id) f) Hf (fun _ => eq_refl) _ _ _ Hg' Huv) as [M U].
    apply gives_exec in Hg' as [[= <- _] _]. split_and!; try done.
    intros b (b' & -> & Hb')%list_elem_of_fmap Hs. destruct (has_id id b') eqn:E; [|auto].
    unfold in_workspace, has_status, status_of, id_of in *. rewrite Hf in *. by apply (Hsv b'). }
  apply gives_bind in Hg as (n1 & w1 & E1 & Hg). destruct (Hdrop drop_evidence _ _ _ (fun _ => eq_refl) E1 Hu Hst) as (M1 & U1 & D1 & S1).
  apply gives_bind in Hg as (n2 & w2 & E2 & Hg). destruct (Hdrop drop_edges _ _ _ (fun _ => eq_refl) E2 U1 S1) as (M2 & U2 & D2 & S2).
  apply gives_bind in Hg as (n3 & w3 & E3 & Hg). destruct (Hdrop drop_nodes _ _ _ (fun _ => eq_refl) E3 U2 S2) as (M3 & U3 & D3 & S3).
  apply gives_bind in Hg as (n4 & w4 & E4 & Hg). destruct (Hdrop drop_unresolved _ _ _ (fun _ => eq_refl) E4 U3 S3) as (M4 & U4 & D4 & S4).
  apply gives_exec_one in Hg as [Hg Hc].
  assert (M5 : modest w4 w') by (eapply modest_update; [done..|]; by intros b _ _).
  pose proof (modest_trans _ _ _ M1 M2) as M. apply (modest_trans _ _ _ M) in M3. apply (modest_trans _ _ _ M3) in M4.
  injection Hg as <- _. split_and!.
  - exact (modest_trans _ _ _ M4 M5).
  - cbn [with_generations d_migrations]. congruence.
  - intros b (b' & -> & Hb')%list_elem_of_fmap Hs. destruct (_ && has_status "staged" b') eqn:E.
    + by apply andb_true_iff in Hs as [_ Hs].
    + assert (Hin : id_of b' ∈ id :: ids) by auto. apply elem_of_cons in Hin as [Hid|]; [|done].
      apply andb_true_iff in Hs as [Hs1 Hs2]. unfold has_id in E. by rewrite Hid, streq_refl, Hs1, Hs2 in E.
Qed.
Lemma abandon_all_run ws ids : forall w u w', gives (abandon_all ws ids) w u w' ->
  Forall (fun id => unpublished id w) ids -> staged_among ws ids w ->
  modest w w' /\ d_migrations w' = d_migrations w /\ staged_among ws [] w'.
Proof.
  induction ids as [|id ids IH]; intros w u w' Hg Hu Hst; cbn [abandon_all] in Hg.
  { apply gives_ret in Hg as [_ ->]. by split; [apply modest_refl|]. }
  apply Forall_cons in Hu as [Hid Hu]. apply gives_bind in Hg as (a & v & Ha & Hg).
  destruct (abandon_run _ _ _ _ _ _ Ha Hid Hst) as (M & D & S).
  destruct (IH _ _ _ Hg) as (M' & D' & S'); [|done|].
  - eapply Forall_impl; [done|]. intros x. by apply unpublished_modest.
  - split_and!; [by eapply modest_trans|congruence|done].
Qed.

Lemma check_active_run ws w ok w' : gives (check_active (meta_of graphActiveMeta w)) w ok w' ->
  invariant w -> staged_among ws [] w ->
  modest w w' /\ d_migrations w' = d_migrations w /\ staged_among ws [] w' /\
  (if ok then exists b, b ∈ generations w' /\ is_active b /\ id_of b = meta_of graphActiveMeta w' else inactive w').
Proof.
  unfold check_active. intros Hg Hi Hst. destruct (is_digest _) eqn:Hd; cbn [negb] in Hg.
  - apply gives_bind in Hg as (r & v & Hr & Hg). apply gives_reads in Hr as [-> (n & k & Hr)].
    apply attempt_run in Hr. destruct (match r with Ok b => _ | Err _ => _ end) eqn:E.
    + apply gives_ret in Hg as [-> ->]. split_and!; [apply modest_refl|done|done|].
      destruct r as [b|]; [|done]. apply validate_run in Hr as (row & Hrow & -> & _).
      apply row_of_elem in Hrow as [? ?]. by exists row.
    + apply gives_bind in Hg as (u & v & Hu & Hg). apply gives_ret in Hg as [-> ->].
      apply gives_exec_one in Hu as [Hu Hc].
      assert (M : modest w v) by (eapply modest_update; [done..|]; by intros b _ _).
      injection Hu as <- _. split_and!; [done|done| |].
      * intros b (b' & -> & Hb')%list_elem_of_fmap Hs. destruct (_ && oneOf _ _); [|by apply Hst].
        by apply andb_true_iff in Hs as [_ Hs].
      * intros b (b' & -> & Hb')%list_elem_of_fmap Ha. destruct (_ && oneOf _ _) eqn:Hc'; [done|].
        pose proof (inv_pointed _ Hi b' Hb' Ha) as Hid. unfold has_id in Hc'. rewrite Hid, streq_refl in Hc'.
        apply streq_true in Ha. by rewrite Ha in Hc'.
  - apply gives_ret in Hg as [-> ->]. split_and!; [apply modest_refl|done|done|]. intros b Hb Ha.
    pose proof (inv_pointed _ Hi b Hb Ha) as Hid. destruct (constraints_ids _ (inv_constraints _ Hi)) as [_ Hlen].
    specialize (Hlen b Hb). unfold is_digest in Hd. rewrite <- Hid, Hlen in Hd. done.
Qed.
Definition restored (id : digest) (now : Z) (b : GraphBundle) : GraphBundle :=
  if has_id id b && has_status "retired" b
  then on_header (fun g => set_publication "active" [] (g_PreviousGenerationID g) now g) b else b.
Lemma restore_previous_run id now w ok w' : gives (restore_previous id now) w ok w' ->
  if ok then constraints w' = true /\ w' = with_generations (map (restored id now) (generations w)) w /\
    exists b, b ∈ generations w /\ id_of b = id /\ has_status "retired" b = true else w' = w.
Proof.
  unfold restore_previous. intros Hg. destruct (negb _); [by tx_inv Hg|].
  apply gives_bind in Hg as (r & v & Hr & Hg). apply gives_reads in Hr as [-> _].
  destruct (match r with Ok b => _ | Err _ => _ end); [|by tx_inv Hg].
  apply gives_bind in Hg as (u & v & Hu & Hg). apply gives_ret in Hg as [-> ->].
  apply gives_exec_one in Hu as [Hu Hc]. injection Hu as <- Hn. split_and!; [done|done|].
  apply matching_one in Hn as (b & Hb & [Hid%streq_true Hs]%andb_true_iff). by exists b.
Qed.
Lemma retire_nothing old w : inactive w -> map (retire_old old) (generations w) = generations w.
Proof.
  intros Hn. etrans; [|apply map_id]. apply map_ext_in. intros b Hb%list_elem_of_In. unfold retire_old.
  destruct (_ && _) eqn:E; [|done]. apply andb_true_iff in E as [_ E]. by destruct (Hn b Hb).
Qed.
Definition recovered (ws : gostring) (r : result store_error unit) (d : database) : Prop :=
  invariant d /\ settled d /\ staged_among ws [] d /\
  match r with
  | Ok _ => exists b, b ∈ generations d /\ is_active b /\ id_of b = meta_of graphActiveMeta d
  | Err e => e = ErrGraphCrashRecoveryRequired /\ inactive d
  end.
(** The two updates of the pointers after [restore_previous]. *)
Lemma restore_run ws id now w u v1 v2 v3 : invariant w -> inactive w -> settled w -> staged_among ws [] w ->
  gives (restore_previous id now) w true v1 -> update_meta [graphActiveMeta] (Some id) v1 = (v2, 1%Z) ->
  gives (exec_one ErrGraphCrashRecoveryRequired (update_meta [graphPreviousMeta] None)) v2 u v3 ->
  recovered ws (Ok tt) v3.
Proof.
  intros Hi Hn Hset Hst Hr Hm2 Hm3. apply restore_previous_run in Hr as (_ & -> & b & Hb & Hid & Hs).
  apply update_one in Hm2 as [-> Hm2]. apply gives_exec_one in Hm3 as [Hm3 Hc]. apply update_one in Hm3 as [-> _].
  set (v3 := with_meta _ (with_meta _ _)) in *.
  assert (Hptr : meta_of graphActiveMeta v3 = id).
  { unfold v3. rewrite meta_of_other by done. exact Hm2. }
  assert (Hgen : generations v3 = map (restored id now) (generations w)) by done.
  assert (Hrow : forall b', id_of (restored id now b') = id_of b') by (intros b'; unfold restored; by destruct (_ && _)).
  unfold recovered. split_and!; [|done| |].
  - apply (swap_invariant w v3 id (restored id now)); [done..| | |].
    + by rewrite retire_nothing.
    + intros b'. unfold restored. destruct (_ && _) eqn:E; [|by left]. apply andb_true_iff in E as [E%streq_true _].
      right. split; [done|]. by eexists _, _, _, _.
    + intros b' Hb' Hid'. rewrite (same_id w b' b) by (done || congruence || apply Hi). apply Hi; [done|].
      unfold is_published, published. unfold has_status, status_of in Hs. by apply streq_true in Hs as ->.
  - intros b'. rewrite Hgen. intros (b0 & -> & Hb0)%list_elem_of_fmap Hs'. rewrite Hrow. apply (Hst b0 Hb0).
    unfold restored in Hs'. destruct (_ && has_status "retired" b0); [|done]. by apply andb_true_iff in Hs' as [_ ?].
  - exists (restored id now b). rewrite Hgen. split; [by apply list_elem_of_fmap; exists b|]. rewrite Hrow, Hptr.
    split; [|done]. unfold restored, has_id. by rewrite Hid, streq_refl, Hs.
Qed.
Lemma recover_run ws now n d r k d' : RecoverGraphState ws now (n, d) = (r, (k, d')) -> invariant d ->
  (is_ok r = false /\ d' = d) \/ recovered ws r d'.
Proof.
  unfold RecoverGraphState. destruct (streq ws []); [intros [= <- _ <-]; by left|]. intros Hr Hi.
  eapply immediate_leaves; [|exact Hr]. clear Hr.
  apply leaves_bind; [quiet|]. intros ms v Hms. apply gives_reads_db in Hms as [-> ->].
  apply leaves_bind; [quiet|]. intros u1 w1 Hw1. apply recover_migrations_run in Hw1 as (M1 & T1 & S1).
  2:{ intros m Hm Hp. by apply matching_some. }
  2:{ apply Forall_forall. by intros m [? _]%matching_some. }
  apply leaves_bind; [quiet|]. intros st v Hst. apply gives_reads_db in Hst as [-> ->].
  apply leaves_bind; [quiet|]. intros u2 w2 Hw2.
  assert (Hi1 : invariant w1) by by eapply modest_invariant.
  apply abandon_all_run with (ws := ws) in Hw2 as (M2 & D2 & S2).
  2:{ apply Forall_forall. intros id (b & -> & [Hb Hin]%matching_some)%list_elem_of_fmap. intros b' Hb' Hid%streq_true Hp.
      rewrite (same_id w1 b' b) in Hp by (done || apply Hi1). apply andb_true_iff in Hb as [_ Hs%streq_true].
      unfold is_published, published in Hp. unfold status_of in Hs. by rewrite Hs in Hp. }
  2:{ intros b Hb Hs. apply list_elem_of_fmap. exists b. split; [done|]. by apply matching_some. }
  assert (Hi2 : invariant w2) by by eapply modest_invariant.
  apply leaves_bind; [quiet|]. intros active v Ha. apply gives_meta_bytes in Ha as [-> ->].
  apply leaves_bind; [quiet|]. intros previous v Hp. apply gives_meta_bytes in Hp as [-> ->].
  apply leaves_bind; [quiet|]. intros ok w3 Hok. apply check_active_run with (ws := ws) in Hok as (M3 & D3 & S3 & Hok); [|done..].
  assert (Hi3 : invariant w3) by by eapply modest_invariant.
  assert (Hs3 : settled w3) by (unfold settled; by rewrite D3, D2).
  destruct ok; [by apply leaves_commit|].
  apply leaves_bind; [quiet|]. intros res v1 Hres. destruct res; cbn [negb].
  - apply leaves_bind; [quiet|]. intros u3 v2 Hv2. apply gives_exec_one in Hv2 as [Hv2 _].
    apply leaves_bind; [quiet|]. intros u4 v3 Hv3. apply leaves_commit. by eapply restore_run.
  - apply restore_previous_run in Hres as ->. by apply leaves_commit_throw.
Qed.

(** ** What activation establishes *)
Lemma find_gen_map id f gs : (forall b, id_of (f b) = id_of b) -> find_gen id (map f gs) = f <$> find_gen id gs.
Proof.
  intros Hf. unfold find_gen. induction gs as [|b gs IH]; [done|]. unfold matching in *. cbn [map]. rewrite !filter_cons.
  unfold id_of in Hf. rewrite Hf. by case_decide.
Qed.
Lemma promote_id id staged old at_ b : id_of (promote id staged old at_ b) = id_of b.
Proof. unfold promote. destruct (_ && _); [by destruct staged|done]. Qed.
(** The specification of both variants: [d'] is [d] with [id] in place of the generation
    that the pointer names, which is [prior]. *)
Record activated (id : digest) (prior : option digest) (at_ : Z) (d d' : database) : Prop := {
  ac_prior : same_pointer prior (meta_of graphActiveMeta d) = true;
  ac_pointer : meta_of graphActiveMeta d' = id;
  ac_active : exists b, row_of id d' = Some b /\ is_active b /\ sound graphContentValidationCurrent b /\
    forall b', b' ∈ generations d' -> is_active b' -> b' = b;
  ac_change : d' = d \/
    meta_of graphPreviousMeta d' = meta_of graphActiveMeta d /\ prior <> Some id /\
    (forall p, prior = Some p -> row_of p d' = set_status "retired" <$> row_of p d) /\
    (forall i, i <> id -> prior <> Some i -> row_of i d' = row_of i d) /\
    (forall key, key <> graphActiveMeta -> key <> graphPreviousMeta -> meta_of key d' = meta_of key d) }.
Lemma active_unique d b : invariant d -> b ∈ generations d -> is_active b ->
  forall b', b' ∈ generations d -> is_active b' -> b' = b.
Proof.
  intros Hi Hb Ha b' Hb' Ha'. apply (same_id d); [apply Hi|done|done|].
  by rewrite (inv_pointed _ Hi b), (inv_pointed _ Hi b').
Qed.
Lemma same_pointer_spec prior old : same_pointer prior old = true -> prior = pointer old.
Proof.
  unfold same_pointer, pointer. destruct prior as [p|]; intros Hs.
  - apply andb_true_iff in Hs as [->%streq_true Hn]. apply negb_true_iff in Hn. by rewrite Hn.
  - by rewrite Hs.
Qed.
Lemma read_active row d : row_of (id_of row) d = Some row -> invariant d -> is_active row ->
  exists b, row_of (id_of row) d = Some b /\ is_active b /\ sound graphContentValidationCurrent b /\
    forall b', b' ∈ generations d -> is_active b' -> b' = b.
Proof.
  intros Hrow Hi Ha. apply row_of_elem in Hrow as Hin. destruct Hin as [Hin _]. exists row. split_and!; [done|done| |].
  - apply Hi; [done|]. by apply active_published.
  - by apply active_unique.
Qed.
Lemma publish_activated id staged prior at_ d u d' row : invariant d -> row_of id d = Some row ->
  sound graphContentValidationCurrent row -> has_status "active" row = false ->
  same_pointer prior (meta_of graphActiveMeta d) = true ->
  gives (publish_writes id staged (meta_of graphActiveMeta d) at_) d u d' -> activated id prior at_ d d'.
Proof.
  intros Hi Hrow Hs Hna Hsame Hg. pose proof (row_of_elem _ _ _ Hrow) as [Hin Hid].
  assert (Hi' : invariant d').
  { eapply publish_invariant; [done..|]. intros b. by eapply validated_sound; [apply Hi|..]. }
  apply publish_run in Hg as (-> & Hc & (b & Hb & Hbid & Hbs) & Hprev). set (old := meta_of graphActiveMeta d) in *.
  assert (Hpr : prior = pointer old) by by apply same_pointer_spec.
  assert (Hne : id <> old).
  { intros ->. destruct Hprev as [Hnil|(b' & Hb' & Hid'%streq_true & Ha')].
    - destruct (constraints_ids _ (inv_constraints _ Hi)) as [_ Hlen]. specialize (Hlen row Hin).
      by rewrite Hid, Hnil in Hlen.
    - rewrite (same_id d b' row) in Ha' by (done || congruence || apply Hi). congruence. }
  assert (Hnot : forall i, i <> id -> prior <> Some i -> retire_old old <$> row_of i d = row_of i d).
  { intros i Hi1 Hi2. destruct (row_of i d) as [r|] eqn:Hri; [|done]. cbn. f_equal. unfold retire_old, has_id.
    apply row_of_elem in Hri as [_ Hri]. rewrite Hri. rewrite Hpr in Hi2. unfold pointer in Hi2.
    destruct (bool_decide_reflect (old = [])); [done|]. cbn [negb andb]. destruct (streq i old) eqn:E; [|done].
    apply streq_true in E. congruence. }
  assert (Hpm : forall i, promote id staged old at_ <$> (retire_old old <$> row_of i d)
                = if decide (i = id) then Some (promote id staged old at_ row) else retire_old old <$> row_of i d).
  { intros i. destruct (decide (i = id)) as [->|Hn].
    - rewrite Hrow. cbn. f_equal. unfold retire_old. rewrite Hna, andb_false_r. done.
    - destruct (row_of i d) as [r|] eqn:Hri; [|done]. cbn. f_equal. unfold promote, has_id. rewrite retire_id.
      apply row_of_elem in Hri as [_ ->]. by rewrite (proj2 (streq_false _ _) Hn). }
  assert (Hrows : forall i, row_of i (publish id staged old at_ d)
                = if decide (i = id) then Some (promote id staged old at_ row) else retire_old old <$> row_of i d).
  { intros i. rewrite <- Hpm. unfold row_of. rewrite publish_rows, find_gen_map by (intros; apply promote_id).
    f_equal. apply find_gen_map. apply retire_id. }
  assert (Hstat : has_status (if staged then "staged" else "retired") row = true).
  { apply list_elem_of_fmap in Hb as (b0 & -> & Hb0). unfold has_id in Hbid. rewrite retire_id in Hbid. apply streq_true in Hbid.
    rewrite (same_id d b0 row) in Hbs by (done || congruence || apply Hi). unfold retire_old in Hbs.
    by rewrite Hna, andb_false_r in Hbs. }
  assert (Hact : row_of id (publish id staged old at_ d) = Some (promote id staged old at_ row)).
  { rewrite Hrows. by rewrite decide_True. }
  assert (Hpa : is_active (promote id staged old at_ row)).
  { unfold promote, has_id. rewrite Hid, streq_refl, Hstat. by destruct staged. }
  constructor.
  - done.
  - by rewrite publish_meta, streq_refl.
  - pose proof (row_of_elem _ _ _ Hact) as [Hel Hpid]. exists (promote id staged old at_ row). split_and!; [done|done| |].
    + apply Hi'; [done|by apply active_published].
    + by apply active_unique.
  - right. split_and!.
    + rewrite publish_meta. done.
    + rewrite Hpr. unfold pointer. case_bool_decide; congruence.
    + intros p Hp. rewrite Hrows. rewrite Hpr in Hp. unfold pointer in Hp.
      destruct (bool_decide_reflect (old = [])) as [|Hnn]; [done|]. injection Hp as <-. rewrite decide_False by done.
      destruct Hprev as [?|(b' & Hb' & Hid'%streq_true & Ha')]; [done|]. subst old. rewrite <- Hid'.
      rewrite row_of_unique by (done || apply Hi). cbn. f_equal. unfold retire_old, has_id.
      rewrite bool_decide_false by congruence. by rewrite Hid', streq_refl, Ha'.
    + intros i Hi1 Hi2. rewrite Hrows, decide_False by done. auto.
    + intros key Hk1 Hk2. rewrite publish_meta. by rewrite (proj2 (streq_false _ _) Hk1), (proj2 (streq_false _ _) Hk2).
Qed.
Lemma unchanged_activated id prior at_ d row : invariant d -> row_of id d = Some row ->
  sound graphContentValidationCurrent row -> is_active row -> same_pointer prior (meta_of graphActiveMeta d) = true ->
  meta_of graphActiveMeta d = id -> activated id prior at_ d d.
Proof.
  intros Hi Hrow Hs Ha Hp Hm. pose proof (row_of_elem _ _ _ Hrow) as [Hin Hid]. constructor; [done|done| |by left].
  exists row. split_and!; [done..|]. by apply active_unique.
Qed.
Lemma not_active_status row : has_status "staged" row || has_status "retired" row = true -> has_status "active" row = false.
Proof. unfold has_status. intros [->%streq_true| ->%streq_true]%orb_true_iff; done. Qed.
Lemma same_pointer_self old : same_pointer (pointer old) old = true.
Proof.
  destruct old as [|c old]; [done|]. change (pointer (c :: old)) with (Some (c :: old)).
  cbn [same_pointer]. by rewrite streq_refl.
Qed.
(** The pointer that the transaction of a job found is the one it was told to expect, if any. *)
Lemma activateTx_run id expected at_ d u d' : invariant d -> (forall p, expected = Some p -> length p = 32) ->
  gives (activateGraphGenerationTx id expected at_) d u d' ->
  (forall p, expected = Some p -> pointer (meta_of graphActiveMeta d) = Some p) /\
  activated id (pointer (meta_of graphActiveMeta d)) at_ d d'.
Proof.
  unfold activateGraphGenerationTx. intros Hi Hlen Hg. apply gives_bind in Hg as (u0 & v & Hu0 & Hg). tx_inv Hu0.
  apply gives_bind in Hg as (b & v & Hb & Hg). apply gives_validated in Hb as (-> & row & Hrow & -> & Hs).
  cbv zeta in Hg. apply gives_bind in Hg as (old & v & Hold & Hg). apply gives_meta_bytes in Hold as [-> ->].
  apply gives_bind in Hg as (rows & v & Hr & Hg). apply gives_active_rows in Hr as [-> ->].
  change (g_Status (Generation (read_bundle row))) with (status_of row) in Hg.
  assert (Hnamed : forall p, expected = Some p -> p = meta_of graphActiveMeta d -> pointer (meta_of graphActiveMeta d) = Some p).
  { intros p Hp <-. unfold pointer. rewrite bool_decide_false; [done|]. intros ->. by specialize (Hlen _ Hp). }
  destruct (_ && streq _ id) eqn:Hsame.
  - apply gives_bind in Hg as (r & v & Hr & Hg). apply gives_reads in Hr as [-> (n & k & Hr)].
    apply gives_ancestry in Hg as ->. apply andb_true_iff in Hsame as [[Ha Hn]%andb_true_iff Hid%streq_true].
    unfold validateActiveGraphPriorForReplacement in Hr. apply bind_run in Hr as (u1 & n1 & _ & Hr).
    apply bind_run in Hr as (u2 & n2 & E2 & _). apply assert_run in E2 as [E2 _]. split.
    + intros p ->. apply (Hnamed p); [done|]. by apply streq_true in E2.
    + by apply (unchanged_activated id _ at_ d row); [..|apply same_pointer_self|].
  - unfold resolve_old in Hg. rewrite dangling_never in Hg by done.
    apply gives_bind in Hg as (old & v & Hold & Hg). apply gives_ret in Hold as [-> ->].
    apply gives_bind in Hg as (u1 & v & Hu1 & Hg). tx_inv Hu1.
    apply gives_bind in Hg as (u2 & v & Hu2 & Hg). tx_inv Hu2.
    apply gives_bind in Hg as (u3 & v & Hp & Hg). apply gives_check_prior in Hp as ->.
    apply replace_active_run in Hg as [Hg Hst]. split.
    + intros p ->. apply (Hnamed p); [done|]. by apply streq_true in Hu1.
    + eapply publish_activated; [done|done|done|by apply not_active_status|apply same_pointer_self|done].
Qed.
End invariant.
