(* ===== verification/GraphStaging.v ===== *)
(** From staging to activation: the rows that staging stores are those of the validated
    bundle, so on a reliable connection the staged generation can be activated. *)
From S2P Require Import Prelude GoStrings GoStringFacts GoSort GoNum GoTime Graph GraphFacts GraphStore GraphStoreFacts IndexTables GraphValidate GraphValidateFacts GraphPublish GraphPublishFacts.

Local Open Scope go_scope.

Section staging.
Context `{UnicodeTables} `{NFC} `{UrlParser} `{SHA256}.

(** * What staging stores *)

(** The header of a staged generation and the rows of the bundle. *)
Definition stored (b : GraphBundle) : GraphBundle :=
  mkBundle (staged_header (Generation b)) (Nodes b) (Edges b) (Evidence b) (Unresolved b).

Lemma normalized_trimmed v : normalizeText v = Ok v -> trimSpace v = v.
Proof.
  unfold normalizeText. destruct (validString v) eqn:Hv; [|done]. destruct (hasControl v); [done|].
  cbn [negb]. intros [= Hn]. rewrite <- Hn at 1. rewrite nfc_trimmed; done.
Qed.
Lemma context_trimmed v name : normalizeContext v name = Ok v -> trimSpace v = v.
Proof.
  unfold normalizeContext. intros Hn. bind_inv Hn as t Ht. destruct (_ && _); [done|]. injection Hn as ->.
  by apply normalized_trimmed.
Qed.
Lemma unresolved_row_fixed id u : unresolved_valid id u -> unresolved_row id u = u.
Proof.
  intros (Hg & _ & Hn). unfold NormalizeGraphUnresolvedContext in Hn.
  bind_inv Hn as doc H1'. bind_inv Hn as block H2'. bind_inv Hn as kind H3'. bind_inv Hn as value H4'.
  injection Hn as Hu. destruct u. simpl in Hg, Hu, H1', H2', H3', H4'.
  injection Hu as -> -> -> ->.
  apply context_trimmed in H1', H2', H3', H4'. unfold unresolved_row, nullableGraphText. cbn -[trimSpace].
  by rewrite H1', H2', H3', H4', Hg.
Qed.
Lemma map_fixed {A} (f : A -> A) l : Forall (fun x => f x = x) l -> map f l = l.
Proof. induction 1 as [|x l Hx _ IH]; [done|]. cbn. by rewrite Hx, IH. Qed.

Section connected.
Context `{Connection}.

(** ** The inserts *)
Record grown (id : digest) (f : GraphBundle -> GraphBundle) (w w' : database) : Prop := {
  gr_rows : generations w' = map (fun b => if has_id id b then f b else b) (generations w);
  gr_meta : meta w' = meta w;
  gr_migrations : d_migrations w' = d_migrations w;
  gr_constraints : constraints w = true -> constraints w' = true }.
Lemma grown_refl id w : grown id (fun b => b) w w.
Proof. constructor; [|done..]. symmetry. apply map_fixed, Forall_forall. intros b _. by destruct (has_id id b). Qed.
Lemma grown_trans id f g w1 w2 w3 : (forall b, id_of (f b) = id_of b) ->
  grown id f w1 w2 -> grown id g w2 w3 -> grown id (fun b => g (f b)) w1 w3.
Proof.
  intros Hf [R1 M1 D1 C1] [R2 M2 D2 C2]. constructor; [|congruence|congruence|auto].
  rewrite R2, R1. rewrite map_map. apply map_ext. intros b. unfold has_id. destruct (streq (id_of b) id) eqn:E; [|by rewrite E].
  by rewrite Hf, E.
Qed.
Lemma grown_ext id f g w w' : (forall b, f b = g b) -> grown id f w w' -> grown id g w w'.
Proof. intros Hfg [R M D C]. constructor; [|done..]. rewrite R. apply map_ext. intros b. by rewrite Hfg. Qed.
Lemma exec_all_grown {A} id (f : A -> GraphBundle -> GraphBundle) l : (forall a b, id_of (f a b) = id_of b) ->
  forall w u w', gives (exec_all (fun a => add_rows_to id (f a)) l) w u w' ->
  grown id (fun b => foldl (fun b a => f a b) b l) w w'.
Proof.
  intros Hf. induction l as [|a l IH]; intros w u w' Hg; cbn [exec_all] in Hg.
  { apply gives_ret in Hg as [_ ->]. apply grown_refl. }
  apply gives_bind in Hg as (n & v & Hd & Hg). apply gives_exec in Hd as [[= <- _] Hc]. apply IH in Hg.
  refine (grown_trans id (f a) _ w _ w' _ _ Hg); [done|by constructor].
Qed.
Lemma insert_unresolved_grown id us : forall w u w', gives (insert_all_unresolved id us) w u w' ->
  grown id (fun b => foldl (fun b x => mkBundle (Generation b) (Nodes b) (Edges b) (Evidence b) (Unresolved b ++ [unresolved_row id x])) b us) w w'.
Proof.
  induction us as [|x us IH]; intros w u w' Hg; cbn [insert_all_unresolved] in Hg.
  { apply gives_ret in Hg as [_ ->]. apply grown_refl. }
  apply gives_bind in Hg as (a & v & Ha & Hg). tx_inv Ha.
  apply gives_bind in Hg as (n & v & Hd & Hg). apply gives_exec in Hd as [[= <- _] Hc]. apply IH in Hg.
  refine (grown_trans id (fun b => mkBundle (Generation b) (Nodes b) (Edges b) (Evidence b) (Unresolved b ++ [unresolved_row id x]))
    _ w _ w' _ _ Hg); [done|by constructor].
Qed.
(** The bundle [b] with more rows. *)
Definition with_rows (ns : list GraphNodeRecord) (es : list GraphEdgeRecord) (vs : list GraphEvidence)
    (us : list GraphUnresolved) (b : GraphBundle) : GraphBundle :=
  mkBundle (Generation b) (Nodes b ++ ns) (Edges b ++ es) (Evidence b ++ vs) (Unresolved b ++ us).
Lemma fold_rows {A B} (add : A -> GraphBundle -> GraphBundle) (g : A -> B) (app : list B -> GraphBundle -> GraphBundle) :
  (forall b, app [] b = b) -> (forall a l b, app (g a :: l) b = app l (add a b)) ->
  forall l b, foldl (fun b a => add a b) b l = app (map g l) b.
Proof. intros Hn Hc. induction l as [|a l IH]; intros b; cbn [foldl map]; [done|]. by rewrite IH, Hc. Qed.
Lemma app_cons_snoc {A} (l : list A) x k : l ++ x :: k = (l ++ [x]) ++ k.
Proof. by rewrite <- app_assoc. Qed.
Lemma stage_rows_run b w u w' : wf_bundle b -> gives (stage_rows b) w u w' ->
  grown (id_of b) (with_rows (Nodes b) (Edges b) (Evidence b) (Unresolved b)) w w'.
Proof.
  intros [[_ [_ Hn]] [_ [_ He]] [_ Hv] _ [_ Hu]] Hg. unfold stage_rows in Hg. cbv zeta in Hg.
  change (g_GenerationID (Generation b)) with (id_of b) in *.
  apply gives_bind in Hg as (u1 & w1 & G1 & Hg). apply exec_all_grown in G1; [|done].
  apply gives_bind in Hg as (u2 & w2 & G2 & Hg). apply exec_all_grown in G2; [|done].
  apply gives_bind in Hg as (u3 & w3 & G3 & Hg). apply exec_all_grown in G3; [|done].
  apply insert_unresolved_grown in Hg.
  assert (Hnil : forall c : GraphBundle, with_rows [] [] [] [] c = c).
  { intros []. unfold with_rows. cbn. by rewrite !app_nil_r. }
  apply (grown_ext _ _ (with_rows (Nodes b) [] [] [])) in G1.
  2:{ intros c. rewrite (fold_rows _ (node_in (id_of b)) (fun l => with_rows l [] [] [])); [|done|].
      - rewrite map_fixed; [done|]. eapply Forall_impl; [exact Hn|]. intros n (k & []). by apply node_in_fixed.
      - intros x l d. unfold with_rows. cbn. by rewrite app_cons_snoc. }
  apply (grown_ext _ _ (with_rows [] (Edges b) [] [])) in G2.
  2:{ intros c. rewrite (fold_rows _ (edge_in (id_of b)) (fun l => with_rows [] l [] [])); [|done|].
      - rewrite map_fixed; [done|]. eapply Forall_impl; [exact He|]. intros e (k & []). by apply edge_in_fixed.
      - intros x l d. unfold with_rows. cbn. by rewrite app_cons_snoc. }
  apply (grown_ext _ _ (with_rows [] [] (Evidence b) [])) in G3.
  2:{ intros c. rewrite (fold_rows _ (evidence_in (id_of b)) (fun l => with_rows [] [] l [])); [|done|].
      - rewrite map_fixed; [done|]. eapply Forall_impl; [exact Hv|]. intros v [? _]. by apply evidence_in_fixed.
      - intros x l d. unfold with_rows. cbn. by rewrite app_cons_snoc. }
  apply (grown_ext _ _ (with_rows [] [] [] (Unresolved b))) in Hg.
  2:{ intros c. rewrite (fold_rows (fun x b0 => mkBundle (Generation b0) (Nodes b0) (Edges b0) (Evidence b0) (Unresolved b0 ++ [unresolved_row (id_of b) x]))
        (unresolved_row (id_of b)) (with_rows [] [] [])); [|done|].
      - rewrite map_fixed; [done|]. eapply Forall_impl; [exact Hu|]. intros x. apply unresolved_row_fixed.
      - intros x l d. unfold with_rows. cbn. by rewrite app_cons_snoc. }
  eapply grown_ext; [|eapply (grown_trans (id_of b) (with_rows (Nodes b) [] [] []) _ w w1 w'); [done|exact G1|];
    eapply (grown_trans (id_of b) (with_rows [] (Edges b) [] []) _ w1 w2 w'); [done|exact G2|];
    eapply (grown_trans (id_of b) (with_rows [] [] (Evidence b) []) _ w2 w3 w'); [done|exact G3|exact Hg]].
  intros []. unfold with_rows. cbn. by rewrite !app_nil_r.
Qed.

(** ** The staged generation *)
Lemma row_of_grown id f w w' i : (forall b, id_of (f b) = id_of b) -> grown id f w w' ->
  row_of i w' = (if decide (i = id) then f <$> row_of i w else row_of i w).
Proof.
  intros Hf [R _ _ _]. unfold row_of. rewrite R, find_gen_map by (intros b; by destruct (has_id id b)).
  destruct (find_gen i (generations w)) as [b|] eqn:Hb; [|by case_decide]. cbn. unfold has_id.
  apply row_of_elem in Hb as [_ ->]. destruct (streq i id) eqn:E.
  - apply streq_true in E as ->. by rewrite decide_True.
  - apply streq_false in E. by rewrite decide_False.
Qed.
(** The rows of the bundle, and nothing else, have been added. *)
Record staged_as (b : GraphBundle) (w w' : database) : Prop := {
  sg_row : row_of (id_of b) w' = Some (stored b);
  sg_others : forall i, i <> id_of b -> row_of i w' = row_of i w;
  sg_active : forall b', b' ∈ generations w' -> b' ∈ generations w \/ b' = stored b;
  sg_meta : meta w' = meta w;
  sg_constraints : constraints w' = true }.
Lemma stored_id b : id_of (stored b) = id_of b.
Proof. done. Qed.
Lemma find_gen_app i l l' : find_gen i (l ++ l') = match find_gen i l with Some b => Some b | None => find_gen i l' end.
Proof. apply head_matching_app. Qed.
Lemma insert_bundle_run b w u w' : wf_bundle b -> row_of (id_of b) w = None ->
  gives (insert_bundle b) w u w' -> staged_as b w w'.
Proof.
  intros Hwf Hnew (x & y & <- & Hi & <-). unfold insert_bundle in Hi. destruct (exec _ x) as [[n|e] z] eqn:Ex.
  - assert (Hh : gives (exec (insert_generation (Generation b))) (x_work x) n (x_work z)) by (by exists x, z).
    apply gives_exec in Hh as [Hw Hc]. injection Hw as Hw _.
    assert (Hs : gives (stage_rows b) (x_work z) u (x_work y)) by (by exists z, y).
    apply stage_rows_run in Hs; [|done]. set (hdr := mkBundle (staged_header (Generation b)) [] [] [] []) in *.
    set (f := with_rows _ _ _ _) in Hs. assert (Hf : forall c, id_of (f c) = id_of c) by done.
    assert (Hz : forall i, row_of i (x_work z) = if decide (i = id_of b) then Some hdr else row_of i (x_work x)).
    { intros i. unfold row_of. rewrite <- Hw. cbn [generations with_generations d_tables t_generations]. rewrite find_gen_app.
      fold (row_of i (x_work x)). assert (Hone : find_gen i [hdr] = if decide (i = id_of b) then Some hdr else None).
      { unfold find_gen, matching. rewrite filter_cons. change (g_GenerationID (Generation hdr)) with (id_of b).
        destruct (streq (id_of b) i) eqn:E; [apply streq_true in E as ->|apply streq_false in E].
        - by rewrite !decide_True.
        - rewrite !decide_False by congruence. done. }
      rewrite Hone. case_decide as Hd; [subst i; by rewrite Hnew|]. by destruct (row_of i (x_work x)). }
    assert (Hhdr : f hdr = stored b) by done.
    constructor.
    + rewrite (row_of_grown _ _ _ _ _ Hf Hs), Hz, !decide_True by done. cbn. by rewrite Hhdr.
    + intros i Hne. by rewrite (row_of_grown _ _ _ _ _ Hf Hs), Hz, !decide_False by done.
    + intros b'. rewrite (gr_rows _ _ _ _ Hs). intros (b0 & -> & Hb0)%list_elem_of_fmap.
      assert (Hin : hdr ∈ generations (x_work z)) by (rewrite <- Hw; cbn; set_solver).
      destruct (has_id (id_of b) b0) eqn:Hid.
      * right. apply streq_true in Hid. rewrite (same_id _ b0 hdr Hc) by done. done.
      * left. rewrite <- Hw in Hb0. apply elem_of_app in Hb0 as [?|Hb0]; [done|]. apply list_elem_of_singleton in Hb0 as ->.
        unfold has_id in Hid. change (id_of hdr) with (id_of b) in Hid. by rewrite streq_refl in Hid.
    + rewrite (gr_meta _ _ _ _ Hs). by rewrite <- Hw.
    + by apply (gr_constraints _ _ _ _ Hs).
  - assert (Hz : x_work z = x_work x).
    { unfold exec in Ex. destruct (sql_fails _); [by injection Ex as _ <-|]. destruct (insert_generation _ _).
      destruct (constraints _); [done|]. by injection Ex as _ <-. }
    destruct e; try done. exfalso.
    assert (Hs : gives (restage (Generation b)) (x_work z) u (x_work y)) by (by exists z, y). rewrite Hz in Hs.
    unfold restage in Hs. apply gives_bind in Hs as (r & v & Hr & Hs). apply gives_reads in Hr as [-> (n & k & Hr)].
    apply attempt_run in Hr. destruct r as [c|e]; [|by apply gives_throw in Hs].
    apply load_run in Hr as (row & Hrow & _). unfold row_of in Hnew. change (generations ?d) with (t_generations (d_tables d)) in Hnew.
    change (id_of b) with (g_GenerationID (Generation b)) in Hnew. by rewrite Hnew in Hrow.
Qed.
Lemma stored_sound b b' : Validate b = Ok b' -> fingerprints_present (Generation b) = true ->
  sound graphContentValidationCurrent (stored b').
Proof.
  intros (Hm & Hwf & Hg & Hn & He & Hv & Hu & Hd & Hid)%Validate_ok Hf.
  apply (sound_header _ "staged" [] (g_PreviousGenerationID (Generation b')) 0 b'). apply wf_sound; [done| |by rewrite Hg|done|done].
  unfold validate_metadata in Hm. destruct (_ || _) eqn:E in Hm; [done|]. clear Hm. bool_to_prop.
  unfold counted. cbv zeta. unfold lenZ in *. rewrite Hg, Hn, He, Hv, Hu.
  by rewrite !(proj2 (Z.eqb_eq _ _)) by congruence.
Qed.
Lemma stage_run b n d k d' : StageGraphGeneration b (n, d) = (Ok tt, (k, d')) -> row_of (id_of b) d = None ->
  exists b', Validate b = Ok b' /\ Generation b' = Generation b /\ staged_as b' d d'.
Proof.
  unfold StageGraphGeneration. intros Hg%immediate_ok; [|transactional]. intros Hnew.
  apply gives_bind in Hg as (u & w & Hs & Hg). tx_inv Hg. unfold stageGraphGenerationConn in Hs.
  apply gives_bind in Hs as (a & v & Ha & Hs). tx_inv Ha. apply gives_bind in Hs as (b' & v & Hb & Hs).
  apply gives_lift in Hb as [Hb ->]. destruct (Validate b) as [c|] eqn:Hv; [|done]. injection Hb as ->.
  pose proof (Validate_ok _ _ Hv) as (_ & Hwf & Hgen & _). exists b'. split_and!; [done|done|].
  eapply insert_bundle_run; [done| |done]. unfold id_of. by rewrite Hgen.
Qed.
End connected.

(** * The constraints of the schema under the writes of an activation *)
Lemma existsb_ids p gs : existsb (has_id p) gs = bool_decide (p ∈ map id_of gs).
Proof.
  induction gs as [|b gs IH]; [done|]. cbn [existsb map]. rewrite IH. unfold has_id.
  destruct (streq (id_of b) p) eqn:E; [apply streq_true in E|apply streq_false in E]; cbn [orb].
  - symmetry. apply bool_decide_eq_true. subst. left.
  - apply bool_decide_ext. set_solver.
Qed.
(** A change of status, error, predecessor and publication time that the schema allows. *)
Definition republished (gs : list GraphBundle) (b b' : GraphBundle) : Prop :=
  b' = b \/ exists s e p t, b' = on_header (fun g => set_publication s e p t g) b /\ validStatus s = true /\
    (p = g_PreviousGenerationID (Generation b) \/ p = None \/ exists q, p = Some q /\ q ∈ map id_of gs).
Lemma generation_checks_republished gs g s e p t : generation_checks gs g = true -> validStatus s = true ->
  (p = g_PreviousGenerationID g \/ p = None \/ exists q, p = Some q /\ is_digest q = true /\ q ∈ map id_of gs) ->
  generation_checks gs (set_publication s e p t g) = true.
Proof.
  unfold generation_checks. intros Hg Hs Hp. apply andb_true_iff in Hg as [Hg Ho]. apply andb_true_iff in Hg as [Hg Hn].
  apply andb_true_iff in Hg as [Hg _]. apply andb_true_iff; split.
  { apply andb_true_iff; split; [|exact Hn]. apply andb_true_iff; split; [exact Hg|exact Hs]. }
  destruct Hp as [->|[->|(q & -> & Hd & Hq)]]; [exact Ho|done|]. cbn. rewrite existsb_ids, Hd. by apply bool_decide_eq_true.
Qed.
Lemma constraints_republished w f : constraints w = true ->
  (forall b, b ∈ generations w -> republished (generations w) b (f b)) ->
  unique (fun b => g_WorkspaceIdentity (Generation b)) (matching (has_status "active") (map f (generations w))) = true ->
  constraints (with_generations (map f (generations w)) w) = true.
Proof.
  intros Hc Hf Hu. pose proof (constraints_ids _ Hc) as [_ Hlen]. unfold constraints, index_keys in *.
  change (generations (with_generations ?gs w)) with gs. change (d_migrations (with_generations _ w)) with (d_migrations w).
  change (meta (with_generations _ w)) with (meta w). change (d_index (with_generations _ w)) with (d_index w).
  assert (Hids : map id_of (map f (generations w)) = map id_of (generations w)).
  { rewrite map_map. apply map_ext_in. intros b Hb%list_elem_of_In. by destruct (Hf b Hb) as [->|(? & ? & ? & ? & -> & _)]. }
  rewrite Hu. unfold unique at 1. rewrite Hids. bool_to_prop. repeat (apply andb_true_iff; split); try done.
  - rewrite forallb_forall in *. intros b' (b & <- & Hb)%in_map_iff.
    match goal with E : forall x, In x (generations w) -> bundle_checks _ x = true |- _ => pose proof (E b Hb) as Hck end.
    assert (Hgen : forall g, generation_checks (map f (generations w)) g = generation_checks (generations w) g).
    { intros g. unfold generation_checks.
      destruct (g_PreviousGenerationID g); cbn [optional]; [by rewrite !existsb_ids, Hids|done]. }
    unfold bundle_checks in *. rewrite Hgen. apply list_elem_of_In in Hb.
    destruct (Hf b Hb) as [->|(s & e & p & t & -> & Hs & Hp)]; [done|].
    apply andb_true_iff in Hck as [Hck Hun]. apply andb_true_iff in Hck as [Hck Hev].
    apply andb_true_iff in Hck as [Hck Hed]. apply andb_true_iff in Hck as [Hck Hno].
    apply andb_true_iff; split; [|exact Hun]. apply andb_true_iff; split; [|exact Hev].
    apply andb_true_iff; split; [|exact Hed]. apply andb_true_iff; split; [|exact Hno].
    apply generation_checks_republished; [done..|]. destruct Hp as [->|[->|(q & -> & Hq)]]; [by left|by right; left|].
    right. right. exists q. split; [done|]. split; [|done]. apply list_elem_of_fmap in Hq as (b0 & -> & Hb0).
    unfold is_digest. by rewrite Hlen.
  - rewrite forallb_forall in *. intros m Hm.
    match goal with E : forall x, In x (d_migrations w) -> _ |- _ => specialize (E m Hm) end.
    unfold migration_checks in *. destruct (m_PriorActiveGenerationID m); [|done]. cbn in *. by rewrite !existsb_ids, Hids in *.
  - by apply bool_decide_eq_true.
  - by apply bool_decide_eq_true.
  - by apply bool_decide_eq_true.
Qed.
Lemma unique_active gs : NoDup (map id_of gs) ->
  (forall b b', b ∈ gs -> b' ∈ gs -> is_active b -> is_active b' -> id_of b = id_of b') ->
  unique (fun b => g_WorkspaceIdentity (Generation b)) (matching (has_status "active") gs) = true.
Proof.
  intros Hnd Hact. unfold unique. apply bool_decide_eq_true.
  assert (Hnd' : NoDup (map id_of (matching (has_status "active") gs))).
  { eapply sublist_NoDup; [exact Hnd|]. apply (fmap_sublist id_of), sublist_filter. }
  destruct (matching (has_status "active") gs) as [|b [|b' l]] eqn:Hm; [constructor|apply NoDup_singleton|].
  exfalso. assert (Hb : b ∈ b :: b' :: l) by left. assert (Hb' : b' ∈ b :: b' :: l) by (right; left).
  rewrite <- Hm in Hb, Hb'. apply matching_some in Hb as [Ha Hb], Hb' as [Ha' Hb'].
  cbn in Hnd'. apply NoDup_cons in Hnd' as [Hn _]. apply Hn. rewrite (Hact b b'); [left|done..].
Qed.
Lemma constraints_meta w m : constraints w = true -> NoDup (map fst m) -> constraints (with_meta m w) = true.
Proof.
  unfold constraints, index_keys. intros Hc Hm. bool_to_prop. repeat (apply andb_true_iff; split); try done; by apply bool_decide_eq_true.
Qed.
Lemma map_fst_set keys v (m : list (gostring * option gostring)) : map fst (set_value keys v m) = map fst m.
Proof. unfold set_value. rewrite map_map. apply map_ext. intros r. by destruct (oneOf _ _). Qed.
Lemma constraints_upsert key v w : constraints w = true -> constraints (fst (upsert key v w)) = true.
Proof.
  intros Hc. apply constraints_meta; [done|]. assert (Hnd : NoDup (map fst (meta w))).
  { unfold constraints, unique in Hc. by bool_to_prop. }
  destruct (has_key key (meta w)) eqn:Hk; [by rewrite map_fst_set|]. rewrite map_app. apply NoDup_app. split_and!; [done| |apply NoDup_singleton].
  intros x Hx Hx'. apply list_elem_of_singleton in Hx'. cbn in Hx'. subst x. apply list_elem_of_fmap in Hx as (r & -> & Hr).
  unfold has_key in Hk. apply not_true_iff_false in Hk. apply Hk. apply existsb_exists. exists r.
  split; [by apply list_elem_of_In|apply streq_refl].
Qed.

(** * Runs that succeed *)
Section live.
Context `{Connection}.
Hypothesis Hr : reliable.

Definition runs {A} (m : Tx A) (w : database) (a : A) (w' : database) : Prop := forall x,
  x_work x = w -> fst (m x) = Ok a /\ x_work (snd (m x)) = w'.
Lemma runs_bind {A B} (m : Tx A) (f : A -> Tx B) w a v b w' :
  runs m w a v -> runs (f a) v b w' -> runs (m ≫= f) w b w'.
Proof.
  intros Hm Hf x Hx. destruct (Hm x Hx) as [Ha Hv]. unfold mbind, eff_bind. destruct (m x) as [[a'|e] y]; cbn in *; [|done].
  injection Ha as ->. by apply Hf.
Qed.
Lemma runs_ret {A} (a : A) w : runs (mret a) w a w.
Proof. by intros x <-. Qed.
Lemma runs_expect b e w : b = true -> runs (expect b e) w tt w.
Proof. intros ->. by intros x <-. Qed.
Lemma runs_reads {A} (m : tables -> R A) w a : (forall n, fst (m (d_tables w) n) = Ok a) -> runs (reads m) w a w.
Proof. intros Hm x <-. unfold reads. specialize (Hm (x_calls x)). destruct (m _ _). cbn in *. done. Qed.
Lemma runs_reads_db {A} (rows : database -> list A) w : runs (reads_db rows) w (rows w) w.
Proof. intros x <-. unfold reads_db, from_Q, query. by rewrite Hr. Qed.
Lemma runs_exec f w w' n : f w = (w', n) -> constraints w' = true -> runs (exec f) w n w'.
Proof. intros Hf Hc x <-. unfold exec. by rewrite Hr, Hf, Hc. Qed.
Lemma runs_exec_one e f w w' : f w = (w', 1%Z) -> constraints w' = true -> runs (exec_one e f) w tt w'.
Proof. intros Hf Hc. eapply runs_bind; [by apply runs_exec|by apply runs_expect]. Qed.
Lemma runs_commit w : runs commit w tt w.
Proof. intros x <-. unfold commit. by rewrite Hr. Qed.
Lemma immediate_runs body n d d' : transactional body -> runs body d tt d' ->
  exists k, immediate body (n, d) = (Ok tt, (k, d')).
Proof.
  intros Ht Hb. unfold immediate. rewrite Hr. destruct (Hb (mkTxn (S n) d d) eq_refl) as [Ho Hw].
  specialize (Ht (mkTxn (S n) d d)). destruct (body _) as [[[]|] y]; cbn in *; [|done]. exists (x_calls y). by rewrite Ht, Hw.
Qed.
Lemma runs_meta_bytes key w : runs (meta_bytes key) w (meta_of key w) w.
Proof.
  apply runs_reads. intros n. unfold from_Q, meta_row, queryRow, query, mbind, eff_bind. by rewrite Hr.
Qed.
Lemma runs_active_rows w : runs active_rows w (lenZ (matching (has_status "active") (generations w))) w.
Proof. eapply runs_bind; [apply runs_reads_db|apply runs_ret]. Qed.
Lemma runs_validated id w row : row_of id w = Some row -> sound graphContentValidationCurrent row ->
  runs (validated id) w (read_bundle row) w.
Proof. intros Hrow Hs. apply runs_reads. intros n. by apply validate_value. Qed.

(** The histories that the checks of an activation walk. *)
Lemma runs_ancestry id ws replacement w row ids : canonical_identity ws = true -> row_of id w = Some row ->
  g_WorkspaceIdentity (Generation row) = ws ->
  predecessors (d_tables w) ws (g_PreviousGenerationID (Generation row)) [] \/ replacement = None ->
  predecessors (d_tables w) ws (match replacement with Some p => p | None => g_PreviousGenerationID (Generation row) end) ids ->
  NoDup (id :: ids) -> length (id :: ids) <= graphGenerationAncestryMaxDepth ->
  runs (ancestry id ws replacement) w tt w.
Proof.
  intros Hcan Hrow Hws Hself Hpre Hnd Hlen. apply runs_reads. intros n. unfold validateGraphGenerationAncestry.
  rewrite bind_unit by by apply assert_value. unfold walkGraphGenerationAncestry. destruct replacement as [p|].
  - destruct Hself as [Hself|]; [|done]. rewrite bind_unit.
    + by apply (walk_first_value (d_tables w) ws Hr Hcan (Some p) id row ids).
    + apply (walk_first_value (d_tables w) ws Hr Hcan None id row []); [done|done|done|apply NoDup_singleton|].
      unfold graphGenerationAncestryMaxDepth. cbn [length]. lia.
  - rewrite bind_unit; [done|]. by apply (walk_first_value (d_tables w) ws Hr Hcan None id row ids).
Qed.
Lemma runs_prior old w row : row_of old w = Some row -> is_active row -> sound graphContentValidationCurrent row ->
  g_SchemaVersion (Generation row) = 1%Z -> canonical_identity (g_WorkspaceIdentity (Generation row)) = true ->
  length old = 32 ->
  runs (reads (fun t => validateActiveGraphPriorForReplacement t old (Some old) 1)) w graphPriorCurrentValid w.
Proof.
  intros Hrow Ha Hs Hsc Hcan Hlen. apply runs_reads. intros n. unfold validateActiveGraphPriorForReplacement.
  rewrite bind_unit by (apply assert_value; by rewrite Hlen). rewrite bind_unit by (apply assert_value, streq_refl).
  rewrite (bind_value _ _ _ _ (attempt_value _ _)).
  unfold validateGraphGenerationConn. rewrite (validate_value Hr _ _ graphContentValidationCurrent row _ Hrow Hs).
  unfold valid_prior, replaceable. cbn [read_bundle Generation read_back g_Status g_SchemaVersion g_RepositoryIdentity g_WorkspaceIdentity].
  unfold is_active, has_status, status_of in Ha. by rewrite Ha, Hsc, streq_refl, Hcan.
Qed.

Lemma matching_id_one (p : GraphBundle -> bool) w b : constraints w = true -> b ∈ generations w -> p b = true ->
  (forall b', b' ∈ generations w -> p b' = true -> id_of b' = id_of b) -> lenZ (matching p (generations w)) = 1%Z.
Proof.
  intros Hc Hb Hp Hu. pose proof (constraints_ids _ Hc) as [Hnd _].
  assert (Hnd' : NoDup (map id_of (matching p (generations w)))).
  { eapply sublist_NoDup; [exact Hnd|]. apply (fmap_sublist id_of), sublist_filter. }
  assert (Hin : b ∈ matching p (generations w)) by by apply matching_some.
  destruct (matching p (generations w)) as [|x [|y l]] eqn:Hm; [set_solver|done|]. exfalso.
  assert (Hx : x ∈ x :: y :: l) by left. assert (Hy : y ∈ x :: y :: l) by (right; left).
  rewrite <- Hm in Hx, Hy. apply matching_some in Hx as [Hpx Hx], Hy as [Hpy Hy].
  cbn in Hnd'. apply NoDup_cons in Hnd' as [Hn _]. apply Hn. rewrite (Hu x), (Hu y) by done. left.
Qed.
Lemma retire_republished old w b : b ∈ generations w -> republished (generations w) b (retire_old old b).
Proof.
  intros Hb. unfold retire_old. destruct (_ && _); [|by left]. right. eexists _, _, _, _. split; [done|]. split; [done|by left].
Qed.
(** There is an active generation exactly when there is a pointer. *)
Definition anchored (w : database) : Prop :=
  meta_of graphActiveMeta w = [] \/ exists a, row_of (meta_of graphActiveMeta w) w = Some a /\ is_active a.
Lemma anchored_consistent w : invariant w -> anchored w ->
  pointer_consistent (meta_of graphActiveMeta w) (lenZ (matching (has_status "active") (generations w))) = true /\
  (meta_of graphActiveMeta w <> [] -> lenZ (matching (has_status "active") (generations w)) = 1%Z).
Proof.
  intros Hi [Hnil|(a & Ha & Hact)].
  - rewrite Hnil. split; [|done]. assert (Hm : matching (has_status "active") (generations w) = []).
    { destruct (matching _ _) as [|b l] eqn:Hm; [done|]. assert (Hb : b ∈ b :: l) by left. rewrite <- Hm in Hb.
      apply matching_some in Hb as [Hab Hb]. pose proof (inv_pointed _ Hi b Hb Hab) as Hid.
      destruct (constraints_ids _ (inv_constraints _ Hi)) as [_ Hlen]. specialize (Hlen b Hb). by rewrite Hid, Hnil in Hlen. }
    by rewrite Hm.
  - apply row_of_elem in Ha as [Hin Hid].
    assert (Hone : lenZ (matching (has_status "active") (generations w)) = 1%Z).
    { eapply (matching_id_one _ w a); [apply Hi|done..|]. intros b' Hb' Ha'. rewrite Hid. by apply Hi. }
    rewrite Hone. split; [|done]. unfold pointer_consistent. rewrite bool_decide_false; [done|].
    destruct (constraints_ids _ (inv_constraints _ Hi)) as [_ Hlen]. specialize (Hlen a Hin). rewrite <- Hid. by intros E; rewrite E in Hlen.
Qed.
Lemma runs_publish id at_ w row : invariant w -> anchored w -> row_of id w = Some row -> has_status "staged" row = true ->
  runs (publish_writes id true (meta_of graphActiveMeta w) at_) w tt (publish id true (meta_of graphActiveMeta w) at_ w).
Proof.
  intros Hi Hanc Hrow Hst. set (old := meta_of graphActiveMeta w). pose proof (inv_constraints _ Hi) as Hc.
  pose proof (row_of_elem _ _ _ Hrow) as [Hin Hid].
  set (w1 := with_generations (map (retire_old old) (generations w)) w).
  assert (Hids1 : map id_of (generations w1) = map id_of (generations w)).
  { unfold w1. cbn [generations with_generations d_tables t_generations]. rewrite map_map. apply map_ext. apply retire_id. }
  assert (Hc1 : constraints w1 = true).
  { apply constraints_republished; [done|by intros b; apply retire_republished|]. apply unique_active.
    - change (map (retire_old old) (generations w)) with (generations w1). rewrite Hids1. apply (constraints_ids _ Hc).
    - intros b b' (b0 & -> & Hb0)%list_elem_of_fmap _ Ha. by destruct (retire_inactive w b0 Hi Hb0). }
  set (w2 := with_generations (map (promote id true old at_) (generations w1)) w1).
  assert (Hc2 : constraints w2 = true).
  { apply constraints_republished; [done| |].
    - intros b Hb. unfold promote. destruct (_ && _); [|by left]. right. eexists _, _, _, _. split; [reflexivity|]. split; [done|].
      right. unfold pointer. case_bool_decide as Hn; [by left|]. right. exists old. split; [done|]. rewrite Hids1.
      destruct Hanc as [|(a & Ha & _)]; [done|]. apply row_of_elem in Ha as [Ha Haid]. fold old in Haid. rewrite <- Haid.
      by apply list_elem_of_fmap; exists a.
    - apply unique_active.
      + rewrite map_map, (map_ext _ id_of) by (intros; apply promote_id). rewrite Hids1. apply (constraints_ids _ Hc).
      + assert (Hone : forall b, b ∈ map (promote id true old at_) (generations w1) -> is_active b -> id_of b = id).
        { intros b (b1 & -> & Hb1)%list_elem_of_fmap Ha. rewrite promote_id. unfold promote in Ha.
          destruct (_ && _) eqn:E; [by apply andb_true_iff in E as [E%streq_true _]|].
          apply list_elem_of_fmap in Hb1 as (b0 & -> & Hb0). by destruct (retire_inactive w b0 Hi Hb0). }
        intros b b' Hb Hb' Ha Ha'. by rewrite (Hone b), (Hone b'). }
  unfold publish_writes. eapply (runs_bind _ _ w tt w1).
  { case_bool_decide as Hn.
    - replace w1 with w; [apply runs_ret|]. unfold w1, retire_old. rewrite bool_decide_true by done. cbn [negb andb].
      rewrite map_id. by destruct w as [[] ?].
    - apply runs_exec_one; [|done]. unfold update_generations, w1, retire_old. rewrite bool_decide_false by done. f_equal.
      destruct Hanc as [|(a & Ha & Hact)]; [done|]. apply row_of_elem in Ha as [Ha Haid]. fold old in Haid.
      apply (matching_id_one _ w a); [done|done| |].
      + unfold has_id. by rewrite Haid, streq_refl.
      + intros b' _ [Hb'%streq_true _]%andb_true_iff. congruence. }
  eapply (runs_bind _ _ w1 tt w2).
  { apply runs_exec_one; [|done]. unfold update_generations, w2, promote. f_equal.
    assert (Hrow1 : retire_old old row = row).
    { unfold retire_old. unfold has_status in *. apply streq_true in Hst. by rewrite Hst, andb_false_r. }
    apply (matching_id_one _ w1 row); [done| | |].
    - apply list_elem_of_fmap. exists row. by rewrite Hrow1.
    - unfold has_id. by rewrite Hid, streq_refl, Hst.
    - intros b' _ [Hb'%streq_true _]%andb_true_iff. congruence. }
  eapply runs_bind; [apply runs_exec; [apply surjective_pairing|by apply constraints_upsert]|].
  eapply runs_bind; [apply runs_exec; [apply surjective_pairing|by do 2 apply constraints_upsert]|].
  apply runs_ret.
Qed.

Lemma history_head t ws p ids : head ids = Some p -> history t ws ids ->
  exists row rest, ids = p :: rest /\ find_gen p (t_generations t) = Some row /\ historic ws row /\
    predecessors t ws (g_PreviousGenerationID (Generation row)) rest.
Proof.
  intros Hh Hist. destruct ids as [|i rest]; [done|]. injection Hh as ->. destruct Hist as (row & Hrow & Hi & Hp).
  exists row, rest. split_and!; [done|done|done|]. unfold predecessors. by destruct (g_PreviousGenerationID _).
Qed.
Lemma activate_runs id at_ w row ids : invariant w -> anchored w -> at_ <> 0%Z ->
  row_of id w = Some row -> has_status "staged" row = true -> sound graphContentValidationCurrent row ->
  g_PreviousGenerationID (Generation row) = None -> canonical_identity (g_WorkspaceIdentity (Generation row)) = true ->
  predecessors (d_tables w) (g_WorkspaceIdentity (Generation row)) (pointer (meta_of graphActiveMeta w)) ids ->
  NoDup (id :: ids) -> length (id :: ids) <= graphGenerationAncestryMaxDepth ->
  runs (validated id ≫= fun b =>
    let g := Generation b in
    old ← meta_bytes graphActiveMeta;
    _ ← expect (same_pointer (pointer (meta_of graphActiveMeta w)) old) ErrGraphPointerConflict;
    activeRows ← active_rows;
    _ ← expect (pointer_consistent old activeRows) ErrGraphPointerConflict;
    _ ← check_prior old (pointer (meta_of graphActiveMeta w)) activeRows (g_WorkspaceIdentity g);
    if streq (g_Status g) "active" then
      _ ← expect (streq old id) ErrGraphPointerConflict;
      _ ← ancestry id (g_WorkspaceIdentity g) None;
      commit
    else _ ← replace_active g id old at_; commit) w tt (publish id true (meta_of graphActiveMeta w) at_ w).
Proof.
  intros Hi Hanc Hat Hrow Hst Hs Hprev Hcan Hpre Hnd Hlen. destruct (anchored_consistent w Hi Hanc) as [Hcons Hone].
  set (old := meta_of graphActiveMeta w) in *. set (ws := g_WorkspaceIdentity (Generation row)) in *.
  eapply runs_bind; [by apply (runs_validated id w row)|]. cbv zeta. eapply runs_bind; [apply runs_meta_bytes|]. fold old.
  eapply runs_bind.
  { apply runs_expect. unfold same_pointer, pointer. destruct (bool_decide_reflect (old = [])) as [->|]; [done|].
    by rewrite streq_refl. }
  eapply runs_bind; [apply runs_active_rows|]. eapply runs_bind; [by apply runs_expect|].
  change (g_WorkspaceIdentity (Generation (read_bundle row))) with ws.
  eapply (runs_bind _ _ w tt w).
  { unfold check_prior. case_bool_decide as Hn; [apply runs_ret|]. specialize (Hone Hn). rewrite Hone.
    unfold pointer in *. rewrite bool_decide_false in * by done. destruct Hpre as (Hz & Hhead & Hist).
    destruct (history_head _ _ _ _ Hhead Hist) as (a & rest & -> & Ha & Hh & Hp).
    destruct Hanc as [|(a' & Ha' & Hact)]; [done|]. fold old in Ha'. unfold row_of in Ha'. change (generations w) with (t_generations (d_tables w)) in Ha'.
    rewrite Ha in Ha'. injection Ha' as <-. pose proof (row_of_elem old w a Ha) as [Hain Haid].
    eapply runs_bind; [apply (runs_prior old w a); [done|done| | | |]|].
    - apply Hi; [done|by apply active_published].
    - apply Hh.
    - by rewrite (hi_workspace _ _ Hh).
    - rewrite <- Haid. by apply (constraints_ids _ (inv_constraints _ Hi)).
    - eapply (runs_ancestry old ws None w a rest); [done|done|apply Hh|by right|done| |].
      + by apply NoDup_cons in Hnd as [_ Hnd].
      + cbn [length] in *. lia. }
  change (g_Status (Generation (read_bundle row))) with (status_of row). unfold has_status in Hst.
  pose proof Hst as Hst'. apply streq_true in Hst'. rewrite Hst'. change (streq "staged" "active") with false. cbv iota.
  eapply (runs_bind _ _ w tt (publish id true old at_ w)); [|apply runs_commit].
  unfold replace_active. cbv zeta. change (g_Status (Generation (read_bundle row))) with (status_of row).
  change (g_WorkspaceIdentity (Generation (read_bundle row))) with ws. rewrite Hst. cbn [orb].
  eapply runs_bind; [by apply runs_expect|]. eapply (runs_bind _ _ w tt w).
  - eapply (runs_ancestry id ws (Some (pointer old)) w row ids); [done|done|done| |done|done|done].
    left. by rewrite Hprev.
  - by apply (runs_publish id at_ w row).
Qed.
Lemma activate_live id at_ n w row ids : invariant w -> anchored w -> at_ <> 0%Z ->
  row_of id w = Some row -> has_status "staged" row = true -> sound graphContentValidationCurrent row ->
  g_PreviousGenerationID (Generation row) = None -> canonical_identity (g_WorkspaceIdentity (Generation row)) = true ->
  predecessors (d_tables w) (g_WorkspaceIdentity (Generation row)) (pointer (meta_of graphActiveMeta w)) ids ->
  NoDup (id :: ids) -> length (id :: ids) <= graphGenerationAncestryMaxDepth ->
  exists k, ActivateGraphGenerationAt id (pointer (meta_of graphActiveMeta w)) at_ (n, w)
            = (Ok tt, (k, publish id true (meta_of graphActiveMeta w) at_ w)).
Proof.
  intros Hi Hanc Hat Hrow Hst Hs Hprev Hcan Hpre Hnd Hlen. unfold ActivateGraphGenerationAt.
  rewrite (proj2 (Z.eqb_neq _ _) Hat). apply immediate_runs; [transactional|]. by eapply activate_runs.
Qed.
End live.

(** Adding a generation leaves the histories as they are. *)
Lemma history_grows t t' ws id l : find_gen id (t_generations t) = None ->
  (forall i row, find_gen i (t_generations t) = Some row -> find_gen i (t_generations t') = Some row) ->
  history t ws l -> history t' ws l /\ id ∉ l.
Proof.
  intros Hnew Hfind. induction l as [|i l IH]; [done|]. intros (row & Hf & Hh & Hp).
  assert (Hni : id <> i) by (intros ->; congruence). split.
  - exists row. split; [by apply Hfind|]. split; [done|]. destruct (g_PreviousGenerationID (Generation row)); [|done].
    destruct Hp as (? & ? & Hl). by apply IH in Hl as [? _].
  - apply not_elem_of_cons. split; [done|].
    destruct (g_PreviousGenerationID (Generation row)); [|subst l; set_solver]. destruct Hp as (? & ? & Hl). by apply IH in Hl as [_ ?].
Qed.
Lemma predecessors_grow t t' ws id o l : find_gen id (t_generations t) = None ->
  (forall i row, find_gen i (t_generations t) = Some row -> find_gen i (t_generations t') = Some row) ->
  predecessors t ws o l -> predecessors t' ws o l /\ id ∉ l.
Proof.
  unfold predecessors. intros Hnew Hfind. destruct o as [p|]; [|intros ->; set_solver].
  intros (? & ? & Hl). by destruct (history_grows _ _ _ _ _ Hnew Hfind Hl).
Qed.
End staging.
