(* ===== verification/GraphActivation.v ===== *)
(** The properties of publication: atomicity, the invariant of every reachable data base,
    what activation, rollback, clean-up and recovery do, and that a staged generation can
    be activated. *)
From S2P Require Import Prelude GoStrings GoStringFacts GoSort GoNum GoTime Graph GraphFacts GraphStore GraphStoreFacts IndexTables GraphValidate GraphValidateFacts GraphPublish GraphPublishFacts GraphStaging.

Local Open Scope go_scope.

(** * Operations *)
Inductive operation :=
| OpStage (b : GraphBundle)
| OpActivate (id : digest) (expectedPrior : option digest) (publishedAt : Z)
| OpRuntimeState (state catalogGeneration : gostring)
| OpRollback (id : digest) (expectedCurrent : option digest) (publishedAt : Z)
| OpCompatibility (expected next : gostring)
| OpCleanup (workspace : gostring) (cutoff : Z)
| OpMigration (id expected next errorCode : gostring) (now : Z)
| OpRecover (workspace : gostring) (now : Z).

Section operations.
Context `{UnicodeTables} `{NFC} `{UrlParser} `{SHA256}.

Definition run `{Connection} (o : operation) : Op :=
  match o with
  | OpStage b => StageGraphGeneration b
  | OpActivate id prior at_ => ActivateGraphGenerationAt id prior at_
  | OpRuntimeState st c => SetGraphRuntimeState st c
  | OpRollback id current at_ => RollbackGraphGenerationAt id current at_
  | OpCompatibility e x => TransitionGraphCompatibilityState e x
  | OpCleanup ws cutoff => CleanupGraphGenerations ws cutoff
  | OpMigration id e x err now => TransitionGraphMigration id e x err now
  | OpRecover ws now => RecoverGraphState ws now
  end.
Definition recovers (o : operation) : bool := match o with OpRecover _ _ => true | _ => false end.
(** One operation, whatever calls to the data base fail. *)
Definition step (d d' : database) : Prop :=
  exists (conn : Connection) o n r k, @run conn o (n, d) = (r, (k, d')).

Lemma run_unchanged `{Connection} o n e k d d' : recovers o = false -> run o (n, d) = (Err e, (k, d')) -> d' = d.
Proof.
  intros Ho Hr. destruct o; try discriminate Ho; cbn [run] in Hr.
  - eapply immediate_err; [|exact Hr]. transactional.
  - unfold ActivateGraphGenerationAt in Hr. destruct (publishedAt =? 0)%Z; [by injection Hr|].
    eapply immediate_err; [|exact Hr]. transactional.
  - unfold SetGraphRuntimeState in Hr. destruct (negb _); [by injection Hr|].
    eapply immediate_err; [|exact Hr]. transactional.
  - unfold RollbackGraphGenerationAt in Hr. destruct (publishedAt =? 0)%Z; [by injection Hr|].
    eapply immediate_err; [|exact Hr]. transactional. apply quiet_count.
  - unfold TransitionGraphCompatibilityState in Hr. destruct (_ || _); [by injection Hr|].
    eapply immediate_err; [|exact Hr]. transactional.
  - unfold CleanupGraphGenerations in Hr. destruct (_ || _); [by injection Hr|].
    eapply immediate_err; [|exact Hr]. transactional.
  - unfold TransitionGraphMigration in Hr. destruct (_ || _); [by injection Hr|].
    eapply immediate_err; [|exact Hr]. transactional.
Qed.
Lemma run_invariant `{Connection} o n r k d d' : run o (n, d) = (r, (k, d')) -> invariant d -> invariant d'.
Proof.
  intros Hr Hi. destruct (recovers o) eqn:Ho.
  - destruct o; try discriminate Ho. destruct (recover_run _ _ _ _ _ _ _ Hr Hi) as [[_ ->]|[? _]]; done.
  - destruct r as [[]|e]; [|by rewrite (run_unchanged _ _ _ _ _ _ Ho Hr)]. destruct o; try discriminate Ho; cbn [run] in Hr.
    + eapply modest_invariant; [by eapply stage_run_modest|done].
    + by eapply activate_invariant.
    + eapply modest_invariant; [by eapply set_state_modest|done].
    + by eapply rollback_invariant.
    + by eapply compatibility_invariant.
    + eapply modest_invariant; [by eapply cleanup_modest|done].
    + eapply modest_invariant; [by eapply transition_migration_modest|done].
Qed.
End operations.

(** * Cleaning up *)
Section cleanup.
Context `{UnicodeTables} `{NFC} `{UrlParser} `{SHA256} `{Connection} (ws : gostring) (cutoff : Z) (keep : list gostring).

Definition referenced (id : digest) (d : database) : Prop :=
  Exists (fun b => g_PreviousGenerationID (Generation b) = Some id) (generations d) \/
  Exists (fun m => m_PriorActiveGenerationID m = Some id) (d_migrations d).
Lemma points_to_true id o : points_to id o = true <-> o = Some id.
Proof. destruct o as [p|]; cbn; [rewrite streq_true|]; naive_solver. Qed.
Lemma matching_nil {A} (p : A -> bool) l : matching p l = [] <-> forall x, x ∈ l -> p x = false.
Proof.
  split.
  - intros Hn x Hx. destruct (p x) eqn:E; [|done]. assert (Hin : x ∈ matching p l) by by apply matching_some.
    rewrite Hn in Hin. set_solver.
  - intros Hf. destruct (matching p l) as [|x l'] eqn:E; [done|]. assert (Hx : x ∈ x :: l') by left.
    rewrite <- E in Hx. apply matching_some in Hx as [Hp Hin]. rewrite Hf in Hp; done.
Qed.
(** [keeps_all d d']: only generations went away. *)
Record smaller (d d' : database) : Prop := {
  sm_rows : generations d' `sublist_of` generations d;
  sm_migrations : d_migrations d' = d_migrations d;
  sm_meta : meta d' = meta d }.
Lemma smaller_refl d : smaller d d.
Proof. by constructor. Qed.
Lemma smaller_trans d1 d2 d3 : smaller d1 d2 -> smaller d2 d3 -> smaller d1 d3.
Proof. intros [R1 M1 E1] [R2 M2 E2]. constructor; [by etrans|congruence..]. Qed.
Lemma sublist_elem {A} (x : A) l l' : l `sublist_of` l' -> x ∈ l -> x ∈ l'.
Proof. intros Hs Hx. eapply sublist_subseteq; done. Qed.
Lemma referenced_smaller id d d' : smaller d d' -> referenced id d' -> referenced id d.
Proof.
  intros [Hs Hm _] [(b & Hb & Hp)%Exists_exists|Hp]; [left|right; by rewrite <- Hm].
  apply Exists_exists. exists b. split; [by eapply sublist_elem|done].
Qed.
Definition gone (id : digest) (b : GraphBundle) : bool := has_id id b && removable ws cutoff b.
Lemma remove_one_run id d u d' : gives (remove_one ws cutoff keep id) d u d' ->
  smaller d d' /\
  (forall b, b ∈ generations d -> b ∈ generations d' \/ gone id b = true /\ id ∉ keep /\ ~ referenced id d) /\
  (id ∉ keep -> ~ referenced id d -> forall b, b ∈ generations d' -> gone id b = false).
Proof.
  unfold remove_one. intros Hg. destruct (oneOf id keep) eqn:Hk; unfold oneOf in Hk; bool_to_prop.
  { apply gives_ret in Hg as [_ ->]. split_and!; [apply smaller_refl|naive_solver|naive_solver]. }
  apply gives_bind in Hg as (r1 & v & Hr & Hg). apply gives_reads_db in Hr as [-> ->].
  destruct (bool_decide_reflect (matching (fun b => points_to id (g_PreviousGenerationID (Generation b))) (generations d) = [])) as [Hn1|Hn1]; cbn [negb] in Hg.
  2:{ apply gives_ret in Hg as [_ ->]. split_and!; [apply smaller_refl|naive_solver|]. intros _ Hnr. destruct Hn1.
      apply matching_nil. intros b Hb. apply not_true_iff_false. rewrite points_to_true. intros Hp. apply Hnr. left. apply Exists_exists. by exists b. }
  apply gives_bind in Hg as (r2 & v & Hr & Hg). apply gives_reads_db in Hr as [-> ->].
  destruct (bool_decide_reflect (matching (fun m => points_to id (m_PriorActiveGenerationID m)) (d_migrations d) = [])) as [Hn2|Hn2]; cbn [negb] in Hg.
  2:{ apply gives_ret in Hg as [_ ->]. split_and!; [apply smaller_refl|naive_solver|]. intros _ Hnr. destruct Hn2.
      apply matching_nil. intros m Hm. apply not_true_iff_false. rewrite points_to_true. intros Hp. apply Hnr. right. apply Exists_exists. by exists m. }
  apply gives_bind in Hg as (n & v & Hd & Hg). apply gives_ret in Hg as [_ ->]. apply gives_exec in Hd as [[= <- _] _].
  assert (Hnr : ~ referenced id d).
  { intros [(b & Hb & Hp)%Exists_exists|(m & Hm & Hp)%Exists_exists]; apply points_to_true in Hp;
      [rewrite matching_nil in Hn1; specialize (Hn1 b Hb)|rewrite matching_nil in Hn2; specialize (Hn2 m Hm)]; congruence. }
  split_and!.
  - constructor; [|done..]. apply sublist_filter.
  - intros b Hb. destruct (gone id b) eqn:Hgone; [by right|]. left. apply matching_some. split; [|done].
    unfold gone in Hgone. by rewrite Hgone.
  - intros _ _ b [Hb _]%matching_some. by apply negb_true_iff in Hb.
Qed.
Lemma remove_all_run ids : forall d u d', gives (remove_all ws cutoff keep ids) d u d' ->
  smaller d d' /\
  (forall b, b ∈ generations d -> b ∈ generations d' \/
     id_of b ∈ ids /\ removable ws cutoff b = true /\ id_of b ∉ keep /\ ~ referenced (id_of b) d') /\
  (forall b, b ∈ generations d' -> id_of b ∈ ids -> removable ws cutoff b = true -> id_of b ∉ keep ->
     referenced (id_of b) d).
Proof.
  induction ids as [|id ids IH]; intros d u d' Hg; cbn [remove_all] in Hg.
  { apply gives_ret in Hg as [_ ->]. split_and!; [apply smaller_refl|naive_solver|set_solver]. }
  apply gives_bind in Hg as (u1 & d1 & E1 & Hg). apply remove_one_run in E1 as (S1 & G1 & K1).
  destruct (IH _ _ _ Hg) as (S2 & G2 & K2). split_and!.
  - by eapply smaller_trans.
  - intros b Hb. destruct (G1 b Hb) as [Hb1|(Hgone & Hk & Hr)].
    + destruct (G2 b Hb1) as [|(? & ? & ? & ?)]; [by left|]. right. split_and!; [by right|done..].
    + right. apply andb_true_iff in Hgone as [Hid%streq_true Hrem]. subst id. split_and!; [left|done|done|]. intros Href. apply Hr. by do 2 (eapply referenced_smaller; [done|]).
  - intros b Hb Hid Hrem Hk. apply elem_of_cons in Hid as [<-|Hid].
    + destruct (decide (Exists (fun b' => g_PreviousGenerationID (Generation b') = Some (id_of b)) (generations d))) as [|N1]; [by left|].
      destruct (decide (Exists (fun m => m_PriorActiveGenerationID m = Some (id_of b)) (d_migrations d))) as [|N2]; [by right|].
      assert (Hnr : ~ referenced (id_of b) d) by (unfold referenced; tauto).
      assert (Hin : b ∈ generations d1) by (destruct S2; by eapply sublist_elem).
      specialize (K1 Hk Hnr b Hin). unfold gone, has_id in K1. by rewrite streq_refl, Hrem in K1.
    + eapply referenced_smaller; [done|]. by eapply K2.
Qed.
End cleanup.

Section runs.
Context `{UnicodeTables} `{NFC} `{UrlParser} `{SHA256} `{Connection}.
Lemma cleanup_run ws cutoff n d k d' : CleanupGraphGenerations ws cutoff (n, d) = (Ok tt, (k, d')) ->
  let keep := [meta_of graphActiveMeta d; meta_of graphPreviousMeta d] in
  smaller d d' /\ settled d /\ staged_among ws [] d /\
  (forall b, b ∈ generations d -> b ∈ generations d' \/
     removable ws cutoff b = true /\ id_of b ∉ keep /\ ~ referenced (id_of b) d') /\
  (forall b, b ∈ generations d -> removable ws cutoff b = true -> id_of b ∉ keep -> ~ referenced (id_of b) d ->
     b ∉ generations d').
Proof.
  unfold CleanupGraphGenerations. destruct (_ || _); [done|]. intros Hg%immediate_ok; [|transactional].
  apply gives_bind in Hg as (p & v & Hp & Hg). tx_inv Hp. apply gives_bind in Hg as (st & v & Hst & Hg). tx_inv Hst.
  apply gives_bind in Hg as (u & v & Hu & Hg). tx_inv Hu. apply andb_true_iff in Hu as [Hpend Hstaged]. bool_to_prop.
  apply gives_bind in Hg as (a & v & Ha & Hg). apply gives_meta_bytes in Ha as [-> ->].
  apply gives_bind in Hg as (a & v & Ha & Hg). apply gives_meta_bytes in Ha as [-> ->].
  unfold pointer_text in Hg.
  apply gives_bind in Hg as (u1 & v & Hu1 & Hg). tx_inv Hu1. apply gives_bind in Hg as (u2 & v & Hu2 & Hg). tx_inv Hu2.
  apply gives_bind in Hg as (c & v & Hcs & Hg). tx_inv Hcs. apply gives_bind in Hg as (u3 & v & Hr & Hg). tx_inv Hg.
  apply remove_all_run in Hr as (Hs & Hgone & Hleft). cbv zeta. rewrite matching_nil in Hpend. rewrite matching_nil in Hstaged. split_and!.
  - done.
  - by apply Forall_forall.
  - intros b Hb Hs'. by rewrite (Hstaged b Hb) in Hs'.
  - intros b Hb. destruct (Hgone b Hb) as [|(_ & ?)]; [by left|by right].
  - intros b Hb Hrem Hk Href Hb'. apply Href. apply Hleft; [done| |done|done]. apply list_elem_of_fmap. exists b.
    split; [done|]. by apply matching_some.
Qed.
Lemma activate_ancestry id prior at_ n d k d' row :
  ActivateGraphGenerationAt id prior at_ (n, d) = (Ok tt, (k, d')) ->
  row_of id d = Some row -> has_status "staged" row = true ->
  exists ids, predecessors (d_tables d) (g_WorkspaceIdentity (Generation row)) (pointer (meta_of graphActiveMeta d)) ids /\
    NoDup (id :: ids) /\ length (id :: ids) <= graphGenerationAncestryMaxDepth.
Proof.
  unfold ActivateGraphGenerationAt. destruct (at_ =? 0)%Z; [done|]. intros Hg%immediate_ok Hrow Hst; [|transactional].
  apply gives_bind in Hg as (b & v & Hb & Hg). apply gives_validated in Hb as (-> & row' & Hrow' & -> & _).
  rewrite Hrow in Hrow'. injection Hrow' as <-.
  apply gives_bind in Hg as (old & v & Hold & Hg). apply gives_meta_bytes in Hold as [-> ->].
  apply gives_bind in Hg as (u & v & Hu & Hg). tx_inv Hu.
  apply gives_bind in Hg as (rows & v & Hr & Hg). apply gives_active_rows in Hr as [-> ->].
  apply gives_bind in Hg as (u' & v & Hu' & Hg). tx_inv Hu'.
  apply gives_bind in Hg as (u'' & v & Hp & Hg). apply gives_check_prior in Hp as ->.
  change (g_Status (Generation (read_bundle row))) with (status_of row) in Hg. unfold has_status in Hst.
  pose proof Hst as Hst'. apply streq_true in Hst'. rewrite Hst' in Hg. change (streq "staged" "active") with false in Hg. cbv iota in Hg.
  apply gives_bind in Hg as (u1 & v & Hu1 & _). unfold replace_active in Hu1. cbv zeta in Hu1.
  apply gives_bind in Hu1 as (u2 & v' & Hu2 & Hu1). tx_inv Hu2. apply gives_bind in Hu1 as (u3 & v' & Ha & _).
  change (g_Status (Generation (read_bundle row))) with (status_of row) in Ha. rewrite Hst in Ha.
  unfold ancestry in Ha. apply gives_reads in Ha as [_ (m & j & Ha)]. apply ancestry_run in Ha as (r & ids & _ & Hpre & ? & ?).
  by exists ids.
Qed.
End runs.

(** * Properties *)
Section properties.
Context `{UnicodeTables} `{NFC} `{UrlParser} `{SHA256}.

(** The data base before the first generation. *)
Definition fresh_database (d : database) : Prop := generations d = [] /\ constraints d = true.

Lemma reachable_invariant (d0 d : database) : fresh_database d0 -> rtc step d0 d -> invariant d.
Proof.
  intros [Hg Hc] Hrun. eapply (rtc_invariant step); [|exact Hrun|].
  - intros a b Ha (conn & o & n & r & k & Hs). by eapply run_invariant.
  - constructor; [done| |]; intros b; rewrite Hg; set_solver.
Qed.

(** C14: an operation on the graph generations that fails, whichever call to the data base
    fails or check refuses, leaves the data base as it was; only the recovery after a
    crash, which has to record what it gave up, may report an error and commit. *)
Theorem publication_atomic (conn : Connection) (o : operation) n e k d d' :
  recovers o = false -> run o (n, d) = (Err e, (k, d')) -> d' = d.
Proof. apply run_unchanged. Qed.

(** C11: from an empty data base, and through any sequence of stagings, activations,
    rollbacks, mode changes, clean-ups and recoveries, with calls failing at any point:
    the constraints of the schema hold, every active generation is the one the pointer
    names (so there is at most one), and the rows of every generation that was ever
    published are still those that its identifier was computed from. *)
Theorem publication_invariant (d0 d : database) :
  fresh_database d0 -> rtc step d0 d ->
  constraints d = true /\
  (forall b, b ∈ generations d -> is_active b -> id_of b = meta_of graphActiveMeta d) /\
  (forall b b', b ∈ generations d -> b' ∈ generations d -> is_active b -> is_active b' -> b = b') /\
  (forall b, b ∈ generations d -> is_published b -> sound graphContentValidationCurrent b).
Proof.
  intros Hf Hrun. pose proof (reachable_invariant _ _ Hf Hrun) as Hi.
  split_and!; [apply Hi|apply Hi| |apply Hi]. intros b b' Hb Hb' Ha Ha'. by eapply active_unique.
Qed.


(** on a reliable connection, a bundle that was staged can be activated: staging stores
    the rows that validation hashed, so the checks that activation makes on them, on the
    generation that it replaces and on the history of that one all pass, as long as the
    history has fewer than 1024 generations. *)
Theorem staged_activates (conn : Connection) b n k d d1 old ids at_ :
  meta_of graphActiveMeta d = old -> reliable -> invariant d -> anchored d -> row_of (id_of b) d = None ->
  StageGraphGeneration b (n, d) = (Ok tt, (k, d1)) ->
  fingerprints_present (Generation b) = true -> g_PreviousGenerationID (Generation b) = None ->
  canonical_identity (g_WorkspaceIdentity (Generation b)) = true ->
  predecessors (d_tables d) (g_WorkspaceIdentity (Generation b)) (pointer old) ids ->
  NoDup ids -> length ids < graphGenerationAncestryMaxDepth -> at_ <> 0%Z ->
  exists k' d2, ActivateGraphGenerationAt (id_of b) (pointer old) at_ (k, d1) = (Ok tt, (k', d2)) /\
    meta_of graphActiveMeta d2 = id_of b /\ meta_of graphPreviousMeta d2 = old.
Proof.
  intros <- Hr Hi Hanc Hnew Hst Hfp Hprev Hcan Hpre Hnd Hlen Hat.
  assert (Hi1 : invariant d1) by (eapply modest_invariant; [by eapply stage_run_modest|done]).
  destruct (stage_run _ _ _ _ _ Hst Hnew) as (b' & Hv & Hgen & [Hrow Hoth _ Hmeta _]).
  assert (Hid : id_of b' = id_of b) by (unfold id_of; by rewrite Hgen). rewrite Hid in Hrow, Hoth.
  assert (Hptr : forall key, meta_of key d1 = meta_of key d) by (intros key; unfold meta_of; by rewrite Hmeta).
  assert (Hfind : forall i row, find_gen i (t_generations (d_tables d)) = Some row -> find_gen i (t_generations (d_tables d1)) = Some row).
  { intros i row Hf. rewrite <- Hf. apply Hoth. intros ->. unfold row_of, generations in Hnew. congruence. }
  destruct (predecessors_grow _ _ _ (id_of b) _ _ Hnew Hfind Hpre) as [Hpre1 Hnin].
  assert (Hanc1 : anchored d1).
  { unfold anchored in *. rewrite Hptr. destruct Hanc as [|(a & Ha & Hact)]; [by left|]. right. exists a. split; [|done]. by apply Hfind. }
  assert (Hs : sound graphContentValidationCurrent (stored b')) by by eapply stored_sound.
  rewrite <- Hgen in *. destruct (activate_live Hr (id_of b) at_ k d1 (stored b') ids) as [k' Hrun]; try done.
  - by rewrite Hptr.
  - by constructor.
  - rewrite Hptr in Hrun. exists k', (publish (id_of b) true (meta_of graphActiveMeta d) at_ d1).
    split; [done|]. split; by rewrite publish_meta.
Qed.

(** A successful activation has walked the history: the generations that a staged one
    comes after, each the predecessor of the one before it, are finite in number, all
    different, at most 1023, and each of them was published for the same workspace and is
    intact. *)
Theorem activation_history (conn : Connection) id prior at_ n d k d' row :
  ActivateGraphGenerationAt id prior at_ (n, d) = (Ok tt, (k, d')) ->
  row_of id d = Some row -> has_status "staged" row = true ->
  exists ids, predecessors (d_tables d) (g_WorkspaceIdentity (Generation row)) (pointer (meta_of graphActiveMeta d)) ids /\
    NoDup (id :: ids) /\ length (id :: ids) <= graphGenerationAncestryMaxDepth.
Proof. intros Hrun Hrow Hst. by eapply activate_ancestry. Qed.

(** Cleaning up deletes, of the old retired and invalid generations of the workspace,
    exactly those that are not the active or the previous one and that neither a
    generation nor a migration refers to; it changes nothing else, and it refuses to run
    while a staged generation or an unfinished migration is left to recover. *)
Theorem cleanup_effect (conn : Connection) ws cutoff n d k d' :
  CleanupGraphGenerations ws cutoff (n, d) = (Ok tt, (k, d')) ->
  let keep := [meta_of graphActiveMeta d; meta_of graphPreviousMeta d] in
  smaller d d' /\ settled d /\ staged_among ws [] d /\
  (forall b, b ∈ generations d -> b ∈ generations d' \/
     removable ws cutoff b = true /\ id_of b ∉ keep /\ ~ referenced (id_of b) d') /\
  (forall b, b ∈ generations d -> removable ws cutoff b = true -> id_of b ∉ keep -> ~ referenced (id_of b) d ->
     b ∉ generations d').
Proof. intros Hc. by eapply cleanup_run. Qed.

(** C13: recovering after a crash either fails and changes nothing, or leaves a data base
    that satisfies the invariant, with no staged generation of the workspace and no
    unfinished migration; it reports success exactly when the pointer names an active
    generation, and otherwise no generation is active. *)
Theorem recovery_outcome (conn : Connection) ws now n d r k d' :
  invariant d -> RecoverGraphState ws now (n, d) = (r, (k, d')) ->
  (is_ok r = false /\ d' = d) \/ recovered ws r d'.
Proof. intros Hi Hr. by eapply recover_run. Qed.
End properties.
