(* ===== verification/GraphPublishExample.v ===== *)
(** A small repository published twice: the witnesses of the properties of publication,
    evaluated with the stand-in hash, normal form and origin parser of [Example_graph]. *)
From S2P Require Import Prelude GoStrings GoStringFacts GoSort GoNum GoTime Graph GraphFacts GraphStore GraphStoreFacts IndexTables GraphValidate GraphValidateFacts GraphPublish GraphPublishFacts GraphStaging GraphActivation.

Local Open Scope go_scope.

Module Example_publish.
Import Example_graph.
#[local] Existing Instance latin_tables.
#[local] Existing Instance mixHash.
#[local] Existing Instance Example_graph.toy_nfc.
#[local] Existing Instance Example_graph.toy_url.

(** ** Two generations *)
Definition fingerprint (c : ascii) : digest := repeat c 32.
Definition draft (c : ascii) (createdAt : Z) : GraphBundle :=
  mkBundle (mkGeneration zeroDigest 1 "example.org/o/r" repo (fingerprint c) (fingerprint "c") (fingerprint "m") zeroDigest
              "staged" [] 2 1 1 1 None createdAt 0)
    [main; helper] [edge] [evidence] [unresolved].
Definition seal (b : GraphBundle) : GraphBundle := match SealIDs b with Ok b => b | Err _ => b end.
Definition first : GraphBundle := Eval vm_compute in seal (draft "1" 1000).
Definition second : GraphBundle := Eval vm_compute in seal (draft "2" 2000).

Definition never : Connection := fun _ => false.
(** Only call [k] fails. *)
Definition fails_at (k : nat) : Connection := fun n => n =? k.
Definition empty_database : database := mkDB (mkTables [] [] false) [] no_jobs.
Definition after {A} (r : result store_error A * (nat * database)) : database := snd (snd r).
Definition perform (conn : Connection) (o : operation) (d : database) : result store_error unit * (nat * database) :=
  @run _ _ _ _ conn o (0, d).
Definition d1 : database := Eval vm_compute in after (perform never (OpStage first) empty_database).
Definition d2 : database := Eval vm_compute in after (perform never (OpActivate (id_of first) None 5) d1).
Definition d3 : database := Eval vm_compute in after (perform never (OpStage second) d2).
Definition d4 : database := Eval vm_compute in after (perform never (OpActivate (id_of second) (Some (id_of first)) 6) d3).
Definition d5 : database := Eval vm_compute in after (perform never (OpRollback (id_of first) (Some (id_of second)) 7) d4).
Definition statuses (d : database) : list gostring := map status_of (generations d).

Example publishing :
  [statuses d1; statuses d2; statuses d3; statuses d4; statuses d5]
  = [["staged"]; ["active"]; ["active"; "staged"]; ["retired"; "active"]; ["active"; "retired"]].
Proof. vm_compute. reflexivity. Qed.

(** ** Reachable data bases *)
Lemma perform_step conn o d : step d (after (perform conn o d)).
Proof. exists conn, o, 0, (fst (perform conn o d)), (fst (snd (perform conn o d))). unfold perform, after. by destruct (run o (0, d)) as [r [k d']]. Qed.
Lemma empty_fresh : fresh_database empty_database.
Proof. done. Qed.
Lemma performed conn o d d' : after (perform conn o d) = d' -> step d d'.
Proof. intros <-. apply perform_step. Qed.
Lemma reach_d1 : rtc step empty_database d1.
Proof. eapply rtc_once, (performed never (OpStage first)). vm_compute. reflexivity. Qed.
Lemma reach_d2 : rtc step empty_database d2.
Proof. eapply rtc_r; [apply reach_d1|]. eapply (performed never (OpActivate (id_of first) None 5)). vm_compute. reflexivity. Qed.
Lemma reach_d3 : rtc step empty_database d3.
Proof. eapply rtc_r; [apply reach_d2|]. eapply (performed never (OpStage second)). vm_compute. reflexivity. Qed.
Lemma invariant_d2 : invariant d2.
Proof. exact (reachable_invariant _ _ empty_fresh reach_d2). Qed.
Lemma invariant_d3 : invariant d3.
Proof. exact (reachable_invariant _ _ empty_fresh reach_d3). Qed.

(** ** Witnesses *)
Lemma publication_atomic_witness :
  let r := perform (fails_at 40) (OpActivate (id_of second) (Some (id_of first)) 6) d3 in
  fst r = Err (ErrQuery ErrDriver) /\ after r = d3.
Proof.
  intros r. split; [vm_compute; reflexivity|].
  refine (publication_atomic (fails_at 40) (OpActivate (id_of second) (Some (id_of first)) 6) 0 (ErrQuery ErrDriver)
            (fst (snd r)) d3 (after r) eq_refl _).
  vm_compute. reflexivity.
Defined.
Lemma publication_invariant_witness :
  constraints d3 = true /\
  (forall b, b ∈ generations d3 -> is_active b -> id_of b = meta_of graphActiveMeta d3) /\
  (forall b b', b ∈ generations d3 -> b' ∈ generations d3 -> is_active b -> is_active b' -> b = b') /\
  (forall b, b ∈ generations d3 -> is_published b -> sound graphContentValidationCurrent b).
Proof. exact (publication_invariant empty_database d3 empty_fresh reach_d3). Defined.
Lemma first_history : predecessors (d_tables d2) "example.org/o/r" (Some (id_of first)) [id_of first].
Proof.
  split; [vm_compute; discriminate|]. split; [reflexivity|].
  assert (Hrow : exists b, find_gen (id_of first) (generations d2) = Some b /\ published (Generation b) = true /\
    g_WorkspaceIdentity (Generation b) = "example.org/o/r" /\ g_SchemaVersion (Generation b) = 1%Z /\
    g_PreviousGenerationID (Generation b) = None).
  { eexists. split; [vm_compute; reflexivity|]. done. }
  destruct Hrow as (b & Hb & Hp & Hw & Hs & Hn). exists b. split; [exact Hb|]. split; [|by rewrite Hn].
  constructor; [done..|]. left. apply invariant_d2; [|done]. by apply row_of_elem in Hb as [? _].
Qed.
Lemma anchored_d2 : anchored d2.
Proof. right. eexists. split; [vm_compute; reflexivity|reflexivity]. Qed.
Lemma staged_activates_witness :
  exists k' d', @ActivateGraphGenerationAt _ _ _ _ never (id_of second) (pointer (id_of first)) 6
                  (fst (snd (perform never (OpStage second) d2)), d3) = (Ok tt, (k', d')) /\
    meta_of graphActiveMeta d' = id_of second /\ meta_of graphPreviousMeta d' = id_of first.
Proof.
  apply (staged_activates never second 0 (fst (snd (perform never (OpStage second) d2))) d2 d3 (id_of first) [id_of first] 6);
    [vm_compute; reflexivity|by intros n|exact invariant_d2|exact anchored_d2|vm_compute; reflexivity..|
     exact first_history|apply NoDup_singleton|vm_compute; lia|discriminate].
Defined.
Lemma activation_history_witness : exists ids,
  predecessors (d_tables d3) "example.org/o/r" (pointer (meta_of graphActiveMeta d3)) ids /\
  NoDup (id_of second :: ids) /\ length (id_of second :: ids) <= graphGenerationAncestryMaxDepth.
Proof.
  refine (activation_history never (id_of second) (Some (id_of first)) 6 0
    d3 (fst (snd (perform never (OpActivate (id_of second) (Some (id_of first)) 6) d3))) d4 (stored second) _ _ _);
    vm_compute; reflexivity.
Defined.

(** ** Cleaning up and recovering *)
Definition third : GraphBundle := Eval vm_compute in seal (draft "3" 3000).
Definition d6 : database := Eval vm_compute in after (perform never (OpStage third) d5).
Definition d7 : database := Eval vm_compute in after (perform never (OpActivate (id_of third) (Some (id_of first)) 8) d6).
Definition d8 : database := Eval vm_compute in after (perform never (OpCleanup "example.org/o/r" 5000) d7).
Lemma cleanup_effect_witness :
  statuses d7 = ["retired"; "retired"; "active"] /\ statuses d8 = ["retired"; "active"] /\
  smaller d7 d8 /\ settled d7.
Proof.
  split; [vm_compute; reflexivity|]. split; [vm_compute; reflexivity|].
  destruct (cleanup_effect never "example.org/o/r" 5000 0 d7 (fst (snd (perform never (OpCleanup "example.org/o/r" 5000) d7))) d8)
    as (Hs & Hset & _); [vm_compute; reflexivity|]. exact (conj Hs Hset).
Defined.
Definition recovery : result store_error unit * (nat * database) := perform never (OpRecover "example.org/o/r" 9) d3.
Lemma recovery_outcome_witness :
  fst recovery = Ok tt /\ statuses (after recovery) = ["active"; "invalid"] /\
  ((is_ok (fst recovery) = false /\ after recovery = d3) \/ recovered "example.org/o/r" (fst recovery) (after recovery)).
Proof.
  split; [vm_compute; reflexivity|]. split; [vm_compute; reflexivity|].
  refine (recovery_outcome never "example.org/o/r" 9 0 d3 (fst recovery) (fst (snd recovery)) (after recovery) invariant_d3 _).
  vm_compute. reflexivity.
Defined.

(** ** Corner cases *)
Definition outcome {A S} (r : result store_error A * S) : option store_error :=
  match fst r with Ok _ => None | Err e => Some e end.
Definition in_transaction (m : Tx unit) (d : database) : result store_error unit * database :=
  let '(r, x) := m (mkTxn 0 d d) in (r, x_work x).
(** Without an expected prior generation, the variant in the transaction of a job replaces
    the active generation; the other one refuses. *)
Example variants_differ :
  let tx := in_transaction (@activateGraphGenerationTx _ _ _ _ never (id_of second) None 6) d3 in
  outcome tx = None /\ statuses (snd tx) = ["retired"; "active"] /\
  outcome (perform never (OpActivate (id_of second) None 6) d3) = Some ErrGraphPointerConflict.
Proof. split_and!; vm_compute; reflexivity. Qed.
(** A bundle staged again with another creation time, as a retry does, is refused, and so
    is one whose staging was abandoned by a recovery: its identifier is taken for ever. *)
Definition again : GraphBundle := Eval vm_compute in seal (draft "1" 1500).
Example restage_refused :
  id_of again = id_of first /\
  outcome (perform never (OpStage first) d1) = None /\
  outcome (perform never (OpStage again) d1) = Some ErrGraphGenerationCorrupt /\
  outcome (perform never (OpStage first) (after (perform never (OpRecover "example.org/o/r" 9) d1)))
  = Some ErrGraphGenerationCorrupt.
Proof. split_and!; vm_compute; reflexivity. Qed.
(** One read that fails during a recovery makes it mark an intact active generation as
    invalid; the pointer still names it, and then nothing can be activated: neither
    without an expected prior generation nor with the one that the pointer names, and a
    second recovery fails because it finds no row left to mark. *)
Definition d9 : database := Eval vm_compute in after (perform (fails_at 5) (OpRecover "example.org/o/r" 9) d2).
Definition d10 : database := Eval vm_compute in after (perform never (OpStage second) d9).
Example recovery_dead_end :
  statuses d2 = ["active"] /\ statuses d9 = ["invalid"] /\ meta_of graphActiveMeta d9 = id_of first /\
  outcome (perform never (OpStage first) d9) = Some ErrGraphGenerationCorrupt /\
  outcome (perform never (OpStage second) d9) = None /\
  outcome (perform never (OpActivate (id_of second) None 6) d10) = Some ErrGraphPointerConflict /\
  outcome (perform never (OpActivate (id_of second) (Some (id_of first)) 6) d10) = Some ErrGraphPointerConflict /\
  outcome (perform never (OpRecover "example.org/o/r" 9) d10) = Some ErrAffected.
Proof. split_and!; vm_compute; reflexivity. Qed.
(** The clean-up compares the texts of the times: half a second after the cutoff is older
    than the cutoff. *)
Example cleanup_text_order :
  older 0 (draft "1" 500000000) = true /\ older 500000000 (draft "1" 0) = false.
Proof. split_and!; vm_compute; reflexivity. Qed.
End Example_publish.
