(* ===== verification/IndexJobs.v ===== *)
(** Index jobs: internal/store/index_jobs.go.

    A job is created with a reservation of its workspace, runs in a worker that holds the
    reservation's owner token and fencing token, and ends canceled, failed or succeeded.
    An operation is a sequence of accesses to the data base ([Db]), each a statement or a
    transaction that nothing interrupts; between two of them other processes may change it
    ([Others], or the processes of a [system]). *)
From S2P Require Import Prelude GoStrings GoStringFacts GoSort GoNum GoTime Graph GraphStore IndexTables GraphValidate GraphPublish.

Local Open Scope go_scope.

(** * The world *)

(** What the system answers after a number of calls to the data base: the time, the bytes
    drawn for an identifier, whether a process exists, can be terminated and has ended,
    and whether the lock files of the workspace could be removed. *)
Class Host := {
  now_at : nat -> Z;
  random_bytes : nat -> gostring -> option (list ascii);
  own_pid : Z;
  process_exists : nat -> Z -> bool;
  process_terminated : nat -> Z -> bool;
  process_waited : nat -> Z -> bool;
  locks_removed : nat -> bool }.
Definition job_error (e : index_job_error) : store_error := ErrIndexJob e.
Definition stale : store_error := ErrIndexJob ErrStaleIndexJobOwner.

(** * Operations as sequences of accesses

    An operation is what it does next: an access to the data base, which nothing
    interrupts, and how it goes on with the answer.  The state counts the calls. *)
Inductive Db (A : Type) : Type :=
| Done (r : result store_error A)
| Access {X : Type} (f : nat * database -> X * (nat * database)) (k : X -> Db A).
Arguments Done {A} r.
Arguments Access {A X} f k.
#[export] Instance Db_ret : MRet Db := fun _ a => Done (Ok a).
#[export] Instance Db_bind : MBind Db := fun _ _ f =>
  fix go m :=
    match m with
    | Done (Ok a) => f a
    | Done (Err e) => Done (Err e)
    | Access g k => Access g (fun x => go (k x))
    end.
(** The error of a call is a value. *)
Fixpoint catch {A} (m : Db A) : Db (result store_error A) :=
  match m with Done r => Done (Ok r) | Access f k => Access f (fun x => catch (k x)) end.
Definition stop {A} (e : store_error) : Db A := Done (Err e).
Definition access {A} (f : nat * database -> result store_error A * (nat * database)) : Db A := Access f Done.
Definition require (b : bool) (e : store_error) : Db unit := if b then mret tt else stop e.

(** ** Runs *)

(** What other processes make of the data base before an access. *)
Class Others := others : nat -> database -> database.
(** An operation on its own, with the others at work in between. *)
Fixpoint execute `{Others} {A} (m : Db A) (n : nat) (d : database) : result store_error A * (nat * database) :=
  match m with
  | Done r => (r, (n, d))
  | Access f k => let '(x, (n, d)) := f (n, others n d) in execute (k x) n d
  end.
(** One access. *)
Definition proceed {A} (m : Db A) (s : nat * database) : option (Db A * (nat * database)) :=
  match m with
  | Done _ => None
  | Access f k => let '(x, s) := f s in Some (k x, s)
  end.

Section access.
Context `{Connection}.
(** [db.BeginTx]: the first statement of every body writes, which takes the lock. *)
Definition transaction {A} (body : Tx A) : Db A := access (immediate body).
(** [db.ExecContext]: a statement that is its own transaction; the rows affected. *)
Definition single (f : database -> database * Z) : nat * database -> result store_error Z * (nat * database) := fun '(n, d) =>
  if sql_fails n then (Err (ErrQuery ErrDriver), (S n, d))
  else
    let '(d', m) := f d in
    if constraints d' then (Ok m, (S n, d')) else (Err ErrConstraint, (S n, d)).
Definition statement (f : database -> database * Z) : Db Z := access (single f).
Definition fetch {A} (rows : database -> list A) : Db (list A) :=
  access (fun '(n, d) => let '(r, n) := from_Q (query (rows d)) n in (r, (n, d))).
(** [tx.Rollback]. *)
Definition rollback : Tx unit := fun x => (Ok tt, mkTxn (x_calls x) (x_committed x) (x_committed x)).
(** The error of a call is a value. *)
Definition tx_attempt {A} (m : Tx A) : Tx (result store_error A) := fun x => let '(r, x) := m x in (Ok r, x).
End access.

Section clock.
Context `{Host}.
Definition stamp (n : nat) : gostring := formatRFC3339Nano (now_at n).
Definition tx_now : Tx gostring := fun x => (Ok (stamp (x_calls x)), x).
Definition tx_exists (pid : Z) : Tx bool := fun x => (Ok (process_exists (x_calls x) pid), x).
Definition db_asks {A} (f : nat -> A) : Db A := access (fun s => (Ok (f (fst s)), s)).
Definition db_now : Db gostring := db_asks stamp.
(** Nanoseconds since 1970. *)
Definition unixNano (t : Z) : Z := wrap64 (t - 62135596800 * 1000000000).
Definition newIndexID (n : nat) (prefix : gostring) : gostring :=
  match random_bytes n prefix with
  | Some data => prefix ++ "-" ++ hexEncode data
  | None => prefix ++ "-" ++ itoa (unixNano (now_at n)) ++ "-" ++ itoa own_pid
  end.
End clock.

(** * Statements on the index tables *)
Definition update_where {A} (cond : A -> bool) (f : A -> A) (l : list A) : list A * Z :=
  (map (fun a => if cond a then f a else a) l, lenZ (matching cond l)).
Definition with_jobs (l : list index_job_row) (d : database) : database :=
  with_index (mkIndexTables l (i_ownership (d_index d)) (i_generations (d_index d))) d.
Definition with_ownership (l : list indexJobOwnership) (d : database) : database :=
  with_index (mkIndexTables (i_jobs (d_index d)) l (i_generations (d_index d))) d.
Definition with_index_generations (l : list index_generation) (d : database) : database :=
  with_index (mkIndexTables (i_jobs (d_index d)) (i_ownership (d_index d)) l) d.
Definition jobs (d : database) : list index_job_row := i_jobs (d_index d).
Definition ownership (d : database) : list indexJobOwnership := i_ownership (d_index d).
Definition index_generations (d : database) : list index_generation := i_generations (d_index d).
Definition update_jobs (cond : database -> index_job_row -> bool) (f : index_job_row -> index_job_row) (d : database) :
    database * Z :=
  let '(l, n) := update_where (cond d) f (jobs d) in (with_jobs l d, n).
Definition update_ownership (cond : indexJobOwnership -> bool) (f : indexJobOwnership -> indexJobOwnership)
    (d : database) : database * Z :=
  let '(l, n) := update_where cond f (ownership d) in (with_ownership l d, n).
Definition update_index_generations (cond : database -> index_generation -> bool)
    (f : index_generation -> index_generation) (d : database) : database * Z :=
  let '(l, n) := update_where (cond d) f (index_generations d) in (with_index_generations l d, n).

(** [released_at IS NULL]. *)
Definition unreleased (o : indexJobOwnership) : bool := bool_decide (o_releasedAt o = None).
Definition owned_by (jobID : gostring) (f : IndexJobFence) (o : indexJobOwnership) : bool :=
  streq (o_jobID o) jobID && streq (o_ownerToken o) (f_OwnerToken f) && (o_fencingToken o =? f_FencingToken f)%Z
  && unreleased o.
(** The EXISTS of the updates by an owner, and of those by the control plane. *)
Definition held (jobID : gostring) (f : IndexJobFence) (d : database) : bool := existsb (owned_by jobID f) (ownership d).
Definition reserved (jobID : gostring) (d : database) : bool :=
  existsb (fun o => streq (o_jobID o) jobID && unreleased o) (ownership d).
Definition has_job_id (jobID : gostring) (r : index_job_row) : bool := streq (job_id r) jobID.
Definition on_job (f : IndexJob -> IndexJob) (r : index_job_row) : index_job_row :=
  mkJobRow (f (r_job r)) (r_publication_started r).
(** [job_id = ? AND requested_cancel = ? AND status IN (...)]. *)
Definition job_is (jobID : gostring) (cancel : bool) (statuses : list gostring) (r : index_job_row) : bool :=
  has_job_id jobID r && Bool.eqb (j_RequestedCancel (r_job r)) cancel && oneOf (job_status r) statuses.
Definition release (now : gostring) (o : indexJobOwnership) : indexJobOwnership :=
  mkOwnership (o_workspaceRoot o) (o_jobID o) (o_ownerToken o) (o_fencingToken o) (o_pid o) (o_acquiredAt o) (Some now).
Definition set_owner_pid (pid : Z) (o : indexJobOwnership) : indexJobOwnership :=
  mkOwnership (o_workspaceRoot o) (o_jobID o) (o_ownerToken o) (o_fencingToken o) pid (o_acquiredAt o) (o_releasedAt o).
Definition set_generation (status : gostring) (error : option gostring) (g : index_generation) : index_generation :=
  mkIndexGeneration (ig_GenerationID g) (ig_JobID g) (ig_WorkspaceName g) (ig_WorkspaceRoot g) (ig_Mode g) status
    (ig_Files g) (ig_Symbols g) (ig_Docs g) (ig_CreatedAt g) (ig_PublishedAt g) error.
Definition generation_is (jobID : gostring) (statuses : list gostring) (g : index_generation) : bool :=
  streq (ig_JobID g) jobID && oneOf (ig_Status g) statuses.

Section jobs.
Context `{UnicodeTables} `{Connection} `{Host}.

(** * The schema of ownership *)
Definition ownershipVersionMeta : gostring := "index_job_ownership_schema_version".
(** Columns, tables and indexes are there in the model; adding them can fail. *)
Definition schema_statement : Tx unit := _ ← exec (fun d => (d, 0%Z)); mret tt.
Definition ownership_schema_tx : Tx unit :=
  row ← reads (fun t => from_Q (meta_row t ownershipVersionMeta));
  raw ← match row with
        | None => mret ("0" : gostring)
        | Some None => throw (ErrQuery ErrDriver)
        | Some (Some v) => mret v
        end;
  match atoi raw with
  | None => throw (job_error (InvalidOwnershipSchema raw))
  | Some version =>
      if (version <? 0)%Z then throw (job_error (InvalidOwnershipSchema raw))
      else if (1 <? version)%Z then throw (job_error (UnsupportedOwnershipSchema version))
      else if (version =? 1)%Z then rollback
      else
        _ ← schema_statement; _ ← schema_statement; _ ← schema_statement; _ ← schema_statement;
        _ ← exec (upsert ownershipVersionMeta (Some "1"));
        commit
  end.
Definition ensureIndexJobOwnershipSchema : Db unit := transaction ownership_schema_tx.
Definition ensureColumn : Db unit := _ ← statement (fun d => (d, 0%Z)); mret tt.

(** * Reads inside a transaction *)
Definition loadIndexJobOwnership (root : gostring) : Tx (option indexJobOwnership) :=
  rows ← reads_db (fun d => matching (fun o => streq (o_workspaceRoot o) root) (ownership d)); mret (head rows).
Definition loadIndexJobOwnershipByJob (jobID : gostring) : Tx (option indexJobOwnership) :=
  rows ← reads_db (fun d => matching (fun o => streq (o_jobID o) jobID) (ownership d)); mret (head rows).
Definition loadIndexJobTx (jobID : gostring) : Tx (option IndexJob) :=
  rows ← reads_db (fun d => matching (has_job_id jobID) (jobs d)); mret (r_job <$> head rows).
(** The newest active job of the workspace, other than the one that is created. *)
Definition loadActiveIndexJobTx (root exclude : gostring) : Tx (option IndexJob) :=
  rows ← reads_db (fun d => matching (fun r => streq (job_root r) root && negb (streq (job_id r) exclude)
                                                && isIndexJobActive (job_status r)) (jobs d));
  mret (r_job <$> last rows).

(** * Creating a job *)
Definition fail_job (error now : gostring) (j : IndexJob) : IndexJob :=
  set_state IndexJobFailed IndexJobFailed (j_CurrentPath j) (j_RequestedCancel j) error now now j.
Definition staleJobMessage : gostring := "stale index job process exited".
Definition releaseIndexJobOwnershipTx (jobID : gostring) (f : IndexJobFence) (now : gostring) : Tx unit :=
  exec_one stale (update_ownership (owned_by jobID f) (release now)).
(** A job of an older version, or one whose process has gone, gives way. *)
Definition retire_legacy (job : IndexJob) : Tx unit :=
  legacy ← loadActiveIndexJobTx (j_WorkspaceRoot job) (j_JobID job);
  match legacy with
  | None => mret tt
  | Some legacy =>
      owner ← loadIndexJobOwnershipByJob (j_JobID legacy);
      let owned := match owner with Some o => unreleased o | None => false end in
      alive ← (if owned then mret true
               else if (0 <? j_PID legacy)%Z then tx_exists (j_PID legacy) else mret false);
      if (alive : bool) then throw (job_error (ActiveIndexJobError legacy))
      else
        now ← tx_now;
        exec_one stale (update_jobs (fun _ r => has_job_id (j_JobID legacy) r && isIndexJobActive (job_status r))
                          (on_job (fail_job staleJobMessage now)))
  end.
Definition in_root (root : gostring) (o : indexJobOwnership) : bool := streq (o_workspaceRoot o) root.
Definition fence_of_owner (o : indexJobOwnership) : IndexJobFence := mkFence (o_ownerToken o) (o_fencingToken o).
(** A reservation that was not released. *)
Definition clear_reservation (root : gostring) (o : indexJobOwnership) : Tx unit :=
  active ← loadIndexJobTx (o_jobID o);
  match active with
  | None => mret tt
  | Some j =>
      let drop now := update_ownership (fun p => in_root root p && owned_by (o_jobID o) (fence_of_owner o) p) (release now) in
      if isIndexJobActive (j_Status j) then
        alive ← (if (o_pid o <=? 0)%Z then mret true else tx_exists (o_pid o));
        if (alive : bool) then throw (job_error (ActiveIndexJobError j))
        else now ← tx_now; exec_one stale (drop now)
      else now ← tx_now; _ ← exec (drop now); mret tt
  end.
(** [INSERT ... ON CONFLICT(workspace_root) DO UPDATE ... WHERE released_at IS NOT NULL]. *)
Definition reserve_row (o : indexJobOwnership) (d : database) : database * Z :=
  if existsb (in_root (o_workspaceRoot o)) (ownership d)
  then update_ownership (fun p => in_root (o_workspaceRoot o) p && negb (unreleased p)) (fun _ => o) d
  else (with_ownership (ownership d ++ [o]) d, 1%Z).
Definition bare_job (jobID root status : gostring) : IndexJob :=
  mkIndexJob jobID [] [] root [] [] false false [] false status [] [] [] 0 0 false [] 0 0 0 [] [] [] [] [] 0.
Definition reservation_taken (root : gostring) : Tx unit :=
  current ← loadIndexJobOwnership root;
  match current with
  | None => throw ErrNoRows
  | Some o =>
      if unreleased o then
        active ← tx_attempt (loadIndexJobTx (o_jobID o));
        throw (job_error (ActiveIndexJobError
          match active with Ok (Some j) => j | _ => bare_job (o_jobID o) root IndexJobRunning end))
      else throw stale
  end.
Definition reserveIndexJobTx (job : IndexJob) : Tx unit :=
  let root := j_WorkspaceRoot job in
  _ ← retire_legacy job;
  owner ← loadIndexJobOwnership root;
  _ ← match owner with
      | Some o => if unreleased o then clear_reservation root o else mret tt
      | None => mret tt
      end;
  let fencing := match owner with Some o => wrap64 (o_fencingToken o + 1) | None => 1%Z end in
  token ← (fun x => (Ok (newIndexID (x_calls x) "idxowner"), x) : result store_error gostring * txn);
  n ← exec (reserve_row (mkOwnership root (j_JobID job) token fencing 0 (j_CreatedAt job) None));
  if (n =? 1)%Z then mret tt else reservation_taken root.

Definition insert_job (job : IndexJob) (d : database) : database * Z :=
  (with_jobs (jobs d ++ [mkJobRow job false]) d, 1%Z).
Definition insert_index_generation (job : IndexJob) (d : database) : database * Z :=
  (with_index_generations (index_generations d ++
     [mkIndexGeneration (j_GenerationID job) (j_JobID job) (j_WorkspaceName job) (j_WorkspaceRoot job) (j_Mode job)
        "building" 0 0 0 (j_CreatedAt job) None None]) d, 1%Z).
(** A job is never shared by requests with other policies. *)
Definition policy_mismatch (job : IndexJob) (e : store_error) : store_error :=
  match e with
  | ErrIndexJob (ActiveIndexJobError a) =>
      if negb (Bool.eqb (j_GoOffline a) (j_GoOffline job)) || negb (Bool.eqb (j_NoEmbeddings a) (j_NoEmbeddings job))
      then ErrIndexJob (IndexJobPolicyMismatchError a (j_GoOffline job) (j_NoEmbeddings job)) else e
  | _ => e
  end.
Definition reserve_for (job : IndexJob) : Tx unit := fun x =>
  let '(r, x) := reserveIndexJobTx job x in (map_err (policy_mismatch job) r, x).
Definition create_tx (job : IndexJob) : Tx unit :=
  _ ← exec (insert_job job);
  _ ← reserve_for job;
  _ ← exec (insert_index_generation job);
  commit.
Definition attachIndexJobOwner (job : IndexJob) : Db IndexJob :=
  rows ← fetch (fun d => matching (fun o => streq (o_jobID o) (j_JobID job) && unreleased o) (ownership d));
  mret (match rows with o :: _ => set_owner (o_ownerToken o) (o_fencingToken o) job | [] => job end).
Definition new_job (n : nat) (name root mode entrypoint : gostring) (clean goOffline noEmbeddings : bool) : IndexJob :=
  mkIndexJob (newIndexID n "idxjob") (newIndexID n "idxgen") name root mode (trimSpace entrypoint) goOffline
    noEmbeddings (indexJobEmbeddingsOutcome mode noEmbeddings) clean IndexJobQueued "queued" [] [] 0 0 false []
    0 0 0 (stamp n) [] [] (stamp n) [] 0.
Definition createIndexJob (name root mode entrypoint : gostring) (clean goOffline noEmbeddings : bool) : Db IndexJob :=
  mode ← (Done (map_err job_error (NormalizeIndexMode mode)) : Db gostring);
  _ ← ensureColumn; _ ← ensureColumn; _ ← ensureColumn;
  _ ← ensureIndexJobOwnershipSchema;
  job ← db_asks (fun n => new_job n name root mode entrypoint clean goOffline noEmbeddings);
  _ ← transaction (create_tx job);
  attachIndexJobOwner job.
End jobs.

Section operations.
Context `{UnicodeTables} `{Connection} `{Host}.

(** * What the owner of a job does *)
Definition resolve (f : IndexJobFence) : Db IndexJobFence := Done (map_err job_error (resolveIndexJobFence f)).
(** An update by the holder of the fence. *)
Definition by_owner (jobID : gostring) (f : IndexJobFence) (cond : index_job_row -> bool)
    (g : index_job_row -> index_job_row) : database -> database * Z :=
  update_jobs (fun d r => has_job_id jobID r && cond r && held jobID f d) g.
Definition status_in (cancel : bool) (statuses : list gostring) (r : index_job_row) : bool :=
  Bool.eqb (j_RequestedCancel (r_job r)) cancel && oneOf (job_status r) statuses.
Definition run_job (pid : Z) (phase now : gostring) (j : IndexJob) : IndexJob :=
  set_columns IndexJobRunning phase phase [] 0 pid (j_RequestedCancel j) (j_Error j) (j_Files j) (j_Symbols j) (j_Docs j)
    (if streq (j_StartedAt j) [] then now else j_StartedAt j) (j_FinishedAt j) now j.
Definition running_tx (jobID : gostring) (pid : Z) (phase : gostring) (f : IndexJobFence) (now : gostring) : Tx unit :=
  _ ← exec_one stale (by_owner jobID f (status_in false [IndexJobQueued; IndexJobRunning]) (on_job (run_job pid phase now)));
  _ ← exec_one stale (update_ownership (owned_by jobID f) (set_owner_pid pid));
  commit.
Definition MarkIndexJobRunning (jobID : gostring) (pid : Z) (phase : gostring) (fence : IndexJobFence) : Db unit :=
  _ ← ensureIndexJobOwnershipSchema;
  f ← resolve fence;
  now ← db_now;
  transaction (running_tx jobID pid phase f now).

(** The fence of publication: running and not yet publishing, or publishing already. *)
Definition may_publish (r : index_job_row) : bool :=
  negb (j_RequestedCancel (r_job r))
  && ((streq (job_status r) IndexJobRunning && negb (r_publication_started r))
      || (streq (job_status r) IndexJobPublishing && r_publication_started r)).
Definition phase_job (phase now : gostring) (r : index_job_row) : index_job_row :=
  let j := r_job r in
  mkJobRow (set_state IndexJobPublishing phase [] (j_RequestedCancel j) (j_Error j) (j_FinishedAt j) now j) true.
Definition MarkIndexJobPhase (jobID status phase : gostring) (fence : IndexJobFence) : Db unit :=
  _ ← require (streq status IndexJobPublishing) (job_error ErrInvalidIndexJobTransition);
  _ ← ensureIndexJobOwnershipSchema;
  f ← resolve fence;
  now ← db_now;
  n ← statement (by_owner jobID f may_publish (phase_job phase now));
  require (n =? 1)%Z stale.

Definition progress_job (p : IndexJobProgress) (now : gostring) (j : IndexJob) : IndexJob :=
  set_columns (if streq (j_Status j) IndexJobPublishing then IndexJobPublishing else IndexJobRunning) (j_Phase j)
    (p_CurrentStage p) (p_CurrentPath p) (p_FilesTotal p) (j_PID j) (j_RequestedCancel j) (j_Error j)
    (p_Files p) (p_Symbols p) (p_Docs p) (j_StartedAt j) (j_FinishedAt j) now j.
Definition MarkIndexJobProgress (jobID : gostring) (p : IndexJobProgress) (fence : IndexJobFence) : Db unit :=
  _ ← ensureIndexJobOwnershipSchema;
  f ← resolve fence;
  now ← db_now;
  n ← statement (by_owner jobID f (status_in false [IndexJobRunning; IndexJobPublishing]) (on_job (progress_job p now)));
  require (n =? 1)%Z stale.

Definition succeed_job (files symbols docs : Z) (now : gostring) (j : IndexJob) : IndexJob :=
  set_columns IndexJobSucceeded "done" "done" [] (Z.max (j_FilesTotal j) files) (j_PID j) (j_RequestedCancel j) []
    files symbols docs (j_StartedAt j) now now j.
Definition completable (publication : bool) (r : index_job_row) : bool :=
  negb (j_RequestedCancel (r_job r))
  && (if publication then streq (job_status r) IndexJobPublishing && r_publication_started r
      else streq (job_status r) IndexJobRunning && negb (r_publication_started r)).
Definition completeIndexJobTx (jobID : gostring) (files symbols docs : Z) (f : IndexJobFence) (publication : bool) : Tx unit :=
  now ← tx_now;
  _ ← exec_one stale (by_owner jobID f (completable publication) (on_job (succeed_job files symbols docs now)));
  releaseIndexJobOwnershipTx jobID f now.
Definition MarkIndexJobSucceeded (jobID : gostring) (files symbols docs : Z) (fence : IndexJobFence) : Db unit :=
  _ ← ensureIndexJobOwnershipSchema;
  f ← resolve fence;
  transaction (_ ← completeIndexJobTx jobID files symbols docs f false; commit).

Definition MarkIndexGenerationSkipped (jobID message : gostring) (fence : IndexJobFence) : Db unit :=
  _ ← ensureIndexJobOwnershipSchema;
  f ← resolve fence;
  n ← statement (update_index_generations (fun d g => generation_is jobID ["building"] g && held jobID f d)
                   (set_generation "skipped" (Some message)));
  require (n =? 1)%Z stale.

Definition failable (r : index_job_row) : bool :=
  status_in false [IndexJobQueued; IndexJobRunning; IndexJobPublishing] r && negb (r_publication_started r).
(** The mode of a job that is failed decides whether the graph is stale. *)
Definition touches_graph (mode : gostring) : bool := oneOf mode [IndexModeFull; IndexModeCatalog; "incremental"].
Definition failed_tx (jobID message : gostring) (f : IndexJobFence) (now : gostring) : Tx unit :=
  _ ← exec_one stale (by_owner jobID f failable (on_job (fail_job message now)));
  _ ← exec_one stale (update_index_generations (fun _ => generation_is jobID ["building"; "staged"])
                        (set_generation "failed" (Some message)));
  row ← loadIndexJobTx jobID;
  mode ← match row with Some j => mret (j_Mode j) | None => throw ErrNoRows end;
  _ ← (if touches_graph mode then setGraphRuntimeStateTx GraphRuntimeStale [] else mret tt);
  _ ← releaseIndexJobOwnershipTx jobID f now;
  commit.
Definition MarkIndexJobFailed (jobID message : gostring) (fence : IndexJobFence) : Db unit :=
  _ ← ensureIndexJobOwnershipSchema;
  f ← resolve fence;
  now ← db_now;
  transaction (failed_tx jobID message f now).

Definition cancel_job (now : gostring) (j : IndexJob) : IndexJob :=
  set_state IndexJobCanceled IndexJobCanceled [] true (j_Error j) now now j.
Definition cancel_generation (jobID : gostring) : Tx unit :=
  exec_one stale (update_index_generations (fun _ => generation_is jobID ["building"])
                    (set_generation "canceled" (Some "canceled"))).
Definition confirmable (r : index_job_row) : bool :=
  status_in true [IndexJobQueued; IndexJobRunning; IndexJobCancelRequested] r && negb (r_publication_started r).
Definition canceled_tx (jobID : gostring) (f : IndexJobFence) (now : gostring) : Tx unit :=
  _ ← exec_one stale (by_owner jobID f confirmable (on_job (cancel_job now)));
  _ ← cancel_generation jobID;
  _ ← releaseIndexJobOwnershipTx jobID f now;
  commit.
Definition MarkIndexJobCanceled (jobID : gostring) (fence : IndexJobFence) : Db unit :=
  _ ← ensureIndexJobOwnershipSchema;
  f ← resolve fence;
  now ← db_now;
  transaction (canceled_tx jobID f now).

(** * Reads *)

(** Whether the process of an active job has gone. *)
Definition staleIndexJobForRead (job : IndexJob) : Db bool :=
  if negb (isIndexJobActive (j_Status job)) then mret false
  else
    rows ← fetch (fun d => matching (fun o => streq (o_jobID o) (j_JobID job)) (ownership d));
    let gone pid := db_asks (fun n => negb (process_exists n pid)) in
    match rows with
    | o :: _ =>
        if negb (streq (o_ownerToken o) []) && (0 <? o_fencingToken o)%Z && unreleased o
        then if (o_pid o <=? 0)%Z then mret false else gone (o_pid o)
        else if (j_PID job <=? 0)%Z then mret true else gone (j_PID job)
    | [] => if (j_PID job <=? 0)%Z then mret true else gone (j_PID job)
    end.
Definition loadIndexJobRow (jobID : gostring) : Db (option IndexJob) :=
  rows ← fetch (fun d => matching (has_job_id jobID) (jobs d)); mret (r_job <$> head rows).
Definition loadLatestIndexJobRow : Db (option IndexJob) :=
  rows ← fetch (fun d => sortOn (fun a b => compareString b a) (fun r => j_CreatedAt (r_job r)) (jobs d));
  mret (r_job <$> head rows).
Definition loadIndexJobSnapshot (jobID : gostring) : Db (option IndexJob) :=
  row ← loadIndexJobRow jobID;
  match row with Some job => job ← attachIndexJobOwner job; mret (Some job) | None => mret None end.
(** A job whose process has gone is marked failed; what the data base then says is read. *)
Definition reconcileIndexJobRead (job : IndexJob) : Db (option IndexJob) :=
  job ← attachIndexJobOwner job;
  gone ← staleIndexJobForRead job;
  if negb gone || streq (j_OwnerToken job) [] then mret (Some job)
  else
    marked ← catch (MarkIndexJobFailed (j_JobID job) staleJobMessage (fence_of job));
    match marked with
    | Ok _ | Err (ErrIndexJob ErrStaleIndexJobOwner) => loadIndexJobSnapshot (j_JobID job)
    | Err e => stop e
    end.
Definition GetIndexJob (jobID : gostring) : Db (option IndexJob) :=
  row ← loadIndexJobRow jobID;
  match row with Some job => reconcileIndexJobRead job | None => mret None end.
Definition LatestIndexJob : Db (option IndexJob) :=
  row ← loadLatestIndexJobRow;
  match row with Some job => reconcileIndexJobRead job | None => mret None end.
Fixpoint first_active (candidates : list IndexJob) : Db (option IndexJob) :=
  match candidates with
  | [] => mret None
  | c :: candidates =>
      job ← reconcileIndexJobRead c;
      match job with
      | Some j => if isIndexJobActive (j_Status j) then mret (Some j) else first_active candidates
      | None => first_active candidates
      end
  end.
Definition ActiveIndexJob (root : gostring) : Db (option IndexJob) :=
  rows ← fetch (fun d => take 128 (reverse (matching (fun r => isIndexJobActive (job_status r)) (jobs d))));
  first_active (map r_job (matching (fun r => streq (job_root r) root) rows)).
Definition IsIndexJobCancelRequested (jobID : gostring) : Db bool :=
  rows ← fetch (fun d => matching (has_job_id jobID) (jobs d));
  match rows with
  | r :: _ => mret (j_RequestedCancel (r_job r) || streq (job_status r) IndexJobCancelRequested)
  | [] => stop ErrNoRows
  end.

(** * Cancellation *)
Definition request_cancel_job (now : gostring) (j : IndexJob) : IndexJob :=
  set_state IndexJobCancelRequested IndexJobCancelRequested (j_CurrentPath j) true (j_Error j) (j_FinishedAt j) now j.
(** An update by the control plane, of a job that somebody owns. *)
Definition by_anyone (jobID : gostring) (cond : index_job_row -> bool) (g : index_job_row -> index_job_row) :
    database -> database * Z :=
  update_jobs (fun d r => has_job_id jobID r && cond r && reserved jobID d) g.
(** A queued job ends here; a running one is asked to; any other is left alone. *)
Definition request_cancel_tx (jobID now : gostring) : Tx unit :=
  n ← exec (by_anyone jobID (status_in false [IndexJobQueued]) (on_job (cancel_job now)));
  if (n =? 1)%Z then
    owner ← loadIndexJobOwnershipByJob jobID;
    match owner with
    | None => throw ErrNoRows
    | Some o =>
        _ ← expect (unreleased o) stale;
        _ ← cancel_generation jobID;
        _ ← releaseIndexJobOwnershipTx jobID (fence_of_owner o) now;
        commit
    end
  else
    n ← exec (by_anyone jobID (status_in false [IndexJobRunning]) (on_job (request_cancel_job now)));
    if (n =? 1)%Z then commit else rollback.
Definition public_job (job : option IndexJob) : Db IndexJob :=
  match job with Some j => mret (ControlPlaneIndexJob j) | None => stop ErrNoRows end.
Definition RequestIndexJobCancelByID (jobID : gostring) : Db IndexJob :=
  _ ← ensureIndexJobOwnershipSchema;
  job ← GetIndexJob jobID;
  match job with
  | None => stop ErrNoRows
  | Some job =>
      if negb (isIndexJobActive (j_Status job)) then mret (ControlPlaneIndexJob job)
      else
        now ← db_now;
        _ ← transaction (request_cancel_tx jobID now);
        job ← GetIndexJob jobID;
        public_job job
  end.
Definition terminate_job (now : gostring) (j : IndexJob) : IndexJob :=
  set_columns (j_Status j) "terminating" "terminating" (j_CurrentPath j) (j_FilesTotal j) (j_PID j) (j_RequestedCancel j)
    (j_Error j) (j_Files j) (j_Symbols j) (j_Docs j) (j_StartedAt j) (j_FinishedAt j) now j.
(** The last answer of a forced cancellation: a row that has gone is an empty job. *)
Definition final_job (jobID : gostring) : Db IndexJob :=
  job ← GetIndexJob jobID;
  mret (ControlPlaneIndexJob (default (bare_job [] [] []) job)).
Definition force_cancel (job : IndexJob) (f : IndexJobFence) : Db IndexJob :=
  let id := j_JobID job in
  _ ← MarkIndexJobCanceled id f;
  removed ← db_asks locks_removed;
  _ ← require ((j_PID job <=? 0)%Z || removed) (ErrQuery ErrDriver);
  final_job id.
Definition CancelIndexJob (jobID : gostring) (force : bool) : Db IndexJob :=
  if negb force then RequestIndexJobCancelByID jobID
  else
    job ← GetIndexJob jobID;
    match job with
    | None => stop ErrNoRows
    | Some job =>
        if negb (isIndexJobActive (j_Status job)) || streq (j_Status job) IndexJobPublishing
        then mret (ControlPlaneIndexJob job)
        else
          let f := fence_of job in
          requested ← RequestIndexJobCancelByID jobID;
          if negb (isIndexJobActive (j_Status requested)) then mret requested
          else
            alive ← (if (0 <? j_PID job)%Z then db_asks (fun n => process_exists n (j_PID job)) else mret false);
            if negb alive then force_cancel job f
            else
              killed ← db_asks (fun n => process_terminated n (j_PID job) || negb (process_exists n (j_PID job)));
              _ ← require killed (ErrQuery ErrDriver);
              ended ← db_asks (fun n => process_waited n (j_PID job));
              if (ended : bool) then force_cancel job f
              else
                now ← db_now;
                n ← statement (by_owner jobID f (status_in true [IndexJobCancelRequested]) (on_job (terminate_job now)));
                _ ← require (n =? 1)%Z stale;
                final_job jobID
    end.
End operations.
