(* ===== verification/IndexPublish.v ===== *)
(** Publishing what a job has built: internal/store/index_publish.go.

    A job's publication is one transaction: the fence, the rows of the catalog and of the
    documents, the generation, the graph, and the end of the job.  The statements on the
    catalog and document tables are not modelled: [body] stands for them. *)
From S2P Require Import Prelude GoStrings GoStringFacts GoSort GoNum GoTime Graph GraphStore IndexTables GraphValidate GraphPublish IndexJobs.

Local Open Scope go_scope.

Definition WorkspaceMetaActiveCatalogGeneration : gostring := "active_catalog_generation_id".
Definition WorkspaceMetaActiveDocsGeneration : gostring := "active_docs_generation_id".
Definition WorkspaceMetaActiveMemoryGeneration : gostring := "active_memory_generation_id".
Definition WorkspaceMetaLastIndexGeneration : gostring := "last_index_generation_id".

Record IndexJobGraphPublication := mkGraphPublication {
  gp_GenerationID : option digest; gp_ExpectedPrior : option digest; gp_PublishedAt : Z; gp_GraphCurrent : bool;
  gp_GraphBundle : option GraphBundle; gp_GenerationSkippedReason : gostring; gp_CatalogGeneration : gostring }.
Definition no_graph : IndexJobGraphPublication := mkGraphPublication None None 0 false None [] [].
Definition skip_generation (reason : gostring) (g : IndexJobGraphPublication) : IndexJobGraphPublication :=
  mkGraphPublication (gp_GenerationID g) (gp_ExpectedPrior g) (gp_PublishedAt g) (gp_GraphCurrent g)
    (gp_GraphBundle g) reason (gp_CatalogGeneration g).

Section publish.
Context `{UnicodeTables} `{NFC} `{UrlParser} `{SHA256} `{Connection} `{Host}.

(** * The metadata of the workspace *)

(** [INSERT OR REPLACE], in the order in which Go visits the map: every order writes the
    same values, because the keys differ. *)
Fixpoint UpsertWorkspaceMetaMap (metadata : list (gostring * gostring)) : Tx unit :=
  match metadata with
  | [] => mret tt
  | (key, value) :: metadata => _ ← exec (upsert key (Some value)); UpsertWorkspaceMetaMap metadata
  end.
(** The pointers that a generation of this mode moves. *)
Definition mode_pointers (mode : gostring) : option (list gostring) :=
  if streq mode "full"
  then Some [WorkspaceMetaActiveCatalogGeneration; WorkspaceMetaActiveDocsGeneration; WorkspaceMetaActiveMemoryGeneration]
  else if streq mode "docs" then Some [WorkspaceMetaActiveDocsGeneration; WorkspaceMetaActiveMemoryGeneration]
  else if oneOf mode ["catalog"; "incremental"] then Some [WorkspaceMetaActiveCatalogGeneration]
  else None.
Definition generation_metadata (generationID mode : gostring) (files symbols docs : Z) (now : gostring) :
    list (gostring * gostring) :=
  [(WorkspaceMetaLastIndexGeneration, generationID); ("active_generation_mode" : gostring, mode);
   ("active_generation_published_at" : gostring, now); ("active_generation_files" : gostring, itoa files);
   ("active_generation_symbols" : gostring, itoa symbols); ("active_generation_docs" : gostring, itoa docs)].
Definition write_metadata (generationID mode : gostring) (files symbols docs : Z) (now : gostring) : Tx unit :=
  match mode_pointers mode with
  | None => throw (job_error (UnknownGenerationMode mode))
  | Some keys =>
      UpsertWorkspaceMetaMap (generation_metadata generationID mode files symbols docs now
                              ++ map (fun key => (key, generationID)) keys)
  end.
Definition publish_generation (files symbols docs : Z) (now : gostring) (g : index_generation) : index_generation :=
  mkIndexGeneration (ig_GenerationID g) (ig_JobID g) (ig_WorkspaceName g) (ig_WorkspaceRoot g) (ig_Mode g) "published"
    files symbols docs (ig_CreatedAt g) (Some now) None.
Definition is_generation (generationID : gostring) (g : index_generation) : bool := streq (ig_GenerationID g) generationID.
Definition publishGenerationForJobTx (jobID generationID mode : gostring) (files symbols docs : Z) (now : gostring) : Tx unit :=
  if streq generationID [] then mret tt
  else
    _ ← exec_one stale (update_index_generations
          (fun _ g => is_generation generationID g && generation_is jobID ["building"; "published"] g)
          (publish_generation files symbols docs now));
    write_metadata generationID mode files symbols docs now.
Definition publishGenerationTx (generationID mode : gostring) (files symbols docs : Z) : Tx unit :=
  if streq generationID [] then mret tt
  else
    now ← tx_now;
    _ ← exec (update_index_generations (fun _ => is_generation generationID) (publish_generation files symbols docs now));
    write_metadata generationID mode files symbols docs now.

(** * The graph of a publication *)
Definition stage_and_activate (g : IndexJobGraphPublication) : Tx unit :=
  _ ← match gp_GraphBundle g with Some b => stageGraphGenerationConn b | None => mret tt end;
  match gp_GenerationID g with
  | None => mret tt
  | Some id =>
      publishedAt ← (if (gp_PublishedAt g =? 0)%Z
                     then (fun x => (Ok (now_at (x_calls x)), x)) : Tx Z else mret (gp_PublishedAt g));
      activateGraphGenerationTx id (gp_ExpectedPrior g) publishedAt
  end.
Definition meta_text (key : gostring) : Tx gostring :=
  row ← reads (fun t => from_Q (meta_row t key));
  match row with None => mret [] | Some (Some v) => mret v | Some None => throw (ErrQuery ErrDriver) end.
(** The catalog that a fresh graph belongs to. *)
Definition catalog_of (g : IndexJobGraphPublication) (generationID : gostring) : Tx gostring :=
  catalog ← (if streq (gp_CatalogGeneration g) [] then meta_text WorkspaceMetaActiveCatalogGeneration
             else mret (gp_CatalogGeneration g));
  mret (if streq catalog [] then generationID else catalog).
Definition changes_code (mode : gostring) : bool := oneOf mode ["full"; "incremental"].
Definition publish_graph (graph : option IndexJobGraphPublication) (generationID mode : gostring) : Tx unit :=
  match graph with
  | None => if changes_code mode then setGraphRuntimeStateTx GraphRuntimeStale [] else mret tt
  | Some g =>
      _ ← stage_and_activate g;
      if gp_GraphCurrent g then
        catalog ← catalog_of g generationID;
        setGraphRuntimeStateTx GraphRuntimeFresh catalog
      else if streq (gp_GenerationSkippedReason g) [] && changes_code mode
      then setGraphRuntimeStateTx GraphRuntimeStale []
      else mret tt
  end.

(** * The publication of a job *)
Definition start_publishing (now : gostring) (r : index_job_row) : index_job_row :=
  let j := r_job r in
  mkJobRow (set_state IndexJobPublishing IndexJobPublishing (j_CurrentPath j) (j_RequestedCancel j) (j_Error j)
              (j_FinishedAt j) now j) true.
Definition close_generation (jobID generationID mode : gostring) (files symbols docs : Z) (now : gostring)
    (graph : option IndexJobGraphPublication) : Tx unit :=
  let reason := match graph with Some g => gp_GenerationSkippedReason g | None => [] end in
  if streq reason [] then publishGenerationForJobTx jobID generationID mode files symbols docs now
  else exec_one stale (update_index_generations
         (fun _ g => is_generation generationID g && generation_is jobID ["building"] g)
         (set_generation "skipped" (Some reason))).
(** [body] may change what is published of the graph, as the variants for documents do. *)
Definition publish_tx (jobID generationID mode : gostring) (files symbols docs : Z) (f : IndexJobFence)
    (graph : option IndexJobGraphPublication)
    (body : option IndexJobGraphPublication -> Tx (option IndexJobGraphPublication)) : Tx unit :=
  now ← tx_now;
  _ ← exec_one stale (by_owner jobID f may_publish (start_publishing now));
  graph ← body graph;
  _ ← close_generation jobID generationID mode files symbols docs now graph;
  _ ← publish_graph graph generationID mode;
  _ ← completeIndexJobTx jobID files symbols docs f true;
  commit.
Definition publishOwned (jobID generationID mode : gostring) (files symbols docs : Z) (fence : IndexJobFence)
    (graph : option IndexJobGraphPublication)
    (body : option IndexJobGraphPublication -> Tx (option IndexJobGraphPublication)) : Db unit :=
  f ← resolve fence;
  _ ← require (negb (streq jobID [])) stale;
  _ ← ensureIndexJobOwnershipSchema;
  transaction (publish_tx jobID generationID mode files symbols docs f graph body).
Definition writing (rows : Tx unit) (graph : option IndexJobGraphPublication) : Tx (option IndexJobGraphPublication) :=
  _ ← rows; mret graph.

(** ** The publications that jobs make; [rows] are their writes to the catalog *)
Definition replaceWorkspaceIndexForJob (jobID generationID : gostring) (files symbols docs : Z) (fence : IndexJobFence)
    (graph : option IndexJobGraphPublication) (rows : Tx unit) : Db unit :=
  publishOwned jobID generationID "full" files symbols docs fence graph (writing rows).
Definition replaceWorkspaceDocsForJob (jobID generationID : gostring) (docs : Z) (fence : IndexJobFence)
    (graph : option IndexJobGraphPublication) (rows : Tx unit) : Db unit :=
  publishOwned jobID generationID "docs" 0 0 docs fence graph (writing rows).
Definition ReplaceWorkspaceCatalogForJob (jobID generationID : gostring) (files symbols : Z) (fence : IndexJobFence)
    (rows : Tx unit) : Db unit :=
  publishOwned jobID generationID "catalog" files symbols 0 fence None (writing rows).
Definition PublishIncrementalGenerationForJobWithChanges (jobID generationID : gostring) (files symbols docs : Z)
    (fence : IndexJobFence) (graph : option IndexJobGraphPublication) (rows : Tx unit) : Db unit :=
  publishOwned jobID generationID "incremental" files symbols docs fence graph (writing rows).
Definition noIncrementalChanges : gostring := "no incremental changes".
Definition PublishIncrementalGenerationForJobNoChanges (jobID generationID : gostring) (fence : IndexJobFence) : Db unit :=
  publishOwned jobID generationID "incremental" 0 0 0 fence (Some (skip_generation noIncrementalChanges no_graph))
    (writing (mret tt)).
Definition PublishIncrementalGraphRepairForJob (jobID generationID : gostring) (fence : IndexJobFence)
    (graph : option IndexJobGraphPublication) : Db unit :=
  match graph with
  | Some (mkGraphPublication (Some id) prior at_ _ bundle _ catalog) =>
      publishOwned jobID generationID "incremental" 0 0 0 fence
        (Some (mkGraphPublication (Some id) prior at_ true bundle noIncrementalChanges catalog)) (writing (mret tt))
  | _ => stop stale
  end.
Definition requireIncrementalGenerationID (generationID : gostring) : Db unit :=
  require (negb (streq (trimSpace generationID) [])) (job_error GenerationIDRequired).
Definition noDocumentChanges : gostring := "no document changes".
(** [rows] says whether a document has changed. *)
Definition PublishIncrementalDocsGenerationForJob (jobID generationID : gostring) (docs : Z) (fence : IndexJobFence)
    (rows : Tx bool) : Db unit :=
  _ ← requireIncrementalGenerationID generationID;
  publishOwned jobID generationID "docs" 0 0 docs fence (Some no_graph) (fun graph =>
    actual ← rows;
    if (actual : bool) then _ ← setGraphRuntimeStateTx GraphRuntimeStale []; mret graph
    else mret (skip_generation noDocumentChanges <$> graph)).
Definition CompleteIncrementalDocsJobForJob (jobID generationID : gostring) (fence : IndexJobFence) : Db unit :=
  _ ← requireIncrementalGenerationID generationID;
  publishOwned jobID generationID "docs" 0 0 0 fence (Some (skip_generation noDocumentChanges no_graph))
    (writing (mret tt)).
Definition setActiveDocsGenerationTx (generationID : gostring) : Tx unit :=
  _ ← expect (negb (streq (trimSpace generationID) [])) (job_error GenerationIDRequired);
  UpsertWorkspaceMetaMap [(WorkspaceMetaActiveDocsGeneration, generationID);
                          (WorkspaceMetaActiveMemoryGeneration, generationID)].
(** [changed] says whether a document has changed, after the rows of the files. *)
Definition move_docs (generationID : gostring) (rows : Tx bool) : Tx unit :=
  actual ← rows;
  if (actual : bool) then setActiveDocsGenerationTx generationID else mret tt.
Definition PublishIncrementalGenerationForJobWithFileAndDocChanges (jobID generationID : gostring)
    (files symbols docs : Z) (fence : IndexJobFence) (rows : Tx bool) : Db unit :=
  _ ← requireIncrementalGenerationID generationID;
  publishOwned jobID generationID "incremental" files symbols docs fence None (writing (move_docs generationID rows)).

(** * Publications without a job *)
Definition publishForeground (body : Tx unit) : Db unit := transaction (_ ← body; commit).
Definition publishIncrementalGenerationTx (generationID : gostring) (files symbols docs : Z)
    (graph : option IndexJobGraphPublication) : Tx unit :=
  _ ← publishGenerationTx generationID "incremental" files symbols docs;
  match graph with
  | None => setGraphRuntimeStateTx GraphRuntimeStale []
  | Some g =>
      if negb (streq (gp_GenerationSkippedReason g) []) then setGraphRuntimeStateTx GraphRuntimeStale []
      else
        _ ← stage_and_activate g;
        if gp_GraphCurrent g
        then setGraphRuntimeStateTx GraphRuntimeFresh
               (if streq generationID [] then gp_CatalogGeneration g else generationID)
        else setGraphRuntimeStateTx GraphRuntimeStale []
  end.
Definition replaceWorkspaceIndex (generationID : gostring) (files symbols docs : Z) (rows : Tx unit) : Db unit :=
  publishForeground (_ ← rows; publishGenerationTx generationID "full" files symbols docs).
Definition replaceWorkspaceDocs (generationID : gostring) (docs : Z) (rows : Tx unit) : Db unit :=
  publishForeground (_ ← rows; publishGenerationTx generationID "docs" 0 0 docs).
Definition ReplaceWorkspaceCatalog (generationID : gostring) (files symbols : Z) (rows : Tx unit) : Db unit :=
  publishForeground (_ ← rows; publishGenerationTx generationID "catalog" files symbols 0).
Definition PublishIncrementalGenerationWithChanges (generationID : gostring) (files symbols docs : Z)
    (graph : option IndexJobGraphPublication) (rows : Tx unit) : Db unit :=
  publishForeground (_ ← rows; publishIncrementalGenerationTx generationID files symbols docs graph).
Definition publishIncrementalDocsTx (generationID : gostring) (rows : Tx bool) : Tx unit :=
  _ ← expect (negb (streq (trimSpace generationID) [])) (job_error GenerationIDRequired);
  actual ← rows;
  if (actual : bool) then _ ← setActiveDocsGenerationTx generationID; setGraphRuntimeStateTx GraphRuntimeStale []
  else mret tt.
Definition PublishIncrementalDocsGeneration (generationID : gostring) (rows : Tx bool) : Db unit :=
  _ ← requireIncrementalGenerationID generationID;
  publishForeground (publishIncrementalDocsTx generationID rows).
Definition PublishIncrementalGenerationWithFileAndDocChanges (generationID : gostring) (files symbols docs : Z)
    (file_rows : Tx unit) (doc_rows : Tx bool) : Db unit :=
  _ ← requireIncrementalGenerationID generationID;
  publishForeground (
    _ ← file_rows;
    actual ← doc_rows;
    _ ← publishIncrementalGenerationTx generationID files symbols docs None;
    if (actual : bool) then setActiveDocsGenerationTx generationID else mret tt).
End publish.
