(* ===== verification/IndexJobsFacts.v ===== *)
(** Lemmas on index jobs: the graph operations leave their tables alone, every transaction
    on them is a move of the jobs and of the reservations that fit together, and such
    moves keep one active job per workspace. *)
From S2P Require Import Prelude GoStrings GoStringFacts GoSort GoNum GoTime Graph GraphFacts GraphStore GraphStoreFacts IndexTables GraphValidate GraphValidateFacts GraphPublish GraphPublishFacts GraphActivation IndexJobs IndexPublish.

Local Open Scope go_scope.

(** * Transactions that leave the index tables alone *)

(** Whatever happens, [m] keeps the part [p] of its working copy, and commits no other. *)
Definition keeps {X} (p : database -> X) {A} (m : Tx A) : Prop := forall x,
  let y := snd (m x) in
  p (x_work y) = p (x_work x) /\
  (x_committed y = x_committed x \/ p (x_committed y) = p (x_work x)).
Notation static := (keeps d_index).

Section keeps_rules.
Context `{Connection} {X : Type} (p : database -> X).
Lemma keeps_ret {A} (a : A) : keeps p (mret a).
Proof. intros x. by split; [|left]. Qed.
Lemma keeps_throw {A} e : keeps p (throw (A:=A) e).
Proof. intros x. by split; [|left]. Qed.
Lemma keeps_lift {A} r : keeps p (lift (A:=A) r).
Proof. intros x. by split; [|left]. Qed.
Lemma keeps_expect b e : keeps p (expect b e).
Proof. destruct b; [apply keeps_ret|apply keeps_throw]. Qed.
Lemma keeps_reads {A} (m : tables -> R A) : keeps p (reads m).
Proof. intros x. unfold reads. destruct (m _ _). by split; [|left]. Qed.
Lemma keeps_reads_db {A} (rows : database -> list A) : keeps p (reads_db rows).
Proof. intros x. unfold reads_db. destruct (from_Q _ _). by split; [|left]. Qed.
Lemma keeps_exec f : (forall d, p (fst (f d)) = p d) -> keeps p (exec f).
Proof.
  intros Hf x. unfold exec. destruct (sql_fails _); [by split; [|left]|]. specialize (Hf (x_work x)).
  destruct (f _) as [d n]. cbn in Hf. destruct (constraints _); by split; [|left].
Qed.
Lemma keeps_commit : keeps p commit.
Proof. intros x. unfold commit. destruct (sql_fails _); (split; [done|]); [by left|by right]. Qed.
Lemma keeps_bind {A B} (m : Tx A) (f : A -> Tx B) : keeps p m -> (forall a, keeps p (f a)) -> keeps p (m ≫= f).
Proof.
  intros Hm Hf x. specialize (Hm x). unfold mbind, eff_bind. destruct (m x) as [[a|e] y]; cbn in *; [|done].
  destruct Hm as [Hw Hc]. specialize (Hf a y). destruct (f a y) as [r z]. cbn in *. destruct Hf as [Hw' Hc'].
  split; [congruence|]. destruct Hc' as [->|E]; [done|right; congruence].
Qed.
Lemma keeps_gives {A} (m : Tx A) w a w' : keeps p m -> gives m w a w' -> p w' = p w.
Proof. intros Hs (x & y & <- & Hm & <-). specialize (Hs x). rewrite Hm in Hs. apply Hs. Qed.
Lemma keeps_immediate {A} (m : Tx A) n d r k d' : keeps p m -> immediate m (n, d) = (r, (k, d')) -> p d' = p d.
Proof.
  intros Hs. unfold immediate. destruct (sql_fails n); [by intros [= _ _ <-]|]. specialize (Hs (mkTxn (S n) d d)).
  destruct (m _) as [r' y]. intros [= _ _ <-]. cbn in Hs. destruct Hs as [_ [->|?]]; done.
Qed.
End keeps_rules.

(** Follow the code, unfolding definitions on the way. *)
Ltac head_of t := match t with ?f _ => head_of f | _ => t end.
Create HintDb static discriminated.
Ltac static :=
  repeat match goal with
  | |- forall _, _ => intros ?
  | |- keeps _ (_ ≫= _) => apply keeps_bind
  | |- keeps _ (mret _) => apply keeps_ret
  | |- keeps _ (throw _) => apply keeps_throw
  | |- keeps _ (lift _) => apply keeps_lift
  | |- keeps _ (expect _ _) => apply keeps_expect
  | |- keeps _ (reads _) => apply keeps_reads
  | |- keeps _ (reads_db _) => apply keeps_reads_db
  | |- keeps _ commit => apply keeps_commit
  | |- keeps _ (exec _) => apply keeps_exec
  | |- keeps _ (let _ := _ in _) => cbv zeta
  | |- keeps _ (if ?b then _ else _) => destruct b
  | |- keeps _ (match ?x with _ => _ end) => destruct x
  | |- _ (fst (if ?b then _ else _)) = _ => destruct b
  | |- _ (fst ((if ?b then _ else _) _)) = _ => destruct b
  | |- ?p _ = ?p _ => reflexivity
  | Hp : forall _ _, ?p _ = ?p _ |- ?p _ = ?p _ => apply Hp
  | |- _ (fst ?m) = _ => let h := head_of m in progress unfold h
  | H : keeps ?p ?m |- keeps ?p ?m => exact H
  | |- keeps _ ?m => solve [auto with static]
  | |- keeps _ ?m => let h := head_of m in progress unfold h
  end.

Section static_operations.
Context `{UnicodeTables} `{NFC} `{UrlParser} `{SHA256} `{Connection}.
Section staging.
Context {X : Type} (p : database -> X) (blind : forall gs d, p (with_generations gs d) = p d).
Lemma keeps_exec_all {A} (f : A -> database -> database * Z) l :
  (forall a d, p (fst (f a d)) = p d) -> keeps p (exec_all f l).
Proof. intros Hf. induction l; cbn [exec_all]; static. Qed.
Lemma keeps_insert_all_unresolved id us : keeps p (insert_all_unresolved id us).
Proof. induction us; cbn [insert_all_unresolved]; static. Qed.
Lemma keeps_stage_rows b : keeps p (stage_rows b).
Proof. unfold stage_rows. cbv zeta. repeat (apply keeps_bind; [by apply keeps_exec_all; static|intros _]). apply keeps_insert_all_unresolved. Qed.
Lemma keeps_restage g : keeps p (restage g).
Proof. static. Qed.
Lemma keeps_insert_bundle b : keeps p (insert_bundle b).
Proof.
  intros x. unfold insert_bundle. assert (Hx : keeps p (exec (insert_generation (Generation b)))) by static.
  specialize (Hx x). destruct (exec _ x) as [[n|[]] y]; cbn in Hx |- *; try done; destruct Hx as [Hw Hc].
  - destruct (keeps_stage_rows b y) as [Hw' Hc']. split; [congruence|]. destruct Hc' as [->|?]; [done|right; congruence].
  - destruct (keeps_restage (Generation b) y) as [Hw' Hc']. split; [congruence|]. destruct Hc' as [->|?]; [done|right; congruence].
Qed.
Hint Resolve keeps_insert_bundle : static.
Lemma keeps_stage b : keeps p (stageGraphGenerationConn b).
Proof. static. Qed.
End staging.
Lemma static_stage b : static (stageGraphGenerationConn b).
Proof. by apply keeps_stage. Qed.
Hint Resolve static_stage : static.
Lemma static_activateTx id prior at_ : static (activateGraphGenerationTx id prior at_).
Proof. static. Qed.
Lemma static_runtime st c : static (setGraphRuntimeStateTx st c).
Proof. static. Qed.
Lemma static_remove_all ws cutoff keep ids : static (remove_all ws cutoff keep ids).
Proof. induction ids; cbn [remove_all]; static. Qed.
Lemma static_abandon_all ws ids : static (abandon_all ws ids).
Proof. induction ids; cbn [abandon_all]; static. Qed.
Lemma static_recover_migrations now ms : static (recover_migrations now ms).
Proof. induction ms; cbn [recover_migrations]; static. Qed.
Lemma static_count : static (fun x => match active_rows x with (Err _, x) => (Err ErrGraphPointerConflict, x) | r => r end : result store_error Z * txn).
Proof. intros x. assert (Hx : static active_rows) by static. specialize (Hx x). by destruct (active_rows x) as [[a|e] y]. Qed.
Hint Resolve static_remove_all static_abandon_all static_recover_migrations static_count : static.
End static_operations.
#[export] Hint Resolve static_stage static_activateTx static_runtime static_remove_all static_abandon_all
  static_recover_migrations static_count : static.

Lemma graph_static `{UnicodeTables} `{NFC} `{UrlParser} `{SHA256} `{Connection} o n d r k d' :
  run o (n, d) = (r, (k, d')) -> d_index d' = d_index d.
Proof.
  destruct o; cbn [run]; unfold StageGraphGeneration, ActivateGraphGenerationAt, SetGraphRuntimeState,
    RollbackGraphGenerationAt, TransitionGraphCompatibilityState, CleanupGraphGenerations, TransitionGraphMigration, RecoverGraphState;
    repeat match goal with |- (if ?b then _ else _) _ = _ -> _ => destruct b; [by intros [= _ _ <-]|] end;
    apply keeps_immediate; static.
Qed.

(** * Moves of the jobs and of the reservations *)
Definition active (r : index_job_row) : bool := isIndexJobActive (job_status r).
(** The columns that no update sets. *)
Definition constant_columns (j : IndexJob) : IndexJob :=
  set_columns [] [] [] [] 0 0 false [] 0 0 0 [] [] [] j.
(** The statuses a job may have next. *)
Definition next_statuses (status : gostring) : list gostring :=
  if streq status IndexJobQueued then [IndexJobRunning; IndexJobCanceled; IndexJobFailed]
  else if streq status IndexJobRunning
       then [IndexJobRunning; IndexJobPublishing; IndexJobCancelRequested; IndexJobSucceeded; IndexJobFailed]
  else if streq status IndexJobPublishing then [IndexJobPublishing; IndexJobSucceeded]
  else if streq status IndexJobCancelRequested then [IndexJobCancelRequested; IndexJobCanceled]
  else [].
(** The flags agree with the status. *)
Definition row_wf (r : index_job_row) : bool :=
  Bool.eqb (j_RequestedCancel (r_job r)) (oneOf (job_status r) [IndexJobCancelRequested; IndexJobCanceled])
  && implb (streq (job_status r) IndexJobPublishing) (r_publication_started r)
  && implb (r_publication_started r) (oneOf (job_status r) [IndexJobPublishing; IndexJobSucceeded])
  && oneOf (job_status r) [IndexJobQueued; IndexJobRunning; IndexJobPublishing; IndexJobCancelRequested;
                           IndexJobCanceled; IndexJobSucceeded; IndexJobFailed].
(** One move of a job: the identity of ended jobs stays, and the status moves on. *)
Definition row_step (r r' : index_job_row) : Prop :=
  r' = r \/ constant_columns (r_job r') = constant_columns (r_job r) /\
            job_status r' ∈ next_statuses (job_status r) /\ row_wf r' = true.
Record owner_step (o o' : indexJobOwnership) : Prop := {
  os_root : o_workspaceRoot o' = o_workspaceRoot o;
  os_job : o_jobID o' = o_jobID o;
  os_token : o_ownerToken o' = o_ownerToken o;
  os_fence : o_fencingToken o' = o_fencingToken o;
  os_released : unreleased o' = true -> unreleased o = true }.
(** A reservation belongs to a job of its workspace, and is released when the job ends. *)
Record ordered (t : index_tables) : Prop := {
  or_keys : index_keys t = true;
  or_wf : forall r, r ∈ i_jobs t -> row_wf r = true;
  or_owned : forall r, r ∈ i_jobs t -> active r = true ->
    exists o, o ∈ i_ownership t /\ o_jobID o = job_id r /\ o_workspaceRoot o = job_root r /\ unreleased o = true;
  or_owner : forall o, o ∈ i_ownership t ->
    exists r, r ∈ i_jobs t /\ job_id r = o_jobID o /\ job_root r = o_workspaceRoot o /\
      (unreleased o = true -> active r = true) }.
(** All jobs move together with the reservations. *)
Record moved (g : index_job_row -> index_job_row) (h : indexJobOwnership -> indexJobOwnership) (t t' : index_tables) : Prop := {
  mv_jobs : i_jobs t' = map g (i_jobs t);
  mv_ownership : i_ownership t' = map h (i_ownership t);
  mv_keys : index_keys t' = true;
  mv_row : forall r, r ∈ i_jobs t -> row_step r (g r);
  mv_owner : forall o, o ∈ i_ownership t -> owner_step o (h o);
  mv_active : forall r o, r ∈ i_jobs t -> o ∈ i_ownership t -> o_jobID o = job_id r -> unreleased o = true ->
    active r = true -> unreleased (h o) = active (g r) }.
(** A job appears in a workspace without an active one. *)
Record created (job : IndexJob) (o : indexJobOwnership) (t t' : index_tables) : Prop := {
  cr_jobs : i_jobs t' = i_jobs t ++ [mkJobRow job false];
  cr_ownership : i_ownership t' = map (fun p => if in_root (o_workspaceRoot o) p then o else p) (i_ownership t) \/
                 i_ownership t' = i_ownership t ++ [o] /\ (forall p, p ∈ i_ownership t -> in_root (o_workspaceRoot o) p = false);
  cr_present : o ∈ i_ownership t';
  cr_keys : index_keys t' = true;
  cr_queued : j_Status job = IndexJobQueued /\ j_RequestedCancel job = false;
  cr_owner : o_workspaceRoot o = j_WorkspaceRoot job /\ o_jobID o = j_JobID job /\ unreleased o = true;
  cr_free : forall r, r ∈ i_jobs t -> job_root r = j_WorkspaceRoot job -> active r = false }.
Inductive index_step (t t' : index_tables) : Prop :=
| step_moved g h : moved g h t t' -> index_step t t'
| step_created job o : created job o t t' -> index_step t t'.

Lemma step_same t t' : index_keys t' = true -> i_jobs t' = i_jobs t -> i_ownership t' = i_ownership t -> index_step t t'.
Proof.
  intros Hk Hj Ho. eapply (step_moved _ _ id id). constructor; rewrite ?map_id; try done.
  - intros r _. by left.
  - intros r o _ _ _ Hu Ha. unfold id. by rewrite Hu, Ha.
Qed.

(** ** Keys *)
Lemma keys_elim t : index_keys t = true ->
  NoDup (map job_id (i_jobs t)) /\ NoDup (map o_workspaceRoot (i_ownership t)) /\ NoDup (map ig_GenerationID (i_generations t)).
Proof. unfold index_keys. intros Hk. by bool_to_prop. Qed.
Lemma key_unique {A K} (key : A -> K) (l : list A) a b : NoDup (map key l) -> a ∈ l -> b ∈ l -> key a = key b -> a = b.
Proof.
  intros Hnd Ha Hb Heq. apply list_elem_of_lookup in Ha as [i Hi], Hb as [j Hj].
  assert (i = j) as ->; [|congruence].
  eapply (NoDup_lookup (map key l)); [done|..]; change (map key l) with (key <$> l); rewrite list_lookup_fmap.
  - by rewrite Hi.
  - by rewrite Hj, Heq.
Qed.
Lemma same_job t r r' : index_keys t = true -> r ∈ i_jobs t -> r' ∈ i_jobs t -> job_id r = job_id r' -> r = r'.
Proof. intros (Hk & _)%keys_elim. by apply key_unique. Qed.
Lemma same_root t o o' : index_keys t = true -> o ∈ i_ownership t -> o' ∈ i_ownership t ->
  o_workspaceRoot o = o_workspaceRoot o' -> o = o'.
Proof. intros (_ & Hk & _)%keys_elim. by apply key_unique. Qed.
(** A job has at most one reservation. *)
Lemma same_owner t o o' : ordered t -> o ∈ i_ownership t -> o' ∈ i_ownership t -> o_jobID o = o_jobID o' -> o = o'.
Proof.
  intros Ho Hi Hi' Heq. destruct (or_owner t Ho o Hi) as (r & Hr & Hid & Hroot & _).
  destruct (or_owner t Ho o' Hi') as (r' & Hr' & Hid' & Hroot' & _).
  assert (r = r') as <- by (eapply same_job; [apply Ho|done|done|congruence]).
  eapply same_root; [apply Ho|done|done|congruence].
Qed.

(** A workspace has at most one active job. *)
Lemma same_active t r r' : ordered t -> r ∈ i_jobs t -> r' ∈ i_jobs t -> active r = true -> active r' = true ->
  job_root r = job_root r' -> r = r'.
Proof.
  intros Ho Hr Hr' Ha Ha' Hroot. destruct (or_owned _ Ho r Hr Ha) as (o & Hin & Hid & Hor & _).
  destruct (or_owned _ Ho r' Hr' Ha') as (o' & Hin' & Hid' & Hor' & _).
  assert (o = o') as <- by (eapply same_root; [apply Ho|done|done|congruence]).
  eapply same_job; [apply Ho|done|done|congruence].
Qed.

(** ** Moves keep the order *)
Lemma next_active s s' : s' ∈ next_statuses s -> isIndexJobActive s = true.
Proof.
  unfold next_statuses. intros Hs. unfold isIndexJobActive, oneOf. apply bool_decide_eq_true.
  destruct (streq s IndexJobQueued) eqn:E1; [apply streq_true in E1 as ->; set_solver|].
  destruct (streq s IndexJobRunning) eqn:E2; [apply streq_true in E2 as ->; set_solver|].
  destruct (streq s IndexJobPublishing) eqn:E3; [apply streq_true in E3 as ->; set_solver|].
  destruct (streq s IndexJobCancelRequested) eqn:E4; [apply streq_true in E4 as ->; set_solver|]. set_solver.
Qed.
Lemma row_step_id r r' : row_step r r' -> job_id r' = job_id r /\ job_root r' = job_root r.
Proof.
  intros [->|(Hc & _)]; [done|]. destruct r as [[] ?], r' as [[] ?]. unfold constant_columns, set_columns in Hc. cbn in *.
  injection Hc. intros. by subst.
Qed.
Lemma row_step_wf r r' : row_step r r' -> row_wf r = true -> row_wf r' = true.
Proof. by intros [->|(_ & _ & ?)]. Qed.
Lemma row_step_active r r' : row_step r r' -> active r' = true -> active r = true.
Proof. intros [->|(_ & Hs & _)]; [done|]. intros _. by eapply next_active. Qed.
Lemma moved_ordered g h t t' : moved g h t t' -> ordered t -> ordered t'.
Proof.
  intros [Hj Hw Hk Hr Ho Ha] [Hk0 Hwf Hown Hrow]. constructor; [done|..].
  - rewrite Hj. intros r' (r & -> & Hin)%list_elem_of_fmap. eapply row_step_wf; eauto.
  - rewrite Hj, Hw. intros r' (r & -> & Hin)%list_elem_of_fmap Hact. pose proof (Hr r Hin) as Hs.
    destruct (row_step_id _ _ Hs) as [Hid Hroot]. pose proof (row_step_active _ _ Hs Hact) as Hact0.
    destruct (Hown r Hin Hact0) as (o & Hoin & Hoid & Horoot & Hun). exists (h o). destruct (Ho o Hoin).
    split_and!; [by apply list_elem_of_fmap; exists o|congruence|congruence|].
    rewrite (Ha r o); done.
  - rewrite Hj, Hw. intros o' (o & -> & Hin)%list_elem_of_fmap. destruct (Hrow o Hin) as (r & Hrin & Hid & Hroot & Hact).
    exists (g r). destruct (row_step_id _ _ (Hr r Hrin)) as [Hid' Hroot']. destruct (Ho o Hin) as [Hor Hoj _ _ Hrel].
    split_and!; [by apply list_elem_of_fmap; exists r|congruence|congruence|].
    intros Hun. rewrite <- (Ha r o); auto.
Qed.
Lemma created_ordered job o t t' : created job o t t' -> ordered t -> ordered t'.
Proof.
  intros [Hj Hw Hin Hk [Hq Hc] (Hor & Hoj & Hou) Hfree] [Hk0 Hwf Hown Hrow].
  assert (Hnew : mkJobRow job false ∈ i_jobs t') by (rewrite Hj; set_solver).
  assert (Hkeep : forall p, p ∈ i_ownership t -> o_workspaceRoot p <> o_workspaceRoot o -> p ∈ i_ownership t').
  { intros p Hp Hne. destruct Hw as [->|[-> _]]; [|set_solver]. apply list_elem_of_fmap. exists p. split; [|done].
    unfold in_root. destruct (streq _ _) eqn:E; [by apply streq_true in E|done]. }
  assert (Hback : forall p, p ∈ i_ownership t' -> p = o \/ p ∈ i_ownership t).
  { intros p. destruct Hw as [->|[-> _]]; [|set_solver]. intros (q & -> & Hq')%list_elem_of_fmap. destruct (in_root _ q); auto. }
  assert (Hactive : active (mkJobRow job false) = true) by (unfold active, job_status; cbn; by rewrite Hq).
  constructor; [done|..].
  - rewrite Hj. intros r [?|Hr]%elem_of_app; [auto|]. apply list_elem_of_singleton in Hr as ->.
    unfold row_wf, job_status. cbn [r_job]. by rewrite Hq, Hc.
  - rewrite Hj. intros r [Hr|Hr]%elem_of_app Hact.
    + destruct (Hown r Hr Hact) as (p & Hp & Hid & Hroot & Hun). exists p. split_and!; [|done..]. apply Hkeep; [done|].
      intros E. rewrite (Hfree r Hr) in Hact; [done|congruence].
    + apply list_elem_of_singleton in Hr as ->. exists o. done.
  - intros p [->|Hp]%Hback.
    + exists (mkJobRow job false). split_and!; [done|done|done|]. by intros _.
    + destruct (Hrow p Hp) as (r & Hr & ?). exists r. split; [rewrite Hj; set_solver|done].
Qed.
Lemma step_ordered t t' : index_step t t' -> ordered t -> ordered t'.
Proof. intros [g h Hm|job o Hc]; [by eapply moved_ordered|by eapply created_ordered]. Qed.

(** ** One job moves *)
Definition at_id (id : gostring) (g : index_job_row -> index_job_row) (r : index_job_row) : index_job_row :=
  if has_job_id id r then g r else r.
Lemma has_job_id_true id r : has_job_id id r = true <-> job_id r = id.
Proof. apply streq_true. Qed.
Lemma moved_one id g h t t' r0 : ordered t -> r0 ∈ i_jobs t -> job_id r0 = id -> row_step r0 (g r0) ->
  i_jobs t' = map (at_id id g) (i_jobs t) -> i_ownership t' = map h (i_ownership t) -> index_keys t' = true ->
  (forall o, owner_step o (h o)) ->
  (forall o, o_jobID o <> id -> unreleased (h o) = unreleased o) ->
  (forall o, o ∈ i_ownership t -> o_jobID o = id -> unreleased o = true -> active r0 = true -> unreleased (h o) = active (g r0)) ->
  index_step t t'.
Proof.
  intros Ho Hr0 Hid Hstep Hj Hw Hk Hos Hother Hown. apply (step_moved _ _ (at_id id g) h).
  assert (Hat : forall r, r ∈ i_jobs t -> has_job_id id r = true -> r = r0).
  { intros r Hr Hhas%has_job_id_true. eapply same_job; [apply Ho|done|done|congruence]. }
  constructor; [done|done|done| |by intros o _|].
  - intros r Hr. unfold at_id. destruct (has_job_id id r) eqn:E; [|by left]. by rewrite (Hat r Hr E).
  - intros r o Hr Hoin Heq Hu Hact. unfold at_id. destruct (has_job_id id r) eqn:E.
    + pose proof (Hat r Hr E) as ->. apply Hown; congruence.
    + rewrite Hother; [by rewrite Hu, Hact|]. intros Hc. apply not_true_iff_false in E. apply E, has_job_id_true. congruence.
Qed.
Definition released_by (id : gostring) (f : IndexJobFence) (now : gostring) (o : indexJobOwnership) : indexJobOwnership :=
  if owned_by id f o then release now o else o.
Lemma owned_by_elim id f o : owned_by id f o = true ->
  o_jobID o = id /\ o_ownerToken o = f_OwnerToken f /\ o_fencingToken o = f_FencingToken f /\ unreleased o = true.
Proof. unfold owned_by. rewrite !andb_true_iff, !streq_true, Z.eqb_eq. tauto. Qed.
Lemma held_elim id f w : held id f w = true -> exists o, o ∈ ownership w /\ owned_by id f o = true.
Proof. unfold held. intros (o & Ho%list_elem_of_In & ?)%existsb_exists. by exists o. Qed.
Lemma release_step id f now o : owner_step o (released_by id f now o).
Proof. unfold released_by. destruct (owned_by id f o); by constructor. Qed.
(** The job ends and its owner's reservation with it. *)
Lemma step_ends id g f now t t' r0 o0 : ordered t -> r0 ∈ i_jobs t -> job_id r0 = id -> row_step r0 (g r0) ->
  active (g r0) = false -> o0 ∈ i_ownership t -> owned_by id f o0 = true ->
  i_jobs t' = map (at_id id g) (i_jobs t) -> i_ownership t' = map (released_by id f now) (i_ownership t) ->
  index_keys t' = true -> index_step t t'.
Proof.
  intros Ho Hr0 Hid Hstep Hact Ho0 Hown Hj Hw Hk. eapply (moved_one id g (released_by id f now)); [done..| | |].
  - apply release_step.
  - intros o Hne. unfold released_by. destruct (owned_by id f o) eqn:E; [|done]. by apply owned_by_elim in E as [? _].
  - intros o Hin Hjob Hu _. apply owned_by_elim in Hown as Hown'. destruct Hown' as (Hjob0 & _).
    assert (o = o0) as -> by (eapply same_owner; [done..|congruence]). unfold released_by. rewrite Hown, Hact. done.
Qed.
Definition keeps_release (h : indexJobOwnership -> indexJobOwnership) : Prop :=
  forall o, owner_step o (h o) /\ unreleased (h o) = unreleased o.
(** The job goes on with its reservation. *)
Lemma step_goes_on id g h t t' r0 : ordered t -> r0 ∈ i_jobs t -> job_id r0 = id -> row_step r0 (g r0) ->
  active (g r0) = active r0 -> keeps_release h ->
  i_jobs t' = map (at_id id g) (i_jobs t) -> i_ownership t' = map h (i_ownership t) ->
  index_keys t' = true -> index_step t t'.
Proof.
  intros Ho Hr0 Hid Hstep Hact Hh Hj Hw Hk. eapply (moved_one id g h); [done..|apply Hh|intros o _; apply Hh|].
  intros o _ _ Hu Ha. destruct (Hh o) as [_ ->]. congruence.
Qed.

(** * What the statements do *)
Section statements.
Context `{Connection}.

Lemma constraints_keys w : constraints w = true -> index_keys (d_index w) = true.
Proof. unfold constraints. intros Hc. by bool_to_prop. Qed.
Lemma matching_none {A} (p : A -> bool) l : (forall a, p a = false) -> matching p l = [].
Proof.
  intros Hp. destruct (matching p l) as [|a m] eqn:E; [done|]. assert (Ha : a ∈ matching p l) by (rewrite E; left).
  apply matching_some in Ha as [Ha _]. by rewrite Hp in Ha.
Qed.
Lemma matching_count {A K} (key : A -> K) (p : A -> bool) l a : NoDup (map key l) -> a ∈ l -> p a = true ->
  (forall b, b ∈ l -> p b = true -> key b = key a) -> lenZ (matching p l) = 1%Z.
Proof.
  intros Hnd Ha Hp Hall. assert (Hm : a ∈ matching p l) by by apply matching_some.
  assert (Hone : forall b, b ∈ matching p l -> b = a).
  { intros b [Hb Hin]%matching_some. eapply (key_unique key); [done..|]. by apply Hall. }
  assert (Hndm : NoDup (matching p l)).
  { apply NoDup_filter. by eapply NoDup_fmap_1 with (f := key). }
  destruct (matching p l) as [|x [|y m]]; [set_solver|done|]. exfalso.
  rewrite (Hone x), (Hone y) in Hndm by set_solver. apply NoDup_cons in Hndm as [? _]. set_solver.
Qed.
Lemma update_at id c g l r0 : NoDup (map job_id l) -> r0 ∈ l -> job_id r0 = id -> c r0 = true ->
  (forall r, c r = true -> has_job_id id r = true) ->
  map (fun r => if c r then g r else r) l = map (at_id id g) l.
Proof.
  intros Hnd Hr0 Hid Hc Hhas. apply map_ext_in. intros r Hr%list_elem_of_In. unfold at_id.
  destruct (has_job_id id r) eqn:E.
  - apply has_job_id_true in E. assert (r = r0) as -> by (eapply (key_unique job_id); [done..|congruence]). by rewrite Hc.
  - destruct (c r) eqn:E'; [|done]. rewrite Hhas in E; done.
Qed.
(** A statement on one job that reports one row. *)
Lemma update_jobs_one id c g w w' : index_keys (d_index w) = true ->
  (forall r, c w r = true -> has_job_id id r = true) ->
  update_jobs c g w = (w', 1%Z) ->
  w' = with_jobs (map (at_id id g) (jobs w)) w /\ exists r, r ∈ jobs w /\ job_id r = id /\ c w r = true.
Proof.
  intros (Hk & _)%keys_elim Hc. unfold update_jobs, update_where. intros [= <- Hn].
  apply matching_one in Hn as (r & Hr & Hcr). pose proof (Hc r Hcr) as Hid%has_job_id_true.
  split; [|by exists r]. f_equal. by eapply update_at.
Qed.
Lemma by_owner_run e id f c g w u w' : index_keys (d_index w) = true -> gives (exec_one e (by_owner id f c g)) w u w' ->
  w' = with_jobs (map (at_id id g) (jobs w)) w /\ constraints w' = true /\ held id f w = true /\
  exists r, r ∈ jobs w /\ job_id r = id /\ c r = true.
Proof.
  intros Hk [Hf Hc]%gives_exec_one. unfold by_owner in Hf. apply (update_jobs_one id) in Hf as [-> (r & Hr & Hid & Hcr)]; [|done|].
  - bool_to_prop. split_and!; [done..|]. by exists r.
  - intros r. rewrite !andb_true_iff. tauto.
Qed.
Lemma by_anyone_run e id c g w u w' : index_keys (d_index w) = true -> gives (exec_one e (by_anyone id c g)) w u w' ->
  w' = with_jobs (map (at_id id g) (jobs w)) w /\ constraints w' = true /\ reserved id w = true /\
  exists r, r ∈ jobs w /\ job_id r = id /\ c r = true.
Proof.
  intros Hk [Hf Hc]%gives_exec_one. unfold by_anyone in Hf. apply (update_jobs_one id) in Hf as [-> (r & Hr & Hid & Hcr)]; [|done|].
  - bool_to_prop. split_and!; [done..|]. by exists r.
  - intros r. rewrite !andb_true_iff. tauto.
Qed.
Lemma release_run id f now w u w' : gives (releaseIndexJobOwnershipTx id f now) w u w' ->
  w' = with_ownership (map (released_by id f now) (ownership w)) w /\ constraints w' = true /\
  exists o, o ∈ ownership w /\ owned_by id f o = true.
Proof.
  intros [Hf Hc]%gives_exec_one. unfold update_ownership, update_where in Hf. injection Hf as <- Hn.
  apply matching_one in Hn as (o & Ho & Hown). split; [done|]. split; [done|]. by exists o.
Qed.
Lemma generations_run e c g w u w' : gives (exec_one e (update_index_generations c g)) w u w' ->
  jobs w' = jobs w /\ ownership w' = ownership w /\ d_tables w' = d_tables w /\ d_migrations w' = d_migrations w /\
  constraints w' = true.
Proof. intros [Hf Hc]%gives_exec_one. unfold update_index_generations, update_where in Hf. by injection Hf as <- _. Qed.
End statements.

(** * The moves of one job *)
Lemma wf_cancel r : row_wf r = true ->
  j_RequestedCancel (r_job r) = oneOf (job_status r) [IndexJobCancelRequested; IndexJobCanceled].
Proof. unfold row_wf. rewrite !andb_true_iff. intros [[[Hc _] _] _]. by apply eqb_prop. Qed.
Lemma wf_started r : row_wf r = true -> r_publication_started r = true -> job_status r ∈ [IndexJobPublishing; IndexJobSucceeded].
Proof. unfold row_wf. rewrite !andb_true_iff. intros [[_ Hc] _] Hs. rewrite Hs in Hc. cbn [implb] in Hc. by apply bool_decide_eq_true in Hc. Qed.
Lemma wf_publishing r : row_wf r = true -> job_status r = IndexJobPublishing -> r_publication_started r = true.
Proof. unfold row_wf. rewrite !andb_true_iff. intros [[[_ Hc] _] _] Hs. rewrite Hs in Hc. by destruct (r_publication_started r). Qed.
Lemma status_in_elim c l r : status_in c l r = true -> j_RequestedCancel (r_job r) = c /\ job_status r ∈ l.
Proof. unfold status_in. rewrite andb_true_iff. intros [Hc%eqb_prop Hs%bool_decide_eq_true]. done. Qed.
(** The new row, by its status and its flags. *)
Lemma row_step_intro r r' s s' : constant_columns (r_job r') = constant_columns (r_job r) ->
  job_status r = s -> job_status r' = s' -> bool_decide (s' ∈ next_statuses s) = true ->
  j_RequestedCancel (r_job r') = oneOf s' [IndexJobCancelRequested; IndexJobCanceled] ->
  implb (streq s' IndexJobPublishing) (r_publication_started r') = true ->
  (r_publication_started r' = true -> oneOf s' [IndexJobPublishing; IndexJobSucceeded] = true) -> row_step r r'.
Proof.
  intros Hk <- Hs' Hn%bool_decide_eq_true Hc Hp Hst. right. rewrite Hs'. split_and!; [done|done|].
  unfold row_wf. rewrite Hs', Hc, eqb_reflx, Hp. cbn [andb].
  assert (isIndexJobActive s' || oneOf s' [IndexJobCanceled; IndexJobSucceeded; IndexJobFailed] = true) as Hall.
  { revert Hn. unfold next_statuses. repeat (case_match; [set_unfold; intros Hn; repeat destruct Hn as [->|Hn]; done|]). by intros ?%elem_of_nil. }
  apply andb_true_iff. split.
  - destruct (r_publication_started r'); [by apply Hst|done].
  - unfold isIndexJobActive, oneOf in *. apply orb_true_iff in Hall. rewrite !bool_decide_eq_true in Hall.
    apply bool_decide_eq_true. set_solver.
Qed.
Ltac job_row r := destruct r as [[] ?]; unfold status_in, has_job_id, job_id, job_status, active in *; simpl in *.
Lemma not_started r : row_wf r = true -> job_status r ∈ [IndexJobQueued; IndexJobRunning; IndexJobCancelRequested] ->
  r_publication_started r = false.
Proof.
  intros Hw Hs. destruct (r_publication_started r) eqn:E; [|done]. apply wf_started in E; [|done].
  exfalso. revert Hs E. generalize (job_status r). intros s Hs E. set_unfold. naive_solver.
Qed.
Ltac statuses H :=
  repeat (apply elem_of_cons in H; destruct H as [H|H]); [..|by apply elem_of_nil in H].

Ltac move_to status' :=
  eapply (row_step_intro _ _ _ status'); [reflexivity|eassumption|reflexivity|reflexivity|cbn..];
  repeat match goal with H : _ = false |- _ => rewrite H | H : _ = true |- _ => rewrite H end; try done.

Section row_moves.
Lemma move_run pid phase now r : row_wf r = true -> status_in false [IndexJobQueued; IndexJobRunning] r = true ->
  row_step r (on_job (run_job pid phase now) r) /\ active (on_job (run_job pid phase now) r) = active r.
Proof.
  intros Hw [Hc Hs]%status_in_elim. assert (Hst : r_publication_started r = false) by (apply not_started; [done|set_solver]).
  statuses Hs; (split; [move_to IndexJobRunning|unfold active; by rewrite Hs]).
Qed.
Lemma move_phase phase now r : row_wf r = true -> may_publish r = true ->
  row_step r (phase_job phase now r) /\ active (phase_job phase now r) = active r.
Proof.
  intros Hw. unfold may_publish. rewrite !andb_true_iff, orb_true_iff, !andb_true_iff, !streq_true, negb_true_iff.
  intros [Hc [[Hs _]|[Hs _]]]; (split; [move_to IndexJobPublishing|unfold active; by rewrite Hs]).
Qed.
Lemma move_progress p now r : row_wf r = true -> status_in false [IndexJobRunning; IndexJobPublishing] r = true ->
  row_step r (on_job (progress_job p now) r) /\ active (on_job (progress_job p now) r) = active r.
Proof.
  intros Hw [Hc Hs]%status_in_elim. statuses Hs.
  - assert (Hst : r_publication_started r = false) by (apply not_started; [done|rewrite Hs; set_solver]).
    split; [apply (row_step_intro r _ IndexJobRunning IndexJobRunning); [done|done|..]|]; unfold active, job_status in *; cbn; rewrite ?Hs, ?Hst; done.
  - assert (Hst : r_publication_started r = true) by by apply wf_publishing.
    split; [apply (row_step_intro r _ IndexJobPublishing IndexJobPublishing); [done|done|..]|]; unfold active, job_status in *; cbn; rewrite ?Hs, ?Hst; done.
Qed.
Lemma move_succeed files symbols docs now r : row_wf r = true -> completable false r = true ->
  row_step r (on_job (succeed_job files symbols docs now) r).
Proof.
  unfold completable. intros Hw. rewrite !andb_true_iff, !negb_true_iff, streq_true. intros (Hc & Hs & Hst).
  move_to IndexJobSucceeded.
Qed.
(** The two moves of a publication, which is one transaction. *)
Lemma move_publish files symbols docs now now' r : row_wf r = true -> may_publish r = true ->
  row_step r (on_job (succeed_job files symbols docs now') (start_publishing now r)).
Proof.
  intros Hw. unfold may_publish. rewrite !andb_true_iff, orb_true_iff, !andb_true_iff, !streq_true, negb_true_iff.
  intros [Hc [[Hs _]|[Hs _]]]; move_to IndexJobSucceeded.
Qed.
Lemma move_fail error now r : row_wf r = true -> failable r = true -> row_step r (on_job (fail_job error now) r).
Proof.
  intros Hw. unfold failable. rewrite andb_true_iff, negb_true_iff. intros [[Hc Hs]%status_in_elim Hst].
  statuses Hs; [| |by rewrite wf_publishing in Hst]; move_to IndexJobFailed.
Qed.
Lemma move_cancel now r : row_wf r = true -> status_in false [IndexJobQueued] r = true \/ confirmable r = true ->
  row_step r (on_job (cancel_job now) r).
Proof.
  intros Hw [[Hc Hs]%status_in_elim|Hf].
  - assert (Hst : r_publication_started r = false) by (apply not_started; [done|set_solver]).
    statuses Hs. move_to IndexJobCanceled.
  - unfold confirmable in Hf. rewrite andb_true_iff, negb_true_iff in Hf. destruct Hf as [[Hc Hs]%status_in_elim Hst].
    pose proof (wf_cancel r Hw) as Hw'. rewrite Hc in Hw'.
    statuses Hs; [by rewrite Hs in Hw'|by rewrite Hs in Hw'|]. move_to IndexJobCanceled.
Qed.
Lemma move_request now r : row_wf r = true -> status_in false [IndexJobRunning] r = true ->
  row_step r (on_job (request_cancel_job now) r) /\ active (on_job (request_cancel_job now) r) = active r.
Proof.
  intros Hw [Hc Hs]%status_in_elim. assert (Hst : r_publication_started r = false) by (apply not_started; [done|set_solver]).
  statuses Hs. split; [move_to IndexJobCancelRequested|unfold active; by rewrite Hs].
Qed.
Lemma move_terminate now r : row_wf r = true -> status_in true [IndexJobCancelRequested] r = true ->
  row_step r (on_job (terminate_job now) r) /\ active (on_job (terminate_job now) r) = active r.
Proof.
  intros Hw [Hc Hs]%status_in_elim. assert (Hst : r_publication_started r = false) by (apply not_started; [done|set_solver]).
  statuses Hs. split; [|done].
  apply (row_step_intro r _ IndexJobCancelRequested IndexJobCancelRequested); [done|done|..]; cbn; rewrite ?Hst, ?Hc; done.
Qed.
End row_moves.

(** * Transactions move the jobs *)
Section transactions.
Context `{UnicodeTables} `{NFC} `{UrlParser} `{SHA256} `{Connection} `{Host}.

Record good (d : database) : Prop := { g_graph : invariant d; g_index : ordered (d_index d) }.
Record advance (d d' : database) : Prop := {
  av_graph : invariant d';
  av_index : index_step (d_index d) (d_index d') }.
Lemma advance_good d d' : good d -> advance d d' -> good d'.
Proof. intros [Hi Ho] [Hi' Hs]. constructor; [done|by eapply step_ordered]. Qed.
Lemma good_keys d : good d -> index_keys (d_index d) = true.
Proof. by intros [_ []]. Qed.
Lemma advance_refl d : good d -> advance d d.
Proof. intros [Hi Ho]. constructor; [done|]. apply step_same; [apply Ho|done..]. Qed.
(** The tables of the graph are the same. *)
Lemma same_graph d d' : d_tables d' = d_tables d -> constraints d' = true -> invariant d -> invariant d'.
Proof.
  intros Ht Hc. apply modest_invariant. constructor; [done| |]; unfold meta_of, meta, generations; by rewrite Ht.
Qed.
(** The tables of the jobs are the same. *)
Lemma advance_static d d' : good d -> invariant d' -> d_index d' = d_index d -> advance d d'.
Proof. intros [_ Ho] Hi' Hd. constructor; [done|]. rewrite Hd. apply step_same; [apply Ho|done..]. Qed.

Lemma with_same_jobs d : with_jobs (jobs d) d = d.
Proof. by destruct d as [? ? []]. Qed.
Lemma map_unmatched {A} (c : A -> bool) f l : matching c l = [] -> map (fun a => if c a then f a else a) l = l.
Proof.
  intros Hm. transitivity (map id l); [|apply map_id]. apply map_ext_in. intros a Ha%list_elem_of_In.
  destruct (c a) eqn:E; [|done]. exfalso. assert (Hin : a ∈ matching c l) by by apply matching_some.
  rewrite Hm in Hin. set_solver.
Qed.
(** An update of one job affects it, or nothing. *)
Lemma update_jobs_cases id c g w w' n : index_keys (d_index w) = true ->
  (forall r, c w r = true -> has_job_id id r = true) -> update_jobs c g w = (w', n) ->
  n = 1%Z \/ n = 0%Z /\ w' = w.
Proof.
  intros (Hk & _)%keys_elim Hc. unfold update_jobs, update_where. intros [= <- <-].
  destruct (matching (c w) (jobs w)) as [|r l] eqn:Hm.
  - right. split; [done|]. rewrite map_unmatched by done. apply with_same_jobs.
  - left. rewrite <- Hm. assert (Hr : r ∈ matching (c w) (jobs w)) by (rewrite Hm; left). apply matching_some in Hr as [Hcr Hr].
    eapply (matching_count job_id); [done..|]. intros b _ Hb. apply Hc in Hb, Hcr. apply has_job_id_true in Hb, Hcr. congruence.
Qed.
Lemma owner_cond id f (c : index_job_row -> bool) w r : has_job_id id r && c r && held id f w = true -> has_job_id id r = true.
Proof. rewrite !andb_true_iff. tauto. Qed.
Lemma found w id r : good w -> r ∈ jobs w -> job_id r = id -> row_wf r = true.
Proof. intros [_ Ho] Hr _. by apply Ho. Qed.

(** ** Statements of an owner *)
Lemma keeps_same : keeps_release id.
Proof. intros o. by split; [constructor|]. Qed.
Lemma owner_statement id f c g w w' n : good w -> constraints w' = true ->
  (forall r, row_wf r = true -> c r = true -> row_step r (g r) /\ active (g r) = active r) ->
  by_owner id f c g w = (w', n) -> advance w w' /\ (n <> 1%Z -> w' = w).
Proof.
  intros Hg Hcon Hmove Hf. pose proof (good_keys w Hg) as Hk. unfold by_owner in Hf.
  pose proof (update_jobs_cases id _ _ _ _ _ Hk (owner_cond id f c w) Hf) as [->|[-> ->]]; [|by split; [apply advance_refl|]].
  apply (update_jobs_one id) in Hf as [-> (r & Hr & Hid & Hc)]; [|done|apply owner_cond].
  rewrite !andb_true_iff in Hc. destruct Hc as [[_ Hc] _]. split; [|done].
  destruct (Hmove r) as [Hstep Hact]; [by eapply found|done|]. constructor; [by eapply same_graph; [..|apply Hg]|].
  eapply (step_goes_on id g (fun o => o)); [apply Hg|done|done|done|done|apply keeps_same|done| |by apply constraints_keys].
  cbn. by rewrite map_id.
Qed.
Lemma skip_statement id f message w w' n : good w -> constraints w' = true ->
  update_index_generations (fun d g => generation_is id ["building"] g && held id f d)
    (set_generation "skipped" (Some message)) w = (w', n) -> advance w w'.
Proof.
  intros Hg Hcon. unfold update_index_generations, update_where. intros [= <- _].
  constructor; [by eapply same_graph; [..|apply Hg]|]. apply step_same; [by apply constraints_keys|done..].
Qed.

(** ** Transactions of an owner *)
Lemma running_advance id pid phase f now w u w' : good w -> gives (running_tx id pid phase f now) w u w' -> advance w w'.
Proof.
  intros Hg Hrun. apply gives_bind in Hrun as (u1 & w1 & E1 & Hrun).
  apply by_owner_run in E1 as (-> & _ & _ & r & Hr & Hid & Hc); [|by apply good_keys].
  apply gives_bind in Hrun as (u2 & w2 & [Hf Hcon]%gives_exec_one & ->%gives_commit).
  unfold update_ownership, update_where in Hf. injection Hf as <- _.
  destruct (move_run pid phase now r) as [Hstep Hact]; [by eapply found|done|].
  constructor; [by eapply same_graph; [..|apply Hg]|].
  eapply (step_goes_on id _ (fun o => if owned_by id f o then set_owner_pid pid o else o));
    [apply Hg|done|done|done|done| |done|done|by apply constraints_keys].
  intros o. destruct (owned_by id f o); (split; [by constructor|done]).
Qed.
(** The job of the fence ends; [mid] are writes to other tables in between. *)
Lemma ending_advance id f g now w w1 w2 w3 r : good w -> r ∈ jobs w -> job_id r = id ->
  row_step r (g r) -> active (g r) = false ->
  w1 = with_jobs (map (at_id id g) (jobs w)) w -> jobs w2 = jobs w1 -> ownership w2 = ownership w1 ->
  modest w1 w2 -> w3 = with_ownership (map (released_by id f now) (ownership w2)) w2 ->
  (exists o, o ∈ ownership w2 /\ owned_by id f o = true) -> constraints w1 = true -> constraints w3 = true ->
  advance w w3.
Proof.
  intros Hg Hr Hid Hstep Hact -> Hj Ho Hm -> (o & Hoin & Hown) Hc1 Hc3. constructor.
  - eapply same_graph; [|done|eapply modest_invariant; [exact Hm|]]; [done|]. by eapply same_graph; [..|apply Hg].
  - rewrite Ho in Hoin. eapply (step_ends id g f now _ _ r o); [apply Hg|done|done|done|done|exact Hoin|done| | |by apply constraints_keys].
    + cbn. unfold jobs in Hj. by rewrite Hj.
    + cbn. by rewrite Ho.
Qed.
End transactions.
