(* ===== verification/IndexJobsSteps.v ===== *)
(** Every transaction and operation on index jobs, whatever fails and whatever other
    processes do in between, moves the jobs as [IndexJobsFacts] says. *)
From S2P Require Import Prelude GoStrings GoStringFacts GoSort GoNum GoTime Graph GraphFacts GraphStore GraphStoreFacts IndexTables GraphValidate GraphValidateFacts GraphPublish GraphPublishFacts GraphActivation IndexJobs IndexPublish IndexJobsFacts.

Local Open Scope go_scope.

(** * Transactions that end a job *)
Section endings.
Context `{UnicodeTables} `{NFC} `{UrlParser} `{SHA256} `{Connection} `{Host}.

Lemma gives_tx_now w a w' : gives tx_now w a w' -> w' = w.
Proof. by intros (x & y & <- & [= _ <-] & <-). Qed.
Lemma gives_tx_exists pid w a w' : gives (tx_exists pid) w a w' -> w' = w.
Proof. by intros (x & y & <- & [= _ <-] & <-). Qed.
Lemma gives_load_job id w a w' : gives (loadIndexJobTx id) w a w' -> w' = w.
Proof. unfold loadIndexJobTx. intros Hg. by tx_inv Hg. Qed.
Lemma modest_index w w' : d_tables w' = d_tables w -> constraints w' = true -> modest w w'.
Proof. intros Ht Hc. constructor; [done| |]; unfold meta_of, meta, generations; by rewrite Ht. Qed.
Lemma active_job f r : active (on_job f r) = isIndexJobActive (j_Status (f (r_job r))).
Proof. done. Qed.

Lemma complete_advance id files symbols docs f w u w' : good w ->
  gives (completeIndexJobTx id files symbols docs f false) w u w' -> advance w w'.
Proof.
  intros Hg Hrun. apply gives_bind in Hrun as (now & v & ->%gives_tx_now & Hrun).
  apply gives_bind in Hrun as (u1 & w1 & E1 & Hrun).
  apply by_owner_run in E1 as (Hw1 & Hc1 & _ & r & Hr & Hid & Hc); [|by apply good_keys].
  apply release_run in Hrun as (-> & Hc3 & Hown).
  eapply (ending_advance id f _ now w w1 w1 _ r Hg Hr Hid); [| |exact Hw1|done|done|apply modest_refl|done|done|done|done]; [|done].
  apply move_succeed; [by eapply found|done].
Qed.
Lemma failed_advance id message f now w u w' : good w -> gives (failed_tx id message f now) w u w' -> advance w w'.
Proof.
  intros Hg Hrun. apply gives_bind in Hrun as (u1 & w1 & E1 & Hrun).
  apply by_owner_run in E1 as (Hw1 & Hc1 & _ & r & Hr & Hid & Hc); [|by apply good_keys].
  apply gives_bind in Hrun as (u2 & w2 & E2 & Hrun). apply generations_run in E2 as (Hj2 & Ho2 & Ht2 & _ & Hc2).
  apply gives_bind in Hrun as (row & v & ->%gives_load_job & Hrun).
  apply gives_bind in Hrun as (mode & v & E3 & Hrun).
  assert (v = w2) as -> by (destruct row; [by apply gives_ret in E3 as [_ ->]|by apply gives_throw in E3]).
  apply gives_bind in Hrun as (u4 & w4 & E4 & Hrun).
  assert (Hmod : modest w2 w4 /\ d_index w4 = d_index w2).
  { destruct (touches_graph mode); [|by apply gives_ret in E4 as [_ ->]; split; [apply modest_refl|]].
    split; [by eapply runtime_modest|]. by eapply keeps_gives; [apply static_runtime|]. }
  destruct Hmod as [Hmod Hidx].
  apply gives_bind in Hrun as (u5 & w5 & E5 & ->%gives_commit). apply release_run in E5 as (-> & Hc5 & Hown).
  eapply (ending_advance id f _ now w w1 w4 _ r Hg Hr Hid); [| |exact Hw1| | | |done|done|done|done].
  - apply move_fail; [by eapply found|done].
  - done.
  - unfold jobs in *. by rewrite Hidx.
  - unfold ownership in *. by rewrite Hidx.
  - eapply modest_trans; [|exact Hmod]. by apply modest_index.
Qed.
Lemma cancel_tail_advance id f now w w1 u w' r : good w -> r ∈ jobs w -> job_id r = id ->
  status_in false [IndexJobQueued] r = true \/ confirmable r = true -> constraints w1 = true ->
  w1 = with_jobs (map (at_id id (on_job (cancel_job now))) (jobs w)) w ->
  gives (_ ← cancel_generation id; _ ← releaseIndexJobOwnershipTx id f now; commit) w1 u w' -> advance w w'.
Proof.
  intros Hg Hr Hid Hc Hc1 Hw1 Hrun.
  apply gives_bind in Hrun as (u2 & w2 & E2 & Hrun). apply generations_run in E2 as (Hj2 & Ho2 & Ht2 & _ & Hc2).
  apply gives_bind in Hrun as (u5 & w5 & E5 & ->%gives_commit). apply release_run in E5 as (-> & Hc5 & Hown).
  eapply (ending_advance id f _ now w w1 w2 _ r Hg Hr Hid); [| |exact Hw1|done|done| |done|done|done|done].
  - apply move_cancel; [by eapply found|done].
  - done.
  - by apply modest_index.
Qed.
Lemma canceled_advance id f now w u w' : good w -> gives (canceled_tx id f now) w u w' -> advance w w'.
Proof.
  intros Hg Hrun. apply gives_bind in Hrun as (u1 & w1 & E1 & Hrun).
  apply by_owner_run in E1 as (Hw1 & Hc1 & _ & r & Hr & Hid & Hc); [|by apply good_keys].
  eapply cancel_tail_advance; eauto.
Qed.
Lemma anyone_cond id (c : index_job_row -> bool) w r : has_job_id id r && c r && reserved id w = true -> has_job_id id r = true.
Proof. rewrite !andb_true_iff. tauto. Qed.
Lemma gives_owner_by_job id w a w' : gives (loadIndexJobOwnershipByJob id) w a w' ->
  w' = w /\ a = head (matching (fun o => streq (o_jobID o) id) (ownership w)).
Proof. unfold loadIndexJobOwnershipByJob. intros Hg. by tx_inv Hg. Qed.
(** An update of one job as a plain statement. *)
Lemma gives_anyone id c g w n w1 : good w -> gives (exec (by_anyone id c g)) w n w1 ->
  constraints w1 = true /\
  (n = 1%Z /\ w1 = with_jobs (map (at_id id g) (jobs w)) w /\
     (exists r, r ∈ jobs w /\ job_id r = id /\ c r = true) /\ reserved id w = true \/
   n = 0%Z /\ w1 = w).
Proof.
  intros Hg [Hf Hcon]%gives_exec. split; [done|]. pose proof (good_keys w Hg) as Hk. unfold by_anyone in Hf.
  destruct (update_jobs_cases id _ _ _ _ _ Hk (anyone_cond id c w) Hf) as [->|[-> ->]]; [|by right]. left.
  apply (update_jobs_one id) in Hf as [-> (r & Hr & Hid & Hc)]; [|done|apply anyone_cond].
  rewrite !andb_true_iff in Hc. destruct Hc as [[_ Hc] Hres]. split_and!; [done|done|by exists r|done].
Qed.
Lemma cancel_queued_advance id now w w1 u w' r : good w -> r ∈ jobs w -> job_id r = id ->
  status_in false [IndexJobQueued] r = true -> constraints w1 = true ->
  w1 = with_jobs (map (at_id id (on_job (cancel_job now))) (jobs w)) w ->
  gives (owner ← loadIndexJobOwnershipByJob id;
         match owner with
         | None => throw ErrNoRows
         | Some o => _ ← expect (unreleased o) stale; _ ← cancel_generation id;
                     _ ← releaseIndexJobOwnershipTx id (fence_of_owner o) now; commit
         end) w1 u w' -> advance w w'.
Proof.
  intros Hg Hr Hid Hc Hc1 Hw1 Hrun. apply gives_bind in Hrun as (o & v & [-> _]%gives_owner_by_job & Hrun).
  destruct o as [o|]; [|by apply gives_throw in Hrun].
  apply gives_bind in Hrun as (u2 & v & [_ ->]%gives_expect & Hrun). eapply cancel_tail_advance; eauto.
Qed.
(** The last part of a transaction, from a state in which nothing is committed yet. *)
Lemma tail_commits {A} (m : Tx A) x a y : transactional m -> m x = (Ok a, y) ->
  gives m (x_work x) a (x_committed y).
Proof. intros Ht Hm. specialize (Ht x). rewrite Hm in Ht. exists x, y. by rewrite Ht. Qed.
Lemma anyone_none id c g d d' : by_anyone id c g d = (d', 0%Z) -> reserved id d = true ->
  forall r, r ∈ jobs d -> job_id r = id -> c r = false.
Proof.
  unfold by_anyone, update_jobs, update_where. intros [= _ Hn] Hres r Hr Hid. destruct (c r) eqn:Hc; [|done]. exfalso.
  assert (Hm : r ∈ matching (fun r => has_job_id id r && c r && reserved id d) (jobs d)).
  { apply matching_some. split; [|done]. rewrite Hc, Hres. by assert (has_job_id id r = true) as -> by by apply has_job_id_true. }
  destruct (matching _ _); [set_solver|done].
Qed.
(** A queued job is canceled, a running one is marked, and any other stays. *)
Inductive cancel_requested (id now : gostring) (d d' : database) : Prop :=
| requested_queued w1 r u : r ∈ jobs d -> job_id r = id -> status_in false [IndexJobQueued] r = true -> constraints w1 = true ->
    w1 = with_jobs (map (at_id id (on_job (cancel_job now))) (jobs d)) d ->
    gives (owner ← loadIndexJobOwnershipByJob id;
           match owner with
           | None => throw ErrNoRows
           | Some o => _ ← expect (unreleased o) stale; _ ← cancel_generation id;
                       _ ← releaseIndexJobOwnershipTx id (fence_of_owner o) now; commit
           end) w1 u d' -> cancel_requested id now d d'
| requested_running r : r ∈ jobs d -> job_id r = id -> status_in false [IndexJobRunning] r = true -> constraints d' = true ->
    d' = with_jobs (map (at_id id (on_job (request_cancel_job now))) (jobs d)) d -> cancel_requested id now d d'
| requested_neither : d' = d ->
    (reserved id d = true -> forall r, r ∈ jobs d -> job_id r = id -> status_in false [IndexJobQueued; IndexJobRunning] r = false) ->
    cancel_requested id now d d'.
Lemma request_cancel_run id now n d u k d' : good d ->
  immediate (request_cancel_tx id now) (n, d) = (Ok u, (k, d')) -> cancel_requested id now d d'.
Proof.
  intros Hg. unfold immediate. destruct (sql_fails n); [done|].
  destruct (request_cancel_tx id now _) as [[v|e] y] eqn:E; [|done]. intros [= _ _ <-].
  apply bind_run in E as (m & z & E1 & E). assert (Hz : x_committed z = d).
  { pose proof (quiet_exec (by_anyone id (status_in false [IndexJobQueued]) (on_job (cancel_job now))) (mkTxn (S n) d d)) as Hq.
    by rewrite E1 in Hq. }
  assert (G1 : gives (exec (by_anyone id (status_in false [IndexJobQueued]) (on_job (cancel_job now)))) d m (x_work z))
    by (by exists (mkTxn (S n) d d), z).
  pose proof G1 as [Hf1 _]%gives_exec. apply gives_anyone in G1 as [Hc1 [(-> & Hw & (r & Hr & Hid & Hc) & _)|[-> Hw]]]; [| |done].
  - eapply (requested_queued id now d _ (x_work z) r); [done..|]. eapply tail_commits; [|exact E].
    change (1 =? 1)%Z with true. cbv iota. unfold loadIndexJobOwnershipByJob, cancel_generation, releaseIndexJobOwnershipTx. transactional.
  - cbn [Z.eqb] in E. apply bind_run in E as (m & z' & E2 & E). assert (Hz' : x_committed z' = d).
    { pose proof (quiet_exec (by_anyone id (status_in false [IndexJobRunning]) (on_job (request_cancel_job now))) z) as Hq.
      rewrite E2 in Hq. cbn in Hq. congruence. }
    assert (G2 : gives (exec (by_anyone id (status_in false [IndexJobRunning]) (on_job (request_cancel_job now)))) d m (x_work z'))
      by (by exists z, z').
    pose proof G2 as [Hf2 _]%gives_exec. apply gives_anyone in G2 as [Hc2 [(-> & Hw2 & (r & Hr & Hid & Hc) & _)|[-> Hw2]]]; [| |done].
    + assert (Hy : x_committed y = x_work z').
      { change (1 =? 1)%Z with true in E. cbv iota in E. pose proof (tail_commits _ _ _ _ transactional_commit E) as Hg'. by apply gives_commit in Hg'. }
      rewrite Hy. by eapply requested_running.
    + cbn [Z.eqb] in E. injection E as _ <-. cbn [x_committed]. rewrite Hz'. apply requested_neither; [done|].
      intros Hres r Hr Hid. pose proof (anyone_none _ _ _ _ _ Hf1 Hres r Hr Hid) as E1'. pose proof (anyone_none _ _ _ _ _ Hf2 Hres r Hr Hid) as E2'.
      unfold status_in in *. destruct (Bool.eqb _ _); [|done]. cbn [andb] in *. unfold oneOf in *.
      apply bool_decide_eq_false in E1', E2'. apply bool_decide_eq_false. set_solver.
Qed.
Lemma request_cancel_advance id now n d u k d' : good d ->
  immediate (request_cancel_tx id now) (n, d) = (Ok u, (k, d')) -> advance d d'.
Proof.
  intros Hg Hrun. apply request_cancel_run in Hrun as [w1 r v Hr Hid Hc Hc1 Hw Hrun|r Hr Hid Hc Hc2 Hd'|Hd' _]; [| | |done];
    [|subst d'|subst d'; by apply advance_refl].
  - by eapply cancel_queued_advance.
  - destruct (move_request now r) as [Hstep Hact]; [by eapply found|done|].
    constructor; [by eapply same_graph; [..|apply Hg]|].
    eapply (step_goes_on id _ (fun o => o)); [apply Hg|done|done|done|done|apply keeps_same|done| |by apply constraints_keys].
    cbn. by rewrite map_id.
Qed.
End endings.

(** * Creating a job *)
Section creation.
Context `{UnicodeTables} `{NFC} `{UrlParser} `{SHA256} `{Connection} `{Host}.

Lemma last_elem {A} (l : list A) x : last l = Some x -> x ∈ l.
Proof. intros Hl. apply last_Some in Hl as [l' ->]. set_solver. Qed.
Lemma owner_of_job w r : good w -> r ∈ jobs w -> active r = true ->
  exists o, head (matching (fun o => streq (o_jobID o) (job_id r)) (ownership w)) = Some o /\ unreleased o = true.
Proof.
  intros [_ Ho] Hr Hact. destruct (or_owned _ Ho r Hr Hact) as (o & Hin & Hid & _ & Hu).
  assert (Hm : o ∈ matching (fun o => streq (o_jobID o) (job_id r)) (ownership w)).
  { apply matching_some. split; [by apply streq_true|done]. }
  destruct (matching _ _) as [|o' l] eqn:E; [set_solver|]. exists o'. split; [done|].
  assert (Hm' : o' ∈ o' :: l) by left. rewrite <- E in Hm'. apply matching_some in Hm' as [Hid'%streq_true Hin'].
  assert (o' = o) as -> by (eapply same_owner; [done..|congruence]). done.
Qed.
(** No job is retired: an active one has an owner, and then the request is refused. *)
Lemma retire_legacy_run w w1 job u w' : good w -> jobs w1 = jobs w ++ [mkJobRow job false] -> ownership w1 = ownership w ->
  gives (retire_legacy job) w1 u w' ->
  w' = w1 /\ forall r, r ∈ jobs w -> job_root r = j_WorkspaceRoot job -> job_id r <> j_JobID job -> active r = false.
Proof.
  intros Hg Hj Ho Hrun. apply gives_bind in Hrun as (legacy & v & E1 & Hrun).
  unfold loadActiveIndexJobTx in E1. apply gives_bind in E1 as (rows & v' & E1 & E2).
  apply gives_reads_db in E1 as [-> ->]. apply gives_ret in E2 as [-> ->].
  set (c := fun r => streq (job_root r) (j_WorkspaceRoot job) && negb (streq (job_id r) (j_JobID job)) && isIndexJobActive (job_status r)) in *.
  destruct (last (matching c (jobs w1))) as [r|] eqn:Hl; cbn [fmap option_fmap option_map] in Hrun.
  - exfalso. apply last_elem in Hl. apply matching_some in Hl as [Hc Hr]. unfold c in Hc.
    rewrite !andb_true_iff, negb_true_iff in Hc. destruct Hc as [[Hroot Hne] Hact]. rewrite Hj in Hr.
    apply elem_of_app in Hr as [Hr|Hr].
    + destruct (owner_of_job w r Hg Hr Hact) as (o & Ho' & Hu).
      apply gives_bind in Hrun as (ow & v & [-> ->]%gives_owner_by_job & Hrun). rewrite Ho in Hrun.
      change (j_JobID (r_job r)) with (job_id r) in Hrun. rewrite Ho', Hu in Hrun. cbv zeta iota in Hrun.
      apply gives_bind in Hrun as (alive & v & [-> ->]%gives_ret & Hrun). by apply gives_throw in Hrun.
    + apply list_elem_of_singleton in Hr as ->. unfold job_id in Hne. cbn in Hne. by rewrite streq_refl in Hne.
  - apply gives_ret in Hrun as [_ ->]. split; [done|]. intros r Hr Hroot Hid.
    destruct (active r) eqn:Hact; [|done]. exfalso. apply last_None in Hl.
    assert (Hm : r ∈ matching c (jobs w1)).
    { apply matching_some. split; [|rewrite Hj; set_solver]. unfold c. rewrite !andb_true_iff, negb_true_iff.
      split_and!; [by apply streq_true|by apply streq_false|done]. }
    rewrite Hl in Hm. set_solver.
Qed.
Lemma gives_owner_by_root root w a w' : gives (loadIndexJobOwnership root) w a w' ->
  w' = w /\ a = head (matching (in_root root) (ownership w)).
Proof. unfold loadIndexJobOwnership. intros Hg. by tx_inv Hg. Qed.
Lemma gives_reserve_for job w u w' : gives (reserve_for job) w u w' -> gives (reserveIndexJobTx job) w u w'.
Proof.
  intros (x & y & Hx & Hr & Hy). unfold reserve_for in Hr. destruct (reserveIndexJobTx job x) as [[a|e] z] eqn:E; [|done].
  injection Hr as -> ->. by exists x, y.
Qed.
Lemma reservation_taken_never root w u w' : gives (reservation_taken root) w u w' -> False.
Proof.
  intros Hg. apply gives_bind in Hg as (o & v & _ & Hg). destruct o as [o|]; [|by apply gives_throw in Hg].
  destruct (unreleased o); [|by apply gives_throw in Hg]. apply gives_bind in Hg as (a & v' & _ & Hg). by apply gives_throw in Hg.
Qed.
Record reserved_for (job : IndexJob) (w w' : database) : Prop := {
  rf_jobs : jobs w' = jobs w;
  rf_tables : d_tables w' = d_tables w;
  rf_owner : exists o, o_workspaceRoot o = j_WorkspaceRoot job /\ o_jobID o = j_JobID job /\ unreleased o = true /\
    o ∈ ownership w' /\
    (ownership w' = map (fun p => if in_root (o_workspaceRoot o) p then o else p) (ownership w) \/
     ownership w' = ownership w ++ [o] /\ forall p, p ∈ ownership w -> in_root (o_workspaceRoot o) p = false) }.
Lemma reserve_row_run o w w' n : (forall p, p ∈ ownership w -> in_root (o_workspaceRoot o) p = true -> unreleased p = false) ->
  reserve_row o w = (w', n) ->
  jobs w' = jobs w /\ d_tables w' = d_tables w /\ o ∈ ownership w' /\
  (ownership w' = map (fun p => if in_root (o_workspaceRoot o) p then o else p) (ownership w) \/
   ownership w' = ownership w ++ [o] /\ forall p, p ∈ ownership w -> in_root (o_workspaceRoot o) p = false).
Proof.
  intros Hrel. unfold reserve_row. destruct (existsb _ _) eqn:Hex.
  - unfold update_ownership, update_where. intros [= <- _].
    assert (Hmap : map (fun p => if in_root (o_workspaceRoot o) p && negb (unreleased p) then o else p) (ownership w)
                   = map (fun p => if in_root (o_workspaceRoot o) p then o else p) (ownership w)).
    { apply map_ext_in. intros p Hp%list_elem_of_In. destruct (in_root _ p) eqn:E; [|done]. by rewrite (Hrel p Hp E). }
    split_and!; [done|done| |by left]. cbn. rewrite Hmap. apply existsb_exists in Hex as (p & Hp%list_elem_of_In & E).
    apply list_elem_of_fmap. exists p. by rewrite E.
  - intros [= <- _]. split_and!; [done|done|cbn; set_solver|]. right. split; [done|]. intros p Hp.
    destruct (in_root _ p) eqn:E; [|done]. apply not_true_iff_false in Hex. destruct Hex. apply existsb_exists.
    exists p. split; [by apply list_elem_of_In|done].
Qed.
Lemma reserve_run w w1 job u w' : good w -> jobs w1 = jobs w ++ [mkJobRow job false] -> ownership w1 = ownership w ->
  index_keys (d_index w1) = true -> gives (reserveIndexJobTx job) w1 u w' ->
  reserved_for job w1 w' /\ forall r, r ∈ jobs w -> job_root r = j_WorkspaceRoot job -> active r = false.
Proof.
  intros Hg Hj Ho Hk Hrun. unfold reserveIndexJobTx in Hrun. cbv zeta in Hrun.
  apply gives_bind in Hrun as (u1 & v & E1 & Hrun).
  destruct (retire_legacy_run w w1 job u1 v Hg Hj Ho E1) as [-> Hfree0].
  assert (Hfree : forall r, r ∈ jobs w -> job_root r = j_WorkspaceRoot job -> active r = false).
  { intros r Hr Hroot. apply Hfree0; [done..|]. intros Hid. apply keys_elim in Hk as (Hnd & _). unfold jobs in Hj. rewrite Hj, map_app in Hnd.
    apply NoDup_app in Hnd as (_ & Hdis & _). apply (Hdis (job_id r)); [by apply list_elem_of_fmap; exists r|].
    cbn. unfold job_id at 2. cbn. rewrite Hid. set_solver. }
  split; [|done].
  assert (Hrel : forall p, p ∈ ownership w -> o_workspaceRoot p = j_WorkspaceRoot job -> unreleased p = false).
  { intros p Hp Hroot. destruct (unreleased p) eqn:E; [|done]. exfalso.
    destruct (or_owner _ (g_index w Hg) p Hp) as (r & Hr & _ & Hroot' & Hact). rewrite (Hfree r Hr) in Hact; [by specialize (Hact E)|congruence]. }
  apply gives_bind in Hrun as (o & v & [-> ->]%gives_owner_by_root & Hrun). rewrite Ho in Hrun.
  apply gives_bind in Hrun as (u2 & v & E2 & Hrun).
  assert (v = w1) as ->.
  { destruct (head _) as [o|] eqn:Hh; [|by apply gives_ret in E2 as [_ ->]]. apply head_matching_Some in Hh as [Hroot%streq_true Hin].
    rewrite (Hrel o Hin Hroot) in E2. by apply gives_ret in E2 as [_ ->]. }
  apply gives_bind in Hrun as (token & v & E3 & Hrun).
  assert (v = w1) as -> by (destruct E3 as (x & y & <- & [= _ <-] & <-); done).
  apply gives_bind in Hrun as (n & w2 & [Hf Hc]%gives_exec & Hrun).
  assert (w' = w2) as ->.
  { destruct (n =? 1)%Z; [by apply gives_ret in Hrun as [_ ->]|by apply reservation_taken_never in Hrun]. }
  apply reserve_row_run in Hf as (Hj2 & Ht2 & Hin & Hown); [|intros p; rewrite Ho; intros Hp Hroot%streq_true; by apply Hrel].
  constructor; [done|done|]. eexists. split_and!; [..|exact Hin|exact Hown]; done.
Qed.
Lemma create_advance job w u w' : good w -> j_Status job = IndexJobQueued -> j_RequestedCancel job = false ->
  gives (create_tx job) w u w' -> advance w w'.
Proof.
  intros Hg Hq Hcan Hrun. apply gives_bind in Hrun as (n & w1 & [Hf Hc1]%gives_exec & Hrun).
  injection Hf as Hw1 _. apply gives_bind in Hrun as (u2 & w2 & E2%gives_reserve_for & Hrun).
  apply (reserve_run w) in E2 as [[Hj2 Ht2 (o & Hroot & Hjob & Hu & Hin & Hown)] Hfree];
    [|done|by subst w1|by subst w1|by apply constraints_keys].
  apply gives_bind in Hrun as (n3 & w3 & [Hf3 Hc3]%gives_exec & ->%gives_commit). injection Hf3 as <- _.
  constructor; [eapply same_graph; [|done|apply Hg]; cbn; rewrite Ht2; by subst w1|].
  eapply (step_created _ _ job o). constructor; [|..|by apply constraints_keys|done|done|done].
  - cbn. unfold jobs in Hj2. rewrite Hj2. by subst w1.
  - cbn. subst w1. exact Hown.
  - exact Hin.
Qed.
End creation.

(** * Publishing *)

(** The writes of a publication to the tables that are not modelled: they commit nothing,
    and touch neither jobs nor published graphs. *)
Record catalog_body {A} (m : Tx A) : Prop := {
  cb_quiet : quiet m;
  cb_run : forall w a w', gives m w a w' -> d_index w' = d_index w /\ modest w w' }.

Section publication.
Context `{UnicodeTables} `{NFC} `{UrlParser} `{SHA256} `{Connection} `{Host}.

Lemma gives_upserts l : forall w u w', gives (UpsertWorkspaceMetaMap l) w u w' ->
  Forall (fun kv => streq graphActiveMeta kv.1 = false) l -> d_index w' = d_index w /\ modest w w'.
Proof.
  induction l as [|[key v] l IH]; intros w u w' Hg Hall; cbn [UpsertWorkspaceMetaMap] in Hg.
  { apply gives_ret in Hg as [_ ->]. split; [done|apply modest_refl]. }
  apply Forall_cons in Hall as [Hk Hall]. apply gives_bind in Hg as (n & w1 & E1 & Hg).
  destruct (IH _ _ _ Hg Hall) as [Hi Hm]. split.
  - rewrite Hi. apply gives_exec in E1 as [Hf _]. by injection Hf as <- _.
  - eapply modest_trans; [by eapply modest_upsert|done].
Qed.
Lemma gives_write_metadata generationID mode files symbols docs now w u w' :
  gives (write_metadata generationID mode files symbols docs now) w u w' -> d_index w' = d_index w /\ modest w w'.
Proof.
  unfold write_metadata. destruct (mode_pointers mode) as [keys|] eqn:Hk; [|by intros ?%gives_throw].
  intros Hg. eapply gives_upserts; [done|]. apply Forall_app. split; [by repeat constructor|].
  apply Forall_map. unfold mode_pointers in Hk. repeat (case_match; simplify_eq/=); repeat constructor.
Qed.
Lemma gives_close id generationID mode files symbols docs now graph w u w' :
  gives (close_generation id generationID mode files symbols docs now graph) w u w' ->
  jobs w' = jobs w /\ ownership w' = ownership w /\ modest w w'.
Proof.
  unfold close_generation. cbv zeta. destruct (streq _ []).
  - unfold publishGenerationForJobTx. destruct (streq generationID []).
    { intros [_ ->]%gives_ret. split_and!; [done|done|apply modest_refl]. }
    intros (u1 & w1 & (Hj & Ho & Ht & _ & Hc)%generations_run & [Hi Hm]%gives_write_metadata)%gives_bind.
    unfold jobs, ownership in *. rewrite Hi. split_and!; [done|done|]. eapply modest_trans; [by apply modest_index|done].
  - intros (Hj & Ho & Ht & _ & Hc)%generations_run. split_and!; [done|done|by apply modest_index].
Qed.
Lemma gives_db_time w (a : Z) w' : gives ((fun x => (Ok (now_at (x_calls x)), x)) : Tx Z) w a w' -> w' = w.
Proof. by intros (x & y & <- & [= _ <-] & <-). Qed.
Lemma gives_stage_activate g w u w' : gives (stage_and_activate g) w u w' ->
  d_index w' = d_index w /\ (invariant w -> invariant w').
Proof.
  intros (u1 & w1 & E1 & Hg)%gives_bind.
  assert (Hst : d_index w1 = d_index w /\ (invariant w -> invariant w1)).
  { destruct (gp_GraphBundle g); [|by apply gives_ret in E1 as [_ ->]].
    split; [eapply keeps_gives; [apply static_stage|done]|]. apply modest_invariant. by eapply stage_modest. }
  destruct Hst as [Hi1 Hinv1]. destruct (gp_GenerationID g) as [id|]; [|by apply gives_ret in Hg as [_ ->]].
  apply gives_bind in Hg as (at_ & v & E2 & Hg).
  assert (v = w1) as -> by (destruct (_ =? 0)%Z; [by apply gives_db_time in E2|by apply gives_ret in E2 as [_ ->]]).
  split; [rewrite <- Hi1; by eapply keeps_gives; [apply static_activateTx|]|].
  intros Hi. eapply activateTx_invariant; [done|]. by apply Hinv1.
Qed.
Lemma gives_meta_text key w a w' : gives (meta_text key) w a w' -> w' = w.
Proof.
  intros (row & v & [-> _]%gives_reads & Hg)%gives_bind. destruct row as [[v|]|]; [|by apply gives_throw in Hg|]; by apply gives_ret in Hg as [_ ->].
Qed.
Lemma gives_catalog_of g generationID w a w' : gives (catalog_of g generationID) w a w' -> w' = w.
Proof.
  intros (c & v & E1 & [_ ->]%gives_ret)%gives_bind.
  destruct (streq _ _); [by apply gives_meta_text in E1|by apply gives_ret in E1 as [_ ->]].
Qed.
Lemma gives_runtime st c w u w' : gives (setGraphRuntimeStateTx st c) w u w' ->
  d_index w' = d_index w /\ (invariant w -> invariant w').
Proof.
  intros Hg. split; [by eapply keeps_gives; [apply static_runtime|]|]. apply modest_invariant. by eapply runtime_modest.
Qed.
Lemma gives_publish_graph graph generationID mode w u w' : gives (publish_graph graph generationID mode) w u w' ->
  d_index w' = d_index w /\ (invariant w -> invariant w').
Proof.
  unfold publish_graph. destruct graph as [g|].
  - intros (u1 & w1 & [Hi1 Hv1]%gives_stage_activate & Hg)%gives_bind. destruct (gp_GraphCurrent g).
    + apply gives_bind in Hg as (c & v & ->%gives_catalog_of & [Hi2 Hv2]%gives_runtime). split; [congruence|auto].
    + destruct (_ && _); [|by apply gives_ret in Hg as [_ ->]]. apply gives_runtime in Hg as [Hi2 Hv2]. split; [congruence|auto].
  - destruct (changes_code mode); [apply gives_runtime|]. by intros [_ ->]%gives_ret.
Qed.
Lemma at_id_twice id g1 g2 l : (forall r, job_id (g1 r) = job_id r) ->
  map (at_id id g2) (map (at_id id g1) l) = map (at_id id (fun r => g2 (g1 r))) l.
Proof.
  intros Hid. rewrite map_map. apply map_ext. intros r. unfold at_id. destruct (has_job_id id r) eqn:E; [|by rewrite E].
  assert (has_job_id id (g1 r) = true) as -> by (unfold has_job_id in *; by rewrite Hid). done.
Qed.
(** What a publication has passed and left behind, but for the graph. *)
Record job_published (id : gostring) (f : IndexJobFence) (files symbols docs : Z) (w w' : database) : Prop := {
  jp_row : exists r, r ∈ jobs w /\ job_id r = id /\ may_publish r = true;
  jp_held : held id f w = true;
  jp_jobs : exists now now', jobs w' = map (at_id id (fun r => on_job (succeed_job files symbols docs now') (start_publishing now r))) (jobs w);
  jp_ownership : exists now, ownership w' = map (released_by id f now) (ownership w) }.
(** The graph's part of it. *)
Inductive graph_parts (id generationID mode : gostring) (files symbols docs : Z) (graph : option IndexJobGraphPublication)
    (body : option IndexJobGraphPublication -> Tx (option IndexJobGraphPublication)) (w w' : database) : Prop :=
| the_parts w1 g w2 now u3 w3 u4 w4 : d_tables w1 = d_tables w -> gives (body graph) w1 g w2 ->
    gives (close_generation id generationID mode files symbols docs now g) w2 u3 w3 -> invariant w3 ->
    gives (publish_graph g generationID mode) w3 u4 w4 -> d_tables w' = d_tables w4 ->
    graph_parts id generationID mode files symbols docs graph body w w'.
Lemma publication_run id generationID mode files symbols docs f graph body w u w' : good w ->
  (forall g, catalog_body (body g)) ->
  gives (publish_tx id generationID mode files symbols docs f graph body) w u w' ->
  job_published id f files symbols docs w w' /\ graph_parts id generationID mode files symbols docs graph body w w' /\
  advance w w'.
Proof.
  intros Hg Hbody Hrun. apply gives_bind in Hrun as (now & v & ->%gives_tx_now & Hrun).
  apply gives_bind in Hrun as (u1 & w1 & E1 & Hrun).
  apply by_owner_run in E1 as (Hw1 & Hc1 & Hheld & r & Hr & Hid & Hc); [|by apply good_keys].
  apply gives_bind in Hrun as (g & w2 & E2 & Hrun). destruct (cb_run _ (Hbody _) _ _ _ E2) as [Hi2 Hm2].
  apply gives_bind in Hrun as (u3 & w3 & E3 & Hrun). destruct (gives_close _ _ _ _ _ _ _ _ _ _ _ E3) as (Hj3 & Ho3 & Hm3).
  apply gives_bind in Hrun as (u4 & w4 & E4 & Hrun). destruct (gives_publish_graph _ _ _ _ _ _ E4) as [Hi4 Hv4].
  apply gives_bind in Hrun as (u5 & w5 & Hrun & ->%gives_commit).
  apply gives_bind in Hrun as (now' & v & ->%gives_tx_now & Hrun). apply gives_bind in Hrun as (u6 & w6 & E6 & Hrun).
  assert (Hinv1 : invariant w1) by (rewrite Hw1 in *; by eapply same_graph; [..|apply Hg]).
  assert (Hinv3 : invariant w3) by (eapply modest_invariant; [exact Hm3|]; by eapply modest_invariant).
  assert (Hinv4 : invariant w4) by auto.
  apply by_owner_run in E6 as (Hw6 & Hc6 & _ & _); [|apply constraints_keys, Hinv4].
  apply release_run in Hrun as (-> & Hc7 & (o & Hoin & Hown)).
  assert (Hj4 : jobs w4 = map (at_id id (start_publishing now)) (jobs w)).
  { unfold jobs in *. rewrite Hi4, Hj3, Hi2, Hw1. done. }
  assert (Ho4 : ownership w4 = ownership w) by (unfold ownership in *; rewrite Hi4, Ho3, Hi2, Hw1; done).
  assert (Hj6 : jobs w6 = map (at_id id (fun r => on_job (succeed_job files symbols docs now') (start_publishing now r))) (jobs w)).
  { rewrite Hw6. cbn [jobs with_jobs with_index d_index i_jobs]. rewrite Hj4. by apply at_id_twice. }
  assert (Ho6 : ownership w6 = ownership w) by (rewrite Hw6; exact Ho4).
  split_and!.
  - constructor; [by exists r|done|by exists now, now'|]. exists now'. by rewrite <- Ho6.
  - eapply (the_parts _ _ _ _ _ _ _ _ _ _ w1 g w2 now u3 w3 u4 w4); [by rewrite Hw1|done..|]. cbn. by rewrite Hw6.
  - constructor; [eapply same_graph; [|exact Hc7|exact Hinv4]; by rewrite Hw6|].
    rewrite Ho6 in Hoin.
    eapply (step_ends id _ f now' _ _ r o (g_index w Hg) Hr Hid); [| |exact Hoin|done|exact Hj6| |by apply constraints_keys].
    + apply move_publish; [by eapply found|done].
    + done.
    + cbn. by rewrite Ho6.
Qed.
End publication.
