(* ===== verification/IndexJobsRuns.v ===== *)
(** Runs of the operations on index jobs: every access of every operation moves the jobs as
    [IndexJobsFacts] says, so that many processes at work on one data base keep the order
    of its jobs, and an operation on its own finds what the others may have made. *)
From S2P Require Import Prelude GoStrings GoStringFacts GoSort GoNum GoTime Graph GraphFacts GraphStore GraphStoreFacts IndexTables GraphValidate GraphValidateFacts GraphPublish GraphPublishFacts GraphActivation IndexJobs IndexPublish IndexJobsFacts IndexJobsSteps.

Local Open Scope go_scope.

(** * The operations *)
Inductive job_operation :=
| JobCreate (name root mode entrypoint : gostring) (clean goOffline noEmbeddings : bool)
| JobRunning (jobID : gostring) (pid : Z) (phase : gostring) (f : IndexJobFence)
| JobPhase (jobID status phase : gostring) (f : IndexJobFence)
| JobProgress (jobID : gostring) (p : IndexJobProgress) (f : IndexJobFence)
| JobSucceeded (jobID : gostring) (files symbols docs : Z) (f : IndexJobFence)
| JobSkipped (jobID message : gostring) (f : IndexJobFence)
| JobFailed (jobID message : gostring) (f : IndexJobFence)
| JobCanceled (jobID : gostring) (f : IndexJobFence)
| JobGet (jobID : gostring)
| JobLatest
| JobActive (root : gostring)
| JobCancel (jobID : gostring) (force : bool)
| JobPublish (jobID generationID mode : gostring) (files symbols docs : Z) (f : IndexJobFence)
    (graph : option IndexJobGraphPublication)
    (body : option IndexJobGraphPublication -> Tx (option IndexJobGraphPublication))
| JobReplace (generationID mode : gostring) (files symbols docs : Z) (rows : Tx unit)
| JobForeground (generationID : gostring) (files symbols docs : Z) (graph : option IndexJobGraphPublication) (rows : Tx unit)
| JobForegroundDocs (generationID : gostring) (rows : Tx bool)
| JobForegroundBoth (generationID : gostring) (files symbols docs : Z) (file_rows : Tx unit) (doc_rows : Tx bool)
| GraphOperation (o : operation).

Section operations.
Context `{UnicodeTables} `{NFC} `{UrlParser} `{SHA256} `{Connection} `{Host}.

Definition run_job_operation (o : job_operation) : Db unit :=
  match o with
  | JobCreate name root mode entrypoint clean goOffline noEmbeddings =>
      _ ← createIndexJob name root mode entrypoint clean goOffline noEmbeddings; mret tt
  | JobRunning id pid phase f => MarkIndexJobRunning id pid phase f
  | JobPhase id status phase f => MarkIndexJobPhase id status phase f
  | JobProgress id p f => MarkIndexJobProgress id p f
  | JobSucceeded id files symbols docs f => MarkIndexJobSucceeded id files symbols docs f
  | JobSkipped id message f => MarkIndexGenerationSkipped id message f
  | JobFailed id message f => MarkIndexJobFailed id message f
  | JobCanceled id f => MarkIndexJobCanceled id f
  | JobGet id => _ ← GetIndexJob id; mret tt
  | JobLatest => _ ← LatestIndexJob; mret tt
  | JobActive root => _ ← ActiveIndexJob root; mret tt
  | JobCancel id force => _ ← CancelIndexJob id force; mret tt
  | JobPublish id generationID mode files symbols docs f graph body =>
      publishOwned id generationID mode files symbols docs f graph body
  | JobReplace generationID mode files symbols docs rows =>
      publishForeground (_ ← rows; publishGenerationTx generationID mode files symbols docs)
  | JobForeground generationID files symbols docs graph rows =>
      PublishIncrementalGenerationWithChanges generationID files symbols docs graph rows
  | JobForegroundDocs generationID rows => PublishIncrementalDocsGeneration generationID rows
  | JobForegroundBoth generationID files symbols docs file_rows doc_rows =>
      PublishIncrementalGenerationWithFileAndDocChanges generationID files symbols docs file_rows doc_rows
  | GraphOperation o => access (run o)
  end.
(** What the writes of a publication to other tables have to promise. *)
Definition well_behaved (o : job_operation) : Prop :=
  match o with
  | JobPublish _ _ _ _ _ _ _ _ body => forall g, catalog_body (body g)
  | JobReplace _ _ _ _ _ rows | JobForeground _ _ _ _ _ rows => catalog_body rows
  | JobForegroundDocs _ rows => catalog_body rows
  | JobForegroundBoth _ _ _ _ file_rows doc_rows => catalog_body file_rows /\ catalog_body doc_rows
  | _ => True
  end.

(** * Every access is an advance *)
Definition advances {A} (f : nat * database -> A * (nat * database)) : Prop :=
  forall s, good (snd s) -> advance (snd s) (snd (snd (f s))).
Fixpoint follows {A} (m : Db A) : Prop :=
  match m with
  | Done _ => True
  | Access f k => advances f /\ forall s, follows (k (fst (f s)))
  end.
Lemma follows_bind {A B} (m : Db A) (f : A -> Db B) : follows m -> (forall a, follows (f a)) -> follows (m ≫= f).
Proof.
  intros Hm Hf. induction m as [[a|e]|X g k IH]; [apply Hf|done|]. destruct Hm as [Hg Hk]. split; [done|].
  intros x. apply IH, Hk.
Qed.
Lemma follows_catch {A} (m : Db A) : follows m -> follows (catch m).
Proof. induction m as [r|X g k IH]; [done|]. intros [Hg Hk]. split; [done|]. intros x. apply IH, Hk. Qed.
Lemma follows_ret {A} (a : A) : follows (mret a).
Proof. done. Qed.
Lemma follows_require b e : follows (require b e).
Proof. by destruct b. Qed.
Lemma follows_access {A} f : advances f -> follows (access (A:=A) f).
Proof. by split. Qed.
Lemma advances_same {A} (f : nat * database -> A * (nat * database)) : (forall s, snd (snd (f s)) = snd s) -> advances f.
Proof. intros Hf [n d] Hg. rewrite Hf. by apply advance_refl. Qed.
Lemma follows_asks {A} (f : nat -> A) : follows (db_asks f).
Proof. apply follows_access, advances_same. done. Qed.
Lemma follows_then {A B} (f : nat -> A) (g : A -> Db B) : (forall n, follows (g (f n))) -> follows (db_asks f ≫= g).
Proof. intros Hg. split; [apply advances_same; done|]. intros s. apply Hg. Qed.
Lemma follows_fetch {A} (rows : database -> list A) : follows (fetch rows).
Proof. apply follows_access, advances_same. intros [n d]. by destruct (from_Q _ _). Qed.
Lemma follows_transaction {A} (body : Tx A) : transactional body ->
  (forall d a d', good d -> gives body d a d' -> advance d d') -> follows (transaction body).
Proof.
  intros Ht Hb. apply follows_access. intros [n d] Hg. destruct (immediate body (n, d)) as [[a|e] [k d']] eqn:E.
  - eapply Hb; [done|]. by eapply immediate_ok.
  - rewrite (immediate_err body n d e k d' Ht E). by apply advance_refl.
Qed.
Lemma follows_statement f : (forall d d' n, good d -> constraints d' = true -> f d = (d', n) -> advance d d') ->
  follows (statement f).
Proof.
  intros Hf. apply follows_access. intros [n d] Hg. unfold single. destruct (sql_fails n); [by apply advance_refl|].
  destruct (f d) as [d' m] eqn:E. destruct (constraints d') eqn:Hc; [by eapply Hf|by apply advance_refl].
Qed.

(** ** Transactions *)
Lemma transactional_rollback : transactional rollback.
Proof. done. Qed.
Lemma quiet_tx_now : quiet tx_now.
Proof. by intros x. Qed.
Lemma quiet_tx_exists pid : quiet (tx_exists pid).
Proof. by intros x. Qed.
Lemma quiet_new_id prefix : quiet ((fun x => (Ok (newIndexID (x_calls x) prefix), x)) : Tx gostring).
Proof. by intros x. Qed.
Lemma quiet_load_job id : quiet (loadIndexJobTx id).
Proof. unfold loadIndexJobTx. quiet. Qed.
Lemma quiet_load_active root exclude : quiet (loadActiveIndexJobTx root exclude).
Proof. unfold loadActiveIndexJobTx. quiet. Qed.
Lemma quiet_owner_by_job id : quiet (loadIndexJobOwnershipByJob id).
Proof. unfold loadIndexJobOwnershipByJob. quiet. Qed.
Lemma quiet_owner root : quiet (loadIndexJobOwnership root).
Proof. unfold loadIndexJobOwnership. quiet. Qed.
Lemma quiet_release id f now : quiet (releaseIndexJobOwnershipTx id f now).
Proof. unfold releaseIndexJobOwnershipTx. quiet. Qed.
Lemma quiet_runtime st c : quiet (setGraphRuntimeStateTx st c).
Proof. unfold setGraphRuntimeStateTx. quiet. Qed.
Lemma quiet_attempt {A} (m : Tx A) : quiet m -> quiet (tx_attempt m).
Proof. intros Hm x. unfold tx_attempt. specialize (Hm x). by destruct (m x). Qed.
Hint Resolve quiet_tx_now quiet_tx_exists quiet_new_id quiet_load_job quiet_load_active quiet_owner_by_job quiet_owner
  quiet_release quiet_runtime quiet_attempt : quiet.
Lemma quiet_complete id files symbols docs f b : quiet (completeIndexJobTx id files symbols docs f b).
Proof. unfold completeIndexJobTx. quiet. Qed.
Lemma quiet_cancel_generation id : quiet (cancel_generation id).
Proof. unfold cancel_generation. quiet. Qed.
Lemma quiet_reserve job : quiet (reserve_for job).
Proof.
  assert (Hq : quiet (reserveIndexJobTx job)).
  { unfold reserveIndexJobTx, retire_legacy, clear_reservation, reservation_taken. cbv zeta. quiet. }
  intros x. unfold reserve_for. specialize (Hq x). by destruct (reserveIndexJobTx job x).
Qed.
Lemma quiet_upserts l : quiet (UpsertWorkspaceMetaMap l).
Proof. induction l as [|[k v] l IH]; cbn [UpsertWorkspaceMetaMap]; quiet. Qed.
Hint Resolve quiet_complete quiet_cancel_generation quiet_reserve quiet_upserts : quiet.
Lemma quiet_write_metadata generationID mode files symbols docs now : quiet (write_metadata generationID mode files symbols docs now).
Proof. unfold write_metadata. quiet. Qed.
Lemma quiet_stage_activate g : quiet (stage_and_activate g).
Proof. unfold stage_and_activate. apply quiet_bind; [quiet|]. intros _. destruct (gp_GenerationID g); [|quiet]. apply quiet_bind; [|quiet]. by destruct (_ =? 0)%Z; [intros x|quiet]. Qed.
Hint Resolve quiet_write_metadata quiet_stage_activate : quiet.
Lemma quiet_publish_graph graph generationID mode : quiet (publish_graph graph generationID mode).
Proof. unfold publish_graph, catalog_of, meta_text. quiet. Qed.
Lemma quiet_close id generationID mode files symbols docs now graph :
  quiet (close_generation id generationID mode files symbols docs now graph).
Proof. unfold close_generation, publishGenerationForJobTx. cbv zeta. quiet. Qed.
Hint Resolve quiet_publish_graph quiet_close : quiet.

(** ** Publications without a job *)

(** Writes that leave the jobs alone. *)
Record aside {A} (m : Tx A) : Prop := {
  as_quiet : quiet m;
  as_run : forall w a w', gives m w a w' -> jobs w' = jobs w /\ ownership w' = ownership w /\ (invariant w -> invariant w') }.
Lemma aside_ret {A} (a : A) : aside (mret a).
Proof. constructor; [quiet|]. by intros w b w' [_ ->]%gives_ret. Qed.
Lemma aside_bind {A B} (m : Tx A) (f : A -> Tx B) : aside m -> (forall a, aside (f a)) -> aside (m ≫= f).
Proof.
  intros [Hq Hr] Hf. constructor; [apply quiet_bind; [done|]; intros a; apply Hf|].
  intros w b w' (a & v & (Hj & Ho & Hi)%Hr & Hrun)%gives_bind. apply (as_run _ (Hf a)) in Hrun as (Hj' & Ho' & Hi').
  split_and!; [congruence|congruence|auto].
Qed.
Lemma aside_body {A} (m : Tx A) : catalog_body m -> aside m.
Proof.
  intros [Hq Hr]. constructor; [done|]. intros w a w' [Hi Hm]%Hr. unfold jobs, ownership. rewrite Hi.
  split_and!; [done|done|by apply modest_invariant].
Qed.
Lemma aside_static (m : Tx unit) : quiet m -> static m -> (forall w u w', gives m w u w' -> modest w w') -> aside m.
Proof.
  intros Hq Hs Hm. apply aside_body. constructor; [done|]. intros w a w' Hg. split; [by eapply keeps_gives|by eapply Hm].
Qed.
Lemma aside_runtime st c : aside (setGraphRuntimeStateTx st c).
Proof. apply aside_static; [quiet|apply static_runtime|]. intros w u w' Hg. by eapply runtime_modest. Qed.
Lemma aside_stage_activate g : aside (stage_and_activate g).
Proof.
  constructor; [quiet|]. intros w u w' [Hi Hv]%gives_stage_activate. unfold jobs, ownership. by rewrite Hi.
Qed.
Lemma aside_tx_now : aside tx_now.
Proof. constructor; [quiet|]. by intros w a w' ->%gives_tx_now. Qed.
Lemma aside_publish_generation generationID mode files symbols docs : aside (publishGenerationTx generationID mode files symbols docs).
Proof.
  unfold publishGenerationTx. destruct (streq _ _); [apply aside_ret|]. apply aside_bind; [apply aside_tx_now|]. intros now.
  apply aside_bind.
  - constructor; [quiet|]. intros w n w' [Hf Hc]%gives_exec. injection Hf as <- _.
    split_and!; [done|done|]. by apply modest_invariant, modest_index.
  - intros _. apply aside_body. constructor; [quiet|]. intros w u w'. apply gives_write_metadata.
Qed.
Lemma aside_expect b e : aside (expect b e).
Proof. constructor; [quiet|]. by intros w u w' [_ ->]%gives_expect. Qed.
Lemma aside_docs_pointer generationID : aside (setActiveDocsGenerationTx generationID).
Proof.
  unfold setActiveDocsGenerationTx. apply aside_bind.
  - apply aside_expect.
  - intros _. apply aside_body. constructor; [quiet|]. intros w u w' Hg. eapply gives_upserts; [exact Hg|].
    by repeat constructor.
Qed.
Lemma aside_incremental generationID files symbols docs graph :
  aside (publishIncrementalGenerationTx generationID files symbols docs graph).
Proof.
  unfold publishIncrementalGenerationTx. apply aside_bind; [apply aside_publish_generation|]. intros _.
  destruct graph as [g|]; [|apply aside_runtime]. destruct (negb _); [apply aside_runtime|].
  apply aside_bind; [apply aside_stage_activate|]. intros _. destruct (gp_GraphCurrent g); apply aside_runtime.
Qed.
Lemma follows_aside (m : Tx unit) : aside m -> follows (publishForeground m).
Proof.
  intros [Hq Hr]. apply follows_transaction; [transactional|].
  intros d u d' [Hi Ho] (v & w & Hrun & ->%gives_commit)%gives_bind. apply Hr in Hrun as Hm. destruct Hm as (Hj & Hw & Hv).
  constructor; [by apply Hv|]. apply step_same; [|done|done]. apply constraints_keys. by apply Hv.
Qed.

(** ** The schema of ownership *)

(** A part that only reads, at the start of a transaction. *)
Lemma reading_part {A B} (m : Tx A) (f : A -> Tx B) d x r y : quiet m -> (forall w b w', gives m w b w' -> w' = w) ->
  x_work x = d -> x_committed x = d -> (m ≫= f) x = (r, y) ->
  x_committed y = d \/ exists b z, x_work z = d /\ x_committed z = d /\ f b z = (r, y).
Proof.
  intros Hm Hs Hw Hc. unfold mbind, eff_bind. pose proof (Hm x) as Hcz. destruct (m x) as [[b|e] z] eqn:Ez; cbn in Hcz.
  - intros Hf. right. exists b, z. split_and!; [|congruence|done]. rewrite <- Hw. eapply (Hs _ b). by exists x, z.
  - intros [= <- <-]. left. congruence.
Qed.
Lemma reads_same {A} (m : tables -> R A) w b w' : gives (reads m) w b w' -> w' = w.
Proof. by intros [-> _]%gives_reads. Qed.
Definition meta_value (row : option (option gostring)) : Tx gostring :=
  match row with None => mret ("0" : gostring) | Some None => throw (ErrQuery ErrDriver) | Some (Some v) => mret v end.
Lemma quiet_meta_value row : quiet (meta_value row).
Proof. by destruct row as [[]|]. Qed.
Lemma meta_value_same row w b w' : gives (meta_value row) w b w' -> w' = w.
Proof. destruct row as [[]|]; cbn; [intros [_ ->]%gives_ret|intros []%gives_throw|intros [_ ->]%gives_ret]; done. Qed.
Definition schema_writes : Tx unit :=
  _ ← schema_statement; _ ← schema_statement; _ ← schema_statement; _ ← schema_statement;
  _ ← exec (upsert ownershipVersionMeta (Some "1")); commit.
Lemma schema_cases d a n k d' : immediate ownership_schema_tx (n, d) = (a, (k, d')) -> d' = d \/ exists u, gives schema_writes d u d'.
Proof.
  unfold immediate. destruct (sql_fails n); [intros [= _ _ <-]; by left|].
  destruct (ownership_schema_tx _) as [r y] eqn:E. intros [= _ _ <-]. set (x := mkTxn (S n) d d) in E.
  unfold ownership_schema_tx in E.
  destruct (reading_part _ _ d x r y (quiet_reads _) (reads_same _) eq_refl eq_refl E)
    as [->|(row & z1 & Hw1 & Hc1 & E1)]; [by left|]. clear E.
  destruct (reading_part _ _ d z1 r y (quiet_meta_value row) (meta_value_same row) Hw1 Hc1 E1)
    as [->|(raw & z2 & Hw2 & Hc2 & E)]; [by left|]. clear E1.
  assert (Hthrow : forall e, (throw e : Tx unit) z2 = (r, y) -> x_committed y = d) by (by intros e [= _ <-]).
  destruct (atoi raw) as [version|]; [|left; by eapply Hthrow].
  destruct (version <? 0)%Z; [left; by eapply Hthrow|]. destruct (1 <? version)%Z; [left; by eapply Hthrow|].
  destruct (version =? 1)%Z; [left; by injection E as _ <-|]. change (schema_writes z2 = (r, y)) in E.
  assert (Ht : transactional schema_writes) by (unfold schema_writes, schema_statement; transactional).
  specialize (Ht z2). rewrite E in Ht. destruct r as [u|e]; [|left; congruence]. right. exists u, z2, y. by rewrite Ht.
Qed.
Lemma schema_static d a n k d' : immediate ownership_schema_tx (n, d) = (a, (k, d')) -> d_index d' = d_index d.
Proof. intros [->|[u Hg]]%schema_cases; [done|]. eapply keeps_gives; [|exact Hg]. unfold schema_writes, schema_statement. static. Qed.
Lemma schema_modest d a n k d' : immediate ownership_schema_tx (n, d) = (a, (k, d')) -> modest d d'.
Proof.
  intros [->|[u Hg]]%schema_cases; [apply modest_refl|]. unfold schema_writes in Hg.
  do 4 (apply gives_bind in Hg as (? & ? & (? & ? & [[= <- _] _]%gives_exec & [_ ->]%gives_ret)%gives_bind & Hg)).
  apply gives_bind in Hg as (m & w & Hg & ->%gives_commit). by eapply modest_upsert.
Qed.
Lemma schema_advance d a n k d' : good d -> immediate ownership_schema_tx (n, d) = (a, (k, d')) -> advance d d'.
Proof.
  intros Hg E. apply advance_static; [done| |by eapply schema_static].
  eapply modest_invariant; [by eapply schema_modest|apply Hg].
Qed.
Lemma follows_schema : follows ensureIndexJobOwnershipSchema.
Proof. apply follows_access. intros [n d] Hg. destruct (immediate _ _) as [a [k d']] eqn:E. by eapply schema_advance. Qed.
End operations.
#[export] Hint Resolve quiet_tx_now quiet_tx_exists quiet_new_id quiet_load_job quiet_load_active quiet_owner_by_job quiet_owner
  quiet_release quiet_runtime quiet_attempt quiet_complete quiet_cancel_generation quiet_reserve quiet_upserts
  quiet_write_metadata quiet_stage_activate quiet_publish_graph quiet_close transactional_rollback : quiet.
Create HintDb follows discriminated.
#[export] Hint Resolve follows_ret follows_require follows_asks follows_fetch follows_schema : follows.
Ltac follows :=
  repeat match goal with
  | |- forall _, _ => intros ?
  | |- follows (_ ≫= _) => apply follows_bind
  | |- follows (catch _) => apply follows_catch
  | |- follows (Done _) => exact I
  | |- follows (if ?b then _ else _) => destruct b
  | |- follows (match ?x with _ => _ end) => destruct x
  | |- follows (let _ := _ in _) => cbv zeta
  | |- follows _ => solve [auto with follows]
  | |- follows ?m => let h := head_of m in progress unfold h
  end.

Section accesses.
Context `{UnicodeTables} `{NFC} `{UrlParser} `{SHA256} `{Connection} `{Host}.

Lemma follows_column : follows ensureColumn.
Proof.
  unfold ensureColumn. apply follows_bind; [|follows]. apply follows_statement. intros d d' n Hg _ [= <- _]. by apply advance_refl.
Qed.
Hint Resolve follows_column : follows.

(** ** What owners do *)
Lemma follows_owner_statement id f c g :
  (forall r, row_wf r = true -> c r = true -> row_step r (g r) /\ active (g r) = active r) ->
  follows (statement (by_owner id f c g)).
Proof. intros Hm. apply follows_statement. intros d d' n Hg Hc Hf. by eapply owner_statement. Qed.
Lemma follows_running id pid phase f now : follows (transaction (running_tx id pid phase f now)).
Proof. apply follows_transaction; [unfold running_tx; transactional|]. intros d u d' Hg. by apply running_advance. Qed.
Lemma follows_succeeded id files symbols docs f :
  follows (transaction (_ ← completeIndexJobTx id files symbols docs f false; commit)).
Proof.
  apply follows_transaction; [transactional|]. intros d u d' Hg (v & w & Hrun & ->%gives_commit)%gives_bind. by eapply complete_advance.
Qed.
Lemma follows_failed id message f now : follows (transaction (failed_tx id message f now)).
Proof. apply follows_transaction; [unfold failed_tx; transactional|]. intros d u d' Hg. by apply failed_advance. Qed.
Lemma follows_canceled id f now : follows (transaction (canceled_tx id f now)).
Proof. apply follows_transaction; [unfold canceled_tx; transactional|]. intros d u d' Hg. by apply canceled_advance. Qed.
Lemma follows_skip id f message : follows (statement (update_index_generations
  (fun d g => generation_is id ["building"] g && held id f d) (set_generation "skipped" (Some message)))).
Proof. apply follows_statement. intros d d' n Hg Hc Hf. by eapply skip_statement. Qed.
Lemma follows_phase id f phase now : follows (statement (by_owner id f may_publish (phase_job phase now))).
Proof. apply follows_owner_statement. intros r. apply move_phase. Qed.
Lemma follows_progress id f p now :
  follows (statement (by_owner id f (status_in false [IndexJobRunning; IndexJobPublishing]) (on_job (progress_job p now)))).
Proof. apply follows_owner_statement. intros r. apply move_progress. Qed.
Lemma follows_terminate id f now :
  follows (statement (by_owner id f (status_in true [IndexJobCancelRequested]) (on_job (terminate_job now)))).
Proof. apply follows_owner_statement. intros r. apply move_terminate. Qed.
Lemma transactional_request id now : transactional (request_cancel_tx id now).
Proof. unfold request_cancel_tx. transactional. Qed.
Lemma follows_request id now : follows (transaction (request_cancel_tx id now)).
Proof.
  apply follows_access. intros [n d] Hg. destruct (immediate _ _) as [[[]|e] [k d']] eqn:E.
  - by eapply request_cancel_advance.
  - apply immediate_err in E as ->; [by apply advance_refl|apply transactional_request].
Qed.
Lemma follows_create job : j_Status job = IndexJobQueued -> j_RequestedCancel job = false -> follows (transaction (create_tx job)).
Proof. intros Hq Hc. apply follows_transaction; [unfold create_tx; transactional|]. intros d u d' Hg. by apply create_advance. Qed.
Lemma transactional_publish id generationID mode files symbols docs f graph body : (forall g, catalog_body (body g)) ->
  transactional (publish_tx id generationID mode files symbols docs f graph body).
Proof. intros Hbody. unfold publish_tx. transactional. apply Hbody. Qed.
Lemma follows_publish id generationID mode files symbols docs f graph body : (forall g, catalog_body (body g)) ->
  follows (transaction (publish_tx id generationID mode files symbols docs f graph body)).
Proof.
  intros Hbody. apply follows_transaction; [by apply transactional_publish|].
  intros d u d' Hg Hrun. by eapply publication_run in Hrun as (_ & _ & ?).
Qed.
Hint Resolve follows_running follows_succeeded follows_failed follows_canceled follows_skip follows_phase follows_progress
  follows_terminate follows_request : follows.

(** ** All operations *)
Lemma follows_attach job : follows (attachIndexJobOwner job).
Proof. follows. Qed.
Lemma follows_mark_failed id message f : follows (MarkIndexJobFailed id message f).
Proof. follows. Qed.
Lemma follows_stale job : follows (staleIndexJobForRead job).
Proof. unfold staleIndexJobForRead. cbv zeta. follows. Qed.
Hint Resolve follows_attach follows_mark_failed follows_stale : follows.
Lemma follows_reconcile job : follows (reconcileIndexJobRead job).
Proof. follows. Qed.
Lemma follows_create_job name root mode entrypoint clean goOffline noEmbeddings :
  follows (createIndexJob name root mode entrypoint clean goOffline noEmbeddings).
Proof.
  unfold createIndexJob. do 5 (apply follows_bind; [by follows|intros ?]). apply follows_then. intros n.
  apply follows_bind; [by apply follows_create|follows].
Qed.
Hint Resolve follows_reconcile follows_create_job : follows.
Lemma follows_first_active l : follows (first_active l).
Proof. induction l; cbn [first_active]; follows. Qed.
Hint Resolve follows_first_active : follows.
Lemma follows_publish_owned id generationID mode files symbols docs f graph body : (forall g, catalog_body (body g)) ->
  follows (publishOwned id generationID mode files symbols docs f graph body).
Proof. intros Hbody. unfold publishOwned. follows. by apply follows_publish. Qed.
Lemma follows_graph o : follows (access (run o)).
Proof.
  apply follows_access. intros [n d] Hg. destruct (run o (n, d)) as [r [k d']] eqn:E. apply advance_static; [done|..].
  - eapply run_invariant; [exact E|apply Hg].
  - by eapply graph_static.
Qed.
Lemma operation_follows o : well_behaved o -> follows (run_job_operation o).
Proof.
  destruct o; cbn [run_job_operation well_behaved]; intros Hw; try (by follows).
  - by apply follows_publish_owned.
  - apply follows_aside, aside_bind; [by apply aside_body|intros _; apply aside_publish_generation].
  - apply follows_aside, aside_bind; [by apply aside_body|intros _; apply aside_incremental].
  - apply follows_bind; [by follows|intros _]. apply follows_aside. unfold publishIncrementalDocsTx.
    apply aside_bind; [apply aside_expect|intros _]. apply aside_bind; [by apply aside_body|intros changed].
    destruct changed; [|apply aside_ret]. apply aside_bind; [apply aside_docs_pointer|intros _; apply aside_runtime].
  - destruct Hw as [Hf Hd]. apply follows_bind; [by follows|intros _]. apply follows_aside.
    apply aside_bind; [by apply aside_body|intros _]. apply aside_bind; [by apply aside_body|intros changed].
    apply aside_bind; [apply aside_incremental|intros _]. destruct changed; [apply aside_docs_pointer|apply aside_ret].
  - apply follows_graph.
Qed.

(** * Operations among others *)

(** What other processes do between two accesses is a sequence of advances. *)
Definition rely (oth : Others) : Prop := forall n d, good d -> rtc advance d (oth n d).
Definition alone : Others := fun _ d => d.
Lemma rely_alone : rely alone.
Proof. by intros n d _. Qed.
Lemma rtc_good d d' : rtc advance d d' -> good d -> good d'.
Proof. induction 1; [done|]. intros Hg. apply IHrtc. by eapply advance_good. Qed.
Lemma execute_follows (oth : Others) {A} (m : Db A) : rely oth -> follows m -> forall n d r k d', good d ->
  execute m n d = (r, (k, d')) -> rtc advance d d' /\ good d'.
Proof.
  intros Hr. induction m as [q|X f c IH]; cbn [follows execute]; intros Hm n d r k d' Hg; [by intros [= _ _ <-]|].
  destruct Hm as [Hf Hk]. pose proof (Hr n d Hg) as H1'. assert (Hg1 : good (others n d)) by by eapply rtc_good.
  specialize (Hf (n, others n d) Hg1). specialize (Hk (n, others n d)).
  destruct (f (n, others n d)) as [x [m e]] eqn:E. cbn in Hf, Hk. intros Hrun.
  destruct (IH x Hk m e r k d') as [Ha Hg']; [by eapply advance_good|done|]. split; [|done].
  transitivity (others n d); [done|]. by eapply rtc_l.
Qed.
Lemma execute_bind (oth : Others) {A B} (m : Db A) (f : A -> Db B) n d :
  execute (m ≫= f) n d =
  match execute m n d with (Ok a, (k, d')) => execute (f a) k d' | (Err e, s) => (Err e, s) end.
Proof.
  revert n d. induction m as [[a|e]|X g c IH]; intros n d; [done|done|]. cbn [execute mbind Db_bind].
  destruct (g _) as [x [k d1]]. apply IH.
Qed.
Lemma execute_catch (oth : Others) {A} (m : Db A) n d :
  execute (catch m) n d = let '(r, s) := execute m n d in (Ok r, s).
Proof.
  revert n d. induction m as [r|X g c IH]; intros n d; [done|]. cbn [execute catch]. destruct (g _) as [x [k d1]]. apply IH.
Qed.
(** A successful run, taken apart. *)
Lemma execute_bind_ok (oth : Others) {A B} (m : Db A) (f : A -> Db B) n d b k d' :
  execute (m ≫= f) n d = (Ok b, (k, d')) ->
  exists a k1 d1, execute m n d = (Ok a, (k1, d1)) /\ execute (f a) k1 d1 = (Ok b, (k, d')).
Proof. rewrite execute_bind. destruct (execute m n d) as [[a|e] [k1 d1]]; [|done]. eauto. Qed.
End accesses.
#[export] Hint Resolve follows_column follows_running
  follows_succeeded follows_failed follows_canceled follows_skip follows_phase follows_progress follows_terminate
  follows_request follows_attach follows_mark_failed follows_stale follows_reconcile follows_create_job follows_first_active : follows.
