(* ===== verification/IndexJobsSystem.v ===== *)
(** Many processes on one data base: each runs operations on index jobs and on graph
    generations, access by access, and may die between two accesses.  The system keeps one
    active job per workspace, refines the life cycle of jobs, and revokes fences for good. *)
From S2P Require Import Prelude GoStrings GoStringFacts GoSort GoNum GoTime Graph GraphFacts GraphStore GraphStoreFacts IndexTables GraphValidate GraphValidateFacts GraphPublish GraphPublishFacts GraphActivation IndexJobs IndexPublish IndexJobsFacts IndexJobsSteps IndexJobsRuns.

Local Open Scope go_scope.

(** * The specification: the life cycle of jobs *)

(** A job as its users see it. *)
Record job_view := mkView { v_id : gostring; v_root : gostring; v_status : gostring }.
Inductive life : list job_view -> list job_view -> Prop :=
| life_begins id root l : id ∉ map v_id l ->
    (forall v, v ∈ l -> v_root v = root -> isIndexJobActive (v_status v) = false) ->
    life l (l ++ [mkView id root IndexJobQueued])
| life_goes_on id root status status' l1 l2 : status' ∈ next_statuses status ->
    life (l1 ++ mkView id root status :: l2) (l1 ++ mkView id root status' :: l2).
Definition view (d : database) : list job_view :=
  map (fun r => mkView (job_id r) (job_root r) (job_status r)) (jobs d).

Section specification.
Context `{UnicodeTables} `{NFC} `{UrlParser} `{SHA256}.

Lemma life_moves l1 l l' : Forall2 (fun v v' => v' = v \/ v_id v' = v_id v /\ v_root v' = v_root v /\
    v_status v' ∈ next_statuses (v_status v)) l l' -> rtc life (l1 ++ l) (l1 ++ l').
Proof.
  intros Hall. revert l1. induction Hall as [|v v' l l' Hv Hall IH]; intros l1; [done|].
  transitivity (l1 ++ v' :: l).
  - destruct Hv as [->|(Hid & Hroot & Hs)]; [done|]. apply rtc_once. destruct v, v'. cbn in *. subst. by constructor.
  - specialize (IH (l1 ++ [v'])). by rewrite <- !app_assoc in IH.
Qed.
(** An advance of the data base is a sequence of steps of the specification. *)
Lemma advance_life d d' : good d -> advance d d' -> rtc life (view d) (view d').
Proof.
  intros [_ Ho] [_ [g h [Hj _ _ Hrow _ _]|job o [Hj _ _ Hk [Hq _] _ Hfree]]]; unfold view, jobs in *; rewrite Hj.
  - rewrite map_map. refine (life_moves [] (map _ _) (map _ _) _).
    apply Forall2_fmap, Forall_Forall2_diag, Forall_forall. intros r Hr.
    pose proof (Hrow r Hr) as Hs. destruct (row_step_id _ _ Hs) as [Hid Hroot].
    destruct Hs as [Heq|(_ & Hs & _)]; [left; by rewrite Heq|by right].
  - rewrite map_app. apply rtc_once. cbn [map].
    change (job_status (mkJobRow job false)) with (j_Status job). rewrite Hq. apply life_begins.
    + apply keys_elim in Hk as (Hnd & _). rewrite Hj, map_app in Hnd. apply NoDup_app in Hnd as (_ & Hdis & _).
      rewrite map_map. intros Hin. apply (Hdis _ Hin). by left.
    + intros v (r & -> & Hr)%list_elem_of_fmap. by apply Hfree.
Qed.
Lemma advances_life d d' : good d -> rtc advance d d' -> rtc life (view d) (view d').
Proof.
  intros Hg Ha. induction Ha as [d|d d1 d' Ha _ IH]; [done|]. transitivity (view d1); [by apply advance_life|].
  apply IH. by eapply advance_good.
Qed.
(** A job that has ended stays as it is. *)
Lemma life_ended l l' v : rtc life l l' -> v ∈ l -> isIndexJobActive (v_status v) = false -> v ∈ l'.
Proof.
  induction 1 as [l|l l1 l' Hs _ IH]; intros Hv Hend; [done|]. apply IH; [|done].
  destruct Hs as [id root l _ _|id root status status' l1 l2 Hs]; [set_solver|].
  apply elem_of_app in Hv as [Hv|[->|Hv]%elem_of_cons]; [set_solver| |set_solver].
  cbn in Hend. apply next_active in Hs. congruence.
Qed.
End specification.

(** * The system *)
Section system.
Context `{UnicodeTables} `{NFC} `{UrlParser} `{SHA256} `{Connection} `{Host}.

Record system := mkSystem { s_calls : nat; s_db : database; s_running : list (Db unit) }.
Inductive system_step : system -> system -> Prop :=
| process_starts n d ps o : well_behaved o -> system_step (mkSystem n d ps) (mkSystem n d (ps ++ [run_job_operation o]))
| process_proceeds n d ps i p p' n' d' : ps !! i = Some p -> proceed p (n, d) = Some (p', (n', d')) ->
    system_step (mkSystem n d ps) (mkSystem n' d' (<[i := p']> ps))
| process_ends n d ps i : system_step (mkSystem n d ps) (mkSystem n d (delete i ps))
| time_passes n d ps : system_step (mkSystem n d ps) (mkSystem (S n) d ps).
(** No jobs yet, and no process at work. *)
Definition fresh_system (s : system) : Prop :=
  fresh_database (s_db s) /\ d_index (s_db s) = no_jobs /\ s_running s = [].
Record system_good (s : system) : Prop := {
  sg_db : good (s_db s);
  sg_running : Forall follows (s_running s) }.

Lemma fresh_good s : fresh_system s -> system_good s.
Proof.
  intros ([Hg Hc] & Hi & Hr). constructor; [|by rewrite Hr]. constructor.
  - constructor; [done| |]; intros b; rewrite Hg; set_solver.
  - rewrite Hi. by constructor; try (intros ? ?%elem_of_nil).
Qed.
Lemma proceed_follows (p p' : Db unit) n d n' d' : good d -> follows p -> proceed p (n, d) = Some (p', (n', d')) ->
  advance d d' /\ follows p'.
Proof.
  intros Hg Hp. destruct p as [r|X f k]; [done|]. cbn [proceed]. destruct Hp as [Hf Hk]. specialize (Hf (n, d) Hg). specialize (Hk (n, d)).
  destruct (f (n, d)) as [x [m e]]. by intros [= <- <- <-].
Qed.
Lemma system_step_good s s' : system_step s s' -> system_good s -> system_good s' /\ advance (s_db s) (s_db s').
Proof.
  intros [n d ps o Hw|n d ps i p p' n' d' Hi Hp|n d ps i|n d ps] [Hg Hr]; cbn in *.
  - split; [|by apply advance_refl]. constructor; [done|]. cbn. apply Forall_app. split; [done|].
    apply Forall_singleton. by apply operation_follows.
  - apply (proceed_follows p p' n d n' d' Hg) in Hp as [Ha Hf]; [|by eapply Forall_lookup_1].
    split; [|done]. constructor; [by eapply advance_good|]. cbn. by apply Forall_insert.
  - split; [|by apply advance_refl]. constructor; [done|]. cbn. by apply Forall_delete.
  - split; [by constructor|by apply advance_refl].
Qed.
Lemma system_run_good s s' : rtc system_step s s' -> system_good s -> system_good s' /\ rtc advance (s_db s) (s_db s').
Proof.
  induction 1 as [s|s s1 s' Hs Hrun IH]; intros Hg; [done|]. apply system_step_good in Hs as [Hg1 Ha]; [|done].
  destruct (IH Hg1) as [Hg' Ha']. split; [done|]. by eapply rtc_l.
Qed.
(** A process that is left alone runs its operation to the end. *)
Lemma execute_steps (p : Db unit) n d r k d' : @execute alone _ p n d = (r, (k, d')) ->
  rtc system_step (mkSystem n d [p]) (mkSystem k d' [Done r]).
Proof.
  revert n d. induction p as [q|X f c IH]; intros n d; cbn [execute]; [by intros [= -> -> ->]|].
  change (others n d) with d. destruct (f (n, d)) as [x [m e]] eqn:E. intros Hrun. eapply rtc_l; [|by apply IH].
  apply (process_proceeds n d [Access f c] 0 (Access f c)); [done|]. cbn [proceed]. by rewrite E.
Qed.
Lemma operation_reaches o n d r k d' : well_behaved o -> @execute alone _ (run_job_operation o) n d = (r, (k, d')) ->
  rtc system_step (mkSystem n d []) (mkSystem k d' []).
Proof.
  intros Hw Hrun. eapply rtc_l; [by apply (process_starts n d [] o)|]. eapply rtc_r; [by apply execute_steps|].
  exact (process_ends k d' [Done r] 0).
Qed.
End system.
