(* ===== verification/IndexJobsFences.v ===== *)
(** Fences: a pair of owner token and fencing token that no longer holds a job never holds
    it again, and whoever comes with it changes nothing. *)
From S2P Require Import Prelude GoStrings GoStringFacts GoSort GoNum GoTime Graph GraphFacts GraphStore GraphStoreFacts IndexTables GraphValidate GraphValidateFacts GraphPublish GraphPublishFacts GraphActivation IndexJobs IndexPublish IndexJobsFacts IndexJobsSteps IndexJobsRuns IndexJobsSystem.

Local Open Scope go_scope.

Section fences.
Context `{UnicodeTables} `{NFC} `{UrlParser} `{SHA256} `{Connection} `{Host}.

Definition present (id : gostring) (d : database) : Prop := exists r, r ∈ jobs d /\ job_id r = id.
(** The job is there, and the fence does not hold it. *)
Record unheld (id : gostring) (f : IndexJobFence) (d : database) : Prop := {
  un_present : present id d;
  un_held : held id f d = false }.
Lemma held_intro id f o d : o ∈ ownership d -> owned_by id f o = true -> held id f d = true.
Proof. intros Ho Hown. apply existsb_exists. exists o. split; [by apply list_elem_of_In|done]. Qed.
Lemma owned_by_intro id f o : o_jobID o = id -> o_ownerToken o = f_OwnerToken f -> o_fencingToken o = f_FencingToken f ->
  unreleased o = true -> owned_by id f o = true.
Proof. intros E1 E2 E3 E4. unfold owned_by. by rewrite E1, E2, E3, E4, !streq_refl, Z.eqb_refl. Qed.
Lemma advance_present id d d' : advance d d' -> present id d -> present id d'.
Proof.
  intros [_ [g h [Hj _ _ Hrow _ _]|job o [Hj _ _ _ _ _ _]]] (r & Hr & Hid); unfold present, jobs in *; rewrite Hj.
  - exists (g r). split; [by apply list_elem_of_fmap; exists r|]. by destruct (row_step_id _ _ (Hrow r Hr)) as [-> _].
  - exists r. split; [set_solver|done].
Qed.
Lemma advance_unheld id f d d' : advance d d' -> unheld id f d -> unheld id f d'.
Proof.
  intros Ha [Hp Hh]. constructor; [by eapply advance_present|]. apply not_true_iff_false. intros (o' & Ho' & Hown)%held_elim.
  apply not_true_iff_false in Hh. destruct Ha as [_ [g h [_ Hw _ _ Hos _]|job o [Hj Hw _ Hk _ (_ & Hoj & _) _]]].
  - unfold ownership in Ho'. rewrite Hw in Ho'. apply list_elem_of_fmap in Ho' as (o & -> & Ho). destruct (Hos o Ho) as [_ H1' H2' H3' H4'].
    apply owned_by_elim in Hown as (E1 & E2 & E3 & E4). apply Hh. eapply held_intro; [exact Ho|].
    apply owned_by_intro; [congruence..|auto].
  - assert (Ho : o' = o \/ o' ∈ ownership d).
    { unfold ownership in *. destruct Hw as [Hw|[Hw _]]; rewrite Hw in Ho'; [|set_solver].
      apply list_elem_of_fmap in Ho' as (p & -> & Hin). destruct (in_root _ p); auto. }
    destruct Ho as [->|Ho]; [|by apply Hh; eapply held_intro].
    apply owned_by_elim in Hown as (E1 & _). destruct Hp as (r & Hr & Hid).
    apply keys_elim in Hk as (Hnd & _). rewrite Hj, map_app in Hnd. apply NoDup_app in Hnd as (_ & Hdis & _).
    apply (Hdis (job_id r)); [by apply list_elem_of_fmap; exists r|]. cbn. unfold job_id at 2. cbn. set_solver by congruence.
Qed.
Lemma advances_unheld id f d d' : rtc advance d d' -> unheld id f d -> unheld id f d'.
Proof. induction 1; [done|]. intros Hu. apply IHrtc. by eapply advance_unheld. Qed.

(** ** Operations without power *)

(** [m] leaves the index tables alone. *)
Fixpoint idle {A} (m : Db A) : Prop :=
  match m with
  | Done _ => True
  | Access g k => forall s, d_index (snd (snd (g s))) = d_index (snd s) /\ idle (k (fst (g s)))
  end.
(** So does [m] as long as the fence does not hold the job, and it fails. *)
Fixpoint powerless (id : gostring) (f : IndexJobFence) {A} (m : Db A) : Prop :=
  match m with
  | Done r => is_ok r = false
  | Access g k => forall s, good (snd s) -> held id f (snd s) = false ->
      d_index (snd (snd (g s))) = d_index (snd s) /\ powerless id f (k (fst (g s)))
  end.
Lemma powerless_bind id f {A B} (m : Db A) (g : A -> Db B) : idle m -> (forall a, powerless id f (g a)) -> powerless id f (m ≫= g).
Proof.
  intros Hm Hg. induction m as [[a|e]|X h k IH]; [apply Hg|done|]. intros s _ _. destruct (Hm s) as [Hi Hk].
  split; [done|]. by apply IH.
Qed.
Lemma idle_schema : idle ensureIndexJobOwnershipSchema.
Proof.
  intros [n d]. split; [|done]. destruct (immediate _ _) as [r [k d']] eqn:E. by eapply schema_static.
Qed.
Lemma idle_asks {A} (g : nat -> A) : idle (db_asks g).
Proof. by intros s. Qed.
Lemma powerless_resolve id f {A} (g : IndexJobFence -> Db A) : powerless id f (g f) -> powerless id f (resolve f ≫= g).
Proof.
  intros Hg. unfold resolve, resolveIndexJobFence. by destruct (_ || _).
Qed.
(** An update of the owner affects no row. *)
Lemma by_owner_unheld id f c g d : held id f d = false -> by_owner id f c g d = (d, 0%Z).
Proof.
  intros Hh. unfold by_owner, update_jobs, update_where. rewrite Hh.
  assert (Hm : matching (fun r => has_job_id id r && c r && false) (jobs d) = []) by (apply matching_none; intros r; apply andb_false_r).
  by rewrite map_unmatched, Hm, with_same_jobs.
Qed.
Lemma powerless_transaction id f {A} (body : Tx A) : transactional body ->
  (forall w a w', held id f w = false -> ~ gives body w a w') -> powerless id f (transaction body).
Proof.
  intros Ht Hb [n d] _ Hh. cbn in Hh. destruct (immediate body (n, d)) as [[a|e] [k d']] eqn:E.
  - apply immediate_ok in E; [|done]. by apply Hb in E.
  - by rewrite (immediate_err body n d e k d' Ht E).
Qed.
Lemma powerless_statement id f e u : (forall d, held id f d = false -> u d = (d, 0%Z)) ->
  powerless id f (n ← statement u; require (n =? 1)%Z e).
Proof.
  intros Hu [n d] _ Hh. cbn in Hh. unfold single. destruct (sql_fails n); [done|]. rewrite (Hu d Hh).
  by destruct (constraints d).
Qed.
Lemma owner_first id f e c g {A} (m : unit -> Tx A) w a w' : held id f w = false -> gives (exec_one e (by_owner id f c g) ≫= m) w a w' -> False.
Proof. intros Hh (u & v & [Hf _]%gives_exec_one & _)%gives_bind. by rewrite by_owner_unheld in Hf. Qed.
Lemma owner_second id f c g {A} (m : gostring -> unit -> Tx A) w a w' : held id f w = false ->
  gives (now ← tx_now; _ ← exec_one stale (by_owner id f c (g now)); m now tt) w a w' -> False.
Proof. intros Hh (now & v & ->%gives_tx_now & Hg)%gives_bind. by eapply (owner_first id f _ _ _ (fun _ => m now tt)). Qed.

(** The operations that need the fence [f] of the job [id]. *)
Inductive needs_fence (id : gostring) (f : IndexJobFence) : job_operation -> Prop :=
| nf_running pid phase : needs_fence id f (JobRunning id pid phase f)
| nf_phase status phase : needs_fence id f (JobPhase id status phase f)
| nf_progress p : needs_fence id f (JobProgress id p f)
| nf_succeeded files symbols docs : needs_fence id f (JobSucceeded id files symbols docs f)
| nf_skipped message : needs_fence id f (JobSkipped id message f)
| nf_failed message : needs_fence id f (JobFailed id message f)
| nf_canceled : needs_fence id f (JobCanceled id f)
| nf_publish generationID mode files symbols docs graph body :
    needs_fence id f (JobPublish id generationID mode files symbols docs f graph body).
Lemma skip_unheld id f message d : held id f d = false ->
  update_index_generations (fun d g => generation_is id ["building"] g && held id f d) (set_generation "skipped" (Some message)) d = (d, 0%Z).
Proof.
  intros Hh. unfold update_index_generations, update_where. rewrite Hh.
  assert (Hm : matching (fun g => generation_is id ["building"] g && false) (index_generations d) = [])
    by (apply matching_none; intros g; apply andb_false_r).
  rewrite map_unmatched, Hm by done. by destruct d as [? ? []].
Qed.
Lemma operation_powerless id f o : well_behaved o -> needs_fence id f o -> powerless id f (run_job_operation o).
Proof.
  intros Hw Ho. destruct Ho; cbn [run_job_operation].
  - apply powerless_bind; [apply idle_schema|intros _]. apply powerless_resolve, powerless_bind; [apply idle_asks|intros now].
    apply powerless_transaction; [unfold running_tx; transactional|]. intros w a w' Hh Hg. exact (owner_first id f _ _ _ _ w a w' Hh Hg).
  - apply powerless_bind; [by unfold require; destruct (streq _ _)|intros _].
    apply powerless_bind; [apply idle_schema|intros _]. apply powerless_resolve, powerless_bind; [apply idle_asks|intros now].
    apply powerless_statement. intros d. apply by_owner_unheld.
  - apply powerless_bind; [apply idle_schema|intros _]. apply powerless_resolve, powerless_bind; [apply idle_asks|intros now].
    apply powerless_statement. intros d. apply by_owner_unheld.
  - apply powerless_bind; [apply idle_schema|intros _]. apply powerless_resolve.
    apply powerless_transaction; [transactional|]. intros w a w' Hh Hg. apply gives_bind in Hg as (u & v & Hg & _).
    exact (owner_second id f _ _ (fun now _ => releaseIndexJobOwnershipTx id f now) w u v Hh Hg).
  - apply powerless_bind; [apply idle_schema|intros _]. apply powerless_resolve.
    apply powerless_statement. intros d. apply skip_unheld.
  - apply powerless_bind; [apply idle_schema|intros _]. apply powerless_resolve, powerless_bind; [apply idle_asks|intros now].
    apply powerless_transaction; [unfold failed_tx; transactional|]. intros w a w' Hh Hg. exact (owner_first id f _ _ _ _ w a w' Hh Hg).
  - apply powerless_bind; [apply idle_schema|intros _]. apply powerless_resolve, powerless_bind; [apply idle_asks|intros now].
    apply powerless_transaction; [unfold canceled_tx; transactional|]. intros w a w' Hh Hg. exact (owner_first id f _ _ _ _ w a w' Hh Hg).
  - apply powerless_resolve. apply powerless_bind; [by unfold require; destruct (negb _)|intros _].
    apply powerless_bind; [apply idle_schema|intros _].
    apply powerless_transaction; [by apply transactional_publish|]. intros w a w' Hh Hg.
    apply gives_bind in Hg as (now & v & ->%gives_tx_now & Hg). exact (owner_first id f _ _ _ _ w a w' Hh Hg).
Qed.
Lemma execute_powerless (oth : Others) id f {A} (m : Db A) : rely oth -> follows m -> powerless id f m ->
  forall n d r k d', good d -> unheld id f d -> execute m n d = (r, (k, d')) ->
  is_ok r = false /\ (oth = alone -> d_index d' = d_index d).
Proof.
  intros Hr. induction m as [q|X g c IH]; cbn [follows powerless execute]; intros Hm Hp n d r k d' Hg Hu.
  - by intros [= <- _ <-].
  - destruct Hm as [Hf Hk]. assert (Hg1 : good (others n d)) by (eapply rtc_good; [by apply Hr|done]).
    assert (Hu1 : unheld id f (others n d)) by (eapply advances_unheld; [by apply Hr|done]).
    specialize (Hf (n, others n d) Hg1). specialize (Hk (n, others n d)).
    destruct (Hp (n, others n d) Hg1 (un_held _ _ _ Hu1)) as [Hi Hp'].
    destruct (g (n, others n d)) as [x [m e]] eqn:E. cbn in Hf, Hk, Hi, Hp'. intros Hrun.
    destruct (IH x Hk Hp' m e r k d') as [He Hd]; [by eapply advance_good|by eapply advance_unheld|done|].
    split; [done|]. intros ->. rewrite (Hd eq_refl). exact Hi.
Qed.

End fences.
