(* ===== verification/IndexJobsCancel.v ===== *)
(** Reads and cancellation of index jobs among other processes: assertions that no advance
    breaks, triples over them, and what a returned cancellation request has settled. *)
From S2P Require Import Prelude GoStrings GoStringFacts GoSort GoNum GoTime Graph GraphFacts GraphStore GraphStoreFacts IndexTables GraphValidate GraphValidateFacts GraphPublish GraphPublishFacts GraphActivation IndexJobs IndexPublish IndexJobsFacts IndexJobsSteps IndexJobsRuns IndexJobsSystem IndexJobsFences.

Local Open Scope go_scope.

Section triples.
Context `{UnicodeTables} `{NFC} `{UrlParser} `{SHA256} `{Connection} `{Host}.

(** * Triples *)
Definition stable (P : database -> Prop) : Prop := forall d d', good d -> advance d d' -> P d -> P d'.
(** [m], started with [P] among others who advance the data base, ends with [Q] if it succeeds. *)
Definition triple {A} (P : database -> Prop) (m : Db A) (Q : A -> database -> Prop) : Prop :=
  forall (oth : Others) n d a k d', rely oth -> good d -> P d -> execute m n d = (Ok a, (k, d')) -> Q a d'.
Lemma stable_rtc P d d' : stable P -> good d -> rtc advance d d' -> P d -> P d'.
Proof. intros Hs Hg Ha. induction Ha; [done|]. intros HP. apply IHHa; [by eapply advance_good|by eapply Hs]. Qed.
Lemma run_triple_ret {A} (a : A) (P : database -> Prop) (Q : A -> database -> Prop) : (forall d, P d -> Q a d) -> triple P (mret a) Q.
Proof. intros Hq oth n d b k d' _ _ HP [= <- _ <-]. by apply Hq. Qed.
Lemma triple_stop {A} e P (Q : A -> database -> Prop) : triple P (stop e) Q.
Proof. intros oth n d a k d' _ _ _ [=]. Qed.
Lemma run_triple_bind {A B} P (m : Db A) (f : A -> Db B) Q R : follows m -> triple P m Q -> (forall a, triple (Q a) (f a) R) ->
  triple P (m ≫= f) R.
Proof.
  intros Hm Hq Hr oth n d b k d' Hrel Hg HP Hex. apply execute_bind_ok in Hex as (a & k1 & d1 & E1 & E2).
  eapply Hr; [done| | |exact E2]; [|by eapply Hq]. by eapply execute_follows.
Qed.
Lemma run_triple_mono {A} (P P' : database -> Prop) (m : Db A) (Q Q' : A -> database -> Prop) : triple P' m Q' ->
  (forall d, P d -> P' d) -> (forall a d, Q' a d -> Q a d) -> triple P m Q.
Proof. intros Ht HP HQ oth n d a k d' Hrel Hg Hp Hex. eapply HQ, Ht; eauto. Qed.
Lemma triple_follows {A} P (m : Db A) : stable P -> follows m -> triple P m (fun _ => P).
Proof.
  intros Hs Hm oth n d a k d' Hrel Hg HP Hex. destruct (execute_follows oth m Hrel Hm n d _ _ _ Hg Hex) as [Ha _].
  by eapply stable_rtc.
Qed.
Lemma triple_access {A} P (f : nat * database -> result store_error A * (nat * database)) Q : stable P ->
  (forall n d a k d', good d -> P d -> f (n, d) = (Ok a, (k, d')) -> Q a d') -> triple P (access f) Q.
Proof.
  intros Hs Hf oth n d a k d' Hrel Hg HP. cbn [execute access]. destruct (f (n, others n d)) as [r [m e]] eqn:E.
  intros [= -> <- <-]. eapply Hf; [..|exact E]; [by eapply rtc_good; [apply Hrel|]|]. eapply stable_rtc; [done|exact Hg|by apply Hrel|done].
Qed.
Lemma triple_fetch {A} P (rows : database -> list A) Q : stable P -> (forall d, good d -> P d -> Q (rows d) d) ->
  triple P (fetch rows) Q.
Proof.
  intros Hs Hq. apply triple_access; [done|]. intros n d a k d' Hg HP. destruct (from_Q _ _) as [r m] eqn:E.
  intros [= -> <- <-]. rewrite (read_query_ok _ _ _ _ E). by apply Hq.
Qed.
Lemma stable_and P Q : stable P -> stable Q -> stable (fun d => P d /\ Q d).
Proof. intros Hp Hq d d' Hg Ha [HP HQ]. split; [by eapply Hp|by eapply Hq]. Qed.
Lemma stable_const (P : Prop) : stable (fun _ => P).
Proof. by intros d d' _ _. Qed.
Lemma stable_true : stable (fun _ => True).
Proof. done. Qed.
Lemma stable_present id : stable (present id).
Proof. intros d d' _. apply advance_present. Qed.

(** * Reads *)
Section reads.
(** What is known of the rows of the job. *)
Context (id : gostring) (P : database -> Prop) (S : gostring -> Prop).
Context (stable_P : stable P) (known : forall d r, good d -> P d -> r ∈ jobs d -> job_id r = id -> S (job_status r)).

Definition job_known (j : IndexJob) : Prop := j_JobID j = id /\ S (j_Status j).
Definition answer (o : option IndexJob) (d : database) : Prop :=
  (forall j, o = Some j -> job_known j /\ present id d) /\ P d.
Lemma stable_known j : stable (fun d => (job_known j /\ present id d) /\ P d).
Proof. apply stable_and; [|done]. apply stable_and; [apply stable_const|apply stable_present]. Qed.
Lemma triple_row : triple P (loadIndexJobRow id) answer.
Proof.
  unfold loadIndexJobRow. apply (run_triple_bind _ _ _ (fun rows d => answer (r_job <$> head rows) d)); [by follows| |by intros rows; apply run_triple_ret].
  apply triple_fetch; [done|]. intros d Hg HP. split; [|done].
  intros j Hj. destruct (head _) as [r|] eqn:Hh; [|done]. injection Hj as <-.
  apply head_matching_Some in Hh as [Hid%has_job_id_true Hr]. split; [split|by exists r]; [done|]. by eapply known.
Qed.
Lemma triple_attach j : triple (fun d => (job_known j /\ present id d) /\ P d) (attachIndexJobOwner j)
  (fun j' d => (job_known j' /\ present id d) /\ P d).
Proof.
  unfold attachIndexJobOwner. eapply run_triple_bind; [by follows|by apply triple_follows; [apply stable_known|follows]|].
  intros rows. apply run_triple_ret. intros d HP. by destruct rows.
Qed.
Lemma triple_snapshot : triple P (loadIndexJobSnapshot id) answer.
Proof.
  unfold loadIndexJobSnapshot. eapply run_triple_bind; [by follows|apply triple_row|]. intros [j|].
  - eapply run_triple_bind; [by follows| |intros j'; apply run_triple_ret].
    + eapply run_triple_mono; [apply triple_attach| |done]. intros d [Hk HP]. split; [by apply Hk|done].
    + intros d [Hk HP]. split; [|done]. by intros j0 [= <-].
  - by apply run_triple_ret.
Qed.
Lemma triple_reconcile j : triple (fun d => (job_known j /\ present id d) /\ P d) (reconcileIndexJobRead j) answer.
Proof.
  unfold reconcileIndexJobRead. eapply run_triple_bind; [by follows|apply triple_attach|]. intros j'.
  eapply run_triple_bind; [by follows|by apply triple_follows; [apply stable_known|follows]|]. intros gone.
  destruct (_ || _).
  - apply run_triple_ret. intros d [Hk HP]. split; [|done]. by intros j0 [= <-].
  - eapply run_triple_bind; [by follows|by apply triple_follows; [apply stable_known|follows]|]. intros marked.
    assert (Hsnap : triple (fun d => (job_known j' /\ present id d) /\ P d) (loadIndexJobSnapshot (j_JobID j')) answer).
    { intros oth n d a k d' Hrel Hg [[[-> _] _] HP]. by apply triple_snapshot. }
    destruct marked as [[]|e]; [exact Hsnap|]. repeat case_match; first [exact Hsnap|apply triple_stop].
Qed.
Lemma triple_get : triple P (GetIndexJob id) answer.
Proof.
  unfold GetIndexJob. eapply run_triple_bind; [by follows|apply triple_row|]. intros [j|].
  - eapply run_triple_mono; [apply (triple_reconcile j)| |done]. intros d [Hk HP]. split; [by apply Hk|done].
  - by apply run_triple_ret.
Qed.
End reads.

(** * Cancellation *)

(** The job is there and neither queued nor running. *)
Definition left_work (status : gostring) : Prop := status ∉ [IndexJobQueued; IndexJobRunning].
Definition past (id : gostring) (d : database) : Prop := exists r, r ∈ jobs d /\ job_id r = id /\ left_work (job_status r).
Lemma next_left s s' : left_work s -> s' ∈ next_statuses s -> left_work s'.
Proof.
  unfold left_work, next_statuses. intros Hl.
  destruct (streq s IndexJobQueued) eqn:E1; [apply streq_true in E1 as ->; set_solver|].
  destruct (streq s IndexJobRunning) eqn:E2; [apply streq_true in E2 as ->; set_solver|].
  destruct (streq s IndexJobPublishing) eqn:E3; [by intros [->|[->|[]%elem_of_nil]%elem_of_cons]%elem_of_cons; set_unfold; naive_solver|].
  destruct (streq s IndexJobCancelRequested) eqn:E4; [by intros [->|[->|[]%elem_of_nil]%elem_of_cons]%elem_of_cons; set_unfold; naive_solver|].
  by intros ?%elem_of_nil.
Qed.
Lemma stable_past id : stable (past id).
Proof.
  intros d d' _ [_ [g h [Hj _ _ Hrow _ _]|job o [Hj _ _ _ _ _ _]]] (r & Hr & Hid & Hl); unfold past, jobs in *; rewrite Hj.
  - exists (g r). split_and!; [by apply list_elem_of_fmap; exists r|by destruct (row_step_id _ _ (Hrow r Hr)) as [-> _]|].
    destruct (Hrow r Hr) as [->|(_ & Hs & _)]; [done|]. by eapply next_left.
  - exists r. split_and!; [set_solver|done..].
Qed.
Lemma past_known id d r : good d -> past id d -> r ∈ jobs d -> job_id r = id -> left_work (job_status r).
Proof. intros [_ Ho] (r' & Hr' & Hid' & Hl) Hr Hid. assert (r = r') as -> by (eapply same_job; [apply Ho|done|done|congruence]). done. Qed.
Lemma at_id_past id g d w : jobs w = map (at_id id g) (jobs d) -> (forall r, job_id (g r) = job_id r) ->
  (forall r, left_work (job_status (g r))) -> present id d -> past id w.
Proof.
  intros Hj Hid Hl (r & Hr & Hr'). exists (g r). rewrite Hj. split_and!; [|by rewrite Hid|done]. apply list_elem_of_fmap.
  exists r. split; [|done]. unfold at_id. by assert (has_job_id id r = true) as -> by by apply has_job_id_true.
Qed.
Lemma cancel_tail_jobs id now w1 u w : gives (owner ← loadIndexJobOwnershipByJob id;
   match owner with
   | None => throw ErrNoRows
   | Some o => _ ← expect (unreleased o) stale; _ ← cancel_generation id;
               _ ← releaseIndexJobOwnershipTx id (fence_of_owner o) now; commit
   end) w1 u w -> jobs w = jobs w1.
Proof.
  intros Hg. apply gives_bind in Hg as (o & v & [-> _]%gives_owner_by_job & Hg). destruct o as [o|]; [|by apply gives_throw in Hg].
  apply gives_bind in Hg as (u2 & v & [_ ->]%gives_expect & Hg). apply gives_bind in Hg as (u3 & w3 & E3 & Hg).
  apply generations_run in E3 as (Hj & _). apply gives_bind in Hg as (u4 & w4 & E4 & ->%gives_commit).
  by apply release_run in E4 as (-> & _).
Qed.
Lemma request_past id now d d' : good d -> present id d -> cancel_requested id now d d' -> past id d'.
Proof.
  intros Hg Hp [w1 r u _ _ _ _ Hw Hrun|r _ _ _ _ Hw| -> Hno].
  - apply cancel_tail_jobs in Hrun. eapply (at_id_past id _ d d'); [by rewrite Hrun, Hw|..]; [done| |done]. unfold left_work. intros q. set_unfold. naive_solver.
  - eapply (at_id_past id _ d d'); [by rewrite Hw|..]; [done| |done]. unfold left_work. intros q. set_unfold. naive_solver.
  - destruct Hp as (r & Hr & Hid). exists r. split_and!; [done..|]. intros Hs.
    assert (Hact : active r = true).
    { unfold active, isIndexJobActive, oneOf. apply bool_decide_eq_true. set_solver. }
    destruct (or_owned _ (g_index d Hg) r Hr Hact) as (o & Ho & Hoid & _ & Hu).
    assert (Hres : reserved id d = true).
    { apply existsb_exists. exists o. split; [by apply list_elem_of_In|]. rewrite Hoid, Hid, streq_refl. done. }
    specialize (Hno Hres r Hr Hid). unfold status_in in Hno. pose proof (wf_cancel r (or_wf _ (g_index d Hg) r Hr)) as Hc.
    assert (Hcan : j_RequestedCancel (r_job r) = false).
    { rewrite Hc. unfold oneOf. apply bool_decide_eq_false. revert Hs. generalize (job_status r). intros s Hs Hin. set_unfold. naive_solver. }
    rewrite Hcan in Hno. unfold oneOf in Hno. cbn [Bool.eqb andb] in Hno. by apply bool_decide_eq_false in Hno.
Qed.
Lemma triple_request_tx id now : triple (present id) (transaction (request_cancel_tx id now)) (fun _ => past id).
Proof.
  apply triple_access; [apply stable_present|]. intros n d [] k d' Hg Hp Hrun. apply request_cancel_run in Hrun; [|done].
  by eapply request_past.
Qed.
Definition settled_job (id : gostring) (j : IndexJob) : Prop := j_JobID j = id /\ left_work (j_Status j).
Lemma triple_request id : triple (fun _ => True) (RequestIndexJobCancelByID id) (fun j _ => settled_job id j).
Proof.
  unfold RequestIndexJobCancelByID. eapply run_triple_bind; [by follows|by apply triple_follows; [apply stable_true|follows]|intros u].
  eapply run_triple_bind; [by follows|by apply (triple_get id _ (fun _ => True) stable_true)|]. intros [job|]; [|apply triple_stop].
  destruct (negb _) eqn:Hact.
  - apply run_triple_ret. intros d [Hk _]. destruct (Hk job eq_refl) as [[Hid _] _]. split; [done|]. cbn.
    apply negb_true_iff in Hact. unfold isIndexJobActive, oneOf in Hact. apply bool_decide_eq_false in Hact.
    unfold left_work. set_solver.
  - eapply (run_triple_bind _ _ _ (fun _ => present id)); [by follows| |intros now].
    { eapply run_triple_mono; [apply (triple_follows (present id)); [apply stable_present|follows]| |done].
      intros d [Hk _]. by destruct (Hk job eq_refl). }
    eapply run_triple_bind; [by follows|apply triple_request_tx|intros u'].
    eapply run_triple_bind; [by follows|apply (triple_get id _ left_work (stable_past id) (past_known id))|].
    intros [j|]; [|apply triple_stop]. apply run_triple_ret. intros d [Hk _]. by destruct (Hk j eq_refl) as [? _].
Qed.
End triples.
