(* ===== verification/IndexJobsPublication.v ===== *)
(** What a publication writes next to the job that it ends: the pointers of the workspace,
    the active generation of the graph and the state that queries ask for. *)
From S2P Require Import Prelude GoStrings GoStringFacts GoSort GoNum GoTime Graph GraphFacts GraphStore GraphStoreFacts IndexTables GraphValidate GraphValidateFacts GraphPublish GraphPublishFacts GraphActivation IndexJobs IndexPublish IndexJobsFacts IndexJobsSteps IndexJobsRuns IndexJobsSystem IndexJobsFences IndexJobsCancel.

Local Open Scope go_scope.

Section publication.
Context `{UnicodeTables} `{NFC} `{UrlParser} `{SHA256} `{Connection} `{Host}.

(** * Metadata *)
Lemma meta_same d d' key : d_tables d' = d_tables d -> meta_of key d' = meta_of key d.
Proof. intros Ht. unfold meta_of, meta. by rewrite Ht. Qed.
Lemma gives_upsert key v w n w' : gives (exec (upsert key v)) w n w' ->
  forall key', meta_of key' w' = if streq key' key then default [] v else meta_of key' w.
Proof. intros [Hf _]%gives_exec key'. rewrite <- meta_of_upsert. by rewrite Hf. Qed.
Lemma gives_delete key w n w' : gives (exec (delete_meta key)) w n w' ->
  forall key', meta_of key' w' = if streq key' key then [] else meta_of key' w.
Proof.
  intros [Hf _]%gives_exec key'. injection Hf as <- _. unfold meta_of, meta at 1. cbn [with_meta d_tables t_meta].
  destruct (streq key' key) eqn:E.
  - apply streq_true in E as ->. destruct (head _) as [r|] eqn:Hh; [|done]. exfalso.
    apply head_matching_Some in Hh as [Hk Hr]. apply matching_some in Hr as [Hn _]. by rewrite Hk in Hn.
  - do 3 f_equal. f_equal. unfold matching. rewrite list_filter_filter. apply list_filter_iff. intros r.
    split; [by intros [? ?]|]. intros Hr. split; [done|]. apply streq_true in Hr as ->. by rewrite E.
Qed.
Lemma gives_meta_text_of key w a w' : gives (meta_text key) w a w' -> a = meta_of key w /\ w' = w.
Proof.
  intros (row & v & [-> (n & j & Hm)]%gives_reads & Hg)%gives_bind. apply from_Q_ok in Hm.
  unfold meta_row, queryRow in Hm. apply bind_run in Hm as (r & i & Hq & Hr). apply ret_run in Hr as [-> _].
  apply bind_run in Hq as (rows & j' & Hq & Hr). apply query_ok in Hq as ->. apply ret_run in Hr as [-> _].
  unfold meta_of. fold (meta w). destruct (head _) as [[k v]|]; cbn in *.
  - destruct v as [v|]; cbn in Hg; [by apply gives_ret in Hg as [-> ->]|by apply gives_throw in Hg].
  - by apply gives_ret in Hg as [-> ->].
Qed.
Lemma gives_upserts_meta l : forall w u w', gives (UpsertWorkspaceMetaMap l) w u w' ->
  forall key, meta_of key w' = match last (matching (fun kv => streq kv.1 key) l) with Some kv => kv.2 | None => meta_of key w end.
Proof.
  induction l as [|[k v] l IH]; intros w u w' Hg key; cbn [UpsertWorkspaceMetaMap] in Hg; [by apply gives_ret in Hg as [_ ->]|].
  apply gives_bind in Hg as (n & w1 & E1 & Hg). rewrite (IH _ _ _ Hg key). pose proof (gives_upsert _ _ _ _ _ E1 key) as Hk.
  unfold matching in *. cbn [filter list_filter].
  destruct (decide _) as [Hd|Hd]; cbn [fst] in Hd.
  - rewrite last_cons. destruct (last _) as [kv|]; [done|]. rewrite Hk. cbn.
    assert (streq key k = true) as -> by (apply streq_true; by apply streq_true in Hd). done.
  - destruct (last _) as [kv|]; [done|]. rewrite Hk.
    assert (streq key k = false) as -> by (apply streq_false; intros ->; by rewrite streq_refl in Hd). done.
Qed.
Lemma last_map_key (g : gostring) key keys : key ∈ keys ->
  last (matching (fun kv => streq kv.1 key) (map (fun k => (k, g)) keys)) = Some (key, g).
Proof.
  intros Hin. destruct (last _) as [kv|] eqn:Hl.
  - apply last_elem in Hl. apply matching_some in Hl as [Hk%streq_true (k & -> & _)%list_elem_of_fmap]. cbn in Hk. by subst.
  - apply last_None in Hl. assert (Hm : (key, g) ∈ matching (fun kv : gostring * gostring => streq kv.1 key) (map (fun k => (k, g)) keys)).
    { apply matching_some. split; [apply streq_refl|]. apply list_elem_of_fmap. by exists key. }
    rewrite Hl in Hm. set_solver.
Qed.
(** The pointers of the mode name the generation. *)
Lemma write_metadata_pointers generationID mode files symbols docs now w u w' keys key :
  gives (write_metadata generationID mode files symbols docs now) w u w' -> mode_pointers mode = Some keys -> key ∈ keys ->
  meta_of key w' = generationID.
Proof.
  unfold write_metadata. intros Hg Hk Hin. rewrite Hk in Hg. apply gives_upserts_meta with (key := key) in Hg.
  unfold matching in Hg. rewrite filter_app, last_app in Hg. pose proof (last_map_key generationID key keys Hin) as Hl.
  unfold matching in Hl. rewrite Hl in Hg. exact Hg.
Qed.

(** * The graph *)
Definition graph_metas : list gostring := [graphActiveMeta; graphPreviousMeta; GraphCatalogGenerationMeta; GraphRuntimeStateMeta].
Lemma stage_metas b w u w' key : gives (stageGraphGenerationConn b) w u w' -> meta_of key w' = meta_of key w.
Proof. intros Hg. unfold meta_of. by rewrite (keeps_gives meta _ w u w' (keeps_stage meta (fun _ _ => eq_refl) b) Hg). Qed.
Lemma activate_metas id prior at_ w u w' : invariant w -> gives (activateGraphGenerationTx id prior at_) w u w' ->
  meta_of graphActiveMeta w' = id /\ forall key, key ∉ graph_metas -> meta_of key w' = meta_of key w.
Proof.
  unfold activateGraphGenerationTx. intros Hi Hg. apply gives_bind in Hg as (u0 & v & Hu0 & Hg). tx_inv Hu0.
  apply gives_bind in Hg as (b & v & Hb & Hg). apply gives_validated in Hb as (-> & row & Hrow & -> & Hs).
  cbv zeta in Hg. apply gives_bind in Hg as (old & v & Hold & Hg). apply gives_meta_bytes in Hold as [-> ->].
  apply gives_bind in Hg as (rows & v & Hr & Hg). apply gives_active_rows in Hr as [-> ->].
  destruct (_ && streq _ id) eqn:Hsame.
  - apply gives_bind in Hg as (r & v & Hr & Hg). apply gives_reads in Hr as [-> _]. apply gives_ancestry in Hg as ->.
    apply andb_true_iff in Hsame as [_ Hid%streq_true]. done.
  - unfold resolve_old in Hg. rewrite dangling_never in Hg by done.
    apply gives_bind in Hg as (old & v & Hold & Hg). apply gives_ret in Hold as [-> ->].
    apply gives_bind in Hg as (u1 & v & Hu1 & Hg). tx_inv Hu1. apply gives_bind in Hg as (u2 & v & Hu2 & Hg). tx_inv Hu2.
    apply gives_bind in Hg as (u3 & v & Hp & Hg). apply gives_check_prior in Hp as ->.
    apply replace_active_run in Hg as [Hg _]. apply publish_run in Hg as (-> & _). split; [by rewrite publish_meta, streq_refl|].
    intros key Hk. rewrite publish_meta. rewrite (proj2 (streq_false key graphActiveMeta)) by (intros ->; set_solver).
    rewrite (proj2 (streq_false key graphPreviousMeta)) by (intros ->; set_solver). done.
Qed.
Lemma runtime_metas st c w u w' : gives (setGraphRuntimeStateTx st c) w u w' ->
  meta_of GraphRuntimeStateMeta w' = st /\ meta_of GraphCatalogGenerationMeta w' = c /\
  meta_of graphActiveMeta w' = meta_of graphActiveMeta w /\ forall key, key ∉ graph_metas -> meta_of key w' = meta_of key w.
Proof.
  unfold setGraphRuntimeStateTx. intros Hg. apply gives_bind in Hg as (a & v & Ha & Hg). tx_inv Ha.
  apply gives_bind in Hg as (n & w1 & E1 & Hg). apply gives_bind in Hg as (n' & w2 & E2 & Hg). apply gives_ret in Hg as [_ ->].
  pose proof (gives_upsert _ _ _ _ _ E1) as Hm1.
  assert (Hm2 : forall key, meta_of key w2 = if streq key GraphCatalogGenerationMeta then c else meta_of key w1).
  { intros key. destruct (streq c []) eqn:Ec.
    - apply streq_true in Ec as ->. by rewrite (gives_delete _ _ _ _ E2).
    - by rewrite (gives_upsert _ _ _ _ _ E2). }
  split_and!; [by rewrite Hm2, Hm1|by rewrite Hm2|by rewrite Hm2, Hm1|].
  intros key Hk. rewrite Hm2, Hm1. rewrite (proj2 (streq_false key GraphCatalogGenerationMeta)) by (intros ->; set_solver).
  rewrite (proj2 (streq_false key GraphRuntimeStateMeta)) by (intros ->; set_solver). done.
Qed.
(** The generation of the catalog that a fresh graph was built from. *)
Definition catalog_name (g : IndexJobGraphPublication) (generationID : gostring) (w : database) : gostring :=
  let c := if streq (gp_CatalogGeneration g) [] then meta_of WorkspaceMetaActiveCatalogGeneration w else gp_CatalogGeneration g in
  if streq c [] then generationID else c.
Record graph_published (g : IndexJobGraphPublication) (generationID mode : gostring) (w w' : database) : Prop := {
  gr_pointer : meta_of graphActiveMeta w' = match gp_GenerationID g with Some id => id | None => meta_of graphActiveMeta w end;
  gr_fresh : gp_GraphCurrent g = true -> meta_of GraphRuntimeStateMeta w' = GraphRuntimeFresh /\
    meta_of GraphCatalogGenerationMeta w' = catalog_name g generationID w;
  gr_stale : gp_GraphCurrent g = false -> gp_GenerationSkippedReason g = [] -> changes_code mode = true ->
    meta_of GraphRuntimeStateMeta w' = GraphRuntimeStale;
  gr_others : forall key, key ∉ graph_metas -> meta_of key w' = meta_of key w }.
Lemma stage_activate_metas g w u w' : invariant w -> gives (stage_and_activate g) w u w' ->
  meta_of graphActiveMeta w' = match gp_GenerationID g with Some id => id | None => meta_of graphActiveMeta w end /\
  forall key, key ∉ graph_metas -> meta_of key w' = meta_of key w.
Proof.
  intros Hi Hg. apply gives_bind in Hg as (u1 & w1 & E1 & Hg).
  assert (Hst : invariant w1 /\ forall key, meta_of key w1 = meta_of key w).
  { destruct (gp_GraphBundle g) as [b|]; [|by apply gives_ret in E1 as [_ ->]].
    split; [eapply modest_invariant; [by eapply stage_modest|done]|]. intros key. by eapply stage_metas. }
  destruct Hst as [Hi1 Hm1]. destruct (gp_GenerationID g) as [id|].
  - apply gives_bind in Hg as (at_ & v & E2 & Hg).
    assert (v = w1) as -> by (destruct (_ =? 0)%Z; [by apply gives_db_time in E2|by apply gives_ret in E2 as [_ ->]]).
    apply activate_metas in Hg as [Hp Hk]; [|done]. split; [done|]. intros key Hkey. by rewrite Hk.
  - apply gives_ret in Hg as [_ ->]. by split.
Qed.
Lemma catalog_of_value g generationID w a w' : gives (catalog_of g generationID) w a w' -> a = catalog_name g generationID w.
Proof.
  unfold catalog_of, catalog_name. intros Hg. apply gives_bind in Hg as (c & v & E1 & Hg). apply gives_ret in Hg as [-> _].
  cbv zeta. destruct (streq (gp_CatalogGeneration g) []); [by apply gives_meta_text_of in E1 as [-> _]|by apply gives_ret in E1 as [-> _]].
Qed.
Lemma publish_graph_metas g generationID mode w u w' : invariant w -> gives (publish_graph (Some g) generationID mode) w u w' ->
  graph_published g generationID mode w w'.
Proof.
  intros Hi Hg. apply gives_bind in Hg as (u1 & w1 & E1 & Hg). apply stage_activate_metas in E1 as [Hp Hk]; [|done].
  destruct (gp_GraphCurrent g) eqn:Hcur.
  - apply gives_bind in Hg as (c & v & E2 & Hg). pose proof (catalog_of_value _ _ _ _ _ E2) as Hc. apply gives_catalog_of in E2 as ->.
    apply runtime_metas in Hg as (Hs & Hcat & Hptr & Ho). constructor.
    + congruence.
    + intros _. split; [done|]. rewrite Hcat, Hc. unfold catalog_name. by rewrite (Hk WorkspaceMetaActiveCatalogGeneration) by set_solver.
    + congruence.
    + intros key Hkey. by rewrite Ho, Hk.
  - destruct (_ && _) eqn:Hc.
    + apply runtime_metas in Hg as (Hs & Hcat & Hptr & Ho). constructor; [congruence|congruence|done|].
      intros key Hkey. by rewrite Ho, Hk.
    + apply gives_ret in Hg as [_ ->]. constructor; [done|congruence| |done]. intros _ Hr Hch. rewrite Hr, Hch in Hc. done.
Qed.
Lemma publish_no_graph generationID mode w u w' : gives (publish_graph None generationID mode) w u w' ->
  (changes_code mode = true -> meta_of GraphRuntimeStateMeta w' = GraphRuntimeStale) /\
  meta_of graphActiveMeta w' = meta_of graphActiveMeta w /\ forall key, key ∉ graph_metas -> meta_of key w' = meta_of key w.
Proof.
  cbn [publish_graph]. destruct (changes_code mode).
  - intros (Hs & _ & Hp & Ho)%runtime_metas. done.
  - by intros [_ ->]%gives_ret.
Qed.
(** The publication leaves the pointers that [close_generation] has written. *)
Lemma pointers_survive mode keys key : mode_pointers mode = Some keys -> key ∈ keys -> key ∉ graph_metas.
Proof.
  unfold mode_pointers. intros Hm. assert (Hall : Forall (fun k => oneOf k graph_metas = false) keys).
  { repeat (case_match; simplify_eq/=); repeat constructor. }
  rewrite Forall_forall in Hall. intros Hin. specialize (Hall key Hin). unfold oneOf in Hall. by apply bool_decide_eq_false in Hall.
Qed.

(** What a publication has left behind. *)
Record published (generationID mode : gostring) (graph : option IndexJobGraphPublication) (w w' : database) : Prop := {
  pu_catalog : forall keys key, match graph with Some g => gp_GenerationSkippedReason g | None => [] end = [] ->
    generationID <> [] -> mode_pointers mode = Some keys -> key ∈ keys -> meta_of key w' = generationID;
  pu_no_graph : graph = None -> meta_of graphActiveMeta w' = meta_of graphActiveMeta w /\
    (changes_code mode = true -> meta_of GraphRuntimeStateMeta w' = GraphRuntimeStale);
  pu_graph : forall g, graph = Some g ->
    meta_of graphActiveMeta w' = match gp_GenerationID g with Some id => id | None => meta_of graphActiveMeta w end /\
    (gp_GraphCurrent g = true -> meta_of GraphRuntimeStateMeta w' = GraphRuntimeFresh) /\
    (gp_GraphCurrent g = true -> gp_GenerationSkippedReason g = [] -> changes_code mode = true -> generationID <> [] ->
       gp_CatalogGeneration g = [] -> meta_of GraphCatalogGenerationMeta w' = generationID) /\
    (gp_GraphCurrent g = false -> gp_GenerationSkippedReason g = [] -> changes_code mode = true ->
       meta_of GraphRuntimeStateMeta w' = GraphRuntimeStale) }.
Lemma code_pointer mode : changes_code mode = true -> exists keys, mode_pointers mode = Some keys /\ WorkspaceMetaActiveCatalogGeneration ∈ keys.
Proof.
  unfold changes_code, oneOf. rewrite bool_decide_eq_true. intros [->|[->|[]%elem_of_nil]%elem_of_cons]%elem_of_cons.
  - eexists. split; [reflexivity|set_solver].
  - eexists. split; [reflexivity|set_solver].
Qed.
Lemma close_pointers id generationID mode files symbols docs now graph w u w' keys key :
  gives (close_generation id generationID mode files symbols docs now graph) w u w' ->
  match graph with Some g => gp_GenerationSkippedReason g | None => [] end = [] -> generationID <> [] ->
  mode_pointers mode = Some keys -> key ∈ keys -> meta_of key w' = generationID.
Proof.
  unfold close_generation. cbv zeta. intros Hg Hr Hne. rewrite Hr in Hg. unfold publishGenerationForJobTx in Hg.
  rewrite streq_refl in Hg. rewrite (proj2 (streq_false generationID [])) in Hg by done.
  apply gives_bind in Hg as (u1 & w1 & _ & Hg). by eapply write_metadata_pointers.
Qed.
Lemma close_active id generationID mode files symbols docs now graph w u w' :
  gives (close_generation id generationID mode files symbols docs now graph) w u w' -> meta_of graphActiveMeta w' = meta_of graphActiveMeta w.
Proof. intros (_ & _ & Hm)%gives_close. apply Hm. Qed.
Lemma parts_published id generationID mode files symbols docs graph (rows : Tx unit) w w' : catalog_body rows ->
  graph_parts id generationID mode files symbols docs graph (writing rows) w w' -> published generationID mode graph w w'.
Proof.
  intros Hrows [w1 g w2 now u3 w3 u4 w4 Ht1 Hbody Hclose Hi3 Hgraph Ht']. unfold writing in Hbody.
  apply gives_bind in Hbody as (v & wr & Hr & [-> <-]%gives_ret). apply (cb_run _ Hrows) in Hr as [_ Hm].
  pose proof (close_active _ _ _ _ _ _ _ _ _ _ _ Hclose) as Ha3.
  assert (Ha : meta_of graphActiveMeta w3 = meta_of graphActiveMeta w).
  { rewrite Ha3, (mo_pointer _ _ Hm). by apply meta_same. }
  pose proof (fun keys key => close_pointers _ _ _ _ _ _ _ _ _ _ _ keys key Hclose) as Hclosed.
  assert (Hkeep : forall keys key, mode_pointers mode = Some keys -> key ∈ keys -> meta_of key w4 = meta_of key w3).
  { intros keys key Hk Hin. pose proof (pointers_survive mode keys key Hk Hin) as Hout.
    destruct graph as [g|]; [by apply publish_graph_metas in Hgraph as []; auto|by apply publish_no_graph in Hgraph as (_ & _ & Ho); auto]. }
  constructor.
  - intros keys key Hre Hne Hk Hin. rewrite (meta_same _ _ key Ht'), (Hkeep keys key) by done. by eapply Hclosed.
  - intros ->. rewrite !(meta_same _ _ _ Ht'). apply publish_no_graph in Hgraph as (Hs & Hp & _). split; [congruence|done].
  - intros g ->. rewrite !(meta_same _ _ _ Ht'). apply publish_graph_metas in Hgraph as [Hp Hf Hst _]; [|done].
    split_and!; [by rewrite Hp, Ha|by intros Hc; apply Hf in Hc as [? _]| |done].
    intros Hcur Hre Hcode Hne Hcat. apply Hf in Hcur as [_ ->]. unfold catalog_name. rewrite Hcat, streq_refl.
    destruct (code_pointer mode Hcode) as (keys & Hk & Hin). rewrite (Hclosed keys _ Hre Hne Hk Hin).
    by rewrite (proj2 (streq_false generationID [])).
Qed.

(** * The operation *)
Lemma stable_since d : stable (rtc advance d).
Proof. intros d1 d2 _ Ha Hr. by eapply rtc_r. Qed.
Lemma writing_body rows g : catalog_body rows -> catalog_body (writing rows g).
Proof.
  intros [Hq Hr]. unfold writing. constructor; [quiet; assumption|]. intros w a w' Hg.
  apply gives_bind in Hg as (u & v & Hrun & [_ ->]%gives_ret). by eapply Hr.
Qed.
(** Nobody holds a job that has ended. *)
Lemma ended_unheld id f d r : good d -> r ∈ jobs d -> job_id r = id -> active r = false -> held id f d = false.
Proof.
  intros [_ Ho] Hr Hid Hact. apply not_true_iff_false. intros (o & Hin & Hown)%held_elim. apply owned_by_elim in Hown as (Hoid & _ & _ & Hu).
  destruct (or_owner _ Ho o Hin) as (r' & Hr' & Hid' & _ & Ha). assert (r' = r) as -> by (eapply same_job; [apply Ho|done|done|congruence]).
  rewrite Ha in Hact; done.
Qed.
Lemma at_id_others id g l r : (forall r, job_id (g r) = job_id r) -> job_id r <> id -> r ∈ map (at_id id g) l <-> r ∈ l.
Proof.
  intros Hg Hne. rewrite list_elem_of_fmap. unfold at_id. split.
  - intros (q & -> & Hq). destruct (has_job_id id q) eqn:E; [|done]. apply has_job_id_true in E. by rewrite Hg in Hne.
  - intros Hr. exists r. split; [|done]. destruct (has_job_id id r) eqn:E; [|done]. by apply has_job_id_true in E.
Qed.
Lemma triple_start {A B} P (a : A) (f : A -> Db B) Q : triple P (f a) Q -> triple P (Done (Ok a) ≫= f) Q.
Proof. done. Qed.
Lemma triple_publish id generationID mode files symbols docs f graph rows d0 : catalog_body rows ->
  triple (rtc advance d0) (publishOwned id generationID mode files symbols docs f graph (writing rows))
    (fun _ d' => exists d1, rtc advance d0 d1 /\ job_published id f files symbols docs d1 d' /\ published generationID mode graph d1 d' /\
       advance d1 d').
Proof.
  intros Hrows. assert (Hbody : forall g, catalog_body (writing rows g)) by (intros g; by apply writing_body).
  unfold publishOwned.
  unfold resolve, resolveIndexJobFence.
  destruct (_ || _); [intros oth n d a k d' _ _ _ [=]|]. cbn [map_err]. apply triple_start.
  eapply run_triple_bind; [by follows|by apply (triple_follows (rtc advance d0)); [apply stable_since|follows]|intros u].
  eapply run_triple_bind; [by follows|by apply (triple_follows (rtc advance d0)); [apply stable_since|follows]|intros u'].
  apply triple_access; [apply stable_since|]. intros n d [] k d' Hg Ha Hrun. apply immediate_ok in Hrun; [|by apply transactional_publish].
  apply publication_run in Hrun as (Hj & Hp & Hadv); [|done|done]. exists d. split_and!; [done|done| |done]. by eapply parts_published.
Qed.

(** A failed publication leaves everything but the version of a schema that it may have set up. *)
Record unpublished (d d' : database) : Prop := {
  up_index : d_index d' = d_index d;
  up_generations : generations d' = generations d;
  up_metas : forall key, key <> ownershipVersionMeta -> meta_of key d' = meta_of key d }.
Lemma unpublished_refl d : unpublished d d.
Proof. by constructor. Qed.
Lemma schema_unpublished d a n k d' : immediate ownership_schema_tx (n, d) = (a, (k, d')) -> unpublished d d'.
Proof.
  intros Hrun. pose proof (schema_static _ _ _ _ _ Hrun) as Hi. apply schema_cases in Hrun as [->|[u Hg]]; [by constructor|]. constructor.
  - done.
  - refine (keeps_gives generations _ d u d' _ Hg). unfold schema_writes, schema_statement. static.
  - intros key Hk. unfold schema_writes in Hg.
    do 4 (apply gives_bind in Hg as (? & ? & (? & ? & [[= <- _] _]%gives_exec & [_ ->]%gives_ret)%gives_bind & Hg)).
    apply gives_bind in Hg as (m & w & Hg & ->%gives_commit). rewrite (gives_upsert _ _ _ _ _ Hg).
    by rewrite (proj2 (streq_false key ownershipVersionMeta)).
Qed.
Lemma publish_failure id generationID mode files symbols docs f graph body n d e k d' : (forall g, catalog_body (body g)) ->
  @execute alone unit (publishOwned id generationID mode files symbols docs f graph body) n d = (Err e, (k, d')) ->
  unpublished d d'.
Proof.
  intros Hbody. unfold publishOwned, resolve, resolveIndexJobFence.
  destruct (_ || _); [intros [= _ _ <-]; apply unpublished_refl|]. cbn [map_err].
  destruct (negb _); [|intros [= _ _ <-]; apply unpublished_refl].
  unfold ensureIndexJobOwnershipSchema, transaction, access. cbn [mbind Db_bind mret Db_ret require execute]. change (others n d) with d.
  destruct (immediate ownership_schema_tx (n, d)) as [r [k1 d1]] eqn:E. apply schema_unpublished in E as Hu.
  destruct r as [u|e']; [|by intros [= _ _ <-]]. cbn [execute]. change (others k1 d1) with d1.
  destruct (immediate (publish_tx _ _ _ _ _ _ _ _ _) (k1, d1)) as [r [k2 d2]] eqn:E2. intros [= -> _ <-].
  by rewrite (immediate_err _ _ _ _ _ _ (transactional_publish _ _ _ _ _ _ _ _ _ Hbody) E2).
Qed.
End publication.
