(* ===== verification/IndexJobsLive.v ===== *)
(** Index jobs when no call fails and nobody interferes: a free workspace gets its job, a
    taken one keeps it, and a job whose process has gone is ended by whoever reads it. *)
From S2P Require Import Prelude GoStrings GoStringFacts GoSort GoNum GoTime Graph GraphFacts GraphStore GraphStoreFacts IndexTables GraphValidate GraphValidateFacts GraphPublish GraphPublishFacts GraphStaging GraphActivation IndexJobs IndexPublish IndexJobsFacts IndexJobsSteps IndexJobsRuns IndexJobsSystem IndexJobsFences IndexJobsCancel IndexJobsPublication.

Local Open Scope go_scope.

Section live.
Context `{UnicodeTables} `{NFC} `{UrlParser} `{SHA256} `{Connection} `{Host}.
Hypothesis Hr : reliable.
#[local] Existing Instance alone.

(** * Transactions and operations that succeed *)
Definition succeeds {A} (m : Tx A) (w : database) (Q : A -> database -> Prop) : Prop := forall x, x_work x = w ->
  exists a, fst (m x) = Ok a /\ Q a (x_work (snd (m x))).
Lemma succeeds_bind {A B} (m : Tx A) (f : A -> Tx B) w Q R : succeeds m w Q -> (forall a v, Q a v -> succeeds (f a) v R) ->
  succeeds (m ≫= f) w R.
Proof.
  intros Hm Hf x Hx. destruct (Hm x Hx) as (a & Ha & Hq). unfold mbind, eff_bind. destruct (m x) as [r y]. cbn in *. subst r. by eapply Hf.
Qed.
Lemma succeeds_runs {A} (m : Tx A) w a v (Q : A -> database -> Prop) : runs m w a v -> Q a v -> succeeds m w Q.
Proof. intros Hm Hq x Hx. destruct (Hm x Hx) as [Ha Hv]. exists a. by rewrite Hv. Qed.
Lemma runs_then {A B} (m : Tx A) (f : A -> Tx B) w a v R : runs m w a v -> succeeds (f a) v R -> succeeds (m ≫= f) w R.
Proof.
  intros Hm Hf x Hx. destruct (Hm x Hx) as [Ha Hv]. unfold mbind, eff_bind. destruct (m x) as [r y]. cbn in *. subst r. by apply Hf.
Qed.
Lemma succeeds_any {A} (g : nat -> A) w (Q : A -> database -> Prop) : (forall n, Q (g n) w) ->
  succeeds ((fun x => (Ok (g (x_calls x)), x)) : Tx A) w Q.
Proof. intros Hq x <-. by exists (g (x_calls x)). Qed.
Lemma succeeds_immediate (body : Tx unit) n d Q : transactional body -> succeeds body d Q ->
  exists k d', immediate body (n, d) = (Ok tt, (k, d')) /\ Q tt d'.
Proof.
  intros Ht Hb. unfold immediate. rewrite Hr. destruct (Hb (mkTxn (S n) d d) eq_refl) as ([] & Ho & Hq).
  specialize (Ht (mkTxn (S n) d d)). destruct (body _) as [r y]. cbn in *. subst r. rewrite <- Ht in Hq. eauto.
Qed.
(** An error that the code decides on. *)
Definition refuses {A} (m : Tx A) (w : database) (e : store_error) : Prop := forall x, x_work x = w -> fst (m x) = Err e.
Lemma runs_refuses {A B} (m : Tx A) (f : A -> Tx B) w a v e : runs m w a v -> refuses (f a) v e -> refuses (m ≫= f) w e.
Proof.
  intros Hm Hf x Hx. destruct (Hm x Hx) as [Ha Hv]. unfold mbind, eff_bind. destruct (m x) as [r y]. cbn in *. subst r. by apply Hf.
Qed.
Lemma refuses_bind {A B} (m : Tx A) (f : A -> Tx B) w e : refuses m w e -> refuses (m ≫= f) w e.
Proof. intros Hm x Hx. specialize (Hm x Hx). unfold mbind, eff_bind. destruct (m x) as [r y]. cbn in *. by subst r. Qed.
Lemma refuses_throw {A} e w : refuses (throw (A:=A) e) w e.
Proof. by intros x _. Qed.
Lemma refuses_immediate (body : Tx unit) n d e : transactional body -> refuses body d e ->
  exists k, immediate body (n, d) = (Err e, (k, d)).
Proof.
  intros Ht Hb. destruct (immediate body (n, d)) as [r [k d']] eqn:E. pose proof E as E'. unfold immediate in E. rewrite Hr in E.
  specialize (Hb (mkTxn (S n) d d) eq_refl). destruct (body _) as [r' y]. cbn in Hb. subst r'. injection E as <- _ _.
  apply immediate_err in E' as ->; [|done]. by exists k.
Qed.

(** ** Operations *)
Lemma execute_ok_bind {A B} (m : Db A) (f : A -> Db B) n d a k d1 : execute m n d = (Ok a, (k, d1)) ->
  execute (m ≫= f) n d = execute (f a) k d1.
Proof. intros Hm. by rewrite execute_bind, Hm. Qed.
Lemma execute_err_bind {A B} (m : Db A) (f : A -> Db B) n d e s : execute m n d = (Err e, s) -> execute (m ≫= f) n d = (Err e, s).
Proof. intros Hm. by rewrite execute_bind, Hm. Qed.
Lemma execute_access {A} (f : nat * database -> result store_error A * (nat * database)) n d : execute (access f) n d = f (n, d).
Proof. cbn [execute access]. change (others n d) with d. by destruct (f (n, d)) as [r [k d']]. Qed.
Lemma execute_asks {A} (f : nat -> A) n d : execute (db_asks f) n d = (Ok (f n), (n, d)).
Proof. unfold db_asks. by rewrite execute_access. Qed.
Lemma execute_fetch {A} (rows : database -> list A) n d : execute (fetch rows) n d = (Ok (rows d), (S n, d)).
Proof. unfold fetch. rewrite execute_access. unfold from_Q, query. by rewrite Hr. Qed.
Lemma execute_statement u n d d' m : u d = (d', m) -> constraints d' = true -> execute (statement u) n d = (Ok m, (S n, d')).
Proof. intros Hu Hc. unfold statement. rewrite execute_access. unfold single. by rewrite Hr, Hu, Hc. Qed.
Lemma execute_column n d : constraints d = true -> execute ensureColumn n d = (Ok tt, (S n, d)).
Proof. intros Hc. unfold ensureColumn. by rewrite (execute_ok_bind _ _ n d 0%Z (S n) d) by by apply execute_statement. Qed.
(** The schema of ownership is there, or nothing is known about it. *)
Definition schema_known (d : database) : Prop :=
  let row := snd <$> head (matching (fun r => streq r.1 ownershipVersionMeta) (meta d)) in row = None \/ row = Some (Some "1" : option gostring).
Lemma meta_row_value t key n : from_Q (meta_row t key) n = (Ok (snd <$> head (matching (fun r => streq r.1 key) (t_meta t))), S n).
Proof. unfold from_Q, meta_row, queryRow, query, mbind, eff_bind. by rewrite Hr. Qed.
Lemma runs_schema_writes d : constraints d = true ->
  runs schema_writes d tt (fst (upsert ownershipVersionMeta (Some "1") d)).
Proof.
  intros Hc. unfold schema_writes. assert (Hs : runs schema_statement d tt d).
  { eapply runs_bind; [by apply runs_exec|apply runs_ret]. }
  do 4 (eapply runs_bind; [exact Hs|]). eapply runs_bind; [apply runs_exec|by apply runs_commit]; [done|reflexivity|].
  by apply constraints_upsert.
Qed.
(** Calls are counted. *)
Definition counts {A} (m : Tx A) : Prop := forall x, x_calls x <= x_calls (snd (m x)).
Lemma counts_bind {A B} (m : Tx A) (f : A -> Tx B) : counts m -> (forall a, counts (f a)) -> counts (m ≫= f).
Proof.
  intros Hm Hf x. specialize (Hm x). unfold mbind, eff_bind. destruct (m x) as [[a|e] y]; cbn in *; [|done].
  specialize (Hf a y). lia.
Qed.
Lemma counts_exec f : counts (exec f).
Proof. intros x. unfold exec. destruct (sql_fails _); cbn; [lia|]. destruct (f _). destruct (constraints _); cbn; lia. Qed.
Lemma counts_commit : counts commit.
Proof. intros x. unfold commit. destruct (sql_fails _); cbn; lia. Qed.
Lemma counts_schema : counts schema_writes.
Proof.
  unfold schema_writes. assert (Hs : counts schema_statement) by (apply counts_bind; [apply counts_exec|by intros a x]).
  do 4 (apply counts_bind; [exact Hs|intros _]). apply counts_bind; [apply counts_exec|intros _; apply counts_commit].
Qed.
Lemma schema_immediate n d : constraints d = true -> schema_known d ->
  exists k d', immediate ownership_schema_tx (n, d) = (Ok tt, (k, d')) /\ d_index d' = d_index d /\ constraints d' = true /\ n <= k.
Proof.
  intros Hc Hk. unfold immediate. rewrite Hr. unfold ownership_schema_tx, mbind at 1, eff_bind at 1. unfold reads.
  cbn [x_work x_calls x_committed]. rewrite meta_row_value. destruct Hk as [Hrow|Hrow]; change (t_meta (d_tables d)) with (meta d); rewrite Hrow.
  - change (exists k d', (let '(r, x) := schema_writes (mkTxn (S (S n)) d d) in (r, (x_calls x, x_committed x))) = (Ok tt, (k, d')) /\
      d_index d' = d_index d /\ constraints d' = true /\ n <= k).
    pose proof (counts_schema (mkTxn (S (S n)) d d)) as Hcalls. destruct (runs_schema_writes d Hc (mkTxn (S (S n)) d d) eq_refl) as [Ho Hw].
    assert (Ht : transactional schema_writes) by (unfold schema_writes, schema_statement; transactional).
    specialize (Ht (mkTxn (S (S n)) d d)). destruct (schema_writes _) as [r y]. cbn in *. subst r. rewrite <- Ht in Hw. rewrite Hw.
    eexists _, _. split_and!; [reflexivity|done|by apply constraints_upsert|lia].
  - exists (S (S n)), d. split; [reflexivity|]. split_and!; [done|done|lia].
Qed.
Lemma execute_schema n d : constraints d = true -> schema_known d ->
  exists k d', execute ensureIndexJobOwnershipSchema n d = (Ok tt, (k, d')) /\ d_index d' = d_index d /\ constraints d' = true /\ n <= k.
Proof. intros Hc Hk. unfold ensureIndexJobOwnershipSchema, transaction. rewrite execute_access. by apply schema_immediate. Qed.

(** * Creation *)
Definition workspace_free (root : gostring) (d : database) : Prop := forall r, r ∈ jobs d -> job_root r = root -> active r = false.
Definition next_fence (root : gostring) (d : database) : Z :=
  match head (matching (in_root root) (ownership d)) with Some o => wrap64 (o_fencingToken o + 1) | None => 1%Z end.
Lemma constraints_index t w : constraints w = true -> index_keys t = true -> constraints (with_index t w) = true.
Proof. unfold constraints. rewrite !andb_true_iff. tauto. Qed.
Lemma index_keys_intro t : NoDup (map job_id (i_jobs t)) -> NoDup (map o_workspaceRoot (i_ownership t)) ->
  NoDup (map ig_GenerationID (i_generations t)) -> index_keys t = true.
Proof. intros Hj Ho Hg. unfold index_keys. by rewrite !bool_decide_true. Qed.
Lemma NoDup_snoc {A} (l : list A) x : NoDup l -> x ∉ l -> NoDup (l ++ [x]).
Proof. intros Hl Hx. apply NoDup_app. split_and!; [done| |apply NoDup_singleton]. intros y Hy Hy'%list_elem_of_singleton. by subst. Qed.
Lemma runs_load_active root exclude w : (forall r, r ∈ jobs w -> job_root r = root -> job_id r <> exclude -> active r = false) ->
  runs (loadActiveIndexJobTx root exclude) w None w.
Proof.
  intros Hfree. unfold loadActiveIndexJobTx. eapply runs_bind; [by apply runs_reads_db|].
  assert (Hm : matching (fun r => streq (job_root r) root && negb (streq (job_id r) exclude) && isIndexJobActive (job_status r)) (jobs w) = []).
  { destruct (matching _ _) as [|r l] eqn:E; [done|]. exfalso. assert (Hin : r ∈ r :: l) by left. rewrite <- E in Hin.
    apply matching_some in Hin as [Hc Hin]. rewrite !andb_true_iff, negb_true_iff, streq_true, streq_false in Hc.
    destruct Hc as [[Hroot Hid] Hact]. pose proof (Hfree r Hin Hroot Hid) as Hf. unfold active in Hf. congruence. }
  rewrite Hm. apply runs_ret.
Qed.
Lemma free_released root d o : good d -> workspace_free root d -> o ∈ ownership d -> in_root root o = true -> unreleased o = false.
Proof.
  intros [_ Ho] Hfree Hin Hroot%streq_true. destruct (unreleased o) eqn:Hu; [|done].
  destruct (or_owner _ Ho o Hin) as (r & Hrow & _ & Hr' & Hact). rewrite (Hfree r Hrow) in Hact; [by specialize (Hact Hu)|congruence].
Qed.
Lemma reserve_row_ok o w : index_keys (d_index w) = true ->
  (forall p, p ∈ ownership w -> in_root (o_workspaceRoot o) p = true -> unreleased p = false) ->
  exists l, reserve_row o w = (with_ownership l w, 1%Z) /\ o ∈ l /\ NoDup (map o_workspaceRoot l).
Proof.
  intros (_ & Hnd & _)%keys_elim Hrel. unfold reserve_row. destruct (existsb _ _) eqn:Hex.
  - apply existsb_exists in Hex as (p & Hp%list_elem_of_In & Hroot). unfold update_ownership, update_where.
    assert (Hone : lenZ (matching (fun p => in_root (o_workspaceRoot o) p && negb (unreleased p)) (ownership w)) = 1%Z).
    { eapply (matching_count o_workspaceRoot _ _ p); [done|done|by rewrite Hroot, (Hrel p Hp Hroot)|].
      intros b _ [Hb%streq_true _]%andb_true_iff. apply streq_true in Hroot. congruence. }
    rewrite Hone. eexists. split; [reflexivity|]. split.
    + apply list_elem_of_fmap. exists p. by rewrite Hroot, (Hrel p Hp Hroot).
    + rewrite map_map. erewrite map_ext_in; [exact Hnd|]. intros q _. destruct (in_root _ q) eqn:E; [|done].
      apply streq_true in E. by destruct (negb _).
  - eexists. split; [reflexivity|]. split; [set_solver|]. rewrite map_app. apply NoDup_snoc; [done|].
    intros (p & Hroot & Hp)%list_elem_of_fmap. apply not_true_iff_false in Hex. apply Hex. apply existsb_exists. exists p.
    split; [by apply list_elem_of_In|]. unfold in_root. by rewrite <- Hroot, streq_refl.
Qed.
Definition reservation (job : IndexJob) (token : gostring) (fence : Z) : indexJobOwnership :=
  mkOwnership (j_WorkspaceRoot job) (j_JobID job) token fence 0 (j_CreatedAt job) None.
Lemma reserve_succeeds w w1 job : good w -> jobs w1 = jobs w ++ [mkJobRow job false] -> ownership w1 = ownership w ->
  constraints w1 = true -> workspace_free (j_WorkspaceRoot job) w ->
  succeeds (reserveIndexJobTx job) w1 (fun _ w2 => exists n l, w2 = with_ownership l w1 /\ constraints w2 = true /\
    reservation job (newIndexID n "idxowner") (next_fence (j_WorkspaceRoot job) w) ∈ l).
Proof.
  intros Hg Hj Ho Hc Hfree. unfold reserveIndexJobTx. cbv zeta.
  assert (Hrel : forall p, p ∈ ownership w1 -> in_root (j_WorkspaceRoot job) p = true -> unreleased p = false).
  { rewrite Ho. intros p. by apply free_released. }
  eapply (runs_then _ _ w1 tt w1).
  { unfold retire_legacy. eapply runs_bind; [apply runs_load_active|apply runs_ret].
    rewrite Hj. intros r [Hin|Hin]%elem_of_app Hroot Hid; [by apply Hfree|]. apply list_elem_of_singleton in Hin as ->. done. }
  eapply (runs_then _ _ w1 _ w1).
  { unfold loadIndexJobOwnership. eapply runs_bind; [by apply runs_reads_db|apply runs_ret]. }
  set (owner := head (matching (fun o => streq (o_workspaceRoot o) (j_WorkspaceRoot job)) (ownership w1))).
  eapply (runs_then _ _ w1 tt w1).
  { destruct owner as [o|] eqn:Hh; [|apply runs_ret]. apply head_matching_Some in Hh as [Hroot Hin]. rewrite (Hrel o Hin Hroot). apply runs_ret. }
  eapply (succeeds_bind _ _ w1 (fun token w2 => w2 = w1 /\ exists n, token = newIndexID n "idxowner")).
  { apply (succeeds_any (fun n => newIndexID n "idxowner")). eauto. }
  intros token w2 [-> [n ->]].
  destruct (reserve_row_ok (reservation job (newIndexID n "idxowner") (next_fence (j_WorkspaceRoot job) w)) w1) as (l & Hrow & Hin & Hnd);
    [by apply constraints_keys|done|].
  assert (Hc2 : constraints (with_ownership l w1) = true).
  { apply constraints_index; [done|]. apply constraints_keys, keys_elim in Hc as (Hnd1 & _ & Hnd3). by apply index_keys_intro. }
  assert (Hfence : match owner with Some o => wrap64 (o_fencingToken o + 1) | None => 1%Z end = next_fence (j_WorkspaceRoot job) w).
  { unfold next_fence, owner. by rewrite Ho. }
  rewrite Hfence. eapply (runs_then _ _ w1 1%Z (with_ownership l w1)); [by apply runs_exec|]. cbn [Z.eqb].
  eapply succeeds_runs; [apply runs_ret|]. by exists n, l.
Qed.
Lemma succeeds_reserve_for job w Q : succeeds (reserveIndexJobTx job) w Q -> succeeds (reserve_for job) w Q.
Proof.
  intros Hs x Hx. destruct (Hs x Hx) as (a & Ha & Hq). unfold reserve_for. destruct (reserveIndexJobTx job x) as [r y].
  cbn in *. subst r. by exists a.
Qed.
Lemma create_succeeds job w : good w -> job_id (mkJobRow job false) ∉ map job_id (jobs w) ->
  j_GenerationID job ∉ map ig_GenerationID (index_generations w) -> workspace_free (j_WorkspaceRoot job) w ->
  succeeds (create_tx job) w (fun _ w' => jobs w' = jobs w ++ [mkJobRow job false] /\
    exists n, reservation job (newIndexID n "idxowner") (next_fence (j_WorkspaceRoot job) w) ∈ ownership w').
Proof.
  intros Hg Hid Hgen Hfree. pose proof (inv_constraints _ (g_graph _ Hg)) as Hc.
  destruct (keys_elim _ (good_keys w Hg)) as (Hnd1 & Hnd2 & Hnd3).
  set (w1 := with_jobs (jobs w ++ [mkJobRow job false]) w).
  assert (Hc1 : constraints w1 = true).
  { apply constraints_index; [done|]. apply index_keys_intro; [|done..]. cbn. rewrite map_app. by apply NoDup_snoc. }
  unfold create_tx. eapply (runs_then _ _ w 1%Z w1); [by apply runs_exec|].
  eapply succeeds_bind; [by apply succeeds_reserve_for, (reserve_succeeds w w1 job)|].
  intros u w2 (n & l & -> & Hc2 & Hin). set (w2 := with_ownership l w1) in *.
  eapply (runs_then _ _ w2 1%Z (fst (insert_index_generation job w2))).
  { apply runs_exec; [done|done|]. apply constraints_index; [done|]. pose proof (constraints_keys _ Hc2) as (Hk1 & Hk2 & Hk3)%keys_elim.
    apply index_keys_intro; [done|done|]. cbn. rewrite map_app. apply NoDup_snoc; [done|]. exact Hgen. }
  eapply succeeds_runs; [by apply runs_commit|]. split; [done|]. by exists n.
Qed.
(** The active job of a workspace that is taken. *)
Lemma load_active_last job w w1 r : good w -> jobs w1 = jobs w ++ [mkJobRow job false] -> job_id (mkJobRow job false) ∉ map job_id (jobs w) ->
  r ∈ jobs w -> active r = true -> job_root r = j_WorkspaceRoot job ->
  runs (loadActiveIndexJobTx (j_WorkspaceRoot job) (j_JobID job)) w1 (Some (r_job r)) w1.
Proof.
  intros Hg Hj Hid Hin Hact Hroot. unfold loadActiveIndexJobTx. eapply runs_bind; [by apply runs_reads_db|].
  set (l := matching _ (jobs w1)). assert (Hl : last l = Some r); [|rewrite Hl; apply runs_ret].
  assert (Hall : forall q, q ∈ l -> q = r).
  { intros q [Hc Hq]%matching_some. rewrite !andb_true_iff, negb_true_iff, streq_true, streq_false in Hc. destruct Hc as [[Hqr Hqi] Hqa].
    rewrite Hj in Hq. apply elem_of_app in Hq as [Hq|Hq]; [|by apply list_elem_of_singleton in Hq as ->].
    eapply same_active; [apply Hg|done|done|done|done|congruence]. }
  assert (Hr' : r ∈ l).
  { apply matching_some. rewrite Hj. split; [|set_solver]. rewrite !andb_true_iff, negb_true_iff, streq_true, streq_false.
    split_and!; [done| |done]. intros E. apply Hid. unfold job_id at 1. cbn. rewrite <- E. apply list_elem_of_fmap. by exists r. }
  destruct (last l) as [q|] eqn:Hq; [by apply last_elem, Hall in Hq as ->|]. apply last_None in Hq. rewrite Hq in Hr'. set_solver.
Qed.
Lemma create_refused job w r : good w -> job_id (mkJobRow job false) ∉ map job_id (jobs w) ->
  r ∈ jobs w -> active r = true -> job_root r = j_WorkspaceRoot job ->
  refuses (create_tx job) w (policy_mismatch job (ErrIndexJob (ActiveIndexJobError (r_job r)))).
Proof.
  intros Hg Hid Hin Hact Hroot. pose proof (inv_constraints _ (g_graph _ Hg)) as Hc.
  destruct (keys_elim _ (good_keys w Hg)) as (Hnd1 & Hnd2 & Hnd3).
  set (w1 := with_jobs (jobs w ++ [mkJobRow job false]) w).
  assert (Hc1 : constraints w1 = true).
  { apply constraints_index; [done|]. apply index_keys_intro; [|done..]. cbn. rewrite map_app. by apply NoDup_snoc. }
  unfold create_tx. eapply (runs_refuses _ _ w 1%Z w1); [by apply runs_exec|]. apply refuses_bind.
  assert (Href : refuses (reserveIndexJobTx job) w1 (ErrIndexJob (ActiveIndexJobError (r_job r)))).
  { unfold reserveIndexJobTx. cbv zeta. apply refuses_bind. unfold retire_legacy.
    eapply runs_refuses; [by eapply (load_active_last job w w1 r)|]. destruct (owner_of_job w r Hg Hin Hact) as (o & Ho & Hu).
    eapply (runs_refuses _ _ w1 (Some o) w1).
    { unfold loadIndexJobOwnershipByJob. eapply runs_bind; [by apply runs_reads_db|].
      change (ownership w1) with (ownership w). change (j_JobID (r_job r)) with (job_id r). rewrite Ho. apply runs_ret. }
    cbv zeta. rewrite Hu. eapply (runs_refuses _ _ w1 true w1); [apply runs_ret|]. apply refuses_throw. }
  intros x Hx. specialize (Href x Hx). unfold reserve_for. destruct (reserveIndexJobTx job x) as [q y]. cbn in *. by subst q.
Qed.

Section creating.
Context (name root mode entrypoint : gostring) (clean goOffline noEmbeddings : bool) (m : gostring).
Let creating := createIndexJob name root mode entrypoint clean goOffline noEmbeddings.
Let job (k : nat) : IndexJob := new_job k name root m entrypoint clean goOffline noEmbeddings.
Lemma create_prefix n d : good d -> schema_known d -> NormalizeIndexMode mode = Ok m ->
  exists k d1, good d1 /\ d_index d1 = d_index d /\ n <= k /\
    execute creating n d = execute (_ ← transaction (create_tx (job k)); attachIndexJobOwner (job k)) k d1.
Proof.
  intros Hg Hk Hm. pose proof (inv_constraints _ (g_graph _ Hg)) as Hc.
  destruct (execute_schema (S (S (S n))) d Hc Hk) as (k & d1 & Hs & Hi & _ & Hle). exists k, d1.
  assert (Hg1 : good d1).
  { apply (execute_follows alone _ rely_alone follows_schema _ _ _ _ _ Hg) in Hs as [_ ?]. done. }
  split_and!; [done|done|lia|]. unfold creating, createIndexJob. rewrite Hm.
  rewrite (execute_ok_bind _ _ n d m n d) by done. do 3 (erewrite execute_ok_bind by by apply execute_column). rewrite (execute_ok_bind _ _ _ _ _ _ _ Hs).
  by rewrite (execute_ok_bind _ _ _ _ _ _ _ (execute_asks _ _ _)).
Qed.
Lemma create_free n d : good d -> schema_known d -> NormalizeIndexMode mode = Ok m -> workspace_free root d ->
  (forall k, n <= k -> newIndexID k "idxjob" ∉ map job_id (jobs d)) -> (forall k, n <= k -> newIndexID k "idxgen" ∉ map ig_GenerationID (index_generations d)) ->
  exists j k d', execute creating n d = (Ok j, (k, d')) /\ j_Status j = IndexJobQueued /\ j_WorkspaceRoot j = root /\ j_Mode j = m /\
    j_FencingToken j = next_fence root d /\ held (j_JobID j) (fence_of j) d' = true /\
    exists r, jobs d' = jobs d ++ [r] /\ job_id r = j_JobID j.
Proof.
  intros Hg Hk Hm Hfree Hj Hgen. destruct (create_prefix n d Hg Hk Hm) as (k & d1 & Hg1 & Hi & Hle & ->).
  destruct (succeeds_immediate (create_tx (job k)) k d1 (fun _ w' => jobs w' = jobs d1 ++ [mkJobRow (job k) false] /\
    exists n, reservation (job k) (newIndexID n "idxowner") (next_fence root d1) ∈ ownership w')) as (k2 & d2 & Hrun & Hj2 & t & Ho2).
  { unfold create_tx. transactional. }
  { apply create_succeeds; [done|unfold jobs; rewrite Hi; by apply Hj|unfold index_generations; rewrite Hi; by apply Hgen|].
    intros r. unfold jobs. rewrite Hi. apply Hfree. }
  assert (Hg2 : good d2).
  { eapply advance_good; [exact Hg1|]. eapply (create_advance (job k)); [done|done|done|]. eapply immediate_ok; [|exact Hrun]. unfold create_tx. transactional. }
  erewrite execute_ok_bind by (unfold transaction; rewrite execute_access; exact Hrun).
  unfold attachIndexJobOwner. rewrite (execute_ok_bind _ _ _ _ _ _ _ (execute_fetch _ _ _)).
  set (o := reservation (job k) (newIndexID t "idxowner") (next_fence root d1)) in *.
  assert (Hrows : exists l, matching (fun o => streq (o_jobID o) (j_JobID (job k)) && unreleased o) (ownership d2) = o :: l).
  { destruct (matching _ _) as [|p l] eqn:E.
    - exfalso. assert (Hin : o ∈ matching (fun o => streq (o_jobID o) (j_JobID (job k)) && unreleased o) (ownership d2)).
      { apply matching_some. split; [|done]. by rewrite streq_refl. }
      rewrite E in Hin. set_solver.
    - exists l. f_equal. assert (Hin : p ∈ p :: l) by left. rewrite <- E in Hin. apply matching_some in Hin as [[Hid%streq_true _]%andb_true_iff Hin].
      eapply same_owner; [apply Hg2|done|done|]. exact Hid. }
  destruct Hrows as [l ->]. eexists _, _, d2. split; [reflexivity|]. split_and!; try done.
  - cbn. unfold next_fence, ownership. by rewrite Hi.
  - eapply held_intro; [exact Ho2|]. by apply owned_by_intro.
  - exists (mkJobRow (job k) false). split; [|done]. rewrite Hj2. unfold jobs. by rewrite Hi.
Qed.
Lemma create_taken n d r : good d -> schema_known d -> NormalizeIndexMode mode = Ok m ->
  (forall k, n <= k -> newIndexID k "idxjob" ∉ map job_id (jobs d)) -> r ∈ jobs d -> active r = true -> job_root r = root ->
  exists k l d', execute creating n d = (Err (policy_mismatch (job k) (ErrIndexJob (ActiveIndexJobError (r_job r)))), (l, d')) /\
    d_index d' = d_index d.
Proof.
  intros Hg Hk Hm Hj Hr0 Hact Hroot. destruct (create_prefix n d Hg Hk Hm) as (k & d1 & Hg1 & Hi & Hle & ->).
  destruct (refuses_immediate (create_tx (job k)) k d1 (policy_mismatch (job k) (ErrIndexJob (ActiveIndexJobError (r_job r))))) as [l Hrun].
  { unfold create_tx. transactional. }
  { apply create_refused; [done|unfold jobs; rewrite Hi; by apply Hj|unfold jobs; by rewrite Hi|done|done]. }
  exists k, l, d1. split; [|done]. erewrite execute_err_bind; [reflexivity|]. unfold transaction. rewrite execute_access. exact Hrun.
Qed.
End creating.

(** * A worker that has gone *)
Lemma constraints_jobs g w id : constraints w = true -> (forall r, job_id (g r) = job_id r) ->
  constraints (with_jobs (map (at_id id g) (jobs w)) w) = true.
Proof.
  intros Hc Hg. apply constraints_index; [done|]. apply constraints_keys, keys_elim in Hc as (H1' & H2' & H3').
  apply index_keys_intro; [|done..]. cbn. rewrite map_map. erewrite map_ext; [exact H1'|]. intros r. unfold at_id. by destruct (has_job_id id r).
Qed.
Lemma runs_by_owner e id f c g w r : constraints w = true -> (forall r, job_id (g r) = job_id r) -> r ∈ jobs w -> job_id r = id ->
  c r = true -> held id f w = true -> runs (exec_one e (by_owner id f c g)) w tt (with_jobs (map (at_id id g) (jobs w)) w).
Proof.
  intros Hc Hg Hin Hid Hcr Hheld. apply (runs_exec_one Hr); [|by apply constraints_jobs].
  pose proof (constraints_keys _ Hc) as (Hnd & _)%keys_elim.
  assert (Hcond : has_job_id id r && c r && held id f w = true).
  { rewrite Hcr, Hheld. by assert (has_job_id id r = true) as -> by by apply has_job_id_true. }
  unfold by_owner, update_jobs, update_where. f_equal.
  - f_equal. eapply (update_at id); [exact Hnd|exact Hin|done|exact Hcond|]. intros q. apply owner_cond.
  - eapply (matching_count job_id); [exact Hnd|exact Hin|exact Hcond|]. intros q _ Hq%owner_cond%has_job_id_true. congruence.
Qed.
Lemma runs_release id f now w o : constraints w = true -> o ∈ ownership w -> owned_by id f o = true ->
  (forall p, p ∈ ownership w -> o_jobID p = id -> p = o) ->
  runs (releaseIndexJobOwnershipTx id f now) w tt (with_ownership (map (released_by id f now) (ownership w)) w).
Proof.
  intros Hc Hin Hown Hu. pose proof (constraints_keys _ Hc) as (Hk1 & Hk2 & Hk3)%keys_elim. apply (runs_exec_one Hr).
  - unfold update_ownership, update_where. f_equal.
    eapply (matching_count o_workspaceRoot); [exact Hk2|exact Hin|done|]. intros p Hp (Hid & _)%owned_by_elim. by rewrite (Hu p Hp Hid).
  - apply constraints_index; [done|]. apply index_keys_intro; [done| |done]. cbn. rewrite map_map.
    erewrite map_ext; [exact Hk2|]. intros p. unfold released_by. by destruct (owned_by id f p).
Qed.
Lemma runs_runtime st c w : constraints w = true -> oneOf st [GraphRuntimeFresh; GraphRuntimeStale] = true ->
  exists w', runs (setGraphRuntimeStateTx st c) w tt w' /\ constraints w' = true /\ d_index w' = d_index w.
Proof.
  intros Hc Hst. unfold setGraphRuntimeStateTx. set (w1 := fst (upsert GraphRuntimeStateMeta (Some st) w)).
  assert (Hc1 : constraints w1 = true) by by apply constraints_upsert.
  set (u := if streq c [] then delete_meta GraphCatalogGenerationMeta else upsert GraphCatalogGenerationMeta (Some c)).
  assert (Hc2 : constraints (fst (u w1)) = true).
  { unfold u. destruct (streq c []); [|by apply constraints_upsert]. apply constraints_meta; [done|].
    eapply sublist_NoDup; [|apply (fmap_sublist fst), sublist_filter]. unfold constraints, unique in Hc1. by bool_to_prop. }
  exists (fst (u w1)). split_and!; [|done|by unfold u; destruct (streq c [])].
  eapply runs_bind; [by apply runs_expect|]. eapply (runs_bind _ _ w 1%Z w1); [by apply runs_exec|].
  eapply (runs_bind _ _ w1 (snd (u w1)) (fst (u w1))); [|apply runs_ret]. apply (runs_exec Hr); [|done]. by destruct (u w1).
Qed.
Lemma runs_generations e c g w : constraints w = true -> (forall q, ig_GenerationID (g q) = ig_GenerationID q) ->
  lenZ (matching (c w) (index_generations w)) = 1%Z ->
  exists l, runs (exec_one e (update_index_generations c g)) w tt (with_index_generations l w) /\ constraints (with_index_generations l w) = true.
Proof.
  intros Hc Hg Hone. exists (map (fun q => if c w q then g q else q) (index_generations w)).
  assert (Hc' : constraints (with_index_generations (map (fun q => if c w q then g q else q) (index_generations w)) w) = true).
  { pose proof (constraints_keys _ Hc) as (Hk1 & Hk2 & Hk3)%keys_elim. apply constraints_index; [done|].
    apply index_keys_intro; [done..|]. cbn. rewrite map_map. erewrite map_ext; [exact Hk3|]. intros q. cbn. by destruct (c w q). }
  split; [|done]. apply (runs_exec_one Hr); [|done]. unfold update_index_generations, update_where. by rewrite Hone.
Qed.

(** A job whose worker has gone: it has not started to publish, nobody asked it to stop, and its
    generation is still being built. *)
Record dead_worker (id : gostring) (r : index_job_row) (o : indexJobOwnership) (d : database) : Prop := {
  dw_row : r ∈ jobs d /\ job_id r = id;
  dw_status : job_status r ∈ [IndexJobQueued; IndexJobRunning];
  dw_owner : o ∈ ownership d /\ o_jobID o = id /\ unreleased o = true;
  dw_fence : o_ownerToken o <> [] /\ (0 < o_fencingToken o)%Z;
  dw_gone : (0 < o_pid o)%Z /\ forall n, process_exists n (o_pid o) = false;
  dw_generation : lenZ (matching (generation_is id ["building"; "staged"]) (index_generations d)) = 1%Z }.
Lemma failed_succeeds id r o message now d : good d -> dead_worker id r o d ->
  exists d', runs (failed_tx id message (fence_of_owner o) now) d tt d' /\
    jobs d' = map (at_id id (on_job (fail_job message now))) (jobs d).
Proof.
  intros Hg [[Hin Hid] Hs (Ho & Hoid & Hu) _ _ Hgen]. pose proof (inv_constraints _ (g_graph _ Hg)) as Hc.
  pose proof (or_wf _ (g_index _ Hg) r Hin) as Hwf. set (f := fence_of_owner o).
  assert (Hown : owned_by id f o = true) by by apply owned_by_intro.
  assert (Hheld : held id f d = true) by by eapply held_intro.
  assert (Hfail : failable r = true).
  { unfold failable, status_in. rewrite (wf_cancel r Hwf), (not_started r Hwf ltac:(set_solver)), !andb_true_iff. split_and!; [| |done].
    - apply eqb_true_iff, bool_decide_eq_false. revert Hs. generalize (job_status r). intros s Hs Hin'. set_unfold. naive_solver.
    - apply bool_decide_eq_true. set_solver. }
  set (g := on_job (fail_job message now)). set (w1 := with_jobs (map (at_id id g) (jobs d)) d).
  assert (Hc1 : constraints w1 = true) by by apply constraints_jobs.
  destruct (runs_generations stale (fun _ => generation_is id ["building"; "staged"]) (set_generation "failed" (Some message)) w1 Hc1)
    as (l & Hrun2 & Hc2); [done|exact Hgen|]. set (w2 := with_index_generations l w1) in *.
  assert (Hload : exists j, runs (loadIndexJobTx id) w2 (Some j) w2).
  { unfold loadIndexJobTx. destruct (matching (has_job_id id) (jobs w2)) as [|q m] eqn:E.
    - exfalso. assert (Hq : g r ∈ matching (has_job_id id) (jobs w2)).
      { apply matching_some. split; [by apply has_job_id_true|]. apply list_elem_of_fmap. exists r. split; [|done]. unfold at_id.
        by assert (has_job_id id r = true) as -> by by apply has_job_id_true. }
      rewrite E in Hq. set_solver.
    - exists (r_job q). eapply runs_bind; [by apply runs_reads_db|]. rewrite E. apply runs_ret. }
  destruct Hload as [j Hload].
  assert (Hmid : exists w3, runs (if touches_graph (j_Mode j) then setGraphRuntimeStateTx GraphRuntimeStale [] else mret tt) w2 tt w3 /\
    constraints w3 = true /\ d_index w3 = d_index w2).
  { destruct (touches_graph (j_Mode j)); [by apply runs_runtime|]. exists w2. by split; [apply runs_ret|]. }
  destruct Hmid as (w3 & Hrun3 & Hc3 & Hi3).
  assert (Ho3 : ownership w3 = ownership d) by (unfold ownership; by rewrite Hi3).
  exists (with_ownership (map (released_by id f now) (ownership w3)) w3). split; [|cbn; by rewrite Hi3].
  unfold failed_tx. eapply runs_bind; [by eapply (runs_by_owner _ id f failable g d r)|]. eapply runs_bind; [exact Hrun2|].
  eapply runs_bind; [exact Hload|]. eapply runs_bind; [apply runs_ret|]. eapply runs_bind; [exact Hrun3|].
  eapply runs_bind; [|by apply runs_commit]. eapply (runs_release id f now w3 o); [done|by rewrite Ho3|done|].
  rewrite Ho3. intros p Hp Hpid. eapply same_owner; [apply Hg|done|done|congruence].
Qed.
Lemma head_job d r : good d -> r ∈ jobs d -> exists l, matching (has_job_id (job_id r)) (jobs d) = r :: l.
Proof.
  intros Hg Hin. assert (Hm : r ∈ matching (has_job_id (job_id r)) (jobs d)) by (apply matching_some; split; [by apply has_job_id_true|done]).
  destruct (matching _ _) as [|q l] eqn:E; [set_solver|]. exists l. f_equal. assert (Hq : q ∈ q :: l) by left. rewrite <- E in Hq.
  apply matching_some in Hq as [Hid%has_job_id_true Hq]. eapply same_job; [apply good_keys, Hg|done|done|done].
Qed.
Lemma head_owner d o (c : indexJobOwnership -> bool) : good d -> o ∈ ownership d -> c o = true -> (forall p, c p = true -> o_jobID p = o_jobID o) ->
  exists l, matching c (ownership d) = o :: l.
Proof.
  intros Hg Hin Hc Hall. assert (Hm : o ∈ matching c (ownership d)) by by apply matching_some.
  destruct (matching _ _) as [|q l] eqn:E; [set_solver|]. exists l. f_equal. assert (Hq : q ∈ q :: l) by left. rewrite <- E in Hq.
  apply matching_some in Hq as [Hid%Hall Hq]. by eapply same_owner; [apply Hg|..].
Qed.
Lemma execute_attach job n d o : good d -> o ∈ ownership d -> o_jobID o = j_JobID job -> unreleased o = true ->
  execute (attachIndexJobOwner job) n d = (Ok (set_owner (o_ownerToken o) (o_fencingToken o) job), (S n, d)).
Proof.
  intros Hg Hin Hid Hu. unfold attachIndexJobOwner. rewrite (execute_ok_bind _ _ _ _ _ _ _ (execute_fetch _ _ _)).
  destruct (head_owner d o (fun o => streq (o_jobID o) (j_JobID job) && unreleased o) Hg Hin) as [l ->]; [|by intros p [Hp%streq_true _]%andb_true_iff; congruence|done].
  by rewrite Hid, streq_refl, Hu.
Qed.
Lemma dead_is_stale id r o n d job : good d -> dead_worker id r o d -> j_JobID job = id -> j_Status job = job_status r ->
  execute (staleIndexJobForRead job) n d = (Ok true, (S n, d)).
Proof.
  intros Hg [_ Hs (Ho & Hoid & Hu) [Ht Hf] [Hp Hgone] _] Hid Hst. unfold staleIndexJobForRead. rewrite Hst.
  assert (isIndexJobActive (job_status r) = true) as ->.
  { unfold isIndexJobActive, oneOf. apply bool_decide_eq_true. set_solver. }
  cbn [negb]. rewrite (execute_ok_bind _ _ _ _ _ _ _ (execute_fetch _ _ _)).
  destruct (head_owner d o (fun o => streq (o_jobID o) (j_JobID job)) Hg Ho) as [l ->]; [by apply streq_true; congruence|by intros p Hp'%streq_true; congruence|].
  cbv zeta. rewrite (proj2 (streq_false (o_ownerToken o) [])) by done. rewrite Hu.
  assert ((0 <? o_fencingToken o)%Z = true) as -> by by apply Z.ltb_lt. assert ((o_pid o <=? 0)%Z = false) as -> by (apply Z.leb_gt; lia).
  cbn [negb andb]. rewrite execute_asks. by rewrite Hgone.
Qed.
Lemma mark_dead id r o n d : good d -> schema_known d -> dead_worker id r o d ->
  exists k d' now, execute (MarkIndexJobFailed id staleJobMessage (fence_of_owner o)) n d = (Ok tt, (k, d')) /\ good d' /\
    jobs d' = map (at_id id (on_job (fail_job staleJobMessage now))) (jobs d).
Proof.
  intros Hg Hk Hd. destruct (execute_schema n d (inv_constraints _ (g_graph _ Hg)) Hk) as (k & d1 & Hs & Hi & _).
  assert (Hg1 : good d1) by by apply (execute_follows alone _ rely_alone follows_schema _ _ _ _ _ Hg) in Hs as [_ ?].
  assert (Hd1 : dead_worker id r o d1).
  { destruct Hd. constructor; unfold jobs, ownership, index_generations in *; by rewrite ?Hi. }
  destruct (failed_succeeds id r o staleJobMessage (stamp k) d1 Hg1 Hd1) as (d2 & Hrun & Hj).
  destruct (immediate_runs Hr (failed_tx id staleJobMessage (fence_of_owner o) (stamp k)) k d1 d2) as [k2 Himm]; [unfold failed_tx; transactional|done|].
  exists k2, d2, (stamp k). split_and!.
  - unfold MarkIndexJobFailed. rewrite (execute_ok_bind _ _ _ _ _ _ _ Hs). unfold resolve, resolveIndexJobFence, fence_of_owner at 1 2.
    destruct Hd as [_ _ _ [Ht Hf] _ _]. cbn [f_OwnerToken f_FencingToken]. rewrite (proj2 (streq_false (o_ownerToken o) [])) by done.
    assert ((o_fencingToken o <=? 0)%Z = false) as -> by (apply Z.leb_gt; lia). cbn [orb map_err].
    rewrite (execute_ok_bind _ _ k d1 (fence_of_owner o) k d1) by done. unfold db_now.
    rewrite (execute_ok_bind _ _ _ _ _ _ _ (execute_asks _ _ _)). unfold transaction. by rewrite execute_access.
  - eapply advance_good; [exact Hg1|]. eapply failed_advance; [done|]. eapply immediate_ok; [|exact Himm]. unfold failed_tx. transactional.
  - rewrite Hj. unfold jobs. by rewrite Hi.
Qed.
(** Whoever reads the job ends it, and the workspace is free. *)
Lemma dead_read id r o n d : good d -> schema_known d -> dead_worker id r o d ->
  exists j k d', execute (GetIndexJob id) n d = (Ok (Some j), (k, d')) /\ j_JobID j = id /\ j_Status j = IndexJobFailed /\ good d' /\
    workspace_free (job_root r) d'.
Proof.
  intros Hg Hk Hd. pose proof Hd as [[Hin Hid] Hs (Ho & Hoid & Hu) [Ht Hf] _ _].
  destruct (head_job d r Hg Hin) as [l Hl]. rewrite Hid in Hl.
  set (job := set_owner (o_ownerToken o) (o_fencingToken o) (r_job r)).
  destruct (mark_dead id r o (S (S (S n))) d Hg Hk Hd) as (k & d' & now & Hmark & Hg' & Hj).
  set (r' := on_job (fail_job staleJobMessage now) r).
  assert (Hr' : r' ∈ jobs d').
  { rewrite Hj. apply list_elem_of_fmap. exists r. split; [|done]. unfold at_id. by assert (has_job_id id r = true) as -> by by apply has_job_id_true. }
  destruct (head_job d' r' Hg' Hr') as [l' Hl']. change (job_id r') with (job_id r) in Hl'. rewrite Hid in Hl'.
  assert (Hsnap : exists j k2, execute (loadIndexJobSnapshot id) k d' = (Ok (Some j), (k2, d')) /\ j_JobID j = id /\ j_Status j = IndexJobFailed).
  { unfold loadIndexJobSnapshot, loadIndexJobRow. rewrite execute_bind, (execute_ok_bind _ _ _ _ _ _ _ (execute_fetch _ _ _)), Hl'.
    change (execute (mret (r_job <$> head (r' :: l'))) (S k) d') with (Ok (Some (r_job r')) : result store_error _, (S k, d')). cbv iota beta.
    unfold attachIndexJobOwner. rewrite execute_bind, (execute_ok_bind _ _ _ _ _ _ _ (execute_fetch _ _ _)).
    destruct (matching _ (ownership d')) as [|p m]; eexists _, _; (split; [reflexivity|by split]). }
  destruct Hsnap as (j & k2 & Hsnap & Hjid & Hjs). exists j, k2, d'. split_and!; [|done|done|done|].
  - unfold GetIndexJob, loadIndexJobRow. rewrite execute_bind, (execute_ok_bind _ _ _ _ _ _ _ (execute_fetch _ _ _)), Hl.
    change (execute (mret (r_job <$> head (r :: l))) (S n) d) with (Ok (Some (r_job r)) : result store_error _, (S n, d)). cbv iota beta.
    unfold reconcileIndexJobRead. rewrite (execute_ok_bind _ _ _ _ _ _ _ (execute_attach (r_job r) _ d o Hg Ho (eq_trans Hoid (eq_sym Hid)) Hu)).
    fold job. rewrite (execute_ok_bind _ _ _ _ _ _ _ (dead_is_stale id r o _ d job Hg Hd Hid eq_refl)).
    change (j_OwnerToken job) with (o_ownerToken o). rewrite (proj2 (streq_false (o_ownerToken o) [])) by done. cbn [negb orb].
    change (j_JobID job) with (job_id r). rewrite Hid. change (fence_of job) with (fence_of_owner o).
    rewrite execute_bind, execute_catch, Hmark. exact Hsnap.
  - intros q Hq Hroot. destruct (active q) eqn:Hact; [|done]. exfalso.
    rewrite Hj in Hq. apply list_elem_of_fmap in Hq as (q0 & -> & Hq0). unfold at_id in *. destruct (has_job_id id q0) eqn:E; [done|].
    assert (Hractive : active r = true) by (unfold active, isIndexJobActive, oneOf; apply bool_decide_eq_true; set_solver).
    assert (q0 = r) as -> by (eapply same_active; [apply Hg|done..]). apply not_true_iff_false in E. by apply E, has_job_id_true.
Qed.
End live.
