(* ===== verification/IndexJobsProps.v ===== *)
(** Properties of index jobs. *)
From S2P Require Import Prelude GoStrings GoStringFacts GoSort GoNum GoTime Graph GraphFacts GraphStore GraphStoreFacts IndexTables GraphValidate GraphValidateFacts GraphPublish GraphPublishFacts GraphActivation IndexJobs IndexPublish IndexJobsFacts IndexJobsSteps IndexJobsRuns IndexJobsSystem IndexJobsFences IndexJobsCancel IndexJobsPublication IndexJobsLive.

Local Open Scope go_scope.

Section properties.
Context `{UnicodeTables} `{NFC} `{UrlParser} `{SHA256}.

(** C28: however many processes run operations on index jobs and on graph generations, in any
    order of their accesses to the data base, with any call failing and any process dying
    in between: a workspace has at most one active job, an active job has the one
    unreleased reservation of its workspace, and every unreleased reservation is that of
    an active job of its workspace. *)
Theorem job_exclusive (conn : Connection) (host : Host) s0 s :
  fresh_system s0 -> rtc system_step s0 s ->
  (forall r r', r ∈ jobs (s_db s) -> r' ∈ jobs (s_db s) -> active r = true -> active r' = true ->
    job_root r = job_root r' -> r = r') /\
  (forall r, r ∈ jobs (s_db s) -> active r = true ->
    exists o, o ∈ ownership (s_db s) /\ o_jobID o = job_id r /\ o_workspaceRoot o = job_root r /\ unreleased o = true /\
      forall o', o' ∈ ownership (s_db s) -> unreleased o' = true -> o_workspaceRoot o' = job_root r -> o' = o) /\
  (forall o, o ∈ ownership (s_db s) -> unreleased o = true ->
    exists r, r ∈ jobs (s_db s) /\ job_id r = o_jobID o /\ job_root r = o_workspaceRoot o /\ active r = true).
Proof.
  intros Hf Hrun. apply system_run_good in Hrun as [[[_ Ho] _] _]; [|by apply fresh_good]. split_and!.
  - intros r r' Hr Hr'. by apply (same_active _ _ _ Ho).
  - intros r Hr Ha. destruct (or_owned _ Ho r Hr Ha) as (o & Hin & Hid & Hor & Hu). exists o. split_and!; try done.
    intros o' Hin' _ Hor'. eapply same_root; [apply Ho|done|done|congruence].
  - intros o Hin Hu. destruct (or_owner _ Ho o Hin) as (r & Hr & Hid & Hroot & Ha). exists r. auto.
Qed.

(** C29: the system refines the life cycle of jobs: what its users see of the jobs changes
    only by a job that appears, queued, in a workspace without an active job, and by a job
    that moves on to a status that may come next; so a job that has ended never changes,
    and none is forgotten. *)
Theorem job_lifecycle (conn : Connection) (host : Host) s0 s s' :
  fresh_system s0 -> rtc system_step s0 s -> rtc system_step s s' ->
  rtc life [] (view (s_db s)) /\ rtc life (view (s_db s)) (view (s_db s')) /\
  (forall v, v ∈ view (s_db s) -> isIndexJobActive (v_status v) = false -> v ∈ view (s_db s')).
Proof.
  intros Hf Hrun Hrun'. pose proof (fresh_good _ Hf) as Hg0. destruct (system_run_good _ _ Hrun Hg0) as [Hg Ha].
  destruct (system_run_good _ _ Hrun' Hg) as [_ Ha'].
  assert (Hlife : rtc life (view (s_db s)) (view (s_db s'))) by (eapply advances_life; [apply Hg|done]).
  split_and!; [|done|].
  - replace [] with (view (s_db s0)); [eapply advances_life; [apply Hg0|done]|].
    destruct Hf as (_ & Hi & _). unfold view, jobs. by rewrite Hi.
  - intros v Hv Hend. by eapply life_ended.
Qed.

(** C30: a fence that does not hold a job never holds it again, and every operation that needs
    it fails, whatever other processes do meanwhile; when they do nothing, jobs,
    reservations and generations stay as they are. *)
Theorem stale_fence (conn : Connection) (host : Host) s0 s s' id f :
  fresh_system s0 -> rtc system_step s0 s -> present id (s_db s) -> held id f (s_db s) = false ->
  rtc system_step s s' ->
  held id f (s_db s') = false /\
  forall (oth : Others) o n r k d', rely oth -> well_behaved o -> needs_fence id f o ->
    execute (run_job_operation o) n (s_db s') = (r, (k, d')) ->
    is_ok r = false /\ (oth = alone -> d_index d' = d_index (s_db s')).
Proof.
  intros Hf Hrun Hp Hh Hrun'. destruct (system_run_good _ _ Hrun (fresh_good _ Hf)) as [Hg _].
  destruct (system_run_good _ _ Hrun' Hg) as [Hg' Ha].
  assert (Hu : unheld id f (s_db s')) by (by eapply advances_unheld; [done|constructor]).
  split; [apply Hu|]. intros oth o n r k d' Hr Hw Hn Hex. eapply execute_powerless; [done|..|exact Hu|exact Hex].
  - by apply operation_follows.
  - by apply operation_powerless.
  - apply Hg'.
Qed.

(** a cancellation request that returns has settled what happens to the job: whatever other
    processes do in the meantime, the job that it returns is the one that was named and is
    neither queued nor running: it has ended, or its owner is asked to end it, or its
    publication had already started. *)
Theorem cancel_settles (conn : Connection) (host : Host) (oth : Others) s0 s id n j k d' :
  fresh_system s0 -> rtc system_step s0 s -> rely oth ->
  execute (RequestIndexJobCancelByID id) n (s_db s) = (Ok j, (k, d')) ->
  j_JobID j = id /\ j_Status j ∉ [IndexJobQueued; IndexJobRunning].
Proof.
  intros Hf Hrun Hr Hex. destruct (system_run_good _ _ Hrun (fresh_good _ Hf)) as [Hg _].
  eapply triple_request; [exact Hr|apply Hg|done|exact Hex].
Qed.

(** C31: publishing is all or nothing: when [publishOwned] succeeds, in one step the job went
    from running (or publishing), held by the fence, to succeeded with the numbers that
    were reported, its reservation was released, no other job changed, the pointers of the
    workspace name the job's generation, the graph generation that was given is the active
    one, and the state of the graph is fresh or stale as told; when it fails, the jobs, the
    graph and all metadata but the version of the ownership schema stay as they were. *)
Theorem publication_commits (conn : Connection) (host : Host) s0 s id generationID mode files symbols docs f graph rows :
  fresh_system s0 -> rtc system_step s0 s -> catalog_body rows ->
  let publishing := publishOwned id generationID mode files symbols docs f graph (writing rows) in
  (forall (oth : Others) n k d', rely oth -> execute publishing n (s_db s) = (Ok tt, (k, d')) ->
    exists d1, rtc advance (s_db s) d1 /\
      (exists r r', r ∈ jobs d1 /\ job_id r = id /\ may_publish r = true /\ held id f d1 = true /\
         r' ∈ jobs d' /\ job_id r' = id /\ job_status r' = IndexJobSucceeded /\
         j_Files (r_job r') = files /\ j_Symbols (r_job r') = symbols /\ j_Docs (r_job r') = docs) /\
      (forall g, held id g d' = false) /\ (forall r, job_id r <> id -> r ∈ jobs d' <-> r ∈ jobs d1) /\
      published generationID mode graph d1 d') /\
  (forall n e k d', @execute alone _ publishing n (s_db s) = (Err e, (k, d')) -> unpublished (s_db s) d').
Proof.
  intros Hf Hrun Hrows publishing. destruct (system_run_good _ _ Hrun (fresh_good _ Hf)) as [[Hg _] _]. split.
  - intros oth n k d' Hrel Hex.
    destruct (triple_publish id generationID mode files symbols docs f graph rows (s_db s) Hrows oth n (s_db s) tt k d' Hrel Hg (rtc_refl _ _) Hex)
      as (d1 & Ha & Hj & Hp & Hadv). exists d1. split; [done|].
    assert (Hg1 : good d1) by by eapply rtc_good. assert (Hg' : good d') by by eapply advance_good.
    destruct Hj as [(r & Hr & Hid & Hmay) Hheld (now & now' & Hjobs) _]. split_and!; [| | |done].
    + exists r, (on_job (succeed_job files symbols docs now') (start_publishing now r)). split_and!; try done.
      rewrite Hjobs. apply list_elem_of_fmap. exists r. split; [|done]. unfold at_id.
      by assert (has_job_id id r = true) as -> by by apply has_job_id_true.
    + intros g. eapply ended_unheld; [exact Hg'| | |].
      * rewrite Hjobs. apply list_elem_of_fmap. exists r. split; [|exact Hr]. unfold at_id.
        by assert (has_job_id id r = true) as -> by by apply has_job_id_true.
      * done.
      * done.
    + intros q Hq. rewrite Hjobs. by apply at_id_others.
  - intros n e k d' Hex. eapply publish_failure; [|exact Hex]. intros g. by apply writing_body.
Qed.

(** When no call fails and nobody interferes, asking for a job of a valid mode ends in one
    of two ways: a workspace without an active job gets one, queued, whose owner token and
    fencing token hold it, the fencing token being the successor of the last one of this
    workspace; in a workspace with an active job nothing changes, and the error carries
    that job and tells whether its policy differs from the one asked for. *)
Theorem creation_outcome (conn : Connection) (host : Host) s0 s n name root mode m entrypoint clean goOffline noEmbeddings :
  fresh_system s0 -> rtc system_step s0 s -> reliable -> schema_known (s_db s) -> NormalizeIndexMode mode = Ok m ->
  (forall k, n <= k -> newIndexID k "idxjob" ∉ map job_id (jobs (s_db s))) ->
  (forall k, n <= k -> newIndexID k "idxgen" ∉ map ig_GenerationID (index_generations (s_db s))) ->
  let outcome := @execute alone _ (createIndexJob name root mode entrypoint clean goOffline noEmbeddings) n (s_db s) in
  (workspace_free root (s_db s) ->
     exists j k d', outcome = (Ok j, (k, d')) /\ j_Status j = IndexJobQueued /\ j_WorkspaceRoot j = root /\ j_Mode j = m /\
       j_FencingToken j = next_fence root (s_db s) /\ held (j_JobID j) (fence_of j) d' = true /\
       exists r, jobs d' = jobs (s_db s) ++ [r] /\ job_id r = j_JobID j) /\
  (forall r, r ∈ jobs (s_db s) -> active r = true -> job_root r = root ->
     exists e k d', outcome = (Err e, (k, d')) /\ d_index d' = d_index (s_db s) /\
       e = job_error (if Bool.eqb (j_GoOffline (r_job r)) goOffline && Bool.eqb (j_NoEmbeddings (r_job r)) noEmbeddings
                      then ActiveIndexJobError (r_job r) else IndexJobPolicyMismatchError (r_job r) goOffline noEmbeddings)).
Proof.
  intros Hf Hrun Hrel Hk Hm Hj Hgen outcome. destruct (system_run_good _ _ Hrun (fresh_good _ Hf)) as [[Hg _] _]. split.
  - intros Hfree. by apply create_free.
  - intros r Hr Hact Hroot.
    destruct (create_taken Hrel name root mode entrypoint clean goOffline noEmbeddings m n (s_db s) r Hg Hk Hm Hj Hr Hact Hroot)
      as (k & l & d' & Hex & Hi).
    eexists _, l, d'. split; [exact Hex|]. split; [done|]. cbn [policy_mismatch new_job j_GoOffline j_NoEmbeddings].
    by destruct (Bool.eqb _ _), (Bool.eqb _ _).
Qed.

(** C32: a job whose worker is gone does not block its workspace: on a reliable connection,
    reading a queued or running job whose owner's process no longer exists marks it failed
    with its generation, releases the reservation, and leaves the workspace without an
    active job. *)
Theorem dead_worker_ends (conn : Connection) (host : Host) s0 s n id r o :
  fresh_system s0 -> rtc system_step s0 s -> reliable -> schema_known (s_db s) -> dead_worker id r o (s_db s) ->
  exists j k d', @execute alone _ (GetIndexJob id) n (s_db s) = (Ok (Some j), (k, d')) /\
    j_JobID j = id /\ j_Status j = IndexJobFailed /\ workspace_free (job_root r) d'.
Proof.
  intros Hf Hrun Hrel Hk Hd. destruct (system_run_good _ _ Hrun (fresh_good _ Hf)) as [[Hg _] _].
  destruct (dead_read Hrel id r o n (s_db s) Hg Hk Hd) as (j & k & d' & Hex & Hid & Hs & _ & Hfree). by exists j, k, d'.
Qed.
End properties.
