(* ===== verification/IndexJobsExample.v ===== *)
(** Index jobs of two workspaces, evaluated: the witnesses of the properties of index jobs,
    and what the model shows about jobs that nobody can end. *)
From S2P Require Import Prelude GoStrings GoStringFacts GoSort GoNum GoTime Graph GraphFacts GraphStore GraphStoreFacts IndexTables GraphValidate GraphValidateFacts GraphPublish GraphPublishFacts GraphStaging GraphActivation GraphPublishExample IndexJobs IndexPublish IndexJobsFacts IndexJobsSteps IndexJobsRuns IndexJobsSystem IndexJobsFences IndexJobsCancel IndexJobsPublication IndexJobsLive IndexJobsProps.

Local Open Scope go_scope.

Module Example_jobs.
Import Example_graph Example_publish.
#[local] Existing Instance latin_tables.
#[local] Existing Instance mixHash.
#[local] Existing Instance Example_graph.toy_nfc.
#[local] Existing Instance Example_graph.toy_url.

(** The length of an identifier counts the calls; only process 7 exists, and it cannot be killed. *)
#[local] Instance toy_host : Host := {
  now_at n := ((63900000000 + Z.of_nat n) * 1000000000)%Z;
  random_bytes n _ := Some (repeat "x"%char n);
  own_pid := 7;
  process_exists _ pid := (pid =? 7)%Z;
  process_terminated _ _ := false;
  process_waited _ _ := true;
  locks_removed _ := true }.
#[local] Existing Instance never.

Definition left {A} (r : result store_error A * (nat * database)) : nat * database := snd r.
Definition go (o : job_operation) (s : nat * database) : result store_error unit * (nat * database) :=
  @execute alone _ (run_job_operation o) (fst s) (snd s).
Definition start : nat * database := (0, empty_database).
Definition create (root : gostring) : job_operation := JobCreate "ws" root "" "" false false false.
(** The last job and its fence. *)
Definition last_job (s : nat * database) : IndexJob := default (bare_job [] [] []) (r_job <$> last (jobs (snd s))).
Definition last_fence (s : nat * database) : IndexJobFence :=
  default (mkFence [] 0) (fence_of_owner <$> last (ownership (snd s))).
Definition job_statuses (s : nat * database) : list gostring := map job_status (jobs (snd s)).

Definition s1 : nat * database := Eval vm_compute in left (go (create "/a") start).
Definition j1 : gostring := Eval vm_compute in j_JobID (last_job s1).
Definition f1 : IndexJobFence := Eval vm_compute in last_fence s1.
Definition s2 : nat * database := Eval vm_compute in left (go (JobRunning j1 7 "scan" f1) s1).
Definition s3 : nat * database := Eval vm_compute in left (go (create "/b") s2).
Definition s4 : nat * database := Eval vm_compute in left (go (JobSucceeded j1 3 2 1 f1) s3).
Definition s5 : nat * database := Eval vm_compute in left (go (create "/a") s4).

Example five_steps : [job_statuses s1; job_statuses s2; job_statuses s3; job_statuses s4; job_statuses s5]
  = [["queued"]; ["running"]; ["running"; "queued"]; ["succeeded"; "queued"]; ["succeeded"; "queued"; "queued"]].
Proof. vm_compute. reflexivity. Qed.

(** ** Reachable systems *)
Definition system_of (s : nat * database) : system := mkSystem (fst s) (snd s) [].
Lemma fresh_start : fresh_system (system_of start).
Proof. done. Qed.
Lemma goes o s s' : well_behaved o -> left (go o s) = s' -> rtc system_step (system_of s) (system_of s').
Proof.
  intros Hw <-. unfold go, left. destruct (execute _ _ _) as [r [k d']] eqn:E. by eapply operation_reaches.
Qed.
Lemma reach_s1 : rtc system_step (system_of start) (system_of s1).
Proof. eapply (goes (create "/a")); [done|]. vm_compute. reflexivity. Qed.
Lemma step_s2 : rtc system_step (system_of s1) (system_of s2).
Proof. eapply (goes (JobRunning j1 7 "scan" f1)); [done|]. vm_compute. reflexivity. Qed.
Lemma reach_s2 : rtc system_step (system_of start) (system_of s2).
Proof. etransitivity; [apply reach_s1|apply step_s2]. Qed.
Lemma reach_s3 : rtc system_step (system_of start) (system_of s3).
Proof. etransitivity; [apply reach_s2|]. eapply (goes (create "/b")); [done|]. vm_compute. reflexivity. Qed.
Lemma reach_s4 : rtc system_step (system_of start) (system_of s4).
Proof. etransitivity; [apply reach_s3|]. eapply (goes (JobSucceeded j1 3 2 1 f1)); [done|]. vm_compute. reflexivity. Qed.
Lemma step_s5 : rtc system_step (system_of s4) (system_of s5).
Proof. eapply (goes (create "/a")); [done|]. vm_compute. reflexivity. Qed.
Lemma reach_s5 : rtc system_step (system_of start) (system_of s5).
Proof. etransitivity; [apply reach_s4|apply step_s5]. Qed.

(** * Witnesses *)
Lemma job_exclusive_witness :
  job_statuses s5 = ["succeeded"; "queued"; "queued"] /\
  forall r r', r ∈ jobs (snd s5) -> r' ∈ jobs (snd s5) -> active r = true -> active r' = true -> job_root r = job_root r' -> r = r'.
Proof.
  split; [vm_compute; reflexivity|]. destruct (job_exclusive never toy_host (system_of start) (system_of s5) fresh_start reach_s5) as [Hex _].
  exact Hex.
Defined.
Lemma job_lifecycle_witness :
  rtc life [] (view (snd s4)) /\ mkView j1 "/a" "succeeded" ∈ view (snd s5).
Proof.
  destruct (job_lifecycle never toy_host (system_of start) (system_of s4) (system_of s5) fresh_start reach_s4 step_s5) as (Hl & _ & Hend).
  split; [exact Hl|]. apply Hend; [|vm_compute; reflexivity].
  replace (view (s_db (system_of s4))) with [mkView j1 "/a" "succeeded"; mkView (j_JobID (last_job s4)) "/b" "queued"] by (vm_compute; reflexivity).
  left.
Defined.
Lemma stale_fence_witness :
  held j1 f1 (snd s3) = true /\ held j1 f1 (snd s4) = false /\ held j1 f1 (snd s5) = false /\
  is_ok (fst (go (JobSucceeded j1 9 9 9 f1) s5)) = false.
Proof.
  destruct (stale_fence never toy_host (system_of start) (system_of s4) (system_of s5) j1 f1 fresh_start reach_s4) as [Hh Hop].
  - exists (default (mkJobRow (last_job s4) false) (head (jobs (snd s4)))). split; [vm_compute; left|vm_compute; reflexivity].
  - vm_compute. reflexivity.
  - exact step_s5.
  - split_and!; [vm_compute; reflexivity..|].
    destruct (go (JobSucceeded j1 9 9 9 f1) s5) as [r [k d']] eqn:E.
    exact (proj1 (Hop alone (JobSucceeded j1 9 9 9 f1) (fst s5) r k d' rely_alone I (nf_succeeded j1 f1 9 9 9) E)).
Defined.
Definition answer_of {A} (r : result store_error A * (nat * database)) : option A := match fst r with Ok a => Some a | Err _ => None end.
Definition canceling : result store_error IndexJob * (nat * database) :=
  Eval vm_compute in @execute alone _ (RequestIndexJobCancelByID j1) (fst s2) (snd s2).
Lemma cancel_settles_witness :
  j_Status <$> answer_of canceling = Some IndexJobCancelRequested /\
  forall j, answer_of canceling = Some j -> j_JobID j = j1 /\ j_Status j ∉ [IndexJobQueued; IndexJobRunning].
Proof.
  split; [vm_compute; reflexivity|]. intros j Hj. destruct canceling as [[j'|e] [k d']] eqn:E; [|done]. injection Hj as ->.
  eapply (cancel_settles never toy_host alone (system_of start) (system_of s2) j1 (fst s2) j k d' fresh_start reach_s2 rely_alone).
  rewrite <- E. vm_compute. reflexivity.
Defined.

(** The first job publishes a graph. *)
Definition graph1 : IndexJobGraphPublication := mkGraphPublication (Some (id_of first)) None 5 true (Some first) [] [].
Definition g1 : gostring := Eval vm_compute in j_GenerationID (default (last_job s2) (r_job <$> head (jobs (snd s2)))).
Definition publishing1 : Db unit := publishOwned j1 g1 "full" 3 2 1 f1 (Some graph1) (writing (mret tt)).
Definition p1 : result store_error unit * (nat * database) := Eval vm_compute in @execute alone _ publishing1 (fst s2) (snd s2).
Lemma no_rows : catalog_body (mret tt : Tx unit).
Proof. constructor; [quiet|]. intros w a w' [_ ->]%gives_ret. split; [done|apply modest_refl]. Qed.
Lemma publication_commits_witness :
  job_statuses (left p1) = ["succeeded"] /\ statuses (snd (left p1)) = ["active"] /\
  exists d, rtc advance (snd s2) d /\ published g1 "full" (Some graph1) d (snd (left p1)).
Proof.
  split; [vm_compute; reflexivity|]. split; [vm_compute; reflexivity|].
  destruct (publication_commits never toy_host (system_of start) (system_of s2) j1 g1 "full" 3 2 1 f1 (Some graph1) (mret tt)
    fresh_start reach_s2 no_rows) as [Hok _].
  assert (Hrun : @execute alone _ publishing1 (fst s2) (snd s2) = (Ok tt, (fst (left p1), snd (left p1)))) by (vm_compute; reflexivity).
  destruct (Hok alone (fst s2) (fst (left p1)) (snd (left p1)) rely_alone Hrun) as (d & Ha & _ & _ & _ & Hp). exists d. split; [exact Ha|exact Hp].
Defined.

Lemma fresh_ids prefix (known : list gostring) n :
  forallb (fun id => length id <? length prefix + 1 + 2 * n) known = true -> forall k, n <= k -> newIndexID k prefix ∉ known.
Proof.
  intros Hall k Hk Hin. rewrite forallb_forall in Hall. apply list_elem_of_In, Hall, Nat.ltb_lt in Hin.
  unfold newIndexID in Hin. cbn [random_bytes toy_host] in Hin. rewrite !length_app, length_hexEncode, repeat_length in Hin. cbn in Hin. lia.
Qed.
Lemma creation_outcome_witness :
  exists j k d', @execute alone _ (createIndexJob "ws" "/a" "docs" "" false false false) (fst s4) (snd s4) = (Ok j, (k, d')) /\
    j_Status j = IndexJobQueued /\ j_Mode j = IndexModeDocs /\ j_FencingToken j = 2%Z /\ held (j_JobID j) (fence_of j) d' = true.
Proof.
  destruct (creation_outcome never toy_host (system_of start) (system_of s4) (fst s4) "ws" "/a" "docs" IndexModeDocs "" false false false
    fresh_start reach_s4) as [Hfree _].
  - done.
  - right. vm_compute. reflexivity.
  - vm_compute. reflexivity.
  - apply fresh_ids. vm_compute. reflexivity.
  - apply fresh_ids. vm_compute. reflexivity.
  - destruct Hfree as (j & k & d' & Hex & Hs & _ & Hm & Hf & Hh & _).
    + intros r Hr. assert (Hall : forallb (fun r => negb (streq (job_root r) "/a") || negb (active r)) (jobs (snd s4)) = true) by (vm_compute; reflexivity).
      rewrite forallb_forall in Hall. apply list_elem_of_In, Hall in Hr. intros Hroot. cbv beta in Hr.
      rewrite Hroot, streq_refl in Hr. by apply negb_true_iff in Hr.
    + exists j, k, d'. split; [exact Hex|]. split; [exact Hs|]. split; [exact Hm|]. split; [|exact Hh]. rewrite Hf. vm_compute. reflexivity.
Defined.
(** A worker that is gone. *)
Definition s2d : nat * database := Eval vm_compute in left (go (JobRunning j1 99 "scan" f1) s1).
Lemma reach_s2d : rtc system_step (system_of start) (system_of s2d).
Proof. etransitivity; [apply reach_s1|]. eapply (goes (JobRunning j1 99 "scan" f1)); [done|]. vm_compute. reflexivity. Qed.
Definition r2d : index_job_row := Eval vm_compute in mkJobRow (set_owner [] 0 (last_job s2d)) false.
Definition o2d : indexJobOwnership := Eval vm_compute in default (mkOwnership [] [] [] 0 0 [] None) (last (ownership (snd s2d))).
Lemma dead_worker_ends_witness :
  job_statuses s2d = ["running"] /\
  exists j k d', @execute alone _ (GetIndexJob j1) (fst s2d) (snd s2d) = (Ok (Some j), (k, d')) /\ j_Status j = IndexJobFailed /\
    workspace_free "/a" d'.
Proof.
  split; [vm_compute; reflexivity|].
  destruct (dead_worker_ends never toy_host (system_of start) (system_of s2d) (fst s2d) j1 r2d o2d fresh_start reach_s2d)
    as (j & k & d' & Hex & _ & Hs & Hfree).
  - done.
  - right. vm_compute. reflexivity.
  - constructor.
    + split; [vm_compute; left|vm_compute; reflexivity].
    + apply (bool_decide_unpack _). vm_compute. exact I.
    + split; [vm_compute; left|]. split; vm_compute; reflexivity.
    + split; [|vm_compute; reflexivity]. intros E. apply (f_equal (@length ascii)) in E. vm_compute in E. discriminate E.
    + split; [vm_compute; reflexivity|]. intros n. vm_compute. reflexivity.
    + vm_compute. reflexivity.
  - exists j, k, d'. split; [exact Hex|]. split; [exact Hs|exact Hfree].
Defined.

(** * Jobs that nobody ends *)
Definition error_of {A} (r : result store_error A * (nat * database)) : option store_error := match fst r with Ok _ => None | Err e => Some e end.
(** The status that a cancellation reports. *)
Definition cancel (force : bool) (s : nat * database) : option gostring :=
  j_Status <$> answer_of (@execute alone _ (CancelIndexJob j1 force) (fst s) (snd s)).
(** The world of [toy_host] after process 7 has gone too. *)
#[local] Definition later_host : Host :=
  Build_Host (fun n => (63900000000 + Z.of_nat n) * 1000000000)%Z (fun n _ => Some (repeat "x"%char n)) 8 (fun _ _ => false)
    (fun _ _ => false) (fun _ _ => true) (fun _ => true).
Definition read_later (s : nat * database) : option gostring :=
  j_Status <$> mjoin (answer_of (@execute alone _ (GetIndexJob (H1 := later_host) j1) (fst s) (snd s))).
Definition create_later (s : nat * database) : option store_error :=
  error_of (@execute alone _ (createIndexJob (H1 := later_host) "ws" "/a" "" "" false false false) (fst s) (snd s)).
Definition still_active (e : option store_error) : bool :=
  match e with Some (ErrIndexJob (ActiveIndexJobError _)) => true | _ => false end.

(** A job that was asked to stop and whose worker dies before it does is not marked failed by
    reads, and keeps its workspace until somebody forces the cancellation. *)
Definition s6 : nat * database := Eval vm_compute in left (go (JobCancel j1 false) s2).
Example dead_canceled_worker :
  read_later s2 = Some IndexJobFailed /\ read_later s6 = Some IndexJobCancelRequested /\ still_active (create_later s6) = true.
Proof. split_and!; vm_compute; reflexivity. Qed.
(** A job whose publication was announced in a transaction of its own cannot fail or be
    canceled, not even by force; it keeps its workspace when its worker dies. *)
Definition s7 : nat * database := Eval vm_compute in left (go (JobPhase j1 IndexJobPublishing "write" f1) s2).
Example announced_publication :
  job_statuses s7 = [IndexJobPublishing] /\ error_of (go (JobFailed j1 "failure" f1) s7) = Some stale /\
  cancel false s7 = Some IndexJobPublishing /\ cancel true s7 = Some IndexJobPublishing /\
  read_later s7 = Some IndexJobPublishing /\ still_active (create_later s7) = true.
Proof. split_and!; vm_compute; reflexivity. Qed.
(** After its generation was marked as skipped, a job can succeed, but no longer fail or be
    canceled. *)
Definition s8 : nat * database := Eval vm_compute in left (go (JobSkipped j1 "nothing to do" f1) s2).
Definition s9 : nat * database := Eval vm_compute in left (go (JobCancel j1 false) s8).
Example skipped_generation :
  error_of (go (JobFailed j1 "failure" f1) s8) = Some stale /\
  job_statuses s9 = [IndexJobCancelRequested] /\ error_of (go (JobCanceled j1 f1) s9) = Some stale /\ cancel true s9 = None /\
  error_of (go (JobSucceeded j1 0 0 0 f1) s8) = None.
Proof. split_and!; vm_compute; reflexivity. Qed.
End Example_jobs.
