(* ===== verification/GraphImpact.v ===== *)
(** What a change touches: internal/model/graph_impact.go and
    internal/service/graph_impact.go.

    A request is normalized, the changed paths become seeds in the graph, the edges
    that point at what was reached are followed backwards level by level, and the
    items found are sorted and handed out in pages by a cursor. *)
From S2P Require Import Prelude GoStrings GoStringFacts GoSort GoNum GoBase64 Graph GraphStore.

Local Open Scope go_scope.

(** * The request *)
Definition GraphQueryDefaultDepth : Z := 1.
Definition GraphQueryMaxDepth : Z := 6.
Definition GraphQueryDefaultLimit : Z := 50.
Definition GraphQueryMaxLimit : Z := 500.
Definition GraphQueryDefaultToken : Z := 4000.
Definition GraphQueryMaxToken : Z := 20000.
Definition MaxImpactSeeds : nat := Z.to_nat 2048.

Record GraphImpactRelation := mkImpactRelation {
  ir_Relation : gostring; ir_Direction : gostring; ir_ClaimStatuses : list gostring; ir_Cost : Z;
  ir_Transitive : bool }.
Definition relation_row (claims : list gostring) (transitive : bool) (name : gostring) : GraphImpactRelation :=
  mkImpactRelation name "in" claims 1 transitive.
(** The keys of the map are the names of its rows. *)
Definition graphImpactRelations : list GraphImpactRelation :=
  let all := ["exact"; "extracted"; "inferred"] : list gostring in
  map (relation_row all true) ["calls"; "imports"; "implements"; "extends"] ++
  map (relation_row all false) ["tests"; "route_to_handler"; "publishes"; "consumes"; "reads"; "writes"] ++
  map (relation_row all true) ["fulfills"; "verifies"; "affects"; "supports"; "materializes"; "supersedes";
    "experiences"; "stages"; "maps"; "grounds_in"; "code"] ++
  [relation_row all false "doc_mentions"] ++
  map (relation_row ["exact"] false) ["doc_wikilink"; "doc_embed"; "doc_markdown_link"; "doc_id";
    "doc_hierarchy"; "doc_related"; "doc_depends"; "doc_supports"; "doc_contradicts"; "doc_supersedes"].
Definition graphDocumentRelation (relation : gostring) : bool :=
  oneOf relation ["fulfills"; "verifies"; "affects"; "supports"; "materializes"; "supersedes"; "experiences";
    "stages"; "maps"; "grounds_in"; "code"; "doc_mentions"; "doc_wikilink"; "doc_embed"; "doc_markdown_link";
    "doc_id"; "doc_hierarchy"; "doc_related"; "doc_depends"; "doc_supports"; "doc_contradicts"; "doc_supersedes"].
Definition GraphImpactRelations : list GraphImpactRelation :=
  sortOn compareString ir_Relation graphImpactRelations.

Record GraphImpactRequest := mkRequest {
  iq_Generation : gostring; iq_Paths : list gostring; iq_ChangedPaths : list gostring; iq_Mode : gostring;
  iq_Depth : Z; iq_Limit : Z; iq_TokenBudget : Z; iq_Direction : gostring; iq_Relations : list gostring;
  iq_IncludeTests : bool; iq_IncludeDocs : bool; iq_Cursor : gostring;
  iq_Omissions : list GraphImpactOmission; iq_Warnings : list gostring }.

Section request.
Context `{UnicodeTables}.

Definition GraphImpactRelationSemantics (relation : gostring) : option GraphImpactRelation :=
  find (fun r => streq (ir_Relation r) (toLower (trimSpace relation))) graphImpactRelations.

(** ** The bound on the seeds

    [container/heap] with the order of [impactSeedMaxHeap]: the largest path is on top.
    A heap is modelled by its elements, largest first. *)
Fixpoint heap_push (x : gostring) (h : list gostring) : list gostring :=
  match h with
  | [] => [x]
  | y :: h' => if lessString x y then y :: heap_push x h' else x :: h
  end.
Record seed_heap := mkSeedHeap {
  sh_heap : list gostring; sh_accepted : list gostring; sh_overflow : bool }.
Definition seed_path (raw : gostring) : gostring :=
  trimPrefix (trimSpace (replaceByte raw BSLASH "/")) "./".
Definition add_seed (max : nat) (s : seed_heap) (raw : gostring) : seed_heap :=
  let path := seed_path raw in
  if streq path [] || bool_decide (path ∈ sh_accepted s) then s
  else if length (sh_heap s) <? max
  then mkSeedHeap (heap_push path (sh_heap s)) (path :: sh_accepted s) (sh_overflow s)
  else
    match sh_heap s with
    | top :: rest =>
        if negb (lessString path top) then mkSeedHeap (sh_heap s) (sh_accepted s) true
        else mkSeedHeap (heap_push path rest) (path :: filter (fun p => p <> top) (sh_accepted s)) true
    | [] => mkSeedHeap [] (sh_accepted s) true
    end.
Definition boundedImpactSeedPaths (max : nat) (sources : list (list gostring)) : list gostring * bool :=
  let s := foldl (foldl (add_seed max)) (mkSeedHeap [] [] false) sources in
  (sortStrings (sh_heap s), sh_overflow s).

(** ** Normalization *)
Definition clean_relation (relation : gostring) : gostring := toLower (trimSpace relation).
Fixpoint keep_relations (unique : list gostring) (l : list gostring) : result query_error (list gostring) :=
  match l with
  | [] => Ok []
  | r :: l =>
      let relation := clean_relation r in
      if streq relation [] then keep_relations unique l
      else match GraphImpactRelationSemantics relation with
           | None => Err (field_err "GPH_IMPACT_RELATION_UNSUPPORTED" "edge" "relation has no impact semantics")
           | Some _ =>
               if bool_decide (relation ∈ unique) then keep_relations unique l
               else rest ← keep_relations (relation :: unique) l; Ok (relation :: rest)
           end
  end.
Definition default_relations (includeTests includeDocs : bool) : list gostring :=
  map ir_Relation (matching (fun r => negb (graphDocumentRelation (ir_Relation r) && negb includeDocs)
    && negb (streq (ir_Relation r) "tests" && negb includeTests)) GraphImpactRelations).

Definition seed_overflow_omission : GraphImpactOmission :=
  mkImpactOmission [] "normalized seed input exceeded the explicit bounded seed limit before ordering"
    "GPH_IMPACT_SEED_BUDGET_EXCEEDED" [].
Definition seed_overflow_warning : gostring :=
  "impact seed input was bounded before ordering; omitted seed paths were not traversed".
Definition orElse (v d : gostring) : gostring := if streq v [] then d else v.
Definition orZ (v d : Z) : Z := if (v =? 0)%Z then d else v.
Definition within (v max : Z) : bool := negb ((v <? 1) || (max <? v))%Z.
Definition budget_err (field message : gostring) : query_error :=
  field_err "GPH_IMPACT_BUDGET_INVALID" field message.

Definition Normalize (q : GraphImpactRequest) : result query_error GraphImpactRequest :=
  let direction := orElse (clean_relation (iq_Direction q)) "in" in
  _ ← ensure (streq direction "in") (field_err "GPH_IMPACT_RELATION_UNSUPPORTED" "direction"
        "impact semantics only support inbound dependency edges");
  let mode := orElse (clean_relation (iq_Mode q)) "direct" in
  _ ← ensure (oneOf mode ["direct"; "transitive"]) (budget_err "mode" "mode must be direct or transitive");
  let depth := orZ (iq_Depth q) GraphQueryDefaultDepth in
  let limit := orZ (iq_Limit q) GraphQueryDefaultLimit in
  let token := orZ (iq_TokenBudget q) GraphQueryDefaultToken in
  _ ← ensure (within depth GraphQueryMaxDepth) (budget_err "depth" "depth is outside the allowed range");
  _ ← ensure (within limit GraphQueryMaxLimit) (budget_err "limit" "limit is outside the allowed range");
  _ ← ensure (within token GraphQueryMaxToken) (budget_err "token_budget" "token budget is outside the allowed range");
  let '(paths, overflow) := boundedImpactSeedPaths MaxImpactSeeds [iq_Paths q; iq_ChangedPaths q] in
  relations ← keep_relations [] (iq_Relations q);
  let relations :=
    if bool_decide (relations = []) then default_relations (iq_IncludeTests q) (iq_IncludeDocs q)
    else relations in
  Ok (mkRequest (trimSpace (iq_Generation q)) paths paths mode depth limit token direction
        (sortStrings relations) (iq_IncludeTests q) (iq_IncludeDocs q) (iq_Cursor q)
        (if overflow then [seed_overflow_omission] else [])
        (if overflow then [seed_overflow_warning] else [])).
End request.

(** * The cursor *)
Record graphImpactCursor := mkCursor {
  ic_Generation : gostring; ic_Operation : gostring; ic_Paths : list gostring; ic_Mode : gostring;
  ic_Depth : Z; ic_Limit : Z; ic_Token : Z; ic_Direction : gostring; ic_Relations : list gostring;
  ic_IncludeTests : bool; ic_IncludeDocs : bool; ic_Offset : Z; ic_RequestDigest : gostring;
  ic_Checksum : gostring }.

(** ** Items *)
Record GraphImpactPathStep := mkStep {
  st_EdgeCrossRID : gostring; st_Relation : gostring; st_Status : gostring; st_FromCrossRID : gostring;
  st_ToCrossRID : gostring; st_EvidenceRefs : list gostring }.
Record GraphImpactItem := mkItem {
  it_Kind : gostring; it_Path : gostring; it_GenerationID : gostring; it_CrossRID : gostring;
  it_NodeKey : gostring; it_Display : gostring; it_OwnerPath : gostring; it_SymbolKind : gostring;
  it_Status : gostring; it_ConfidenceClass : gostring; it_Distance : Z; it_Relation : gostring;
  it_Reason : gostring; it_TriggerPath : gostring; it_NodeID : Z;
  it_EvidencePath : list GraphImpactPathStep; it_EvidenceRefs : list gostring }.
Record GraphImpactStats := mkStats {
  ss_Seeds : Z; ss_Visited : Z; ss_Frontier : Z; ss_Returned : Z; ss_Inferred : Z; ss_DepthReached : Z;
  ss_TokenUnits : Z; ss_Unresolved : Z }.
Record GraphImpactEnvelope := mkImpactEnvelope {
  ie_GenerationID : gostring; ie_GraphSchemaVersion : Z; ie_Mode : gostring; ie_Relations : list gostring;
  ie_Items : list GraphImpactItem; ie_Inferred : list GraphImpactItem; ie_Omissions : list GraphImpactOmission;
  ie_Stats : GraphImpactStats; ie_Truncated : bool; ie_Warnings : list gostring;
  ie_DeterminismDigest : gostring; ie_GraphFreshness : GraphFreshness; ie_Continuation : option gostring }.

(** encoding/json on the types of this file. *)
Class ImpactJSON := {
  json_cursor : graphImpactCursor -> gostring;
  unjson_cursor : gostring -> option graphImpactCursor;
  json_request : GraphImpactRequest -> gostring;
  json_item : GraphImpactItem -> gostring;
  json_result : GraphImpactRequest -> gostring -> list GraphImpactItem -> list GraphImpactItem ->
    GraphImpactStats -> gostring }.

Section cursor.
Context `{SHA256} `{ImpactJSON}.

Definition set_checksum (v : gostring) (c : graphImpactCursor) : graphImpactCursor :=
  mkCursor (ic_Generation c) (ic_Operation c) (ic_Paths c) (ic_Mode c) (ic_Depth c) (ic_Limit c) (ic_Token c)
    (ic_Direction c) (ic_Relations c) (ic_IncludeTests c) (ic_IncludeDocs c) (ic_Offset c)
    (ic_RequestDigest c) v.
Definition graphImpactCursorDigest (c : graphImpactCursor) : gostring :=
  hexEncode (sha256 (json_cursor (set_checksum [] c))).
Definition encodeGraphImpactCursor (c : graphImpactCursor) : gostring :=
  b64_encode (json_cursor (set_checksum (graphImpactCursorDigest c) c)).
Definition cursor_stale (message : gostring) : query_error := query_err "GPH_QUERY_CURSOR_STALE" message.
Definition decodeGraphImpactCursor (raw : gostring) : result query_error graphImpactCursor :=
  let invalid := cursor_stale "impact cursor is invalid or stale" in
  c ← of_option invalid (payload ← b64_decode raw; unjson_cursor payload);
  if streq (ic_Checksum c) [] || negb (streq (ic_Checksum c) (graphImpactCursorDigest c))
     || (ic_Offset c <? 0)%Z then Err invalid
  else if negb (streq (ic_Operation c) "nav.graph-impact") || (MaxImpactSeeds <? length (ic_Paths c))
  then Err invalid
  else Ok c.
Definition graphImpactRequestDigest (q : GraphImpactRequest) : gostring :=
  hexEncode (sha256 (json_request
    (mkRequest (iq_Generation q) (iq_Paths q) (iq_ChangedPaths q) (iq_Mode q) (iq_Depth q) (iq_Limit q)
       (iq_TokenBudget q) (iq_Direction q) (iq_Relations q) (iq_IncludeTests q) (iq_IncludeDocs q)
       [] [] []))).
Definition GraphImpactDeterminismDigest (q : GraphImpactRequest) (generation : digest)
    (items inferred : list GraphImpactItem) (stats : GraphImpactStats) : gostring :=
  hexEncode (sha256 (json_result q (digest_String generation) items inferred stats)).
End cursor.

(** * The search *)
Section impact.
Context `{UnicodeTables} `{SHA256} `{ImpactJSON} `{Connection}.

Definition impactPathKey (steps : list GraphImpactPathStep) : gostring :=
  mjoin (map (fun s => st_Relation s ++ [NUL] ++ st_FromCrossRID s ++ [NUL] ++ st_ToCrossRID s ++ [NUL]
                       ++ st_EdgeCrossRID s ++ [NUL]) steps).
Record graphImpactPath := mkPath { gp_Steps : list GraphImpactPathStep; gp_Key : gostring }.
Definition no_path : graphImpactPath := mkPath [] [].
Definition impactRelationCanTraverse (relation : gostring) : bool :=
  match GraphImpactRelationSemantics relation with Some r => ir_Transitive r | None => false end.
Definition impactConfidence (status : gostring) : gostring :=
  if oneOf status ["exact"; "extracted"; "inferred"] then status else "unknown".
Definition impactItemFromNode (generation : digest) (node : GraphNodeRecord) (distance : Z)
    (edge : GraphEdgeRecord) (trigger : gostring) (path : list GraphImpactPathStep) (refs : list gostring)
    : GraphImpactItem :=
  mkItem "node" (OwnerPath (n_Identity node)) (digest_String generation) (n_CrossRID node)
    (digest_String (n_NodeKey node)) (n_DisplayName node) (OwnerPath (n_Identity node))
    (SymbolKind (n_Identity node)) (n_ClaimStatus node) (impactConfidence (e_ClaimStatus edge)) distance
    (e_Relation edge) ("impacted by " ++ e_Relation edge ++ " relation") trigger (n_NodeID node) path refs.

(** The error of a store call as the caller sees it, and the test of the context. *)
Definition sanitized {A} (m : Q A) : Q A := fun n =>
  match m n with (Err e, n) => (Err (SanitizeGraphQueryError e), n) | r => r end.
Definition contextErr : Q unit := fun n => (if sql_fails n then Err ErrContext else Ok tt, S n).

Section snapshot.
Context (s : GraphQuerySnapshot).
Definition graphImpactStep (edge : GraphEdgeRecord) : Q GraphImpactPathStep :=
  from ← Node s (e_FromNodeID edge);
  to ← Node s (e_ToNodeID edge);
  refs ← EvidenceRefs s None (Some (e_EdgeID edge)) 32;
  mret (mkStep (e_CrossRID edge) (e_Relation edge) (e_ClaimStatus edge) (n_CrossRID from) (n_CrossRID to) refs).
(** The path of the node that triggers an item; a failed read leaves it empty. *)
Definition trigger_path (id : Z) : Q gostring := fun n =>
  match Node s id n with
  | (Ok parent, n) => (Ok (OwnerPath (n_Identity parent)), n)
  | (Err _, n) => (Ok [], n)
  end.

Record impact_state := mkImpact {
  im_visited : gset Z; im_paths : gmap Z graphImpactPath; im_next : list Z;
  im_primary : list GraphImpactItem; im_index : gmap gostring nat; im_inferred : list GraphImpactItem }.
Definition path_of (st : impact_state) (id : Z) : graphImpactPath := default no_path (im_paths st !! id).
Definition add_primary (item : GraphImpactItem) (st : impact_state) : impact_state :=
  match im_index st !! it_CrossRID item with
  | Some index =>
      mkImpact (im_visited st) (im_paths st) (im_next st) (<[index := item]> (im_primary st)) (im_index st)
        (im_inferred st)
  | None =>
      mkImpact (im_visited st) (im_paths st) (im_next st) (im_primary st ++ [item])
        (<[it_CrossRID item := length (im_primary st)]> (im_index st)) (im_inferred st)
  end.
(** A new path to [target], which joins the next level if the relation may be followed. *)
Definition reach (target : Z) (path : graphImpactPath) (follow : bool) (st : impact_state) : impact_state :=
  let paths := <[target := path]> (im_paths st) in
  if follow && negb (bool_decide (target ∈ im_visited st))
  then mkImpact ({[target]} ∪ im_visited st) paths (im_next st ++ [target]) (im_primary st) (im_index st) (im_inferred st)
  else mkImpact (im_visited st) paths (im_next st) (im_primary st) (im_index st) (im_inferred st).

Definition visit_primary (depth : Z) (st : impact_state) (edge : GraphEdgeRecord) : Q impact_state :=
  let target := e_FromNodeID edge in
  step ← sanitized (graphImpactStep edge);
  let steps := gp_Steps (path_of st (e_ToNodeID edge)) ++ [step] in
  let candidate := mkPath steps (impactPathKey steps) in
  let known :=
    match im_paths st !! target with
    | Some old => negb (streq (gp_Key old) []) && negb (lessString (gp_Key candidate) (gp_Key old))
    | None => false
    end in
  if known then mret st
  else
    let st := reach target candidate (impactRelationCanTraverse (e_Relation edge)) st in
    node ← sanitized (Node s target);
    trigger ← trigger_path (e_ToNodeID edge);
    mret (add_primary (impactItemFromNode (g_GenerationID (s_generation s)) node depth edge trigger steps
                         (st_EvidenceRefs step)) st).
Definition containsImpactItem (items : list GraphImpactItem) (crossRID : gostring) : bool :=
  existsb (fun i => streq (it_CrossRID i) crossRID) items.
Definition visit_inferred (depth : Z) (st : impact_state) (edge : GraphEdgeRecord) : Q impact_state :=
  step ← sanitized (graphImpactStep edge);
  let steps := gp_Steps (path_of st (e_ToNodeID edge)) ++ [step] in
  node ← sanitized (Node s (e_FromNodeID edge));
  trigger ← trigger_path (e_ToNodeID edge);
  let item := impactItemFromNode (g_GenerationID (s_generation s)) node depth edge trigger steps (st_EvidenceRefs step) in
  mret (if containsImpactItem (im_inferred st) (it_CrossRID item) then st
        else mkImpact (im_visited st) (im_paths st) (im_next st) (im_primary st) (im_index st)
               (im_inferred st ++ [item])).
Fixpoint visit_all (visit : impact_state -> GraphEdgeRecord -> Q impact_state) (st : impact_state)
    (edges : list GraphEdgeRecord) : Q impact_state :=
  match edges with
  | [] => mret st
  | e :: edges => st ← visit st e; visit_all visit st edges
  end.

Definition uniqueImpactInts (values : list Z) : list Z := sortInts (dedup values).
Definition next_level (st : impact_state) : impact_state :=
  mkImpact (im_visited st) (im_paths st) [] (im_primary st) (im_index st) (im_inferred st).

(** One pass of the loop over the depths. *)
Definition level (q : GraphImpactRequest) (depth : Z) (frontier : list Z) (st : impact_state) : Q impact_state :=
  _ ← contextErr;
  primaryEdges ← sanitized (ImpactEdgesFromFrontier s frontier (iq_Direction q) (iq_Relations q)
                              ["exact"; "extracted"] (iq_Limit q));
  inferredEdges ← sanitized (ImpactEdgesFromFrontier s frontier (iq_Direction q) (iq_Relations q)
                               ["inferred"] (iq_Limit q));
  st ← visit_all (visit_primary depth) (next_level st) primaryEdges;
  visit_all (visit_inferred depth) st inferredEdges.
Record search_result := mkSearch {
  sr_state : impact_state; sr_frontier : list Z; sr_depth : Z; sr_visited : Z; sr_truncated : bool }.
(** [fuel] counts the depths that are left, [maxDepth - depth + 1]. *)
Fixpoint search (q : GraphImpactRequest) (fuel : nat) (depth : Z) (r : search_result) : Q search_result :=
  match fuel with
  | O => mret r
  | S fuel =>
      if bool_decide (sr_frontier r = []) then mret r
      else
        st ← level q depth (sr_frontier r) (sr_state r);
        let visited := Z.of_nat (size (im_visited st)) in
        if streq (iq_Mode q) "direct" then mret (mkSearch st (sr_frontier r) depth visited (sr_truncated r))
        else
          let frontier := uniqueImpactInts (im_next st) in
          let truncated := sr_truncated r || (bool_decide (fuel = 0) && negb (bool_decide (frontier = []))) in
          search q fuel (depth + 1) (mkSearch st frontier depth visited truncated)
  end.
End snapshot.

(** ** Order and pages *)
Definition impactClaimRank (class : gostring) : Z :=
  if streq class "exact" then 0 else if streq class "extracted" then 1
  else if streq class "inferred" then 2 else 3.
Definition item_key (i : GraphImpactItem) : (Z * Z) * list gostring :=
  ((it_Distance i, impactClaimRank (it_ConfidenceClass i)),
   [it_Relation i; toLower (it_Display i); it_Display i; it_NodeKey i]).
Definition item_cmp : (Z * Z) * list gostring -> (Z * Z) * list gostring -> comparison :=
  cmp_pair (cmp_pair Z.compare Z.compare) by_text.
Definition sortImpactItems (items : list GraphImpactItem) : list GraphImpactItem := sortOn item_cmp item_key items.

Definition token_units (i : GraphImpactItem) : Z := (Z.of_nat (length (json_item i)) + 3) / 4.
Fixpoint select_items (limit budget : Z) (selected : list GraphImpactItem) (units : Z)
    (l : list GraphImpactItem) : list GraphImpactItem * Z :=
  match l with
  | [] => (selected, units)
  | item :: l =>
      if (limit <=? lenZ selected)%Z then (selected, units)
      else if (budget <? units + token_units item)%Z && (0 <? lenZ selected)%Z then (selected, units)
      else select_items limit budget (selected ++ [item]) (units + token_units item) l
  end.
Definition applyImpactBudget (q : GraphImpactRequest) (primary inferred : list GraphImpactItem) (offset : Z)
    : list GraphImpactItem * list GraphImpactItem * Z * bool * Z :=
  let all := primary ++ inferred in
  let offset := Z.max offset 0 in
  let offset := Z.min offset (lenZ all) in
  let '(selected, units) := select_items (iq_Limit q) (iq_TokenBudget q) [] 0 (drop (Z.to_nat offset) all) in
  let truncated := (offset + lenZ selected <? lenZ all)%Z in
  let primaryCount := Z.to_nat (Z.max 0 (Z.min (offset + lenZ selected) (lenZ primary) - offset)) in
  (take primaryCount selected, drop primaryCount selected, units, truncated, (offset + lenZ selected)%Z).

(** ** The handler *)
Definition appendStringIfMissing (items : list gostring) (value : gostring) : list gostring :=
  if bool_decide (value ∈ items) then items else items ++ [value].
Definition impactSeedBudgetOmitted (l : list GraphImpactOmission) : bool :=
  existsb (fun o => streq (io_Code o) "GPH_IMPACT_SEED_BUDGET_EXCEEDED") l.
Definition orList (v d : list gostring) : list gostring := if bool_decide (v = []) then d else v.
(** A request with a cursor takes what it leaves open from the cursor. *)
Definition resume (r : GraphImpactRequest) (c : graphImpactCursor) : GraphImpactRequest :=
  let none := bool_decide (iq_Paths r = []) && bool_decide (iq_ChangedPaths r = []) in
  mkRequest (orElse (iq_Generation r) (ic_Generation c))
    (if none then ic_Paths c else iq_Paths r) (if none then ic_Paths c else iq_ChangedPaths r)
    (orElse (iq_Mode r) (ic_Mode c)) (orZ (iq_Depth r) (ic_Depth c)) (orZ (iq_Limit r) (ic_Limit c))
    (orZ (iq_TokenBudget r) (ic_Token c)) (orElse (iq_Direction r) (ic_Direction c))
    (orList (iq_Relations r) (ic_Relations c)) (ic_IncludeTests c) (ic_IncludeDocs c)
    (trimSpace (iq_Cursor r)) (iq_Omissions r) (iq_Warnings r).
(** The cursor of the request and the request that it resumes. *)
Definition open_cursor (r : GraphImpactRequest)
    : result query_error (GraphImpactRequest * option graphImpactCursor) :=
  if streq (trimSpace (iq_Cursor r)) [] then Ok (r, None)
  else
    c ← decodeGraphImpactCursor (trimSpace (iq_Cursor r));
    if negb (streq (iq_Generation r) []) && negb (streq (ic_Generation c) (trimSpace (iq_Generation r)))
    then Err (cursor_stale "impact cursor generation does not match request")
    else Ok (resume r c, Some c).
Definition with_generation (g : gostring) (q : GraphImpactRequest) : GraphImpactRequest :=
  mkRequest g (iq_Paths q) (iq_ChangedPaths q) (iq_Mode q) (iq_Depth q) (iq_Limit q) (iq_TokenBudget q)
    (iq_Direction q) (iq_Relations q) (iq_IncludeTests q) (iq_IncludeDocs q) (iq_Cursor q) (iq_Omissions q)
    (iq_Warnings q).
Definition cursor_matches (q : GraphImpactRequest) (c : option graphImpactCursor) : bool :=
  streq (iq_Cursor q) []
  || (streq (default [] (ic_Generation <$> c)) (iq_Generation q)
      && streq (default [] (ic_RequestDigest <$> c)) (graphImpactRequestDigest q)).
(** A stale catalog has a code of its own here. *)
Definition open_error (e : query_error) : query_error :=
  match e with
  | GraphQueryError code _ _ _ =>
      if streq code "GPH_QUERY_GRAPH_INVALID"
      then query_err "GPH_IMPACT_GRAPH_STALE" "graph catalog is stale" else SanitizeGraphQueryError e
  | _ => SanitizeGraphQueryError e
  end.
Definition begin_snapshot (t : tables) (generation : gostring) : Q GraphQuerySnapshot := fun n =>
  match BeginGraphQuerySnapshot t generation n with (Err e, n) => (Err (open_error e), n) | r => r end.

Definition initial_state (seeds : list GraphNodeRecord) : impact_state :=
  let ids := map n_NodeID seeds in
  mkImpact (list_to_set ids) (foldl (fun m i => <[i := no_path]> m) ∅ ids) [] [] ∅ [].
Definition run_search (s : GraphQuerySnapshot) (q : GraphImpactRequest) (seeds : list GraphNodeRecord)
    : Q search_result :=
  let frontier := dedup (map n_NodeID seeds) in
  let maxDepth := (if streq (iq_Mode q) "transitive" then iq_Depth q else 1)%Z in
  search s q (Z.to_nat maxDepth) 1 (mkSearch (initial_state seeds) frontier 0 (lenZ frontier) false).
Definition next_cursor (q : GraphImpactRequest) (offset : Z) : graphImpactCursor :=
  mkCursor (iq_Generation q) "nav.graph-impact" (iq_Paths q) (iq_Mode q) (iq_Depth q) (iq_Limit q)
    (iq_TokenBudget q) (iq_Direction q) (iq_Relations q) (iq_IncludeTests q) (iq_IncludeDocs q) offset
    (graphImpactRequestDigest q) [].

Definition seed_warning : gostring := "impact seed resolution was bounded; omitted seeds were not traversed".
Definition truncated_warning : gostring :=
  "impact result truncated by limit or token budget; coverage is not complete".
Definition no_seed_path : GraphImpactOmission :=
  mkImpactOmission [] "at least one changed owner path is required" "GPH_IMPACT_SEED_UNRESOLVED" [].

(** The answer without a search, when no seed was found. *)
Definition empty_answer (s : GraphQuerySnapshot) (q : GraphImpactRequest) (omissions : list GraphImpactOmission)
    (truncated : bool) (warnings : list gostring) : GraphImpactEnvelope :=
  let g := s_generation s in
  let stats := mkStats 0 0 0 0 0 0 0 (g_UnresolvedCount g) in
  mkImpactEnvelope (digest_String (g_GenerationID g)) (g_SchemaVersion g) (iq_Mode q) (iq_Relations q) [] []
    omissions stats truncated warnings (GraphImpactDeterminismDigest q (g_GenerationID g) [] [] stats)
    (SnapshotFreshness s (iq_Generation q)) None.
(** The answer with one page of what the search found. *)
Definition page_answer (s : GraphQuerySnapshot) (q : GraphImpactRequest) (omissions : list GraphImpactOmission)
    (seedTruncated : bool) (warnings : list gostring) (seeds : Z) (offset : Z) (r : search_result)
    : GraphImpactEnvelope :=
  let g := s_generation s in
  let primary := sortImpactItems (im_primary (sr_state r)) in
  let inferred := sortImpactItems (im_inferred (sr_state r)) in
  let '(primary, inferred, units, outputTruncated, nextOffset) := applyImpactBudget q primary inferred offset in
  let truncated := outputTruncated || sr_truncated r || seedTruncated in
  let stats := mkStats seeds (sr_visited r) (lenZ (sr_frontier r)) (lenZ primary) (lenZ inferred) (sr_depth r)
                 units (g_UnresolvedCount g) in
  mkImpactEnvelope (digest_String (g_GenerationID g)) (g_SchemaVersion g) (iq_Mode q) (iq_Relations q)
    primary inferred omissions stats truncated
    (if truncated then appendStringIfMissing warnings truncated_warning else warnings)
    (GraphImpactDeterminismDigest q (g_GenerationID g) primary inferred stats)
    (SnapshotFreshness s (iq_Generation q))
    (if outputTruncated then Some (encodeGraphImpactCursor (next_cursor q nextOffset)) else None).

(** From the opened snapshot on. *)
Definition impact_answer (s : GraphQuerySnapshot) (q : GraphImpactRequest) (cursor : option graphImpactCursor)
    : Q GraphImpactEnvelope :=
  if negb (cursor_matches q cursor) then throw (cursor_stale "impact cursor parameters do not match request")
  else
    seeds ← sanitized (ResolveImpactSeeds s (iq_Paths q) (Z.of_nat MaxImpactSeeds));
    let seedTruncated := impactSeedBudgetOmitted (iq_Omissions q) || impactSeedBudgetOmitted (sd_Omissions seeds) in
    let warnings := if seedTruncated then appendStringIfMissing (iq_Warnings q) seed_warning else iq_Warnings q in
    let omissions := iq_Omissions q ++ sd_Omissions seeds
                     ++ (if bool_decide (iq_Paths q = []) then [no_seed_path] else []) in
    if bool_decide (sd_Nodes seeds = []) then mret (empty_answer s q omissions seedTruncated warnings)
    else
      r ← run_search s q (sd_Nodes seeds);
      mret (page_answer s q omissions seedTruncated warnings (lenZ (dedup (map n_NodeID (sd_Nodes seeds))))
              (default 0%Z (ic_Offset <$> cursor)) r).
Definition GraphImpact (t : tables) (request : GraphImpactRequest) : Q GraphImpactEnvelope :=
  opened ← lift (open_cursor request);
  q ← lift (Normalize opened.1);
  s ← begin_snapshot t (iq_Generation q);
  impact_answer s (with_generation (digest_String (g_GenerationID (s_generation s))) q) opened.2.
End impact.
