(* ===== verification/GraphImpactFacts.v ===== *)
(** Properties of the impact request and of its pages: the bound on the seeds, the
    normal form of a request, the cursor, and what the pages add up to. *)
From S2P Require Import Prelude GoStrings GoStringFacts GoSort GoNum GoBase64 Graph GraphFacts GraphStore GraphStoreFacts GraphImpact.

Local Open Scope go_scope.

(** * The seeds *)
Lemma lessString_lt x y : lessString x y = true <-> compareString x y = Lt.
Proof. unfold lessString. destruct (compareString x y); naive_solver. Qed.
Lemma lessString_false x y : lessString x y = false -> x <> y -> compareString y x = Lt.
Proof.
  unfold lessString. intros H Hne. rewrite (cmp_opp x y). destruct (compareString x y) eqn:E; [|done|done].
  by apply cmp_eq in E.
Qed.

Definition above (x y : gostring) : Prop := compareString y x = Lt.
Lemma heap_push_perm x h : heap_push x h ≡ₚ x :: h.
Proof. induction h as [|y h IH]; cbn; [done|]. destruct (lessString x y); [rewrite IH; apply perm_swap|done]. Qed.
Lemma heap_push_sorted x h : x ∉ h -> StronglySorted above h -> StronglySorted above (heap_push x h).
Proof.
  induction h as [|y h IH]; cbn; intros Hx Hs; [repeat constructor|].
  apply not_elem_of_cons in Hx as [Hxy Hx]. apply StronglySorted_cons in Hs as [Hy Hs].
  destruct (lessString x y) eqn:E.
  - constructor; [auto|]. rewrite heap_push_perm. constructor; [by apply lessString_lt|done].
  - apply lessString_false in E; [|done]. constructor; [by constructor|]. constructor; [done|].
    eapply Forall_impl; [exact Hy|]. intros z Hz. by eapply cmp_trans.
Qed.

(** The heap after the cleaned paths [L]: the smallest ones, and whether any was left out. *)
Record seeds_of (max : nat) (L : list gostring) (s : seed_heap) : Prop := {
  so_accepted : forall x, x ∈ sh_accepted s <-> x ∈ sh_heap s;
  so_sorted : StronglySorted above (sh_heap s);
  so_sub : forall x, x ∈ sh_heap s -> x ∈ L;
  so_length : length (sh_heap s) <= max;
  so_all : sh_overflow s = false -> forall x, x ∈ L -> x ∈ sh_heap s;
  so_least : sh_overflow s = true ->
    length (sh_heap s) = max /\ (exists x, x ∈ L /\ x ∉ sh_heap s) /\
    forall x y, x ∈ L -> x ∉ sh_heap s -> y ∈ sh_heap s -> compareString y x = Lt;
}.

Section seeds.
Context `{UnicodeTables}.

Lemma seeds_known max L s x : seeds_of max L s -> x ∈ sh_heap s -> seeds_of max (x :: L) s.
Proof.
  intros [Ha Hs Hsub Hl Hall Hle] Hx. split; [done|done|set_solver|done| |].
  - intros Hf y [->|Hy]%elem_of_cons; auto.
  - intros Ht. destruct (Hle Ht) as (? & (y & ? & ?) & Hlt). split_and!; [done|set_solver|].
    intros z w [->|Hz]%elem_of_cons; [done|]. by apply Hlt.
Qed.
Lemma seeds_room max L s x : seeds_of max L s -> x ∉ sh_heap s -> length (sh_heap s) < max ->
  seeds_of max (x :: L) (mkSeedHeap (heap_push x (sh_heap s)) (x :: sh_accepted s) (sh_overflow s)).
Proof.
  intros [Ha Hs Hsub Hl Hall Hle] Hx Hlt. assert (sh_overflow s = false) as Hov.
  { destruct (sh_overflow s); [|done]. destruct (Hle eq_refl). lia. }
  split; cbn [sh_heap sh_accepted sh_overflow].
  - intros y. rewrite heap_push_perm, !elem_of_cons, Ha. done.
  - by apply heap_push_sorted.
  - intros y. rewrite heap_push_perm. set_solver.
  - rewrite heap_push_perm. cbn. lia.
  - intros Hf y. rewrite heap_push_perm, !elem_of_cons. naive_solver.
  - congruence.
Qed.
(** The heap is full: the new path is left out, or it takes the place of the top. *)
Lemma seeds_reject max L s top rest x :
  seeds_of max L s -> length (sh_heap s) = max -> sh_heap s = top :: rest -> x ∉ sh_heap s ->
  lessString x top = false -> seeds_of max (x :: L) (mkSeedHeap (sh_heap s) (sh_accepted s) true).
Proof.
  intros [Ha Hs Hsub Hl Hall Hle] Hmax Hh Hx Hlt. split; cbn [sh_heap sh_accepted sh_overflow]; [done|done|set_solver|done|done|].
  intros _. split_and!; [done|exists x; set_solver|].
  intros z y Hz Hnz Hy. apply elem_of_cons in Hz as [->|Hz].
  - rewrite Hh in *. apply StronglySorted_cons in Hs as [Htop _]. apply not_elem_of_cons in Hx as [Hxt _].
    apply lessString_false in Hlt; [|done]. apply elem_of_cons in Hy as [->|Hy]; [done|].
    rewrite Forall_forall in Htop. eapply cmp_trans; [by apply Htop|done].
  - destruct (sh_overflow s) eqn:E; [by eapply Hle|]. by specialize (Hall eq_refl z Hz).
Qed.
Lemma seeds_replace max L s top rest x :
  seeds_of max L s -> length (sh_heap s) = max -> sh_heap s = top :: rest -> x ∉ sh_heap s ->
  lessString x top = true ->
  seeds_of max (x :: L) (mkSeedHeap (heap_push x rest) (x :: filter (fun p => p <> top) (sh_accepted s)) true).
Proof.
  intros [Ha Hs Hsub Hl Hall Hle] Hmax Hh Hx Hlt%lessString_lt. rewrite Hh in *.
  apply StronglySorted_cons in Hs as [Htop Hs]. rewrite Forall_forall in Htop.
  apply not_elem_of_cons in Hx as [Hxt Hx].
  assert (Htr : top ∉ rest). { intros Ht. specialize (Htop _ Ht). unfold above in Htop. by rewrite cmp_refl in Htop. }
  split; cbn [sh_heap sh_accepted sh_overflow].
  - intros y. rewrite heap_push_perm, !elem_of_cons, list_elem_of_filter, Ha, elem_of_cons.
    split; [naive_solver|]. intros [->|Hy]; [by left|]. right. split; [by intros ->|by right].
  - by apply heap_push_sorted.
  - intros y. rewrite heap_push_perm. set_solver.
  - rewrite heap_push_perm. cbn in *. lia.
  - done.
  - intros _. split_and!.
    + rewrite heap_push_perm. cbn in *. lia.
    + exists top. rewrite heap_push_perm, not_elem_of_cons. split; [right; apply Hsub; left|done].
    + intros z y Hz. rewrite heap_push_perm, not_elem_of_cons, elem_of_cons. intros [Hzx Hzr] Hy.
      apply elem_of_cons in Hz as [->|Hz]; [done|].
      assert (Hz' : z = top \/ compareString top z = Lt).
      { destruct (decide (z = top)); [by left|]. right. destruct (sh_overflow s) eqn:E.
        - eapply Hle; [done|done|by apply not_elem_of_cons|left].
        - specialize (Hall eq_refl z Hz). apply elem_of_cons in Hall as [?|?]; done. }
      assert (Hy' : compareString y top = Lt) by (destruct Hy as [->|Hy]; [done|by apply Htop]).
      destruct Hz' as [->|Hz']; [done|by eapply cmp_trans].
Qed.

Definition cleaned (raws : list gostring) : list gostring :=
  matching (fun p => negb (streq p [])) (map seed_path raws).
Lemma elem_of_cleaned x raws : x ∈ cleaned raws <-> x <> [] /\ exists r, r ∈ raws /\ x = seed_path r.
Proof.
  unfold cleaned, matching. rewrite list_elem_of_filter, list_elem_of_fmap.
  rewrite negb_true_iff, streq_false. naive_solver.
Qed.
Lemma seeds_step max L s raw : 0 < max ->
  seeds_of max L s -> seeds_of max (cleaned [raw] ++ L) (add_seed max s raw).
Proof.
  intros Hmax Hs. unfold add_seed, cleaned, matching. cbn [map]. rewrite filter_cons, filter_nil.
  destruct (streq (seed_path raw) []) eqn:E; cbn [negb orb].
  - rewrite decide_False by done. done.
  - rewrite decide_True by done. cbn [app]. case_bool_decide as Ha.
    + apply seeds_known; [done|]. by apply (so_accepted _ _ _ Hs).
    + rewrite (so_accepted _ _ _ Hs) in Ha. destruct (length (sh_heap s) <? max) eqn:El; bool_to_prop.
      * by apply seeds_room.
      * pose proof (so_length _ _ _ Hs). destruct (sh_heap s) as [|top rest] eqn:Eh; [cbn in *; lia|].
        rewrite <- Eh in *. destruct (lessString (seed_path raw) top) eqn:Et; cbn [negb].
        -- eapply seeds_replace; eauto; lia.
        -- eapply seeds_reject; eauto; lia.
Qed.

Lemma seeds_ext max L L' s : (forall x, x ∈ L <-> x ∈ L') -> seeds_of max L s -> seeds_of max L' s.
Proof.
  intros HL [Ha Hs Hsub Hl Hall Hle]. split; [done|done| |done| |].
  - intros x Hx. by apply HL, Hsub.
  - intros Hf x Hx%HL. auto.
  - intros Ht. destruct (Hle Ht) as (? & (x & Hx & ?) & Hlt). split_and!; [done|exists x; by rewrite <- HL|].
    intros y z Hy%HL. by apply Hlt.
Qed.
Lemma seeds_fold max L s raws : 0 < max ->
  seeds_of max L s -> seeds_of max (L ++ cleaned raws) (foldl (add_seed max) s raws).
Proof.
  intros Hmax. revert L s. induction raws as [|r raws IH]; intros L s Hs; cbn [foldl].
  - unfold cleaned, matching. cbn. by rewrite app_nil_r.
  - eapply seeds_ext; [|apply IH, seeds_step, Hs; done]. intros x.
    rewrite !elem_of_app, !elem_of_cleaned. set_solver.
Qed.
Lemma seeds_fold_sources max L s sources : 0 < max ->
  seeds_of max L s -> seeds_of max (L ++ cleaned (mjoin sources)) (foldl (foldl (add_seed max)) s sources).
Proof.
  intros Hmax. revert L s. induction sources as [|l sources IH]; intros L s Hs; cbn [foldl].
  - unfold cleaned, matching. cbn. by rewrite app_nil_r.
  - eapply seeds_ext; [|apply IH, seeds_fold, Hs; done]. intros x. cbn [mjoin list_join].
    rewrite !elem_of_app, !elem_of_cleaned. set_solver.
Qed.
End seeds.

Lemma sortStrings_app l1 l2 :
  (forall x y, x ∈ l1 -> y ∈ l2 -> compareString x y = Lt) ->
  sortStrings (l1 ++ l2) = sortStrings l1 ++ sortStrings l2.
Proof.
  intros Hlt. symmetry. apply (sorted_by_key_unique compareString id).
  - done.
  - apply StronglySorted_app; split_and!; [|apply sortOn_sorted; apply _..].
    intros x y Hx Hy. apply elem_of_sortOn in Hx, Hy. unfold before, id. by rewrite (Hlt x y).
  - apply sortOn_sorted; apply _.
  - unfold sortStrings. by rewrite !sortOn_perm.
Qed.
Lemma above_NoDup h : StronglySorted above h -> NoDup h.
Proof.
  induction 1 as [|x h _ IH Hx]; constructor; [|done]. intros Hin. rewrite Forall_forall in Hx.
  specialize (Hx _ Hin). unfold above in Hx. by rewrite cmp_refl in Hx.
Qed.

Lemma seeds_final max L s :
  seeds_of max L s ->
  sortStrings (sh_heap s) = take max (sortStrings (dedup L)) /\
  sh_overflow s = (max <? length (dedup L)).
Proof.
  intros [Ha Hs Hsub Hl Hall Hle]. pose proof (above_NoDup _ Hs) as Hnd.
  set (rest := filter (fun x => x ∉ sh_heap s) (dedup L)).
  assert (Hperm : dedup L ≡ₚ sh_heap s ++ rest).
  { apply NoDup_Permutation; [apply NoDup_dedup| |].
    - apply NoDup_app. split_and!; [done| |apply NoDup_filter, NoDup_dedup].
      intros x Hx. unfold rest. rewrite list_elem_of_filter. tauto.
    - intros x. unfold rest. rewrite elem_of_app, list_elem_of_filter, elem_of_dedup.
      destruct (decide (x ∈ sh_heap s)); naive_solver. }
  rewrite (sortStrings_ext _ _ Hperm). assert (Hlen := Permutation_length Hperm). rewrite length_app in Hlen.
  assert (Hin : forall x, x ∈ rest -> x ∈ L /\ x ∉ sh_heap s).
  { intros x. unfold rest. rewrite list_elem_of_filter, elem_of_dedup. tauto. }
  rewrite sortStrings_app.
  - destruct (sh_overflow s) eqn:Hov.
    + destruct (Hle eq_refl) as (Hmax & (x & Hx & Hnx) & _).
      assert (x ∈ rest) as Hr by (unfold rest; rewrite list_elem_of_filter, elem_of_dedup; done).
      rewrite take_app_length' by (unfold sortStrings; by rewrite length_sortOn by apply _).
      split; [done|]. symmetry. apply Nat.ltb_lt. apply list_elem_of_lookup in Hr as [i Hi%lookup_lt_Some]. lia.
    + assert (rest = []) as ->.
      { destruct rest as [|x r]; [done|]. destruct (Hin x ltac:(left)) as [Hx Hnx]. destruct Hnx. by apply Hall. }
      cbn in Hlen. unfold sortStrings. rewrite app_nil_r, take_ge by (rewrite length_sortOn by apply _; lia).
      split; [done|]. symmetry. apply Nat.ltb_ge. lia.
  - intros x y Hx [Hy Hny]%Hin. destruct (sh_overflow s) eqn:Hov; [by eapply Hle|].
    destruct Hny. by apply Hall.
Qed.

Section impact_request.
Context `{UnicodeTables}.

Lemma seeds_bounded_at max sources : 0 < max ->
  let distinct := sortStrings (dedup (cleaned (mjoin sources))) in
  boundedImpactSeedPaths max sources = (take max distinct, max <? length distinct).
Proof.
  intros Hmax distinct. unfold boundedImpactSeedPaths.
  pose proof (seeds_fold_sources max [] (mkSeedHeap [] [] false) sources Hmax) as Hs. cbn [app] in Hs.
  destruct (seeds_final max _ _ (Hs ltac:(split; cbn; [done|constructor|set_solver|lia|set_solver|done])))
    as [-> ->].
  f_equal. unfold distinct, sortStrings. by rewrite length_sortOn by apply _.
Qed.

Lemma bounded_seeds sources :
  let distinct := sortStrings (dedup (cleaned (mjoin sources))) in
  boundedImpactSeedPaths MaxImpactSeeds sources
  = (take MaxImpactSeeds distinct, MaxImpactSeeds <? length distinct).
Proof. apply seeds_bounded_at. unfold MaxImpactSeeds. lia. Qed.

(** The seeds of an impact search are the 2048 smallest of the distinct cleaned
    paths, in order, whatever the order and the repetitions of the input; the overflow
    is reported exactly when a path was left out. *)
Theorem seeds_bounded sources :
  let distinct := sortStrings (dedup (cleaned (mjoin sources))) in
  boundedImpactSeedPaths MaxImpactSeeds sources
  = (take MaxImpactSeeds distinct, MaxImpactSeeds <? length distinct).
Proof. apply bounded_seeds. Qed.

(** * The normal form of a request *)
Definition ascending (l : list gostring) : Prop := StronglySorted (before compareString id) l.
Definition has_semantics (relation : gostring) : Prop := is_Some (GraphImpactRelationSemantics relation).
Record normal (q : GraphImpactRequest) : Prop := {
  nq_direction : iq_Direction q = "in";
  nq_mode : oneOf (iq_Mode q) ["direct"; "transitive"] = true;
  nq_depth : (1 <= iq_Depth q <= GraphQueryMaxDepth)%Z;
  nq_limit : (1 <= iq_Limit q <= GraphQueryMaxLimit)%Z;
  nq_token : (1 <= iq_TokenBudget q <= GraphQueryMaxToken)%Z;
  nq_changed : iq_ChangedPaths q = iq_Paths q;
  nq_paths : ascending (iq_Paths q) /\ NoDup (iq_Paths q) /\ [] ∉ iq_Paths q;
  nq_seeds : length (iq_Paths q) <= MaxImpactSeeds;
  nq_relations : ascending (iq_Relations q) /\ NoDup (iq_Relations q) /\ iq_Relations q <> [] /\
    Forall has_semantics (iq_Relations q);
}.

Lemma keep_relations_spec unique l l' :
  keep_relations unique l = Ok l' ->
  NoDup l' /\ (forall r, r ∈ l' -> r ∉ unique) /\ Forall has_semantics l' /\ Forall (fun r => r <> []) l'.
Proof.
  revert unique l'; induction l as [|r l IH]; intros unique l'; cbn [keep_relations].
  { intros [= <-]. split_and!; [constructor|set_solver|constructor..]. }
  destruct (streq (clean_relation r) []) eqn:E; [apply IH|].
  destruct (GraphImpactRelationSemantics (clean_relation r)) as [sem|] eqn:Es; [|done].
  case_bool_decide as Hu; [apply IH|]. intros Hl. bind_inv Hl as rest Hrest. injection Hl as <-.
  destruct (IH _ _ Hrest) as (? & Hn & ? & ?). split_and!.
  - constructor; [|done]. intros Hin. destruct (Hn _ Hin). left.
  - intros x [->|Hx]%elem_of_cons; [done|]. intros Hxu. destruct (Hn _ Hx). by right.
  - constructor; [by eexists|done].
  - constructor; [by apply streq_false|done].
Qed.
Lemma table_relations_sem :
  forallb (fun r => bool_decide (has_semantics r)) (default_relations true true) = true.
Proof. by vm_compute. Qed.
Lemma default_relations_spec tests docs :
  NoDup (default_relations tests docs) /\ default_relations tests docs <> [] /\
  Forall has_semantics (default_relations tests docs).
Proof.
  assert (Hsub : forall r, r ∈ default_relations tests docs -> r ∈ default_relations true true).
  { unfold default_relations, matching. intros r. rewrite !list_elem_of_fmap. intros (x & -> & Hx).
    exists x. split; [done|]. apply list_elem_of_filter in Hx as [_ Hx]. apply list_elem_of_filter.
    by rewrite !andb_false_r. }
  split_and!.
  - apply (bool_decide_unpack _). destruct tests, docs; by vm_compute.
  - destruct tests, docs; by vm_compute.
  - apply Forall_forall. intros r Hr%Hsub. apply (bool_decide_unpack _), Is_true_true.
    by apply (proj1 (forallb_forall _ _) table_relations_sem), list_elem_of_In.
Qed.

Lemma within_spec v max : within v max = true <-> (1 <= v <= max)%Z.
Proof. unfold within. rewrite negb_true_iff, orb_false_iff, !Z.ltb_ge. done. Qed.
Lemma ascending_sort l : ascending (sortStrings l).
Proof. apply sortOn_sorted; apply _. Qed.
Lemma NoDup_sort l : NoDup l -> NoDup (sortStrings l).
Proof. unfold sortStrings. by rewrite sortOn_perm. Qed.
Lemma NoDup_take n (l : list gostring) : NoDup l -> NoDup (take n l).
Proof. intros Hl. rewrite <- (take_drop n l) in Hl. by apply NoDup_app in Hl as [? _]. Qed.
Lemma ascending_take n l : ascending l -> ascending (take n l).
Proof.
  intros Hl. rewrite <- (take_drop n l) in Hl. by apply StronglySorted_app_1_l in Hl.
Qed.

Lemma sorted_relations l :
  NoDup l -> l <> [] -> Forall has_semantics l ->
  let l' := sortStrings l in ascending l' /\ NoDup l' /\ l' <> [] /\ Forall has_semantics l'.
Proof.
  intros Hnd Hne Hall l'. assert (Hp : l' ≡ₚ l) by apply sortOn_perm. split_and!.
  - apply ascending_sort.
  - by apply NoDup_sort.
  - intros Hnil. rewrite Hnil in Hp. by apply Permutation_nil in Hp.
  - by rewrite Hp.
Qed.

Lemma Normalize_normal q q' :
  Normalize q = Ok q' ->
  normal q' /\
  (iq_Omissions q' <> [] <-> MaxImpactSeeds < length (dedup (cleaned (iq_Paths q ++ iq_ChangedPaths q)))).
Proof.
  unfold Normalize. intros Hn. bind_inv Hn as u1 H1. bind_inv Hn as u2 H2. bind_inv Hn as u3 H3.
  bind_inv Hn as u4 H4. bind_inv Hn as u5 H5. rewrite bounded_seeds in Hn.
  apply ensure_ok in H1, H2, H3, H4, H5. apply within_spec in H3, H4, H5. apply streq_true in H1.
  bind_inv Hn as rels Hrels. injection Hn as <-. destruct (keep_relations_spec _ _ _ Hrels) as (Hnd & _ & Hsem & _).
  destruct (default_relations_spec (iq_IncludeTests q) (iq_IncludeDocs q)) as (Hdnd & Hdne & Hdsem).
  rewrite !app_nil_r.
  set (D := sortStrings (dedup (cleaned _))).
  assert (HD : length D = length (dedup (cleaned (iq_Paths q ++ iq_ChangedPaths q)))).
  { by apply (length_sortOn compareString id). }
  split; [split; cbn [iq_Direction iq_Mode iq_Depth iq_Limit iq_TokenBudget iq_ChangedPaths iq_Paths iq_Relations]; try done|].
  - split_and!.
    + apply ascending_take, ascending_sort.
    + apply NoDup_take, NoDup_sort, NoDup_dedup.
    + intros Hin. apply elem_of_take in Hin as (i & Hi & _). apply list_elem_of_lookup_2 in Hi.
      unfold D, sortStrings in Hi. rewrite elem_of_sortOn in Hi by apply _.
      apply elem_of_dedup, elem_of_cleaned in Hi as [Hi _]. done.
  - rewrite length_take. lia.
  - case_bool_decide; by apply sorted_relations.
  - cbn [iq_Omissions]. rewrite <- HD. destruct (MaxImpactSeeds <? length D) eqn:E; bool_to_prop; split; try done; lia.
Qed.

(** A request that is accepted is in normal form: inbound direction, a known
    mode, depth, limit and token budget within their ranges, at most 2048 distinct
    non-empty seed paths in order, and distinct known relations in order, never none;
    an omission is reported exactly when seeds were left out. *)
Theorem normalize_typed q q' :
  Normalize q = Ok q' ->
  normal q' /\
  (iq_Omissions q' <> [] <-> MaxImpactSeeds < length (dedup (cleaned (iq_Paths q ++ iq_ChangedPaths q)))).
Proof. apply Normalize_normal. Qed.
End impact_request.

(** * Pages *)
Section pages.
Context `{UnicodeTables} `{SHA256} `{ImpactJSON} `{Connection}.

Definition units_of (l : list GraphImpactItem) : Z := foldr (fun i n => token_units i + n)%Z 0%Z l.
Lemma token_units_nonneg i : (0 <= token_units i)%Z.
Proof. unfold token_units. dlia. Qed.
Lemma lenZ_snoc {A} (l : list A) x : lenZ (l ++ [x]) = (lenZ l + 1)%Z.
Proof. unfold lenZ. rewrite length_app. cbn. lia. Qed.

(** What one page holds of the items that are left: a first part of them. *)
Lemma select_items_spec limit budget sel units l :
  exists k, select_items limit budget sel units l = (sel ++ take k l, units + units_of (take k l))%Z /\
    k <= length l /\
    (lenZ sel <= limit -> lenZ sel + Z.of_nat k <= limit)%Z /\
    (sel = [] -> l <> [] -> (1 <= limit)%Z -> 1 <= k) /\
    (units <= budget \/ lenZ sel <= 1 -> units + units_of (take k l) <= budget \/ lenZ sel + Z.of_nat k <= 1)%Z.
Proof.
  revert sel units; induction l as [|i l IH]; intros sel units; cbn [select_items].
  { exists 0. rewrite app_nil_r. cbn. split_and!; [f_equal; lia|lia|lia|done|lia]. }
  destruct (limit <=? lenZ sel)%Z eqn:E1; [|destruct ((budget <? units + token_units i) && (0 <? lenZ sel))%Z eqn:E2].
  1, 2: exists 0; rewrite take_0, app_nil_r; cbn [units_of foldr]; bool_to_prop; split_and!;
    [f_equal; lia|lia|lia| |lia]; intros -> ? ?; unfold lenZ in *; cbn in *; lia.
  destruct (IH (sel ++ [i]) (units + token_units i)%Z) as (k & -> & Hk & Hlim & _ & Hb).
  exists (S k). cbn [take units_of foldr]. fold (units_of (take k l)).
  rewrite lenZ_snoc in *. bool_to_prop. pose proof (token_units_nonneg i). split_and!.
  - rewrite <- app_assoc. f_equal. lia.
  - cbn. lia.
  - intros _. specialize (Hlim ltac:(lia)). lia.
  - lia.
  - intros Hu. apply andb_false_iff in E2. destruct E2 as [E2|E2]; bool_to_prop.
    + destruct Hb; [left; lia|left; lia|right; lia].
    + assert (lenZ sel = 0)%Z by (unfold lenZ in *; lia). destruct Hb; [right; lia|left; lia|right; lia].
Qed.

(** One page: [k] items from [offset] on, split at the end of the primary items. *)
Record page_of (q : GraphImpactRequest) (primary inferred : list GraphImpactItem) (offset k : nat)
    (p i : list GraphImpactItem) (units : Z) : Prop := {
  pg_primary : p = take k (drop offset primary);
  pg_inferred : i = take (k - length p) (drop (offset - length primary) inferred);
  pg_progress : offset < length (primary ++ inferred) -> (1 <= iq_Limit q)%Z -> 1 <= k;
  pg_bound : offset + k <= length (primary ++ inferred);
  pg_limit : (0 <= iq_Limit q -> lenZ (p ++ i) <= iq_Limit q)%Z;
  pg_units : units = units_of (p ++ i);
  pg_budget : (0 <= iq_TokenBudget q)%Z -> (units <= iq_TokenBudget q)%Z \/ length (p ++ i) <= 1;
}.
Lemma applyImpactBudget_page q primary inferred offset :
  offset <= length (primary ++ inferred) ->
  exists k p i units,
    applyImpactBudget q primary inferred (Z.of_nat offset)
    = (p, i, units, offset + k <? length (primary ++ inferred), Z.of_nat (offset + k)) /\
    page_of q primary inferred offset k p i units.
Proof.
  intros Hoff. unfold applyImpactBudget. set (all := primary ++ inferred) in *.
  rewrite Z.max_l, Z.min_l by (unfold lenZ; lia). rewrite Nat2Z.id.
  destruct (select_items_spec (iq_Limit q) (iq_TokenBudget q) [] 0 (drop offset all))
    as (k & -> & Hk & Hlim & Hprog & Hb). change (lenZ []) with 0%Z in *. cbn [app]. rewrite length_drop in Hk.
  assert (Hlen : length (take k (drop offset all)) = k) by (rewrite length_take, length_drop; lia).
  exists k. unfold lenZ. rewrite Hlen.
  set (pc := Z.to_nat _). set (p := take pc (take k (drop offset all))).
  set (i := drop pc (take k (drop offset all))).
  assert (Hpi : p ++ i = take k (drop offset all)) by apply take_drop.
  assert (Hall : length all = length primary + length inferred) by (unfold all; by rewrite length_app).
  assert (Hpc : pc = min k (length primary - offset)) by (unfold pc; lia).
  assert (Hp : p = take k (drop offset primary)).
  { unfold p, all. rewrite take_take, drop_app. rewrite take_app_le by (rewrite length_drop; lia).
    destruct (decide (k <= length primary - offset)); [f_equal; lia|].
    rewrite !take_ge by (rewrite length_drop; lia). done. }
  exists p, i, (0 + units_of (take k (drop offset all)))%Z. split.
  - f_equal; [f_equal|lia]. destruct (Z.ltb_spec (Z.of_nat offset + Z.of_nat k) (Z.of_nat (length all)));
      symmetry; [apply Nat.ltb_lt|apply Nat.ltb_ge]; lia.
  - split.
    + exact Hp.
    + unfold i, all. rewrite Hp, length_take, length_drop, (drop_app primary), skipn_firstn_comm, Hpc.
      destruct (decide (k <= length primary - offset)).
      * rewrite Nat.min_l, Nat.sub_diag, !take_0 by lia. done.
      * rewrite Nat.min_r by lia. f_equal. rewrite drop_app_length' by (rewrite length_drop; lia). done.
    + intros Hlt Hl. apply Hprog in Hl; [lia|done|]. intros Hnil%(f_equal length). rewrite length_drop in Hnil.
      cbn in Hnil. fold all in Hlt. lia.
    + fold all. lia.
    + intros Hl. rewrite Hpi. unfold lenZ. rewrite Hlen. lia.
    + by rewrite Hpi.
    + intros Hbd. rewrite Hpi, Hlen. destruct Hb; [by left|by left|right; lia].
Qed.
End pages.

(** * Continuing with a cursor *)

(** What the documentation of encoding/json promises of a struct of strings,
    numbers and lists: valid text is read back as it was written. *)
Definition cursor_texts (c : graphImpactCursor) : list gostring :=
  [ic_Generation c; ic_Operation c; ic_Mode c; ic_Direction c; ic_RequestDigest c; ic_Checksum c]
  ++ ic_Paths c ++ ic_Relations c.
Definition valid_text (s : gostring) : Prop := validString s = true.
Definition json_reads_back `{ImpactJSON} : Prop :=
  forall c, Forall valid_text (cursor_texts c) -> unjson_cursor (json_cursor c) = Some c /\ json_cursor c <> [].

Lemma solid_valid s : Forall (fun c => solid c = true) s -> valid_text s.
Proof.
  intros Hs. unfold valid_text. eapply utf8_valid, isASCII_utf8, forallb_forall. intros c Hc.
  apply list_elem_of_In in Hc. rewrite Forall_forall in Hs. apply Hs in Hc. apply andb_true_iff in Hc as [Hc _]. exact Hc.
Qed.

Section resume.
Context `{UnicodeTables} `{SHA256} `{ImpactJSON} `{Connection}.

(** Texts that normalization leaves alone. *)
Definition stable (q : GraphImpactRequest) : Prop :=
  Forall (fun p => seed_path p = p /\ valid_text p) (iq_Paths q) /\
  Forall (fun r => clean_relation r = r /\ valid_text r) (iq_Relations q).
(** The request of a caller that sends the cursor and nothing else. *)
Definition continue_request (text : gostring) : GraphImpactRequest :=
  mkRequest [] [] [] [] 0 0 0 [] [] false false text [] [].
Definition with_cursor (text : gostring) (q : GraphImpactRequest) : GraphImpactRequest :=
  mkRequest (iq_Generation q) (iq_Paths q) (iq_ChangedPaths q) (iq_Mode q) (iq_Depth q) (iq_Limit q)
    (iq_TokenBudget q) (iq_Direction q) (iq_Relations q) (iq_IncludeTests q) (iq_IncludeDocs q) text [] [].

Lemma seeds_fixed q : normal q -> stable q ->
  boundedImpactSeedPaths MaxImpactSeeds [iq_Paths q; iq_Paths q] = (iq_Paths q, false).
Proof.
  intros Hn [Hp _]. destruct (nq_paths _ Hn) as (Hasc & Hnd & Hne). rewrite bounded_seeds.
  assert (Hc : forall x, x ∈ cleaned (mjoin [iq_Paths q; iq_Paths q]) <-> x ∈ iq_Paths q).
  { intros x. rewrite elem_of_cleaned. cbn [mjoin list_join]. rewrite app_nil_r. rewrite Forall_forall in Hp. split.
    - intros (Hx & r & Hr & ->). assert (r ∈ iq_Paths q) as Hr' by set_solver. destruct (Hp _ Hr') as [-> _]. done.
    - intros Hx. split; [by intros ->|]. exists x. split; [set_solver|]. by destruct (Hp _ Hx). }
  assert (Hs : sortStrings (dedup (cleaned (mjoin [iq_Paths q; iq_Paths q]))) = iq_Paths q).
  { rewrite <- (sortStrings_fixed (iq_Paths q)) at 3 by done. apply sortStrings_ext, NoDup_Permutation; [apply NoDup_dedup|done|].
    intros x. by rewrite elem_of_dedup. }
  rewrite Hs, take_ge by apply (nq_seeds _ Hn). f_equal. apply Nat.ltb_ge, (nq_seeds _ Hn).
Qed.
Lemma keep_fixed unique l :
  NoDup l -> (forall r, r ∈ l -> r ∉ unique) -> Forall has_semantics l ->
  Forall (fun r => clean_relation r = r /\ valid_text r) l -> keep_relations unique l = Ok l.
Proof.
  revert unique; induction l as [|r l IH]; intros unique Hnd Hu Hsem Hst; [done|]. cbn [keep_relations].
  apply NoDup_cons in Hnd as [Hr Hnd]. apply Forall_cons in Hsem as [[sem Hsem] Hsems].
  apply Forall_cons in Hst as [[-> _] Hst].
  replace (streq r []) with false; [|symmetry; apply streq_false; intros ->; by vm_compute in Hsem].
  rewrite Hsem, bool_decide_false by (apply Hu; left). rewrite IH; [done|done| |done|done].
  intros x Hx. apply not_elem_of_cons. split; [by intros ->|]. apply Hu. by right.
Qed.
Lemma orZ_pos v d : (1 <= v)%Z -> orZ v d = v.
Proof. intros Hv. unfold orZ. by decide_cmp. Qed.
Lemma normalize_fixed q text : normal q -> stable q -> trimSpace (iq_Generation q) = iq_Generation q ->
  Normalize (with_cursor text q) = Ok (with_cursor text q).
Proof.
  intros Hn Hst Hg. unfold Normalize, with_cursor.
  cbn [iq_Generation iq_Paths iq_ChangedPaths iq_Mode iq_Depth iq_Limit iq_TokenBudget iq_Direction iq_Relations
    iq_IncludeTests iq_IncludeDocs iq_Cursor].
  pose proof (nq_depth _ Hn). pose proof (nq_limit _ Hn). pose proof (nq_token _ Hn).
  rewrite !orZ_pos by lia. rewrite (nq_direction _ Hn), (nq_changed _ Hn), (seeds_fixed q) by done.
  destruct (nq_relations _ Hn) as (Hasc & Hnd & Hne & Hsem).
  rewrite keep_fixed; [|done|set_solver|done|apply Hst].
  assert (Hm : orElse (clean_relation (iq_Mode q)) "direct" = iq_Mode q).
  { pose proof (nq_mode _ Hn) as Hm. unfold oneOf in Hm. apply bool_decide_eq_true_1 in Hm.
    repeat (apply elem_of_cons in Hm as [->|Hm]; [by vm_compute|]). by apply elem_of_nil in Hm. }
  rewrite Hm, (nq_mode _ Hn), Hg.
  replace (orElse (clean_relation "in") "in") with ("in" : gostring) by by vm_compute.
  rewrite streq_refl, (proj2 (within_spec _ _) (nq_depth _ Hn)), (proj2 (within_spec _ _) (nq_limit _ Hn)),
    (proj2 (within_spec _ _) (nq_token _ Hn)). cbn [ensure mbind result_bind].
  by rewrite bool_decide_false, sortStrings_fixed.
Qed.

(** The cursor of a normal request is read back, and its request is the same one. *)
Lemma cursor_reads_back q offset : json_reads_back -> normal q -> stable q ->
  Forall (fun c => solid c = true) (iq_Generation q) ->
  let c := next_cursor q (Z.of_nat offset) in
  open_cursor (continue_request (encodeGraphImpactCursor c))
  = Ok (with_cursor (encodeGraphImpactCursor c) q, Some (set_checksum (graphImpactCursorDigest c) c)).
Proof.
  intros Hj Hn Hst Hg c. unfold open_cursor, continue_request. cbn [iq_Cursor iq_Generation].
  set (text := encodeGraphImpactCursor c). set (c' := set_checksum (graphImpactCursorDigest c) c).
  assert (Hm : Forall (fun c => solid c = true) (iq_Mode q)).
  { pose proof (nq_mode _ Hn) as Hm. unfold oneOf in Hm. apply bool_decide_eq_true_1 in Hm.
    repeat (apply elem_of_cons in Hm as [->|Hm]; [repeat constructor; by vm_compute|]). by apply elem_of_nil in Hm. }
  destruct (Hj c') as [Hread Hne].
  { unfold cursor_texts, c', c, next_cursor, set_checksum. cbn [ic_Generation ic_Operation ic_Mode ic_Direction
      ic_RequestDigest ic_Checksum ic_Paths ic_Relations app]. rewrite (nq_direction _ Hn).
    destruct Hst as [Hp Hr]. repeat apply Forall_cons_2; try apply solid_valid; try done.
    - repeat constructor; by vm_compute.
    - repeat constructor; by vm_compute.
    - apply hexEncode_solid.
    - apply hexEncode_solid.
    - apply Forall_app. split; eapply Forall_impl; [exact Hp|by intros ? []|exact Hr|by intros ? []]. }
  assert (Htrim : trimSpace text = text) by apply trimSpace_all_solid, b64_encode_solid.
  rewrite Htrim. replace (streq text []) with false; [|symmetry; apply streq_false; by intros ?%b64_encode_nil].
  assert (Hdec : b64_decode text = Some (json_cursor c')) by apply b64_roundtrip. clearbody text.
  unfold decodeGraphImpactCursor. rewrite Hdec. cbn [mbind option_bind]. rewrite Hread. cbn [of_option mbind result_bind].
  change (graphImpactCursorDigest c') with (ic_Checksum c'). rewrite streq_refl.
  replace (streq (ic_Checksum c') []) with false.
  2:{ symmetry. apply streq_false. intros Hnil%(f_equal length). unfold c', set_checksum, graphImpactCursorDigest in Hnil.
      cbn [ic_Checksum] in Hnil. by rewrite length_hexEncode, sha256_length in Hnil. }
  change (ic_Offset c') with (Z.of_nat offset). change (ic_Operation c') with ("nav.graph-impact" : gostring).
  change (ic_Paths c') with (iq_Paths q). rewrite !streq_refl. decide_cmp.
  rewrite (proj2 (Nat.ltb_ge _ _) (nq_seeds _ Hn)). cbn [orb negb mbind result_bind].
  unfold resume. cbn [iq_Generation iq_Paths iq_ChangedPaths iq_Mode iq_Depth iq_Limit iq_TokenBudget iq_Direction
    iq_Relations iq_Cursor iq_Omissions iq_Warnings].
  unfold with_cursor. rewrite Htrim, (nq_changed _ Hn). done.
Qed.
End resume.

(** * Following the cursors *)
Section following.
Context `{UnicodeTables} `{SHA256} `{ImpactJSON} `{Connection} (Hr : reliable).

Lemma steady_sanitized {A} (m : Q A) : steady m -> steady (sanitized m).
Proof.
  intros Hm n n'. specialize (Hm n n'). unfold sanitized.
  destruct (m n) as [[|] ?], (m n') as [[|] ?]; cbn in *; congruence.
Qed.
Lemma steady_contextErr : steady contextErr.
Proof. intros n n'. unfold contextErr. by rewrite !Hr. Qed.
Lemma steady_trigger s id : steady (trigger_path s id).
Proof.
  intros n n'. pose proof (steady_Node s Hr id n n') as Hn. unfold trigger_path.
  destruct (Node s id n) as [[|] ?], (Node s id n') as [[|] ?]; cbn in *; congruence.
Qed.
Lemma steady_step s e : steady (graphImpactStep s e).
Proof. pose proof (steady_Node s Hr). pose proof (steady_EvidenceRefs s Hr). unfold graphImpactStep. steady. Qed.
Lemma steady_primary s d st e : steady (visit_primary s d st e).
Proof.
  pose proof (fun id => steady_sanitized _ (steady_Node s Hr id)). pose proof (steady_trigger s).
  pose proof (fun e => steady_sanitized _ (steady_step s e)). unfold visit_primary. steady.
Qed.
Lemma steady_inferred s d st e : steady (visit_inferred s d st e).
Proof.
  pose proof (fun id => steady_sanitized _ (steady_Node s Hr id)). pose proof (steady_trigger s).
  pose proof (fun e => steady_sanitized _ (steady_step s e)). unfold visit_inferred. steady.
Qed.
Lemma steady_visit_all visit st es :
  (forall st e, steady (visit st e)) -> steady (visit_all visit st es).
Proof. intros Hv. revert st; induction es; intros st; cbn [visit_all]; steady. Qed.
Lemma steady_level s q d f st : steady (level s q d f st).
Proof.
  pose proof steady_contextErr.
  pose proof (fun f d rs ss m => steady_sanitized _ (steady_ImpactEdges s Hr f d rs ss m)).
  pose proof (fun d st es => steady_visit_all _ st es (steady_primary s d)).
  pose proof (fun d st es => steady_visit_all _ st es (steady_inferred s d)). unfold level. steady.
Qed.
Lemma steady_search s q fuel d r : steady (search s q fuel d r).
Proof. pose proof (steady_level s q). revert d r; induction fuel; intros; cbn [search]; steady. Qed.
Lemma steady_answer s q c : steady (impact_answer s q c).
Proof.
  pose proof (fun ps m => steady_sanitized _ (steady_ResolveImpactSeeds s Hr ps m)).
  pose proof (steady_search s q). unfold impact_answer, run_search. steady.
Qed.
Lemma value_sanitized {A} (m : Q A) : value (sanitized m) = map_err SanitizeGraphQueryError (value m).
Proof. unfold value, sanitized. by destruct (m 0) as [[|] ?]. Qed.
Lemma value_begin_snapshot t g : value (begin_snapshot t g) = map_err open_error (value (BeginGraphQuerySnapshot t g)).
Proof. unfold value, begin_snapshot. by destruct (BeginGraphQuerySnapshot t g 0) as [[|] ?]. Qed.
Lemma steady_begin_snapshot t g : steady (begin_snapshot t g).
Proof.
  intros n n'. pose proof (steady_begin Hr t g n n') as Hb. unfold begin_snapshot.
  destruct (BeginGraphQuerySnapshot t g n) as [[|] ?], (BeginGraphQuerySnapshot t g n') as [[|] ?]; cbn in *; congruence.
Qed.
Lemma value_GraphImpact t r :
  value (GraphImpact t r) =
  (opened ← open_cursor r; q ← Normalize opened.1; s ← value (begin_snapshot t (iq_Generation q));
   value (impact_answer s (with_generation (digest_String (g_GenerationID (s_generation s))) q) opened.2)).
Proof.
  pose proof steady_answer. pose proof steady_begin_snapshot. unfold GraphImpact.
  rewrite value_bind by steady. cbn [lift value fst]. destruct (open_cursor r) as [o|]; [|done].
  change (value (lift (Ok o))) with (@Ok query_error _ o). cbn [mbind result_bind].
  rewrite value_bind by steady. destruct (Normalize o.1) as [q|]; [|done].
  change (value (lift (Ok q))) with (@Ok query_error _ q). cbn [mbind result_bind]. by rewrite value_bind by steady.
Qed.

(** The cursor of a request plays no part in the search. *)
Lemma search_with_cursor s q text fuel d r n :
  search s (with_cursor text q) fuel d r n = search s q fuel d r n.
Proof.
  revert d r n; induction fuel as [|fuel IH]; intros d r n; cbn [search]; [done|].
  destruct (bool_decide _); [done|]. change (level s (with_cursor text q)) with (level s q).
  unfold mbind, eff_bind. destruct (level s q d (sr_frontier r) (sr_state r) n) as [[st|e] n']; [|done].
  change (iq_Mode (with_cursor text q)) with (iq_Mode q). destruct (streq (iq_Mode q) "direct"); [done|]. apply IH.
Qed.
Lemma run_with_cursor s q text seeds : value (run_search s (with_cursor text q) seeds) = value (run_search s q seeds).
Proof. unfold value, run_search. by rewrite search_with_cursor. Qed.

(** What a search found, in the order in which it is handed out. *)
Definition found (r : search_result) : list GraphImpactItem * list GraphImpactItem :=
  (sortImpactItems (im_primary (sr_state r)), sortImpactItems (im_inferred (sr_state r))).

(** An answer that is the page at [offset]. *)
Definition page_at (q : GraphImpactRequest) (r : search_result) (offset : nat) (env : GraphImpactEnvelope) : Prop :=
  let '(primary, inferred) := found r in
  exists k units, page_of q primary inferred offset k (ie_Items env) (ie_Inferred env) units /\
    ss_TokenUnits (ie_Stats env) = units /\
    ie_Continuation env =
      if offset + k <? length (primary ++ inferred)
      then Some (encodeGraphImpactCursor (next_cursor q (Z.of_nat (offset + k)))) else None.
Definition same_query (q q' : GraphImpactRequest) : Prop := with_cursor [] q = with_cursor [] q'.
Lemma page_answer_page s q q' om tr ws n offset r :
  same_query q' q -> offset <= length (found r).1 + length (found r).2 ->
  page_at q r offset (page_answer s q' om tr ws n (Z.of_nat offset) r).
Proof.
  intros Hq Hoff. unfold page_at, page_answer. destruct (found r) as [primary inferred] eqn:Hf.
  unfold found in Hf. injection Hf as -> ->.
  change (applyImpactBudget q') with (applyImpactBudget (with_cursor [] q')). rewrite Hq.
  change (applyImpactBudget (with_cursor [] q)) with (applyImpactBudget q).
  destruct (applyImpactBudget_page q primary inferred offset) as (k & p & i & units & -> & Hpage).
  { by rewrite length_app. }
  exists k, units. cbn [ie_Items ie_Inferred ie_Stats ie_Continuation ss_TokenUnits]. split_and!; [done..|].
  change (next_cursor q') with (next_cursor (with_cursor [] q')). by rewrite Hq.
Qed.

(** Seeds and a search on a snapshot, without failures. *)
Record searched (t : tables) (q : GraphImpactRequest) (s : GraphQuerySnapshot) (seeds : GraphImpactSeedResolution)
    (r : search_result) : Prop := {
  se_begin : value (BeginGraphQuerySnapshot t (iq_Generation q)) = Ok s;
  se_generation : iq_Generation q = digest_String (g_GenerationID (s_generation s));
  se_seeds : value (ResolveImpactSeeds s (iq_Paths q) (Z.of_nat MaxImpactSeeds)) = Ok seeds;
  se_some : sd_Nodes seeds <> [];
  se_search : value (run_search s q (sd_Nodes seeds)) = Ok r;
}.
Lemma answer_searched t q q' s seeds r c :
  same_query q' q -> searched t q s seeds r -> cursor_matches q' c = true ->
  exists om tr ws, value (impact_answer s q' c)
    = Ok (page_answer s q' om tr ws (lenZ (dedup (map n_NodeID (sd_Nodes seeds))))
            (default 0%Z (ic_Offset <$> c)) r).
Proof.
  intros Hq [_ _ Hseeds Hne Hsearch] Hc. unfold impact_answer. rewrite Hc. cbn [negb].
  pose proof (steady_search s q').
  rewrite value_bind by (unfold run_search; steady).
  assert (iq_Paths q' = iq_Paths q) as -> by exact (f_equal iq_Paths Hq). rewrite value_sanitized, Hseeds. cbn [map_err mbind result_bind].
  rewrite bool_decide_false by done. rewrite value_bind by (unfold run_search; steady).
  rewrite <- (run_with_cursor s q' []), Hq, run_with_cursor, Hsearch. cbn [mbind result_bind]. by eexists _, _, _.
Qed.
Lemma continue_page t q s seeds r offset :
  json_reads_back -> normal q -> stable q -> searched t q s seeds r ->
  offset <= length (found r).1 + length (found r).2 ->
  exists env, value (GraphImpact t (continue_request (encodeGraphImpactCursor (next_cursor q (Z.of_nat offset))))) = Ok env /\
    page_at q r offset env.
Proof.
  intros Hj Hn Hst Hse Hoff. rewrite value_GraphImpact.
  assert (Hgen : Forall (fun c => solid c = true) (iq_Generation q)).
  { rewrite (se_generation _ _ _ _ _ Hse). apply hexEncode_solid. }
  rewrite cursor_reads_back by done. cbn [mbind result_bind fst snd].
  set (text := encodeGraphImpactCursor _). set (c := set_checksum _ _).
  rewrite normalize_fixed by (try done; by apply trimSpace_all_solid). cbn [mbind result_bind].
  change (iq_Generation (with_cursor text q)) with (iq_Generation q).
  rewrite value_begin_snapshot, (se_begin _ _ _ _ _ Hse). cbn [map_err mbind result_bind].
  rewrite <- (se_generation _ _ _ _ _ Hse). change (with_generation (iq_Generation q) (with_cursor text q)) with (with_cursor text q).
  destruct (answer_searched t q (with_cursor text q) s seeds r (Some c) eq_refl Hse) as (om & tr & ws & ->).
  { unfold cursor_matches. change (default [] (ic_Generation <$> Some c)) with (iq_Generation q).
    change (default [] (ic_RequestDigest <$> Some c)) with (graphImpactRequestDigest (with_cursor text q)).
    by rewrite !streq_refl, orb_true_r. }
  eexists. split; [done|]. change (default 0%Z (ic_Offset <$> Some c)) with (Z.of_nat offset).
  by apply page_answer_page.
Qed.

Fixpoint follow (t : tables) (fuel : nat) (r : GraphImpactRequest) : list GraphImpactEnvelope :=
  match fuel with
  | O => []
  | S fuel =>
      match value (GraphImpact t r) with
      | Err _ => []
      | Ok env =>
          env :: match ie_Continuation env with
                 | Some c => follow t fuel (continue_request c)
                 | None => []
                 end
      end
  end.
Definition page_bounds (q : GraphImpactRequest) (env : GraphImpactEnvelope) : Prop :=
  (lenZ (ie_Items env ++ ie_Inferred env) <= iq_Limit q)%Z /\
  ss_TokenUnits (ie_Stats env) = units_of (ie_Items env ++ ie_Inferred env) /\
  ((ss_TokenUnits (ie_Stats env) <= iq_TokenBudget q)%Z \/ length (ie_Items env ++ ie_Inferred env) <= 1).

Lemma page_at_bounds q r offset env : normal q -> page_at q r offset env -> page_bounds q env.
Proof.
  intros Hn. unfold page_at. destruct (found r) as [primary inferred]. intros (k & units & Hp & Hu & _).
  pose proof (nq_limit _ Hn). pose proof (nq_token _ Hn). unfold page_bounds. split_and!.
  - apply (pg_limit _ _ _ _ _ _ _ _ Hp). lia.
  - rewrite Hu. apply (pg_units _ _ _ _ _ _ _ _ Hp).
  - rewrite Hu. apply (pg_budget _ _ _ _ _ _ _ _ Hp). lia.
Qed.
(** The items of a page and the items after it. *)
Lemma page_rest q primary inferred offset k p i units :
  page_of q primary inferred offset k p i units ->
  p ++ drop (offset + k) primary = drop offset primary /\
  i ++ drop (offset + k - length primary) inferred = drop (offset - length primary) inferred.
Proof.
  intros Hp. rewrite (pg_inferred _ _ _ _ _ _ _ _ Hp), (pg_primary _ _ _ _ _ _ _ _ Hp). split.
  - by rewrite <- (take_drop k (drop offset primary)) at 2; rewrite drop_drop.
  - rewrite length_take, length_drop.
    rewrite <- (take_drop (k - k `min` (length primary - offset)) (drop (offset - length primary) inferred)) at 2.
    rewrite drop_drop. do 2 f_equal. lia.
Qed.
Lemma follow_from t q s seeds r m : json_reads_back -> normal q -> stable q -> searched t q s seeds r ->
  forall offset r0 env,
  length (found r).1 + length (found r).2 - offset < m -> offset <= length (found r).1 + length (found r).2 ->
  value (GraphImpact t r0) = Ok env -> page_at q r offset env ->
  exists pages, (forall fuel, length pages <= fuel -> follow t fuel r0 = pages) /\ pages <> [] /\
    pages ≫= ie_Items = drop offset (found r).1 /\
    pages ≫= ie_Inferred = drop (offset - length (found r).1) (found r).2 /\
    Forall (page_bounds q) pages.
Proof.
  intros Hj Hn Hst Hse. induction m as [|m IH]; intros offset r0 env Hm Hoff Henv Hpage; [lia|].
  pose proof (page_at_bounds _ _ _ _ Hn Hpage) as Hb. unfold page_at in Hpage.
  destruct (found r) as [primary inferred] eqn:Hf. cbn [fst snd] in *.
  destruct Hpage as (k & units & Hp & _ & Hcont). destruct (page_rest _ _ _ _ _ _ _ _ Hp) as [Hrp Hri].
  pose proof (pg_bound _ _ _ _ _ _ _ _ Hp) as Hbound. rewrite length_app in Hbound, Hcont.
  destruct (offset + k <? length primary + length inferred) eqn:Hlt; bool_to_prop.
  - destruct (continue_page t q s seeds r (offset + k) Hj Hn Hst Hse) as (env' & Henv' & Hpage').
    { rewrite Hf. cbn. lia. }
    pose proof (pg_progress _ _ _ _ _ _ _ _ Hp) as Hprog. rewrite length_app in Hprog.
    pose proof (nq_limit _ Hn). specialize (Hprog ltac:(lia) ltac:(lia)).
    destruct (IH (offset + k) _ env' ltac:(lia) ltac:(lia) Henv' Hpage') as (pages & Hfollow & _ & HI & HF & HB).
    exists (env :: pages). split_and!; [|done| | |by constructor].
    + intros [|fuel] Hfuel; cbn [length follow] in *; [lia|]. rewrite Henv, Hcont, Hfollow by lia. done.
    + by rewrite bind_cons, HI.
    + by rewrite bind_cons, HF.
  - exists [env]. split_and!; [|done| | |by constructor].
    + intros [|fuel] Hfuel; cbn [length follow] in *; [lia|]. by rewrite Henv, Hcont.
    + rewrite bind_cons, app_nil_r, <- Hrp, (drop_ge primary), app_nil_r by lia. done.
    + rewrite bind_cons, app_nil_r, <- Hri, (drop_ge inferred), app_nil_r by lia. done.
Qed.

Lemma normal_generation q g : normal q -> normal (with_generation g q).
Proof. by intros []. Qed.

Lemma normalize_cursor q q' : Normalize q = Ok q' -> iq_Cursor q' = iq_Cursor q.
Proof.
  unfold Normalize. intros Hn. do 5 (let u := fresh in let Hu := fresh in bind_inv Hn as u Hu; clear Hu). destruct (boundedImpactSeedPaths _ _).
  bind_inv Hn as rels Hrels. by injection Hn as <-.
Qed.
Lemma search_with_generation s q g fuel d r n :
  search s (with_generation g q) fuel d r n = search s q fuel d r n.
Proof.
  revert d r n; induction fuel as [|fuel IH]; intros d r n; cbn [search]; [done|].
  destruct (bool_decide _); [done|]. change (level s (with_generation g q)) with (level s q).
  unfold mbind, eff_bind. destruct (level s q d (sr_frontier r) (sr_state r) n) as [[st|e] n']; [|done].
  change (iq_Mode (with_generation g q)) with (iq_Mode q). destruct (streq (iq_Mode q) "direct"); [done|]. apply IH.
Qed.
Lemma run_with_generation s q g seeds : value (run_search s (with_generation g q) seeds) = value (run_search s q seeds).
Proof. unfold value, run_search. by rewrite search_with_generation. Qed.
Lemma first_empty s q seeds env :
  cursor_matches q None = true -> value (ResolveImpactSeeds s (iq_Paths q) (Z.of_nat MaxImpactSeeds)) = Ok seeds ->
  sd_Nodes seeds = [] -> value (impact_answer s q None) = Ok env ->
  ie_Items env = [] /\ ie_Inferred env = [] /\ ss_TokenUnits (ie_Stats env) = 0%Z /\ ie_Continuation env = None.
Proof.
  intros Hm Hseeds Hne. unfold impact_answer. rewrite Hm. cbn [negb]. pose proof (steady_search s q).
  rewrite value_bind, value_sanitized, Hseeds by (unfold run_search; steady). cbn [map_err mbind result_bind].
  rewrite bool_decide_true by done. by intros [= <-].
Qed.
Lemma first_search s q seeds env :
  cursor_matches q None = true -> value (ResolveImpactSeeds s (iq_Paths q) (Z.of_nat MaxImpactSeeds)) = Ok seeds ->
  sd_Nodes seeds <> [] -> value (impact_answer s q None) = Ok env ->
  exists r, value (run_search s q (sd_Nodes seeds)) = Ok r.
Proof.
  intros Hm Hseeds Hne. unfold impact_answer. rewrite Hm. cbn [negb]. pose proof (steady_search s q).
  rewrite value_bind, value_sanitized, Hseeds by (unfold run_search; steady). cbn [map_err mbind result_bind].
  rewrite bool_decide_false, value_bind by (done || (unfold run_search; steady)). intros Ha. bind_inv Ha as r Hres. eauto.
Qed.

(** C9: a caller that sends a request and then only the cursors of the answers gets
    every item of the search once, in order, page after page, each page within the
    limit and within the token budget (or a single item); the last page has no cursor.
    The request is one whose normalized paths and relations are valid text that is
    normalized to itself: a continuation normalizes them a second time. *)
Theorem pages_complete t r q env :
  json_reads_back -> iq_Cursor r = [] -> Normalize r = Ok q -> stable q -> value (GraphImpact t r) = Ok env ->
  exists pages, (forall fuel, length pages <= fuel -> follow t fuel r = pages) /\ head pages = Some env /\
    Forall (page_bounds q) pages /\
    exists s seeds, value (begin_snapshot t (iq_Generation q)) = Ok s /\
      value (ResolveImpactSeeds s (iq_Paths q) (Z.of_nat MaxImpactSeeds)) = Ok seeds /\
      if bool_decide (sd_Nodes seeds = []) then pages = [env]
      else exists result, value (run_search s q (sd_Nodes seeds)) = Ok result /\
        pages ≫= ie_Items = (found result).1 /\ pages ≫= ie_Inferred = (found result).2.
Proof.
  intros Hj Hcur Hnq Hst Henv. pose proof Henv as Hrun. rewrite value_GraphImpact in Hrun.
  replace (open_cursor r) with (Ok (r, None) : result query_error (GraphImpactRequest * option graphImpactCursor)) in Hrun
    by by (unfold open_cursor; rewrite Hcur).
  cbn [mbind result_bind fst snd] in Hrun. rewrite Hnq in Hrun. cbn [mbind result_bind] in Hrun.
  bind_inv Hrun as s Hs. set (g := digest_String _) in Hrun. set (q1 := with_generation g q) in Hrun.
  destruct (Normalize_normal _ _ Hnq) as [Hnormal _].
  assert (Hn1 : normal q1) by by apply normal_generation. assert (Hcur1 : iq_Cursor q1 = []) by exact (eq_trans (normalize_cursor _ _ Hnq) Hcur).
  assert (Hmatch : cursor_matches q1 None = true) by (unfold cursor_matches; by rewrite Hcur1).
  assert (Hseeds : exists seeds, value (ResolveImpactSeeds s (iq_Paths q) (Z.of_nat MaxImpactSeeds)) = Ok seeds).
  { destruct (value (ResolveImpactSeeds s (iq_Paths q) (Z.of_nat MaxImpactSeeds))) eqn:E; [eauto|].
    pose proof (steady_search s q1). unfold impact_answer in Hrun. rewrite Hmatch in Hrun. cbn [negb] in Hrun.
    rewrite value_bind, value_sanitized in Hrun by (unfold run_search; steady).
    change (iq_Paths q1) with (iq_Paths q) in Hrun. by rewrite E in Hrun. }
  destruct Hseeds as [seeds Hseeds]. destruct (decide (sd_Nodes seeds = [])) as [Hempty|Hsome].
  - exists [env]. pose proof (first_empty _ _ _ _ Hmatch Hseeds Hempty Hrun) as (Hi & Hf & Hu & Hc). split_and!.
    + intros [|fuel] Hfuel; cbn [length follow] in *; [lia|]. by rewrite Henv, Hc.
    + done.
    + constructor; [|done]. unfold page_bounds. rewrite Hi, Hf, Hu. cbn.
      pose proof (nq_limit _ Hnormal). unfold lenZ. cbn. split_and!; [lia|done|right; lia].
    + exists s, seeds. split_and!; [done..|]. by rewrite bool_decide_true.
  - destruct (first_search _ _ _ _ Hmatch Hseeds Hsome Hrun) as [result Hres].
    assert (Hse : searched t q1 s seeds result).
    { rewrite value_begin_snapshot in Hs. destruct (value (BeginGraphQuerySnapshot t (iq_Generation q))) eqn:Eb; [|done].
      injection Hs as ->. split; try done. by eapply begin_again. }
    destruct (answer_searched t q1 q1 s seeds result None eq_refl Hse Hmatch) as (om & tr & ws & Hpage).
    change (default 0%Z _) with (Z.of_nat 0) in Hpage. rewrite Hrun in Hpage. injection Hpage as Hpage.
    destruct (follow_from t q1 s seeds result (S (length (found result).1 + length (found result).2)) Hj Hn1 Hst Hse 0 r env)
      as (pages & Hfollow & Hne & HI & HF & HB); [lia|lia|done| |].
    { rewrite Hpage. apply page_answer_page; [done|lia]. }
    exists pages. split_and!; [done| |done|].
    + specialize (Hfollow (length pages) ltac:(lia)). destruct pages as [|page pages]; [done|].
      cbn [length follow] in Hfollow. rewrite Henv in Hfollow. by injection Hfollow as ->.
    + exists s, seeds. split_and!; [done..|]. rewrite bool_decide_false by done. exists result. split_and!; [|done|done].
      rewrite <- (run_with_generation s q g). exact Hres.
Qed.
End following.
