(* ===== verification/GraphCoverageFacts.v ===== *)
(** Completeness of the impact search: when an answer is not marked as truncated, the
    graph fits the limit of the request and every relation asked for may be followed, then
    every node that depends on a changed path is reported. *)
From S2P Require Import Prelude GoStrings GoStringFacts GoSort GoNum Graph GraphFacts GraphStore GraphStoreFacts GraphImpact GraphImpactFacts GraphSearchFacts.

Local Open Scope go_scope.

(** * Generic lemmas *)
Lemma triple_and `{Connection} {A} (m : Q A) (P R : A -> Prop) E :
  triple m P E -> triple m R E -> triple m (fun a => P a /\ R a) E.
Proof. intros HP HR n. specialize (HP n). specialize (HR n). by destruct (fst (m n)). Qed.
Lemma matching_split {A} (P R : A -> bool) (l : list A) :
  (forall x, P x = true -> R x = true -> False) ->
  matching (fun x => P x || R x) l ≡ₚ matching P l ++ matching R l.
Proof.
  intros Hdisj. unfold matching. induction l as [|x l IH]; [done|]. rewrite !filter_cons.
  destruct (P x) eqn:EP, (R x) eqn:ER; cbn [orb].
  - by destruct (Hdisj x EP ER).
  - rewrite (decide_True (P := true = true)), (decide_False (P := false = true)) by done.
    cbn [app]. by rewrite IH.
  - rewrite (decide_True (P := true = true)), (decide_False (P := false = true)) by done.
    rewrite IH. apply Permutation_middle.
  - by rewrite !(decide_False (P := false = true)) by done.
Qed.
Lemma length_matching {A} (P : A -> bool) (l : list A) : length (matching P l) <= length l.
Proof. apply length_filter. Qed.
Lemma select_all {A K} (cmp : K -> K -> comparison) `{!TotalCmp cmp} (key : A -> K) cond limit (t : list A) :
  (lenZ (matching cond t) <= limit)%Z -> select cmp key cond limit t ≡ₚ matching cond t.
Proof.
  intros Hl. unfold select. rewrite take_ge; [apply sortOn_perm|]. rewrite length_sortOn by done.
  unfold lenZ in Hl. lia.
Qed.
Lemma NoDup_subset_length {A} (l l' : list A) : NoDup l -> (forall x, x ∈ l -> x ∈ l') -> length l <= length l'.
Proof. intros Hnd Hsub. by apply submseteq_length, NoDup_submseteq. Qed.

Section coverage.
Context `{UnicodeTables} `{Connection} (s : GraphQuerySnapshot) (q : GraphImpactRequest).

(** The graph fits the limit of the request, and every relation may be followed. *)
Record covered : Prop := {
  cv_edges : (lenZ (Edges (s_rows s)) <= iq_Limit q)%Z;
  cv_nodes : (lenZ (Nodes (s_rows s)) <= iq_Limit q)%Z;
  cv_ids : forall n, n ∈ Nodes (s_rows s) -> (0 <= n_NodeID n)%Z;
  cv_follow : forall r, r ∈ map clean_relation (iq_Relations q) -> impactRelationCanTraverse r = true;
}.
Context (Hcov : covered) (Hnormal : normal q).
Let E : query_error -> Prop := fun _ => True.

Lemma any_tolerates : tolerates (fun e => E (SanitizeGraphQueryError e)).
Proof. by intros ? ?. Qed.

(** ** All seeds are found *)
Definition owned_by (paths : list gostring) (n : GraphNodeRecord) : bool :=
  bool_decide (OwnerPath (n_Identity n) ∈ paths).
Lemma owned_snoc done_ path (l : list GraphNodeRecord) : path ∉ done_ ->
  matching (owned_by (done_ ++ [path])) l
  ≡ₚ matching (owned_by done_) l ++ matching (fun n => streq (OwnerPath (n_Identity n)) path) l.
Proof.
  intros Hp. rewrite <- matching_split.
  - apply reflexive_eq. unfold matching. apply list_filter_iff. intros n. unfold owned_by, streq.
    rewrite orb_true_iff, !bool_decide_eq_true, elem_of_app, list_elem_of_singleton. done.
  - unfold owned_by, streq. intros n. rewrite !bool_decide_eq_true. by intros ? <-.
Qed.
Lemma resolve_path_all done_ r path : path ∉ done_ ->
  sd_Nodes r ≡ₚ matching (owned_by done_) (Nodes (s_rows s)) ->
  triple (resolve_path s (Z.of_nat MaxImpactSeeds) r path)
    (fun r => sd_Nodes r ≡ₚ matching (owned_by (done_ ++ [path])) (Nodes (s_rows s)))
    (fun e => E (SanitizeGraphQueryError e)).
Proof.
  intros Hp Hr. pose proof (owned_snoc done_ path (Nodes (s_rows s)) Hp) as Hsnoc.
  pose proof (length_matching (owned_by (done_ ++ [path])) (Nodes (s_rows s))) as Hlen.
  pose proof (Permutation_length Hsnoc) as Hl1. rewrite length_app, <- (Permutation_length Hr) in Hl1.
  pose proof (cv_nodes Hcov) as Hn. pose proof (nq_limit _ Hnormal) as Hlim. unfold GraphQueryMaxLimit, lenZ in *.
  unfold resolve_path, lenZ. unfold MaxImpactSeeds. rewrite Z2Nat.id by lia. decide_cmp.
  eapply triple_bind; [apply triple_query, any_tolerates|]. intros nodes ->.
  set (nodes := select _ _ _ _ _).
  assert (Hnodes : nodes ≡ₚ matching (fun n => streq (OwnerPath (n_Identity n)) path) (Nodes (s_rows s))).
  { apply select_all; [apply _|]. unfold lenZ. lia. }
  case_bool_decide as Hempty.
  - eapply triple_bind; [apply triple_query, any_tolerates|]. intros rows _. apply triple_ret. cbn [sd_Nodes].
    rewrite Hsnoc, <- Hnodes, Hempty, app_nil_r. done.
  - pose proof (Permutation_length Hnodes). decide_cmp. apply triple_ret. cbn [sd_Nodes]. by rewrite Hsnoc, <- Hnodes, Hr.
Qed.
Lemma resolve_paths_all done_ r paths : NoDup (done_ ++ paths) ->
  sd_Nodes r ≡ₚ matching (owned_by done_) (Nodes (s_rows s)) ->
  triple (resolve_paths s (Z.of_nat MaxImpactSeeds) r paths)
    (fun r => sd_Nodes r ≡ₚ matching (owned_by (done_ ++ paths)) (Nodes (s_rows s)))
    (fun e => E (SanitizeGraphQueryError e)).
Proof.
  revert done_ r; induction paths as [|p paths IH]; intros done_ r Hnd Hr; cbn [resolve_paths].
  - apply triple_ret. by rewrite app_nil_r.
  - rewrite (app_assoc done_ [p] paths : done_ ++ p :: paths = _) in *. eapply triple_bind; [apply resolve_path_all; [|exact Hr]|].
    + apply NoDup_app in Hnd as (Hnd & _). apply NoDup_app in Hnd as (_ & Hd & _). intros Hin. apply (Hd p Hin). left.
    + intros r' Hr'. by apply IH.
Qed.
Lemma seeds_all :
  triple (sanitized (ResolveImpactSeeds s (iq_Paths q) (Z.of_nat MaxImpactSeeds)))
    (fun r => forall n, seed_node s q n -> n ∈ sd_Nodes r) E.
Proof.
  apply triple_sanitized. unfold ResolveImpactSeeds. replace (_ <? 1)%Z with false by by vm_compute.
  set (paths := sortStrings _). eapply triple_mono; [apply (resolve_paths_all [] _ paths)| |done].
  - unfold paths, sortStrings. rewrite sortOn_perm. apply NoDup_dedup.
  - cbn [sd_Nodes]. unfold matching. induction (Nodes (s_rows s)) as [|n l IH]; [done|]. by rewrite filter_cons.
  - intros r Hr n (Hn & Hne & Hin). rewrite Hr. apply list_elem_of_filter. split; [|done].
    apply bool_decide_eq_true_2. cbn [app]. unfold paths, sortStrings, matching.
    rewrite elem_of_sortOn, elem_of_dedup by apply _. apply list_elem_of_filter.
    split; [by apply negb_true_iff, streq_false|done].
Qed.

(** ** All edges into the frontier are read *)
Lemma frontier_ids frontier :
  NoDup frontier -> (forall id, id ∈ frontier -> exists n, node_with s id n) ->
  (forall id, id ∈ uniqueSortedNonNegative frontier <-> id ∈ frontier) /\
  (lenZ (uniqueSortedNonNegative frontier) <= iq_Limit q)%Z.
Proof.
  intros Hnd Hin. unfold uniqueSortedNonNegative, sortInts.
  assert (Hall : matching (fun v => 0 <=? v)%Z frontier = frontier).
  { apply filter_all. intros id Hid. apply Z.leb_le. destruct (Hin id Hid) as (n & Hn & <-). by apply (cv_ids Hcov). }
  rewrite Hall, dedup_fixed by done. split; [intros id; by apply elem_of_sortOn|]. unfold lenZ.
  rewrite length_sortOn by apply _. pose proof (cv_nodes Hcov) as Hn. unfold lenZ in Hn.
  assert (length frontier <= length (map n_NodeID (Nodes (s_rows s)))) as Hl; [|rewrite length_map in Hl; lia].
  apply NoDup_subset_length; [done|]. intros id Hid. destruct (Hin id Hid) as (n & Hn' & <-).
  apply list_elem_of_fmap. by exists n.
Qed.
Lemma primary_edges_all frontier :
  NoDup frontier -> frontier <> [] -> (forall id, id ∈ frontier -> exists n, node_with s id n) ->
  triple (sanitized (ImpactEdgesFromFrontier s frontier (iq_Direction q) (iq_Relations q) ["exact"; "extracted"] (iq_Limit q)))
    (fun es => forall e, primary_edge s q e -> e_ToNodeID e ∈ frontier -> e ∈ es) E.
Proof.
  intros Hnd Hne Hin. destruct (frontier_ids frontier Hnd Hin) as [Hids Hlen]. apply triple_sanitized.
  unfold ImpactEdgesFromFrontier. rewrite (nq_direction _ Hnormal). change (direction_ok "in") with true. cbn [negb].
  pose proof (nq_limit _ Hnormal). rewrite bool_decide_false, orb_false_r by done. decide_cmp.
  eapply triple_mono; [apply triple_query, any_tolerates| |done]. intros es ->. cbn beta. intros e (He & Hrel & Hst) Hto.
  rewrite select_all; [|apply _|].
  - apply list_elem_of_filter. split; [|done]. destruct (nq_relations _ Hnormal) as (_ & _ & Hner & _).
    rewrite (bool_decide_false (iq_Relations q = [])) by done. cbn [orb]. unfold oneOf.
    change (near_end "in" e) with (e_ToNodeID e). rewrite take_ge by (unfold lenZ in Hlen; lia).
    rewrite !andb_true_iff, !bool_decide_eq_true. split_and!; [by apply Hids|done|].
    apply orb_true_iff. right. by apply bool_decide_eq_true_2.
  - pose proof (cv_edges Hcov). pose proof (length_matching (fun e => bool_decide (near_end "in" e ∈ take (Z.to_nat (iq_Limit q)) (uniqueSortedNonNegative frontier))
      && (bool_decide (iq_Relations q = []) || oneOf (e_Relation e) (map (fun r => toLower (trimSpace r)) (iq_Relations q)))
      && (bool_decide ((["exact"; "extracted"] : list gostring) = []) || oneOf (e_ClaimStatus e) ["exact"; "extracted"])) (Edges (s_rows s))).
    unfold lenZ in *. lia.
Qed.

(** ** What the search has reported *)
Definition listed (st : impact_state) (id : Z) : Prop :=
  exists n, node_with s id n /\ n_CrossRID n ∈ map it_CrossRID (im_primary st).
Record reported (st : impact_state) : Prop := {
  rp_paths : forall id p, im_paths st !! id = Some p ->
    id ∈ im_visited st /\ (gp_Key p <> [] -> listed st id);
  rp_nodes : forall id, id ∈ im_visited st -> exists n, node_with s id n;
  rp_next : forall id, id ∈ im_next st -> id ∈ im_visited st;
  rp_index : forall cr k, im_index st !! cr = Some k <-> it_CrossRID <$> im_primary st !! k = Some cr;
}.
(** [st'] comes after [st] within a level. *)
Record later (st st' : impact_state) : Prop := {
  lt_visited : forall id, id ∈ im_visited st -> id ∈ im_visited st';
  lt_listed : forall id, listed st id -> listed st' id;
  lt_next : forall id, id ∈ im_next st -> id ∈ im_next st';
  lt_new : forall id, id ∈ im_visited st' -> id ∈ im_visited st \/ id ∈ im_next st';
}.
Lemma later_refl st : later st st.
Proof. by split; auto. Qed.
Lemma later_trans st1 st2 st3 : later st1 st2 -> later st2 st3 -> later st1 st3.
Proof.
  intros [] []. split; auto. intros id Hid. destruct (lt_new1 id Hid) as [Hid'|]; [|auto].
  destruct (lt_new0 id Hid'); auto.
Qed.

Lemma add_primary_crossrids i st : (forall cr k, im_index st !! cr = Some k <-> it_CrossRID <$> im_primary st !! k = Some cr) ->
  forall cr, cr ∈ map it_CrossRID (im_primary (add_primary i st)) <->
    cr = it_CrossRID i \/ cr ∈ map it_CrossRID (im_primary st).
Proof.
  intros Hix cr. unfold add_primary. destruct (im_index st !! it_CrossRID i) as [k|] eqn:Ek; cbn [im_primary].
  - apply Hix in Ek. change (map it_CrossRID) with (fmap (M:=list) it_CrossRID). rewrite list_fmap_insert, list_insert_id by (by rewrite list_lookup_fmap).
    split; [by right|]. intros [->|]; [|done]. apply list_elem_of_lookup. exists k. by rewrite list_lookup_fmap.
  - rewrite map_app, elem_of_app. cbn [map]. rewrite list_elem_of_singleton. tauto.
Qed.
Lemma add_primary_index i st : (forall cr k, im_index st !! cr = Some k <-> it_CrossRID <$> im_primary st !! k = Some cr) ->
  forall cr k, im_index (add_primary i st) !! cr = Some k <-> it_CrossRID <$> im_primary (add_primary i st) !! k = Some cr.
Proof.
  intros Hix. unfold add_primary. destruct (im_index st !! it_CrossRID i) as [ix|] eqn:Eix; cbn [im_primary im_index].
  - intros cr k. by rewrite Hix, (replaced_crossrid _ _ _ _ (proj1 (Hix _ _) Eix)).
  - by apply index_snoc.
Qed.

Lemma reach_visited target p st id :
  id ∈ im_visited (reach target p true st) <-> id = target \/ id ∈ im_visited st.
Proof. unfold reach. cbn [andb]. case_bool_decide; cbn [negb im_visited]; set_solver. Qed.
Lemma reach_next target p st id :
  id ∈ im_next (reach target p true st) <-> id ∈ im_next st \/ (id = target /\ target ∉ im_visited st).
Proof. unfold reach. cbn [andb]. case_bool_decide; cbn [negb im_next]; set_solver. Qed.
Lemma reach_rest target p follow st :
  im_paths (reach target p follow st) = <[target := p]> (im_paths st) /\
  im_primary (reach target p follow st) = im_primary st /\ im_index (reach target p follow st) = im_index st.
Proof. unfold reach. by destruct (_ && _). Qed.
Lemma add_primary_rest i st :
  im_visited (add_primary i st) = im_visited st /\ im_next (add_primary i st) = im_next st.
Proof. unfold add_primary. by destruct (im_index st !! _). Qed.
Lemma impactPathKey_snoc steps st : impactPathKey (steps ++ [st]) <> [].
Proof.
  unfold impactPathKey. rewrite map_app, join_app. cbn [map mjoin list_join]. intros [_ Hnil]%app_nil.
  apply app_nil in Hnil as [Hnil _]. by apply app_nil in Hnil as [_ ?].
Qed.

(** A node reached over an edge and listed. *)
Definition done_edge (st : impact_state) (e : GraphEdgeRecord) : Prop :=
  e_FromNodeID e ∈ im_visited st /\ listed st (e_FromNodeID e).
Lemma reached_reported st target p i node :
  reported st -> node_with s target node -> it_CrossRID i = n_CrossRID node ->
  let st' := add_primary i (reach target p true st) in
  reported st' /\ later st st' /\ target ∈ im_visited st' /\ listed st' target.
Proof.
  intros [Hp Hn Hnx Hix] Hnode Hcr st'.
  destruct (reach_rest target p true st) as (Rp & Rpr & Rix).
  destruct (add_primary_rest i (reach target p true st)) as [Av An].
  assert (Hix' : forall cr k, im_index (reach target p true st) !! cr = Some k <->
    it_CrossRID <$> im_primary (reach target p true st) !! k = Some cr) by by rewrite Rpr, Rix.
  assert (Hcrs : forall cr, cr ∈ map it_CrossRID (im_primary st') <->
    cr = it_CrossRID i \/ cr ∈ map it_CrossRID (im_primary st)).
  { intros cr. unfold st'. by rewrite add_primary_crossrids, Rpr. }
  assert (Hlist : forall id, listed st id -> listed st' id).
  { intros id (n & ? & Hin). exists n. split; [done|]. rewrite Hcrs. by right. }
  assert (Ht : listed st' target) by (exists node; split; [done|]; rewrite Hcrs; by left).
  assert (Hvis : forall id, id ∈ im_visited st' <-> id = target \/ id ∈ im_visited st).
  { intros id. unfold st'. by rewrite Av, reach_visited. }
  split_and!; [split|split| |done].
  - intros id p'. unfold st'. rewrite add_primary_paths, Rp. fold st'. rewrite Hvis.
    intros [[<- <-]|[Hne Hl]]%lookup_insert_Some; [by split; [left|]|]. destruct (Hp _ _ Hl) as [? Hk]. split; auto.
  - intros id [->|Hid]%Hvis; [by exists node|auto].
  - intros id. unfold st'. rewrite An, reach_next. fold st'. rewrite Hvis. intros [Hid|[-> _]]; [right; auto|by left].
  - by apply add_primary_index.
  - intros id Hid. apply Hvis. by right.
  - done.
  - intros id Hid. unfold st'. rewrite An, reach_next. by left.
  - intros id Hid. unfold st'. rewrite An, reach_next. apply Hvis in Hid as [->|?]; [|by left].
    destruct (decide (target ∈ im_visited st)); auto.
  - apply Hvis. by left.
Qed.
Lemma visit_primary_reported depth st e :
  primary_edge s q e -> reported st ->
  triple (visit_primary s depth st e) (fun st' => reported st' /\ later st st' /\ done_edge st' e) E.
Proof.
  intros (He & Hrel & Hsts) Hst. destruct (reads_any s E) as [Hstep Htarget]; [done|].
  unfold visit_primary. eapply triple_bind; [by apply Hstep|]. intros step _.
  set (steps := gp_Steps _ ++ [step]).
  destruct (match im_paths st !! e_FromNodeID e with Some _ => _ | None => false end) eqn:Eknown.
  - apply triple_ret. split_and!; [done|apply later_refl|]. unfold done_edge.
    destruct (im_paths st !! e_FromNodeID e) as [old|] eqn:Eo; [|done].
    apply andb_true_iff in Eknown as [Hk%negb_true_iff%streq_false _].
    destruct (rp_paths _ Hst _ _ Eo). auto.
  - eapply triple_bind; [by apply Htarget|]. intros node Hnode. eapply triple_bind; [by apply triple_trigger|].
    intros trigger _. apply triple_ret. rewrite (cv_follow Hcov) by done.
    destruct (reached_reported st (e_FromNodeID e) (mkPath steps (impactPathKey steps))
      (impactItemFromNode (g_GenerationID (s_generation s)) node depth e trigger steps (st_EvidenceRefs step)) node)
      as (? & ? & ? & ?); done.
Qed.
Lemma visit_inferred_reported depth st e :
  e ∈ Edges (s_rows s) -> reported st ->
  triple (visit_inferred s depth st e) (fun st' => reported st' /\ later st st') E.
Proof.
  intros He Hst. destruct (reads_any s E) as [Hstep Htarget]; [done|].
  unfold visit_inferred. eapply triple_bind; [by apply Hstep|]. intros step _.
  eapply triple_bind; [by apply Htarget|]. intros node Hnode. eapply triple_bind; [by apply triple_trigger|].
  intros trigger _. apply triple_ret. destruct (containsImpactItem _ _); [by split; [|apply later_refl]|].
  destruct Hst as [Hp Hn Hnx Hix]. split; split; try done; auto.
Qed.
Lemma visit_all_done depth st es :
  (forall e, e ∈ es -> primary_edge s q e) -> reported st ->
  triple (visit_all (visit_primary s depth) st es)
    (fun st' => reported st' /\ later st st' /\ forall e, e ∈ es -> done_edge st' e) E.
Proof.
  revert st; induction es as [|e es IH]; intros st He Hst; cbn [visit_all].
  - apply triple_ret. split_and!; [done|apply later_refl|]. intros e Hin. by apply elem_of_nil in Hin.
  - eapply triple_bind; [apply visit_primary_reported; [apply He; left|done]|]. intros st1 (Hst1 & Hl1 & Hd1).
    eapply triple_mono; [apply IH; [|done]| |done]; [intros; apply He; by right|].
    intros st2 (Hst2 & Hl2 & Hd2). split_and!; [done|by eapply later_trans|].
    intros e' [->|Hin]%elem_of_cons; [|auto]. destruct Hd1. split; [by apply Hl2|by apply Hl2].
Qed.

Lemma reported_next_level st : reported st -> reported (next_level st).
Proof. intros []. split; try done. intros id Hid. by apply elem_of_nil in Hid. Qed.
Lemma level_reported depth frontier st :
  NoDup frontier -> frontier <> [] -> (forall id, id ∈ frontier -> id ∈ im_visited st) -> reported st ->
  triple (level s q depth frontier st) (fun st' => reported st' /\ later (next_level st) st' /\
    forall e, primary_edge s q e -> e_ToNodeID e ∈ frontier -> done_edge st' e) E.
Proof.
  intros Hnd Hne Hsub Hst. unfold level. eapply triple_bind; [by apply triple_context|]. intros _ _.
  assert (Hnodes : forall id, id ∈ frontier -> exists n, node_with s id n) by (intros; by apply (rp_nodes _ Hst), Hsub).
  destruct (reads_any s E) as [Hstep Htarget]; [done|].
  assert (Hctx : forall n, sql_fails n = true -> E ErrContext) by done.
  pose proof (fun sts : list gostring => impact_edges_spec s q E Hstep Htarget any_tolerates Hctx Hnormal frontier sts (iq_Limit q)) as Hedges.
  eapply triple_bind.
  { apply triple_and; [by apply Hedges|by apply primary_edges_all]. }
  intros primaryEdges [Hp Hall]. cbn beta in *.
  eapply triple_bind; [by apply Hedges|]. intros inferredEdges Hi. cbn beta in Hi.
  eapply triple_bind.
  { apply visit_all_done; [intros e He; by apply Hp|by apply reported_next_level]. }
  intros st1 (Hst1 & Hl1 & Hd1). eapply triple_mono.
  - apply (visit_all_spec E _ (fun st' => reported st' /\ later st1 st')); [|by split; [|apply later_refl]].
    intros st2 e He [Hst2 Hl2]. destruct (Hi e He) as [[Hin _] _].
    eapply triple_mono; [by apply visit_inferred_reported| |done]. intros st3 [Hst3 Hl3]. split; [done|by eapply later_trans].
  - intros st2 [Hst2 Hl2]. split_and!; [done|by eapply later_trans|]. intros e He Hto.
    destruct (Hd1 e (Hall e He Hto)). split; by apply Hl2.
  - done.
Qed.

(** ** Progress by levels

    After [d] levels: the ends of all walks of at most [d] edges are known, and all
    edges into the nodes of [P], the levels behind, have been followed. *)
Record explored (d : nat) (P : Z -> Prop) (st : impact_state) (frontier : list Z) : Prop := {
  ex_reported : reported st;
  ex_nodup : NoDup frontier;
  ex_frontier : forall id, id ∈ frontier -> id ∈ im_visited st;
  ex_split : forall id, id ∈ im_visited st -> P id \/ id ∈ frontier;
  ex_done : forall e, primary_edge s q e -> P (e_ToNodeID e) -> done_edge st e;
  ex_known : forall es id, walk s q es id -> length es <= d -> id ∈ im_visited st;
  ex_listed : forall es id, walk s q es id -> es <> [] -> length es <= d -> listed st id;
}.
Lemma walk_last es id : walk s q es id -> es <> [] ->
  exists es' e, es = es' ++ [e] /\ id = e_FromNodeID e /\ walk s q es' (e_ToNodeID e) /\ primary_edge s q e.
Proof. intros [|es' e ? ?] Hne; [done|]. by exists es', e. Qed.
Lemma explored_level d P st frontier st' :
  explored d P st frontier ->
  reported st' /\ later (next_level st) st' /\ (forall e, primary_edge s q e -> e_ToNodeID e ∈ frontier -> done_edge st' e) ->
  explored (S d) (fun id => P id \/ id ∈ frontier) st' (uniqueImpactInts (im_next st')).
Proof.
  intros [Hrep Hnd Hfr Hsp Hdone Hkn Hls] (Hrep' & [Hlv Hll _ Hnew] & Hd).
  assert (Hdone' : forall e, primary_edge s q e -> P (e_ToNodeID e) \/ e_ToNodeID e ∈ frontier -> done_edge st' e).
  { intros e He [HP|Hin]; [|by apply Hd]. destruct (Hdone e He HP). split; [by apply Hlv|by apply Hll]. }
  assert (Hnext : forall id, id ∈ uniqueImpactInts (im_next st') <-> id ∈ im_next st').
  { intros id. unfold uniqueImpactInts, sortInts. rewrite elem_of_sortOn by apply _. apply elem_of_dedup. }
  assert (Hstep : forall es id, walk s q es id -> es <> [] -> length es <= S d ->
    id ∈ im_visited st' /\ listed st' id).
  { intros es id Hw Hne Hlen. destruct (walk_last es id Hw Hne) as (es' & e & -> & -> & Hw' & He).
    rewrite length_app in Hlen. cbn in Hlen. apply Hdone'; [done|]. apply Hsp. eapply Hkn; [done|lia]. }
  split; [done| | | |done| |].
  - unfold uniqueImpactInts, sortInts. rewrite sortOn_perm. apply NoDup_dedup.
  - intros id Hid%Hnext. by apply (rp_next _ Hrep').
  - intros id Hid. rewrite Hnext. destruct (Hnew id Hid) as [Hv|]; [|by right]. left. by apply Hsp.
  - intros es id Hw Hlen. destruct (decide (es = [])) as [->|Hne]; [|by eapply Hstep].
    apply Hlv. eapply Hkn; [done|cbn; lia].
  - intros es id Hw Hne Hlen. by eapply Hstep.
Qed.
(** With an empty frontier there is nothing more to find. *)
Lemma explored_closed d P st : explored d P st [] -> forall es id, walk s q es id -> es <> [] -> listed st id.
Proof.
  intros Hex. assert (Hall : forall es id, walk s q es id -> id ∈ im_visited st /\ (es <> [] -> listed st id)).
  { induction 1 as [id Hid|es e Hw [IH _] He].
    - split; [|done]. eapply (ex_known _ _ _ _ Hex []); [by constructor|cbn; lia].
    - destruct (ex_split _ _ _ _ Hex _ IH) as [HP|Hin]; [|by apply elem_of_nil in Hin].
      destruct (ex_done _ _ _ _ Hex e He HP). by split. }
  intros es id Hw. by apply (Hall es id).
Qed.

Lemma walk_start es id : walk s q es id -> exists n, seed_node s q n /\ (es = [] -> n_NodeID n = id).
Proof.
  induction 1 as [id (n & Hn & Hid)|es e _ (n & Hn & _) _]; [by exists n|]. exists n. split; [done|]. by destruct es.
Qed.
(** What the search has listed when it ends. *)
Definition search_complete (r : search_result) : Prop :=
  forall es id, walk s q es id -> es <> [] ->
  (iq_Mode q = "transitive" -> sr_truncated r = false) -> (iq_Mode q <> "transitive" -> length es = 1) ->
  listed (sr_state r) id.
Lemma direct_mode : iq_Mode q <> "transitive" -> iq_Mode q = "direct".
Proof.
  intros Hm. pose proof (nq_mode _ Hnormal) as Ho. unfold oneOf in Ho. apply bool_decide_eq_true_1 in Ho.
  apply elem_of_cons in Ho as [?|Ho]; [done|]. apply list_elem_of_singleton in Ho. done.
Qed.
Lemma search_explores fuel d r P :
  explored d P (sr_state r) (sr_frontier r) ->
  (iq_Mode q = "direct" -> fuel = 1 /\ d = 0) -> (fuel = 0 -> sr_frontier r <> [] -> sr_truncated r = true) ->
  triple (search s q fuel (Z.of_nat (S d)) r) search_complete E.
Proof.
  revert d r P; induction fuel as [|fuel IH]; intros d r P Hex Hdir Htr; cbn [search].
  - apply triple_ret. intros es id Hw Hne Ht Hm. destruct (decide (iq_Mode q = "transitive")) as [Et|En].
    + destruct (decide (sr_frontier r = [])) as [Ef|Ef]; [rewrite Ef in Hex; by eapply explored_closed|].
      rewrite Ht in Htr by done. by specialize (Htr eq_refl Ef).
    + apply direct_mode in En. by destruct (Hdir En).
  - case_bool_decide as Ef.
    { apply triple_ret. intros es id Hw Hne _ _. rewrite Ef in Hex. by eapply explored_closed. }
    eapply triple_bind; [apply level_reported; [apply Hex|done|apply Hex|apply Hex]|]. intros st' Hst'.
    pose proof (explored_level _ _ _ _ _ Hex Hst') as Hex'. destruct (streq (iq_Mode q) "direct") eqn:Em.
    + apply streq_true in Em. destruct (Hdir Em) as [_ ->]. apply triple_ret. intros es id Hw Hne _ Hm. cbn [sr_state].
      apply (ex_listed _ _ _ _ Hex' es); [done..|]. rewrite Hm; [lia|]. by rewrite Em.
    + apply streq_false in Em. replace (Z.of_nat (S d) + 1)%Z with (Z.of_nat (S (S d))) by lia.
      eapply (IH (S d)); [exact Hex'|done|]. intros -> Hne. cbn [sr_truncated sr_frontier] in *.
      rewrite (bool_decide_false (_ = [])) by done. by rewrite orb_true_r.
Qed.

Lemma initial_explored seeds :
  Forall (seed_node s q) seeds -> (forall n, seed_node s q n -> n ∈ seeds) ->
  explored 0 (fun _ => False) (initial_state seeds) (dedup (map n_NodeID seeds)).
Proof.
  intros Hs Hall. rewrite Forall_forall in Hs.
  assert (Hv : forall id, id ∈ im_visited (initial_state seeds) <-> id ∈ map n_NodeID seeds).
  { intros id. unfold initial_state. cbn [im_visited]. apply elem_of_list_to_set. }
  split.
  - split.
    + intros id p Hp. unfold initial_state in Hp. cbn [im_paths] in Hp. rewrite Hv.
      apply initial_paths in Hp as [[Hid ->]|[_ Hp]]; [by split|by rewrite lookup_empty in Hp].
    + intros id Hid%Hv. apply list_elem_of_fmap in Hid as (n & -> & Hn). exists n. split; [|done]. by apply Hs.
    + intros id Hid. by apply elem_of_nil in Hid.
    + intros cr k. unfold initial_state. cbn [im_index im_primary]. by rewrite lookup_empty.
  - apply NoDup_dedup.
  - intros id Hid. rewrite elem_of_dedup in Hid. by apply Hv.
  - intros id Hid%Hv. right. by rewrite elem_of_dedup.
  - done.
  - intros es id Hw Hlen. apply Hv. destruct es; [|cbn in Hlen; lia]. inversion Hw as [id' (n & Hn & Hid)|? ? ? ? Happ]; subst.
    + apply list_elem_of_fmap. exists n. split; [done|]. by apply Hall.
    + by destruct es.
  - intros es id Hw Hne Hlen. destruct es; [done|cbn in Hlen; lia].
Qed.
Lemma run_complete seeds :
  Forall (seed_node s q) seeds -> (forall n, seed_node s q n -> n ∈ seeds) ->
  triple (run_search s q seeds) search_complete E.
Proof.
  intros Hs Hall. unfold run_search. pose proof (nq_depth _ Hnormal).
  eapply (search_explores _ 0); [by apply initial_explored| |].
  - intros Hm. rewrite Hm. done.
  - destruct (streq (iq_Mode q) "transitive"); lia.
Qed.
End coverage.

(** * The theorem *)
Section complete.
Context `{UnicodeTables} `{SHA256} `{ImpactJSON} `{Connection}.

Lemma page_whole s q om tr ws n r :
  ie_Truncated (page_answer s q om tr ws n 0 r) = false ->
  ie_Items (page_answer s q om tr ws n 0 r) = sortImpactItems (im_primary (sr_state r)) /\ sr_truncated r = false.
Proof.
  unfold page_answer. set (P := sortImpactItems _). set (I := sortImpactItems _).
  destruct (applyImpactBudget_page q P I 0) as (k & p & i & units & Ha & Hp); [lia|].
  change (Z.of_nat 0) with 0%Z in Ha. rewrite Ha. cbn [ie_Truncated ie_Items].
  intros Ht. bool_to_prop. split; [|done]. rewrite (pg_primary _ _ _ _ _ _ _ _ Hp). cbn [drop].
  apply take_ge. rewrite length_app in *. lia.
Qed.

(** A node that [id] names is among the items of an answer. *)
Definition item_for (s : GraphQuerySnapshot) (id : Z) (env : GraphImpactEnvelope) : Prop :=
  exists n i, node_with s id n /\ i ∈ ie_Items env /\ it_CrossRID i = n_CrossRID n.

Lemma answer_complete s q : covered s q -> normal q ->
  triple (impact_answer s q None) (fun env => ie_Truncated env = false ->
    forall es id, walk s q es id -> es <> [] -> (iq_Mode q <> "transitive" -> length es = 1) -> item_for s id env)
    (fun _ => True).
Proof.
  intros Hcov Hn. destruct (reads_any s (fun _ => True)) as [Hstep Htarget]; [done|].
  assert (Hctx : forall n : nat, sql_fails n = true -> True) by done.
  unfold impact_answer. destruct (cursor_matches q None); cbn [negb]; [|by apply triple_throw].
  eapply triple_bind.
  { apply triple_and; [by apply (seeds_spec s q (fun _ => True) any_tolerates)|by apply seeds_all]. }
  intros seeds [Hs Hall]. cbn beta in *. case_bool_decide as Hempty.
  - apply triple_ret. intros _ es id Hw. exfalso. apply walk_start in Hw as (n & Hseed & _). specialize (Hall n Hseed).
    rewrite Hempty in Hall. by apply elem_of_nil in Hall.
  - eapply triple_bind; [by apply run_complete|]. intros r Hr. apply triple_ret. intros Ht es id Hw Hne Hm.
    destruct (page_whole _ _ _ _ _ _ _ Ht) as [Hitems Htr].
    destruct (Hr es id Hw Hne (fun _ => Htr) Hm) as (n & Hnode & Hin).
    apply list_elem_of_fmap in Hin as (i & Hcr & Hi). exists n, i. split_and!; [done| |done].
    change (default 0%Z (ic_Offset <$> None)) with 0%Z. rewrite Hitems. unfold sortImpactItems. by rewrite elem_of_sortOn by apply _.
Qed.

(** C8: when the first answer is not marked as truncated, the graph fits the limit of
    the request and all its relations may be followed, then every node that reaches a
    changed path over allowed exact or extracted edges is reported: at any distance in
    the transitive mode, at distance one in the direct mode. *)
Theorem impact_complete t r n env n' :
  GraphImpact t r n = (Ok env, n') -> ie_Truncated env = false ->
  exists s q c, prepared t r s q c /\
    (c = None -> covered s (own_request s q) ->
     forall es id, walk s (own_request s q) es id -> es <> [] -> (iq_Mode q <> "transitive" -> length es = 1) ->
     item_for s id env).
Proof.
  intros Hrun. pose proof (triple_run (fun env => ie_Truncated env = false -> exists s q c, prepared t r s q c /\
    (c = None -> covered s (own_request s q) ->
     forall es id, walk s (own_request s q) es id -> es <> [] -> (iq_Mode q <> "transitive" -> length es = 1) ->
     item_for s id env)) (fun _ => True) (GraphImpact t r) n env n') as Hspec. apply Hspec; [|done].
  apply GraphImpact_spec; [done|done|intros g m; by destruct (fst _)|]. intros s q c Hp Hn.
  assert (Hn' : normal (own_request s q)) by by apply normal_generation.
  intros m. destruct (fst (impact_answer s (own_request s q) c m)) as [env'|e] eqn:Em; [|done]. intros Ht.
  exists s, q, c. split; [done|]. intros -> Hcov. pose proof (answer_complete s (own_request s q) Hcov Hn' m) as Ha.
  rewrite Em in Ha. by apply Ha.
Qed.
End complete.
