(* ===== verification/GraphImpactExample.v ===== *)
(** A small graph: the properties of the impact search at concrete inputs, and the
    inputs on which the search falls short. *)
From S2P Require Import Prelude GoStrings GoStringFacts GoSort GoNum Graph GraphFacts GraphStore GraphStoreFacts GraphImpact GraphImpactFacts GraphSearchFacts GraphCoverageFacts StandInJSON.

Local Open Scope go_scope.

Module Example_impact.
#[local] Existing Instance latin_tables.
#[local] Existing Instance mixHash.
#[local] Instance never_fails : Connection := fun _ => false.

(** ** A stand-in for encoding/json *)
Definition write_cursor (c : graphImpactCursor) : gostring :=
  write_list ([ic_Generation c; ic_Operation c; ic_Mode c; ic_Direction c; ic_RequestDigest c; ic_Checksum c]
    ++ map write_int [ic_Depth c; ic_Limit c; ic_Token c; Z.b2z (ic_IncludeTests c); Z.b2z (ic_IncludeDocs c); ic_Offset c])
  ++ write_list (ic_Paths c) ++ write_list (ic_Relations c).
Definition of_fields (f : list gostring) (n : list Z) (ps rs : list gostring) : option graphImpactCursor :=
  match f, n with
  | [g; o; m; d; r; k], [de; li; tk; te; dc; off] =>
      Some (mkCursor g o ps m de li tk d rs (te =? 1)%Z (dc =? 1)%Z off r k)
  | _, _ => None
  end.
Definition read_cursor (s : gostring) : option graphImpactCursor :=
  f ← read_list (length s) s;
  ps ← read_list (length s) f.2;
  rs ← read_list (length s) ps.2;
  n ← mapM read_int (drop 6 f.1);
  of_fields (take 6 f.1) n ps.1 rs.1.
Lemma read_write_cursor c : read_cursor (write_cursor c) = Some c.
Proof.
  unfold read_cursor, write_cursor. set (fs := _ ++ map write_int _).
  set (n := length (write_list fs ++ write_list (ic_Paths c) ++ write_list (ic_Relations c))).
  pose proof (length_write_list fs). pose proof (length_write_list (ic_Paths c)). pose proof (length_write_list (ic_Relations c)).
  assert (length fs < n /\ length (ic_Paths c) < n /\ length (ic_Relations c) < n) as (? & ? & ?).
  { unfold n. rewrite !length_app. lia. }
  rewrite read_write_list by done. cbn [mbind option_bind fst snd]. rewrite read_write_list by done.
  cbn [mbind option_bind fst snd]. rewrite <- (app_nil_r (write_list (ic_Relations c))), read_write_list by done.
  cbn [mbind option_bind fst snd]. unfold fs. cbn [app map drop take mapM]. rewrite !read_write_int. cbn.
  by destruct c as [? ? ? ? ? ? ? ? ? [] [] ? ? ?].
Qed.
#[local] Instance toy_json : ImpactJSON := {|
  json_cursor := write_cursor;
  unjson_cursor := read_cursor;
  json_request q := mjoin (iq_Paths q) ++ itoa (iq_Limit q);
  json_item i := it_Display i ++ it_CrossRID i;
  json_result q g items inferred st := g ++ mjoin (map it_CrossRID items) |}.
Lemma toy_reads_back : json_reads_back.
Proof. intros c _. split; [apply read_write_cursor|done]. Qed.

(** ** The graph: [c] calls [b], [b] calls [a], and [d] is inferred to call [a] *)
Definition key (i : Z) : digest := repeat (zb i) 32.
Definition node (i : Z) (path name : gostring) : GraphNodeRecord :=
  mkNode zeroDigest i (key i) (mkNodeKeyFields "r" "go" "go" "m" path "function" name) "milsp-node-key/v1" name
    zeroDigest "exact" ("n:" ++ name) name.
Definition call (i from to : Z) (relation status : gostring) : GraphEdgeRecord :=
  mkEdge zeroDigest i (key i) from to relation "direct" status "x.go" "go" ("e:" ++ itoa i).
Definition bundle (edges : list GraphEdgeRecord) : GraphBundle :=
  mkBundle (mkGeneration (key 7) 1 "r" "r" zeroDigest zeroDigest zeroDigest zeroDigest "active" [] 4 3 0 0 None 0 0)
    [node 0 "a.go" "A"; node 1 "b.go" "B"; node 2 "c.go" "C"; node 3 "d.go" "D"] edges [] [].
Definition store (edges : list GraphEdgeRecord) : tables :=
  mkTables [("active_graph_generation_id", Some (key 7))] [bundle edges] false.
Definition calls : list GraphEdgeRecord :=
  [call 0 1 0 "calls" "exact"; call 1 2 1 "calls" "extracted"; call 2 3 0 "calls" "inferred"].
Definition ask (mode : gostring) (limit : Z) (relations paths : list gostring) : GraphImpactRequest :=
  mkRequest [] paths [] mode 3 limit 0 [] relations false false [] [] [].
Definition answer (t : tables) (r : GraphImpactRequest) : option GraphImpactEnvelope :=
  match value (GraphImpact t r) with Ok env => Some env | Err _ => None end.
Definition summary (env : GraphImpactEnvelope) : list gostring * list gostring * bool :=
  (map it_Display (ie_Items env), map it_Display (ie_Inferred env), ie_Truncated env).

Example transitive_answer :
  summary <$> answer (store calls) (ask "transitive" 10 ["calls"] ["./a.go"])
  = Some (["B"; "C"] : list gostring, ["D"] : list gostring, false).
Proof. vm_compute. reflexivity. Qed.
Example direct_answer :
  summary <$> answer (store calls) (ask [] 10 ["calls"] ["a.go"])
  = Some (["B"] : list gostring, ["D"] : list gostring, false).
Proof. vm_compute. reflexivity. Qed.

(** ** Where the search falls short *)

(** The limit of the request is also the LIMIT of the statement that reads the edges:
    two callers and a limit of one give one item, and the answer does not say that
    another was left out. *)
Definition two_callers : list GraphEdgeRecord := [call 0 1 0 "calls" "exact"; call 1 2 0 "calls" "exact"].
Example limit_hides_silently :
  summary <$> answer (store two_callers) (ask "transitive" 1 ["calls"] ["a.go"])
  = Some (["B"] : list gostring, [] : list gostring, false) /\
  summary <$> answer (store two_callers) (ask "transitive" 2 ["calls"] ["a.go"])
  = Some (["B"; "C"] : list gostring, [] : list gostring, false).
Proof. split; vm_compute; reflexivity. Qed.

(** [b] both consumes and imports [a]; the relation that may not be followed comes first,
    and the one that may is then skipped, so [c], which imports [b], is missed. *)
Definition two_relations : list GraphEdgeRecord :=
  [call 0 1 0 "consumes" "exact"; call 1 1 0 "imports" "exact"; call 2 2 1 "imports" "exact"].
Example terminal_relation_hides :
  summary <$> answer (store two_relations) (ask "transitive" 10 ["consumes"; "imports"] ["a.go"])
  = Some (["B"] : list gostring, [] : list gostring, false) /\
  summary <$> answer (store two_relations) (ask "transitive" 10 ["imports"] ["a.go"])
  = Some (["B"; "C"] : list gostring, [] : list gostring, false).
Proof. split; vm_compute; reflexivity. Qed.

(** A path that starts with two "./" is cleaned once per request, so the cursor of the
    first page is refused. *)
Example cursor_refused :
  let r := ask "transitive" 1 ["calls"] ["././a.go"] in
  option_map ie_Truncated (answer (store calls) r) = Some true /\
  map (fun e => value (GraphImpact (store calls) (continue_request e)))
    (option_list (answer (store calls) r ≫= ie_Continuation))
  = [Err (cursor_stale "impact cursor parameters do not match request")].
Proof. split; vm_compute; reflexivity. Qed.

(** Leaving out seeds in the store has another code than the one that marks an answer
    as truncated. *)
Example seed_budget_unnoticed path : impactSeedBudgetOmitted [seed_budget path] = false.
Proof. vm_compute. reflexivity. Qed.

(** ** Witnesses *)
Lemma never_reliable : reliable.
Proof. by intros n. Qed.
Definition no_answer : GraphImpactEnvelope :=
  mkImpactEnvelope [] 0 [] [] [] [] [] (mkStats 0 0 0 0 0 0 0 0) false [] [] (mkFreshness [] [] [] []) None.
Definition the_answer (r : GraphImpactRequest) : GraphImpactEnvelope :=
  match fst (GraphImpact (store calls) r 0) with Ok env => env | Err _ => no_answer end.
Definition the_normal (r : GraphImpactRequest) : GraphImpactRequest :=
  match Normalize r with Ok q => q | Err _ => r end.
Definition whole : GraphImpactRequest := ask "transitive" 10 ["calls"] ["./a.go"].
Definition paged : GraphImpactRequest := ask "transitive" 1 ["calls"] ["a.go"].
Definition calls_made : nat := snd (GraphImpact (store calls) whole 0).
Lemma whole_run : GraphImpact (store calls) whole 0 = (Ok (the_answer whole), calls_made).
Proof. vm_compute. reflexivity. Qed.

Lemma normalize_typed_witness : Normalize whole = Ok (the_normal whole) /\ normal (the_normal whole).
Proof.
  split; [vm_compute; reflexivity|]. refine (proj1 (normalize_typed whole (the_normal whole) _)).
  vm_compute. reflexivity.
Defined.
Lemma pages_complete_witness :
  length (follow (store calls) 5 paged) = 3 /\
  exists pages, (forall fuel, length pages <= fuel -> follow (store calls) fuel paged = pages) /\
    head pages = Some (the_answer paged).
Proof.
  split; [vm_compute; reflexivity|].
  destruct (pages_complete never_reliable (store calls) paged (the_normal paged) (the_answer paged) toy_reads_back)
    as (pages & Hf & Hh & _); [vm_compute; reflexivity|vm_compute; reflexivity| |vm_compute; reflexivity|].
  - split; repeat constructor; vm_compute; reflexivity.
  - exists pages. split; [exact Hf|exact Hh].
Defined.
Lemma impact_sound_witness :
  length (ie_Items (the_answer whole)) = 2 /\
  exists s q c, prepared (store calls) whole s q c /\ sound_answer s (own_request s q) (the_answer whole).
Proof. split; [vm_compute; reflexivity|]. exact (impact_sound _ _ _ _ _ whole_run). Defined.
Definition unknown_mode : GraphImpactRequest := ask "sideways" 10 [] ["a.go"].
Definition mode_error : query_error := budget_err "mode" "mode must be direct or transitive".
Lemma impact_errors_witness :
  GraphImpact (store calls) unknown_mode 0 = (Err mode_error, 0) /\ public_error mode_error.
Proof.
  split; [vm_compute; reflexivity|]. refine (impact_errors (store calls) unknown_mode 0 mode_error 0 _).
  vm_compute. reflexivity.
Defined.
Definition the_snapshot : GraphQuerySnapshot := mkSnapshot (bundle calls) (key 7) "fresh" false.
Lemma ends_exist e id : e ∈ calls -> id = e_FromNodeID e \/ id = e_ToNodeID e ->
  (0 <= id)%Z /\ exists n, n ∈ Nodes (s_rows the_snapshot) /\ n_NodeID n = id.
Proof.
  intros He Hid. assert (Hid' : id ∈ map n_NodeID (Nodes (s_rows the_snapshot))).
  { repeat (apply elem_of_cons in He as [->|He]; [destruct Hid as [->| ->]; cbn; set_solver|]).
    by apply elem_of_nil in He. }
  apply list_elem_of_fmap in Hid' as (n & -> & Hn). split; [|by exists n].
  repeat (apply elem_of_cons in Hn as [->|Hn]; [done|]). by apply elem_of_nil in Hn.
Qed.
Lemma whole_prepared : prepared (store calls) whole the_snapshot (the_normal whole) None.
Proof. exists whole, 0. split_and!; vm_compute; reflexivity. Qed.
Lemma impact_answers_witness :
  cursor_matches (own_request the_snapshot (the_normal whole)) None = true /\
  exists env, value (GraphImpact (store calls) whole) = Ok env.
Proof.
  split; [vm_compute; reflexivity|].
  refine (impact_answers (store calls) whole the_snapshot (the_normal whole) None never_reliable whole_prepared _ ends_exist).
  vm_compute. reflexivity.
Defined.
Lemma impact_complete_witness :
  ie_Truncated (the_answer whole) = false /\
  exists s q c, prepared (store calls) whole s q c /\
    (c = None -> covered s (own_request s q) ->
     forall es id, walk s (own_request s q) es id -> es <> [] -> (iq_Mode q <> "transitive" -> length es = 1) ->
     item_for s id (the_answer whole)).
Proof.
  split; [vm_compute; reflexivity|]. refine (impact_complete _ _ _ _ _ whole_run _). vm_compute. reflexivity.
Defined.
(** The premises of the completeness theorem hold here, and [c.go] is reached over two calls. *)
Example whole_covered : covered the_snapshot (own_request the_snapshot (the_normal whole)).
Proof.
  split; [vm_compute; discriminate|vm_compute; discriminate| |].
  - intros n Hn. repeat (apply elem_of_cons in Hn as [->|Hn]; [done|]). by apply elem_of_nil in Hn.
  - assert (Hr : map clean_relation (iq_Relations (own_request the_snapshot (the_normal whole))) = ["calls" : gostring])
      by (vm_compute; reflexivity).
    rewrite Hr. intros r ->%list_elem_of_singleton. vm_compute. reflexivity.
Qed.
Example c_is_reached :
  walk the_snapshot (own_request the_snapshot (the_normal whole))
    [call 0 1 0 "calls" "exact"; call 1 2 1 "calls" "extracted"] 2.
Proof.
  assert (Hr : map clean_relation (iq_Relations (own_request the_snapshot (the_normal whole))) = ["calls" : gostring])
    by (vm_compute; reflexivity).
  assert (Hp : map normalizeImpactPath (iq_Paths (own_request the_snapshot (the_normal whole))) = ["a.go" : gostring])
    by (vm_compute; reflexivity).
  apply (walk_edge _ _ [_] (call 1 2 1 "calls" "extracted")).
  - apply (walk_edge _ _ [] (call 0 1 0 "calls" "exact")).
    + apply walk_seed. exists (node 0 "a.go" "A"). split; [|done]. split_and!; [left|done|rewrite Hp; left].
    + split_and!; [left|rewrite Hr; left|left].
  - split_and!; [right; left|rewrite Hr; left|right; left].
Qed.

(** ** Witnesses for the reads *)
Definition proof (i k edge : Z) : GraphEvidence :=
  mkEvidence zeroDigest i (key k) zeroDigest "edge" None (Some edge) "x.go" None None None None "go" "1" zeroDigest
    "calls" zeroDigest "exact" [].
Definition with_evidence : GraphQuerySnapshot :=
  mkSnapshot
    (mkBundle (Generation (bundle calls)) (Nodes (bundle calls)) calls
       [proof 0 9 0; proof 1 8 0; proof 2 5 1] [])
    (key 7) "fresh" false.
Lemma current_is_active_witness :
  g_Status (s_generation the_snapshot) = "active" /\
  (stored_active (store calls) = None \/ stored_active (store calls) = Some (g_GenerationID (s_generation the_snapshot))).
Proof.
  refine (current_is_active (store calls) [] 0 the_snapshot (snd (BeginGraphQuerySnapshot (store calls) [] 0)) _ _);
    vm_compute; reflexivity.
Defined.
Lemma batched_evidence_witness :
  refs_at (match value (EvidenceRefsByEdges with_evidence [1; 0; 1]%Z 9) with Ok m => m | Err _ => ∅ end) 0
  = [digest_String (key 8); digest_String (key 9)].
Proof.
  refine (batched_evidence with_evidence [1; 0; 1]%Z 9 0 _ (snd (EvidenceRefsByEdges with_evidence [1; 0; 1]%Z 9 0)) 0 0
            [digest_String (key 8); digest_String (key 9)] 1 _ _); vm_compute; reflexivity.
Defined.
End Example_impact.
