(* ===== verification/SnapshotCache.v ===== *)
(** The cache of worktree graph snapshots (internal/service/graph_query.go,
    acquireWorktreeGraphSnapshot to closeWorktreeGraphSnapshots).

    A snapshot is a data base in memory that is built for a key.  One build per key runs at a
    time, a flight, and whoever asks for the key meanwhile waits for it; at most four
    snapshots are kept, the ones in use in any case, and a snapshot that is dropped is closed.
    One mutex protects the cache, so every region that holds it is one function, and the
    program is a step relation: a step of a goroutine runs one region, or one call outside of
    it (the build, [DB.Close]), whose answer the environment chooses.

    Flights are numbered as they are made, and a snapshot is named by the flight that built
    it: a flight makes at most one. *)
From S2P Require Import Prelude GoStrings GoSort.

Local Open Scope go_scope.

(** * The cache *)
Inductive goerr := CtxErr | Canceled | Unavailable (message : gostring) | BuildErr (id : nat).
(** [worktreeGraphCacheEntry]; its data base has the name of the snapshot. *)
Record worktreeGraphCacheEntry := mkSnapshot { sn_key : gostring; sn_lastUsed : Z; sn_inUse : Z }.
Record worktreeGraphFlight := mkFlight {
  fl_key : gostring; fl_cancelled : bool; fl_done : bool; fl_waiters : Z; fl_completed : bool; fl_entry : bool; fl_err : option goerr }.
Record cache := mkCache {
  entries : gmap gostring nat; flights : gmap gostring nat; heap : list worktreeGraphFlight; snapshots : gmap nat worktreeGraphCacheEntry }.
Definition maxWorktreeGraphSnapshots : nat := 4.
Definition emptyCache : cache := mkCache ∅ ∅ [] ∅.

Definition set_waiters (n : Z) (f : worktreeGraphFlight) : worktreeGraphFlight :=
  mkFlight (fl_key f) (fl_cancelled f) (fl_done f) n (fl_completed f) (fl_entry f) (fl_err f).
Definition cancel_flight (f : worktreeGraphFlight) : worktreeGraphFlight :=
  mkFlight (fl_key f) true (fl_done f) (fl_waiters f) (fl_completed f) (fl_entry f) (fl_err f).
(** [if flight.waiters > 0 { flight.waiters-- }] *)
Definition leave (f : worktreeGraphFlight) : worktreeGraphFlight :=
  if (0 <? fl_waiters f)%Z then set_waiters (fl_waiters f - 1) f else f.
Definition on_heap (fl : nat) (g : worktreeGraphFlight -> worktreeGraphFlight) (c : cache) : cache :=
  mkCache (entries c) (flights c) (alter g fl (heap c)) (snapshots c).
Definition on_snapshot (e : nat) (g : worktreeGraphCacheEntry -> worktreeGraphCacheEntry) (c : cache) : cache :=
  mkCache (entries c) (flights c) (heap c) (alter g e (snapshots c)).
Definition without_flight (key : gostring) (c : cache) : cache :=
  mkCache (entries c) (delete key (flights c)) (heap c) (snapshots c).
Definition without_entry (key : gostring) (c : cache) : cache :=
  mkCache (delete key (entries c)) (flights c) (heap c) (snapshots c).
(** [if worktreeGraphCache.flights[flight.key] == flight { delete(...) }] *)
Definition forget_flight (fl : nat) (key : gostring) (c : cache) : cache :=
  if bool_decide (flights c !! key = Some fl) then without_flight key c else c.
Definition hold (now : Z) (s : worktreeGraphCacheEntry) : worktreeGraphCacheEntry := mkSnapshot (sn_key s) now (sn_inUse s + 1).
Definition used (now : Z) (s : worktreeGraphCacheEntry) : worktreeGraphCacheEntry := mkSnapshot (sn_key s) now (sn_inUse s).
(** [if entry.inUse > 0 { entry.inUse-- }] *)
Definition drop_use (s : worktreeGraphCacheEntry) : worktreeGraphCacheEntry :=
  if (0 <? sn_inUse s)%Z then mkSnapshot (sn_key s) (sn_lastUsed s) (sn_inUse s - 1) else s.
Definition unhold (now : Z) (s : worktreeGraphCacheEntry) : worktreeGraphCacheEntry :=
  let s := drop_use s in if (sn_inUse s =? 0)%Z then used now s else s.

(** ** Eviction *)
Section eviction.
Context `{MapOrder}.
(** The snapshot that was used last the longest ago, of those not in use. *)
Definition older_unused (c : cache) (oldest : option nat) (e : nat) : option nat :=
  match snapshots c !! e with
  | None => oldest
  | Some s =>
      if negb (sn_inUse s =? 0)%Z then oldest
      else match oldest with
           | None => Some e
           | Some o => match snapshots c !! o with
                       | Some t => if (sn_lastUsed s <? sn_lastUsed t)%Z then Some e else oldest
                       | None => oldest
                       end
           end
  end.
Definition oldest_unused (c : cache) : option nat :=
  foldl (older_unused c) None (omap (fun key => entries c !! key) (visit (entries c))).
Fixpoint prune (fuel : nat) (c : cache) (evicted : list nat) : cache * list nat :=
  match fuel with
  | 0 => (c, evicted)
  | S fuel =>
      if size (entries c) <=? maxWorktreeGraphSnapshots then (c, evicted)
      else match oldest_unused c with
           | None => (c, evicted)
           | Some e => prune fuel (without_entry (default [] (sn_key <$> snapshots c !! e)) c) (evicted ++ [e])
           end
  end.
Definition pruneWorktreeGraphSnapshotsLocked (c : cache) : cache * list nat := prune (size (entries c)) c [].
End eviction.

(** * Goroutines *)
Inductive outcome := Failed (err : goerr) | Released | BuildEnded.
Inductive pc :=
| AcquireLock (key : gostring)                            (* acquireWorktreeGraphSnapshot *)
| Selecting (key : gostring) (fl : nat)                   (* the select of waitWorktreeGraphSnapshot *)
| CancelLock (key : gostring) (fl : nat)                  (* cancelWorktreeGraphWaiter *)
| DoneLock (key : gostring) (fl : nat)                    (* after <-flight.done *)
| Holding (key : gostring) (e : nat)                      (* the caller has the snapshot *)
| Building (fl : nat)                                     (* the goroutine of a flight, in build *)
| CompleteLock (fl : nat) (entry : bool) (err : option goerr)
| CancelContext (fl : nat) (dbs : list nat)               (* flight.cancel() *)
| Closing (dbs : list nat) (after : outcome)              (* data bases to close, one after the other *)
| Returned (o : outcome).

(** ** The regions under the mutex *)
Section regions.
Context `{MapOrder}.
(** A third component: the goroutine that is started. *)
Definition acquire_region (key : gostring) (now : Z) (c : cache) : cache * pc * list pc :=
  match entries c !! key with
  | Some e => (on_snapshot e (hold now) c, Holding key e, [])
  | None =>
      match flights c !! key with
      | Some fl => (on_heap fl (fun f => set_waiters (fl_waiters f + 1) f) c, Selecting key fl, [])
      | None =>
          let fl := length (heap c) in
          (mkCache (entries c) (<[key := fl]> (flights c)) (heap c ++ [mkFlight key false false 1 false false None]) (snapshots c),
           Selecting key fl, [Building fl])
      end
  end.
Definition wait_region (key : gostring) (fl : nat) (now : Z) (c : cache) : cache * pc :=
  match heap c !! fl with
  | None => (c, Returned (Failed CtxErr))
  | Some f =>
      let c := on_heap fl leave c in
      let c := if fl_entry f then on_snapshot fl (used now) c else c in
      (c, match fl_err f with
          | Some err => Returned (Failed err)
          | None => if fl_entry f then Holding key fl
                    else Returned (Failed (Unavailable "worktree graph snapshot flight completed without a result"))
          end)
  end.
Definition cancel_region (fl : nat) (c : cache) : cache * pc :=
  match heap c !! fl with
  | None => (c, Returned (Failed CtxErr))
  | Some f =>
      let c := on_heap fl leave c in
      let c := if fl_completed f then if fl_entry f then on_snapshot fl drop_use c else c
               else if (fl_waiters (leave f) =? 0)%Z then on_heap fl cancel_flight (forget_flight fl (fl_key f) c) else c in
      let '(c, evicted) := pruneWorktreeGraphSnapshotsLocked c in
      (c, Closing evicted (Failed CtxErr))
  end.
Definition complete_flight (entry : bool) (err : option goerr) (f : worktreeGraphFlight) : worktreeGraphFlight :=
  mkFlight (fl_key f) (fl_cancelled f) true (fl_waiters f) true entry err.
Definition complete_region (fl : nat) (entry : bool) (buildErr : option goerr) (now : Z) (c : cache) : cache * pc :=
  match heap c !! fl with
  | None => (c, Returned BuildEnded)
  | Some f =>
      let buildErr := match buildErr with
                      | None => if entry then None else Some (Unavailable "worktree graph snapshot build returned no result")
                      | Some e => Some e
                      end in
      let registered := bool_decide (buildErr = None) && negb (fl_cancelled f) && (0 <? fl_waiters f)%Z
                        && bool_decide (flights c !! fl_key f = Some fl) in
      let '(c, discard) :=
        if registered
        then let c := on_heap fl (complete_flight true None) c in
             (mkCache (<[fl_key f := fl]> (entries c)) (delete (fl_key f) (flights c)) (heap c)
                (<[fl := mkSnapshot (fl_key f) now (fl_waiters f)]> (snapshots c)), [])
        else (forget_flight fl (fl_key f) (on_heap fl (complete_flight false (Some (default Canceled buildErr))) c),
              if entry then [fl] else []) in
      let '(c, evicted) := pruneWorktreeGraphSnapshotsLocked c in
      (c, CancelContext fl (discard ++ evicted))
  end.
Definition release_region (e : nat) (now : Z) (c : cache) : cache * pc :=
  let '(c, evicted) := pruneWorktreeGraphSnapshotsLocked (on_snapshot e (unhold now) c) in
  (c, Closing evicted Released).
End regions.

(** ** The program *)
(** [opened] and [closed] are what the builds opened and what was closed. *)
Record world := mkWorld { w_cache : cache; opened : list nat; closed : list nat }.
Definition with_cache (c : cache) (w : world) : world := mkWorld c (opened w) (closed w).
(** A step of one goroutine, and the goroutines that it starts.  Whether a context has ended
    is asked of the environment at every test. *)
Inductive tstep (w : world) : pc -> world -> pc -> list pc -> Prop :=
| step_acquire_ctx key : tstep w (AcquireLock key) w (Returned (Failed CtxErr)) []
| step_acquire key now c p started :
    acquire_region key now (w_cache w) = (c, p, started) -> tstep w (AcquireLock key) (with_cache c w) p started
| step_select_ctx key fl : tstep w (Selecting key fl) w (CancelLock key fl) []
| step_select_done key fl f : heap (w_cache w) !! fl = Some f -> fl_done f = true -> tstep w (Selecting key fl) w (DoneLock key fl) []
| step_cancel order key fl c p :
    @cancel_region order fl (w_cache w) = (c, p) -> tstep w (CancelLock key fl) (with_cache c w) p []
| step_wait key fl now c p :
    wait_region key fl now (w_cache w) = (c, p) -> tstep w (DoneLock key fl) (with_cache c w) p []
| step_release order key e now c p :
    @release_region order e now (w_cache w) = (c, p) -> tstep w (Holding key e) (with_cache c w) p []
| step_built fl (entry : bool) err :
    tstep w (Building fl) (mkWorld (w_cache w) ((if entry then [fl] else []) ++ opened w) (closed w)) (CompleteLock fl entry err) []
| step_complete order fl entry err now c p :
    @complete_region order fl entry err now (w_cache w) = (c, p) -> tstep w (CompleteLock fl entry err) (with_cache c w) p []
| step_cancel_context fl dbs :
    tstep w (CancelContext fl dbs) (with_cache (on_heap fl cancel_flight (w_cache w)) w) (Closing dbs BuildEnded) []
| step_close db dbs o : tstep w (Closing (db :: dbs) o) (mkWorld (w_cache w) (opened w) (db :: closed w)) (Closing dbs o) []
| step_closed o : tstep w (Closing [] o) w (Returned o) [].
Definition config : Type := world * list pc.
Inductive step : config -> config -> Prop :=
| step_thread w ts t p w' p' started :
    ts !! t = Some p -> tstep w p w' p' started -> step (w, ts) (w', <[t := p']> ts ++ started)
| step_call w ts key : step (w, ts) (w, ts ++ [AcquireLock key]).
Definition initial : config := (mkWorld emptyCache [] [], []).
Definition reachable (c : config) : Prop := rtc step initial c.
