(* ===== verification/SnapshotCacheFacts.v ===== *)
(** The cache of worktree graph snapshots: what eviction does, and the accounting of waiters,
    users and data bases that every step keeps. *)
From S2P Require Import Prelude GoStrings GoSort SnapshotCache.

Local Open Scope go_scope.

(** * Eviction *)
(** Every entry has its snapshot, under its key. *)
Definition entries_built (c : cache) : Prop :=
  forall k e, entries c !! k = Some e -> exists s, snapshots c !! e = Some s /\ sn_key s = k.
(** [e] is in the map, and nothing uses it. *)
Definition unused (c : cache) (e : nat) : Prop :=
  exists s, snapshots c !! e = Some s /\ entries c !! sn_key s = Some e /\ sn_inUse s = 0%Z.
Definition last_used (c : cache) (e : nat) : Z := default 0%Z (sn_lastUsed <$> snapshots c !! e).
Definition kept (c : cache) (i : nat) : nat :=
  match snapshots c !! i with
  | Some s => if decide (entries c !! sn_key s = Some i) then 1 else 0
  | None => 0
  end.
Definition one (i j : nat) : nat := if decide (j = i) then 1 else 0.
Definition tot {A} (f : A -> nat) (l : list A) : nat := sum_list_with f l.
Arguments tot : simpl never.

Lemma tot_nil {A} (f : A -> nat) : tot f [] = 0. Proof. done. Qed.
Lemma tot_cons {A} (f : A -> nat) x l : tot f (x :: l) = f x + tot f l. Proof. done. Qed.
Lemma tot_app {A} (f : A -> nat) l l' : tot f (l ++ l') = tot f l + tot f l'.
Proof. apply sum_list_with_app. Qed.

Lemma in_entries `{MapOrder} (c : cache) e :
  e ∈ omap (fun k => entries c !! k) (visit (entries c)) <-> exists k, entries c !! k = Some e.
Proof.
  rewrite list_elem_of_omap. split; [intros (k & _ & E); by exists k|].
  intros (k & E). exists k. split; [|done].
  rewrite visit_keys. apply list_elem_of_fmap. exists (k, e).
  split; [done|]. by apply elem_of_map_to_list.
Qed.

(** One comparison: the candidate is unused, and at most as recent as the one before and as
    the snapshot that is looked at. *)
Lemma older_unused_spec (c : cache) (acc : option nat) k e :
  entries_built c -> entries c !! k = Some e -> (forall o, acc = Some o -> unused c o) ->
  (forall o, older_unused c acc e = Some o -> unused c o)
  /\ (forall a, acc = Some a -> exists o, older_unused c acc e = Some o /\ (last_used c o <= last_used c a)%Z)
  /\ (unused c e -> exists o, older_unused c acc e = Some o /\ (last_used c o <= last_used c e)%Z).
Proof.
  intros B K Ha. destruct (B _ _ K) as (s & S & <-). unfold older_unused. rewrite S.
  destruct (Z.eqb_spec (sn_inUse s) 0) as [Z0|Z0]; cbn.
  2: { split_and!; [done| |intros (s' & S' & _ & ?); congruence]. intros a ->. by exists a. }
  assert (Ue : unused c e) by by exists s.
  destruct acc as [o|].
  2: { split_and!; [by intros o [= <-]|done|]. intros _. by exists e. }
  destruct (Ha o eq_refl) as (t & T & ? & ?). rewrite T.
  assert (last_used c o = sn_lastUsed t) as Lo by (unfold last_used; by rewrite T).
  assert (last_used c e = sn_lastUsed s) as Le by (unfold last_used; by rewrite S).
  destruct (Z.ltb_spec (sn_lastUsed s) (sn_lastUsed t)); split_and!.
  - by intros ? [= <-].
  - intros a [= <-]. exists e. split; [done|lia].
  - intros _. by exists e.
  - intros ? [= <-]. by exists t.
  - intros a [= <-]. by exists o.
  - intros _. exists o. split; [done|lia].
Qed.

Lemma older_fold (c : cache) (l : list nat) (acc : option nat) :
  entries_built c -> (forall e, e ∈ l -> exists k, entries c !! k = Some e) ->
  (forall o, acc = Some o -> unused c o) ->
  match foldl (older_unused c) acc l with
  | Some o => unused c o /\ (forall a, acc = Some a -> (last_used c o <= last_used c a)%Z)
              /\ forall e, e ∈ l -> unused c e -> (last_used c o <= last_used c e)%Z
  | None => acc = None /\ forall e, e ∈ l -> ~ unused c e
  end.
Proof.
  intros B. revert acc; induction l as [|e l IH]; intros acc Hl Ha; cbn [foldl].
  - destruct acc as [o|]; split_and?; try done; [by apply Ha|intros a [= <-]; lia| |];
      intros e E; by apply elem_of_nil in E.
  - destruct (Hl e ltac:(left)) as (k & K).
    destruct (older_unused_spec c acc k e B K Ha) as (A1 & A2 & A3).
    specialize (IH (older_unused c acc e) ltac:(intros; apply Hl; by right) A1).
    destruct (foldl _ _ _) as [o|].
    + destruct IH as (? & I2 & I3). split_and!; [done| |].
      * intros a E. destruct (A2 a E) as (o' & E' & ?). specialize (I2 o' E'). lia.
      * intros e' [->|E']%elem_of_cons Ue; [|by apply I3].
        destruct (A3 Ue) as (o' & E' & ?). specialize (I2 o' E'). lia.
    + destruct IH as (I1 & I2). split.
      * destruct acc as [a|]; [|done]. destruct (A2 a eq_refl) as (o' & E' & _). congruence.
      * intros e' [->|E']%elem_of_cons; [|by apply I2].
        intros Ue. destruct (A3 Ue) as (o' & E' & _). congruence.
Qed.

Lemma oldest_unused_spec `{MapOrder} (c : cache) :
  entries_built c ->
  match oldest_unused c with
  | Some o => unused c o /\ forall e, unused c e -> (last_used c o <= last_used c e)%Z
  | None => forall e, ~ unused c e
  end.
Proof.
  intros B. unfold oldest_unused.
  assert (I : forall e, unused c e -> e ∈ omap (fun k => entries c !! k) (visit (entries c)))
    by (intros e (s & _ & E & _); apply in_entries; by exists (sn_key s)).
  pose proof (older_fold c (omap (fun k => entries c !! k) (visit (entries c))) None B
                ltac:(intros e; apply in_entries) ltac:(done)) as G.
  destruct (foldl _ _ _) as [o|].
  - destruct G as (? & _ & G). split; [done|]. intros e Ue. by apply G; [apply I|].
  - destruct G as (_ & G). intros e Ue. by apply (G e); [apply I|].
Qed.

(** What eviction leaves as it was, and what it moves out of the map. *)
Record pruned (c c' : cache) (evicted : list nat) : Prop := {
  pruned_flights : flights c' = flights c;
  pruned_heap : heap c' = heap c;
  pruned_snapshots : snapshots c' = snapshots c;
  pruned_entries k e : entries c' !! k = Some e -> entries c !! k = Some e;
  pruned_used k e : entries c !! k = Some e -> entries c' !! k = Some e \/ unused c e;
  pruned_moved i : kept c i = kept c' i + tot (one i) evicted }.

Lemma pruned_refl c : pruned c c [].
Proof. split; auto. Qed.
Lemma pruned_trans c c1 c2 l1 l2 : pruned c c1 l1 -> pruned c1 c2 l2 -> pruned c c2 (l1 ++ l2).
Proof.
  intros A B. destruct A as [A1 A2 A3 A4 A5 A6], B as [B1 B2 B3 B4 B5 B6].
  split; [congruence..| | |].
  - intros k e E. by apply A4, B4.
  - intros k e E. destruct (A5 k e E) as [E1|?]; [|by right].
    destruct (B5 k e E1) as [?|(s & S & E2 & ?)]; [by left|right].
    exists s. rewrite A3 in S. split_and!; [done| |done]. by apply A4.
  - intros i. rewrite tot_app. specialize (A6 i). specialize (B6 i). lia.
Qed.

Lemma entries_built_mono c c' :
  (forall k e, entries c' !! k = Some e -> entries c !! k = Some e) -> snapshots c' = snapshots c ->
  entries_built c -> entries_built c'.
Proof. intros A B C k e E. rewrite B. by apply C, A. Qed.

(** One eviction. *)
Lemma evict_one c e s :
  snapshots c !! e = Some s -> entries c !! sn_key s = Some e -> sn_inUse s = 0%Z ->
  entries_built c -> pruned c (without_entry (sn_key s) c) [e].
Proof.
  intros S E U B. split; try done; cbn.
  - intros k e' [_ ?]%lookup_delete_Some. done.
  - intros k e' E'. destruct (decide (k = sn_key s)) as [->|N].
    + right. exists s. by simplify_eq.
    + left. by rewrite lookup_delete_ne.
  - intros i. rewrite tot_cons, tot_nil. unfold kept, one; cbn. destruct (decide (e = i)) as [<-|N].
    + rewrite S, E, decide_True by done. by rewrite lookup_delete_eq, decide_False.
    + destruct (snapshots c !! i) as [t|] eqn:T; [|done].
      destruct (decide (sn_key t = sn_key s)) as [Q|Q].
      * rewrite Q, lookup_delete_eq, E. by rewrite !decide_False by congruence.
      * rewrite lookup_delete_ne by done. lia.
Qed.

Lemma prune_pruned `{MapOrder} fuel c evicted :
  entries_built c -> exists l, (prune fuel c evicted).2 = evicted ++ l /\ pruned c (prune fuel c evicted).1 l
    /\ (size (entries c) <= fuel ->
        size (entries (prune fuel c evicted).1) <= maxWorktreeGraphSnapshots
        \/ forall e, ~ unused (prune fuel c evicted).1 e).
Proof.
  revert c evicted; induction fuel as [|fuel IH]; intros c evicted B; cbn.
  { exists []. rewrite app_nil_r. split_and!; [done|apply pruned_refl|left; unfold maxWorktreeGraphSnapshots; lia]. }
  destruct (Nat.leb_spec (size (entries c)) maxWorktreeGraphSnapshots) as [L|L].
  { exists []. rewrite app_nil_r. split_and!; [done|apply pruned_refl|by left]. }
  pose proof (oldest_unused_spec c B) as O.
  destruct (oldest_unused c) as [e|].
  2: { exists []. rewrite app_nil_r. split_and!; [done|apply pruned_refl|by right]. }
  destruct O as ((s & S & E & U) & _). rewrite S; cbn.
  pose proof (evict_one c e s S E U B) as P.
  assert (B' : entries_built (without_entry (sn_key s) c)) by (apply (entries_built_mono c); [apply P|done|done]).
  destruct (IH _ (evicted ++ [e]) B') as (l & L1 & L2 & L3). exists (e :: l). split_and!.
  - by rewrite L1, <- (assoc_L (++)).
  - exact (pruned_trans _ _ _ [e] l P L2).
  - intros F. apply L3. cbn. rewrite map_size_delete_Some by by eexists. lia.
Qed.

Lemma prune_locked `{MapOrder} c :
  entries_built c ->
  pruned c (pruneWorktreeGraphSnapshotsLocked c).1 (pruneWorktreeGraphSnapshotsLocked c).2
  /\ (size (entries (pruneWorktreeGraphSnapshotsLocked c).1) <= maxWorktreeGraphSnapshots
      \/ forall e, ~ unused (pruneWorktreeGraphSnapshotsLocked c).1 e).
Proof.
  intros B. unfold pruneWorktreeGraphSnapshotsLocked.
  destruct (prune_pruned (size (entries c)) c [] B) as (l & -> & P & F). split; [done|by apply F].
Qed.

(** * The accounting *)
(** What one goroutine contributes: waiters of a flight, users of a snapshot, goroutines that
    build, and data bases in hand. *)
Definition on (i : nat) (p : pc) : nat :=
  match p with Selecting _ fl | CancelLock _ fl | DoneLock _ fl => one i fl | _ => 0 end.
Definition holds (i : nat) (p : pc) : nat := match p with Holding _ e => one i e | _ => 0 end.
Definition builds (i : nat) (p : pc) : nat := match p with Building fl => one i fl | _ => 0 end.
Definition completes (i : nat) (p : pc) : nat := match p with CompleteLock fl _ _ => one i fl | _ => 0 end.
Definition owns (i : nat) (p : pc) : nat :=
  match p with
  | CompleteLock fl true _ => one i fl
  | CancelContext _ dbs | Closing dbs _ => tot (one i) dbs
  | _ => 0
  end.

Record flight_ok (ts : list pc) (i : nat) (f : worktreeGraphFlight) (s : option worktreeGraphCacheEntry) : Prop := {
  ok_waiters : fl_waiters f = Z.of_nat (tot (on i) ts);
  ok_done : fl_done f = fl_completed f;
  ok_running : tot (builds i) ts + tot (completes i) ts = if fl_completed f then 0 else 1;
  ok_result : fl_entry f = fl_completed f && bool_decide (fl_err f = None);
  ok_snapshot : match s with
                | None => fl_entry f = false /\ tot (holds i) ts = 0
                | Some s => fl_entry f = true /\ sn_key s = fl_key f
                            /\ sn_inUse s = Z.of_nat (tot (holds i) ts + tot (on i) ts)
                end }.
Record good (c : cache) (ts : list pc) (i op cl : nat) : Prop := {
  ok_fresh : heap c !! i = None ->
             tot (on i) ts = 0 /\ tot (holds i) ts = 0 /\ tot (builds i) ts = 0 /\ tot (completes i) ts = 0
             /\ tot (owns i) ts = 0 /\ op = 0 /\ cl = 0 /\ snapshots c !! i = None;
  ok_flight f : heap c !! i = Some f -> flight_ok ts i f (snapshots c !! i);
  ok_entry k : entries c !! k = Some i -> exists s, snapshots c !! i = Some s /\ sn_key s = k;
  ok_registered k : flights c !! k = Some i ->
                    exists f, heap c !! i = Some f /\ fl_key f = k /\ fl_completed f = false /\ fl_cancelled f = false;
  ok_wanted f : heap c !! i = Some f -> fl_completed f = false ->
                if fl_cancelled f then tot (on i) ts = 0
                else flights c !! fl_key f = Some i /\ 0 < tot (on i) ts;
  ok_used s : snapshots c !! i = Some s -> sn_inUse s <> 0%Z -> entries c !! sn_key s = Some i;
  ok_conserved : op = kept c i + tot (owns i) ts + cl;
  ok_once : op + tot (builds i) ts <= 1 }.
(** The flight that a goroutine is about is the one of its key. *)
Definition sound_pc (c : cache) (p : pc) : Prop :=
  match p with
  | Selecting key fl | CancelLock key fl => exists f, heap c !! fl = Some f /\ fl_key f = key
  | DoneLock key fl => exists f, heap c !! fl = Some f /\ fl_key f = key /\ fl_completed f = true
  | Holding key e => exists f, heap c !! e = Some f /\ fl_key f = key
  | CancelContext fl _ => exists f, heap c !! fl = Some f /\ fl_completed f = true
  | _ => True
  end.
Record accounted (w : world) (ts : list pc) : Prop := {
  acc_good i : good (w_cache w) ts i (tot (one i) (opened w)) (tot (one i) (closed w));
  acc_apart k : flights (w_cache w) !! k = None \/ entries (w_cache w) !! k = None;
  acc_pcs : Forall (sound_pc (w_cache w)) ts }.

(** A step of one goroutine changes the sums by what it contributes. *)
Lemma tot_move (f : pc -> nat) ts t p p' started :
  ts !! t = Some p -> tot f (<[t := p']> ts ++ started) + f p = tot f ts + f p' + tot f started.
Proof. intros E. rewrite tot_app. pose proof (sum_list_insert f ts t p p' E). unfold tot in *. lia. Qed.
Lemma tot_elem {A} (f : A -> nat) (l : list A) i x : l !! i = Some x -> f x <= tot f l.
Proof. apply sum_list_elem. Qed.
Lemma one_eq i : one i i = 1.
Proof. unfold one. by rewrite decide_True. Qed.
Lemma one_ne i j : j <> i -> one i j = 0.
Proof. intros. unfold one. by rewrite decide_False. Qed.

Definition same_key (c c' : cache) : Prop :=
  forall i f, heap c !! i = Some f ->
  exists f', heap c' !! i = Some f' /\ fl_key f' = fl_key f /\ (fl_completed f = true -> fl_completed f' = true).
Lemma sound_pc_mono c c' p : same_key c c' -> sound_pc c p -> sound_pc c' p.
Proof.
  intros M. destruct p; cbn; try done.
  - intros (f & F & <-). destruct (M _ _ F) as (f' & ? & ? & _). by exists f'.
  - intros (f & F & <-). destruct (M _ _ F) as (f' & ? & ? & _). by exists f'.
  - intros (f & F & <- & D). destruct (M _ _ F) as (f' & ? & ? & ?). exists f'. auto.
  - intros (f & F & <-). destruct (M _ _ F) as (f' & ? & ? & _). by exists f'.
  - intros (f & F & D). destruct (M _ _ F) as (f' & ? & ? & ?). exists f'. auto.
Qed.
Lemma sound_pcs_move c c' ts t p' started :
  same_key c c' -> Forall (sound_pc c) ts -> sound_pc c' p' -> Forall (sound_pc c') started ->
  Forall (sound_pc c') (<[t := p']> ts ++ started).
Proof.
  intros M F P S. apply Forall_app_2; [|done]. apply Forall_insert; [|done].
  eapply Forall_impl; [exact F|]. intros p. by apply sound_pc_mono.
Qed.

(** What a step does not touch stays good. *)
Lemma good_frame c c' ts ts' i op cl cl' :
  good c ts i op cl ->
  heap c' !! i = heap c !! i -> snapshots c' !! i = snapshots c !! i ->
  (forall k, entries c' !! k = Some i <-> entries c !! k = Some i) ->
  (forall k, flights c' !! k = Some i <-> flights c !! k = Some i) ->
  tot (on i) ts' = tot (on i) ts -> tot (holds i) ts' = tot (holds i) ts ->
  tot (builds i) ts' = tot (builds i) ts -> tot (completes i) ts' = tot (completes i) ts ->
  tot (owns i) ts' + cl' = tot (owns i) ts + cl -> good c' ts' i op cl'.
Proof.
  intros G Hh Hs He Hf T1 T2 T3 T4 T5.
  destruct G as [G1 G2 G3 G4 G5 G6 G7 G8].
  split; rewrite ?Hh, ?Hs, ?T1, ?T3.
  - intros N. destruct (G1 N) as (? & ? & ? & ? & ? & ? & ? & ?). rewrite T2, T4.
    split_and!; try done; lia.
  - intros f F. destruct (G2 f F) as [A1 A2 A3 A4 A5]. split; rewrite ?T1, ?T2, ?T3, ?T4; done.
  - intros k E. apply G3. by apply He.
  - intros k E. apply G4. by apply Hf.
  - intros f F N1. specialize (G5 f F N1). destruct (fl_cancelled f); [done|].
    split; [apply Hf; apply G5|apply G5].
  - intros s S U. apply He. by apply G6.
  - assert (K : kept c' i = kept c i); [|lia].
    unfold kept. rewrite Hs. destruct (snapshots c !! i) as [s|]; [|done].
    specialize (He (sn_key s)). by destruct (decide _), (decide _); tauto.
  - done.
Qed.

Lemma good_intro c ts i op cl f :
  heap c !! i = Some f -> flight_ok ts i f (snapshots c !! i) ->
  (forall k, entries c !! k = Some i -> exists s, snapshots c !! i = Some s /\ sn_key s = k) ->
  (forall k, flights c !! k = Some i -> fl_key f = k /\ fl_completed f = false /\ fl_cancelled f = false) ->
  (fl_completed f = false -> if fl_cancelled f then tot (on i) ts = 0
                             else flights c !! fl_key f = Some i /\ 0 < tot (on i) ts) ->
  (forall s, snapshots c !! i = Some s -> sn_inUse s <> 0%Z -> entries c !! sn_key s = Some i) ->
  op = kept c i + tot (owns i) ts + cl -> op + tot (builds i) ts <= 1 -> good c ts i op cl.
Proof.
  intros F O E R W U C B. split; [congruence| |done| | |done..].
  - intros f' F'. by simplify_eq.
  - intros k K. exists f. destruct (R k K). done.
  - intros f' F'. by simplify_eq.
Qed.

(** The sums after a step that starts nothing. *)
Lemma tot_swap ts t p p' i :
  ts !! t = Some p ->
  tot (on i) (<[t := p']> ts) + on i p = tot (on i) ts + on i p'
  /\ tot (holds i) (<[t := p']> ts) + holds i p = tot (holds i) ts + holds i p'
  /\ tot (builds i) (<[t := p']> ts) + builds i p = tot (builds i) ts + builds i p'
  /\ tot (completes i) (<[t := p']> ts) + completes i p = tot (completes i) ts + completes i p'
  /\ tot (owns i) (<[t := p']> ts) + owns i p = tot (owns i) ts + owns i p'.
Proof. intros T. split_and!; by apply sum_list_insert. Qed.
Ltac tidy M := cbn in M; rewrite ?tot_nil, ?tot_cons, ?one_eq in M; rewrite ?one_ne in M by congruence.
Ltac swapped T p' i :=
  let M1 := fresh "M" in let M2 := fresh "M" in let M3 := fresh "M" in
  let M4 := fresh "M" in let M5 := fresh "M" in
  destruct (tot_swap _ _ _ p' i T) as (M1 & M2 & M3 & M4 & M5); tidy M1; tidy M2; tidy M3; tidy M4; tidy M5.

Lemma sound_pcs_swap c c' ts t p' :
  same_key c c' -> Forall (sound_pc c) ts -> sound_pc c' p' -> Forall (sound_pc c') (<[t := p']> ts).
Proof. intros M F P. rewrite <- (app_nil_r (<[_ := _]> _)). by eapply sound_pcs_move. Qed.
Lemma same_key_refl c c' : heap c' = heap c -> same_key c c'.
Proof. intros E i f F. exists f. by rewrite E. Qed.

(** Steps that leave the cache as it is: data bases in hand may be closed. *)
Lemma accounted_quiet w ts t p p' closed' :
  accounted w ts -> ts !! t = Some p -> sound_pc (w_cache w) p' ->
  (forall i, on i p' = on i p /\ holds i p' = holds i p /\ builds i p' = builds i p
             /\ completes i p' = completes i p
             /\ owns i p' + tot (one i) closed' = owns i p + tot (one i) (closed w)) ->
  accounted (mkWorld (w_cache w) (opened w) closed') (<[t := p']> ts).
Proof.
  intros [G A P] T S Q. split; [|done|by eapply sound_pcs_swap; [apply same_key_refl|..]].
  intros i; cbn. destruct (Q i) as (Q1 & Q2 & Q3 & Q4 & Q5). swapped T p' i.
  eapply good_frame; [apply G|done..| | | | |]; lia.
Qed.

(** Eviction hands the evicted data bases to the goroutine. *)
Lemma accounted_built w ts : accounted w ts -> entries_built (w_cache w).
Proof. intros [G _ _] k e E. by apply (ok_entry _ _ _ _ _ (G e)). Qed.
Lemma accounted_prune `{MapOrder} w ts t p p' :
  accounted w ts -> ts !! t = Some p -> sound_pc (w_cache w) p' ->
  (forall i, on i p' = on i p /\ holds i p' = holds i p /\ builds i p' = builds i p
             /\ completes i p' = completes i p
             /\ owns i p' = owns i p + tot (one i) (pruneWorktreeGraphSnapshotsLocked (w_cache w)).2) ->
  accounted (with_cache (pruneWorktreeGraphSnapshotsLocked (w_cache w)).1 w) (<[t := p']> ts).
Proof.
  intros I T S Q. destruct (prune_locked _ (accounted_built _ _ I)) as [[P1 P2 P3 P4 P5 P6] _].
  destruct I as [G A P]. destruct (pruneWorktreeGraphSnapshotsLocked _) as [c' l]; cbn in *.
  split; cbn.
  - intros i. destruct (Q i) as (Q1 & Q2 & Q3 & Q4 & Q5). specialize (P6 i). swapped T p' i.
    destruct (G i) as [G1 G2 G3 G4 G5 G6 G7 G8].
    split; rewrite ?P1, ?P2, ?P3.
    + intros N. destruct (G1 N) as (? & ? & ? & ? & ? & ? & ? & Sn).
      assert (kept (w_cache w) i = 0) by (unfold kept; by rewrite Sn). split_and!; try done; lia.
    + intros f F. destruct (G2 f F) as [A1 A2 A3 A4 A5]. split; try done; try lia.
      destruct (snapshots _ !! i); [destruct A5 as (? & ? & ?)|destruct A5]; split_and?; try done; lia.
    + intros k E. by apply G3, P4.
    + done.
    + intros f F N1. specialize (G5 f F N1). destruct (fl_cancelled f); [lia|]. split; [apply G5|lia].
    + intros s Hs U. destruct (P5 _ _ (G6 s Hs U)) as [?|(s' & ? & _ & ?)]; [done|congruence].
    + lia.
    + lia.
  - intros k. rewrite P1. destruct (A k) as [?|N]; [by left|right].
    destruct (entries c' !! k) eqn:E; [|done]. apply P4 in E. congruence.
  - eapply sound_pcs_swap; [by apply same_key_refl|done|].
    eapply sound_pc_mono; [by apply same_key_refl|done].
Qed.

(** ** The regions *)
(** A region that ends in an eviction, of a state that is accounted for. *)
Definition evicts `{MapOrder} (w : world) (ts : list pc) (t : nat) (c : cache) (p : pc) : Prop :=
  exists c1 p1, accounted (with_cache c1 w) (<[t := p1]> ts) /\ c = (pruneWorktreeGraphSnapshotsLocked c1).1
    /\ (sound_pc c1 p1 -> sound_pc c1 p)
    /\ forall i, on i p = on i p1 /\ holds i p = holds i p1 /\ builds i p = builds i p1
             /\ completes i p = completes i p1
             /\ owns i p = owns i p1 + tot (one i) (pruneWorktreeGraphSnapshotsLocked c1).2.
Lemma evicts_accounted `{MapOrder} w ts t c p :
  t < length ts -> evicts w ts t c p -> accounted (with_cache c w) (<[t := p]> ts).
Proof.
  intros L (c1 & p1 & I & -> & S & Q). rewrite <- (list_insert_insert_eq ts t p p1).
  apply (accounted_prune _ _ t p1 p I); [by apply list_lookup_insert_eq| |exact Q].
  apply S. eapply Forall_lookup_1; [apply (acc_pcs _ _ I)|]. by apply list_lookup_insert_eq.
Qed.
Ltac evicting c p0 :=
  let c' := fresh "c'" in let l := fresh "l" in let Pr := fresh "Pr" in
  destruct (pruneWorktreeGraphSnapshotsLocked _) as [c' l] eqn:Pr; intros [= <- <-];
  change (pruneWorktreeGraphSnapshotsLocked c = (c', l)) in Pr;
  exists c, p0; rewrite Pr; split_and!;
    [|done|done|intros i; cbn; rewrite ?tot_app, ?tot_nil; split_and!; done || lia].

Lemma alter_same_key fl g c :
  (forall f, fl_key (g f) = fl_key f) -> (forall f, fl_completed f = true -> fl_completed (g f) = true) ->
  same_key c (on_heap fl g c).
Proof.
  intros K D i f F. cbn. destruct (decide (fl = i)) as [<-|N].
  - exists (g f). rewrite list_lookup_alter_eq, F. auto.
  - exists f. by rewrite list_lookup_alter_ne.
Qed.

Lemma leave_spec f : (0 < fl_waiters f)%Z -> leave f = set_waiters (fl_waiters f - 1) f.
Proof. intros P. unfold leave. by rewrite (proj2 (Z.ltb_lt _ _) P). Qed.

(** Regions that only count: the waiters of a flight and the uses of its snapshot. *)
Lemma good_count c c' ts ts' fl f n g op cl :
  good c ts fl op cl -> heap c !! fl = Some f -> heap c' !! fl = Some (set_waiters n f) ->
  entries c' = entries c -> flights c' = flights c ->
  snapshots c' !! fl = g <$> snapshots c !! fl -> (forall s, sn_key (g s) = sn_key s) ->
  n = Z.of_nat (tot (on fl) ts') ->
  (forall s, snapshots c !! fl = Some s ->
     sn_inUse (g s) = Z.of_nat (tot (holds fl) ts' + tot (on fl) ts')
     /\ (sn_inUse (g s) <> 0%Z -> entries c !! sn_key s = Some fl)) ->
  (snapshots c !! fl = None -> tot (holds fl) ts' = 0) ->
  (fl_completed f = false -> fl_cancelled f = false /\ 0 < tot (on fl) ts') ->
  tot (builds fl) ts' = tot (builds fl) ts -> tot (completes fl) ts' = tot (completes fl) ts ->
  tot (owns fl) ts' = tot (owns fl) ts -> good c' ts' fl op cl.
Proof.
  intros [G1 G2 G3 G4 G5 G6 G7 G8] F F' He Hf Hs K N U Z L B C O.
  destruct (G2 f F) as [W D R E S].
  eapply good_intro; [exact F'|split; cbn; try done|..]; rewrite ?He, ?Hf, ?Hs, ?O, ?B, ?C.
  - done.
  - destruct (snapshots c !! fl) as [s|] eqn:Sn; cbn.
    + destruct S as (? & ? & _). rewrite K. split_and!; [done|done|by apply U].
    + split; [apply S|by apply Z].
  - intros k E'. destruct (G3 k E') as (s & -> & ?). exists (g s). split; [done|]. by rewrite K.
  - intros k E'. destruct (G4 k E') as (f' & F'' & ? & ? & ?). by simplify_eq.
  - cbn. intros N1. specialize (G5 f F N1). destruct (L N1) as [Lc Lp]. rewrite Lc in G5 |- *.
    split; [apply G5|done].
  - intros s' S' N'. destruct (snapshots c !! fl) as [s|] eqn:Sn; [|done]. injection S' as <-.
    rewrite K. by apply (U s).
  - rewrite G7. unfold kept. rewrite Hs, He. destruct (snapshots c !! fl); cbn; [by rewrite K|done].
  - done.
Qed.

Record counted (c c' : cache) (fl : nat) (f : worktreeGraphFlight) (n : Z) (g : worktreeGraphCacheEntry -> worktreeGraphCacheEntry) : Prop := {
  counted_entries : entries c' = entries c;
  counted_flights : flights c' = flights c;
  counted_heap : heap c' !! fl = Some (set_waiters n f);
  counted_heap_ne i : i <> fl -> heap c' !! i = heap c !! i;
  counted_snapshot : snapshots c' !! fl = g <$> snapshots c !! fl;
  counted_snapshot_ne i : i <> fl -> snapshots c' !! i = snapshots c !! i;
  counted_key s : sn_key (g s) = sn_key s }.
(** A goroutine that neither builds nor closes, and that is about [fl] only. *)
Definition about (fl : nat) (p : pc) : Prop :=
  forall i, builds i p = 0 /\ completes i p = 0 /\ owns i p = 0 /\ (i <> fl -> on i p = 0 /\ holds i p = 0).
Lemma about_other fl p p' ts t i :
  about fl p -> about fl p' -> ts !! t = Some p -> i <> fl ->
  tot (on i) (<[t := p']> ts) = tot (on i) ts /\ tot (holds i) (<[t := p']> ts) = tot (holds i) ts.
Proof.
  intros A A' T N. destruct (A i) as (_ & _ & _ & B), (A' i) as (_ & _ & _ & B').
  destruct (B N), (B' N). swapped T p' i. lia.
Qed.
Lemma about_any fl p p' ts t i :
  about fl p -> about fl p' -> ts !! t = Some p ->
  tot (builds i) (<[t := p']> ts) = tot (builds i) ts /\ tot (completes i) (<[t := p']> ts) = tot (completes i) ts
  /\ tot (owns i) (<[t := p']> ts) = tot (owns i) ts.
Proof.
  intros A A' T. destruct (A i) as (? & ? & ? & _), (A' i) as (? & ? & ? & _). swapped T p' i. lia.
Qed.

Lemma accounted_count w ts t p p' c' fl f n g :
  accounted w ts -> ts !! t = Some p -> heap (w_cache w) !! fl = Some f ->
  counted (w_cache w) c' fl f n g -> about fl p -> about fl p' -> sound_pc (w_cache w) p' ->
  (n + Z.of_nat (on fl p) = fl_waiters f + Z.of_nat (on fl p'))%Z ->
  (forall s, snapshots (w_cache w) !! fl = Some s ->
     (sn_inUse (g s) + Z.of_nat (holds fl p + on fl p) = sn_inUse s + Z.of_nat (holds fl p' + on fl p'))%Z
     /\ (sn_inUse s = 0%Z -> sn_inUse (g s) <> 0%Z -> entries (w_cache w) !! sn_key s = Some fl)) ->
  (fl_entry f = false -> holds fl p' = 0) ->
  (fl_completed f = false -> fl_cancelled f = false /\ (0 < n)%Z) ->
  accounted (with_cache c' w) (<[t := p']> ts).
Proof.
  intros [G A P] T F [C1 C2 C3 C4 C5 C6 C7] Ap Ap' S N U Z L. split; cbn.
  - intros i. destruct (about_any fl p p' ts t i Ap Ap' T) as (B1 & B2 & B3).
    destruct (decide (i = fl)) as [->|Ne].
    + destruct (ok_flight _ _ _ _ _ (G fl) f F) as [W _ _ _ Sn]. swapped T p' fl.
      eapply (good_count _ _ _ _ _ f n g); try done.
      * lia.
      * intros s Hs. destruct (U s Hs) as (U1 & U2). rewrite Hs in Sn. destruct Sn as (_ & _ & Sn).
        split; [lia|]. intros Q. destruct (decide (sn_inUse s = 0%Z)); [by apply U2|].
        by apply (ok_used _ _ _ _ _ (G fl)).
      * intros Hs. rewrite Hs in Sn. destruct Sn as (Sn & ?). specialize (Z Sn). lia.
      * intros N1. destruct (L N1). split; [done|lia].
    + destruct (about_other fl p p' ts t i Ap Ap' T Ne).
      eapply good_frame; [apply G|by apply C4|by apply C6|by rewrite C1|by rewrite C2|done..|lia].
  - intros k. rewrite C1, C2. apply A.
  - assert (M : same_key (w_cache w) c').
    { intros i f' F'. destruct (decide (i = fl)) as [->|Ne].
      - exists (set_waiters n f). by simplify_eq.
      - exists f'. by rewrite C4. }
    eapply sound_pcs_swap; [done|done|]. by eapply sound_pc_mono.
Qed.

Lemma set_waiters_same f : set_waiters (fl_waiters f) f = f.
Proof. by destruct f. Qed.
Ltac about_solve := lazymatch goal with |- about _ _ => intros i; cbn; split_and!; try done; intros; split; try done; by apply one_ne end.
Ltac counted_solve F :=
  split; cbn; intros;
  try (rewrite ?list_lookup_alter_eq, ?lookup_alter_eq, ?F, ?set_waiters_same; cbn; done);
  try (rewrite ?list_lookup_alter_ne, ?lookup_alter_ne by done; done).
Lemma option_fmap_same {A} (o : option A) : o = id <$> o.
Proof. by destruct o. Qed.

(** What the accounting says of a flight and of a snapshot that is at hand. *)
Lemma snapshot_flight w ts e s :
  accounted w ts -> snapshots (w_cache w) !! e = Some s ->
  exists f, heap (w_cache w) !! e = Some f /\ fl_key f = sn_key s.
Proof.
  intros [G _ _] S. destruct (heap (w_cache w) !! e) as [f|] eqn:F.
  - exists f. split; [done|]. pose proof (ok_snapshot _ _ _ _ (ok_flight _ _ _ _ _ (G e) f F)) as O.
    rewrite S in O. by destruct O as (_ & -> & _).
  - destruct (ok_fresh _ _ _ _ _ (G e) F) as (_ & _ & _ & _ & _ & _ & _ & ?). congruence.
Qed.
Lemma held_snapshot w ts t key e :
  accounted w ts -> ts !! t = Some (Holding key e) ->
  exists s, snapshots (w_cache w) !! e = Some s /\ sn_key s = key /\ (0 < sn_inUse s)%Z.
Proof.
  intros [G _ P] T. pose proof (tot_elem (holds e) ts t _ T) as Hd; tidy Hd.
  pose proof (Forall_lookup_1 _ _ _ _ P T) as (f & F & K).
  pose proof (ok_snapshot _ _ _ _ (ok_flight _ _ _ _ _ (G e) f F)) as O.
  destruct (snapshots (w_cache w) !! e) as [s|].
  - destruct O as (_ & Q & I). exists s. split_and!; [done|congruence|lia].
  - lia.
Qed.

(** [releaseWorktreeGraphSnapshot], [waitWorktreeGraphSnapshot] and the counting branches of
    [acquireWorktreeGraphSnapshot]. *)
Lemma unhold_inUse now s : (0 < sn_inUse s)%Z -> sn_inUse (unhold now s) = (sn_inUse s - 1)%Z.
Proof.
  intros U. unfold unhold, drop_use. rewrite (proj2 (Z.ltb_lt _ _) U); cbn. by destruct (_ =? _)%Z.
Qed.
Lemma unhold_key now s : sn_key (unhold now s) = sn_key s.
Proof. unfold unhold, drop_use. by destruct (0 <? _)%Z; cbn; destruct (_ =? _)%Z. Qed.
Lemma drop_use_inUse s : (0 < sn_inUse s)%Z -> sn_inUse (drop_use s) = (sn_inUse s - 1)%Z.
Proof. intros U. unfold drop_use. by rewrite (proj2 (Z.ltb_lt _ _) U). Qed.
Lemma drop_use_key s : sn_key (drop_use s) = sn_key s.
Proof. unfold drop_use. by destruct (0 <? _)%Z. Qed.

Lemma flight_wanted w ts i f :
  accounted w ts -> heap (w_cache w) !! i = Some f -> fl_completed f = false -> fl_cancelled f = false ->
  (0 < fl_waiters f)%Z /\ flights (w_cache w) !! fl_key f = Some i.
Proof.
  intros [G _ _] F N1 N2. pose proof (ok_wanted _ _ _ _ _ (G i) f F N1) as Q. rewrite N2 in Q. destruct Q as (Q & ?).
  pose proof (ok_waiters _ _ _ _ (ok_flight _ _ _ _ _ (G i) f F)). split; [lia|done].
Qed.
Lemma waiter_wanted w ts i f :
  accounted w ts -> heap (w_cache w) !! i = Some f -> fl_completed f = false -> (0 < fl_waiters f)%Z ->
  fl_cancelled f = false.
Proof.
  intros [G _ _] F N1 P. pose proof (ok_wanted _ _ _ _ _ (G i) f F N1) as Q.
  pose proof (ok_waiters _ _ _ _ (ok_flight _ _ _ _ _ (G i) f F)). destruct (fl_cancelled f); [lia|done].
Qed.
Lemma waiter_counted w ts t p fl f :
  accounted w ts -> ts !! t = Some p -> heap (w_cache w) !! fl = Some f -> (Z.of_nat (on fl p) <= fl_waiters f)%Z.
Proof.
  intros [G _ _] T F. pose proof (tot_elem (on fl) ts t p T).
  pose proof (ok_waiters _ _ _ _ (ok_flight _ _ _ _ _ (G fl) f F)). lia.
Qed.
Lemma entry_snapshot w ts fl f :
  accounted w ts -> heap (w_cache w) !! fl = Some f ->
  fl_entry f = fl_completed f && bool_decide (fl_err f = None)
  /\ match snapshots (w_cache w) !! fl with
     | Some s => fl_entry f = true /\ sn_key s = fl_key f /\ (fl_waiters f <= sn_inUse s)%Z
     | None => fl_entry f = false
     end.
Proof.
  intros [G _ _] F. destruct (ok_flight _ _ _ _ _ (G fl) f F) as [W _ _ E S].
  destruct (snapshots _ !! fl); [|by destruct S]. destruct S as (? & ? & ?). split_and!; try done. lia.
Qed.

Lemma snapshot_completed w ts fl f s :
  accounted w ts -> heap (w_cache w) !! fl = Some f -> snapshots (w_cache w) !! fl = Some s -> fl_completed f = true.
Proof.
  intros I F S. destruct (entry_snapshot _ _ _ _ I F) as [E Sn]. rewrite S in Sn.
  destruct Sn as (Q & _). rewrite Q in E. by destruct (fl_completed f).
Qed.

Lemma accounted_release w ts t key e now :
  accounted w ts -> ts !! t = Some (Holding key e) ->
  accounted (with_cache (on_snapshot e (unhold now) (w_cache w)) w) (<[t := Closing [] Released]> ts).
Proof.
  intros I T. destruct (held_snapshot _ _ _ _ _ I T) as (s & S & K & U).
  destruct (snapshot_flight _ _ _ _ I S) as (f & F & _).
  eapply (accounted_count _ _ _ _ _ _ e f (fl_waiters f) (unhold now)); try done; try about_solve.
  - counted_solve F. apply unhold_key.
  - intros s' S'. simplify_eq. cbn. rewrite one_eq, unhold_inUse by done. split; [lia|lia].
  - intros D. pose proof (snapshot_completed _ _ _ _ _ I F S). congruence.
Qed.

Lemma accounted_hit w ts t key e now :
  accounted w ts -> ts !! t = Some (AcquireLock key) -> entries (w_cache w) !! key = Some e ->
  accounted (with_cache (on_snapshot e (hold now) (w_cache w)) w) (<[t := Holding key e]> ts).
Proof.
  intros I T E. destruct (accounted_built _ _ I _ _ E) as (s & S & K).
  destruct (snapshot_flight _ _ _ _ I S) as (f & F & K').
  eapply (accounted_count _ _ _ _ _ _ e f (fl_waiters f) (hold now)); try done; try about_solve.
  - counted_solve F.
  - exists f. split; [done|congruence].
  - intros s' S'. simplify_eq. cbn. rewrite one_eq. split; [lia|done].
  - intros D. destruct (entry_snapshot _ _ _ _ I F) as [_ Sn]. rewrite S in Sn. destruct Sn. congruence.
  - intros D. pose proof (snapshot_completed _ _ _ _ _ I F S). congruence.
Qed.

Lemma accounted_share w ts t key fl :
  accounted w ts -> ts !! t = Some (AcquireLock key) -> flights (w_cache w) !! key = Some fl ->
  accounted (with_cache (on_heap fl (fun f => set_waiters (fl_waiters f + 1) f) (w_cache w)) w)
    (<[t := Selecting key fl]> ts).
Proof.
  intros I T E. destruct (ok_registered _ _ _ _ _ (acc_good _ _ I fl) key E) as (f & F & K & D & Cn).
  pose proof (waiter_counted _ _ _ _ _ _ I T F).
  eapply (accounted_count _ _ _ _ _ _ fl f (fl_waiters f + 1) id); try done; try about_solve.
  - counted_solve F. apply option_fmap_same.
  - by exists f.
  - cbn. rewrite one_eq. lia.
  - intros s S. destruct (entry_snapshot _ _ _ _ I F) as [Q Sn]. rewrite S, Q, D in Sn. by destruct Sn.
  - intros. cbn in *. split; [done|lia].
Qed.

Lemma accounted_wait w ts t key fl now :
  accounted w ts -> ts !! t = Some (DoneLock key fl) ->
  accounted (with_cache (wait_region key fl now (w_cache w)).1 w) (<[t := (wait_region key fl now (w_cache w)).2]> ts).
Proof.
  intros I T. destruct (Forall_lookup_1 _ _ _ _ (acc_pcs _ _ I) T) as (f & F & K & D).
  pose proof (waiter_counted _ _ _ _ _ _ I T F) as On; cbn in On; rewrite one_eq in On.
  destruct (entry_snapshot _ _ _ _ I F) as [E Sn]. rewrite D in E; cbn in E.
  unfold wait_region. rewrite F; cbn.
  eapply (accounted_count _ _ _ _ _ _ fl f (fl_waiters f - 1) (if fl_entry f then used now else id)); try done; try about_solve.
  - destruct (fl_entry f); counted_solve F; try apply option_fmap_same.
    all: rewrite list_lookup_alter_eq, F; cbn; by rewrite leave_spec by lia.
  - destruct (fl_err f), (fl_entry f); about_solve.
  - destruct (fl_err f), (fl_entry f); try done. by exists f.
  - destruct (fl_err f), (fl_entry f); cbn; rewrite ?one_eq; lia.
  - intros s S. rewrite S in Sn. destruct Sn as (Q & _). rewrite Q in E |- *.
    destruct (fl_err f); [done|]. cbn. rewrite one_eq. split; [lia|done].
  - intros Q. rewrite Q in E |- *. by destruct (fl_err f).
  - congruence.
Qed.

(** A waiter leaves, and perhaps its use of the snapshot with it. *)
Definition left_flight (fl : nat) (f : worktreeGraphFlight) (c : cache) : cache :=
  if fl_entry f then on_snapshot fl drop_use (on_heap fl leave c) else on_heap fl leave c.
Lemma accounted_left w ts t key fl f o :
  accounted w ts -> ts !! t = Some (CancelLock key fl) -> heap (w_cache w) !! fl = Some f ->
  (fl_completed f = false -> fl_waiters f <> 1%Z) ->
  accounted (with_cache (left_flight fl f (w_cache w)) w) (<[t := Closing [] o]> ts).
Proof.
  intros I T F Q. pose proof (waiter_counted _ _ _ _ _ _ I T F) as On; cbn in On; rewrite one_eq in On.
  destruct (entry_snapshot _ _ _ _ I F) as [E Sn].
  eapply (accounted_count _ _ _ _ _ _ fl f (fl_waiters f - 1) (if fl_entry f then drop_use else id)); try done; try about_solve.
  - unfold left_flight. destruct (fl_entry f); counted_solve F; try apply option_fmap_same; try apply drop_use_key.
    all: rewrite list_lookup_alter_eq, F; cbn; by rewrite leave_spec by lia.
  - cbn. rewrite one_eq. lia.
  - intros s S. rewrite S in Sn. destruct Sn as (R & _ & L). rewrite R. cbn.
    rewrite one_eq, drop_use_inUse by lia. split; [lia|]. lia.
  - intros D. specialize (Q D). split; [eapply waiter_wanted; done || lia|lia].
Qed.

(** A new flight, and its goroutine. *)
Definition fresh_flight (key : gostring) : worktreeGraphFlight := mkFlight key false false 1 false false None.
Definition with_flight (key : gostring) (c : cache) : cache :=
  mkCache (entries c) (<[key := length (heap c)]> (flights c)) (heap c ++ [fresh_flight key]) (snapshots c).
Lemma accounted_begin w ts t key :
  accounted w ts -> ts !! t = Some (AcquireLock key) ->
  entries (w_cache w) !! key = None -> flights (w_cache w) !! key = None ->
  accounted (with_cache (with_flight key (w_cache w)) w)
    (<[t := Selecting key (length (heap (w_cache w)))]> ts ++ [Building (length (heap (w_cache w)))]).
Proof.
  intros [G A P] T En Fn. set (fl := length (heap (w_cache w))).
  assert (M : forall f, tot f (<[t := Selecting key fl]> ts ++ [Building fl]) + f (AcquireLock key)
                        = tot f ts + f (Selecting key fl) + f (Building fl))
    by (intros f; rewrite (tot_move f ts t _ _ [Building fl] T), tot_cons, tot_nil; lia).
  assert (Hn : heap (w_cache w) !! fl = None) by by apply lookup_ge_None.
  split; cbn.
  - intros i. pose proof (M (on i)) as M1. pose proof (M (holds i)) as M2. pose proof (M (builds i)) as M3.
    pose proof (M (completes i)) as M4. pose proof (M (owns i)) as M5. cbn in M1, M2, M3, M4, M5.
    destruct (decide (i = fl)) as [->|N].
    + rewrite !one_eq in *. destruct (G fl) as [G1 _ G3 G4 _ _ G7 _].
      destruct (G1 Hn) as (? & ? & ? & ? & ? & Op & Cl & Sn).
      eapply (good_intro _ _ _ _ _ (fresh_flight key)); cbn; rewrite ?Sn; try done.
      * by rewrite lookup_app_r, Nat.sub_diag by done.
      * split; cbn; [lia|done|lia|done|split; [done|lia]].
      * intros k E. destruct (G3 k E) as (s & ? & _). congruence.
      * intros k [[? _]|[N E]]%lookup_insert_Some; [done|].
        destruct (G4 k E) as (f & ? & _). congruence.
      * intros _. rewrite lookup_insert_eq. split; [done|lia].
      * unfold kept; cbn. rewrite Sn, Op, Cl. lia.
      * lia.
    + rewrite !(one_ne i fl) in * by done.
      eapply good_frame; [apply G|cbn|done|done|cbn|lia..].
      * destruct (decide (i < fl)); [by rewrite lookup_app_l|].
        rewrite !(proj2 (lookup_ge_None _ _)); [done|lia|rewrite length_app; cbn; lia].
      * intros k. rewrite lookup_insert_Some. split; [intros [[_ Q]|[_ ?]]; [by symmetry in Q|done]|].
        intros E. right. split; [congruence|done].
  - intros k. destruct (decide (k = key)) as [->|N]; [by right|].
    rewrite lookup_insert_ne by done. apply A.
  - eapply sound_pcs_move; [|done| |by constructor].
    + intros i f F. exists f. cbn. split; [by apply lookup_app_l_Some|done].
    + exists (fresh_flight key). cbn. by rewrite lookup_app_r, Nat.sub_diag by done.
Qed.

(** A flight that leaves the map without a snapshot. *)
Lemma registered_key w ts fl f k :
  accounted w ts -> heap (w_cache w) !! fl = Some f -> flights (w_cache w) !! k = Some fl ->
  fl_key f = k /\ fl_completed f = false /\ fl_cancelled f = false.
Proof.
  intros I F E. destruct (ok_registered _ _ _ _ _ (acc_good _ _ I fl) k E) as (f' & F' & ?). by simplify_eq.
Qed.
Lemma forget_flights fl key c i k :
  (flights c !! k = Some fl -> key = k) ->
  flights (forget_flight fl key c) !! k = Some i <-> flights c !! k = Some i /\ i <> fl.
Proof.
  intros K. unfold forget_flight. case_bool_decide as E; cbn.
  - rewrite lookup_delete_Some. split.
    + intros [N Q]. split; [done|]. intros ->. by rewrite K in N.
    + intros [Q N]. split; [congruence|done].
  - split; [|tauto]. intros Q. split; [done|]. intros ->. by rewrite K in E.
Qed.
Lemma forget_parts fl key c :
  entries (forget_flight fl key c) = entries c /\ heap (forget_flight fl key c) = heap c
  /\ snapshots (forget_flight fl key c) = snapshots c.
Proof. unfold forget_flight. by case_bool_decide. Qed.
Lemma on_heap_forget fl g key c : forget_flight fl key (on_heap fl g c) = on_heap fl g (forget_flight fl key c).
Proof. unfold forget_flight; cbn. by case_bool_decide. Qed.
Lemma on_heap_twice fl g h c : on_heap fl g (on_heap fl h c) = on_heap fl (fun f => g (h f)) c.
Proof.
  unfold on_heap; cbn. f_equal. apply list_eq. intros i. destruct (decide (fl = i)) as [<-|N].
  - rewrite !list_lookup_alter_eq. by destruct (heap c !! fl).
  - by rewrite !list_lookup_alter_ne.
Qed.

Lemma accounted_forget w ts t p p' fl f g :
  accounted w ts -> ts !! t = Some p -> heap (w_cache w) !! fl = Some f ->
  snapshots (w_cache w) !! fl = None ->
  (forall f, fl_key (g f) = fl_key f) -> (forall f, fl_completed f = true -> fl_completed (g f) = true) ->
  (fl_completed (g f) = false -> fl_cancelled (g f) = true /\ fl_waiters (g f) = 0%Z) ->
  flight_ok (<[t := p']> ts) fl (g f) None ->
  (forall i, i <> fl -> on i p = on i p' /\ completes i p = completes i p') ->
  (forall i, holds i p = holds i p' /\ builds i p = builds i p' /\ owns i p = owns i p') ->
  (forall c, heap c !! fl = Some (g f) -> sound_pc c p') ->
  accounted (with_cache (on_heap fl g (forget_flight fl (fl_key f) (w_cache w))) w) (<[t := p']> ts).
Proof.
  intros I T F Sn K D L O Q1 Q2 S.
  assert (Fk : forall k, flights (w_cache w) !! k = Some fl -> fl_key f = k)
    by (intros k E; by eapply registered_key).
  destruct I as [G A P].
  destruct (forget_parts fl (fl_key f) (w_cache w)) as (Pe & Ph & Ps).
  pose proof (fun i k => forget_flights fl (fl_key f) (w_cache w) i k (Fk k)) as Hf.
  split; cbn [w_cache with_cache opened closed].
  - intros i. destruct (Q2 i) as (? & ? & ?). destruct (decide (i = fl)) as [->|N].
    + swapped T p' fl. destruct (G fl) as [_ _ G3 _ _ _ G7 G8].
      eapply (good_intro _ _ _ _ _ (g f)); cbn; rewrite ?Pe, ?Ph, ?Ps, ?Sn.
      * by rewrite list_lookup_alter_eq, F.
      * done.
      * rewrite Sn in G3. apply G3.
      * intros k E. by apply Hf in E as [_ ?].
      * intros N1. destruct (L N1) as [-> Q]. rewrite (ok_waiters _ _ _ _ O) in Q. lia.
      * done.
      * rewrite G7. unfold kept; cbn. rewrite Ps, Sn. lia.
      * lia.
    + destruct (Q1 i N). swapped T p' i.
      eapply good_frame; [apply G|cbn..|lia|lia|lia|lia|lia]; rewrite ?Pe, ?Ph, ?Ps; try done.
      * by rewrite list_lookup_alter_ne.
      * intros k. cbn. rewrite Hf. tauto.
  - intros k. cbn. rewrite Pe. destruct (A k) as [E|?]; [left|by right].
    destruct (flights (forget_flight _ _ _) !! k) as [i|] eqn:E'; [|done].
    apply Hf in E' as [? _]. congruence.
  - assert (M : same_key (w_cache w) (on_heap fl g (forget_flight fl (fl_key f) (w_cache w)))).
    { intros i f' F'. rewrite <- Ph in F'. by apply (alter_same_key fl g _ K D i f'). }
    eapply sound_pcs_swap; [exact M|done|]. apply S. cbn. by rewrite list_lookup_alter_eq, Ph, F.
Qed.

(** The last waiter gives the flight up. *)
Definition given_up (fl : nat) (f : worktreeGraphFlight) (c : cache) : cache :=
  on_heap fl cancel_flight (forget_flight fl (fl_key f) (on_heap fl leave c)).
Lemma leave_parts f : fl_key (leave f) = fl_key f /\ fl_completed (leave f) = fl_completed f.
Proof. unfold leave. by destruct (_ <? _)%Z. Qed.
Lemma accounted_given_up w ts t key fl f o :
  accounted w ts -> ts !! t = Some (CancelLock key fl) -> heap (w_cache w) !! fl = Some f ->
  fl_completed f = false -> fl_waiters f = 1%Z ->
  accounted (with_cache (given_up fl f (w_cache w)) w) (<[t := Closing [] o]> ts).
Proof.
  intros I T F D W1. unfold given_up. rewrite on_heap_forget, on_heap_twice.
  destruct (ok_flight _ _ _ _ _ (acc_good _ _ I fl) f F) as [Wt Dn R E S].
  assert (Sn : snapshots (w_cache w) !! fl = None).
  { rewrite D in E. destruct (snapshots (w_cache w) !! fl); [|done]. destruct S as (Q & _). by rewrite Q in E. }
  rewrite Sn in S. destruct S as (Q & Hd). swapped T (Closing [] o) fl.
  eapply accounted_forget; [done..| | | | | | |done].
  - intros f'. apply leave_parts.
  - intros f' ?. cbn. by rewrite (proj2 (leave_parts f')).
  - intros _. rewrite leave_spec by lia. split; [done|cbn; lia].
  - rewrite leave_spec by lia. split; cbn; [lia|done|lia|done|split; [done|lia]].
  - intros i N. cbn. by rewrite one_ne.
  - done.
Qed.

(** [completeWorktreeGraphFlight]: the goroutine of a flight finds it unfinished. *)
Lemma completing w ts t fl entry err :
  accounted w ts -> ts !! t = Some (CompleteLock fl entry err) ->
  exists f, heap (w_cache w) !! fl = Some f /\ fl_completed f = false /\ snapshots (w_cache w) !! fl = None
    /\ tot (holds fl) ts = 0 /\ fl_waiters f = Z.of_nat (tot (on fl) ts)
    /\ tot (builds fl) ts = 0 /\ tot (completes fl) ts = 1.
Proof.
  intros [G _ _] T. pose proof (tot_elem (completes fl) ts t _ T) as C; tidy C.
  destruct (heap (w_cache w) !! fl) as [f|] eqn:F.
  - exists f. destruct (ok_flight _ _ _ _ _ (G fl) f F) as [W _ R E S].
    destruct (fl_completed f) eqn:D; [lia|]. rewrite E in S.
    destruct (snapshots (w_cache w) !! fl); [by destruct S|]. split_and!; try done; try lia; apply S.
  - destruct (ok_fresh _ _ _ _ _ (G fl) F) as (? & ? & ? & ? & _). lia.
Qed.

Definition registered_flight (fl : nat) (f : worktreeGraphFlight) (now : Z) (c : cache) : cache :=
  mkCache (<[fl_key f := fl]> (entries c)) (delete (fl_key f) (flights c)) (alter (complete_flight true None) fl (heap c))
    (<[fl := mkSnapshot (fl_key f) now (fl_waiters f)]> (snapshots c)).
Lemma accounted_registered w ts t fl f err now :
  accounted w ts -> ts !! t = Some (CompleteLock fl true err) -> heap (w_cache w) !! fl = Some f ->
  flights (w_cache w) !! fl_key f = Some fl ->
  accounted (with_cache (registered_flight fl f now (w_cache w)) w) (<[t := CancelContext fl []]> ts).
Proof.
  intros I T F Fl. destruct (completing _ _ _ _ _ _ I T) as (f' & F' & D & Sn & Hd & W & B & C).
  assert (f' = f) as -> by congruence.
  assert (Fk : forall k, flights (w_cache w) !! k = Some fl -> fl_key f = k)
    by (intros k E; by eapply registered_key).
  destruct I as [G A P].
  assert (En : entries (w_cache w) !! fl_key f = None) by (destruct (A (fl_key f)); [congruence|done]).
  split; cbn.
  - intros i. destruct (decide (i = fl)) as [->|N].
    + swapped T (CancelContext fl []) fl. destruct (G fl) as [_ _ G3 _ _ _ G7 G8].
      eapply (good_intro _ _ _ _ _ (complete_flight true None f)); cbn; rewrite ?lookup_insert_eq.
      * by rewrite list_lookup_alter_eq, F'.
      * split; cbn; [lia|done|lia|done|split_and!; [done|done|lia]].
      * intros k [[<- _]|[_ E]]%lookup_insert_Some; [by eexists|].
        destruct (G3 k E) as (s & ? & _). congruence.
      * intros k [N E]%lookup_delete_Some. by rewrite (Fk k E) in N.
      * done.
      * intros s [= <-] _; cbn. by rewrite lookup_insert_eq.
      * rewrite G7. unfold kept; cbn. rewrite Sn, lookup_insert_eq; cbn.
        rewrite lookup_insert_eq, decide_True by done. lia.
      * lia.
    + swapped T (CancelContext fl []) i. eapply good_frame; [apply G|cbn..|lia|lia|lia|lia|lia].
      * by rewrite list_lookup_alter_ne.
      * by rewrite lookup_insert_ne.
      * intros k. rewrite lookup_insert_Some. split; [intros [[_ ?]|[_ ?]]; [congruence|done]|].
        intros E. right. split; [congruence|done].
      * intros k. rewrite lookup_delete_Some. split; [tauto|]. intros E. split; [congruence|done].
  - intros k. destruct (decide (fl_key f = k)) as [<-|N].
    + left. apply lookup_delete_eq.
    + rewrite lookup_delete_ne, lookup_insert_ne by done. apply A.
  - eapply sound_pcs_swap; [by apply (alter_same_key fl (complete_flight true None))|done|].
    exists (complete_flight true None f). cbn. by rewrite list_lookup_alter_eq, F'.
Qed.

Definition failed_flight (fl : nat) (f : worktreeGraphFlight) (e : goerr) (c : cache) : cache :=
  forget_flight fl (fl_key f) (on_heap fl (complete_flight false (Some e)) c).
Lemma accounted_failed w ts t fl f entry err e :
  accounted w ts -> ts !! t = Some (CompleteLock fl entry err) -> heap (w_cache w) !! fl = Some f ->
  accounted (with_cache (failed_flight fl f e (w_cache w)) w)
    (<[t := CancelContext fl (if entry then [fl] else [])]> ts).
Proof.
  intros I T F. destruct (completing _ _ _ _ _ _ I T) as (f' & F' & D & Sn & Hd & W & B & C).
  assert (f' = f) as -> by congruence. unfold failed_flight. rewrite on_heap_forget.
  set (p' := CancelContext fl _).
  assert (Ow : forall i, owns i p' = owns i (CompleteLock fl entry err))
    by (intros i; subst p'; destruct entry; cbn; rewrite ?tot_cons, ?tot_nil; lia).
  swapped T p' fl.
  eapply accounted_forget; [done..|by intros [=]| | | |].
  - split; cbn; [lia|done|lia|done|split; [done|lia]].
  - intros i N. cbn. by rewrite one_ne.
  - intros i. by rewrite Ow.
  - intros c Hc. by eexists.
Qed.

(** ** Every step keeps the accounting *)
Lemma cancel_evicts `{MapOrder} w ts t key fl c p :
  accounted w ts -> ts !! t = Some (CancelLock key fl) -> cancel_region fl (w_cache w) = (c, p) -> evicts w ts t c p.
Proof.
  intros I T. destruct (Forall_lookup_1 _ _ _ _ (acc_pcs _ _ I) T) as (f & F & _).
  unfold cancel_region. rewrite F. set (c1 := if fl_completed f then _ else _).
  evicting c1 (Closing [] (Failed CtxErr)).
  pose proof (waiter_counted _ _ _ _ _ _ I T F) as On; cbn in On; rewrite one_eq in On.
  subst c1. destruct (fl_completed f) eqn:D.
  { eapply accounted_left; [done..|congruence]. }
  rewrite leave_spec by lia. cbn. destruct (Z.eqb_spec (fl_waiters f - 1) 0) as [W|W].
  - eapply (accounted_given_up _ _ _ _ _ f); [done..|lia].
  - destruct (entry_snapshot _ _ _ _ I F) as [E _]. rewrite D in E.
    pose proof (accounted_left w ts t key fl f (Failed CtxErr) I T F) as L. unfold left_flight in L.
    rewrite E in L. apply L. lia.
Qed.

Lemma complete_evicts `{MapOrder} w ts t fl entry err now c p :
  accounted w ts -> ts !! t = Some (CompleteLock fl entry err) ->
  complete_region fl entry err now (w_cache w) = (c, p) -> evicts w ts t c p.
Proof.
  intros I T. destruct (completing _ _ _ _ _ _ I T) as (f & F & D & _).
  unfold complete_region. rewrite F.
  set (be := match err with None => _ | Some _ => _ end).
  destruct (_ && _ && _ && _) eqn:R.
  - apply andb_true_iff in R as [R R4%bool_decide_eq_true]. apply andb_true_iff in R as [R _].
    apply andb_true_iff in R as [R1%bool_decide_eq_true _].
    assert (entry = true) as -> by (subst be; by destruct err, entry).
    cbn [on_heap entries flights heap snapshots].
    evicting (registered_flight fl f now (w_cache w)) (CancelContext fl []).
    by eapply accounted_registered.
  - evicting (failed_flight fl f (default Canceled be) (w_cache w)) (CancelContext fl (if entry then [fl] else [])).
    by eapply accounted_failed.
Qed.

Lemma release_evicts `{MapOrder} w ts t key e now c p :
  accounted w ts -> ts !! t = Some (Holding key e) ->
  release_region e now (w_cache w) = (c, p) -> evicts w ts t c p.
Proof.
  intros I T. unfold release_region.
  evicting (on_snapshot e (unhold now) (w_cache w)) (Closing [] Released).
  by eapply accounted_release.
Qed.

Lemma accounted_acquire w ts t key now c p started :
  accounted w ts -> ts !! t = Some (AcquireLock key) -> acquire_region key now (w_cache w) = (c, p, started) ->
  accounted (with_cache c w) (<[t := p]> ts ++ started).
Proof.
  intros I T. unfold acquire_region. destruct (entries (w_cache w) !! key) as [e|] eqn:E.
  { intros [= <- <- <-]. rewrite app_nil_r. by eapply accounted_hit. }
  destruct (flights (w_cache w) !! key) as [fl|] eqn:Fl; intros [= <- <- <-].
  - rewrite app_nil_r. by eapply accounted_share.
  - by apply accounted_begin.
Qed.

Lemma accounted_build_returns w ts t fl (entry : bool) err :
  accounted w ts -> ts !! t = Some (Building fl) ->
  accounted (mkWorld (w_cache w) ((if entry then [fl] else []) ++ opened w) (closed w))
    (<[t := CompleteLock fl entry err]> ts).
Proof.
  intros [G A P] T. set (p' := CompleteLock fl entry err).
  assert (Ow : forall i, owns i p' = tot (one i) (if entry then [fl] else []))
    by (intros i; subst p'; destruct entry; cbn; rewrite ?tot_cons, ?tot_nil; lia).
  pose proof (tot_elem (builds fl) ts t _ T) as Bd; tidy Bd.
  split; cbn; [|done|by eapply sound_pcs_swap; [apply same_key_refl|..]].
  intros i. rewrite tot_app. destruct (decide (i = fl)) as [->|N].
  - destruct (heap (w_cache w) !! fl) as [f|] eqn:F.
    2: { destruct (ok_fresh _ _ _ _ _ (G fl) F) as (_ & _ & ? & _). lia. }
    assert (Le : tot (one fl) (if entry then [fl] else []) <= 1)
      by (destruct entry; rewrite ?tot_cons, ?tot_nil, ?one_eq; lia).
    pose proof (Ow fl) as Of. destruct (tot_swap _ _ _ p' fl T) as (M1 & M2 & M3 & M4 & M5).
    rewrite Of in M5. cbn in M1, M2, M3, M4, M5. rewrite one_eq in *.
    destruct (G fl) as [G1 G2 G3 G4 G5 G6 G7 G8]. destruct (G2 f F) as [W D R E S].
    eapply (good_intro _ _ _ _ _ f); try done; try lia.
    + split; try done; try lia. destruct (snapshots _ !! fl); [|split; [apply S|lia]].
      destruct S as (? & ? & ?). split_and!; try done. lia.
    + intros k E'. destruct (G4 k E') as (f' & ? & ?). by simplify_eq.
    + intros N1. specialize (G5 f F N1). destruct (fl_cancelled f); [lia|]. split; [apply G5|lia].
  - pose proof (Ow i) as Of. destruct (tot_swap _ _ _ p' i T) as (M1 & M2 & M3 & M4 & M5).
    rewrite Of in M5.
    assert (Z0 : tot (one i) (if entry then [fl] else []) = 0)
      by (destruct entry; rewrite ?tot_cons, ?tot_nil; [by rewrite one_ne|done]).
    rewrite Z0 in *. cbn in M1, M2, M3, M4, M5. rewrite (one_ne i fl) in * by done.
    eapply good_frame; [apply G|done..|lia|lia|lia|lia|lia].
Qed.

Lemma accounted_cancel_context w ts t fl dbs :
  accounted w ts -> ts !! t = Some (CancelContext fl dbs) ->
  accounted (with_cache (on_heap fl cancel_flight (w_cache w)) w) (<[t := Closing dbs BuildEnded]> ts).
Proof.
  intros [G A P] T. destruct (Forall_lookup_1 _ _ _ _ P T) as (f & F & D).
  split; cbn; [|done|].
  - intros i. swapped T (Closing dbs BuildEnded) i. destruct (decide (i = fl)) as [->|N].
    + destruct (G fl) as [G1 G2 G3 G4 G5 G6 G7 G8]. destruct (G2 f F) as [W Dn R E S].
      eapply (good_intro _ _ _ _ _ (cancel_flight f)); cbn; try done; try lia.
      * by rewrite list_lookup_alter_eq, F.
      * split; cbn; try done; try lia. destruct (snapshots _ !! fl); [|split; [apply S|lia]].
        destruct S as (? & ? & ?). split_and!; try done. lia.
      * intros k E'. destruct (G4 k E') as (f' & ? & ? & ? & _). congruence.
      * congruence.
      * rewrite G7. unfold kept; cbn. destruct (snapshots _ !! fl); lia.
    + eapply good_frame; [apply G|cbn|done|done|done|lia..]. by rewrite list_lookup_alter_ne.
  - eapply sound_pcs_swap; [by apply (alter_same_key fl cancel_flight)|done|done].
Qed.

Lemma thread_step w ts t p w' p' started :
  accounted w ts -> ts !! t = Some p -> tstep w p w' p' started -> accounted w' (<[t := p']> ts ++ started).
Proof.
  intros I T St. pose proof (Forall_lookup_1 _ _ _ _ (acc_pcs _ _ I) T) as S.
  assert (Q : forall p1, sound_pc (w_cache w) p1 ->
    (forall i, on i p1 = on i p /\ holds i p1 = holds i p /\ builds i p1 = builds i p
               /\ completes i p1 = completes i p /\ owns i p1 = owns i p) -> accounted w (<[t := p1]> ts)).
  { intros p1 S1 E. destruct w as [c op cl]. apply (accounted_quiet _ ts t p p1 cl I T S1).
    intros i. destruct (E i) as (? & ? & ? & ? & ?). split_and!; try done. cbn. lia. }
  destruct St; rewrite ?app_nil_r.
  - by apply Q.
  - by eapply accounted_acquire.
  - by apply Q.
  - apply Q; [|done]. destruct S as (f' & F' & K). assert (f' = f) as -> by congruence. exists f. split_and!; try done.
    rewrite <- (ok_done _ _ _ _ (ok_flight _ _ _ _ _ (acc_good _ _ I fl) f F')). done.
  - eapply evicts_accounted; [by eapply lookup_lt_Some|by eapply cancel_evicts].
  - pose proof (accounted_wait _ _ _ _ _ now I T) as W. by rewrite H in W.
  - eapply evicts_accounted; [by eapply lookup_lt_Some|by eapply release_evicts].
  - by apply accounted_build_returns.
  - eapply evicts_accounted; [by eapply lookup_lt_Some|by eapply complete_evicts].
  - by apply accounted_cancel_context.
  - apply (accounted_quiet _ _ _ _ _ _ I T); [done|]. intros i. cbn. rewrite !tot_cons. split_and!; try done. lia.
  - by apply Q.
Qed.

Lemma accounted_call w ts key : accounted w ts -> accounted w (ts ++ [AcquireLock key]).
Proof.
  intros [G A P]. split; [|done|by apply Forall_app_2; [|constructor]].
  intros i. eapply good_frame; [apply G|done..| | | | |]; rewrite tot_app, tot_cons, tot_nil; cbn; lia.
Qed.
Lemma accounted_initial : accounted initial.1 initial.2.
Proof.
  split; [|by left|constructor]. intros i.
  split; cbn; rewrite ?tot_nil; try done; try lia.
Qed.
Lemma steps_accounted c c' : rtc step c c' -> accounted c.1 c.2 -> accounted c'.1 c'.2.
Proof.
  induction 1 as [|c c1 c' St _ IH]; [done|]. intros I. apply IH. destruct St; cbn in *.
  - by eapply thread_step.
  - by apply accounted_call.
Qed.
Lemma reachable_accounted c : reachable c -> accounted c.1 c.2.
Proof. intros R. eapply steps_accounted; [exact R|apply accounted_initial]. Qed.
