(* ===== verification/SnapshotCacheUse.v ===== *)
(** The cache of worktree graph snapshots: what its users can rely on. *)
From S2P Require Import Prelude GoStrings GoSort SnapshotCache SnapshotCacheFacts.

Local Open Scope go_scope.

(** * From sums to goroutines *)
Lemma tot_one_elem e (l : list nat) : e ∈ l <-> 0 < tot (one e) l.
Proof.
  split.
  - intros (i & E)%list_elem_of_lookup. pose proof (tot_elem (one e) l i e E) as T. rewrite one_eq in T. lia.
  - intros (i & x & E & P)%sum_list_pos. unfold one in P. destruct (decide (x = e)) as [->|]; [|lia].
    by eapply list_elem_of_lookup_2.
Qed.
Lemma tot_one_NoDup (l : list nat) : (forall e, tot (one e) l <= 1) -> NoDup l.
Proof.
  induction l as [|x l IH]; intros B; constructor.
  - intros X%tot_one_elem. specialize (B x). rewrite tot_cons, one_eq in B. lia.
  - apply IH. intros e. specialize (B e). rewrite tot_cons in B. lia.
Qed.
(** [e] is open and in the hands of the goroutine. *)
Definition in_hand (e : nat) (p : pc) : Prop :=
  match p with
  | CompleteLock fl true _ => fl = e
  | CancelContext _ dbs | Closing dbs _ => e ∈ dbs
  | _ => False
  end.
Lemma owns_in_hand e p : in_hand e p <-> 0 < owns e p.
Proof.
  destruct p as [| | | | | |fl [] ?| | |]; cbn; try (split; [done|lia]); try apply tot_one_elem.
  unfold one. destruct (decide _); split; [lia|done|done|lia].
Qed.
Definition runs (fl : nat) (p : pc) : Prop :=
  match p with Building g | CompleteLock g _ _ => g = fl | _ => False end.
Lemma runs_sum fl p : runs fl p <-> 0 < builds fl p + completes fl p.
Proof.
  destruct p; cbn; try (split; [done|lia]); unfold one; destruct (decide _); split; (lia || done).
Qed.
Lemma two_elements {A} (f : A -> nat) (l : list A) i j x y :
  l !! i = Some x -> l !! j = Some y -> i <> j -> f x + f y <= tot f l.
Proof.
  revert i j; induction l as [|z l IH]; intros [|i] [|j] X Y N; try done; cbn in X, Y; rewrite tot_cons.
  - injection X as ->. pose proof (tot_elem f l j y Y). lia.
  - injection Y as ->. pose proof (tot_elem f l i x X). lia.
  - specialize (IH i j X Y ltac:(congruence)). lia.
Qed.
Lemma tot_plus {A} (f g : A -> nat) l : tot (fun x => f x + g x) l = tot f l + tot g l.
Proof. induction l as [|x l IH]; [done|]. rewrite !tot_cons, IH. lia. Qed.

Lemma kept_entry w ts e :
  accounted w ts -> ((exists key, entries (w_cache w) !! key = Some e) <-> 0 < kept (w_cache w) e).
Proof.
  intros I. unfold kept. split.
  - intros (key & E). destruct (accounted_built _ _ I _ _ E) as (s & -> & ->). rewrite decide_True by done. lia.
  - destruct (snapshots _ !! e) as [s|]; [|lia]. destruct (decide _); [|lia]. by exists (sn_key s).
Qed.
Lemma held_by (f : nat -> pc -> nat) e (ts : list pc) :
  0 < tot (f e) ts <-> exists t p, ts !! t = Some p /\ 0 < f e p.
Proof.
  split; [apply sum_list_pos|]. intros (t & p & E & P). pose proof (tot_elem (f e) ts t p E). lia.
Qed.

(** * Who has a snapshot *)
(** C23: A snapshot that a caller holds is the one of its key, it was opened and is not closed,
    no goroutine is about to close it, and it stays in the cache. *)
Theorem snapshot_stays_open w ts t key e :
  reachable (w, ts) -> ts !! t = Some (Holding key e) ->
  e ∈ opened w /\ e ∉ closed w /\ (forall u p, ts !! u = Some p -> ~ in_hand e p)
  /\ entries (w_cache w) !! key = Some e.
Proof.
  intros R T. pose proof (reachable_accounted _ R) as I; cbn in I.
  destruct (held_snapshot _ _ _ _ _ I T) as (s & S & K & U).
  destruct (acc_good _ _ I e) as [_ _ _ _ _ G6 G7 G8].
  assert (En : entries (w_cache w) !! key = Some e) by (rewrite <- K; apply G6; [done|lia]).
  assert (0 < kept (w_cache w) e) by (apply (kept_entry _ _ _ I); by exists key).
  split_and!; [apply tot_one_elem; lia| | |done].
  - rewrite tot_one_elem. lia.
  - intros u p E P%owns_in_hand. pose proof (tot_elem (owns e) ts u p E). lia.
Qed.

(** C24: Every data base that a build opened is at any time in exactly one place: in the cache,
    in the hands of one goroutine that will close it or hand it to the cache, or closed, and
    none is closed twice. *)
Theorem snapshots_accounted w ts e :
  reachable (w, ts) ->
  let cached := exists key, entries (w_cache w) !! key = Some e in
  let handed := exists t p, ts !! t = Some p /\ in_hand e p in
  (e ∈ opened w <-> cached \/ handed \/ e ∈ closed w)
  /\ ~ (cached /\ handed) /\ ~ (cached /\ e ∈ closed w) /\ ~ (handed /\ e ∈ closed w)
  /\ (forall t u p q, ts !! t = Some p -> ts !! u = Some q -> in_hand e p -> in_hand e q -> t = u)
  /\ NoDup (closed w) /\ NoDup (opened w).
Proof.
  intros R cached handed. pose proof (reachable_accounted _ R) as I; cbn in I.
  assert (C : cached <-> 0 < kept (w_cache w) e) by by eapply kept_entry.
  assert (H : handed <-> 0 < tot (owns e) ts).
  { rewrite held_by. subst handed. setoid_rewrite owns_in_hand. done. }
  rewrite C, H, !tot_one_elem.
  pose proof (ok_conserved _ _ _ _ _ (acc_good _ _ I e)). pose proof (ok_once _ _ _ _ _ (acc_good _ _ I e)).
  split_and!; [lia..| | |].
  - intros t u p q T U P%owns_in_hand Q%owns_in_hand. destruct (decide (t = u)) as [|N]; [done|].
    pose proof (two_elements (owns e) ts t u p q T U N). lia.
  - apply tot_one_NoDup. intros i. pose proof (ok_conserved _ _ _ _ _ (acc_good _ _ I i)).
    pose proof (ok_once _ _ _ _ _ (acc_good _ _ I i)). lia.
  - apply tot_one_NoDup. intros i. pose proof (ok_once _ _ _ _ _ (acc_good _ _ I i)). lia.
Qed.

(** C27: One build at a time for a key: two goroutines that build for the same key, of flights
    that nobody gave up, are one goroutine. *)
Theorem one_build_per_key w ts t u p q i j f g :
  reachable (w, ts) -> ts !! t = Some p -> ts !! u = Some q -> runs i p -> runs j q ->
  heap (w_cache w) !! i = Some f -> heap (w_cache w) !! j = Some g ->
  fl_cancelled f = false -> fl_cancelled g = false -> fl_key f = fl_key g -> t = u.
Proof.
  intros R T U P%runs_sum Q%runs_sum F G Cf Cg K. pose proof (reachable_accounted _ R) as I; cbn in I.
  assert (D : forall v r i f, ts !! v = Some r -> 0 < builds i r + completes i r ->
                heap (w_cache w) !! i = Some f -> fl_cancelled f = false -> flights (w_cache w) !! fl_key f = Some i).
  { intros v r i' f' V P' F' C'.
    pose proof (ok_running _ _ _ _ (ok_flight _ _ _ _ _ (acc_good _ _ I i') f' F')) as Ru.
    pose proof (tot_elem (builds i') ts v r V). pose proof (tot_elem (completes i') ts v r V).
    destruct (fl_completed f') eqn:N; [lia|]. by eapply flight_wanted. }
  pose proof (D _ _ _ _ T P F Cf) as Fi. pose proof (D _ _ _ _ U Q G Cg) as Fj.
  rewrite K, Fj in Fi. injection Fi as ->. destruct (decide (t = u)) as [|N]; [done|].
  pose proof (ok_running _ _ _ _ (ok_flight _ _ _ _ _ (acc_good _ _ I i) f F)) as Ru.
  pose proof (two_elements (fun r => builds i r + completes i r) ts t u p q T U N) as S.
  rewrite tot_plus in S. destruct (fl_completed f); lia.
Qed.

(** * The size of the cache *)
Definition bounded (c : cache) : Prop := size (entries c) <= maxWorktreeGraphSnapshots \/ forall e, ~ unused c e.
Lemma bounded_mono c c' :
  entries c' = entries c -> (forall e, unused c' e -> unused c e) -> bounded c -> bounded c'.
Proof. intros E U [B|B]; [left; by rewrite E|right]. intros e Ue. by apply (B e), U. Qed.
Lemma evicts_bounded `{MapOrder} w ts t c p : evicts w ts t c p -> bounded c.
Proof. intros (c1 & p1 & I & -> & _). apply prune_locked. exact (accounted_built _ _ I). Qed.

Lemma used_unused fl now c e : unused (on_snapshot fl (used now) c) e -> unused c e.
Proof.
  intros (s & S & E & U). cbn in S. destruct (decide (fl = e)) as [<-|N].
  - rewrite lookup_alter_eq in S. destruct (snapshots c !! fl) as [s'|] eqn:S'; [|done].
    injection S as <-. by exists s'.
  - rewrite lookup_alter_ne in S by done. by exists s.
Qed.
Lemma hold_unused e now c i :
  (forall s, snapshots c !! e = Some s -> (0 <= sn_inUse s)%Z) -> unused (on_snapshot e (hold now) c) i -> unused c i.
Proof.
  intros P (s & S & E & U). cbn in S. destruct (decide (e = i)) as [<-|N].
  - rewrite lookup_alter_eq in S. destruct (snapshots c !! e) as [s'|] eqn:S'; [|done].
    injection S as <-. cbn in U. specialize (P s' eq_refl). lia.
  - rewrite lookup_alter_ne in S by done. by exists s.
Qed.
Lemma acquire_bounded w ts key now c p started :
  accounted w ts -> bounded (w_cache w) -> acquire_region key now (w_cache w) = (c, p, started) -> bounded c.
Proof.
  intros I B. unfold acquire_region. destruct (entries (w_cache w) !! key) as [e|].
  - intros [= <- _ _]. apply (bounded_mono (w_cache w)); [done| |exact B]. intros i. apply hold_unused.
    intros s S. destruct (snapshot_flight _ _ _ _ I S) as (f & F & _).
    pose proof (ok_snapshot _ _ _ _ (ok_flight _ _ _ _ _ (acc_good _ _ I e) f F)) as Q.
    rewrite S in Q. destruct Q as (_ & _ & Q). lia.
  - destruct (flights (w_cache w) !! key); intros [= <- _ _]; exact B.
Qed.
Lemma wait_bounded key fl now c : bounded c -> bounded (wait_region key fl now c).1.
Proof.
  intros B. unfold wait_region. destruct (heap c !! fl) as [f|]; [|done]. cbn.
  destruct (fl_entry f); [|exact B]. apply (bounded_mono c); [done| |exact B]. intros i. apply (used_unused fl now (on_heap fl leave c)).
Qed.

Lemma thread_bounded w ts t p w' p' started :
  accounted w ts -> bounded (w_cache w) -> ts !! t = Some p -> tstep w p w' p' started -> bounded (w_cache w').
Proof.
  intros I B T St. destruct St; try done.
  - by eapply acquire_bounded.
  - eapply evicts_bounded. by eapply cancel_evicts.
  - pose proof (wait_bounded key fl now (w_cache w) B) as W. by rewrite H in W.
  - eapply evicts_bounded. by eapply release_evicts.
  - eapply evicts_bounded. by eapply complete_evicts.
Qed.
Lemma reachable_bounded c : reachable c -> accounted c.1 c.2 /\ bounded (w_cache c.1).
Proof.
  intros R. split; [by apply reachable_accounted|].
  pose proof accounted_initial as I. assert (B : bounded (w_cache initial.1)) by (left; unfold initial; cbn [fst w_cache entries emptyCache]; rewrite map_size_empty; lia).
  revert I B. induction R as [|c c1 c' St _ IH]; [done|]. intros I B. apply IH.
  - by eapply steps_accounted; [apply rtc_once|].
  - destruct St; cbn in *; [by eapply thread_bounded|done].
Qed.

(** C26: The cache never holds more than four snapshots, unless each one of them has a
    goroutine that waits for it or uses it. *)
Theorem cache_bounded w ts :
  reachable (w, ts) ->
  size (entries (w_cache w)) <= maxWorktreeGraphSnapshots
  \/ forall key e, entries (w_cache w) !! key = Some e ->
       exists t p, ts !! t = Some p /\ (p = Holding key e \/ p = Selecting key e \/ p = CancelLock key e \/ p = DoneLock key e).
Proof.
  intros R. destruct (reachable_bounded _ R) as [I [B|B]]; cbn in *; [by left|right].
  intros key e E. destruct (accounted_built _ _ I _ _ E) as (s & S & <-).
  destruct (snapshot_flight _ _ _ _ I S) as (f & F & _).
  pose proof (ok_snapshot _ _ _ _ (ok_flight _ _ _ _ _ (acc_good _ _ I e) f F)) as Q.
  rewrite S in Q. destruct Q as (_ & K & U).
  assert (N : sn_inUse s <> 0%Z) by (intros Z0; apply (B e); by exists s).
  assert (P : 0 < tot (fun p => holds e p + on e p) ts) by (rewrite tot_plus; lia).
  apply sum_list_pos in P as (t & p & T & P). exists t, p. split; [done|].
  pose proof (Forall_lookup_1 _ _ _ _ (acc_pcs _ _ I) T) as Sp.
  destruct p as [|k g|k g|k g|k g| | | | |]; cbn in P; try lia; unfold one in P;
    (destruct (decide (g = e)) as [->|]; [|lia]); cbn in Sp.
  - destruct Sp as (f' & ? & <-). right; left. congruence.
  - destruct Sp as (f' & ? & <-). do 2 right; left. congruence.
  - destruct Sp as (f' & ? & <- & _). do 3 right. congruence.
  - destruct Sp as (f' & ? & <-). left. congruence.
Qed.

(** * Which snapshots go *)
Lemma prune_floor `{MapOrder} fuel c evicted :
  maxWorktreeGraphSnapshots <= size (entries c) ->
  maxWorktreeGraphSnapshots <= size (entries (prune fuel c evicted).1).
Proof.
  revert c evicted; induction fuel as [|fuel IH]; intros c evicted L; cbn; [done|].
  destruct (Nat.leb_spec (size (entries c)) maxWorktreeGraphSnapshots) as [?|G]; [done|].
  destruct (oldest_unused c); [|done]. apply IH. cbn.
  rewrite map_size_delete. unfold id. case_match; lia.
Qed.
Lemma prune_order `{MapOrder} fuel c evicted :
  entries_built c ->
  exists l, (prune fuel c evicted).2 = evicted ++ l
    /\ forall e u, e ∈ l -> unused (prune fuel c evicted).1 u -> (last_used c e <= last_used c u)%Z.
Proof.
  revert c evicted; induction fuel as [|fuel IH]; intros c evicted B; cbn.
  { exists []. rewrite app_nil_r. split; [done|]. intros e u E. by apply elem_of_nil in E. }
  destruct (_ <=? _).
  { exists []. rewrite app_nil_r. split; [done|]. intros e u E. by apply elem_of_nil in E. }
  pose proof (oldest_unused_spec c B) as O. destruct (oldest_unused c) as [o|].
  2: { exists []. rewrite app_nil_r. split; [done|]. intros e u E. by apply elem_of_nil in E. }
  destruct O as ((s & S & E & U) & Old). rewrite S; cbn.
  pose proof (evict_one c o s S E U B) as P.
  assert (B' : entries_built (without_entry (sn_key s) c)) by (apply (entries_built_mono c); [apply P|done|done]).
  destruct (prune_pruned fuel _ (evicted ++ [o]) B') as (l' & _ & P' & _).
  destruct (IH _ (evicted ++ [o]) B') as (l & L & I).
  exists (o :: l). split; [by rewrite L, <- (assoc_L (++))|].
  intros e u [->|El]%elem_of_cons Uu; [|by apply I].
  apply Old. destruct Uu as (t & St & Et & Ut). exists t.
  rewrite (pruned_snapshots _ _ _ P') in St. split_and!; [done| |done].
  apply (pruned_entries _ _ _ P), (pruned_entries _ _ _ P'). done.
Qed.

(** Eviction takes snapshots that nothing uses, those that were used last the longest ago,
    no more than needed to be at four, and stops above four only when all the rest is in use;
    what it keeps it leaves alone. *)
Theorem eviction_spec `{MapOrder} w ts :
  reachable (w, ts) ->
  let c := w_cache w in
  let c' := (pruneWorktreeGraphSnapshotsLocked c).1 in
  let evicted := (pruneWorktreeGraphSnapshotsLocked c).2 in
  (forall key e, entries c' !! key = Some e <-> entries c !! key = Some e /\ e ∉ evicted)
  /\ (forall e, e ∈ evicted -> unused c e)
  /\ (forall e u, e ∈ evicted -> unused c' u -> (last_used c e <= last_used c u)%Z)
  /\ (size (entries c') <= maxWorktreeGraphSnapshots \/ forall e, ~ unused c' e)
  /\ min (size (entries c)) maxWorktreeGraphSnapshots <= size (entries c')
  /\ snapshots c' = snapshots c.
Proof.
  intros R c c' evicted. pose proof (accounted_built _ _ (reachable_accounted _ R)) as B.
  change (entries_built c) in B. clearbody c. clear R w ts.
  destruct (prune_locked c B) as [P F]. destruct (prune_order (size (entries c)) c [] B) as (l & L & O).
  cbn in L. fold (pruneWorktreeGraphSnapshotsLocked c) in L, O. subst l.
  assert (Sn : snapshots c' = snapshots c) by apply P.
  assert (K : forall e, e ∈ evicted -> kept c' e = 0 /\ unused c e).
  { intros e Ev. pose proof (pruned_moved _ _ _ P e) as M. apply tot_one_elem in Ev.
    assert (K1 : kept c e <= 1) by (unfold kept; destruct (snapshots c !! e); [destruct (decide _)|]; lia).
    fold c' evicted in M. split; [lia|].
    unfold kept in M, K1. destruct (snapshots c !! e) as [s|] eqn:S; [|lia].
    destruct (decide (entries c !! sn_key s = Some e)) as [E|]; [|lia].
    destruct (pruned_used _ _ _ P _ _ E) as [E'|?]; [|done]. fold c' in E'.
    rewrite Sn, S, E', decide_True in M by done. lia. }
  split_and!; [|intros e Ev; by apply K|exact O|exact F| |apply P].
  - intros key e. split.
    + intros E. pose proof (pruned_entries _ _ _ P _ _ E) as E0. split; [done|]. intros Ev.
      destruct (K e Ev) as [K0 _]. destruct (B _ _ E0) as (s & S & <-).
      unfold kept in K0. by rewrite Sn, S, E, decide_True in K0.
    + intros [E Ev]. destruct (B _ _ E) as (s & S & <-). pose proof (pruned_moved _ _ _ P e) as M.
      assert (tot (one e) evicted = 0) by (rewrite tot_one_elem in Ev; lia). fold c' evicted in M.
      unfold kept in M. rewrite Sn, S, decide_True in M by done.
      destruct (decide (entries c' !! sn_key s = Some e)); [done|lia].
  - subst c'. unfold pruneWorktreeGraphSnapshotsLocked.
    destruct (decide (maxWorktreeGraphSnapshots <= size (entries c))) as [Le|Le].
    + pose proof (prune_floor (size (entries c)) c [] Le). lia.
    + destruct (size (entries c)) as [|n] eqn:Sz; [cbn; lia|]. cbn [prune].
      rewrite Sz, (proj2 (Nat.leb_le _ _)) by lia. cbn. lia.
Qed.

(** * Waiters are served *)
Lemma complete_success `{MapOrder} w ts b fl f err now :
  accounted w ts -> ts !! b = Some (CompleteLock fl true err) -> err = None ->
  heap (w_cache w) !! fl = Some f -> fl_cancelled f = false ->
  let c' := (pruneWorktreeGraphSnapshotsLocked (registered_flight fl f now (w_cache w))).1 in
  complete_region fl true err now (w_cache w)
    = (c', CancelContext fl (pruneWorktreeGraphSnapshotsLocked (registered_flight fl f now (w_cache w))).2)
  /\ heap c' !! fl = Some (complete_flight true None f).
Proof.
  intros I T -> F Cn. destruct (completing _ _ _ _ _ _ I T) as (f' & F' & D & _).
  assert (f' = f) as -> by congruence.
  destruct (flight_wanted _ _ _ _ I F D Cn) as [P Fl].
  assert (A : accounted (with_cache (registered_flight fl f now (w_cache w)) w) (<[b := CancelContext fl []]> ts))
    by by eapply accounted_registered.
  pose proof (accounted_built _ _ A) as B.
  destruct (prune_locked (registered_flight fl f now (w_cache w)) B) as [Pr _]. split.
  - unfold complete_region. rewrite F, Cn, Fl, (bool_decide_eq_true_2 (Some fl = Some fl)) by done.
    rewrite (proj2 (Z.ltb_lt _ _) P). cbn [negb andb bool_decide].
    change (bool_decide (None = None)) with true. cbn [andb].
    change (mkCache _ _ _ _) with (registered_flight fl f now (w_cache w)).
    by destruct (pruneWorktreeGraphSnapshotsLocked _).
  - rewrite (pruned_heap _ _ _ Pr). cbn. by rewrite list_lookup_alter_eq, F.
Qed.
(** The configuration can go on, by steps of goroutines [t] and [b] alone, until [t] has the
    snapshot of the flight. *)
Definition can_hold (w : world) (ts : list pc) (t b : nat) (key : gostring) (fl : nat) : Prop :=
  exists w' ts', rtc step (w, ts) (w', ts') /\ ts' !! t = Some (Holding key fl)
    /\ forall u, u <> t -> u <> b -> ts' !! u = ts !! u.
Lemma step_quiet w ts t p w' p' :
  ts !! t = Some p -> tstep w p w' p' [] -> step (w, ts) (w', <[t := p']> ts).
Proof. intros T St. rewrite <- (app_nil_r (<[t := p']> ts)). by eapply step_thread. Qed.
Lemma can_collect w ts t b key fl f :
  ts !! t = Some (Selecting key fl) -> heap (w_cache w) !! fl = Some f ->
  fl_done f = true -> fl_entry f = true -> fl_err f = None -> can_hold w ts t b key fl.
Proof.
  intros T F D E N. pose proof (lookup_lt_Some _ _ _ T) as L.
  assert (W : (wait_region key fl 0 (w_cache w)).2 = Holding key fl) by (unfold wait_region; by rewrite F, N, E).
  destruct (wait_region key fl 0 (w_cache w)) as [c p] eqn:Wr. cbn in W. subst p.
  exists (with_cache c w), (<[t := Holding key fl]> (<[t := DoneLock key fl]> ts)). split_and!.
  - eapply rtc_l; [eapply step_quiet; [exact T|by eapply step_select_done]|].
    apply rtc_once. eapply step_quiet; [by apply list_lookup_insert_eq|by eapply step_wait].
  - apply list_lookup_insert_eq. by rewrite length_insert.
  - intros u N1 _. by rewrite !list_lookup_insert_ne by done.
Qed.

(** C25: A caller that waits for a flight is served: when the flight has its snapshot the
    caller can take it; when the flight is not finished its build is still under way in one
    goroutine, and if that build succeeds the caller can take the snapshot, whatever the
    other goroutines do not do. *)
Theorem waiter_served `{MapOrder} w ts t key fl f :
  reachable (w, ts) -> ts !! t = Some (Selecting key fl) -> heap (w_cache w) !! fl = Some f ->
  if fl_completed f then fl_err f = None -> can_hold w ts t t key fl
  else exists b, (ts !! b = Some (Building fl) \/ exists entry err, ts !! b = Some (CompleteLock fl entry err))
         /\ (ts !! b = Some (Building fl) -> can_hold w ts t b key fl).
Proof.
  intros R T F. pose proof (reachable_accounted _ R) as I; cbn in I.
  destruct (ok_flight _ _ _ _ _ (acc_good _ _ I fl) f F) as [_ Dn Ru E _].
  destruct (fl_completed f) eqn:D.
  { intros N. rewrite N in E. by eapply can_collect. }
  assert (B : 0 < tot (fun p => builds fl p + completes fl p) ts) by (rewrite tot_plus; lia).
  apply sum_list_pos in B as (b & p & B & P). exists b. split.
  { apply runs_sum in P. destruct p; try done; cbn in P; subst; [by left|right; by eexists _, _]. }
  intros B'. pose proof (waiter_counted _ _ _ _ _ _ I T F) as On; cbn in On; rewrite one_eq in On.
  assert (Cn : fl_cancelled f = false) by (eapply waiter_wanted; done || lia).
  pose proof (lookup_lt_Some _ _ _ B') as L.
  set (w1 := mkWorld (w_cache w) ([fl] ++ opened w) (closed w)).
  set (ts1 := <[b := CompleteLock fl true None]> ts).
  assert (I1 : accounted w1 ts1) by by apply (accounted_build_returns w ts b fl true None I).
  assert (T1 : ts1 !! b = Some (CompleteLock fl true None)) by by apply list_lookup_insert_eq.
  destruct (complete_success w1 ts1 b fl f None 0 I1 T1 eq_refl F Cn) as [Cr Hf].
  set (c' := (pruneWorktreeGraphSnapshotsLocked _).1) in Cr, Hf. set (p' := CancelContext _ _) in Cr.
  assert (N : t <> b) by (intros ->; congruence).
  destruct (can_collect (with_cache c' w1) (<[b := p']> ts1) t b key fl (complete_flight true None f))
    as (w' & ts' & St & Hd & O); try done.
  { subst ts1. by rewrite !list_lookup_insert_ne. }
  exists w', ts'. split_and!; [|done|].
  - eapply rtc_l; [eapply step_quiet; [exact B'|apply (step_built w fl true None)]|].
    eapply rtc_l; [eapply step_quiet; [exact T1|by eapply step_complete]|exact St].
  - intros u U1 U2. rewrite O by done. subst ts1. by rewrite !list_lookup_insert_ne.
Qed.

(** * An execution *)
Module Example_snapshots.
#[local] Instance some_order : MapOrder := {| visit A m := (map_to_list m).*1; visit_keys A m := reflexivity _ |}.
Definition k : gostring := "k".
Lemma step_to w ts t p w' p' started c :
  ts !! t = Some p -> tstep w p w' p' started -> rtc step (w', <[t := p']> ts ++ started) c -> rtc step (w, ts) c.
Proof. intros T St R. eapply rtc_l; [by eapply step_thread|exact R]. Defined.
Lemma there (c c' : config) : c = c' -> rtc step c c'.
Proof. intros ->. apply rtc_refl. Defined.
(** Two callers ask for the key, the first starts the flight. *)
Definition asked : config :=
  let '(c1, p1, started) := acquire_region k 5 emptyCache in
  let '(c2, p2, _) := acquire_region k 6 c1 in (mkWorld c2 [] [], [p1; p2] ++ started).
Lemma asked_reachable : reachable asked.
Proof.
  eapply rtc_l; [apply (step_call _ _ k)|]. eapply rtc_l; [apply (step_call _ _ k)|]. cbn [app].
  eapply (step_to _ _ 0); [reflexivity|by apply (step_acquire _ k 5)|].
  eapply (step_to _ _ 1); [reflexivity|by apply (step_acquire _ k 6)|].
  apply there. vm_compute. reflexivity.
Defined.
(** The build succeeds; the first caller takes the snapshot, the second has not yet. *)
Definition served : config :=
  let w := asked.1 in
  let '(c1, p3) := complete_region 0 true None 7 (w_cache w) in
  let '(c2, p1) := wait_region k 0 8 c1 in (mkWorld c2 [0] [], [p1; Selecting k 0; p3]).
Lemma served_reachable : reachable served.
Proof.
  unfold reachable. etrans; [apply asked_reachable|]. change asked with (asked.1, asked.2).
  eapply (step_to _ _ 2); [reflexivity|by apply (step_built _ 0 true None)|].
  eapply (step_to _ _ 2); [reflexivity|by apply (step_complete _ some_order 0 true None 7)|].
  eapply (step_to _ _ 0); [reflexivity|by eapply step_select_done|].
  eapply (step_to _ _ 0); [reflexivity|by apply (step_wait _ k 0 8)|].
  apply there. vm_compute. reflexivity.
Defined.

Lemma snapshot_stays_open_witness :
  0 ∈ opened served.1 /\ 0 ∉ closed served.1 /\ (forall u p, served.2 !! u = Some p -> ~ in_hand 0 p)
  /\ entries (w_cache served.1) !! k = Some 0.
Proof. apply (snapshot_stays_open served.1 served.2 0 k 0); [exact served_reachable|vm_compute; reflexivity]. Defined.
Lemma snapshots_accounted_witness :
  let cached := exists key, entries (w_cache served.1) !! key = Some 0 in
  let handed := exists t p, served.2 !! t = Some p /\ in_hand 0 p in
  (0 ∈ opened served.1 <-> cached \/ handed \/ 0 ∈ closed served.1)
  /\ ~ (cached /\ handed) /\ ~ (cached /\ 0 ∈ closed served.1) /\ ~ (handed /\ 0 ∈ closed served.1)
  /\ (forall t u p q, served.2 !! t = Some p -> served.2 !! u = Some q -> in_hand 0 p -> in_hand 0 q -> t = u)
  /\ NoDup (closed served.1) /\ NoDup (opened served.1).
Proof. apply (snapshots_accounted served.1 served.2 0). exact served_reachable. Defined.
Lemma one_build_per_key_witness :
  reachable asked /\ asked.2 !! 2 = Some (Building 0) /\ 2 = 2.
Proof.
  split_and!; [exact asked_reachable|reflexivity|].
  apply (one_build_per_key asked.1 asked.2 2 2 (Building 0) (Building 0) 0 0
           (set_waiters 2 (fresh_flight k)) (set_waiters 2 (fresh_flight k)));
    [exact asked_reachable|vm_compute; reflexivity..].
Defined.
Lemma cache_bounded_witness :
  size (entries (w_cache served.1)) <= maxWorktreeGraphSnapshots
  \/ forall key e, entries (w_cache served.1) !! key = Some e ->
       exists t p, served.2 !! t = Some p /\ (p = Holding key e \/ p = Selecting key e \/ p = CancelLock key e \/ p = DoneLock key e).
Proof. apply (cache_bounded served.1 served.2). exact served_reachable. Defined.
(** Five snapshots, one of them in use: the one that was used last the longest ago goes, and
    the one in use stays although it is older. *)
Definition five : cache :=
  let keys : list gostring := ["a"; "b"; "c"; "d"; "e"]%list in
  mkCache (list_to_map (zip keys (seq 0 5))) ∅ []
    (list_to_map (zip (seq 0 5) (zip_with (fun key n => mkSnapshot key (Z.of_nat (10 - n)) (if n =? 4 then 1 else 0)) keys (seq 0 5)))).
Example oldest_goes : (pruneWorktreeGraphSnapshotsLocked five).2 = [3].
Proof. vm_compute. reflexivity. Qed.
Lemma waiter_served_witness : exists b,
  (asked.2 !! b = Some (Building 0) \/ exists entry err, asked.2 !! b = Some (CompleteLock 0 entry err))
  /\ (asked.2 !! b = Some (Building 0) -> can_hold asked.1 asked.2 1 b k 0).
Proof.
  apply (waiter_served asked.1 asked.2 1 k 0 (set_waiters 2 (fresh_flight k)));
    [exact asked_reachable|vm_compute; reflexivity..].
Defined.
End Example_snapshots.
