(* ===== verification/Ids.v ===== *)
(** Stable identities of symbols, ranges and documents (internal/model/ids.go):
    constructors, printing, parsing, the legacy format and the resolution of an
    identity among candidate symbols.

    [WorkspaceID] asks the file system for the real path and is not modelled. *)
From S2P Require Import Prelude GoStrings GoStringFacts GoNum.

Local Open Scope go_scope.

(** * Definitions *)
Definition IDSchemeSymbol : gostring := "symbol".
Definition IDSchemeRange : gostring := "range".
Definition IDSchemeDoc : gostring := "doc".
Definition IDRevLen : nat := 64.
Definition IDSigLen : nat := 4.
Inductive IDState := IDStateFresh | IDStateStale | IDStateMissing.

Record ID := mkID {
  Scheme : gostring; WorkspaceID : gostring; File : gostring; Name : gostring; Sig : gostring;
  Start : Z; End_ : Z; Rev : gostring; Legacy : bool }.

(** The fields of [model.SymbolRecord] that identities use. *)
Record SymbolRecord := mkSymbol {
  s_FilePath : gostring; s_Name : gostring; s_Parent : gostring; s_QualifiedName : gostring;
  s_SignatureHash : gostring }.

Definition isHexByte (c : ascii) : bool := isDigitByte c || byte_in_range "a" "f" c.
(** [isHex]: the bytes of a multi-byte rune are not hexadecimal digits either. *)
Definition isHex (v : gostring) : bool := negb (streq v []) && forallb isHexByte v.

(** ** Revisions *)
Definition normalizeLines (text : gostring) : gostring :=
  let text := replaceAll text [CR; LF] [LF] in
  let text := replaceAll text [CR] [LF] in
  trimSuffix text [LF].
Definition RevOf `{SHA256} (text : gostring) : gostring := hexEncode (sha256 (normalizeLines text)).
Definition RevOfLines `{SHA256} (lines : list gostring) : gostring := RevOf (join lines [LF]).

(** ** Percent encoding *)
Definition unreservedByte (c : ascii) : bool :=
  isUpperByte c || isLowerByte c || isDigitByte c || memByte c "-._~".
Definition encodeByte (b : ascii) : gostring :=
  if unreservedByte b then [b] else ["%"%char; hexDigitUpper (bz b / 16); hexDigitUpper (bz b mod 16)].
Definition encodeIDPart (v : gostring) : gostring := flat_map encodeByte v.
Definition encodeIDPath (v : gostring) : gostring :=
  join (map encodeIDPart (splitByte (replaceAll v [BSLASH] "/") "/")) "/".

Section ids.
Context `{UnicodeTables}.

Definition decodeIDPart (v : gostring) : result gostring gostring := pathUnescape v.
Definition decodeIDPath (v : gostring) : result gostring gostring :=
  parts ← mmap decodeIDPart (splitByte v "/"); Ok (join parts "/").

(** ** Constructors *)
Definition SigOf (signatureHash : gostring) : gostring :=
  let s := toLower (trimSpace signatureHash) in
  if IDSigLen <? length s then take IDSigLen s else s.
Definition SymbolQName (rec : SymbolRecord) : gostring :=
  let name := trimSpace (s_QualifiedName rec) in
  if streq name [] then
    if negb (streq (s_Parent rec) []) then s_Parent rec ++ "." ++ s_Name rec else s_Name rec
  else if negb (streq (s_FilePath rec) []) then trimPrefix name (s_FilePath rec ++ "::") else name.
Definition StableSymbolID (workspaceID : gostring) (rec : SymbolRecord) (rev : gostring) (withSig : bool) : ID :=
  let candidate := toLower (trimSpace (s_SignatureHash rec)) in
  let sig := if withSig && (length candidate =? 64) && isHex candidate then candidate else [] in
  mkID IDSchemeSymbol workspaceID (s_FilePath rec) (SymbolQName rec) sig 0 0 rev false.
Definition StableRangeID (workspaceID file : gostring) (start end_ : Z) (rev : gostring) : ID :=
  let end_ := if (end_ <? start)%Z then start else end_ in
  mkID IDSchemeRange workspaceID file [] [] start end_ rev false.
Definition StableDocumentID (workspaceID file docID rev : gostring) : ID :=
  let file := if streq file [] then "_wiki/" ++ docID else file in
  mkID IDSchemeDoc workspaceID file docID [] 0 0 rev false.
Definition setLegacy (id : ID) : ID :=
  mkID (Scheme id) (WorkspaceID id) (File id) (Name id) (Sig id) (Start id) (End_ id) (Rev id) true.
Definition setSig (id : ID) (sig : gostring) : ID :=
  mkID (Scheme id) (WorkspaceID id) (File id) (Name id) sig (Start id) (End_ id) (Rev id) (Legacy id).
Definition SymbolID (rec : SymbolRecord) (rev : gostring) (withSig : bool) : ID :=
  let id := StableSymbolID [] rec rev false in
  setLegacy (if withSig then setSig id (SigOf (s_SignatureHash rec)) else id).
Definition RangeID (file : gostring) (start end_ : Z) (rev : gostring) : ID :=
  setLegacy (StableRangeID [] file start end_ rev).
Definition DocumentID (docID rev : gostring) : ID := setLegacy (StableDocumentID [] [] docID rev).

(** ** Printing *)
Definition legacyString (id : ID) : gostring :=
  let s := Scheme id in
  (if streq s IDSchemeSymbol then "s1" else if streq s IDSchemeRange then "r1"
   else if streq s IDSchemeDoc then "d1" else s)
  ++ ":"
  ++ (if streq s IDSchemeSymbol then
        File id ++ "#" ++ Name id ++ (if streq (Sig id) [] then [] else "~" ++ Sig id)
      else if streq s IDSchemeRange then File id ++ ":" ++ itoa (Start id) ++ "-" ++ itoa (End_ id)
      else if streq s IDSchemeDoc then Name id else [])
  ++ (if streq (Rev id) [] then [] else "@" ++ Rev id).
Definition id_symbol (id : ID) : option gostring :=
  if streq (Scheme id) IDSchemeSymbol then
    Some (Name id ++ (if streq (Sig id) [] then [] else "~" ++ toLower (Sig id)))
  else if streq (Scheme id) IDSchemeRange then Some (itoa (Start id) ++ "-" ++ itoa (End_ id))
  else if streq (Scheme id) IDSchemeDoc then Some (Name id) else None.
Definition String_ (id : ID) : gostring :=
  if Legacy id || streq (WorkspaceID id) [] then legacyString id
  else match id_symbol id with
       | None => []
       | Some symbol =>
           "ws:" ++ WorkspaceID id ++ "/" ++ Scheme id ++ "/" ++ encodeIDPath (File id) ++ "#" ++ encodeIDPart symbol
       end.
Definition WithRev (id : ID) (rev : gostring) : ID :=
  mkID (Scheme id) (WorkspaceID id) (File id) (Name id) (Sig id) (Start id) (End_ id) (trimPrefix rev "rev:")
    (Legacy id).
Definition Base (id : ID) : gostring := String_ (WithRev id []).

(** ** Parsing; the errors are Go's messages. *)
Definition isScheme (kind : gostring) : bool := oneOf kind [IDSchemeSymbol; IDSchemeRange; IDSchemeDoc].
Definition parse_range (start end_ : gostring) : option (Z * Z) :=
  match atoi start, atoi end_ with
  | Some a, Some b => if (a <? 1)%Z || (b <? a)%Z then None else Some (a, b)
  | _, _ => None
  end.
Definition parse_symbol (kind ws file symbol : gostring) : result gostring ID :=
  if streq kind IDSchemeSymbol then
    match lastIndexByte symbol "~" with
    | None => Ok (mkID kind ws file symbol [] 0 0 [] false)
    | Some at_ =>
        let sig := drop (S at_) symbol in
        if negb (length sig =? 64) || negb (isHex sig) then Err "q-v1 id: signature_hash inválido"
        else Ok (mkID kind ws file (take at_ symbol) (toLower sig) 0 0 [] false)
    end
  else if streq kind IDSchemeRange then
    match indexByte symbol "-" with
    | None | Some 0 => Err "q-v1 id: range requiere inicio-fin"
    | Some dash =>
        match parse_range (take dash symbol) (drop (S dash) symbol) with
        | None => Err "q-v1 id: range inválido"
        | Some (a, b) => Ok (mkID kind ws file [] [] a b [] false)
        end
    end
  else Ok (mkID kind ws file symbol [] 0 0 [] false).
Definition parseStableID (raw : gostring) : result gostring ID :=
  match splitByteN (trimPrefix raw "ws:") "/" 3 with
  | [ws; kind; rest] =>
      if negb (length ws =? 64) || negb (isHex ws)
      then Err "q-v1 id: workspace_id debe ser SHA-256 hexadecimal"
      else match indexByte rest "#" with
           | None => Err "q-v1 id: falta separador #"
           | Some hash =>
               if negb (isScheme kind) then Err ("q-v1 id: kind desconocido " ++ goQuote kind)
               else
                 file ← decodeIDPath (take hash rest);
                 match decodeIDPart (drop (S hash) rest) with
                 | Err _ | Ok [] => Err "q-v1 id: symbol inválido"
                 | Ok symbol => parse_symbol kind ws file symbol
                 end
           end
  | _ => Err "q-v1 id: workspace_id debe ser SHA-256 hexadecimal"
  end.

(** The body without a trailing [@rev], and the revision. *)
Definition cut_rev (body : gostring) : gostring * gostring :=
  match lastIndexByte body "@" with
  | Some at_ =>
      let rev := drop (S at_) body in
      if ((length rev =? 8) || (length rev =? IDRevLen)) && isHex rev then (take at_ body, rev) else (body, [])
  | None => (body, [])
  end.
Definition cut_sig (name : gostring) : gostring * gostring :=
  match lastIndexByte name "~" with
  | Some tilde =>
      let sig := drop (S tilde) name in
      if ((length sig =? 4) || (length sig =? 64)) && isHex sig then (take tilde name, sig) else (name, [])
  | None => (name, [])
  end.
Definition parseLegacyID (raw : gostring) : result gostring ID :=
  match raw with
  | p1 :: p2 :: c :: ((_ :: _) as body) =>
      if negb (Ascii.eqb c ":") then Err "id: se esperaba ws:, s1:, r1: o d1:"
      else
        let prefix := [p1; p2] in
        let '(body, rev) := cut_rev body in
        if streq prefix "d1" then Ok (mkID IDSchemeDoc [] [] body [] 0 0 rev true)
        else if streq prefix "s1" then
          match indexByte body "#" with
          | None | Some 0 => Err "id legacy: s1 requiere archivo#símbolo"
          | Some sep =>
              if sep =? length body - 1 then Err "id legacy: s1 requiere archivo#símbolo"
              else
                let '(name, sig) := cut_sig (drop (S sep) body) in
                Ok (mkID IDSchemeSymbol [] (take sep body) name sig 0 0 rev true)
          end
        else if streq prefix "r1" then
          match lastIndexByte body ":", lastIndexByte body "-" with
          | Some colon, Some dash =>
              if (colon <? 1) || (dash <=? colon) then Err "id legacy: rango inválido"
              else
                match parse_range (take (dash - S colon) (drop (S colon) body)) (drop (S dash) body) with
                | None => Err "id legacy: rango inválido"
                | Some (a, b) => Ok (mkID IDSchemeRange [] (take colon body) [] [] a b rev true)
                end
          | _, _ => Err "id legacy: rango inválido"
          end
        else Err "id legacy: esquema desconocido"
  | _ => Err "id: se esperaba ws:, s1:, r1: o d1:"
  end.
Definition ParseID (raw : gostring) : result gostring ID :=
  let raw := trimSpace raw in
  if hasPrefix raw "ws:" then parseStableID raw else parseLegacyID raw.
Definition IsID (raw : gostring) : bool := is_ok (ParseID raw).

(** ** Resolution *)
Definition same_symbol (id : ID) (c : SymbolRecord) : bool :=
  streq (s_FilePath c) (File id) && streq (SymbolQName c) (Name id).
Definition same_sig (id : ID) (c : SymbolRecord) : bool :=
  hasPrefix (toLower (s_SignatureHash c)) (toLower (Sig id)).
Definition symbol_matches (id : ID) (candidates : list SymbolRecord) : list SymbolRecord :=
  let matches := List.filter (same_symbol id) candidates in
  if negb (streq (Sig id) []) && (1 <? length matches) then List.filter (same_sig id) matches else matches.
(** The chosen candidate, its revision and the state; no candidate is [missing]. *)
Definition ResolveSymbolID (id : ID) (candidates : list SymbolRecord) (revOf : SymbolRecord -> gostring) :
    option (SymbolRecord * gostring) * IDState :=
  let matches := symbol_matches id candidates in
  match matches with
  | [] => (None, IDStateMissing)
  | first :: _ =>
      let chosen :=
        if 1 <? length matches then
          default first (List.find (fun c => streq (revOf c) (Rev id) && negb (streq (Rev id) [])) matches)
        else first in
      let rev := revOf chosen in
      if streq (Rev id) [] || streq (trimPrefix (Rev id) "rev:") rev
      then (Some (chosen, rev), IDStateFresh) else (Some (chosen, rev), IDStateStale)
  end.
End ids.

(** * Lemmas *)

(** ** Hexadecimal text *)
Definition hex64 (s : gostring) : Prop := length s = 64 /\ isHex s = true.
Lemma hexByte_lower c : isHexByte c = true -> (bz c < 128)%Z /\ lowerByte c = c /\ c <> "/"%char.
Proof.
  intros Hc. pose proof (all_bytes (fun c => negb (isHexByte c) ||
    ((bz c <? 128)%Z && Ascii.eqb (lowerByte c) c && negb (Ascii.eqb c "/"))) eq_refl c) as Hall.
  cbn beta in Hall. rewrite Hc in Hall. cbn [negb orb] in Hall. bool_to_prop.
  split_and!; [done | by apply Ascii.eqb_eq | by apply Ascii.eqb_neq].
Qed.
Lemma isHex_bytes s : isHex s = true -> forall c, c ∈ s -> isHexByte c = true.
Proof.
  intros [_ Hs]%andb_true_iff c Hc. rewrite forallb_forall in Hs. apply Hs. by apply list_elem_of_In.
Qed.
Lemma isHex_lower `{UnicodeTables} s : isHex s = true -> toLower s = s.
Proof.
  intros Hs. pose proof (isHex_bytes s Hs) as Hb. unfold toLower.
  assert (isASCII s = true) as ->.
  { apply forallb_forall. intros c Hc%list_elem_of_In. apply Z.ltb_lt. by apply hexByte_lower, Hb. }
  rewrite <- (map_id s) at 2. apply map_ext_in. intros c Hc%list_elem_of_In. by apply hexByte_lower, Hb.
Qed.
Lemma isHex_notin s c : isHex s = true -> isHexByte c = false -> c ∉ s.
Proof. intros Hs Hc Hin. rewrite (isHex_bytes s Hs c Hin) in Hc. done. Qed.

(** ** Percent encoding *)

(** What an encoded part is made of: visible ASCII without separators. *)
Definition plainByte (c : ascii) : bool :=
  (bz c <? 128)%Z && negb (isSpaceRune (bz c)) && negb (memByte c ["/"%char; "#"%char; BSLASH]).
Lemma encodeByte_plain c : forallb plainByte (encodeByte c) = true.
Proof. revert c. apply all_bytes. reflexivity. Qed.
Lemma encodeIDPart_plain v : forallb plainByte (encodeIDPart v) = true.
Proof. induction v as [|c v IH]; [done|]. cbn [encodeIDPart flat_map]. by rewrite forallb_app, encodeByte_plain. Qed.
Lemma plain_notin s c : forallb plainByte s = true -> plainByte c = false -> c ∉ s.
Proof. intros Hs Hc Hin. rewrite forallb_forall in Hs. rewrite Hs in Hc; [done|]. by apply list_elem_of_In. Qed.
Lemma encodeByte_nonempty c : encodeByte c <> [].
Proof. unfold encodeByte. by case_match. Qed.
Lemma encodeIDPart_nonempty v : v <> [] -> encodeIDPart v <> [].
Proof.
  destruct v as [|c v]; [done|]. intros _ E. cbn [encodeIDPart flat_map] in E.
  by apply app_nil in E as [?%encodeByte_nonempty _].
Qed.
Section encoding.
Context `{UnicodeTables}.

Lemma pathUnescape_byte c t : pathUnescape (encodeByte c ++ t) = (r ← pathUnescape t; Ok (c :: r)).
Proof.
  unfold encodeByte. destruct (unreservedByte c) eqn:Hc.
  - cbn [app pathUnescape]. destruct (Ascii.eqb_spec c "%") as [->|_]; [done|done].
  - cbn [app pathUnescape]. pose proof (bz_range c). rewrite !unhex_hexDigitUpper by dlia.
    cbn [Ascii.eqb Bool.eqb]. destruct (pathUnescape t); [|done]. cbn [mbind result_bind]. do 2 f_equal.
    rewrite <- (zb_bz c) at 3. f_equal. dlia.
Qed.
Lemma decode_encode_part v : decodeIDPart (encodeIDPart v) = Ok v.
Proof.
  unfold decodeIDPart. induction v as [|c v IH]; [done|]. cbn [encodeIDPart flat_map].
  rewrite pathUnescape_byte. unfold encodeIDPart in IH. by rewrite IH.
Qed.
Lemma mmap_decode_encode vs : mmap decodeIDPart (map encodeIDPart vs) = Ok vs.
Proof. induction vs as [|v vs IH]; [done|]. cbn [map mmap]. by rewrite decode_encode_part, IH. Qed.
Lemma decode_encode_path v : BSLASH ∉ v -> decodeIDPath (encodeIDPath v) = Ok v.
Proof.
  intros Hv. unfold decodeIDPath, encodeIDPath. rewrite replaceAll_none by done.
  rewrite splitByte_join.
  - rewrite mmap_decode_encode. cbn [mbind result_bind]. by rewrite join_splitByte.
  - intros E%map_eq_nil. by apply splitByte_nonempty in E.
  - apply Forall_map, Forall_true. intros p. apply plain_notin; [apply encodeIDPart_plain | done].
Qed.
Lemma replaceAll_slashes v : BSLASH ∉ replaceAll v [BSLASH] "/".
Proof.
  unfold replaceAll. induction v as [|c v IH]; [apply not_elem_of_nil|]. cbn [replaceAll_skip hasPrefix].
  destruct (Ascii.eqb_spec BSLASH c) as [<-|Hn]; cbn [andb app length Nat.sub]; rewrite not_elem_of_cons;
    (split; [congruence || done|exact IH]).
Qed.
(** Any file is read back with its backslashes as separators. *)
Lemma decode_encode_path_any v : decodeIDPath (encodeIDPath v) = Ok (replaceAll v [BSLASH] "/").
Proof.
  rewrite <- (decode_encode_path (replaceAll v [BSLASH] "/")) by apply replaceAll_slashes.
  unfold encodeIDPath. by rewrite (replaceAll_none BSLASH [] (replaceAll v [BSLASH] "/")) by apply replaceAll_slashes.
Qed.
Lemma encodeIDPath_no_hash v : "#"%char ∉ encodeIDPath v.
Proof.
  unfold encodeIDPath. induction (splitByte _ _) as [|p ps IH]; [by apply not_elem_of_nil|].
  assert ("#"%char ∉ encodeIDPart p) by (apply plain_notin; [apply encodeIDPart_plain | done]).
  destruct ps as [|q ps]; [done|]. cbn [map] in IH |- *. rewrite join_cons by done.
  rewrite !not_elem_of_app. split_and!; [done| |done]. by intros Hx%list_elem_of_singleton.
Qed.
End encoding.

(** ** Parsing what was printed *)
Inductive stable_id : ID -> Prop :=
| stable_symbol ws file name :
    hex64 ws -> BSLASH ∉ file -> name <> [] -> "~"%char ∉ name ->
    stable_id (mkID IDSchemeSymbol ws file name [] 0 0 [] false)
| stable_overload ws file name sig :
    hex64 ws -> BSLASH ∉ file -> hex64 sig ->
    stable_id (mkID IDSchemeSymbol ws file name sig 0 0 [] false)
| stable_range ws file start end_ :
    hex64 ws -> BSLASH ∉ file -> (1 <= start <= end_)%Z -> (end_ <= MAX_INT64)%Z ->
    stable_id (mkID IDSchemeRange ws file [] [] start end_ [] false)
| stable_doc ws file name :
    hex64 ws -> BSLASH ∉ file -> name <> [] ->
    stable_id (mkID IDSchemeDoc ws file name [] 0 0 [] false).

Lemma splitByteN_3 a b rest c :
  c ∉ a -> c ∉ b -> splitByteN (a ++ c :: b ++ c :: rest) c 3 = [a; b; rest].
Proof.
  intros Ha Hb. cbn [splitByteN]. rewrite indexByte_app, take_app_length by done.
  rewrite drop_app_S. rewrite indexByte_app, take_app_length, drop_app_S by done. done.
Qed.
Section parsing.
Context `{UnicodeTables}.

Lemma parse_printed_any ws kind file symbol :
  hex64 ws -> isScheme kind = true ->
  ParseID ("ws:" ++ ws ++ "/" ++ kind ++ "/" ++ encodeIDPath file ++ "#" ++ encodeIDPart symbol) =
  if streq symbol [] then Err "q-v1 id: symbol inválido" else parse_symbol kind ws (replaceAll file [BSLASH] "/") symbol.
Proof.
  intros [Hlen Hhex] Hkind. unfold ParseID. rewrite trimSpace_solid.
  2:{ done. }
  2:{ destruct (decide (symbol = [])) as [->|Hsym].
      { rewrite !app_assoc. cbn [encodeIDPart flat_map]. rewrite app_nil_r. unfold ends_solid. by rewrite rev_app_distr. }
      rewrite !app_assoc. unfold ends_solid. rewrite rev_app_distr.
      pose proof (encodeIDPart_plain symbol) as Hp. pose proof (encodeIDPart_nonempty symbol Hsym) as Hn.
      rewrite <- (rev_involutive (encodeIDPart symbol)) in Hp, Hn.
      destruct (rev (encodeIDPart symbol)) as [|c r]; [done|]. cbn [rev] in Hp.
      rewrite forallb_app in Hp. cbn [forallb] in Hp. unfold plainByte in Hp. cbn [app starts_solid]. bool_to_prop.
      apply andb_true_iff. split; [by apply Z.ltb_lt | by apply negb_true_iff]. }
  change (hasPrefix ("ws:" ++ _) "ws:") with true. cbn iota. unfold parseStableID.
  change (trimPrefix ("ws:" ++ ?x) "ws:") with x.
  cbn [app]. rewrite splitByteN_3.
  2:{ by apply isHex_notin. }
  2:{ apply bool_decide_eq_true in Hkind. revert Hkind. rewrite !elem_of_cons, elem_of_nil.
      intros [->|[->|[->|[]]]]; by apply (bool_decide_unpack _). }
  rewrite Hlen, Hhex. cbn [Nat.eqb negb orb]. cbn [app].
  rewrite indexByte_app by apply encodeIDPath_no_hash. rewrite Hkind. cbn [negb].
  rewrite take_app_length, drop_app_S, decode_encode_path_any, decode_encode_part. cbn [mbind result_bind].
  by destruct symbol.
Qed.
Lemma parse_printed ws kind file symbol :
  hex64 ws -> isScheme kind = true -> BSLASH ∉ file -> symbol <> [] ->
  ParseID ("ws:" ++ ws ++ "/" ++ kind ++ "/" ++ encodeIDPath file ++ "#" ++ encodeIDPart symbol) =
  parse_symbol kind ws file symbol.
Proof.
  intros Hws Hk Hf Hs. rewrite parse_printed_any by done. rewrite (proj2 (streq_false symbol [])) by done.
  by rewrite (replaceAll_none BSLASH []).
Qed.

Lemma hex64_nonempty s : hex64 s -> streq s [] = false.
Proof. intros [_ [Hn _]%andb_true_iff]. by apply negb_true_iff. Qed.
Lemma print_stable ws scheme file name sig a b symbol :
  hex64 ws -> id_symbol (mkID scheme ws file name sig a b [] false) = Some symbol ->
  String_ (mkID scheme ws file name sig a b [] false) =
  "ws:" ++ ws ++ "/" ++ scheme ++ "/" ++ encodeIDPath file ++ "#" ++ encodeIDPart symbol.
Proof. intros Hws Hsym. unfold String_. cbn [Legacy WorkspaceID orb]. by rewrite (hex64_nonempty ws Hws), Hsym. Qed.
Lemma parse_range_itoa a b :
  (1 <= a <= b)%Z -> (b <= MAX_INT64)%Z -> parse_range (itoa a) (itoa b) = Some (a, b).
Proof.
  intros Ha Hb. unfold parse_range. unfold MAX_INT64 in Hb.
  rewrite !atoi_itoa by (unfold in_int64, MIN_INT64, MAX_INT64; by decide_cmp). by decide_cmp.
Qed.
Lemma print_parse id : stable_id id -> ParseID (String_ id) = Ok id.
Proof.
  destruct 1 as [ws file name Hws Hf Hn Ht | ws file name sig Hws Hf [Hl Hs] | ws file a b Hws Hf Hab Hb | ws file name Hws Hf Hn].
  - rewrite (print_stable _ _ _ _ _ _ _ name).
    2:{ done. }
    2:{ unfold id_symbol. cbn [Scheme Name Sig]. change (streq [] []) with true. cbn iota. by rewrite app_nil_r. }
    rewrite parse_printed by done. unfold parse_symbol. cbn [streq]. change (streq IDSchemeSymbol IDSchemeSymbol) with true.
    cbn iota. by apply lastIndexByte_None in Ht as ->.
  - rewrite (print_stable _ _ _ _ _ _ _ (name ++ "~" ++ sig)).
    2:{ done. }
    2:{ unfold id_symbol. cbn [Scheme Name Sig]. rewrite (hex64_nonempty sig) by done. by rewrite isHex_lower. }
    rewrite parse_printed by (done || by destruct name). unfold parse_symbol.
    change (streq IDSchemeSymbol IDSchemeSymbol) with true. cbn iota. cbn [app].
    rewrite lastIndexByte_app by by apply isHex_notin. rewrite take_app_length, drop_app_S, Hl, Hs, isHex_lower by done. done.
  - rewrite (print_stable _ _ _ _ _ _ _ (itoa a ++ "-" ++ itoa b)) by done.
    rewrite parse_printed by (done || by destruct (itoa a)). unfold parse_symbol.
    change (streq IDSchemeRange IDSchemeSymbol) with false. change (streq IDSchemeRange IDSchemeRange) with true. cbn iota.
    cbn [app]. rewrite indexByte_app by (rewrite itoa_nonneg by lia; apply digits_notin; [lia | done]).
    rewrite take_app_length, drop_app_S, parse_range_itoa by done. pose proof (itoa_nonempty a). by destruct (itoa a).
  - rewrite (print_stable _ _ _ _ _ _ _ name) by done. by rewrite parse_printed.
Qed.

Lemma parse_range_ok s e a b : parse_range s e = Some (a, b) -> (1 <= a <= b)%Z /\ (b <= MAX_INT64)%Z.
Proof.
  unfold parse_range. destruct (atoi s) as [a'|]; [|done]. destruct (atoi e) as [b'|] eqn:Hb; [|done].
  destruct (_ || _) eqn:Hc; [done|]. intros [= -> ->]. apply atoi_in_range in Hb. unfold in_int64 in Hb. bool_to_prop. lia.
Qed.
Lemma parse_symbol_stable kind ws file symbol id :
  hex64 ws -> isScheme kind = true -> symbol <> [] -> parse_symbol kind ws file symbol = Ok id ->
  BSLASH ∉ File id -> stable_id id.
Proof.
  intros Hws Hk Hsym E. unfold isScheme, oneOf in Hk. apply bool_decide_eq_true in Hk.
  rewrite !elem_of_cons, elem_of_nil in Hk. unfold parse_symbol in E. destruct Hk as [->|[->|[->|[]]]].
  - change (streq IDSchemeSymbol IDSchemeSymbol) with true in E. cbn iota in E.
    destruct (lastIndexByte symbol "~") as [k|] eqn:Ht.
    + destruct (_ || _) eqn:Hc in E; [done|]. injection E as <-. cbn [File]. intros. bool_to_prop.
      rewrite isHex_lower by done. by constructor.
    + injection E as <-. cbn [File]. intros. constructor; try done. by apply lastIndexByte_None.
  - change (streq IDSchemeRange IDSchemeSymbol) with false in E. change (streq IDSchemeRange IDSchemeRange) with true in E.
    cbn iota in E. destruct (indexByte symbol "-") as [[|k]|]; [done| |done].
    destruct (parse_range _ _) as [[a b]|] eqn:Hr; [|done]. injection E as <-. cbn [File]. intros.
    apply parse_range_ok in Hr as [? ?]. by constructor.
  - injection E as <-. cbn [File]. intros. by constructor.
Qed.
Lemma parseLegacy_legacy raw id : parseLegacyID raw = Ok id -> Legacy id = true.
Proof.
  unfold parseLegacyID. intros E. repeat case_match; try done; by injection E as <-.
Qed.
Lemma parse_symbol_current kind ws file symbol id : parse_symbol kind ws file symbol = Ok id -> Legacy id = false.
Proof. unfold parse_symbol. intros E. repeat case_match; try done; by injection E as <-. Qed.
Lemma parseStable_stable raw id : parseStableID raw = Ok id -> Legacy id = false.
Proof.
  unfold parseStableID. intros E. destruct (splitByteN _ _ _) as [|ws [|kind [|rest []]]]; try done.
  destruct (_ || _); [done|]. destruct (indexByte rest "#"); [|done]. destruct (negb _); [done|].
  destruct (decodeIDPath _); [|done]. cbn [mbind result_bind] in E.
  destruct (decodeIDPart _) as [[|c symbol]|]; [done| |done]. by apply parse_symbol_current in E.
Qed.
Lemma parse_stable raw id :
  ParseID raw = Ok id -> Legacy id = false -> BSLASH ∉ File id -> stable_id id.
Proof.
  unfold ParseID. case_match; [|by intros ->%parseLegacy_legacy]. intros E _ Hf. unfold parseStableID in E.
  destruct (splitByteN _ _ _) as [|ws [|kind [|rest []]]]; try done.
  destruct (_ || _) eqn:Hws; [done|]. destruct (indexByte rest "#") as [h|]; [|done].
  destruct (isScheme kind) eqn:Hk; [|done]. cbn [negb] in E.
  destruct (decodeIDPath _) as [file|]; [|done]. cbn [mbind result_bind] in E.
  destruct (decodeIDPart _) as [[|c symbol]|]; [done| |done].
  eapply parse_symbol_stable; [| |  |exact E|done]; [|done|done]. bool_to_prop. done.
Qed.
Lemma parse_symbol_parts kind ws file symbol id :
  parse_symbol kind ws file symbol = Ok id -> Scheme id = kind /\ WorkspaceID id = ws /\ File id = file.
Proof. unfold parse_symbol. intros E. repeat case_match; try done; by injection E as <-. Qed.
Lemma parse_workspace raw id :
  ParseID raw = Ok id -> Legacy id = false -> hex64 (WorkspaceID id) /\ isScheme (Scheme id) = true.
Proof.
  unfold ParseID. case_match; [|by intros ->%parseLegacy_legacy]. intros E _. unfold parseStableID in E.
  destruct (splitByteN _ _ _) as [|ws [|kind [|rest []]]]; try done.
  destruct (_ || _) eqn:Hws; [done|]. destruct (indexByte rest "#") as [h|]; [|done].
  destruct (isScheme kind) eqn:Hk; [|done]. cbn [negb] in E.
  destruct (decodeIDPath _) as [file|]; [|done]. cbn [mbind result_bind] in E.
  destruct (decodeIDPart _) as [[|c symbol]|]; [done| |done].
  apply parse_symbol_parts in E as (-> & -> & _). bool_to_prop. done.
Qed.
(** Only stable identities are read back. *)
Lemma print_parse_stable id : Legacy id = false -> ParseID (String_ id) = Ok id -> stable_id id.
Proof.
  intros Hl E. apply (parse_stable (String_ id)); [done|done|].
  destruct (parse_workspace _ _ E Hl) as [Hws Hk]. revert E. unfold String_. rewrite Hl, (hex64_nonempty _ Hws). cbn [orb].
  destruct (id_symbol id) as [symbol|]; [|done]. rewrite parse_printed_any by done.
  destruct (streq symbol []); [done|]. intros (_ & _ & Hf)%parse_symbol_parts. rewrite Hf. apply replaceAll_slashes.
Qed.
End parsing.

(** ** The legacy format *)
Lemma lastIndexByte_split s c i : lastIndexByte s c = Some i -> s = take i s ++ c :: drop (S i) s.
Proof.
  revert i; induction s as [|d s IH]; intros i; [done|]. cbn [lastIndexByte].
  destruct (lastIndexByte s c) as [j|] eqn:Hj.
  - intros [= <-]. cbn [take drop app]. f_equal. by apply IH.
  - destruct (Ascii.eqb_spec d c) as [->|]; [|done]. intros [= <-]. done.
Qed.
Lemma isHex_nonempty s : isHex s = true -> streq s [] = false.
Proof. intros [Hn _]%andb_true_iff. by apply negb_true_iff. Qed.
Lemma cut_rev_spec b body rev : cut_rev b = (body, rev) -> b = body ++ (if streq rev [] then [] else "@" ++ rev).
Proof.
  unfold cut_rev. destruct (lastIndexByte b "@") as [k|] eqn:Hk; [|intros [= <- <-]; symmetry; apply app_nil_r].
  destruct (_ && _) eqn:Hc; intros [= <- <-]; [|symmetry; apply app_nil_r].
  apply andb_true_iff in Hc as [_ Hc]. rewrite (isHex_nonempty _ Hc). by apply lastIndexByte_split.
Qed.
Lemma cut_sig_spec b name sig : cut_sig b = (name, sig) -> b = name ++ (if streq sig [] then [] else "~" ++ sig).
Proof.
  unfold cut_sig. destruct (lastIndexByte b "~") as [k|] eqn:Hk; [|intros [= <- <-]; symmetry; apply app_nil_r].
  destruct (_ && _) eqn:Hc; intros [= <- <-]; [|symmetry; apply app_nil_r].
  apply andb_true_iff in Hc as [_ Hc]. rewrite (isHex_nonempty _ Hc). by apply lastIndexByte_split.
Qed.
Lemma legacy_print_parse raw id :
  parseLegacyID raw = Ok id -> Scheme id <> IDSchemeRange -> legacyString id = raw.
Proof.
  unfold parseLegacyID. intros E Hs. destruct raw as [|p1 [|p2 [|c [|d raw]]]]; try done.
  destruct (Ascii.eqb_spec c ":") as [->|]; [|done]. cbn [negb] in E.
  destruct (cut_rev (d :: raw)) as [body rev] eqn:Hrev. apply cut_rev_spec in Hrev. rewrite Hrev. clear Hrev.
  destruct (streq [p1; p2] "d1") eqn:H1; [|destruct (streq [p1; p2] "s1") eqn:H2; [|destruct (streq [p1; p2] "r1") eqn:H3; [|done]]].
  - apply streq_true in H1. injection H1 as -> ->. by injection E as <-.
  - apply streq_true in H2. injection H2 as -> ->.
    destruct (indexByte body "#") as [[|k]|] eqn:Hh; [done| |done]. destruct (_ =? _); [done|].
    destruct (cut_sig _) as [name sig] eqn:Hsig in E. injection E as <-. apply cut_sig_spec in Hsig.
    apply indexByte_Some in Hh as [Hb _].
    unfold legacyString. cbn [Scheme File Name Sig Rev].
    change (streq IDSchemeSymbol IDSchemeSymbol) with true. cbn iota.
    rewrite Hsig in Hb. set (f := take (S k) body) in *. clearbody f. subst body.
    cbn [app]. by rewrite <- !app_assoc.
  - destruct (lastIndexByte body ":") as [k|]; [|done]. destruct (lastIndexByte body "-") as [j|]; [|done].
    destruct (_ || _) in E; [done|]. destruct (parse_range _ _) as [[a b]|]; [|done]. injection E as <-. by destruct Hs.
Qed.

(** ** Line endings *)
Lemma replaceAll_match c m p s new :
  c ∉ p -> replaceAll (p ++ (c :: m) ++ s) (c :: m) new = p ++ new ++ replaceAll s (c :: m) new.
Proof.
  unfold replaceAll. intros Hp. induction p as [|d p IH].
  - cbn [app replaceAll_skip]. change (c :: m ++ s) with ((c :: m) ++ s). rewrite hasPrefix_app. f_equal.
    cbn [length]. by rewrite Nat.sub_succ, Nat.sub_0_r, replaceAll_skip_drop.
  - apply not_elem_of_cons in Hp as [Hd Hp]. specialize (IH Hp). cbn [app] in IH |- *.
    cbn [replaceAll_skip hasPrefix]. destruct (Ascii.eqb_spec c d); [congruence|]. cbn [andb]. by rewrite IH.
Qed.
Lemma replaceAll_join c m new lines :
  Forall (fun l => c ∉ l) lines -> replaceAll (join lines (c :: m)) (c :: m) new = join lines new.
Proof.
  induction 1 as [|l lines Hl Hs IH]; [done|]. destruct lines as [|l' lines].
  - cbn. by apply replaceAll_none.
  - rewrite !join_cons by done. by rewrite replaceAll_match, IH.
Qed.
Lemma replaceAll_pair_none c d s new : d ∉ s -> replaceAll s [c; d] new = s.
Proof.
  unfold replaceAll. induction s as [|x s IH]; intros Hd; [done|]. apply not_elem_of_cons in Hd as [_ Hd].
  cbn [replaceAll_skip hasPrefix]. destruct s as [|y s]; [by rewrite andb_false_r|].
  apply not_elem_of_cons in Hd as Hd'. destruct Hd' as [Hy _]. destruct (Ascii.eqb_spec d y); [congruence|].
  rewrite andb_false_r. by rewrite IH.
Qed.
Lemma join_snoc_nil lines sep : lines <> [] -> join (lines ++ [[]]) sep = join lines sep ++ sep.
Proof.
  induction lines as [|l lines IH]; [done|]. intros _. destruct lines as [|l' lines]; [cbn; by rewrite app_nil_r|].
  change ((l :: l' :: lines) ++ [[]]) with (l :: (l' :: lines) ++ [[]]). rewrite !join_cons by done.
  rewrite IH by done. by rewrite <- !app_assoc.
Qed.
(** The terminators that are normalized. *)
Definition terminators : list gostring := [[LF]; [CR; LF]; [CR]].
Definition one_line (l : gostring) : Prop := CR ∉ l /\ LF ∉ l.
Lemma normalizeLines_join lines term :
  term ∈ terminators -> Forall one_line lines -> normalizeLines (join lines term) = trimSuffix (join lines [LF]) [LF].
Proof.
  intros Ht Hl. assert (Forall (fun l => CR ∉ l) lines /\ Forall (fun l => LF ∉ l) lines) as [Hcr Hlf].
  { by apply Forall_and. }
  unfold normalizeLines. f_equal. unfold terminators in Ht. rewrite !elem_of_cons, elem_of_nil in Ht.
  assert (CR ∉ join lines [LF]) by (apply join_notin; [done | by apply (bool_decide_unpack _)]).
  destruct Ht as [->|[->|[->|[]]]].
  - rewrite (replaceAll_none CR [LF]), (replaceAll_none CR []) by done. done.
  - rewrite replaceAll_join by done. by apply replaceAll_none.
  - rewrite replaceAll_pair_none; [by apply replaceAll_join|].
    apply join_notin; [done | by apply (bool_decide_unpack _)].
Qed.
Lemma trimSuffix_app s t : trimSuffix (s ++ t) t = s.
Proof.
  unfold trimSuffix. assert (hasSuffix (s ++ t) t = true) as -> by (apply hasSuffix_iff; by exists s).
  rewrite length_app. by rewrite Nat.add_sub, take_app_length.
Qed.
Lemma join_no_terminator lines :
  Forall one_line lines -> last lines <> Some [] -> trimSuffix (join lines [LF]) [LF] = join lines [LF].
Proof.
  intros Hl Hlast. unfold trimSuffix. destruct (hasSuffix _ _) eqn:Hs; [|done]. exfalso.
  apply hasSuffix_iff in Hs as [t Ht]. destruct lines as [|l lines _] using rev_ind; [by destruct t|].
  rewrite last_snoc in Hlast. apply Forall_app in Hl as [_ Hl]. apply Forall_singleton in Hl as [_ Hl].
  destruct l as [|c l _] using rev_ind; [done|]. apply not_elem_of_app in Hl as [_ Hc].
  assert (exists p, join (lines ++ [l ++ [c]]) [LF] = p ++ l ++ [c]) as [p Hp].
  { clear. induction lines as [|x lines [p IH]]; [by exists []|]. exists (x ++ [LF] ++ p). cbn [app].
    rewrite join_cons by (by destruct lines). rewrite IH. by rewrite <- !app_assoc. }
  rewrite Hp, app_assoc in Ht. apply app_inj_tail in Ht as [_ ->]. apply Hc. by apply list_elem_of_singleton.
Qed.

(** ** Resolution *)
Section resolution.
Context `{UnicodeTables}.

Lemma StableSymbolID_sig ws rec rev b :
  let sig := Sig (StableSymbolID ws rec rev b) in
  trimSpace (s_SignatureHash rec) = s_SignatureHash rec ->
  sig = [] \/ (toLower (s_SignatureHash rec) = sig /\ toLower sig = sig).
Proof.
  unfold StableSymbolID. cbn [Sig]. intros ->. destruct (_ && _) eqn:Hc; [|by left].
  right. split; [done|]. apply isHex_lower. by apply andb_true_iff in Hc as [_ Hc].
Qed.
Lemma list_filter_in {A} (p : A -> bool) l x : x ∈ List.filter p l <-> x ∈ l /\ p x = true.
Proof. by rewrite !list_elem_of_In, filter_In. Qed.
Lemma symbol_matches_sound id cs c :
  c ∈ symbol_matches id cs -> c ∈ cs /\ s_FilePath c = File id /\ SymbolQName c = Name id.
Proof.
  unfold symbol_matches, same_symbol. intros Hc.
  assert (c ∈ List.filter (same_symbol id) cs) as Hm.
  { case_match; [by apply list_filter_in in Hc as [? _] | done]. }
  apply list_filter_in in Hm as [Hin Hm]. unfold same_symbol in Hm. bool_to_prop. by streqs.
Qed.
Lemma symbol_matches_self ws rec rev b cs :
  rec ∈ cs -> trimSpace (s_SignatureHash rec) = s_SignatureHash rec ->
  rec ∈ symbol_matches (StableSymbolID ws rec rev b) cs.
Proof.
  intros Hin Htrim. set (id := StableSymbolID ws rec rev b).
  assert (Hm : rec ∈ List.filter (same_symbol id) cs).
  { apply list_filter_in. split; [done|]. unfold same_symbol. by rewrite !streq_refl. }
  unfold symbol_matches. destruct (_ && _) eqn:Hc; [|done]. apply andb_true_iff in Hc as [Hne _].
  apply list_filter_in. split; [done|]. unfold same_sig.
  pose proof (StableSymbolID_sig ws rec rev b Htrim) as Hsig. cbn zeta in Hsig. fold id in Hsig.
  destruct Hsig as [Hnil|[Hs ->]].
  - by rewrite Hnil in Hne.
  - rewrite Hs. rewrite <- (app_nil_r (Sig id)) at 1. apply hasPrefix_app.
Qed.
End resolution.

(** * Properties *)
Section properties.
Context `{UnicodeTables} `{SHA256}.

(** C39: which identities survive printing.  An identity that is not in the legacy format is
    read back from its printed form as the same identity exactly when it is stable: a
    workspace of 64 hexadecimal digits, one of the three kinds with the fields of its kind
    only and no revision, no backslash in the file, a symbol name that is not empty (or a
    signature of 64 digits), and no tilde in the name of a symbol without a signature.  All
    other bytes of its file, name and signature are allowed. *)
Theorem stable_id_roundtrip (id : ID) : Legacy id = false -> (ParseID (String_ id) = Ok id <-> stable_id id).
Proof. intros Hl. split; [by apply print_parse_stable|apply print_parse]. Qed.

(** A stable identity that was parsed, from any spelling, prints to a form
    that is read back as the same identity, unless its file name holds a
    backslash, which printing turns into a separator. *)
Theorem parsed_id_canonical (raw : gostring) (id : ID) :
  ParseID raw = Ok id -> Legacy id = false -> BSLASH ∉ File id -> ParseID (String_ id) = Ok id.
Proof. intros. apply print_parse. by apply (parse_stable raw). Qed.

(** Parsing a legacy symbol or document identity loses nothing: it prints
    back to the text that was read, white space around it apart. *)
Theorem legacy_id_print (raw : gostring) (id : ID) :
  ParseID raw = Ok id -> Legacy id = true -> Scheme id <> IDSchemeRange -> String_ id = trimSpace raw.
Proof.
  unfold ParseID. intros E Hl Hs. unfold String_. rewrite Hl. cbn [orb].
  destruct (hasPrefix (trimSpace raw) "ws:"); [|by apply legacy_print_parse].
  by rewrite (parseStable_stable _ _ E) in Hl.
Qed.

(** The revision of a text does not depend on its line terminators, nor on a
    final one. *)
Theorem rev_line_endings (lines : list gostring) (term : gostring) :
  term ∈ terminators -> Forall one_line lines -> last lines <> Some [] ->
  RevOf (join lines term) = RevOfLines lines /\ RevOf (join lines term ++ term) = RevOfLines lines.
Proof.
  intros Ht Hl Hlast. unfold RevOfLines, RevOf.
  assert (Hlf : [LF] ∈ terminators) by by left.
  rewrite (normalizeLines_join lines term), (normalizeLines_join lines [LF]) by done. split; [done|].
  rewrite join_no_terminator by done. do 2 f_equal. destruct lines as [|l lines].
  - unfold terminators in Ht. rewrite !elem_of_cons, elem_of_nil in Ht. by destruct Ht as [->|[->|[->|[]]]].
  - rewrite <- join_snoc_nil by done. rewrite normalizeLines_join; [|done|].
    + rewrite join_snoc_nil by done. apply trimSuffix_app.
    + apply Forall_app. split; [done|]. apply Forall_singleton. split; apply not_elem_of_nil.
Qed.

(** The identity made from a symbol resolves, as long as the symbol is among
    the candidates: the result is fresh, has the same file, qualified name and
    revision, and is the symbol itself when it is the only match. *)
Theorem resolve_own_id (ws : gostring) (rec : SymbolRecord) (withSig : bool) (candidates : list SymbolRecord)
    (revOf : SymbolRecord -> gostring) :
  rec ∈ candidates -> trimSpace (s_SignatureHash rec) = s_SignatureHash rec ->
  hasPrefix (revOf rec) "rev:" = false -> revOf rec <> [] ->
  let id := StableSymbolID ws rec (revOf rec) withSig in
  exists c, ResolveSymbolID id candidates revOf = (Some (c, revOf rec), IDStateFresh) /\ revOf c = revOf rec /\
    c ∈ candidates /\ s_FilePath c = s_FilePath rec /\ SymbolQName c = SymbolQName rec /\
    (length (symbol_matches id candidates) = 1 -> c = rec).
Proof.
  intros Hin Htrim Hrev Hne id. pose proof (symbol_matches_self ws rec (revOf rec) withSig candidates Hin Htrim) as Hself.
  fold id in Hself.
  assert (exists c, c ∈ symbol_matches id candidates /\ revOf c = revOf rec /\
    (length (symbol_matches id candidates) = 1 -> c = rec) /\
    ResolveSymbolID id candidates revOf = (Some (c, revOf c), IDStateFresh)) as (c & Hc & Hcr & Hone & Hres).
  { unfold ResolveSymbolID. destruct (symbol_matches id candidates) as [|first rest] eqn:Hm.
    { by apply elem_of_nil in Hself. }
    set (p := fun c => _ && _). change (Rev id) with (revOf rec) in p |- *.
    assert (Hfin : forall c, revOf c = revOf rec ->
      (if streq (revOf rec) [] || streq (trimPrefix (revOf rec) "rev:") (revOf c)
       then (Some (c, revOf c), IDStateFresh) else (Some (c, revOf c), IDStateStale)) = (Some (c, revOf c), IDStateFresh)).
    { intros c ->. unfold trimPrefix. rewrite Hrev, streq_refl. by rewrite orb_true_r. }
    assert (Hp : forall c, p c = true <-> revOf c = revOf rec).
    { intros c. unfold p. rewrite (proj2 (streq_false _ _) Hne), andb_true_r. apply streq_true. }
    destruct rest as [|second rest].
    - apply list_elem_of_singleton in Hself as <-. exists rec. cbn [length]. change (1 <? 1) with false. cbn iota.
      split_and!; try done; [by left|]. by apply Hfin.
    - change (1 <? length (first :: second :: rest)) with true. cbn iota.
      destruct (List.find p (first :: second :: rest)) as [c|] eqn:Hf.
      + apply List.find_some in Hf as [Hc%list_elem_of_In Hpc]. apply Hp in Hpc. exists c. cbn [default].
        split_and!; [done|done|done|]. by apply Hfin.
      + exfalso. apply list_elem_of_In in Hself. pose proof (List.find_none _ _ Hf _ Hself) as Hn.
        by rewrite (proj2 (Hp rec) eq_refl) in Hn. }
  apply symbol_matches_sound in Hc as (? & ? & ?). exists c. by rewrite Hres, Hcr.
Qed.
End properties.

(** ** Concrete identities *)
Module Example_ids.
#[local] Existing Instance latin_tables.
#[local] Existing Instance mixHash.

Definition ws : gostring := hexEncode (repeat "171"%char 32).
Definition method (name hash : gostring) : SymbolRecord := mkSymbol "src/Área/F o#o.cs" name "Foo" [] hash.
Definition overload : SymbolRecord := method "Bar" ws.
Definition overload' : SymbolRecord := method "Bar" (hexEncode (repeat "017"%char 32)).
Definition revOf (c : SymbolRecord) : gostring := s_SignatureHash c.

(** A qualified name with a tilde (a C# or C++ destructor) is printed as if the
    rest of it were a signature hash, and cannot be read back. *)
Example tilde_name_unreadable :
  ParseID (String_ (StableSymbolID ws (method "~Foo" []) [] true)) = Err ("q-v1 id: signature_hash inválido" : gostring).
Proof. vm_compute. reflexivity. Qed.

Lemma stable_id_roundtrip_witness :
  let id := mkID IDSchemeSymbol ws "src/Área/F o#o.cs" "Foo.~Foo" ws 0 0 [] false in
  stable_id id /\ ParseID (String_ id) = Ok id.
Proof.
  intros id. assert (Hid : stable_id id).
  { constructor; first [apply (bool_decide_unpack _); vm_compute; exact I | split; vm_compute; reflexivity]. }
  split; [exact Hid | exact (proj2 (stable_id_roundtrip id eq_refl) Hid)].
Defined.
Lemma parsed_id_canonical_witness :
  let raw : gostring := " ws:" ++ ws ++ "/range/a%2Fb.go#+3-%3007 " in
  let id := mkID IDSchemeRange ws "a/b.go" [] [] 3 7 [] false in
  ParseID raw = Ok id /\ ParseID (String_ id) = Ok id.
Proof.
  intros raw id. assert (Hraw : ParseID raw = Ok id) by (vm_compute; reflexivity).
  split; [exact Hraw|]. refine (parsed_id_canonical raw id Hraw _ _); [reflexivity|].
  apply (bool_decide_unpack _). vm_compute. exact I.
Defined.
Lemma legacy_id_print_witness :
  let raw : gostring := " s1:a.go#Run~ab12@0123abcd" in
  let id := mkID IDSchemeSymbol [] "a.go" "Run" "ab12" 0 0 "0123abcd" true in
  ParseID raw = Ok id /\ String_ id = trimSpace raw.
Proof.
  intros raw id. assert (Hraw : ParseID raw = Ok id) by (vm_compute; reflexivity).
  split; [exact Hraw|]. refine (legacy_id_print raw id Hraw _ _); [reflexivity | discriminate].
Defined.
Lemma rev_line_endings_witness :
  RevOf ("a" ++ [CR; LF] ++ "b" ++ [CR; LF]) = RevOfLines ["a"; "b"].
Proof.
  refine (proj2 (rev_line_endings ["a"; "b"] [CR; LF] _ _ _)).
  - apply (bool_decide_unpack _). vm_compute. exact I.
  - repeat constructor; apply (bool_decide_unpack _); vm_compute; exact I.
  - discriminate.
Defined.
Lemma resolve_own_id_witness :
  length (symbol_matches (StableSymbolID ws overload ws true) [overload'; overload]) = 1 /\
  exists c, ResolveSymbolID (StableSymbolID ws overload ws true) [overload'; overload] revOf = (Some (c, ws), IDStateFresh)
    /\ c = overload.
Proof.
  assert (Hlen : length (symbol_matches (StableSymbolID ws overload ws true) [overload'; overload]) = 1)
    by (vm_compute; reflexivity).
  split; [exact Hlen|].
  destruct (resolve_own_id ws overload true [overload'; overload] revOf) as (c & Hc & _ & _ & _ & _ & Hone).
  - right. left.
  - vm_compute. reflexivity.
  - vm_compute. reflexivity.
  - discriminate.
  - exists c. split; [exact Hc | exact (Hone Hlen)].
Defined.
End Example_ids.
