(* ===== verification/QItem.v ===== *)
(** Items of the query language q-v1 (internal/model/qitem.go): their fields, the rows that
    project them in a fixed order, the size and the line of a row, and the order of items. *)
From S2P Require Import Prelude GoStrings GoStringFacts GoSort GoNum Ids.

Local Open Scope go_scope.

(** * Items *)
Definition QDefaultFields : list gostring := ["id"; "kind"; "name"; "file"; "line"; "origin"].
Record QEdge := mkQEdge { ed_Dir : gostring; ed_From : gostring; ed_Depth : Z }.
Record QItem := mkQItem {
  q_ID : gostring; q_Revision : gostring; q_TruncatedItem : bool; q_Kind : gostring; q_Name : gostring;
  q_File : gostring; q_Line : Z; q_EndLine : Z; q_Origin : gostring; q_Lang : gostring; q_Parent : gostring;
  q_Signature : gostring; q_Title : gostring; q_Layer : gostring; q_Score : Z; q_Text : gostring; q_Read : bool;
  q_Stale : bool; q_Missing : bool; q_Seen : bool; q_Edge : option QEdge; q_In : gostring }.
Definition noItem : QItem :=
  mkQItem [] [] false [] [] [] 0 0 [] [] [] [] [] [] 0 [] false false false false None [].
(** The updates that the primitives make. *)
Definition set_identity (id rev : gostring) (i : QItem) : QItem :=
  mkQItem id rev (q_TruncatedItem i) (q_Kind i) (q_Name i) (q_File i) (q_Line i) (q_EndLine i) (q_Origin i) (q_Lang i)
    (q_Parent i) (q_Signature i) (q_Title i) (q_Layer i) (q_Score i) (q_Text i) (q_Read i) (q_Stale i) (q_Missing i)
    (q_Seen i) (q_Edge i) (q_In i).
Definition set_origin (kind origin : gostring) (i : QItem) : QItem :=
  mkQItem (q_ID i) (q_Revision i) (q_TruncatedItem i) kind (q_Name i) (q_File i) (q_Line i) (q_EndLine i) origin (q_Lang i)
    (q_Parent i) (q_Signature i) (q_Title i) (q_Layer i) (q_Score i) (q_Text i) (q_Read i) (q_Stale i) (q_Missing i)
    (q_Seen i) (q_Edge i) (q_In i).
Definition set_file (file : gostring) (i : QItem) : QItem :=
  mkQItem (q_ID i) (q_Revision i) (q_TruncatedItem i) (q_Kind i) (q_Name i) file (q_Line i) (q_EndLine i) (q_Origin i)
    (q_Lang i) (q_Parent i) (q_Signature i) (q_Title i) (q_Layer i) (q_Score i) (q_Text i) (q_Read i) (q_Stale i)
    (q_Missing i) (q_Seen i) (q_Edge i) (q_In i).
Definition set_text (truncated : bool) (text : gostring) (read seen : bool) (i : QItem) : QItem :=
  mkQItem (q_ID i) (q_Revision i) truncated (q_Kind i) (q_Name i) (q_File i) (q_Line i) (q_EndLine i) (q_Origin i)
    (q_Lang i) (q_Parent i) (q_Signature i) (q_Title i) (q_Layer i) (q_Score i) text read (q_Stale i)
    (q_Missing i) seen (q_Edge i) (q_In i).
Definition set_stale (stale missing : bool) (i : QItem) : QItem :=
  mkQItem (q_ID i) (q_Revision i) (q_TruncatedItem i) (q_Kind i) (q_Name i) (q_File i) (q_Line i) (q_EndLine i) (q_Origin i)
    (q_Lang i) (q_Parent i) (q_Signature i) (q_Title i) (q_Layer i) (q_Score i) (q_Text i) (q_Read i) stale
    missing (q_Seen i) (q_Edge i) (q_In i).
Definition set_source (edge : option QEdge) (in_ : gostring) (i : QItem) : QItem :=
  mkQItem (q_ID i) (q_Revision i) (q_TruncatedItem i) (q_Kind i) (q_Name i) (q_File i) (q_Line i) (q_EndLine i) (q_Origin i)
    (q_Lang i) (q_Parent i) (q_Signature i) (q_Title i) (q_Layer i) (q_Score i) (q_Text i) (q_Read i) (q_Stale i)
    (q_Missing i) (q_Seen i) edge in_.

(** * Values of fields *)
Inductive qvalue := VText (s : gostring) | VInt (z : Z) | VBool (b : bool) | VEdge (e : option QEdge) | VNil.
(** [fmt.Sprint]. *)
Definition sprint (v : qvalue) : gostring :=
  match v with
  | VText s => s
  | VInt z => itoa z
  | VBool b => if b then "true" else "false"
  | VEdge (Some e) => "&{" ++ ed_Dir e ++ " " ++ ed_From e ++ " " ++ itoa (ed_Depth e) ++ "}"
  | VEdge None | VNil => "<nil>"
  end.

Section items.
Context `{UnicodeTables}.

Definition Rev (i : QItem) : gostring :=
  if negb (streq (q_Revision i) []) then trimPrefix (q_Revision i) "rev:"
  else match ParseID (q_ID i) with Ok parsed => Ids.Rev parsed | Err _ => [] end.
Definition QFieldNames : list gostring :=
  ["id"; "rev"; "kind"; "name"; "file"; "path"; "line"; "end_line"; "origin"; "lang"; "parent"; "signature"; "title";
   "layer"; "score"; "text"; "edge"; "in"; "stale"; "missing"; "seen"; "truncated_item"].
Definition QFieldValid (name : gostring) : bool := oneOf name QFieldNames.
Definition text_field (s : gostring) : qvalue * bool := (VText s, negb (streq s [])).
Definition flag_field (b : bool) : qvalue * bool := (VBool b, b).
(** The value of a field and whether it is there. *)
Definition Field (i : QItem) (name : gostring) : qvalue * bool :=
  if streq name "id" then text_field (q_ID i)
  else if streq name "kind" then text_field (q_Kind i)
  else if streq name "name" then text_field (q_Name i)
  else if oneOf name ["file"; "path"] then text_field (q_File i)
  else if streq name "line" then (VInt (q_Line i), (0 <? q_Line i)%Z)
  else if streq name "end_line" then (VInt (q_EndLine i), (0 <? q_EndLine i)%Z)
  else if streq name "origin" then text_field (q_Origin i)
  else if streq name "lang" then text_field (q_Lang i)
  else if streq name "parent" then text_field (q_Parent i)
  else if streq name "signature" then text_field (q_Signature i)
  else if streq name "title" then text_field (q_Title i)
  else if streq name "layer" then text_field (q_Layer i)
  else if streq name "score" then (VInt (q_Score i), negb (q_Score i =? 0)%Z)
  else if streq name "text" then text_field (q_Text i)
  else if streq name "edge" then (VEdge (q_Edge i), bool_decide (is_Some (q_Edge i)))
  else if streq name "in" then text_field (q_In i)
  else if streq name "rev" then (if streq (Rev i) [] then (VNil, false) else (VText ("rev:" ++ Rev i), true))
  else if streq name "truncated_item" then flag_field (q_TruncatedItem i)
  else if streq name "stale" then flag_field (q_Stale i)
  else if streq name "missing" then flag_field (q_Missing i)
  else if streq name "seen" then flag_field (q_Seen i)
  else (VNil, false).

(** * Rows *)
Record QRow := mkQRow { r_keys : list gostring; r_vals : gmap gostring qvalue }.
Definition add_field (i : QItem) (row : QRow) (name : gostring) : QRow :=
  match r_vals row !! name with
  | Some _ => row
  | None => let '(value, ok) := Field i name in
            if ok then mkQRow (r_keys row ++ [name]) (<[name := value]> (r_vals row)) else row
  end.
Definition projected (i : QItem) (fields : list gostring) : list gostring :=
  (match fields with
   | [] => QDefaultFields ++ ["edge"; "in"] ++ (if q_Read i then ["text" : gostring] else [])
   | _ => fields
   end)
  ++ (if q_Stale i || q_Seen i then ["rev" : gostring] else [])
  ++ ["stale"; "missing"; "seen"; "truncated_item"].
Definition Project (i : QItem) (fields : list gostring) : QRow :=
  foldl (add_field i) (mkQRow [] ∅) (projected i fields).
Definition Get (r : QRow) (name : gostring) : option qvalue := r_vals r !! name.
Definition With (name : gostring) (value : qvalue) (r : QRow) : QRow :=
  mkQRow (match r_vals r !! name with Some _ => r_keys r | None => r_keys r ++ [name] end) (<[name := value]> (r_vals r)).

(** ** JSON *)
Definition json_rune (html : bool) (r : Z) : gostring :=
  if (r =? 34)%Z then [BSLASH; QUOTE]
  else if (r =? 92)%Z then [BSLASH; BSLASH]
  else if (r =? 8)%Z then BSLASH :: "b"
  else if (r =? 12)%Z then BSLASH :: "f"
  else if (r =? 10)%Z then BSLASH :: "n"
  else if (r =? 13)%Z then BSLASH :: "r"
  else if (r =? 9)%Z then BSLASH :: "t"
  else if (r <? 32)%Z || (html && oneOf (encodeRune r) ["<"; ">"; "&"]) || (r =? 8232)%Z || (r =? 8233)%Z
  then BSLASH :: "u" ++ hexFixed 4 r
  else encodeRune r.
(** A byte that is not UTF-8 becomes an escaped replacement character. *)
Fixpoint json_from (html : bool) (skip : nat) (s : gostring) : gostring :=
  match s with
  | [] => []
  | _ :: s' =>
      match skip with
      | S k => json_from html k s'
      | 0 => let '(r, n) := decodeRune s in
             (if (r =? RuneError)%Z && (n =? 1)%nat then BSLASH :: "ufffd" else json_rune html r)
             ++ json_from html (n - 1) s'
      end
  end.
Definition json_text (html : bool) (s : gostring) : gostring := QUOTE :: json_from html 0 s ++ [QUOTE].
Definition json_key (name : gostring) : gostring := QUOTE :: name ++ [QUOTE; ":"%char].
Definition json_edge (html : bool) (e : QEdge) : gostring :=
  "{" ++ json_key "dir" ++ json_text html (ed_Dir e) ++ "," ++ json_key "from" ++ json_text html (ed_From e) ++ ","
  ++ json_key "depth" ++ itoa (ed_Depth e) ++ "}".
Definition json_value (html : bool) (v : qvalue) : gostring :=
  match v with
  | VText s => json_text html s
  | VInt z => itoa z
  | VBool b => if b then "true" else "false"
  | VEdge (Some e) => json_edge html e
  | VEdge None | VNil => "null"
  end.
Definition marshalNoEscape : qvalue -> gostring := json_value false.
Definition json_field (r : QRow) (key : gostring) : gostring :=
  json_text true key ++ ":" ++ marshalNoEscape (default VNil (r_vals r !! key)).
Definition MarshalJSON (r : QRow) : gostring := "{" ++ join (map (json_field r) (r_keys r)) "," ++ "}".
Definition JSONSize (r : QRow) : Z := Z.of_nat (length (MarshalJSON r)).

(** ** Lines *)
Definition text_value (r : QRow) (key : gostring) : option gostring :=
  match r_vals r !! key with Some (VText s) => Some s | _ => None end.
Definition optional (o : option gostring) : list gostring := match o with Some s => [s] | None => [] end.
Definition location (r : QRow) (file : gostring) : gostring :=
  file ++ match r_vals r !! ("line" : gostring) with Some (VInt z) => ":" ++ itoa z | _ => [] end.
Definition extra_field (r : QRow) (key : gostring) : list gostring :=
  match r_vals r !! key with
  | Some (VBool _) => [key]
  | Some (VText s) => [key ++ "=" ++ s]
  | Some (VEdge (Some e)) => ["edge=" ++ ed_Dir e ++ "<" ++ ed_From e ++ " d" ++ itoa (ed_Depth e)]
  | Some (VEdge None) => []
  | Some v => [key ++ "=" ++ json_value true v]
  | None => [key ++ "=null"]
  end.
Definition indentLines (text prefix : gostring) : gostring :=
  join (map (fun l => prefix ++ l) (splitByte (trimRightSet text [LF]) LF)) [LF].
Definition Line (r : QRow) : gostring :=
  let parts := optional (text_value r "id") ++ optional (text_value r "kind") ++ optional (text_value r "name")
               ++ optional (location r <$> text_value r "file") in
  let extra := mjoin (map (extra_field r)
                 (filter (fun k => ~ k ∈ ["id"; "kind"; "name"; "file"; "line"; "text"]) (r_keys r))) in
  join parts "  "
  ++ (match extra with [] => [] | _ => "  [" ++ join extra " " ++ "]" end)
  ++ (match text_value r "text" with
      | Some ((_ :: _) as text) => LF :: indentLines text "    "
      | _ => []
      end).
Definition Lines (rows : list QRow) : list gostring := map Line rows.
End items.

(** * Reasons by severity *)
Definition qReasonRank : list (gostring * Z) :=
  [("index_schema_broken", 90); ("index_not_ready", 80); ("lsp_unavailable", 70); ("lsp_error", 60);
   ("graph_unavailable", 55); ("session_unavailable", 52); ("q_timeout", 50); ("language_unsupported", 40);
   ("semantic_empty_text_hits", 30); ("no_matches", 1)]%Z.
Definition rank_of (reason : gostring) : Z :=
  default 0%Z (snd <$> head (filter (fun kv => kv.1 = reason) qReasonRank)).
Definition MoreSevereReason (a b : gostring) : gostring :=
  if (rank_of a <? rank_of b)%Z || (streq a [] && negb (streq b [])) then b else a.
