(* ===== verification/QSession.v ===== *)
(** The memory of q-v1 sessions (internal/service/primitives_session.go): what a session was
    given, marks that point back into it, and the items of a query it already has.

    Every method holds the mutex from its first to its last line, so the state is a map and
    a method is a function on it. *)
From S2P Require Import Prelude GoStrings GoStringFacts GoSort GoNum Ids QItem.

Local Open Scope go_scope.

Definition sessionLimit : nat := 200.
(** Nanoseconds. *)
Definition sessionIdle : Z := 30 * 60 * 1000000000.

Record sessionRevision := mkRevision { h_mark : Z; h_id : gostring; h_rev : gostring }.
Record sessionEntry := mkEntry {
  e_mark : Z; e_touched : Z; e_delivered : gmap gostring gostring; e_history : list sessionRevision;
  e_snapshots : gmap Z (gmap gostring gostring); e_dedupe : gmap gostring (gmap gostring gostring);
  e_dedupeKeys : list gostring }.
Abbreviation SessionState := (gmap gostring sessionEntry).
Definition NewSessionState : SessionState := ∅.
Definition newEntry : sessionEntry := mkEntry 0 0 ∅ [] ∅ ∅ [].
Definition touch (now : Z) (e : sessionEntry) : sessionEntry :=
  mkEntry (e_mark e) now (e_delivered e) (e_history e) (e_snapshots e) (e_dedupe e) (e_dedupeKeys e).

Section sessions.
Context `{UnicodeTables} `{MapOrder}.

(** [Sub] and [After] on times of the year 1 are not reached: entries are always touched. *)
Definition HasLiveSessions (now : Z) (s : SessionState) : bool :=
  existsb (fun '(_, e) => (e_touched e =? 0)%Z || (now <? e_touched e)%Z || (now - e_touched e <=? sessionIdle)%Z)
    (map_to_list s).

Definition fresh_enough (now : Z) (e : sessionEntry) : bool := (now - e_touched e <=? sessionIdle)%Z.
Definition expire (now : Z) (s : SessionState) : SessionState := filter (fun kv => fresh_enough now kv.2 = true) s.
(** The sessions that were not used for longest go first. *)
Fixpoint evict (ids : list gostring) (s : SessionState) : SessionState :=
  match ids with
  | id :: ids => if sessionLimit <? size s then evict ids (delete id s) else s
  | [] => s
  end.
Definition touched_at (s : SessionState) (id : gostring) : Z := default 0%Z (e_touched <$> s !! id).
Definition entry (session : gostring) (now : Z) (s : SessionState) : sessionEntry * SessionState :=
  let s := expire now s in
  let e := touch now (default newEntry (s !! session)) in
  let s := <[session := e]> s in
  if sessionLimit <? size s
  then (e, evict (sortOn Z.compare (touched_at s) (filter (fun id => id <> session) (visit s))) s)
  else (e, s).

Definition NextMark (session : gostring) (now : Z) (s : SessionState) : Z * SessionState :=
  if streq session [] then (0%Z, s)
  else
    let '(e, s) := entry session now s in
    let mark := (e_mark e + 1)%Z in
    let snapshots := filter (fun kv => (mark - 64 <= kv.1)%Z) (<[mark := e_delivered e]> (e_snapshots e)) in
    (mark, <[session := mkEntry mark (e_touched e) (e_delivered e) (e_history e) snapshots (e_dedupe e) (e_dedupeKeys e)]> s).
Definition Seen (session id rev : gostring) (now : Z) (s : SessionState) : bool * SessionState :=
  if streq session [] || streq id [] || streq rev [] then (false, s)
  else
    let '(e, s) := entry session now s in
    (streq (default [] (e_delivered e !! id)) rev, s).
Definition remember (id rev : gostring) (e : sessionEntry) : sessionEntry :=
  if bool_decide (e_delivered e !! id = Some rev) then e
  else
    let mark := (e_mark e + 1)%Z in
    let history := e_history e ++ [mkRevision mark id rev] in
    mkEntry mark (e_touched e) (<[id := rev]> (e_delivered e))
      (if 4096 <? length history then drop (length history - 2048) history else history)
      (e_snapshots e) (e_dedupe e) (e_dedupeKeys e).
Definition Remember (session : gostring) (item : QItem) (now : Z) (s : SessionState) : SessionState :=
  if streq session [] || streq (q_ID item) [] || streq (Rev item) [] then s
  else
    let '(e, s) := entry session now s in
    <[session := remember (q_ID item) (Rev item) e]> s.
Definition candidate (id rev : gostring) : QItem := set_origin [] "catalog" (set_identity id rev noItem).
Definition ChangedCandidates (session : gostring) (since now : Z) (s : SessionState) : list QItem * SessionState :=
  if streq session [] then ([], s)
  else
    let '(e, s) := entry session now s in
    let snapshot := default ∅ (e_snapshots e !! since) in
    (sortOn compareString q_ID (map (fun '(id, rev) => candidate id rev) (map_to_list snapshot)), s).

(** An item is kept unless the session has it at the same revision. *)
Definition unknown (known : option (gmap gostring gostring)) (item : QItem) : bool :=
  match known with
  | None => true
  | Some known => negb (streq (default [] (known !! q_ID item)) (Rev item))
  end.
Definition FilterDedupe (session key : gostring) (items : list QItem) (now : Z) (s : SessionState) :
    list QItem * SessionState :=
  if streq session [] || streq key [] then (items, s)
  else
    let '(e, s) := entry session now s in
    (filter (fun item => unknown (e_dedupe e !! key) item = true) items, s).
(** A full table loses whichever item Go visits first. *)
Definition remember_item (known : gmap gostring gostring) (item : QItem) : gmap gostring gostring :=
  if streq (q_ID item) [] then known
  else
    let known := if bool_decide (known !! q_ID item = None) && (4096 <=? size known)
                 then match visit known with id :: _ => delete id known | [] => known end
                 else known in
    <[q_ID item := Rev item]> known.
Definition open_key (key : gostring) (e : sessionEntry) : sessionEntry :=
  match e_dedupe e !! key with
  | Some _ => e
  | None =>
      let '(dedupe, keys) :=
        match e_dedupeKeys e with
        | oldest :: rest => if 32 <=? length (e_dedupeKeys e) then (delete oldest (e_dedupe e), rest)
                            else (e_dedupe e, e_dedupeKeys e)
        | [] => (e_dedupe e, [])
        end in
      mkEntry (e_mark e) (e_touched e) (e_delivered e) (e_history e) (e_snapshots e) (<[key := ∅]> dedupe) (keys ++ [key])
  end.
Definition RememberDedupe (session key : gostring) (items : list QItem) (now : Z) (s : SessionState) : SessionState :=
  if streq session [] || streq key [] || (length items =? 0) then s
  else
    let '(e, s) := entry session now s in
    let e := open_key key e in
    let known := foldl remember_item (default ∅ (e_dedupe e !! key)) items in
    <[session := mkEntry (e_mark e) (e_touched e) (e_delivered e) (e_history e) (e_snapshots e)
                   (<[key := known]> (e_dedupe e)) (e_dedupeKeys e)]> s.
(** The last revision after a mark of everything that was read. *)
Definition Changed (session : gostring) (since now : Z) (s : SessionState) : list QItem * SessionState :=
  if streq session [] then ([], s)
  else
    let '(e, s) := entry session now s in
    let latest := foldl (fun m h => if (since <? h_mark h)%Z then <[h_id h := h_rev h]> m else m) (∅ : gmap gostring gostring)
                    (e_history e) in
    (sortOn compareString q_ID (map (fun '(id, rev) => candidate id rev) (map_to_list latest)), s).
End sessions.
