(* ===== verification/QSessionFacts.v ===== *)
(** The memory of a session: it stays bounded, its marks denote what the session had been
    given, and only what was delivered is withheld. *)
From S2P Require Import Prelude GoStrings GoStringFacts GoSort GoNum Ids QItem QSession.

Local Open Scope go_scope.

(** * Looking a session up *)
Section entries.
Context `{UnicodeTables} `{MapOrder}.
Implicit Types (s : SessionState) (session : gostring) (now : Z).

Lemma evict_sub ids s : evict ids s ⊆ s.
Proof.
  revert s; induction ids as [|id ids IH]; intros s; cbn [evict]; [done|]. destruct (_ <? _); [|done].
  etrans; [apply IH|]. apply delete_subseteq.
Qed.
Lemma evict_keeps ids s id : id ∉ ids -> evict ids s !! id = s !! id.
Proof.
  revert s; induction ids as [|a ids IH]; intros s Hid; cbn [evict]; [done|]. destruct (_ <? _); [|done].
  apply not_elem_of_cons in Hid as [Hne Hid]. by rewrite IH, lookup_delete_ne by congruence.
Qed.
Lemma evict_noop ids s : size s <= sessionLimit -> evict ids s = s.
Proof. destruct ids; [done|]. cbn [evict]. intros Hs. by rewrite (proj2 (Nat.ltb_ge _ _)) by done. Qed.
Lemma evict_size ids s : NoDup ids -> (forall id, id ∈ ids -> is_Some (s !! id)) ->
  size (evict ids s) <= max sessionLimit (size s - length ids).
Proof.
  revert s; induction ids as [|id ids IH]; intros s Hnd Hin; cbn [evict length]; [lia|].
  apply NoDup_cons in Hnd as [Hid Hnd]. destruct (Hin id) as [e He]; [by left|].
  assert (Hsize : size (delete id s) = pred (size s)) by (apply map_size_delete_Some; by exists e).
  destruct (_ <? _) eqn:E; bool_to_prop; [|lia].
  specialize (IH (delete id s) Hnd). rewrite Hsize in IH.
  assert (0 < size s) by lia. etrans; [apply IH|lia].
  intros j Hj. rewrite lookup_delete_ne by set_solver. apply Hin. by right.
Qed.

Lemma expire_sub now s : expire now s ⊆ s.
Proof. apply map_filter_subseteq. Qed.
Lemma expire_lookup now s id e : expire now s !! id = Some e <-> s !! id = Some e /\ fresh_enough now e = true.
Proof. apply map_lookup_filter_Some. Qed.

(** The entry that a method works on, and the state it finds it in. *)
Definition opened session now s : sessionEntry := touch now (default newEntry (expire now s !! session)).
Definition others session (s : SessionState) : list gostring := filter (fun id => id <> session) (visit s).
Lemma others_spec session s : NoDup (others session s) /\ forall id, id ∈ others session s <-> id <> session /\ is_Some (s !! id).
Proof.
  unfold others. split.
  - apply NoDup_filter. rewrite (visit_keys s). apply NoDup_fst_map_to_list.
  - intros id. rewrite list_elem_of_filter, (visit_keys s), list_elem_of_fmap. split.
    + intros [Hne ([j e] & -> & He%elem_of_map_to_list)]. by split; [|exists e].
    + intros [Hne [e He]]. split; [done|]. exists (id, e). by rewrite elem_of_map_to_list.
Qed.
Lemma length_others session s : is_Some (s !! session) -> S (length (others session s)) = size s.
Proof.
  intros [e He]. unfold others. rewrite (visit_keys s).
  assert (Hp : map_to_list s ≡ₚ (session, e) :: map_to_list (delete session s)).
  { rewrite <- (insert_delete_id s session e He) at 1. apply map_to_list_insert, lookup_delete_eq. }
  rewrite Hp. cbn [fmap list_fmap fst]. rewrite filter_cons_False by naive_solver.
  rewrite filter_all.
  - assert (Hsize : size (delete session s) = pred (size s)) by (apply map_size_delete_Some; by exists e).
    rewrite length_fmap, length_map_to_list, Hsize.
    enough (size s <> 0) by lia. intros Hz%map_size_empty_inv. by rewrite Hz in He.
  - intros x ([j f] & -> & Hj%elem_of_map_to_list)%list_elem_of_fmap. cbn. intros ->. by rewrite lookup_delete_eq in Hj.
Qed.

Lemma entry_spec session now s : exists s',
  entry session now s = (opened session now s, s') /\ s' !! session = Some (opened session now s) /\
  (forall id e, id <> session -> s' !! id = Some e -> s !! id = Some e /\ fresh_enough now e = true) /\ size s' <= sessionLimit.
Proof.
  unfold entry. fold (opened session now s). set (s1 := <[session := _]> (expire now s)).
  assert (Hself : s1 !! session = Some (opened session now s)) by apply lookup_insert_eq.
  assert (Hothers : forall id e, id <> session -> s1 !! id = Some e -> s !! id = Some e /\ fresh_enough now e = true).
  { intros id e Hne. unfold s1. rewrite lookup_insert_ne by congruence. apply expire_lookup. }
  destruct (_ <? _) eqn:E; eexists; (split; [reflexivity|]); [|split_and!; [done|done|by bool_to_prop]].
  destruct (others_spec session s1) as [Hnd Hin]. fold (others session s1). set (ids := sortOn _ _ _).
  assert (Hids : ids ≡ₚ others session s1) by apply sortOn_perm. split_and!.
  - rewrite evict_keeps; [done|]. rewrite Hids, Hin. naive_solver.
  - intros id e Hne He. apply Hothers; [done|]. by eapply lookup_weaken; [exact He|apply evict_sub].
  - etrans; [apply evict_size|].
    + by rewrite Hids.
    + intros id. rewrite Hids, Hin. by intros [_ ?].
    + rewrite Hids. pose proof (length_others session s1 (mk_is_Some _ _ Hself)). unfold sessionLimit. lia.
Qed.
(** With room in the table nothing is evicted. *)
Lemma entry_room session now s : size s < sessionLimit ->
  entry session now s = (opened session now s, <[session := opened session now s]> (expire now s)).
Proof.
  intros Hs. unfold entry. fold (opened session now s).
  assert (size (<[session:=opened session now s]> (expire now s)) <= sessionLimit) as Hle.
  { rewrite map_size_insert. pose proof (map_subseteq_size _ _ (expire_sub now s)). destruct (_ !! _); unfold id; lia. }
  by rewrite (proj2 (Nat.ltb_ge _ _)) by done.
Qed.
End entries.

(** * Calls *)
Inductive session_call :=
| CallNextMark (session : gostring)
| CallSeen (session id rev : gostring)
| CallRemember (session : gostring) (item : QItem)
| CallCandidates (session : gostring) (since : Z)
| CallFilter (session key : gostring) (items : list QItem)
| CallRememberDedupe (session key : gostring) (items : list QItem)
| CallChanged (session : gostring) (since : Z).
(** A call at a time, with the order in which Go visits maps meanwhile. *)
Record session_event := mkEvent { ev_order : MapOrder; ev_now : Z; ev_call : session_call }.

Section calls.
Context `{UnicodeTables}.
Definition run_event (s : SessionState) (ev : session_event) : SessionState :=
  let _ := ev_order ev in
  let now := ev_now ev in
  match ev_call ev with
  | CallNextMark session => (NextMark session now s).2
  | CallSeen session id rev => (Seen session id rev now s).2
  | CallRemember session item => Remember session item now s
  | CallCandidates session since => (ChangedCandidates session since now s).2
  | CallFilter session key items => (FilterDedupe session key items now s).2
  | CallRememberDedupe session key items => RememberDedupe session key items now s
  | CallChanged session since => (Changed session since now s).2
  end.
Definition run_events (l : list session_event) (s : SessionState) : SessionState := foldl run_event s l.

(** The change of the entry that a call makes. *)
Definition next_mark (e : sessionEntry) : sessionEntry :=
  let mark := (e_mark e + 1)%Z in
  mkEntry mark (e_touched e) (e_delivered e) (e_history e)
    (filter (fun kv => (mark - 64 <= kv.1)%Z) (<[mark := e_delivered e]> (e_snapshots e))) (e_dedupe e) (e_dedupeKeys e).
Definition remember_all `{MapOrder} (key : gostring) (items : list QItem) (e : sessionEntry) : sessionEntry :=
  let e := open_key key e in
  mkEntry (e_mark e) (e_touched e) (e_delivered e) (e_history e) (e_snapshots e)
    (<[key := foldl remember_item (default ∅ (e_dedupe e !! key)) items]> (e_dedupe e)) (e_dedupeKeys e).
(** The session that a call is for, if it does anything, and its change. *)
Definition call_session (c : session_call) : option gostring :=
  match c with
  | CallNextMark session | CallCandidates session _ | CallChanged session _ => if streq session [] then None else Some session
  | CallSeen session id rev => if streq session [] || streq id [] || streq rev [] then None else Some session
  | CallRemember session item => if streq session [] || streq (q_ID item) [] || streq (Rev item) [] then None else Some session
  | CallFilter session key _ => if streq session [] || streq key [] then None else Some session
  | CallRememberDedupe session key items => if streq session [] || streq key [] || (length items =? 0) then None else Some session
  end.
Definition call_change `{MapOrder} (c : session_call) : sessionEntry -> sessionEntry :=
  match c with
  | CallNextMark _ => next_mark
  | CallRemember _ item => remember (q_ID item) (Rev item)
  | CallRememberDedupe _ key items => remember_all key items
  | _ => fun e => e
  end.
Lemma run_event_spec s ev :
  match call_session (ev_call ev) with
  | None => run_event s ev = s
  | Some session => exists s', (let _ := ev_order ev in entry session (ev_now ev) s) = (opened session (ev_now ev) s, s') /\
      run_event s ev = <[session := (let _ := ev_order ev in call_change (ev_call ev)) (opened session (ev_now ev) s)]> s' /\
      (forall id e, id <> session -> s' !! id = Some e -> s !! id = Some e /\ fresh_enough (ev_now ev) e = true) /\
      size s' <= sessionLimit /\ is_Some (s' !! session)
  end.
Proof.
  destruct ev as [o now c]. unfold run_event. cbn [ev_order ev_now ev_call].
  assert (Hall : forall session, exists s', entry session now s = (opened session now s, s') /\
    s' !! session = Some (opened session now s) /\
    (forall id e, id <> session -> s' !! id = Some e -> s !! id = Some e /\ fresh_enough now e = true) /\ size s' <= sessionLimit)
    by (intros; apply entry_spec).
  destruct c; cbn [call_session];
    unfold NextMark, Seen, Remember, ChangedCandidates, FilterDedupe, RememberDedupe, Changed;
    match goal with |- context [if ?b then _ else _] => destruct b eqn:?; [done|] end;
    destruct (Hall session) as (s' & E & Hself & Ho & Hs); rewrite E; cbn [fst snd]; exists s';
    (split_and!; [done| |done|done|by eexists]); try done; symmetry; by apply insert_id.
Qed.
End calls.

(** * Invariants of runs *)
Section runs.
Context `{UnicodeTables}.
Implicit Types (s : SessionState) (session key : gostring) (now : Z) (l : list session_event).

Lemma run_events_snoc l ev s : run_events (l ++ [ev]) s = run_event (run_events l s) ev.
Proof. apply foldl_snoc. Qed.
(** A property of entries that may speak of the calls so far. *)
Lemma session_invariant (P : list session_event -> gostring -> sessionEntry -> Prop) :
  (forall l ev session e, P l session e -> P (l ++ [ev]) session e) ->
  (forall l session now, P l session (touch now newEntry)) ->
  (forall l session now e, P l session e -> P l session (touch now e)) ->
  (forall l ev session e, call_session (ev_call ev) = Some session -> P l session e ->
     P (l ++ [ev]) session ((let _ := ev_order ev in call_change (ev_call ev)) e)) ->
  forall l session e, run_events l NewSessionState !! session = Some e -> P l session e.
Proof.
  intros Hmono Hnew Htouch Hchange l. induction l as [|ev l IH] using rev_ind; intros session e; [done|].
  rewrite run_events_snoc. pose proof (run_event_spec (run_events l NewSessionState) ev) as Hev. set (s := run_events _ _) in *.
  destruct (call_session _) as [session'|] eqn:Ecall; [|rewrite Hev; auto].
  destruct Hev as (s' & _ & -> & Ho & _ & _). destruct (decide (session = session')) as [<-|Hne].
  - rewrite lookup_insert_eq. intros [= <-]. apply Hchange; [done|]. unfold opened.
    destruct (expire _ _ !! _) as [e|] eqn:E; cbn [default]; [|apply Hnew].
    apply Htouch, IH. by apply expire_lookup in E as [? _].
  - rewrite lookup_insert_ne by congruence. intros He. apply Hmono, IH. by eapply Ho.
Qed.
Lemma run_size l : size (run_events l NewSessionState) <= sessionLimit.
Proof.
  induction l as [|ev l IH] using rev_ind; [by rewrite (map_size_empty : size NewSessionState = 0); apply le_0_n|].
  rewrite run_events_snoc. pose proof (run_event_spec (run_events l NewSessionState) ev) as Hev.
  destruct (call_session _); [|by rewrite Hev]. destruct Hev as (s' & _ & -> & _ & Hs & [e He]).
  by rewrite map_size_insert_Some by by eexists.
Qed.

(** * Bounds *)
Record entry_bounds (e : sessionEntry) : Prop := {
  eb_snapshots : exists top, (top <= e_mark e)%Z /\
    forall m, is_Some (e_snapshots e !! m) -> (top - 64 <= m <= top)%Z;
  eb_history : length (e_history e) <= 4096;
  eb_nodup : NoDup (e_dedupeKeys e);
  eb_keys : length (e_dedupeKeys e) <= 32;
  eb_dedupe : forall key, is_Some (e_dedupe e !! key) <-> key ∈ e_dedupeKeys e;
  eb_known : forall key known, e_dedupe e !! key = Some known -> size known <= 4096 }.

Lemma remember_item_size `{MapOrder} known item : size known <= 4096 -> size (remember_item known item) <= 4096.
Proof.
  intros Hs. unfold remember_item. destruct (streq _ _); [done|]. rewrite map_size_insert.
  destruct (known !! q_ID item) as [v|] eqn:Ek.
  { rewrite bool_decide_false by done. cbn [andb]. by rewrite Ek. }
  rewrite bool_decide_true by done. cbn [andb]. destruct (_ <=? _) eqn:E; bool_to_prop; [|rewrite Ek; lia].
  pose proof (visit_keys known) as Hv. destruct (visit known) as [|j ids].
  { apply Permutation_length in Hv. rewrite length_fmap, length_map_to_list in Hv. cbn in Hv. lia. }
  assert (is_Some (known !! j)) as Hj.
  { assert (j ∈ (map_to_list known).*1) as ([i v] & -> & Hi)%list_elem_of_fmap by (rewrite <- Hv; by left).
    apply elem_of_map_to_list in Hi. by eexists. }
  assert (size (delete j known) = pred (size known)) as -> by by apply map_size_delete_Some.
  destruct (delete j known !! q_ID item); unfold id; lia.
Qed.
Lemma remember_items_size `{MapOrder} items known : size known <= 4096 -> size (foldl remember_item known items) <= 4096.
Proof. revert known. induction items as [|i items IH]; intros known Hs; [done|]. by apply IH, remember_item_size. Qed.
Lemma open_key_bounds key e : entry_bounds e -> entry_bounds (open_key key e) /\ is_Some (e_dedupe (open_key key e) !! key).
Proof.
  intros He. unfold open_key. destruct (e_dedupe e !! key) as [known|] eqn:Ek; [by split; [|exists known]|].
  pose proof (eb_nodup e He) as Hnd. pose proof (eb_keys e He) as Hlen. pose proof (eb_dedupe e He) as Hdom.
  pose proof (eb_known e He) as Hknown. assert (Hkey : key ∉ e_dedupeKeys e) by (rewrite <- Hdom, Ek; by intros [? ?]).
  enough (forall d keys, NoDup keys -> length keys < 32 -> key ∉ keys -> (forall k, is_Some (d !! k) <-> k ∈ keys) ->
    (forall k known, d !! k = Some known -> size known <= 4096) ->
    let e' := mkEntry (e_mark e) (e_touched e) (e_delivered e) (e_history e) (e_snapshots e) (<[key:=∅]> d) (keys ++ [key]) in
    entry_bounds e' /\ is_Some (e_dedupe e' !! key)) as Hgoal.
  { destruct (e_dedupeKeys e) as [|oldest rest]; [apply Hgoal; try done; apply Nat.lt_0_succ|].
    destruct (_ <=? _) eqn:E; bool_to_prop; [|by apply Hgoal].
    apply NoDup_cons in Hnd as [Hold Hnd]. apply not_elem_of_cons in Hkey as [_ Hkey]. apply Hgoal; [done|cbn in Hlen; lia|done| |].
    - intros k. rewrite lookup_delete_is_Some, Hdom, elem_of_cons. clear -Hold. naive_solver.
    - intros k known [_ Hk]%lookup_delete_Some. by eapply Hknown. }
  intros d keys Hn Hl Hk Hd Hz e'. subst e'. split; [constructor; cbn|cbn; by rewrite lookup_insert_eq; eexists].
  - apply He.
  - apply He.
  - apply NoDup_app. split_and!; [done|by intros x Hx ->%list_elem_of_singleton|apply NoDup_singleton].
  - rewrite length_app. cbn. lia.
  - intros k. rewrite lookup_insert_is_Some', Hd, elem_of_app, list_elem_of_singleton. clear. naive_solver.
  - intros k known. rewrite lookup_insert_Some. intros [[<- <-]|[_ E]]; [rewrite map_size_empty; lia|by eapply Hz].
Qed.
Lemma call_bounds `{MapOrder} c e : entry_bounds e -> entry_bounds (call_change c e).
Proof.
  intros He. destruct c; cbn [call_change]; try done.
  - constructor; try apply He. exists (e_mark e + 1)%Z. split; [done|].
    destruct (eb_snapshots e He) as (top & Htop & Hs). intros m [D [HD Hm]%map_lookup_filter_Some].
    cbn in Hm. apply lookup_insert_Some in HD as [[<- _]|[_ HD]]; [lia|].
    destruct (Hs m) as [_ ?]; [by exists D|]. lia.
  - unfold remember. case_bool_decide; [done|]. constructor; cbn [e_mark e_snapshots e_history e_dedupe e_dedupeKeys]; try apply He.
    + destruct (eb_snapshots e He) as (top & Htop & Hs). exists top. split; [lia|done].
    + destruct (_ <? _) eqn:E; bool_to_prop; [|done]. rewrite length_drop. lia.
  - destruct (open_key_bounds key e He) as [Ho [known Hk]]. unfold remember_all. constructor; cbn [e_mark e_snapshots e_history e_dedupe e_dedupeKeys]; try apply Ho.
    + intros k. rewrite lookup_insert_is_Some', <- (eb_dedupe _ Ho). naive_solver.
    + intros k known'. rewrite lookup_insert_Some. intros [[<- <-]|[_ E]]; [|by eapply (eb_known _ Ho)].
      apply remember_items_size. rewrite Hk. by eapply (eb_known _ Ho).
Qed.
Lemma run_bounds l session e : run_events l NewSessionState !! session = Some e -> entry_bounds e.
Proof.
  apply (session_invariant (fun _ _ => entry_bounds)); try done.
  - intros _ _ now. constructor; cbn; try done; try lia.
    + exists 0%Z. split; [done|]. by intros m [? ?].
    + constructor.
    + intros key. by split; [intros [? ?]|intros ?%elem_of_nil].
  - intros _ _ now e' He. by destruct He.
  - intros _ ev _ e' _ He. by apply call_bounds.
Qed.
Lemma window_size {A} (m : gmap Z A) a : (forall k, is_Some (m !! k) -> (a <= k <= a + 64)%Z) -> size m <= 65.
Proof.
  intros Hm. rewrite <- size_dom. transitivity (size (list_to_set (seqZ a 65) : gset Z)).
  - apply subseteq_size. intros k Hk%elem_of_dom. apply Hm in Hk. apply elem_of_list_to_set, elem_of_seqZ. lia.
  - rewrite size_list_to_set by apply NoDup_seqZ. by rewrite length_seqZ.
Qed.
End runs.

(** * What a session was told *)
Section log.
Context `{UnicodeTables}.
Implicit Types (s : SessionState) (session key : gostring) (now : Z) (l : list session_event).

(** The last revision of every item that was remembered. *)
Definition tell session (m : gmap gostring gostring) (ev : session_event) : gmap gostring gostring :=
  match ev_call ev with
  | CallRemember _ item => if bool_decide (call_session (ev_call ev) = Some session) then <[q_ID item := Rev item]> m else m
  | _ => m
  end.
Definition told session l : gmap gostring gostring := foldl (tell session) ∅ l.
(** The session is not idle for too long and the table of sessions is not full. *)
Definition attended session now s : Prop :=
  size s < sessionLimit /\ forall e, s !! session = Some e -> fresh_enough now e = true.
Fixpoint awake session l s : Prop :=
  match l with [] => True | ev :: l => attended session (ev_now ev) s /\ awake session l (run_event s ev) end.
Lemma awake_app session l1 l2 s : awake session (l1 ++ l2) s <-> awake session l1 s /\ awake session l2 (run_events l1 s).
Proof.
  revert s; induction l1 as [|ev l1 IH]; intros s; [cbn; tauto|]. cbn [app awake]. rewrite IH. cbn. tauto.
Qed.
Lemma attended_opened session now s : attended session now s ->
  expire now s !! session = s !! session.
Proof.
  intros [_ Ha]. apply option_eq. intros e. rewrite expire_lookup. naive_solver.
Qed.
Lemma awake_step session s ev : attended session (ev_now ev) s ->
  run_event s ev !! session =
    if bool_decide (call_session (ev_call ev) = Some session)
    then Some ((let _ := ev_order ev in call_change (ev_call ev)) (touch (ev_now ev) (default newEntry (s !! session))))
    else s !! session.
Proof.
  intros Ha. pose proof (run_event_spec s ev) as Hev. destruct (call_session _) as [other|]; [|by rewrite Hev].
  destruct Hev as (s' & E & -> & _). pose proof (attended_opened _ _ _ Ha) as Hx. case_bool_decide as Hc.
  - injection Hc as ->. rewrite lookup_insert_eq. unfold opened. by rewrite Hx.
  - assert (other <> session) by congruence. rewrite lookup_insert_ne by done.
    rewrite entry_room in E by apply Ha. injection E as <-. by rewrite lookup_insert_ne.
Qed.
Lemma touch_delivered now e : e_delivered (touch now e) = e_delivered e.
Proof. done. Qed.
Lemma change_delivered `{MapOrder} c e :
  e_delivered (call_change c e) = match c with CallRemember _ item => <[q_ID item := Rev item]> (e_delivered e) | _ => e_delivered e end.
Proof.
  destruct c; cbn [call_change]; try done.
  - unfold remember. case_bool_decide as Hd; [|done]. by rewrite insert_id.
  - unfold remember_all, open_key. destruct (e_dedupe e !! key); [done|]. destruct (e_dedupeKeys e); [done|]. by destruct (_ <=? _).
Qed.
Definition memory session s : gmap gostring gostring := default ∅ (e_delivered <$> s !! session).
Lemma step_memory session s ev : attended session (ev_now ev) s -> memory session (run_event s ev) = tell session (memory session s) ev.
Proof.
  intros Ha. unfold memory, tell. rewrite (awake_step _ _ _ Ha). case_bool_decide as Hc.
  - cbn [fmap option_fmap option_map default from_option]. rewrite change_delivered, touch_delivered.
    destruct (ev_call ev); rewrite ?(bool_decide_true _ Hc); by destruct (s !! session).
  - by destruct (ev_call ev).
Qed.
Lemma awake_memory session l s : awake session l s -> memory session (run_events l s) = foldl (tell session) (memory session s) l.
Proof.
  revert s; induction l as [|ev l IH]; intros s Ha; [done|]. destruct Ha as [Ha Hl].
  change (run_events (ev :: l) s) with (run_events l (run_event s ev)). rewrite IH by done. by rewrite step_memory.
Qed.

(** * Marks *)
(** [mark] denotes [D], or has gone since. *)
Definition marked (mark : Z) (D : gmap gostring gostring) (e : sessionEntry) : Prop :=
  (mark <= e_mark e)%Z /\ ((e_mark e <= mark + 64)%Z -> e_snapshots e !! mark = Some D).
Lemma change_marked `{MapOrder} mark D c e : marked mark D e -> marked mark D (call_change c e).
Proof.
  intros [Hle Hs]. destruct c; cbn [call_change]; try by split.
  - split; cbn; [lia|]. intros Hm. apply map_lookup_filter_Some. cbn. split; [|lia].
    rewrite lookup_insert_ne by lia. apply Hs. lia.
  - unfold remember. case_bool_decide; [by split|]. split; cbn; [lia|]. intros Hm. apply Hs. lia.
  - unfold remember_all, open_key. destruct (e_dedupe e !! key); [by split|]. destruct (e_dedupeKeys e); [by split|].
    by destruct (_ <=? _).
Qed.
Lemma awake_marked mark D session l s e : awake session l s -> s !! session = Some e -> marked mark D e ->
  exists e', run_events l s !! session = Some e' /\ marked mark D e'.
Proof.
  revert s e; induction l as [|ev l IH]; intros s e Ha He Hm; [by exists e|]. destruct Ha as [Ha Hl].
  pose proof (awake_step session s ev Ha) as Hs. rewrite He in Hs. case_bool_decide.
  - eapply IH; [exact Hl|exact Hs|]. cbn [default from_option]. apply change_marked. by destruct Hm as [? Hm].
  - by eapply IH.
Qed.
Definition denoted (D : gmap gostring gostring) : list QItem :=
  sortOn compareString q_ID (map (fun '(id, rev) => candidate id rev) (map_to_list D)).
Lemma mark_taken session (o : MapOrder) now s : session <> [] -> attended session now s ->
  exists e, run_event s (mkEvent o now (CallNextMark session)) !! session = Some e /\
    marked (NextMark session now s).1 (memory session s) e.
Proof.
  intros Hs Ha. set (ev := mkEvent o now (CallNextMark session)). pose proof (awake_step session s ev Ha) as Hstep.
  cbn [ev ev_call call_session ev_now ev_order] in Hstep. rewrite (proj2 (streq_false session [])) in Hstep by done.
  rewrite bool_decide_true in Hstep by done. eexists. split; [exact Hstep|]. unfold NextMark.
  rewrite (proj2 (streq_false session [])) by done. rewrite entry_room by apply Ha. cbn [fst]. unfold opened.
  rewrite attended_opened by done. cbn [call_change]. split; cbn; [lia|]. intros _. apply map_lookup_filter_Some. cbn.
  split; [|lia]. rewrite lookup_insert_eq. unfold memory. by destruct (s !! session).
Qed.

(** * What is withheld *)
Definition reported session key id rev l : Prop :=
  exists ev items item, ev ∈ l /\ ev_call ev = CallRememberDedupe session key items /\ item ∈ items /\ q_ID item = id /\ Rev item = rev.
Lemma remember_items_known `{MapOrder} items known id rev :
  foldl remember_item known items !! id = Some rev ->
  known !! id = Some rev \/ exists item, item ∈ items /\ q_ID item = id /\ Rev item = rev.
Proof.
  revert known; induction items as [|i items IH]; intros known Hl; [by left|].
  destruct (IH _ Hl) as [Hk|(item & Hin & ?)]; [|right; exists item; split; [by right|done]].
  unfold remember_item in Hk. destruct (streq (q_ID i) []); [by left|].
  apply lookup_insert_Some in Hk as [[<- <-]|[_ Hk]]; [right; exists i; split; [by left|done]|]. left.
  destruct (_ && _); [|done]. destruct (visit known); [done|]. by apply lookup_delete_Some in Hk as [_ ?].
Qed.
Lemma open_key_known key e key' known : e_dedupe (open_key key e) !! key' = Some known ->
  e_dedupe e !! key' = Some known \/ (key' = key /\ known = ∅ /\ e_dedupe e !! key = None).
Proof.
  unfold open_key. destruct (e_dedupe e !! key) eqn:Ek; [by left|].
  assert (forall d : gmap gostring (gmap gostring gostring), (forall k v, d !! k = Some v -> e_dedupe e !! k = Some v) -> <[key:=∅]> d !! key' = Some known ->
    e_dedupe e !! key' = Some known \/ (key' = key /\ known = ∅ /\ None = @None (gmap gostring gostring))) as Hgoal.
  { intros d Hd. rewrite lookup_insert_Some. intros [[<- <-]|[_ E]]; [by right|left; by apply Hd]. }
  destruct (e_dedupeKeys e) as [|oldest rest]; [by apply Hgoal|]. destruct (_ <=? _); [|by apply Hgoal].
  apply Hgoal. by intros k v [_ ?]%lookup_delete_Some.
Qed.
Lemma run_reported l session e key known id rev : run_events l NewSessionState !! session = Some e ->
  e_dedupe e !! key = Some known -> known !! id = Some rev -> reported session key id rev l.
Proof.
  intros He. revert key known id rev.
  apply (session_invariant (fun l session e => forall key known id rev,
    e_dedupe e !! key = Some known -> known !! id = Some rev -> reported session key id rev l)); [..|exact He]; clear.
  - intros l ev session e HP key known id rev H1 H2. destruct (HP _ _ _ _ H1 H2) as (v & items & item & Hin & Hr).
    exists v, items, item. split; [|done]. apply elem_of_app. by left.
  - done.
  - intros l session now e HP. exact HP.
  - intros l ev session e Hc HP key known id rev Hk Hid.
    assert (Hold : forall known', e_dedupe e !! key = Some known' -> known' !! id = Some rev -> reported session key id rev (l ++ [ev])).
    { intros known' H1 H2. destruct (HP _ _ _ _ H1 H2) as (v & items & item & Hin & Hr).
      exists v, items, item. split; [|done]. apply elem_of_app. by left. }
    destruct ev as [o now c]. cbn [ev_call ev_order] in *. destruct c as [| |s i| | |s key' items|]; cbn [call_change] in Hk; try by eapply Hold.
    { unfold remember in Hk. case_bool_decide; by eapply Hold. }
    cbn [call_session] in Hc. destruct (_ || _); [done|]. injection Hc as ->.
    unfold remember_all in Hk. cbn [e_dedupe] in Hk. apply lookup_insert_Some in Hk as [[<- <-]|[_ Hk]].
    + apply remember_items_known in Hid as [Hid|(item & Hin & ? & ?)].
      * destruct (e_dedupe (open_key key' e) !! key') as [known|] eqn:Ek; [|done]. cbn [default] in Hid.
        apply open_key_known in Ek as [Ek|(_ & -> & _)]; [by eapply Hold|done].
      * eexists _, items, item. split_and!; [apply elem_of_app; right; by apply list_elem_of_singleton|done..].
    + apply open_key_known in Hk as [Hk|(_ & -> & _)]; [by eapply Hold|done].
Qed.
End log.

(** * Properties *)
Section properties.
Context `{UnicodeTables}.

Lemma remember_items_found `{MapOrder} items : forall known, size known + length items <= 4096 -> NoDup (map q_ID items) ->
  (forall item, item ∈ items -> q_ID item <> [] -> foldl remember_item known items !! q_ID item = Some (Rev item)) /\
  (forall id, id ∉ map q_ID items -> foldl remember_item known items !! id = known !! id).
Proof.
  induction items as [|i items IH]; intros known Hs Hnd; [by split; [intros ? ?%elem_of_nil|]|].
  cbn [map length foldl] in *. apply NoDup_cons in Hnd as [Hi Hnd].
  assert (Hstep : remember_item known i = if streq (q_ID i) [] then known else <[q_ID i := Rev i]> known).
  { unfold remember_item. by rewrite (proj2 (Nat.leb_gt _ _)), andb_false_r by lia. }
  destruct (IH (remember_item known i)) as [Hin Hout]; [|done|].
  { rewrite Hstep. destruct (streq _ _); [lia|]. rewrite map_size_insert. destruct (known !! q_ID i); unfold id; lia. }
  split.
  - intros item [->|Hitem]%elem_of_cons Hne; [|by apply Hin]. rewrite Hout, Hstep by done.
    rewrite (proj2 (streq_false _ _)) by done. apply lookup_insert_eq.
  - intros j [Hj Hjs]%not_elem_of_cons. rewrite Hout, Hstep by done. destruct (streq _ _); [done|].
    by rewrite lookup_insert_ne.
Qed.

(** Whatever calls are made, at whatever times, the memory of the sessions stays bounded:
    at most 200 sessions, and of each at most 65 snapshots, 4096 revisions in its history,
    and 32 queries with 4096 items each; the queue of queries lists exactly those in the table. *)
Theorem session_bounded (l : list session_event) :
  size (run_events l NewSessionState) <= 200 /\
  map_Forall (fun _ e => size (e_snapshots e) <= 65 /\ length (e_history e) <= 4096 /\ NoDup (e_dedupeKeys e) /\
    length (e_dedupeKeys e) <= 32 /\ dom (e_dedupe e) = list_to_set (e_dedupeKeys e) /\
    map_Forall (fun _ known => size known <= 4096) (e_dedupe e)) (run_events l NewSessionState).
Proof.
  split; [apply run_size|]. intros session e He. apply run_bounds in He. split_and!; try apply He.
  - destruct (eb_snapshots e He) as (top & _ & Hw). apply (window_size _ (top - 64)). intros k Hk. apply Hw in Hk. lia.
  - apply set_eq. intros key. by rewrite elem_of_dom, elem_of_list_to_set, (eb_dedupe e He).
  - intros key known. by apply (eb_known e He).
Qed.

(** C21: a mark denotes what its session had been given when the mark was returned: while the
    session is neither idle nor crowded out, and its counter is at most 64 past the mark,
    the candidates for change since the mark are the last revisions of the items remembered
    before it, in the order of their identifiers; and an item counts as seen exactly at the
    last revision that was remembered. *)
Theorem marks_denote (session : gostring) (l1 l2 : list session_event) (order order' : MapOrder) (now now' : Z) (e : sessionEntry) :
  session <> [] ->
  let before := run_events l1 NewSessionState in
  let mark := (@NextMark order session now before).1 in
  let l := l1 ++ mkEvent order now (CallNextMark session) :: l2 in
  let after := run_events l NewSessionState in
  awake session l NewSessionState -> attended session now' after -> after !! session = Some e -> (e_mark e <= mark + 64)%Z ->
  (@ChangedCandidates order' session mark now' after).1 = denoted (told session l1) /\
  (forall id rev, id <> [] -> rev <> [] -> (@Seen order' session id rev now' after).1 = bool_decide (told session l !! id = Some rev)).
Proof.
  intros Hs before mark l after Hawake Hnow He Hmark. assert (Hall := Hawake). apply awake_app in Hawake as [H1 [Htake H2]]. cbn [ev_now] in Htake.
  destruct (mark_taken session order now before Hs Htake) as (e1 & He1 & Hm1). fold mark in Hm1.
  destruct (awake_marked _ _ _ _ _ _ H2 He1 Hm1) as (e2 & He2 & Hm2).
  assert (after = run_events l2 (run_event before (mkEvent order now (CallNextMark session)))) as Hafter.
  { unfold after, l, run_events. by rewrite foldl_app. }
  change (run_events l1 NewSessionState) with before in He2. assert (e2 = e) as -> by (rewrite <- Hafter in He2; congruence).
  assert (Htold : memory session before = told session l1) by apply (awake_memory session l1 NewSessionState H1).
  rewrite Htold in Hm2. destruct Hm2 as [_ Hm2]. specialize (Hm2 Hmark). unfold ChangedCandidates, Seen.
  rewrite (proj2 (streq_false session [])) by done. rewrite entry_room by apply Hnow.
  unfold opened. rewrite attended_opened, He by done. cbn [orb default from_option fst e_snapshots touch id]. rewrite Hm2. split; [done|].
  intros id rev Hid Hrev. rewrite (proj2 (streq_false id [])), (proj2 (streq_false rev [])) by done. rewrite touch_delivered. cbn [orb fst].
  pose proof (awake_memory session l NewSessionState Hall) as Ha. fold after in Ha. unfold memory in Ha at 1. rewrite He in Ha. cbn in Ha.
  change (foldl (tell session) (memory session NewSessionState) l) with (told session l) in Ha. rewrite Ha.
  unfold streq. apply bool_decide_ext. destruct (told session l !! id); cbn; naive_solver.
Qed.

(** C22: deduplication withholds an item with a revision only if this revision of it was
    reported as delivered to the same session for the same query, keeps the others in their
    order.  Right after the first delivery for a query, of at most 4096 items with different
    identities, to a session that is attended, all of them are withheld. *)
Theorem dedupe_withholds (session key : gostring) (l : list session_event) (order order' : MapOrder) (now now' : Z) (items : list QItem) :
  (let kept := (@FilterDedupe _ order session key items now (run_events l NewSessionState)).1 in
   kept `sublist_of` items /\
   forall item, item ∈ items -> Rev item <> [] -> item ∉ kept -> reported session key (q_ID item) (Rev item) l) /\
  (session <> [] -> key <> [] -> length items <= 4096 -> NoDup (map q_ID items) ->
   let before := run_events l NewSessionState in
   let after := @RememberDedupe _ order session key items now before in
   attended session now before -> attended session now' after -> (forall e, before !! session = Some e -> e_dedupe e !! key = None) ->
   forall item, item ∈ items -> q_ID item <> [] -> item ∉ (@FilterDedupe _ order' session key items now' after).1).
Proof.
  split.
  - intros kept. subst kept. unfold FilterDedupe. destruct (_ || _).
    { split; [done|]. intros item Hi _ Hk. done. }
    destruct (@entry_spec order session now (run_events l NewSessionState)) as (s' & -> & _). cbn [fst].
    split; [apply sublist_filter|]. intros item Hi Hrev Hk. rewrite list_elem_of_filter in Hk.
    destruct (unknown _ item) eqn:E; [tauto|]. unfold unknown in E. unfold opened in E.
    destruct (expire now _ !! session) as [e|] eqn:Ee; [|done]. cbn [default from_option e_dedupe touch id] in E.
    destruct (e_dedupe e !! key) as [known|] eqn:Ek; [|done]. apply negb_false_iff, streq_true in E.
    destruct (known !! q_ID item) as [rev|] eqn:Eid; cbn in E; [|congruence]. subst rev.
    apply expire_lookup in Ee as [Ee _]. by eapply run_reported.
  - intros Hs Hkey Hlen Hnd before after Hb Ha Hnone item Hi Hid. unfold FilterDedupe.
    rewrite (proj2 (streq_false session [])), (proj2 (streq_false key [])) by done. cbn [orb].
    rewrite (@entry_room order' session now' after) by apply Ha. cbn [fst]. rewrite list_elem_of_filter. intros [Hu _].
    unfold opened in Hu. rewrite attended_opened in Hu by done.
    assert (exists e, after !! session = Some e /\ e_dedupe e !! key = Some (foldl (@remember_item _ order) ∅ items)) as (e & He & Hk).
    { unfold after, RememberDedupe. rewrite (proj2 (streq_false session [])), (proj2 (streq_false key [])) by done.
      destruct items as [|i items]; [by apply elem_of_nil in Hi|]. cbn [orb length Nat.eqb].
      rewrite (@entry_room order session now before) by apply Hb. rewrite lookup_insert_eq. eexists. split; [reflexivity|]. cbn [e_dedupe].
      rewrite lookup_insert_eq. f_equal. unfold opened. rewrite attended_opened by done.
      destruct (e_dedupe (open_key key _) !! key) as [known|] eqn:Eo; cbn [default from_option id]; [|done].
      apply open_key_known in Eo as [Eo|(_ & -> & _)]; [|done]. cbn [e_dedupe touch] in Eo.
      destruct (before !! session) as [e|] eqn:Ee; cbn in Eo; [|done]. by rewrite (Hnone e) in Eo. }
    rewrite He in Hu. cbn [default from_option e_dedupe touch unknown id] in Hu. rewrite Hk in Hu. cbn [unknown] in Hu.
    assert (forall item, item ∈ items -> q_ID item <> [] -> foldl (@remember_item _ order) ∅ items !! q_ID item = Some (Rev item)) as Hin by (apply remember_items_found; [by rewrite map_size_empty|done]).
    rewrite (Hin item Hi Hid) in Hu. cbn [default from_option] in Hu. by rewrite streq_refl in Hu.
Qed.
End properties.

Module Example_session.
#[local] Existing Instance latin_tables.
#[local] Instance in_order : MapOrder := {| visit A m := (map_to_list m).*1; visit_keys A m := reflexivity _ |}.

Definition item (id rev : gostring) : QItem := set_identity id rev noItem.
Definition at_ (minute : Z) (c : session_call) : session_event := mkEvent in_order (minute * 60 * 1000000000) c.
Definition attendedb (session : gostring) (now : Z) (s : SessionState) : bool :=
  (size s <? sessionLimit) && match s !! session with Some e => fresh_enough now e | None => true end.
Fixpoint awakeb (session : gostring) (l : list session_event) (s : SessionState) : bool :=
  match l with [] => true | ev :: l => attendedb session (ev_now ev) s && awakeb session l (run_event s ev) end.
Lemma attendedb_true session now s : attendedb session now s = true -> attended session now s.
Proof.
  unfold attendedb, attended. intros [Hs%Nat.ltb_lt He]%andb_true_iff. split; [done|]. intros e E. by rewrite E in He.
Qed.
Lemma awakeb_true session l s : awakeb session l s = true -> awake session l s.
Proof.
  revert s; induction l as [|ev l IH]; intros s; [done|]. cbn [awakeb awake].
  intros [H1 H2]%andb_true_iff. split; [by apply attendedb_true|by apply IH].
Qed.

(** Two items are read, a mark is taken, one of them is read again after a change. *)
Definition reading : list session_event :=
  [at_ 1 (CallRemember "s" (item "a" "1")); at_ 2 (CallRemember "s" (item "b" "1"))].
Definition later : list session_event := [at_ 9 (CallRemember "s" (item "b" "2")); at_ 10 (CallNextMark "s")].
Definition remembered : SessionState :=
  run_events (reading ++ mkEvent in_order (3 * 60 * 1000000000) (CallNextMark "s") :: later) NewSessionState.
Lemma marks_denote_witness : exists e, remembered !! ("s" : gostring) = Some e /\
  (ChangedCandidates "s" 3 (12 * 60 * 1000000000) remembered).1 = [candidate "a" "1"; candidate "b" "1"].
Proof.
  eexists. split; [vm_compute; reflexivity|].
  refine (eq_trans (proj1 (marks_denote "s" reading later in_order in_order (3 * 60 * 1000000000) (12 * 60 * 1000000000) _ _ _ _ _ _)) _).
  - done.
  - apply awakeb_true. by vm_compute.
  - apply attendedb_true. by vm_compute.
  - vm_compute. reflexivity.
  - by vm_compute.
  - by vm_compute.
Defined.

Definition ten_minutes : Z := 10 * 60 * 1000000000.
Definition delivery : list QItem := [item "a" "1"; item "b" "1"].
Lemma dedupe_withholds_witness :
  item "b" "1" ∉ (FilterDedupe "s" "k" delivery ten_minutes (RememberDedupe "s" "k" delivery 0 NewSessionState)).1.
Proof.
  refine (proj2 (dedupe_withholds "s" "k" [] in_order in_order 0 ten_minutes delivery) _ _ _ _ _ _ _ _ _ _).
  - done.
  - done.
  - cbn. lia.
  - repeat constructor; set_solver.
  - apply attendedb_true. by vm_compute.
  - apply attendedb_true. by vm_compute.
  - done.
  - set_solver.
  - done.
Defined.

(** An item without a revision, as those of files that cannot be read, is withheld although it
    was never delivered, once anything else was delivered for the query. *)
Example revisionless_withheld :
  (FilterDedupe "s" "k" [item "a" "1"; item "new" []] ten_minutes (RememberDedupe "s" "k" [item "a" "1"] 0 NewSessionState)).1 = [].
Proof. vm_compute. reflexivity. Qed.
(** A mark is gone when 65 items were read after it: nothing seems to have changed since. *)
Definition many : list session_event := map (fun i => at_ 5 (CallRemember "s" (item (itoa (Z.of_nat i)) "1"))) (seq 0 65).
Example mark_expires :
  (ChangedCandidates "s" 3 ten_minutes (run_events (reading ++ [at_ 3 (CallNextMark "s")] ++ many) NewSessionState)).1
    = [candidate "a" "1"; candidate "b" "1"] /\
  (ChangedCandidates "s" 3 ten_minutes (run_events (reading ++ [at_ 3 (CallNextMark "s")] ++ many ++ [at_ 6 (CallNextMark "s")]) NewSessionState)).1
    = [].
Proof. by vm_compute. Qed.
(** The marks of a session that was idle are given again, for another memory. *)
Example mark_reused :
  let s := run_events (reading ++ [at_ 3 (CallNextMark "s"); at_ 60 (CallRemember "s" (item "c" "1"));
                                   at_ 60 (CallRemember "s" (item "d" "1")); at_ 60 (CallNextMark "s")]) NewSessionState in
  (ChangedCandidates "s" 3 (61 * 60 * 1000000000) s).1 = [candidate "c" "1"; candidate "d" "1"].
Proof. by vm_compute. Qed.
End Example_session.
