(* ===== verification/QCursor.v ===== *)
(** The cursors of q-v1 pages (internal/service/primitives_cursor.go): signed claims about a
    query, a workspace, a generation and an offset, that expire after ten minutes. *)
From S2P Require Import Prelude GoStrings GoStringFacts GoNum GoBase64.

Local Open Scope go_scope.

Record qCursorClaims := mkClaims {
  cl_Query : gostring; cl_Workspace : gostring; cl_Generation : gostring; cl_Offset : Z; cl_Expires : Z }.
(** encoding/json on the claims. *)
Class ClaimsJSON := {
  json_claims : qCursorClaims -> gostring;
  unjson_claims : gostring -> option qCursorClaims }.
(** The 32 random bytes of the process. *)
Class CursorKey := { qCursorKey : list ascii; qCursorKey_length : length qCursorKey = 32 }.

(** Seconds since 1970, of nanoseconds since the year 1. *)
Definition unixSeconds (t : Z) : Z := (t / 1000000000 - 62135596800)%Z.
Definition minutes (n : Z) : Z := (n * 60 * 1000000000)%Z.

Section cursor.
Context `{UnicodeTables} `{SHA256} `{ClaimsJSON} `{CursorKey}.

(** crypto/hmac with SHA-256, whose blocks have 64 bytes. *)
Definition padded_key (mask : ascii) (key : list ascii) : list ascii :=
  map (xorByte mask) (key ++ repeat (zb 0) (64 - length key)).
Definition hmac (key message : list ascii) : digest :=
  sha256 (padded_key (zb 92) key ++ sha256 (padded_key (zb 54) key ++ message)).

Definition qQueryDigest (query : gostring) : gostring := b64_encode (sha256 (trimSpace query)).
Definition signQCursor (now : Z) (query workspace generation : gostring) (offset : Z) : gostring :=
  let claims := mkClaims (qQueryDigest query) workspace generation offset (unixSeconds (now + minutes 10)) in
  let body := b64_encode (json_claims claims) in
  "q1." ++ body ++ "." ++ b64_encode (hmac qCursorKey body).
Definition verifyQCursor (now : Z) (token query workspace : gostring) : result gostring qCursorClaims :=
  match splitByte token "." with
  | [version; body; sig] =>
      let invalid := Err ("cursor_invalid" : gostring) in
      if negb (streq version "q1") then invalid
      else
        match b64_decode sig with
        | None => invalid
        | Some mac =>
            if negb (streq mac (hmac qCursorKey body)) then invalid
            else
              match raw ← b64_decode body; unjson_claims raw with
              | None => invalid
              | Some claims =>
                  if (cl_Expires claims <? unixSeconds now)%Z then Err ("cursor_expired" : gostring)
                  else if negb (streq (cl_Query claims) (qQueryDigest query)) || negb (streq (cl_Workspace claims) workspace)
                          || (cl_Offset claims <? 0)%Z
                  then invalid
                  else Ok claims
              end
        end
  | _ => Err ("cursor_invalid" : gostring)
  end.

(** What the documentation of encoding/json promises: valid text is read back. *)
Definition claims_read_back : Prop :=
  forall c, validString (cl_Workspace c) = true -> validString (cl_Generation c) = true ->
    (exists d, cl_Query c = b64_encode d) -> unjson_claims (json_claims c) = Some c.

(** * Facts *)
Lemma b64_no_dot s : "."%char ∉ b64_encode s.
Proof.
  unfold b64_encode. intros (v & E & _)%list_elem_of_fmap. unfold b64_digit in E.
  destruct (nth_in_or_default (Z.to_nat v) b64_alphabet "A"%char) as [Hin|Hd]; [|by rewrite Hd in E].
  rewrite <- E in Hin. assert (forallb (fun c => negb (Ascii.eqb c ".")) b64_alphabet = true) as Hall by done.
  rewrite forallb_forall in Hall. by specialize (Hall _ Hin).
Qed.
Lemma token_parts body sig : splitByte ("q1." ++ b64_encode body ++ "." ++ b64_encode sig) "." = ["q1" : gostring; b64_encode body; b64_encode sig].
Proof.
  change ("q1." ++ b64_encode body ++ "." ++ b64_encode sig : gostring) with (("q1" : gostring) ++ "."%char :: (b64_encode body ++ "."%char :: b64_encode sig)).
  rewrite !splitByte_app by (try apply b64_no_dot; set_solver). by rewrite splitByte_free by apply b64_no_dot.
Qed.
(** What [verifyQCursor] checks of a signed cursor. *)
Lemma verify_signed now now' query query' workspace workspace' generation offset : claims_read_back ->
  validString workspace = true -> validString generation = true ->
  verifyQCursor now' (signQCursor now query workspace generation offset) query' workspace' =
    let claims := mkClaims (qQueryDigest query) workspace generation offset (unixSeconds (now + minutes 10)) in
    if (unixSeconds (now + minutes 10) <? unixSeconds now')%Z then Err ("cursor_expired" : gostring)
    else if negb (streq (qQueryDigest query) (qQueryDigest query')) || negb (streq workspace workspace') || (offset <? 0)%Z
    then Err ("cursor_invalid" : gostring) else Ok claims.
Proof.
  intros Hjson Hw Hg. unfold verifyQCursor, signQCursor. cbv zeta. rewrite token_parts, !b64_roundtrip, !streq_refl.
  cbn [negb mbind option_bind]. rewrite Hjson; [done|done|done|by eexists].
Qed.

(** C20: a cursor is read back as it was signed: within ten minutes, by the same process, for
    the same query up to surrounding space and the same workspace, it gives the generation
    and the offset it was made for; after that it has expired, and for another workspace or
    query it is invalid, unless two queries have one SHA-256. *)
Theorem cursor_roundtrip (now now' : Z) (query query' workspace workspace' generation : gostring) (offset : Z) :
  claims_read_back -> validString workspace = true -> validString generation = true -> (0 <= offset)%Z ->
  let answer := verifyQCursor now' (signQCursor now query workspace generation offset) query' workspace' in
  ((unixSeconds now' <= unixSeconds (now + minutes 10))%Z -> trimSpace query = trimSpace query' -> workspace = workspace' ->
     exists claims, answer = Ok claims /\ cl_Generation claims = generation /\ cl_Offset claims = offset) /\
  ((unixSeconds (now + minutes 10) < unixSeconds now')%Z -> answer = Err ("cursor_expired" : gostring)) /\
  (is_ok answer = true -> workspace = workspace' /\ (trimSpace query = trimSpace query' \/ collision sha256)).
Proof.
  intros Hjson Hw Hg Ho answer. subst answer. rewrite verify_signed by done. cbv zeta. split_and!.
  - intros Ht Hq ->. rewrite (proj2 (Z.ltb_ge _ _)) by done. unfold qQueryDigest. rewrite Hq, !streq_refl.
    rewrite (proj2 (Z.ltb_ge _ _)) by done. cbn [negb orb]. by eexists.
  - intros Ht. by rewrite (proj2 (Z.ltb_lt _ _)) by done.
  - destruct (_ <? _)%Z; [done|]. destruct (streq (qQueryDigest query) _) eqn:E1; [|done].
    destruct (streq workspace workspace') eqn:E2; [|done]. intros _. split; [by apply streq_true in E2|].
    apply streq_true in E1. unfold qQueryDigest in E1. apply (f_equal b64_decode) in E1. rewrite !b64_roundtrip in E1.
    injection E1 as E1. destruct (decide (trimSpace query = trimSpace query')); [by left|]. right. by exists (trimSpace query), (trimSpace query').
Qed.

(** nothing is accepted that does not carry the signature of the process over its claims:
    an accepted token is a body and the HMAC of this body under the key, and what the body
    says is for this query and workspace, not expired, with an offset that is not negative. *)
Theorem cursor_signed (now : Z) (token query workspace : gostring) (claims : qCursorClaims) :
  verifyQCursor now token query workspace = Ok claims ->
  exists body sig, splitByte token "." = ["q1" : gostring; body; sig] /\ b64_decode sig = Some (hmac qCursorKey body) /\
    (raw ← b64_decode body; unjson_claims raw) = Some claims /\ cl_Query claims = qQueryDigest query /\
    cl_Workspace claims = workspace /\ (0 <= cl_Offset claims)%Z /\ (unixSeconds now <= cl_Expires claims)%Z.
Proof.
  unfold verifyQCursor. destruct (splitByte token ".") as [|version [|body [|sig [|]]]]; try done.
  destruct (streq version "q1") eqn:Ev; [|done]. apply streq_true in Ev as ->. cbn [negb].
  destruct (b64_decode sig) as [mac|] eqn:Es; [|done]. destruct (streq mac _) eqn:Em; [|done]. apply streq_true in Em as ->. cbn [negb].
  destruct (raw ← b64_decode body; unjson_claims raw) as [c|] eqn:Eb; [|done].
  destruct (_ <? _)%Z eqn:Ex; [done|]. destruct (_ || _) eqn:Ec; [done|]. intros [= <-]. bool_to_prop.
  exists body, sig. split_and!; try done; try lia; by apply streq_true.
Qed.
End cursor.
