(* ===== verification/QPrimitives.v ===== *)
(** The stages of q-v1 pipelines (internal/service/primitives_q.go, primitives_convert.go and
    primitives_edges.go): from what the services of the workspace answer to items, and from
    items to items.

    A stage runs in [Q]: it asks the outside world, whose answers depend on how often it was
    asked, and uses the memory of the session.  [filtered := items[:0]] writes over the list
    that it filters, which nobody reads again, so lists are values here. *)
From S2P Require Import Prelude GoStrings GoStringFacts GoPath GoSort GoNum QueryParser Ids QItem QSession.

Local Open Scope go_scope.

(** * The world *)

(** A row of a service as encoding/json reads it back: numbers are truncated when they are
    used, and arrays and objects are never used. *)
Inductive jfield := JText (s : gostring) | JNumber (z : Z) | JFlag (b : bool) | JOther.
Abbreviation jrow := (gmap gostring jfield).
(** What is used of a service's [model.Envelope]; the rows are missing when they are not a
    list of objects. *)
Record service_answer := mkAnswer {
  sa_Ok : bool; sa_failed : bool; sa_rows : option (list jrow); sa_Backend : gostring; sa_FallbackUsed : gostring;
  sa_GenerationID : gostring; sa_Truncated : bool }.
Inductive payload := PText (s : gostring) | PInt (z : Z) | PBool (b : bool) | PTexts (l : list gostring).
(** A symbol of the catalog. *)
Record catalog_symbol := mkCatalogSymbol {
  cs_record : SymbolRecord; cs_Kind : gostring; cs_StartLine : Z; cs_EndLine : Z; cs_Language : gostring; cs_Signature : gostring }.
Inductive ctx_error := Canceled | DeadlineExceeded.
(** The answers of the outside world, by the number of questions asked before. *)
Class World := {
  now_at : nat -> Z;
  ctx_Err : nat -> option ctx_error;
  (** [App.Execute]; [None] is an error. *)
  execute : nat -> gostring -> list (gostring * payload) -> option service_answer;
  read_file : nat -> gostring -> option gostring;
  (** [getGitFileChangeTypes], the changed files. *)
  changed_files : nat -> gostring -> option (list gostring);
  (** [resolveWorkspaceWithProjectForNavigation] and [openWorkspaceDB]. *)
  workspace_opens : nat -> bool;
  symbols_by_file : nat -> gostring -> option (list catalog_symbol) }.

(** Questions asked so far, and the sessions of the process, if it has any. *)
Record qstate := mkQState { qs_asked : nat; qs_sessions : option SessionState }.
Definition Q (A : Type) : Type := qstate -> A * qstate.
#[export] Instance Q_ret : MRet Q := fun _ a s => (a, s).
#[export] Instance Q_bind : MBind Q := fun _ _ f m s => let '(a, s) := m s in f a s.
Definition ask {A} (f : nat -> A) : Q A := fun s => (f (qs_asked s), mkQState (S (qs_asked s)) (qs_sessions s)).

Record qExecution := mkExecution {
  x_items : list QItem; x_reason : gostring; x_fallback : gostring; x_generation : gostring; x_truncated : bool }.
Definition found (items : list QItem) : qExecution := mkExecution items [] [] [] false.
Definition failed_with (items : list QItem) (reason : gostring) : qExecution := mkExecution items reason [] [] false.
Definition stage_failed : qExecution := failed_with [] "stage_failed".

(** * Small functions *)
Definition qPublicReason (reason : gostring) : gostring :=
  if oneOf reason ["timeout"; "cancelled"; "cursor_invalid"; "cursor_expired"; "snapshot_changed"; "stage_failed";
                   "max_bytes_item_exceeded"; []] then reason
  else "stage_failed".
Definition qEnvReason (env : service_answer) : gostring := if sa_failed env || negb (sa_Ok env) then "stage_failed" else [].
Definition qContextCode (e : ctx_error) : gostring := match e with Canceled => "cancelled" | DeadlineExceeded => "timeout" end.
Definition firstArg (s : Stage) : gostring := arg0 s.
Definition flag (s : Stage) (name : gostring) : bool := default false (Flags s !! name).
(** [n, _ := strconv.ParseInt(v, 10, 64)]: the bounds are kept when a number is too large. *)
Definition parseInt (v : gostring) : Z :=
  match atoi v with
  | Some n => n
  | None =>
      let '(neg, body) := if hasPrefix v "-" then (true, drop 1 v) else (false, trimPrefix v "+") in
      match body with
      | [] => 0
      | _ => if forallb isDigitByte body then if neg : bool then MIN_INT64 else MAX_INT64 else 0
      end
  end.
Definition parseSince (s : Stage) : Z :=
  match filter (fun arg => hasPrefix arg "since=" = true) (Args s) with
  | arg :: _ => parseInt (trimPrefix arg "since=")
  | [] => if streq (opt s "since") [] then 0%Z else parseInt (opt s "since")
  end.
Definition after_last_dot (s : gostring) : gostring :=
  match lastIndexByte s "." with Some i => drop (S i) s | None => s end.
Fixpoint stringValue (m : jrow) (keys : list gostring) : gostring :=
  match keys with
  | [] => []
  | key :: keys => match m !! key with Some (JText ((_ :: _) as v)) => v | _ => stringValue m keys end
  end.
Fixpoint intValue (m : jrow) (keys : list gostring) : Z :=
  match keys with
  | [] => 0
  | key :: keys => match m !! key with Some (JNumber z) => z | _ => intValue m keys end
  end.
Definition is_true (m : jrow) (key : gostring) : bool := match m !! key with Some (JFlag b) => b | _ => false end.
Definition validQRevision (value : gostring) : bool := (length value =? IDRevLen) && forallb isHexByte value.
Definition parseQRange (value : gostring) : option (gostring * Z * Z) :=
  match lastIndexByte value ":", lastIndexByte value "-" with
  | Some (S _ as colon), Some dash =>
      if dash <=? colon then None
      else match atoi (drop (S colon) (take dash value)), atoi (drop (S dash) value) with
           | Some start, Some end_ => if (start <? 1)%Z || (end_ <? start)%Z then None else Some (take colon value, start, end_)
           | _, _ => None
           end
  | _, _ => None
  end.

(** The order in which the workers of a stage end their jobs is any. *)
Class Schedule := { job_order : nat -> list nat; job_order_perm n : job_order n ≡ₚ seq 0 n }.

Section stages.
Context `{UnicodeTables} `{SHA256} `{MapOrder} `{World} `{Schedule}.

Definition ctx_done : Q (option gostring) := ask (fun n => qContextCode <$> ctx_Err n).
Definition clock : Q Z := ask now_at.
Definition qCall (operation : gostring) (p : list (gostring * payload)) : Q (option service_answer) :=
  ask (fun n => execute n operation p).
(** The sessions of the process, if there are any. *)
Definition on_sessions {A} (none : A) (f : Z -> SessionState -> A * SessionState) : Q A :=
  fun s =>
    let '(now, s) := clock s in
    match qs_sessions s with
    | None => (none, s)
    | Some st => let '(a, st) := f now st in (a, mkQState (qs_asked s) (Some st))
    end.

(** * Files and rows *)
Definition fileRevision (root file : gostring) (start end_ : Z) : Q gostring :=
  if streq root [] then mret []
  else
    let clean := pathClean (pathJoin [root; file]) in
    match pathRel (pathClean root) clean with
    | None => mret []
    | Some rel =>
        if streq rel ".." || hasPrefix rel "../" then mret []
        else
          data ← ask (fun n => read_file n clean);
          mret match data with
               | None => []
               | Some data =>
                   let lines := splitByte (replaceAll (replaceAll data [CR; LF] [LF]) [CR] [LF]) LF in
                   let start := Z.max 1 start in
                   let end_ := Z.max start end_ in
                   if (Z.of_nat (length lines) <? start)%Z then []
                   else RevOfLines (take (Z.to_nat (Z.min end_ (Z.of_nat (length lines)) - start + 1)) (drop (Z.to_nat (start - 1)) lines))
               end
    end.
(** [None]: outside the workspace. *)
Definition qRelativeFile (root file : gostring) : option gostring :=
  let file := replaceByte file BSLASH "/" in
  if streq file [] then Some []
  else
    file ← (if isAbs file
            then if streq root [] then None
                 else rel ← pathRel root file; if streq rel ".." || hasPrefix rel "../" then None else Some rel
            else Some file);
    let file := pathClean file in
    if streq file "." || hasPrefix file "../" then None else Some file.
Definition file_of (root : gostring) (row : jrow) : option gostring := qRelativeFile root (stringValue row ["file_path"; "file"; "path"]).
Definition name_of (row : jrow) : gostring := stringValue row ["qualified_name"; "name"; "symbol"; "doc_id"; "title"].
Definition row_key (root : gostring) (backend : gostring) (row : jrow) : option (gostring * gostring) :=
  file ← file_of root row;
  if negb (streq file []) && negb (streq (name_of row) []) && streq (stringValue row ["doc_id"]) [] && negb (streq backend "text")
  then Some (file, name_of row) else None.
(** [counts[file+"#"+name]]: names of the same text count together. *)
Definition count_of (root backend : gostring) (rows : list jrow) (file name : gostring) : nat :=
  length (filter (fun k => k = Some (file ++ "#" ++ name)) (map (fun row => (fun k => k.1 ++ "#" ++ k.2) <$> row_key root backend row) rows)).

Definition item_of_row (wid root : gostring) (env : service_answer) (rows : list jrow) (row : jrow) : Q (option QItem) :=
  match file_of root row with
  | None => mret None
  | Some file0 =>
      let text_of keys := stringValue row keys in
      let docID := text_of ["doc_id"] in
      let kind := text_of ["kind"] in
      let line := intValue row ["line"; "start_line"] in
      let end_ := intValue row ["end_line"] in
      let file := if streq file0 [] && negb (streq docID []) then "_wiki/" ++ docID else file0 in
      let name := if streq (name_of row) [] then pathBase file else name_of row in
      let name := if negb (streq docID []) && negb (streq (text_of ["title"]) []) then text_of ["title"] else name in
      let qname := text_of ["qualified_name"] in
      let name := if streq qname [] then name
                  else SymbolQName (mkSymbol file name (text_of ["parent"]) qname []) in
      let origin := if streq (text_of ["origin"]) [] then sa_Backend env else text_of ["origin"] in
      let text := text_of ["text"; "content"; "snippet"; "evidence"] in
      let it := mkQItem [] [] false kind name file line end_ origin (text_of ["language"; "lang"]) (text_of ["parent"])
                  (text_of ["signature"]) (text_of ["title"]) (text_of ["layer"]) (intValue row ["score"]) text
                  false false false false None [] in
      let finish it := Some (set_stale (q_Stale it || is_true row "stale") (is_true row "missing") it) in
      let many := (1 <? count_of root (sa_Backend env) rows file (name_of row)) in
      if negb (streq docID []) then
        let rev := trimPrefix (toLower (text_of ["content_hash"])) "rev:" in
        let rev := if validQRevision rev then rev else if streq text [] then [] else RevOf text in
        mret (finish (set_origin "doc" origin
                (set_identity (String_ (StableDocumentID wid file docID rev)) (trimPrefix rev "rev:") it)))
      else if negb (streq file []) && (0 <? line)%Z then
        let stop := Z.max line end_ in
        rev ← fileRevision root file line stop;
        if streq (sa_Backend env) "text" || streq kind "text" || streq origin "text" then
          mret (finish (set_origin "text" origin (set_identity (String_ (StableRangeID wid file line stop rev)) rev it)))
        else
          let hash := toLower (text_of ["signature_hash"]) in
          let hash := if validQRevision hash || streq (text_of ["signature"]) [] then hash else RevOf (text_of ["signature"]) in
          if many && negb (validQRevision hash) then mret None
          else
            let record := mkSymbol file name [] (if streq qname [] then name else qname) hash in
            mret (finish (set_identity (String_ (StableSymbolID wid record rev many)) rev it))
      else mret (finish it)
  end.
Fixpoint concat_map {A B} (f : A -> Q (list B)) (l : list A) : Q (list B) :=
  match l with [] => mret [] | a :: l => b ← f a; bs ← concat_map f l; mret (b ++ bs) end.
Definition qItemsFromEnvelope (env : service_answer) (wid root : gostring) : Q (list QItem) :=
  match sa_rows env with
  | None => mret []
  | Some rows => concat_map (fun row => i ← item_of_row wid root env rows row; mret (match i with Some i => [i] | None => [] end)) rows
  end.
Definition execution_of (env : service_answer) (items : list QItem) : qExecution :=
  mkExecution items (qEnvReason env) (sa_FallbackUsed env) (sa_GenerationID env) (sa_Truncated env).

(** * Stages that start a pipeline *)
Definition qSym (s : Stage) (wid root : gostring) : Q qExecution :=
  let pattern := firstArg s in
  if streq pattern [] then mret stage_failed
  else
    let pattern := replaceByte pattern "*" "%" in
    let exact := flag s "exact" in
    let lookup := if exact then after_last_dot pattern else pattern in
    env ← qCall "nav.find" [("pattern" : gostring, PText lookup); ("kind" : gostring, PText (opt s "kind"));
                            ("exact" : gostring, PBool exact); ("repo" : gostring, PText (opt s "repo"))];
    match env with
    | None => mret stage_failed
    | Some env =>
        items ← qItemsFromEnvelope env wid root;
        mret (execution_of env (if exact && negb (streq lookup pattern) then filter (fun i => q_Name i = pattern) items else items))
    end.
Definition text_item (wid root : gostring) (i : QItem) : Q QItem :=
  let stop := Z.max (q_Line i) (q_EndLine i) in
  i ← (if (0 <? q_Line i)%Z
       then rev ← fileRevision root (q_File i) (q_Line i) stop;
            mret (set_identity (String_ (StableRangeID wid (q_File i) (q_Line i) stop rev)) rev i)
       else mret i);
  mret (set_origin "text" "text" i).
Definition extensions (typ : gostring) : list gostring :=
  if streq typ "go" then [".go"] else if streq typ "ts" then [".ts"; ".tsx"] else if streq typ "js" then [".js"; ".jsx"]
  else if streq typ "cs" then [".cs"] else if streq typ "py" then [".py"] else [].
Definition path_matches (glob : gostring) (i : QItem) : bool :=
  default false (pathMatch glob (q_File i)) || contains (q_File i) (trimSuffix glob "*").
Definition type_matches (typ : gostring) (i : QItem) : bool :=
  existsb (fun ext => equalFoldWord (pathExt (q_File i)) ext) (extensions typ).
Definition qText (s : Stage) (wid root : gostring) : Q qExecution :=
  let pattern := firstArg s in
  if streq pattern [] then mret stage_failed
  else
    let option_of name := if streq (opt s name) [] then [] else [(name, PText (opt s name))] in
    env ← qCall "nav.search" ([("pattern" : gostring, PText pattern); ("regex" : gostring, PBool (flag s "regex"));
            ("include_content" : gostring, PBool true); ("context_mode" : gostring, PText "lines")] ++ option_of "path" ++ option_of "type");
    match env with
    | None => mret stage_failed
    | Some env =>
        items ← qItemsFromEnvelope env wid root;
        items ← concat_map (fun i => i ← text_item wid root i; mret [i]) items;
        let items := if streq (opt s "path") [] then items else filter (fun i => path_matches (opt s "path") i = true) items in
        let typ := toLower (opt s "type") in
        let items := if streq typ [] then items else filter (fun i => type_matches typ i = true) items in
        mret (execution_of env items)
    end.
Definition qDocs (query layer : gostring) (wid root : gostring) : Q qExecution :=
  env ← qCall "nav.wiki.search" ([("query" : gostring, PText query); ("top" : gostring, PInt 200); ("include_content" : gostring, PBool true)]
                                  ++ (if streq layer [] then [] else [("layer" : gostring, PText layer)]));
  match env with
  | None => mret stage_failed
  | Some env => items ← qItemsFromEnvelope env wid root; mret (execution_of env items)
  end.
(** The documents that name an item, for every item. *)
Fixpoint docs_for (items : list QItem) (out : list QItem) (wid root : gostring) : Q qExecution :=
  match items with
  | [] => mret (found out)
  | source :: items =>
      result ← qDocs (q_Name source) [] wid root;
      if negb (streq (x_reason result) []) then mret (failed_with out (x_reason result))
      else docs_for items (out ++ map (fun doc => set_source (q_Edge doc) (q_ID source) doc) (x_items result)) wid root
  end.
Definition qDocsForItems (items : list QItem) (wid root : gostring) : Q qExecution := docs_for items [] wid root.

(** ** Items by identity *)
Definition stale_against (parsed : ID) (i : QItem) : QItem :=
  set_stale (Legacy parsed || (negb (streq (Ids.Rev parsed) []) && negb (streq (Ids.Rev parsed) (Rev i)))) (q_Missing i) i.
Definition same_id_symbol (parsed : ID) (i : QItem) : bool :=
  match ParseID (q_ID i) with
  | Ok c => streq (File c) (File parsed) && streq (Name c) (Name parsed)
            && (streq (Sig parsed) [] || hasPrefix (Sig c) (Sig parsed))
  | Err _ => false
  end.
(** A revision tells candidates apart. *)
Definition by_revision (rev : gostring) (matches : list QItem) : list QItem :=
  if negb (streq rev []) && (1 <? length matches)
  then match filter (fun i => hasPrefix (Rev i) rev = true) matches with i :: _ => [i] | [] => matches end
  else matches.
Definition missing_item (id kind name file origin : gostring) : QItem :=
  mkQItem id [] false kind name file 0 0 origin [] [] [] [] [] 0 [] false false true false None [].
Definition id_symbol_items (parsed : ID) (wid root : gostring) : Q (option (list QItem)) :=
  env ← qCall "nav.find" [("pattern" : gostring, PText (after_last_dot (Name parsed))); ("exact" : gostring, PBool true)];
  match env with
  | None => mret None
  | Some env =>
      if negb (streq (qEnvReason env) []) then mret None
      else
        items ← qItemsFromEnvelope env wid root;
        mret match by_revision (Ids.Rev parsed) (filter (fun i => same_id_symbol parsed i = true) items) with
             | [] =>
                 let record := mkSymbol (File parsed) (Name parsed) [] (Name parsed) (Sig parsed) in
                 Some [missing_item (String_ (StableSymbolID wid record [] (negb (streq (Sig parsed) [])))) "symbol" [] [] "catalog"]
             | [i] => Some [stale_against parsed i]
             | _ => None
             end
  end.
Definition same_id_doc (parsed : ID) (i : QItem) : bool :=
  let c := match ParseID (q_ID i) with Ok c => c | Err _ => mkID [] [] [] [] [] 0 0 [] false end in
  streq (Name c) (Name parsed) && (streq (File parsed) [] || streq (File c) (File parsed)).
Definition id_doc_items (parsed : ID) (wid root : gostring) : Q (option (list QItem)) :=
  env ← qCall "nav.wiki.search" [("query" : gostring, PText (Name parsed)); ("top" : gostring, PInt 100); ("include_content" : gostring, PBool true)];
  match env with
  | None => mret None
  | Some env =>
      if negb (streq (qEnvReason env) []) then mret None
      else
        items ← qItemsFromEnvelope env wid root;
        mret match filter (fun i => same_id_doc parsed i = true) items with
             | i :: _ => Some [stale_against parsed i]
             | [] => Some [missing_item (String_ (StableDocumentID wid (File parsed) (Name parsed) [])) "doc" (Name parsed) (File parsed) "wiki"]
             end
  end.
Definition id_range_items (parsed : ID) (wid root : gostring) : Q (option (list QItem)) :=
  rev ← fileRevision root (File parsed) (Start parsed) (End_ parsed);
  let identity := String_ (StableRangeID wid (File parsed) (Start parsed) (End_ parsed) rev) in
  let it missing stale :=
    mkQItem identity rev false "text" [] (File parsed) (Start parsed) (End_ parsed) "text" [] [] [] [] [] 0 [] false stale missing false None [] in
  mret (if streq rev [] then Some [it true false]
        else Some [it false (Legacy parsed || (negb (streq (Ids.Rev parsed) []) && negb (streq (Ids.Rev parsed) rev)))]).
Definition id_items (raw wid root : gostring) : Q (option (list QItem)) :=
  match ParseID (trimSpace raw) with
  | Err _ => mret None
  | Ok parsed =>
      if negb (Legacy parsed) && negb (streq (WorkspaceID parsed) wid) then mret None
      else if streq (Scheme parsed) IDSchemeSymbol then id_symbol_items parsed wid root
      else if streq (Scheme parsed) IDSchemeDoc then id_doc_items parsed wid root
      else if streq (Scheme parsed) IDSchemeRange then id_range_items parsed wid root
      else mret (Some [])
  end.
(** One identity that is malformed, ambiguous or of another workspace fails the stage. *)
Fixpoint ids_from (raws : list gostring) (items : list QItem) (wid root : gostring) : Q qExecution :=
  match raws with
  | [] => mret (found items)
  | raw :: raws =>
      more ← id_items raw wid root;
      match more with
      | None => mret stage_failed
      | Some more => ids_from raws (items ++ more) wid root
      end
  end.
Definition qIDs (args : list gostring) (wid root : gostring) : Q qExecution :=
  ids_from (splitByte (join args ",") ",") [] wid root.

(** ** What changed since a mark *)
Fixpoint changed_from (candidates out : list QItem) (wid root : gostring) : Q qExecution :=
  match candidates with
  | [] => mret (found out)
  | old :: candidates =>
      ended ← ctx_done;
      match ended with
      | Some code => mret (failed_with out code)
      | None =>
          result ← qIDs [q_ID old] wid root;
          if negb (streq (x_reason result) []) then mret (failed_with out (x_reason result))
          else match x_items result with
               | [] => changed_from candidates out wid root
               | current :: _ =>
                   if q_Missing current then changed_from candidates (out ++ [current]) wid root
                   else if negb (streq (Rev current) (Rev old))
                   then changed_from candidates (out ++ [set_stale true (q_Missing current) current]) wid root
                   else changed_from candidates out wid root
               end
      end
  end.
Definition has_sessions : Q bool := fun s => (bool_decide (is_Some (qs_sessions s)), s).
Definition qChanged (session : gostring) (s : Stage) (wid root : gostring) : Q qExecution :=
  some ← has_sessions;
  if negb some then mret stage_failed
  else
    candidates ← on_sessions [] (fun now => ChangedCandidates session (parseSince s) now);
    changed_from candidates [] wid root.

(** ** The symbols of changed files *)
Definition qContextCodeOrStage : Q gostring := ended ← ctx_done; mret (default "stage_failed"%go ended).
Definition same_qname (symbols : list catalog_symbol) (c : catalog_symbol) : bool :=
  1 <? length (filter (fun d => s_QualifiedName (cs_record d) = s_QualifiedName (cs_record c)) symbols).
Fixpoint diff_symbols (symbols rest : list catalog_symbol) (keep : list QItem) (wid root : gostring) : Q (list QItem) :=
  match rest with
  | [] => mret keep
  | c :: rest =>
      if 200 <=? length keep then mret keep
      else
        let record := cs_record c in
        let many := same_qname symbols c in
        if many && negb (validQRevision (toLower (s_SignatureHash record))) then diff_symbols symbols rest keep wid root
        else
          rev ← fileRevision root (s_FilePath record) (cs_StartLine c) (cs_EndLine c);
          diff_symbols symbols rest
            (keep ++ [mkQItem (String_ (StableSymbolID wid record rev many)) rev false (cs_Kind c) (SymbolQName record) (s_FilePath record)
               (cs_StartLine c) (cs_EndLine c) "diff" (cs_Language c) (s_Parent record) (cs_Signature c) [] [] 0 []
               false false false false None []]) wid root
  end.
Fixpoint diff_files (paths : list gostring) (out : list QItem) (wid root : gostring) : Q qExecution :=
  match paths with
  | [] => mret (found out)
  | path :: paths =>
      ended ← ctx_done;
      match ended with
      | Some code => mret (failed_with out code)
      | None =>
          symbols ← ask (fun n => symbols_by_file n path);
          match symbols with
          | None => mret (failed_with out "stage_failed")
          | Some symbols => out ← diff_symbols symbols symbols out wid root; diff_files paths out wid root
          end
      end
  end.
Definition qDiff (s : Stage) (wid root : gostring) : Q qExecution :=
  opens ← ask workspace_opens;
  if negb opens then mret stage_failed
  else
    changes ← ask (fun n => changed_files n (if streq (opt s "ref") [] then "HEAD" else opt s "ref"));
    match changes with
    | None => code ← qContextCodeOrStage; mret (failed_with [] code)
    | Some paths =>
        opens ← ask workspace_opens;
        if negb opens then mret stage_failed else diff_files (sortStrings paths) [] wid root
    end.

(** * Stages that follow items *)

(** ** Edges *)
Definition edge_depth (s : Stage) : Z := Z.min 3 (Z.max 1 (parseInt (opt s "depth"))).
Definition edge_operation (dir : gostring) : gostring :=
  if streq dir "callers" then "nav.callers" else if streq dir "callees" then "nav.callees"
  else if streq dir "impl" then "nav.related" else "nav.refs".
Definition edge_payload (source : QItem) (depth : Z) : list (gostring * payload) :=
  [("symbol" : gostring, PText (q_Name source)); ("selector" : gostring, PText (q_Name source)); ("file" : gostring, PText (q_File source));
   ("line" : gostring, PInt (q_Line source)); ("depth" : gostring, PInt depth); ("limit" : gostring, PInt 50)].
Definition edge_from (dir : gostring) (depth : Z) (source i : QItem) : QItem :=
  set_source (Some (mkQEdge dir (q_ID source) depth)) (q_In i) i.
(** One worker's answer for one item. *)
Definition edge_result (dir : gostring) (depth : Z) (source : QItem) (wid : gostring) : Q qExecution :=
  ended ← ctx_done;
  match ended with
  | Some code => mret (failed_with [] code)
  | None =>
      env ← qCall (edge_operation dir) (edge_payload source depth);
      match env with
      | None => code ← qContextCodeOrStage; mret (failed_with [] code)
      | Some env =>
          items ← qItemsFromEnvelope env wid [];
          mret (execution_of env (map (edge_from dir depth source) (take 50 items)))
      end
  end.
(** The workers take the items in order and end in any: what [job] puts at [index] is the
    answer for the item there. *)
Fixpoint edge_jobs (dir : gostring) (depth : Z) (items : list QItem) (order : list nat) (results : list qExecution) (wid : gostring) :
    Q (list qExecution) :=
  match order with
  | [] => mret results
  | index :: order =>
      match items !! index with
      | None => edge_jobs dir depth items order results wid
      | Some source => r ← edge_result dir depth source wid; edge_jobs dir depth items order (<[index := r]> results) wid
      end
  end.
Definition first_reason (results : list qExecution) : gostring :=
  match filter (fun r => x_reason r <> []) results with r :: _ => qPublicReason (x_reason r) | [] => [] end.
Definition last_fallback (results : list qExecution) : gostring :=
  match last (filter (fun r => x_fallback r <> []) results) with Some r => x_fallback r | None => [] end.
(** The workers write to places of their own, and the places are read in the order of the
    items when all have ended. *)
Definition qEdges (s : Stage) (items : list QItem) (wid : gostring) : Q qExecution :=
  let dir := firstArg s in
  if negb (oneOf dir ["refs"; "callers"; "callees"; "impl"]) then mret stage_failed
  else
    let items := take 200 items in
    results ← edge_jobs dir (edge_depth s) items (job_order (length items)) (replicate (length items) (found [])) wid;
    ended ← ctx_done;
    mret (mkExecution (take 200 (mjoin (map x_items results))) (default (first_reason results) ended) (last_fallback results) [] false).
Fixpoint edges_sequential (dir : gostring) (depth : Z) (items out : list QItem) (wid : gostring) : Q qExecution :=
  match items with
  | [] => mret (found out)
  | source :: items =>
      if 200 <=? length out then mret (found out)
      else
        ended ← ctx_done;
        match ended with
        | Some code => mret (failed_with out code)
        | None =>
            env ← qCall (edge_operation dir) (edge_payload source depth);
            match env with
            | None => mret (failed_with out "stage_failed")
            | Some env =>
                more ← qItemsFromEnvelope env wid [];
                edges_sequential dir depth items (take 200 (out ++ map (edge_from dir depth source) (take 50 more))) wid
            end
        end
  end.
Definition qEdgesSequential (s : Stage) (items : list QItem) (wid : gostring) : Q qExecution :=
  let dir := firstArg s in
  if streq dir [] then mret stage_failed
  else if negb (oneOf dir ["refs"; "callers"; "callees"; "impl"]) then mret stage_failed
  else edges_sequential dir (edge_depth s) items [] wid.

(** ** Reading the text of items *)
Definition range_item (wid root arg : gostring) : Q (list QItem) :=
  match parseQRange arg with
  | None => mret []
  | Some (file, start, end_) =>
      rev ← fileRevision root file start end_;
      mret [mkQItem (String_ (StableRangeID wid file start end_ rev)) rev false "text" [] file start end_ "text"
              [] [] [] [] [] 0 [] false false false false None []]
  end.
Definition ctx_of_arg (lines : Z) (arg : gostring) : Z :=
  if hasPrefix arg "ctx=" then parseInt (trimPrefix arg "ctx=")
  else if hasPrefix arg "±" then parseInt (trimPrefix arg "±")
  else if streq arg "full" then lines else parseInt arg.
Definition context_lines (s : Stage) : Z :=
  let lines := if flag s "full" then 50%Z else 2%Z in
  let lines := if streq (opt s "ctx") [] then lines else parseInt (opt s "ctx") in
  let lines := foldl ctx_of_arg lines (Args s) in
  let lines := if (lines <? 0)%Z then wrap64 (- lines) else lines in
  if (50 <? lines)%Z then 50%Z else lines.
Definition read_range (lines : Z) (i : QItem) : Z * Z :=
  let start := Z.max 1 (wrap64 (q_Line i - lines)) in
  (start, if (q_EndLine i =? 0)%Z then wrap64 (start + wrap64 (lines * 2)) else Z.max start (wrap64 (q_EndLine i + lines))).
Definition text_of_rows (env : service_answer) (i : QItem) : QItem :=
  match default [] (sa_rows env) with
  | row :: _ =>
      let i := match row !! ("content" : gostring) with Some (JText t) => set_text (q_TruncatedItem i) t (q_Read i) (q_Seen i) i | _ => i end in
      match row !! ("file" : gostring) with Some (JText f) => if streq (q_File i) [] then set_file f i else i | _ => i end
  | [] => i
  end.
(** The revision of what was read, when it can be computed; a changed item is stale. *)
Definition refresh (root : gostring) (i : QItem) : Q QItem :=
  if negb (streq (q_Kind i) "doc") && (0 <? q_Line i)%Z then
    current ← fileRevision root (q_File i) (q_Line i) (Z.max (q_Line i) (q_EndLine i));
    mret (if streq current [] then i
          else set_identity (q_ID i) current
                 (set_stale (q_Stale i || (negb (streq (Rev i) []) && negb (streq (Rev i) current))) (q_Missing i) i))
  else mret i.
Definition read_item (lines : Z) (root : gostring) (i : QItem) : Q (option QItem) :=
  let '(start, end_) := read_range lines i in
  env ← qCall "nav.multi-read" [("items" : gostring, PTexts [q_File i ++ ":" ++ itoa start ++ "-" ++ itoa end_])];
  match env with
  | None => mret None
  | Some env =>
      if negb (streq (qEnvReason env) []) then mret None
      else
        i ← refresh root (text_of_rows env i);
        mret (Some (set_text (q_TruncatedItem i) (q_Text i) (negb (streq (q_Text i) [])) (q_Seen i) i))
  end.
(** [skip]: text that the session has is not read again. *)
Fixpoint read_items (lines : Z) (skip : bool) (session root : gostring) (items out : list QItem) : Q (list QItem * gostring) :=
  match items with
  | [] => mret (out, [])
  | i :: items =>
      ended ← ctx_done;
      match ended with
      | Some code => mret (out, code)
      | None =>
          if q_Missing i then read_items lines skip session root items (out ++ [i])
          else
            seen ← (if skip then on_sessions false (fun now => Seen session (q_ID i) (Rev i) now) else mret false);
            if (seen : bool) then read_items lines skip session root items (out ++ [set_text (q_TruncatedItem i) [] (q_Read i) true i])
            else if streq (q_Kind i) "doc" && negb (streq (q_Text i) [])
            then read_items lines skip session root items (out ++ [set_text (q_TruncatedItem i) (q_Text i) true (q_Seen i) i])
            else
              i ← read_item lines root i;
              match i with
              | None => mret (out, "stage_failed")
              | Some i => read_items lines skip session root items (out ++ [i])
              end
      end
  end.
Fixpoint remember_read (session : gostring) (items : list QItem) : Q unit :=
  match items with
  | [] => mret tt
  | i :: items =>
      _ ← (if q_Read i && negb (streq (q_Text i) []) then on_sessions tt (fun now st => (tt, Remember session i now st)) else mret tt);
      remember_read session items
  end.
Definition qRead (session : gostring) (fresh : bool) (s : Stage) (items : list QItem) (wid root : gostring) : Q qExecution :=
  items ← match items with [] => concat_map (range_item wid root) (Args s) | _ => mret items end;
  r ← read_items (context_lines s) (negb (flag s "fresh") && negb fresh) session root items [];
  let '(out, reason) := r in
  if streq reason [] then _ ← remember_read session out; mret (found out)
  else mret (failed_with out reason).
End stages.

(** * Stages on items alone *)
Section transforms.
Context `{UnicodeTables}.

Definition where_matches (op value text : gostring) : bool :=
  if streq op "=" then streq text value
  else if streq op "!=" then negb (streq text value)
  else if streq op "~" then contains text value
  else negb (contains text value).
Fixpoint where_from (ops : list gostring) (expr : gostring) (items : list QItem) : list QItem :=
  match ops with
  | [] => items
  | op :: ops =>
      match index expr op with
      | Some (S _ as at_) =>
          let field := trimSpace (take at_ expr) in
          let value := trimSet (trimSpace (drop (at_ + length op) expr)) [QUOTE; APOS] in
          filter (fun i => where_matches op value (sprint (Field i field).1) = true) items
      | _ => where_from ops expr items
      end
  end.
Definition qWhere (items : list QItem) (s : Stage) : list QItem :=
  match Args s with
  | [] => items
  | args => where_from ["!~"; "!="; "="; "~"] (join args " ") items
  end.
Definition qLimit (items : list QItem) (s : Stage) : list QItem :=
  take (Z.to_nat (Z.max 0 (parseInt (firstArg s)))) items.
Definition uniq_key (i : QItem) : gostring :=
  if streq (q_ID i) [] then q_File i ++ ":" ++ itoa (q_Line i) ++ ":" ++ q_Name i else q_ID i.
Fixpoint uniq_from (seen : list gostring) (items : list QItem) : list QItem :=
  match items with
  | [] => []
  | i :: items => if oneOf (uniq_key i) seen then uniq_from seen items else i :: uniq_from (uniq_key i :: seen) items
  end.
Definition qUniq (items : list QItem) : list QItem := uniq_from [] items.
(** By the text of the field, then by line, then by identity. *)
Definition sort_key (field : gostring) (i : QItem) : gostring * (Z * gostring) := (sprint (Field i field).1, (q_Line i, q_ID i)).
Definition sort_cmp (desc : bool) : gostring * (Z * gostring) -> gostring * (Z * gostring) -> comparison :=
  cmp_pair (if desc then fun a b => compareString b a else compareString) (cmp_pair Z.compare compareString).
Definition qSort (items : list QItem) (s : Stage) : list QItem :=
  let field := if streq (firstArg s) [] then "file" else firstArg s in
  let desc := match Args s with _ :: d :: _ => equalFoldWord d "desc" | _ => false end in
  sortOn (sort_cmp desc) (sort_key field) items.
(** At most [n] bytes, cut before a character. *)
Fixpoint cut_at (n : nat) (text : gostring) : nat :=
  match n with
  | 0 => 0
  | S k => match text !! n with Some b => if runeStart b then n else cut_at k text | None => n end
  end.
Definition truncateQText (text : gostring) (n : nat) : gostring := take (cut_at (min n (length text)) text) text.
End transforms.
