(* ===== verification/QLogic.v ===== *)
(** Reasoning about stages of q-v1: what a computation of [Q] returns whatever the world
    answers, and what it returns in a workspace that does not change. *)
From S2P Require Import Prelude GoStrings GoStringFacts GoPath GoSort GoNum QueryParser Ids QItem QSession QPrimitives.

Local Open Scope go_scope.

Create HintDb steadily.

(** * Whatever the world answers *)
Definition returns {A} (P : A -> Prop) (m : Q A) : Prop := forall s, P (m s).1.
Lemma returns_ret {A} (P : A -> Prop) a : P a -> returns P (mret a).
Proof. by intros Ha s. Qed.
Lemma returns_bind {A B} (P : A -> Prop) (R : B -> Prop) (m : Q A) (f : A -> Q B) :
  returns P m -> (forall a, P a -> returns R (f a)) -> returns R (m ≫= f).
Proof. intros Hm Hf s. unfold mbind, Q_bind. specialize (Hm s). destruct (m s) as [a s1]. by apply Hf. Qed.
Lemma returns_any {A} (m : Q A) : returns (fun _ => True) m.
Proof. done. Qed.
Lemma returns_ask {A} (P : A -> Prop) (f : nat -> A) : (forall n, P (f n)) -> returns P (ask f).
Proof. intros Hf s. apply Hf. Qed.

(** * Two runs without sessions *)
Definition alone (s : qstate) : Prop := qs_sessions s = None.
Definition agree {A B} (R : A -> B -> Prop) (m : Q A) (m' : Q B) : Prop :=
  forall s s', alone s -> alone s' -> R (m s).1 (m' s').1 /\ alone (m s).2 /\ alone (m' s').2.
Abbreviation steady m := (agree eq m m).

Lemma agree_ret {A B} (R : A -> B -> Prop) a b : R a b -> agree R (mret a) (mret b).
Proof. intros Hab s s' Hs Hs'. by split_and!. Qed.
Lemma agree_bind {A A' B B'} (R : A -> A' -> Prop) (T : B -> B' -> Prop) (m : Q A) (m' : Q A') f f' :
  agree R m m' -> (forall a a', R a a' -> agree T (f a) (f' a')) -> agree T (m ≫= f) (m' ≫= f').
Proof.
  intros Hm Hf s s' Hs Hs'. destruct (Hm s s' Hs Hs') as (Hr & H1 & H2). unfold mbind, Q_bind.
  destruct (m s) as [a s1], (m' s') as [a' s1']. by apply Hf.
Qed.
Lemma steadily_bind {A B B'} (T : B -> B' -> Prop) (m : Q A) f f' :
  steady m -> (forall a, agree T (f a) (f' a)) -> agree T (m ≫= f) (m ≫= f').
Proof. intros Hm Hf. eapply agree_bind; [exact Hm|]. by intros a ? <-. Qed.
Lemma agree_ask {A B} (R : A -> B -> Prop) f f' : (forall n n', R (f n) (f' n')) -> agree R (ask f) (ask f').
Proof. intros Hf s s' Hs Hs'. split_and!; [apply Hf|done|done]. Qed.
Lemma agree_weaken {A B} (R T : A -> B -> Prop) m m' : agree R m m' -> (forall a b, R a b -> T a b) -> agree T m m'.
Proof. intros Hm HRT s s' Hs Hs'. destruct (Hm s s' Hs Hs') as (? & ? & ?). auto. Qed.

(** * A workspace that does not change *)
Section steady.
Context `{UnicodeTables} `{SHA256} `{MapOrder} `{World} `{Schedule}.

(** Answers do not depend on when they are asked for, and the context does not end. *)
Record steady_world : Prop := {
  steady_execute n n' : execute n = execute n';
  steady_ctx n : ctx_Err n = None;
  steady_read_file n n' : read_file n = read_file n';
  steady_changed n n' : changed_files n = changed_files n';
  steady_opens n n' : workspace_opens n = workspace_opens n';
  steady_symbols n n' : symbols_by_file n = symbols_by_file n' }.

Lemma agree_clock : agree (fun _ _ => True) clock clock.
Proof. by apply agree_ask. Qed.
Lemma agree_on_sessions {A} (R : A -> A -> Prop) (none : A) (f f' : Z -> SessionState -> A * SessionState) :
  R none none -> agree R (on_sessions none f) (on_sessions none f').
Proof. intros HR [n o] [n' o'] Hs Hs'. unfold alone in *. cbn in Hs, Hs'. by subst. Qed.
Lemma steady_has_sessions : steady has_sessions.
Proof. intros [n o] [n' o'] Hs Hs'. unfold alone in *. cbn in Hs, Hs'. by subst. Qed.

Context (steady_W : steady_world).
Lemma steady_ctx_done : steady ctx_done.
Proof. apply agree_ask. intros n n'. by rewrite !steady_ctx. Qed.
Lemma steady_qCall op p : steady (qCall op p).
Proof. apply agree_ask. intros n n'. by rewrite (steady_execute steady_W n n'). Qed.
Lemma steady_ask {A} (f : nat -> A) : (forall n n', f n = f n') -> steady (ask f).
Proof. intros Hf. by apply agree_ask. Qed.
End steady.

#[export] Hint Resolve steady_ctx_done steady_qCall steady_has_sessions : steadily.

(** One step at a time: answers, what follows them, and cases on what both runs know. *)
Ltac agree_step :=
  match goal with
  | |- agree _ (mret _) (mret _) => apply agree_ret; try done
  | |- agree _ (ask _) (ask _) => apply agree_ask; intros; done
  | |- agree _ (on_sessions _ _) (on_sessions _ _) => by apply agree_on_sessions
  | |- steady _ => solve [auto with steadily nocore]
  | |- agree _ (mbind ?f ?m) (mbind ?f' ?m) => apply (steadily_bind _ m f f'); [|intros ?]
  | |- agree _ (if ?b then _ else _) (if ?b then _ else _) => destruct b
  | |- agree _ (match ?x with _ => _ end) (match ?x with _ => _ end) => destruct x
  end.
Ltac agree_all := repeat agree_step.

Section primitives.
Context `{UnicodeTables} `{SHA256} `{MapOrder} `{World} `{Schedule} (steady_W : steady_world).

Lemma steady_fileRevision root file start end_ : steady (fileRevision root file start end_).
Proof.
  unfold fileRevision. cbv zeta. agree_all. apply steady_ask. intros. by rewrite (steady_read_file steady_W n n').
Qed.
Hint Resolve steady_fileRevision : steadily.
Lemma steady_concat_map {A B} (f : A -> Q (list B)) l : (forall a, steady (f a)) -> steady (concat_map f l).
Proof. intros Hf. induction l as [|a l IH]; cbn [concat_map]; agree_all; auto. Qed.
Lemma steady_item_of_row wid root env rows row : steady (item_of_row wid root env rows row).
Proof. unfold item_of_row. cbv zeta. agree_all. Qed.
Hint Resolve steady_item_of_row : steadily.
Lemma steady_qItems env wid root : steady (qItemsFromEnvelope env wid root).
Proof. unfold qItemsFromEnvelope. agree_all. apply steady_concat_map. intros row. agree_all. Qed.
Hint Resolve steady_qItems : steadily.
Lemma steady_qSym s wid root : steady (qSym s wid root).
Proof. unfold qSym. cbv zeta. agree_all. Qed.
Lemma steady_text_item wid root i : steady (text_item wid root i).
Proof. unfold text_item. cbv zeta. agree_all. Qed.
Hint Resolve steady_text_item : steadily.
Lemma steady_qText s wid root : steady (qText s wid root).
Proof. unfold qText. cbv zeta. agree_all. apply steady_concat_map. intros i. agree_all. Qed.
Lemma steady_qDocs query layer wid root : steady (qDocs query layer wid root).
Proof. unfold qDocs. agree_all. Qed.
Hint Resolve steady_qDocs : steadily.
Lemma steady_qDocsForItems items wid root : steady (qDocsForItems items wid root).
Proof. unfold qDocsForItems. generalize (@nil QItem). induction items; intros out; cbn [docs_for]; agree_all; auto. Qed.
Lemma steady_qIDs args wid root : steady (qIDs args wid root).
Proof.
  unfold qIDs. generalize (@nil QItem). induction (splitByte _ _) as [|raw raws IH]; intros items; cbn [ids_from]; agree_all; auto.
  unfold id_items, id_symbol_items, id_doc_items, id_range_items. cbv zeta. agree_all.
Qed.
Hint Resolve steady_qIDs : steadily.
Lemma steady_qChanged session s wid root : steady (qChanged session s wid root).
Proof.
  unfold qChanged. agree_all. generalize (@nil QItem). induction a0 as [|old l IH]; intros out; cbn [changed_from]; agree_all; auto.
Qed.
Lemma steady_diff_symbols symbols rest keep wid root : steady (diff_symbols symbols rest keep wid root).
Proof. revert keep. induction rest as [|c rest IH]; intros keep; cbn [diff_symbols]; cbv zeta; agree_all; auto. Qed.
Hint Resolve steady_diff_symbols : steadily.
Lemma steady_diff_files paths out wid root : steady (diff_files paths out wid root).
Proof.
  revert out. induction paths as [|path paths IH]; intros out; cbn [diff_files]; agree_all; auto.
  apply steady_ask. intros. by rewrite (steady_symbols steady_W n n').
Qed.
Hint Resolve steady_diff_files : steadily.
Lemma steady_qDiff s wid root : steady (qDiff s wid root).
Proof.
  unfold qDiff, qContextCodeOrStage. agree_all; apply steady_ask; intros;
    [by apply steady_opens|by rewrite (steady_changed steady_W n n')|by apply steady_opens].
Qed.
Lemma steady_edge_result dir depth source wid : steady (edge_result dir depth source wid).
Proof. unfold edge_result, qContextCodeOrStage. agree_all. Qed.
Hint Resolve steady_edge_result : steadily.
Lemma steady_edge_jobs dir depth items order results wid : steady (edge_jobs dir depth items order results wid).
Proof. revert results. induction order as [|index order IH]; intros results; cbn [edge_jobs]; agree_all; auto. Qed.
Hint Resolve steady_edge_jobs : steadily.
Lemma steady_qEdges s items wid : steady (qEdges s items wid).
Proof. unfold qEdges. cbv zeta. agree_all. Qed.
Lemma steady_read_item lines root i : steady (read_item lines root i).
Proof. unfold read_item, refresh. destruct (read_range _ _). agree_all. Qed.
Hint Resolve steady_read_item : steadily.
Lemma steady_read_items lines skip session root items out : steady (read_items lines skip session root items out).
Proof. revert out. induction items as [|i items IH]; intros out; cbn [read_items]; agree_all; auto. Qed.
Hint Resolve steady_read_items : steadily.
Lemma steady_remember_read session items : steady (remember_read session items).
Proof. induction items; cbn [remember_read]; agree_all; auto. Qed.
Hint Resolve steady_remember_read : steadily.
Lemma steady_qRead session fresh s items wid root : steady (qRead session fresh s items wid root).
Proof.
  unfold qRead, range_item. agree_all. apply steady_concat_map. intros arg. agree_all.
Qed.
End primitives.
#[export] Hint Resolve steady_qSym steady_qText steady_qDocs steady_qDocsForItems steady_qIDs steady_qChanged steady_qDiff
  steady_qEdges steady_qRead steady_edge_result : steadily.
