(* ===== verification/QPipeline.v ===== *)
(** The execution of q-v1 pipelines (internal/service/primitives_q.go, [ExecuteQ]): options,
    the workspace, the stages in order, and the page of the result that fits. *)
From S2P Require Import Prelude GoStrings GoStringFacts GoPath GoSort GoNum QueryParser Ids QItem QSession QCursor QPrimitives.

Local Open Scope go_scope.

(** * Requests and answers *)

(** What [ExecuteQ] reads of a [model.CommandRequest]; numbers of the payload are read by
    [intFromAny], and [None] is an entry that is not there. *)
Record qRequest := mkRequest {
  rq_q : gostring; rq_session_id : gostring; rq_max_bytes : option Z; rq_budget : option Z; rq_timeout_ms : option Z;
  rq_page : gostring; rq_fresh : bool; rq_dedupe : bool; rq_Workspace : gostring; rq_SessionID : gostring;
  rq_CallerCWD : gostring; rq_NoAutoRegister : bool }.
Record QStage := mkQStage { st_Verb : gostring; st_In : Z; st_Out : Z; st_Ms : Z; st_Truncated : bool; st_Reason : gostring }.
Record EnvelopeError := mkError { er_Code : gostring; er_Stage : gostring; er_Detail : gostring }.
Record Continuation := mkContinuation { co_Query : gostring; co_Workspace : gostring; co_Cursor : gostring }.
Record Envelope := mkEnvelope {
  en_Ok : bool; en_Workspace : gostring; en_Items : list QRow; en_Stages : list QStage; en_Requested : Z; en_Used : Z;
  en_SessionMark : Z; en_Truncated : bool; en_GenerationID : gostring; en_FallbackUsed : gostring; en_Warnings : list gostring;
  en_Partial : bool; en_Reason : gostring; en_Error : option EnvelopeError; en_Continuation : option Continuation }.
(** The size of [json.Marshal] of an envelope. *)
Class EnvelopeJSON := { envelope_size : Envelope -> Z }.
Record registration := mkRegistration { rg_Root : gostring; rg_Name : gostring }.
Inductive resolution_error :=
| ResolutionFallback (alias : gostring)
| ResolutionCWD (cwd : gostring)
| ResolutionNone
| OtherError (text : gostring).
(** What [ExecuteQ] asks before and after the stages. *)
Class Workspaces := {
  (** The warnings of [autoRegisterWorkspace], for a selector and a directory. *)
  auto_register : nat -> gostring -> gostring -> list gostring;
  resolve_selection : nat -> gostring -> gostring -> result resolution_error registration;
  (** [LoadProjectTopology] and [ApplyProjectTopology]. *)
  apply_topology : nat -> registration -> result gostring registration;
  (** The roots of [LoadRegistryReadOnly], by name. *)
  registry : nat -> option (gmap gostring gostring);
  catalog_ready : nat -> gostring -> option bool;
  workspace_candidate : nat -> gostring -> gostring * gostring;
  generation_snapshot : nat -> gostring -> gostring;
  workspace_id : gostring -> gostring;
  (** The first bytes of a file. *)
  read_head : nat -> gostring -> option gostring;
  own_pid : Z }.

Definition truncate_bytes (n : nat) (s : gostring) : gostring := take n s.
Definition qFailureFor (code stage detail workspace : gostring) : Envelope :=
  mkEnvelope false workspace [] [] 2000 0 0 false [] [] [] false code (Some (mkError code stage (truncate_bytes 500 detail))) None.
Definition shellQuoteArg (value : gostring) : gostring := APOS :: replaceAll value [APOS] [APOS; BSLASH; APOS; APOS] ++ [APOS].
Definition qNeedsCatalog (stages : list Stage) : bool :=
  existsb (fun s => oneOf (Verb s) ["sym"; "edges"; "id"; "diff"; "changed"]) stages.

Section pipeline.
Context `{UnicodeTables} `{SHA256} `{MapOrder} `{World} `{Schedule} `{Workspaces} `{ClaimsJSON} `{CursorKey} `{EnvelopeJSON}.

Definition splitQFields (s : gostring) : list gostring :=
  filter (fun value => value <> []) (map trimSpace (splitByte s ",")).
Definition qContinuation (now : Z) (query workspace wid generation : gostring) (offset : Z) : Continuation :=
  mkContinuation query workspace (signQCursor now query wid generation offset).

(** * The workspace *)
Definition qWorkspaceResolutionFailure (selector : gostring) (e : resolution_error) : Q Envelope :=
  match e with
  | ResolutionFallback alias =>
      let alias := trimSpace alias in
      mret (qFailureFor "stage_failed" "workspace"
        ("workspace " ++ goQuote (trimSpace selector) ++ " no resuelto; por caller cwd la opción probable es el alias " ++ goQuote alias
         ++ "; repetí con --workspace " ++ shellQuoteArg alias) alias)
  | ResolutionCWD cwd =>
      '(root, alias) ← ask (fun n => workspace_candidate n cwd);
      mret (qFailureFor "stage_failed" "workspace"
        ("no registrado: corré mi-lsp workspace add " ++ shellQuoteArg root ++ " --name " ++ shellQuoteArg alias
         ++ " --no-index; después corré mi-lsp index --workspace " ++ shellQuoteArg alias) alias)
  | ResolutionNone =>
      mret (qFailureFor "stage_failed" "workspace"
        ("workspace sin resolver: pasá --workspace <alias> o consultá `mi-lsp workspace list --group-by-root`") [])
  | OtherError text => mret (qFailureFor "stage_failed" "workspace" text [])
  end.
Definition qWorkspaceRegistered (r : registration) : Q bool :=
  reg ← ask registry;
  mret match reg ≫= (fun m => m !! rg_Name r) with
       | Some root => streq (pathClean root) (pathClean (rg_Root r))
       | None => false
       end.
(** The stages that need the catalog have one that is registered and published. *)
Definition check_catalog (stages : list Stage) (r : registration) : Q (option Envelope) :=
  if negb (qNeedsCatalog stages) then mret None
  else
    registered ← qWorkspaceRegistered r;
    if negb registered then
      let alias := if streq (trimSpace (rg_Name r)) [] then pathBase (pathClean (rg_Root r)) else trimSpace (rg_Name r) in
      mret (Some (qFailureFor "stage_failed" "workspace"
        ("workspace no registrado: corré mi-lsp workspace add " ++ shellQuoteArg (rg_Root r) ++ " --name " ++ shellQuoteArg alias
         ++ " --no-index; después corré mi-lsp index --workspace " ++ shellQuoteArg alias) alias))
    else
      ready ← ask (fun n => catalog_ready n (rg_Root r));
      mret (if default false ready then None
            else Some (qFailureFor "stage_failed" "workspace"
              ("índice ausente o no publicado: corré mi-lsp index --workspace " ++ shellQuoteArg (rg_Name r)) (rg_Name r))).

(** * Running the stages *)
Record run_state := mkRun {
  ru_items : list QItem; ru_stages : list QStage; ru_failure : gostring; ru_fallback : gostring; ru_sorted : bool;
  ru_fields : list gostring }.
Definition count_item (n : nat) : QItem :=
  mkQItem [] [] false "count" "count" [] 0 0 "q" [] [] [] [] [] (Z.of_nat n) [] false false false false None [].
Definition description_item (text : gostring) : QItem :=
  mkQItem [] [] false "description" "q-v1" [] 0 0 "q" [] [] [] [] [] 0 text false false false false None [].
Definition run_verb (session : gostring) (fresh : bool) (wid root : gostring) (stage : Stage) (items : list QItem) : Q qExecution :=
  let verb_is v := streq (Verb stage) v in
  if verb_is "sym" then qSym stage wid root
  else if verb_is "text" then qText stage wid root
  else if verb_is "docs" then match Args stage with
                         | [] => qDocsForItems items wid root
                         | query :: _ => qDocs query (opt stage "layer") wid root
                         end
  else if verb_is "id" then qIDs (Args stage) wid root
  else if verb_is "diff" then qDiff stage wid root
  else if verb_is "changed" then qChanged session stage wid root
  else if verb_is "edges" then qEdges stage items wid
  else if verb_is "read" then qRead session fresh stage items wid root
  else if verb_is "where" then mret (found (qWhere items stage))
  else if verb_is "limit" then mret (found (qLimit items stage))
  else if verb_is "uniq" then mret (found (qUniq items))
  else if verb_is "sort" then mret (found (qSort items stage))
  else if verb_is "fields" then mret (found items)
  else if verb_is "count" then mret (found [count_item (length items)])
  else if verb_is "describe" then mret (found [description_item (Describe (firstArg stage))])
  else mret stage_failed.
(** A failed stage leaves the items of the one before. *)
Definition after_stage (stage : Stage) (r : qExecution) (ms : Z) (ru : run_state) : run_state :=
  let items := if streq (x_reason r) [] then x_items r else ru_items ru in
  let reason := qPublicReason (x_reason r) in
  mkRun items
    (ru_stages ru ++ [mkQStage (Verb stage) (Z.of_nat (length (ru_items ru))) (Z.of_nat (length items)) ms (x_truncated r) reason])
    (if negb (streq (x_reason r) []) && streq (ru_failure ru) [] then reason else ru_failure ru)
    (if streq (x_fallback r) [] then ru_fallback ru else x_fallback r)
    (ru_sorted ru || streq (Verb stage) "sort")
    (if streq (Verb stage) "fields" then match Args stage with f :: _ => splitQFields f | [] => ru_fields ru end else ru_fields ru).
Definition fail_run (code : gostring) (ru : run_state) : run_state :=
  mkRun (ru_items ru) (ru_stages ru) code (ru_fallback ru) (ru_sorted ru) (ru_fields ru).
Fixpoint run_stages (session : gostring) (fresh : bool) (wid root : gostring) (stages : list Stage) (ru : run_state) : Q run_state :=
  match stages with
  | [] => mret ru
  | stage :: stages =>
      ended ← ctx_done;
      match ended with
      | Some code => mret (fail_run code ru)
      | None =>
          start ← clock;
          r ← run_verb session fresh wid root stage (ru_items ru);
          stop ← clock;
          run_stages session fresh wid root stages (after_stage stage r ((stop - start) / 1000000) ru)
      end
  end.
(** A cancellation counts whatever came before, a deadline unless it was cancelled. *)
Definition end_of_run (ru : run_state) : Q run_state :=
  ended ← ctx_done;
  mret match ended with
       | Some code => if streq code "cancelled" || negb (streq (ru_failure ru) "cancelled") then fail_run code ru else ru
       | None => ru
       end.

(** * Confidentiality of a file, from its front matter (internal/service/visibility.go) *)
Definition cut (s sep : gostring) : option (gostring * gostring) :=
  i ← index s sep; Some (take i s, drop (i + length sep) s).
Definition yamlScalar (value : gostring) : gostring :=
  let value := trimSpace value in
  if streq value [] || streq value "~" || equalFoldWord value "null" then []
  else
    let quoted q := bool_decide (head value = Some q) && bool_decide (last value = Some q) in
    let value := if (2 <=? length value) && (quoted QUOTE || quoted APOS) then take (length value - 2) (drop 1 value) else value in
    let value := match index value " #" with Some i => trimSpace (take i value) | None => value end in
    trimSpace value.
Fixpoint front_matter (lines : list gostring) : gostring :=
  match lines with
  | [] => []
  | raw :: lines =>
      let raw := trimSpace raw in
      if streq raw [] || hasPrefix raw "#" then front_matter lines
      else match cut raw ":" with
           | Some (key, value) => if equalFoldWord (trimSpace key) "sensibilidad" then yamlScalar value else front_matter lines
           | None => front_matter lines
           end
  end.
Definition BOM : gostring := [zb 239; zb 187; zb 191].
Definition sensibilidadFromFrontmatter (head : gostring) : gostring :=
  let head := replaceAll (trimPrefix head BOM) [CR; LF] [LF] in
  match cut head [LF] with
  | None => []
  | Some (line, rest) =>
      if negb (streq (trimSpace line) "---") then []
      else match index rest (LF :: "---") with
           | None => []
           | Some end_ => front_matter (splitByte (take end_ rest) LF)
           end
  end.
Definition workspaceFile (root rel : gostring) : option gostring :=
  let root := pathClean root in
  let rel := trimSpace rel in
  if streq root "." || streq rel [] then None
  else
    abs ← (if isAbs rel then Some (pathClean rel)
           else let cleaned := pathClean rel in
                if streq cleaned ".." || hasPrefix cleaned "../" then None else Some (pathClean (pathJoin [root; cleaned])));
    if negb (streq abs root) && negb (hasPrefix abs (root ++ "/")) then None else Some abs.
Definition frontmatterSensibilidad (root rel : gostring) : Q gostring :=
  match workspaceFile root rel with
  | None => mret []
  | Some abs =>
      head ← ask (fun n => read_head n abs);
      mret match head with
           | None | Some [] => []
           | Some head => sensibilidadFromFrontmatter (take 8192 head)
           end
  end.

(** * The page *)
Definition row_of (fields : list gostring) (sensibilidad : qvalue) (i : QItem) : QRow :=
  With "sensibilidad" sensibilidad (Project i fields).
(** Rows while they fit the budget, four bytes for a token. *)
Fixpoint take_rows (fields : list gostring) (root : gostring) (limit : Z) (items : list QItem) (rows : list QRow) (used : Z) :
    Q (list QRow * Z * bool) :=
  match items with
  | [] => mret (rows, used, false)
  | i :: items =>
      s ← frontmatterSensibilidad root (q_File i);
      let row := row_of fields (VText s) i in
      let size := JSONSize row in
      if (limit <? used + size)%Z then mret (rows, used, true)
      else take_rows fields root limit items (rows ++ [row]) (used + size)
  end.
Definition set_items (rows : list QRow) (truncated : bool) (c : option Continuation) (env : Envelope) : Envelope :=
  mkEnvelope (en_Ok env) (en_Workspace env) rows (en_Stages env) (en_Requested env) (en_Used env) (en_SessionMark env) truncated
    (en_GenerationID env) (en_FallbackUsed env) (en_Warnings env) (en_Partial env) (en_Reason env) (en_Error env) c.
Definition set_used (used : Z) (env : Envelope) : Envelope :=
  mkEnvelope (en_Ok env) (en_Workspace env) (en_Items env) (en_Stages env) (en_Requested env) used (en_SessionMark env) (en_Truncated env)
    (en_GenerationID env) (en_FallbackUsed env) (en_Warnings env) (en_Partial env) (en_Reason env) (en_Error env) (en_Continuation env).
Definition set_failure (ok partial : bool) (reason : gostring) (e : EnvelopeError) (env : Envelope) : Envelope :=
  mkEnvelope ok (en_Workspace env) (en_Items env) (en_Stages env) (en_Requested env) (en_Used env) (en_SessionMark env) (en_Truncated env)
    (en_GenerationID env) (en_FallbackUsed env) (en_Warnings env) partial reason (Some e) (en_Continuation env).
(** The text of a single item is halved until the envelope fits. *)
Fixpoint shorten (fuel n : nat) (fields : list gostring) (maxBytes : Z) (sensibilidad : qvalue) (candidate : QItem) (env : Envelope) :
    bool * Envelope :=
  match fuel, n with
  | 0, _ | _, 0 => (false, env)
  | S fuel, _ =>
      let candidate := set_text true (truncateQText (q_Text candidate) n) (q_Read candidate) (q_Seen candidate) candidate in
      let env := set_items [row_of fields sensibilidad candidate] (en_Truncated env) (en_Continuation env) env in
      if (envelope_size env <=? maxBytes)%Z then (true, env)
      else shorten fuel (n / 2) fields maxBytes sensibilidad candidate env
  end.
Definition too_large (env : Envelope) : Envelope :=
  set_failure false false "max_bytes_item_exceeded" (mkError "max_bytes_item_exceeded" "projection" []) env.
(** [next offset] is the continuation at an offset: [baseOffset] and what is delivered. *)
Fixpoint bound_from (fuel : nat) (items : list QItem) (fields : list gostring) (maxBytes : Z) (next : nat -> Continuation)
    (env : Envelope) : Envelope :=
  if (envelope_size env <=? maxBytes)%Z then env
  else
    match fuel, en_Items env with
    | 0, _ | _, [] => too_large env
    | S fuel, rows =>
        let drop_rows rows env := bound_from fuel items fields maxBytes next (set_items rows true (Some (next (length rows))) env) in
        match rows, items with
        | [row], first :: _ =>
            if streq (q_Text first) [] then drop_rows [] env
            else
              let sensibilidad := default (VText []) (Get row "sensibilidad") in
              let '(fits, env) := shorten (S (length (q_Text first))) (length (q_Text first)) fields maxBytes sensibilidad first env in
              if fits then set_items (en_Items env) true (Some (next 1)) env else drop_rows [] env
        | _, _ => drop_rows (take (length rows - 1) rows) env
        end
    end.
Definition qBoundEnvelope (env : Envelope) (items : list QItem) (fields : list gostring) (maxBytes now : Z)
    (query wid workspace generation : gostring) (baseOffset : Z) : Envelope :=
  bound_from (length (en_Items env)) items fields maxBytes
    (fun n => qContinuation now query workspace wid generation (baseOffset + Z.of_nat n)) env.
Definition total_size (rows : list QRow) : Z := foldr (fun r n => JSONSize r + n)%Z 0%Z rows.

(** * [ExecuteQ] *)
Definition session_of (r : qRequest) : gostring :=
  if negb (streq (rq_session_id r) []) then rq_session_id r
  else if negb (streq (rq_SessionID r) []) then rq_SessionID r else "q-" ++ itoa own_pid.
(** The options of the payload go before those of the pipeline. *)
Definition options (r : qRequest) (p : Pipeline) (workspace : gostring) : result Envelope (Z * Z * Z) :=
  let maxBytes := default (MaxBytes p) (rq_max_bytes r) in
  let budget := default (Budget p) (rq_budget r) in
  let timeout := default 10000%Z (rq_timeout_ms r) in
  let refuse text := Err (qFailureFor "stage_failed" "options" text workspace) in
  if (maxBytes <? 1024)%Z then refuse "max_bytes must be at least 1024"
  else if (budget <? 1)%Z || (12000 <? budget)%Z then refuse "budget must be between 1 and 12000"
  else if (timeout <? 1)%Z then refuse "timeout_ms must be between 1 and 30000"
  else Ok (maxBytes, budget, Z.min 30000 timeout).
Definition page_offset (now : Z) (token query wid generation workspace : gostring) : result Envelope Z :=
  if streq token [] then Ok 0%Z
  else match verifyQCursor now token query wid with
       | Err code => Err (qFailureFor code "cursor" code workspace)
       | Ok claims =>
           if negb (streq (cl_Generation claims) generation)
           then Err (qFailureFor "snapshot_changed" "cursor" "snapshot_changed" workspace)
           else Ok (cl_Offset claims)
       end.
(** The rows that were delivered, as the items they come from. *)
Definition delivered (items : list QItem) (rows : list QRow) : list QItem :=
  let byID id := last (filter (fun i => q_ID i = id) items) in
  omap (fun r => match Get r "id" with Some v => byID (sprint v) | None => None end) rows.
Record page_context := mkPage {
  pg_query : gostring; pg_wid : gostring; pg_root : gostring; pg_workspace : gostring; pg_generation : gostring;
  pg_session : gostring; pg_dedupe : bool; pg_budget : Z; pg_maxBytes : Z; pg_timeout : Z; pg_started : Z; pg_offset : Z;
  pg_warnings : list gostring }.
Definition dedupe_key (pg : page_context) : gostring :=
  pg_wid pg ++ "|" ++ pg_generation pg ++ "|" ++ hexEncode (sha256 (pg_query pg)).
Definition first_envelope (pg : page_context) (ru : run_state) (rows : list QRow) (used mark : Z) (truncated : bool) : Envelope :=
  let env := mkEnvelope true (pg_workspace pg) rows (ru_stages ru) (pg_budget pg) ((used + 3) / 4) mark truncated (pg_generation pg)
    (if existsb (fun w => contains w "auto_register_index:") (pg_warnings pg) then "index_pending" else ru_fallback ru)
    (pg_warnings pg) false [] None None in
  if streq (ru_failure ru) [] then env
  else let some := negb (length rows =? 0) in
       set_failure some some (ru_failure ru) (mkError (ru_failure ru) "execute" "q pipeline ended with a typed failure") env.
Definition late (pg : page_context) (now : Z) (env : Envelope) : Envelope :=
  if (pg_timeout pg * 1000000 <? now - pg_started pg)%Z && negb (streq (en_Reason env) "cancelled")
  then let some := negb (length (en_Items env) =? 0) in set_failure some some "timeout" (mkError "timeout" "execute" []) env
  else env.
Definition deliver (pg : page_context) (ru : run_state) : Q Envelope :=
  let items := if ru_sorted ru then ru_items ru else qSort (ru_items ru) (mkStage "sort" ["file" : gostring] ∅ ∅) in
  if (Z.of_nat (length items) <? pg_offset pg)%Z
  then mret (qFailureFor "cursor_invalid" "cursor" "cursor offset outside result" (pg_workspace pg))
  else
    let items := drop (Z.to_nat (pg_offset pg)) items in
    items ← (if pg_dedupe pg then on_sessions items (fun now => FilterDedupe (pg_session pg) (dedupe_key pg) items now) else mret items);
    mark ← on_sessions 0%Z (fun now => NextMark (pg_session pg) now);
    '(rows, used, truncated) ← take_rows (ru_fields ru) (pg_root pg) (pg_budget pg * 4) items [] 0;
    signed ← clock;
    let env := first_envelope pg ru rows used mark truncated in
    let env := if (truncated : bool)
               then set_items rows true (Some (qContinuation signed (pg_query pg) (pg_workspace pg) (pg_wid pg) (pg_generation pg)
                                                 (pg_offset pg + Z.of_nat (length rows)))) env
               else env in
    now ← clock;
    let env := late pg now env in
    now ← clock;
    let env := qBoundEnvelope env items (ru_fields ru) (pg_maxBytes pg) now (pg_query pg) (pg_wid pg) (pg_workspace pg)
                 (pg_generation pg) (pg_offset pg) in
    let env := set_used ((total_size (en_Items env) + 3) / 4) env in
    _ ← (if pg_dedupe pg && en_Ok env && negb (en_Partial env)
         then on_sessions tt (fun now st => (tt, RememberDedupe (pg_session pg) (dedupe_key pg) (delivered items (en_Items env)) now st))
         else mret tt);
    mret env.
Definition parse_text (e : parse_failure) : gostring := match e with GoError msg => msg | RecursionLimit => [] end.
(** What is known before the stages run. *)
Record prepared := mkPrepared { pr_pipeline : Pipeline; pr_page : page_context }.
Definition prepare (r : qRequest) : Q (result Envelope prepared) :=
  started ← clock;
  match Parse (rq_q r) with
  | Err e => mret (Err (qFailureFor "stage_failed" "parse" (parse_text e) (rq_Workspace r)))
  | Ok p =>
      let selector := if streq (Workspace p) [] then rq_Workspace r else Workspace p in
      match options r p selector with
      | Err env => mret (Err env)
      | Ok (maxBytes, budget, timeout) =>
          warnings ← (if negb (rq_NoAutoRegister r) && negb (streq (trimSpace (rq_CallerCWD r)) [])
                      then ask (fun n => auto_register n selector (rq_CallerCWD r)) else mret []);
          selection ← ask (fun n => resolve_selection n selector (rq_CallerCWD r));
          match selection with
          | Err e => env ← qWorkspaceResolutionFailure selector e; mret (Err env)
          | Ok reg =>
              project ← ask (fun n => apply_topology n reg);
              match project with
              | Err text => mret (Err (qFailureFor "stage_failed" "workspace" text (rg_Name reg)))
              | Ok reg =>
                  refused ← check_catalog (Stages p) reg;
                  match refused with
                  | Some env => mret (Err env)
                  | None =>
                      let wid := workspace_id (rg_Root reg) in
                      generation ← ask (fun n => generation_snapshot n (rg_Root reg));
                      now ← clock;
                      mret match page_offset now (if streq (rq_page r) [] then Page p else rq_page r) (rq_q r) wid generation (rg_Name reg) with
                           | Err env => Err env
                           | Ok offset =>
                               Ok (mkPrepared p
                                     (mkPage (rq_q r) wid (rg_Root reg) (rg_Name reg) generation (session_of r) (rq_dedupe r) budget maxBytes
                                        timeout started offset warnings))
                           end
                  end
              end
          end
      end
  end.
Definition start_run (p : Pipeline) : run_state := mkRun [] [] [] [] false (Fields p).
Definition ExecuteQ (r : qRequest) : Q Envelope :=
  ready ← prepare r;
  match ready with
  | Err env => mret env
  | Ok pr =>
      let p := pr_pipeline pr in
      let pg := pr_page pr in
      ru ← run_stages (pg_session pg) (rq_fresh r || Fresh p) (pg_wid pg) (pg_root pg) (Stages p) (start_run p);
      ru ← end_of_run ru;
      deliver pg ru
  end.
End pipeline.
