(* ===== verification/QPipelineFacts.v ===== *)
(** What answers of q-v1 promise: their shape, the page that fits, and that the pages of one
    query are all of its items, once and in order. *)
From S2P Require Import Prelude GoStrings GoStringFacts GoPath GoSort GoNum GoBase64 QueryParser Ids QItem QSession QCursor QPrimitives QLogic QPipeline.

Local Open Scope go_scope.

(** * The page that fits *)
#[export] Instance Continuation_eq_dec : EqDecision Continuation.
Proof. solve_decision. Defined.

Section bounding.
Context `{UnicodeTables} `{EnvelopeJSON}.
Variables (items : list QItem) (fields : list gostring) (maxBytes : Z) (next : nat -> Continuation).

Lemma set_items_twice rows rows' t t' c c' env : set_items rows t c (set_items rows' t' c' env) = set_items rows t c env.
Proof. done. Qed.
Lemma set_items_same env : set_items (en_Items env) (en_Truncated env) (en_Continuation env) env = env.
Proof. by destruct env. Qed.

Definition fits (env : Envelope) : Prop := (envelope_size env <= maxBytes)%Z.
Definition exceeds (env : Envelope) : Prop := (maxBytes < envelope_size env)%Z.
(** The page with the first [k] rows: with fewer rows than there are it has a cursor. *)
Definition page_of (k : nat) (env : Envelope) : Envelope :=
  if k =? length (en_Items env) then env else set_items (take k (en_Items env)) true (Some (next k)) env.

(** A part of the text of an item, marked as cut. *)
Definition shortened (i j : QItem) : Prop :=
  exists n, j = set_text true (take n (q_Text i)) (q_Read i) (q_Seen i) i.
(** The cuts of an item, from the longest: the text is halved until nothing is left of it. *)
Fixpoint cuts_from (fuel n : nat) (i : QItem) : list QItem :=
  match fuel, n with
  | 0, _ | _, 0 => []
  | S fuel, _ =>
      let j := set_text true (truncateQText (q_Text i) n) (q_Read i) (q_Seen i) i in
      j :: cuts_from fuel (n / 2) j
  end.
Definition cuts (i : QItem) : list QItem := cuts_from (S (length (q_Text i))) (length (q_Text i)) i.
Definition first_cuts : list QItem := match items with [] => [] | i :: _ => cuts i end.
(** The page of one row, which is that of a cut of the first item. *)
Definition cut_row (env : Envelope) (j : QItem) : QRow :=
  row_of fields (match en_Items env with row :: _ => default (VText []) (Get row "sensibilidad") | [] => VText [] end) j.
Definition cut_page (env : Envelope) (j : QItem) : Envelope :=
  let one := page_of 1 env in set_items [cut_row env j] (en_Truncated one) (en_Continuation one) env.
Definition no_cut_fits (env : Envelope) : Prop := Forall (fun j => exceeds (cut_page env j)) first_cuts.

Lemma cuts_shortened i j : j ∈ cuts i -> shortened i j.
Proof.
  unfold cuts. generalize (length (q_Text i)) at 2. generalize (S (length (q_Text i))). intros fuel.
  assert (forall n i', i' = i \/ shortened i i' -> j ∈ cuts_from fuel n i' -> shortened i j) as Hgen; [|intros n; apply Hgen; by left].
  induction fuel as [|fuel IH]; intros n i' Hi'; [by intros ?%elem_of_nil|]. destruct n as [|n]; [by intros ?%elem_of_nil|].
  set (m := S n). cbn [cuts_from]. fold m. cbv zeta.
  assert (shortened i (set_text true (truncateQText (q_Text i') m) (q_Read i') (q_Seen i') i')) as Hcut.
  { unfold truncateQText. set (k := cut_at _ _). destruct Hi' as [->|[k' ->]]; [by exists k|]. exists (min k k').
    cbn [q_Text set_text q_Read q_Seen]. by rewrite take_take. }
  intros [->|Hj]%elem_of_cons; [done|]. by eapply IH; [right; exact Hcut|].
Qed.
(** What [shorten] tries. *)
Lemma shorten_cuts fuel n s i env : let with_row j := set_items [row_of fields s j] (en_Truncated env) (en_Continuation env) env in
  match shorten fuel n fields maxBytes s i env with
  | (true, env') => exists tried j left, cuts_from fuel n i = tried ++ j :: left /\ Forall (fun j => exceeds (with_row j)) tried /\
                      fits (with_row j) /\ env' = with_row j
  | (false, env') => Forall (fun j => exceeds (with_row j)) (cuts_from fuel n i) /\
                      exists rows, env' = set_items rows (en_Truncated env) (en_Continuation env) env
  end.
Proof.
  cbv zeta. revert n i env; induction fuel as [|fuel IH]; intros n i env;
    [split; [constructor|eexists; by rewrite set_items_same]|].
  destruct n as [|n]; [split; [constructor|eexists; by rewrite set_items_same]|].
  set (m := S n). cbn [shorten cuts_from]. fold m. cbv zeta. set (j := set_text _ _ _ _ i). destruct (_ <=? _)%Z eqn:E.
  - apply Z.leb_le in E. by exists [], j, (cuts_from fuel (m / 2) j).
  - apply Z.leb_gt in E. specialize (IH (m / 2) j (set_items [row_of fields s j] (en_Truncated env) (en_Continuation env) env)).
    destruct (shorten _ _ _ _ _ _ _) as [[] env'].
    + destruct IH as (tried & j' & left & -> & Htried & Hfit & ->). exists (j :: tried), j', left.
      split_and!; [done|by constructor|done|done].
    + destruct IH as [Hall [rows ->]]. split; [by constructor|]. by exists rows.
Qed.

(** The ways in which the loop ends, for an envelope with the given rows. *)
Inductive bound_outcome (env : Envelope) : Envelope -> Prop :=
| bound_page k : k <= length (en_Items env) -> fits (page_of k env) ->
    (forall j, k < j <= length (en_Items env) -> exceeds (page_of j env)) ->
    (k = 0 -> en_Items env <> [] -> no_cut_fits env) -> bound_outcome env (page_of k env)
| bound_cut tried j left : en_Items env <> [] -> first_cuts = tried ++ j :: left ->
    (forall k, 0 < k <= length (en_Items env) -> exceeds (page_of k env)) ->
    Forall (fun j => exceeds (cut_page env j)) tried -> fits (cut_page env j) ->
    bound_outcome env (set_items [cut_row env j] true (Some (next 1)) env)
| bound_none : (forall k, k <= length (en_Items env) -> exceeds (page_of k env)) ->
    (en_Items env <> [] -> no_cut_fits env) -> bound_outcome env (too_large (page_of 0 env)).

Lemma page_of_all env : page_of (length (en_Items env)) env = env.
Proof. unfold page_of. by rewrite Nat.eqb_refl. Qed.
Lemma page_of_items k env : k <= length (en_Items env) -> en_Items (page_of k env) = take k (en_Items env).
Proof. intros Hk. unfold page_of. destruct (k =? _) eqn:E; [|done]. apply Nat.eqb_eq in E as ->. by rewrite take_ge. Qed.
Lemma page_of_length k env : k <= length (en_Items env) -> length (en_Items (page_of k env)) = k.
Proof. intros Hk. rewrite page_of_items, length_take by done. lia. Qed.
Lemma page_of_page k j env : j <= k -> k <= length (en_Items env) -> page_of j (page_of k env) = page_of j env.
Proof.
  intros Hj Hk. unfold page_of at 1. rewrite page_of_length by done. destruct (j =? k) eqn:E; [by apply Nat.eqb_eq in E as ->|].
  apply Nat.eqb_neq in E. rewrite page_of_items by done. unfold page_of. rewrite (proj2 (Nat.eqb_neq j _)) by lia.
  rewrite take_take, Nat.min_l by lia. by destruct (k =? _).
Qed.
Lemma set_items_page k rows t c env : set_items rows t c (page_of k env) = set_items rows t c env.
Proof. unfold page_of. by destruct (k =? _). Qed.
Lemma cut_row_page k env j : 0 < k <= length (en_Items env) -> cut_row (page_of k env) j = cut_row env j.
Proof. intros [Hpos Hk]. unfold cut_row. rewrite page_of_items by done. destruct k; [lia|]. by destruct (en_Items env). Qed.
Lemma cut_page_page k env j : 0 < k <= length (en_Items env) -> cut_page (page_of k env) j = cut_page env j.
Proof. intros Hk. unfold cut_page. by rewrite cut_row_page, page_of_page, set_items_page by lia. Qed.

(** One row less. *)
Lemma bound_dropped k env env' : S k = length (en_Items env) -> exceeds env -> (k = 0 -> no_cut_fits env) ->
  bound_outcome (page_of k env) env' -> bound_outcome env env'.
Proof.
  intros Hk Hbig Hcuts Hout. assert (en_Items env <> []) as Hne by (by destruct (en_Items env)).
  assert (forall j, k < j <= length (en_Items env) -> exceeds (page_of j env)) as Hlast.
  { intros j Hj. replace j with (length (en_Items env)) by lia. by rewrite page_of_all. }
  assert (forall P : nat -> Prop, (forall j, P j -> j <= k -> exceeds (page_of j (page_of k env))) ->
            forall j, P j -> j <= length (en_Items env) -> exceeds (page_of j env)) as Hbigs.
  { intros P HP j Hj Hle. destruct (decide (j <= k)) as [?|?]; [|apply Hlast; lia].
    rewrite <- (page_of_page k j env) by lia. by apply HP. }
  assert (en_Items (page_of k env) <> [] \/ k = 0) as Hk0.
  { destruct k; [by right|left]. intros Hnil. apply (f_equal length) in Hnil. rewrite page_of_length in Hnil by lia. done. }
  assert ((en_Items (page_of k env) <> [] -> no_cut_fits (page_of k env)) -> no_cut_fits env) as Hno.
  { destruct Hk0 as [Hne'|E]; [|auto]. intros Hno. specialize (Hno Hne'). eapply Forall_impl; [exact Hno|]. intros j Hj. cbn beta in Hj.
    rewrite cut_page_page in Hj; [done|]. rewrite page_of_items in Hne' by lia. destruct k; [done|lia]. }
  destruct Hout as [j Hj Hfit Hmore Hcut|tried j left Hne' Hfirst Hmore Htried Hfit|Hmore Hcut]; rewrite ?page_of_length in * by lia.
  - rewrite page_of_page in Hfit |- * by lia. apply bound_page; [lia|done| |auto]. intros m Hm.
    apply (Hbigs (fun m => j < m)); [intros; apply Hmore|..]; lia.
  - assert (0 < k <= length (en_Items env)) as Hk' by (destruct k; [by rewrite page_of_items in Hne' by lia|lia]).
    rewrite set_items_page, cut_row_page by done. rewrite cut_page_page in Hfit by done. apply (bound_cut _ tried j left); [done|done| | |done].
    + intros m Hm. apply (Hbigs (fun m => 0 < m)); [intros; apply Hmore|..]; lia.
    + eapply Forall_impl; [exact Htried|]. intros j' Hj'. cbn beta in Hj'. by rewrite cut_page_page in Hj'.
  - rewrite page_of_page by lia. apply bound_none; [|auto]. intros m Hm.
    apply (Hbigs (fun _ => True)); [intros; by apply Hmore|done|done].
Qed.
Lemma bound_all env : fits env -> bound_outcome env env.
Proof.
  intros Hfit. rewrite <- (page_of_all env) at 2. apply bound_page; [done|by rewrite page_of_all|lia|].
  by intros ->%nil_length_inv.
Qed.
Lemma bound_empty env : en_Items env = [] -> exceeds env -> bound_outcome env (too_large env).
Proof.
  intros Hnil Hbig. assert (page_of 0 env = env) as E by (rewrite <- (page_of_all env) at 2; by rewrite Hnil).
  rewrite <- E at 2. apply bound_none; [|done]. rewrite Hnil. intros k Hk. cbn in Hk. replace k with 0 by lia. by rewrite E.
Qed.
Lemma bound_from_outcome fuel env : length (en_Items env) <= fuel ->
  bound_outcome env (bound_from fuel items fields maxBytes next env).
Proof.
  revert env; induction fuel as [|fuel IH]; intros env Hf; cbn [bound_from];
    (destruct (envelope_size env <=? maxBytes)%Z eqn:Es; [apply Z.leb_le in Es; by apply bound_all|apply Z.leb_gt in Es]).
  { destruct (en_Items env) eqn:E; [by apply bound_empty|cbn in Hf; lia]. }
  assert (forall k rows, S k = length (en_Items env) -> rows = take k (en_Items env) -> (k = 0 -> no_cut_fits env) ->
    bound_outcome env (bound_from fuel items fields maxBytes next (set_items rows true (Some (next (length rows))) env))) as Hdrop.
  { intros k rows Hk -> Hcuts. apply (bound_dropped k); [done|done|done|]. rewrite length_take, Nat.min_l by lia.
    assert (set_items (take k (en_Items env)) true (Some (next k)) env = page_of k env) as ->
      by (unfold page_of; by rewrite (proj2 (Nat.eqb_neq k _)) by lia).
    apply IH. rewrite page_of_length; lia. }
  destruct (en_Items env) as [|row rows] eqn:Er; [by apply bound_empty|].
  destruct rows as [|row2 rows].
  2:{ set (k := length (row :: row2 :: rows) - 1). assert (k <> 0) as Hk0 by (subst k; cbn; lia).
      assert (bound_outcome env (bound_from fuel items fields maxBytes next
        (set_items (take k (row :: row2 :: rows)) true (Some (next (length (take k (row :: row2 :: rows))))) env))) as Hout
        by (apply (Hdrop k); [subst k; cbn; lia|done|by intros ?]). by destruct items. }
  assert (page_of 1 env = env) as Hone by (unfold page_of; by rewrite Er).
  destruct items as [|first rest] eqn:Ei.
  { apply (Hdrop 0); [done|done|]. intros _. unfold no_cut_fits, first_cuts. rewrite Ei. constructor. }
  assert (forall j, cut_page env j = set_items [row_of fields (default (VText []) (Get row "sensibilidad")) j] (en_Truncated env) (en_Continuation env) env) as Hcp.
  { intros j. unfold cut_page, cut_row. cbv zeta. by rewrite Hone, Er. }
  destruct (streq (q_Text first) []) eqn:Et.
  { apply (Hdrop 0); [done|done|]. intros _. unfold no_cut_fits, first_cuts. rewrite Ei. apply streq_true in Et.
    unfold cuts. rewrite Et. constructor. }
  pose proof (shorten_cuts (S (length (q_Text first))) (length (q_Text first)) (default (VText []) (Get row "sensibilidad")) first env) as Hs.
  cbv zeta in Hs. destruct (shorten _ _ _ _ _ _ _) as [[] env1].
  - destruct Hs as (tried & j & left & Hcuts & Htried & Hfit & ->). cbn [set_items en_Items].
    rewrite set_items_twice.
    assert (cut_row env j = row_of fields (default (VText []) (Get row "sensibilidad")) j) as <- by (unfold cut_row; by rewrite Er).
    apply (bound_cut _ tried j left); [by rewrite Er|unfold first_cuts; by rewrite Ei| | |by rewrite Hcp].
    + rewrite Er. intros k Hk. cbn in Hk. replace k with 1 by lia. by rewrite Hone.
    + eapply Forall_impl; [exact Htried|]. intros j' Hj'. by rewrite Hcp.
  - destruct Hs as [Hall [rows ->]]. rewrite set_items_twice. apply (Hdrop 0 []); [done|done|]. intros _.
    unfold no_cut_fits, first_cuts. rewrite Ei. eapply Forall_impl; [exact Hall|]. intros j' Hj'. by rewrite Hcp.
Qed.
(** The cut page as it is returned. *)
Lemma cut_page_returned env j : en_Items env <> [] -> fits (cut_page env j) ->
  fits (set_items [cut_row env j] true (Some (next 1)) env) \/
  (length (en_Items env) = 1 /\ (en_Truncated env, en_Continuation env) <> (true, Some (next 1))).
Proof.
  unfold cut_page, page_of. cbv zeta. intros Hne Hfit. destruct (1 =? _) eqn:E; [|by left]. apply Nat.eqb_eq in E.
  destruct (decide ((en_Truncated env, en_Continuation env) = (true, Some (next 1)))) as [[= Ht Hc]|]; [left|by right].
  by rewrite Ht, Hc in Hfit.
Qed.
End bounding.


(** * The shape of an answer *)
Definition public_reasons : list gostring :=
  ["timeout"; "cancelled"; "cursor_invalid"; "cursor_expired"; "snapshot_changed"; "stage_failed"; "max_bytes_item_exceeded"].
Ltac public_code := first [done | exact (bool_decide_unpack _ I) | apply (bool_decide_unpack _); vm_compute; exact I].
(** Nothing failed; or what failed has a public code, that the error repeats, and an answer
    that is not [Ok] has no items. *)
Inductive answer_shape (env : Envelope) : Prop :=
| shape_ok : en_Reason env = [] -> en_Error env = None -> en_Ok env = true -> en_Partial env = false -> answer_shape env
| shape_failed e : en_Error env = Some e -> er_Code e = en_Reason env -> en_Reason env ∈ public_reasons ->
    en_Ok env = en_Partial env -> (en_Ok env = false -> en_Items env = []) -> answer_shape env.

Section shape.
Context `{UnicodeTables} `{SHA256} `{MapOrder} `{World} `{Schedule} `{Workspaces} `{ClaimsJSON} `{CursorKey} `{EnvelopeJSON}.

Definition public_or_none (reason : gostring) : Prop := reason = [] \/ reason ∈ public_reasons.
Lemma qPublicReason_public reason : public_or_none (qPublicReason reason).
Proof.
  unfold qPublicReason, public_or_none, public_reasons. destruct (oneOf reason _) eqn:E; [|right; public_code].
  unfold oneOf in E. apply bool_decide_eq_true in E. change (reason ∈ public_reasons ++ [[]]) in E.
  apply elem_of_app in E as [E|E%list_elem_of_singleton]; [by right|by left].
Qed.
Lemma ctx_code_public e : qContextCode e ∈ public_reasons.
Proof. destruct e; public_code. Qed.

Lemma run_stages_public session fresh wid root stages ru : public_or_none (ru_failure ru) ->
  returns (fun ru' => public_or_none (ru_failure ru')) (run_stages session fresh wid root stages ru).
Proof.
  revert ru. induction stages as [|stage stages IH]; intros ru Hru; cbn [run_stages]; [by apply returns_ret|].
  apply returns_bind with (P := fun o => forall code, o = Some code -> code ∈ public_reasons).
  { apply returns_ask. intros n code. destruct (ctx_Err n); [|done]. intros [= <-]. apply ctx_code_public. }
  intros [code|] Hc; [apply returns_ret; right; by apply Hc|].
  do 3 (eapply returns_bind; [apply returns_any|]; intros ? _). apply IH. cbn [after_stage ru_failure].
  destruct (_ && _); [apply qPublicReason_public|done].
Qed.
Lemma end_of_run_public ru : public_or_none (ru_failure ru) -> returns (fun ru' => public_or_none (ru_failure ru')) (end_of_run ru).
Proof.
  intros Hru. apply returns_bind with (P := fun o => forall code, o = Some code -> code ∈ public_reasons).
  { apply returns_ask. intros n code. destruct (ctx_Err n); [|done]. intros [= <-]. apply ctx_code_public. }
  intros [code|] Hc; apply returns_ret; [|done]. destruct (_ || _); [right; by apply Hc|done].
Qed.
Lemma failure_shape code stage detail workspace : code ∈ public_reasons -> answer_shape (qFailureFor code stage detail workspace).
Proof. intros Hc. by eapply shape_failed. Qed.
Lemma set_items_shape rows t c env : (en_Items env = [] -> rows = []) -> answer_shape env -> answer_shape (set_items rows t c env).
Proof.
  intros Hr [? ? ? ?|e ? ? ? ? Hempty]; [by apply shape_ok|]. eapply shape_failed; cbn [set_items en_Ok en_Items en_Error en_Reason en_Partial]; eauto.
Qed.
Lemma set_used_shape used env : answer_shape env -> answer_shape (set_used used env).
Proof. by intros [? ? ? ?|e ? ? ? ? ?]; [apply shape_ok|eapply shape_failed; cbn]. Qed.
Lemma bound_shape items fields maxBytes next env env' : bound_outcome items fields maxBytes next env env' -> answer_shape env -> answer_shape env'.
Proof.
  intros [k Hk Hfit Hmore Hcut|tried j left Hne Hfirst Hmore Htried Hfit|Hmore Hcut] Hshape.
  - unfold page_of. destruct (k =? _); [done|]. apply set_items_shape; [|done]. intros ->. apply take_nil.
  - by apply set_items_shape.
  - eapply shape_failed; try done; [public_code|]. intros _. change (en_Items (page_of next 0 env) = []). by rewrite page_of_items by lia.
Qed.
Lemma first_envelope_items pg ru rows used mark truncated : en_Items (first_envelope pg ru rows used mark truncated) = rows.
Proof. unfold first_envelope. by destruct (streq _ _). Qed.
Lemma first_envelope_shape pg ru rows used mark truncated : public_or_none (ru_failure ru) ->
  answer_shape (first_envelope pg ru rows used mark truncated).
Proof.
  intros Hf. unfold first_envelope. destruct (streq (ru_failure ru) []) eqn:E; [by apply shape_ok|].
  eapply shape_failed; cbn; try done.
  - destruct Hf as [Hf|Hf]; [by rewrite Hf in E|done].
  - by destruct rows.
Qed.
Lemma late_shape pg now env : answer_shape env -> answer_shape (late pg now env).
Proof.
  intros Hs. unfold late. destruct (_ && _); [|done]. eapply shape_failed; cbn; try done.
  - public_code.
  - by destruct (en_Items env).
Qed.
Lemma deliver_shape pg ru : public_or_none (ru_failure ru) -> returns answer_shape (deliver pg ru).
Proof.
  intros Hru. unfold deliver. cbv zeta. destruct (_ <? _)%Z.
  { apply returns_ret, failure_shape. public_code. }
  do 2 (eapply returns_bind; [apply returns_any|]; intros ? _).
  eapply returns_bind; [apply returns_any|]. intros [[rows used] truncated] _.
  do 3 (eapply returns_bind; [apply returns_any|]; intros ? _).
  eapply returns_bind; [apply returns_any|]; intros _ _. apply returns_ret, set_used_shape.
  eapply bound_shape; [by apply bound_from_outcome|]. apply late_shape.
  destruct truncated; [apply set_items_shape; [by rewrite first_envelope_items|]|]; by apply first_envelope_shape.
Qed.
Lemma stage_failed_public : ("stage_failed" : gostring) ∈ public_reasons.
Proof. public_code. Qed.
Lemma prepare_shape r : returns (fun a => match a with Err env => answer_shape env | Ok _ => True end) (prepare r).
Proof.
  pose proof stage_failed_public as Hsf. unfold prepare.
  eapply returns_bind; [apply returns_any|]. intros started _.
  destruct (Parse (rq_q r)) as [p|e]; [|by apply returns_ret, failure_shape]. cbv zeta.
  destruct (options _ _ _) as [[[maxBytes budget] timeout]|env] eqn:Eo.
  2:{ apply returns_ret. unfold options in Eo. repeat case_match; simplify_eq; by apply failure_shape. }
  eapply returns_bind; [apply returns_any|]. intros warnings _.
  eapply returns_bind; [apply returns_any|]. intros [reg|e] _.
  2:{ apply returns_bind with (P := answer_shape); [|intros env Henv; by apply returns_ret].
      destruct e; cbn [qWorkspaceResolutionFailure]; try (by apply returns_ret, failure_shape).
      eapply returns_bind; [apply returns_any|]. intros [root alias] _. by apply returns_ret, failure_shape. }
  eapply returns_bind; [apply returns_any|]. intros [reg'|e] _; [|by apply returns_ret, failure_shape].
  apply returns_bind with (P := fun o => forall env, o = Some env -> answer_shape env).
  { unfold check_catalog. destruct (negb _); [by apply returns_ret|].
    eapply returns_bind; [apply returns_any|]. intros [] _; cbn [negb].
    - eapply returns_bind; [apply returns_any|]. intros ready _. apply returns_ret.
      intros env. destruct (default _ _); [done|]. intros [= <-]. by apply failure_shape.
    - apply returns_ret. intros env [= <-]. by apply failure_shape. }
  intros [env|] Hrefused; [by apply returns_ret, Hrefused|].
  do 2 (eapply returns_bind; [apply returns_any|]; intros ? _). apply returns_ret.
  destruct (page_offset _ _ _ _ _ _) as [offset|env] eqn:Ep; [done|].
  unfold page_offset, verifyQCursor in Ep. repeat case_match; simplify_eq; apply failure_shape; public_code.
Qed.

(** C16: every answer of [ExecuteQ], whatever the workspace and its services answer, is either
    complete, [Ok] without an error, or carries one of the seven public codes, both as its
    reason and in its error; it is then [Ok] exactly when it is partial, and an answer that
    is not [Ok] has no items. *)
Theorem answer_wellformed (r : qRequest) (s : qstate) : answer_shape (ExecuteQ r s).1.
Proof.
  revert s. change (returns answer_shape (ExecuteQ r)). unfold ExecuteQ.
  eapply returns_bind; [apply prepare_shape|]. intros [pr|env] Hpr; [|by apply returns_ret].
  eapply returns_bind; [apply run_stages_public; by left|]. intros ru Hru.
  eapply returns_bind; [by apply end_of_run_public|]. intros ru' Hru'. by apply deliver_shape.
Qed.
End shape.
