(* ===== verification/QStagesFacts.v ===== *)
(** What the stages of q-v1 mean: the stages that the parser accepts do what they say, the
    concurrent stage of edges does what a sequential one does, and every stage of a run is
    recorded. *)
From S2P Require Import Prelude GoStrings GoStringFacts GoPath GoSort GoNum QueryParser QueryParserFacts Ids QItem QSession QCursor QPrimitives QLogic QPipeline QPipelineFacts.

Local Open Scope go_scope.

(** * Sorting *)
Lemma flip_compare_total {A} (cmp : A -> A -> comparison) : TotalCmp cmp -> TotalCmp (fun a b => cmp b a).
Proof.
  intros Ht. constructor; intros.
  - rewrite (cmp_eq (cmp := cmp)). split; by intros ->.
  - apply (cmp_opp (cmp := cmp)).
  - by eapply (cmp_trans (cmp := cmp)).
Qed.
#[export] Instance sort_cmp_total desc : TotalCmp (sort_cmp desc).
Proof.
  pose proof (flip_compare_total compareString _). unfold sort_cmp. destruct desc; apply _.
Qed.

Lemma StronglySorted_mono {A} (R T : relation A) l : (forall a b, R a b -> T a b) -> StronglySorted R l -> StronglySorted T l.
Proof. intros HRT. induction 1 as [|a l _ IH Hall]; constructor; [done|]. eapply Forall_impl; [exact Hall|]. auto. Qed.

Section transforms.
Context `{UnicodeTables}.

Definition field_text (field : gostring) (i : QItem) : gostring := sprint (Field i field).1.
(** By the text of the field, then by line, then by identity. *)
Definition item_before (field : gostring) (desc : bool) (a b : QItem) : Prop :=
  let c := compareString (field_text field a) (field_text field b) in
  c = (if desc then Gt else Lt) \/
  (field_text field a = field_text field b /\
   ((q_Line a < q_Line b)%Z \/ (q_Line a = q_Line b /\ compareString (q_ID a) (q_ID b) <> Gt))).
Lemma before_item_before field desc a b : before (sort_cmp desc) (sort_key field) a b -> item_before field desc a b.
Proof.
  unfold before, sort_cmp, sort_key, item_before, cmp_pair. cbn [fst snd]. fold (field_text field a) (field_text field b).
  pose proof (cmp_eq (cmp := compareString) (field_text field a) (field_text field b)) as Heq.
  pose proof (cmp_opp (cmp := compareString) (field_text field a) (field_text field b)) as Hopp.
  destruct desc; rewrite ?Hopp; clear Hopp;
    (destruct (compareString (field_text field a) (field_text field b)); cbn [CompOpp]; intros Hb; [right|first [by left|done]..]);
    (split; [by apply Heq|]; destruct (q_Line a ?= q_Line b)%Z eqn:El;
      [right; split; [by apply Z.compare_eq|done] | left; by apply Z.compare_lt_iff | done]).
Qed.
Definition descending (s : Stage) : bool := match Args s with _ :: d :: _ => equalFoldWord d "desc" | _ => false end.
Definition sort_field (s : Stage) : gostring := if streq (firstArg s) [] then "file" else firstArg s.
Lemma qSort_sorted items s : qSort items s ≡ₚ items /\ StronglySorted (item_before (sort_field s) (descending s)) (qSort items s).
Proof.
  split; [apply sortOn_perm; apply _|]. eapply StronglySorted_mono; [|apply (sortOn_sorted _ _ items)].
  intros a b. apply before_item_before.
Qed.
(** Items that differ in file, line or identity come in one order. *)
Lemma qSort_canonical items items' s : (forall i j, i ∈ items -> j ∈ items -> q_ID i = q_ID j -> i = j) -> items ≡ₚ items' -> qSort items s = qSort items' s.
Proof.
  intros Hinj Hp. apply sortOn_Permutation; [apply _| |done].
  intros i j Hi Hj E. apply (f_equal (fun k => k.2.2)) in E. by apply Hinj.
Qed.

(** * Repetitions *)
Lemma uniq_from_spec seen items :
  NoDup (map uniq_key (uniq_from seen items)) /\
  (forall k, k ∈ map uniq_key (uniq_from seen items) <-> k ∈ map uniq_key items /\ k ∉ seen) /\
  uniq_from seen items `sublist_of` items.
Proof.
  revert seen; induction items as [|i items IH]; intros seen; cbn [uniq_from map].
  { split_and!; [constructor| |done]. intros k. rewrite elem_of_nil. tauto. }
  unfold oneOf. case_bool_decide as Hs.
  - destruct (IH seen) as (H1 & H2 & H3). split_and!; [done| |by constructor]. intros k. rewrite H2, elem_of_cons.
    split; [tauto|]. by intros [[->|?] ?].
  - destruct (IH (uniq_key i :: seen)) as (H1 & H2 & H3). cbn [map]. split_and!; [|intros k|by constructor].
    + constructor; [|done]. rewrite H2, elem_of_cons. tauto.
    + rewrite !elem_of_cons, H2, elem_of_cons. destruct (decide (k = uniq_key i)) as [->|]; tauto.
Qed.

Lemma uniq_from_first seen l1 i l2 : uniq_key i ∉ map uniq_key l1 -> uniq_key i ∉ seen -> i ∈ uniq_from seen (l1 ++ i :: l2).
Proof.
  revert seen; induction l1 as [|j l1 IH]; intros seen Hl Hs; cbn [app uniq_from map] in *; unfold oneOf.
  - rewrite bool_decide_false by done. left.
  - apply not_elem_of_cons in Hl as [Hj Hl]. case_bool_decide; [by apply IH|]. right. apply IH; [done|]. by apply not_elem_of_cons.
Qed.

(** * The text of a filter *)
(** The first place where [sep] stands in a text is between [pre] and [post]. *)
Definition first_place (text sep pre post : gostring) : Prop :=
  text = pre ++ sep ++ post /\ forall a b, text = a ++ sep ++ b -> length pre <= length a.
Lemma index_first text sep at_ : index text sep = Some at_ ->
  first_place text sep (take at_ text) (drop (at_ + length sep) text).
Proof.
  unfold first_place. revert at_; induction text as [|c text IH]; intros at_; cbn [index].
  - destruct (hasPrefix [] sep) eqn:Hp; [|done]. intros [= <-]. apply hasPrefix_iff in Hp as [b Hb].
    symmetry in Hb. apply app_eq_nil in Hb as [-> ->]. split; [done|]. intros. apply Nat.le_0_l.
  - destruct (hasPrefix (c :: text) sep) eqn:Hp.
    + intros [= <-]. apply hasPrefix_iff in Hp as [b Hb]. split; [|intros; apply Nat.le_0_l].
      cbn [take app Nat.add]. by rewrite Hb, drop_app_length.
    + destruct (index text sep) as [n|]; [|done]. intros [= <-]. destruct (IH n eq_refl) as [E Hfirst].
      split; [cbn [take drop app Nat.add]; congruence|]. intros [|d a] b Hab.
      * apply not_true_iff_false in Hp. destruct Hp. apply hasPrefix_iff. by exists b.
      * injection Hab as -> Hab. apply Hfirst in Hab. cbn. lia.
Qed.
Lemma index_absent text sep : index text sep = None <-> forall a b, text <> a ++ sep ++ b.
Proof.
  induction text as [|c text IH]; cbn [index].
  - destruct (hasPrefix [] sep) eqn:Hp.
    + apply hasPrefix_iff in Hp as [b Hb]. split; [done|]. intros Hno. by destruct (Hno [] b).
    + split; [|done]. intros _ a b E. symmetry in E. apply app_eq_nil in E as [_ [-> _]%app_eq_nil]. done.
  - destruct (hasPrefix (c :: text) sep) eqn:Hp.
    + apply hasPrefix_iff in Hp as [b Hb]. split; [done|]. intros Hno. by destruct (Hno [] b).
    + rewrite fmap_None, IH. split.
      * intros Hno [|d a] b E; [cbn [app] in E; rewrite E in Hp; by rewrite hasPrefix_app in Hp|].
        injection E as -> E. by apply (Hno a b).
      * intros Hno a b E. apply (Hno (c :: a) b). cbn. congruence.
Qed.

Definition where_ops : list gostring := ["!~"; "!="; "="; "~"].
(** How the text of a filter is read: the operators are tried in their order, and one that
    does not stand in the text, or stands first in it, is passed over.  Before the first
    place of the operator stands the field, after it the value, which may be quoted. *)
Definition where_reads (text field op value : gostring) : Prop :=
  exists earlier later pre post, where_ops = earlier ++ op :: later /\
    first_place text op pre post /\ pre <> [] /\ field = trimSpace pre /\ value = trimSet (trimSpace post) [QUOTE; APOS] /\
    forall op', op' ∈ earlier -> (forall a b, text <> a ++ op' ++ b) \/ exists b, text = op' ++ b.
(** What an operator says of the text of a field. *)
Definition op_holds (op value text : gostring) : Prop :=
  (op = "=" /\ text = value) \/ (op = "!=" /\ text <> value) \/
  (op = "~" /\ exists a b, text = a ++ value ++ b) \/ (op = "!~" /\ forall a b, text <> a ++ value ++ b).

Lemma contains_holds text value : contains text value = true <-> exists a b, text = a ++ value ++ b.
Proof.
  unfold contains. destruct (index text value) as [n|] eqn:E.
  - apply index_first in E as [E _]. split; [eauto|done].
  - pose proof (proj1 (index_absent _ _) E) as Hno. split; [done|]. intros (a & b & Eab). by destruct (Hno a b).
Qed.
Lemma where_matches_holds op value text : op ∈ where_ops -> (where_matches op value text = true <-> op_holds op value text).
Proof.
  intros Hop. unfold op_holds. repeat apply elem_of_cons in Hop as [->|Hop]; [..|by apply elem_of_nil in Hop].
  - change (where_matches "!~" value text) with (negb (contains text value)).
    rewrite negb_true_iff, <- not_true_iff_false, contains_holds. split.
    + intros Hno. do 3 right. split; [done|]. intros a b E. apply Hno. eauto.
    + intros [[? _]|[[? _]|[[? _]|[_ Hno]]]]; try done. intros (a & b & E). by apply (Hno a b).
  - change (where_matches "!=" value text) with (negb (streq text value)).
    rewrite negb_true_iff, <- not_true_iff_false, streq_true. split; [by right; left|].
    by intros [[? _]|[[_ ?]|[[? _]|[? _]]]].
  - change (where_matches "=" value text) with (streq text value).
    rewrite streq_true. split; [by left|]. by intros [[_ ?]|[[? _]|[[? _]|[? _]]]].
  - change (where_matches "~" value text) with (contains text value).
    rewrite contains_holds. split; [by right; right; left|]. by intros [[? _]|[[? _]|[[_ ?]|[? _]]]].
Qed.

(** * The stages that the parser accepts *)
Lemma where_from_filter earlier ops text field :
  where_ops = earlier ++ ops -> where_field text ops = Some field ->
  (forall op', op' ∈ earlier -> (forall a b, text <> a ++ op' ++ b) \/ exists b, text = op' ++ b) ->
  exists op value, op ∈ where_ops /\ where_reads text field op value /\
    forall items : list QItem, where_from ops text items = filter (fun i => where_matches op value (field_text field i) = true) items.
Proof.
  revert earlier; induction ops as [|op ops IH]; intros earlier Hops; [done|]. cbn [where_field where_from]. intros Hf Hpassed.
  assert (Hnext : where_ops = (earlier ++ [op]) ++ ops) by by rewrite <- app_assoc.
  destruct (index text op) as [[|n]|] eqn:E.
  - apply (IH _ Hnext Hf). intros op' [?| ->%list_elem_of_singleton]%elem_of_app; [by apply Hpassed|].
    right. apply index_first in E as [E _]. by exists (drop (length op) text).
  - injection Hf as <-. eexists op, (trimSet (trimSpace (drop (S n + length op) text)) [QUOTE; APOS]).
    split_and!; [rewrite Hops; apply elem_of_app; right; left| |done].
    exists earlier, ops, (take (S n) text), (drop (S n + length op) text).
    split_and!; [done|by apply index_first| |done|done|done].
    destruct text; [|done]. cbn [index] in E. by destruct (hasPrefix _ _).
  - apply (IH _ Hnext Hf). intros op' [?| ->%list_elem_of_singleton]%elem_of_app; [by apply Hpassed|].
    left. by apply (proj1 (index_absent _ _)).
Qed.
Lemma where_allowed_known field : whereFieldAllowed field = true -> QFieldValid field = true.
Proof.
  intros Hin%bool_decide_eq_true. revert field Hin. apply Forall_forall. by repeat constructor.
Qed.

(** The argument of a stage that [validateStage] accepts. *)
Lemma accepted_where s : Verb s = "where" -> validateStage s = Ok tt ->
  exists field op value, whereFieldAllowed field = true /\ op ∈ where_ops /\ where_reads (join (Args s) " ") field op value /\
    forall items, qWhere items s = filter (fun i => where_matches op value (field_text field i) = true) items.
Proof.
  intros Hv Hok. destruct s as [verb args opts flags]. cbn [Verb] in Hv. subst verb.
  change (validateArgVerb (mkStage "where" args opts flags) = Ok tt) in Hok. unfold validateArgVerb in Hok.
  bind_inv Hok as u1 H1. bind_inv Hok as u2 H2. bind_inv Hok as u3 H3. bind_inv Hok as u4 H4. bind_inv Hok as u5 H5.
  change (validateWhere (mkStage "where" args opts flags) = Ok tt) in Hok. unfold validateWhere in Hok. cbn [Args] in Hok, H1.
  destruct (where_field _ _) as [field|] eqn:Ef; [|done]. apply ensure_ok in Hok.
  apply (where_from_filter []) in Ef as (op & value & Hop & Hr & Hf); [|done|by intros ? ?%elem_of_nil].
  exists field, op, value. split_and!; [done|done|done|].
  intros items. unfold qWhere. cbn [Args]. destruct args as [|a args]; [|apply Hf].
  by apply ensure_ok in H1.
Qed.
Lemma accepted_limit s : Verb s = "limit" -> validateStage s = Ok tt ->
  exists n, atoi (arg0 s) = Some n /\ (0 <= n)%Z /\ forall items, qLimit items s = take (Z.to_nat n) items.
Proof.
  intros Hv Hok. destruct s as [verb args opts flags]. cbn [Verb] in Hv. subst verb.
  change (validateLimit (mkStage "limit" args opts flags) = Ok tt) in Hok. unfold validateLimit in Hok.
  bind_inv Hok as u1 H1. destruct (atoi _) as [n|] eqn:En; [|done]. apply ensure_ok in Hok. bool_to_prop.
  exists n. split_and!; [done|done|]. intros items. unfold qLimit, firstArg, parseInt. rewrite En. by rewrite Z.max_r.
Qed.
Lemma accepted_sort s : Verb s = "sort" -> validateStage s = Ok tt ->
  fieldAllowed (arg0 s) = true /\ sort_field s = arg0 s /\ descending s = bool_decide (Args s !! 1 = Some ("desc" : gostring)).
Proof.
  intros Hv Hok. destruct s as [verb args opts flags]. cbn [Verb] in Hv. subst verb.
  change (validateArgVerb (mkStage "sort" args opts flags) = Ok tt) in Hok. unfold validateArgVerb in Hok.
  bind_inv Hok as u1 H1. bind_inv Hok as u2 H2. bind_inv Hok as u3 H3. bind_inv Hok as u4 H4. clear Hok H1 H2.
  apply ensure_ok in H3, H4. apply negb_true_iff in H3, H4. apply andb_false_iff in H3 as [H3|H3]; [done|].
  apply andb_false_iff in H4 as [H4|H4]; [done|]. apply negb_false_iff in H4. split; [done|].
  unfold sort_field, firstArg. split.
  - destruct (streq _ []) eqn:E; [|done]. apply streq_true in E. by rewrite E in H4.
  - unfold descending. cbn [Args] in *. destruct args as [|a [|d args]]; [done|done|]. cbn [length] in H3.
    apply orb_false_iff in H3 as [Hl Ho]. destruct args; [|done]. cbn in Ho. apply negb_false_iff in Ho.
    unfold inList in Ho. apply bool_decide_eq_true in Ho. cbn [lookup list_lookup].
    apply elem_of_cons in Ho as [->|Ho%list_elem_of_singleton]; [|subst d]; by vm_compute.
Qed.
Lemma accepted_edges s : Verb s = "edges" -> validateStage s = Ok tt ->
  oneOf (firstArg s) ["refs"; "callers"; "callees"; "impl"] = true /\ (1 <= edge_depth s <= 3)%Z /\
  (opt s "depth" <> [] -> atoi (opt s "depth") = Some (edge_depth s)).
Proof.
  intros Hv Hok. destruct s as [verb args opts flags]. cbn [Verb] in Hv. subst verb.
  change (validateEdges (mkStage "edges" args opts flags) = Ok tt) in Hok. unfold validateEdges in Hok.
  bind_inv Hok as u1 H1. bind_inv Hok as u2 H2. apply ensure_ok in H2. split; [done|].
  split; [unfold edge_depth; lia|]. intros Hd. rewrite bool_decide_false in Hok by done.
  unfold edge_depth, parseInt. destruct (atoi _) as [n|]; [|done]. apply ensure_ok in Hok. bool_to_prop. f_equal. lia.
Qed.

End transforms.

(** * Edges *)
Section edges.
Context `{UnicodeTables} `{SHA256} `{MapOrder} `{World}.

(** What the job for an item answers in a workspace that does not change. *)
Definition answer_for (dir : gostring) (depth : Z) (wid : gostring) (source : QItem) : qExecution :=
  (edge_result dir depth source wid (mkQState 0 None)).1.
Lemma edge_result_answer (W : steady_world) dir depth wid source s : alone s ->
  (edge_result dir depth source wid s).1 = answer_for dir depth wid source /\ alone (edge_result dir depth source wid s).2.
Proof. intros Hs. by destruct (steady_edge_result W dir depth source wid s (mkQState 0 None) Hs eq_refl) as (? & ? & _). Qed.
(** Every job puts its answer at its place, whichever ends first. *)
Lemma edge_jobs_answers (W : steady_world) dir depth wid items order results s : alone s -> NoDup order -> length results = length items ->
  alone (edge_jobs dir depth items order results wid s).2 /\
  (edge_jobs dir depth items order results wid s).1 =
    imap (fun i r => if bool_decide (i ∈ order) then default r (answer_for dir depth wid <$> items !! i) else r) results.
Proof.
  intros Hs. revert results s Hs. induction order as [|index order IH]; intros results s Hs Hnd Hlen; cbn [edge_jobs].
  { split; [done|]. cbn [mret Q_ret fst]. rewrite <- (list_fmap_id results) at 1. rewrite <- imap_const. by apply imap_ext. }
  apply NoDup_cons in Hnd as [Hni Hnd]. destruct (items !! index) as [source|] eqn:Esource.
  - unfold mbind, Q_bind. destruct (edge_result_answer W dir depth wid source s Hs) as [Ea Hs1].
    destruct (edge_result dir depth source wid s) as [r s1]. cbn [fst snd] in Ea, Hs1. subst r.
    destruct (IH (<[index := answer_for dir depth wid source]> results) s1 Hs1 Hnd) as [Hs2 E]; [by rewrite length_insert|].
    split; [done|]. rewrite E. apply list_eq. intros i. rewrite !list_lookup_imap.
    destruct (decide (i = index)) as [->|Hne].
    + rewrite list_lookup_insert_eq by (apply lookup_lt_Some in Esource; lia).
      destruct (results !! index) as [r|] eqn:Er; [|apply lookup_ge_None in Er; apply lookup_lt_Some in Esource; lia].
      cbn [fmap option_fmap option_map]. rewrite bool_decide_false by done. rewrite bool_decide_true by left. by rewrite Esource.
    + rewrite list_lookup_insert_ne by done. destruct (results !! i) as [r|]; [|done]. cbn [fmap option_fmap option_map]. f_equal.
      assert (bool_decide (i ∈ index :: order) = bool_decide (i ∈ order)) as ->; [|done].
      apply bool_decide_ext. rewrite elem_of_cons. tauto.
  - destruct (IH results s Hs Hnd Hlen) as [Hs2 E]. split; [done|]. rewrite E. apply imap_ext. intros i r Hr.
    assert (i <> index) as Hne.
    { intros ->. apply lookup_ge_None in Esource. apply lookup_lt_Some in Hr. lia. }
    assert (bool_decide (i ∈ index :: order) = bool_decide (i ∈ order)) as ->; [|done].
    apply bool_decide_ext. rewrite elem_of_cons. tauto.
Qed.
Lemma edge_jobs_all (W : steady_world) dir depth wid items order s : alone s -> order ≡ₚ seq 0 (length items) ->
  (edge_jobs dir depth items order (replicate (length items) (found [])) wid s).1 = map (answer_for dir depth wid) items /\
  alone (edge_jobs dir depth items order (replicate (length items) (found [])) wid s).2.
Proof.
  intros Hs Hp. destruct (edge_jobs_answers W dir depth wid items order (replicate (length items) (found [])) s Hs) as [Hs' E].
  { rewrite Hp. apply NoDup_seq. }
  { apply length_replicate. }
  split; [|done]. rewrite E. apply list_eq. intros i. rewrite list_lookup_imap, list_lookup_fmap.
  destruct (items !! i) as [source|] eqn:Es.
  - assert (i < length items) as Hi by (by apply lookup_lt_Some in Es).
    rewrite lookup_replicate_2 by done.
    cbn [fmap option_fmap option_map]. rewrite bool_decide_true by (rewrite Hp; apply elem_of_seq; lia). done.
  - apply lookup_ge_None in Es. rewrite lookup_ge_None_2 by (rewrite length_replicate; lia). done.
Qed.

(** Every call for an item is answered. *)
Definition answered (dir : gostring) (depth : Z) (source : QItem) : Prop :=
  exists env, execute 0 (edge_operation dir) (edge_payload source depth) = Some env /\ qEnvReason env = [].
Lemma answered_items (W : steady_world) dir depth wid source env s : alone s ->
  execute 0 (edge_operation dir) (edge_payload source depth) = Some env ->
  (qItemsFromEnvelope env wid [] s).1 = (qItemsFromEnvelope env wid [] (mkQState 0 None)).1 /\ alone (qItemsFromEnvelope env wid [] s).2.
Proof. intros Hs _. by destruct (steady_qItems W env wid [] s (mkQState 0 None) Hs eq_refl) as (? & ? & _). Qed.
Lemma answer_items (W : steady_world) dir depth wid source env :
  execute 0 (edge_operation dir) (edge_payload source depth) = Some env ->
  answer_for dir depth wid source =
    execution_of env (map (edge_from dir depth source) (take 50 (qItemsFromEnvelope env wid [] (mkQState 0 None)).1)).
Proof.
  intros He. unfold answer_for, edge_result, ctx_done, qCall, ask, mbind, Q_bind. cbn [qs_asked qs_sessions].
  rewrite (steady_ctx W). cbn [fmap option_fmap option_map]. rewrite (steady_execute W _ 0), He.
  match goal with |- (let '(_, _) := qItemsFromEnvelope env wid [] ?s1 in _).1 = _ =>
    destruct (answered_items W dir depth wid source env s1 eq_refl He) as [E _]; rewrite <- E; by destruct (qItemsFromEnvelope env wid [] s1) end.
Qed.
Lemma edges_sequential_answers (W : steady_world) dir depth wid items out s : alone s -> length out <= 200 -> Forall (answered dir depth) items ->
  (edges_sequential dir depth items out wid s).1 = found (take 200 (out ++ mjoin (map (fun i => x_items (answer_for dir depth wid i)) items))).
Proof.
  revert out s; induction items as [|source items IH]; intros out s Hs Hl Hall; cbn [edges_sequential].
  { cbn [map mjoin list_join mret Q_ret fst]. by rewrite app_nil_r, take_ge by lia. }
  apply Forall_cons in Hall as [(env & He & Hr) Hall]. destruct (200 <=? length out) eqn:E; bool_to_prop.
  { cbn [mret Q_ret fst]. rewrite take_app_le by lia. by rewrite take_ge by lia. }
  unfold ctx_done, qCall, ask, mbind, Q_bind. cbn [qs_asked qs_sessions].
  rewrite (steady_ctx W). cbn [fmap option_fmap option_map]. rewrite (steady_execute W _ 0), He.
  match goal with |- context [qItemsFromEnvelope env wid [] ?s1] =>
    destruct (answered_items W dir depth wid source env s1 Hs He) as [Eitems Hs2]; destruct (qItemsFromEnvelope env wid [] s1) as [more s2] end.
  cbn [fst snd] in Eitems, Hs2. rewrite IH; [|done|rewrite length_take; lia|done]. f_equal.
  cbn [map mjoin list_join]. rewrite (answer_items W dir depth wid source env He), <- Eitems. cbn [x_items execution_of].
  set (first := map (edge_from dir depth source) (take 50 more)). rewrite app_assoc.
  destruct (decide (length (out ++ first) <= 200)) as [Hle|Hgt]; [by rewrite (take_ge (out ++ first)) by lia|].
  rewrite (take_app_le (take 200 (out ++ first))) by (rewrite length_take; lia).
  rewrite (take_app_le (out ++ first)) by lia. by rewrite take_take, Nat.min_id.
Qed.
End edges.

(** C18: in a workspace that does not change, what the stage of edges gives does not depend on
    the order in which its workers end; it is at most 200 items, each
    with an edge to one of the sources; and for up to 200 sources whose calls are answered it
    is what the sequential loop [qEdgesSequential] gives. *)
Theorem edges_any_order `{UnicodeTables} `{SHA256} `{MapOrder} `{World} (schedule schedule' : Schedule) (s : Stage) (items : list QItem)
    (wid : gostring) (st : qstate) :
  steady_world -> alone st ->
  let answer := (@qEdges _ _ _ schedule s items wid st).1 in
  answer = (@qEdges _ _ _ schedule' s items wid st).1 /\
  length (x_items answer) <= 200 /\
  (forall i, i ∈ x_items answer -> exists source, source ∈ items /\ q_Edge i = Some (mkQEdge (firstArg s) (q_ID source) (edge_depth s))) /\
  (length items <= 200 -> Forall (answered (firstArg s) (edge_depth s)) items ->
     x_items answer = x_items (qEdgesSequential s items wid st).1 /\ x_reason answer = x_reason (qEdgesSequential s items wid st).1).
Proof.
  intros W Hs answer. subst answer. unfold qEdges. cbv zeta.
  destruct (oneOf (firstArg s) _) eqn:Edir; cbn [negb].
  2:{ split_and!; [done|cbn; lia|intros i Hi; by apply elem_of_nil in Hi|]. intros _ _. unfold qEdgesSequential. cbv zeta. rewrite Edir.
      by destruct (streq _ []). }
  set (dir := firstArg s) in *. set (depth := edge_depth s). set (sources := take 200 items).
  assert (forall o, o ≡ₚ seq 0 (length sources) ->
    ((results ← edge_jobs dir depth sources o (replicate (length sources) (found [])) wid; ended ← ctx_done;
     mret (mkExecution (take 200 (mjoin (map x_items results))) (default (first_reason results) ended) (last_fallback results) [] false) : Q qExecution) st).1
    = (let results := map (answer_for dir depth wid) sources in
       mkExecution (take 200 (mjoin (map x_items results))) (first_reason results) (last_fallback results) [] false)) as Hany.
  { intros o Hp. destruct (edge_jobs_all W dir depth wid sources o st Hs Hp) as [E _]. unfold mbind, Q_bind at 1.
    destruct (edge_jobs _ _ _ _ _ _ st) as [results s1]. cbn [fst] in E. subst results.
    unfold ctx_done, ask, mbind, Q_bind. by rewrite (steady_ctx W). }
  split_and!.
  - rewrite !Hany by apply job_order_perm. done.
  - rewrite Hany by apply job_order_perm. cbn [x_items]. rewrite length_take. lia.
  - rewrite Hany by apply job_order_perm. cbn [x_items]. intros i Hi.
    apply subseteq_take in Hi. apply list_elem_of_join in Hi as (l & Hi & Hl). rewrite map_map in Hl.
    apply list_elem_of_fmap in Hl as (source & -> & Hsource). exists source.
    split; [by apply subseteq_take in Hsource|]. unfold answer_for, edge_result, mbind, Q_bind in Hi.
    unfold ctx_done, ask in Hi. rewrite (steady_ctx W) in Hi. cbn [fmap option_fmap option_map] in Hi.
    destruct (qCall _ _ _) as [[env|] s1] in Hi; [|by destruct (qContextCodeOrStage s1); apply elem_of_nil in Hi].
    destruct (qItemsFromEnvelope env wid [] s1) as [more s2]. cbn in Hi. 
    by apply list_elem_of_fmap in Hi as (j & -> & _).
  - intros Hlen Hall. rewrite Hany by apply job_order_perm. subst sources. rewrite take_ge by done. cbn [x_items x_reason].
    unfold qEdgesSequential. cbv zeta. fold dir depth. rewrite Edir. cbn [negb].
    destruct (streq dir []) eqn:Ed; [apply streq_true in Ed; by rewrite Ed in Edir|].
    rewrite (edges_sequential_answers W dir depth wid items [] st Hs) by (cbn; lia || done). cbn [x_items x_reason found app].
    rewrite map_map. split; [done|]. unfold first_reason.
    assert (filter (fun r => x_reason r <> []) (map (answer_for dir depth wid) items) = []) as ->; [|done].
    clear -Hall W. induction Hall as [|source items (env & He & Hr) Hall IH]; [done|]. cbn [map].
    rewrite filter_cons_False; [done|]. rewrite (answer_items W dir depth wid source env He). cbn [x_reason execution_of]. by intros [].
Qed.
