(* ===== verification/QPages.v ===== *)
(** The pages of one q-v1 query in a workspace that does not change: following the cursors
    gives every item once and in order. *)
From S2P Require Import Prelude GoStrings GoStringFacts GoPath GoSort GoNum GoBase64 QueryParser Ids QItem QSession QCursor QPrimitives QLogic QPipeline QPipelineFacts.

Local Open Scope go_scope.

Section pages.
Context `{UnicodeTables} `{SHA256} `{MapOrder} `{World} `{Schedule} `{Workspaces} `{ClaimsJSON} `{CursorKey} `{EnvelopeJSON}.

(** Neither the services nor the registry, the generation or the files change. *)
Record steady_workspaces : Prop := {
  steady_register n n' : auto_register n = auto_register n';
  steady_resolve n n' : resolve_selection n = resolve_selection n';
  steady_topology n n' : apply_topology n = apply_topology n';
  steady_registry n n' : registry n = registry n';
  steady_ready n n' : catalog_ready n = catalog_ready n';
  steady_candidate n n' : workspace_candidate n = workspace_candidate n';
  steady_generation n n' : generation_snapshot n = generation_snapshot n';
  steady_head n n' : read_head n = read_head n' }.
(** All the pages are asked for before the first cursor expires. *)
Definition within_lifetime : Prop := forall n n', (unixSeconds (now_at n') <= unixSeconds (now_at n + minutes 10))%Z.

Context (steady_W : steady_world) (steady_S : steady_workspaces).

(** * The rows of a page *)
Definition sensibilidad_of (root file : gostring) : gostring := (frontmatterSensibilidad root file (mkQState 0 None)).1.
Lemma sensibilidad_steady root file s : (frontmatterSensibilidad root file s).1 = sensibilidad_of root file.
Proof.
  unfold sensibilidad_of, frontmatterSensibilidad. destruct (workspaceFile root file) as [abs|]; [|done].
  unfold ask, mbind, Q_bind, mret, Q_ret. cbn [fst qs_asked]. by rewrite (steady_head steady_S (qs_asked s) 0).
Qed.
Definition row_at (fields : list gostring) (root : gostring) (i : QItem) : QRow :=
  row_of fields (VText (sensibilidad_of root (q_File i))) i.
(** The row of an item, or of the item with its text cut. *)
Definition page_row (fields : list gostring) (root : gostring) (i : QItem) (row : QRow) : Prop :=
  exists j, (j = i \/ shortened i j) /\ row = row_of fields (VText (sensibilidad_of root (q_File i))) j.
(** The first rows while they fit the budget, their size, and whether some are left. *)
Fixpoint rows_within (fields : list gostring) (root : gostring) (limit : Z) (items : list QItem) (rows : list QRow) (used : Z) :
    list QRow * Z * bool :=
  match items with
  | [] => (rows, used, false)
  | i :: items =>
      let row := row_at fields root i in
      if (limit <? used + JSONSize row)%Z then (rows, used, true)
      else rows_within fields root limit items (rows ++ [row]) (used + JSONSize row)
  end.
Lemma take_rows_within fields root limit items rows used :
  returns (eq (rows_within fields root limit items rows used)) (take_rows fields root limit items rows used).
Proof.
  revert rows used. induction items as [|i items IH]; intros rows used; cbn [take_rows rows_within]; [by apply returns_ret|].
  apply returns_bind with (P := fun s => s = sensibilidad_of root (q_File i)); [intros s; apply sensibilidad_steady|].
  intros ? ->. cbv zeta. fold (row_at fields root i). destruct (_ <? _)%Z; [by apply returns_ret|apply IH].
Qed.
Lemma rows_within_spec fields root limit items rows used :
  let '(rows', used', truncated) := rows_within fields root limit items rows used in
  exists k, k <= length items /\ rows' = rows ++ map (row_at fields root) (take k items) /\
    (if truncated : bool then k < length items else k = length items) /\
    (truncated = true -> k = 0 -> exists i, head items = Some i /\ (limit < used + JSONSize (row_at fields root i))%Z).
Proof.
  revert rows used. induction items as [|i items IH]; intros rows used; cbn [rows_within].
  { exists 0. split_and!; [done|by rewrite app_nil_r|done|done]. }
  cbv zeta. destruct (_ <? _)%Z eqn:E.
  - exists 0. apply Z.ltb_lt in E. split_and!; [lia|by rewrite app_nil_r|cbn; lia|]. intros _ _. by exists i.
  - specialize (IH (rows ++ [row_at fields root i]) (used + JSONSize (row_at fields root i))%Z).
    destruct (rows_within _ _ _ _ _ _) as [[rows' used'] truncated]. destruct IH as (k & Hk & -> & Ht & _).
    exists (S k). split_and!; [cbn; lia|cbn; by rewrite <- app_assoc| |done]. destruct truncated; cbn; lia.
Qed.
Lemma get_sensibilidad fields root i : Get (row_at fields root i) "sensibilidad" = Some (VText (sensibilidad_of root (q_File i))).
Proof. unfold Get, row_at, row_of, With. cbn [r_vals]. apply lookup_insert_eq. Qed.
Lemma row_at_page fields root i : page_row fields root i (row_at fields root i).
Proof. exists i. auto. Qed.
Lemma rows_at_page fields root items : Forall2 (page_row fields root) items (map (row_at fields root) items).
Proof. induction items; constructor; [apply row_at_page|done]. Qed.

(** * One page *)
Definition page_items (ru : run_state) : list QItem :=
  if ru_sorted ru then ru_items ru else qSort (ru_items ru) (mkStage "sort" ["file" : gostring] ∅ ∅).
Definition next_page (pg : page_context) (now : Z) (offset : Z) : Continuation :=
  qContinuation now (pg_query pg) (pg_workspace pg) (pg_wid pg) (pg_generation pg) offset.
(** The page of the items from its offset on, before it is cut to [max_bytes]: its rows fit the
    budget, its cursor is signed at one time and whether it is late is seen at another. *)
Definition uncut (pg : page_context) (ru : run_state) (rest : list QItem) (signed now : Z) : Envelope :=
  let '(rows, used, truncated) := rows_within (ru_fields ru) (pg_root pg) (pg_budget pg * 4) rest [] 0 in
  let env := first_envelope pg ru rows used 0 truncated in
  late pg now
    (if (truncated : bool) then set_items rows true (Some (next_page pg signed (pg_offset pg + Z.of_nat (length rows)))) env else env).
(** The first item that is left is on no page: its row exceeds the budget, or the page of it
    alone exceeds [max_bytes], and so does every cut of its text. *)
Definition stuck (pg : page_context) (ru : run_state) (rest : list QItem) : Prop :=
  exists i, head rest = Some i /\
    ((pg_budget pg * 4 < JSONSize (row_at (ru_fields ru) (pg_root pg) i))%Z \/
     exists signed now bounded : nat,
       let env := uncut pg ru rest (now_at signed) (now_at now) in
       let next n := next_page pg (now_at bounded) (pg_offset pg + Z.of_nat n) in
       en_Items env <> [] /\ exceeds (pg_maxBytes pg) (page_of next 1 env) /\
       no_cut_fits rest (ru_fields ru) (pg_maxBytes pg) next env).
(** What a page holds of the items from its offset on, and where it points. *)
Definition good_page (pg : page_context) (ru : run_state) (rest : list QItem) (env : Envelope) : Prop :=
  exists k, k <= length rest /\ Forall2 (page_row (ru_fields ru) (pg_root pg)) (take k rest) (en_Items env) /\
    match en_Continuation env with
    | None => k = length rest
    | Some c => (exists n, c = next_page pg (now_at n) (pg_offset pg + Z.of_nat k)) /\
                (en_Items env = [] -> stuck pg ru rest)
    end.
Lemma late_set_items pg now rows t c env : en_Items env = rows -> late pg now (set_items rows t c env) = set_items rows t c (late pg now env).
Proof. intros <-. unfold late. cbn [set_items en_Reason en_Items]. by destruct (_ && _). Qed.
Lemma late_items pg now env : en_Items (late pg now env) = en_Items env.
Proof. unfold late. by destruct (_ && _). Qed.
Lemma late_continuation pg now env : en_Continuation (late pg now env) = en_Continuation env.
Proof. unfold late. by destruct (_ && _). Qed.
Lemma first_envelope_continuation pg ru rows used mark t : en_Continuation (first_envelope pg ru rows used mark t) = None.
Proof. unfold first_envelope. by destruct (streq _ _). Qed.
Lemma clock_time : returns (fun t => exists n, t = now_at n) clock.
Proof. apply returns_ask. by eexists. Qed.
(** The page before it is cut. *)
Lemma uncut_page pg ru rest signed now :
  exists k (truncated : bool), k <= length rest /\ (if truncated then k < length rest else k = length rest) /\
    (truncated = true -> k = 0 -> stuck pg ru rest) /\
    en_Items (uncut pg ru rest signed now) = map (row_at (ru_fields ru) (pg_root pg)) (take k rest) /\
    en_Continuation (uncut pg ru rest signed now) =
      (if truncated then Some (next_page pg signed (pg_offset pg + Z.of_nat k)) else None).
Proof.
  unfold uncut. pose proof (rows_within_spec (ru_fields ru) (pg_root pg) (pg_budget pg * 4) rest [] 0) as Hrows.
  destruct (rows_within _ _ _ _ _ _) as [[rows used] truncated]. destruct Hrows as (k & Hk & -> & Ht & Hempty). cbn [app].
  exists k, truncated. split_and!; [done|done| | |].
  - intros Htr Hk0. destruct (Hempty Htr Hk0) as (i & Hi & Hbig). exists i. split; [done|left]. lia.
  - cbv zeta. rewrite late_items. destruct truncated; [done|apply first_envelope_items].
  - cbv zeta. rewrite late_continuation. destruct truncated; [|apply first_envelope_continuation].
    cbn [set_items en_Continuation]. rewrite length_map, length_take, Nat.min_l by lia. done.
Qed.
(** Cutting it keeps it a page. *)
Lemma bounded_page pg ru rest (signed now bounded : nat) env' :
  bound_outcome rest (ru_fields ru) (pg_maxBytes pg) (fun n => next_page pg (now_at bounded) (pg_offset pg + Z.of_nat n))
    (uncut pg ru rest (now_at signed) (now_at now)) env' ->
  good_page pg ru rest env'.
Proof.
  destruct (uncut_page pg ru rest (now_at signed) (now_at now)) as (k & truncated & Hk & Ht & Hempty & Hi & Hc).
  set (env := uncut _ _ _ _ _) in *. set (next := fun n => next_page pg (now_at bounded) _) in *.
  assert (length (en_Items env) = k) as Hl by (rewrite Hi, length_map, length_take; lia).
  assert (1 <= k -> exceeds (pg_maxBytes pg) (page_of next 1 env) ->
            no_cut_fits rest (ru_fields ru) (pg_maxBytes pg) next env -> stuck pg ru rest) as Hstuck.
  { intros Hpos Hbig Hcuts. destruct rest as [|i rest]; [cbn in Hk; lia|]. exists i. split; [done|right].
    exists signed, now, bounded. split_and!; [|done|done]. intros Hnil. fold env in Hnil. rewrite Hnil in Hl. cbn in Hl. lia. }
  assert (page_of next k env = env) as Hall by (by rewrite <- Hl, page_of_all).
  intros [j Hj Hfit Hmore Hcut|tried j left Hne Hfirst Hmore Htried Hfit|Hmore Hcut]; rewrite ?Hl in *.
  - exists j. split_and!; [lia| |].
    + rewrite page_of_items, Hi, firstn_map, take_take, Nat.min_l by lia. apply rows_at_page.
    + destruct (decide (j = k)) as [->|Hjk].
      * rewrite Hall, Hc. destruct truncated; [|done]. split; [by eexists|]. intros Hnil. rewrite Hnil in Hl. by apply Hempty.
      * unfold page_of. rewrite Hl, (proj2 (Nat.eqb_neq j k)) by done. cbn [set_items en_Items en_Continuation]. split; [by eexists|].
        intros Hnil. apply (f_equal length) in Hnil. rewrite length_take in Hnil. cbn in Hnil. assert (j = 0) as -> by lia.
        apply Hstuck; [lia|apply Hmore; lia|]. apply Hcut; [done|]. intros E. rewrite E in Hl. cbn in Hl. lia.
  - destruct rest as [|i rest]; [by destruct tried|]. cbn [first_cuts] in Hfirst.
    exists 1. split_and!; [cbn; lia| |].
    + cbn [set_items en_Items take]. constructor; [|constructor]. exists j.
      split; [right; apply cuts_shortened; rewrite Hfirst; apply elem_of_app; right; left|].
      unfold cut_row. rewrite Hi. destruct k as [|k]; [by rewrite Hi in Hne|]. cbn [take map]. by rewrite get_sensibilidad.
    + cbn [set_items en_Items en_Continuation]. split; [by eexists|done].
  - exists 0. assert (en_Items (page_of next 0 env) = []) as Hnil by (by rewrite page_of_items by lia).
    cbn [too_large set_failure en_Items en_Continuation]. rewrite Hnil. split_and!; [lia|constructor|].
    destruct k as [|k].
    + rewrite Hall, Hc. destruct truncated; [|done]. split; [by eexists|]. intros _. by apply Hempty.
    + unfold page_of. rewrite Hl. cbn [Nat.eqb set_items en_Continuation]. split; [by eexists|]. intros _.
      apply Hstuck; [lia|apply Hmore; lia|]. apply Hcut. intros E. by rewrite E in Hl.
Qed.
(** Without sessions a page has no mark. *)
Lemma no_mark {B : Type} (f : Z -> SessionState -> Z * SessionState) (k : Z -> Q B) s :
  alone s -> exists s', (on_sessions 0%Z f ≫= k) s = k 0%Z s'.
Proof. destruct s as [n o]. intros Hs. unfold alone in Hs. cbn in Hs. subst o. by eexists. Qed.
Lemma deliver_page pg ru s : pg_dedupe pg = false -> (0 <= pg_offset pg <= Z.of_nat (length (page_items ru)))%Z -> alone s ->
  good_page pg ru (drop (Z.to_nat (pg_offset pg)) (page_items ru)) (deliver pg ru s).1.
Proof.
  intros Hd Ho Hs. unfold deliver. cbv zeta. fold (page_items ru). rewrite (proj2 (Z.ltb_ge _ _)) by lia. rewrite Hd. cbn [andb].
  set (rest := drop _ _). match goal with |- context [(mret rest ≫= ?f) s] => change ((mret rest ≫= f) s) with (f rest s); cbv beta end.
  match goal with |- context [(on_sessions 0%Z ?f ≫= ?k) s] => destruct (no_mark f k s Hs) as [s' ->] end. revert s'.
  match goal with |- forall s', good_page _ _ _ (?m s').1 => change (returns (good_page pg ru rest) m) end.
  eapply returns_bind; [apply take_rows_within|]. intros [[rows used] truncated] Hrows.
  eapply returns_bind; [apply clock_time|]. intros ? [signed ->].
  eapply returns_bind; [apply clock_time|]. intros ? [now ->].
  eapply returns_bind; [apply clock_time|]. intros ? [bounded ->].
  eapply returns_bind; [apply returns_any|]. intros _ _. apply returns_ret.
  match goal with |- good_page _ _ _ (set_used ?u ?e) => set (used' := u); change (good_page pg ru rest e) end. clear used'.
  apply (bounded_page pg ru rest signed now bounded). unfold uncut. rewrite Hrows. by apply bound_from_outcome.
Qed.

(** * The same run again *)
(** Runs differ in how long their stages took. *)
Definition same_stage (a b : QStage) : Prop :=
  st_Verb a = st_Verb b /\ st_In a = st_In b /\ st_Out a = st_Out b /\ st_Truncated a = st_Truncated b /\ st_Reason a = st_Reason b.
Record same_run (a b : run_state) : Prop := {
  same_items : ru_items a = ru_items b; same_stages : Forall2 same_stage (ru_stages a) (ru_stages b);
  same_failure : ru_failure a = ru_failure b; same_fallback : ru_fallback a = ru_fallback b;
  same_sorted : ru_sorted a = ru_sorted b; same_fields : ru_fields a = ru_fields b }.
Lemma steady_run_verb session fresh wid root stage items : steady (run_verb session fresh wid root stage items).
Proof. unfold run_verb. cbv zeta. agree_all. Qed.
Lemma after_stage_same stage r ms ms' a b : same_run a b -> same_run (after_stage stage r ms a) (after_stage stage r ms' b).
Proof.
  intros [Hi Hst Hf Hfb Hso Hfi]. unfold after_stage. split; cbn [ru_items ru_stages ru_failure ru_fallback ru_sorted ru_fields].
  - by rewrite Hi.
  - apply Forall2_app; [done|]. constructor; [|constructor]. by rewrite Hi.
  - by rewrite Hf.
  - by rewrite Hfb.
  - by rewrite Hso.
  - by rewrite Hfi.
Qed.
Lemma never_done : agree (fun a b => a = None /\ b = None) ctx_done ctx_done.
Proof. apply agree_ask. intros. by rewrite !(steady_ctx steady_W). Qed.
Lemma run_stages_same session fresh wid root stages a b : same_run a b ->
  agree same_run (run_stages session fresh wid root stages a) (run_stages session fresh wid root stages b).
Proof.
  revert a b. induction stages as [|stage stages IH]; intros a b Hab; cbn [run_stages]; [by apply agree_ret|].
  eapply agree_bind; [apply never_done|]. intros ? ? [-> ->].
  eapply agree_bind; [apply agree_clock|]. intros start start' _. rewrite <- (same_items _ _ Hab).
  apply steadily_bind; [apply steady_run_verb|]. intros x.
  eapply agree_bind; [apply agree_clock|]. intros stop stop' _. by apply IH, after_stage_same.
Qed.
Lemma end_of_run_same a b : same_run a b -> agree same_run (end_of_run a) (end_of_run b).
Proof. intros Hab. eapply agree_bind; [apply never_done|]. intros ? ? [-> ->]. by apply agree_ret. Qed.
Lemma page_items_same a b : same_run a b -> page_items a = page_items b.
Proof. intros [Hi _ _ _ Hs _]. unfold page_items. by rewrite Hi, Hs. Qed.

(** * The next page of a request *)
Definition at_page (r : qRequest) (token : gostring) : qRequest :=
  mkRequest (rq_q r) (rq_session_id r) (rq_max_bytes r) (rq_budget r) (rq_timeout_ms r) token (rq_fresh r) (rq_dedupe r)
    (rq_Workspace r) (rq_SessionID r) (rq_CallerCWD r) (rq_NoAutoRegister r).
Definition at_offset (pg : page_context) (offset started : Z) : page_context :=
  mkPage (pg_query pg) (pg_wid pg) (pg_root pg) (pg_workspace pg) (pg_generation pg) (pg_session pg) (pg_dedupe pg) (pg_budget pg)
    (pg_maxBytes pg) (pg_timeout pg) started offset (pg_warnings pg).
Definition accepted_at (token : gostring) (pg : page_context) (offset : Z) : Prop :=
  forall n, page_offset (now_at n) token (pg_query pg) (pg_wid pg) (pg_generation pg) (pg_workspace pg) = Ok offset.
Definition prepared_again (token : gostring) (offset : Z) (a b : result Envelope prepared) : Prop :=
  forall pr, a = Ok pr -> accepted_at token (pr_page pr) offset ->
    exists n, b = Ok (mkPrepared (pr_pipeline pr) (at_offset (pr_page pr) offset (now_at n))).
Lemma prepared_err token offset env (b : result Envelope prepared) : prepared_again token offset (Err env) b.
Proof. done. Qed.
Lemma agree_clock_time : agree (fun _ t' => exists n, t' = now_at n) clock clock.
Proof. apply agree_ask. by eexists. Qed.
Lemma steady_check_catalog stages reg : steady (check_catalog stages reg).
Proof.
  unfold check_catalog, qWorkspaceRegistered. agree_all; apply steady_ask; intros n n';
    [by apply steady_registry|by rewrite (steady_ready steady_S n n')].
Qed.
Lemma prepare_again r token offset : token <> [] -> agree (prepared_again token offset) (prepare r) (prepare (at_page r token)).
Proof.
  intros Htok. unfold prepare. cbn [at_page rq_q rq_Workspace rq_NoAutoRegister rq_CallerCWD rq_page rq_dedupe].
  eapply agree_bind; [apply agree_clock_time|]. intros started ? [n ->].
  destruct (Parse (rq_q r)) as [p|]; [|apply agree_ret, prepared_err]. cbv zeta.
  change (options (at_page r token)) with (options r).
  destruct (options _ _ _) as [[[maxBytes budget] timeout]|]; [|apply agree_ret, prepared_err].
  apply steadily_bind.
  { destruct (_ && _); [|by apply agree_ret]. apply steady_ask. intros ? n'. by rewrite (steady_register steady_S _ n'). }
  intros warnings. apply steadily_bind.
  { apply steady_ask. intros ? n'. by rewrite (steady_resolve steady_S _ n'). }
  intros [reg|e].
  2:{ apply steadily_bind; [|intros env; apply agree_ret, prepared_err]. unfold qWorkspaceResolutionFailure. cbv zeta. agree_all.
      apply steady_ask. intros ? n'. by rewrite (steady_candidate steady_S _ n'). }
  apply steadily_bind.
  { apply steady_ask. intros ? n'. by rewrite (steady_topology steady_S _ n'). }
  intros [reg'|e]; [|apply agree_ret, prepared_err].
  apply steadily_bind; [apply steady_check_catalog|]. intros [env|]; [apply agree_ret, prepared_err|].
  apply steadily_bind.
  { apply steady_ask. intros ? n'. by rewrite (steady_generation steady_S _ n'). }
  intros generation. eapply agree_bind; [apply agree_clock_time|]. intros t ? [n' ->]. apply agree_ret.
  intros pr Hpr Hacc. destruct (page_offset t _ _ _ _ _) as [o|]; [|done]. injection Hpr as <-.
  cbn [pr_page pr_pipeline] in *. unfold accepted_at in Hacc. cbn [pg_query pg_wid pg_generation pg_workspace] in Hacc.
  rewrite (proj2 (streq_false token [])) by done. rewrite Hacc. by exists n.
Qed.

(** A cursor of this query is accepted again. *)
Lemma next_page_accepted pg n offset : claims_read_back -> within_lifetime -> validString (pg_wid pg) = true ->
  validString (pg_generation pg) = true -> (0 <= offset)%Z ->
  accepted_at (co_Cursor (next_page pg (now_at n) offset)) pg offset /\ co_Cursor (next_page pg (now_at n) offset) <> [].
Proof.
  intros Hjson Hlife Hw Hg Ho. split; [|done]. intros n'. unfold page_offset, next_page, qContinuation. cbn [co_Cursor].
  rewrite verify_signed by done. cbv zeta. rewrite (proj2 (Z.ltb_ge _ _)) by apply Hlife.
  rewrite !streq_refl. rewrite (proj2 (Z.ltb_ge _ _)) by done. cbn [negb orb]. cbn [cl_Generation cl_Offset].
  by rewrite streq_refl.
Qed.

(** * All the pages *)
(** Without sessions there are none afterwards. *)
Definition keeps {A} (m : Q A) : Prop := forall s, alone s -> alone (m s).2.
Lemma keeps_alone_ret {A} (a : A) : keeps (mret a).
Proof. by intros s Hs. Qed.
Lemma keeps_ask {A} (f : nat -> A) : keeps (ask f).
Proof. by intros s Hs. Qed.
Lemma keeps_alone_bind {A B} (m : Q A) (f : A -> Q B) : keeps m -> (forall a, keeps (f a)) -> keeps (m ≫= f).
Proof. intros Hm Hf s Hs. unfold mbind, Q_bind. specialize (Hm s Hs). destruct (m s) as [a s1]. by apply Hf. Qed.
Lemma keeps_on_sessions {A} (none : A) f : keeps (on_sessions none f).
Proof. intros [n o] Hs. unfold alone in *. cbn in Hs. by subst. Qed.
Lemma keeps_agree {A B} (R : A -> B -> Prop) m m' : agree R m m' -> keeps m.
Proof. intros Hm s Hs. by destruct (Hm s (mkQState 0 None) Hs eq_refl) as (_ & ? & _). Qed.
Lemma keeps_take_rows fields root limit items rows used : keeps (take_rows fields root limit items rows used).
Proof.
  revert rows used. induction items as [|i items IH]; intros rows used; cbn [take_rows]; [apply keeps_alone_ret|].
  apply keeps_alone_bind; [|intros ?; cbv zeta; destruct (_ <? _)%Z; [apply keeps_alone_ret|apply IH]].
  unfold frontmatterSensibilidad. destruct (workspaceFile _ _); [|apply keeps_alone_ret]. apply keeps_alone_bind; [apply keeps_ask|intros ?; apply keeps_alone_ret].
Qed.
Lemma keeps_deliver pg ru : keeps (deliver pg ru).
Proof.
  unfold deliver. cbv zeta. destruct (_ <? _)%Z; [apply keeps_alone_ret|].
  apply keeps_alone_bind; [destruct (pg_dedupe pg); [apply keeps_on_sessions|apply keeps_alone_ret]|intros ?].
  apply keeps_alone_bind; [apply keeps_on_sessions|intros ?]. apply keeps_alone_bind; [apply keeps_take_rows|intros [[rows used] truncated]].
  do 3 (apply keeps_alone_bind; [apply keeps_ask|intros ?]).
  apply keeps_alone_bind; [destruct (_ && _); [apply keeps_on_sessions|apply keeps_alone_ret]|intros ?; apply keeps_alone_ret].
Qed.

(** The run of a prepared request. *)
Definition run_of (fresh : bool) (pr : prepared) : Q run_state :=
  let p := pr_pipeline pr in
  let pg := pr_page pr in
  ru ← run_stages (pg_session pg) (fresh || Fresh p) (pg_wid pg) (pg_root pg) (Stages p) (start_run p);
  end_of_run ru.
Lemma ExecuteQ_prepared r s pr : (prepare r s).1 = Ok pr ->
  ExecuteQ r s = (ru ← run_of (rq_fresh r) pr; deliver (pr_page pr) ru) (prepare r s).2.
Proof.
  intros Hpr. unfold ExecuteQ, run_of. unfold mbind, Q_bind at 1. destruct (prepare r s) as [a s1]. cbn [fst] in Hpr. subst a. cbn [snd].
  unfold Q_bind. match goal with |- context [run_stages ?a ?b ?c ?d ?e ?f s1] => by destruct (run_stages a b c d e f s1) end.
Qed.
Lemma same_run_refl a : same_run a a.
Proof. split; try done. by apply Forall_Forall2_diag, Forall_forall. Qed.
Lemma run_of_same fresh pr o t : agree same_run (run_of fresh pr) (run_of fresh (mkPrepared (pr_pipeline pr) (at_offset (pr_page pr) o t))).
Proof.
  unfold run_of. cbn [pr_pipeline pr_page at_offset pg_session pg_wid pg_root].
  eapply agree_bind; [apply run_stages_same, same_run_refl|]. intros a b Hab. by apply end_of_run_same.
Qed.

(** Pages are asked for until one has no cursor; [None]: a page with a cursor has no rows. *)
Fixpoint follow (fuel : nat) (r : qRequest) (token : gostring) : Q (option (list QRow)) :=
  match fuel with
  | 0 => mret None
  | S fuel =>
      env ← ExecuteQ (if streq token [] then r else at_page r token);
      match en_Continuation env, en_Items env with
      | None, rows => mret (Some rows)
      | Some _, [] => mret None
      | Some c, rows => more ← follow fuel r (co_Cursor c); mret (app rows <$> more)
      end
  end.

Section one_query.
Context (r : qRequest) (pr : prepared) (ru : run_state).
Context (Hjson : claims_read_back) (Hlife : within_lifetime).
Context (Hdedupe : pg_dedupe (pr_page pr) = false).
Context (Hw : validString (pg_wid (pr_page pr)) = true) (Hg : validString (pg_generation (pr_page pr)) = true).
Context (Hru : ru = (run_of (rq_fresh r) pr (mkQState 0 None)).1).
Let fields := ru_fields ru.
Let root := pg_root (pr_page pr).

(** What the page at an offset is, whoever asks for it. *)
Lemma page_at r' s offset t : rq_fresh r' = rq_fresh r -> alone s -> (0 <= offset <= Z.of_nat (length (page_items ru)))%Z ->
  (prepare r' s).1 = Ok (mkPrepared (pr_pipeline pr) (at_offset (pr_page pr) offset t)) -> alone (prepare r' s).2 ->
  exists s' ru', alone s' /\ ru' = (run_of (rq_fresh r) pr s').1 /\ same_run ru ru' /\
    good_page (at_offset (pr_page pr) offset t) ru' (drop (Z.to_nat offset) (page_items ru)) (ExecuteQ r' s).1 /\ alone (ExecuteQ r' s).2.
Proof.
  intros Hfresh Hs Ho Hpr Hs1. rewrite (ExecuteQ_prepared _ _ _ Hpr), Hfresh. set (s1 := (prepare r' s).2) in *.
  destruct (run_of_same (rq_fresh r) pr offset t (mkQState 0 None) s1 eq_refl Hs1) as (Hsame & _ & Hs2). rewrite <- Hru in Hsame.
  exists s1, (run_of (rq_fresh r) pr s1).1. split; [done|]. split; [done|].
  change (run_of (rq_fresh r) pr s1) with (run_of (rq_fresh r) (mkPrepared (pr_pipeline pr) (at_offset (pr_page pr) offset t)) s1).
  unfold mbind, Q_bind. destruct (run_of _ _ s1) as [ru' s2]. cbn [fst snd pr_page] in *. split; [done|].
  split; [|by apply keeps_deliver]. rewrite (page_items_same _ _ Hsame). rewrite (page_items_same _ _ Hsame) in Ho.
  by apply (deliver_page (at_offset (pr_page pr) offset t) ru').
Qed.
Lemma Forall2_split {A B} (P : A -> B -> Prop) k l a b : Forall2 P (take k l) a -> Forall2 P (drop k l) b -> Forall2 P l (a ++ b).
Proof. intros Ha Hb. rewrite <- (take_drop k l). by apply Forall2_app. Qed.
(** An item at which the pages of the query stop: some run of it, at some time, is stuck there. *)
Definition never_fits (i : QItem) : Prop :=
  exists offset rest t s', drop offset (page_items ru) = i :: rest /\ alone s' /\
    (t = pg_started (pr_page pr) \/ exists n, t = now_at n) /\
    stuck (at_offset (pr_page pr) (Z.of_nat offset) t) (run_of (rq_fresh r) pr s').1 (i :: rest).
Lemma pages_from fuel token s offset t :
  let r' := if streq token [] then r else at_page r token in
  alone s -> (0 <= offset <= Z.of_nat (length (page_items ru)))%Z -> alone (prepare r' s).2 ->
  (prepare r' s).1 = Ok (mkPrepared (pr_pipeline pr) (at_offset (pr_page pr) offset t)) ->
  (t = pg_started (pr_page pr) \/ exists n, t = now_at n) ->
  length (page_items ru) - Z.to_nat offset < fuel ->
  (exists rows, (follow fuel r token s).1 = Some rows /\ Forall2 (page_row fields root) (drop (Z.to_nat offset) (page_items ru)) rows) \/
  (exists i, i ∈ page_items ru /\ never_fits i).
Proof.
  revert token s offset t. induction fuel as [|fuel IH]; intros token s offset t r' Hs Ho Hs1 Hpr Htime Hfuel; [lia|].
  destruct (page_at r' s offset t ltac:(by subst r'; destruct (streq token [])) Hs Ho Hpr Hs1) as (s' & ru' & Hs' & Hru' & Hsame & Hpage & Hs2).
  cbn [follow]. fold r'. unfold mbind, Q_bind at 1. destruct (ExecuteQ r' s) as [env s2]. cbn [fst snd] in Hpage, Hs2.
  destruct Hpage as (k & Hk & Hrows & Hnext). cbn [at_offset pg_root pg_offset] in Hrows, Hnext.
  rewrite <- (same_fields _ _ Hsame) in Hrows. fold fields root in Hrows. rewrite length_drop in Hk, Hnext.
  destruct (en_Continuation env) as [c|]; cycle 1.
  { left. exists (en_Items env). split; [done|]. by rewrite take_ge in Hrows by (rewrite length_drop; lia). }
  destruct Hnext as ([n Hc] & Hempty). destruct (en_Items env) as [|row rows] eqn:Hi.
  { right. pose proof (Hempty eq_refl) as Hstuck. destruct (drop (Z.to_nat offset) (page_items ru)) as [|i rest] eqn:Hrest;
      [by destruct Hstuck as (? & ? & _)|]. exists i. split; [apply (subseteq_drop (Z.to_nat offset)); rewrite Hrest; left|].
    exists (Z.to_nat offset), rest, t, s'. rewrite Z2Nat.id, <- Hru' by lia. done. }
  assert (0 < k) as Hpos by (destruct k; [by apply Forall2_nil_inv_l in Hrows|lia]).
  assert (0 <= offset + Z.of_nat k)%Z as Ho' by lia.
  destruct (next_page_accepted (pr_page pr) n (offset + Z.of_nat k) Hjson Hlife Hw Hg Ho') as [Hacc Hne].
  change (next_page (at_offset (pr_page pr) offset t)) with (next_page (pr_page pr)) in Hc. rewrite <- Hc in Hacc, Hne.
  assert (at_page r' (co_Cursor c) = at_page r (co_Cursor c)) as Hat by (subst r'; by destruct (streq token [])).
  destruct (prepare_again r' (co_Cursor c) (offset + Z.of_nat k) Hne s s2) as (Hagain & _ & Hs3); [done|done|].
  destruct (Hagain _ Hpr Hacc) as [n' Hpr']. cbn [pr_pipeline pr_page at_offset] in Hpr'. rewrite Hat in Hpr', Hs3.
  destruct (IH (co_Cursor c) s2 (offset + Z.of_nat k)%Z (now_at n')) as [(more & Hmore & Hrest)|Hbig];
    rewrite ?(proj2 (streq_false _ _) Hne); [done|lia|done|exact Hpr'|by right; exists n'|lia| |by right].
  left. exists (row :: rows ++ more). unfold mbind, Q_bind. destruct (follow fuel r (co_Cursor c) s2) as [o s3]. cbn [fst] in Hmore. subst o.
  split; [done|]. apply (Forall2_split _ k _ (row :: rows) more); [done|].
  rewrite drop_drop. by replace (Z.to_nat offset + k) with (Z.to_nat (offset + Z.of_nat k)) by lia.
Qed.
End one_query.
End pages.

(** C15: in a workspace that does not change, without sessions and before the first cursor
    expires, asking for the pages of a query until one has no cursor gives every item of the
    run exactly once, in the order of the run (sorted by file unless the pipeline sorted
    them); each row is the row of its item, or of its item with the text cut; and one page
    more than there are items is always enough.  The one exception is an item at which a
    page of the query stops: its row exceeds the budget, or with the rows that fit the
    budget the page that is returned from this item on cannot be cut to [max_bytes], because
    the page of its first row alone exceeds it and so does every cut of the item's text. *)
Theorem pages_deliver_everything `{UnicodeTables} `{SHA256} `{MapOrder} `{World} `{Schedule} `{Workspaces} `{ClaimsJSON} `{CursorKey}
    `{EnvelopeJSON} (r : qRequest) (s : qstate) (pr : prepared) :
  steady_world -> steady_workspaces -> within_lifetime -> claims_read_back -> alone s ->
  (prepare r s).1 = Ok pr -> pg_offset (pr_page pr) = 0%Z -> pg_dedupe (pr_page pr) = false ->
  validString (pg_wid (pr_page pr)) = true -> validString (pg_generation (pr_page pr)) = true ->
  let ru := (run_of (rq_fresh r) pr (mkQState 0 None)).1 in
  (exists rows, (follow (S (length (page_items ru))) r [] s).1 = Some rows /\
                Forall2 (page_row (ru_fields ru) (pg_root (pr_page pr))) (page_items ru) rows) \/
  (exists i, i ∈ page_items ru /\ never_fits r pr ru i).
Proof.
  intros HW HS Hlife Hjson Hs Hpr Ho Hd Hw Hg ru.
  apply (pages_from HW HS r pr ru Hjson Hlife Hd Hw Hg eq_refl _ [] s 0 (pg_started (pr_page pr))); [done|lia| | |by left|lia].
  - by apply (keeps_agree _ _ _ (prepare_again HS r ["x"%char] 0 ltac:(done))).
  - cbn [streq]. refine (eq_trans Hpr _). clear -Ho. destruct pr as [p pg]. cbn [pr_page] in *. destruct pg. cbn in *. by subst.
Qed.
