(* ===== verification/QExample.v ===== *)
(** Small workspaces: the properties of q-v1 at concrete inputs, and inputs on which the
    code does something else than it means to. *)
From S2P Require Import Prelude GoStrings GoStringFacts GoPath GoSort GoNum GoBase64 StandInJSON QueryParser Ids QItem QSession QCursor QPrimitives QLogic QPipeline QPipelineFacts QStagesFacts QPages.

Local Open Scope go_scope.

Module Example_q.
#[local] Existing Instance latin_tables.
#[local] Existing Instance mixHash.
#[local] Instance in_order : MapOrder := {| visit A m := (map_to_list m).*1; visit_keys A m := reflexivity _ |}.
(** The last job ends first. *)
#[local] Instance backwards : Schedule := {| job_order n := rev (seq 0 n); job_order_perm n := symmetry (Permutation_rev _) |}.
#[local] Instance claims_json : ClaimsJSON := {|
  json_claims c := write_list ([cl_Query c; cl_Workspace c; cl_Generation c] ++ map write_int [cl_Offset c; cl_Expires c]);
  unjson_claims s :=
    l ← read_list (length s) s;
    match l.1 with
    | [q; w; g; o; e] => o ← read_int o; e ← read_int e; Some (mkClaims q w g o e)
    | _ => None
    end |}.
Lemma claims_are_read_back : claims_read_back.
Proof.
  intros c _ _ _. unfold unjson_claims, json_claims, claims_json. rewrite <- (app_nil_r (write_list _)) at 2.
  rewrite read_write_list by apply length_write_list. cbn [mbind option_bind fst map app].
  rewrite !read_write_int. cbn [mbind option_bind]. by destruct c.
Qed.
#[local] Instance key : CursorKey := {| qCursorKey := repeat "k"%char 32; qCursorKey_length := eq_refl |}.
(** An envelope is as large as its rows, its cursor and a hundred bytes. *)
#[local] Instance sizes : EnvelopeJSON := {|
  envelope_size e := (total_size (en_Items e) + 100
    + match en_Continuation e with Some c => Z.of_nat (length (co_Cursor c)) | None => 0 end)%Z |}.

(** One workspace whose text search finds three lines. *)
Definition hit (line : Z) (text : gostring) : jrow :=
  list_to_map [("file" : gostring, JText "a.go"); ("line" : gostring, JNumber line); ("text" : gostring, JText text)].
Definition search : service_answer := mkAnswer true false (Some [hit 7 "seven"; hit 3 "three"; hit 5 "five"]) "text" [] [] false.
Definition caller (line : Z) (name : gostring) : jrow :=
  list_to_map [("file" : gostring, JText "b.go"); ("line" : gostring, JNumber line); ("name" : gostring, JText name)].
Definition callers : service_answer := mkAnswer true false (Some [caller 4 "F"; caller 9 "G"]) "catalog" [] [] false.
Definition a_go : gostring := join ["l1"; "l2"; "three"; "l4"; "five"; "l6"; "seven"] [LF].
#[local] Instance world : World := {|
  now_at n := (1000000000 * 63900000000)%Z; ctx_Err n := None;
  execute n op p := if streq op "nav.search" then Some search else if streq op "nav.callers" then Some callers else None;
  read_file n p := if streq p "/w/a.go" then Some a_go else None;
  changed_files n r := None; workspace_opens n := true; symbols_by_file n f := None |}.
#[local] Instance workspaces : Workspaces := {|
  auto_register n sel cwd := []; resolve_selection n sel cwd := Ok (mkRegistration "/w" "w"); apply_topology n r := Ok r;
  registry n := None; catalog_ready n r := None; workspace_candidate n c := ([], []); generation_snapshot n r := "g1";
  workspace_id r := "00000000deadbeef"; read_head n p := None; own_pid := 7 |}.
Lemma world_is_steady : steady_world.
Proof. by split. Qed.
Lemma workspaces_are_steady : steady_workspaces.
Proof. by split. Qed.

Definition request : qRequest := mkRequest "text l" [] None (Some 50%Z) None [] false false "w" [] "/w" true.
Definition nobody : qstate := mkQState 0 None.
Definition ready : result Envelope prepared := Eval vm_compute in (prepare request nobody).1.
Definition pr0 : prepared := match ready with Ok pr => pr | Err _ => mkPrepared (mkPipeline [] 0 0 [] [] false false []) (mkPage [] [] [] [] [] [] false 0 0 0 0 0 []) end.
Definition pages : option (list QRow) := Eval vm_compute in (follow 4 request [] nobody).1.
Lemma the_pages : (follow 4 request [] nobody).1 = pages.
Proof. vm_compute. reflexivity. Qed.
Lemma pages_deliver_everything_witness :
  let ru := (run_of (rq_fresh request) pr0 (mkQState 0 None)).1 in
  (exists rows, (follow (S (length (page_items ru))) request [] nobody).1 = Some rows /\
                Forall2 (page_row (ru_fields ru) (pg_root (pr_page pr0))) (page_items ru) rows) \/
  (exists i, i ∈ page_items ru /\ never_fits request pr0 ru i).
Proof.
  apply (pages_deliver_everything request nobody pr0).
  - exact world_is_steady.
  - exact workspaces_are_steady.
  - intros n n'. vm_compute. discriminate.
  - exact claims_are_read_back.
  - reflexivity.
  - vm_compute. reflexivity.
  - reflexivity.
  - reflexivity.
  - vm_compute. reflexivity.
  - vm_compute. reflexivity.
Defined.
(** No page of this query stops at an item. *)
Example nothing_is_stuck i : ~ never_fits request pr0 (run_of (rq_fresh request) pr0 nobody).1 i.
Proof.
  intros (offset & rest & t & [n o] & Hdrop & Ho & Ht & (j & Hj & Hbig)). unfold alone in Ho. cbn in Ho. subst o.
  assert (t = 1000000000 * 63900000000)%Z as -> by (destruct Ht as [->|[? ->]]; reflexivity). clear Ht.
  injection Hj as ->. set (all := page_items _) in Hdrop. vm_compute in all. subst all.
  destruct offset as [|[|[|offset]]]; [| | |by destruct offset]; cbn [drop] in Hdrop; injection Hdrop as <- <-;
    (destruct Hbig as [Hbig|(signed & now & bounded & _ & Hbig & _)]; vm_compute in Hbig; discriminate Hbig).
Qed.
(** Three pages of one row, in the order of the lines. *)
Example three_pages : option_map (map (fun row => Get row "line")) pages = Some [Some (VInt 3); Some (VInt 5); Some (VInt 7)].
Proof. vm_compute. reflexivity. Qed.

(** ** Stages *)
Definition pipeline : gostring := "text l | where name !~ b.go | sort line desc | limit 2".
Definition parsed : Pipeline := Eval vm_compute in match Parse pipeline with Ok p => p | Err _ => mkPipeline [] 0 0 [] [] false false [] end.
Definition where_stage : Stage := Eval vm_compute in nth 1 (Stages parsed) (mkStage [] [] ∅ ∅).
Definition found_items : list QItem := Eval vm_compute in x_items (qText (mkStage "text" ["l" : gostring] ∅ ∅) "00000000deadbeef" "/w" nobody).1.
Example pipeline_runs : map q_Line (ru_items (run_of false (mkPrepared parsed (pr_page pr0)) nobody).1) = [7; 5]%Z.
Proof. vm_compute. reflexivity. Qed.

Definition forwards : Schedule := {| job_order n := seq 0 n; job_order_perm n := reflexivity _ |}.
Definition edges : Stage := mkStage "edges" ["callers" : gostring] ∅ ∅.
Lemma edges_any_order_witness :
  x_items (@qEdges _ _ _ backwards edges found_items "00000000deadbeef" nobody).1 = x_items (qEdgesSequential edges found_items "00000000deadbeef" nobody).1 /\
  length (x_items (@qEdges _ _ _ forwards edges found_items "00000000deadbeef" nobody).1) = 6.
Proof.
  split; [|vm_compute; reflexivity].
  refine (proj1 (proj2 (proj2 (proj2 (edges_any_order backwards forwards edges found_items "00000000deadbeef" nobody world_is_steady eq_refl))) _ _)).
  - vm_compute. lia.
  - repeat constructor; exists callers; split; vm_compute; reflexivity.
Defined.

(** ** Cursors *)
Definition noon : Z := 1000000000 * 63900000000.
Definition token : gostring := Eval vm_compute in signQCursor noon "text l" "00000000deadbeef" "g1" 2.
Lemma cursor_roundtrip_witness :
  exists claims, verifyQCursor (noon + minutes 9) token " text l " "00000000deadbeef" = Ok claims /\ cl_Generation claims = "g1" /\ cl_Offset claims = 2%Z.
Proof.
  refine (proj1 (cursor_roundtrip noon (noon + minutes 9) "text l" " text l " "00000000deadbeef" "00000000deadbeef" "g1" 2 _ _ _ _) _ _ _).
  - exact claims_are_read_back.
  - vm_compute. reflexivity.
  - vm_compute. reflexivity.
  - lia.
  - vm_compute. discriminate.
  - vm_compute. reflexivity.
  - reflexivity.
Defined.
Definition the_claims : qCursorClaims := mkClaims (qQueryDigest "text l") "00000000deadbeef" "g1" 2 (unixSeconds (noon + minutes 10)).
Lemma cursor_signed_witness :
  exists body sig, splitByte token "." = ["q1" : gostring; body; sig] /\ b64_decode sig = Some (hmac qCursorKey body) /\
    (raw ← b64_decode body; unjson_claims raw) = Some the_claims /\ cl_Query the_claims = qQueryDigest "text l" /\
    cl_Workspace the_claims = "00000000deadbeef" /\ (0 <= cl_Offset the_claims)%Z /\ (unixSeconds noon <= cl_Expires the_claims)%Z.
Proof. apply (cursor_signed noon token "text l" "00000000deadbeef" the_claims). vm_compute. reflexivity. Defined.

(** ** Pages that do not move *)
(** No row fits a budget of one token: the page is empty and its cursor is where it began, so
    whoever follows cursors asks for ever. *)
Definition narrow (page : gostring) : qRequest := mkRequest "text l" [] None (Some 1%Z) None page false false "w" [] "/w" true.
Definition empty_page : Envelope := Eval vm_compute in (ExecuteQ (narrow []) nobody).1.
Example page_without_progress :
  en_Ok empty_page = true /\ en_Items empty_page = [] /\
  option_map (fun c => (ExecuteQ (narrow (co_Cursor c)) nobody).1) (en_Continuation empty_page) = Some empty_page.
Proof. split; [reflexivity|]. split; [reflexivity|]. vm_compute. reflexivity. Qed.

Definition one_item (signature text : gostring) : QItem :=
  mkQItem "i" [] false "text" [] "a" 1 1 [] [] [] signature [] [] 0 text true false false false None [].
Definition plain (rows : list QRow) : Envelope := mkEnvelope true "w" rows [] 2000 0 0 false "g1" [] [] false [] None None.
(** A row that exceeds [max_bytes] without its text is dropped, and the answer is [Ok] and
    points to where it began; it is not refused with [max_bytes_item_exceeded]. *)
Definition long : gostring := repeat "x"%char 2000.
Definition dropped : Envelope :=
  qBoundEnvelope (plain [row_of ["signature" : gostring] (VText []) (one_item long [])]) [one_item long []] ["signature" : gostring] 1024 noon
    "q" "00000000deadbeef" "w" "g1" 0.
Example large_item_dropped :
  en_Ok dropped = true /\ en_Reason dropped = [] /\ en_Items dropped = [] /\
  option_map (fun c => match verifyQCursor noon (co_Cursor c) "q" "00000000deadbeef" with Ok c => cl_Offset c | Err _ => 9%Z end)
    (en_Continuation dropped) = Some 0%Z.
Proof. vm_compute. split_and!; done. Qed.
(** The only item of a page is measured before the page gets its cursor: what is returned
    exceeds [max_bytes]. *)
Definition cut : Envelope :=
  qBoundEnvelope (plain [row_of ["text" : gostring] (VText []) (one_item [] long)]) [one_item [] long] ["text" : gostring] 1200 noon
    "q" "00000000deadbeef" "w" "g1" 0.
Example cut_page_too_large : length (en_Items cut) = 1 /\ (1200 < envelope_size cut)%Z.
Proof. vm_compute. split; done. Qed.

(** Numbers are sorted as text. *)
Definition scored (id : gostring) (score : Z) : QItem :=
  mkQItem id [] false [] [] [] 0 0 [] [] [] [] [] [] score [] false false false false None [].
Example scores_as_text : map q_Score (qSort [scored "a" 9; scored "b" 10; scored "c" 100] (mkStage "sort" ["score" : gostring] ∅ ∅)) = [10; 100; 9]%Z.
Proof. vm_compute. reflexivity. Qed.

(** A range among the arguments of [read] sets the lines of context to none, unless it comes first. *)
Example range_drops_context :
  context_lines (mkStage "read" ["±3" : gostring; "a.go:3-5"] ∅ ∅) = 0%Z /\ context_lines (mkStage "read" ["a.go:3-5" : gostring; "±3"] ∅ ∅) = 3%Z.
Proof. vm_compute. split; reflexivity. Qed.
End Example_q.
