(* ===== verification/Transaction.v ===== *)
(** The replacement of the executable (internal/selfupdate/transaction.go, with
    [txBackup] of transaction_linux.go, transaction_other.go and
    transaction_windows.go): the extraction of the archive, the backup, the
    promotion with its read-back, the rollback, and the removal of old backups.

    The file system is explicit: names refer to numbered files, so that a hard
    link, a rename and a replaced file are told apart.  Every call to it may fail
    without effect, as an oracle decides, and every state it goes through is
    recorded, so that a theorem about all recorded states is about a crash at any
    point.  Other processes do not change the four files meanwhile. *)
From S2P Require Import Prelude GoStrings GoStringFacts GoPath GoNum Versions.
From S2P Require SelfUpdate.

Local Open Scope go_scope.

(** * Definitions *)

(** ** Versions: [txSemver] is laxer than [semverPattern] after the numbers. *)
Definition tailByte (c : ascii) : bool := isIdentByte c || Ascii.eqb c ".".
Definition txTail (s : gostring) : option gostring :=
  let '(p, r) := span tailByte s in match p with [] => None | _ => Some r end.
Definition txSemver (s : gostring) : bool :=
  match '(_, s) ← version_number (trimPrefix s "v"); s ← expect "." s;
        '(_, s) ← version_number s; s ← expect "." s;
        '(_, s) ← version_number s;
        s ← (if hasPrefix s "-" then txTail (drop 1 s) else Some s);
        (if hasPrefix s "+" then txTail (drop 1 s) else Some s) with
  | Some [] => true
  | _ => false
  end.

(** ** Extraction *)
Definition txMaxArchive : Z := 512 * 2 ^ 20.
Definition txMaxEntry : Z := 256 * 2 ^ 20.
Definition txMaxExpanded : Z := 2 * 2 ^ 30.
(** [os.FileMode] bits. *)
Definition ModeDir : Z := 2 ^ 31.
Definition ModeType : Z :=
  fold_left Z.lor (map (Z.pow 2) [31; 27; 25; 24; 26; 21; 19]%Z) 0%Z.
Definition isDirMode (m : Z) : bool := negb (Z.land m ModeDir =? 0)%Z.
Definition isRegularMode (m : Z) : bool := (Z.land m ModeType =? 0)%Z.

Inductive typeflag := TypeReg | TypeDir | TypeOther.
(** A header of an archive and what reading its body gives; [None] breaks off. *)
Record entry := mkEntry {
  e_name : gostring; e_type : typeflag; e_mode : Z; e_size : Z; e_body : option (list ascii) }.
(** [archive/zip] and [archive/tar] over [compress/gzip]: an archive that cannot
    be opened is [None]; the flag of a tar file is false when a later header is
    unreadable. *)
Class ArchiveReader := {
  read_zip : list ascii -> option (list entry);
  read_tar : list ascii -> option (list entry * bool);
}.
Abbreviation platform := SelfUpdate.platform.
Definition windows (plat : platform) : bool := streq (SelfUpdate.goos plat) "windows".

Section extract.
Context `{UnicodeTables} (plat : platform).

Definition txArchiveName (filename : gostring) : gostring :=
  if hasSuffix filename ".tar.gz" then trimSuffix filename ".tar.gz" else trimSuffix filename ".zip".
Definition cliName : gostring := if windows plat then "mi-lsp.exe" else "mi-lsp".
(** [mi-lsp_<version>_<os>-<arch>]. *)
Definition canonicalWrapper (version : gostring) : gostring :=
  "mi-lsp_" ++ trimPrefix version "v" ++ "_" ++ (if windows plat then "win" else SelfUpdate.goos plat) ++ "-"
  ++ (if streq (SelfUpdate.goarch plat) "amd64" then "x64" else SelfUpdate.goarch plat).
Definition selected (filename version name : gostring) : bool :=
  let wrapper := txArchiveName filename in
  streq name cliName || (streq wrapper (canonicalWrapper version) && streq name (wrapper ++ "/" ++ cliName)).
Definition unsafeName (name : gostring) : bool :=
  streq name [] || contains name [BSLASH] || hasPrefix name "/" || contains name ":"
  || negb (streq (pathClean name) (trimSuffix name "/")) || streq name ".." || hasPrefix name "../".
Definition entryKey (name : gostring) : gostring :=
  let key := trimSuffix name "/" in if windows plat then toLower key else key.

(** The variables that the closure [check] shares with the loops, and the bytes
    written to the destination. *)
Record scan := mkScan { x_seen : gset gostring; x_found : bool; x_total : Z; x_out : list ascii }.
Definition check (filename version name : gostring) (mode size : Z) (s : scan) : result gostring (bool * scan) :=
  if unsafeName name then Err "unsafe archive path"
  else if bool_decide (entryKey name ∈ x_seen s) then Err "duplicate archive path"
  else if negb (isRegularMode mode) && negb (isDirMode mode) then Err "unsafe archive entry"
  else if (size <? 0)%Z || (txMaxEntry <? size)%Z || (txMaxExpanded - size <? x_total s)%Z
  then Err "archive size limit"
  else
    let seen := {[entryKey name]} ∪ x_seen s in
    let total := (x_total s + size)%Z in
    if selected filename version name then
      if x_found s || negb (isRegularMode mode) then Err "ambiguous archive executable"
      else Ok (true, mkScan seen true total (x_out s))
    else if streq (pathBase name) cliName then Err "unexpected executable path"
    else Ok (false, mkScan seen (x_found s) total (x_out s)).
(** [io.Copy(dst, io.LimitReader(r, txMaxEntry+1))] followed by the size test. *)
Definition copy_entry (e : entry) (s : scan) : result gostring scan :=
  match e_body e with
  | None => Err "archive read"
  | Some body =>
      let got := takeZ (txMaxEntry + 1) body in
      if negb (Z.of_nat (length got) =? e_size e)%Z || (txMaxEntry <? Z.of_nat (length got))%Z
      then Err "archive size mismatch"
      else Ok (mkScan (x_seen s) (x_found s) (x_total s) (x_out s ++ got))
  end.
Definition scan_entry (filename version : gostring) (mode : Z) (s : scan) (e : entry) : result gostring scan :=
  '(sel, s) ← check filename version (e_name e) mode (e_size e) s;
  if sel : bool then copy_entry e s else Ok s.
Definition zip_entry (filename version : gostring) (s : scan) (e : entry) : result gostring scan :=
  if (txMaxEntry <? e_size e)%Z then Err "archive size limit"
  else scan_entry filename version (e_mode e) s e.
Definition tar_mode (e : entry) : Z :=
  let mode := (e_mode e mod 2 ^ 32)%Z in
  match e_type e with TypeDir => Z.lor mode ModeDir | _ => mode end.
Definition tar_entry (filename version : gostring) (s : scan) (e : entry) : result gostring scan :=
  match e_type e with
  | TypeOther => Err "unsafe archive entry"
  | _ => scan_entry filename version (tar_mode e) s e
  end.
Definition txExtract `{ArchiveReader} (archive : list ascii) (filename version : gostring) :
    result gostring (list ascii) :=
  let start := mkScan ∅ false 0 [] in
  s ← (if hasSuffix filename ".zip" then
         match read_zip archive with
         | None => Err "archive read"
         | Some es => mfold (zip_entry filename version) start es
         end
       else if hasSuffix filename ".tar.gz" then
         match read_tar archive with
         | None => Err "archive read"
         | Some (es, clean) =>
             s ← mfold (tar_entry filename version) start es;
             if clean : bool then Ok s else Err "archive read"
         end
       else Err "unknown archive format");
  if x_found s then Ok (x_out s) else Err "archive executable absent".
End extract.

(** ** The file system *)
Record file := mkFile { f_regular : bool; f_data : list ascii }.
Record fsys := mkFs { f_names : gmap gostring nat; f_files : gmap nat file }.
(** The tests that are made on an error: [os.IsNotExist], [os.ErrPermission] and
    the error number of the system. *)
Record io_error := mkErr { notExist : bool; permission : bool; errno : option Z }.
Definition errMissing : io_error := mkErr true false (Some 2%Z).
Definition errExists : io_error := mkErr false false None.
Definition errPlain : io_error := mkErr false false None.

Abbreviation TransactionResult := SelfUpdate.TransactionResult.
Record world := mkWorld {
  w_fs : fsys;
  w_tick : nat;            (* calls made so far *)
  w_past : list fsys;      (* the states gone through, the last one first *)
  w_result : TransactionResult }.
(** A function that returns [fail(code)] throws the code. *)
Definition M := eff world gostring.
(** Run [m] and look at its error, as a called closure. *)
Definition attempt {A} (m : M A) : M (result gostring A) := fun w => let '(r, w) := m w in (Ok r, w).
(** [defer fin()]. *)
Definition finally {A} (m : M A) (fin : M unit) : M A :=
  fun w => let '(r, w) := m w in let '(_, w) := fin w in (r, w).

Definition lookup_file (fs : fsys) (p : gostring) : option (nat * file) :=
  id ← f_names fs !! p; f ← f_files fs !! id; Some (id, f).
Definition set_names (g : gmap gostring nat -> gmap gostring nat) (fs : fsys) : fsys :=
  mkFs (g (f_names fs)) (f_files fs).
Definition fs_call (A : Type) : Type := fsys -> result io_error A * fsys.
(** [os.Lstat]: the identity of the file and whether it is regular. *)
Definition lstat (p : gostring) : fs_call (nat * bool) := fun fs =>
  match lookup_file fs p with Some (id, f) => (Ok (id, f_regular f), fs) | None => (Err errMissing, fs) end.
(** [os.Open] and reading to the end. *)
Definition readFile (p : gostring) : fs_call (list ascii) := fun fs =>
  match lookup_file fs p with Some (_, f) => (Ok (f_data f), fs) | None => (Err errMissing, fs) end.
(** [os.OpenFile] with [O_CREATE|O_EXCL], and [os.CreateTemp] once its name is chosen. *)
Definition createExcl (p : gostring) : fs_call nat := fun fs =>
  match f_names fs !! p with
  | Some _ => (Err errExists, fs)
  | None => let id := fresh (dom (f_files fs)) in
            (Ok id, mkFs (<[p := id]> (f_names fs)) (<[id := mkFile true []]> (f_files fs)))
  end.
(** A write through an open file. *)
Definition writeFile (id : nat) (data : list ascii) : fs_call unit := fun fs =>
  (Ok tt, mkFs (f_names fs) (<[id := mkFile true data]> (f_files fs))).
Definition nop : fs_call unit := fun fs => (Ok tt, fs).
Definition removeFile (p : gostring) : fs_call unit := fun fs =>
  match f_names fs !! p with
  | Some _ => (Ok tt, set_names (delete p) fs)
  | None => (Err errMissing, fs)
  end.
(** [os.Rename]: replaces the destination; two names of one file stay as they are. *)
Definition renameFile (a b : gostring) : fs_call unit := fun fs =>
  match f_names fs !! a with
  | None => (Err errMissing, fs)
  | Some id =>
      if decide (f_names fs !! b = Some id) then (Ok tt, fs)
      else (Ok tt, set_names (fun m => <[b := id]> (delete a m)) fs)
  end.
(** [os.Link] and Windows' [MoveFile]: both refuse an existing destination. *)
Definition linkFile (a b : gostring) : fs_call unit := fun fs =>
  match f_names fs !! a, f_names fs !! b with
  | None, _ => (Err errMissing, fs)
  | _, Some _ => (Err errExists, fs)
  | Some id, None => (Ok tt, set_names (<[b := id]>) fs)
  end.
Definition moveFile (a b : gostring) : fs_call unit := fun fs =>
  match f_names fs !! a, f_names fs !! b with
  | None, _ => (Err errMissing, fs)
  | _, Some _ => (Err errExists, fs)
  | Some id, None => (Ok tt, set_names (fun m => <[b := id]> (delete a m)) fs)
  end.

(** ** The transaction *)

(** What the system answers: whether the n-th call fails, what the read-back of
    the executable gives at that point, the name [os.CreateTemp] finds, and
    [filepath.Abs]. *)
Record oracle := mkOracle {
  o_fail : nat -> option io_error;
  o_version : nat -> fsys -> result io_error gostring;
  o_temp : gostring;
  o_abs : gostring -> gostring;
}.
Record txOwner := mkOwner { ow_Schema : gostring; ow_Source : gostring; ow_Hash : gostring }.
(** [json.Marshal] and [json.Unmarshal] of a [txOwner]. *)
Class OwnerCodec := {
  encode_owner : txOwner -> list ascii;
  decode_owner : list ascii -> option txOwner;
  decode_encode_owner ow : decode_owner (encode_owner ow) = Some ow;
}.
Record Transaction := mkTransaction {
  t_ExecutablePath : gostring; t_ArchivePath : gostring; t_ExpectedArchiveSHA256 : gostring;
  t_TargetVersion : gostring }.

Definition setInstalled (v : gostring) (r : TransactionResult) : TransactionResult :=
  SelfUpdate.mkTx v (SelfUpdate.tx_previous r) (SelfUpdate.tx_code r) (SelfUpdate.tx_changed r).
Definition setCode (c : gostring) (r : TransactionResult) : TransactionResult :=
  SelfUpdate.mkTx (SelfUpdate.tx_installed r) (SelfUpdate.tx_previous r) c (SelfUpdate.tx_changed r).

Section transaction.
Context `{UnicodeTables} `{ArchiveReader} `{SHA256} `{OwnerCodec} (plat : platform) (o : oracle).

Definition txErrorCode (e : io_error) : gostring :=
  if permission e then "UPDATE_PERMISSION_DENIED"
  else match errno e with
       | None => []
       | Some n =>
           if windows plat then
             if bool_decide (n ∈ [32; 33]%Z) then "UPDATE_IN_USE_DEFERRED"
             else if bool_decide (n ∈ [225; 226; 1260]%Z) then "UPDATE_QUARANTINED" else []
           else if (n =? 26)%Z then "UPDATE_IN_USE_DEFERRED" else []
       end.

(** A call to the system. *)
Definition call {A} (f : fs_call A) : M (result io_error A) := fun w =>
  let step r fs := (Ok r, mkWorld fs (S (w_tick w)) (w_fs w :: w_past w) (w_result w)) in
  match o_fail o (w_tick w) with
  | Some e => step (Err e) (w_fs w)
  | None => let '(r, fs) := f (w_fs w) in step r fs
  end.
(** [tx.Readback(ctx, tx.ExecutablePath)]: runs the executable. *)
Definition readback : M (result io_error gostring) := fun w =>
  (Ok (o_version o (w_tick w) (w_fs w)), mkWorld (w_fs w) (S (w_tick w)) (w_fs w :: w_past w) (w_result w)).
Definition set_result (f : TransactionResult -> TransactionResult) : M unit :=
  modify (fun w => mkWorld (w_fs w) (w_tick w) (w_past w) (f (w_result w))).
Definition orFail {A} (r : result io_error A) : M A :=
  match r with Ok a => mret a | Err e => throw (txErrorCode e) end.
Definition must {A} (f : fs_call A) : M A := r ← call f; orFail r.
(** A call whose error is dropped. *)
Definition ignore {A} (f : fs_call A) : M unit := _ ← call f; mret tt.

Definition fileHash (p : gostring) : fs_call gostring := fun fs =>
  let '(r, fs) := readFile p fs in
  (match r with Ok data => Ok (hexEncode (sha256 data)) | Err e => Err e end, fs).
Definition txPathIdentity (p : gostring) : gostring :=
  let p := o_abs o p in
  hexEncode (sha256 (pathClean (if windows plat then toLower p else p))).
(** The test that a name still refers to the regular file [id] with this hash. *)
Definition same_image (p : gostring) (id : nat) (hash : gostring) : M bool :=
  st ← call (lstat p);
  h ← call (fileHash p);
  mret (match st, h with
        | Ok (id', true), Ok h => bool_decide (id' = id) && streq h hash
        | _, _ => false
        end).
Definition refreshInstalled : M unit :=
  _ ← set_result (setInstalled []);
  v ← readback;
  match v with
  | Ok v => if txSemver v then set_result (setInstalled v) else mret tt
  | Err _ => mret tt
  end.
Definition refreshFail {A} : M A := _ ← refreshInstalled; throw [].

(** [strings.EqualFold] on hexadecimal text. *)
Definition equalHex (a b : gostring) : bool := streq (map lowerByte a) (map lowerByte b).
Definition verifyArchive (tx : Transaction) : M (list ascii) :=
  f ← must (fun fs => match lookup_file fs (t_ArchivePath tx) with
                      | Some (_, f) => (Ok f, fs) | None => (Err errMissing, fs) end);
  let mismatch {A} : M A := throw "UPDATE_CHECKSUM_MISMATCH" in
  let size := Z.of_nat (length (f_data f)) in
  st ← call nop;
  if negb (is_ok st) || negb (f_regular f) || (txMaxArchive <? size)%Z then mismatch
  else
    let data := takeZ (txMaxArchive + 1) (f_data f) in
    let n := Z.of_nat (length data) in
    rd ← call nop;
    if negb (is_ok rd) || (txMaxArchive <? n)%Z || negb (n =? size)%Z then mismatch
    else match hexDecode (t_ExpectedArchiveSHA256 tx) with
         | None => mismatch
         | Some expected =>
             if negb (length expected =? 32) || negb (equalHex (hexEncode (sha256 data)) (t_ExpectedArchiveSHA256 tx))
             then mismatch
             else sk ← call nop; if is_ok sk then mret (f_data f) else mismatch
         end.
(** Extract into the open stage; an error leaves what was written, which is
    removed with the stage. *)
Definition fillStage (tx : Transaction) (archive : list ascii) (stage : nat) : M unit :=
  r ← attempt (match txExtract plat archive (pathBase (t_ArchivePath tx)) (t_TargetVersion tx) with
               | Err _ => throw []
               | Ok image => _ ← must (writeFile stage image); _ ← must nop; must nop
               end);
  closed ← call nop;
  match r with Err code => throw code | Ok _ => orFail closed end.

Definition backupPath (exe : gostring) : gostring := exe ++ ".old".
Definition markerPath (exe : gostring) : gostring := backupPath exe ++ ".update-owner".
Definition ownerSchema : gostring := "mi-lsp-transaction-owner/v1".
Definition txBackup (target backup : gostring) : fs_call unit :=
  if windows plat then moveFile target backup else linkFile target backup.
Definition writeMarker (exe oldHash : gostring) : M unit :=
  let marker := markerPath exe in
  id ← must (createExcl marker);
  r ← attempt (_ ← must (writeFile id (encode_owner (mkOwner ownerSchema (txPathIdentity exe) oldHash))); must nop);
  closed ← call nop;
  match r, closed with
  | Ok _, Ok _ => mret tt
  | Err code, _ => _ ← ignore (removeFile marker); throw code
  | Ok _, Err e => _ ← ignore (removeFile marker); throw (txErrorCode e)
  end.
Definition restore (exe : gostring) (id : nat) (oldHash stageHash : gostring) : M unit :=
  let backup := backupPath exe in
  bi ← call (lstat backup);
  match bi with
  | Ok (id', true) =>
      if negb (bool_decide (id' = id)) then throw "backup identity changed"
      else
        bh ← call (fileHash backup);
        if negb (match bh with Ok h => streq h oldHash | Err _ => false end) then throw "backup content changed"
        else
          current ← call (lstat exe);
          _ ← match current with
              | Ok (_, false) => throw "target identity changed"
              | Ok (_, true) =>
                  h ← call (fileHash exe);
                  if match h with Ok h => streq h stageHash | Err _ => false end then mret tt
                  else throw "target content changed"
              | Err e => if notExist e then mret tt else throw "target unavailable"
              end;
          _ ← (if windows plat then
                 r ← call (removeFile exe);
                 match r with
                 | Err e => if notExist e then mret tt else throw "remove"
                 | Ok _ => mret tt
                 end
               else mret tt);
          r ← call (renameFile backup exe);
          match r with Ok _ => mret tt | Err _ => throw "rename" end
  | _ => throw "backup identity changed"
  end.
(** From the backup on; [info] and [oldHash] are the identity and the content of
    the executable as first read. *)
Definition backUp (exe : gostring) (info : nat) (oldHash : gostring) : M unit :=
  let backup := backupPath exe in
  let marker := markerPath exe in
  same ← same_image exe info oldHash;
  if negb same then refreshFail
  else
    old ← call (lstat backup);
    if negb (match old with Err e => notExist e | Ok _ => false end) then throw "UPDATE_IN_USE_DEFERRED"
    else
      _ ← writeMarker exe oldHash;
      b ← call (txBackup exe backup);
      match b with
      | Err e => _ ← ignore (removeFile marker); throw (txErrorCode e)
      | Ok _ =>
          same ← same_image backup info oldHash;
          if negb same then refreshFail
          else if windows plat then
            gone ← call (lstat exe);
            (if match gone with Err e => notExist e | Ok _ => false end then mret tt else refreshFail) : M unit
          else
            same ← same_image exe info oldHash;
            (if same : bool then mret tt else refreshFail) : M unit
      end.
Definition promote (tx : Transaction) (stageName : gostring) (info : nat) (oldHash oldVersion stageHash : gostring) :
    M unit :=
  let exe := t_ExecutablePath tx in
  let marker := markerPath exe in
  r ← call (renameFile stageName exe);
  match r with
  | Err e =>
      let code := txErrorCode e in
      _ ← (if windows plat then
             restored ← attempt (restore exe info oldHash stageHash);
             if is_ok restored then mret tt else refreshFail
           else ignore (removeFile (backupPath exe)));
      _ ← ignore (removeFile marker);
      v ← readback;
      _ ← set_result (setInstalled (match v with Ok v => v | Err _ => [] end));
      throw code
  | Ok _ =>
      v ← readback;
      if match v with Ok v => streq v (t_TargetVersion tx) | Err _ => false end then
        set_result (fun r => SelfUpdate.mkTx (t_TargetVersion tx) oldVersion (SelfUpdate.tx_code r) true)
      else
        st ← call (lstat exe);
        let gone := match st with Err e => notExist e | Ok _ => false end in
        let quarantined := match v with Err e => streq (txErrorCode e) "UPDATE_QUARANTINED" | Ok _ => false end in
        let code : gostring := if gone || quarantined then "UPDATE_QUARANTINED" else "UPDATE_READBACK_FAILED_ROLLED_BACK" in
        restored ← attempt (restore exe info oldHash stageHash);
        if negb (is_ok restored) then refreshFail
        else
          _ ← ignore (removeFile marker);
          _ ← refreshInstalled;
          installed ← gets (fun w => SelfUpdate.tx_installed (w_result w));
          if negb (streq installed oldVersion) then throw [] else throw code
  end.
Definition transaction (tx : Transaction) : M unit :=
  let exe := t_ExecutablePath tx in
  if streq exe [] || negb (txSemver (t_TargetVersion tx)) then throw []
  else
    '(info, regular) ← must (lstat exe);
    if negb (regular : bool) then throw "UPDATE_PERMISSION_DENIED"
    else
      oldHash ← must (fileHash exe);
      v ← readback;
      match v with
      | Err _ => throw []
      | Ok oldVersion =>
          if negb (txSemver oldVersion) then throw []
          else
            current ← call (fileHash exe);
            if negb (match current with Ok h => streq h oldHash | Err _ => false end) then throw []
            else
              _ ← set_result (setInstalled oldVersion);
              archive ← verifyArchive tx;
              stage ← must (createExcl (o_temp o));
              finally
                (_ ← fillStage tx archive stage;
                 stageHash ← must (fileHash (o_temp o));
                 _ ← backUp exe info oldHash;
                 promote tx (o_temp o) info oldHash oldVersion stageHash)
                (ignore (removeFile (o_temp o)))
      end.
(** The result, whether there is an error, and the final state. *)
Definition ApplyTransaction (tx : Transaction) (fs : fsys) : TransactionResult * bool * world :=
  let '(r, w) := transaction tx (mkWorld fs 0 [] (SelfUpdate.mkTx [] [] [] false)) in
  match r with
  | Ok _ => (w_result w, false, w)
  | Err code => (setCode code (w_result w), true, w)
  end.

(** ** Removing an old backup; the errors are Go's messages. *)
Definition CleanupOld (executable : gostring) (child : bool) : M unit :=
  let backup := backupPath executable in
  let marker := markerPath executable in
  if child then throw "backup cleanup deferred"
  else
    raw ← call (readFile marker);
    match raw with
    | Err _ => throw "backup ownership unavailable"
    | Ok raw =>
        if 4096 <? length raw then throw "backup ownership invalid"
        else match decode_owner raw with
             | None => throw "backup ownership invalid"
             | Some owner =>
                 if negb (streq (ow_Schema owner) ownerSchema)
                    || negb (streq (ow_Source owner) (txPathIdentity executable))
                 then throw "backup ownership invalid"
                 else
                   info ← call (lstat backup);
                   if negb (match info with Ok (_, regular) => regular | Err _ => false end)
                   then throw "backup unavailable"
                   else
                     h ← call (fileHash backup);
                     if negb (match h with Ok h => streq h (ow_Hash owner) | Err _ => false end)
                     then throw "backup identity changed"
                     else
                       r ← call (removeFile backup);
                       if negb (is_ok r) then throw "backup removal deferred"
                       else
                         r ← call (removeFile marker);
                         if is_ok r then mret tt else throw "backup marker removal deferred"
             end
    end.
End transaction.
