(* ===== verification/TransactionFacts.v ===== *)
(** Theorems about the replacement of the executable (Transaction.v): the
    original is never lost, whatever fails and whenever the process dies; the
    outcome of a run; what an archive must look like to be extracted; and the
    removal of old backups. *)
From S2P Require Import Prelude GoStrings GoStringFacts GoPath GoNum Versions Transaction.
From S2P Require SelfUpdate.

Local Open Scope go_scope.

Lemma takeZ_whole n s : length (takeZ n s) = length s -> takeZ n s = s.
Proof.
  revert n; induction s as [|c s IH]; intros n; [done|]. cbn [takeZ]. destruct (n <=? 0)%Z; [done|].
  cbn [length]. intros [= Hs]. by rewrite IH.
Qed.

Lemma wp_attempt {A} (m : M A) (Q : result gostring (result gostring A) -> world -> Prop) w :
  wp m (fun r w => Q (Ok r) w) w -> wp (attempt m) Q w.
Proof. unfold wp, attempt. by destruct (m w). Qed.
Lemma wp_finally {A} (m : M A) (fin : M unit) Q w :
  wp m (fun r w => wp fin (fun _ w => Q r w) w) w -> wp (finally m fin) Q w.
Proof. unfold wp, finally. destruct (m w) as [r w1]. cbn. by destruct (fin w1). Qed.

(** ** Names and files *)
Lemma lookup_delete_name fs p q : p <> q -> lookup_file (set_names (delete q) fs) p = lookup_file fs p.
Proof. intros Hne. unfold lookup_file. cbn. by rewrite lookup_delete_ne. Qed.
Lemma lookup_insert_name fs p q i : p <> q -> lookup_file (set_names (<[q := i]>) fs) p = lookup_file fs p.
Proof. intros Hne. unfold lookup_file. cbn. by rewrite lookup_insert_ne. Qed.
Lemma lookup_named fs p q i f :
  lookup_file fs p = Some (i, f) -> lookup_file (set_names (<[q := i]>) fs) q = Some (i, f).
Proof.
  unfold lookup_file. intros (j & Hj & (g & Hg & [= -> ->])%bind_Some)%bind_Some. cbn.
  rewrite lookup_insert_eq. cbn. by rewrite Hg.
Qed.
Lemma lookup_file_id fs p i f : lookup_file fs p = Some (i, f) -> f_names fs !! p = Some i /\ f_files fs !! i = Some f.
Proof. unfold lookup_file. by intros (j & Hj & (g & Hg & [= -> ->])%bind_Some)%bind_Some. Qed.
Lemma lookup_file_intro fs p i f : f_names fs !! p = Some i -> f_files fs !! i = Some f -> lookup_file fs p = Some (i, f).
Proof. unfold lookup_file. intros -> Hf. cbn. by rewrite Hf. Qed.
Lemma createExcl_spec p fs fs' i :
  createExcl p fs = (Ok i, fs') ->
  f_names fs !! p = None /\ lookup_file fs' p = Some (i, mkFile true []) /\
  (forall q x, lookup_file fs q = Some x -> lookup_file fs' q = Some x /\ q <> p /\ x.1 <> i).
Proof.
  unfold createExcl. destruct (f_names fs !! p) eqn:Hp; [done|]. intros [= <- <-]. split; [done|].
  assert (Hnew : f_files fs !! fresh (dom (f_files fs)) = None).
  { apply not_elem_of_dom, is_fresh. }
  split; [apply lookup_file_intro; cbn; by rewrite lookup_insert_eq|].
  intros q [j f] (Hn & Hf)%lookup_file_id. assert (q <> p) by congruence.
  assert (j <> fresh (dom (f_files fs))) by congruence. cbn [fst].
  split_and!; [|done|done]. apply lookup_file_intro; cbn; by rewrite lookup_insert_ne.
Qed.
Lemma writeFile_spec i data fs q j f :
  lookup_file fs q = Some (j, f) ->
  lookup_file (snd (writeFile i data fs)) q = Some (j, if decide (j = i) then mkFile true data else f).
Proof.
  intros (Hn & Hf)%lookup_file_id. apply lookup_file_intro; [done|]. cbn.
  destruct (decide (j = i)) as [->|]; [by rewrite lookup_insert_eq | by rewrite lookup_insert_ne].
Qed.
Lemma old_path_ne p : backupPath p <> p /\ markerPath p <> p /\ markerPath p <> backupPath p.
Proof.
  unfold markerPath, backupPath. split_and!; intros E%(f_equal length); rewrite ?length_app in E; cbn in E; lia.
Qed.

(** * The transaction *)
Section transaction.
Context `{UnicodeTables} `{ArchiveReader} `{SHA256} `{OwnerCodec} (plat : platform) (o : oracle) (tx : Transaction).
Context (info : nat) (f0 : file).

Notation exe := (t_ExecutablePath tx).
Notation backup := (backupPath (t_ExecutablePath tx)).
Notation marker := (markerPath (t_ExecutablePath tx)).
Notation temp := (o_temp o).

(** ** What is preserved *)

(** A name refers to the file that was the executable at the start. *)
Definition original (p : gostring) (fs : fsys) : Prop := lookup_file fs p = Some (info, f0).
(** The image in an archive with the expected digest. *)
Definition expected_image (img : list ascii) : Prop :=
  exists archive, equalHex (hexEncode (sha256 archive)) (t_ExpectedArchiveSHA256 tx) = true /\
    txExtract plat archive (pathBase (t_ArchivePath tx)) (t_TargetVersion tx) = Ok img.
Definition complete (fs : fsys) : Prop :=
  exists id img, lookup_file fs exe = Some (id, mkFile true img) /\ expected_image img.
Definition replaced (fs : fsys) : Prop := original backup fs /\ (windows plat = true \/ complete fs).
Definition kept (fs : fsys) : Prop := original exe fs \/ replaced fs.

Record holds (P : fsys -> Prop) (w : world) : Prop := {
  hl_fs : P (w_fs w);
  hl_past : Forall kept (w_past w);
  hl_unchanged : SelfUpdate.tx_changed (w_result w) = false;
}.
Definition known (code : gostring) : Prop := code = [] \/ code ∈ SelfUpdate.allowedCodes.

(** ** Calls *)
Lemma call_spec {A} (f : fs_call A) P Q w :
  holds P w -> (forall fs, P fs -> kept fs) ->
  (forall r w', f (w_fs w) = (r, w_fs w') \/ (exists e, r = Err e /\ w_fs w' = w_fs w) ->
     Forall kept (w_past w') -> SelfUpdate.tx_changed (w_result w') = false -> Q (Ok r) w') ->
  wp (call o f) Q w.
Proof.
  intros [Hfs Hpast Hch] Hk HQ. unfold wp, call. destruct (o_fail o (w_tick w)) as [e|].
  - apply HQ; cbn; [right; by exists e|constructor; auto|done].
  - destruct (f (w_fs w)) as [r fs'] eqn:Hf. apply HQ; cbn; [by left|constructor; auto|done].
Qed.
(** Failing is harmless: a call either does what it does, or nothing. *)
Definition harmless {A} (f : fs_call A) : Prop := forall fs e fs', f fs = (Err e, fs') -> fs' = fs.
(** A call that leaves the file system as it is. *)
Definition readonly {A} (f : fs_call A) : Prop := forall fs, snd (f fs) = fs.
Lemma read_spec {A} (f : fs_call A) P Q w :
  readonly f -> holds P w -> (forall fs, P fs -> kept fs) ->
  (forall r w', holds P w' -> (forall a, r = Ok a -> exists fs, P fs /\ fst (f fs) = Ok a) -> Q (Ok r) w') ->
  wp (call o f) Q w.
Proof.
  intros Hr Hw Hk HQ. pose proof Hw as [Hfs _ _]. eapply call_spec; [done|done|]. intros r w' Hf Hp Hch.
  assert (w_fs w' = w_fs w) as Heq.
  { destruct Hf as [Hf|(e & _ & Hf)]; [|done]. pose proof (Hr (w_fs w)) as Hs. by rewrite Hf in Hs. }
  apply HQ; [constructor; by rewrite ?Heq|]. intros a ->. exists (w_fs w). split; [done|].
  destruct Hf as [Hf|(e & Hf & _)]; [by rewrite Hf|done].
Qed.
Lemma lstat_readonly p : readonly (lstat p).
Proof. intros fs. unfold lstat. by destruct (lookup_file fs p) as [[? ?]|]. Qed.
Lemma readFile_readonly p : readonly (readFile p).
Proof. intros fs. unfold readFile. by destruct (lookup_file fs p) as [[? ?]|]. Qed.
Lemma fileHash_readonly p : readonly (fileHash p).
Proof.
  intros fs. unfold fileHash. pose proof (readFile_readonly p fs). by destruct (readFile p fs).
Qed.
Lemma nop_readonly : readonly nop.
Proof. done. Qed.
Lemma readback_spec P Q w :
  holds P w -> (forall fs, P fs -> kept fs) ->
  (forall v w', holds P w' -> (exists t fs, P fs /\ v = o_version o t fs) -> Q (Ok v) w') -> wp (readback o) Q w.
Proof.
  intros [Hfs Hp Hch] Hk HQ. apply HQ; [constructor; cbn; auto|]. by exists (w_tick w), (w_fs w).
Qed.
Lemma orFail_spec {A} (r : result io_error A) (Q : result gostring A -> world -> Prop) w :
  (forall a, r = Ok a -> Q (Ok a) w) -> (forall e, r = Err e -> Q (Err (txErrorCode plat e)) w) ->
  wp (orFail plat r) Q w.
Proof. intros Hok Herr. destruct r as [a|e]; cbn; [by apply Hok | by apply Herr]. Qed.
Lemma known_code e : known (txErrorCode plat e).
Proof.
  unfold known, txErrorCode. repeat case_match; (by left) || (right; by apply (bool_decide_unpack _)).
Qed.
Lemma must_call {A} (f : fs_call A) P (Q : result gostring A -> world -> Prop) w :
  harmless f -> holds P w -> (forall fs, P fs -> kept fs) ->
  (forall a w', f (w_fs w) = (Ok a, w_fs w') -> Forall kept (w_past w') ->
     SelfUpdate.tx_changed (w_result w') = false -> Q (Ok a) w') ->
  (forall code w', holds P w' -> known code -> Q (Err code) w') ->
  wp (must plat o f) Q w.
Proof.
  intros Hh Hw Hk Hok Herr. unfold must. wp_step. pose proof Hw as [Hfs _ _].
  eapply call_spec; [done|done|]. intros r w' Hf Hp Hch. apply orFail_spec.
  - intros a ->. destruct Hf as [Hf|(e & ? & _)]; [by apply Hok|done].
  - intros e ->. apply Herr; [|apply known_code]. constructor; [|done|done].
    destruct Hf as [Hf|(e' & _ & ->)]; [|done]. apply Hh in Hf. by rewrite Hf.
Qed.
Lemma createExcl_harmless p : harmless (createExcl p).
Proof. intros fs e fs'. unfold createExcl. destruct (f_names fs !! p); [|done]. by intros [= _ <-]. Qed.
Lemma writeFile_harmless i data : harmless (writeFile i data).
Proof. done. Qed.
Lemma holds_result P w f :
  holds P w -> SelfUpdate.tx_changed (f (w_result w)) = SelfUpdate.tx_changed (w_result w) ->
  holds P (mkWorld (w_fs w) (w_tick w) (w_past w) (f (w_result w))).
Proof. intros [? ? ?] Hf. constructor; cbn; [done|done|by rewrite Hf]. Qed.
Lemma holds_mono (P R : fsys -> Prop) w : holds P w -> (P (w_fs w) -> R (w_fs w)) -> holds R w.
Proof. intros [? ? ?] HR. constructor; auto. Qed.

(** ** Steps that only look *)
Section looking.
Context (P : fsys -> Prop) (HP : forall fs, P fs -> kept fs).

Lemma must_read {A} (f : fs_call A) (Q : result gostring A -> world -> Prop) w :
  readonly f -> holds P w ->
  (forall a w' fs, holds P w' -> P fs -> fst (f fs) = Ok a -> Q (Ok a) w') ->
  (forall code w', holds P w' -> known code -> Q (Err code) w') ->
  wp (must plat o f) Q w.
Proof.
  intros Hr Hw Hok Herr. unfold must. wp_step. eapply read_spec; [done|done|done|]. intros r w' Hw' Hf.
  apply orFail_spec.
  - intros a ->. destruct (Hf a eq_refl) as (fs & Hfs & Ha). by eapply Hok.
  - intros e ->. apply Herr; [done|apply known_code].
Qed.
Lemma same_image_spec p id hash (Q : result gostring bool -> world -> Prop) w :
  holds P w -> (forall b w', holds P w' -> Q (Ok b) w') -> wp (same_image o p id hash) Q w.
Proof.
  intros Hw HQ. unfold same_image. wp_step. eapply read_spec; [apply lstat_readonly|done|done|].
  intros st w1 Hw1 _. wp_step. eapply read_spec; [apply fileHash_readonly|done|done|].
  intros h w2 Hw2 _. wp_step. by apply HQ.
Qed.
Lemma refreshInstalled_spec (Q : result gostring unit -> world -> Prop) w :
  holds P w -> (forall w', holds P w' -> Q (Ok tt) w') -> wp (refreshInstalled o) Q w.
Proof.
  intros Hw HQ. unfold refreshInstalled, set_result. wp_step. wp_step. wp_step.
  apply readback_spec with P; [by apply holds_result|done|]. intros v w1 Hw1 _.
  destruct v as [v|e]; [|wp_step; by apply HQ]. wp_step.
  - wp_step. apply HQ. by apply holds_result.
  - wp_step. by apply HQ.
Qed.
Lemma refreshFail_spec {A} (Q : result gostring A -> world -> Prop) w :
  holds P w -> (forall w', holds P w' -> Q (Err []) w') -> wp (refreshFail o) Q w.
Proof.
  intros Hw HQ. unfold refreshFail. wp_step. apply refreshInstalled_spec; [done|]. intros w1 Hw1.
  wp_step. by apply HQ.
Qed.
(** Removing a name that [P] does not speak of. *)
Lemma ignore_remove_spec p (Q : result gostring unit -> world -> Prop) w :
  (forall fs, P fs -> P (set_names (delete p) fs)) -> holds P w ->
  (forall w', holds P w' -> Q (Ok tt) w') -> wp (ignore o (removeFile p)) Q w.
Proof.
  intros Hdel Hw HQ. unfold ignore. wp_step. pose proof Hw as [Hfs _ _]. eapply call_spec; [done|done|].
  intros r w' Hf Hp Hch. wp_step. apply HQ. constructor; [|done|done].
  destruct Hf as [Hf|(e & _ & ->)]; [|done]. unfold removeFile in Hf.
  destruct (f_names (w_fs w) !! p); injection Hf as _ <-; [by apply Hdel|done].
Qed.
Lemma verifyArchive_spec (Q : result gostring (list ascii) -> world -> Prop) w :
  holds P w ->
  (forall archive w', holds P w' ->
     equalHex (hexEncode (sha256 archive)) (t_ExpectedArchiveSHA256 tx) = true -> Q (Ok archive) w') ->
  (forall code w', holds P w' -> known code -> Q (Err code) w') ->
  wp (verifyArchive plat o tx) Q w.
Proof.
  intros Hw Hok Herr. unfold verifyArchive. wp_step. apply must_read; [|done| |done].
  { intros fs. by destruct (lookup_file fs _) as [[? ?]|]. }
  intros f w1 fs Hw1 _ _. cbv zeta. clear fs.
  assert (Hmis : known "UPDATE_CHECKSUM_MISMATCH") by (right; by apply (bool_decide_unpack _)).
  wp_step. eapply read_spec; [apply nop_readonly|done|done|]. intros st w2 Hw2 _.
  wp_step; [wp_step; by apply Herr|]. wp_step. eapply read_spec; [apply nop_readonly|done|done|].
  intros rd w3 Hw3 _. wp_step; [wp_step; by apply Herr|].
  destruct (hexDecode _) as [expected|]; [|wp_step; by apply Herr].
  wp_step; [wp_step; by apply Herr|]. wp_step. eapply read_spec; [apply nop_readonly|done|done|].
  intros sk w4 Hw4 _. wp_step; [|wp_step; by apply Herr]. wp_step. apply Hok; [done|].
  apply orb_false_iff in Hif1 as [_ Heq%negb_false_iff].
  apply orb_false_iff in Hif0 as [[_ _]%orb_false_iff Hn%negb_false_iff]. apply Z.eqb_eq, Nat2Z.inj, takeZ_whole in Hn.
  by rewrite Hn in Heq.
Qed.
End looking.

(** ** The stage *)

(** The stage is a file of its own, next to the untouched executable. *)
Record staged (s : nat) (g : file) (fs : fsys) : Prop := {
  st_exe : original exe fs;
  st_temp : lookup_file fs temp = Some (s, g);
  st_other : s <> info;
  st_path : temp <> exe;
}.
Lemma original_kept fs : original exe fs -> kept fs.
Proof. by left. Qed.
Lemma staged_kept s g fs : staged s g fs -> kept fs.
Proof. intros []. by left. Qed.
Lemma staged_original s g w : holds (staged s g) w -> holds (original exe) w.
Proof. intros Hw. eapply holds_mono; [exact Hw|]. by intros []. Qed.

Lemma create_stage_spec (Q : result gostring nat -> world -> Prop) w :
  holds (original exe) w ->
  (forall s w', holds (staged s (mkFile true [])) w' -> Q (Ok s) w') ->
  (forall code w', holds (original exe) w' -> known code -> Q (Err code) w') ->
  wp (must plat o (createExcl temp)) Q w.
Proof.
  intros Hw Hok Herr. pose proof Hw as [Hfs _ _].
  eapply must_call; [apply createExcl_harmless|exact Hw|apply original_kept| |done].
  intros s w' Hf Hp Hch. apply createExcl_spec in Hf as (Hnone & Hnew & Hold).
  destruct (Hold _ _ Hfs) as (Hexe & Hpath & Hid). apply Hok. constructor; [|done|done]. by constructor.
Qed.
Lemma write_stage_spec s data (Q : result gostring unit -> world -> Prop) w g :
  holds (staged s g) w ->
  (forall w', holds (staged s (mkFile true data)) w' -> Q (Ok tt) w') ->
  (forall code w', holds (original exe) w' -> known code -> Q (Err code) w') ->
  wp (must plat o (writeFile s data)) Q w.
Proof.
  intros Hw Hok Herr. pose proof Hw as [[Hexe Htemp Hs Hpath] _ _].
  eapply must_call; [apply writeFile_harmless|exact Hw|apply staged_kept| |].
  - intros [] w' Hf Hp Hch. injection Hf as Hf. apply Hok.
    constructor; [|done|done]. rewrite <- Hf. constructor; [|  |done|done].
    + unfold original. pose proof (writeFile_spec s data _ _ _ _ Hexe) as E. by rewrite decide_False in E.
    + pose proof (writeFile_spec s data _ _ _ _ Htemp) as E. by rewrite decide_True in E.
  - intros code w' Hw' Hc. apply Herr; [by eapply staged_original|done].
Qed.
Lemma fillStage_spec archive s (Q : result gostring unit -> world -> Prop) w :
  holds (staged s (mkFile true [])) w ->
  equalHex (hexEncode (sha256 archive)) (t_ExpectedArchiveSHA256 tx) = true ->
  (forall img w', holds (staged s (mkFile true img)) w' -> expected_image img -> Q (Ok tt) w') ->
  (forall code w', holds (original exe) w' -> known code -> Q (Err code) w') ->
  wp (fillStage plat o tx archive s) Q w.
Proof.
  intros Hw Hsum Hok Herr. unfold fillStage. wp_step.
  assert (Hnext : forall (r : result gostring unit) w1,
    match r with
    | Ok _ => exists img, holds (staged s (mkFile true img)) w1 /\ expected_image img
    | Err code => holds (original exe) w1 /\ known code
    end ->
    wp (closed ← call o nop; match r with Err code => throw code | Ok _ => orFail plat closed end) Q w1).
  { intros r w1 Hr. wp_step. destruct r as [[]|code].
    - destruct Hr as (img & Hw1 & Himg). eapply read_spec; [apply nop_readonly|done|apply staged_kept|].
      intros closed w2 Hw2 _. apply orFail_spec; [intros [] _; by eapply Hok|].
      intros e _. apply Herr; [by eapply staged_original | apply known_code].
    - destruct Hr as [Hw1 Hc]. eapply read_spec; [apply nop_readonly|done|apply original_kept|].
      intros closed w2 Hw2 _. wp_step. by apply Herr. }
  apply wp_attempt. destruct (txExtract _ _ _ _) as [img|e] eqn:Hx.
  - assert (Himg : expected_image img) by by exists archive.
    assert (Hfail : forall code w', holds (staged s (mkFile true img)) w' -> known code ->
      holds (original exe) w' /\ known code) by (intros; split; [by eapply staged_original|done]).
    wp_step. eapply write_stage_spec; [done| |intros code w' ? ?; by apply (Hnext (Err code))].
    intros w1 Hw1. wp_step. eapply must_read; [apply staged_kept|apply nop_readonly|done| |intros code w' ? ?; apply (Hnext (Err code)); by apply Hfail].
    intros [] w2 _ Hw2 _ _. eapply must_read; [apply staged_kept|apply nop_readonly|done| |intros code w' ? ?; apply (Hnext (Err code)); by apply Hfail].
    intros [] w3 _ Hw3 _ _. apply (Hnext (Ok tt)). by exists img.
  - wp_step. apply (Hnext (Err [])). split; [by eapply staged_original|by left].
Qed.

(** ** The backup *)
Definition owner_data (h : gostring) : list ascii :=
  encode_owner (mkOwner ownerSchema (txPathIdentity plat o exe) h).
Definition owned (h : gostring) (fs : fsys) : Prop :=
  exists m, lookup_file fs marker = Some (m, mkFile true (owner_data h)).
Record marked (s : nat) (g : file) (h : gostring) (fs : fsys) : Prop := {
  mk_staged : staged s g fs;
  mk_owned : owned h fs;
  mk_path : temp <> marker;
}.
(** The original has its second name, or on Windows only that one. *)
Record backed (s : nat) (g : file) (h : gostring) (fs : fsys) : Prop := {
  bk_backup : original backup fs;
  bk_exe : if windows plat then f_names fs !! exe = None else original exe fs;
  bk_temp : lookup_file fs temp = Some (s, g);
  bk_owned : owned h fs;
  bk_other : s <> info;
  bk_paths : temp <> exe /\ temp <> backup /\ temp <> marker;
}.
(** What a failed run leaves. *)
Definition aborted (code : gostring) (w : world) : Prop :=
  known code /\ (holds (original exe) w \/ code = [] /\ holds replaced w /\ temp <> backup).

Lemma marked_kept s g h fs : marked s g h fs -> kept fs.
Proof. intros [Hs _ _]. by eapply staged_kept. Qed.
Lemma marked_original s g h w : holds (marked s g h) w -> holds (original exe) w.
Proof. intros Hw. eapply holds_mono; [exact Hw|]. by intros [[] _ _]. Qed.
Lemma backed_cases s g h fs : backed s g h fs -> (windows plat = true /\ replaced fs) \/ original exe fs.
Proof.
  intros [Hb He _ _ _ _]. destruct (windows plat) eqn:Hwin; [left|by right]. split; [done|]. split; [done|by left].
Qed.
Lemma backed_kept s g h fs : backed s g h fs -> kept fs.
Proof. intros [[_ ?]|?]%backed_cases; [by right|by left]. Qed.
Lemma backed_aborted s g h w : holds (backed s g h) w -> aborted [] w.
Proof.
  intros Hw. pose proof Hw as [Hfs _ _]. split; [by left|].
  destruct (backed_cases _ _ _ _ Hfs) as [[_ ?]|?]; [right|left].
  - split; [done|]. split; [by eapply holds_mono|]. by destruct Hfs as [_ _ _ _ _ (_ & ? & _)].
  - by eapply holds_mono.
Qed.
Lemma original_aborted code w : holds (original exe) w -> known code -> aborted code w.
Proof. split; [done|by left]. Qed.
Lemma original_del_marker fs : original exe fs -> original exe (set_names (delete marker) fs).
Proof. unfold original. intros Ho. rewrite lookup_delete_name; [done|]. intros E. symmetry in E. revert E. apply old_path_ne. Qed.

Lemma writeMarker_spec s g h (Q : result gostring unit -> world -> Prop) w :
  holds (staged s g) w ->
  (forall w', holds (marked s g h) w' -> Q (Ok tt) w') ->
  (forall code w', holds (original exe) w' -> known code -> Q (Err code) w') ->
  wp (writeMarker plat o exe h) Q w.
Proof.
  intros Hw Hok Herr. unfold writeMarker. wp_step. pose proof Hw as [[Hexe Htemp Hs Hpath] _ _].
  assert (Hdrop : forall code w', holds (original exe) w' -> known code ->
    wp (_ ← ignore o (removeFile marker); throw code) Q w').
  { intros code w' Hw' Hc. wp_step. eapply ignore_remove_spec; [apply original_kept|apply original_del_marker|done|].
    intros w2 Hw2. wp_step. by apply Herr. }
  eapply must_call; [apply createExcl_harmless|exact Hw|apply staged_kept| |].
  2:{ intros code w' Hw' Hc. apply Herr; [by eapply staged_original|done]. }
  intros m w1 Hf Hp1 Hch1. apply createExcl_spec in Hf as (Hnone & Hnew & Hold).
  destruct (Hold _ _ Hexe) as (Hexe1 & _ & Hm1). destruct (Hold _ _ Htemp) as (Htemp1 & Hpm & Hm2). cbn [fst] in *.
  assert (Hw1 : holds (staged s g) w1) by by constructor; [constructor| |].
  assert (Hgone : forall code w', holds (staged s g) w' -> known code ->
    wp (closed ← call o nop; _ ← ignore o (removeFile marker); throw code) Q w').
  { intros code w' Hw' Hc. wp_step. eapply read_spec; [apply nop_readonly|done|apply staged_kept|].
    intros closed w3 Hw3 _. apply Hdrop; [by eapply staged_original|done]. }
  wp_step. apply wp_attempt. wp_step.
  eapply must_call; [apply writeFile_harmless|exact Hw1|apply staged_kept| |intros code w' ? ?; by apply Hgone].
  intros [] w2 Hf Hp2 Hch2. injection Hf as Hf.
  assert (Hw2 : holds (marked s g h) w2).
  { constructor; [|done|done]. rewrite <- Hf. constructor; [constructor; try done| |done].
    - unfold original. pose proof (writeFile_spec m (owner_data h) _ _ _ _ Hexe1) as E. by rewrite decide_False in E.
    - pose proof (writeFile_spec m (owner_data h) _ _ _ _ Htemp1) as E. by rewrite decide_False in E.
    - exists m. pose proof (writeFile_spec m (owner_data h) _ _ _ _ Hnew) as E. by rewrite decide_True in E. }
  eapply must_read; [apply marked_kept|apply nop_readonly|done| |].
  - intros [] w3 _ Hw3 _ _. wp_step. eapply read_spec; [apply nop_readonly|done|apply marked_kept|].
    intros closed w4 Hw4 _. destruct closed as [[]|e]; [wp_step; by apply Hok|].
    apply Hdrop; [by eapply marked_original|apply known_code].
  - intros code w3 Hw3 Hc. apply Hgone; [|done]. eapply holds_mono; [exact Hw3|]. by intros [].
Qed.

Lemma txBackup_spec s g h fs fs' :
  txBackup plat exe backup fs = (Ok tt, fs') -> marked s g h fs -> backed s g h fs'.
Proof.
  intros E [[Hexe Htemp Hs Hpath] [m Hm] Hmark].
  destruct (old_path_ne exe) as (Hbe & Hme & Hmb).
  destruct (lookup_file_id _ _ _ _ Hexe) as [Hen Hef]. destruct (lookup_file_id _ _ _ _ Htemp) as [Htn Htf].
  unfold txBackup, moveFile, linkFile in E.
  assert (Hbn : f_names fs !! backup = None).
  { by destruct (windows plat), (f_names fs !! exe), (f_names fs !! backup). }
  assert (temp <> backup) by congruence.
  destruct (windows plat) eqn:Hwin; rewrite Hen, Hbn in E; injection E as <-; constructor; rewrite ?Hwin; unfold owned.
  - apply lookup_file_intro; [cbn; by rewrite lookup_insert_eq|done].
  - cbn. rewrite lookup_insert_ne by done. apply lookup_delete_eq.
  - apply lookup_file_intro; [cbn; by rewrite lookup_insert_ne, lookup_delete_ne|done].
  - exists m. destruct (lookup_file_id _ _ _ _ Hm) as [Hmn Hmf].
    apply lookup_file_intro; [cbn; by rewrite lookup_insert_ne, lookup_delete_ne|done].
  - done.
  - done.
  - by apply (lookup_named _ exe).
  - unfold original. by rewrite lookup_insert_name.
  - by rewrite lookup_insert_name.
  - exists m. by rewrite lookup_insert_name.
  - done.
  - done.
Qed.
Lemma txBackup_harmless a b : harmless (txBackup plat a b).
Proof.
  intros fs e fs'. unfold txBackup, moveFile, linkFile.
  destruct (windows plat), (f_names fs !! a), (f_names fs !! b); try done; by intros [= _ <-].
Qed.
Lemma backUp_spec s g h (Q : result gostring unit -> world -> Prop) w :
  holds (staged s g) w ->
  (forall w', holds (backed s g h) w' -> Q (Ok tt) w') ->
  (forall code w', aborted code w' -> Q (Err code) w') ->
  wp (backUp plat o exe info h) Q w.
Proof.
  intros Hw Hok Herr. unfold backUp. cbv zeta.
  assert (Horig : forall code w', holds (original exe) w' -> known code -> Q (Err code) w').
  { intros code w' ? ?. by apply Herr, original_aborted. }
  assert (Hlost : forall w', holds (backed s g h) w' -> wp (refreshFail o) Q w').
  { intros w' Hw'. eapply refreshFail_spec; [apply backed_kept|done|]. intros w2 Hw2.
    apply Herr. by eapply backed_aborted. }
  wp_step. eapply same_image_spec; [apply staged_kept|done|]. intros same w1 Hw1. wp_step.
  { eapply refreshFail_spec; [apply staged_kept|done|]. intros w2 Hw2.
    apply Horig; [by eapply staged_original|by left]. }
  wp_step. eapply read_spec; [apply lstat_readonly|done|apply staged_kept|]. intros old w2 Hw2 _. wp_step.
  { wp_step. apply Horig; [by eapply staged_original|]. right. by apply (bool_decide_unpack _). }
  wp_step. eapply writeMarker_spec; [exact Hw2| |done]. intros w3 Hw3.
  wp_step. pose proof Hw3 as [Hmk _ _]. eapply call_spec; [done|apply marked_kept|]. intros b w4 Hf Hp Hch.
  destruct b as [[]|e].
  - destruct Hf as [Hf|(e & ? & _)]; [|done].
    assert (Hw4 : holds (backed s g h) w4) by (constructor; [by eapply txBackup_spec|done|done]).
    wp_step. eapply same_image_spec; [apply backed_kept|done|]. intros same' w5 Hw5. wp_step; [by apply Hlost|].
    wp_step.
    + wp_step. eapply read_spec; [apply lstat_readonly|done|apply backed_kept|]. intros gone w6 Hw6 _.
      wp_step; [wp_step; by apply Hok|by apply Hlost].
    + wp_step. eapply same_image_spec; [apply backed_kept|done|]. intros same2 w6 Hw6.
      wp_step; [wp_step; by apply Hok|by apply Hlost].
  - assert (Hw4 : holds (original exe) w4).
    { constructor; [|done|done]. assert (w_fs w4 = w_fs w3) as ->.
      { destruct Hf as [Hf|(e' & _ & Hf)]; [|done]. by apply txBackup_harmless in Hf. }
      by destruct Hmk as [[] _ _]. }
    wp_step. eapply ignore_remove_spec; [apply original_kept|apply original_del_marker|done|].
    intros w5 Hw5. wp_step. apply Horig; [done|apply known_code].
Qed.

(** ** The promotion and the rollback *)
Record promoted (s : nat) (g : file) (h : gostring) (fs : fsys) : Prop := {
  pr_backup : original backup fs;
  pr_exe : lookup_file fs exe = Some (s, g);
  pr_owned : owned h fs;
  pr_temp : f_names fs !! temp = None;
  pr_other : s <> info;
  pr_path : temp <> backup;
}.
(** States from which the rollback works. *)
Record restorable (fs : fsys) : Prop := {
  rs_replaced : replaced fs;
  rs_moved : f_names fs !! exe <> Some info;
  rs_path : temp <> backup;
}.
Lemma restorable_kept fs : restorable fs -> kept fs.
Proof. intros [? _ _]. by right. Qed.
Lemma promoted_restorable s img h fs : expected_image img -> promoted s (mkFile true img) h fs -> restorable fs.
Proof.
  intros Himg [Hb He _ _ Hs Hp]. constructor; [|apply lookup_file_id in He as [He _]; congruence|done].
  split; [done|]. right. by exists s, img.
Qed.
Lemma backed_restorable s g h fs : windows plat = true -> backed s g h fs -> restorable fs.
Proof.
  intros Hwin [Hb He _ _ _ (_ & ? & _)]. rewrite Hwin in He. constructor; [|by rewrite He|done]. split; [done|by left].
Qed.
Lemma restorable_aborted w : holds restorable w -> aborted [] w.
Proof.
  intros Hw. pose proof Hw as [[? _ Hp] _ _]. split; [by left|]. right. split; [done|]. split; [|done].
  eapply holds_mono; [exact Hw|]. by intros [].
Qed.
Lemma rename_backup_spec fs fs' :
  renameFile backup exe fs = (Ok tt, fs') -> restorable fs -> original exe fs'.
Proof.
  intros E [[Hb _] Hne _]. destruct (lookup_file_id _ _ _ _ Hb) as [Hbn Hbf].
  unfold renameFile in E. rewrite Hbn, decide_False in E by done. injection E as <-.
  apply lookup_file_intro; [cbn; by rewrite lookup_insert_eq|done].
Qed.
Lemma renameFile_harmless a b : harmless (renameFile a b).
Proof.
  intros fs e fs'. unfold renameFile. destruct (f_names fs !! a); [|by intros [= _ <-]]. by case_decide.
Qed.
Lemma restore_spec h h' (Q : result gostring unit -> world -> Prop) w :
  holds restorable w ->
  (forall w', holds (original exe) w' -> Q (Ok tt) w') ->
  (forall e w', holds restorable w' -> Q (Err e) w') ->
  wp (restore plat o exe info h h') Q w.
Proof.
  intros Hw Hok Herr. unfold restore. cbv zeta. wp_step.
  eapply read_spec; [apply lstat_readonly|done|apply restorable_kept|]. intros bi w1 Hw1 _.
  destruct bi as [[id' []]|e]; [|wp_step; by apply Herr|wp_step; by apply Herr]. wp_step; [wp_step; by apply Herr|].
  wp_step. eapply read_spec; [apply fileHash_readonly|done|apply restorable_kept|]. intros bh w2 Hw2 _.
  wp_step; [wp_step; by apply Herr|]. wp_step.
  eapply read_spec; [apply lstat_readonly|done|apply restorable_kept|]. intros current w3 Hw3 _.
  assert (Hrename : forall w', holds restorable w' ->
    wp (r ← call o (renameFile backup exe); match r with Ok _ => mret tt | Err _ => throw ("rename" : gostring) end) Q w').
  { intros w' Hw'. wp_step. pose proof Hw' as [Hrs _ _]. eapply call_spec; [done|apply restorable_kept|].
    intros r w4 Hf Hp Hch. destruct r as [[]|e]; wp_step.
    - apply Hok. constructor; [|done|done]. destruct Hf as [Hf|(e & ? & _)]; [|done]. by eapply rename_backup_spec.
    - apply Herr. constructor; [|done|done]. destruct Hf as [Hf|(e' & _ & ->)]; [|done].
      apply renameFile_harmless in Hf. by rewrite Hf. }
  assert (Hremove : forall w', holds restorable w' ->
    wp (_ ← (if windows plat then
               r ← call o (removeFile exe);
               match r with
               | Err e => if notExist e then mret tt else throw ("remove" : gostring)
               | Ok _ => mret tt
               end
             else mret tt);
        r ← call o (renameFile backup exe); match r with Ok _ => mret tt | Err _ => throw ("rename" : gostring) end) Q w').
  { intros w' Hw'. wp_step. destruct (windows plat) eqn:Hwin; [|wp_step; by apply Hrename].
    wp_step. pose proof Hw' as [Hrs _ _]. eapply call_spec; [done|apply restorable_kept|].
    intros r w4 Hf Hp Hch. assert (Hw4 : holds restorable w4).
    { constructor; [|done|done]. destruct Hf as [Hf|(e & _ & ->)]; [|done].
      unfold removeFile in Hf. destruct (f_names (w_fs w') !! exe); [|injection Hf as _ <-; done].
      injection Hf as _ <-. destruct Hrs as [[Hb _] _ Hp']. constructor; [|cbn; by rewrite lookup_delete_eq|done].
      split; [|by left]. unfold original. rewrite lookup_delete_name; [done|apply old_path_ne]. }
    destruct r as [[]|e]; [wp_step; by apply Hrename|]. wp_step; wp_step; [by apply Hrename|by apply Herr]. }
  wp_step. destruct current as [[id'' []]|e].
  - wp_step. eapply read_spec; [apply fileHash_readonly|done|apply restorable_kept|]. intros hh w4 Hw4 _.
    wp_step; wp_step; [by apply Hremove|by apply Herr].
  - wp_step. by apply Herr.
  - wp_step; wp_step; [by apply Hremove|by apply Herr].
Qed.

Lemma promoted_spec s g h fs fs' :
  renameFile temp exe fs = (Ok tt, fs') -> backed s g h fs -> promoted s g h fs'.
Proof.
  intros E [Hb He Ht [m Hm] Hs (Hp1 & Hp2 & Hp3)]. destruct (old_path_ne exe) as (Hbe & Hme & Hmb).
  destruct (lookup_file_id _ _ _ _ Ht) as [Htn Htf]. destruct (lookup_file_id _ _ _ _ Hb) as [Hbn Hbf].
  destruct (lookup_file_id _ _ _ _ Hm) as [Hmn Hmf].
  assert (f_names fs !! exe <> Some s) as Hes.
  { destruct (windows plat); [by rewrite He|]. apply lookup_file_id in He as [He _]. congruence. }
  unfold renameFile in E. rewrite Htn, decide_False in E by done. injection E as <-.
  constructor; try done.
  - apply lookup_file_intro; [cbn; by rewrite lookup_insert_ne, lookup_delete_ne|done].
  - apply lookup_file_intro; [cbn; by rewrite lookup_insert_eq|done].
  - exists m. apply lookup_file_intro; [cbn; by rewrite lookup_insert_ne, lookup_delete_ne|done].
  - cbn. rewrite lookup_insert_ne by done. apply lookup_delete_eq.
Qed.
Lemma promoted_kept s img h fs : expected_image img -> promoted s (mkFile true img) h fs -> kept fs.
Proof. intros Hi Hp. eapply restorable_kept, promoted_restorable; done. Qed.

(** The new image is in place, answers with the target version, and the original
    is the backup, marked as ours. *)
Record succeeded (h oldVersion : gostring) (w : world) : Prop := {
  su_image : exists s img, promoted s (mkFile true img) h (w_fs w) /\ expected_image img /\
    exists t fs, promoted s (mkFile true img) h fs /\ o_version o t fs = Ok (t_TargetVersion tx);
  su_past : Forall kept (w_past w);
  su_changed : SelfUpdate.tx_changed (w_result w) = true;
  su_installed : SelfUpdate.tx_installed (w_result w) = t_TargetVersion tx;
  su_previous : SelfUpdate.tx_previous (w_result w) = oldVersion;
}.
Lemma promote_spec s img h oldVersion h' (Q : result gostring unit -> world -> Prop) w :
  expected_image img -> holds (backed s (mkFile true img) h) w ->
  (forall w', succeeded h oldVersion w' -> Q (Ok tt) w') ->
  (forall code w', aborted code w' -> Q (Err code) w') ->
  wp (promote plat o tx temp info h oldVersion h') Q w.
Proof.
  intros Himg Hw Hok Herr. unfold promote. cbv zeta. wp_step. pose proof Hw as [Hbk _ _].
  assert (Horig : forall code w', holds (original exe) w' -> known code -> Q (Err code) w').
  { intros code w' ? ?. by apply Herr, original_aborted. }
  assert (Hlost : forall w', holds restorable w' -> wp (refreshFail o) Q w').
  { intros w' Hw'. eapply refreshFail_spec; [apply restorable_kept|done|]. intros w2 Hw2.
    by apply Herr, restorable_aborted. }
  eapply call_spec; [done|apply backed_kept|]. intros r w1 Hf Hp Hch. destruct r as [[]|e].
  - destruct Hf as [Hf|(e & ? & _)]; [|done]. apply promoted_spec with (s := s) (g := mkFile true img) (h := h) in Hf; [|done].
    assert (Hw1 : holds (promoted s (mkFile true img) h) w1) by by constructor.
    wp_step. eapply readback_spec; [done|intros; by eapply promoted_kept|]. intros v w2 Hw2 Hread. wp_step.
    + apply Hok. pose proof Hw2 as [Hfs Hp2 _]. constructor; try done. exists s, img. split_and!; [done|done|].
      destruct Hread as (t & fs & Hpr & ->). exists t, fs. split; [done|].
      destruct (o_version o t fs) as [v|]; [|done]. by apply streq_true in Hif as ->.
    + wp_step. eapply read_spec; [apply lstat_readonly|done|intros; by eapply promoted_kept|]. intros st w3 Hw3 _.
      wp_step. apply wp_attempt. eapply restore_spec.
      * eapply holds_mono; [exact Hw3|]. intros. by eapply promoted_restorable.
      * intros w4 Hw4. cbn [is_ok negb]. wp_step.
        eapply ignore_remove_spec; [apply original_kept|apply original_del_marker|done|]. intros w5 Hw5.
        wp_step. eapply refreshInstalled_spec; [apply original_kept|done|]. intros w6 Hw6. wp_step. wp_step.
        wp_step; wp_step; apply Horig; try done; [by left|].
        destruct (_ || _); right; by apply (bool_decide_unpack _).
      * intros e w4 Hw4. cbn [is_ok negb]. by apply Hlost.
  - assert (Hw1 : holds (backed s (mkFile true img) h) w1).
    { constructor; [|done|done]. destruct Hf as [Hf|(e' & _ & ->)]; [|done].
      apply renameFile_harmless in Hf. by rewrite Hf. }
    assert (Hend : forall w', holds (original exe) w' ->
      wp (_ ← ignore o (removeFile marker); v ← readback o;
          _ ← set_result (setInstalled (match v with Ok v => v | Err _ => [] end)); throw (txErrorCode plat e)) Q w').
    { intros w' Hw'. wp_step. eapply ignore_remove_spec; [apply original_kept|apply original_del_marker|done|].
      intros w2 Hw2. wp_step. eapply readback_spec; [done|apply original_kept|]. intros v w3 Hw3 _.
      unfold set_result. wp_step. wp_step. wp_step. apply Horig; [by apply holds_result|apply known_code]. }
    wp_step. destruct (windows plat) eqn:Hwin.
    + wp_step. apply wp_attempt. eapply restore_spec.
      * eapply holds_mono; [exact Hw1|]. intros. by eapply backed_restorable.
      * intros w2 Hw2. cbn [is_ok]. wp_step. by apply Hend.
      * intros e' w2 Hw2. cbn [is_ok]. apply refreshFail_spec with restorable; [apply restorable_kept|done|].
        intros w3 Hw3. by apply Herr, restorable_aborted.
    + eapply ignore_remove_spec; [apply original_kept| | |].
      * intros fs. unfold original. intros Ho. rewrite lookup_delete_name; [done|].
        intros E. symmetry in E. revert E. apply old_path_ne.
      * eapply holds_mono; [exact Hw1|]. intros [[? _]|?]%backed_cases; [congruence|done].
      * intros w2 Hw2. by apply Hend.
Qed.

(** ** The whole run *)
Definition old_hash : gostring := hexEncode (sha256 (f_data f0)).
Definition finished (r : result gostring unit) (w : world) : Prop :=
  match r with
  | Ok _ => exists v, succeeded old_hash v w /\ txSemver v = true
  | Err code => known code /\ (holds (original exe) w \/ code = [] /\ holds replaced w)
  end.
Lemma transaction_spec w : holds (original exe) w -> wp (transaction plat o tx) finished w.
Proof.
  intros Hw. unfold transaction. cbv zeta.
  assert (Horig : forall (code : gostring) w', holds (original exe) w' -> known code -> finished (Err code) w').
  { intros code w' ? ?. split; [done|by left]. }
  wp_step; [wp_step; apply Horig; [done|by left]|]. wp_step.
  eapply must_read; [apply original_kept|apply lstat_readonly|done| |done]. intros [id regular] w1 fs Hw1 Hfs Hl.
  assert (id = info) as ->. { unfold lstat in Hl. rewrite Hfs in Hl. by injection Hl as <- _. }
  wp_step; [wp_step; apply Horig; [done|right; by apply (bool_decide_unpack _)]|]. wp_step.
  eapply must_read; [apply original_kept|apply fileHash_readonly|done| |done]. intros h w2 fs' Hw2 Hfs' Hh.
  assert (h = old_hash) as ->. { unfold fileHash, readFile in Hh. rewrite Hfs' in Hh. by injection Hh as <-. }
  wp_step. eapply readback_spec; [done|apply original_kept|]. intros v w3 Hw3 _.
  destruct v as [oldVersion|]; [|wp_step; apply Horig; [done|by left]].
  wp_step; [wp_step; apply Horig; [done|by left]|]. apply negb_false_iff in Hif1. wp_step.
  eapply read_spec; [apply fileHash_readonly|done|apply original_kept|]. intros current w4 Hw4 _.
  wp_step; [wp_step; apply Horig; [done|by left]|]. wp_step. unfold set_result. wp_step.
  wp_step. eapply verifyArchive_spec; [apply original_kept|by apply holds_result| |done]. intros archive w5 Hw5 Hsum.
  wp_step. eapply create_stage_spec; [done| |done]. intros s w6 Hw6. apply wp_finally.
  assert (temp <> exe) as Hpath by by destruct Hw6 as [[] _ _].
  assert (Hclean : forall code w', aborted code w' ->
    wp (ignore o (removeFile temp)) (fun _ w2 => finished (Err code) w2) w').
  { intros code w' [Hc [Ho|(Hcode & Hr & Hp)]].
    - eapply ignore_remove_spec; [apply original_kept| |done|].
      + intros f. unfold original. intros Hf. by rewrite lookup_delete_name.
      + intros w2' Hw2'. by apply Horig.
    - eapply ignore_remove_spec; [by right| |exact Hr|].
      + intros f [Hb Hx]. unfold replaced, original, complete. rewrite !lookup_delete_name by done.
        by split.
      + intros w2' Hw2'. split; [done|]. by right. }
  wp_step. eapply fillStage_spec; [done|done| |intros; by apply Hclean, original_aborted].
  intros img w7 Hw7 Himg. wp_step.
  eapply must_read; [apply staged_kept|apply fileHash_readonly|done| |].
  2:{ intros code w' ? ?. apply Hclean, original_aborted; [by eapply staged_original|done]. }
  intros h' w8 fs8 Hw8 _ _. wp_step. eapply backUp_spec; [done| |done]. intros w9 Hw9.
  eapply promote_spec; [done|done| |done]. intros w10 [(s' & img' & Hpr & Himg' & Hread) Hpast Hch Hinst Hprev].
  unfold ignore. wp_step. unfold wp, call.
  assert (Hgone : removeFile temp (w_fs w10) = (Err errMissing, w_fs w10)).
  { unfold removeFile. by rewrite (pr_temp _ _ _ _ Hpr). }
  assert (Forall kept (w_fs w10 :: w_past w10)) by (constructor; [by eapply promoted_kept|done]).
  rewrite Hgone. destruct (o_fail o (w_tick w10)); cbn; exists oldVersion; (split; [constructor; cbn; try done; by exists s', img'|done]).
Qed.
End transaction.

(** * Extraction *)

(** A name inside the directory it is extracted to: [.], or segments that are
    neither empty, [.] nor [..]. *)
Definition inside (name : gostring) : Prop :=
  trimSuffix name "/" = "." \/
  Forall (fun s => s <> [] /\ s <> "." /\ s <> ".." /\ BSLASH ∉ s) (splitByte (trimSuffix name "/") "/").

(** The segments kept by [pathClean], last one first: ordinary ones on top of [..]s. *)
Definition ordinary (s : gostring) : Prop := s <> [] /\ s <> "." /\ s <> "..".
Definition clean_stack (out : list gostring) : Prop :=
  exists up down, out = up ++ down /\ Forall ordinary up /\ Forall (fun s => s = "..") down.
Lemma clean_segment_stack out seg : clean_stack out -> clean_stack (clean_segment false out seg).
Proof.
  intros (up & down & -> & Hup & Hdown). unfold clean_segment.
  destruct (streq seg [] || streq seg ".") eqn:Hskip; [by exists up, down|].
  apply orb_false_iff in Hskip as [Hnil%streq_false Hdot%streq_false].
  destruct (streq seg "..") eqn:Hdd.
  - destruct up as [|x up]; cbn [app].
    + destruct Hdown as [|x down -> Hdown]; [exists [], [".."%go]; auto|].
      exists [], (".."%go :: ".."%go :: down). auto.
    + inversion Hup as [|? ? Hx Hup']; subst. destruct (streq x "..") eqn:Hx'.
      { apply streq_true in Hx'. by destruct Hx as (_ & _ & ?). }
      by exists up, down.
  - apply streq_false in Hdd. exists (seg :: up), down. split_and!; [done| |done]. by constructor.
Qed.
Lemma clean_segments_stack segs : clean_stack (clean_segments false segs).
Proof.
  unfold clean_segments. assert (clean_stack []) as H0 by (exists [], []; auto).
  revert H0. generalize (@nil gostring). induction segs as [|s segs IH]; intros out Hout; [done|].
  cbn. by apply IH, clean_segment_stack.
Qed.
Lemma clean_segments_free s c : forall segs,
  segs = splitByte s c -> Forall (fun p => c ∉ p) (clean_segments false segs) \/ c = "."%char.
Proof.
  intros segs Hs. destruct (decide (c = "."%char)) as [|Hdot]; [by right|left].
  pose proof (splitByte_pieces s c) as Hp. rewrite <- Hs in Hp. clear Hs. unfold clean_segments.
  assert (Forall (fun p => c ∉ p) (@nil gostring)) as H0 by constructor.
  revert H0. generalize (@nil gostring). induction Hp as [|seg segs Hseg Hp IH]; intros out Hout; [done|].
  cbn. apply IH. unfold clean_segment. destruct (_ || _); [done|].
  assert (c ∉ ".."%go) by (intros [?|[?|?%elem_of_nil]%elem_of_cons]%elem_of_cons; done).
  destruct (streq seg ".."); [|by constructor]. destruct Hout as [|x out Hx Hout]; [by repeat constructor|].
  destruct (streq x ".."); [by repeat constructor|done].
Qed.
Lemma unsafeName_inside name : unsafeName name = false -> inside name.
Proof.
  unfold unsafeName. intros Hs. apply orb_false_iff in Hs as [Hs Hup]. apply orb_false_iff in Hs as [Hs Hdd].
  apply orb_false_iff in Hs as [Hs Hclean%negb_false_iff]. apply orb_false_iff in Hs as [Hs _].
  apply orb_false_iff in Hs as [Hs Hroot]. apply orb_false_iff in Hs as [_ Hback%contains_byte_false]. streqs.
  unfold pathClean in Hclean. rewrite Hroot in Hclean.
  pose proof (clean_segments_stack (splitByte name "/")) as (up & down & Hstack & Hups & Hdown).
  destruct (clean_segments_free name "/" _ eq_refl) as [Hfree|]; [|done].
  set (out := clean_segments false (splitByte name "/")) in *.
  destruct (streq (join (rev out) "/") []) eqn:Hbody; [by left|]. right.
  assert (BSLASH ∉ trimSuffix name "/") as Hb.
  { destruct (trimSuffix_prefix name "/") as [t Ht]. intros Hin. apply Hback. rewrite Ht. apply elem_of_app. by left. }
  rewrite <- Hclean in Hb |- *. assert (rev out <> []) by (intros E; by rewrite E in Hbody).
  rewrite splitByte_join; [|done|by apply Forall_rev]. rewrite Hstack.
  assert (down = []) as ->.
  { destruct down as [|d down _] using rev_ind; [done|]. exfalso.
    apply Forall_app in Hdown as [_ Hd]. apply Forall_singleton in Hd as ->.
    rewrite Hstack, app_assoc, rev_app_distr in Hclean. cbn [rev app] in Hclean.
    destruct (rev (up ++ down)) as [|p ps].
    - cbn in Hclean. destruct (trimSuffix_cases name "/") as [E|E]; rewrite <- Hclean in E; subst name; done.
    - rewrite join_cons in Hclean by done.
      destruct (trimSuffix_cases name "/") as [E|E]; rewrite <- Hclean in E; subst name; done. }
  rewrite app_nil_r. apply Forall_rev. apply Forall_forall. intros p Hp.
  rewrite Forall_forall in Hups. destruct (Hups p Hp) as (? & ? & ?). split_and!; try done.
  intros Hin. apply Hb. apply join_piece with p; [|done]. rewrite Hstack, app_nil_r. by apply list_elem_of_In, in_rev, list_elem_of_In; rewrite rev_involutive.
Qed.

Lemma takeZ_short n s : (Z.of_nat (length (takeZ n s)) < n)%Z -> takeZ n s = s.
Proof.
  revert n; induction s as [|c s IH]; intros n Hn; [done|]. cbn [takeZ] in *.
  destruct (n <=? 0)%Z eqn:E; [cbn in Hn; bool_to_prop; lia|]. cbn [length] in Hn. rewrite IH; [done|lia].
Qed.
Section extraction.
Context `{UnicodeTables} `{ArchiveReader} (plat : platform) (filename version : gostring) (mode : entry -> Z).

Notation is_selected := (fun e => selected plat filename version (e_name e)).
(** The executable of an archive, and the bounds that all its entries respect. *)
Record extracted (es : list entry) (found : bool) (out : list ascii) (total : Z) : Prop := {
  ex_inside : Forall (fun e => inside (e_name e)) es;
  ex_unique : NoDup (map (fun e => entryKey plat (e_name e)) es);
  ex_total : total = foldr Z.add 0%Z (map e_size es) /\ (total <= txMaxExpanded)%Z;
  ex_sizes : Forall (fun e => (0 <= e_size e <= txMaxEntry)%Z) es;
  ex_image :
    if found then exists e, List.filter is_selected es = [e] /\ isRegularMode (mode e) = true /\
      e_body e = Some out /\ Z.of_nat (length out) = e_size e
    else List.filter is_selected es = [] /\ out = [];
}.
Definition scanned (es : list entry) (s : scan) : Prop :=
  extracted es (x_found s) (x_out s) (x_total s) /\
  forall k, k ∈ x_seen s <-> k ∈ map (fun e => entryKey plat (e_name e)) es.

Lemma sum_snoc es e : foldr Z.add 0%Z (map e_size (es ++ [e])) = (foldr Z.add 0 (map e_size es) + e_size e)%Z.
Proof. induction es as [|x es IH]; cbn in *; lia. Qed.
Lemma check_seen es s k k' :
  (forall k, k ∈ x_seen s <-> k ∈ map (fun e => entryKey plat (e_name e)) es) ->
  k ∈ ({[k']} ∪ x_seen s) <-> k ∈ map (fun e => entryKey plat (e_name e)) es ++ [k'].
Proof. intros Hs. rewrite elem_of_union, elem_of_singleton, elem_of_app, list_elem_of_singleton, Hs. tauto. Qed.
Lemma scan_entry_ok es s e s' :
  scan_entry plat filename version (mode e) s e = Ok s' -> scanned es s -> scanned (es ++ [e]) s'.
Proof.
  unfold scan_entry, check. intros E [[Hin Huniq [Htot Hmax] Hsz Himg] Hseen].
  destruct (unsafeName _) eqn:Hsafe; [done|]. destruct (bool_decide _) eqn:Hdup; [done|].
  destruct (_ && _) in E; [done|]. destruct (_ || _) eqn:Hsize in E; [done|].
  apply unsafeName_inside in Hsafe. apply bool_decide_eq_false in Hdup. rewrite Hseen in Hdup. bool_to_prop.
  assert (Hbase : forall (found : bool) (out : list ascii) total, total = (x_total s + e_size e)%Z ->
    (if found then exists e', List.filter is_selected (es ++ [e]) = [e'] /\ isRegularMode (mode e') = true /\
      e_body e' = Some out /\ Z.of_nat (length out) = e_size e'
    else List.filter is_selected (es ++ [e]) = [] /\ out = []) -> extracted (es ++ [e]) found out total).
  { intros found out total -> Hi. constructor; [|  | | |exact Hi].
    - apply Forall_app. by split; [|constructor].
    - rewrite map_app. apply NoDup_app. split_and!; [done| |apply NoDup_singleton].
      intros k Hk Hk'%list_elem_of_singleton. cbn in Hk'. by subst.
    - rewrite sum_snoc. lia.
    - apply Forall_app. split; [done|]. constructor; [lia|done]. }
  assert (Hmap : map (fun e => entryKey plat (e_name e)) (es ++ [e]) =
    map (fun e => entryKey plat (e_name e)) es ++ [entryKey plat (e_name e)]) by apply map_app.
  rewrite List.filter_app in Hbase. cbn [List.filter] in Hbase. unfold scanned. rewrite Hmap.
  destruct (selected plat filename version (e_name e)) eqn:Hsel.
  - destruct (_ || _) eqn:Hreg in E; [done|]. apply orb_false_iff in Hreg as [Hf Hreg%negb_false_iff].
    rewrite Hf in Himg. destruct Himg as [Hnone Hout]. cbn [mbind result_bind] in E.
    unfold copy_entry in E. destruct (e_body e) as [body|] eqn:Hbody; [|done]. destruct (_ || _) eqn:Hlen in E; [done|].
    injection E as <-. cbn [x_found x_out x_total x_seen]. bool_to_prop. rewrite Hout. cbn [app].
    rewrite takeZ_short in * by lia. split; [|intros k; by apply check_seen]. apply Hbase; [done|].
    exists e. by rewrite Hnone.
  - destruct (streq (pathBase _) _); [done|]. injection E as <-. cbn [x_found x_out x_total x_seen].
    split; [|intros k; by apply check_seen]. apply Hbase; [done|]. by rewrite app_nil_r.
Qed.
Lemma scan_all (step : scan -> entry -> result gostring scan) es :
  (forall s e s', step s e = Ok s' -> scan_entry plat filename version (mode e) s e = Ok s') ->
  forall before s s', mfold step s es = Ok s' -> scanned before s -> scanned (before ++ es) s'.
Proof.
  intros Hstep. induction es as [|e es IH]; intros before s s' E Hs; cbn [mfold] in E.
  - injection E as <-. by rewrite app_nil_r.
  - destruct (step s e) as [s1|] eqn:Hs1; [|done]. cbn [mbind result_bind] in E. apply Hstep in Hs1.
    replace (before ++ e :: es) with ((before ++ [e]) ++ es) by by rewrite <- app_assoc.
    eapply IH; [exact E|]. by eapply scan_entry_ok.
Qed.
Lemma scanned_start : scanned [] (mkScan ∅ false 0 []).
Proof. split; [constructor; cbn; try done; constructor|]. intros k. cbn. by rewrite elem_of_empty, elem_of_nil. Qed.
End extraction.

(** The entries of the archive, by the suffix of its name, and their modes. *)
Definition archive_entries `{ArchiveReader} (archive : list ascii) (filename : gostring) : option (list entry) :=
  if hasSuffix filename ".zip" then read_zip archive
  else match read_tar archive with Some (es, true) => Some es | _ => None end.
Definition archive_mode (filename : gostring) (e : entry) : Z :=
  if hasSuffix filename ".zip" then e_mode e else tar_mode e.

(** * Removing an old backup *)
Section cleanup.
Context `{UnicodeTables} `{SHA256} `{OwnerCodec} (plat : platform) (o : oracle) (executable : gostring).

(** The backup is the file that a marker of this executable describes. *)
Definition owned_backup (fs : fsys) : Prop :=
  exists m f owner id b, lookup_file fs (markerPath executable) = Some (m, f) /\
    decode_owner (f_data f) = Some owner /\ ow_Schema owner = ownerSchema /\
    ow_Source owner = txPathIdentity plat o executable /\
    lookup_file fs (backupPath executable) = Some (id, b) /\ f_regular b = true /\
    hexEncode (sha256 (f_data b)) = ow_Hash owner.
(** Only the two names can be gone, and only if the backup is owned. *)
Definition cleaned (fs fs' : fsys) : Prop :=
  fs' = fs \/
  owned_backup fs /\
  (fs' = set_names (delete (backupPath executable)) fs \/
   fs' = set_names (delete (markerPath executable)) (set_names (delete (backupPath executable)) fs)).

Lemma call_cases {A} (f : fs_call A) (Q : result gostring (result io_error A) -> world -> Prop) w :
  (forall e w', w_fs w' = w_fs w -> Q (Ok (Err e)) w') ->
  (forall w', w_fs w' = snd (f (w_fs w)) -> Q (Ok (fst (f (w_fs w)))) w') ->
  wp (call o f) Q w.
Proof.
  intros Herr Hok. unfold wp, call. destruct (o_fail o (w_tick w)) as [e|]; [by apply Herr|].
  destruct (f (w_fs w)) as [r fs'] eqn:Hf. by apply Hok.
Qed.
Lemma cleanup_spec child fs w :
  w_fs w = fs ->
  wp (CleanupOld plat o executable child)
     (fun r w' => cleaned fs (w_fs w') /\
        (is_ok r = true -> owned_backup fs /\
           w_fs w' = set_names (delete (markerPath executable)) (set_names (delete (backupPath executable)) fs))) w.
Proof.
  intros Hw. unfold CleanupOld. cbv zeta.
  set (Q := fun (r : result gostring unit) w' => _).
  assert (Hsame : forall (code : gostring) w', w_fs w' = fs -> Q (Err code) w').
  { intros code w' Heq. unfold Q. rewrite Heq. split; [by left|done]. }
  wp_step; [wp_step; by apply Hsame|]. wp_step. apply call_cases.
  { intros e w1 Hw1. wp_step. apply Hsame. congruence. }
  intros w1 Hw1. rewrite readFile_readonly, Hw in Hw1. rewrite Hw. unfold readFile at 1.
  destruct (lookup_file fs (markerPath executable)) as [[m f]|] eqn:Hm; cbn [fst]; [|wp_step; by apply Hsame].
  wp_step; [wp_step; by apply Hsame|]. destruct (decode_owner (f_data f)) as [owner|] eqn:Hd; [|wp_step; by apply Hsame].
  wp_step; [wp_step; by apply Hsame|]. apply orb_false_iff in Hif1 as [Hsch%negb_false_iff Hsrc%negb_false_iff]. streqs.
  wp_step. apply call_cases.
  { intros e w2 Hw2. cbn [negb]. wp_step. apply Hsame. congruence. }
  intros w2 Hw2. rewrite lstat_readonly, Hw1 in Hw2. rewrite Hw1. unfold lstat at 1.
  destruct (lookup_file fs (backupPath executable)) as [[id b]|] eqn:Hb; cbn [fst];
    [|cbn [negb]; wp_step; by apply Hsame].
  wp_step; [wp_step; by apply Hsame|]. apply negb_false_iff in Hif1.
  wp_step. apply call_cases.
  { intros e w3 Hw3. cbn [negb]. wp_step. apply Hsame. congruence. }
  intros w3 Hw3. rewrite fileHash_readonly, Hw2 in Hw3. rewrite Hw2.
  assert (fst (fileHash (backupPath executable) fs) = Ok (hexEncode (sha256 (f_data b)))) as ->.
  { unfold fileHash, readFile. by rewrite Hb. }
  wp_step; [wp_step; by apply Hsame|]. apply negb_false_iff, streq_true in Hif2.
  assert (Howned : owned_backup fs) by by exists m, f, owner, id, b.
  wp_step. apply call_cases.
  { intros e w4 Hw4. cbn [is_ok negb]. wp_step. apply Hsame. congruence. }
  intros w4. rewrite Hw3. unfold removeFile at 1 2. destruct (lookup_file_id _ _ _ _ Hb) as [Hbn _]. rewrite Hbn.
  cbn [fst snd is_ok negb]. intros Hw4. wp_step. apply call_cases.
  { intros e w5 Hw5. cbn [is_ok]. wp_step. split; [|done]. right. split; [done|]. left. congruence. }
  intros w5. rewrite Hw4. unfold removeFile at 1 2. destruct (lookup_file_id _ _ _ _ Hm) as [Hmn _].
  cbn [f_names set_names]. rewrite lookup_delete_ne, Hmn by (intros E; symmetry in E; revert E; apply old_path_ne).
  cbn [fst snd is_ok]. intros Hw5. wp_step. split; [|by split]. right. split; [done|]. by right.
Qed.
End cleanup.

(** * Properties *)
Section properties.
Context `{UnicodeTables} `{ArchiveReader} `{SHA256} `{OwnerCodec} (plat : platform).

(** C5: the executable is never lost: in every state an update goes through, and
    so if it dies at any point and whatever calls fail, the original is the
    executable, or it is the backup and (on other systems than Windows) the
    executable is the complete image of the archive with the expected digest. *)
Theorem executable_never_lost (o : oracle) (tx : Transaction) (fs : fsys) (info : nat) (f0 : file) :
  lookup_file fs (t_ExecutablePath tx) = Some (info, f0) ->
  let w := snd (ApplyTransaction plat o tx fs) in
  forall st, st ∈ w_fs w :: w_past w ->
    lookup_file st (t_ExecutablePath tx) = Some (info, f0) \/
    lookup_file st (backupPath (t_ExecutablePath tx)) = Some (info, f0) /\
      (windows plat = true \/
       exists id img archive, lookup_file st (t_ExecutablePath tx) = Some (id, mkFile true img) /\
         equalHex (hexEncode (sha256 archive)) (t_ExpectedArchiveSHA256 tx) = true /\
         txExtract plat archive (pathBase (t_ArchivePath tx)) (t_TargetVersion tx) = Ok img).
Proof.
  intros Hexe w st Hst. assert (Hkept : Forall (kept plat tx info f0) (w_fs w :: w_past w)).
  { unfold w, ApplyTransaction. set (w0 := mkWorld fs 0 [] _).
    assert (Hw0 : holds plat tx info f0 (original info f0 (t_ExecutablePath tx)) w0) by by constructor.
    pose proof (transaction_spec plat o tx info f0 w0 Hw0) as Hfin. unfold wp in Hfin.
    destruct (transaction plat o tx w0) as [[[]|code] w1]; cbn [fst snd] in *.
    - destruct Hfin as (v & [(s & img & Hpr & Himg & _) Hpast _ _ _] & _).
      constructor; [by eapply promoted_kept|done].
    - destruct Hfin as [_ [[Hfs Hpast _]|(_ & [Hfs Hpast _])]]; constructor; try done; [by left|by right]. }
  rewrite Forall_forall in Hkept. destruct (Hkept st Hst) as [?|[Hb Hx]]; [by left|right].
  split; [done|]. destruct Hx as [?|(id & img & ? & archive & ? & ?)]; [by left|right]. by exists id, img, archive.
Qed.

(** What a run reports is what it did: without an error the new image is in
    place and answers with the target version, the previous version is valid and
    its image is the backup, marked as ours; with an error nothing is reported as
    changed, the code is one the updater may store or empty, and with a code the
    executable is still the original. *)
Theorem transaction_outcome (o : oracle) (tx : Transaction) (fs : fsys) (info : nat) (f0 : file) :
  lookup_file fs (t_ExecutablePath tx) = Some (info, f0) ->
  let '(res, failed, w) := ApplyTransaction plat o tx fs in
  if failed : bool then
    SelfUpdate.tx_changed res = false /\
    (SelfUpdate.tx_code res = [] \/
     SelfUpdate.tx_code res ∈ SelfUpdate.allowedCodes /\ lookup_file (w_fs w) (t_ExecutablePath tx) = Some (info, f0))
  else
    SelfUpdate.tx_changed res = true /\ SelfUpdate.tx_installed res = t_TargetVersion tx /\
    txSemver (SelfUpdate.tx_previous res) = true /\
    lookup_file (w_fs w) (backupPath (t_ExecutablePath tx)) = Some (info, f0) /\
    owned plat o tx (hexEncode (sha256 (f_data f0))) (w_fs w) /\
    exists id img, lookup_file (w_fs w) (t_ExecutablePath tx) = Some (id, mkFile true img) /\
      expected_image plat tx img /\
      exists t st, lookup_file st (t_ExecutablePath tx) = Some (id, mkFile true img) /\
        o_version o t st = Ok (t_TargetVersion tx).
Proof.
  intros Hexe. unfold ApplyTransaction. set (w0 := mkWorld fs 0 [] _).
  assert (Hw0 : holds plat tx info f0 (original info f0 (t_ExecutablePath tx)) w0) by by constructor.
  pose proof (transaction_spec plat o tx info f0 w0 Hw0) as Hfin. unfold wp in Hfin.
  destruct (transaction plat o tx w0) as [[[]|code] w1]; cbn [fst snd] in *.
  - destruct Hfin as (v & [(s & img & [Hb He Ho _ _ _] & Himg & t & st & Hpr & Hv) _ Hch Hin Hpv] & Hsem).
    rewrite Hpv. split_and!; try done. exists s, img. split_and!; [done|done|]. exists t, st. by destruct Hpr.
  - destruct Hfin as [[->|Hc] Hst]; cbn; (split; [by destruct Hst as [[]|(_ & [])]|]); [by left|].
    destruct Hst as [[Ho _ _]|(-> & _)]; [by right|by left].
Qed.

(** An archive is extracted only if it is unambiguous: every entry stays
    inside the directory and has a name and size of its own within the bounds,
    exactly one entry is the executable, in the one place where it may be, and
    the image is its whole body. *)
Theorem extract_safe (archive : list ascii) (filename version : gostring) (img : list ascii) :
  txExtract plat archive filename version = Ok img ->
  exists es, archive_entries archive filename = Some es /\
    extracted plat filename version (archive_mode filename) es true img (foldr Z.add 0%Z (map e_size es)).
Proof.
  unfold txExtract, archive_entries, archive_mode. intros E.
  assert (Hdone : forall es s, scanned plat filename version (archive_mode filename) es s ->
    (if x_found s then Ok (x_out s) else Err ("archive executable absent" : gostring)) = Ok img ->
    extracted plat filename version (archive_mode filename) es true img (foldr Z.add 0%Z (map e_size es))).
  { intros es s [Hx _] Hf. destruct (x_found s); [|done]. injection Hf as <-. pose proof Hx as [_ _ [Ht _] _ _].
    by rewrite <- Ht. }
  fold (archive_mode filename). destruct (hasSuffix filename ".zip") eqn:Hzip.
  - destruct (read_zip archive) as [es|]; [|done]. exists es. split; [done|].
    destruct (mfold _ _ es) as [s|] eqn:Hs; [|done]. cbn [mbind result_bind] in E.
    apply (Hdone es s); [|done]. eapply (scan_all plat filename version (archive_mode filename)) with (before := []);
      [|exact Hs|apply scanned_start].
    intros s1 e s2. unfold zip_entry, archive_mode. rewrite Hzip. by destruct (txMaxEntry <? e_size e)%Z.
  - destruct (hasSuffix filename ".tar.gz"); [|done].
    destruct (read_tar archive) as [[es clean]|]; [|done].
    destruct (mfold _ _ es) as [s|] eqn:Hs; [|done]. cbn [mbind result_bind] in E.
    destruct clean; [|done]. exists es. split; [done|]. cbn [mbind result_bind] in E.
    apply (Hdone es s); [|done]. eapply (scan_all plat filename version (archive_mode filename)) with (before := []);
      [|exact Hs|apply scanned_start].
    intros s1 e s2. unfold tar_entry, archive_mode. rewrite Hzip. by destruct (e_type e).
Qed.

(** Cleaning up removes nothing but a backup that its marker, written for
    this executable, describes by its content, and then that marker; both are gone
    when it succeeds, and the executable is not touched. *)
Theorem cleanup_only_owned (o : oracle) (executable : gostring) (child : bool) (w : world) :
  let '(r, w') := CleanupOld plat o executable child w in
  cleaned plat o executable (w_fs w) (w_fs w') /\
  lookup_file (w_fs w') executable = lookup_file (w_fs w) executable /\
  (is_ok r = true -> owned_backup plat o executable (w_fs w) /\
     f_names (w_fs w') !! backupPath executable = None /\ f_names (w_fs w') !! markerPath executable = None).
Proof.
  pose proof (cleanup_spec plat o executable child (w_fs w) w eq_refl) as Hspec. unfold wp in Hspec.
  destruct (CleanupOld plat o executable child w) as [r w']. cbn [fst snd] in Hspec. destruct Hspec as [Hc Hok].
  destruct (old_path_ne executable) as (Hb & Hm & _). split; [done|]. split.
  - destruct Hc as [->|[_ [->| ->]]]; [done| |]; by rewrite !lookup_delete_name.
  - intros Hr. destruct (Hok Hr) as [Ho Hfs]. split; [done|]. rewrite Hfs. cbn.
    split; [|apply lookup_delete_eq]. rewrite lookup_delete_ne by (apply old_path_ne). apply lookup_delete_eq.
Qed.
End properties.

(** ** Concrete updates *)
Definition isHexLower (c : ascii) : bool := isDigitByte c || byte_in_range "a" "f" c.
Lemma hexEncode_notin b c : isHexLower c = false -> c ∉ hexEncode b.
Proof.
  intros Hc. induction b as [|x b IH]; [apply not_elem_of_nil|]. pose proof (bz_range x).
  change (hexEncode (x :: b)) with (hexDigit (bz x / 16) :: hexDigit (bz x mod 16) :: hexEncode b).
  assert (Hd : forall z, (0 <= z < 16)%Z -> c <> hexDigit z).
  { intros z Hz ->. revert Hc. unfold isHexLower, isDigitByte, byte_in_range. rewrite bz_hexDigit by done. hex_consts.
    destruct (z <? 10)%Z eqn:?; bool_to_prop; by decide_cmp. }
  rewrite !not_elem_of_cons. split_and!; [apply Hd; dlia|apply Hd; dlia|done].
Qed.
Module Example_update.
#[local] Existing Instance latin_tables.
#[local] Existing Instance mixHash.

Definition decode_parts (s : list ascii) : option txOwner :=
  match splitByte s "," with
  | [a; b; c] => a ← hexDecode a; b ← hexDecode b; c ← hexDecode c; Some (mkOwner a b c)
  | _ => None
  end.
#[local] Program Instance toy_owner : OwnerCodec := {|
  encode_owner ow := hexEncode (ow_Schema ow) ++ "," ++ hexEncode (ow_Source ow) ++ "," ++ hexEncode (ow_Hash ow);
  decode_owner := decode_parts |}.
Next Obligation.
  intros [a b c]. unfold decode_parts. cbn [ow_Schema ow_Source ow_Hash app].
  rewrite !splitByte_app, splitByte_free by by apply hexEncode_notin.
  by rewrite !hexDecode_hexEncode.
Qed.
(** An archive whose bytes are the image, in the canonical directory. *)
#[local] Instance toy_reader : ArchiveReader := {|
  read_zip _ := None;
  read_tar b := Some ([mkEntry "mi-lsp_1.1.0_linux-x64/" TypeDir 493 0 (Some []);
                       mkEntry "mi-lsp_1.1.0_linux-x64/mi-lsp" TypeReg 493 (Z.of_nat (length b)) (Some b)], true) |}.

Definition linux : platform := SelfUpdate.mkPlatform "linux" "amd64".
Definition exe : gostring := "/opt/mi-lsp".
Definition archive : gostring := "/tmp/mi-lsp_1.1.0_linux-x64.tar.gz".
Definition old_file : file := mkFile true "old".
Definition disk : fsys :=
  mkFs {[exe := 0; archive := 1]} {[0 := old_file; 1 := mkFile true "new"]}.
Definition update : Transaction := mkTransaction exe archive (hexEncode (sha256 "new")) "1.1.0".
(** The version is what the executable holds. *)
Definition version_of (fs : fsys) : gostring :=
  match lookup_file fs exe with
  | Some (_, f) => if streq (f_data f) "new" then "1.1.0" else "1.0.0"
  | None => []
  end.
Definition calm : oracle := mkOracle (fun _ => None) (fun _ fs => Ok (version_of fs)) "/opt/.mi-lsp-stage-1" id.
(** The new image does not start. *)
Definition broken : oracle :=
  mkOracle (fun _ => None)
    (fun _ fs => if streq (version_of fs) "1.1.0" then Err errPlain else Ok (version_of fs)) "/opt/.mi-lsp-stage-1" id.

Example update_installs : fst (ApplyTransaction linux calm update disk) = (SelfUpdate.mkTx "1.1.0" "1.0.0" [] true, false).
Proof. vm_compute. reflexivity. Qed.
Example update_rolls_back :
  fst (ApplyTransaction linux broken update disk) =
    (SelfUpdate.mkTx "1.0.0" [] "UPDATE_READBACK_FAILED_ROLLED_BACK" false, true) /\
  lookup_file (w_fs (snd (ApplyTransaction linux broken update disk))) exe = Some (0, old_file).
Proof. split; vm_compute; reflexivity. Qed.

Lemma executable_never_lost_witness :
  lookup_file disk exe = Some (0, old_file) /\
  length (w_past (snd (ApplyTransaction linux broken update disk))) = 37 /\
  forall st, st ∈ w_past (snd (ApplyTransaction linux broken update disk)) ->
    lookup_file st exe = Some (0, old_file) \/ lookup_file st (backupPath exe) = Some (0, old_file).
Proof.
  split; [vm_compute; reflexivity|]. split; [vm_compute; reflexivity|]. intros st Hst.
  destruct (executable_never_lost linux broken update disk 0 old_file eq_refl st) as [Ho|[Hb _]].
  - right. exact Hst.
  - left. exact Ho.
  - right. exact Hb.
Defined.
Lemma transaction_outcome_witness :
  lookup_file (w_fs (snd (ApplyTransaction linux calm update disk))) (backupPath exe) = Some (0, old_file).
Proof.
  pose proof (transaction_outcome linux calm update disk 0 old_file eq_refl) as Hout.
  destruct (ApplyTransaction linux calm update disk) as [[res failed] w] eqn:Hrun.
  assert (Hf : failed = false).
  { pose proof update_installs as Hi. rewrite Hrun in Hi. cbn in Hi. congruence. }
  rewrite Hf in Hout. apply Hout.
Defined.
Lemma extract_safe_witness :
  txExtract linux "new" "mi-lsp_1.1.0_linux-x64.tar.gz" "1.1.0" = Ok ("new" : gostring) /\
  exists es, archive_entries "new" "mi-lsp_1.1.0_linux-x64.tar.gz" = Some es /\ Forall (fun e => inside (e_name e)) es.
Proof.
  assert (Hx : txExtract linux "new" "mi-lsp_1.1.0_linux-x64.tar.gz" "1.1.0" = Ok ("new" : gostring))
    by (vm_compute; reflexivity).
  split; [exact Hx|]. destruct (extract_safe linux "new" "mi-lsp_1.1.0_linux-x64.tar.gz" "1.1.0" "new" Hx) as (es & Hes & He).
  exists es. split; [exact Hes | exact (ex_inside _ _ _ _ _ _ _ _ He)].
Defined.
End Example_update.
