(* ===== verification/UpdateListener.v ===== *)
(** The pausable listener of the daemon (internal/daemon/update_listener.go).

    One mutex protects the fields of [updateListener], and a goroutine that waits
    gives it up and blocks on the channel [changed].  So every region that holds
    the mutex is one function on the fields, and the program is a step relation:
    a step of a goroutine runs one such region or one call made outside of it
    ([inner.Accept], [inner.Close], [reopen], [Conn.Close]), whose answer the
    environment chooses.  A channel is the number of the [make] that created it:
    it is closed once [changed] has a later number. *)
From S2P Require Import Prelude.

Local Open Scope Z_scope.

(** * Definitions *)

(** ** Errors *)
Inductive goerr :=
  | ErrClosed                                   (* net.ErrClosed *)
  | CtxErr                                      (* ctx.Err() *)
  | ErrReopenUnavailable
  | ErrPauseChanged
  | ErrReopenNil
  | NetErr (wrapsClosed : bool) (id : nat).     (* of the listener or of reopen *)
Definition errorsIsClosed (e : goerr) : bool :=
  match e with ErrClosed => true | NetErr w _ => w | _ => false end.

(** ** The fields; a listener is named by a number. *)
Record updateListener := mkListener {
  inner : option nat;
  reopen : bool;                                (* l.reopen != nil *)
  changed : nat;
  paused : bool;
  closed : bool;
  pausing : bool;
  reopening : bool;
  generation : Z;                               (* uint64 *)
  pending : Z;
  active : Z;
}.
Definition newUpdateListener (i : nat) (reopen : bool) : updateListener :=
  mkListener (Some i) reopen 0 false false false false 0 0 0.

Definition set_inner v l := mkListener v (reopen l) (changed l) (paused l) (closed l) (pausing l)
  (reopening l) (generation l) (pending l) (active l).
Definition set_paused v l := mkListener (inner l) (reopen l) (changed l) v (closed l) (pausing l)
  (reopening l) (generation l) (pending l) (active l).
Definition set_pausing v l := mkListener (inner l) (reopen l) (changed l) (paused l) (closed l) v
  (reopening l) (generation l) (pending l) (active l).
Definition set_reopening v l := mkListener (inner l) (reopen l) (changed l) (paused l) (closed l)
  (pausing l) v (generation l) (pending l) (active l).
Definition set_closed v l := mkListener (inner l) (reopen l) (changed l) (paused l) v (pausing l)
  (reopening l) (generation l) (pending l) (active l).
Definition set_pending v l := mkListener (inner l) (reopen l) (changed l) (paused l) (closed l)
  (pausing l) (reopening l) (generation l) v (active l).
Definition set_active v l := mkListener (inner l) (reopen l) (changed l) (paused l) (closed l)
  (pausing l) (reopening l) (generation l) (pending l) v.
Definition next_generation l := mkListener (inner l) (reopen l) (changed l) (paused l) (closed l)
  (pausing l) (reopening l) ((generation l + 1) mod 2 ^ 64) (pending l) (active l).
Definition signalLocked l := mkListener (inner l) (reopen l) (S (changed l)) (paused l) (closed l)
  (pausing l) (reopening l) (generation l) (pending l) (active l).

(** ** Where a goroutine is *)
Inductive pc :=
  (* Accept *)
  | AcceptLock                                  (* at the first l.mu.Lock of the loop *)
  | AcceptWait (ch : nat)                       (* at <-ch *)
  | AcceptInner (i : nat) (gen : Z)             (* in inner.Accept() *)
  | AcceptReturned (lease : option nat) (err : option goerr)
  (* Pause *)
  | PauseLock
  | PauseWait (ch : nat)                        (* select while another Pause runs *)
  | PauseCloseInner (i : option nat)            (* after the unlock, before inner.Close() *)
  | PauseDrain (closeErr : option goerr)        (* at l.mu.Lock of the second part *)
  | PauseDrainWait (ch : nat) (closeErr : option goerr)
  | PauseReturned (drained : bool) (err : option goerr)
  (* Resume *)
  | ResumeLock
  | ResumeWait (ch : nat)
  | ResumeReopen (gen : Z)                      (* in factory() *)
  | ResumeCloseInner (i : nat) (err : goerr)    (* before inner.Close() of a failed resume *)
  | ResumeReturned (err : option goerr)
  (* Close *)
  | CloseLock
  | CloseInner (i : nat)
  | CloseReturned (err : option goerr)
  (* updateLease.Close *)
  | LeaseClose (n : nat)                        (* at once.Do *)
  | LeaseRelease (n : nat)                      (* in the once, Conn.Close() done *)
  | LeaseReturned.

(** ** The regions under the mutex *)

(** [Accept], from the lock to the call of [inner.Accept]. *)
Definition accept_enter (l : updateListener) : updateListener * pc :=
  match closed l, paused l, inner l with
  | true, _, _ => (l, AcceptReturned None (Some ErrClosed))
  | false, false, Some i => (set_pending (pending l + 1) l, AcceptInner i (generation l))
  | false, _, _ => (l, AcceptWait (changed l))
  end.
(** [Accept], after [inner.Accept] gave a connection (its lease is [conn]) or an error. *)
Definition accept_leave (conn : option nat) (err : option goerr) (gen : Z) (l : updateListener)
    : updateListener * pc :=
  let l := if is_Some_dec conn then set_active (active l + 1) l else l in
  let l := set_pending (pending l - 1) l in
  (signalLocked l,
   match conn with
   | Some n => AcceptReturned (Some n) err
   | None =>
       if closed l then AcceptReturned None (Some ErrClosed)
       else if paused l || negb (gen =? generation l) then AcceptLock
       else AcceptReturned None err
   end).

Definition pause_enter (l : updateListener) : updateListener * pc :=
  if pausing l && negb (closed l) then (l, PauseWait (changed l))
  else if closed l then (l, PauseReturned false (Some ErrClosed))
  else
    let l := next_generation (set_pausing true l) in
    if paused l then (signalLocked l, PauseCloseInner None)
    else (signalLocked (set_inner None (set_paused true l)), PauseCloseInner (inner l)).
(** The deferred function. *)
Definition pause_exit (l : updateListener) (drained : bool) (err : option goerr)
    : updateListener * pc :=
  (signalLocked (set_pausing false l), PauseReturned drained err).
Definition pause_drain (closeErr ctxErr : option goerr) (l : updateListener)
    : updateListener * pc :=
  if (0 <? pending l) && negb (closed l) then (l, PauseDrainWait (changed l) closeErr)
  else if closed l then pause_exit l false (Some ErrClosed)
  else match ctxErr with
       | Some e => pause_exit l false (Some e)
       | None =>
           match closeErr with
           | Some e => if errorsIsClosed e then pause_exit l (active l =? 0) None
                       else pause_exit l false (Some e)
           | None => pause_exit l (active l =? 0) None
           end
       end.

Definition resume_enter (l : updateListener) : updateListener * pc :=
  if (pausing l || reopening l) && negb (closed l) then (l, ResumeWait (changed l))
  else if closed l then (l, ResumeReturned (Some ErrClosed))
  else if negb (paused l) then (l, ResumeReturned None)
  else if negb (reopen l) then (l, ResumeReturned (Some ErrReopenUnavailable))
  else (set_reopening true l, ResumeReopen (generation l)).
(** A failed [Resume] closes the listener that [reopen] returned, if any. *)
Definition resume_fail (l : updateListener) (i : option nat) (e : goerr) : updateListener * pc :=
  (signalLocked l, match i with Some i => ResumeCloseInner i e | None => ResumeReturned (Some e) end).
Definition resume_leave (gen : Z) (i : option nat) (err : option goerr) (l : updateListener)
    : updateListener * pc :=
  let l := set_reopening false l in
  if closed l then resume_fail l i ErrClosed
  else if negb (gen =? generation l) || pausing l then resume_fail l i ErrPauseChanged
  else match err, i with
       | Some e, _ => resume_fail l i e
       | None, None => resume_fail l None ErrReopenNil
       | None, Some i =>
           (signalLocked (set_paused false (set_inner (Some i) l)), ResumeReturned None)
       end.

Definition close_enter (l : updateListener) : updateListener * pc :=
  if closed l then (l, CloseReturned None)
  else (signalLocked (set_inner None (next_generation (set_closed true l))),
        match inner l with Some i => CloseInner i | None => CloseReturned None end).
Definition close_leave (err : option goerr) : option goerr :=
  match err with
  | Some e => if errorsIsClosed e then None else Some e
  | None => None
  end.

Definition lease_release (l : updateListener) : updateListener :=
  signalLocked (set_active (active l - 1) l).

(** ** The program *)

(** The state of the [once] of a lease. *)
Inductive onceState := NotDone | Running | Done.
#[export] Instance onceState_dec : EqDecision onceState.
Proof. solve_decision. Defined.

Record world := mkWorld {
  lis : updateListener;
  leases : list onceState;       (* one per lease Accept made *)
  opened : list nat;             (* the listeners given to the object so far *)
  shut : list nat;               (* those whose Close was called *)
}.
Definition on_lis (f : updateListener -> updateListener * pc) (w : world) : world * pc :=
  let '(l, p) := f (lis w) in (mkWorld l (leases w) (opened w) (shut w), p).

(** A step of one goroutine. *)
Inductive tstep (w : world) : pc -> world -> pc -> Prop :=
  | step_accept w' p : on_lis accept_enter w = (w', p) -> tstep w AcceptLock w' p
  | step_wake_accept ch : ch <> changed (lis w) -> tstep w (AcceptWait ch) w AcceptLock
  | step_accept_err i gen err w' p :
      on_lis (accept_leave None err gen) w = (w', p) -> tstep w (AcceptInner i gen) w' p
  | step_accept_conn i gen err w' p :
      on_lis (accept_leave (Some (length (leases w))) err gen) w = (w', p) ->
      tstep w (AcceptInner i gen)
        (mkWorld (lis w') (leases w ++ [NotDone]) (opened w') (shut w')) p
  | step_pause w' p : on_lis pause_enter w = (w', p) -> tstep w PauseLock w' p
  | step_pause_cancel ch : tstep w (PauseWait ch) w (PauseReturned false (Some CtxErr))
  | step_wake_pause ch : ch <> changed (lis w) -> tstep w (PauseWait ch) w PauseLock
  | step_pause_close i err :
      tstep w (PauseCloseInner (Some i)) (mkWorld (lis w) (leases w) (opened w) (i :: shut w))
        (PauseDrain err)
  | step_pause_noclose : tstep w (PauseCloseInner None) w (PauseDrain None)
  | step_drain closeErr ctxErr w' p :
      on_lis (pause_drain closeErr ctxErr) w = (w', p) -> tstep w (PauseDrain closeErr) w' p
  | step_drain_cancel ch closeErr w' p :
      on_lis (fun l => pause_exit l false (Some CtxErr)) w = (w', p) ->
      tstep w (PauseDrainWait ch closeErr) w' p
  | step_wake_drain ch closeErr :
      ch <> changed (lis w) -> tstep w (PauseDrainWait ch closeErr) w (PauseDrain closeErr)
  | step_resume w' p : on_lis resume_enter w = (w', p) -> tstep w ResumeLock w' p
  | step_wake_resume ch : ch <> changed (lis w) -> tstep w (ResumeWait ch) w ResumeLock
  | step_reopened gen i err w' p :
      on_lis (resume_leave gen i err) w = (w', p) ->
      tstep w (ResumeReopen gen)
        (mkWorld (lis w') (leases w') (option_list i ++ opened w') (shut w')) p
  | step_resume_close i e :
      tstep w (ResumeCloseInner i e) (mkWorld (lis w) (leases w) (opened w) (i :: shut w))
        (ResumeReturned (Some e))
  | step_close w' p : on_lis close_enter w = (w', p) -> tstep w CloseLock w' p
  | step_close_inner i err :
      tstep w (CloseInner i) (mkWorld (lis w) (leases w) (opened w) (i :: shut w))
        (CloseReturned (close_leave err))
  | step_lease_once n :
      leases w !! n = Some NotDone ->
      tstep w (LeaseClose n)
        (mkWorld (lis w) (<[n := Running]> (leases w)) (opened w) (shut w)) (LeaseRelease n)
  | step_lease_release n :
      tstep w (LeaseRelease n)
        (mkWorld (lease_release (lis w)) (<[n := Done]> (leases w)) (opened w) (shut w))
        LeaseReturned
  | step_lease_again n :
      leases w !! n = Some Done -> tstep w (LeaseClose n) w LeaseReturned.

(** A new call starts a goroutine at the first statement of a method. *)
Definition entry (p : pc) : bool :=
  match p with
  | AcceptLock | PauseLock | ResumeLock | CloseLock | LeaseClose _ => true
  | _ => false
  end.
Definition config : Type := world * list pc.
Inductive step : config -> config -> Prop :=
  | step_thread w ts t p w' p' :
      ts !! t = Some p -> tstep w p w' p' -> step (w, ts) (w', <[t := p']> ts)
  | step_call w ts p : entry p = true -> step (w, ts) (w, ts ++ [p]).
Definition initial (i : nat) (reopen : bool) : config :=
  (mkWorld (newUpdateListener i reopen) [] [i] [], []).
Definition reachable (c : config) : Prop := exists i r, rtc step (initial i r) c.
