(* ===== verification/UpdateListenerFacts.v ===== *)
(** What the pausable listener guarantees: invariants of every interleaving, and
    the termination of a pause.

    [effect] says what one step does to the fields, for the goroutine that takes it
    and for all others; the invariants of configurations ([counts], [owned]) follow
    by arithmetic on the number of goroutines at each place. *)
From S2P Require Import Prelude UpdateListener.

Local Open Scope Z_scope.
(** * Facts *)

(** ** Who counts for what *)
Definition inAccept (p : pc) : nat := match p with AcceptInner _ _ => 1 | _ => 0 end.
Definition draining (p : pc) : nat :=
  match p with PauseCloseInner _ | PauseDrain _ | PauseDrainWait _ _ => 1 | _ => 0 end.
Definition inReopen (p : pc) : nat := match p with ResumeReopen _ => 1 | _ => 0 end.
Definition releasing (n : nat) (p : pc) : nat :=
  match p with LeaseRelease m => if decide (m = n) then 1 else 0 | _ => 0 end.
Definition isRunning (o : option onceState) : nat :=
  match o with Some Running => 1 | _ => 0 end.
Definition unreleased (o : onceState) : nat := match o with Done => 0 | _ => 1 end.
Notation count := sum_list_with.

(** The channel a goroutine waits for, and the condition of its loop. *)
Definition waiting (l : updateListener) (p : pc) : option (nat * bool) :=
  match p with
  | AcceptWait ch =>
      Some (ch, negb (closed l) && (paused l || bool_decide (inner l = None)))
  | PauseWait ch => Some (ch, negb (closed l) && pausing l)
  | PauseDrainWait ch _ => Some (ch, negb (closed l) && (0 <? pending l))
  | ResumeWait ch => Some (ch, negb (closed l) && (pausing l || reopening l))
  | _ => None
  end.
Definition wait_ok (l : updateListener) (p : pc) : Prop :=
  match waiting l p with
  | Some (ch, b) => (ch <= changed l)%nat /\ (ch = changed l -> b = true)
  | None => True
  end.
(** [inner] is nil exactly while paused or closed; nobody unpauses meanwhile. *)
Definition flags (l : updateListener) : Prop :=
  (pausing l = true \/ reopening l = true -> paused l = true) /\
  (inner l = None <-> closed l = true \/ paused l = true).

(** What one region does to the fields, seen by its own goroutine and by the others. *)
Record effect (l : updateListener) (p : pc) (l' : updateListener) (p' : pc) : Prop := {
  e_pending : pending l' + Z.of_nat (inAccept p) = pending l + Z.of_nat (inAccept p');
  e_pausing : (draining p <= Nat.b2n (pausing l) ->
    Nat.b2n (pausing l') + draining p = Nat.b2n (pausing l) + draining p')%nat;
  e_reopening : (inReopen p <= Nat.b2n (reopening l) ->
    Nat.b2n (reopening l') + inReopen p = Nat.b2n (reopening l) + inReopen p')%nat;
  e_flags : flags l -> flags l';
  e_own : wait_ok l p -> wait_ok l' p';
  e_others q : wait_ok l q -> wait_ok l' q;
  e_shut i : flags l -> (inReopen p <= Nat.b2n (reopening l))%nat ->
    inner l = Some i -> inner l' = Some i \/ p' = PauseCloseInner (Some i) \/ p' = CloseInner i;
}.
Ltac effect_tac :=
  lazymatch goal with
  | |- effect ?l _ _ _ =>
    destruct l as [[?|] ? ? ? ? ? ? ? ? ?];
    repeat (cbn; match goal with
       | |- context [if ?x then _ else _] => destruct x eqn:?
       | |- context [match ?x with _ => _ end] => is_var x; destruct x
       end); cbn in *; try discriminate
  end.
Ltac bools :=
  repeat match goal with b : bool |- _ => destruct b end; cbn in *; try congruence;
  bool_to_prop; try (apply Z.ltb_lt; lia); try congruence.
Ltac wait_tac :=
  unfold wait_ok; cbn; try tauto;
  let Hle := fresh in let Hcond := fresh in let Heq := fresh in
  intros [Hle Hcond];
  (split; [lia | intros Heq; try lia; specialize (Hcond Heq); clear -Hcond; bools]).
Ltac own_tac := intros _; unfold wait_ok; cbn; try done; (split; [lia | intros _; bools]).
Ltac num_tac :=
  cbn; repeat match goal with b : bool |- _ => destruct b end; cbn in *; first [congruence | lia].
Ltac shut_tac :=
  unfold flags; cbn; intros ? [? [_ ?]] ? [= ->];
  first [ by left | by auto
        | exfalso; repeat match goal with b : bool |- _ => destruct b end; cbn in *;
          first [congruence | lia | intuition congruence] ].
Ltac effect_solve :=
  effect_tac; (constructor; [ cbn; lia | num_tac | num_tac
  | bool_to_prop; unfold flags; cbn; intuition congruence
  | own_tac
  | intros []; wait_tac
  | shut_tac ]).
Lemma accept_enter_effect l : effect l AcceptLock (accept_enter l).1 (accept_enter l).2.
Proof. unfold accept_enter. effect_solve.
Qed.
Lemma accept_leave_effect l i gen conn err :
  effect l (AcceptInner i gen) (accept_leave conn err gen l).1 (accept_leave conn err gen l).2.
Proof. unfold accept_leave. effect_solve. Qed.
Lemma pause_enter_effect l : effect l PauseLock (pause_enter l).1 (pause_enter l).2.
Proof. unfold pause_enter. effect_solve. Qed.
Lemma pause_exit_effect l ch e r e' :
  effect l (PauseDrainWait ch e) (pause_exit l r e').1 (pause_exit l r e').2.
Proof. unfold pause_exit. effect_solve. Qed.
Lemma pause_drain_effect l closeErr ctxErr :
  effect l (PauseDrain closeErr) (pause_drain closeErr ctxErr l).1 (pause_drain closeErr ctxErr l).2.
Proof. unfold pause_drain, pause_exit. effect_solve. Qed.
Lemma resume_enter_effect l : effect l ResumeLock (resume_enter l).1 (resume_enter l).2.
Proof. unfold resume_enter. effect_solve. Qed.
Lemma resume_leave_effect l gen i err :
  effect l (ResumeReopen gen) (resume_leave gen i err l).1 (resume_leave gen i err l).2.
Proof. unfold resume_leave, resume_fail. effect_solve. Qed.
Lemma close_enter_effect l : effect l CloseLock (close_enter l).1 (close_enter l).2.
Proof. unfold close_enter. effect_solve. Qed.

(** ** The invariants *)
Record counts (w : world) (ts : list pc) : Prop := {
  c_pending : pending (lis w) = Z.of_nat (count inAccept ts);
  c_active : active (lis w) = Z.of_nat (count unreleased (leases w));
  c_pausing : count draining ts = Nat.b2n (pausing (lis w));
  c_reopening : count inReopen ts = Nat.b2n (reopening (lis w));
  c_running n : count (releasing n) ts = isRunning (leases w !! n);
  c_flags : flags (lis w);
  c_wait t p : ts !! t = Some p -> wait_ok (lis w) p;
}.
(** Every listener the object was given is open only as [inner] or in the hands of
    a goroutine that is about to close it. *)
Definition closing (i : nat) (p : pc) : bool :=
  match p with
  | PauseCloseInner (Some j) | ResumeCloseInner j _ | CloseInner j => bool_decide (j = i)
  | _ => false
  end.
Definition accounted (w : world) (ts : list pc) (i : nat) : Prop :=
  i ∈ shut w \/ inner (lis w) = Some i \/ exists t p, ts !! t = Some p /\ closing i p = true.
Record owned (w : world) (ts : list pc) : Prop := {
  o_opened i : i ∈ opened w -> accounted w ts i;
  o_inner i : inner (lis w) = Some i -> i ∈ opened w;
  o_accepting t i gen : ts !! t = Some (AcceptInner i gen) -> i ∈ opened w;
}.

(** The effect of every step. *)
Lemma effect_still l p p' :
  inAccept p = inAccept p' -> draining p = draining p' -> inReopen p = inReopen p' ->
  (wait_ok l p -> wait_ok l p') -> effect l p l p'.
Proof. intros H1 H2 H3 H4. constructor; try done; try lia. by left. Qed.
Lemma lease_release_effect l n :
  effect l (LeaseRelease n) (lease_release l) LeaseReturned.
Proof. unfold lease_release. effect_solve. Qed.
Lemma cancel_effect l ch e :
  effect l (PauseDrainWait ch e) (pause_exit l false (Some CtxErr)).1 (pause_exit l false (Some CtxErr)).2.
Proof. apply pause_exit_effect. Qed.
#[local] Hint Resolve accept_enter_effect accept_leave_effect pause_enter_effect cancel_effect
  pause_drain_effect resume_enter_effect resume_leave_effect close_enter_effect
  lease_release_effect : mi_lsp.

Lemma on_lis_inv f w w' p :
  on_lis f w = (w', p) ->
  lis w' = (f (lis w)).1 /\ p = (f (lis w)).2 /\
  leases w' = leases w /\ opened w' = opened w /\ shut w' = shut w.
Proof. unfold on_lis. destruct (f (lis w)). by intros [= <- <-]. Qed.
Ltac region_inv :=
  match goal with
  | H : on_lis _ _ = _ |- _ => apply on_lis_inv in H as (?Hl & ?Hp & ?Hle & ?Ho & ?Hsh)
  end.
Lemma tstep_effect w p w' p' : tstep w p w' p' -> effect (lis w) p (lis w') p'.
Proof.
  destruct 1; try region_inv; cbn; subst;
    try rewrite Hl; eauto with mi_lsp; apply effect_still; done.
Qed.

(** The leases. *)
Inductive lease_effect (w : world) (p : pc) (w' : world) (p' : pc) : Prop :=
  | lease_same :
      leases w' = leases w -> active (lis w') = active (lis w) ->
      (forall n, releasing n p = releasing n p') -> lease_effect w p w' p'
  | lease_new :
      leases w' = leases w ++ [NotDone] -> active (lis w') = active (lis w) + 1 ->
      (forall n, releasing n p = 0%nat /\ releasing n p' = 0%nat) -> lease_effect w p w' p'
  | lease_once n :
      leases w !! n = Some NotDone -> leases w' = <[n := Running]> (leases w) ->
      lis w' = lis w -> p = LeaseClose n -> p' = LeaseRelease n -> lease_effect w p w' p'
  | lease_done n :
      leases w' = <[n := Done]> (leases w) -> active (lis w') = active (lis w) - 1 ->
      p = LeaseRelease n -> p' = LeaseReturned -> lease_effect w p w' p'.
Ltac regions :=
  unfold accept_enter, accept_leave, pause_enter, pause_drain, pause_exit, resume_enter,
    resume_leave, resume_fail, close_enter; repeat (cbn; case_match).
Lemma tstep_lease_effect w p w' p' : tstep w p w' p' -> lease_effect w p w' p'.
Proof.
  destruct 1; try region_inv; cbn; subst;
    try (apply lease_same; cbn; [by try congruence | try rewrite Hl; by regions | intros ?; by regions]).
  - apply lease_new; cbn; [done | by rewrite Hl | done].
  - by eapply lease_once.
  - by apply (lease_done _ _ _ _ n).
Qed.

Lemma releasing_insert ts t p p' n :
  ts !! t = Some p -> releasing n p = releasing n p' ->
  count (releasing n) (<[t := p']> ts) = count (releasing n) ts.
Proof. intros Ht Hn. pose proof (sum_list_insert (releasing n) ts t p p' Ht). lia. Qed.

Lemma isRunning_insert (l : list onceState) n o m :
  is_Some (l !! n) ->
  isRunning (<[n := o]> l !! m) = if decide (n = m) then isRunning (Some o) else isRunning (l !! m).
Proof.
  intros Hn%lookup_lt_is_Some. rewrite list_lookup_insert. repeat case_decide; naive_solver.
Qed.
Lemma counts_leases w ts t p w' p' :
  active (lis w) = Z.of_nat (count unreleased (leases w)) ->
  (forall n, count (releasing n) ts = isRunning (leases w !! n)) ->
  ts !! t = Some p -> lease_effect w p w' p' ->
  active (lis w') = Z.of_nat (count unreleased (leases w')) /\
  forall n, count (releasing n) (<[t := p']> ts) = isRunning (leases w' !! n).
Proof.
  intros Ha Hru Ht [E1 E2 E3|E1 E2 E3|n E0 E1 E2 -> ->|n E1 E2 -> ->].
  - rewrite E1, E2. split; [done|]. intros n. by rewrite (releasing_insert _ _ p).
  - rewrite E1, E2. split; [rewrite Ha, sum_list_with_app; cbn; lia|].
    intros n. destruct (E3 n). rewrite (releasing_insert _ _ p) by (done || congruence).
    rewrite Hru, lookup_app. destruct (leases w !! n) eqn:E; [done|].
    destruct (n - length (leases w))%nat as [|[|k]]; done.
  - rewrite E1, E2. pose proof (sum_list_insert unreleased _ _ _ Running E0) as Hu. cbn in Hu.
    split; [lia|]. intros m. pose proof (sum_list_insert (releasing m) ts t _ (LeaseRelease n) Ht) as Hm.
    rewrite isRunning_insert by eauto. specialize (Hru m). cbn in Hm. case_decide; [subst|lia].
    rewrite E0 in Hru. cbn in *. lia.
  - pose proof (sum_list_elem (releasing n) ts t _ Ht) as Hn. rewrite Hru in Hn. cbn in Hn.
    rewrite decide_True in Hn by done.
    assert (E0 : leases w !! n = Some Running) by (destruct (leases w !! n) as [[]|]; cbn in Hn; by try lia).
    rewrite E1, E2. pose proof (sum_list_insert unreleased _ _ _ Done E0) as Hu. cbn in Hu.
    split; [lia|]. intros m. pose proof (sum_list_insert (releasing m) ts t _ LeaseReturned Ht) as Hm.
    rewrite isRunning_insert by eauto. specialize (Hru m). cbn in Hm. case_decide; [subst|lia].
    rewrite E0 in Hru. cbn in *. lia.
Qed.

Lemma counts_tstep w ts t p w' p' :
  counts w ts -> ts !! t = Some p -> tstep w p w' p' -> counts w' (<[t := p']> ts).
Proof.
  intros [Hp Ha Hd Hr Hru Hf Hw] Ht Hs.
  destruct (tstep_effect _ _ _ _ Hs) as [Ep Epa Ere Ef Eo Eq _].
  pose proof (sum_list_insert inAccept ts t p p' Ht).
  pose proof (sum_list_insert draining ts t p p' Ht).
  pose proof (sum_list_insert inReopen ts t p p' Ht).
  pose proof (sum_list_elem draining ts t p Ht).
  pose proof (sum_list_elem inReopen ts t p Ht).
  destruct (counts_leases _ _ _ _ _ _ Ha Hru Ht (tstep_lease_effect _ _ _ _ Hs)).
  constructor; try done; try lia; try auto.
  intros t' q. rewrite list_lookup_insert_Some.
  intros [(-> & <- & _)|[_ Hq]]; eauto.
Qed.

(** Who closes what. *)
Record listener_effect (w : world) (p : pc) (w' : world) (p' : pc) : Prop := {
  l_opened i : i ∈ opened w' -> i ∈ opened w \/ inner (lis w') = Some i \/ closing i p' = true;
  l_known i : i ∈ opened w -> i ∈ opened w';
  l_shut i : i ∈ shut w -> i ∈ shut w';
  l_closes i : closing i p = true -> i ∈ shut w';
  l_inner i : inner (lis w') = Some i -> inner (lis w) = Some i \/ i ∈ opened w';
  l_accepts i gen : p' = AcceptInner i gen -> inner (lis w) = Some i;
}.
Lemma tstep_listener_effect w p w' p' : tstep w p w' p' -> listener_effect w p w' p'.
Proof.
  destruct 1; try region_inv; cbn; subst; constructor; cbn;
    repeat match goal with H : opened _ = _ |- _ => rewrite H; clear H
           | H : shut _ = _ |- _ => rewrite H; clear H
           | H : lis _ = _ |- _ => rewrite H; clear H end; try done; auto.
  all: intros j; try (case_bool_decide; subst); try destruct i; cbn; rewrite ?elem_of_cons; auto;
    regions; try set_solver;
    (intros [->|?]; [right; right; by apply bool_decide_eq_true_2 | auto]).
Qed.

Lemma owned_tstep w ts t p w' p' :
  counts w ts -> owned w ts -> ts !! t = Some p -> tstep w p w' p' ->
  owned w' (<[t := p']> ts).
Proof.
  intros Hc [Ho Hi Ha] Ht Hs.
  destruct (tstep_listener_effect _ _ _ _ Hs) as [Lo Lk Ls Lc Li La].
  pose proof (e_shut _ _ _ _ (tstep_effect _ _ _ _ Hs)) as He.
  assert (Hself : <[t := p']> ts !! t = Some p')
    by (apply list_lookup_insert_eq; by eapply lookup_lt_Some).
  constructor.
  - intros i [Hin|[Hin|Hin]]%Lo; [|by right; left|by right; right; eauto].
    destruct (Ho i Hin) as [?|[Hin'|(t0 & p0 & Ht0 & Hcl)]]; [left; auto| |].
    + assert (Hre : (inReopen p <= Nat.b2n (reopening (lis w)))%nat)
        by (rewrite <- (c_reopening _ _ Hc); by eapply sum_list_elem).
      destruct (He i (c_flags _ _ Hc) Hre Hin') as [?|[->| ->]];
        [by right; left|right; right..]; eexists t, _; (split; [exact Hself|]); cbn; by case_bool_decide.
    + destruct (decide (t = t0)) as [<-|Hne]; [left; naive_solver|].
      right; right. exists t0, p0. by rewrite list_lookup_insert_ne.
  - intros i [?|?]%Li; auto.
  - intros t' i gen. rewrite list_lookup_insert_Some. intros [(-> & -> & _)|[_ Hq]]; eauto.
Qed.

(** ** Reachable configurations *)
Definition Inv (c : config) : Prop := counts c.1 c.2 /\ owned c.1 c.2.
Lemma call_weight p : entry p = true ->
  inAccept p = 0%nat /\ draining p = 0%nat /\ inReopen p = 0%nat /\
  (forall n, releasing n p = 0%nat) /\ (forall l, wait_ok l p) /\
  (forall i g, p <> AcceptInner i g).
Proof. by destruct p. Qed.
Lemma inv_step c c' : Inv c -> step c c' -> Inv c'.
Proof.
  intros HI Hst; revert HI. destruct Hst as [w ts t p w' p' Ht Hs|w ts p Hp]; intros [Hc Ho]; cbn in *.
  - split; [by eapply counts_tstep | by eapply owned_tstep].
  - destruct (call_weight p Hp) as (E1 & E2 & E3 & E4 & E5 & E6). split; cbn.
    + destruct Hc. constructor; try done; rewrite ?sum_list_with_app; cbn; rewrite ?E1, ?E2, ?E3; try lia.
      * intros n. rewrite sum_list_with_app. cbn. rewrite E4, c_running0. lia.
      * intros t q [?|[_ Hq]]%lookup_app_Some; eauto.
        apply list_lookup_singleton_Some in Hq as [_ <-]. auto.
    + destruct Ho as [O1 O2 O3]. constructor; [|done|].
      * intros i [?|[?|(t & q & Hq & ?)]]%O1; [by left|by right; left|].
        right; right. exists t, q. split; [by apply lookup_app_l_Some|done].
      * intros t i g [?|[_ Hq]]%lookup_app_Some; eauto.
        apply list_lookup_singleton_Some in Hq as [_ Hq]. by apply E6 in Hq.
Qed.
Lemma inv_reachable c : reachable c -> Inv c.
Proof.
  intros (i & r & H). apply (rtc_invariant _ Inv _ _ inv_step H).
  split; constructor; cbn; try done.
  - by split; [intros [|]|split; [|intros [|]]].
  - intros j Hj. right; left. by apply list_elem_of_singleton in Hj as ->.
  - intros j [= ->]. by apply list_elem_of_singleton.
Qed.
(** ** Theorems *)

Lemma pause_true_inv w p w' :
  tstep w p w' (PauseReturned true None) ->
  exists e, p = PauseDrain e /\
    pending (lis w) <= 0 /\ closed (lis w) = false /\ active (lis w) = 0 /\
    lis w' = (pause_exit (lis w) true None).1 /\ leases w' = leases w.
Proof.
  intros H. remember (PauseReturned true None) as q eqn:Hq.
  destruct H as [? ? H|?|? ? ? ? ? H|? ? ? ? ? H|? ? H|?|?| | |closeErr ctxErr ? ? H|? ? ? ? H|?|? ? H|?|? ? ? ? ? H|?|? ? H|?|? ?|?|? ?]; subst; try done; try (exfalso;
    apply on_lis_inv in H as (_ & Hp & _); revert Hp; regions; done).
  apply on_lis_inv in H as (Hl & Hp & Hle & _). exists closeErr. rewrite Hl, Hle.
  revert Hp. unfold pause_drain, pause_exit. repeat (cbn; case_match); bool_to_prop; try done.
  all: intros [= E]; symmetry in E; bool_to_prop.
  all: rewrite andb_true_r in *; bool_to_prop; auto 10.
Qed.

(** C33: safety of a pause.  When [Pause] returns [true, nil] the daemon is drained:
    the listener is paused and not closed, nobody is inside [Accept] of the inner
    listener, every connection that was ever accepted has been closed, and every
    listener is closed or about to be closed by the goroutine that holds it. *)
Theorem pause_drained w ts t p w' :
  reachable (w, ts) -> ts !! t = Some p -> tstep w p w' (PauseReturned true None) ->
  let ts' := <[t := PauseReturned true None]> ts in
  paused (lis w') = true /\ closed (lis w') = false /\ inner (lis w') = None /\
  (forall t' i gen, ts' !! t' <> Some (AcceptInner i gen)) /\
  (forall n o, leases w' !! n = Some o -> o = Done) /\
  (forall i, i ∈ opened w' ->
     i ∈ shut w' \/ exists t' q, ts' !! t' = Some q /\ closing i q = true).
Proof.
  intros Hr%inv_reachable Ht Hs ts'. destruct (pause_true_inv _ _ _ Hs) as (e & -> & Hp & Hcl & Ha & Hl & Hle).
  assert (Hpau : paused (lis w) = true).
  { destruct Hr as [[_ _ Hd _ _ [Hpp _] _] _]. apply Hpp. left.
    pose proof (sum_list_elem draining ts t _ Ht) as Hn. cbn in *. rewrite Hd in Hn.
    destruct (pausing (lis w)); [done|cbn in Hn; lia]. }
  destruct (inv_step _ _ Hr (step_thread _ _ _ _ _ _ Ht Hs)) as [[Cp Ca _ _ _ [_ Cf] _] [Co _ _]].
  cbn in *. fold ts' in Cp, Co. rewrite Hl in *. cbn in *.
  assert (Hinn : inner (lis w) = None) by (apply Cf; auto).
  split_and!; try done.
  - intros t' i gen Ht'. pose proof (sum_list_elem inAccept ts' t' _ Ht') as Hn. cbn in Hn. lia.
  - intros n o Hn. pose proof (sum_list_elem unreleased _ n _ Hn) as Hm. destruct o; cbn in Hm; try done; lia.
  - intros i Hi. destruct (Co i Hi) as [?|[Hin|?]]; [auto| |auto]. cbn in Hin. rewrite Hl in Hin. cbn in Hin. congruence.
Qed.

(** no lost wake-up.  A goroutine that sleeps on a channel which has not been
    closed sleeps for a reason: the condition of its loop still holds. *)
Theorem no_lost_wakeup w ts t p ch b :
  reachable (w, ts) -> ts !! t = Some p -> waiting (lis w) p = Some (ch, b) ->
  ch = changed (lis w) -> b = true.
Proof.
  intros [Hc _]%inv_reachable Ht Hw Hch. pose proof (c_wait _ _ Hc t p Ht) as H.
  unfold wait_ok in H. cbn in H. rewrite Hw in H. naive_solver.
Qed.

(** ** Termination of a pause *)

(** The steps a [Pause] in its second part waits for: its own ones while its context
    is not cancelled, and the return of calls of [inner.Accept]. *)
Definition uncancelled (w : world) (p : pc) (w' : world) (p' : pc) : Prop :=
  match p with
  | PauseDrain e => on_lis (pause_drain e None) w = (w', p')
  | PauseDrainWait _ _ => forall r e, p' <> PauseReturned r e
  | _ => True
  end.
Inductive drain_step (t : nat) : config -> config -> Prop :=
  | drain_own w ts p w' p' :
      ts !! t = Some p -> draining p = 1%nat -> tstep w p w' p' ->
      uncancelled w p w' p' ->
      drain_step t (w, ts) (w', <[t := p']> ts)
  | drain_accept w ts t' i gen w' p' :
      ts !! t' = Some (AcceptInner i gen) -> tstep w (AcceptInner i gen) w' p' ->
      drain_step t (w, ts) (w', <[t' := p']> ts).
Definition drain_rank (l : updateListener) (p : pc) : nat :=
  match p with
  | PauseCloseInner _ => 4
  | PauseDrain _ => 3
  | PauseDrainWait ch _ => if decide (ch = changed l) then 2 else 4
  | _ => 0
  end.
Definition drain_measure (t : nat) (c : config) : nat :=
  3 * count inAccept c.2 + match c.2 !! t with Some p => drain_rank (lis c.1) p | None => 0 end.

Lemma drain_own_rank w p w' p' :
  draining p = 1%nat -> tstep w p w' p' -> (drain_rank (lis w') p' < drain_rank (lis w) p)%nat.
Proof.
  intros Hd Hs. destruct Hs; try done; try region_inv; subst; cbn; try lia.
  - rewrite Hl. unfold pause_drain, pause_exit. regions; cbn; first [lia|congruence].
  - case_decide; lia.
  - rewrite decide_False by done. lia.
Qed.
Lemma accept_step_inv w i gen w' p' :
  tstep w (AcceptInner i gen) w' p' -> inAccept p' = 0%nat /\ drain_rank (lis w') p' = 0%nat /\ changed (lis w') = S (changed (lis w)).
Proof.
  intros Hs. inversion Hs as [| |? ? ? ? ? H|? ? ? ? ? H| | | | | | | | | | | | | | | | |]; subst;
    apply on_lis_inv in H as (Hl & -> & _); cbn; rewrite ?Hl; split_and!; try done; by regions.
Qed.
Lemma drain_measure_step t c c' :
  Inv c -> drain_step t c c' -> (drain_measure t c' < drain_measure t c)%nat.
Proof.
  intros HI Hst; revert HI. destruct Hst as [w ts p w' p' Ht Hd Hs Hne|w ts t' i gen w' p' Ht' Hs]; intros [Hc _]; unfold drain_measure; cbn [fst snd].
  - rewrite list_lookup_insert_eq by (by eapply lookup_lt_Some). rewrite Ht.
    pose proof (sum_list_insert inAccept ts t p p' Ht). pose proof (drain_own_rank _ _ _ _ Hd Hs).
    assert (inAccept p' = inAccept p); [|lia].
    destruct Hs; try done; try region_inv; subst; by regions.
  - destruct (accept_step_inv _ _ _ _ _ Hs) as (E1 & E2 & E3).
    pose proof (sum_list_insert inAccept ts t' _ p' Ht') as Hi. cbn in Hi.
    destruct (decide (t' = t)) as [->|Hne].
    + rewrite list_lookup_insert_eq by (by eapply lookup_lt_Some). lia.
    + rewrite list_lookup_insert_ne by done. destruct (ts !! t) as [q|]; [|lia].
      enough (drain_rank (lis w') q <= drain_rank (lis w) q + 2)%nat by lia.
      destruct q; cbn; try lia. repeat case_decide; lia.
Qed.

(** A goroutine in the second part of [Pause] stays there until it returns. *)
Definition in_pause (p : pc) : Prop := draining p = 1%nat \/ exists r e, p = PauseReturned r e.
Lemma drain_stays t c c' :
  (exists p, c.2 !! t = Some p /\ in_pause p) -> drain_step t c c' ->
  exists p, c'.2 !! t = Some p /\ in_pause p.
Proof.
  intros (p0 & Hp0 & Hin) Hst; revert Hp0. destruct Hst as [w ts p w' p' Ht Hd Hs Hne|w ts t' i gen w' p' Ht' Hs];
    cbn; intros Hp0.
  - simplify_eq. exists p'. rewrite list_lookup_insert_eq by (by eapply lookup_lt_Some).
    split; [done|]. destruct Hs; try done; try region_inv; subst; try (by left);
      unfold pause_drain, pause_exit; repeat (cbn; case_match); unfold in_pause; cbn; eauto.
  - exists p0. rewrite list_lookup_insert_ne; [done|]. intros ->. simplify_eq.
    destruct Hin as [|(? & ? & ?)]; done.
Qed.

(** Unless it has returned, one of these steps is possible. *)
Lemma drain_progress t c p :
  Inv c -> c.2 !! t = Some p -> draining p = 1%nat -> exists c', drain_step t c c'.
Proof.
  destruct c as [w ts]; cbn. intros [Hc _] Ht Hd. cbn in Hc. pose proof (c_wait _ _ Hc t p Ht) as Hw.
  destruct p as [| | | | | |[i|]|e|ch e| | | | | | | | | | | |]; try done.
  - eexists. eapply drain_own; [done..|apply (step_pause_close w i None)|done].
  - eexists. eapply drain_own; [done..|apply step_pause_noclose|done].
  - destruct (pause_drain e None (lis w)) as [l q] eqn:E.
    assert (H : on_lis (pause_drain e None) w = (mkWorld l (leases w) (opened w) (shut w), q))
      by (unfold on_lis; by rewrite E).
    eexists. eapply drain_own; [done..|by apply (step_drain w e None)|done].
  - destruct (decide (ch = changed (lis w))) as [->|Hne].
    + cbn in Hw. destruct Hw as [_ Hw]. specialize (Hw eq_refl). bool_to_prop.
      rewrite (c_pending _ _ Hc) in H0.
      destruct (sum_list_pos inAccept ts) as (t' & q & Hq & Hqp); [lia|].
      destruct q; cbn in Hqp; try lia.
      eexists. eapply drain_accept; [done|]. by eapply (step_accept_err w i gen None).
    + eexists. eapply drain_own; [done..|by apply step_wake_drain|done].
Qed.

Lemma drain_step_step t c c' : drain_step t c c' -> step c c'.
Proof. destruct 1; by eapply step_thread. Qed.
Lemma inv_drain_step t c c' : Inv c -> drain_step t c c' -> Inv c'.
Proof. eauto using inv_step, drain_step_step. Qed.
Lemma drain_bounded t n c c' :
  Inv c -> nsteps (drain_step t) n c c' -> (n + drain_measure t c' <= drain_measure t c)%nat.
Proof.
  intros HI Hn. revert HI. induction Hn as [c|n c1 c2 c3 H1 Hn IH]; intros HI; [lia|].
  pose proof (drain_measure_step _ _ _ HI H1). specialize (IH (inv_drain_step _ _ _ HI H1)). lia.
Qed.
Lemma pausing_inner c t p :
  Inv c -> c.2 !! t = Some p -> draining p = 1%nat -> inner (lis c.1) = None.
Proof.
  intros [[_ _ Hd _ _ [Hp Hi] _] _] Ht Hdr. apply Hi. right. apply Hp. left.
  pose proof (sum_list_elem draining _ t p Ht). rewrite Hd, Hdr in H.
  destruct (pausing (lis c.1)); [done|cbn in H; lia].
Qed.

(** C34: a pause terminates.  Once [Pause] has stopped new connections, at most
    [3 * pending + 4] of its own steps and of returns of [Accept] of the inner
    listener can happen, in any order, and when no such step is left [Pause] has
    returned, with an answer other than a cancelled context; while it sleeps, one
    of the calls it waits for is on a listener that is closed or about to be. *)
Theorem pause_terminates w ts t p :
  reachable (w, ts) -> ts !! t = Some p -> draining p = 1%nat ->
  (forall n c', nsteps (drain_step t) n (w, ts) c' ->
     (n <= 3 * Z.to_nat (pending (lis w)) + 4)%nat) /\
  (forall c', rtc (drain_step t) (w, ts) c' -> (forall c'', ~ drain_step t c' c'') ->
     exists r e, c'.2 !! t = Some (PauseReturned r e)) /\
  (forall e, p = PauseDrainWait (changed (lis w)) e ->
     exists t' i gen, ts !! t' = Some (AcceptInner i gen) /\ accounted w ts i /\ inner (lis w) <> Some i).
Proof.
  intros HI%inv_reachable Ht Hd. split_and!.
  - intros n c' Hn%drain_bounded; [|done]. unfold drain_measure in Hn. cbn in Hn. rewrite Ht in Hn.
    destruct HI as [Hc _]. pose proof (c_pending _ _ Hc) as Hpe. cbn in Hpe. rewrite Hpe, Nat2Z.id.
    assert (drain_rank (lis w) p <= 4)%nat; [|lia].
    destruct p; cbn; try lia. case_decide; lia.
  - intros c' Hr Hstuck.
    destruct (rtc_invariant _ (fun c => Inv c /\ exists q, c.2 !! t = Some q /\ in_pause q)
      _ _ ltac:(cbn; intros ?? [? ?] ?; eauto using inv_drain_step, drain_stays) Hr) as (HI' & q & Hq & [Hdr|?]).
    + split; [done|]. exists p. split; [done|by left].
    + destruct (drain_progress t c' q HI' Hq Hdr) as [c'' Hc'']. by destruct (Hstuck c'').
    + naive_solver.
  - intros e ->. pose proof HI as [Hc Ho]. pose proof (c_wait _ _ Hc t _ Ht) as Hw.
    cbn in *. destruct Hw as [_ Hw]. specialize (Hw eq_refl). bool_to_prop. pose proof (c_pending _ _ Hc) as Hpe. cbn in Hpe.
    destruct (sum_list_pos inAccept ts) as (t' & q & Hq & Hqp); [lia|].
    destruct q; cbn in Hqp; try lia. eexists t', i, gen. split_and!; [done|..].
    + by eapply o_opened, o_accepting.
    + pose proof (pausing_inner (w, ts) t _ HI Ht Hd) as Hin. cbn in Hin. by rewrite Hin.
Qed.

(** No listener is lost.  Every listener the object was given (at creation or by
    [reopen]) is closed, or is the current one, or a goroutine is about to close it;
    so after [Close], once the running calls are over, all of them are closed. *)
Theorem listeners_accounted w ts i :
  reachable (w, ts) -> i ∈ opened w ->
  accounted w ts i /\
  (closed (lis w) = true -> (forall t p, ts !! t = Some p -> closing i p = false) -> i ∈ shut w).
Proof.
  intros [Hc Ho]%inv_reachable Hi. cbn in *. pose proof (o_opened _ _ Ho i Hi) as Ha.
  split; [done|]. intros Hcl Hno. destruct Ha as [?|[Hin|(t & p & Ht & Hp)]]; [done| |].
  - destruct (c_flags _ _ Hc) as [_ [_ Hf]]. rewrite Hf in Hin by auto. done.
  - by rewrite (Hno t p Ht) in Hp.
Qed.

(** ** An example: a pause while a goroutine is inside [Accept] *)
Module Example_listener.
Definition start : updateListener := newUpdateListener 7 true.
(** The accept loop is in [inner.Accept] and [Pause] sleeps until it returns. *)
Definition waiting_world : world :=
  mkWorld (mkListener None true 1 true false true false 1 1 0) [] [7%nat] [7%nat].
Definition waiting_config : config := (waiting_world, [AcceptInner 7 0; PauseDrainWait 1 None]).
(** The accept call has returned a connection, which was closed by its owner; [Pause] is awake. *)
Definition awake_world : world :=
  mkWorld (mkListener None true 3 true false true false 1 0 0) [Done] [7%nat] [7%nat].
Definition awake_config : config :=
  (awake_world, [AcceptReturned (Some 0%nat) None; PauseDrain None; LeaseReturned]).

Ltac run t rule := eapply rtc_l; [eapply (step_thread _ _ t); [reflexivity|rule]|cbn].
Lemma waiting_run : rtc step (initial 7 true) waiting_config.
Proof.
  eapply rtc_l; [by apply (step_call _ _ AcceptLock)|cbn].
  run 0%nat ltac:(by apply step_accept).
  eapply rtc_l; [by apply (step_call _ _ PauseLock)|cbn].
  run 1%nat ltac:(by apply step_pause).
  run 1%nat ltac:(by apply (step_pause_close _ _ None)).
  run 1%nat ltac:(by apply (step_drain _ None None)).
  apply rtc_refl.
Qed.
Lemma waiting_reachable : reachable waiting_config.
Proof. exists 7%nat, true. exact waiting_run. Qed.
Lemma awake_reachable : reachable awake_config.
Proof.
  exists 7%nat, true. etrans; [exact waiting_run|].
  run 0%nat ltac:(by apply (step_accept_conn _ _ _ None)).
  eapply rtc_l; [by apply (step_call _ _ (LeaseClose 0))|cbn].
  run 2%nat ltac:(by apply step_lease_once).
  run 2%nat ltac:(by apply step_lease_release).
  run 1%nat ltac:(by apply step_wake_drain).
  apply rtc_refl.
Qed.

Lemma pause_drained_witness :
  let w' := mkWorld (mkListener None true 4 true false false false 1 0 0) [Done] [7%nat] [7%nat] in
  paused (lis w') = true /\ forall n o, leases w' !! n = Some o -> o = Done.
Proof.
  intros w'.
  assert (Hs : tstep awake_world (PauseDrain None) w' (PauseReturned true None))
    by exact (step_drain awake_world None None w' _ eq_refl).
  destruct (pause_drained awake_world awake_config.2 1 (PauseDrain None) w' awake_reachable eq_refl Hs)
    as (H1 & _ & _ & _ & H5 & _).
  exact (conj H1 H5).
Defined.
Lemma no_lost_wakeup_witness : (0 <? pending (lis waiting_world)) = true.
Proof.
  exact (no_lost_wakeup waiting_world waiting_config.2 1 (PauseDrainWait 1 None) 1
    (0 <? pending (lis waiting_world)) waiting_reachable eq_refl eq_refl eq_refl).
Defined.
Lemma pause_terminates_witness :
  exists t' i gen, waiting_config.2 !! t' = Some (AcceptInner i gen) /\
    accounted waiting_world waiting_config.2 i /\ inner (lis waiting_world) <> Some i.
Proof.
  exact (proj2 (proj2 (pause_terminates waiting_world waiting_config.2 1 (PauseDrainWait 1 None)
    waiting_reachable eq_refl eq_refl)) None eq_refl).
Defined.
Lemma listeners_accounted_witness : accounted waiting_world waiting_config.2 7.
Proof.
  refine (proj1 (listeners_accounted waiting_world waiting_config.2 7 waiting_reachable _)).
  by apply list_elem_of_singleton.
Defined.
End Example_listener.
