(* ===== verification/StartLock.v ===== *)
(** The start lock of the daemon (internal/daemon/start_lock.go): the file
    [start.lock] names its owner, and every access to it runs while the process
    holds the advisory lock of [start.guard].

    The state of a guarded operation is the file and the clock.  Every call to
    the system may fail, as an oracle decides, and every content the file goes
    through is recorded, so that a theorem about all of them is about a process
    that dies at any point.  Other processes change the file only while this one
    does not have the guard. *)
From S2P Require Import Prelude GoStrings GoStringFacts GoNum.

Local Open Scope go_scope.
Local Open Scope Z_scope.

(** * Definitions *)

(** ** Constants, in nanoseconds *)
Definition startLockPollInterval : Z := 150 * 10 ^ 6.
Definition startLockLegacyStaleAfter : Z := 5 * 60 * 10 ^ 9.
Definition startLockMetadataVersion : Z := 1.
Definition startLockNonceBytes : nat := 16.
Definition startLockMaxPID : Z := 2 ^ 31 - 1.
Definition defaultTimeout : Z := 10 * 10 ^ 9.

(** ** The text of the lock *)
Record startLockMetadata := mkMetadata { md_version : Z; md_pid : Z; md_nonce : gostring }.

Section metadata.
Context `{UnicodeTables}.

Definition validStartLockNonce (nonce : gostring) : bool :=
  if negb (length nonce =? startLockNonceBytes * 2)%nat || negb (streq (toLower nonce) nonce)
  then false
  else match hexDecode nonce with
       | Some decoded => (length decoded =? startLockNonceBytes)%nat
       | None => false
       end.
Definition metadata_text (pid : Z) (nonce : gostring) : gostring :=
  "version=" ++ itoa startLockMetadataVersion ++ LF :: "pid=" ++ itoa pid ++ LF :: "nonce=" ++ nonce ++ [LF].
Definition parseStartLockMetadata (body : gostring) : option startLockMetadata :=
  match splitByte body LF with
  | [l0; l1; l2; l3] =>
      if negb (streq l0 "version=1") || negb (streq l3 []) then None
      else if negb (hasPrefix l1 "pid=") || negb (hasPrefix l2 "nonce=") then None
      else
        let pidText := trimPrefix l1 "pid=" in
        let nonce := trimPrefix l2 "nonce=" in
        if streq pidText [] || negb (validStartLockNonce nonce) then None
        else if existsb (fun '(_, digit) => (digit <? 48) || (57 <? digit)) (runes pidText) then None
        else match parseUint pidText 32 with
             | None => None
             | Some pid64 =>
                 if (pid64 =? 0) || (startLockMaxPID <? pid64) then None
                 else Some (mkMetadata startLockMetadataVersion pid64 nonce)
             end
  | _ => None
  end.
End metadata.

(** ** Guarded operations *)
Record lockFile := mkLockFile { lf_body : gostring; lf_mtime : Z }.
Inductive ioErr := ErrExist | ErrNotExist | ErrSys.
Inductive lockError :=
  | EIO (e : ioErr)
  | EMsg (m : gostring)
  | EWrap (m : gostring) (e : lockError)
  | EJoin (es : list lockError)
  | EFuel.                         (* the model ran out of fuel; proved impossible *)

Record state := mkState {
  file : option lockFile;          (* start.lock *)
  past : list (option lockFile);   (* what it was, the last one first *)
  tick : nat;                      (* calls made so far *)
  time : Z;
}.
Definition M := eff state lockError.

Record oracle := mkOracle {
  o_fails : nat -> bool;                          (* the n-th call fails *)
  o_short : nat -> nat;                           (* how much a failing write leaves *)
  o_lag : nat -> N;                               (* time spent before the n-th call *)
  o_try : nat -> result lockError bool;           (* tryLockStartGuard *)
  o_env : nat -> option lockFile -> option lockFile;  (* other processes *)
  o_alive : Z -> bool;                            (* ownerAlive *)
  o_nonce : result lockError gostring;
  o_pid : Z;                                      (* os.Getpid() *)
}.
Record startLock := mkStartLock { sl_pid : Z; sl_nonce : gostring }.
#[export] Instance startLock_dec : EqDecision startLock.
Proof. solve_decision. Defined.

Section operations.
Context `{UnicodeTables} (o : oracle).

Definition fcall (A : Type) : Type := Z -> option lockFile -> result ioErr A * option lockFile.
Definition createExcl : fcall unit := fun t f =>
  match f with Some _ => (Err ErrExist, f) | None => (Ok tt, Some (mkLockFile [] t)) end.
Definition writeBody (body : gostring) : fcall unit := fun t f =>
  (Ok tt, match f with Some _ => Some (mkLockFile body t) | None => None end).
Definition stat : fcall Z := fun _ f =>
  match f with Some l => (Ok (lf_mtime l), f) | None => (Err ErrNotExist, f) end.
Definition readBody : fcall gostring := fun _ f =>
  match f with Some l => (Ok (lf_body l), f) | None => (Err ErrNotExist, f) end.
Definition removeLock : fcall unit := fun _ f =>
  match f with Some _ => (Ok tt, None) | None => (Err ErrNotExist, f) end.
Definition nop : fcall unit := fun _ f => (Ok tt, f).

(** A call: [f], or [broken] when it fails. *)
Definition call_or {A} (broken f : fcall A) : M (result ioErr A) := fun s =>
  let t := time s + Z.of_N (o_lag o (tick s)) in
  let '(r, f') := (if o_fails o (tick s) then broken else f) t (file s) in
  (Ok r, mkState f' (file s :: past s) (S (tick s)) t).
Definition call {A} (f : fcall A) : M (result ioErr A) := call_or (fun _ g => (Err ErrSys, g)) f.
Definition ignore (f : fcall unit) : M unit := _ ← call f; mret tt.
Definition must {A} (f : fcall A) : M A :=
  r ← call f; match r with Ok a => mret a | Err e => throw (EIO e) end.
(** [now()]. *)
Definition now : M Z := fun s =>
  let t := time s + Z.of_N (o_lag o (tick s)) in (Ok t, mkState (file s) (past s) (S (tick s)) t).
(** [time.Sleep(d)]; the guard is free meanwhile. *)
Definition sleep (d : Z) : M unit := fun s =>
  (Ok tt, mkState (o_env o (tick s) (file s)) (past s) (S (tick s))
            (time s + Z.max d 0 + Z.of_N (o_lag o (tick s)))).

(** A failing [Fprintf] may have written a part. *)
Definition partialWrite (body : gostring) : M unit := fun s =>
  (r ← call_or (fun t f => (Err ErrSys, snd (writeBody (take (o_short o (tick s)) body) t f)))
               (writeBody body);
   match r with Ok _ => mret tt | Err e => throw (EIO e) end) s.
Definition writeStartLockMetadata (pid : Z) (nonce : gostring) : M unit :=
  _ ← must nop;                                   (* Seek *)
  _ ← must (writeBody []);                        (* Truncate *)
  _ ← partialWrite (metadata_text pid nonce);
  must nop.                                       (* Sync *)
Definition attempt {A} (m : M A) : M (result lockError A) :=
  fun s => let '(r, s) := m s in (Ok r, s).
Definition join_err {E A} (f : E -> lockError) (r : result E A) : list lockError :=
  match r with Ok _ => [] | Err e => [f e] end.

Definition finishStartLockCreate : M startLock :=
  match o_nonce o with
  | Err e =>
      _ ← ignore nop; _ ← ignore removeLock;
      throw (EWrap "generate start.lock nonce: " e)
  | Ok ownerNonce =>
      if negb (validStartLockNonce ownerNonce) then
        _ ← ignore nop; _ ← ignore removeLock;
        throw (EMsg "generated start.lock nonce is invalid")
      else
        w ← attempt (writeStartLockMetadata (o_pid o) ownerNonce);
        match w with
        | Err e =>
            closeErr ← call nop;
            removeErr ← call removeLock;
            throw (EJoin (e :: join_err EIO closeErr ++ join_err EIO removeErr))
        | Ok _ =>
            _ ← must nop;                         (* Close *)
            mret (mkStartLock (o_pid o) ownerNonce)
        end
  end.

Definition reclaimStartLockLocked (t : Z) : M bool :=
  info ← call stat;
  match info with
  | Err ErrNotExist => mret true
  | Err e => throw (EIO e)
  | Ok mtime =>
      body ← call readBody;
      match body with
      | Err ErrNotExist => mret true
      | Err e => throw (EIO e)
      | Ok body =>
          let keep :=
            if (length body =? 0)%nat then negb (mtime + startLockLegacyStaleAfter <? t)
            else match parseStartLockMetadata body with
                 | None => true
                 | Some metadata => o_alive o (md_pid metadata)
                 end in
          if keep then mret false
          else
            r ← call removeLock;
            match r with
            | Err ErrNotExist => mret true
            | Err e => throw (EIO e)
            | Ok _ => mret true
            end
      end
  end.

(** The owner, and whether to retry. *)
Definition acquireStartLockLocked : M (option startLock * bool) :=
  r ← call createExcl;
  match r with
  | Ok _ => owner ← finishStartLockCreate; mret (Some owner, false)
  | Err ErrExist =>
      t ← now;
      reclaimed ← reclaimStartLockLocked t;
      if negb reclaimed then mret (None, true)
      else
        r ← call createExcl;
        match r with
        | Err ErrExist => throw (EMsg "start.lock reappeared while start.guard was held")
        | Err e => throw (EIO e)
        | Ok _ => owner ← finishStartLockCreate; mret (Some owner, false)
        end
  | Err e => throw (EIO e)
  end.

(** ** The guard and the retry loop *)

(** Other processes may have held the guard until now. *)
Definition tryLock : M bool := fun s =>
  let t := time s + Z.of_N (o_lag o (tick s)) in
  (match o_try o (tick s) with
   | Ok b => Ok b
   | Err e => Err (EWrap "lock start.guard: " e)
   end, mkState (o_env o (tick s) (file s)) (past s) (S (tick s)) t).
Fixpoint guard_loop (fuel : nat) (deadline : Z) : M unit :=
  match fuel with
  | O => throw EFuel
  | S fuel =>
      locked ← tryLock;
      if locked : bool then mret tt
      else
        t ← now;
        if negb (t <? deadline) then throw (EMsg "timed out waiting for start.guard")
        else
          t ← now;
          let remaining := deadline - t in
          _ ← sleep (if remaining <? startLockPollInterval then remaining else startLockPollInterval);
          guard_loop fuel deadline
  end.
(** The rounds that fit into a waiting time. *)
Definition rounds (timeout : Z) : nat := S (S (Z.to_nat (timeout / startLockPollInterval))).
Definition withStartGuard {A} (timeout : Z) (operation : M A) : M A :=
  let timeout := if timeout <=? 0 then defaultTimeout else timeout in
  r ← call nop;                                   (* OpenFile *)
  match r with
  | Err e => throw (EWrap "open start.guard: " (EIO e))
  | Ok _ =>
      t ← now;
      _ ← guard_loop (rounds timeout) (t + timeout);
      a ← attempt operation;
      unlockErr ← call nop;
      closeErr ← call nop;
      match a, unlockErr, closeErr with
      | Ok a, Ok _, Ok _ => mret a
      | _, _, _ => throw (EJoin (join_err id a ++ join_err EIO unlockErr ++ join_err EIO closeErr))
      end
  end.

Fixpoint acquire_loop (fuel : nat) (deadline : Z) : M startLock :=
  match fuel with
  | O => throw EFuel
  | S fuel =>
      t ← now;
      let remaining := deadline - t in
      if remaining <=? 0 then throw (EMsg "timed out waiting for daemon start lock")
      else
        '(owner, retry) ← withStartGuard remaining acquireStartLockLocked;
        match owner with
        | Some owner => mret owner
        | None =>
            if negb retry then throw (EMsg "daemon start lock operation did not complete")
            else
              t ← now;
              let remaining := deadline - t in
              if remaining <=? 0 then throw (EMsg "timed out waiting for daemon start lock")
              else
                _ ← sleep (if remaining <? startLockPollInterval then remaining else startLockPollInterval);
                acquire_loop fuel deadline
        end
  end.
Definition acquireStartLockAtWithNonce (timeout : Z) : M startLock :=
  let timeout := if timeout <=? 0 then defaultTimeout else timeout in
  t ← now;
  acquire_loop (rounds timeout) (t + timeout).

(** [Close], the first time it is called. *)
Definition closeLocked (l : startLock) : M unit :=
  r ← call readBody;
  match r with
  | Err ErrNotExist => mret tt
  | Err e => throw (EIO e)
  | Ok body =>
      match parseStartLockMetadata body with
      | None => mret tt
      | Some metadata =>
          if negb (md_pid metadata =? sl_pid l) || negb (streq (md_nonce metadata) (sl_nonce l)) then mret tt
          else
            r ← call removeLock;
            match r with
            | Ok _ | Err ErrNotExist => mret tt
            | Err e => throw (EIO e)
            end
      end
  end.
Definition Close (l : startLock) : M unit := withStartGuard defaultTimeout (closeLocked l).
End operations.

(** ** The processes of a machine

    One guarded operation at a time: [s_held] are the locks that [acquire] gave to
    processes that run and have not closed them. *)
Record system := mkSystem { s_file : option lockFile; s_running : list Z; s_held : list startLock }.

Section system.
Context `{UnicodeTables}.

(** What a process is told: its own pid, and that no running process is dead. *)
Definition sees (sys : system) (o : oracle) : Prop :=
  o_pid o ∈ s_running sys /\ forall p, p ∈ s_running sys -> o_alive o p = true.
Definition begin (sys : system) (t : Z) : state := mkState (s_file sys) [] 0 t.
Definition kill (pid : Z) (sys : system) : system :=
  mkSystem (s_file sys) (filter (fun p => p <> pid) (s_running sys))
    (filter (fun l => sl_pid l <> pid) (s_held sys)).
Definition set_file (f : option lockFile) (sys : system) : system :=
  mkSystem f (s_running sys) (s_held sys).
Definition acquired (r : result lockError (option startLock * bool)) (released : bool) : list startLock :=
  match r with Ok (Some l, _) => if released then [l] else [] | _ => [] end.

Inductive sstep (sys : system) : system -> Prop :=
  (* an operation of [acquire]; the guard is released without an error, or not *)
  | s_acquire o t r s' released :
      sees sys o -> acquireStartLockLocked o (begin sys t) = (r, s') ->
      sstep sys (mkSystem (file s') (s_running sys) (acquired r released ++ s_held sys))
  | s_close o t l r s' :
      sees sys o -> l ∈ s_held sys -> sl_pid l = o_pid o ->
      closeLocked o l (begin sys t) = (r, s') ->
      sstep sys (mkSystem (file s') (s_running sys) (filter (fun k => k <> l) (s_held sys)))
  (* [Close] does not get the guard *)
  | s_close_fails l :
      l ∈ s_held sys -> sstep sys (mkSystem (s_file sys) (s_running sys) (filter (fun k => k <> l) (s_held sys)))
  (* the process dies in the middle *)
  | s_acquire_dies o t r s' f :
      sees sys o -> acquireStartLockLocked o (begin sys t) = (r, s') -> f ∈ file s' :: past s' ->
      sstep sys (kill (o_pid o) (set_file f sys))
  | s_close_dies o t l r s' f :
      sees sys o -> l ∈ s_held sys -> sl_pid l = o_pid o ->
      closeLocked o l (begin sys t) = (r, s') -> f ∈ file s' :: past s' ->
      sstep sys (kill (o_pid o) (set_file f sys))
  | s_exit pid : sstep sys (kill pid sys)
  | s_start pid :
      pid ∉ s_running sys -> 1 <= pid <= startLockMaxPID ->
      sstep sys (mkSystem (s_file sys) (pid :: s_running sys) (s_held sys)).
(** From any file that an earlier run left. *)
Definition sreachable (sys : system) : Prop := exists f, rtc sstep (mkSystem f [] []) sys.
End system.
