(* ===== verification/StartLockFacts.v ===== *)
(** What the start lock guarantees: the text of the lock is read back, at most one
    running process holds the lock whatever fails or dies, the lock of a dead owner
    is replaced, and waiting for it ends. *)
From S2P Require Import Prelude GoStrings GoStringFacts GoNum StartLock.

Local Open Scope go_scope.
Local Open Scope Z_scope.

(** ** The text of the lock *)
Section text.
Context `{UnicodeTables}.

Lemma validStartLockNonce_iff n :
  validStartLockNonce n = true <-> exists b, length b = 16%nat /\ n = hexEncode b.
Proof.
  unfold validStartLockNonce, startLockNonceBytes. split.
  - intros Hn. case_match eqn:E; [done|]. apply orb_false_iff in E as [_ Hl].
    apply negb_false_iff, streq_true in Hl. case_match eqn:Hb; [|done]. bool_to_prop.
    exists l. split; [done|]. symmetry. by apply hexEncode_lower_hex.
  - intros (b & Hl & ->). rewrite length_hexEncode, Hl, hexEncode_lower, streq_refl, hexDecode_hexEncode.
    cbn. by rewrite Hl.
Qed.
Lemma notin_false c s : memByte c s = false -> c ∉ s.
Proof. intros Hm Hin. apply memByte_iff in Hin. congruence. Qed.
Lemma nonce_notin b c : unhex c = None -> c ∉ hexEncode b.
Proof.
  intros Hc Hin. enough (is_Some (unhex c)) as [? ?] by congruence. clear Hc. revert Hin.
  induction b as [|x b IH]; [by intros ?%not_elem_of_nil|].
  change (hexEncode (x :: b)) with (hexDigit (bz x / 16) :: hexDigit (bz x mod 16) :: hexEncode b).
  pose proof (bz_range x). rewrite !elem_of_cons. intros [->|[->|?]]; [..|by apply IH];
    rewrite unhex_hexDigit by dlia; eauto.
Qed.
Lemma digits_runes n : 0 <= n ->
  existsb (fun '(_, digit) => (digit <? 48) || (57 <? digit)) (runes (digits n)) = false.
Proof.
  intros Hn. destruct (digits_spec n) as (_ & Hd & _); [done|].
  assert (Hdig : forall c, In c (digits n) -> 48 <= bz c <= 57).
  { intros c Hc. rewrite forallb_forall in Hd. by apply digit_bounds, Hd. }
  assert (Hmap : map snd (runes (digits n)) = map bz (digits n)).
  { apply runes_utf8, isASCII_utf8. unfold isASCII, RuneSelf. apply forallb_forall.
    intros c Hc%Hdig. apply Z.ltb_lt. lia. }
  apply not_true_iff_false. rewrite existsb_exists. intros ([k r] & Hin & Hr).
  apply (in_map snd) in Hin. change (In r (map snd (runes (digits n)))) in Hin. rewrite Hmap in Hin. apply in_map_iff in Hin as (c & <- & Hc%Hdig).
  cbn in Hr. apply orb_true_iff in Hr as [?%Z.ltb_lt|?%Z.ltb_lt]; lia.
Qed.

Lemma metadata_lines pid n :
  0 <= pid -> LF ∉ n ->
  splitByte (metadata_text pid n) LF = ["version=1"; "pid=" ++ digits pid; "nonce=" ++ n; []]%list.
Proof.
  intros Hpid Hn. assert (Hd : LF ∉ digits pid) by (apply digits_notin; [lia|by vm_compute]).
  assert (Hin : forall p d : gostring, memByte LF p = false -> LF ∉ d -> LF ∉ (p ++ d)%list).
  { intros p d Hp Hd'. rewrite elem_of_app. intros [Hin|?]; [|done]. by apply (notin_false LF p Hp). }
  assert (metadata_text pid n =
    "version=1" ++ LF :: ("pid=" ++ digits pid) ++ LF :: ("nonce=" ++ n) ++ [LF])%list as ->.
  { unfold metadata_text. rewrite (itoa_nonneg pid) by done. reflexivity. }
  rewrite splitByte_app by by apply notin_false.
  rewrite splitByte_app by by apply (Hin "pid=").
  rewrite splitByte_app by by apply (Hin "nonce=").
  done.
Qed.

(** The text a lock is written with is read back as its version, pid and nonce. *)
Theorem metadata_roundtrip pid b :
  1 <= pid <= startLockMaxPID -> length b = 16%nat ->
  parseStartLockMetadata (metadata_text pid (hexEncode b)) = Some (mkMetadata 1 pid (hexEncode b)).
Proof.
  intros Hpid Hb. unfold parseStartLockMetadata.
  rewrite metadata_lines by (lia || by apply nonce_notin; vm_compute).
  rewrite !streq_refl, !hasPrefix_app, !trimPrefix_app. cbn [negb orb]. rewrite digits_runes by lia.
  assert (streq (digits pid) [] = false) as -> by (apply streq_false; apply digits_spec; lia).
  rewrite (proj2 (validStartLockNonce_iff (hexEncode b))) by eauto. cbn [negb orb].
  unfold parseUint, startLockMaxPID in *. rewrite parseDigits_digits by lia. cbn [mbind option_bind]. by decide_cmp.
Qed.

Lemma parseUint_decimal s bits n : parseUint s bits = Some n -> decimal s = n.
Proof.
  unfold parseUint, parseDigits. destruct s as [|c s]; [done|]. destruct (forallb _ _); [|done].
  cbn [mbind option_bind]. case_match; [|done]. by intros [= <-].
Qed.

(** C36: the type of lock metadata.  Whatever the file holds, what is read from it has
    version 1, which its first line says, a pid in the range of all platforms, and a nonce
    that is the lower-case hexadecimal text of 16 bytes and that its third line, the last,
    holds; so the text written for it is read as the same lock. *)
Theorem parsed_metadata_typed body m :
  parseStartLockMetadata body = Some m ->
  md_version m = 1 /\ 1 <= md_pid m <= startLockMaxPID /\
  (exists b, length b = 16%nat /\ md_nonce m = hexEncode b) /\
  (exists pid, decimal pid = md_pid m /\
     body = "version=1" ++ [LF] ++ "pid=" ++ pid ++ [LF] ++ "nonce=" ++ md_nonce m ++ [LF]) /\
  parseStartLockMetadata (metadata_text (md_pid m) (md_nonce m)) = Some m.
Proof.
  intros Hp. enough (md_version m = 1 /\ 1 <= md_pid m <= startLockMaxPID /\
    (exists b, length b = 16%nat /\ md_nonce m = hexEncode b) /\
    (exists pid, decimal pid = md_pid m /\
       body = "version=1" ++ [LF] ++ "pid=" ++ pid ++ [LF] ++ "nonce=" ++ md_nonce m ++ [LF])) as (Hv & Hpid & (b & Hb & Hn) & Hbody).
  { do 4 (split; [by eauto|]). rewrite Hn, metadata_roundtrip by done. destruct m; cbn in *. by subst. }
  unfold parseStartLockMetadata in Hp. pose proof (join_splitByte body LF) as Hjoin.
  destruct (splitByte body LF) as [|l0 [|l1 [|l2 [|l3 [|]]]]]; try done.
  early_returns Hp. injection Hp as <-. cbn [md_version md_pid md_nonce].
  repeat match goal with H : _ || _ = false |- _ => apply orb_false_iff in H as [? ?] end.
  bool_to_prop. split; [done|].
  match goal with Hz : parseUint _ _ = Some _ |- _ => pose proof (parseUint_decimal _ _ _ Hz); apply parseUint_bounds in Hz end.
  split; [lia|]. split; [by apply validStartLockNonce_iff|].
  match goal with H1 : hasPrefix l1 _ = true, H2 : hasPrefix l2 _ = true |- _ =>
    apply hasPrefix_iff in H1 as [pid ->]; apply hasPrefix_iff in H2 as [nonce ->] end.
  rewrite !trimPrefix_app in *. exists pid. split; [done|].
  repeat match goal with H : streq _ _ = true |- _ => apply streq_true in H; subst end.
  cbn [join]. by rewrite <- !app_assoc.
Qed.
End text.

(** ** Runs of a guarded operation *)
Section runs.
Context `{UnicodeTables} (o : oracle).

Definition after (f : option lockFile) (s : state) : state :=
  mkState f (file s :: past s) (S (tick s)) (time s + Z.of_N (o_lag o (tick s))).
Lemma wp_call_or {A} (broken f : fcall A) Q s :
  (o_fails o (tick s) = true ->
   let '(r, g) := broken (time s + Z.of_N (o_lag o (tick s))) (file s) in Q (Ok r) (after g s)) ->
  (o_fails o (tick s) = false ->
   let '(r, g) := f (time s + Z.of_N (o_lag o (tick s))) (file s) in Q (Ok r) (after g s)) ->
  wp (call_or o broken f) Q s.
Proof.
  unfold wp, call_or. intros H1 H2. destruct (o_fails o (tick s)).
  - specialize (H1 eq_refl). by destruct (broken _ _).
  - specialize (H2 eq_refl). by destruct (f _ _).
Qed.
Lemma wp_call {A} (f : fcall A) Q s :
  Q (Ok (Err ErrSys)) (after (file s) s) ->
  (let '(r, g) := f (time s + Z.of_N (o_lag o (tick s))) (file s) in Q (Ok r) (after g s)) ->
  wp (call o f) Q s.
Proof. intros. by apply wp_call_or. Qed.

(** The file is [f] and was nothing else. *)
Definition steady (f : option lockFile) (s : state) : Prop := file s = f /\ Forall (eq f) (past s).
Lemma steady_after f s : steady f s -> steady f (after f s).
Proof. intros [<- ?]. split; [done|]. by constructor. Qed.
(** The file names an owner that is alive. *)
Definition owned_by_living (f : option lockFile) : Prop :=
  exists lf m, f = Some lf /\ parseStartLockMetadata (lf_body lf) = Some m /\ o_alive o (md_pid m) = true.

Lemma wp_call_steady {A} (f : fcall A) g Q s r :
  steady g s -> (forall t, f t g = (r, g)) ->
  (forall s', steady g s' -> Q (Ok (Err ErrSys)) s') -> (forall s', steady g s' -> Q (Ok r) s') ->
  wp (call o f) Q s.
Proof.
  intros Hs Hf H1 H2. pose proof (steady_after g s Hs) as Ha. pose proof (proj1 Hs) as Hg.
  apply wp_call; rewrite Hg; [by apply H1|]. rewrite Hf. by apply H2.
Qed.
Lemma wp_now_steady g Q s : steady g s -> (forall t s', steady g s' -> Q (Ok t) s') -> wp (now o) Q s.
Proof. intros Hs HQ. apply HQ. exact Hs. Qed.

(** A lock with a living owner is neither taken nor touched. *)
Lemma acquire_blocked f s :
  owned_by_living f -> steady f s ->
  wp (acquireStartLockLocked o) (fun r s => (forall l b, r <> Ok (Some l, b)) /\ steady f s) s.
Proof.
  intros (lf & m & -> & Hm & Ha) Hs. unfold acquireStartLockLocked.
  apply wp_bind, (wp_call_steady _ (Some lf) _ _ (Err ErrExist)); [done..|by intros|]. clear s Hs.
  intros s Hs. apply wp_bind, (wp_now_steady (Some lf)); [done|]. clear s Hs. intros t s Hs.
  apply wp_bind. unfold reclaimStartLockLocked.
  apply wp_bind, (wp_call_steady _ (Some lf) _ _ (Ok (lf_mtime lf))); [done..|by intros|]. clear s Hs. intros s Hs.
  apply wp_bind, (wp_call_steady _ (Some lf) _ _ (Ok (lf_body lf))); [done..|by intros|]. clear s Hs. intros s Hs.
  destruct (length (lf_body lf) =? 0)%nat eqn:Hlen.
  { bool_to_prop. apply nil_length_inv in Hlen. by rewrite Hlen in Hm. }
  by rewrite Hm, Ha.
Qed.

(** What a new owner leaves in the file. *)
Definition has (b : gostring) (f : option lockFile) : Prop := exists t, f = Some (mkLockFile b t).
Definition written (l : startLock) (f : option lockFile) : Prop :=
  sl_pid l = o_pid o /\ validStartLockNonce (sl_nonce l) = true /\
  has (metadata_text (sl_pid l) (sl_nonce l)) f.
Lemma must_nop Q s :
  (forall e s', file s' = file s -> Q (Err e) s') ->
  (forall s', file s' = file s -> Q (Ok tt) s') -> wp (must o nop) Q s.
Proof. intros H1 H2. apply wp_bind, wp_call; [by apply H1|by apply H2]. Qed.
Lemma wp_call_any {A} (f : fcall A) Q s : (forall r s', Q (Ok r) s') -> wp (call o f) Q s.
Proof. intros HQ. apply wp_call; [apply HQ|]. destruct (f _ _) as [r g]. apply (HQ r). Qed.
Lemma wp_ignore f (Q : result lockError unit -> state -> Prop) s : (forall s', Q (Ok tt) s') -> wp (ignore o f) Q s.
Proof. intros HQ. apply wp_bind, wp_call_any. intros r s2. apply HQ. Qed.
Lemma must_write b s :
  is_Some (file s) -> wp (must o (writeBody b)) (fun r s => is_Some (file s)) s.
Proof. intros [lf Hf]. apply wp_bind, wp_call; rewrite Hf; by eexists. Qed.
Lemma partial_write b s :
  is_Some (file s) -> wp (partialWrite o b) (fun r s => r = Ok tt -> has b (file s)) s.
Proof.
  intros [lf Hf]. unfold partialWrite. change (wp ?m ?Q s) with (wp (m s)) || idtac.
  unfold wp. cbv beta. change (wp (r ← call_or o (fun t f => (Err ErrSys, snd (writeBody (take (o_short o (tick s)) b) t f)))
    (writeBody b); match r with Ok _ => mret tt | Err e => throw (EIO e) end)
    (fun r s => r = Ok tt -> has b (file s)) s).
  apply wp_bind, wp_call_or; intros _; rewrite Hf; cbn; [done|]. intros _. by eexists.
Qed.
Lemma write_metadata_spec pid n s :
  is_Some (file s) ->
  wp (writeStartLockMetadata o pid n) (fun r s => r = Ok tt -> has (metadata_text pid n) (file s)) s.
Proof.
  intros Hf. unfold writeStartLockMetadata.
  apply wp_bind, must_nop; [done|]. intros s1 H1. rewrite <- H1 in Hf.
  apply wp_bind. eapply wp_mono; [by apply must_write|]. intros [[]|e] s2 H2; [|done].
  apply wp_bind. eapply wp_mono; [by apply partial_write|]. intros [[]|e] s3 H3; [|done].
  apply must_nop; [done|]. intros s4 H4 _. rewrite H4. by apply H3.
Qed.
Lemma finish_spec s :
  is_Some (file s) ->
  wp (finishStartLockCreate o) (fun r s => forall l, r = Ok l -> written l (file s)) s.
Proof.
  intros Hf. unfold finishStartLockCreate.
  assert (Hquit : forall e, wp (_ ← ignore o nop; _ ← ignore o removeLock; throw e)
    (fun r s => forall l, r = Ok l -> written l (file s)) s).
  { intros e. apply wp_bind, wp_ignore. intros s1. by apply wp_bind, wp_ignore. }
  destruct (o_nonce o) as [n|e]; [|apply Hquit].
  destruct (validStartLockNonce n) eqn:Hn; [cbn [negb]|apply Hquit].
  apply wp_bind. pose proof (write_metadata_spec (o_pid o) n s Hf) as Hw. unfold wp, attempt in *.
  destruct (writeStartLockMetadata o (o_pid o) n s) as [[[]|e] s1]; cbn [fst snd] in *.
  2:{ change (wp (closeErr ← call o nop; removeErr ← call o removeLock;
        throw (EJoin (e :: join_err EIO closeErr ++ join_err EIO removeErr)))
        (fun r s => forall l : startLock, r = Ok l -> written l (file s)) s1).
      apply wp_bind, wp_call_any. intros r s2. by apply wp_bind, wp_call_any. }
  specialize (Hw eq_refl). change (wp (_ ← must o nop; mret (mkStartLock (o_pid o) n))
    (fun r s => forall l, r = Ok l -> written l (file s)) s1).
  apply wp_bind, must_nop; [done|]. intros s2 H2. apply wp_ret. intros l [= <-]. rewrite H2. done.
Qed.
Lemma acquire_taken s :
  wp (acquireStartLockLocked o) (fun r s => forall l b, r = Ok (Some l, b) -> written l (file s)) s.
Proof.
  assert (Hfin : forall s, is_Some (file s) ->
    wp (owner ← finishStartLockCreate o; mret (Some owner, false))
       (fun r s => forall l b, r = Ok (Some l, b) -> written l (file s)) s).
  { intros s0 Hf. apply wp_bind. eapply wp_mono; [by apply finish_spec|]. intros [l|e] s1 H1; [|done].
    apply wp_ret. intros k b [= -> <-]. by apply H1. }
  unfold acquireStartLockLocked. apply wp_bind, wp_call; [done|].
  destruct (file s) as [lf|] eqn:Hf; cbn match; [|apply Hfin; by eexists].
  apply wp_bind. eapply (wp_mono _ (fun _ _ => True)); [done|]. intros [t|e] s1 _; [|done].
  apply wp_bind. eapply (wp_mono _ (fun _ _ => True)); [done|]. intros [[]|e] s2 _; [|done..].
  apply wp_bind, wp_call; [done|]. destruct (file s2) as [lf2|]; [done|]. apply Hfin. by eexists.
Qed.

(** Closing. *)
Lemma written_parses l f : 
  written l f -> 1 <= o_pid o <= startLockMaxPID -> 
  exists lf m, f = Some lf /\ parseStartLockMetadata (lf_body lf) = Some m /\
    md_pid m = sl_pid l /\ md_nonce m = sl_nonce l.
Proof.
  intros (Hp & Hn & t & ->) Hpid. apply validStartLockNonce_iff in Hn as (b & Hb & Hn).
  eexists _, _. split; [done|]. cbn [lf_body]. rewrite Hn, Hp, metadata_roundtrip by done. done.
Qed.
End runs.

(** ** The machine *)
Section machine.
Context `{UnicodeTables}.

(** The file names [l]. *)
Definition names (f : option lockFile) (l : startLock) : Prop :=
  exists lf m, f = Some lf /\ parseStartLockMetadata (lf_body lf) = Some m /\
    md_pid m = sl_pid l /\ md_nonce m = sl_nonce l.
Record sinv (sys : system) : Prop := {
  si_pids p : p ∈ s_running sys -> 1 <= p <= startLockMaxPID;
  si_one : s_held sys = [] \/ exists l, s_held sys = [l] /\ sl_pid l ∈ s_running sys /\ names (s_file sys) l;
}.
Lemma sinv_empty f ps : (forall p, p ∈ ps -> 1 <= p <= startLockMaxPID) -> sinv (mkSystem f ps []).
Proof. intros Hp. constructor; [done|by left]. Qed.
Lemma filter_running sys pid p :
  sinv sys -> p ∈ filter (fun p => p <> pid) (s_running sys) -> 1 <= p <= startLockMaxPID.
Proof. intros Hi [_ Hp]%list_elem_of_filter. by apply (si_pids _ Hi). Qed.
(** A process dies and leaves the file as it was for all other owners. *)
Lemma sinv_kill sys pid f :
  sinv sys -> (forall l, s_held sys = [l] -> sl_pid l <> pid -> f = s_file sys) ->
  sinv (kill pid (set_file f sys)).
Proof.
  intros Hi Hf. constructor; cbn; [intros p; by apply filter_running|].
  destruct (si_one _ Hi) as [->|(l & Hl & Hr & Hn)]; [by left|]. rewrite Hl, filter_cons.
  case_decide as Hp; [right|by left]. exists l. rewrite (Hf l Hl Hp). split_and!; [done| |done].
  by apply list_elem_of_filter.
Qed.
(** An operation of [acquire] while somebody holds the lock. *)
Lemma held_blocked sys o t l :
  sinv sys -> sees sys o -> s_held sys = [l] ->
  forall r s', acquireStartLockLocked o (begin sys t) = (r, s') ->
  (forall b, acquired r b = []) /\ file s' = s_file sys /\ forall f, f ∈ past s' -> f = s_file sys.
Proof.
  intros Hi [_ Ha] Hl r s' Hr. destruct (si_one _ Hi) as [E|(l' & E & Hrun & lf & m & Hf & Hm & Hp & _)];
    rewrite Hl in E; [done|injection E as <-].
  pose proof (wp_elim _ _ _ _ _ (acquire_blocked o (s_file sys) (begin sys t)
    ltac:(exists lf, m; rewrite Hp; auto) ltac:(done)) Hr) as (Hno & Hfile & Hpast).
  split_and!; [|done|].
  - intros b. destruct r as [[[k|] c]|e]; try done. by destruct (Hno k c).
  - intros f Hin. symmetry. rewrite Forall_forall in Hpast. by apply Hpast.
Qed.
Lemma sinv_step sys sys' : sinv sys -> sstep sys sys' -> sinv sys'.
Proof.
  intros Hi Hs. destruct Hs as [o t r s' rel Hsee Hr|o t l r s' Hsee Hin Hp Hr|l Hin|o t r s' f Hsee Hr Hf|o t l r s' f Hsee Hin Hp Hr Hf|pid|pid Hnew Hpid].
  all: pose proof (si_one _ Hi) as Hone.
  - destruct Hone as [E|(l & E & Hrun & Hn)].
    + rewrite E, app_nil_r. destruct r as [[[l|] b]|e]; cbn; try (apply sinv_empty, Hi).
      destruct rel; [|apply sinv_empty, Hi]. constructor; [apply Hi|]. right. exists l.
      pose proof (wp_elim _ _ _ _ _ (acquire_taken o (begin sys t)) Hr l b eq_refl) as Hw.
      destruct Hsee as [Hself _]. split_and!; [done|by destruct Hw as [-> _]|].
      by apply (written_parses o), Hi.
    + destruct (held_blocked _ _ _ _ Hi Hsee E _ _ Hr) as (-> & -> & _). by destruct sys.
  - destruct Hone as [E|(k & E & Hrun & Hn)]; rewrite E in Hin |- *; [by apply not_elem_of_nil in Hin|].
    apply list_elem_of_singleton in Hin as ->. rewrite filter_cons, decide_False by tauto. apply sinv_empty, Hi.
  - destruct Hone as [E|(k & E & Hrun & Hn)]; rewrite E in Hin |- *; [by apply not_elem_of_nil in Hin|].
    apply list_elem_of_singleton in Hin as ->. rewrite filter_cons, decide_False by tauto. apply sinv_empty, Hi.
  - apply sinv_kill; [done|]. intros l E _. destruct (held_blocked _ _ _ _ Hi Hsee E _ _ Hr) as (_ & Hfile & Hpast).
    apply elem_of_cons in Hf as [->|?]; auto.
  - apply sinv_kill; [done|]. intros k E Hk. rewrite E in Hin. apply list_elem_of_singleton in Hin as ->. done.
  - replace (kill pid sys) with (kill pid (set_file (s_file sys) sys)) by by destruct sys. by apply sinv_kill.
  - constructor; cbn; [intros p [->|?]%elem_of_cons; [done|by apply Hi]|].
    destruct Hone as [->|(l & -> & Hrun & Hn)]; [by left|right]. exists l. split_and!; [done|by right|done].
Qed.
Lemma sinv_reachable sys : sreachable sys -> sinv sys.
Proof.
  intros [f Hr]. apply (rtc_invariant _ _ _ _ sinv_step Hr). apply sinv_empty. by intros p ?%not_elem_of_nil.
Qed.
End machine.
(** ** Waiting ends *)
Section waiting.
Context `{UnicodeTables} (o : oracle).

(** The clock does not run backwards. *)
Definition mono {A} (m : M A) : Prop := forall s, time s <= time (snd (m s)).
Lemma mono_bind {A B} (m : M A) (f : A -> M B) : mono m -> (forall a, mono (f a)) -> mono (m ≫= f).
Proof.
  intros Hm Hf s. specialize (Hm s). unfold mbind, eff_bind. destruct (m s) as [[a|e] s1]; cbn in *; [|done].
  specialize (Hf a s1). lia.
Qed.
Lemma mono_ret {A} (a : A) : mono (mret a).
Proof. intros s. cbn. lia. Qed.
Lemma mono_throw {A} e : mono (A := A) (throw e).
Proof. intros s. cbn. lia. Qed.
Lemma mono_call_or {A} (g f : fcall A) : mono (call_or o g f).
Proof. intros s. unfold call_or. destruct (_ _ _) as [r h]. cbn. lia. Qed.
Lemma mono_now : mono (now o).
Proof. intros s. cbn. lia. Qed.
Lemma mono_try : mono (tryLock o).
Proof. intros s. cbn. lia. Qed.
Lemma mono_sleep d : mono (sleep o d).
Proof. intros s. cbn. lia. Qed.
Lemma mono_attempt {A} (m : M A) : mono m -> mono (attempt m).
Proof. intros Hm s. specialize (Hm s). unfold attempt. by destruct (m s). Qed.
Lemma mono_partial b : mono (partialWrite o b).
Proof.
  intros s. unfold partialWrite. match goal with |- _ <= time (snd (?m s)) => enough (mono m) as Hm by apply Hm end.
  apply mono_bind; [apply mono_call_or|intros []]; [apply mono_ret|apply mono_throw].
Qed.
Ltac mono_tac := repeat first
  [ apply mono_partial | apply mono_bind; [|intros ?] | apply mono_ret | apply mono_throw | apply mono_call_or | apply mono_now
  | apply mono_try | apply mono_sleep | apply mono_attempt | case_match ].
Lemma mono_finish : mono (finishStartLockCreate o).
Proof. unfold finishStartLockCreate, writeStartLockMetadata, must, ignore, call. mono_tac. Qed.
Lemma mono_acquire : mono (acquireStartLockLocked o).
Proof. pose proof mono_finish. unfold acquireStartLockLocked, reclaimStartLockLocked, call. mono_tac; done. Qed.
Lemma mono_guard_loop fuel d : mono (guard_loop o fuel d).
Proof. induction fuel as [|fuel IH]; cbn [guard_loop]; mono_tac; done. Qed.
Lemma mono_guard {A} t (m : M A) : mono m -> mono (withStartGuard o t m).
Proof.
  intros Hm. unfold withStartGuard, call. apply mono_bind; [mono_tac|]. intros [[]|]; [|mono_tac].
  apply mono_bind; [mono_tac|]. intros t0. apply mono_bind; [apply mono_guard_loop|intros ?]. mono_tac; done.
Qed.

(** A loop whose rounds each spend the polling interval or reach the deadline. *)
Definition rounds_left (deadline t : Z) : nat :=
  if deadline <=? t then 1 else rounds (deadline - t).
Lemma rounds_left_step deadline t0 t t' :
  t0 <= t -> t < deadline ->
  t + Z.max (if deadline - t <? startLockPollInterval then deadline - t else startLockPollInterval) 0 <= t' ->
  (rounds_left deadline t' < rounds_left deadline t0)%nat.
Proof.
  unfold rounds_left, rounds, startLockPollInterval. intros H1 H2 H3.
  destruct (deadline <=? t0) eqn:E0; bool_to_prop; [lia|]. destruct (deadline <=? t') eqn:E1; bool_to_prop; [lia|].
  destruct (_ <? _) eqn:E2; bool_to_prop; [lia|]. 
  enough ((deadline - t') / (150 * 10 ^ 6) < (deadline - t0) / (150 * 10 ^ 6)) as Hlt.
  { pose proof (Z.div_pos (deadline - t') (150 * 10 ^ 6)). lia. }
  dlia.
Qed.
Lemma guard_loop_fuel fuel deadline s :
  (rounds_left deadline (time s) <= fuel)%nat -> fst (guard_loop o fuel deadline s) <> Err EFuel.
Proof.
  revert s. induction fuel as [|fuel IH]; intros s Hf.
  { unfold rounds_left, rounds in Hf. case_match; lia. }
  cbn [guard_loop]. unfold mbind at 1, eff_bind at 1. unfold tryLock at 1.
  destruct (o_try o (tick s)) as [[]|e]; [done| |done].
  set (t1 := time s + _). set (s1 := mkState _ _ _ _). unfold mbind at 1, eff_bind at 1, now at 1.
  set (t2 := time s1 + _). set (s2 := mkState _ _ _ _).
  destruct (t2 <? deadline) eqn:E; [|done]. cbn [negb]. bool_to_prop.
  unfold mbind at 1, eff_bind at 1, now at 1. set (t3 := time s2 + _). set (s3 := mkState _ _ _ _).
  unfold mbind at 1, eff_bind at 1, sleep at 1. set (s4 := mkState _ _ _ _).
  apply IH. enough (rounds_left deadline (time s4) < rounds_left deadline (time s))%nat by lia.
  assert (Hmono : time s <= t1 /\ t1 <= t2 /\ t2 <= t3) by (cbn in *; lia).
  assert (Hs4 : t3 + Z.max (if deadline - t3 <? startLockPollInterval then deadline - t3 else startLockPollInterval) 0 <= time s4)
    by (cbn; lia).
  clearbody t1 t2 t3 s4. destruct (Z.lt_ge_cases t3 deadline).
  - by apply rounds_left_step with t3; [lia|..].
  - unfold rounds_left, rounds. destruct (deadline <=? time s4) eqn:E4; bool_to_prop; [|lia].
    destruct (deadline <=? time s) eqn:E5; bool_to_prop; lia.
Qed.
Lemma call_result {A} (f : fcall A) s : exists r s', call o f s = (Ok r, s').
Proof. unfold call, call_or. destruct (_ _ _). eauto. Qed.
Lemma guard_fuel {A} t (m : M A) s : 0 < t -> fst (withStartGuard o t m s) <> Err EFuel.
Proof.
  intros Ht. unfold withStartGuard. rewrite (proj2 (Z.leb_gt t 0)) by done.
  unfold mbind at 1, eff_bind at 1. destruct (call_result nop s) as ([[]|] & s1 & ->); [|done].
  unfold mbind at 1, eff_bind at 1. destruct (now o s1) as [[t1|] s2] eqn:E1; [|done].
  injection E1 as E1 Es. unfold mbind at 1, eff_bind at 1.
  pose proof (guard_loop_fuel (rounds t) (t1 + t) s2) as Hg.
  destruct (guard_loop o (rounds t) (t1 + t) s2) as [[[]|e] s3].
  - unfold mbind, eff_bind, attempt. destruct (m s3) as [a s4].
    destruct (call_result nop s4) as (u & s5 & ->). destruct (call_result nop s5) as (c & s6 & ->).
    by destruct a, u, c.
  - cbn in *. enough (Err (A := unit) e <> Err EFuel) by congruence. apply Hg. unfold rounds_left. rewrite <- Es, <- E1. cbn.
    replace (_ - _) with t by lia. case_match; unfold rounds in *; lia.
Qed.
Lemma acquire_loop_fuel fuel deadline s :
  (rounds_left deadline (time s) <= fuel)%nat -> fst (acquire_loop o fuel deadline s) <> Err EFuel.
Proof.
  revert s. induction fuel as [|fuel IH]; intros s Hf.
  { unfold rounds_left, rounds in Hf. case_match; lia. }
  cbn [acquire_loop]. unfold mbind at 1, eff_bind at 1, now at 1. set (t1 := time s + _). set (s1 := mkState _ _ _ _).
  destruct (deadline - t1 <=? 0) eqn:E1; [done|]. bool_to_prop.
  unfold mbind at 1, eff_bind at 1.
  pose proof (guard_fuel (deadline - t1) (acquireStartLockLocked o) s1 ltac:(lia)) as Hg.
  pose proof (mono_guard (deadline - t1) _ mono_acquire s1) as Hm.
  destruct (withStartGuard o (deadline - t1) (acquireStartLockLocked o) s1) as [[[[l|] retry]|e] s2]; cbn [fst snd] in *; [done| |congruence].
  destruct retry; [cbn [negb]|done].
  unfold mbind at 1, eff_bind at 1, now at 1. set (t3 := time s2 + _). set (s3 := mkState _ _ _ _).
  destruct (deadline - t3 <=? 0) eqn:E3; [done|]. bool_to_prop.
  unfold mbind at 1, eff_bind at 1, sleep at 1. set (s4 := mkState _ _ _ _).
  apply IH. enough (rounds_left deadline (time s4) < rounds_left deadline (time s))%nat by lia.
  apply rounds_left_step with t3; [cbn in *; lia|lia|cbn; lia].
Qed.

(** What the calls themselves took, from one state to a later one. *)
Fixpoint lags (from n : nat) : Z :=
  match n with O => 0 | S n => Z.of_N (o_lag o from) + lags (S from) n end.
Definition spent (s s' : state) : Z := lags (tick s) (tick s' - tick s).
Lemma lags_app from n m : lags from (n + m) = lags from n + lags (from + n)%nat m.
Proof.
  revert from; induction n as [|n IH]; intros from; cbn [lags Nat.add]; [by rewrite Nat.add_0_r|].
  rewrite IH. replace (S from + n)%nat with (from + S n)%nat by lia. lia.
Qed.
Lemma lags_pos from n : 0 <= lags from n.
Proof. revert from; induction n as [|n IH]; intros from; cbn [lags]; [lia|]. specialize (IH (S from)). lia. Qed.
Lemma spent_trans s1 s2 s3 : (tick s1 <= tick s2)%nat -> (tick s2 <= tick s3)%nat -> spent s1 s3 = spent s1 s2 + spent s2 s3.
Proof.
  intros H1 H2. unfold spent. replace (tick s3 - tick s1)%nat with (tick s2 - tick s1 + (tick s3 - tick s2))%nat by lia.
  rewrite lags_app. by replace (tick s1 + (tick s2 - tick s1))%nat with (tick s2) by lia.
Qed.
Lemma spent_once s s' : tick s' = S (tick s) -> spent s s' = Z.of_N (o_lag o (tick s)).
Proof. intros E. unfold spent. rewrite E. replace (S (tick s) - tick s)%nat with 1%nat by lia. cbn [lags]. lia. Qed.
Lemma spent_none s s' : tick s' = tick s -> spent s s' = 0.
Proof. intros E. unfold spent. by rewrite E, Nat.sub_diag. Qed.

(** From a state at time [t] on, [m] sleeps until [d] at the latest: it ends by then but for
    what its calls take. *)
Definition by_time (s s' : state) (d : Z) : Prop := (tick s <= tick s')%nat /\ time s' <= Z.max (time s) d + spent s s'.
Definition within_at (t d : Z) {A} (m : M A) : Prop := forall s, time s = t -> by_time s (snd (m s)) d.
Definition within (d : Z) {A} (m : M A) : Prop := forall s, by_time s (snd (m s)) d.
Lemma by_time_trans s1 s2 s3 d : by_time s1 s2 d -> by_time s2 s3 d -> by_time s1 s3 d.
Proof. intros [T1 B1] [T2 B2]. split; [lia|]. rewrite (spent_trans s1 s2 s3) by done.
  assert (0 <= spent s1 s2) by apply lags_pos. lia.
Qed.
Lemma within_bind {A B} d (m : M A) (f : A -> M B) : within d m -> (forall a, within d (f a)) -> within d (m ≫= f).
Proof.
  intros Hm Hf s. specialize (Hm s). unfold mbind, eff_bind. destruct (m s) as [[a|e] s1]; cbn in *; [|done].
  eapply by_time_trans; [done|apply Hf].
Qed.
Lemma within_at_bind {A B} t d (m : M A) (f : A -> M B) : within_at t d m -> (forall a, within d (f a)) -> within_at t d (m ≫= f).
Proof.
  intros Hm Hf s Ht. specialize (Hm s Ht). unfold mbind, eff_bind. destruct (m s) as [[a|e] s1]; cbn in *; [|done].
  eapply by_time_trans; [done|apply Hf].
Qed.
Lemma within_now {A} d (f : Z -> M A) : (forall t, within_at t d (f t)) -> within d (t ← now o; f t).
Proof.
  intros Hf s. unfold mbind, eff_bind, now. set (s1 := mkState _ _ _ _).
  eapply (by_time_trans s s1); [|by apply Hf]. split; [cbn; lia|]. rewrite spent_once by done. cbn. lia.
Qed.
Lemma within_any {A} t d (m : M A) : within d m -> within_at t d m.
Proof. intros Hm s _. apply Hm. Qed.
Lemma within_same {A} d (r : result lockError A) : within d (fun s => (r, s)).
Proof. intros s. split; [done|]. cbn. rewrite spent_none by done. lia. Qed.
Lemma within_call_or {A} d (g f : fcall A) : within d (call_or o g f).
Proof.
  intros s. unfold call_or. destruct (_ _ _) as [r h]. split; [cbn; lia|]. cbn [snd]. rewrite spent_once by done. cbn. lia.
Qed.
Lemma within_try d : within d (tryLock o).
Proof. intros s. split; [cbn; lia|]. rewrite spent_once by done. cbn. lia. Qed.
Lemma within_attempt {A} d (m : M A) : within d m -> within d (attempt m).
Proof. intros Hm s. specialize (Hm s). unfold attempt. by destruct (m s). Qed.
Lemma within_partial d b : within d (partialWrite o b).
Proof.
  intros s. unfold partialWrite. match goal with |- by_time s (snd (?m s)) _ => enough (within d m) as Hm by apply Hm end.
  apply within_bind; [apply within_call_or|intros []]; apply within_same.
Qed.
(** A sleep for the polling interval, or for what remains if that is less. *)
Lemma within_sleep t d : within_at t d (sleep o (if d - t <? startLockPollInterval then d - t else startLockPollInterval)).
Proof.
  intros s Ht. split; [cbn; lia|]. rewrite spent_once by done. unfold startLockPollInterval. cbn [time snd sleep].
  destruct (d - t <? 150 * 10 ^ 6) eqn:E; bool_to_prop; lia.
Qed.
Ltac within_tac := repeat first
  [ apply within_partial | apply within_now; intros ?; apply within_any | apply within_bind; [|intros ?] | apply within_same
  | apply within_call_or | apply within_try | apply within_attempt | case_match ].
Lemma within_finish d : within d (finishStartLockCreate o).
Proof. unfold finishStartLockCreate, writeStartLockMetadata, must, ignore, call. within_tac. Qed.
Lemma within_acquire d : within d (acquireStartLockLocked o).
Proof. pose proof (within_finish d). unfold acquireStartLockLocked, reclaimStartLockLocked, call. within_tac; done. Qed.
Lemma within_guard_loop fuel d : within d (guard_loop o fuel d).
Proof.
  induction fuel as [|fuel IH]; cbn [guard_loop]; [apply within_same|].
  apply within_bind; [apply within_try|]. intros [|]; [apply within_same|].
  apply within_now. intros t. apply within_any. case_match; [apply within_same|].
  apply within_now. intros t'. cbv zeta. apply within_at_bind; [apply within_sleep|]. intros _. apply IH.
Qed.
Lemma within_guard {A} t r (m : M A) : 0 < r -> (forall d, within d m) -> within_at t (t + r) (withStartGuard o r m).
Proof.
  intros Hr Hm s Ht. unfold withStartGuard. rewrite (proj2 (Z.leb_gt r 0)) by done.
  pose proof (within_call_or t (fun _ g => (Err ErrSys, g)) nop s) as H1.
  change (call_or o _ nop) with (call o nop) in H1. unfold mbind at 1, eff_bind at 1.
  destruct (call_result nop s) as (r1 & s1 & E1). rewrite E1 in H1 |- *. destruct H1 as [T1 B1]. cbn [snd] in T1, B1.
  destruct r1 as [[]|e]; [|split; [done|cbn; lia]].
  unfold mbind at 1, eff_bind at 1, now at 1. set (s2 := mkState _ _ _ _). set (t0 := time s1 + _) in *.
  assert (H2 : time s2 = t0 /\ (tick s <= tick s2)%nat /\ t0 <= t + spent s s2).
  { split_and!; [done|cbn; lia|]. rewrite (spent_trans s s1 s2) by (done || cbn; lia).
    rewrite (spent_once s1 s2) by done. subst t0. lia. }
  assert (Hrest : within (t0 + r) (_ ← guard_loop o (rounds r) (t0 + r); a ← attempt m; u ← call o nop; c ← call o nop;
            match a, u, c with
            | Ok a, Ok _, Ok _ => mret a
            | _, _, _ => throw (EJoin (join_err id a ++ join_err EIO u ++ join_err EIO c))
            end)).
  { apply within_bind; [apply within_guard_loop|intros _]. apply within_bind; [by apply within_attempt|intros a].
    unfold call. within_tac. }
  destruct (Hrest s2) as [T3 B3]. clear Hrest. destruct H2 as (E2 & T2 & B2).
  split; [by etrans|]. rewrite (spent_trans s s2) by done. lia.
Qed.
Lemma within_acquire_loop fuel d : within d (acquire_loop o fuel d).
Proof.
  induction fuel as [|fuel IH]; cbn [acquire_loop]; [apply within_same|].
  apply within_now. intros t. cbv zeta. destruct (d - t <=? 0) eqn:E; [apply within_any, within_same|]. bool_to_prop.
  apply within_at_bind.
  - pose proof (within_guard t (d - t) (acquireStartLockLocked o) ltac:(lia) within_acquire) as Hg.
    by replace (t + (d - t)) with d in Hg by lia.
  - intros [[l|] retry]; [apply within_same|]. case_match; [apply within_same|].
    apply within_now. intros t'. cbv zeta. case_match; [apply within_any, within_same|].
    apply within_at_bind; [apply within_sleep|]. intros _. apply IH.
Qed.

(** C37: waiting for the lock ends, and in time.  However long other processes keep the guard or
    the lock and whatever fails, the polling loops end by themselves (their fuel, the number
    of intervals in the timeout and two more, is enough), and from the first to the last
    state no more time passes than the timeout and what the calls of the operation take
    themselves. *)
Theorem acquire_terminates timeout s :
  let r := acquireStartLockAtWithNonce o timeout s in
  fst r <> Err EFuel /\
  time (snd r) <= time s + (if timeout <=? 0 then defaultTimeout else timeout) + spent s (snd r).
Proof.
  cbv zeta. unfold acquireStartLockAtWithNonce. set (wait := if timeout <=? 0 then _ else _).
  assert (Hw : 0 < wait) by (subst wait; case_match; bool_to_prop; [done|lia]).
  unfold mbind, eff_bind, now. set (t := time s + _). set (s1 := mkState _ _ _ _). split.
  - apply acquire_loop_fuel. unfold rounds_left. cbn. replace (_ - _) with wait by lia.
    case_match; unfold rounds; lia.
  - destruct (within_acquire_loop (rounds wait) (t + wait) s1) as [T B].
    rewrite (spent_trans s s1) by (done || cbn; lia). rewrite (spent_once s s1) by done.
    change (time s1) with t in B. subst t. lia.
Qed.
End waiting.

(** ** Theorems on the machine *)
Section machine_theorems.
Context `{UnicodeTables}.

Lemma held_owner sys l :
  sinv sys -> l ∈ s_held sys ->
  s_held sys = [l] /\ sl_pid l ∈ s_running sys /\ names (s_file sys) l.
Proof.
  intros Hi Hl. destruct (si_one _ Hi) as [E|(k & E & ? & ?)]; rewrite E in *.
  - by apply not_elem_of_nil in Hl.
  - by apply list_elem_of_singleton in Hl as ->.
Qed.

(** C35: mutual exclusion.  Whatever calls fail and whenever processes die, at most
    one start lock is held; its owner runs, and the file names exactly it. *)
Theorem start_lock_exclusive sys l :
  sreachable sys -> l ∈ s_held sys ->
  s_held sys = [l] /\ sl_pid l ∈ s_running sys /\ names (s_file sys) l.
Proof. intros Hr%sinv_reachable Hl. by apply held_owner. Qed.

(** Closing removes nothing but the own lock: the file is left as it is, or it
    named exactly this owner and is gone; without failing calls it is gone. *)
Theorem close_only_own o l s r s' :
  closeLocked o l s = (r, s') ->
  (file s' = file s \/ names (file s) l /\ file s' = None) /\
  ((forall n, o_fails o n = false) -> names (file s) l -> r = Ok tt /\ file s' = None).
Proof.
  intros Hr. unfold closeLocked in Hr. unfold mbind at 1, eff_bind at 1 in Hr.
  unfold call at 1, call_or at 1 in Hr.
  destruct (o_fails o (tick s)) eqn:Hf; cbn in Hr.
  { injection Hr as <- <-. split; [by left|]. intros H1. congruence. }
  destruct (file s) as [lf|] eqn:E; cbn in Hr.
  2:{ injection Hr as <- <-. split; [by left|]. by intros _ (? & ? & ? & _). }
  destruct (parseStartLockMetadata (lf_body lf)) as [m|] eqn:Em.
  2:{ injection Hr as <- <-. split; [by left|]. intros _ (? & ? & ? & ? & _). by simplify_eq. }
  destruct (negb _ || negb _) eqn:Ek.
  { injection Hr as <- <-. split; [by left|]. intros _ (? & ? & ? & ? & Hp & Hn). simplify_eq.
    apply orb_true_iff in Ek as [Ek|Ek]; apply negb_true_iff in Ek.
    - apply Z.eqb_neq in Ek. congruence.
    - apply streq_false in Ek. congruence. }
  apply orb_false_iff in Ek as [Ep En]. apply negb_false_iff in Ep, En.
  apply Z.eqb_eq in Ep. apply streq_true in En.
  assert (Hnames : names (Some lf) l) by (exists lf, m; auto).
  unfold mbind, eff_bind, call, call_or in Hr. cbn in Hr.
  destruct (o_fails o (S (tick s))) eqn:Hf2; cbn in Hr; injection Hr as <- <-; cbn.
  - split; [by left|]. intros H1. congruence.
  - by split; [right|].
Qed.

(** Without failing calls. *)
Section no_failure.
Context (o : oracle) (Hf : forall n, o_fails o n = false).
Lemma wp_call_or_ok {A} (g f : fcall A) Q s :
  (forall t, let '(r, h) := f t (file s) in Q (Ok r) (after o h s)) -> wp (call_or o g f) Q s.
Proof. intros HQ. apply wp_call_or; [by rewrite Hf|]. intros _. apply HQ. Qed.
Lemma wp_must_ok (f : fcall unit) Q s :
  (forall t g, fst (f t g) = Ok tt) -> (forall s', Q (Ok tt) s') -> wp (must o f) Q s.
Proof.
  intros Hr HQ. apply wp_bind, wp_call_or_ok. intros t. specialize (Hr t (file s)).
  destruct (f t (file s)) as [r h]. cbn in Hr. subst. apply HQ.
Qed.
Lemma wp_partial_ok b Q s : (forall s', Q (Ok tt) s') -> wp (partialWrite o b) Q s.
Proof.
  intros HQ. unfold partialWrite, wp. match goal with |- context [(?m s).1] => change (wp m Q s) end.
  apply wp_bind, wp_call_or_ok. intros t. apply HQ.
Qed.
Lemma finish_ok n s :
  o_nonce o = Ok n -> validStartLockNonce n = true ->
  wp (finishStartLockCreate o) (fun r _ => r = Ok (mkStartLock (o_pid o) n)) s.
Proof.
  intros Hn Hv. unfold finishStartLockCreate. rewrite Hn, Hv. cbn [negb]. apply wp_bind.
  assert (Hw : wp (writeStartLockMetadata o (o_pid o) n) (fun r _ => r = Ok tt) s).
  { apply wp_bind, wp_must_ok; [done|]. intros s1. apply wp_bind, wp_must_ok; [done|]. intros s2.
    apply wp_bind, wp_partial_ok. intros s3. by apply wp_must_ok. }
  unfold wp, attempt in *. destruct (writeStartLockMetadata o (o_pid o) n s) as [r s1]. cbn in Hw. subst r. cbn [fst snd].
  change (wp (_ ← must o nop; mret (mkStartLock (o_pid o) n)) (fun r _ => r = Ok (mkStartLock (o_pid o) n)) s1).
  apply wp_bind. by apply wp_must_ok.
Qed.
Ltac calls := cbn [file after]; cbv beta iota delta [createExcl stat readBody removeLock].
(** A lock that names a dead process is replaced. *)
Lemma dead_owner_replaced n s lf m :
  o_nonce o = Ok n -> validStartLockNonce n = true ->
  file s = Some lf -> parseStartLockMetadata (lf_body lf) = Some m -> o_alive o (md_pid m) = false ->
  wp (acquireStartLockLocked o) (fun r _ => r = Ok (Some (mkStartLock (o_pid o) n), false)) s.
Proof.
  intros Hn Hv Hs Hm Ha. unfold acquireStartLockLocked.
  assert (Hfin : forall s, wp (owner ← finishStartLockCreate o; mret (Some owner, false))
    (fun r _ => r = Ok (Some (mkStartLock (o_pid o) n), false)) s).
  { intros s0. apply wp_bind. eapply wp_mono; [by apply finish_ok|]. by intros r s1 ->. }
  apply wp_bind, wp_call_or_ok. intros t. rewrite Hs. calls. apply wp_bind. unfold now, wp at 1. cbn [fst snd].
  set (s1 := mkState _ _ _ _). assert (H1 : file s1 = Some lf) by done. clearbody s1.
  apply wp_bind. unfold reclaimStartLockLocked. apply wp_bind, wp_call_or_ok. intros t2. rewrite H1. calls.
  apply wp_bind, wp_call_or_ok. intros t3. calls.
  assert (length (lf_body lf) =? 0 = false)%nat as ->.
  { apply Nat.eqb_neq. intros H0%nil_length_inv. by rewrite H0 in Hm. }
  rewrite Hm, Ha. apply wp_bind, wp_call_or_ok. intros t4. calls. apply wp_ret. cbn [negb].
  apply wp_bind, wp_call_or_ok. intros t5. calls. apply Hfin.
Qed.
End no_failure.

(** Liveness after a death.  When the owner of the lock dies, the next process
    that tries gets the lock in a single guarded operation: nothing more is asked
    than that calls do not fail, that the dead pid is reported dead, and a nonce. *)
Theorem abandoned_lock_acquired sys l o b t :
  sreachable sys -> l ∈ s_held sys ->
  let sys' := kill (sl_pid l) sys in
  sees sys' o -> o_alive o (sl_pid l) = false -> (forall n, o_fails o n = false) ->
  o_nonce o = Ok (hexEncode b) -> length b = 16%nat ->
  exists s', acquireStartLockLocked o (begin sys' t) = (Ok (Some (mkStartLock (o_pid o) (hexEncode b)), false), s') /\
    names (file s') (mkStartLock (o_pid o) (hexEncode b)) /\
    sstep sys' (mkSystem (file s') (s_running sys') [mkStartLock (o_pid o) (hexEncode b)]).
Proof.
  intros Hr Hl sys' Hsee Hdead Hf Hn Hb.
  pose proof (sinv_reachable _ Hr) as Hi.
  destruct (held_owner _ _ Hi Hl) as (Hone & _ & lf & m & Hfile & Hm & Hp & _).
  pose proof (dead_owner_replaced o Hf (hexEncode b) (begin sys' t) lf m Hn
    (proj2 (validStartLockNonce_iff _) (ex_intro _ b (conj Hb eq_refl))) Hfile Hm ltac:(by rewrite Hp)) as Hw.
  unfold wp in Hw. destruct (acquireStartLockLocked o (begin sys' t)) as [r s'] eqn:E. cbn in Hw. subst r.
  exists s'. split; [done|]. split.
  - destruct Hsee as [Hself _]. apply (written_parses o).
    + by eapply (wp_elim _ _ _ _ _ (acquire_taken o (begin sys' t)) E).
    + by apply (filter_running sys (sl_pid l)); [|apply Hself].
  - assert (Hheld : s_held sys' = []).
    { cbn. rewrite Hone, filter_cons, decide_False by tauto. done. }
    pose proof (s_acquire sys' o t _ s' true Hsee E) as Hs. rewrite Hheld in Hs. exact Hs.
Qed.
End machine_theorems.

(** ** An example: process 41 has the lock, process 42 waits *)
Module Example_lock.
#[local] Existing Instance latin_tables.
Definition nonce_bytes (z : Z) : list ascii := repeat (zb z) 16.
Definition calm (pid : Z) (alive : Z -> bool) (z : Z) : oracle :=
  mkOracle (fun _ => false) (fun _ => 0%nat) (fun _ => 0%N) (fun _ => Ok true) (fun _ f => f) alive
    (Ok (hexEncode (nonce_bytes z))) pid.
Definition lock41 : startLock := mkStartLock 41 (hexEncode (nonce_bytes 171)).
Definition both : Z -> bool := fun p => (p =? 41) || (p =? 42).
Definition machine : system :=
  mkSystem (Some (mkLockFile (metadata_text 41 (sl_nonce lock41)) 7)) [42; 41] [lock41].
Lemma machine_reachable : sreachable machine.
Proof.
  exists None. eapply rtc_l; [apply (s_start _ 41); [set_solver|unfold startLockMaxPID; lia]|].
  eapply rtc_l; [apply (s_start _ 42); [set_solver|unfold startLockMaxPID; lia]|].
  eapply rtc_l; [|apply rtc_refl].
  destruct (acquireStartLockLocked (calm 41 both 171) (mkState None [] 0 7)) as [r s'] eqn:E.
  assert (Hr : r = Ok (Some lock41, false)) by (by vm_compute in E; injection E as <- _).
  assert (Hf : file s' = s_file machine) by (by vm_compute in E; injection E as _ <-).
  pose proof (s_acquire (mkSystem None [42; 41] []) (calm 41 both 171) 7 r s' true) as Hs.
  rewrite Hr, Hf in Hs. apply Hs; [|by rewrite <- Hr]. split; [set_solver|].
  intros p Hp. cbn in *. unfold both. apply orb_true_iff. rewrite !Z.eqb_eq. set_solver.
Qed.
Lemma lock41_held : lock41 ∈ s_held machine.
Proof. by apply list_elem_of_singleton. Qed.

Lemma start_lock_exclusive_witness : s_held machine = [lock41] /\ names (s_file machine) lock41.
Proof.
  destruct (start_lock_exclusive machine lock41 machine_reachable lock41_held) as (H1 & _ & H3).
  exact (conj H1 H3).
Defined.
Lemma close_only_own_witness : exists s', closeLocked (calm 41 both 171) lock41 (begin machine 8) = (Ok tt, s') /\ file s' = None.
Proof.
  destruct (closeLocked (calm 41 both 171) lock41 (begin machine 8)) as [r s'] eqn:E.
  destruct (proj2 (close_only_own (calm 41 both 171) lock41 (begin machine 8) r s' E) (fun _ => eq_refl)
    (proj2 (proj2 (held_owner machine lock41 (sinv_reachable _ machine_reachable) lock41_held)))) as [-> Hs].
  exact (ex_intro _ s' (conj eq_refl Hs)).
Defined.
Lemma abandoned_lock_acquired_witness :
  exists s', acquireStartLockLocked (calm 42 (fun p => p =? 42) 205) (begin (kill 41 machine) 9)
    = (Ok (Some (mkStartLock 42 (hexEncode (nonce_bytes 205))), false), s').
Proof.
  assert (Hsee : sees (kill 41 machine) (calm 42 (fun p => p =? 42) 205)).
  { split; [by apply list_elem_of_singleton|]. intros p Hp. cbn in Hp. apply list_elem_of_singleton in Hp as ->. done. }
  destruct (abandoned_lock_acquired machine lock41 (calm 42 (fun p => p =? 42) 205) (nonce_bytes 205) 9
    machine_reachable lock41_held Hsee eq_refl (fun _ => eq_refl) eq_refl eq_refl) as (s' & H & _).
  exact (ex_intro _ s' H).
Defined.
Lemma metadata_roundtrip_witness :
  parseStartLockMetadata (metadata_text 41 (hexEncode (nonce_bytes 171))) = Some (mkMetadata 1 41 (sl_nonce lock41)).
Proof. refine (metadata_roundtrip 41 (nonce_bytes 171) _ eq_refl). unfold startLockMaxPID; lia. Defined.
Lemma parsed_metadata_typed_witness :
  exists b, length b = 16%nat /\ sl_nonce lock41 = hexEncode b.
Proof.
  exact (proj1 (proj2 (proj2 (parsed_metadata_typed (metadata_text 41 (sl_nonce lock41)) (mkMetadata 1 41 (sl_nonce lock41))
    ltac:(by vm_compute))))).
Defined.
End Example_lock.
