(* ===== verification/Truncator.v ===== *)
(** The limits of an answer (internal/output/truncator.go): the number of items and
    the size of an envelope, and the cap on rendered text, which keeps the value of
    the continuation whole.

    Indexing and slicing out of range crash in Go ([Panic]); the loops over an index
    have a fuel ([NoFuel] when it runs out, which is proved not to happen). *)
From S2P Require Import Prelude GoStrings GoStringFacts GoNum.

Local Open Scope go_scope.

(** * Definitions *)
Inductive crash := Panic | NoFuel.
Definition C := result crash.
(** [s[i]] and [s[a:b]]. *)
Definition at_ (s : gostring) (i : nat) : C ascii := of_option Panic (s !! i).
Definition slice (s : gostring) (a b : nat) : C gostring :=
  if (a <=? b) && (b <=? length s) then Ok (take (b - a) (drop a s)) else Err Panic.
Definition isWS (c : ascii) : bool := memByte c [SP; LF; CR; TAB].

(** ** Rendered JSON *)

(** The loop of [jsonStringEnd] at offset [i], of which [rest] is left, with [skip]
    bytes of an escape to go. *)
Fixpoint string_end_from (skip i : nat) (rest : gostring) : nat :=
  match rest with
  | [] => i
  | c :: rest' =>
      match skip with
      | S k => string_end_from k (S i) rest'
      | O =>
          if Ascii.eqb c BSLASH then
            match rest' with
            | [] => S i
            | d :: _ =>
                if Ascii.eqb d "u" && (6 <=? length rest) then string_end_from 5 (S i) rest'
                else string_end_from 1 (S i) rest'
            end
          else if Ascii.eqb c QUOTE then S i
          else string_end_from 0 (S i) rest'
      end
  end.
Definition jsonStringEnd (src : gostring) (i : nat) : nat :=
  match drop i src with
  | c :: rest => if Ascii.eqb c QUOTE then string_end_from 0 (S i) rest else i
  | [] => i
  end.
Fixpoint skip_from (i : nat) (rest : gostring) : nat :=
  match rest with c :: rest => if isWS c then skip_from (S i) rest else i | [] => i end.
Definition skipWS (src : gostring) (i : nat) : nat := skip_from i (drop i src).
Definition nextNonWSByte (src : gostring) (i : nat) : C ascii :=
  let i := skipWS src i in if length src <=? i then Ok "000"%char else at_ src i.

Fixpoint container_end (fuel : nat) (src : gostring) (open close : ascii) (depth : Z) (i : nat) : C nat :=
  if length src <=? i then Ok (length src)
  else match fuel with
  | O => Err NoFuel
  | S fuel =>
      c ← at_ src i;
      if Ascii.eqb c QUOTE then container_end fuel src open close depth (jsonStringEnd src i)
      else if Ascii.eqb c open then container_end fuel src open close (depth + 1) (S i)
      else if Ascii.eqb c close then
        if (depth - 1 =? 0)%Z then Ok (S i) else container_end fuel src open close (depth - 1) (S i)
      else container_end fuel src open close depth (S i)
  end.
Definition jsonContainerEnd (src : gostring) (i : nat) : C nat :=
  open ← at_ src i;
  let close := if Ascii.eqb open "[" then "]"%char else "}"%char in
  container_end (length src) src open close 0 i.
(** The end of a number, [true], [false] or [null]. *)
Fixpoint atom_end (j : nat) (rest : gostring) : nat :=
  match rest with
  | c :: rest => if memByte c [","%char; "}"%char; "]"%char; SP; LF; CR; TAB] then j else atom_end (S j) rest
  | [] => j
  end.
Definition jsonValueEnd (src : gostring) (i : nat) : C nat :=
  let i := skipWS src i in
  if length src <=? i then Ok (length src)
  else
    c ← at_ src i;
    if Ascii.eqb c QUOTE then Ok (jsonStringEnd src i)
    else if memByte c "{[" then jsonContainerEnd src i
    else Ok (atom_end i (drop i src)).

Fixpoint json_span (fuel : nat) (src : gostring) (found : option (nat * nat)) (i : nat)
    : C (option (nat * nat)) :=
  if length src <=? i then Ok found
  else match fuel with
  | O => Err NoFuel
  | S fuel =>
      c ← at_ src i;
      if negb (Ascii.eqb c QUOTE) then json_span fuel src found (S i)
      else
        let stringEnd := jsonStringEnd src i in
        if stringEnd <=? i then json_span fuel src found (S i)
        else
          key ← slice src (S i) (stringEnd - 1);
          next ← (if streq key "continuation" then nextNonWSByte src stringEnd else Ok "000"%char);
          found ← (if streq key "continuation" && Ascii.eqb next ":" then
                     let valueStart := skipWS src stringEnd in
                     colon ← (if valueStart <? length src then at_ src valueStart else Ok "000"%char);
                     if Ascii.eqb colon ":" then
                       let valueStart := skipWS src (S valueStart) in
                       e ← jsonValueEnd src valueStart; Ok (Some (i, e))
                     else Ok found
                   else Ok found);
          json_span fuel src found stringEnd
  end.
Definition jsonContinuationSpan (src : gostring) : C (option (nat * nat)) :=
  json_span (length src) src None 0.

(** ** Rendered text *)
Fixpoint line_end (i : nat) (rest : gostring) : nat :=
  match rest with c :: rest => if Ascii.eqb c LF then i else line_end (S i) rest | [] => i end.
(** The lines from [lineStart] that belong to the block that starts at [start]. *)
Fixpoint text_block (fuel : nat) (src : gostring) (start lineStart : nat) : C (nat * nat) :=
  if length src <=? lineStart then Ok (start, length src)
  else match fuel with
  | O => Err NoFuel
  | S fuel =>
      let lineEnd := line_end lineStart (drop lineStart src) in
      stop ← (if lineStart =? start then Ok false
              else if lineEnd =? lineStart then Ok true
              else c ← at_ src lineStart; Ok (negb (memByte c [SP; TAB])));
      if stop : bool then Ok (start, lineStart)
      else if length src <=? lineEnd then Ok (start, length src)
      else text_block fuel src start (S lineEnd)
  end.
Definition text_key : gostring := "continuation:".
Fixpoint text_span (fuel : nat) (src : gostring) (from : nat) : C (option (nat * nat)) :=
  if length src <=? from then Ok None
  else match fuel with
  | O => Err NoFuel
  | S fuel =>
      match index (drop from src) text_key with
      | None => Ok None
      | Some rel =>
          let start := from + rel in
          inside ← (if start =? 0 then Ok false else c ← at_ src (start - 1); Ok (negb (Ascii.eqb c LF)));
          if inside : bool then text_span fuel src (start + length text_key)
          else span ← text_block (S (length src)) src start start; Ok (Some span)
      end
  end.
Definition textContinuationSpan (src : gostring) : C (option (nat * nat)) :=
  text_span (length src) src 0.

Definition continuationSpan (rendered : gostring) : C (option (nat * nat)) :=
  json ← (match trimLeftSet rendered [SP; TAB; CR; LF] with
          | c :: _ => if memByte c "{[" then jsonContinuationSpan rendered else Ok None
          | [] => Ok None
          end);
  match json with Some span => Ok (Some span) | None => textContinuationSpan rendered end.

(** ** The cap *)
Fixpoint cut_back (b : gostring) (cut : nat) : nat :=
  match cut with
  | O => O
  | S k => match b !! cut with Some c => if runeStart c then cut else cut_back b k | None => cut end
  end.
Definition prefixWithin (b : gostring) (budget : Z) : gostring :=
  if (budget <=? 0)%Z || (length b =? 0) then []
  else if (Z.of_nat (length b) <=? budget)%Z then b
  else take (cut_back b (Z.to_nat budget)) b.
Definition cap_marker (n : Z) : gostring :=
  "...[truncated " ++ itoa n ++ " chars; continuation preserved]...".
Definition CapRendered (rendered : gostring) (maxChars : Z) : C gostring :=
  let len s := Z.of_nat (length s) in
  if ((maxChars <=? 0) || (len rendered <=? maxChars))%Z then Ok rendered
  else
    span ← continuationSpan rendered;
    match span with
    | None => Ok (prefixWithin rendered maxChars)
    | Some (start, end_) =>
        block ← slice rendered start end_;
        let marker := cap_marker (len rendered - maxChars) in
        if (maxChars <=? len block + len marker)%Z then Ok (prefixWithin rendered maxChars)
        else
          let budget := (maxChars - len marker - len block)%Z in
          Ok (prefixWithin (take start rendered) budget ++ marker ++ block)
    end.

(** ** The limits of an envelope

    [J] is the rest of the envelope, which the code passes on.  Items that are not
    a slice are one opaque value. *)
Record EnvelopeOmission := mkOmission { om_Reason : gostring; om_ErrorCode : gostring }.
Section envelope.
Context {A J : Type}.

Inductive itemsValue := Slice (l : list A) | Other (v : option A).
Record Envelope := mkEnvelope {
  env_Items : itemsValue;
  env_Omissions : list EnvelopeOmission;
  env_Truncated : bool;
  env_NextHint : option gostring;
  env_Returned : option Z;        (* Diagnostics.Returned, when Diagnostics is set *)
  env_rest : J;
}.
Record QueryOptions := mkOptions { TokenBudget : Z; MaxItems : Z; MaxChars : Z; Offset : Z }.

(** [len(payload)] of [json.Marshal(env)]. *)
Variable payload_len : Envelope -> Z.

Definition items_len (v : itemsValue) : option Z :=
  match v with Slice l => Some (Z.of_nat (length l)) | Other _ => None end.
Definition sliceToLimit (l : list A) (limit : Z) : itemsValue :=
  Slice (take (Z.to_nat (if limit <? 0 then 0 else limit)%Z) l).
Definition hasOmissionCode (omissions : list EnvelopeOmission) (code : gostring) : bool :=
  existsb (fun om => streq (om_ErrorCode om) code) omissions.
Definition paginationHint (opts : QueryOptions) : option gostring :=
  if (MaxItems opts <=? 0)%Z then None
  else Some ("rerun with --offset " ++ itoa (wrap64 (Offset opts + MaxItems opts)) ++ " for next page").
Definition orHint (h h' : option gostring) : option gostring := match h with None => h' | _ => h end.

Definition limit_items (opts : QueryOptions) (env : Envelope) : Envelope * bool * Z :=
  match env_Items env with
  | Slice l =>
      let n := Z.of_nat (length l) in
      if ((0 <? MaxItems opts) && (MaxItems opts <? n))%Z then
        let omitted := (n - MaxItems opts)%Z in
        (mkEnvelope (sliceToLimit l (MaxItems opts))
           (env_Omissions env ++
              [mkOmission ("max_items omitted " ++ itoa omitted ++ " item(s)") "max_items"])
           true (orHint (env_NextHint env) (paginationHint opts)) (env_Returned env) (env_rest env),
         true, omitted)
      else (env, false, 0%Z)
  | Other _ => (env, false, 0%Z)
  end.
Definition effective_chars (opts : QueryOptions) : Z :=
  if ((MaxChars opts =? 0) && (0 <? TokenBudget opts))%Z then wrap64 (TokenBudget opts * 4) else MaxChars opts.

(** Nothing is left to drop. *)
Definition oversized (maxChars : Z) (paginated : bool) (omitted : Z) (env : Envelope) : Envelope :=
  let hint := "response exceeded " ++ itoa maxChars
    ++ " chars; raise --token-budget or --max-chars, or use --format compact" in
  mkEnvelope (env_Items env)
    (if (omitted =? 0)%Z
     then env_Omissions env ++
       [mkOmission ("response exceeded " ++ itoa maxChars ++ " chars") "char_budget"]
     else env_Omissions env)
    true (if negb paginated then orHint (env_NextHint env) (Some hint) else env_NextHint env)
    (env_Returned env) (env_rest env).
Definition drop_last (l : list A) (env : Envelope) : Envelope :=
  mkEnvelope (sliceToLimit l (Z.of_nat (length l) - 1))
    (if hasOmissionCode (env_Omissions env) "char_budget" then env_Omissions env
     else env_Omissions env ++ [mkOmission "char budget removed trailing item(s)" "char_budget"])
    true (env_NextHint env) (env_Returned env) (env_rest env).
Fixpoint limit_chars (fuel : nat) (maxChars : Z) (paginated : bool) (omitted : Z) (env : Envelope)
    : C Envelope :=
  match fuel with
  | O => Err NoFuel
  | S fuel =>
      if (payload_len env <=? maxChars)%Z then Ok env
      else
        match env_Items env with
        | Slice l =>
            if length l <=? 1 then Ok (oversized maxChars paginated omitted env)
            else limit_chars fuel maxChars paginated (omitted + 1) (drop_last l env)
        | Other _ => Ok (oversized maxChars paginated omitted env)
        end
  end.
(** The deferred function. *)
Definition set_returned (env : Envelope) : Envelope :=
  mkEnvelope (env_Items env) (env_Omissions env) (env_Truncated env) (env_NextHint env)
    (match env_Returned env, items_len (env_Items env) with Some _, Some n => Some n | r, _ => r end)
    (env_rest env).
Definition ApplyEnvelopeLimits (env : Envelope) (opts : QueryOptions) : C Envelope :=
  let '(env, paginated, omitted) := limit_items opts env in
  let maxChars := effective_chars opts in
  let fuel := match env_Items env with Slice l => S (length l) | Other _ => 1 end in
  env ← (if (maxChars <=? 0)%Z then Ok env else limit_chars fuel maxChars paginated omitted env);
  Ok (set_returned env).
End envelope.
