(* ===== verification/TruncatorFacts.v ===== *)
(** What the limits guarantee: bounds on the answer, no silent omission, no crash on
    well-formed output, and the continuation copied whole. *)
From S2P Require Import Prelude GoStrings GoStringFacts GoNum Truncator.

Local Open Scope go_scope.

(** * Scanning never runs out of fuel, and crashes only on a final quote *)
Lemma at_ok (s : gostring) i : i < length s -> exists c, s !! i = Some c /\ at_ s i = Ok c.
Proof. intros Hi. destruct (lookup_lt_is_Some_2 s i Hi) as [c Hc]. exists c. unfold at_. by rewrite Hc. Qed.
Lemma string_end_step i c rest :
  string_end_from 0 i (c :: rest) =
    if Ascii.eqb c BSLASH then
      match rest with
      | [] => S i
      | d :: _ => string_end_from (if Ascii.eqb d "u" && (5 <=? length rest) then 5 else 1) (S i) rest
      end
    else if Ascii.eqb c QUOTE then S i else string_end_from 0 (S i) rest.
Proof.
  cbn [string_end_from]. destruct rest as [|d rest]; [done|].
  change (6 <=? length (c :: d :: rest)) with (5 <=? length (d :: rest)).
  destruct (Ascii.eqb c BSLASH); [|done]. by destruct (Ascii.eqb d "u" && (5 <=? length (d :: rest))).
Qed.
Lemma string_end_range skip i rest : i <= string_end_from skip i rest <= i + length rest.
Proof.
  revert skip i. induction rest as [|c rest IH]; intros [|k] i; [cbn; lia|cbn; lia| |].
  - rewrite string_end_step. pose proof (fun k => IH k (S i)) as H.
    destruct (Ascii.eqb c BSLASH); [destruct rest as [|d rest]|destruct (Ascii.eqb c QUOTE)];
      cbn [length] in *; try lia.
    + specialize (H (if Ascii.eqb d "u" && (5 <=? S (length rest)) then 5 else 1)). lia.
    + specialize (H 0). lia.
  - cbn [string_end_from length]. specialize (IH k (S i)). lia.
Qed.
Lemma string_end_empty i rest : string_end_from 0 i rest = i -> rest = [].
Proof.
  destruct rest as [|c rest]; [done|]. rewrite string_end_step. intros Hi.
  pose proof (string_end_range 0 (S i) rest). pose proof (string_end_range 1 (S i) rest).
  pose proof (string_end_range 5 (S i) rest). repeat case_match; subst; lia.
Qed.
Lemma string_end_last skip i rest :
  string_end_from skip i rest = i + length rest \/
  exists j, string_end_from skip i rest = S (i + j) /\ rest !! j = Some QUOTE.
Proof.
  revert skip i. induction rest as [|c rest IH]; intros [|k] i; [cbn; lia|cbn; lia| |].
  - assert (Hstep : forall k, string_end_from k (S i) rest = i + length (c :: rest) \/
      exists j, string_end_from k (S i) rest = S (i + j) /\ (c :: rest) !! j = Some QUOTE).
    { intros k. destruct (IH k (S i)) as [->|(j & -> & Hj)]; [left; cbn; lia|right].
      exists (S j). split; [lia|done]. }
    rewrite string_end_step. destruct (Ascii.eqb c BSLASH); [destruct rest as [|d rest]; [left; cbn; lia|apply Hstep]|].
    destruct (Ascii.eqb c QUOTE) eqn:E; [|apply Hstep]. right. exists 0. apply Ascii.eqb_eq in E as ->.
    split; [lia|done].
  - cbn [string_end_from]. destruct (IH k (S i)) as [->|(j & -> & Hj)]; [left; cbn; lia|right].
    exists (S j). split; [lia|done].
Qed.
Lemma jsonStringEnd_quote src i :
  src !! i = Some QUOTE ->
  S i <= jsonStringEnd src i <= length src /\ (jsonStringEnd src i = S i -> S i = length src) /\
  cut_at src (jsonStringEnd src i).
Proof.
  intros Hi. unfold jsonStringEnd. rewrite (drop_S _ _ _ Hi), Ascii.eqb_refl.
  pose proof (lookup_lt_Some _ _ _ Hi).
  pose proof (string_end_range 0 (S i) (drop (S i) src)). rewrite length_drop in *. split_and!; [lia|lia|..].
  - intros E%string_end_empty. apply (f_equal length) in E. rewrite length_drop in E. cbn in E. lia.
  - destruct (string_end_last 0 (S i) (drop (S i) src)) as [->|(j & -> & Hj)].
    + left. rewrite length_drop. lia.
    + right; right. rewrite lookup_drop in Hj. eexists _, _. split; [done|]. split; [exact Hj|by vm_compute].
Qed.
Lemma skip_from_range i rest : i <= skip_from i rest <= i + length rest.
Proof.
  revert i. induction rest as [|c rest IH]; intros i; cbn; [lia|]. specialize (IH (S i)). case_match; lia.
Qed.
Lemma skipWS_range src i : i <= length src -> i <= skipWS src i <= length src.
Proof. intros Hi. unfold skipWS. pose proof (skip_from_range i (drop i src)). rewrite length_drop in *. lia. Qed.
Lemma skipWS_beyond src i : length src <= i -> skipWS src i = i.
Proof. intros Hi. unfold skipWS. by rewrite drop_ge. Qed.

(** The end of a value: a place where no rune is split. *)
Definition ends (src : gostring) (i e : nat) : Prop := i <= e <= length src /\ cut_at src e.
Lemma ends_whole src i : i <= length src -> ends src i (length src).
Proof. intros Hi. split; [lia|by left]. Qed.
Lemma ends_after src i j c : i <= j -> src !! j = Some c -> (bz c < 128)%Z -> ends src i (S j).
Proof.
  intros Hi Hj Hc. pose proof (lookup_lt_Some _ _ _ Hj). split; [lia|]. right; right. eauto.
Qed.
Lemma ends_before src i j c : i <= j -> src !! j = Some c -> (bz c < 128)%Z -> ends src i j.
Proof.
  intros Hi Hj Hc. pose proof (lookup_lt_Some _ _ _ Hj). split; [lia|]. right; left. exists c.
  split; [done|]. unfold runeStart. by decide_cmp.
Qed.
Lemma container_end_ok fuel src open close depth i :
  (bz close < 128)%Z -> length src - i <= fuel -> i <= length src ->
  exists e, container_end fuel src open close depth i = Ok e /\ ends src i e.
Proof.
  intros Hcl. revert depth i. induction fuel as [|fuel IH]; intros depth i Hf Hle; cbn [container_end].
  - assert (length src <=? i = true) as -> by (apply Nat.leb_le; lia). eauto using ends_whole.
  - destruct (length src <=? i) eqn:Hi; [eauto using ends_whole|]. bool_to_prop.
    destruct (at_ok src i) as (c & Hc & ->); [lia|]. cbn [mbind result_bind].
    assert (Hnext : forall d j, i <= j -> j <= length src -> length src - j <= fuel ->
      exists e, container_end fuel src open close d j = Ok e /\ ends src i e).
    { intros d j H1 H2 H3. destruct (IH d j H3 H2) as (e & He & ? & ?). exists e. split; [done|]. split; [lia|done]. }
    destruct (Ascii.eqb c QUOTE) eqn:Eq; [|repeat case_match; try (apply Hnext; lia)].
    + apply Ascii.eqb_eq in Eq as ->. apply jsonStringEnd_quote in Hc. apply Hnext; lia.
    + exists (S i). split; [done|]. apply (ends_after src i i c); [lia|done|].
      match goal with H : Ascii.eqb c close = true |- _ => apply Ascii.eqb_eq in H as -> end. done.
Qed.
Lemma atom_end_ends src i j : i <= j -> j <= length src -> ends src i (atom_end j (drop j src)).
Proof.
  intros Hi Hj. assert (Hr : forall r k, drop k src = r -> j <= k -> k <= length src -> ends src i (atom_end k r));
    [|by eapply Hr].
  intros r. induction r as [|x r IH]; intros k Hk Hjk Hle; cbn [atom_end].
  - apply (f_equal length) in Hk. rewrite length_drop in Hk. cbn in Hk.
    replace k with (length src) by lia. by apply ends_whole; lia.
  - assert (Hx : src !! k = Some x) by (rewrite <- (Nat.add_0_r k), <- lookup_drop, Hk; done).
    pose proof (lookup_lt_Some _ _ _ Hx). destruct (memByte _ _) eqn:Em.
    + apply (ends_before src i k x); [lia|done|]. apply memByte_iff in Em.
      repeat (apply elem_of_cons in Em as [->|Em]; [by vm_compute|]). by apply not_elem_of_nil in Em.
    + apply IH; [|lia|lia]. rewrite (drop_S _ _ _ Hx) in Hk. by injection Hk.
Qed.
Lemma jsonValueEnd_ok src i :
  i <= length src -> exists e, jsonValueEnd src i = Ok e /\ ends src i e.
Proof.
  intros Hle. unfold jsonValueEnd. pose proof (skipWS_range src i Hle). set (j := skipWS src i) in *.
  destruct (length src <=? j) eqn:Hj; [eauto using ends_whole|]. bool_to_prop.
  destruct (at_ok src j) as (c & Hc & Hat); [lia|]. rewrite Hat. cbn [mbind result_bind].
  destruct (Ascii.eqb c QUOTE) eqn:Eq; [|case_match].
  - apply Ascii.eqb_eq in Eq as ->. apply jsonStringEnd_quote in Hc as (? & _ & ?).
    eexists. split; [done|]. split; [lia|done].
  - unfold jsonContainerEnd. rewrite Hat. cbn [mbind result_bind].
    destruct (container_end_ok (length src) src c (if Ascii.eqb c "[" then "]"%char else "}"%char) 0 j)
      as (e & He & ? & ?); [by case_match|lia..|]. exists e. split; [done|]. split; [lia|done].
  - eexists. split; [done|]. apply atom_end_ends; lia.
Qed.

(** The span of the continuation. *)
Definition span_ok (src : gostring) (r : option (nat * nat)) : Prop :=
  match r with Some (a, b) => cut_at src a /\ ends src a b | None => True end.
Definition ends_in_quote (src : gostring) : Prop := exists p, src = p ++ [QUOTE].
Lemma last_quote src i : src !! i = Some QUOTE -> S i = length src -> ends_in_quote src.
Proof.
  intros Hi Hl. exists (take i src). rewrite <- (take_drop i src) at 1. f_equal.
  rewrite (drop_S _ _ _ Hi), drop_ge by lia. done.
Qed.
Lemma json_span_ok fuel src found i :
  length src - i <= fuel -> span_ok src found ->
  (exists r, json_span fuel src found i = Ok r /\ span_ok src r) \/
  (json_span fuel src found i = Err Panic /\ ends_in_quote src).
Proof.
  revert found i. induction fuel as [|fuel IH]; intros found i Hf Hok; cbn [json_span].
  - assert (length src <=? i = true) as -> by (apply Nat.leb_le; lia). eauto.
  - destruct (length src <=? i) eqn:Hi; [eauto|]. bool_to_prop.
    destruct (at_ok src i) as (c & Hc & ->); [lia|]. cbn [mbind result_bind].
    destruct (Ascii.eqb c QUOTE) eqn:Eq; cbn [negb]; [|apply IH; [lia|done]].
    apply Ascii.eqb_eq in Eq as ->. pose proof (jsonStringEnd_quote src i Hc) as (Hr & He & Hcut).
    set (e := jsonStringEnd src i) in *. assert (e <=? i = false) as -> by (apply Nat.leb_gt; lia).
    unfold slice. destruct (S i <=? e - 1) eqn:E1; cbn [andb]; bool_to_prop.
    2:{ right. split; [done|]. eapply last_quote; [done|]. apply He. lia. }
    assert (e - 1 <=? length src = true) as -> by (apply Nat.leb_le; lia). cbn [mbind result_bind].
    set (key := take _ _). destruct (streq key "continuation"); cbn [andb]; [|apply IH; [lia|done]].
    pose proof (skipWS_range src e ltac:(lia)) as Hws.
    assert (Hnext : exists c, nextNonWSByte src e = Ok c).
    { unfold nextNonWSByte. case_match; [eauto|]. bool_to_prop.
      destruct (at_ok src (skipWS src e)) as (x & _ & ->); [lia|]. eauto. }
    destruct Hnext as [nx ->]. cbn [mbind result_bind].
    destruct (Ascii.eqb nx ":"); [|apply IH; [lia|done]].
    destruct (skipWS src e <? length src) eqn:E2; bool_to_prop; [|apply IH; [lia|done]].
    destruct (at_ok src (skipWS src e)) as (x & _ & ->); [lia|]. cbn [mbind result_bind].
    destruct (Ascii.eqb x ":"); [|apply IH; [lia|done]].
    pose proof (skipWS_range src (S (skipWS src e)) ltac:(lia)) as Hws2.
    destruct (jsonValueEnd_ok src (skipWS src (S (skipWS src e)))) as (v & -> & Hv & ?); [lia|].
    cbn [mbind result_bind]. apply IH; [lia|]. split; [|split; [lia|done]].
    apply (ends_before src i i QUOTE); [lia|done|by vm_compute].
Qed.
Lemma line_end_range i rest : i <= line_end i rest <= i + length rest.
Proof.
  revert i. induction rest as [|c rest IH]; intros i; cbn; [lia|]. specialize (IH (S i)). case_match; lia.
Qed.
Lemma line_end_LF src line :
  line <= length src -> line_end line (drop line src) < length src ->
  src !! line_end line (drop line src) = Some LF.
Proof.
  intros Hle. assert (Hr : forall r k, drop k src = r -> k <= length src -> line_end k r < length src ->
    src !! line_end k r = Some LF); [|by apply Hr].
  intros r. induction r as [|x r IH]; intros k Hk Hkl; cbn [line_end].
  - apply (f_equal length) in Hk. rewrite length_drop in Hk. cbn in Hk. lia.
  - assert (Hx : src !! k = Some x) by (rewrite <- (Nat.add_0_r k), <- lookup_drop, Hk; done).
    destruct (Ascii.eqb x LF) eqn:E; [apply Ascii.eqb_eq in E as ->; done|].
    pose proof (lookup_lt_Some _ _ _ Hx). apply IH; [|lia]. rewrite (drop_S _ _ _ Hx) in Hk. by injection Hk.
Qed.
Lemma text_block_ok fuel src start line :
  length src - line <= fuel -> start <= line -> start <= length src -> cut_at src line ->
  exists b, text_block fuel src start line = Ok (start, b) /\ ends src start b.
Proof.
  revert line. induction fuel as [|fuel IH]; intros line Hf Hs Hl Hcut; cbn [text_block].
  - assert (length src <=? line = true) as -> by (apply Nat.leb_le; lia). eauto using ends_whole.
  - destruct (length src <=? line) eqn:Hi; [eauto using ends_whole|]. bool_to_prop.
    pose proof (line_end_range line (drop line src)) as Hr. rewrite length_drop in Hr.
    pose proof (line_end_LF src line) as Hlf. set (le := line_end _ _) in *.
    destruct (at_ok src line) as (c & _ & Hat); [lia|].
    assert (Hgo : exists b, (if length src <=? le then Ok (start, length src)
      else text_block fuel src start (S le)) = Ok (start, b) /\ ends src start b).
    { case_match; [eauto using ends_whole|]. bool_to_prop. apply IH; try lia.
      apply (ends_after src line le LF); [lia|apply Hlf; lia|by vm_compute]. }
    assert (Hstop : exists b, Ok (E := crash) (start, line) = Ok (start, b) /\ ends src start b)
      by (exists line; split; [done|]; split; [lia|done]).
    rewrite Hat. cbn [mbind result_bind].
    destruct (line =? start); cbn [mbind result_bind]; [exact Hgo|].
    destruct (le =? line); cbn [mbind result_bind]; [exact Hstop|].
    by destruct (memByte c [SP; TAB]); cbn [negb].
Qed.
Lemma index_bound s sub i : index s sub = Some i -> i + length sub <= length s.
Proof.
  revert i. induction s as [|c s IH]; intros i; cbn [index].
  - destruct (hasPrefix [] sub) eqn:E; [|done]. intros [= <-]. apply hasPrefix_iff in E as [t Ht].
    apply (f_equal length) in Ht. rewrite length_app in Ht. cbn in *. lia.
  - destruct (hasPrefix (c :: s) sub) eqn:E.
    + intros [= <-]. apply hasPrefix_iff in E as [t Ht]. apply (f_equal length) in Ht. rewrite length_app in Ht. cbn in *. lia.
    + destruct (index s sub) as [k|] eqn:Ei; [|done]. intros [= <-]. specialize (IH k eq_refl). cbn. lia.
Qed.
Lemma index_at s sub i : index s sub = Some i -> forall j c, sub !! j = Some c -> s !! (i + j) = Some c.
Proof.
  revert i. induction s as [|d s IH]; intros i; cbn [index].
  - destruct (hasPrefix [] sub) eqn:E; [|done]. intros [= <-] j c Hj. apply hasPrefix_iff in E as [t Ht].
    by destruct sub.
  - destruct (hasPrefix (d :: s) sub) eqn:E.
    + intros [= <-] j c Hj. apply hasPrefix_iff in E as [t Ht]. rewrite Ht. cbn.
      rewrite lookup_app_l; [done|by eapply lookup_lt_Some].
    + destruct (index s sub) as [k|] eqn:Ei; [|done]. intros [= <-] j c Hj. by apply (IH k).
Qed.
Lemma text_span_ok fuel src from :
  length src - from <= fuel -> exists r, text_span fuel src from = Ok r /\ span_ok src r.
Proof.
  revert from. induction fuel as [|fuel IH]; intros from Hf; cbn [text_span].
  - assert (length src <=? from = true) as -> by (apply Nat.leb_le; lia). by exists None.
  - destruct (length src <=? from) eqn:Hi; [by exists None|]. bool_to_prop.
    destruct (index (drop from src) text_key) as [rel|] eqn:Ei; [|by exists None].
    pose proof (index_at _ _ _ Ei) as Hkey. apply index_bound in Ei. rewrite length_drop in Ei. cbn [length text_key] in Ei.
    set (start := from + rel) in *.
    assert (Hskip : exists r, text_span fuel src (start + length text_key) = Ok r /\ span_ok src r)
      by (apply IH; cbn [length text_key]; lia).
    assert (Hcut : cut_at src start).
    { specialize (Hkey 0 "c"%char eq_refl). rewrite lookup_drop in Hkey.
      apply (ends_before src start start "c"%char); [lia| |by vm_compute].
      by rewrite Nat.add_0_r in Hkey. }
    destruct (text_block_ok (S (length src)) src start start) as (b & Hb & ?); [lia..|done|].
    assert (Hspan : exists r, (span ← text_block (S (length src)) src start start; Ok (E := crash) (Some span)) = Ok r
      /\ span_ok src r) by (rewrite Hb; exists (Some (start, b)); done).
    destruct (start =? 0); cbn [mbind result_bind] in *; [exact Hspan|].
    destruct (at_ok src (start - 1)) as (c & _ & ->); [lia|]. cbn [mbind result_bind].
    destruct (Ascii.eqb c LF); cbn [negb]; [exact Hspan|exact Hskip].
Qed.
Lemma continuationSpan_ok src :
  (exists r, continuationSpan src = Ok r /\ span_ok src r) \/
  (continuationSpan src = Err Panic /\ ends_in_quote src).
Proof.
  unfold continuationSpan. set (trimmed := trimLeftSet _ _).
  assert (Htext : exists r, textContinuationSpan src = Ok r /\ span_ok src r)
    by (apply text_span_ok; lia).
  destruct (json_span_ok (length src) src None 0) as [([span|] & Hj & Hok)|[Hj Hq]]; [lia|done|..];
    destruct trimmed as [|c t]; cbn [mbind result_bind]; eauto;
    destruct (memByte c "{["); cbn [mbind result_bind]; eauto;
    unfold jsonContinuationSpan; rewrite Hj; cbn [mbind result_bind]; eauto.
Qed.

(** * The cap *)
Lemma cut_back_le b n : cut_back b n <= n.
Proof. induction n as [|n IH]; cbn; [done|]. repeat case_match; lia. Qed.
Lemma prefixWithin_prefix b n : exists k, prefixWithin b n = take k b.
Proof.
  unfold prefixWithin. repeat case_match; [by exists 0|by exists (length b); rewrite firstn_all|eauto].
Qed.
Lemma prefixWithin_length b n : (0 <= n)%Z -> (Z.of_nat (length (prefixWithin b n)) <= n)%Z.
Proof.
  intros Hn. unfold prefixWithin. destruct (_ || _) eqn:E; [cbn; lia|]. case_match; bool_to_prop; [done|].
  rewrite length_take. pose proof (cut_back_le b (Z.to_nat n)). lia.
Qed.

Lemma cap_length rendered maxChars out :
  (0 < maxChars)%Z -> CapRendered rendered maxChars = Ok out ->
  (Z.of_nat (length out) <= maxChars)%Z /\ ((Z.of_nat (length rendered) <= maxChars)%Z -> out = rendered).
Proof.
  intros Hm. unfold CapRendered. destruct (_ || _) eqn:E.
  - intros [= <-]. split; [|done]. apply orb_true_iff in E as [?%Z.leb_le|?%Z.leb_le]; lia.
  - apply orb_false_iff in E as [_ E]. bool_to_prop. intros (span & _ & Hs)%bind_ok.
    split; [|lia]. destruct span as [[a b]|].
    + apply bind_ok in Hs as (block & _ & Hs). cbv zeta in Hs. generalize dependent (cap_marker (Z.of_nat (length rendered) - maxChars)).
      intros marker Hs. case_match; injection Hs as <-; [by apply prefixWithin_length; lia|].
      bool_to_prop. rewrite !length_app.
      match goal with |- context [prefixWithin (take a rendered) ?n] =>
        pose proof (prefixWithin_length (take a rendered) n ltac:(lia)) end. lia.
    + injection Hs as <-. by apply prefixWithin_length; lia.
Qed.

(** capping returns a text within the limit, and text that is within the limit as
    it is: the scans end, no index or slice is out of range, with one exception, text
    whose last byte is a quote. *)
Theorem cap_rendered_total rendered maxChars :
  (exists out, CapRendered rendered maxChars = Ok out /\
     ((0 < maxChars)%Z -> (Z.of_nat (length out) <= maxChars)%Z) /\
     ((maxChars <= 0)%Z \/ (Z.of_nat (length rendered) <= maxChars)%Z -> out = rendered)) \/
  CapRendered rendered maxChars = Err Panic /\ ends_in_quote rendered.
Proof.
  assert (Hret : (exists out, CapRendered rendered maxChars = Ok out) \/
    CapRendered rendered maxChars = Err Panic /\ ends_in_quote rendered).
  { unfold CapRendered. case_match; [by left; eexists|].
    destruct (continuationSpan_ok rendered) as [(r & -> & Hok)|[-> ?]]; [|by right].
    left. cbn [mbind result_bind]. destruct r as [[a b]|]; [|by eexists]. destruct Hok as [_ [Hok _]]. unfold slice.
    rewrite !(proj2 (Nat.leb_le _ _)) by lia. cbn [andb mbind result_bind]. case_match; by eexists. }
  destruct Hret as [[out Hout]|?]; [left|by right]. exists out. split_and!; [done|..].
  - intros Hm. by apply (cap_length rendered).
  - intros Hfit. unfold CapRendered in Hout. destruct (_ || _) eqn:E in Hout; [by injection Hout|].
    apply orb_false_iff in E as [?%Z.leb_gt ?%Z.leb_gt]. lia.
Qed.
(** The exception happens. *)
Example cap_rendered_panics : CapRendered ("[log] name: " ++ [QUOTE]) 5 = Err Panic.
Proof. by vm_compute. Qed.
(** * No rune is split *)
Lemma valid_app s t : validString s = true -> validString t = true -> validString (s ++ t) = true.
Proof. intros [rs Hs]%valid_utf8 [us Ht]%valid_utf8. by eapply utf8_valid, utf8_app. Qed.
Lemma valid_split s k : validString s = true -> cut_at s k -> validString (take k s) = true /\ validString (drop k s) = true.
Proof.
  intros [rs Hs]%valid_utf8 Hk. destruct (utf8_split s rs k Hs Hk) as [[? ?] [? ?]]. by split; eapply utf8_valid.
Qed.
Lemma cut_back_cut b n : cut_back b n = 0 \/ cut_at b (cut_back b n).
Proof.
  induction n as [|n IH]; [by left|]. cbn [cut_back]. destruct (b !! S n) as [c|] eqn:Hc.
  - destruct (runeStart c) eqn:Hr; [right|done]. right; left. eauto.
  - right; left. by apply lookup_ge_None.
Qed.
Lemma prefixWithin_valid b n : validString b = true -> validString (prefixWithin b n) = true.
Proof.
  intros Hb. unfold prefixWithin. repeat case_match; [done|done|].
  destruct (cut_back_cut b (Z.to_nat n)) as [->|?]; [done|]. by apply valid_split.
Qed.
Lemma ascii_valid s : isASCII s = true -> validString s = true.
Proof. intros. by eapply utf8_valid, isASCII_utf8. Qed.
Lemma cap_marker_valid n : (0 <= n)%Z -> validString (cap_marker n) = true.
Proof.
  intros Hn. apply ascii_valid. unfold cap_marker, isASCII. rewrite itoa_nonneg by done.
  rewrite !forallb_app. apply andb_true_iff; split; [by vm_compute|]. apply andb_true_iff; split; [|by vm_compute].
  destruct (digits_spec n Hn) as (_ & Hd & _). rewrite forallb_forall in *. intros c Hc%Hd%digit_bounds.
  unfold RuneSelf. apply Z.ltb_lt. lia.
Qed.

(** No rune is split: capping valid UTF-8 gives valid UTF-8, wherever the cuts fall. *)
Theorem cap_rendered_utf8 rendered maxChars out :
  validString rendered = true -> CapRendered rendered maxChars = Ok out -> validString out = true.
Proof.
  intros Hv. unfold CapRendered. destruct (_ || _) eqn:E; [by intros [= <-]|].
  apply orb_false_iff in E as [_ E]. bool_to_prop. intros (span & Hspan & Hs)%bind_ok.
  destruct (continuationSpan_ok rendered) as [(r & Hr & Hok)|[Hr _]]; rewrite Hr in Hspan; [|done].
  injection Hspan as ->. destruct span as [[a b]|]; [|injection Hs as <-; by apply prefixWithin_valid].
  apply bind_ok in Hs as (block & Hb & Hs). destruct Hok as (Ha & [Hab Hcb]).
  assert (Hblock : validString block = true).
  { unfold slice in Hb. destruct ((a <=? b) && (b <=? length rendered)); [|done]. injection Hb as <-.
    destruct (valid_split rendered b Hv Hcb) as [Hpre _]. rewrite take_drop_commute.
    replace (a + (b - a)) with b by lia. apply (valid_split _ a Hpre).
    destruct (decide (a = b)) as [->|Hne]; [left; rewrite length_take; lia|].
    destruct Ha as [Ha|[(c & Hc & Hst)|(j & c & -> & Hc & Has)]]; [lia|right; left|right; right].
    - exists c. rewrite lookup_take_lt by lia. done.
    - exists j, c. rewrite lookup_take_lt by lia. done. }
  destruct (valid_split rendered a Hv Ha) as [Hpre _].
  destruct (_ <=? _)%Z in Hs; injection Hs as <-; [by apply prefixWithin_valid|].
  apply valid_app; [by apply prefixWithin_valid|]. apply valid_app; [|done]. apply cap_marker_valid. lia.
Qed.

(** * The limits of an envelope *)
Section envelope_facts.
Context {A J : Type} (payload_len : @Envelope A J -> Z).
Local Notation Env := (@Envelope A J).
Implicit Types (env : Env).

(** [env'] is [env] with items dropped from the end, and says so. *)
Definition dropped (env env' : Env) : Prop :=
  env_Truncated env' = true /\
  (hasOmissionCode (env_Omissions env') "max_items" = true \/ hasOmissionCode (env_Omissions env') "char_budget" = true).
Record limited (env env' : Env) : Prop := {
  li_items : match env_Items env with
             | Slice l => exists n, env_Items env' = Slice (take n l)
             | Other v => env_Items env' = Other v
             end;
  li_rest : env_rest env' = env_rest env /\ env_Returned env' = env_Returned env;
  li_omissions : exists om, env_Omissions env' = env_Omissions env ++ om;
  li_said : env_Items env' = env_Items env \/ dropped env env';
  li_truncated : env_Truncated env = true -> env_Truncated env' = true;
}.
Lemma limited_refl env : limited env env.
Proof.
  constructor; try done.
  - destruct (env_Items env); [|done]. eexists. by rewrite firstn_all.
  - exists []. by rewrite app_nil_r.
  - by left.
Qed.
Lemma hasOmission_app om om' c : hasOmissionCode (om ++ om') c = hasOmissionCode om c || hasOmissionCode om' c.
Proof. apply existsb_app. Qed.
Lemma limited_trans (a b c : Env) : limited a b -> limited b c -> limited a c.
Proof.
  intros [I1 [R1 R1'] [om1 O1] S1 T1] [I2 [R2 R2'] [om2 O2] S2 T2]. constructor.
  - destruct (env_Items a); [|by rewrite I1 in I2]. destruct I1 as [n I1]. rewrite I1 in I2. destruct I2 as [k I2].
    exists (min k n). by rewrite I2, take_take.
  - split; congruence.
  - exists (om1 ++ om2). by rewrite O2, O1, app_assoc.
  - destruct S2 as [E|[? Hd]]; [|by right]. destruct S1 as [E1|[Ht Hd]]; [left; congruence|right].
    split; [auto|]. rewrite O2, !hasOmission_app. destruct Hd as [->| ->]; auto.
  - auto.
Qed.
Lemma limit_items_limited opts env env' pg om :
  limit_items opts env = (env', pg, om) -> limited env env' /\
  ((0 < MaxItems opts)%Z -> forall l, env_Items env' = Slice l -> (Z.of_nat (length l) <= MaxItems opts)%Z).
Proof.
  unfold limit_items. destruct (env_Items env) as [l|v] eqn:Hi.
  2:{ intros [= <- _ _]. split; [apply limited_refl|]. by rewrite Hi. }
  destruct (_ && _) eqn:E; intros [= <- _ _]; cbn.
  - bool_to_prop. split; [|intros _ l0 [= <-]; case_match; rewrite length_take; bool_to_prop; lia].
    constructor; cbn; [rewrite Hi; by eexists|done|by eexists| |done].
    right. split; [done|]. left. cbn [env_Omissions]. rewrite hasOmission_app. by rewrite orb_true_r.
  - split; [apply limited_refl|]. rewrite Hi. intros Hm l0 [= <-]. apply andb_false_iff in E as [E|E]; bool_to_prop; lia.
Qed.
Lemma oversized_limited m pg om env : limited env (oversized m pg om env) /\ env_Truncated (oversized m pg om env) = true.
Proof.
  split; [|done]. constructor; cbn; try done.
  - destruct (env_Items env); [|done]. eexists. by rewrite firstn_all.
  - case_match; [by eexists|]. exists []. by rewrite app_nil_r.
  - by left.
Qed.
Lemma drop_last_limited l env :
  env_Items env = Slice l -> limited env (drop_last l env) /\ env_Items (drop_last l env) = Slice (take (length l - 1) l).
Proof.
  intros Hi. assert (Hs : env_Items (drop_last l env) = Slice (take (length l - 1) l)).
  { cbn. unfold sliceToLimit. f_equal. f_equal. case_match; bool_to_prop; lia. }
  split; [|done]. constructor; cbn; try done.
  - rewrite Hi. by eexists.
  - case_match; [|by eexists]. exists []. by rewrite app_nil_r.
  - right. split; [done|]. right. cbn [env_Omissions drop_last]. case_match eqn:Hh; [done|]. rewrite hasOmission_app. by rewrite orb_true_r.
Qed.
(** What is left at the end of the loop: it fits, or nothing more can be dropped. *)
Definition fits (maxChars : Z) (env : Env) : Prop :=
  (payload_len env <= maxChars)%Z \/
  env_Truncated env = true /\ match env_Items env with Slice l => length l <= 1 | Other _ => True end.
Lemma limit_chars_ok fuel m pg om env :
  match env_Items env with Slice l => length l < fuel | Other _ => 0 < fuel end ->
  exists env', limit_chars payload_len fuel m pg om env = Ok env' /\ limited env env' /\ fits m env'.
Proof.
  revert om env. induction fuel as [|fuel IH]; intros om env Hf; cbn [limit_chars].
  { destruct (env_Items env); lia. }
  destruct (payload_len env <=? m)%Z eqn:E.
  { exists env. bool_to_prop. split_and!; [done|apply limited_refl|by left]. }
  destruct (env_Items env) as [l|v] eqn:Hi.
  - destruct (length l <=? 1) eqn:Hl; bool_to_prop.
    + eexists. split; [done|]. destruct (oversized_limited m pg om env) as [? ?]. split; [done|].
      right. split; [done|]. cbn. by rewrite Hi.
    + destruct (drop_last_limited l env Hi) as [Hd Hs].
      destruct (IH (om + 1)%Z (drop_last l env)) as (env' & He & Hlim & Hfit).
      { rewrite Hs, length_take. lia. }
      exists env'. split_and!; [done|by eapply limited_trans|done].
  - eexists. split; [done|]. destruct (oversized_limited m pg om env) as [? ?]. split; [done|].
    right. split; [done|]. cbn. by rewrite Hi.
Qed.

(** The limits of an envelope.  The items of the answer are the first items of the
    envelope, no more than [MaxItems]; the answer fits the character limit or is down
    to one item; the omissions only grow; and whenever something was dropped, the
    answer says so: it is marked truncated and has an omission with a code. *)
Theorem envelope_limits env opts :
  exists env1 r, ApplyEnvelopeLimits payload_len env opts = Ok r /\ r = set_returned env1 /\
    limited env env1 /\
    ((0 < MaxItems opts)%Z -> forall l, env_Items r = Slice l -> (Z.of_nat (length l) <= MaxItems opts)%Z) /\
    ((0 < effective_chars opts)%Z -> fits (effective_chars opts) env1).
Proof.
  unfold ApplyEnvelopeLimits. destruct (limit_items opts env) as [[env0 pg] om] eqn:Hl.
  destruct (limit_items_limited _ _ _ _ _ Hl) as [H0 Hmax]. destruct (effective_chars opts <=? 0)%Z eqn:Em.
  - exists env0, (set_returned env0). bool_to_prop. split_and!; try done. lia.
  - destruct (limit_chars_ok (match env_Items env0 with Slice l => S (length l) | Other _ => 1 end)
      (effective_chars opts) pg om env0) as (env1 & -> & H1 & Hfit); [case_match; lia|].
    exists env1, (set_returned env1). split_and!; try done; [by eapply limited_trans|].
    intros Hm l Hi. cbn in Hi.
    pose proof (li_items _ _ H1) as Hit. destruct (env_Items env0) as [l0|v]; [|congruence].
    destruct Hit as [n Hn]. rewrite Hn in Hi. injection Hi as <-. specialize (Hmax Hm l0 eq_refl).
    rewrite length_take. lia.
Qed.
End envelope_facts.
(** * The continuation is copied whole *)

(** ** The text of JSON values *)

(** What stands between the quotes of a JSON string. *)
Inductive jstring : gostring -> Prop :=
  | js_nil : jstring []
  | js_plain c s : c <> QUOTE -> c <> BSLASH -> jstring s -> jstring (c :: s)
  | js_escape c s : c <> "u"%char -> jstring s -> jstring (BSLASH :: c :: s)
  | js_unicode a b c d s : jstring s -> jstring (BSLASH :: "u"%char :: a :: b :: c :: d :: s).
Definition quoted (s : gostring) : gostring := QUOTE :: s ++ [QUOTE].
(** Values: strings, atoms, and balanced containers of anything. *)
Definition atom_byte (c : ascii) : bool :=
  negb (memByte c [","%char; "}"%char; "]"%char; SP; LF; CR; TAB]) && negb (memByte c [QUOTE; "{"%char; "["%char]).
Inductive jvalue : gostring -> Prop :=
  | jv_string s : jstring s -> jvalue (quoted s)
  | jv_atom c s : atom_byte c = true -> forallb atom_byte s = true -> jvalue (c :: s)
  | jv_object s : jinner s -> jvalue ("{"%char :: s ++ ["}"%char])
  | jv_array s : jinner s -> jvalue ("["%char :: s ++ ["]"%char])
with jinner : gostring -> Prop :=
  | ji_nil : jinner []
  | ji_byte c s : memByte c [QUOTE; "{"%char; "}"%char; "["%char; "]"%char] = false -> jinner s -> jinner (c :: s)
  | ji_string v s : jstring v -> jinner s -> jinner (quoted v ++ s)
  | ji_object v s : jinner v -> jinner s -> jinner ("{"%char :: v ++ "}"%char :: s)
  | ji_array v s : jinner v -> jinner s -> jinner ("["%char :: v ++ "]"%char :: s).
Scheme jinner_ind' := Induction for jinner Sort Prop.
(** Text in which every quote belongs to a string. *)
Inductive jtext : gostring -> Prop :=
  | jt_nil : jtext []
  | jt_byte c s : c <> QUOTE -> jtext s -> jtext (c :: s)
  | jt_string v s : jstring v -> jtext s -> jtext (quoted v ++ s).
(** The same, without the key ["continuation"] followed by a colon. *)
Definition colon_follows (s : gostring) : bool :=
  match trimLeftSet s [SP; LF; CR; TAB] with c :: _ => Ascii.eqb c ":" | [] => false end.
Inductive nokey : gostring -> Prop :=
  | nk_nil : nokey []
  | nk_byte c s : c <> QUOTE -> nokey s -> nokey (c :: s)
  | nk_string v s :
      jstring v -> (v = "continuation"%go -> colon_follows s = false) -> nokey s -> nokey (quoted v ++ s).

Lemma string_end_quoted s i post :
  jstring s -> string_end_from 0 i (s ++ QUOTE :: post) = i + S (length s).
Proof.
  intros Hs. revert i. induction Hs as [|c s Hq Hb Hs IH|c s Hu Hs IH|a b c d s Hs IH]; intros i.
  - cbn [app length]. rewrite string_end_step. cbn. lia.
  - cbn [app length]. rewrite string_end_step. apply Ascii.eqb_neq in Hq, Hb. rewrite Hq, Hb, IH. lia.
  - cbn [app length]. rewrite string_end_step. apply Ascii.eqb_neq in Hu. rewrite Ascii.eqb_refl, Hu. cbn [andb].
    change (string_end_from 0 (S (S i)) (s ++ QUOTE :: post) = i + S (S (S (length s)))). rewrite IH. lia.
  - cbn [app length]. rewrite string_end_step, !Ascii.eqb_refl.
    assert ((5 <=? length ("u"%char :: a :: b :: c :: d :: s ++ QUOTE :: post)) = true) as -> by done.
    change (string_end_from 0 (6 + i) (s ++ QUOTE :: post) = i + S (6 + length s)). rewrite IH. lia.
Qed.
Lemma jsonStringEnd_quoted pre s post :
  jstring s -> jsonStringEnd (pre ++ quoted s ++ post) (length pre) = length pre + length (quoted s).
Proof.
  intros Hs. unfold jsonStringEnd. rewrite drop_app_length. unfold quoted. cbn [app]. rewrite Ascii.eqb_refl.
  rewrite <- app_assoc. cbn [app]. rewrite string_end_quoted by done. cbn [length]. rewrite length_app. cbn. lia.
Qed.
Lemma jsonStringEnd_at src pre s post :
  src = pre ++ quoted s ++ post -> jstring s -> jsonStringEnd src (length pre) = length (pre ++ quoted s).
Proof. intros -> Hs. rewrite jsonStringEnd_quoted, length_app by done. done. Qed.
Lemma at_app pre c post : at_ (pre ++ c :: post) (length pre) = Ok c.
Proof. unfold at_. by rewrite list_lookup_middle. Qed.
Lemma inside_app (pre post : gostring) c : (length (pre ++ c :: post) <=? length pre) = false.
Proof. apply Nat.leb_gt. rewrite length_app. cbn. lia. Qed.

(** ** Containers *)
Section container.
Context (open close : ascii).
Hypothesis (Hpair : open = "{"%char /\ close = "}"%char \/ open = "["%char /\ close = "]"%char).

Lemma step_byte fuel src pre c post depth :
  src = pre ++ c :: post -> Ascii.eqb c QUOTE = false ->
  container_end (S fuel) src open close depth (length pre) =
    if Ascii.eqb c open then container_end fuel src open close (depth + 1) (length (pre ++ [c]))
    else if Ascii.eqb c close then
      if (depth - 1 =? 0)%Z then Ok (length (pre ++ [c]))
      else container_end fuel src open close (depth - 1) (length (pre ++ [c]))
    else container_end fuel src open close depth (length (pre ++ [c])).
Proof.
  intros -> Hq. cbn [container_end]. rewrite inside_app, at_app. cbn [mbind result_bind]. rewrite Hq.
  rewrite length_app. cbn [length]. by rewrite Nat.add_1_r.
Qed.
Lemma step_quoted fuel src pre v post depth :
  src = pre ++ quoted v ++ post -> jstring v ->
  container_end (S fuel) src open close depth (length pre) =
    container_end fuel src open close depth (length (pre ++ quoted v)).
Proof.
  intros Hsrc Hv. rewrite <- (jsonStringEnd_at src pre v post) by done. subst src. unfold quoted. cbn [app].
  cbn [container_end]. rewrite inside_app, at_app. cbn [mbind result_bind]. by rewrite Ascii.eqb_refl.
Qed.
(** Reading [s] uses at most [length s] fuel and leaves the depth as it is. *)
Definition passes (s : gostring) : Prop := forall fuel pre post depth src,
  (0 < depth)%Z -> length s <= fuel -> src = pre ++ s ++ post ->
  exists fuel', fuel - length s <= fuel' /\
    container_end fuel src open close depth (length pre) = container_end fuel' src open close depth (length (pre ++ s)).
Lemma passes_app s t : passes s -> passes t -> passes (s ++ t).
Proof.
  intros Hs Ht fuel pre post depth src Hd Hf Hsrc. rewrite length_app in Hf. rewrite <- app_assoc in Hsrc.
  destruct (Hs fuel pre (t ++ post) depth src Hd ltac:(lia) Hsrc) as (f1 & H1 & ->).
  rewrite app_assoc in Hsrc. destruct (Ht f1 (pre ++ s) post depth src Hd ltac:(lia) Hsrc) as (f2 & H2 & ->).
  exists f2. rewrite length_app, app_assoc. split; [lia|done].
Qed.
Lemma passes_other c : Ascii.eqb c QUOTE = false -> c <> open -> c <> close -> passes [c].
Proof.
  intros Hq Ho Hc fuel pre post depth src Hd Hf Hsrc. destruct fuel as [|fuel]; [cbn in Hf; lia|].
  exists fuel. split; [cbn; lia|]. rewrite (step_byte _ _ _ c post) by done.
  apply Ascii.eqb_neq in Ho, Hc. by rewrite Ho, Hc.
Qed.
Lemma passes_quoted v : jstring v -> passes (quoted v).
Proof.
  intros Hv fuel pre post depth src Hd Hf Hsrc. destruct fuel as [|fuel]; [cbn in Hf; lia|].
  exists fuel. split; [cbn; lia|]. by rewrite (step_quoted _ _ _ v post).
Qed.
Lemma passes_nested v : open <> close -> open <> QUOTE -> close <> QUOTE -> passes v -> passes (open :: v ++ [close]).
Proof.
  intros Hoc Ho%Ascii.eqb_neq Hc%Ascii.eqb_neq Hv fuel pre post depth src Hd Hf Hsrc.
  cbn [length] in Hf. rewrite length_app in Hf. cbn [length] in Hf. destruct fuel as [|fuel]; [lia|].
  cbn [app] in Hsrc. rewrite <- app_assoc in Hsrc.
  rewrite (step_byte _ _ _ open (v ++ [close] ++ post)) by done. rewrite Ascii.eqb_refl.
  destruct (Hv fuel (pre ++ [open]) ([close] ++ post) (depth + 1)%Z src ltac:(lia) ltac:(lia)) as (f1 & H1 & ->).
  { by rewrite <- app_assoc. }
  destruct f1 as [|f1]; [lia|]. rewrite (step_byte _ _ _ close post); [|by rewrite Hsrc, <- !app_assoc|done].
  assert (Ascii.eqb close open = false) as -> by (apply Ascii.eqb_neq; congruence). rewrite Ascii.eqb_refl.
  replace (depth + 1 - 1)%Z with depth by lia. rewrite (proj2 (Z.eqb_neq depth 0)) by lia.
  exists f1. split; [cbn [length]; rewrite length_app; cbn [length]; lia|]. by rewrite <- !app_assoc.
Qed.
Lemma inner_passes s : jinner s -> passes s.
Proof.
  induction 1 as [|c s Hc Hs IH|v s Hv Hs IH|v s Hv IHv Hs IH|v s Hv IHv Hs IH] using jinner_ind'.
  - intros fuel pre post depth src _ _ _. exists fuel. rewrite app_nil_r. split; [lia|done].
  - apply (passes_app [c]); [|done]. assert (forall x, x ∈ [QUOTE; "{"%char; "}"%char; "["%char; "]"%char] -> c <> x).
    { intros x Hx ->. apply memByte_iff in Hx. congruence. }
    apply passes_other; [apply Ascii.eqb_neq|destruct Hpair as [[-> ->]|[-> ->]]..]; set_solver.
  - apply passes_app; [by apply passes_quoted|done].
  - replace ("{"%char :: v ++ "}"%char :: s) with (("{"%char :: v ++ ["}"%char]) ++ s) by (cbn; by rewrite <- app_assoc).
    apply passes_app; [|done]. destruct Hpair as [[E1 E2]|[E1 E2]].
    + rewrite <- E1, <- E2. apply passes_nested; [by rewrite E1, E2|by rewrite E1|by rewrite E2|done].
    + apply (passes_app ["{"%char]); [|apply passes_app; [done|]]; apply passes_other; by rewrite ?E1, ?E2.
  - replace ("["%char :: v ++ "]"%char :: s) with (("["%char :: v ++ ["]"%char]) ++ s) by (cbn; by rewrite <- app_assoc).
    apply passes_app; [|done]. destruct Hpair as [[E1 E2]|[E1 E2]].
    + apply (passes_app ["["%char]); [|apply passes_app; [done|]]; apply passes_other; by rewrite ?E1, ?E2.
    + rewrite <- E1, <- E2. apply passes_nested; [by rewrite E1, E2|by rewrite E1|by rewrite E2|done].
Qed.
Lemma container_exact src pre s post :
  jinner s -> src = pre ++ (open :: s ++ [close]) ++ post ->
  container_end (length src) src open close 0 (length pre) = Ok (length (pre ++ open :: s ++ [close])).
Proof.
  intros Hs Hsrc. assert (Ho : open <> QUOTE /\ close <> QUOTE /\ close <> open) by (by destruct Hpair as [[-> ->]|[-> ->]]).
  destruct Ho as (Ho%Ascii.eqb_neq & Hc%Ascii.eqb_neq & Hne%Ascii.eqb_neq).
  assert (Hlen : length src = S (length pre + length s + S (length post))).
  { rewrite Hsrc. cbn [app]. rewrite length_app. cbn [length]. rewrite !length_app. cbn. lia. }
  rewrite Hlen. cbn [app] in Hsrc. rewrite <- app_assoc in Hsrc.
  rewrite (step_byte _ _ _ open (s ++ [close] ++ post)) by done. rewrite Ascii.eqb_refl. change (0 + 1)%Z with 1%Z.
  destruct (inner_passes s Hs (length pre + length s + S (length post)) (pre ++ [open]) ([close] ++ post) 1%Z src)
    as (f1 & H1 & ->); [lia|lia|by rewrite <- app_assoc|].
  destruct f1 as [|f1]; [lia|]. rewrite (step_byte _ _ _ close post); [|by rewrite Hsrc, <- !app_assoc|done].
  rewrite Hne, Ascii.eqb_refl. change (1 - 1 =? 0)%Z with true. cbv iota. by rewrite <- !app_assoc.
Qed.
End container.

(** ** Values and white space *)
Lemma trimLeftSet_exact set w c t :
  (forall x, x ∈ w -> memByte x set = true) -> memByte c set = false -> trimLeftSet (w ++ c :: t) set = c :: t.
Proof.
  intros Hw Hc. induction w as [|x w IH]; cbn [app trimLeftSet]; [by rewrite Hc|].
  rewrite Hw by (by left). apply IH. intros y Hy. apply Hw. by right.
Qed.
Definition blank (w : gostring) : Prop := forallb isWS w = true.
Lemma blank_elem w : blank w -> forall x, x ∈ w -> memByte x [SP; LF; CR; TAB] = true.
Proof. unfold blank. rewrite forallb_forall. intros Hw x Hx%list_elem_of_In. by apply Hw. Qed.
Definition solid_start (t : gostring) : Prop := match t with c :: _ => isWS c = false | [] => True end.
Lemma skip_from_blank w t i : blank w -> solid_start t -> skip_from i (w ++ t) = i + length w.
Proof.
  intros Hw Ht. revert i Hw. induction w as [|c w IH]; intros i Hw; cbn [app skip_from length].
  - destruct t as [|c t]; [cbn; lia|]. cbn. cbn in Ht. rewrite Ht. lia.
  - unfold blank in *. cbn in Hw. apply andb_true_iff in Hw as [-> Hw]. rewrite (IH (S i)) by done. lia.
Qed.
Lemma skipWS_blank src pre w t :
  src = pre ++ w ++ t -> blank w -> solid_start t -> skipWS src (length pre) = length (pre ++ w).
Proof. intros -> Hw Ht. unfold skipWS. by rewrite drop_app_length, skip_from_blank, length_app. Qed.
Lemma skipWS_solid src pre t : src = pre ++ t -> solid_start t -> skipWS src (length pre) = length pre.
Proof. intros Hsrc Ht. rewrite (skipWS_blank src pre [] t), app_nil_r by done. done. Qed.
Lemma inside_src src pre c post : src = pre ++ c :: post -> (length src <=? length pre) = false /\ at_ src (length pre) = Ok c.
Proof. intros ->. split; [apply inside_app|apply at_app]. Qed.

(** A value ends where a separator, white space or the text follows. *)
Definition delimited (post : gostring) : Prop :=
  match post with c :: _ => memByte c [","%char; "}"%char; "]"%char; SP; LF; CR; TAB] = true | [] => True end.
Lemma atom_end_exact s post i :
  forallb atom_byte s = true -> delimited post -> atom_end i (s ++ post) = i + length s.
Proof.
  revert i. induction s as [|c s IH]; intros i Hs Hp; cbn [app length].
  - destruct post as [|c post]; cbn in *; [lia|]. rewrite Hp. lia.
  - apply andb_true_iff in Hs as [Hc Hs]. cbn [atom_end]. unfold atom_byte in Hc.
    apply andb_true_iff in Hc as [Hc _]. apply negb_true_iff in Hc. rewrite Hc, (IH (S i)) by done. lia.
Qed.
Lemma value_start v : jvalue v -> exists c t, v = c :: t /\ isWS c = false.
Proof.
  intros [s Hs|c s Hc Hs|s Hs|s Hs]; try (by eexists _, _).
  exists c, s. split; [done|]. unfold atom_byte in Hc. apply andb_true_iff in Hc as [Hc _].
  apply negb_true_iff in Hc. unfold isWS. apply not_true_iff_false. intros Hin%memByte_iff.
  apply not_true_iff_false in Hc. apply Hc, memByte_iff. set_solver.
Qed.
Lemma jsonValueEnd_exact src pre v post :
  src = pre ++ v ++ post -> jvalue v -> delimited post ->
  jsonValueEnd src (length pre) = Ok (length (pre ++ v)).
Proof.
  intros Hsrc Hv Hp. destruct (value_start v Hv) as (c & t & Hct & Hc). unfold jsonValueEnd.
  assert (Hs : src = pre ++ c :: (t ++ post)) by (by rewrite Hsrc, Hct).
  rewrite (skipWS_solid src pre (c :: (t ++ post))) by done.
  destruct (inside_src src pre c (t ++ post) Hs) as [Hin Hat]. rewrite Hin, Hat. cbn [mbind result_bind].
  destruct Hv as [s Hstr|c0 s Hc0 Hs0|s Hin0|s Hin0]; injection Hct as <- <-.
  - cbn. f_equal. by apply (jsonStringEnd_at src pre s post).
  - unfold atom_byte in Hc0. assert (Hq : memByte c0 [QUOTE; "{"%char; "["%char] = false) by (by apply andb_true_iff in Hc0 as [_ ?%negb_true_iff]).
    assert (Hnot : forall x, x ∈ [QUOTE; "{"%char; "["%char] -> c0 <> x).
    { intros x Hx ->. apply memByte_iff in Hx. congruence. }
    rewrite (proj2 (Ascii.eqb_neq c0 QUOTE)) by (apply Hnot; set_solver).
    assert (memByte c0 "{[" = false) as ->.
    { apply not_true_iff_false. intros Hx%memByte_iff. apply (Hnot c0); [set_solver|done]. }
    rewrite Hs, drop_app_length. change (c0 :: s ++ post) with ((c0 :: s) ++ post).
    rewrite atom_end_exact; [by rewrite length_app|by apply andb_true_iff|done].
  - cbn [Ascii.eqb QUOTE]. unfold jsonContainerEnd. rewrite Hat. cbn [mbind result_bind].
    by apply (container_exact "{" "}" ltac:(auto) src pre s post).
  - unfold jsonContainerEnd. rewrite Hat. cbn [mbind result_bind].
    by apply (container_exact "[" "]" ltac:(auto) src pre s post).
Qed.

(** ** Finding the key *)
Lemma slice_quoted src pre v post :
  src = pre ++ quoted v ++ post -> slice src (S (length pre)) (length (pre ++ quoted v) - 1) = Ok v.
Proof.
  intros ->. unfold slice, quoted. rewrite !length_app. cbn [length app]. rewrite !length_app. cbn [length].
  rewrite !(proj2 (Nat.leb_le _ _)) by lia. cbn [andb]. f_equal.
  rewrite drop_app_S, <- app_assoc. replace (_ - _ - _) with (length v) by lia. apply take_app_length.
Qed.
Lemma nextNonWS_trim src pre t :
  src = pre ++ t -> nextNonWSByte src (length pre) =
    Ok (match trimLeftSet t [SP; LF; CR; TAB] with c :: _ => c | [] => "000"%char end).
Proof.
  intros ->. unfold nextNonWSByte, skipWS. rewrite drop_app_length. revert pre.
  induction t as [|c t IH]; intros pre.
  - cbn. rewrite app_nil_r, Nat.leb_refl. done.
  - cbn [skip_from trimLeftSet]. unfold isWS at 1 2. destruct (memByte c [SP; LF; CR; TAB]).
    + specialize (IH (pre ++ [c])). rewrite last_length, <- app_assoc in IH. exact IH.
    + by rewrite inside_app, at_app.
Qed.
(** One string. *)
Lemma span_quoted fuel src found pre v post :
  src = pre ++ quoted v ++ post -> jstring v ->
  exists found', json_span (S fuel) src found (length pre) = json_span fuel src found' (length (pre ++ quoted v)) /\
    ((v = "continuation"%go -> colon_follows post = false) -> found' = found) /\
    (forall w1 w2 u rest, v = "continuation"%go -> post = w1 ++ ":"%char :: w2 ++ u ++ rest ->
       blank w1 -> blank w2 -> jvalue u -> delimited rest ->
       found' = Some (length pre, length (pre ++ quoted v ++ w1 ++ ":"%char :: w2 ++ u))).
Proof.
  intros Hsrc Hv. cbn [json_span].
  destruct (inside_src src pre QUOTE (v ++ [QUOTE] ++ post)) as [Hin Hat];
    [rewrite Hsrc; unfold quoted; cbn [app]; by rewrite <- app_assoc|].
  rewrite Hin, Hat. cbn [mbind result_bind]. rewrite Ascii.eqb_refl. cbn [negb].
  rewrite (jsonStringEnd_at src pre v post) by done.
  assert (length (pre ++ quoted v) <=? length pre = false) as ->.
  { apply Nat.leb_gt. rewrite length_app. unfold quoted. cbn. lia. }
  rewrite (slice_quoted src pre v post) by done. cbn [mbind result_bind].
  rewrite app_assoc in Hsrc. pose proof (nextNonWS_trim src (pre ++ quoted v) post Hsrc) as Hnext.
  destruct (streq v "continuation") eqn:Hkey; cbn [andb].
  2:{ exists found. apply streq_false in Hkey. by split_and!. }
  apply streq_true in Hkey. rewrite Hnext. cbn [mbind result_bind].
  destruct (Ascii.eqb _ ":") eqn:Hcolon.
  2:{ exists found. split_and!; [done|done|]. intros w1 w2 u rest _ -> Hw1 _ _ _. exfalso.
      assert (trimLeftSet (w1 ++ ":"%char :: w2 ++ u ++ rest) [SP; LF; CR; TAB] = ":"%char :: w2 ++ u ++ rest) as E.
      { apply trimLeftSet_exact; [|done]. by apply blank_elem. }
      by rewrite E in Hcolon. }
  assert (Hf : colon_follows post = true) by (unfold colon_follows; by destruct (trimLeftSet _ _)).
  set (A := pre ++ quoted v) in *. assert (HA : length A <= length src) by (rewrite Hsrc, length_app; lia).
  pose proof (skipWS_range src (length A) HA) as Hk. set (k := skipWS src (length A)) in *.
  assert (Hval : exists e, jsonValueEnd src (skipWS src (S k)) = Ok e).
  { destruct (decide (k < length src)) as [Hlt|Hge].
    - destruct (jsonValueEnd_ok src (skipWS src (S k))) as (e & He & _); [apply skipWS_range; lia|eauto].
    - unfold jsonValueEnd. rewrite !(skipWS_beyond src (S k)) by lia.
      rewrite (proj2 (Nat.leb_le (length src) (S k))) by lia. eauto. }
  destruct Hval as [e He]. rewrite He. cbn [mbind result_bind].
  assert (Hat_k : exists c, (if k <? length src then at_ src k else Ok "000"%char) = Ok (E := crash) c).
  { destruct (k <? length src) eqn:Hlt; [|eauto]. bool_to_prop. destruct (at_ok src k) as (c & _ & ?); [lia|eauto]. }
  destruct Hat_k as [c Hck]. rewrite Hck. cbn [mbind result_bind].
  exists (if Ascii.eqb c ":" then Some (length pre, e) else found). split_and!.
  - by destruct (Ascii.eqb c ":").
  - intros Hno. rewrite Hno in Hf by done. done.
  - intros w1 w2 u rest _ Hpost Hw1 Hw2 Hu Hrest.
    destruct (value_start u Hu) as (x & t & Hx & Hxs).
    assert (Hk1 : k = length (A ++ w1)).
    { apply (skipWS_blank src A w1 (":"%char :: w2 ++ u ++ rest)); [by rewrite Hsrc, Hpost|done|done]. }
    destruct (inside_src src (A ++ w1) ":" (w2 ++ u ++ rest)) as [Hin1 Hat1].
    { by rewrite Hsrc, Hpost, <- app_assoc. }
    rewrite Hk1, Nat.ltb_antisym, Hin1, Hat1 in Hck. injection Hck as <-.
    assert (Hk2 : skipWS src (S k) = length ((A ++ w1 ++ [":"%char]) ++ w2)).
    { replace (S k) with (length (A ++ w1 ++ [":"%char])) by (rewrite Hk1, !length_app; cbn; lia).
      apply (skipWS_blank src _ w2 (u ++ rest)); [by rewrite Hsrc, Hpost, <- !app_assoc|done|by rewrite Hx]. }
    rewrite Hk2 in He. rewrite (jsonValueEnd_exact src _ u rest) in He; [|by rewrite Hsrc, Hpost, <- !app_assoc|done|done].
    injection He as <-. rewrite Ascii.eqb_refl. subst A. by rewrite <- !app_assoc.
Qed.
Lemma span_byte fuel src found pre c post :
  src = pre ++ c :: post -> c <> QUOTE ->
  json_span (S fuel) src found (length pre) = json_span fuel src found (length (pre ++ [c])).
Proof.
  intros Hsrc Hc%Ascii.eqb_neq. cbn [json_span]. destruct (inside_src src pre c post Hsrc) as [-> ->].
  cbn [mbind result_bind]. rewrite Hc, last_length. done.
Qed.
Lemma span_text s : jtext s -> forall fuel src found pre post,
  src = pre ++ s ++ post -> length s <= fuel ->
  exists fuel' found', fuel - length s <= fuel' /\
    json_span fuel src found (length pre) = json_span fuel' src found' (length (pre ++ s)).
Proof.
  induction 1 as [|c s Hc Hs IH|v s Hv Hs IH]; intros fuel src found pre post Hsrc Hf.
  - exists fuel, found. rewrite app_nil_r. split; [lia|done].
  - cbn [length] in Hf. destruct fuel as [|fuel]; [lia|]. rewrite (span_byte _ _ _ _ c (s ++ post)) by done.
    destruct (IH fuel src found (pre ++ [c]) post) as (f & g & Hfl & ->); [by rewrite <- app_assoc|lia|].
    exists f, g. rewrite <- app_assoc. split; [cbn; lia|done].
  - rewrite length_app in Hf. assert (1 <= length (quoted v)) by (unfold quoted; cbn; lia).
    destruct fuel as [|fuel]; [lia|]. rewrite <- app_assoc in Hsrc.
    destruct (span_quoted fuel src found pre v (s ++ post) Hsrc Hv) as (found1 & -> & _).
    destruct (IH fuel src found1 (pre ++ quoted v) post) as (f & g & Hfl & ->); [by rewrite <- app_assoc|lia|].
    exists f, g. rewrite length_app, <- app_assoc. split; [lia|done].
Qed.
Lemma span_nokey s : nokey s -> forall fuel src found pre,
  src = pre ++ s -> length s <= fuel -> json_span fuel src found (length pre) = Ok found.
Proof.
  induction 1 as [|c s Hc Hs IH|v s Hv Hno Hs IH]; intros fuel src found pre Hsrc Hf.
  - rewrite app_nil_r in Hsrc. subst. destruct fuel; cbn [json_span]; by rewrite Nat.leb_refl.
  - cbn [length] in Hf. destruct fuel as [|fuel]; [lia|]. rewrite (span_byte _ _ _ _ c s) by done.
    apply IH; [by rewrite <- app_assoc|lia].
  - rewrite length_app in Hf. assert (1 <= length (quoted v)) by (unfold quoted; cbn; lia).
    destruct fuel as [|fuel]; [lia|].
    destruct (span_quoted fuel src found pre v s Hsrc Hv) as (found1 & -> & Hsame & _).
    rewrite (Hsame Hno). apply IH; [by rewrite <- app_assoc|lia].
Qed.

Definition cont_key : gostring := "continuation".
(** The key, its colon and its value, as rendered. *)
Definition cont_block (w1 w2 v : gostring) : gostring := quoted cont_key ++ w1 ++ ":"%char :: w2 ++ v.

(** C6: the continuation is preserved.  In rendered JSON (an object or an array) in which
    the key ["continuation"] stands nowhere after this place, neither in its value nor
    later, and with a limit that the text exceeds but that is larger than the marker and the
    continuation together, the capped text is a first part of what stands before the key,
    the marker, and the key with its whole value, byte by byte. *)
Theorem continuation_preserved pre w1 w2 v post maxChars :
  jtext pre -> blank w1 -> blank w2 -> jvalue v -> delimited post ->
  nokey (w1 ++ ":"%char :: w2 ++ v ++ post) ->
  (exists w c t, pre = w ++ c :: t /\ blank w /\ c ∈ ["{"%char; "["%char]) ->
  let rendered := pre ++ cont_block w1 w2 v ++ post in
  let len s := Z.of_nat (length s) in
  let marker := cap_marker (len rendered - maxChars) in
  (0 < maxChars < len rendered)%Z -> (len (cont_block w1 w2 v) + len marker < maxChars)%Z ->
  exists k, CapRendered rendered maxChars = Ok (take k pre ++ marker ++ cont_block w1 w2 v).
Proof.
  intros Hpre Hw1 Hw2 Hv Hpost Hno (w & c & t & Hw & Hbl & Hc) rendered len marker Hm Hfit.
  assert (Hsrc : rendered = pre ++ quoted cont_key ++ (w1 ++ ":"%char :: w2 ++ v ++ post)).
  { unfold rendered, cont_block. by rewrite <- !app_assoc, <- app_comm_cons, <- !app_assoc. }
  assert (Hspan : jsonContinuationSpan rendered = Ok (Some (length pre, length (pre ++ cont_block w1 w2 v)))).
  { unfold jsonContinuationSpan. pose proof Hsrc as Hsrc'.
    assert (Hlen : length rendered = length pre + (length (quoted cont_key) + length (w1 ++ ":"%char :: w2 ++ v ++ post)))
      by (by rewrite Hsrc, !length_app).
    destruct (span_text pre Hpre (length rendered) rendered None [] (quoted cont_key ++ (w1 ++ ":"%char :: w2 ++ v ++ post)))
      as (f & g & Hf & Hrun); [done|lia|].
    cbn [length app] in Hrun. rewrite Hrun. destruct f as [|f]; [cbn in Hlen; lia|].
    assert (Hkey : jstring cont_key) by (by repeat constructor).
    destruct (span_quoted f rendered g pre cont_key (w1 ++ ":"%char :: w2 ++ v ++ post) Hsrc Hkey) as (found & -> & _ & Hfound).
    rewrite (Hfound w1 w2 v post eq_refl eq_refl Hw1 Hw2 Hv Hpost).
    apply span_nokey with (s := w1 ++ ":"%char :: w2 ++ v ++ post); [done|by rewrite <- app_assoc|].
    cbn in Hlen. lia. }
  assert (Htrim : exists c' t', trimLeftSet rendered [SP; TAB; CR; LF] = c' :: t' /\ memByte c' "{[" = true).
  { exists c, (t ++ cont_block w1 w2 v ++ post). split; [|apply memByte_iff; set_solver].
    unfold rendered. rewrite Hw, <- app_assoc. apply trimLeftSet_exact.
    - intros x Hx%(blank_elem w Hbl). apply memByte_iff in Hx. apply memByte_iff. set_solver.
    - apply elem_of_cons in Hc as [->|Hc]; [done|]. by apply list_elem_of_singleton in Hc as ->. }
  destruct Htrim as (c' & t' & Htrim & Hc').
  unfold CapRendered. cbv zeta. destruct (_ || _) eqn:E;
    [exfalso; apply orb_true_iff in E as [?%Z.leb_le|?%Z.leb_le]; unfold len in *; lia|clear E].
  unfold continuationSpan. rewrite Htrim, Hc', Hspan. cbn [mbind result_bind].
  assert (slice rendered (length pre) (length (pre ++ cont_block w1 w2 v)) = Ok (cont_block w1 w2 v)) as ->.
  { unfold slice, rendered. rewrite !length_app, !(proj2 (Nat.leb_le _ _)) by lia. cbn [andb].
    rewrite drop_app_length. replace (_ - _) with (length (cont_block w1 w2 v)) by lia. by rewrite take_app_length. }
  cbn [mbind result_bind]. unfold len in marker. fold marker.
  rewrite (proj2 (Z.leb_gt maxChars _)) by (unfold len in *; lia). unfold rendered. rewrite take_app_length.
  match goal with |- context [prefixWithin pre ?n] => destruct (prefixWithin_prefix pre n) as [k ->] end. by exists k.
Qed.

(** ** An example *)
Module Example_cap.
Definition ex_pre : gostring :=
  "{" ++ quoted "items" ++ ":[" ++ quoted (repeat "x"%char 150) ++ "],".
Definition ex_value : gostring :=
  "{" ++ quoted "op" ++ ":" ++ quoted ("C:\" ++ "\r") ++ ",n:[1,2]" ++ "}".
Definition ex_rendered : gostring := ex_pre ++ cont_block [] " " ex_value ++ "}".
Lemma ex_jstring : jstring (repeat "x"%char 150).
Proof. generalize 150 as n. induction n as [|n IH]; cbn; [constructor|by apply js_plain]. Qed.
Ltac inner_bytes := repeat (apply ji_byte; [done|]).
Lemma ex_jvalue : jvalue ex_value.
Proof.
  apply (jv_object (quoted "op" ++ ":" ++ quoted ("C:\" ++ "\r") ++ ",n:" ++ "[" ++ "1,2" ++ "]" ++ [])).
  apply ji_string; [by repeat constructor|]. inner_bytes.
  apply (ji_string ("C:\" ++ "\r")).
  { apply js_plain; [done..|]. apply js_plain; [done..|]. apply js_escape; [done|]. apply js_plain; [done..|constructor]. }
  inner_bytes. apply (ji_array "1,2" []); [inner_bytes|]; constructor.
Qed.
Lemma ex_jtext : jtext ex_pre.
Proof.
  apply (jt_byte "{"); [done|]. apply (jt_string "items"); [by repeat constructor|].
  apply jt_byte; [done|]. apply jt_byte; [done|]. apply jt_string; [exact ex_jstring|].
  apply jt_byte; [done|]. apply jt_byte; [done|]. constructor.
Qed.
Lemma ex_nokey : nokey ([] ++ ":"%char :: " " ++ ex_value ++ "}").
Proof.
  cbn [app]. repeat (apply nk_byte; [done|]).
  apply (nk_string "op"); [by repeat constructor|done|]. apply nk_byte; [done|].
  apply (nk_string ("C:\" ++ "\r")); [|done|repeat (apply nk_byte; [done|]); constructor].
  apply js_plain; [done..|]. apply js_plain; [done..|]. apply js_escape; [done|]. apply js_plain; [done..|constructor].
Qed.
Lemma continuation_preserved_witness :
  exists k, CapRendered ex_rendered 160 = Ok (take k ex_pre ++ cap_marker (Z.of_nat (length ex_rendered) - 160) ++ cont_block [] " " ex_value).
Proof.
  refine (continuation_preserved ex_pre [] " " ex_value "}" 160 ex_jtext eq_refl eq_refl ex_jvalue eq_refl ex_nokey _ _ _).
  - exists [], "{"%char, (drop 1 ex_pre). split_and!; [done|done|by left].
  - by vm_compute.
  - by vm_compute.
Defined.
Lemma cap_rendered_utf8_witness :
  exists out, CapRendered ("é continuation" ++ ex_rendered) 40 = Ok out /\ validString out = true.
Proof.
  destruct (CapRendered ("é continuation" ++ ex_rendered) 40) as [out|e] eqn:E; [|by vm_compute in E].
  assert (Hv : validString ("é continuation" ++ ex_rendered) = true) by by vm_compute.
  exact (ex_intro _ out (conj eq_refl (cap_rendered_utf8 _ 40 out Hv E))).
Defined.
End Example_cap.
